(* ===== verification/_CoqProject ===== *)
-Q . S2P
Prelude.v
GoStrings.v
GoValue.v
GoFloat.v
StrategyParse.v
Registry.v
Retry.v
SharedState.v
RoundRobin.v
ClientResolution.v
Dfs.v
LegacyChild.v
FallbackResolve.v
RetryPolicy.v
Metadata.v
Cadence.v
Sse.v
Orchestration.v
CallOrchestrator.v
StreamOrchestrator.v
WorkerErrors.v
StderrTail.v
PoolStream.v
PoolRequest.v
Jsonish.v
FixParse.v
FixStream.v
Extract.v
Schema.v
Unicode.v
MatchString.v
NumberText.v
PairGuard.v
Candidate.v
OutputText.v
Gate.v
LeafCoerce.v
TryCast.v
Coerce.v
NumberValid.v
CoerceTyping.v
CoerceSound.v
GateFuel.v
CoerceFuel.v
AliasCoerce.v
AliasSound.v
AliasTyping.v
OrderedMap.v
Reachability.v
DynamicSchema.v
DynamicLowering.v
DisplayKey.v
DynamicBundle.v
DynamicErrors.v
CoerceStream.v
ParseNumbers.v
ParseDynamic.v
CompleteFinal.v
StreamServe.v
StreamAgree.v
NativeStream.v
PoolLifecycle.v
PoolInvariant.v
PoolClose.v
PoolLive.v
PoolSelect.v
ConstraintNumeric.v
ConstraintGate.v
ConstraintEval.v
Cohort.v
TrustedConfig.v
ConfigIdentity.v
CheckedStatic.v
AliasStream.v
StaticRoutes.v
StaticDescriptor.v
