(* ===== verification/Prelude.v ===== *)
(** * baml-rest: verification library

    baml-rest serves BAML functions over HTTP.  A request names a function; the
    server decides which client (an LLM endpoint) answers it, by which path, with
    which retries, hands it to a worker process of a pool, drives the request,
    parses the model's text into a value of the function's output type, and reports
    the routing decision as metadata.  Clients may be strategies: a round-robin
    client rotates over its children, a fallback client tries them in order, and
    strategies nest.  A request may carry a runtime client registry that overrides
    what was compiled in, and a schema for its output.  Several paths exist: legacy,
    where the BAML runtime does everything; BuildRequest, where the server builds
    the HTTP request itself; and a native lane that a deployment enrols by
    configuration, with a parser of its own that must give the bytes BAML gives or
    decline.

    The library models the routing, retry, coordination, delivery, worker-pool,
    parsing, constraint and admission cores of that program (the Go packages under
    [src/bamlutils], [src/pool], [src/workerplugin], [src/internal/debaml],
    [src/internal/schema], [src/worker] and [src/nativeserve/admission]) as
    executable definitions and proves what makes each part correct.

    ** Parts, files and how they call each other

    What the code uses of Go.
    - [Prelude], [GoStrings], [GoValue], [GoFloat]: 64-bit integers are [Z] with the
      wrap-around written out ([i64], [u64]); strings are byte strings, with
      [strings.TrimSpace], [FieldsFunc] and the like; values of type [any] decoded
      from JSON are [goval]; floats are the IEEE 754 binary64 of the Standard Library
      with [math.Pow] for an integer exponent.

    Routing a request ([bamlutils], [bamlutils/buildrequest]).
    - [StrategyParse] ([strategyparse/parser.go]): the [strategy] option.
    - [Registry] ([interfaces.go]): the runtime client registry, its validation, the
      presence of the provider key, and the registry views of the legacy path.
    - [Retry] ([retry/retry.go]): policies, delays, and the loop [Execute], generic in
      the world its callbacks act on.
    - [SharedState] ([workerplugin/sharedstate.go], [remote_advancer.go]): the counters
      that workers share.  [FetchAdd], [DropScope] and the sweeper are step functions
      of one goroutine, one atomic action per step, and [run] executes a schedule of
      any number of goroutines.
    - [RoundRobin] ([roundrobin/resolver.go], [coordinator.go]): the resolution of a
      round-robin client to a leaf.  What it needs of a counter is the class
      [LawfulAdvancer]; the in-process coordinator and the remote advancer over
      [SharedState] are its instances.
    - [ClientResolution], [LegacyChild] (on the walk of [Dfs]), [FallbackResolve],
      [RetryPolicy], [Metadata] (the files of those names): the effective client, the
      registry scoped to one legacy child and the preflight of invalid overrides, the
      plan of a fallback chain, the policy of a request, and the planned metadata.

    Driving a request.
    - [Orchestration]: errors, frames and the environment both orchestrators share.
    - [CallOrchestrator] ([call_orchestrator.go]): [RunCallOrchestration], which runs
      [Retry]'s loop over the chain [FallbackResolve] planned.
    - [Sse] ([sseclient.go]), [Cadence] ([stream_cadence.go]) and [StreamOrchestrator]
      ([orchestrator.go], [native_stream_callback.go]): event parsing, accumulation and
      throttled partial parses, and [RunStreamOrchestration] over both.

    The worker pool ([pool/pool.go], [pool/stderr_tail.go]).
    - [WorkerErrors], [StderrTail]: classification of worker errors (with
      [workerplugin/plugin.go], [cmd/serve/error.go]), the stderr tail on them.
    - [PoolStream], [PoolRequest]: [CallStream], [Call] and [Parse] as one goroutine
      on a world, and the accounts they keep.
    - [PoolLifecycle], [PoolInvariant], [PoolClose], [PoolLive]: the fields of [Pool]
      and the goroutines that change them as a step relation (requests, restarts with
      hot swap, waits for a restart, kills, health probes, [Shutdown], [Close]).
    - [PoolSelect]: worker selection, request tracking, hung detection.

    The native output engine ([internal/schema], [internal/debaml]).
    - [Schema]: types and the bundle with its indexes, their rebuilding and validation.
    - [OrderedMap], [DynamicSchema], [Reachability], [DynamicLowering], [DisplayKey],
      [DynamicBundle], [DynamicErrors]: the schema a request carries, what the worker
      accepts of it, and its lowering into a bundle.
    - [StaticDescriptor] ([static_descriptor.go]): the lowering of the descriptor graph
      of a static output, with its cycle guard.
    - [Jsonish], [FixParse], [Extract], with [FixStream] and [ParseNumbers]: from a
      text to a candidate value: the strict decoder, the final and the streaming
      fixing parser, comments, fences and spans, and what streaming shows.
    - [Unicode], [MatchString], [NumberText], [NumberValid]: name matching over any
      Unicode tables, reading and writing of numbers.
    - [PairGuard], [Candidate], [OutputText], [LeafCoerce], [TryCast], [Coerce]: the
      coercer of a value to a type, in the monad [Candidate.M] of score accumulators;
      [CoerceTyping] and [CoerceSound] prove it sound, [CoerceFuel] that it ends.
      [CoerceStream] is its streaming twin.
    - [AliasCoerce], [AliasSound], [AliasTyping], [AliasStream]: the two families of
      recursive aliases, the final coercion and the partials.
    - [Gate], [GateFuel], [StreamServe]: which schemas the parser and the stream lane
      accept.
    - [ParseDynamic], [CompleteFinal], [NativeStream], [StreamAgree]: the parses of a
      dynamic output, the close of an unfinished text, and the closures of the lane.
    - [ConstraintNumeric], [ConstraintGate], [ConstraintEval]: the evaluation of a
      constraint behind its two gates.
    - [CheckedStatic] ([checked_static.go], [bamlutils/checked.go]) and [StaticRoutes]
      ([parse_static.go], [static_normalizer.go], [static_stream_serve.go]): the one
      served family with constraints, and the parses of a static output.

    Admission to the native lane.
    - [Cohort] ([nativeserve/admission/cohort.go], [config_load.go]): the inventory,
      the policy and the gate.
    - [TrustedConfig] ([trustedconfig.go], [trustedclients], [clientdefaults],
      [worker/options.go]): the seal, the declaration, the sealing pass and the
      preparation of a registry.
    - [ConfigIdentity] ([identity.go], [clientmap.go], [canary/serve.go]): from a
      registry to the identity the gate is asked about.

    ** What the theorems show

    - Delivery ([CallOrchestrator], [StreamOrchestrator], [PoolStream]): the order and
      number of frames under any behaviour of callbacks, consumer and context; nothing
      after a claimed native attempt; complete delivery when nothing is cancelled;
      a consumer that honours resets ends with the winning attempt's text.
    - The pool: every attempt accounted for, restarts only for cause, the invariants of
      the lifecycle under every interleaving, what [Close] and [Shutdown] guarantee, and
      that every wait can end.
    - Coordination ([SharedState], [RoundRobin]): exactly-once counter advances in every
      interleaving that neither drops nor sweeps the operation, a refinement of an
      abstract fetch-and-add, the entry and scope invariant as long as a sweep removes
      the scope it locked, fairness of rotation, termination and completeness of resolution.
    - Routing and retries: plans can be driven, the preflight is exact, metadata is free
      of contradictions, attempt counts and delays are bounded.
    - Texts: every parser answers; what streaming shows of a prefix is an unfinished
      part of the final value; completion closes a text; [Sse] and [StrategyParse]
      round trips; agreement of the two event parsers.
    - Schemas: validation is exact; a lowered type has the values its specification
      describes; ordinary dynamic schemas lower to valid bundles; an ordered map
      refines an association list; a descriptor graph lowers exactly when its unfolding
      is finite.
    - Coercion: type soundness of the coercer, of its streaming twin, of the aliases and
      of every parse route; termination with explicit fuel wherever the support gate
      answers; on admitted schemas and on alias documents the last partial of a finished
      plain text (no backslash, ASCII) is the final value.
    - Constraints: evaluation is exact or follows an agreeing rendering inside the
      proven profile; integers stay below 2^53; comparisons are of one kind; static
      routes never ignore a constraint, and the checked family is served exactly.
    - Admission: the production gate admits only what was enrolled, and an admitted
      request uses the client the deployment declared.

    Theorems that state behaviour the code does not intend or its comments deny:
    [call_overflow_panics] (the attempt count overflows), [sweeper_orphans_entry] (the
    sweeper removes a fresh scope by name), [EncodeRetryPolicy_reports_unset_defaults],
    [gate_diverges] (the support gate recurses without end on a valid schema),
    [display_key_collision] (a quote in a literal loses a class), [parens_escape_gate]
    (parentheses escape the kind rule), [defaults_block_identity] (client defaults
    prevent every identity), [alias_hint_dead] (the sibling hint is never read) and
    [normalizer_identity] (the normalizer of absent optionals has nothing to do).

    ** Bounds and fuel

    Recursion that is not structural runs on fuel that is shown to suffice.  The
    resolution loop gets one more than the number of names in its input
    ([Resolve_terminates]), the graph walks one more than the names they can visit
    ([Dfs.walk_total]).  The text parsers get fuel linear in the text
    ([parsers_terminate]), the numeric parser 7 times its length and the predicate
    parser 4 times ([parseWhole_answers], [parseGate_answers]), the normalizer twice
    the length of its text.  The coercer ends with any fuel above the measure of
    [coerce_terminates], the descriptor walk with more than the graph has pointers, the alias coercion above the size of the value.  The support
    gate ends on class graphs without cycles ([gate_terminates]) and not on all
    ([gate_diverges]); an answer does not change with more fuel, and the end of the
    fuel is an error of its own, never a decline.  The retry loop counts the
    iterations Go computes, overflow included.  Callbacks that may call back are finite
    computations ([Orchestration]'s [Callback]).

    ** Conventions

    A Go map is a [gmap] (where a missing and an empty map behave alike), a nillable
    pointer an [option], a Go error a constructor of an error type, and the outside
    world (clock, context, transport, consumer, random numbers) a type [W] that
    operations thread or an environment of choices.  Code outside the repository
    (SHA-256, the JSON encoder of sonic, the expression engine, the Unicode tables) is
    a variable; what is relied on is a named hypothesis or class with an instance.
    Theorems numbered C1, C2, ... are the properties of the development; those that
    need hypotheses come with a witness that applies them to a concrete run.

    ** Not modelled

    Logging, buffer pooling and the borrowed-buffer lifetime; gRPC, processes, HTTP
    and the handlers of the server; per-provider response extraction and the URL
    rewrite, which are parameters; the AWS event stream, a wrapper around the decoder
    of the SDK; the JSON codecs of registries, schemas and ordered maps; the
    rendering of prompts; the mapping of a client to the native engine, its plans and
    oracles; the guards on the filters of the expression engine; the parser of BAML
    sources, code generation, the build tools and the generated adapters; the embedding
    library [dynclient], the tests and the dashboards. *)

From Stdlib Require Export ZArith ZifyBool ZifyN Lia.
From stdpp Require Export base tactics relations list gmap strings sets fin_maps.

#[export] Set Default Goal Selector "!".
#[global] Arguments String.append !_ _ : simpl nomatch.

(** ** Notations *)

Declare Scope go_scope.
Delimit Scope go_scope with go.

(** String equality as Go writes it, as a boolean test. *)
Notation "a =s b" := (String.eqb a b) (at level 70, no associativity) : go_scope.
Notation "a <>s b" := (negb (String.eqb a b)) (at level 70, no associativity) : go_scope.

Open Scope go_scope.

(** ** Tactics *)

(** Turn boolean string tests in the context and the goal into (dis)equalities. *)
Ltac reflect_eqb :=
  repeat match goal with
  | H : String.eqb _ _ = true |- _ => apply String.eqb_eq in H
  | H : String.eqb _ _ = false |- _ => apply String.eqb_neq in H
  | H : negb _ = true |- _ => apply negb_true_iff in H
  | H : negb _ = false |- _ => apply negb_false_iff in H
  | H : andb _ _ = true |- _ => apply andb_true_iff in H; destruct H
  | H : orb _ _ = false |- _ => apply orb_false_iff in H; destruct H
  end.

(** Case analysis on the scrutinee of a match or a conditional in the goal. *)
Ltac case_goal :=
  match goal with
  | |- context [match ?x with _ => _ end] => destruct x eqn:?
  end.

(** The same for a hypothesis. *)
Ltac case_hyp H :=
  match type of H with
  | context [match ?x with _ => _ end] => destruct x eqn:?
  end.

Ltac crush := repeat (case_goal; simplify_eq/=); try done.

Create HintDb baml.
Create Rewrite HintDb baml_rw.

(** ** Machine integers

    Go's [int] is 64 bits wide on the supported targets. *)

Definition MaxInt64 : Z := 2 ^ 63 - 1.
Definition MinInt64 : Z := - 2 ^ 63.
Definition MaxInt32 : Z := 2 ^ 31 - 1.
Definition MinInt32 : Z := - 2 ^ 31.

(** Conversion to [uint64] and to [int64]: reduction modulo 2^64. *)
Definition u64 (z : Z) : Z := z mod 2 ^ 64.
Definition i64 (z : Z) : Z := (z + 2 ^ 63) mod 2 ^ 64 - 2 ^ 63.

Lemma u64_range z : (0 <= u64 z < 2 ^ 64)%Z.
Proof. apply Z.mod_pos_bound. lia. Qed.

Lemma i64_range z : (MinInt64 <= i64 z <= MaxInt64)%Z.
Proof.
  unfold i64, MinInt64, MaxInt64.
  pose proof (Z.mod_pos_bound (z + 2 ^ 63) (2 ^ 64)). lia.
Qed.

Lemma u64_id z : (0 <= z < 2 ^ 64)%Z -> u64 z = z.
Proof. apply Z.mod_small. Qed.

Lemma i64_id z : (MinInt64 <= z <= MaxInt64)%Z -> i64 z = z.
Proof.
  unfold i64, MinInt64, MaxInt64. intros. rewrite Z.mod_small; lia.
Qed.

Lemma u64_idem z : u64 (u64 z) = u64 z.
Proof. apply u64_id, u64_range. Qed.

Lemma u64_add_l a b : u64 (u64 a + b) = u64 (a + b).
Proof. apply Zplus_mod_idemp_l. Qed.

(** ** Lists *)

Lemma existsb_false_forall {A} (f : A -> bool) l :
  existsb f l = false <-> Forall (fun x => f x = false) l.
Proof.
  induction l as [|x l IH]; simpl.
  - split; auto.
  - rewrite orb_false_iff, IH, Forall_cons. done.
Qed.

(** A duplicate-free list inside another list is no longer than it. *)
Lemma NoDup_incl_length {A} (l k : list A) :
  NoDup l -> (forall x, x ∈ l -> x ∈ k) -> length l <= length k.
Proof.
  intros Hl Hi. apply submseteq_length, NoDup_submseteq; done.
Qed.

#[export] Hint Resolve u64_range i64_range : baml.
#[export] Hint Rewrite u64_idem u64_add_l : baml_rw.
