(* ===== verification/GoStrings.v ===== *)
(** * GoStrings: the functions of Go's [strings] and [bytes] packages that the
    modelled code calls, on byte strings.

    A Go string is a sequence of bytes; [string] is one too.  The functions
    that work on runes ([strings.TrimSpace], [strings.FieldsFunc]) are given on
    the UTF-8 encoding: the white space characters of [unicode.IsSpace] are
    listed by their encodings, and the separators [FieldsFunc] is called with
    are ASCII, so that a byte of a longer encoding never matches one. *)

From Stdlib Require Import Ascii String.
From S2P Require Import Prelude.

(** ** White space *)

(** U+0009..U+000D and U+0020. *)
Definition isAsciiSpace (a : ascii) : bool :=
  let n := N_of_ascii a in ((9 <=? n) && (n <=? 13) || (n =? 32))%N.

(** U+0085 and U+00A0. *)
Definition isSpace2 (a b : ascii) : bool :=
  let x := N_of_ascii a in let y := N_of_ascii b in
  ((x =? 194) && ((y =? 133) || (y =? 160)))%N.

(** U+1680, U+2000..U+200A, U+2028, U+2029, U+202F, U+205F and U+3000. *)
Definition isSpace3 (a b c : ascii) : bool :=
  let x := N_of_ascii a in let y := N_of_ascii b in let z := N_of_ascii c in
  ((x =? 225) && (y =? 154) && (z =? 128)
   || (x =? 226) && (y =? 128)
      && ((128 <=? z) && (z <=? 138) || (z =? 168) || (z =? 169) || (z =? 175))
   || (x =? 226) && (y =? 129) && (z =? 159)
   || (x =? 227) && (y =? 128) && (z =? 128))%N.

(** Drop the longest prefix made of one-, two- and three-byte patterns. *)
Fixpoint dropPatterns (p1 : ascii -> bool) (p2 : ascii -> ascii -> bool)
    (p3 : ascii -> ascii -> ascii -> bool) (s : string) : string :=
  match s with
  | EmptyString => s
  | String a s1 =>
      if p1 a then dropPatterns p1 p2 p3 s1 else
      match s1 with
      | EmptyString => s
      | String b s2 =>
          if p2 a b then dropPatterns p1 p2 p3 s2 else
          match s2 with
          | EmptyString => s
          | String c s3 => if p3 a b c then dropPatterns p1 p2 p3 s3 else s
          end
      end
  end.

(** String reversal. *)
Fixpoint srev_app (s acc : string) : string :=
  match s with
  | EmptyString => acc
  | String a s' => srev_app s' (String a acc)
  end.
Definition srev (s : string) : string := srev_app s EmptyString.

(** [strings.TrimLeftFunc(s, unicode.IsSpace)]. *)
Definition TrimLeftSpace (s : string) : string := dropPatterns isAsciiSpace isSpace2 isSpace3 s.

(** [strings.TrimRightFunc(s, unicode.IsSpace)]: the encodings are read from
    their last byte. *)
Definition TrimRightSpace (s : string) : string :=
  srev (dropPatterns isAsciiSpace (fun b a => isSpace2 a b)
          (fun c b a => isSpace3 a b c) (srev s)).

(** [strings.TrimSpace]. *)
Definition TrimSpace (s : string) : string := TrimRightSpace (TrimLeftSpace s).

(** ** Search and slicing *)

(** [strings.IndexByte(s, c) >= 0]. *)
Fixpoint ContainsByte (c : ascii) (s : string) : bool :=
  match s with
  | EmptyString => false
  | String a s' => Ascii.eqb a c || ContainsByte c s'
  end.

(** [s[:i], s[i+1:]] for [i = strings.IndexByte(s, c)], if there is one. *)
Fixpoint CutByte (c : ascii) (s : string) : option (string * string) :=
  match s with
  | EmptyString => None
  | String a s' =>
      if Ascii.eqb a c then Some (EmptyString, s')
      else match CutByte c s' with
           | Some (l, r) => Some (String a l, r)
           | None => None
           end
  end.

(** [strings.TrimPrefix(s, p)]. *)
Fixpoint CutPrefix (p s : string) : option string :=
  match p, s with
  | EmptyString, _ => Some s
  | String a p', String b s' => if Ascii.eqb a b then CutPrefix p' s' else None
  | String _ _, EmptyString => None
  end.
Definition TrimPrefix (s p : string) : string := from_option id s (CutPrefix p s).

(** [strings.HasPrefix(s, p)]. *)
Definition HasPrefix (s p : string) : bool := bool_decide (is_Some (CutPrefix p s)).

(** What follows the first occurrence of [p] in [s]. *)
Fixpoint CutAfter (p s : string) : option string :=
  match CutPrefix p s with
  | Some rest => Some rest
  | None => match s with EmptyString => None | String _ s' => CutAfter p s' end
  end.
(** [strings.Contains(s, p)]. *)
Definition Contains (s p : string) : bool := bool_decide (is_Some (CutAfter p s)).

(** [s[:len(s)-1], s[len(s)-1]] of a nonempty string. *)
Fixpoint unsnoc (s : string) : option (string * ascii) :=
  match s with
  | EmptyString => None
  | String a s' =>
      match unsnoc s' with
      | None => Some (EmptyString, a)
      | Some (i, z) => Some (String a i, z)
      end
  end.

(** [strings.FieldsFunc(s, sep)] for an ASCII separator predicate: the maximal
    runs of bytes that are not separators.  [acc] is the current run, reversed. *)
Fixpoint fieldsAcc (sep : ascii -> bool) (s acc : string) : list string :=
  match s with
  | EmptyString => match acc with EmptyString => [] | _ => [srev acc] end
  | String a s' =>
      if sep a
      then match acc with
           | EmptyString => fieldsAcc sep s' EmptyString
           | _ => srev acc :: fieldsAcc sep s' EmptyString
           end
      else fieldsAcc sep s' (String a acc)
  end.
Definition FieldsFunc (sep : ascii -> bool) (s : string) : list string :=
  fieldsAcc sep s EmptyString.

(** [s[:n]] and [s[n:]] for [n] up to the length. *)
Fixpoint stake (n : nat) (s : string) : string :=
  match n, s with S n, String c r => String c (stake n r) | _, _ => EmptyString end.
Fixpoint sdrop (n : nat) (s : string) : string :=
  match n, s with S n, String _ r => sdrop n r | _, _ => s end.

Lemma stake_sdrop n s : (stake n s +:+ sdrop n s)%string = s.
Proof. revert s. induction n as [|n IH]; intros [|c s]; simpl; f_equal; done. Qed.

(** [bytes.TrimRight(line, "\r")]. *)
Fixpoint TrimRightByte (c : ascii) (s : string) : string :=
  match s with
  | EmptyString => EmptyString
  | String a s' =>
      match TrimRightByte c s' with
      | EmptyString => if Ascii.eqb a c then EmptyString else String a EmptyString
      | t => String a t
      end
  end.

(** ** Lemmas *)

Fixpoint sall (p : ascii -> bool) (s : string) : bool :=
  match s with
  | EmptyString => true
  | String a s' => p a && sall p s'
  end.

Lemma sapp_assoc (a b c : string) : (a +:+ b) +:+ c = a +:+ (b +:+ c).
Proof. induction a; simpl; congruence. Qed.

Lemma sapp_nil_r (s : string) : s +:+ "" = s.
Proof. induction s; simpl; congruence. Qed.

Lemma srev_app_spec s acc : srev_app s acc = srev s +:+ acc.
Proof.
  unfold srev. revert acc. induction s as [|a s IH]; intros acc; [done|]. simpl.
  rewrite IH, (IH (String a EmptyString)), sapp_assoc. done.
Qed.

Lemma srev_cons a s : srev (String a s) = srev s +:+ String a "".
Proof. unfold srev at 1. simpl. apply srev_app_spec. Qed.

Lemma srev_sapp s t : srev (s +:+ t) = srev t +:+ srev s.
Proof.
  induction s as [|a s IH]; simpl.
  - by rewrite sapp_nil_r.
  - by rewrite !srev_cons, IH, sapp_assoc.
Qed.

Lemma srev_involutive s : srev (srev s) = s.
Proof.
  induction s as [|a s IH]; [done|]. by rewrite srev_cons, srev_sapp, IH.
Qed.

Lemma sall_app p s t : sall p (s +:+ t) = sall p s && sall p t.
Proof. induction s; simpl; [done|]. by rewrite IHs, andb_assoc. Qed.

Lemma sall_srev p s : sall p (srev s) = sall p s.
Proof.
  induction s as [|a s IH]; [done|].
  rewrite srev_cons, sall_app, IH. simpl. rewrite andb_true_r. apply andb_comm.
Qed.

(** Trimming is the identity on a string with no byte that starts a pattern. *)
Lemma dropPatterns_id p1 p2 p3 a s :
  p1 a = false -> (forall b, p2 a b = false) -> (forall b c, p3 a b c = false) ->
  dropPatterns p1 p2 p3 (String a s) = String a s.
Proof.
  intros H1 H2 H3. simpl. rewrite H1. destruct s as [|b s]; [done|].
  rewrite H2. destruct s as [|c s]; [done|]. by rewrite H3.
Qed.

(** Trimming twice is trimming once. *)
Lemma dropPatterns_idem p1 p2 p3 s :
  dropPatterns p1 p2 p3 (dropPatterns p1 p2 p3 s) = dropPatterns p1 p2 p3 s.
Proof.
  enough (forall n s, String.length s <= n ->
    dropPatterns p1 p2 p3 (dropPatterns p1 p2 p3 s) = dropPatterns p1 p2 p3 s) as H
    by (by eapply H).
  clear s. induction n as [|n IH]; intros [|a s] Hn; simpl in Hn; try lia; [done..|].
  simpl. destruct (p1 a) eqn:E1; [apply IH; lia|].
  destruct s as [|b s]; [simpl; by rewrite E1|]. simpl in Hn.
  destruct (p2 a b) eqn:E2; [apply IH; lia|].
  destruct s as [|c s]; [simpl; by rewrite E1, E2|]. simpl in Hn.
  destruct (p3 a b c) eqn:E3; [apply IH; lia|].
  simpl. by rewrite E1, E2, E3.
Qed.

Lemma CutPrefix_app p r : CutPrefix p (p +:+ r) = Some r.
Proof. induction p as [|a p IH]; simpl; [by destruct r|]. by rewrite Ascii.eqb_refl. Qed.

Lemma CutPrefix_some p s r : CutPrefix p s = Some r -> s = p +:+ r.
Proof.
  revert s. induction p as [|a p IH]; intros s H; simpl in *; [destruct s; by simplify_eq|].
  destruct s as [|b s]; [done|]. destruct (Ascii.eqb a b) eqn:E; [|done].
  apply Ascii.eqb_eq in E as ->. by rewrite (IH s).
Qed.

Lemma CutAfter_prefix p s r : CutPrefix p s = Some r -> CutAfter p s = Some r.
Proof. intros H. destruct s; simpl in *; by rewrite H. Qed.

Lemma HasPrefix_app p r : HasPrefix (p +:+ r) p = true.
Proof. unfold HasPrefix. rewrite CutPrefix_app. by apply bool_decide_eq_true_2. Qed.

Lemma HasPrefix_CutAfter s p : HasPrefix s p = true -> CutAfter p s = CutPrefix p s.
Proof.
  unfold HasPrefix. intros [r Hr]%bool_decide_eq_true. rewrite Hr. by apply CutAfter_prefix.
Qed.

Lemma CutByte_some c s l r :
  CutByte c s = Some (l, r) -> s = l +:+ String c r /\ ContainsByte c l = false.
Proof.
  revert l r. induction s as [|a s IH]; intros l r H; simpl in H; [done|].
  destruct (Ascii.eqb a c) eqn:E; simplify_eq/=.
  - apply Ascii.eqb_eq in E as ->. done.
  - destruct (CutByte c s) as [[l' r']|] eqn:E'; simplify_eq/=.
    destruct (IH _ _ eq_refl) as [-> ?]. by rewrite E.
Qed.

Lemma CutByte_none c s : CutByte c s = None <-> ContainsByte c s = false.
Proof.
  induction s as [|a s IH]; simpl; [done|].
  destruct (Ascii.eqb a c); simpl; [done|].
  destruct (CutByte c s) as [[l r]|]; rewrite <- IH; done.
Qed.

Lemma CutByte_app c l r :
  ContainsByte c l = false -> CutByte c (l +:+ String c r) = Some (l, r).
Proof.
  induction l as [|a l IH]; simpl.
  - by rewrite Ascii.eqb_refl.
  - intros [-> H]%orb_false_iff. by rewrite IH.
Qed.

Lemma unsnoc_app s c : unsnoc (s +:+ String c "") = Some (s, c).
Proof. induction s as [|a s IH]; simpl; [done|]. by rewrite IH. Qed.

Lemma unsnoc_some s i z : unsnoc s = Some (i, z) -> s = i +:+ String z "".
Proof.
  revert i z. induction s as [|a s IH]; intros i z H; simpl in H; [done|].
  destruct (unsnoc s) as [[i' z']|] eqn:E; simplify_eq/=.
  - by rewrite (IH _ _ eq_refl).
  - by destruct s as [|? s]; simpl in E; [|destruct (unsnoc s) as [[]|]].
Qed.

Lemma string_snoc (s : string) : s = "" \/ exists i z, s = i +:+ String z "".
Proof.
  destruct (unsnoc s) as [[i z]|] eqn:E; [right; exists i, z; by apply unsnoc_some|left].
  destruct s as [|a s]; [done|]. simpl in E. by destruct (unsnoc s) as [[]|].
Qed.

(** Runs of non-separators become the current field. *)
Lemma fieldsAcc_app sep w s acc :
  sall (fun a => negb (sep a)) w = true ->
  fieldsAcc sep (w +:+ s) acc = fieldsAcc sep s (srev w +:+ acc).
Proof.
  revert acc. induction w as [|a w IH]; intros acc; simpl; [done|].
  intros [Ha Hw]%andb_true_iff. apply negb_true_iff in Ha. rewrite Ha, IH by done.
  by rewrite srev_cons, sapp_assoc.
Qed.

(** Every field is nonempty and free of separators. *)
Lemma fieldsAcc_clean sep s acc :
  sall (fun a => negb (sep a)) acc = true ->
  Forall (fun w => w <> "" /\ sall (fun a => negb (sep a)) w = true) (fieldsAcc sep s acc).
Proof.
  assert (Hsrev : forall a acc, srev (String a acc) <> "").
  { intros a acc0 E. apply (f_equal srev) in E. rewrite srev_involutive in E. done. }
  revert acc. induction s as [|a s IH]; intros acc Hacc; simpl.
  - destruct acc; [constructor|]. repeat constructor; [apply Hsrev|by rewrite sall_srev].
  - destruct (sep a) eqn:E.
    + destruct acc; [by apply IH|]. constructor; [|by apply IH].
      split; [apply Hsrev|by rewrite sall_srev].
    + apply IH. simpl. by rewrite E.
Qed.

(** What is left after dropping patterns is a suffix, and no longer. *)
Lemma dropPatterns_suffix p1 p2 p3 s : exists u, s = u +:+ dropPatterns p1 p2 p3 s.
Proof.
  enough (forall n s, String.length s <= n -> exists u, s = u +:+ dropPatterns p1 p2 p3 s) as H
    by (by eapply H).
  clear s. induction n as [|n IH]; intros [|a s] Hn; simpl in Hn; try lia;
    try (exists ""; done).
  simpl. destruct (p1 a).
  { destruct (IH s) as [u Hu]; [lia|]. exists (String a u). simpl. congruence. }
  destruct s as [|b s]; [by exists ""|]. simpl in Hn. destruct (p2 a b).
  { destruct (IH s) as [u Hu]; [lia|]. exists (String a (String b u)). simpl. congruence. }
  destruct s as [|c s]; [by exists ""|]. simpl in Hn. destruct (p3 a b c); [|by exists ""].
  destruct (IH s) as [u Hu]; [lia|]. exists (String a (String b (String c u))). simpl. congruence.
Qed.

Lemma slength_app (s t : string) : String.length (s +:+ t) = String.length s + String.length t.
Proof. induction s; simpl; congruence. Qed.

Lemma dropPatterns_length p1 p2 p3 s : String.length (dropPatterns p1 p2 p3 s) <= String.length s.
Proof.
  destruct (dropPatterns_suffix p1 p2 p3 s) as [u Hu].
  rewrite Hu at 2. rewrite slength_app. lia.
Qed.

(** A prefix of a string without a leading pattern has none. *)
Lemma dropPatterns_prefix p1 p2 p3 u v :
  dropPatterns p1 p2 p3 (u +:+ v) = u +:+ v -> dropPatterns p1 p2 p3 u = u.
Proof.
  pose proof (dropPatterns_length p1 p2 p3) as Hlen. intros H.
  assert (Hno : forall k (t : string), k <> 0 ->
            dropPatterns p1 p2 p3 t = u +:+ v -> String.length t + k = String.length (u +:+ v) -> False).
  { intros k t Hk E L. specialize (Hlen t). rewrite E in Hlen. lia. }
  destruct u as [|a u]; [done|]. simpl in H |- *.
  destruct (p1 a); [exfalso; eapply (Hno 1); [done|exact H|simpl; lia]|].
  destruct u as [|b u]; [done|]. simpl in H |- *.
  destruct (p2 a b); [exfalso; eapply (Hno 2); [done|exact H|simpl; lia]|].
  destruct u as [|c u]; [done|]. simpl in H |- *.
  destruct (p3 a b c); [exfalso; eapply (Hno 3); [done|exact H|simpl; lia]|done].
Qed.

Lemma TrimSpace_idem s : TrimSpace (TrimSpace s) = TrimSpace s.
Proof.
  unfold TrimSpace. set (t := TrimLeftSpace s).
  assert (Ht : TrimLeftSpace t = t) by apply dropPatterns_idem.
  assert (Hl : TrimLeftSpace (TrimRightSpace t) = TrimRightSpace t).
  { unfold TrimRightSpace. set (r := dropPatterns _ _ _ (srev t)).
    destruct (dropPatterns_suffix isAsciiSpace (fun b a => isSpace2 a b)
                (fun c b a => isSpace3 a b c) (srev t)) as [u Hu]. fold r in Hu.
    apply (dropPatterns_prefix _ _ _ (srev r) (srev u)).
    rewrite <- srev_sapp, <- Hu, srev_involutive. exact Ht. }
  rewrite Hl. unfold TrimRightSpace. by rewrite srev_involutive, dropPatterns_idem.
Qed.

(** Trimming keeps ASCII text without white space. *)
Definition solidByte (a : ascii) : bool := ((N_of_ascii a <? 128)%N) && negb (isAsciiSpace a).

Lemma solidByte_facts a : solidByte a = true ->
  isAsciiSpace a = false /\ (forall b, isSpace2 a b = false) /\ (forall b c, isSpace3 a b c = false)
  /\ (forall b, isSpace2 b a = false) /\ (forall b c, isSpace3 c b a = false).
Proof. unfold solidByte, isSpace2, isSpace3. intros [H1 H2%negb_true_iff]%andb_true_iff. repeat split; intros; lia. Qed.

Lemma TrimSpace_solid s : sall solidByte s = true -> TrimSpace s = s.
Proof.
  intros Hs. unfold TrimSpace, TrimLeftSpace.
  assert (Hid : dropPatterns isAsciiSpace isSpace2 isSpace3 s = s).
  { destruct s as [|a s]; [done|]. apply andb_true_iff in Hs as [Ha _].
    apply solidByte_facts in Ha as (?&?&?&_). by apply dropPatterns_id. }
  rewrite Hid. unfold TrimRightSpace. rewrite <- sall_srev in Hs.
  rewrite <- (srev_involutive s) at 2. f_equal.
  destruct (srev s) as [|a t]; [done|]. apply andb_true_iff in Hs as [Ha _].
  apply solidByte_facts in Ha as (?&_&_&?&?). by apply dropPatterns_id.
Qed.

(** ** Suffixes *)

Definition suffix_of (t s : string) : Prop := exists u, s = u +:+ t.

Lemma suffix_refl s : suffix_of s s.
Proof. by exists "". Qed.
Lemma suffix_cons c t s : suffix_of t s -> suffix_of t (String c s).
Proof. intros [u ->]. by exists (String c u). Qed.
Lemma suffix_trans r t s : suffix_of r t -> suffix_of t s -> suffix_of r s.
Proof. intros [u ->] [w ->]. exists (w +:+ u). by rewrite sapp_assoc. Qed.
Lemma suffix_tail c t s : suffix_of (String c t) s -> suffix_of t s.
Proof. intros [u ->]. exists (u +:+ String c EmptyString). by rewrite sapp_assoc. Qed.
Lemma suffix_all f t s : suffix_of t s -> sall f s = true -> sall f t = true.
Proof. intros [u ->]. rewrite sall_app. by intros [_ ?]%andb_true_iff. Qed.

(** ** Lines *)

Definition LF : ascii := "010"%char.

(** [strings.Split] at newlines: the pieces between newlines; the last one is what follows the last newline. *)
Fixpoint splitLF (s : string) : list string :=
  match s with
  | EmptyString => [EmptyString]
  | String a s' =>
      if Ascii.eqb a LF then EmptyString :: splitLF s'
      else match splitLF s' with
           | l :: ls => String a l :: ls
           | [] => [String a EmptyString]
           end
  end.

(** [strings.Join] with a newline. *)
Fixpoint joinLF (ls : list string) : string :=
  match ls with
  | [] => ""
  | [l] => l
  | l :: ls' => l +:+ String LF (joinLF ls')
  end.

Lemma splitLF_nonempty s : splitLF s <> [].
Proof. destruct s as [|a s]; simpl; [done|]. destruct (Ascii.eqb a LF); [done|]. by destruct (splitLF s). Qed.

Lemma splitLF_noLF s l : l ∈ splitLF s -> ContainsByte LF l = false.
Proof.
  revert l. induction s as [|a s IH]; simpl; intros l.
  - by intros ->%list_elem_of_singleton.
  - destruct (Ascii.eqb a LF) eqn:Ea.
    + intros [->|?]%elem_of_cons; auto.
    + destruct (splitLF s) as [|l0 ls].
      * intros ->%list_elem_of_singleton. simpl. by rewrite Ea.
      * intros [->|?]%elem_of_cons; [simpl; rewrite Ea; apply IH; by constructor|apply IH; by constructor].
Qed.

Lemma joinLF_split s : joinLF (splitLF s) = s.
Proof.
  induction s as [|a s IH]; [done|]. simpl. pose proof (splitLF_nonempty s) as Hne.
  destruct (Ascii.eqb a LF) eqn:Ea.
  - apply Ascii.eqb_eq in Ea as ->. destruct (splitLF s) as [|l ls]; [done|]. simpl in *. by rewrite IH.
  - destruct (splitLF s) as [|l [|l' ls]]; [done|simpl in *; by rewrite IH|]. simpl in *. by rewrite IH.
Qed.

Lemma splitLF_line l s : ContainsByte LF l = false -> splitLF (l +:+ String LF s) = l :: splitLF s.
Proof.
  induction l as [|a l IH]; simpl; [done|]. intros [Ea Hl]%orb_false_iff. rewrite Ea, IH by done. done.
Qed.

(** ** The ends of a trimmed text *)

Lemma dropPatterns_fix_head p1 p2 p3 a s :
  dropPatterns p1 p2 p3 (String a s) = String a s -> p1 a = false.
Proof.
  simpl. destruct (p1 a); [|done]. intros E. pose proof (dropPatterns_length p1 p2 p3 s) as Hl.
  rewrite E in Hl. simpl in Hl. lia.
Qed.

Lemma suffix_same t s : suffix_of t s -> String.length s <= String.length t -> t = s.
Proof. intros [[|c u] ->]; [done|]. simpl. rewrite slength_app. lia. Qed.

Lemma slength_srev s : String.length (srev s) = String.length s.
Proof.
  induction s as [|a s IH]; [done|]. rewrite srev_cons, slength_app. simpl. lia.
Qed.

Lemma TrimSpace_fix t : TrimSpace t = t -> TrimLeftSpace t = t /\ TrimRightSpace t = t.
Proof.
  unfold TrimSpace. intros E.
  assert (TrimLeftSpace t = t) as Hl.
  { apply suffix_same; [apply dropPatterns_suffix|]. rewrite <- E at 1. unfold TrimRightSpace.
    rewrite slength_srev. etransitivity; [apply dropPatterns_length|]. by rewrite slength_srev. }
  by rewrite Hl in E.
Qed.

Lemma TrimSpace_first t c r : TrimSpace t = String c r -> isAsciiSpace c = false.
Proof.
  intros E. pose proof (TrimSpace_idem t) as Hi. rewrite E in Hi. apply TrimSpace_fix in Hi as [Hi _].
  by eapply dropPatterns_fix_head.
Qed.

Lemma TrimSpace_last t u c : TrimSpace t = u +:+ String c "" -> isAsciiSpace c = false.
Proof.
  intros E. pose proof (TrimSpace_idem t) as Hi. rewrite E in Hi. apply TrimSpace_fix in Hi as [_ Hi].
  unfold TrimRightSpace in Hi. apply (f_equal srev) in Hi. rewrite srev_involutive, srev_sapp in Hi.
  change (srev (String c "")) with (String c "") in Hi. by eapply dropPatterns_fix_head.
Qed.

Lemma sall_TrimSpace f s : sall f s = true -> sall f (TrimSpace s) = true.
Proof.
  intros Hs. unfold TrimSpace, TrimRightSpace. rewrite sall_srev. eapply suffix_all; [apply dropPatterns_suffix|].
  rewrite sall_srev. eapply suffix_all; [apply dropPatterns_suffix|done].
Qed.

Lemma sall_lines f s : sall f s = true -> Forall (fun l => sall f l = true) (splitLF s).
Proof.
  induction s as [|a s IH]; simpl; [by repeat constructor|]. intros [Ha Hs]%andb_true_iff. specialize (IH Hs).
  destruct (Ascii.eqb a LF); [by constructor|]. destruct (splitLF s) as [|l ls]; [by repeat constructor; simpl; rewrite Ha|].
  apply Forall_cons in IH as [Hl Hls]. constructor; [|done]. simpl. by rewrite Ha, Hl.
Qed.

Lemma sall_joinLF f ls : f LF = true -> Forall (fun l => sall f l = true) ls -> sall f (joinLF ls) = true.
Proof.
  intros Hf Hls. induction Hls as [|l [|l' ls] Hl _ IH]; [done|done|].
  change (joinLF (l :: l' :: ls)) with (l +:+ String LF (joinLF (l' :: ls))). rewrite sall_app.
  cbn [sall]. by rewrite Hl, Hf, IH.
Qed.
