(* ===== verification/GoValue.v ===== *)
(** * GoValue: the dynamic values ([any]) that reach the modelled code.

    Option maps of a runtime client registry are decoded from JSON into
    [map[string]any] or built by a Go caller, so a value may have any of the
    shapes below.  Signed integers carry their Go kind; the unsigned kinds and
    the remaining shapes only matter as rejected cases. *)

From Stdlib Require Export SpecFloat.
From S2P Require Import Prelude.

Inductive intkind := KInt | KInt8 | KInt16 | KInt32 | KInt64.
Inductive uintkind := KUint | KUint8 | KUint16 | KUint32 | KUint64.

(** [float64] is an IEEE binary64 datum, [spec_float]: zero, infinity, NaN, or
    a finite value [(-1)^s * m * 2^e]. *)
Abbreviation float64 := spec_float.

#[warnings="-register-all"]
Inductive goval :=
  | GNil
  | GBool (b : bool)
  | GString (s : string)
  | GInt (k : intkind) (z : Z)
  | GUint (k : uintkind) (z : Z)
  | GFloat (f : float64)
  | GJSONNumber (s : string)
  | GStrings (l : list string)
  | GList (l : list goval)
  | GMap (m : list (string * goval)).

(** The integer a finite float denotes, if it denotes one: [math.Trunc(v) == v]. *)
Definition float_integer (f : float64) : option Z :=
  match f with
  | S754_zero _ => Some 0%Z
  | S754_finite s m e =>
      let sgn := if s then (-1)%Z else 1%Z in
      if (0 <=? e)%Z then Some (sgn * (Zpos m * 2 ^ e))%Z
      else if (Zpos m mod 2 ^ (- e) =? 0)%Z then Some (sgn * (Zpos m / 2 ^ (- e)))%Z
      else None
  | S754_infinity _ | S754_nan => None
  end.

(** [math.IsNaN(v) || math.IsInf(v, 0)]. *)
Definition float_notfinite (f : float64) : bool :=
  match f with S754_infinity _ | S754_nan => true | _ => false end.
