(* ===== verification/GoFloat.v ===== *)
(** * GoFloat: the [float64] operations the retry code uses.

    Values are IEEE binary64 data ([spec_float] with precision 53 and maximal
    exponent 1024), multiplication and addition are the Standard Library's
    correctly rounded ones, and [Pow] follows the algorithm of Go's [math.Pow]
    for a nonnegative integer exponent. *)

From S2P Require Import Prelude GoValue.

Local Open Scope Z_scope.

Definition fmul : float64 -> float64 -> float64 := SFmul 53 1024.
Definition fadd : float64 -> float64 -> float64 := SFadd 53 1024.

(** [float64(z)] for an [int]. *)
Definition float_of_int (z : Z) : float64 := binary_normalize 53 1024 z 0 false.

(** The exact value of a finite float, scaled by [2^(-k)], for [k] at most its
    exponent. *)
Definition fscaled (k : Z) (f : float64) : Z :=
  match f with
  | S754_finite s m e => (if s then -1 else 1) * (Zpos m * 2 ^ (e - k))
  | _ => 0
  end.
Definition fexponent (f : float64) : Z :=
  match f with S754_finite _ _ e => e | _ => 0 end.

(** [a > b]: false when either side is NaN. *)
Definition fgt (a b : float64) : bool :=
  match a, b with
  | S754_nan, _ | _, S754_nan => false
  | S754_infinity sa, S754_infinity sb => negb sa && sb
  | S754_infinity sa, _ => negb sa
  | _, S754_infinity sb => sb
  | _, _ => let k := Z.min (fexponent a) (fexponent b) in fscaled k b <? fscaled k a
  end.

(** Truncation towards zero of a finite value. *)
Definition ftrunc (f : float64) : Z :=
  match f with
  | S754_finite s m e =>
      (if s then -1 else 1) * (if 0 <=? e then Zpos m * 2 ^ e else Zpos m / 2 ^ (- e))
  | _ => 0
  end.

(** [int64(f)]: truncation; a value outside the range (and NaN) becomes the
    minimal integer, as on amd64 (the language leaves this case open). *)
Definition float_to_int64 (f : float64) : Z :=
  match f with
  | S754_nan | S754_infinity _ => MinInt64
  | _ => let z := ftrunc f in
         if (MinInt64 <=? z) && (z <=? MaxInt64) then z else MinInt64
  end.

(** The loop of [math.Pow] over the bits of the exponent: [a1 * 2^ae] is the
    answer so far, [x1 * 2^xe] the current power of the base. *)
Fixpoint pow_loop (i : positive) (a1 : float64) (ae : Z) (x1 : float64) (xe : Z) : float64 * Z :=
  if (xe <? - 4096) || (4096 <? xe) then (a1, ae + xe)
  else
    let odd := match i with xO _ => false | _ => true end in
    let a1' := if odd then fmul a1 x1 else a1 in
    let ae' := if odd then ae + xe else ae in
    let x2 := fmul x1 x1 in
    let half := S754_finite false 4503599627370496 (- 53) in
    let '(x2, xe') := if fgt half x2 then (fadd x2 x2, 2 * xe - 1) else (x2, 2 * xe) in
    match i with
    | xH => (a1', ae')
    | xO i' | xI i' => pow_loop i' a1' ae' x2 xe'
    end.

(** [math.Pow(x, float64(n))] for [n >= 0]. *)
Definition Pow (x : float64) (n : Z) : float64 :=
  match n with
  | Zpos p =>
      if n =? 1 then x
      else match x with
           | S754_nan => S754_nan
           | S754_zero s => if s && Z.odd n then x else S754_zero false
           | S754_infinity s => S754_infinity (s && Z.odd n)
           | S754_finite _ _ _ =>
               let '(x1, xe) := SFfrexp 53 1024 x in
               let '(a1, ae) := pow_loop p (float_of_int 1) 0 x1 xe in
               SFldexp 53 1024 a1 ae
           end
  | _ => float_of_int 1
  end.

Example pow_3_2 : Pow (float_of_int 3) 5 = float_of_int 243.
Proof. vm_compute. reflexivity. Qed.

(** ** Integers are exact below 2^53 *)

Lemma digits2_pos_bounds p :
  2 ^ (Zpos (digits2_pos p) - 1) <= Zpos p < 2 ^ Zpos (digits2_pos p).
Proof.
  induction p as [p IH|p IH|]; cbn [digits2_pos]; rewrite ?Pos2Z.inj_succ.
  - replace (2 ^ (Z.succ (Zpos (digits2_pos p)) - 1)) with (2 * 2 ^ (Zpos (digits2_pos p) - 1))
      by (rewrite <- Z.pow_succ_r by lia; f_equal; lia).
    rewrite Z.pow_succ_r by lia. lia.
  - replace (2 ^ (Z.succ (Zpos (digits2_pos p)) - 1)) with (2 * 2 ^ (Zpos (digits2_pos p) - 1))
      by (rewrite <- Z.pow_succ_r by lia; f_equal; lia).
    rewrite Z.pow_succ_r by lia. lia.
  - simpl. lia.
Qed.

Lemma iter_xO_value p d : Zpos (Pos.iter xO p d) = Zpos p * 2 ^ Zpos d.
Proof.
  revert p. induction d as [|d IH] using Pos.peano_ind; intros p.
  - simpl. lia.
  - rewrite Pos.iter_succ. rewrite Pos2Z.inj_xO, IH, Pos2Z.inj_succ, Z.pow_succ_r by lia. lia.
Qed.

Lemma iter_xO_digits p d : digits2_pos (Pos.iter xO p d) = (digits2_pos p + d)%positive.
Proof.
  induction d as [|d IH] using Pos.peano_ind.
  - simpl. lia.
  - rewrite Pos.iter_succ. cbn [digits2_pos]. rewrite IH. lia.
Qed.

Lemma round_aux_exact m e :
  Zpos (digits2_pos m) = 53 -> -1074 <= e <= 971 ->
  binary_round_aux 53 1024 false (Zpos m) e loc_Exact = S754_finite false m e.
Proof.
  intros Hd He. unfold binary_round_aux, shr_fexp, fexp, emin. cbn [Zdigits2]. rewrite Hd.
  replace (Z.max (53 + e - 53) (3 - 1024 - 53) - e) with 0 by lia.
  cbn [shr shr_record_of_loc shr_m loc_of_shr_record round_nearest_even Zdigits2]. rewrite Hd.
  replace (Z.max (53 + e - 53) (3 - 1024 - 53) - e) with 0 by lia.
  cbn [shr shr_record_of_loc shr_m]. replace (e <=? 1024 - 53) with true by lia. done.
Qed.

Lemma float_of_int_exact z :
  0 < z < 2 ^ 53 ->
  exists m e, float_of_int z = S754_finite false m e /\ e <= 0 /\ Zpos m = z * 2 ^ (- e).
Proof.
  intros Hz. destruct z as [|p|p]; try lia. pose proof (digits2_pos_bounds p) as Hd.
  assert (Hle : Zpos (digits2_pos p) <= 53).
  { apply Z.le_ngt. intros Hgt.
    assert (2 ^ 53 <= 2 ^ (Zpos (digits2_pos p) - 1)) by (apply Z.pow_le_mono_r; lia). lia. }
  unfold float_of_int, binary_normalize, binary_round, fexp, emin, shl_align.
  replace (Z.max (Zpos (digits2_pos p) + 0 - 53) (3 - 1024 - 53)) with (Zpos (digits2_pos p) - 53) by lia.
  rewrite Z.sub_0_r. destruct (Zpos (digits2_pos p) - 53) as [|k|k] eqn:E; try lia.
  - exists p, 0. split_and!; [apply round_aux_exact; lia|lia|simpl; lia].
  - exists (Pos.iter xO p k), (Zneg k). split_and!.
    + apply round_aux_exact; [rewrite iter_xO_digits|]; lia.
    + lia.
    + by rewrite iter_xO_value.
Qed.

(** A value that is not above [float64(z)] truncates to at most [z]. *)
Lemma ftrunc_le_of_int s m e z :
  0 <= z < 2 ^ 53 -> fgt (S754_finite s m e) (float_of_int z) = false ->
  ftrunc (S754_finite s m e) <= z.
Proof.
  intros Hz Hgt. destruct s.
  { simpl. destruct (0 <=? e) eqn:E.
    - pose proof (Z.pow_nonneg 2 e). lia.
    - pose proof (Z.div_pos (Zpos m) (2 ^ (- e))). pose proof (Z.pow_pos_nonneg 2 (- e)). lia. }
  destruct (decide (z = 0)) as [->|Hz0].
  { exfalso. change (float_of_int 0) with (S754_zero false) in Hgt.
    cbn [fgt fscaled fexponent] in Hgt.
    pose proof (Z.pow_pos_nonneg 2 (e - Z.min e 0)). lia. }
  destruct (float_of_int_exact z) as (mz&ez&Ez&Hez&Hm); [lia|]. rewrite Ez in Hgt.
  cbn [fgt fscaled fexponent] in Hgt. apply Z.ltb_ge in Hgt. rewrite !Z.mul_1_l in Hgt.
  cbn [ftrunc]. rewrite Z.mul_1_l.
  set (k := Z.min e ez) in Hgt.
  assert (HM : Zpos mz * 2 ^ (ez - k) = z * 2 ^ (- k)).
  { rewrite Hm, <- Z.mul_assoc, <- Z.pow_add_r by lia. do 2 f_equal. lia. }
  rewrite HM in Hgt. destruct (0 <=? e) eqn:E.
  - assert (2 ^ (e - k) = 2 ^ e * 2 ^ (- k)) as H by (rewrite <- Z.pow_add_r by lia; f_equal; lia).
    rewrite H, Z.mul_assoc in Hgt. pose proof (Z.pow_pos_nonneg 2 (- k)). nia.
  - apply Z.le_trans with (z * 2 ^ (- e) / 2 ^ (- e)).
    + apply Z.div_le_mono; [apply Z.pow_pos_nonneg; lia|].
      assert (2 ^ (- k) = 2 ^ (- e) * 2 ^ (e - k)) as H by (rewrite <- Z.pow_add_r by lia; f_equal; lia).
      rewrite H, Z.mul_assoc in Hgt. pose proof (Z.pow_pos_nonneg 2 (e - k)). nia.
    + rewrite Z.div_mul; [done|]. pose proof (Z.pow_pos_nonneg 2 (- e)). lia.
Qed.

(** ** Signs

    No operation above produces a negative number from values that are not
    negative (a NaN may appear, and is not counted as negative). *)

Definition fnonneg (f : float64) : Prop :=
  match f with
  | S754_finite s _ _ | S754_infinity s => s = false
  | _ => True
  end.

Create HintDb fnonneg.

Lemma round_aux_nonneg m e l : fnonneg (binary_round_aux 53 1024 false m e l).
Proof.
  unfold binary_round_aux. destruct (shr_fexp _ _ m e l) as [r1 e1]. simpl.
  destruct (shr_fexp _ _ _ _ _) as [r2 e2]. by repeat case_goal.
Qed.

Lemma round_nonneg m e : fnonneg (binary_round 53 1024 false m e).
Proof. unfold binary_round. destruct (shl_align _ _ _). apply round_aux_nonneg. Qed.
#[export] Hint Resolve round_nonneg round_aux_nonneg : fnonneg.

Lemma float_of_int_nonneg z : 0 <= z -> fnonneg (float_of_int z).
Proof. unfold float_of_int, binary_normalize. destruct z; try done. auto with fnonneg. Qed.

Lemma fmul_nonneg a b : fnonneg a -> fnonneg b -> fnonneg (fmul a b).
Proof.
  unfold fmul, SFmul. destruct a, b; simpl; intros; subst; simpl; auto with fnonneg.
Qed.

Lemma fadd_nonneg a b : fnonneg a -> fnonneg b -> fnonneg (fadd a b).
Proof.
  unfold fadd, SFadd. destruct a, b; simpl; intros; subst; simpl; auto;
    try by repeat case_goal.
  unfold binary_normalize. simpl. auto with fnonneg.
Qed.

Lemma ldexp_nonneg f e : fnonneg f -> fnonneg (SFldexp 53 1024 f e).
Proof. unfold SFldexp. destruct f; simpl; intros; subst; auto with fnonneg. Qed.

Lemma frexp_nonneg f : fnonneg f -> fnonneg (fst (SFfrexp 53 1024 f)).
Proof. unfold SFfrexp. destruct f; simpl; intros; subst; simpl; try done. by case_goal. Qed.
#[export] Hint Resolve float_of_int_nonneg fmul_nonneg fadd_nonneg ldexp_nonneg frexp_nonneg : fnonneg.

Lemma pow_loop_nonneg i : forall a1 ae x1 xe,
  fnonneg a1 -> fnonneg x1 -> fnonneg (fst (pow_loop i a1 ae x1 xe)).
Proof.
  induction i as [i IH|i IH|]; intros a1 ae x1 xe Ha Hx; cbn [pow_loop];
    (destruct (_ || _); [done|]); destruct (fgt _ _); simpl; auto with fnonneg;
    apply IH; auto with fnonneg.
Qed.

Lemma Pow_nonneg x n : fnonneg x -> fnonneg (Pow x n).
Proof.
  intros Hx. unfold Pow. destruct n as [|p|p]; [by apply float_of_int_nonneg| |by apply float_of_int_nonneg].
  destruct (_ =? 1); [done|]. destruct x as [s|s| |s m e]; simpl in Hx; subst; try done.
  - by case_goal.
  - pose proof (frexp_nonneg (S754_finite false m e) eq_refl) as Hf.
    destruct (SFfrexp 53 1024 (S754_finite false m e)) as [x1 xe].
    pose proof (pow_loop_nonneg p (float_of_int 1) 0 x1 xe) as Hp.
    destruct (pow_loop _ _ _ _ _). apply ldexp_nonneg, Hp; [by apply float_of_int_nonneg|done].
Qed.
#[export] Hint Resolve Pow_nonneg : fnonneg.

Lemma ftrunc_nonneg f : fnonneg f -> 0 <= ftrunc f.
Proof.
  destruct f as [| | |s m e]; simpl; intros; subst; try done. rewrite Z.mul_1_l.
  destruct (0 <=? e) eqn:E; [pose proof (Z.pow_nonneg 2 e); lia|].
  apply Z.div_pos; [lia|]. apply Z.pow_pos_nonneg; lia.
Qed.
