(* ===== verification/StrategyParse.v ===== *)
(** * StrategyParse: [bamlutils/strategyparse/parser.go]

    The parser of the runtime [strategy] option, shared by the fallback and the
    round-robin resolver.  Theorems: every name it returns is trimmed, unquoted
    at most once and nonempty; a bracketed rendering of clean names parses back
    to them; text that is not one bracketed list is rejected. *)

From Stdlib Require Import Ascii String.
From S2P Require Import Prelude GoStrings GoValue.

Definition dquote : ascii := "034"%char.
Definition squote : ascii := "039"%char.

(** [normalizeToken]: trim, strip one layer of matching quotes, trim. *)
Definition normalizeToken (token : string) : string :=
  let token := TrimSpace token in
  let token :=
    match token with
    | String first rest =>
        match unsnoc rest with
        | Some (mid, last) =>
            if (Ascii.eqb first dquote && Ascii.eqb last dquote)
               || (Ascii.eqb first squote && Ascii.eqb last squote)
            then mid else token
        | None => token
        end
    | EmptyString => token
    end in
  TrimSpace token.

(** Append the normalised token unless it is empty, in order. *)
Definition normalizeTokens (l : list string) : list string :=
  filter (fun t => t <> "") (normalizeToken <$> l).

(** The separators of the list body: comma, blank, tab and newline. *)
Definition strategySep (r : ascii) : bool :=
  let n := N_of_ascii r in ((n =? 44) || (n =? 32) || (n =? 9) || (n =? 10))%N.

(** [parseBracketedString]. *)
Definition parseBracketedString (s : string) : list string :=
  let s := TrimSpace s in
  let s := TrimPrefix s "strategy " in
  let s := TrimSpace s in
  match s with
  | String "["%char rest =>
      match unsnoc rest with
      | Some (inner, "]"%char) =>
          if ContainsByte "]"%char inner then []
          else if ContainsByte "["%char rest then []
          else normalizeTokens (FieldsFunc strategySep inner)
      | _ => []
      end
  | _ => []
  end.

(** The [[]any] case: reject the whole list at the first element that is not a
    string. *)
Fixpoint strategyStrings (l : list goval) : option (list string) :=
  match l with
  | [] => Some []
  | GString s :: l' => (s ::.) <$> strategyStrings l'
  | _ :: _ => None
  end.

(** [ParseStrategyOption].  The nil slice is the empty list ([nilIfEmpty]
    identifies them). *)
Definition ParseStrategyOption (v : goval) : list string :=
  match v with
  | GString s => parseBracketedString s
  | GStrings l => normalizeTokens l
  | GList l => match strategyStrings l with Some ss => normalizeTokens ss | None => [] end
  | _ => []
  end.

(** ** Properties *)

Lemma normalizeTokens_nonempty l : Forall (fun t => t <> "") (normalizeTokens l).
Proof. apply Forall_forall. intros t [H _]%list_elem_of_filter. done. Qed.

(** A byte that can neither start nor end a white space encoding, is no quote
    and no list syntax: what client names are made of. *)
Definition nameByte (a : ascii) : bool :=
  let n := N_of_ascii a in
  ((33 <=? n) && (n <=? 126) && negb (n =? 34) && negb (n =? 39) && negb (n =? 44)
   && negb (n =? 91) && negb (n =? 93))%N.

Definition cleanName (s : string) : bool := (s <>s "") && sall nameByte s.

Lemma eqb_code a b n : N_of_ascii b = n -> N_of_ascii a <> n -> Ascii.eqb a b = false.
Proof. intros Hb H. apply Ascii.eqb_neq. intros ->. done. Qed.

Lemma nameByte_facts a :
  nameByte a = true ->
  isAsciiSpace a = false /\ (forall b, isSpace2 a b = false) /\ (forall b c, isSpace3 a b c = false)
  /\ (forall b, isSpace2 b a = false) /\ (forall b c, isSpace3 c b a = false)
  /\ strategySep a = false /\ Ascii.eqb a dquote = false /\ Ascii.eqb a squote = false
  /\ Ascii.eqb a "["%char = false /\ Ascii.eqb a "]"%char = false.
Proof.
  unfold nameByte, isAsciiSpace, isSpace2, isSpace3, strategySep. intros H.
  repeat split; intros; try (eapply eqb_code; [vm_compute; reflexivity|]); lia.
Qed.

Lemma sall_impl (p q : ascii -> bool) s :
  (forall a, p a = true -> q a = true) -> sall p s = true -> sall q s = true.
Proof.
  intros Hpq. induction s as [|a s IH]; simpl; [done|].
  intros [Ha Hs]%andb_true_iff. rewrite Hpq, IH; done.
Qed.

(** A clean name survives trimming and normalisation unchanged. *)
Lemma TrimSpace_clean s : sall nameByte s = true -> TrimSpace s = s.
Proof.
  intros Hs. unfold TrimSpace, TrimLeftSpace.
  assert (Hid : dropPatterns isAsciiSpace isSpace2 isSpace3 s = s).
  { destruct s as [|a s]; [done|]. apply andb_true_iff in Hs as [Ha _].
    apply nameByte_facts in Ha as (?&?&?&_). by apply dropPatterns_id. }
  rewrite Hid. unfold TrimRightSpace. rewrite <- sall_srev in Hs.
  rewrite <- (srev_involutive s) at 2. f_equal.
  destruct (srev s) as [|a t]; [done|]. apply andb_true_iff in Hs as [Ha _].
  apply nameByte_facts in Ha as (?&_&_&?&?&_). by apply dropPatterns_id.
Qed.

Lemma normalizeToken_clean s : sall nameByte s = true -> normalizeToken s = s.
Proof.
  intros Hs. unfold normalizeToken. cbv zeta. rewrite (TrimSpace_clean s) by done.
  destruct s as [|a s]; [done|].
  pose proof Hs as [Ha _]%andb_true_iff. pose proof (nameByte_facts a Ha) as Hf.
  destruct Hf as (_&_&_&_&_&_&-> & -> & _).
  destruct (unsnoc s) as [[m z]|]; by apply TrimSpace_clean.
Qed.

Lemma cleanName_inv s : cleanName s = true -> s <> "" /\ sall nameByte s = true.
Proof. unfold cleanName. intros H. reflect_eqb. done. Qed.

Lemma normalizeTokens_clean l : Forall (fun s => cleanName s = true) l -> normalizeTokens l = l.
Proof.
  unfold normalizeTokens. induction 1 as [|s l Hs Hl IH]; [done|].
  apply cleanName_inv in Hs as [Hne Hs]. rewrite fmap_cons, normalizeToken_clean by done.
  rewrite filter_cons_True by done. by rewrite IH.
Qed.

(** How a list of names is written in a client registry: ["[A, B, C]"]. *)
Fixpoint joinNames (l : list string) : string :=
  match l with
  | [] => ""
  | [s] => s
  | s :: l' => s +:+ ", " +:+ joinNames l'
  end.
Definition renderStrategy (l : list string) : string := "[" +:+ joinNames l +:+ "]".

Lemma joinNames_cons2 s s' l : joinNames (s :: s' :: l) = s +:+ ", " +:+ joinNames (s' :: l).
Proof. reflexivity. Qed.

Lemma cleanName_sep s : cleanName s = true -> sall (fun a => negb (strategySep a)) s = true.
Proof.
  intros [_ Hs]%cleanName_inv. eapply sall_impl; [|exact Hs].
  intros a Ha. by destruct (nameByte_facts a Ha) as (_&_&_&_&_&->&_).
Qed.

Lemma fields_joinNames l :
  Forall (fun s => cleanName s = true) l -> FieldsFunc strategySep (joinNames l) = l.
Proof.
  unfold FieldsFunc. induction 1 as [|s l Hs Hl IH]; [done|].
  pose proof (cleanName_sep s Hs) as Hsep. apply cleanName_inv in Hs as [Hne _].
  assert (Hr : srev s <> "").
  { intros E. apply Hne. by rewrite <- (srev_involutive s), E. }
  destruct l as [|s' l].
  - simpl. rewrite <- (sapp_nil_r s), fieldsAcc_app, sapp_nil_r by done. simpl.
    destruct (srev s) eqn:E; [done|]. by rewrite <- E, srev_involutive, sapp_nil_r.
  - rewrite joinNames_cons2, fieldsAcc_app, sapp_nil_r by done.
    generalize dependent (joinNames (s' :: l)). intros j IH. simpl.
    destruct (srev s) eqn:E; [done|]. by rewrite <- E, srev_involutive, IH.
Qed.

Lemma ContainsByte_app c s t : ContainsByte c (s +:+ t) = ContainsByte c s || ContainsByte c t.
Proof. induction s as [|a s IH]; simpl; [done|]. by rewrite IH, orb_assoc. Qed.

Lemma ContainsByte_sall c s :
  sall (fun a => negb (Ascii.eqb a c)) s = true -> ContainsByte c s = false.
Proof.
  induction s as [|a s IH]; simpl; [done|].
  intros [Ha Hs]%andb_true_iff. apply negb_true_iff in Ha. by rewrite Ha, IH.
Qed.

Lemma joinNames_bracket c l :
  (c = "["%char \/ c = "]"%char) -> Forall (fun s => cleanName s = true) l ->
  ContainsByte c (joinNames l) = false.
Proof.
  intros Hc. induction 1 as [|s l Hs Hl IH]; [done|].
  assert (ContainsByte c s = false) as Hcs.
  { apply cleanName_inv in Hs as [_ Hs]. apply ContainsByte_sall.
    eapply sall_impl; [|exact Hs]. intros a Ha.
    destruct (nameByte_facts a Ha) as (_&_&_&_&_&_&_&_&Ho&Hcl), Hc as [-> | ->]; simpl.
    - by rewrite Ho.
    - by rewrite Hcl. }
  destruct l as [|s' l]; [done|]. rewrite joinNames_cons2.
  rewrite !ContainsByte_app, Hcs, IH. by destruct Hc as [-> | ->].
Qed.

(** A printable ASCII byte belongs to no white space encoding. *)
Lemma printable_nospace a :
  (33 <= N_of_ascii a <= 126)%N ->
  isAsciiSpace a = false /\ (forall b, isSpace2 a b = false) /\ (forall b c, isSpace3 a b c = false)
  /\ (forall b, isSpace2 b a = false) /\ (forall b c, isSpace3 c b a = false).
Proof. unfold isAsciiSpace, isSpace2, isSpace3. intros H. repeat split; intros; lia. Qed.

(** Trimming keeps a string that starts and ends with printable bytes. *)
Lemma TrimSpace_printable a m z :
  (33 <= N_of_ascii a <= 126)%N -> (33 <= N_of_ascii z <= 126)%N ->
  TrimSpace (String a (m +:+ String z "")) = String a (m +:+ String z "").
Proof.
  intros (H1&H2&H3&_)%printable_nospace (K1&_&_&K2&K3)%printable_nospace.
  unfold TrimSpace, TrimLeftSpace. rewrite dropPatterns_id by done.
  unfold TrimRightSpace.
  rewrite <- (srev_involutive (String a (m +:+ String z ""))) at 2. f_equal.
  rewrite srev_cons, srev_sapp. change (srev (String z "")) with (String z "").
  cbn [String.append]. by apply dropPatterns_id.
Qed.

Lemma TrimSpace_bracketed s : TrimSpace ("[" +:+ s +:+ "]") = "[" +:+ s +:+ "]".
Proof. apply (TrimSpace_printable "[" s "]"); vm_compute; split; congruence. Qed.

Lemma CutPrefix_bracket s : CutPrefix "strategy " ("[" +:+ s +:+ "]") = None.
Proof. reflexivity. Qed.

(** Round trip: the bracketed rendering of a nonempty list of clean client
    names is parsed back to exactly that list, whether or not it carries the
    ["strategy "] prefix the BAML syntax has. *)
Theorem ParseStrategyOption_render l :
  Forall (fun s => cleanName s = true) l ->
  ParseStrategyOption (GString (renderStrategy l)) = l
  /\ ParseStrategyOption (GString ("strategy " +:+ renderStrategy l)) = l.
Proof.
  intros Hl.
  assert (Hcore : forall s, TrimSpace s = s -> TrimSpace (TrimPrefix s "strategy ") = renderStrategy l ->
                            ParseStrategyOption (GString s) = l).
  { intros s H1 H2. unfold ParseStrategyOption, parseBracketedString. cbv zeta.
    rewrite H1, H2. unfold renderStrategy. cbn [String.append].
    change (joinNames l +:+ "]") with (joinNames l +:+ String "]"%char "").
    rewrite unsnoc_app, ContainsByte_app, !joinNames_bracket by auto.
    cbn [ContainsByte]. by rewrite fields_joinNames, normalizeTokens_clean. }
  split; apply Hcore.
  - apply TrimSpace_bracketed.
  - unfold TrimPrefix, renderStrategy. rewrite CutPrefix_bracket. apply TrimSpace_bracketed.
  - unfold renderStrategy. rewrite <- !sapp_assoc.
    apply (TrimSpace_printable "s" ("trategy [" +:+ joinNames l) "]"); vm_compute; split; congruence.
  - unfold TrimPrefix, renderStrategy. simpl. apply TrimSpace_bracketed.
Qed.

Lemma ParseStrategyOption_render_witness :
  ParseStrategyOption (GString "[GPT4, Claude-3]") = ["GPT4"; "Claude-3"].
Proof. exact (proj1 (ParseStrategyOption_render ["GPT4"; "Claude-3"] ltac:(repeat constructor))). Defined.

Lemma normalizeTokens_trimmed l : Forall (fun t => t <> "" /\ TrimSpace t = t) (normalizeTokens l).
Proof.
  apply Forall_forall. intros t [H [x [-> _]]%list_elem_of_fmap]%list_elem_of_filter.
  split; [done|]. apply TrimSpace_idem.
Qed.

(** Whatever the shape of the option, every name the parser returns is
    nonempty and free of surrounding white space; and a string option is
    accepted only when, after trimming and an optional ["strategy "] prefix, it
    is a single pair of brackets with no further bracket inside. *)
Theorem ParseStrategyOption_sound v :
  Forall (fun t => t <> "" /\ TrimSpace t = t) (ParseStrategyOption v)
  /\ (forall s, v = GString s -> ParseStrategyOption v <> [] ->
       exists inner, TrimSpace (TrimPrefix (TrimSpace s) "strategy ") = "[" +:+ inner +:+ "]"
                     /\ ContainsByte "[" inner = false /\ ContainsByte "]" inner = false).
Proof.
  split.
  - destruct v; simpl; try constructor; try apply normalizeTokens_trimmed.
    + unfold parseBracketedString. cbv zeta. repeat case_goal; try constructor.
      apply normalizeTokens_trimmed.
    + case_goal; [apply normalizeTokens_trimmed|constructor].
  - intros s -> Hne. simpl in Hne. unfold parseBracketedString in Hne. cbv zeta in Hne.
    destruct (TrimSpace (TrimPrefix (TrimSpace s) "strategy ")) as [|a rest] eqn:E; [done|].
    assert (a = "["%char) as -> by (repeat (case_hyp Hne; try done)).
    destruct (unsnoc rest) as [[inner z]|] eqn:Eu; [|done].
    assert (z = "]"%char) as -> by (repeat (case_hyp Hne; try done)).
    apply unsnoc_some in Eu as ->. destruct (ContainsByte "]" inner) eqn:E1; [done|].
    destruct (ContainsByte "[" (inner +:+ "]")) eqn:E2; [done|].
    rewrite ContainsByte_app in E2. apply orb_false_iff in E2 as [E2 _]. by exists inner.
Qed.
