(* ===== verification/Registry.v ===== *)
(** * Registry: the runtime client registry of [bamlutils/interfaces.go]

    [ClientRegistry] and [ClientProperty], the validation of a registry, the
    three presence states of the [provider] key, and the predicates that decide
    which entries are strategy parents and what is forwarded upstream. *)

From S2P Require Import Prelude GoValue.

(** [ClientProperty]; the configuration seal is not read by the modelled code. *)
Record ClientProperty := mkClient {
  cp_Name : string;
  cp_Provider : string;
  cp_RetryPolicy : option string;
  cp_Options : option (gmap string goval);
  cp_ProviderSet : bool
}.

(** [ClientRegistry]: [Clients] is a slice of pointers, so an entry may be nil. *)
Record ClientRegistry := mkRegistry {
  reg_Primary : option string;
  reg_Clients : list (option ClientProperty)
}.

(** [RoundRobinInfo]. *)
Record RoundRobinInfo := mkRRInfo {
  rr_Name : string;
  rr_Children : list string;
  rr_Index : Z;
  rr_Selected : string
}.

(** [ClientProperty.IsProviderPresent] on a non-nil receiver. *)
Definition IsProviderPresent (c : ClientProperty) : bool :=
  (cp_Provider c <>s "") || cp_ProviderSet c.

(** The option lookup [Options[k]] of a possibly nil map. *)
Definition option_key (c : ClientProperty) (k : string) : option goval :=
  match cp_Options c with Some m => m !! k | None => None end.

(** ** Validation *)

Inductive RegistryError :=
  | ErrEmptyClientName (index : nat)
  | ErrDuplicateClientName (name : string).

(** The loop of [Validate]: [seen] is the set of names before index [i]. *)
Fixpoint Validate_loop (i : nat) (seen : gset string) (l : list (option ClientProperty))
    : option RegistryError :=
  match l with
  | [] => None
  | None :: l' => Validate_loop (S i) seen l'
  | Some c :: l' =>
      if cp_Name c =s "" then Some (ErrEmptyClientName i)
      else if decide (cp_Name c ∈ seen) then Some (ErrDuplicateClientName (cp_Name c))
      else Validate_loop (S i) ({[cp_Name c]} ∪ seen) l'
  end.

(** [ClientRegistry.Validate]; a nil registry is valid. *)
Definition Validate (r : option ClientRegistry) : option RegistryError :=
  match r with
  | None => None
  | Some r => Validate_loop 0 ∅ (reg_Clients r)
  end.

(** ** Presence of the provider on the wire *)

(** [ClientProperty.MarshalJSON]: the ["provider"] key of the object, absent
    when the provider is not present. *)
Definition MarshalJSON_provider (c : ClientProperty) : option string :=
  if IsProviderPresent c then Some (cp_Provider c) else None.

(** [ClientProperty.UnmarshalJSON]: the provider field and the presence flag
    read back from the key. *)
Definition UnmarshalJSON_provider (key : option string) (c : ClientProperty) : ClientProperty :=
  {| cp_Name := cp_Name c; cp_Provider := default "" key; cp_RetryPolicy := cp_RetryPolicy c;
     cp_Options := cp_Options c; cp_ProviderSet := bool_decide (is_Some key) |}.

(** ** Strategy parents *)

(** [TranslateUpstreamProvider]. *)
Definition TranslateUpstreamProvider (provider : string) : string :=
  if provider =s "baml-roundrobin" then "baml-round-robin" else provider.

(** [isStrategyProviderName]. *)
Definition isStrategyProviderName (p : string) : bool :=
  bool_decide (p ∈ ["round-robin"; "baml-round-robin"; "baml-roundrobin"; "fallback"; "baml-fallback"]).

(** A Go map lookup that yields the zero string for a missing key. *)
Definition map_str (m : gmap string string) (k : string) : string := default "" (m !! k).

(** [IsResolvedStrategyParent] on a non-nil client. *)
Definition IsResolvedStrategyParent (client : ClientProperty)
    (introspectedProviders : gmap string string) : bool :=
  let provider :=
    if IsProviderPresent client then cp_Provider client
    else map_str introspectedProviders (cp_Name client) in
  isStrategyProviderName provider.

(** [ShouldDropStrategyParentForTopLevelLegacy]. *)
Definition ShouldDropStrategyParentForTopLevelLegacy (client : ClientProperty)
    (introspectedProviders : gmap string string) : bool :=
  if negb (IsResolvedStrategyParent client introspectedProviders) then false
  else if IsProviderPresent client then false
  else match option_key client "strategy", option_key client "start" with
       | None, None => true
       | _, _ => false
       end.

(** [UpstreamClientRegistryProvider] on a non-nil client. *)
Definition UpstreamClientRegistryProvider (client : ClientProperty)
    (introspectedProviders : gmap string string) : string :=
  if IsProviderPresent client then TranslateUpstreamProvider (cp_Provider client)
  else let p := map_str introspectedProviders (cp_Name client) in
       if p <>s "" then TranslateUpstreamProvider p else "".

(** ** Lookup by name *)

(** [findRuntimeClient] of the round-robin resolver: the first non-nil entry
    with the name. *)
Fixpoint find_client (l : list (option ClientProperty)) (name : string) : option ClientProperty :=
  match l with
  | [] => None
  | Some c :: l' => if cp_Name c =s name then Some c else find_client l' name
  | None :: l' => find_client l' name
  end.
Definition findRuntimeClient (reg : option ClientRegistry) (name : string) : option ClientProperty :=
  match reg with Some r => find_client (reg_Clients r) name | None => None end.

(** The first entry with the name whose provider is present. *)
Fixpoint find_present (l : list (option ClientProperty)) (name : string) : option ClientProperty :=
  match l with
  | [] => None
  | Some c :: l' =>
      if (cp_Name c =s name) && IsProviderPresent c then Some c else find_present l' name
  | None :: l' => find_present l' name
  end.
Definition find_present_client (reg : option ClientRegistry) (name : string) : option ClientProperty :=
  match reg with Some r => find_present (reg_Clients r) name | None => None end.

(** ** Properties *)

(** The names of the non-nil entries, in order. *)
Definition client_names (l : list (option ClientProperty)) : list string :=
  cp_Name <$> omap id l.

Lemma Validate_loop_spec l : forall i seen,
  Validate_loop i seen l = None <->
  NoDup (client_names l) /\ Forall (fun n => n <> "" /\ n ∉ seen) (client_names l).
Proof.
  unfold client_names. induction l as [|[c|] l IH]; intros i seen; simpl.
  - split; [|done]. repeat constructor.
  - destruct (String.eqb_spec (cp_Name c) "") as [E|E].
    { split; [done|]. rewrite Forall_cons. naive_solver. }
    case_decide as Hs.
    { split; [done|]. rewrite Forall_cons. naive_solver. }
    rewrite IH, NoDup_cons, Forall_cons, !Forall_forall. split.
    + intros [Hnd Hf]. split; [split; [|done]|split; [done|]].
      * intros Hin. apply Hf in Hin. set_solver.
      * intros x Hx. apply Hf in Hx. set_solver.
    + intros [[Hni Hnd] [_ Hf]]. split; [done|]. intros x Hx.
      pose proof (Hf x Hx). split; [naive_solver|]. set_solver.
  - apply IH.
Qed.

(** A registry passes [Validate] exactly when every non-nil entry has a
    nonempty name and no two entries share one. *)
Theorem Validate_spec r :
  Validate (Some r) = None <->
  NoDup (client_names (reg_Clients r)) /\ Forall (fun n => n <> "") (client_names (reg_Clients r)).
Proof.
  unfold Validate. rewrite Validate_loop_spec.
  split; intros [? Hf]; (split; [done|]); eapply Forall_impl; try exact Hf; set_solver.
Qed.

Lemma find_client_some l name c : find_client l name = Some c -> Some c ∈ l /\ cp_Name c = name.
Proof.
  induction l as [|[d|] l IH]; simpl; intros H; [done| |].
  - destruct (String.eqb_spec (cp_Name d) name); simplify_eq; [split; [constructor|done]|].
    apply IH in H as [? ?]. split; [by constructor|done].
  - apply IH in H as [? ?]. split; [by constructor|done].
Qed.

Lemma find_client_elem l c :
  NoDup (client_names l) -> Some c ∈ l -> find_client l (cp_Name c) = Some c.
Proof.
  unfold client_names. induction l as [|[d|] l IH]; simpl; intros Hnd Hin; [by inversion Hin| |].
  - apply NoDup_cons in Hnd as [Hni Hnd].
    apply elem_of_cons in Hin as [[= ->]|Hin]; [by rewrite String.eqb_refl|].
    destruct (String.eqb_spec (cp_Name d) (cp_Name c)) as [E|E]; [|by apply IH].
    exfalso. apply Hni. rewrite E. apply list_elem_of_fmap. exists c. split; [done|].
    apply list_elem_of_omap. by exists (Some c).
  - apply elem_of_cons in Hin as [?|Hin]; [done|]. by apply IH.
Qed.

Lemma find_present_some l name c :
  find_present l name = Some c -> Some c ∈ l /\ cp_Name c = name /\ IsProviderPresent c = true.
Proof.
  induction l as [|[d|] l IH]; simpl; intros H; [done| |].
  - destruct (String.eqb_spec (cp_Name d) name), (IsProviderPresent d) eqn:E; simplify_eq/=;
      try (apply IH in H as (?&?&?); split_and!; [by constructor|done..]).
    split_and!; [constructor|done..].
  - apply IH in H as (?&?&?). split_and!; [by constructor|done..].
Qed.

(** On a valid registry the scan for "first entry with the name whose provider
    is present" and the scan for "first entry with the name" read the same
    entry, so the resolvers and the override checks agree. *)
Lemma find_present_find l name :
  NoDup (client_names l) ->
  find_present l name =
    match find_client l name with
    | Some c => if IsProviderPresent c then Some c else None
    | None => None
    end.
Proof.
  intros Hnd. destruct (find_present l name) as [c|] eqn:E.
  - apply find_present_some in E as (Hin&<-&Hp). by rewrite (find_client_elem _ _ Hnd Hin), Hp.
  - destruct (find_client l name) as [c|] eqn:E2; [|done].
    destruct (IsProviderPresent c) eqn:E3; [|done]. exfalso.
    clear Hnd. induction l as [|[d|] l IH]; simpl in *; [done| |by apply IH].
    destruct (String.eqb_spec (cp_Name d) name); simpl in *; simplify_eq.
    + by rewrite E3 in E.
    + by apply IH.
Qed.

(** The three presence states of the provider key (absent, present and
    empty, present and nonempty) survive a marshal/unmarshal round trip: the
    decoded entry has the same provider, and the same answer to
    [IsProviderPresent]. *)
Theorem provider_roundtrip c :
  let d := UnmarshalJSON_provider (MarshalJSON_provider c) c in
  cp_Provider d = cp_Provider c /\ IsProviderPresent d = IsProviderPresent c
  /\ MarshalJSON_provider d = MarshalJSON_provider c.
Proof.
  unfold MarshalJSON_provider, UnmarshalJSON_provider, IsProviderPresent.
  destruct c as [n p rp o ps]; simpl.
  destruct (decide (p = "")) as [->|Hp%String.eqb_neq]; [by destruct ps|].
  rewrite Hp. simpl. rewrite Hp. by destruct ps.
Qed.

(** An entry is hidden from the legacy registry view exactly when it is a
    strategy parent by its introspected provider alone: nothing in the entry
    (provider, strategy or start) expresses an intent that dropping would lose. *)
Theorem ShouldDrop_spec c prov :
  ShouldDropStrategyParentForTopLevelLegacy c prov = true <->
  isStrategyProviderName (map_str prov (cp_Name c)) = true
  /\ cp_Provider c = "" /\ cp_ProviderSet c = false
  /\ option_key c "strategy" = None /\ option_key c "start" = None.
Proof.
  unfold ShouldDropStrategyParentForTopLevelLegacy, IsResolvedStrategyParent, IsProviderPresent.
  destruct (String.eqb_spec (cp_Provider c) ""), (cp_ProviderSet c); simpl;
    (split; [|intros (?&?&?&?&?); simplify_eq/=]); repeat case_goal; intros; reflect_eqb;
    simplify_eq/=; auto; congruence.
Qed.
