(* ===== verification/Retry.v ===== *)
(** * Retry: [bamlutils/retry/retry.go]

    Retry policies, their delay strategies, and [Execute], the loop that runs an
    attempt until it succeeds, fails terminally, is cancelled, or the attempts
    are exhausted.

    [Execute] is generic in the world [W] its callbacks act on.  The context is
    read with [ctxErr] (its error once it is done), the attempt is [fn], the
    timed wait is [sleep] (which resolves to the context's error when the
    context is done before the timer fires).  Besides the final world and Go's
    result pair, the model returns the sequence of observable actions. *)

From S2P Require Import Prelude GoValue GoFloat.

Local Open Scope Z_scope.

(** ** Policies *)

Record StrategyConfig := mkStrategyConfig {
  sc_Type : string;
  sc_DelayMs : Z;
  sc_Multiplier : float64;
  sc_MaxDelayMs : Z
}.

Inductive Strategy :=
  | ConstantDelay (DelayMs : Z)
  | ExponentialBackoff (DelayMs : Z) (Multiplier : float64) (MaxDelayMs : Z).

Record Policy := mkPolicy {
  MaxRetries : Z;
  PolicyStrategy : option Strategy;
  PolicyStrategyConfig : option StrategyConfig
}.

Definition DefaultDelayMs : Z := 200.
Definition DefaultMultiplier : float64 := S754_finite false 6755399441055744 (- 52). (* 1.5 *)
Definition DefaultMaxDelayMs : Z := 10000.

(** [m <= 0] on floats; false for NaN. *)
Definition float_nonpos (m : float64) : bool :=
  match m with
  | S754_zero _ => true
  | S754_finite s _ _ | S754_infinity s => s
  | S754_nan => false
  end.

(** [Policy.ResolveStrategy]; the once guard makes a second call do nothing,
    as the first leaves a strategy behind. *)
Definition ResolveStrategy (p : Policy) : Policy :=
  match PolicyStrategy p with
  | Some _ => p
  | None =>
      let strategy :=
        match PolicyStrategyConfig p with
        | None => ConstantDelay DefaultDelayMs
        | Some c =>
            if (sc_Type c =s "exponential_backoff")%go then
              ExponentialBackoff
                (if sc_DelayMs c <=? 0 then DefaultDelayMs else sc_DelayMs c)
                (if float_nonpos (sc_Multiplier c) then DefaultMultiplier else sc_Multiplier c)
                (if sc_MaxDelayMs c <=? 0 then DefaultMaxDelayMs else sc_MaxDelayMs c)
            else ConstantDelay (if sc_DelayMs c <=? 0 then DefaultDelayMs else sc_DelayMs c)
        end in
      {| MaxRetries := MaxRetries p; PolicyStrategy := Some strategy;
         PolicyStrategyConfig := PolicyStrategyConfig p |}
  end.

(** ** Delays, in nanoseconds *)

Definition Millisecond : Z := 1000000.

(** The constant [Delay], with the 64-bit product written out. *)
Definition ConstantDelay_Delay (DelayMs : Z) (attempt : Z) : Z := i64 (DelayMs * Millisecond).

(** The exponential [Delay]. *)
Definition ExponentialBackoff_Delay (DelayMs : Z) (Multiplier : float64) (MaxDelayMs : Z)
    (attempt : Z) : Z :=
  let delay := fmul (float_of_int DelayMs) (Pow Multiplier attempt) in
  let maxDelay := float_of_int MaxDelayMs in
  let delay := if fgt delay maxDelay then maxDelay else delay in
  i64 (float_to_int64 delay * Millisecond).

(** The [Strategy] interface. *)
Definition Delay (s : Strategy) (attempt : Z) : Z :=
  match s with
  | ConstantDelay d => ConstantDelay_Delay d attempt
  | ExponentialBackoff d m x => ExponentialBackoff_Delay d m x attempt
  end.

(** ** The delay bound *)

Lemma float_to_int64_capped d m :
  0 <= m < 2 ^ 53 -> fnonneg d -> fgt d (float_of_int m) = false ->
  0 <= float_to_int64 d <= m \/ float_to_int64 d = MinInt64.
Proof.
  intros Hm Hd Hgt. destruct d as [s|s| |s mm e]; simpl; auto; [lia|].
  simpl in Hd; subst.
  pose proof (ftrunc_le_of_int false mm e m Hm Hgt).
  pose proof (ftrunc_nonneg (S754_finite false mm e) eq_refl).
  fold (ftrunc (S754_finite false mm e)). destruct (_ && _); lia.
Qed.

Lemma float_to_int64_of_int m : 0 <= m < 2 ^ 53 -> 0 <= float_to_int64 (float_of_int m) <= m.
Proof.
  intros Hm. destruct (decide (m = 0)) as [->|]; [by vm_compute|].
  destruct (float_of_int_exact m) as (k&e&->&He&Hk); [lia|].
  assert (ftrunc (S754_finite false k e) = m) as E.
  { cbn [ftrunc]. rewrite Z.mul_1_l. destruct (0 <=? e) eqn:?.
    - replace e with 0 in * by lia. simpl in Hk. lia.
    - rewrite Hk, Z.div_mul; [done|]. pose proof (Z.pow_pos_nonneg 2 (- e)). lia. }
  unfold float_to_int64. rewrite E. unfold MinInt64, MaxInt64.
  replace (_ && _) with true by lia. lia.
Qed.

(** The exponential delay is capped: with a delay, a multiplier and a
    maximum that are not negative and a maximum whose nanoseconds fit in 64
    bits, every attempt's delay lies between 0 and [MaxDelayMs] milliseconds,
    also when the power overflows to infinity. *)
Theorem ExponentialBackoff_bounded DelayMs Multiplier MaxDelayMs attempt :
  0 <= DelayMs -> fnonneg Multiplier ->
  0 <= MaxDelayMs -> MaxDelayMs * Millisecond <= MaxInt64 ->
  0 <= ExponentialBackoff_Delay DelayMs Multiplier MaxDelayMs attempt <= MaxDelayMs * Millisecond.
Proof.
  intros Hd Hm Hx Hfit. unfold Millisecond, MaxInt64 in Hfit.
  unfold ExponentialBackoff_Delay. cbv zeta.
  set (d := fmul _ _). assert (fnonneg d) as Hnd by (unfold d; auto with fnonneg).
  assert (forall z, 0 <= z <= MaxDelayMs -> 0 <= i64 (z * Millisecond) <= MaxDelayMs * Millisecond) as Hi.
  { intros z Hz. unfold Millisecond. rewrite i64_id; unfold MinInt64, MaxInt64; lia. }
  destruct (fgt d (float_of_int MaxDelayMs)) eqn:E.
  - apply Hi, float_to_int64_of_int. lia.
  - destruct (float_to_int64_capped d MaxDelayMs) as [?| ->]; [lia|done|done|by apply Hi|].
    change (i64 (MinInt64 * Millisecond)) with 0. unfold Millisecond. lia.
Qed.

Lemma ExponentialBackoff_bounded_witness :
  0 <= ExponentialBackoff_Delay 200 DefaultMultiplier 10000 20 <= 10000 * Millisecond.
Proof. apply ExponentialBackoff_bounded; try done; vm_compute; congruence. Defined.

(** The observable actions of [Execute]: an attempt with what it returned, a
    retry notification, a timed wait. *)
Inductive Action {T E : Type} :=
  | ActAttempt (attempt : Z) (r : T * option E)
  | ActRetry (attempt : Z)
  | ActSleep (delay : Z).
Arguments Action : clear implicits.

(** How one pass over the loop body ends. *)
Inductive BodyResult {T E : Type} :=
  | Return (r : T * option E)
  | Break (err : E)
  | Continue (err : E).
Arguments BodyResult : clear implicits.

Section Execute.
Context {W T E : Type}.
Variable zero : T.
Variable ctxErr : W -> option E.
Variable isTerminal : E -> bool.
Variable fn : Z -> W -> W * (T * option E).
Variable onRetry : option (Z -> W -> W).
Variable sleep : Z -> W -> W * option E.

(** The loop body. *)
Definition Execute_body (p : Policy) (maxRetries attempt : Z) (w : W)
    : W * list (Action T E) * BodyResult T E :=
  match ctxErr w with
  | Some e => (w, [], Return (zero, Some e))
  | None =>
      let '(w, (result, err)) := fn attempt w in
      let acts := [ActAttempt attempt (result, err)] in
      match err with
      | None => (w, acts, Return (result, None))
      | Some err =>
          if isTerminal err then (w, acts, Return (zero, Some err))
          else if maxRetries <=? attempt then (w, acts, Break err)
          else match ctxErr w with
               | Some e => (w, acts, Return (zero, Some e))
               | None =>
                   let w := match onRetry with Some f => f (attempt + 1) w | None => w end in
                   let acts := acts ++
                     match onRetry with Some _ => [ActRetry (attempt + 1)] | None => [] end in
                   let delay := from_option (fun s => Delay s attempt) 0 (PolicyStrategy p) in
                   if 0 <? delay then
                     let '(w, r) := sleep delay w in
                     match r with
                     | Some e => (w, acts ++ [ActSleep delay], Return (zero, Some e))
                     | None => (w, acts ++ [ActSleep delay], Continue err)
                     end
                   else (w, acts, Continue err)
               end
      end
  end.

(** The loop: [n] is the number of iterations left, [lastErr] the error of the
    previous attempt. *)
Fixpoint Execute_loop (p : Policy) (maxRetries : Z) (n : nat) (attempt : Z)
    (lastErr : option E) (w : W) : W * list (Action T E) * (T * option E) :=
  match n with
  | O => (w, [], (zero, lastErr))
  | S n' =>
      let '(w, acts, r) := Execute_body p maxRetries attempt w in
      match r with
      | Return res => (w, acts, res)
      | Break err => (w, acts, (zero, Some err))
      | Continue err =>
          let '(w, acts', res) := Execute_loop p maxRetries n' (attempt + 1) (Some err) w in
          (w, acts ++ acts', res)
      end
  end.

(** [Execute]. *)
Definition Execute (policy : option Policy) (w : W) : W * list (Action T E) * (T * option E) :=
  match policy with
  | None =>
      match ctxErr w with
      | Some e => (w, [], (zero, Some e))
      | None => let '(w, res) := fn 0 w in (w, [ActAttempt 0 res], res)
      end
  | Some p =>
      let p := ResolveStrategy p in
      let maxRetries := if MaxRetries p <? 0 then 0 else MaxRetries p in
      let totalAttempts := i64 (maxRetries + 1) in
      Execute_loop p maxRetries (Z.to_nat totalAttempts) 0 None w
  end.

(** ** Reading a trace *)

Definition attempts (acts : list (Action T E)) : list (Z * (T * option E)) :=
  omap (fun a => match a with ActAttempt i r => Some (i, r) | _ => None end) acts.
Definition retries (acts : list (Action T E)) : list Z :=
  omap (fun a => match a with ActRetry i => Some i | _ => None end) acts.

Definition nonterminal (r : T * option E) : Prop :=
  exists e, snd r = Some e /\ isTerminal e = false.

(** What a single pass does, by the way it ends. *)
Lemma Execute_body_spec p maxRetries attempt w w' acts r :
  Execute_body p maxRetries attempt w = (w', acts, r) ->
  match r with
  | Return res =>
      (acts = [] /\ exists e, res = (zero, Some e))
      \/ exists ra, attempts acts = [(attempt, ra)]
           /\ (ra = res /\ snd res = None \/ (exists e, res = (zero, Some e)) /\ is_Some (snd ra))
           /\ (retries acts = [] \/ is_Some onRetry /\ retries acts = [attempt + 1])
  | Break e => exists v, attempts acts = [(attempt, (v, Some e))] /\ isTerminal e = false
               /\ maxRetries <= attempt /\ retries acts = []
  | Continue e => exists v, attempts acts = [(attempt, (v, Some e))] /\ isTerminal e = false
                  /\ attempt < maxRetries
                  /\ retries acts = match onRetry with Some _ => [attempt + 1] | None => [] end
  end.
Proof.
  unfold Execute_body, attempts, retries. intros H.
  destruct (ctxErr w) as [e|]; [simplify_eq; left; eauto|].
  destruct (fn attempt w) as [w1 [v [e|]]];
    [|simplify_eq/=; right; eexists; split_and!; eauto].
  destruct (isTerminal e) eqn:Ht; [simplify_eq/=; right; eexists; split_and!; eauto|].
  destruct (maxRetries <=? attempt) eqn:Hm; [simplify_eq/=; eexists; split_and!; eauto; lia|].
  destruct (ctxErr w1) as [e'|]; [simplify_eq/=; right; eexists; split_and!; eauto|].
  destruct (0 <? _) eqn:Hd.
  - destruct (sleep _ _) as [w2 [e'|]]; destruct onRetry; simplify_eq/=;
      try (right; eexists; split_and!; eauto); eexists; split_and!; eauto; lia.
  - destruct onRetry; simplify_eq/=; eexists; split_and!; eauto; lia.
Qed.

Lemma attempts_app a b : attempts (a ++ b) = attempts a ++ attempts b.
Proof. apply omap_app. Qed.
Lemma retries_app a b : retries (a ++ b) = retries a ++ retries b.
Proof. apply omap_app. Qed.

(** Attempts are numbered consecutively from [a]. *)
Definition numbered (a : Z) (rs : list (T * option E)) : list (Z * (T * option E)) :=
  imap (fun i r => (a + Z.of_nat i, r)) rs.

Lemma numbered_cons a r rs : numbered a (r :: rs) = (a, r) :: numbered (a + 1) rs.
Proof.
  unfold numbered. rewrite imap_cons. f_equal; [f_equal; lia|].
  apply imap_ext. intros i x _. simpl. f_equal. lia.
Qed.

Lemma Execute_loop_spec p maxRetries n : forall a lastErr w w' acts res,
  Execute_loop p maxRetries n a lastErr w = (w', acts, res) ->
  exists rs, attempts acts = numbered a rs /\ (length rs <= n)%nat
    /\ (forall i r, rs !! i = Some r -> (S i < length rs)%nat -> nonterminal r)
    /\ (snd res = None -> last rs = Some res \/ rs = [] /\ lastErr = None /\ n = O).
Proof.
  induction n as [|n IH]; intros a lastErr w w' acts res H; cbn [Execute_loop] in H.
  { simplify_eq. exists []. split_and!; [done|simpl; lia|done|]. simpl. auto. }
  destruct (Execute_body p maxRetries a w) as [[w1 acts1] r] eqn:Eb.
  apply Execute_body_spec in Eb. destruct r as [res1|e|e]; simplify_eq.
  - destruct Eb as [[-> [e ->]]|(ra&Ha&Hr&_)].
    + exists []. split_and!; [done|simpl; lia|done|]. done.
    + exists [ra]. rewrite Ha. split_and!; [by rewrite numbered_cons|simpl; lia| |].
      * intros i r Hi. simpl. lia.
      * intros Hs. left. destruct Hr as [[-> _]|[[e ->] _]]; done.
  - destruct Eb as (v&Ha&Ht&_). exists [(v, Some e)]. rewrite Ha.
    split_and!; [by rewrite numbered_cons|simpl; lia| |done]. intros i r Hi. simpl. lia.
  - destruct Eb as (v&Ha&Ht&_).
    destruct (Execute_loop p maxRetries n (a + 1) (Some e) w1) as [[w2 acts2] res2] eqn:El.
    simplify_eq. apply IH in El as (rs&Hat&Hlen&Hnt&Hs). exists ((v, Some e) :: rs).
    rewrite attempts_app, Ha, Hat. split_and!; [by rewrite numbered_cons|simpl; lia| |].
    + intros [|i] r; simpl; [intros [= <-] _; by exists e|intros; eapply Hnt; [done|lia]].
    + intros Hn. destruct (Hs Hn) as [Hl|(_&?&_)]; [|done]. left.
      destruct rs; [done|]. by rewrite last_cons, Hl.
Qed.

(** The number of iterations the loop may make. *)
Lemma total_attempts m :
  m < MaxInt64 -> Z.to_nat (i64 ((if m <? 0 then 0 else m) + 1)) = S (Z.to_nat m).
Proof.
  intros Hm. unfold MaxInt64, i64 in *. destruct (m <? 0) eqn:?; rewrite Z.mod_small; lia.
Qed.

Lemma ResolveStrategy_MaxRetries p : MaxRetries (ResolveStrategy p) = MaxRetries p.
Proof. unfold ResolveStrategy. by destruct (PolicyStrategy p). Qed.

(** A run makes at most [max(MaxRetries,0)+1] attempts, numbered 0, 1, 2,
    ... without gaps; every attempt but the last one failed with an error that
    is not terminal, so nothing is ever retried after a success or a terminal
    error; and the run reports success only with the value its last attempt
    returned.  (The bound on [MaxRetries] rules out the overflow of the next
    theorem.) *)
Theorem Execute_attempts p w w' acts res :
  MaxRetries p < MaxInt64 ->
  Execute (Some p) w = (w', acts, res) ->
  exists rs, attempts acts = numbered 0 rs
    /\ (length rs <= S (Z.to_nat (MaxRetries p)))%nat
    /\ (forall i r, rs !! i = Some r -> (S i < length rs)%nat -> nonterminal r)
    /\ (snd res = None -> last rs = Some res).
Proof.
  intros Hm H. unfold Execute in H. cbv zeta in H.
  rewrite ResolveStrategy_MaxRetries, total_attempts in H by done.
  apply Execute_loop_spec in H as (rs&?&?&?&Hs). exists rs. split_and!; try done.
  intros Hn. by destruct (Hs Hn) as [?|(_&_&?)].
Qed.

(** With [MaxRetries] at the top of the [int] range the attempt count
    overflows: the loop body never runs and [Execute] reports success with the
    zero value, without calling [fn] or reading the context. *)
Theorem Execute_overflow p w :
  MaxRetries p = MaxInt64 -> Execute (Some p) w = (w, [], (zero, None)).
Proof.
  intros Hm. unfold Execute. cbv zeta. rewrite ResolveStrategy_MaxRetries, Hm. reflexivity.
Qed.

Lemma Execute_loop_retries p maxRetries n : forall a lastErr w w' acts res,
  Execute_loop p maxRetries n a lastErr w = (w', acts, res) ->
  match onRetry with
  | None => retries acts = []
  | Some _ => retries acts = seqZ (a + 1) (Z.of_nat (length (retries acts)))
              /\ (length (retries acts) <= length (attempts acts) <= S (length (retries acts)))%nat
  end.
Proof.
  induction n as [|n IH]; intros a lastErr w w' acts res H; cbn [Execute_loop] in H.
  { simplify_eq. destruct onRetry; [|done]. split; [done|simpl; lia]. }
  destruct (Execute_body p maxRetries a w) as [[w1 acts1] r] eqn:Eb.
  apply Execute_body_spec in Eb. destruct r as [res1|e|e]; simplify_eq.
  - destruct Eb as [[-> _]|(ra&->&_&[->|[[f ->] ->]])]; destruct onRetry;
      simplify_eq/=; try done; (split; [done|simpl; lia]).
  - destruct Eb as (v&->&_&_&->). destruct onRetry; [|done]. split; [done|simpl; lia].
  - destruct Eb as (v&Ha&_&_&Hr).
    destruct (Execute_loop p maxRetries n (a + 1) (Some e) w1) as [[w2 acts2] res2] eqn:El.
    simplify_eq. apply IH in El.
    rewrite retries_app, attempts_app, Ha, Hr. destruct onRetry as [f|]; [|done].
    destruct El as [H1 H2]. simpl. split; [|lia].
    rewrite Nat2Z.inj_succ, seqZ_cons by lia. f_equal.
    rewrite H1 at 1. f_equal; lia.
Qed.

(** Retry notifications are numbered 1, 2, ... without gaps and are tied to
    the attempts: the [k]-th notification follows the failure of attempt [k-1],
    and every attempt after the first one was announced. *)
Theorem Execute_retries p w w' acts res :
  Execute (Some p) w = (w', acts, res) ->
  match onRetry with
  | None => retries acts = []
  | Some _ => retries acts = seqZ 1 (Z.of_nat (length (retries acts)))
              /\ (length (retries acts) <= length (attempts acts) <= S (length (retries acts)))%nat
  end.
Proof. apply Execute_loop_retries. Qed.

(** ** Reasoning about a run from its callbacks *)

Section Invariant.
Variable I : W -> Prop.
Hypothesis fn_inv : forall i w, I w -> I (fst (fn i w)).
Hypothesis onRetry_inv : forall f i w, onRetry = Some f -> I w -> I (f i w).
Hypothesis sleep_inv : forall d w, I w -> I (fst (sleep d w)).

Lemma Execute_body_inv p maxRetries a w : I w -> I (fst (fst (Execute_body p maxRetries a w))).
Proof.
  intros Hw. unfold Execute_body. destruct (ctxErr w); [done|].
  pose proof (fn_inv a w Hw) as H1. destruct (fn a w) as [w1 [v [e|]]]; [|done].
  destruct (isTerminal e), (maxRetries <=? a), (ctxErr w1); try done.
  assert (I (match onRetry with Some f => f (a + 1) w1 | None => w1 end)) as H2.
  { destruct onRetry eqn:Eo; [by eapply onRetry_inv|done]. }
  destruct (0 <? _); [|done].
  match goal with |- context [sleep ?d ?u] => pose proof (sleep_inv d u H2) as H3; destruct (sleep d u) as [w2 [e'|]] end; done.
Qed.

Lemma Execute_loop_inv p maxRetries n : forall a lastErr w,
  I w -> I (fst (fst (Execute_loop p maxRetries n a lastErr w))).
Proof.
  induction n as [|n IH]; intros a lastErr w Hw; simpl; [done|].
  pose proof (Execute_body_inv p maxRetries a w Hw) as H1.
  destruct (Execute_body p maxRetries a w) as [[w1 acts] [r|e|e]]; simpl in *; try done.
  specialize (IH (a + 1) (Some e) w1 H1).
  by destruct (Execute_loop p maxRetries n (a + 1) (Some e) w1) as [[w2 acts'] r].
Qed.

(** An invariant of the callbacks is an invariant of the run. *)
Lemma Execute_inv policy w : I w -> I (fst (fst (Execute policy w))).
Proof.
  intros Hw. destruct policy as [p|]; [by apply Execute_loop_inv|]. simpl.
  destruct (ctxErr w); [done|]. pose proof (fn_inv 0 w Hw). by destruct (fn 0 w).
Qed.
End Invariant.

(** The attempt a successful run took its value from. *)
Definition succeeded_at (bound i : Z) (w' : W) (acts : list (Action T E)) (v : T) : Prop :=
  0 <= i <= bound /\ last (attempts acts) = Some (i, (v, None))
  /\ exists w1, ctxErr w1 = None /\ fn i w1 = (w', (v, None)).

Lemma Execute_body_success p maxRetries a w w' acts v :
  Execute_body p maxRetries a w = (w', acts, Return (v, None)) ->
  acts = [ActAttempt a (v, None)] /\ ctxErr w = None /\ fn a w = (w', (v, None)).
Proof.
  unfold Execute_body. intros H. destruct (ctxErr w); [done|].
  destruct (fn a w) as [w1 [u [e|]]]; [|by simplify_eq].
  destruct (isTerminal e), (maxRetries <=? a), (ctxErr w1); try done.
  destruct (0 <? _); [|done]. by destruct (sleep _ _) as [w2 [e'|]].
Qed.

Lemma Execute_loop_success p maxRetries n : forall a lastErr w w' acts v,
  0 <= a ->
  Execute_loop p maxRetries n a lastErr w = (w', acts, (v, None)) ->
  n = O /\ lastErr = None \/ exists i, succeeded_at (a + Z.of_nat n - 1) i w' acts v.
Proof.
  induction n as [|n IH]; intros a lastErr w w' acts v Ha H; cbn [Execute_loop] in H.
  { left. by simplify_eq. }
  right. destruct (Execute_body p maxRetries a w) as [[w1 acts1] r] eqn:Eb.
  destruct r as [res|e|e]; simplify_eq.
  - apply Execute_body_success in Eb as (->&Hc&Hf). exists a. split; [lia|]. eauto.
  - destruct (Execute_loop p maxRetries n (a + 1) (Some e) w1) as [[w2 acts2] res2] eqn:El.
    simplify_eq. apply IH in El as [[_ ?]|[i (Hi&Hl&Hw)]]; [done| |lia]. exists i. split; [lia|].
    by rewrite attempts_app, last_app, Hl.
Qed.

(** A run that reports success took its state and its value from one of its
    attempts (unless the attempt count overflowed). *)
Lemma Execute_success policy w w' acts v :
  from_option MaxRetries 0 policy < MaxInt64 ->
  Execute policy w = (w', acts, (v, None)) ->
  exists i, succeeded_at (Z.max 0 (from_option MaxRetries 0 policy)) i w' acts v.
Proof.
  destruct policy as [p|]; simpl; intros Hm H.
  - cbv zeta in H. rewrite ResolveStrategy_MaxRetries, total_attempts in H by done.
    apply Execute_loop_success in H as [[? _]|[i [Hi Hw]]]; [done| |lia].
    exists i. split; [lia|done].
  - destruct (ctxErr w) eqn:?; [done|]. destruct (fn 0 w) eqn:?. simplify_eq.
    exists 0. split; [lia|]. eauto.
Qed.

(** A rule for runs: [I] holds before an attempt, [J] after one that failed
    with an error that may be retried, [K] after the retry callback, and [Q] at
    the end. *)
Section Rule.
Variables (I K : W -> Prop) (J : W -> E -> Prop) (Q : W -> T * option E -> Prop).
Hypothesis rule_start : forall w e, I w -> ctxErr w = Some e -> Q w (zero, Some e).
Hypothesis rule_success : forall i w w' v,
  I w -> ctxErr w = None -> fn i w = (w', (v, None)) -> Q w' (v, None).
Hypothesis rule_terminal : forall i w w' v e,
  I w -> ctxErr w = None -> fn i w = (w', (v, Some e)) -> isTerminal e = true -> Q w' (zero, Some e).
Hypothesis rule_failure : forall i w w' v e,
  I w -> ctxErr w = None -> fn i w = (w', (v, Some e)) -> isTerminal e = false -> J w' e.
Hypothesis rule_exhausted : forall w e, J w e -> Q w (zero, Some e).
Hypothesis rule_cancelled : forall w e e', J w e -> ctxErr w = Some e' -> Q w (zero, Some e').
Hypothesis rule_retry : forall i w e,
  J w e -> ctxErr w = None -> K (match onRetry with Some f => f i w | None => w end).
Hypothesis rule_continue : forall w, K w -> I w.
(** Without a policy the attempt's own pair is returned. *)
Hypothesis rule_value : forall w v e, Q w (zero, Some e) -> Q w (v, Some e).
Hypothesis rule_sleep : forall d w w' r, K w -> sleep d w = (w', r) ->
  match r with Some e => Q w' (zero, Some e) | None => I w' end.

Lemma Execute_body_rule p maxRetries a w w' acts r :
  I w -> Execute_body p maxRetries a w = (w', acts, r) ->
  match r with
  | Return res => Q w' res
  | Break e => Q w' (zero, Some e)
  | Continue e => I w' /\ a < maxRetries
  end.
Proof.
  intros Hw. unfold Execute_body. destruct (ctxErr w) as [e|] eqn:Ec.
  { intros. simplify_eq. by apply rule_start. }
  destruct (fn a w) as [w1 [v [e|]]] eqn:Ef; [|intros; simplify_eq; by eapply rule_success].
  destruct (isTerminal e) eqn:Et; [intros; simplify_eq; by eapply rule_terminal|].
  pose proof (rule_failure _ _ _ _ _ Hw Ec Ef Et) as HJ.
  destruct (maxRetries <=? a) eqn:Hm; [intros; simplify_eq; by apply rule_exhausted|].
  destruct (ctxErr w1) as [e'|] eqn:Ec1; [intros; simplify_eq; by eapply rule_cancelled|].
  pose proof (rule_retry (a + 1) _ _ HJ Ec1) as HK.
  destruct (0 <? _); [|intros; simplify_eq; split; [by apply rule_continue|lia]].
  match goal with |- context [sleep ?d ?u] => pose proof (rule_sleep d u) as Hs; destruct (sleep d u) as [w2 [e'|]] end;
    intros; simplify_eq; specialize (Hs _ _ HK eq_refl); [done|split; [done|lia]].
Qed.

Lemma Execute_loop_rule p maxRetries n : forall a lastErr w w' acts res,
  I w -> a <= maxRetries -> Z.of_nat n = maxRetries - a + 1 ->
  Execute_loop p maxRetries n a lastErr w = (w', acts, res) -> Q w' res.
Proof.
  induction n as [|n IH]; intros a lastErr w w' acts res Hw Ha Hn H; [lia|].
  cbn [Execute_loop] in H. destruct (Execute_body p maxRetries a w) as [[w1 acts1] r] eqn:Eb.
  apply Execute_body_rule in Eb; [|done]. destruct r as [r|e|e]; simplify_eq; try done.
  destruct Eb as [Hw1 Hlt].
  destruct (Execute_loop p maxRetries n (a + 1) (Some e) w1) as [[w2 acts2] res2] eqn:El.
  simplify_eq. eapply IH; [exact Hw1| | |exact El]; lia.
Qed.

Lemma Execute_rule policy w w' acts res :
  from_option MaxRetries 0 policy < MaxInt64 -> I w ->
  Execute policy w = (w', acts, res) -> Q w' res.
Proof.
  destruct policy as [p|]; simpl; intros Hm Hw H.
  - cbv zeta in H. rewrite ResolveStrategy_MaxRetries, total_attempts in H by done.
    eapply Execute_loop_rule; [exact Hw| | |exact H]; destruct (MaxRetries p <? 0) eqn:?; lia.
  - destruct (ctxErr w) as [e|] eqn:Ec; [simplify_eq; by apply rule_start|].
    destruct (fn 0 w) as [w1 [v [e|]]] eqn:Ef; simplify_eq; [|by eapply rule_success].
    apply rule_value. destruct (isTerminal e) eqn:Et; [by eapply rule_terminal|].
    by eapply rule_exhausted, rule_failure.
Qed.
End Rule.

(** ** Without cancellation *)

Section NoCancel.
Hypothesis live : forall w, ctxErr w = None.
Hypothesis sleep_live : forall d w, snd (sleep d w) = None.

Hypothesis failing :
  forall i u, exists v e, snd (fn i u) = (v, Some e) /\ isTerminal e = false.

Lemma Execute_body_failing p maxRetries a w :
  exists w' acts v e,
    Execute_body p maxRetries a w =
      (w', acts, if maxRetries <=? a then Break e else Continue e)
    /\ attempts acts = [(a, (v, Some e))].
Proof.
  unfold Execute_body. rewrite live. destruct (failing a w) as (v&e&Hfn&Ht).
  destruct (fn a w) as [w1 r]. simpl in Hfn. subst r. rewrite Ht, live.
  destruct (maxRetries <=? a); [eauto 6|].
  destruct (0 <? _); [|destruct onRetry; eauto 6].
  match goal with |- context [sleep ?d ?u] => pose proof (sleep_live d u) as Hl end.
  destruct (sleep _ _) as [w3 re]. simpl in Hl. subst re. destruct onRetry; eauto 6.
Qed.

Lemma Execute_loop_S p maxRetries n a lastErr w :
  Execute_loop p maxRetries (S n) a lastErr w =
  let '(w, acts, r) := Execute_body p maxRetries a w in
  match r with
  | Return res => (w, acts, res)
  | Break err => (w, acts, (zero, Some err))
  | Continue err =>
      let '(w, acts', res) := Execute_loop p maxRetries n (a + 1) (Some err) w in
      (w, acts ++ acts', res)
  end.
Proof. reflexivity. Qed.

Lemma Execute_loop_exhausts p maxRetries n : forall a lastErr w,
  maxRetries = a + Z.of_nat n ->
  let '(_, acts, res) := Execute_loop p maxRetries (S n) a lastErr w in
  length (attempts acts) = S n
  /\ exists v e, last (attempts acts) = Some (maxRetries, (v, Some e)) /\ res = (zero, Some e).
Proof.
  induction n as [|n IH]; intros a lastErr w Hm;
    destruct (Execute_body_failing p maxRetries a w) as (w1&acts1&v&e&Hb&Ha);
    rewrite Execute_loop_S, Hb.
  - replace (maxRetries <=? a) with true by lia. rewrite Ha. split; [done|].
    exists v, e. split; [|done]. simpl. do 3 f_equal. lia.
  - replace (maxRetries <=? a) with false by lia.
    specialize (IH (a + 1) (Some e) w1 ltac:(lia)).
    destruct (Execute_loop _ _ (S n) _ _ w1) as [[w4 acts2] res2].
    destruct IH as [Hlen (v'&e'&Hl&->)]. rewrite attempts_app, Ha. simpl.
    split; [lia|]. exists v', e'. split; [|done]. by rewrite last_cons, Hl.
Qed.

(** Liveness of the retry budget: without cancellation, when every
    attempt fails with an error that is not terminal, [Execute] makes exactly
    [max(MaxRetries,0)+1] attempts and returns the error of the last one. *)
Theorem Execute_exhausts p w :
  MaxRetries p < MaxInt64 ->
  let '(_, acts, res) := Execute (Some p) w in
  length (attempts acts) = S (Z.to_nat (MaxRetries p))
  /\ exists i v e, last (attempts acts) = Some (i, (v, Some e)) /\ res = (zero, Some e).
Proof.
  intros Hm. unfold Execute. cbv zeta.
  rewrite ResolveStrategy_MaxRetries, total_attempts by done.
  pose proof (Execute_loop_exhausts (ResolveStrategy p)
    (if MaxRetries p <? 0 then 0 else MaxRetries p) (Z.to_nat (MaxRetries p)) 0 None w) as H.
  destruct (Execute_loop _ _ _ _ _ w) as [[w' acts] res].
  destruct H as [? (v&e&?&?)]; [destruct (MaxRetries p <? 0) eqn:?; lia|]. eauto 6.
Qed.
End NoCancel.
End Execute.

(** ** A concrete run: the world counts the attempts made *)

Module Scenario.
(** Attempts fail until the world reaches [k]. *)
Definition flaky (k : nat) (i : Z) (w : nat) : nat * (nat * option string) :=
  (S w, if (w <? k)%nat then (0%nat, Some "boom") else (42%nat, None)).
Definition live (w : nat) : option string := None.
Definition nosleep (d : Z) (w : nat) : nat * option string := (w, None).
Definition run (k : nat) (n : Z) :=
  Execute 0%nat live (fun _ => false) (flaky k) (Some (fun _ w => w)) nosleep
    (Some (mkPolicy n None None)) 0%nat.
End Scenario.

Lemma Execute_attempts_witness :
  exists rs, attempts (snd (fst (Scenario.run 2 5))) = numbered 0 rs /\ length rs = 3%nat
    /\ last rs = Some (42%nat, None).
Proof.
  destruct (Execute_attempts 0%nat Scenario.live (fun _ => false) (Scenario.flaky 2)
    (Some (fun _ w => w)) Scenario.nosleep (mkPolicy 5 None None) 0%nat
    (fst (fst (Scenario.run 2 5))) (snd (fst (Scenario.run 2 5))) (snd (Scenario.run 2 5)))
    as (rs&Ha&_&_&Hl); [vm_compute; reflexivity|vm_compute; reflexivity|].
  exists rs. split; [exact Ha|]. split; [|apply Hl; vm_compute; reflexivity].
  pose proof (f_equal length Ha) as Hlen. unfold numbered in Hlen.
  rewrite length_imap in Hlen. rewrite <- Hlen. vm_compute. reflexivity.
Defined.

Lemma Execute_overflow_witness : Scenario.run 2 MaxInt64 = (0%nat, [], (0%nat, None)).
Proof. apply Execute_overflow. reflexivity. Defined.

Lemma Execute_retries_witness : retries (snd (fst (Scenario.run 2 5))) = [1; 2].
Proof.
  assert (H : Scenario.run 2 5 =
    (fst (fst (Scenario.run 2 5)), snd (fst (Scenario.run 2 5)), snd (Scenario.run 2 5)))
    by (vm_compute; reflexivity).
  destruct (Execute_retries _ _ _ _ _ _ _ _ _ _ _ H) as [-> _]. vm_compute. reflexivity.
Defined.

Lemma Execute_exhausts_witness :
  length (attempts (snd (fst (Execute (W:=nat) 0%nat Scenario.live (fun _ => false)
    (fun _ w => (S w, (0%nat, Some "boom"))) None Scenario.nosleep
    (Some (mkPolicy 3 None None)) 0%nat)))) = 4%nat.
Proof.
  refine (proj1 (Execute_exhausts 0%nat Scenario.live (fun _ => false)
    (fun _ w => (S w, (0%nat, Some "boom"))) None Scenario.nosleep _ _ _
    (mkPolicy 3 None None) 0%nat _)); try reflexivity.
  - intros i u. exists 0%nat, "boom". split; reflexivity.
Defined.
