(* ===== verification/SharedState.v ===== *)
(** * SharedState: the shared round-robin counters of [workerplugin/sharedstate.go]

    [SharedStateStore] keeps one counter per client and a cache that makes
    [FetchAdd] idempotent per (client, operation).  Any number of goroutines run
    [FetchAdd], [DropScope] and the TTL sweeper at the same time, so the model is
    a transition system: every goroutine has a program counter, and [step]
    performs its next access to the shared store.  A step is one synchronised
    access (a [sync.Map] operation, an atomic load or store, a lock or an
    unlock) or a run of accesses to data the goroutine's lock protects.  A
    [Load] that misses and is followed by [LoadOrStore] is the [LoadOrStore]
    step: the miss changes nothing and the second access decides.

    A step that is not enabled (a held mutex, a running [Once]) gives [None]. *)

From S2P Require Import Prelude.

Local Open Scope Z_scope.

(** ** Data *)

(** [idemMapKey] and [makeIdemKey]. *)
Abbreviation idemMapKey := (string * string)%type.
Definition makeIdemKey (key opID : string) : idemMapKey := (key, opID).

(** [idemEntry]: the state of its [Once], with [previous] once it is done.
    [en_key] is a ghost field: the address the entry was made for. *)
Inductive onceState := NotStarted | Running (t : nat) | Done (previous : Z).
Record idemEntry := mkEntry { en_key : idemMapKey; en_once : onceState }.

(** [scope].  [sc_op] is a ghost field: the operation the object was made for.
    A nil key map and an empty one are the same here. *)
Record scope := mkScope {
  sc_op : string;
  keys : gset string;
  lastAccessedNano : Z;
  deleted : bool;
  mu : option nat
}.

(** The arguments of a [FetchAdd] call, with the time it read. *)
Record call := mkCall { c_key : string; c_delta : Z; c_op : string; c_now : Z }.

(** Program counters, in the order of the code. *)
Inductive pc :=
  | FetchAddStart (c : call)
  | RegLoadOrStore (c : call)
  | RegStamp (c : call) (l : nat)
  | RegLock (c : call) (l : nat)
  | RegCheck (c : call) (l : nat)
  | RegIdem (c : call) (l : nat)
  | RegUnlock (c : call) (l e : nat)
  | OnceDo (c : call) (e : nat)
  | OnceCounter (c : call) (e : nat)
  | OnceAdd (c : call) (e : nat)
  | PlainCounter (c : call)
  | PlainAdd (c : call)
  | FetchAddDone (c : call) (v : Z)
  | DropStart (op : string)
  | DropLock (op : string) (l : nat)
  | DropMark (op : string) (l : nat)
  | DropKeys (op : string) (l : nat) (released : nat) (rest : list string)
  | DropDone (released : nat)
  | SweepRange (cutoff : Z)
  | SweepPre (cutoff : Z) (op : string) (l : nat)
  | SweepLock (cutoff : Z) (op : string) (l : nat)
  | SweepRecheck (cutoff : Z) (op : string) (l : nat)
  | SweepMark (cutoff : Z) (op : string) (l : nat)
  | SweepDelete (cutoff : Z) (op : string) (l : nat)
  | SweepKeys (cutoff : Z) (op : string) (l : nat) (rest : list string)
  | SweepDone.

(** [SharedStateStore], with the heap of the objects its maps point to and the
    goroutines that use it. *)
Record store := mkStore {
  counters : gmap string Z;
  scopes : gmap string nat;
  heap : list scope;
  idem : gmap idemMapKey nat;
  entries : list idemEntry;
  threads : gmap nat pc
}.

Definition set_threads f s := mkStore (counters s) (scopes s) (heap s) (idem s) (entries s) (f (threads s)).
Definition set_counters f s := mkStore (f (counters s)) (scopes s) (heap s) (idem s) (entries s) (threads s).
Definition set_scopes f s := mkStore (counters s) (f (scopes s)) (heap s) (idem s) (entries s) (threads s).
Definition set_heap f s := mkStore (counters s) (scopes s) (f (heap s)) (idem s) (entries s) (threads s).
Definition set_idem f s := mkStore (counters s) (scopes s) (heap s) (f (idem s)) (entries s) (threads s).
Definition set_entries f s := mkStore (counters s) (scopes s) (heap s) (idem s) (f (entries s)) (threads s).

Definition goto (t : nat) (p : pc) (s : store) : store := set_threads (insert t p) s.
Definition stamp (now : Z) (sc : scope) := mkScope (sc_op sc) (keys sc) now (deleted sc) (mu sc).
Definition setMu (m : option nat) (sc : scope) := mkScope (sc_op sc) (keys sc) (lastAccessedNano sc) (deleted sc) m.
Definition addKey (k : string) (sc : scope) :=
  mkScope (sc_op sc) ({[k]} ∪ keys sc) (lastAccessedNano sc) (deleted sc) (mu sc).
Definition markDeleted (sc : scope) := mkScope (sc_op sc) (keys sc) (lastAccessedNano sc) true (mu sc).
Definition clearKeys (sc : scope) := mkScope (sc_op sc) ∅ (lastAccessedNano sc) (deleted sc) (mu sc).

(** Update the object at [l]. *)
Definition upd (l : nat) (f : scope -> scope) : store -> store := set_heap (alter f l).

(** Set the state of the [Once] of entry [e]. *)
Definition setOnce (e : nat) (o : onceState) : store -> store :=
  set_entries (alter (fun en => mkEntry (en_key en) o) e).

(** [newSharedStateStoreWithTTL]: empty maps. *)
Definition newSharedStateStore (ts : gmap nat pc) : store := mkStore ∅ ∅ [] ∅ [] ts.

Section Store.
(** The caller's initialiser of new counters. *)
Variable initialValue : string -> Z.

(** [counterFor]: the counter exists afterwards. *)
Definition counterFor (key : string) (s : store) : store :=
  match counters s !! key with
  | Some _ => s
  | None => set_counters (insert key (u64 (initialValue key))) s
  end.

(** [counter.Add(delta) - delta]: the value before the addition. *)
Definition counterAdd (key : string) (delta : Z) (s : store) : store * Z :=
  let v := default 0 (counters s !! key) in
  let v' := u64 (v + delta) in
  (set_counters (insert key v') s, u64 (v' - delta)).

(** Lock and unlock a scope's mutex. *)
Definition lock (t l : nat) (s : store) : option store :=
  match heap s !! l with
  | Some sc => match mu sc with None => Some (upd l (setMu (Some t)) s) | Some _ => None end
  | None => None
  end.
Definition unlock (l : nat) : store -> store := upd l (setMu None).

(** [registerAndLoadIdem]. *)
Definition step_registerAndLoadIdem (t : nat) (p : pc) (s : store) : option store :=
  match p with
  | RegLoadOrStore c =>
      match scopes s !! c_op c with
      | Some l => Some (goto t (RegStamp c l) s)
      | None =>
          let l := length (heap s) in
          Some (goto t (RegStamp c l)
                 (set_scopes (insert (c_op c) l)
                   (set_heap (fun h => h ++ [mkScope (c_op c) ∅ 0 false None]) s)))
      end
  | RegStamp c l => Some (goto t (RegLock c l) (upd l (stamp (c_now c)) s))
  | RegLock c l => goto t (RegCheck c l) <$> lock t l s
  | RegCheck c l =>
      sc ← heap s !! l;
      if deleted sc then Some (goto t (RegLoadOrStore c) (unlock l s))
      else Some (goto t (RegIdem c l) (upd l (addKey (c_key c)) s))
  | RegIdem c l =>
      let k := makeIdemKey (c_key c) (c_op c) in
      match idem s !! k with
      | Some e => Some (goto t (RegUnlock c l e) s)
      | None =>
          let e := length (entries s) in
          Some (goto t (RegUnlock c l e)
                 (set_idem (insert k e) (set_entries (fun h => h ++ [mkEntry k NotStarted]) s)))
      end
  | RegUnlock c l e => Some (goto t (OnceDo c e) (unlock l s))
  | _ => None
  end.

(** [FetchAdd]. *)
Definition step_FetchAdd (t : nat) (p : pc) (s : store) : option store :=
  match p with
  | FetchAddStart c =>
      Some (goto t (if (c_op c =s "")%go then PlainCounter c else RegLoadOrStore c) s)
  | PlainCounter c => Some (goto t (PlainAdd c) (counterFor (c_key c) s))
  | PlainAdd c =>
      let '(s', v) := counterAdd (c_key c) (c_delta c) s in Some (goto t (FetchAddDone c v) s')
  | OnceDo c e =>
      en ← entries s !! e;
      match en_once en with
      | NotStarted => Some (goto t (OnceCounter c e) (setOnce e (Running t) s))
      | Running _ => None
      | Done v => Some (goto t (FetchAddDone c v) s)
      end
  | OnceCounter c e => Some (goto t (OnceAdd c e) (counterFor (c_key c) s))
  | OnceAdd c e =>
      let '(s', v) := counterAdd (c_key c) (c_delta c) s in
      Some (goto t (FetchAddDone c v) (setOnce e (Done v) s'))
  | _ => step_registerAndLoadIdem t p s
  end.

(** [DropScope]. *)
Definition step_DropScope (t : nat) (p : pc) (s : store) : option store :=
  match p with
  | DropStart op =>
      if (op =s "")%go then Some (goto t (DropDone 0) s)
      else match scopes s !! op with
           | None => Some (goto t (DropDone 0) s)
           | Some l => Some (goto t (DropLock op l) (set_scopes (delete op) s))
           end
  | DropLock op l => goto t (DropMark op l) <$> lock t l s
  | DropMark op l =>
      sc ← heap s !! l;
      Some (goto t (DropKeys op l (size (keys sc)) (elements (keys sc))) (upd l markDeleted s))
  | DropKeys op l n (k :: rest) =>
      Some (goto t (DropKeys op l n rest) (set_idem (delete (makeIdemKey k op)) s))
  | DropKeys op l n [] => Some (goto t (DropDone n) (unlock l (upd l clearKeys s)))
  | _ => None
  end.

(** [sweepOnce], over the entries [Range] visits; [choice] is the next one, or
    the end of the pass. *)
Definition step_sweepOnce (t : nat) (choice : option string) (p : pc) (s : store) : option store :=
  match p with
  | SweepRange cutoff =>
      match choice with
      | None => Some (goto t SweepDone s)
      | Some op => l ← scopes s !! op; Some (goto t (SweepPre cutoff op l) s)
      end
  | SweepPre cutoff op l =>
      sc ← heap s !! l;
      Some (goto t (if cutoff <=? lastAccessedNano sc then SweepRange cutoff
                    else SweepLock cutoff op l) s)
  | SweepLock cutoff op l => goto t (SweepRecheck cutoff op l) <$> lock t l s
  | SweepRecheck cutoff op l =>
      sc ← heap s !! l;
      if cutoff <=? lastAccessedNano sc then Some (goto t (SweepRange cutoff) (unlock l s))
      else Some (goto t (SweepMark cutoff op l) s)
  | SweepMark cutoff op l => Some (goto t (SweepDelete cutoff op l) (upd l markDeleted s))
  | SweepDelete cutoff op l =>
      sc ← heap s !! l;
      Some (goto t (SweepKeys cutoff op l (elements (keys sc))) (set_scopes (delete op) s))
  | SweepKeys cutoff op l (k :: rest) =>
      Some (goto t (SweepKeys cutoff op l rest) (set_idem (delete (makeIdemKey k op)) s))
  | SweepKeys cutoff op l [] =>
      Some (goto t (SweepRange cutoff) (unlock l (upd l clearKeys s)))
  | _ => None
  end.

(** One step of goroutine [t]. *)
Definition step (t : nat) (choice : option string) (s : store) : option store :=
  p ← threads s !! t;
  match p with
  | DropStart _ | DropLock _ _ | DropMark _ _ | DropKeys _ _ _ _ => step_DropScope t p s
  | SweepRange _ | SweepPre _ _ _ | SweepLock _ _ _ | SweepRecheck _ _ _ | SweepMark _ _ _
  | SweepDelete _ _ _ | SweepKeys _ _ _ _ => step_sweepOnce t choice p s
  | FetchAddDone _ _ | DropDone _ | SweepDone => None
  | _ => step_FetchAdd t p s
  end.

(** A schedule picks the goroutine that moves next; a blocked one stays. *)
Fixpoint run (sched : list (nat * option string)) (s : store) : store :=
  match sched with
  | [] => s
  | (t, ch) :: sched' => run sched' (default s (step t ch s))
  end.
End Store.

(** ** What a program counter refers to *)

(** The scope object a goroutine has in hand, with its operation. *)
Definition refs (p : pc) : option (string * nat) :=
  match p with
  | RegStamp c l | RegLock c l | RegCheck c l | RegIdem c l | RegUnlock c l _ => Some (c_op c, l)
  | DropLock op l | DropMark op l | DropKeys op l _ _ => Some (op, l)
  | SweepPre _ op l | SweepLock _ op l | SweepRecheck _ op l | SweepMark _ op l
  | SweepDelete _ op l | SweepKeys _ op l _ => Some (op, l)
  | _ => None
  end.

(** Whether the goroutine is inside the object's critical section. *)
Definition holds (p : pc) : bool :=
  match p with
  | RegCheck _ _ | RegIdem _ _ | RegUnlock _ _ _ | DropMark _ _ | DropKeys _ _ _ _
  | SweepRecheck _ _ _ | SweepMark _ _ _ | SweepDelete _ _ _ | SweepKeys _ _ _ _ => true
  | _ => false
  end.

(** The keys a goroutine has still to release, while it is releasing them. *)
Definition keysPhase (p : pc) : option (nat * list string) :=
  match p with
  | DropKeys _ l _ rest | SweepKeys _ _ l rest => Some (l, rest)
  | _ => None
  end.

(** The goroutine took the object out of the scope map and has not marked it. *)
Definition dropping (p : pc) (l : nat) : bool :=
  match p with DropLock _ l' | DropMark _ l' => l =? l' | _ => false end%nat.

(** The goroutine took the object out of the scope map and will release its keys. *)
Definition retiring (p : pc) (l : nat) : bool :=
  match p with
  | DropLock _ l' | DropMark _ l' | DropKeys _ l' _ _ | SweepKeys _ _ l' _ => l =? l'
  | _ => false
  end%nat.

(** ** The invariant of the concurrent store *)

Definition pc_ok (h : list scope) (t : nat) (p : pc) : Prop :=
  match refs p with
  | None => True
  | Some (op, l) => exists sc, h !! l = Some sc /\ sc_op sc = op
      /\ (holds p = true -> mu sc = Some t)
      /\ match p with
         | RegIdem c _ => deleted sc = false /\ c_key c ∈ keys sc
         | SweepDelete _ _ _ => deleted sc = true
         | _ => True
         end
  end.

(** The object [l] accounts for the idempotency entry of [k]. *)
Definition covers (s : store) (op k : string) (l : nat) : Prop :=
  (exists sc, heap s !! l = Some sc /\ sc_op sc = op /\ k ∈ keys sc)
  /\ (forall t p rest, threads s !! t = Some p -> keysPhase p = Some (l, rest) -> k ∈ rest)
  /\ (scopes s !! op = Some l \/ exists t p, threads s !! t = Some p /\ retiring p l = true).

Record Inv (s : store) : Prop := {
  inv_scopes : forall op l, scopes s !! op = Some l -> exists sc, heap s !! l = Some sc /\ sc_op sc = op;
  inv_pc : forall t p, threads s !! t = Some p -> pc_ok (heap s) t p;
  inv_live : forall l sc, heap s !! l = Some sc -> deleted sc = false ->
    scopes s !! sc_op sc = Some l \/ exists t p, threads s !! t = Some p /\ dropping p l = true;
  inv_idem : forall k op e, idem s !! (k, op) = Some e -> exists l, covers s op k l
}.

(** The sweeper's [scopes.Delete(op)] does not hit another scope than the one
    the sweeper locked. *)
Definition benign (s : store) (t : nat) : Prop :=
  match threads s !! t with
  | Some (SweepDelete _ op l) => forall l', scopes s !! op = Some l' -> l' = l
  | _ => True
  end.

(** What goroutine [t] may do to the heap: objects stay, with their operation,
    and one locked by another goroutine keeps its contents. *)
Definition heap_le (t : nat) (h h' : list scope) : Prop :=
  forall l sc, h !! l = Some sc -> exists sc', h' !! l = Some sc' /\ sc_op sc' = sc_op sc
    /\ forall t', t' <> t -> mu sc = Some t' ->
         mu sc' = Some t' /\ deleted sc' = deleted sc /\ keys sc' = keys sc.

Lemma heap_le_refl t h : heap_le t h h.
Proof. intros l sc ?. eauto 8. Qed.

Lemma heap_le_app t h sc : heap_le t h (h ++ [sc]).
Proof. intros l sc' Hl. exists sc'. rewrite (lookup_app_l_Some _ _ _ _ Hl). eauto 8. Qed.

Lemma heap_le_alter t h l f sc :
  h !! l = Some sc -> sc_op (f sc) = sc_op sc ->
  (mu sc = None \/ mu sc = Some t \/
   mu (f sc) = mu sc /\ deleted (f sc) = deleted sc /\ keys (f sc) = keys sc) ->
  heap_le t h (alter f l h).
Proof.
  intros Hl Ho Hm l' sc' Hl'. rewrite list_lookup_alter. destruct (decide (l = l')) as [<-|Hne].
  - rewrite Hl in Hl' |- *. simplify_eq/=. exists (f sc'). split_and!; [done..|].
    intros t' Ht Hmu. destruct Hm as [?|[?|(->&->&->)]]; [congruence..|done].
  - rewrite Hl'. eauto 8.
Qed.

Lemma pc_ok_frame t t' h h' p : heap_le t h h' -> t' <> t -> pc_ok h t' p -> pc_ok h' t' p.
Proof.
  unfold pc_ok. intros Hle Hne. destruct (refs p) as [[op l]|] eqn:Er; [|done].
  intros (sc&Hl&Ho&Hh&Hr). destruct (Hle _ _ Hl) as (sc'&Hl'&Ho'&Hf).
  exists sc'. split_and!; [done|congruence| |].
  - intros H. by destruct (Hf t' Hne (Hh H)).
  - destruct p; try done; destruct (Hf t' Hne (Hh eq_refl)) as (_&Hd&Hk);
      rewrite ?Hd, ?Hk; done.
Qed.

(** The part of the invariant on program counters, for any step. *)
Lemma inv_pc_step s h' t p' :
  Inv s -> heap_le t (heap s) h' -> pc_ok h' t p' ->
  forall u p, <[t:=p']> (threads s) !! u = Some p -> pc_ok h' u p.
Proof.
  intros HI Hle Hok u p. rewrite lookup_insert_Some.
  intros [[<- <-]|[Hne Hu]]; [done|]. eapply pc_ok_frame; eauto. by apply (inv_pc _ HI).
Qed.

(** A step that neither marks a scope nor removes keys. *)
Definition heap_quiet (h h' : list scope) : Prop :=
  forall l, match h !! l, h' !! l with
            | Some sc, Some sc' => sc_op sc' = sc_op sc /\ deleted sc' = deleted sc /\ keys sc ⊆ keys sc'
            | None, None => True
            | _, _ => False
            end.

Lemma heap_quiet_refl h : heap_quiet h h.
Proof. intros l. by destruct (h !! l). Qed.

Lemma heap_quiet_alter h l f :
  (forall sc, sc_op (f sc) = sc_op sc /\ deleted (f sc) = deleted sc /\ keys sc ⊆ keys (f sc)) ->
  heap_quiet h (alter f l h).
Proof.
  intros Hf l'. rewrite list_lookup_alter. destruct (decide (l = l')) as [->|]; destruct (h !! l'); simpl; auto.
Qed.

(** A fact on some goroutine survives a step of [t] that keeps it for [t]. *)
Lemma some_thread (P : pc -> bool) (ths : gmap nat pc) t p p' :
  ths !! t = Some p -> (P p = true -> P p' = true) ->
  (exists u q, ths !! u = Some q /\ P q = true) ->
  exists u q, <[t:=p']> ths !! u = Some q /\ P q = true.
Proof.
  intros Hp HP (u&q&Hu&Hq). destruct (decide (u = t)) as [->|Hne].
  - exists t, p'. rewrite lookup_insert_eq. simplify_eq. auto.
  - exists u, q. by rewrite lookup_insert_ne by done.
Qed.

Lemma Inv_quiet s s' t p p' :
  Inv s -> threads s !! t = Some p ->
  scopes s' = scopes s -> idem s' = idem s -> threads s' = <[t:=p']> (threads s) ->
  heap_le t (heap s) (heap s') -> heap_quiet (heap s) (heap s') -> pc_ok (heap s') t p' ->
  keysPhase p' = None ->
  (forall l, dropping p l = true -> dropping p' l = true) ->
  (forall l, retiring p l = true -> retiring p' l = true) ->
  Inv s'.
Proof.
  intros HI Hp Hs Hi Ht Hle Hq Hok Hk Hd Hr. split.
  - intros op l. rewrite Hs. intros (sc&Hl&<-)%(inv_scopes _ HI).
    specialize (Hq l). rewrite Hl in Hq. destruct (heap s' !! l) as [sc'|]; [|done]. naive_solver.
  - rewrite Ht. by eapply inv_pc_step.
  - intros l sc' Hl Hdel. specialize (Hq l). rewrite Hl in Hq.
    destruct (heap s !! l) as [sc|] eqn:E; [|done]. destruct Hq as (->&Hde&_). rewrite Hs.
    destruct (inv_live _ HI _ _ E) as [?|Hdr]; [congruence|by left|]. right.
    rewrite Ht. by eapply (some_thread (fun q => dropping q l)); eauto.
  - intros k op e. rewrite Hi. intros (l&(sc&Hl&<-&Hkk)&Hph&Hc)%(inv_idem _ HI). exists l. split_and!.
    + specialize (Hq l). rewrite Hl in Hq. destruct (heap s' !! l) as [sc'|]; [|done].
      destruct Hq as (?&_&?). set_solver.
    + intros u q rest. rewrite Ht, lookup_insert_Some. intros [[_ <-]|[_ Hu]]; [congruence|eauto].
    + rewrite Hs, Ht. destruct Hc as [?|Hre]; [by left|right].
      by eapply (some_thread (fun q => retiring q l)); eauto.
Qed.

(** Facts on the mutex steps. *)
Lemma lock_inv t l s s' :
  lock t l s = Some s' ->
  exists sc, heap s !! l = Some sc /\ mu sc = None /\ s' = upd l (setMu (Some t)) s.
Proof. unfold lock. intros H. repeat case_hyp H; simplify_eq. eauto. Qed.

Lemma holds_lookup s t p op l :
  Inv s -> threads s !! t = Some p -> refs p = Some (op, l) ->
  exists sc, heap s !! l = Some sc /\ sc_op sc = op /\ (holds p = true -> mu sc = Some t).
Proof.
  intros HI Hp Hr. pose proof (inv_pc _ HI _ _ Hp) as Hok. unfold pc_ok in Hok.
  rewrite Hr in Hok. naive_solver.
Qed.

(** Two goroutines are never inside the same critical section. *)
Lemma mutual_exclusion s t u p q op op' l :
  Inv s -> threads s !! t = Some p -> threads s !! u = Some q ->
  refs p = Some (op, l) -> refs q = Some (op', l) -> holds p = true -> holds q = true -> t = u.
Proof.
  intros HI Hp Hq Hrp Hrq Hhp Hhq.
  destruct (holds_lookup _ _ _ _ _ HI Hp Hrp) as (sc&Hl&_&Hm).
  destruct (holds_lookup _ _ _ _ _ HI Hq Hrq) as (sc'&Hl'&_&Hm').
  simplify_eq. specialize (Hm Hhp). specialize (Hm' Hhq). congruence.
Qed.

Lemma keysPhase_holds q l rest :
  keysPhase q = Some (l, rest) -> holds q = true /\ exists op, refs q = Some (op, l).
Proof. destruct q; simpl; intros; simplify_eq; eauto. Qed.

Lemma alter_lookup (h : list scope) l f sc : h !! l = Some sc -> alter f l h !! l = Some (f sc).
Proof. intros H. by rewrite list_lookup_alter, decide_True, H by done. Qed.

Lemma alter_twice (h : list scope) l f g : alter g l (alter f l h) = alter (fun sc => g (f sc)) l h.
Proof.
  apply list_eq. intros i. rewrite !list_lookup_alter. destruct (decide (l = i)) as [->|]; [|done].
  rewrite decide_True by done. by destruct (h !! i).
Qed.

Lemma alter_lookup_inv (h : list scope) l l' f sc' :
  alter f l h !! l' = Some sc' ->
  exists sc, h !! l' = Some sc /\ sc' = (if decide (l = l') then f sc else sc).
Proof.
  rewrite list_lookup_alter. destruct (decide (l = l')) as [->|]; [|by eauto].
  destruct (h !! l') as [sc|]; simpl; [|done]. intros [= <-]. by exists sc.
Qed.

(** Discharge the side conditions of [Inv_quiet] for a step on object [l]. *)
Ltac quiet :=
  try (apply heap_quiet_refl || apply heap_le_refl ||
       (apply heap_quiet_alter; intros [? ? ? ? ?]; simpl; split_and!; set_solver));
  try done;
  try match goal with
  | Hl : _ !! ?l = Some _ |- heap_le _ _ (alter _ ?l _) =>
      eapply heap_le_alter; [exact Hl|done|simpl; auto 8]
  | Hl : _ !! ?l = Some _ |- pc_ok (alter _ ?l _) _ _ =>
      unfold pc_ok; simpl; rewrite (alter_lookup _ _ _ _ Hl); eexists; split_and!;
      simpl; auto; try done
  | Hl : _ !! ?l = Some _ |- pc_ok _ _ _ =>
      unfold pc_ok; simpl; eexists; split_and!; simpl; eauto; try done
  end.

Section Steps.
Variable initialValue : string -> Z.

Lemma Inv_newScope s t c :
  Inv s -> threads s !! t = Some (RegLoadOrStore c) -> scopes s !! c_op c = None ->
  Inv (goto t (RegStamp c (length (heap s)))
        (set_scopes (insert (c_op c) (length (heap s)))
          (set_heap (fun h => h ++ [mkScope (c_op c) ∅ 0 false None]) s))).
Proof.
  intros HI Hp Hn. set (sc0 := mkScope _ _ _ _ _).
  assert (heap_le t (heap s) (heap s ++ [sc0])) as Hle by apply heap_le_app.
  split; simpl.
  - intros op l [[<- <-]|[_ Hl]]%lookup_insert_Some.
    + exists sc0. by rewrite lookup_app_r, Nat.sub_diag by lia.
    + apply (inv_scopes _ HI) in Hl as (sc&Hl&<-). exists sc. by rewrite (lookup_app_l_Some _ _ _ _ Hl).
  - eapply inv_pc_step; eauto.
    exists sc0. by rewrite lookup_app_r, Nat.sub_diag by lia.
  - intros l sc [Hl|[Hge [Hlen ?]%list_lookup_singleton_Some]]%lookup_app_Some Hd.
    + destruct (inv_live _ HI _ _ Hl Hd) as [?|Hdr].
      * left. rewrite lookup_insert_ne; congruence.
      * right. by eapply (some_thread (fun q => dropping q l)); eauto.
    + left. subst sc. simpl. rewrite lookup_insert_eq. f_equal. lia.
  - intros k op e (l&(sc&Hl&<-&Hk)&Hph&Hc)%(inv_idem _ HI). exists l. split_and!; simpl.
    + exists sc. by rewrite (lookup_app_l_Some _ _ _ _ Hl).
    + intros u q rest [[_ <-]|[_ Hu]]%lookup_insert_Some; [done|eauto].
    + destruct Hc as [?|Hre]; [left|right].
      * rewrite lookup_insert_ne; congruence.
      * by eapply (some_thread (fun q => retiring q l)); eauto.
Qed.

Lemma Inv_newIdem s t c l en :
  Inv s -> threads s !! t = Some (RegIdem c l) -> idem s !! (c_key c, c_op c) = None ->
  Inv (goto t (RegUnlock c l (length (entries s)))
        (set_idem (insert (c_key c, c_op c) (length (entries s))) (set_entries en s))).
Proof.
  intros HI Hp Hn.
  pose proof (inv_pc _ HI _ _ Hp) as (sc&Hl&Ho&Hm&Hd&Hk). specialize (Hm eq_refl).
  assert (Inv (goto t (RegUnlock c l (length (entries s))) s)) as HI'.
  { eapply Inv_quiet; eauto; simpl; quiet. }
  destruct HI' as [H1 H2 H3 H4]. split; simpl; try done.
  intros k op e [[[= <- <-] _]|[_ Hi]]%lookup_insert_Some; [|exact (H4 _ _ _ Hi)].
  exists l. split_and!; simpl; [by eauto| |].
  - intros u q rest [[_ <-]|[Hne Hu]]%lookup_insert_Some Hph; [done|].
    apply keysPhase_holds in Hph as (Hh&op'&Hr). exfalso. apply Hne.
    by eapply (mutual_exclusion s t u); eauto.
  - destruct (inv_live _ HI _ _ Hl Hd) as [Hs|Hdr]; [left; congruence|right].
    destruct Hdr as (u&q&Hu&Hdr). exists u, q. destruct (decide (u = t)) as [->|].
    + simplify_eq.
    + rewrite lookup_insert_ne by done. split; [done|]. by destruct q.
Qed.

Lemma Inv_registerAndLoadIdem s s' t p :
  Inv s -> threads s !! t = Some p -> step_registerAndLoadIdem t p s = Some s' -> Inv s'.
Proof.
  intros HI Hp H. destruct p; try done; simpl in H;
    try (destruct (holds_lookup _ _ _ _ _ HI Hp eq_refl) as (sc&Hl&Ho&Hm); simpl in Hm).
  - destruct (scopes s !! c_op c) as [l|] eqn:El; simplify_eq; [|by apply Inv_newScope].
    destruct (inv_scopes _ HI _ _ El) as (sc&Hl&Ho).
    eapply Inv_quiet; eauto; simpl; quiet.
  - simplify_eq. eapply Inv_quiet; eauto; simpl; quiet.
  - destruct (lock t l s) as [s1|] eqn:El; simplify_eq/=.
    apply lock_inv in El as (sc'&Hl'&Hm'&->). simplify_eq.
    eapply Inv_quiet; eauto; simpl; quiet.
  - specialize (Hm eq_refl). rewrite Hl in H. simpl in H. destruct (deleted sc) eqn:Ed; simplify_eq.
    + eapply Inv_quiet; eauto; simpl; quiet.
    + eapply Inv_quiet; eauto; simpl; quiet. set_solver.
  - specialize (Hm eq_refl). unfold makeIdemKey in H.
    destruct (idem s !! _) as [e|] eqn:Ei; simplify_eq; [|by apply Inv_newIdem].
    eapply Inv_quiet; eauto; simpl; quiet.
  - specialize (Hm eq_refl). simplify_eq. eapply Inv_quiet; eauto; simpl; quiet.
Qed.

Lemma counterFor_frame k s :
  let s' := counterFor initialValue k s in
  scopes s' = scopes s /\ idem s' = idem s /\ heap s' = heap s /\ threads s' = threads s
  /\ entries s' = entries s.
Proof. unfold counterFor. by destruct (counters s !! k). Qed.

Lemma Inv_FetchAdd s s' t p :
  Inv s -> threads s !! t = Some p -> step_FetchAdd initialValue t p s = Some s' -> Inv s'.
Proof.
  intros HI Hp H. pose proof (Inv_registerAndLoadIdem s s' t p HI Hp) as Hreg.
  assert (forall q s1, scopes s1 = scopes s -> idem s1 = idem s -> heap s1 = heap s ->
    threads s1 = <[t:=q]> (threads s) -> refs q = None -> refs p = None -> Inv s1) as Hframe.
  { intros q s1 E1 E2 E3 E4 Hq Hp0. eapply Inv_quiet; eauto; rewrite ?E3; quiet.
    - unfold pc_ok. by rewrite Hq.
    - by destruct q.
    - intros l. by destruct p.
    - intros l. by destruct p. }
  destruct p; simpl in H; try (by apply Hreg); clear Hreg.
  - simplify_eq. eapply Hframe; try reflexivity. by case_goal.
  - destruct (entries s !! e) as [[k [| |v]]|]; simplify_eq/=; by eapply Hframe.
  - simplify_eq. destruct (counterFor_frame (c_key c) s) as (?&?&?&Ht&?).
    eapply Hframe; try done; simpl; by rewrite ?Ht.
  - simplify_eq. by eapply Hframe.
  - simplify_eq. destruct (counterFor_frame (c_key c) s) as (?&?&?&Ht&?).
    eapply Hframe; try done; simpl; by rewrite ?Ht.
  - simplify_eq. by eapply Hframe.
Qed.

Lemma Inv_takeScope s t op l :
  Inv s -> threads s !! t = Some (DropStart op) -> scopes s !! op = Some l ->
  Inv (goto t (DropLock op l) (set_scopes (delete op) s)).
Proof.
  intros HI Hp Hs. destruct (inv_scopes _ HI _ _ Hs) as (sc&Hl&Ho). split; simpl.
  - intros op' l' [_ ?]%lookup_delete_Some. by apply (inv_scopes _ HI).
  - eapply inv_pc_step; eauto using heap_le_refl. exists sc. by split_and!.
  - intros l' sc' Hl' Hd. destruct (inv_live _ HI _ _ Hl' Hd) as [Hm|Hdr].
    + destruct (decide (sc_op sc' = op)) as [<-|Hne].
      * right. exists t, (DropLock (sc_op sc') l). rewrite lookup_insert_eq. simplify_eq/=.
        split; [done|apply Nat.eqb_refl].
      * left. by rewrite lookup_delete_ne.
    + right. by eapply (some_thread (fun q => dropping q l')); eauto.
  - intros k op' e (l'&(sc'&Hl'&Ho'&Hk)&Hph&Hc)%(inv_idem _ HI). exists l'. split_and!; simpl; [by eauto| |].
    + intros u q rest [[_ <-]|[_ Hu]]%lookup_insert_Some; [done|eauto].
    + destruct Hc as [Hm|Hre].
      * destruct (decide (op' = op)) as [->|Hne]; [right|left; by rewrite lookup_delete_ne].
        exists t, (DropLock op l). rewrite lookup_insert_eq. simplify_eq/=.
        split; [done|apply Nat.eqb_refl].
      * right. by eapply (some_thread (fun q => retiring q l')); eauto.
Qed.

Lemma Inv_dropMark s t op l sc :
  Inv s -> threads s !! t = Some (DropMark op l) -> heap s !! l = Some sc ->
  Inv (goto t (DropKeys op l (size (keys sc)) (elements (keys sc))) (upd l markDeleted s)).
Proof.
  intros HI Hp Hl. destruct (holds_lookup _ _ _ _ _ HI Hp eq_refl) as (sc0&Hl0&Ho&Hm).
  simplify_eq. specialize (Hm eq_refl).
  assert (heap_le t (heap s) (alter markDeleted l (heap s))) as Hle by quiet. split; simpl.
  - intros op' l' (sc'&Hl'&<-)%(inv_scopes _ HI). destruct (Hle _ _ Hl') as (?&?&?&_). eauto.
  - eapply inv_pc_step; eauto. quiet.
  - intros l' sc' (sc1&Hl1&->)%alter_lookup_inv Hd. destruct (decide (l = l')) as [<-|Hne]; [done|].
    destruct (inv_live _ HI _ _ Hl1 Hd) as [?|Hdr]; [by left|right].
    eapply (some_thread (fun q => dropping q l')); eauto. simpl. destruct (Nat.eqb_spec l' l); congruence.
  - intros k op' e (l'&(sc'&Hl'&Ho'&Hk)&Hph&Hc)%(inv_idem _ HI). exists l'. split_and!; simpl.
    + destruct (decide (l = l')) as [<-|];
        [rewrite (alter_lookup _ _ _ _ Hl')|rewrite list_lookup_alter_ne by done];
        (eexists; split_and!; [eauto|done..]).
    + intros u q rest [[_ <-]|[_ Hu]]%lookup_insert_Some; simpl; [|eauto].
      intros [= -> <-]. simplify_eq. by apply elem_of_elements.
    + destruct Hc as [?|Hre]; [by left|right].
      by eapply (some_thread (fun q => retiring q l')); eauto.
Qed.

(** One key is released, by [DropScope] or by the sweeper. *)
Lemma Inv_releaseKey s t p p' op l k rest :
  Inv s -> threads s !! t = Some p -> refs p = Some (op, l) -> refs p' = Some (op, l) ->
  keysPhase p = Some (l, k :: rest) -> keysPhase p' = Some (l, rest) ->
  (forall l', retiring p l' = true -> retiring p' l' = true) ->
  (forall l', dropping p l' = false) ->
  Inv (goto t p' (set_idem (delete (makeIdemKey k op)) s)).
Proof.
  intros HI Hp Hr Hr' Hk Hk' Hre Hdr. destruct (keysPhase_holds _ _ _ Hk) as (Hh&_).
  destruct (holds_lookup _ _ _ _ _ HI Hp Hr) as (sc&Hl&Ho&Hm). specialize (Hm Hh). split; simpl.
  - apply HI.
  - eapply inv_pc_step; eauto using heap_le_refl. unfold pc_ok. rewrite Hr'.
    exists sc. split_and!; auto. by destruct p'.
  - intros l' sc' Hl' Hd. destruct (inv_live _ HI _ _ Hl' Hd) as [?|Hdr']; [by left|right].
    eapply (some_thread (fun q => dropping q l')); eauto. by rewrite Hdr.
  - intros k' op' e [Hne (l'&(sc'&Hl'&Ho'&Hkk)&Hph&Hc)%(inv_idem _ HI)]%lookup_delete_Some.
    exists l'. split_and!; simpl; [by eauto| |].
    + intros u q rest' [[_ <-]|[_ Hu]]%lookup_insert_Some; [|eauto].
      rewrite Hk'. intros [= -> <-]. specialize (Hph _ _ _ Hp Hk). simplify_eq.
      apply elem_of_cons in Hph as [->|?]; [|done]. by destruct Hne.
    + destruct Hc as [?|Hret]; [by left|right].
      by eapply (some_thread (fun q => retiring q l')); eauto.
Qed.

(** The last key was released: the key set is cleared and the lock let go. *)
Lemma Inv_clear s t p p' op l :
  Inv s -> threads s !! t = Some p -> refs p = Some (op, l) -> refs p' = None ->
  keysPhase p = Some (l, []) -> Inv (goto t p' (unlock l (upd l clearKeys s))).
Proof.
  intros HI Hp Hr Hr' Hk. destruct (keysPhase_holds _ _ _ Hk) as (Hh&_).
  destruct (holds_lookup _ _ _ _ _ HI Hp Hr) as (sc&Hl&Ho&Hm). specialize (Hm Hh).
  assert (forall l0, retiring p l0 = true -> l0 = l) as Hrl.
  { intros l0. destruct p; simpl in *; simplify_eq; intros ?%Nat.eqb_eq; done. }
  assert (alter (setMu None) l (alter clearKeys l (heap s))
          = alter (fun sc => setMu None (clearKeys sc)) l (heap s)) as E
    by apply alter_twice.
  assert (heap_le t (heap s) (alter (fun sc => setMu None (clearKeys sc)) l (heap s))) as Hle by quiet.
  split; simpl; rewrite ?E.
  - intros op' l' (sc'&Hl'&<-)%(inv_scopes _ HI). destruct (Hle _ _ Hl') as (?&?&?&_). eauto.
  - eapply inv_pc_step; eauto. unfold pc_ok. by rewrite Hr'.
  - intros l' sc' (sc1&Hl1&->)%alter_lookup_inv Hd.
    assert (deleted sc1 = false) as Hd1 by (by destruct (decide (l = l'))).
    assert (sc_op (if decide (l = l') then setMu None (clearKeys sc1) else sc1) = sc_op sc1) as ->
      by (by destruct (decide (l = l'))).
    destruct (inv_live _ HI _ _ Hl1 Hd1) as [?|Hdr]; [by left|right].
    eapply (some_thread (fun q => dropping q l')); eauto. by destruct p.
  - intros k op' e (l'&(sc'&Hl'&Ho'&Hkk)&Hph&Hc)%(inv_idem _ HI). exists l'.
    assert (l <> l') as Hne. { intros <-. specialize (Hph _ _ _ Hp Hk). by apply elem_of_nil in Hph. }
    split_and!; simpl; rewrite ?E.
    + exists sc'. by rewrite list_lookup_alter, decide_False.
    + intros u q rest [[_ <-]|[_ Hu]]%lookup_insert_Some; [by destruct p'|eauto].
    + destruct Hc as [?|Hre]; [by left|right].
      eapply (some_thread (fun q => retiring q l')); eauto. intros ?%Hrl. by destruct Hne.
Qed.

Lemma Inv_DropScope s s' t p :
  Inv s -> threads s !! t = Some p -> step_DropScope t p s = Some s' -> Inv s'.
Proof.
  intros HI Hp H. destruct p; try done; simpl in H.
  - destruct (String.eqb op ""); [simplify_eq; eapply Inv_quiet; eauto; simpl; quiet|].
    destruct (scopes s !! op) eqn:El; simplify_eq; [by apply Inv_takeScope|].
    eapply Inv_quiet; eauto; simpl; quiet.
  - destruct (holds_lookup _ _ _ _ _ HI Hp eq_refl) as (sc&Hl&Ho&Hm).
    destruct (lock t l s) as [s1|] eqn:El; simplify_eq/=.
    apply lock_inv in El as (sc'&Hl'&Hm'&->). simplify_eq. eapply Inv_quiet; eauto; simpl; quiet.
  - destruct (heap s !! l) as [sc|] eqn:El; simplify_eq/=. by apply Inv_dropMark.
  - destruct rest as [|k rest]; simplify_eq.
    + by eapply Inv_clear.
    + by eapply Inv_releaseKey.
Qed.

Lemma Inv_sweepMark s t cutoff op l :
  Inv s -> threads s !! t = Some (SweepMark cutoff op l) ->
  Inv (goto t (SweepDelete cutoff op l) (upd l markDeleted s)).
Proof.
  intros HI Hp. destruct (holds_lookup _ _ _ _ _ HI Hp eq_refl) as (sc&Hl&Ho&Hm).
  specialize (Hm eq_refl).
  assert (heap_le t (heap s) (alter markDeleted l (heap s))) as Hle by quiet. split; simpl.
  - intros op' l' (sc'&Hl'&<-)%(inv_scopes _ HI). destruct (Hle _ _ Hl') as (?&?&?&_). eauto.
  - eapply inv_pc_step; eauto. quiet.
  - intros l' sc' (sc1&Hl1&->)%alter_lookup_inv Hd. destruct (decide (l = l')) as [<-|Hne]; [done|].
    destruct (inv_live _ HI _ _ Hl1 Hd) as [?|Hdr]; [by left|right].
    by eapply (some_thread (fun q => dropping q l')); eauto.
  - intros k op' e (l'&(sc'&Hl'&Ho'&Hk)&Hph&Hc)%(inv_idem _ HI). exists l'. split_and!; simpl.
    + destruct (decide (l = l')) as [<-|];
        [rewrite (alter_lookup _ _ _ _ Hl')|rewrite list_lookup_alter_ne by done];
        (eexists; split_and!; [eauto|done..]).
    + intros u q rest [[_ <-]|[_ Hu]]%lookup_insert_Some; [done|eauto].
    + destruct Hc as [?|Hre]; [by left|right].
      by eapply (some_thread (fun q => retiring q l')); eauto.
Qed.

Lemma Inv_sweepDelete s t cutoff op l sc :
  Inv s -> threads s !! t = Some (SweepDelete cutoff op l) -> heap s !! l = Some sc ->
  (forall l', scopes s !! op = Some l' -> l' = l) ->
  Inv (goto t (SweepKeys cutoff op l (elements (keys sc))) (set_scopes (delete op) s)).
Proof.
  intros HI Hp Hl Hb. pose proof (inv_pc _ HI _ _ Hp) as (sc0&Hl0&Ho&Hm&Hdel).
  simplify_eq. specialize (Hm eq_refl). split; simpl.
  - intros op' l' [_ ?]%lookup_delete_Some. by apply (inv_scopes _ HI).
  - eapply inv_pc_step; eauto using heap_le_refl. exists sc. by split_and!.
  - intros l' sc' Hl' Hd. destruct (inv_live _ HI _ _ Hl' Hd) as [Hs|Hdr].
    + left. rewrite lookup_delete_ne; [done|]. intros E. rewrite <- E in Hs. apply Hb in Hs. congruence.
    + right. by eapply (some_thread (fun q => dropping q l')); eauto.
  - intros k op' e (l'&(sc'&Hl'&Ho'&Hk)&Hph&Hc)%(inv_idem _ HI). exists l'. split_and!; simpl; [by eauto| |].
    + intros u q rest [[_ <-]|[_ Hu]]%lookup_insert_Some; simpl; [|eauto].
      intros [= -> <-]. simplify_eq. by apply elem_of_elements.
    + destruct Hc as [Hs|Hre].
      * destruct (decide (op' = sc_op sc)) as [->|Hne]; [right|left; by rewrite lookup_delete_ne].
        apply Hb in Hs as ->. eexists t, _. rewrite lookup_insert_eq.
        split; [reflexivity|apply Nat.eqb_refl].
      * right. by eapply (some_thread (fun q => retiring q l')); eauto.
Qed.

Lemma Inv_sweepOnce s s' t ch p :
  Inv s -> threads s !! t = Some p -> benign s t -> step_sweepOnce t ch p s = Some s' -> Inv s'.
Proof.
  intros HI Hp Hb H. unfold benign in Hb. rewrite Hp in Hb. destruct p; try done; simpl in H;
    try (destruct (holds_lookup _ _ _ _ _ HI Hp eq_refl) as (sc&Hl&Ho&Hm); simpl in Hm).
  - destruct ch as [op|]; [|simplify_eq; eapply Inv_quiet; eauto; simpl; quiet].
    destruct (scopes s !! op) as [l|] eqn:El; simplify_eq/=.
    destruct (inv_scopes _ HI _ _ El) as (sc&Hl&Ho). eapply Inv_quiet; eauto; simpl; quiet.
  - rewrite Hl in H. simplify_eq/=. destruct (cutoff <=? _); eapply Inv_quiet; eauto; simpl; quiet.
  - destruct (lock t l s) as [s1|] eqn:El; simplify_eq/=.
    apply lock_inv in El as (sc'&Hl'&Hm'&->). simplify_eq. eapply Inv_quiet; eauto; simpl; quiet.
  - specialize (Hm eq_refl). rewrite Hl in H. simpl in H.
    destruct (cutoff <=? _); simplify_eq; eapply Inv_quiet; eauto; simpl; quiet.
  - simplify_eq. by apply Inv_sweepMark.
  - rewrite Hl in H. simplify_eq/=. by apply Inv_sweepDelete.
  - destruct rest as [|k rest]; simplify_eq.
    + by eapply Inv_clear.
    + by eapply Inv_releaseKey.
Qed.

Lemma Inv_step s s' t ch :
  Inv s -> benign s t -> step initialValue t ch s = Some s' -> Inv s'.
Proof.
  unfold step. intros HI Hb H. destruct (threads s !! t) as [p|] eqn:Hp; [simpl in H|done].
  destruct p; try done;
    first [by eapply Inv_FetchAdd|by eapply Inv_DropScope|by eapply Inv_sweepOnce].
Qed.

(** A schedule all of whose sweeper deletions hit the scope the sweeper holds. *)
Fixpoint benign_run (sched : list (nat * option string)) (s : store) : Prop :=
  match sched with
  | [] => True
  | (t, ch) :: sched' => benign s t /\ benign_run sched' (default s (step initialValue t ch s))
  end.

Lemma Inv_run sched : forall s, Inv s -> benign_run sched s -> Inv (run initialValue sched s).
Proof.
  induction sched as [|[t ch] sched IH]; intros s HI Hb; [done|]. destruct Hb as [Hb Hr].
  simpl. apply IH; [|done]. destruct (step _ t ch s) as [s'|] eqn:E; [|done]. by eapply Inv_step.
Qed.

(** Goroutines begin at the entry of one of the three operations. *)
Definition startPc (p : pc) : bool :=
  match p with FetchAddStart _ | DropStart _ | SweepRange _ => true | _ => false end.

Lemma Inv_new ts : map_Forall (fun _ p => startPc p = true) ts -> Inv (newSharedStateStore ts).
Proof.
  intros Hts. split; simpl; try done. intros t p Hp. apply Hts in Hp. by destruct p.
Qed.

(** C38. No orphans: for any number of goroutines running [FetchAdd],
    [DropScope] and the sweeper, at every point of every interleaving in which the
    sweeper's [scopes.Delete] only removes the scope it has locked, every cached entry
    is accounted for by a scope of its operation that lists its key.  That scope is in
    the scope map, or a [DropScope] or a sweep has taken it out and is releasing it; and
    a release that has begun still has the entry before it. *)
Theorem no_orphans ts sched k op e :
  map_Forall (fun _ p => startPc p = true) ts ->
  benign_run sched (newSharedStateStore ts) ->
  let s := run initialValue sched (newSharedStateStore ts) in
  idem s !! (k, op) = Some e ->
  exists l sc, heap s !! l = Some sc /\ sc_op sc = op /\ k ∈ keys sc
    /\ (scopes s !! op = Some l \/ exists t p, threads s !! t = Some p /\ retiring p l = true)
    /\ (forall t p rest, threads s !! t = Some p -> keysPhase p = Some (l, rest) -> k ∈ rest).
Proof.
  intros Hts Hb s Hi. pose proof (Inv_run sched _ (Inv_new ts Hts) Hb) as HI.
  destruct (inv_idem _ HI _ _ _ Hi) as (l&(sc&Hl&Ho&Hk)&Hr&Hs). by exists l, sc.
Qed.
End Steps.

(** ** Concrete schedules *)

Module Trace.
Definition init (k : string) : Z := 7.
Definition fetch (now : Z) : pc := FetchAddStart (mkCall "client" 1 "req" now).
(** Two retries of a request and the drop of its scope. *)
Definition retry_threads : gmap nat pc :=
  {[ 0%nat := fetch 0; 1%nat := fetch 1; 2%nat := DropStart "other" ]}.
Definition interleaved : list (nat * option string) :=
  concat (replicate 12 [(0%nat, None); (1%nat, None); (2%nat, None)]).
(** A sweeper that was delayed between its first check and the lock. *)
Definition race_threads : gmap nat pc :=
  {[ 0%nat := fetch 0; 1%nat := SweepRange 100; 2%nat := DropStart "req"; 3%nat := fetch 200 ]}.
Definition steps (t : nat) (n : nat) : list (nat * option string) := replicate n (t, None).
Definition race : list (nat * option string) :=
  steps 0 10 ++ [(1%nat, Some "req"); (1%nat, None)] ++ steps 2 5 ++ steps 3 10 ++ steps 1 6.

(** A stale scope, a fresh one and a dropped one; the sweeper evicts the stale scope
    while the other is dropped.  [sweeping] stops before the sweeper deletes the entry. *)
Definition call_of (op : string) (now : Z) : pc := FetchAddStart (mkCall "client" 1 op now).
Definition sweep_threads : gmap nat pc :=
  {[ 0%nat := call_of "stale" 0; 1%nat := SweepRange 100; 2%nat := call_of "req" 200;
     3%nat := call_of "gone" 200; 4%nat := DropStart "gone" ]}.
Definition sweeping : list (nat * option string) :=
  steps 0 10 ++ steps 2 10 ++ steps 3 10
    ++ (1%nat, Some "stale") :: concat (replicate 5 [(1%nat, None); (4%nat, None)]).
Definition swept : list (nat * option string) := sweeping ++ concat (replicate 5 [(1%nat, None); (4%nat, None)]).
End Trace.

Lemma no_orphans_witness :
  (exists l sc, heap (run Trace.init Trace.sweeping (newSharedStateStore Trace.sweep_threads)) !! l = Some sc
     /\ sc_op sc = "stale" /\ "client" ∈ keys sc)
  /\ exists l sc, heap (run Trace.init Trace.swept (newSharedStateStore Trace.sweep_threads)) !! l = Some sc
     /\ sc_op sc = "req" /\ "client" ∈ keys sc.
Proof.
  split.
  - destruct (no_orphans Trace.init Trace.sweep_threads Trace.sweeping "client" "stale" 0%nat) as (l&sc&Hl&Ho&Hk&_);
      [apply (bool_decide_unpack _); vm_compute; exact I| |vm_compute; reflexivity|exists l, sc; exact (conj Hl (conj Ho Hk))].
    vm_compute. repeat split; intros ? [= <-]; reflexivity.
  - destruct (no_orphans Trace.init Trace.sweep_threads Trace.swept "client" "req" 1%nat) as (l&sc&Hl&Ho&Hk&_);
      [apply (bool_decide_unpack _); vm_compute; exact I| |vm_compute; reflexivity|exists l, sc; exact (conj Hl (conj Ho Hk))].
    vm_compute. repeat split; intros ? [= <-]; reflexivity.
Defined.

(** Without the proviso of [no_orphans] the documented invariant fails: a sweeper that
    looked at a stale scope, was overtaken by [DropScope] and by a fresh
    [FetchAdd] of the same operation, and then resumes, deletes the fresh scope
    from the map.  All goroutines are done, the cache still holds the entry, and
    no scope accounts for it, so neither [DropScope] nor the sweeper can release
    it. *)
Theorem sweeper_orphans_entry :
  let s := run Trace.init Trace.race (newSharedStateStore Trace.race_threads) in
  idem s !! ("client", "req") = Some 1%nat /\ scopes s !! "req" = None
  /\ omap (fun p => match p with FetchAddDone _ _ | DropDone _ | SweepDone => None | _ => Some p end)
       (threads s) = ∅.
Proof. vm_compute. repeat split. Qed.

(** ** The counters *)

Section Counters.
Variable initialValue : string -> Z.

Lemma u64_add_sub x d : u64 (u64 (x + d) - d) = u64 x.
Proof.
  replace (u64 (x + d) - d) with (u64 (x + d) + - d) by lia. rewrite u64_add_l. f_equal. lia.
Qed.

Lemma counterFor_counters k s k' :
  counters (counterFor initialValue k s) !! k' =
  if decide (k' = k /\ counters s !! k = None) then Some (u64 (initialValue k)) else counters s !! k'.
Proof.
  unfold counterFor. destruct (counters s !! k) as [x|] eqn:E.
  - by rewrite decide_False by naive_solver.
  - case_decide as H; simpl.
    + destruct H as [-> _]. apply lookup_insert_eq.
    + rewrite lookup_insert_ne; naive_solver.
Qed.

Lemma counterAdd_counters k d s k' :
  counters (fst (counterAdd k d s)) !! k' =
  if decide (k' = k) then Some (u64 (default 0 (counters s !! k) + d)) else counters s !! k'.
Proof. simpl. case_decide; subst; [apply lookup_insert_eq|by rewrite lookup_insert_ne]. Qed.

Lemma alter_lookup_entry (l : list idemEntry) i j f en :
  l !! j = Some en -> alter f i l !! j = Some (if decide (i = j) then f en else en).
Proof. intros H. rewrite list_lookup_alter. case_decide; subst; by rewrite H. Qed.
End Counters.

(** ** Idempotence

    A group of calls for the same (key, operation) while that operation is not
    dropped: no sweeper runs, and [DropScope] runs for other operations only. *)

Section Idempotent.
Variable initialValue : string -> Z.
Variables (key op : string) (delta : Z).
Hypothesis op_nonempty : op <> "".

(** All calls that touch [key] are for [op] and add [delta]. *)
Definition call_ok (c : call) : Prop := c_key c = key -> c_op c = op /\ c_delta c = delta.
Definition admissible (p : pc) : Prop :=
  match p with
  | FetchAddStart c => call_ok c
  | DropStart op' => op' <> op
  | _ => False
  end.

(** The entry a call holds was made for it, and ours is the cached one. *)
Definition entry_ok (s : store) (c : call) (e : nat) (o : onceState -> Prop) : Prop :=
  c_op c <> "" /\ (exists en, entries s !! e = Some en /\ en_key en = (c_key c, c_op c) /\ o (en_once en))
  /\ (c_key c = key -> idem s !! (key, op) = Some e).

Definition pc_idem (s : store) (t : nat) (p : pc) : Prop :=
  match p with
  | FetchAddStart c => call_ok c
  | PlainCounter c | PlainAdd c => call_ok c /\ c_op c = ""
  | RegLoadOrStore c | RegStamp c _ | RegLock c _ | RegCheck c _ | RegIdem c _ => call_ok c /\ c_op c <> ""
  | RegUnlock c _ e | OnceDo c e => call_ok c /\ entry_ok s c e (fun _ => True)
  | OnceCounter c e => call_ok c /\ entry_ok s c e (fun o => o = Running t)
  | OnceAdd c e => call_ok c /\ entry_ok s c e (fun o => o = Running t)
                   /\ is_Some (counters s !! c_key c)
  | FetchAddDone c v => c_key c = key ->
      exists e en, idem s !! (key, op) = Some e /\ entries s !! e = Some en /\ en_once en = Done v
  | DropStart op' | DropLock op' _ | DropMark op' _ | DropKeys op' _ _ _ => op' <> op
  | DropDone _ => True
  | _ => False
  end.

(** The counter before and after the one advance. *)
Definition counter_ok (s : store) : Prop :=
  (forall x, counters s !! key = Some x ->
     x = u64 (initialValue key) \/
     exists e en, idem s !! (key, op) = Some e /\ entries s !! e = Some en
       /\ en_once en = Done (u64 (initialValue key)))
  /\ forall e en v, idem s !! (key, op) = Some e -> entries s !! e = Some en -> en_once en = Done v ->
       v = u64 (initialValue key) /\ counters s !! key = Some (u64 (initialValue key + delta)).

Record IdemInv (s : store) : Prop := {
  ii_idem : forall k e, idem s !! k = Some e -> exists en, entries s !! e = Some en /\ en_key en = k;
  ii_pc : forall t p, threads s !! t = Some p -> pc_idem s t p;
  ii_counter : counter_ok s
}.

(** What a step of [t] keeps: our cached address, and the state of entries
    that are done or that another goroutine runs. *)
Record frame (t : nat) (s s' : store) : Prop := {
  fr_idem : forall e, idem s !! (key, op) = Some e -> idem s' !! (key, op) = Some e;
  fr_entries : forall e en, entries s !! e = Some en ->
    exists en', entries s' !! e = Some en' /\ en_key en' = en_key en
      /\ (forall v, en_once en = Done v -> en_once en' = Done v)
      /\ (forall u, u <> t -> en_once en = Running u -> en_once en' = Running u);
  fr_counters : forall k, is_Some (counters s !! k) -> is_Some (counters s' !! k)
}.

Lemma entry_ok_frame t s s' c e (o o' : onceState -> Prop) :
  frame t s s' -> entry_ok s c e o ->
  (forall en en', entries s !! e = Some en -> entries s' !! e = Some en' -> o (en_once en) -> o' (en_once en')) ->
  entry_ok s' c e o'.
Proof.
  intros Hf (Hne&(en&He&Hk&Ho)&Hi) Hoo. destruct (fr_entries _ _ _ Hf _ _ He) as (en'&He'&Hk'&_).
  split_and!; [done| |].
  - exists en'. split_and!; [done|congruence|eauto].
  - intros Hc. by eapply fr_idem, Hi.
Qed.

Lemma pc_idem_frame t u s s' p : frame t s s' -> u <> t -> pc_idem s u p -> pc_idem s' u p.
Proof.
  intros Hf Hne. assert (Hrun : forall e en en', entries s !! e = Some en -> entries s' !! e = Some en' ->
    en_once en = Running u -> en_once en' = Running u).
  { intros e en en' He He'. destruct (fr_entries _ _ _ Hf _ _ He) as (en2&?&_&_&H). simplify_eq. eauto. }
  destruct p; simpl; try done.
  - intros [? ?]. split; [done|]. by eapply entry_ok_frame.
  - intros [? ?]. split; [done|]. by eapply entry_ok_frame.
  - intros [? ?]. split; [done|]. by eapply entry_ok_frame; eauto.
  - intros (?&?&?). split_and!; [done|by eapply entry_ok_frame; eauto|by eapply fr_counters].
  - intros H Hk. destruct (H Hk) as (e&en&Hi&He&Hv).
    destruct (fr_entries _ _ _ Hf _ _ He) as (en'&He'&_&Hd&_). exists e, en'. split_and!; eauto using fr_idem.
Qed.

(** Assemble the invariant after a step. *)
Lemma IdemInv_frame t s s' p' :
  IdemInv s -> frame t s s' -> threads s' = <[t:=p']> (threads s) ->
  (forall k e, idem s' !! k = Some e -> exists en, entries s' !! e = Some en /\ en_key en = k) ->
  counter_ok s' -> pc_idem s' t p' -> IdemInv s'.
Proof.
  intros HI Hf Ht Hi Hc Hp. split; [done| |done]. intros u p. rewrite Ht, lookup_insert_Some.
  intros [[<- <-]|[Hne Hu]]; [done|]. eapply pc_idem_frame; eauto. by apply HI.
Qed.

Lemma frame_refl t s s' :
  idem s' = idem s -> entries s' = entries s -> counters s' = counters s -> frame t s s'.
Proof. intros Hi He Hc. split; intros; rewrite ?Hi, ?He, ?Hc; eauto 10. Qed.

(** Steps that touch none of the cache, the entries and the counters. *)
Lemma IdemInv_quiet t s s' p' :
  IdemInv s -> idem s' = idem s -> entries s' = entries s -> counters s' = counters s ->
  threads s' = <[t:=p']> (threads s) -> pc_idem s' t p' -> IdemInv s'.
Proof.
  intros HI Hi He Hc Ht Hp. eapply IdemInv_frame; eauto using frame_refl.
  - intros k e. rewrite Hi, He. apply HI.
  - unfold counter_ok. rewrite Hi, He, Hc. apply HI.
Qed.

Lemma frame_counters t s s' :
  idem s' = idem s -> entries s' = entries s ->
  (forall k, is_Some (counters s !! k) -> is_Some (counters s' !! k)) -> frame t s s'.
Proof. intros Hi He Hc. split; intros; rewrite ?Hi, ?He; eauto 10. Qed.

Lemma IdemInv_counterFor t s p' c :
  IdemInv s -> pc_idem (counterFor initialValue (c_key c) s) t p' ->
  IdemInv (goto t p' (counterFor initialValue (c_key c) s)).
Proof.
  intros HI Hp. destruct (counterFor_frame initialValue (c_key c) s) as (_&Hi&_&Ht&He).
  eapply (IdemInv_frame t); [exact HI| | | | |].
  - apply frame_counters; simpl; [done..|]. intros k Hk. rewrite counterFor_counters. by case_decide.
  - simpl. by rewrite Ht.
  - simpl. rewrite Hi, He. apply HI.
  - destruct (ii_counter _ HI) as [H1 H2]. split; simpl; rewrite Hi, He, counterFor_counters.
    + intros x. case_decide as Hd; [|apply H1]. destruct Hd as [-> _]. intros [= <-]. by left.
    + intros e en v Hie Hen Hv. destruct (H2 _ _ _ Hie Hen Hv) as [? Hx]. split; [done|].
      rewrite decide_False; [done|]. intros [<- ?]. congruence.
  - destruct p'; simpl in *; try done.
Qed.

(** The owner of a [Once] changes its state. *)
Lemma frame_setOnce t e o s s' en :
  idem s' = idem s -> entries s' = entries (setOnce e o s) ->
  (forall k, is_Some (counters s !! k) -> is_Some (counters s' !! k)) ->
  entries s !! e = Some en -> (en_once en = NotStarted \/ en_once en = Running t) ->
  frame t s s'.
Proof.
  intros Hi He Hc Hen Ho. split; [by rewrite Hi| |done]. intros e' en' He'. rewrite He. simpl.
  rewrite (alter_lookup_entry _ _ _ _ _ He'). eexists. split_and!; [reflexivity|..];
    case_decide; subst; simplify_eq/=; try done; intros; destruct Ho; congruence.
Qed.

Lemma ii_idem_setOnce e o s s' k e' :
  IdemInv s -> idem s' = idem s -> entries s' = entries (setOnce e o s) ->
  idem s' !! k = Some e' -> exists en, entries s' !! e' = Some en /\ en_key en = k.
Proof.
  intros HI Hi He. rewrite Hi, He. intros (en&Hen&Hk)%(ii_idem _ HI). simpl.
  rewrite (alter_lookup_entry _ _ _ _ _ Hen). eexists. split; [done|]. by case_decide.
Qed.

(** Starting the [Once]. *)
Lemma IdemInv_begin t s c e en :
  IdemInv s -> threads s !! t = Some (OnceDo c e) -> entries s !! e = Some en ->
  en_once en = NotStarted -> IdemInv (goto t (OnceCounter c e) (setOnce e (Running t) s)).
Proof.
  intros HI Hp He Ho. pose proof (ii_pc _ HI _ _ Hp) as [Hc Hok].
  assert (Hf : frame t s (goto t (OnceCounter c e) (setOnce e (Running t) s)))
    by (eapply frame_setOnce; eauto).
  eapply (IdemInv_frame t); [exact HI|exact Hf|done|intros k e'; by eapply ii_idem_setOnce| |].
  - destruct (ii_counter _ HI) as [H1 H2]. split; simpl.
    + intros x Hx. destruct (H1 x Hx) as [?|(e'&en'&Hi&He'&Hd)]; [by left|right].
      exists e', en'. split_and!; [done| |done]. rewrite (alter_lookup_entry _ _ _ _ _ He').
      case_decide; [|done]. subst. congruence.
    + intros e' en' v Hi He' Hd. destruct (ii_idem _ HI _ _ Hi) as (en0&He0&_).
      rewrite (alter_lookup_entry _ _ _ _ _ He0) in He'. case_decide; simplify_eq/=. by eapply H2.
  - split; [done|]. eapply entry_ok_frame; [exact Hf|exact Hok|]. simpl.
    intros en1 en2 H1. rewrite (alter_lookup_entry _ _ _ _ _ H1), decide_True by done.
    by intros [= <-].
Qed.

(** The advance of the counter inside the [Once]. *)
Lemma IdemInv_add t s c e :
  IdemInv s -> threads s !! t = Some (OnceAdd c e) ->
  let '(s', v) := counterAdd (c_key c) (c_delta c) s in
  IdemInv (goto t (FetchAddDone c v) (setOnce e (Done v) s')).
Proof.
  intros HI Hp. pose proof (ii_pc _ HI _ _ Hp) as (Hc&(Hne&(en&He&Hk&Hr)&Hi)&[x Hx]).
  pose proof (counterAdd_counters (c_key c) (c_delta c) s) as Hcnt.
  destruct (counterAdd _ _ s) as [s' v] eqn:Ea. simpl in Hcnt.
  assert (idem s' = idem s /\ entries s' = entries s /\ threads s' = threads s
          /\ v = u64 x) as (Ei&Ee&Et&Ev).
  { unfold counterAdd in Ea. simplify_eq. rewrite Hx. split_and!; [done..|]. simpl.
    by rewrite u64_add_sub. }
  assert (Hf : frame t s (goto t (FetchAddDone c v) (setOnce e (Done v) s'))).
  { eapply frame_setOnce; eauto; simpl; [by rewrite Ee|].
    intros k Hs. rewrite Hcnt. by case_decide. }
  eapply (IdemInv_frame t); [exact HI|exact Hf|simpl; by rewrite Et| | |].
  - intros k e'. eapply ii_idem_setOnce; eauto. simpl. by rewrite Ee.
  - destruct (ii_counter _ HI) as [H1 H2]. split; simpl; rewrite Hcnt, Ei, Ee.
    + intros y. case_decide as Hd.
      * intros [= <-]. rewrite <- Hd in Hx. right. exists e. rewrite (alter_lookup_entry _ _ _ _ _ He), decide_True by done.
        eexists. split_and!; [auto|done|]. simpl. f_equal.
        destruct (H1 x Hx) as [->|(e'&en'&Hi'&He'&Hd')].
        { by rewrite Ev, u64_idem. }
        rewrite Hi in Hi' by done. simplify_eq. congruence.
      * intros Hy. destruct (H1 y Hy) as [?|(e'&en'&Hi'&He'&Hd')]; [by left|right].
        exists e', en'. split_and!; [done| |done]. rewrite (alter_lookup_entry _ _ _ _ _ He').
        case_decide; [|done]. subst. congruence.
    + intros e' en' v' Hi' He' Hd'. destruct (ii_idem _ HI _ _ Hi') as (en0&He0&Hk0).
      rewrite (alter_lookup_entry _ _ _ _ _ He0) in He'. case_decide as Hd; simplify_eq/=.
      * rewrite Hk0 in Hk. injection Hk as Hkey Hop. destruct (Hc (eq_sym Hkey)) as [_ ->].
        rewrite decide_True, Hx by done. rewrite <- Hkey in Hx.
        destruct (H1 x Hx) as [->|(e1&en1&Hi1&He1&Hd1)]; [|simplify_eq; congruence].
        simpl. by rewrite u64_idem, u64_add_l.
      * destruct (H2 _ _ _ Hi' He0 Hd') as [? Hv]. split; [done|]. rewrite decide_False; [done|].
        intros E. rewrite Hi in Hi' by done. congruence.
  - intros Hkey. exists e. eexists. split_and!.
    + simpl. rewrite Ei. auto.
    + simpl. rewrite Ee, (alter_lookup_entry _ _ _ _ _ He), decide_True by done. done.
    + done.
Qed.

(** An advance without a cache entry, on another key. *)
Lemma IdemInv_plainAdd t s c :
  IdemInv s -> threads s !! t = Some (PlainAdd c) ->
  let '(s', v) := counterAdd (c_key c) (c_delta c) s in IdemInv (goto t (FetchAddDone c v) s').
Proof.
  intros HI Hp. pose proof (ii_pc _ HI _ _ Hp) as (Hc&He).
  assert (c_key c <> key) as Hne. { intros E. destruct (Hc E). congruence. }
  pose proof (counterAdd_counters (c_key c) (c_delta c) s) as Hcnt. simpl in *.
  eapply (IdemInv_frame t); [exact HI| |done| | |intros E; by destruct Hne].
  - apply frame_counters; simpl; [done..|]. intros k Hs. rewrite Hcnt. by case_decide.
  - apply HI.
  - destruct (ii_counter _ HI) as [H1 H2].
    split; simpl; (rewrite Hcnt, decide_False by congruence); [apply H1|apply H2].
Qed.

(** A new cache entry. *)
Lemma IdemInv_newIdem t s c l :
  IdemInv s -> threads s !! t = Some (RegIdem c l) -> idem s !! (c_key c, c_op c) = None ->
  IdemInv (goto t (RegUnlock c l (length (entries s)))
    (set_idem (insert (c_key c, c_op c) (length (entries s)))
      (set_entries (fun h => h ++ [mkEntry (c_key c, c_op c) NotStarted]) s))).
Proof.
  intros HI Hp Hn. pose proof (ii_pc _ HI _ _ Hp) as [Hc Hne]. set (en0 := mkEntry _ _).
  assert (Hnew : (entries s ++ [en0]) !! length (entries s) = Some en0)
    by (by rewrite lookup_app_r, Nat.sub_diag by lia).
  eapply (IdemInv_frame t); [exact HI| |done| | |].
  - split; simpl.
    + intros e Hi. rewrite lookup_insert_ne; congruence.
    + intros e en He. exists en. rewrite (lookup_app_l_Some _ _ _ _ He). eauto.
    + done.
  - simpl. intros k e [[<- <-]|[_ (en&He&?)%(ii_idem _ HI)]]%lookup_insert_Some; [by eauto|].
    exists en. by rewrite (lookup_app_l_Some _ _ _ _ He).
  - destruct (ii_counter _ HI) as [H1 H2]. split; simpl.
    + intros x Hx. destruct (H1 x Hx) as [?|(e&en&Hi&He&Hd)]; [by left|right]. exists e, en.
      rewrite (lookup_app_l_Some _ _ _ _ He), lookup_insert_ne by congruence. done.
    + intros e en v [[_ <-]|[_ Hi]]%lookup_insert_Some He Hd; [rewrite Hnew in He; by simplify_eq|].
      destruct (ii_idem _ HI _ _ Hi) as (en1&He1&_).
      rewrite (lookup_app_l_Some _ _ _ _ He1) in He. simplify_eq. by eapply H2.
  - simpl. split; [done|]. split_and!; [done|by exists en0|]. simpl.
    intros Hk. destruct (Hc Hk) as [<- _]. rewrite <- Hk. apply lookup_insert_eq.
Qed.

(** A key of another operation is released. *)
Lemma IdemInv_release t s op' l n k rest :
  IdemInv s -> threads s !! t = Some (DropKeys op' l n (k :: rest)) ->
  IdemInv (goto t (DropKeys op' l n rest) (set_idem (delete (makeIdemKey k op')) s)).
Proof.
  intros HI Hp. pose proof (ii_pc _ HI _ _ Hp) as Hne. simpl in Hne.
  assert (E : delete (makeIdemKey k op') (idem s) !! (key, op) = idem s !! (key, op))
    by (apply lookup_delete_ne; unfold makeIdemKey; congruence).
  eapply (IdemInv_frame t); [exact HI| |done| | |done].
  - split; simpl; eauto 10. by rewrite E.
  - simpl. intros k' e [_ ?]%lookup_delete_Some. by apply HI.
  - unfold counter_ok. simpl. rewrite E. apply HI.
Qed.

Lemma IdemInv_step t ch s s' : IdemInv s -> step initialValue t ch s = Some s' -> IdemInv s'.
Proof.
  unfold step. intros HI H. destruct (threads s !! t) as [p|] eqn:Hp; [simpl in H|done].
  pose proof (ii_pc _ HI _ _ Hp) as Hok.
  destruct p; simpl in H, Hok; try done.
  - (* FetchAddStart *)
    simplify_eq. eapply IdemInv_quiet; eauto; try done.
    destruct (String.eqb_spec (c_op c) ""); simpl; auto.
  - destruct (scopes s !! c_op c); simplify_eq; by eapply IdemInv_quiet.
  - simplify_eq; by eapply IdemInv_quiet.
  - destruct (lock t l s) as [s1|] eqn:El; simplify_eq/=.
    apply lock_inv in El as (sc&_&_&->). by eapply IdemInv_quiet.
  - destruct (heap s !! l) as [sc|]; simplify_eq/=. destruct (deleted sc); simplify_eq;
      by eapply IdemInv_quiet.
  - unfold makeIdemKey in H. destruct (idem s !! _) as [e|] eqn:Ei; simplify_eq;
      [|by apply IdemInv_newIdem].
    destruct (ii_idem _ HI _ _ Ei) as (en&He&Hk). destruct Hok as [Hc Hne].
    eapply IdemInv_quiet; eauto; try done. split; [done|]. split_and!; simpl; [done|by eauto|].
    intros E. destruct (Hc E) as [<- _]. by rewrite <- E.
  - simplify_eq. by eapply IdemInv_quiet.
  - destruct (entries s !! e) as [en|] eqn:He; simplify_eq/=.
    destruct (en_once en) as [|u|v] eqn:Ho; simplify_eq; [by eapply IdemInv_begin|].
    destruct Hok as (Hc&_&_&Hi). eapply IdemInv_quiet; eauto; try done. intros E. eauto 6.
  - destruct Hok as [Hc Hen]. simplify_eq. apply IdemInv_counterFor; [done|].
    destruct (counterFor_frame initialValue (c_key c) s) as (_&Hi&_&_&He).
    simpl. split_and!; [done| |].
    + unfold entry_ok in *. by rewrite Hi, He.
    + rewrite counterFor_counters. case_decide as Hd; [done|].
      destruct (counters s !! c_key c); [done|]. by destruct Hd.
  - pose proof (IdemInv_add t s c e HI Hp) as Ha. by simplify_eq/=.
  - simplify_eq. by apply IdemInv_counterFor.
  - pose proof (IdemInv_plainAdd t s c HI Hp) as Ha. by simplify_eq/=.
  - repeat case_hyp H; simplify_eq; by eapply IdemInv_quiet.
  - destruct (lock t l s) as [s1|] eqn:El; simplify_eq/=.
    apply lock_inv in El as (sc&_&_&->). by eapply IdemInv_quiet.
  - destruct (heap s !! l) as [sc|]; simplify_eq/=. by eapply IdemInv_quiet.
  - destruct rest as [|k rest]; simplify_eq; [by eapply IdemInv_quiet|by apply IdemInv_release].
Qed.

Lemma IdemInv_run sched : forall s, IdemInv s -> IdemInv (run initialValue sched s).
Proof.
  induction sched as [|[t ch] sched IH]; intros s HI; [done|]. simpl. apply IH.
  destruct (step _ t ch s) as [s'|] eqn:E; [|done]. by eapply IdemInv_step.
Qed.

Lemma IdemInv_new ts : map_Forall (fun _ p => admissible p) ts -> IdemInv (newSharedStateStore ts).
Proof.
  intros Hts. split; [done| |split; done]. intros t p Hp. apply Hts in Hp. by destruct p.
Qed.

(** C35. Exactly once: let any number of goroutines call [FetchAdd] and [DropScope],
    where every call on [key] is for the one operation [op] and adds [delta], no drop is
    for [op], and no sweep runs.  However they are interleaved, every call on [key] that
    returns gives the same value, the counter's initial one, and the counter is advanced
    by [delta] once, not once per call.  (Dropping [op] or sweeping it forgets its calls
    by design: a later retry counts anew.) *)
Theorem FetchAdd_exactly_once ts sched t c v :
  map_Forall (fun _ p => admissible p) ts ->
  let s := run initialValue sched (newSharedStateStore ts) in
  threads s !! t = Some (FetchAddDone c v) -> c_key c = key ->
  v = u64 (initialValue key) /\ counters s !! key = Some (u64 (initialValue key + delta)).
Proof.
  intros Hts s Ht Hk. pose proof (IdemInv_run sched _ (IdemInv_new ts Hts)) as HI.
  destruct (ii_pc _ HI _ _ Ht Hk) as (e&en&Hi&He&Hd). by apply (ii_counter _ HI) with e en.
Qed.
End Idempotent.

Lemma FetchAdd_exactly_once_witness :
  counters (run Trace.init Trace.interleaved (newSharedStateStore Trace.retry_threads)) !! "client" = Some 8.
Proof.
  refine (proj2 (FetchAdd_exactly_once Trace.init "client" "req" 1 _ Trace.retry_threads
    Trace.interleaved 1%nat (mkCall "client" 1 "req" 1) 7 _ _ _)).
  - discriminate.
  - intros t p H. apply elem_of_map_to_list in H. vm_compute in H.
    repeat (apply elem_of_cons in H as [H|H]; [injection H as -> ->; vm_compute; intuition congruence|]).
    by apply elem_of_nil in H.
  - vm_compute. reflexivity.
  - reflexivity.
Defined.

(** ** Refinement of the sequential specification

    Abstractly the store is a value per counter and a cache of answers. *)

Section Solo.
Variable initialValue : string -> Z.

Definition abs_counter (s : store) (k : string) : Z :=
  default (u64 (initialValue k)) (counters s !! k).
Definition abs_cache (s : store) (k : idemMapKey) : option Z :=
  e ← idem s !! k; en ← entries s !! e;
  match en_once en with Done v => Some v | _ => None end.

(** The answer, the new counter value and the new cache value of a call. *)
Definition spec_FetchAdd (counter : Z) (cached : option Z) (delta : Z) : Z * Z :=
  match cached with
  | Some v => (v, counter)
  | None => (counter, u64 (counter + delta))
  end.

(** No goroutine is half way through an operation. *)
Definition settled (s : store) : Prop :=
  (forall op l, scopes s !! op = Some l ->
     exists sc, heap s !! l = Some sc /\ sc_op sc = op /\ mu sc = None /\ deleted sc = false)
  /\ (forall k e, idem s !! k = Some e -> exists en v, entries s !! e = Some en /\ en_once en = Done v)
  /\ (forall k x, counters s !! k = Some x -> u64 x = x).

Lemma run_step t ch sched s s' :
  step initialValue t ch s = Some s' -> run initialValue ((t, ch) :: sched) s = run initialValue sched s'.
Proof. intros H. simpl. by rewrite H. Qed.

Lemma run_blocked t p n s :
  threads s !! t = Some p -> match p with FetchAddDone _ _ | DropDone _ | SweepDone => True | _ => False end ->
  run initialValue (replicate n (t, None)) s = s.
Proof.
  intros Hp Hd. induction n as [|n IH]; simpl; [done|].
  assert (step initialValue t None s = None) as -> by (unfold step; rewrite Hp; by destruct p). done.
Qed.

(** Registration: four steps up to the scope's critical section. *)
Lemma solo_register s t c n :
  settled s -> threads s !! t = Some (FetchAddStart c) -> c_op c <> "" ->
  exists s1 l, run initialValue (replicate (5 + n) (t, None)) s = run initialValue (replicate n (t, None)) s1
    /\ threads s1 !! t = Some (RegIdem c l)
    /\ counters s1 = counters s /\ idem s1 = idem s /\ entries s1 = entries s
    /\ settled (set_idem (fun _ => idem s) (unlock l s1)) /\ is_Some (heap s1 !! l).
Proof.
  intros (Hs&He&Hu) Hp Hne. destruct s as [cn sm h im en ths].
  cbn [counters scopes heap idem entries threads] in Hs, He, Hu, Hp.
  assert (Hsched : replicate (5 + n) (t, @None string) =
    (t, None) :: (t, None) :: (t, None) :: (t, None) :: (t, None) :: replicate n (t, None)) by done.
  rewrite Hsched. clear Hsched.
  apply String.eqb_neq in Hne.
  erewrite run_step; [|unfold step; simpl; rewrite Hp; simpl; rewrite Hne; reflexivity].
  destruct (sm !! c_op c) as [l|] eqn:El.
  - destruct (Hs _ _ El) as (sc&Hl&Ho&Hm&Hd).
    erewrite run_step; [|unfold step; simpl; rewrite lookup_insert_eq; simpl; rewrite El; reflexivity].
    erewrite run_step; [|unfold step; simpl; rewrite lookup_insert_eq; simpl; reflexivity].
    erewrite run_step; [|unfold step; simpl; rewrite lookup_insert_eq; simpl; unfold lock; simpl;
      rewrite (alter_lookup _ _ _ _ Hl); simpl; rewrite Hm; reflexivity].
    erewrite run_step; [|unfold step; simpl; rewrite lookup_insert_eq; simpl;
      rewrite (alter_lookup _ _ _ _ (alter_lookup _ _ _ _ Hl)); simpl; rewrite Hd; reflexivity].
    eexists _, l. split_and!; [reflexivity|..]; simpl; try done.
    + by rewrite lookup_insert_eq.
    + split_and!; simpl; [|done..]. intros op' l' (sc'&Hl'&<-&Hsc')%Hs. rewrite !alter_twice.
      destruct (decide (l = l')) as [<-|].
      * rewrite (alter_lookup _ _ _ _ Hl). simplify_eq. eexists. split_and!; [reflexivity|done..].
      * rewrite list_lookup_alter_ne by done. eauto.
    + rewrite !alter_twice, (alter_lookup _ _ _ _ Hl). eauto.
  - set (sc := mkScope (c_op c) ∅ 0 false None). set (l := length h).
    assert (Hl : (h ++ [sc]) !! l = Some sc) by (by rewrite lookup_app_r, Nat.sub_diag by lia).
    erewrite run_step; [|unfold step; simpl; rewrite lookup_insert_eq; simpl; rewrite El; reflexivity].
    erewrite run_step; [|unfold step; simpl; rewrite lookup_insert_eq; simpl; reflexivity].
    erewrite run_step; [|unfold step; simpl; rewrite lookup_insert_eq; simpl; unfold lock; simpl;
      rewrite (alter_lookup _ _ _ _ Hl); simpl; reflexivity].
    erewrite run_step; [|unfold step; simpl; rewrite lookup_insert_eq; simpl;
      rewrite (alter_lookup _ _ _ _ (alter_lookup _ _ _ _ Hl)); simpl; reflexivity].
    eexists _, l. split_and!; [reflexivity|..]; simpl; try done.
    + by rewrite lookup_insert_eq.
    + split_and!; simpl; [|done..]. fold l sc. rewrite !alter_twice.
      intros op' l' [[<- <-]|[_ (sc'&Hl'&Hsc')%Hs]]%lookup_insert_Some.
      * rewrite (alter_lookup _ _ _ _ Hl). eexists. split_and!; [reflexivity|done..].
      * rewrite list_lookup_alter_ne, (lookup_app_l_Some _ _ _ _ Hl') by
          (apply lookup_lt_Some in Hl'; unfold l; lia). eauto.
    + fold l sc. rewrite !alter_twice, (alter_lookup _ _ _ _ Hl). eauto.
Qed.

Lemma counterFor_abs s k :
  let s' := counterFor initialValue k s in
  counters s' !! k = Some (abs_counter s k)
  /\ (forall k', k' <> k -> counters s' !! k' = counters s !! k').
Proof.
  simpl. unfold abs_counter. split.
  - rewrite counterFor_counters. destruct (counters s !! k) eqn:E.
    + by rewrite decide_False by naive_solver.
    + by rewrite decide_True.
  - intros k' Hne. rewrite counterFor_counters. by rewrite decide_False by naive_solver.
Qed.

Lemma abs_counter_u64 s k : settled s -> u64 (abs_counter s k) = abs_counter s k.
Proof.
  intros (_&_&Hu). unfold abs_counter. destruct (counters s !! k) eqn:E; simpl; [eauto|apply u64_idem].
Qed.

(** [counterFor] followed by the addition, as both paths of [FetchAdd] do. *)
Lemma counter_advance s k d :
  settled s ->
  let '(s', v) := counterAdd k d (counterFor initialValue k s) in
  v = abs_counter s k /\ counters s' !! k = Some (u64 (abs_counter s k + d))
  /\ (forall k', k' <> k -> counters s' !! k' = counters s !! k')
  /\ scopes s' = scopes s /\ heap s' = heap s /\ idem s' = idem s /\ entries s' = entries s
  /\ threads s' = threads s.
Proof.
  intros Hset. destruct (counterFor_abs s k) as [H1 H2].
  destruct (counterFor_frame initialValue k s) as (E1&E2&E3&E4&E5). simpl. rewrite H1. simpl.
  split_and!; try done.
  - by rewrite u64_add_sub, abs_counter_u64.
  - apply lookup_insert_eq.
  - intros k' Hne. rewrite lookup_insert_ne by done. auto.
Qed.

(** What the specification says of a call, on the abstract state. *)
Definition refines_FetchAdd (s s' : store) (t : nat) (c : call) : Prop :=
  let cached := if (c_op c =s "")%go then None else abs_cache s (c_key c, c_op c) in
  let '(v, n) := spec_FetchAdd (abs_counter s (c_key c)) cached (c_delta c) in
  threads s' !! t = Some (FetchAddDone c v)
  /\ abs_counter s' (c_key c) = n
  /\ (forall k, k <> c_key c -> abs_counter s' k = abs_counter s k)
  /\ (c_op c <> "" -> abs_cache s' (c_key c, c_op c) = Some v)
  /\ (forall k, k <> (c_key c, c_op c) -> abs_cache s' k = abs_cache s k)
  /\ settled s'.

Lemma settled_counters s s' k x :
  settled s -> scopes s' = scopes s -> heap s' = heap s -> idem s' = idem s -> entries s' = entries s ->
  counters s' !! k = Some (u64 x) -> (forall k', k' <> k -> counters s' !! k' = counters s !! k') ->
  settled s'.
Proof.
  intros (H1&H2&H3) E1 E2 E3 E4 E5 E6. split_and!.
  - by rewrite E1, E2.
  - by rewrite E3, E4.
  - intros k' y. destruct (decide (k' = k)) as [->|Hne].
    + rewrite E5. intros [= <-]. apply u64_idem.
    + rewrite E6 by done. apply H3.
Qed.

Lemma solo_plain s t c n :
  settled s -> threads s !! t = Some (FetchAddStart c) -> c_op c = "" ->
  refines_FetchAdd s (run initialValue (replicate (3 + n) (t, None)) s) t c.
Proof.
  intros Hset Hp Hop.
  change (replicate (3 + n) (t, @None string))
    with ((t, @None string) :: (t, None) :: (t, None) :: replicate n (t, None)).
  pose proof (counter_advance s (c_key c) (c_delta c) Hset) as Ha.
  destruct (counterFor_frame initialValue (c_key c) s) as (E1&E2&E3&E4&E5).
  assert (Hcf : counterFor initialValue (c_key c) (goto t (PlainCounter c) s)
    = goto t (PlainCounter c) (counterFor initialValue (c_key c) s))
    by (unfold counterFor; simpl; by destruct (counters s !! c_key c)).
  erewrite run_step; [|unfold step; rewrite Hp; simpl; rewrite Hop; reflexivity].
  erewrite run_step; [|unfold step; simpl; rewrite lookup_insert_eq; simpl; rewrite Hcf; reflexivity].
  erewrite run_step; [|unfold step; simpl; rewrite lookup_insert_eq; simpl; reflexivity].
  erewrite run_blocked; [|simpl; by rewrite lookup_insert_eq|done].
  unfold refines_FetchAdd, spec_FetchAdd. rewrite Hop. simpl in *.
  destruct Ha as (Hv&Hc&Hk&_). rewrite lookup_insert_eq in Hc. simplify_eq/=.
  split_and!.
  - by rewrite lookup_insert_eq, Hv.
  - unfold abs_counter at 1. simpl. by rewrite lookup_insert_eq, Hc.
  - intros k Hne. unfold abs_counter. simpl. rewrite (Hk k Hne). done.
  - done.
  - intros k Hne. unfold abs_cache. simpl. by rewrite E2, E5.
  - eapply (settled_counters s _ (c_key c)); eauto. simpl. rewrite lookup_insert_eq.
    by rewrite <- Hc.
Qed.

Lemma abs_cache_entries s k e en v :
  idem s !! k = Some e -> entries s !! e = Some en -> en_once en = Done v -> abs_cache s k = Some v.
Proof. intros Hi He Hd. unfold abs_cache. rewrite Hi. simpl. rewrite He. simpl. by rewrite Hd. Qed.

(** The answer was cached: the entry is found and read. *)
Lemma solo_cached s s1 t c l n e :
  settled s -> c_op c <> "" -> threads s1 !! t = Some (RegIdem c l) ->
  counters s1 = counters s -> idem s1 = idem s -> entries s1 = entries s ->
  settled (set_idem (fun _ => idem s) (unlock l s1)) ->
  idem s !! (c_key c, c_op c) = Some e ->
  refines_FetchAdd s (run initialValue (replicate (3 + n) (t, None)) s1) t c.
Proof.
  intros Hset Hne Hp Ec Ei Ee Hset1 Hi. destruct Hset as (H1&H2&H3).
  destruct (H2 _ _ Hi) as (en&v&He&Hd).
  change (replicate (3 + n) (t, @None string))
    with ((t, @None string) :: (t, None) :: (t, None) :: replicate n (t, None)).
  erewrite run_step; [|unfold step; rewrite Hp; simpl; unfold makeIdemKey; rewrite Ei, Hi; reflexivity].
  erewrite run_step; [|unfold step; simpl; rewrite lookup_insert_eq; simpl; reflexivity].
  erewrite run_step; [|unfold step; simpl; rewrite lookup_insert_eq; simpl; rewrite Ee, He; simpl;
    rewrite Hd; reflexivity].
  erewrite run_blocked; [|simpl; by rewrite lookup_insert_eq|done].
  unfold refines_FetchAdd. destruct (String.eqb_spec (c_op c) ""); [done|].
  rewrite (abs_cache_entries _ _ _ _ _ Hi He Hd). simpl. unfold abs_counter, abs_cache. simpl.
  rewrite Ec, Ei, Ee. split_and!; try done.
  - by rewrite lookup_insert_eq.
  - intros _. rewrite Hi. simpl. rewrite He. simpl. by rewrite Hd.
  - unfold settled in *. simpl in *. by rewrite Ei.
Qed.

(** A miss: the entry is made, and its [Once] advances the counter. *)
Lemma solo_fresh s s1 t c l n :
  settled s -> c_op c <> "" -> threads s1 !! t = Some (RegIdem c l) ->
  counters s1 = counters s -> idem s1 = idem s -> entries s1 = entries s ->
  settled (set_idem (fun _ => idem s) (unlock l s1)) ->
  idem s !! (c_key c, c_op c) = None ->
  refines_FetchAdd s (run initialValue (replicate (5 + n) (t, None)) s1) t c.
Proof.
  intros Hset Hne Hp Ec Ei Ee Hset1 Hi.
  change (replicate (5 + n) (t, @None string))
    with ((t, @None string) :: (t, None) :: (t, None) :: (t, None) :: (t, None) :: replicate n (t, None)).
  set (k := (c_key c, c_op c)) in *. set (e := length (entries s)).
  assert (Hnew : forall o, (entries s ++ [mkEntry k o]) !! e = Some (mkEntry k o))
    by (intros; by rewrite lookup_app_r, Nat.sub_diag by (unfold e; lia)).
  assert (Halt : forall f o, alter f e (entries s ++ [mkEntry k o]) = entries s ++ [f (mkEntry k o)]).
  { intros. rewrite alter_app_r_alt by (unfold e; lia). by rewrite Nat.sub_diag. }
  erewrite run_step; [|unfold step; rewrite Hp; simpl; unfold makeIdemKey; fold k; rewrite Ei, Ee, Hi; reflexivity].
  erewrite run_step; [|unfold step; simpl; rewrite lookup_insert_eq; simpl; reflexivity].
  erewrite run_step; [|unfold step; simpl; rewrite lookup_insert_eq; simpl; fold e; rewrite Ee, Hnew; simpl;
    reflexivity].
  match goal with |- context [run _ (_ :: _ :: _) ?x] => set (s2 := x) end.
  assert (Hset2 : forall k x, counters s2 !! k = Some x -> u64 x = x).
  { unfold s2. simpl. rewrite Ec. apply Hset. }
  destruct (counterFor_frame initialValue (c_key c) s2) as (F1&F2&F3&F4&F5).
  destruct (counterFor_abs s2 (c_key c)) as [A1 A2].
  assert (Habs : abs_counter s2 (c_key c) = abs_counter s (c_key c))
    by (unfold abs_counter, s2; simpl; by rewrite Ec).
  erewrite run_step; [|unfold step; unfold s2 at 1; simpl; rewrite lookup_insert_eq; simpl; reflexivity].
  erewrite run_step; [|unfold step; simpl; rewrite lookup_insert_eq; simpl; rewrite A1, Habs; simpl;
    rewrite u64_add_sub, abs_counter_u64 by done; reflexivity].
  erewrite run_blocked; [|simpl; by rewrite lookup_insert_eq|done].
  unfold refines_FetchAdd. destruct (String.eqb_spec (c_op c) ""); [done|].
  assert (abs_cache s (c_key c, c_op c) = None) as ->
    by (unfold abs_cache; fold k; by rewrite Hi).
  assert (Hid : idem s2 = <[k:=e]> (idem s)) by (unfold s2; simpl; by rewrite Ei).
  assert (Hen : alter (fun en => mkEntry (en_key en) (Done (abs_counter s (c_key c)))) e (entries s2)
    = entries s ++ [mkEntry k (Done (abs_counter s (c_key c)))])
    by (unfold s2; simpl; by rewrite ?Ee, !Halt).
  simpl. split_and!.
  - by rewrite lookup_insert_eq.
  - unfold abs_counter at 1. simpl. by rewrite lookup_insert_eq.
  - intros k' Hk. unfold abs_counter. simpl. rewrite lookup_insert_ne, A2 by done.
    unfold s2. simpl. by rewrite Ec.
  - intros _. fold k. unfold abs_cache. simpl. rewrite F2, F5, Hid, Hen, lookup_insert_eq. simpl.
    by rewrite Hnew.
  - intros k' Hk. unfold abs_cache. simpl. rewrite F2, F5, Hid, Hen, lookup_insert_ne by done.
    destruct (idem s !! k') as [e'|] eqn:E; [simpl|done].
    destruct (proj1 (proj2 Hset) _ _ E) as (en&v&He&Hd). by rewrite (lookup_app_l_Some _ _ _ _ He), He.
  - split_and!; simpl.
    + rewrite F1, F3. unfold s2. simpl. apply Hset1.
    + rewrite F2, F5, Hid, Hen. intros k' e' [[<- <-]|[_ Hi']]%lookup_insert_Some.
      * rewrite Hnew. eauto.
      * destruct (proj1 (proj2 Hset) _ _ Hi') as (en&v&He&Hd).
        rewrite (lookup_app_l_Some _ _ _ _ He). eauto.
    + intros k' x [[<- <-]|[Hk Hx]]%lookup_insert_Some; [apply u64_idem|].
      rewrite A2 in Hx by done. eauto.
Qed.

(** C36. Refinement: a [FetchAdd] that runs without interference returns after
    at most ten steps, with the cached answer and untouched counter when the
    pair was answered before, and otherwise with the counter's value, which it
    advances by [delta] modulo 2^64 and caches (unless the operation is
    empty); nothing else changes and the store is settled again. *)
Theorem FetchAdd_refines s t c :
  settled s -> threads s !! t = Some (FetchAddStart c) ->
  refines_FetchAdd s (run initialValue (replicate 10 (t, None)) s) t c.
Proof.
  intros Hset Hp. destruct (decide (c_op c = "")) as [Hop|Hop].
  - by apply (solo_plain s t c 7).
  - destruct (solo_register s t c 5 Hset Hp Hop) as (s1&l&Hr&Ht&Ec&Ei&Ee&Hs1&_).
    change 10%nat with (5 + 5)%nat. rewrite Hr.
    destruct (idem s !! (c_key c, c_op c)) as [e|] eqn:E.
    + by eapply (solo_cached s s1 t c l 2).
    + by eapply (solo_fresh s s1 t c l 0).
Qed.
End Solo.

Lemma FetchAdd_refines_witness :
  refines_FetchAdd Trace.init (newSharedStateStore Trace.retry_threads)
    (run Trace.init (replicate 10 (0%nat, None)) (newSharedStateStore Trace.retry_threads)) 0
    (mkCall "client" 1 "req" 0).
Proof. apply FetchAdd_refines; [repeat split; done|reflexivity]. Defined.

(** ** The advancer of a pool worker: [workerplugin/remote_advancer.go] *)

(** [RemoteAdvancer.Advance]; [fetchAdd] is the remote call with key and delta
    ([None] when there is no client), [Err] its transport error. *)
Definition RemoteAdvance {Err : Type} (noClient : Err)
    (fetchAdd : option (string -> Z -> Z + Err)) (clientName : string) (childCount : Z) : Z + Err :=
  if childCount <=? 0 then inl 0
  else match fetchAdd with
       | None => inr noClient
       | Some f => match f clientName 1 with
                   | inr err => inr err
                   | inl previous => inl (i64 (u64 previous mod u64 childCount))
                   end
       end.

Lemma RemoteAdvance_range {Err : Type} noClient (f : option (string -> Z -> Z + Err)) name n i :
  0 < n <= MaxInt64 -> RemoteAdvance noClient f name n = inl i -> 0 <= i < n.
Proof.
  unfold RemoteAdvance, MaxInt64. intros Hn H. replace (n <=? 0) with false in H by lia.
  destruct f as [f|]; [|done]. destruct (f name 1) as [p|e]; simplify_eq.
  rewrite (u64_id n) by lia. pose proof (Z.mod_pos_bound (u64 p) n).
  rewrite i64_id; unfold MinInt64, MaxInt64; lia.
Qed.
