(* ===== verification/RoundRobin.v ===== *)
(** * RoundRobin: [bamlutils/buildrequest/roundrobin]

    The in-process [Coordinator], the inspection of runtime overrides, and
    [Resolve], which unwraps nested round-robin strategies to a leaf client.

    The resolver talks to an [Advancer] interface and to a source of random
    numbers.  Both act on a world [W]; what their implementations promise is
    stated as the classes [LawfulAdvancer] and [Random]. *)

From S2P Require Import Prelude GoValue StrategyParse Registry SharedState.

Local Open Scope Z_scope.

(** ** Providers *)

Definition CanonicalProvider : string := "baml-roundrobin".

(** [IsRoundRobinProvider]. *)
Definition IsRoundRobinProvider (provider : string) : bool :=
  (provider =s "baml-roundrobin") || (provider =s "baml-round-robin") || (provider =s "round-robin").

(** [NormalizeProvider]. *)
Definition NormalizeProvider (provider : string) : string :=
  if IsRoundRobinProvider provider then CanonicalProvider else provider.

(** ** Errors

    [ErrSelect] is the wrapping with [%w] of the selection errors, so
    [errors.Is] sees through it. *)

Inductive RRErr :=
  | ErrInvalidStrategyOverride
  | ErrInvalidStartOverride
  | ErrCycle (client : string)
  | ErrNoChildren (client : string)
  | ErrSelect (client : string) (inner : RRErr)
  | ErrIndexRange (idx count : Z) (client : string)
  | ErrAdvancer (msg : string)
  | ErrOutOfFuel.

#[export] Instance RRErr_eq_dec : EqDecision RRErr.
Proof. solve_decision. Defined.

(** [errors.Is(err, target)] for the sentinels. *)
Fixpoint errors_Is (err target : RRErr) : bool :=
  bool_decide (err = target) || match err with ErrSelect _ e => errors_Is e target | _ => false end.

(** ** Interfaces *)

(** [Advancer]: the next child index of a static client. *)
Definition Advancer (W : Type) : Type := W -> string -> Z -> W * (Z + RRErr).

(** Every shipped advancer returns an index in range. *)
Class LawfulAdvancer {W} (a : Advancer W) : Prop :=
  advancer_range : forall w name n w' i, 0 < n <= MaxInt64 -> a w name n = (w', inl i) -> 0 <= i < n.

(** [rand.IntN], documented to return a number in [0,n). *)
Class Random (W : Type) := {
  IntN : W -> Z -> W * Z;
  IntN_range : forall w n, 0 < n -> 0 <= snd (IntN w n) < n
}.

(** [AdvanceDynamic]. *)
Definition AdvanceDynamic {W} `{Random W} (w : W) (childCount : Z) : W * Z :=
  if childCount <=? 0 then (w, 0) else IntN w childCount.

(** ** The coordinator *)

(** [Coordinator]; [seeds] is the source of the random initial values. *)
Record Coordinator := mkCoordinator {
  co_counters : gmap string Z;
  co_starts : gmap string Z;
  co_seed : nat -> Z;
  co_used : nat
}.

(** [NewCoordinatorWithStarts]. *)
Definition NewCoordinatorWithStarts (seed : nat -> Z) (starts : gmap string Z) : Coordinator :=
  mkCoordinator ∅ (u64 <$> starts) seed 0.

(** [Coordinator.counterFor]: the coordinator with the counter, and its value.
    A random seed is a [uint32]. *)
Definition coordinator_counterFor (c : Coordinator) (clientName : string) : Coordinator * Z :=
  match co_counters c !! clientName with
  | Some v => (c, v)
  | None =>
      match co_starts c !! clientName with
      | Some seed => (mkCoordinator (<[clientName:=seed]> (co_counters c)) (co_starts c) (co_seed c) (co_used c), seed)
      | None =>
          let seed := co_seed c (co_used c) mod 2 ^ 32 in
          (mkCoordinator (<[clientName:=seed]> (co_counters c)) (co_starts c) (co_seed c) (S (co_used c)), seed)
      end
  end.

(** [Coordinator.Advance]. *)
Definition coordinator_Advance (c : Coordinator) (clientName : string) (childCount : Z)
    : Coordinator * (Z + RRErr) :=
  if childCount <=? 0 then (c, inl 0)
  else
    let '(c, v) := coordinator_counterFor c clientName in
    let v' := u64 (v + 1) in
    let next := u64 (v' - 1) in
    (mkCoordinator (<[clientName:=v']> (co_counters c)) (co_starts c) (co_seed c) (co_used c),
     inl (i64 (next mod u64 childCount))).

(** ** Runtime overrides *)

(** The outcome of inspecting an optional override. *)
Inductive Inspect (A : Type) := Absent | Invalid | Valid (a : A).
Arguments Absent {A}.
Arguments Invalid {A}.
Arguments Valid {A} a.

(** [inspectStartOverride]. *)
Definition inspectStartOverride (opts : option (gmap string goval)) : Inspect Z :=
  match opts with
  | None => Absent
  | Some m =>
      match m !! "start" with
      | None => Absent
      | Some (GInt _ asInt64) =>
          if (asInt64 <? MinInt32) || (MaxInt32 <? asInt64) then Invalid else Valid asInt64
      | Some (GFloat v) =>
          if float_notfinite v then Invalid
          else match float_integer v with
               | None => Invalid
               | Some z => if (z <? MinInt32) || (MaxInt32 <? z) then Invalid else Valid z
               end
      | Some _ => Invalid
      end
  end.

(** [normalizeStartIndex]. *)
Definition normalizeStartIndex (start childCount : Z) : Z := i64 (u64 start mod u64 childCount).

(** [isDynamicRRClient]. *)
Definition isDynamicRRClient (reg : option ClientRegistry) (clientName : string) : bool :=
  bool_decide (is_Some (findRuntimeClient reg clientName)).

(** [resolveClientProvider]. *)
Definition resolveClientProvider (reg : option ClientRegistry) (clientName : string)
    (introspected : gmap string string) : string :=
  match find_present_client reg clientName with
  | Some c => cp_Provider c
  | None => map_str introspected clientName
  end.

(** [InspectStrategyOverride]. *)
Definition InspectStrategyOverride (reg : option ClientRegistry) (clientName : string)
    : Inspect (list string) :=
  match findRuntimeClient reg clientName with
  | None => Absent
  | Some rc =>
      match option_key rc "strategy" with
      | None => Absent
      | Some raw =>
          match ParseStrategyOption raw with
          | [] => Invalid
          | parsed => Valid parsed
          end
      end
  end.

(** ** Resolution *)

(** [ResolveInput] without the advancer. *)
Record ResolveInput := mkInput {
  ri_ClientName : string;
  ri_Registry : option ClientRegistry;
  ri_FallbackChains : gmap string (list string);
  ri_ClientProviders : gmap string string
}.

(** [Result]. *)
Record Result := mkResult { res_Selected : string; res_Info : option RoundRobinInfo }.

(** Whether the runtime entry types a round-robin provider without a strategy. *)
Definition explicitRRWithoutStrategy (reg : option ClientRegistry) (current : string) : bool :=
  match findRuntimeClient reg current, InspectStrategyOverride reg current with
  | Some rc, Absent => IsProviderPresent rc && IsRoundRobinProvider (cp_Provider rc)
  | _, _ => false
  end.

(** The child list of a round-robin client, as [Resolve] determines it. *)
Definition rrChain (in_ : ResolveInput) (current : string) : list string + RRErr :=
  match InspectStrategyOverride (ri_Registry in_) current with
  | Invalid => inr ErrInvalidStrategyOverride
  | Valid chain => match chain with [] => inr (ErrNoChildren current) | _ => inl chain end
  | Absent =>
      if explicitRRWithoutStrategy (ri_Registry in_) current then inr ErrInvalidStrategyOverride
      else match default [] (ri_FallbackChains in_ !! current) with
           | [] => inr (ErrNoChildren current)
           | chain => inl chain
           end
  end.

Section Resolve.
Context {W : Type} `{Random W}.

(** [selectIndex]; a nil advancer is [None]. *)
Definition selectIndex (a : option (Advancer W)) (reg : option ClientRegistry) (clientName : string)
    (childCount : Z) (w : W) : W * (Z + RRErr) :=
  match findRuntimeClient reg clientName with
  | Some rc =>
      match inspectStartOverride (cp_Options rc) with
      | Invalid => (w, inr ErrInvalidStartOverride)
      | Valid start => (w, inl (normalizeStartIndex start childCount))
      | Absent => let '(w, i) := AdvanceDynamic w childCount in (w, inl i)
      end
  | None =>
      match a with
      | None => let '(w, i) := AdvanceDynamic w childCount in (w, inl i)
      | Some advance => advance w clientName childCount
      end
  end.

(** The loop of [Resolve]. *)
Fixpoint Resolve_loop (fuel : nat) (a : option (Advancer W)) (in_ : ResolveInput)
    (seen : gset string) (current : string) (outerInfo : option RoundRobinInfo) (w : W)
    : W * (Result + RRErr) :=
  match fuel with
  | O => (w, inr ErrOutOfFuel)
  | S fuel' =>
      if decide (current ∈ seen) then (w, inr (ErrCycle current))
      else
        let seen := {[current]} ∪ seen in
        let provider := resolveClientProvider (ri_Registry in_) current (ri_ClientProviders in_) in
        if negb (IsRoundRobinProvider provider) then (w, inl (mkResult current outerInfo))
        else
          match rrChain in_ current with
          | inr e => (w, inr e)
          | inl chain =>
              let n := Z.of_nat (length chain) in
              match selectIndex a (ri_Registry in_) current n w with
              | (w, inr e) => (w, inr (ErrSelect current e))
              | (w, inl idx) =>
                  if (idx <? 0) || (n <=? idx) then (w, inr (ErrIndexRange idx n current))
                  else
                    let selected := default "" (chain !! Z.to_nat idx) in
                    let outerInfo :=
                      match outerInfo with
                      | None => Some (mkRRInfo current chain idx selected)
                      | Some _ => outerInfo
                      end in
                    Resolve_loop fuel' a in_ seen selected outerInfo w
              end
          end
  end.

(** All names the loop can reach: a client and the members of all chains. *)
Definition strategy_names (reg : option ClientRegistry) : list string :=
  match reg with
  | None => []
  | Some r => oc ← reg_Clients r;
              match oc with
              | None => []
              | Some c => from_option ParseStrategyOption [] (option_key c "strategy")
              end
  end.
Definition universe (in_ : ResolveInput) : list string :=
  ri_ClientName in_ :: mjoin (snd <$> map_to_list (ri_FallbackChains in_))
    ++ strategy_names (ri_Registry in_).

(** [Resolve]. *)
Definition Resolve (a : option (Advancer W)) (in_ : ResolveInput) (w : W) : W * (Result + RRErr) :=
  if ri_ClientName in_ =s "" then (w, inl (mkResult "" None))
  else Resolve_loop (S (length (universe in_))) a in_ ∅ (ri_ClientName in_) None w.
End Resolve.

(** ** Implementations of the interface *)

#[export] Instance coordinator_lawful : LawfulAdvancer coordinator_Advance.
Proof.
  intros c name n c' i Hn H. unfold coordinator_Advance, MaxInt64 in *.
  replace (n <=? 0) with false in H by lia. destruct (coordinator_counterFor c name) as [c1 v].
  simplify_eq. rewrite (u64_id n) by lia. pose proof (Z.mod_pos_bound (u64 (u64 (v + 1) - 1)) n).
  rewrite i64_id; unfold MinInt64, MaxInt64; lia.
Qed.

(** A pool worker's advancer over the remote call [fetchAdd]. *)
Definition remoteAdvancer {W} (fetchAdd : W -> string -> Z -> W * (Z + RRErr)) : Advancer W :=
  fun w name n =>
    let '(w', r) := fetchAdd w name 1 in
    if n <=? 0 then (w, inl 0)
    else (w', RemoteAdvance (ErrAdvancer "no client") (Some (fun _ _ => r)) name n).

#[export] Instance remote_lawful {W} (fetchAdd : W -> string -> Z -> W * (Z + RRErr)) :
  LawfulAdvancer (remoteAdvancer fetchAdd).
Proof.
  intros w name n w' i Hn Hr. unfold remoteAdvancer in Hr. destruct (fetchAdd w name 1) as [w1 r].
  replace (n <=? 0) with false in Hr by lia. injection Hr as _ Hr. by eapply RemoteAdvance_range.
Qed.

(** ** Facts about the resolver *)

Lemma find_client_reg reg name c :
  findRuntimeClient reg name = Some c -> exists r, reg = Some r /\ Some c ∈ reg_Clients r /\ cp_Name c = name.
Proof. destruct reg as [r|]; simpl; [|done]. intros [? ?]%find_client_some. eauto. Qed.

Lemma rrChain_universe in_ c chain x :
  rrChain in_ c = inl chain -> x ∈ chain -> x ∈ universe in_.
Proof.
  unfold rrChain, universe. intros H Hx. apply elem_of_cons. right. apply elem_of_app.
  destruct (InspectStrategyOverride _ _) as [| |ch] eqn:E.
  - left. case_hyp H; [done|]. destruct (ri_FallbackChains in_ !! c) as [ch|] eqn:El; [|done].
    simpl in H. destruct ch; simplify_eq. apply list_elem_of_join. eexists. split; [done|].
    apply list_elem_of_fmap. exists (c, s :: ch). split; [done|]. by apply elem_of_map_to_list.
  - done.
  - right. destruct ch; simplify_eq. unfold InspectStrategyOverride in E.
    destruct (findRuntimeClient _ c) as [rc|] eqn:Ef; [|done].
    destruct (option_key rc "strategy") as [raw|] eqn:Eo; [|done].
    apply find_client_reg in Ef as (r&->&Hin&_). simpl. apply list_elem_of_bind.
    exists (Some rc). split; [|done]. rewrite Eo. simpl. destruct (ParseStrategyOption raw); simplify_eq. done.
Qed.

Lemma rrChain_nonempty in_ c chain : rrChain in_ c = inl chain -> chain <> [].
Proof. unfold rrChain. intros H ->. repeat case_hyp H; simplify_eq. Qed.

(** The round-robin edges and their reachability. *)
Definition rrClient (in_ : ResolveInput) (c : string) : bool :=
  IsRoundRobinProvider (resolveClientProvider (ri_Registry in_) c (ri_ClientProviders in_)).

Inductive rr_path (in_ : ResolveInput) : string -> string -> Prop :=
  | rr_here c : rr_path in_ c c
  | rr_step c chain x y :
      rrClient in_ c = true -> rrChain in_ c = inl chain -> x ∈ chain ->
      rr_path in_ x y -> rr_path in_ c y.

Lemma rr_path_trans in_ a b c : rr_path in_ a b -> rr_path in_ b c -> rr_path in_ a c.
Proof. induction 1; eauto using rr_path. Qed.

Lemma rr_path_snoc in_ a b chain x :
  rr_path in_ a b -> rrClient in_ b = true -> rrChain in_ b = inl chain -> x ∈ chain -> rr_path in_ a x.
Proof. intros. eapply rr_path_trans; [done|]. eauto using rr_path. Qed.

Section Facts.
Context {W : Type} `{Random W}.
Implicit Types (w : W).

Lemma size_universe in_ (seen : gset string) :
  (forall x, x ∈ seen -> x ∈ universe in_) -> (size seen <= length (universe in_))%nat.
Proof.
  intros Hs. rewrite <- (list_to_set_elements_L seen) at 1.
  rewrite size_list_to_set by apply NoDup_elements.
  apply NoDup_incl_length; [apply NoDup_elements|]. intros x Hx%elem_of_elements. auto.
Qed.

(** One unfolding of the loop, at a client not seen before. *)
Lemma Resolve_loop_total fuel : forall a in_ seen current outer w,
  (forall x, x ∈ seen -> x ∈ universe in_) -> current ∈ universe in_ ->
  (length (universe in_) < fuel + size seen)%nat ->
  snd (Resolve_loop fuel a in_ seen current outer w) <> inr ErrOutOfFuel.
Proof.
  induction fuel as [|fuel IH]; intros a in_ seen current outer w Hs Hc Hf; cbn [Resolve_loop].
  { pose proof (size_universe in_ seen Hs). lia. }
  case_decide as Hd; [done|]. case_goal; [done|].
  destruct (rrChain in_ current) as [chain|e] eqn:Ec.
  2: { simpl. unfold rrChain in Ec. repeat case_hyp Ec; by simplify_eq. }
  destruct (selectIndex a _ current _ w) as [w' [idx|e]] eqn:Es; [|done].
  destruct ((idx <? 0) || _) eqn:Er; [done|].
  apply IH.
  - intros x [->%elem_of_singleton|Hx]%elem_of_union; auto.
  - destruct (lookup_lt_is_Some_2 chain (Z.to_nat idx)) as [x Hx]; [lia|]. rewrite Hx. simpl.
    eapply rrChain_universe; [done|]. by eapply list_elem_of_lookup_2.
  - rewrite size_union by set_solver. rewrite size_singleton. lia.
Qed.

(** More fuel does not change a result. *)
Lemma Resolve_loop_mono fuel : forall fuel' a in_ seen current outer w w' r,
  Resolve_loop fuel a in_ seen current outer w = (w', r) -> r <> inr ErrOutOfFuel ->
  (fuel <= fuel')%nat -> Resolve_loop fuel' a in_ seen current outer w = (w', r).
Proof.
  induction fuel as [|fuel IH]; intros [|fuel'] a in_ seen current outer w w' r Hr Hne Hle;
    cbn [Resolve_loop] in *; try by simplify_eq.
  - lia.
  - repeat case_goal; simplify_eq; try done; eapply IH; eauto; lia.
Qed.

(** Termination: [Resolve] always comes to an end with a result or one of
    its errors, also on cyclic and on self-referential strategy graphs (the
    number of iterations is bounded by the number of client names that occur
    in the input). *)
Theorem Resolve_terminates a in_ w : snd (Resolve a in_ w) <> inr ErrOutOfFuel.
Proof.
  unfold Resolve. case_goal; [done|]. apply Resolve_loop_total.
  - set_solver.
  - unfold universe. constructor.
  - rewrite size_empty. lia.
Qed.

(** What the metadata of the outermost decision says. *)
Definition info_ok (in_ : ResolveInput) (top : string) (i : RoundRobinInfo) : Prop :=
  rr_Name i = top /\ rrClient in_ top = true /\ rrChain in_ top = inl (rr_Children i)
  /\ 0 <= rr_Index i /\ rr_Children i !! Z.to_nat (rr_Index i) = Some (rr_Selected i).

Lemma Resolve_loop_sound fuel : forall a in_ seen current outer w w' r top,
  Resolve_loop fuel a in_ seen current outer w = (w', inl r) ->
  match outer with
  | None => current = top
  | Some i => info_ok in_ top i /\ rr_path in_ (rr_Selected i) current
  end ->
  rrClient in_ (res_Selected r) = false
  /\ match res_Info r with
     | None => res_Selected r = top
     | Some i => info_ok in_ top i /\ rr_path in_ (rr_Selected i) (res_Selected r)
     end.
Proof.
  induction fuel as [|fuel IH]; intros a in_ seen current outer w w' r top Hr Ho;
    cbn [Resolve_loop] in Hr; [done|].
  case_decide as Hd; [done|].
  destruct (negb _) eqn:Ep; [simplify_eq; apply negb_true_iff in Ep; done|]. apply negb_false_iff in Ep.
  destruct (rrChain in_ current) as [chain|e] eqn:Ec; [|done].
  destruct (selectIndex a _ current _ w) as [w1 [idx|e]] eqn:Es; [|done].
  destruct ((idx <? 0) || _) eqn:Er; [done|].
  destruct (lookup_lt_is_Some_2 chain (Z.to_nat idx)) as [x Hx]; [lia|]. rewrite Hx in Hr. simpl in Hr.
  assert (x ∈ chain) as Hin by (by eapply list_elem_of_lookup_2).
  eapply IH in Hr; [exact Hr|]. destruct outer as [i|]; simpl.
  - destruct Ho as [? ?]. split; [done|]. by eapply rr_path_snoc.
  - subst. split; [|constructor]. split_and!; simpl; [done..|lia|done].
Qed.

(** What a successful resolution returns. *)
Lemma Resolve_leaf a in_ w w' r :
  ri_ClientName in_ <> "" -> Resolve a in_ w = (w', inl r) ->
  rrClient in_ (res_Selected r) = false
  /\ match res_Info r with
     | None => res_Selected r = ri_ClientName in_
     | Some i => info_ok in_ (ri_ClientName in_) i /\ rr_path in_ (rr_Selected i) (res_Selected r)
     end.
Proof.
  unfold Resolve. intros Hne. apply String.eqb_neq in Hne. rewrite Hne. intros Hr.
  by eapply Resolve_loop_sound.
Qed.

(** Soundness: on success the selected client is not itself a round-robin
    client; when a rotation took place, the reported decision is that of the
    requested client (its name, its effective child list, the index and the
    child at that index), and the selected client is reached from that child
    through round-robin edges; otherwise the requested client is returned. *)
Theorem Resolve_sound a in_ w w' r :
  ri_ClientName in_ <> "" -> Resolve a in_ w = (w', inl r) ->
  rrClient in_ (res_Selected r) = false
  /\ match res_Info r with
     | None => res_Selected r = ri_ClientName in_
     | Some i => info_ok in_ (ri_ClientName in_) i /\ rr_path in_ (rr_Selected i) (res_Selected r)
     end.
Proof. apply Resolve_leaf. Qed.
End Facts.

Section Complete.
Context {W : Type} `{Random W}.
Variable a : Advancer W.
Context `{!LawfulAdvancer a}.
Variable in_ : ResolveInput.

(** A transport that does not fail. *)
Hypothesis advance_ok : forall w name n, exists w' i, a w name n = (w', inl i).
(** Every chain fits an [int]. *)
Hypothesis chain_fits : forall c chain, rrChain in_ c = inl chain -> Z.of_nat (length chain) <= MaxInt64.

Lemma normalizeStartIndex_range start n : 0 < n <= MaxInt64 -> 0 <= normalizeStartIndex start n < n.
Proof.
  unfold normalizeStartIndex, MaxInt64. intros Hn. rewrite (u64_id n) by lia.
  pose proof (Z.mod_pos_bound (u64 start) n). rewrite i64_id; unfold MinInt64, MaxInt64; lia.
Qed.

Lemma selectIndex_range reg c n w w' i :
  0 < n <= MaxInt64 -> selectIndex (Some a) reg c n w = (w', inl i) -> 0 <= i < n.
Proof.
  intros Hn Hs. unfold selectIndex, AdvanceDynamic in Hs. replace (n <=? 0) with false in Hs by lia.
  pose proof (IntN_range w n ltac:(lia)) as Hr. destruct (IntN w n) as [w1 j].
  destruct (findRuntimeClient reg c) as [rc|]; [|by eapply advancer_range].
  destruct (inspectStartOverride _); simplify_eq/=; [done|]. by apply normalizeStartIndex_range.
Qed.

(** Whether the client's runtime entry carries an invalid [start]. *)
Definition invalidStart (c : string) : bool :=
  match findRuntimeClient (ri_Registry in_) c with
  | Some rc => match inspectStartOverride (cp_Options rc) with Invalid => true | _ => false end
  | None => false
  end.

Lemma selectIndex_total c n w :
  0 < n -> invalidStart c = false -> exists w' i, selectIndex (Some a) (ri_Registry in_) c n w = (w', inl i).
Proof.
  unfold invalidStart, selectIndex. intros Hn Hi. destruct (findRuntimeClient _ c) as [rc|]; [|by apply advance_ok].
  destruct (inspectStartOverride _); [|done|by eauto]. destruct (AdvanceDynamic w n). eauto.
Qed.

(** A well-formed strategy graph: acyclic (edges decrease [rank]), and every
    round-robin client reachable from [top] has children and no invalid
    override. *)
Definition wf_graph (rank : string -> nat) (top : string) : Prop :=
  forall c, rr_path in_ top c -> rrClient in_ c = true ->
    invalidStart c = false
    /\ exists chain, rrChain in_ c = inl chain /\ forall x, x ∈ chain -> (rank x < rank c)%nat.

Lemma Resolve_loop_complete rank top fuel : forall seen current outer w,
  wf_graph rank top -> rr_path in_ top current ->
  (forall x, x ∈ seen -> (rank current < rank x)%nat) -> (rank current < fuel)%nat ->
  exists w' r, Resolve_loop fuel (Some a) in_ seen current outer w = (w', inl r).
Proof.
  induction fuel as [|fuel IH]; intros seen current outer w Hwf Hp Hs Hf; [lia|]. cbn [Resolve_loop].
  case_decide as Hd; [apply Hs in Hd; lia|].
  destruct (negb _) eqn:Ep; [by eauto|]. apply negb_false_iff in Ep.
  destruct (Hwf _ Hp Ep) as (Hi&chain&Hc&Hr). rewrite Hc.
  assert (Hlen : 0 < Z.of_nat (length chain) <= MaxInt64).
  { pose proof (rrChain_nonempty _ _ _ Hc). pose proof (chain_fits _ _ Hc). destruct chain; [done|simpl in *; lia]. }
  destruct (selectIndex_total current (Z.of_nat (length chain)) w) as (w1&idx&Hsel); [lia|done|].
  rewrite Hsel. apply selectIndex_range in Hsel; [|done].
  replace ((idx <? 0) || _) with false by lia.
  destruct (lookup_lt_is_Some_2 chain (Z.to_nat idx)) as [x Hx]; [lia|]. rewrite Hx. simpl.
  assert (x ∈ chain) as Hin by (by eapply list_elem_of_lookup_2). pose proof (Hr _ Hin).
  apply IH; [done|by eapply rr_path_snoc| |lia].
  intros y [->%elem_of_singleton|Hy%Hs]%elem_of_union; lia.
Qed.

(** Completeness: on an acyclic strategy graph without invalid overrides
    and with an advancer that keeps its contract, [Resolve] succeeds; none of
    its errors, in particular neither the cycle report nor the index guard,
    is a false alarm. *)
Theorem Resolve_complete rank w :
  wf_graph rank (ri_ClientName in_) ->
  exists w' r, Resolve (Some a) in_ w = (w', inl r).
Proof.
  intros Hwf. unfold Resolve. case_goal; [by eauto|].
  set (f1 := S (rank (ri_ClientName in_))). set (f2 := S (length (universe in_))).
  destruct (Resolve_loop_complete rank (ri_ClientName in_) f1 ∅ (ri_ClientName in_) None w)
    as (w1&r&Hr); [done|constructor|set_solver|unfold f1; lia|].
  pose proof (Resolve_loop_total f2 (Some a) in_ ∅ (ri_ClientName in_) None w) as Ht.
  destruct (Resolve_loop f2 _ _ _ _ _ w) as [w2 r2] eqn:E2. simpl in Ht.
  eapply (Resolve_loop_mono _ (f1 + f2)) in Hr; [|done|lia].
  eapply (Resolve_loop_mono _ (f1 + f2)) in E2; [| |lia].
  - rewrite E2 in Hr. injection Hr as -> ->. eauto.
  - apply Ht; [set_solver|unfold universe; constructor|]. unfold f2. lia.
Qed.
End Complete.

(** ** The rotation *)

(** [k] successive advances of a client, with the indices they return. *)
Fixpoint rotate (k : nat) (c : Coordinator) (name : string) (n : Z) : list (Z + RRErr) :=
  match k with
  | O => []
  | S k' => let '(c', r) := coordinator_Advance c name n in r :: rotate k' c' name n
  end.

Lemma coordinator_Advance_value c name n :
  0 < n <= MaxInt64 ->
  let v := snd (coordinator_counterFor c name) in
  let '(c', r) := coordinator_Advance c name n in
  r = inl (u64 v mod n) /\ snd (coordinator_counterFor c' name) = u64 (v + 1).
Proof.
  unfold coordinator_Advance, MaxInt64. intros Hn. replace (n <=? 0) with false by lia.
  destruct (coordinator_counterFor c name) as [c1 v]. simpl. split.
  - rewrite u64_add_sub, (u64_id n) by lia. f_equal. pose proof (Z.mod_pos_bound (u64 v) n).
    apply i64_id. unfold MinInt64, MaxInt64. lia.
  - unfold coordinator_counterFor. simpl. by rewrite lookup_insert_eq.
Qed.

Lemma rotate_spec k : forall c name n,
  0 < n <= MaxInt64 ->
  let v := snd (coordinator_counterFor c name) in
  rotate k c name n = (fun i => inl (u64 (v + Z.of_nat i) mod n)) <$> seq 0 k.
Proof.
  induction k as [|k IH]; intros c name n Hn; [done|]. cbn [rotate].
  pose proof (coordinator_Advance_value c name n Hn) as Ha.
  destruct (coordinator_Advance c name n) as [c' r]. destruct Ha as [-> Hv].
  rewrite IH, Hv by done. simpl. f_equal; [by rewrite Z.add_0_r|].
  rewrite <- fmap_S_seq, <- list_fmap_compose. apply list_fmap_ext. intros _ i _. simpl.
  rewrite u64_add_l. do 3 f_equal. lia.
Qed.

(** The residues of [n] consecutive numbers are those of 0, ..., n-1. *)
Lemma consecutive_residues (v n : Z) :
  0 < n ->
  (fun i => (v + Z.of_nat i) mod n) <$> seq 0 (Z.to_nat n) ≡ₚ Z.of_nat <$> seq 0 (Z.to_nat n).
Proof.
  intros Hn. apply NoDup_Permutation.
  - apply NoDup_fmap_2_strong; [|apply NoDup_seq].
    intros i j Hi%elem_of_seq Hj%elem_of_seq E.
    assert (Hd : (Z.of_nat i - Z.of_nat j) mod n = 0).
    { replace (Z.of_nat i - Z.of_nat j) with ((v + Z.of_nat i) - (v + Z.of_nat j)) by lia.
      rewrite Zminus_mod, E, Z.sub_diag. done. }
    apply Z.mod_divide in Hd as [q Hq]; [|lia].
    assert (q = 0) by nia. lia.
  - apply NoDup_fmap_2; [apply _|apply NoDup_seq].
  - intros x. rewrite !list_elem_of_fmap. split.
    + intros (i&->&_). pose proof (Z.mod_pos_bound (v + Z.of_nat i) n).
      exists (Z.to_nat ((v + Z.of_nat i) mod n)). rewrite elem_of_seq. lia.
    + intros (i&->&Hi%elem_of_seq). pose proof (Z.mod_pos_bound (Z.of_nat i - v) n Hn).
      exists (Z.to_nat ((Z.of_nat i - v) mod n)). rewrite elem_of_seq, Z2Nat.id by lia. split; [|lia].
      rewrite Zplus_mod_idemp_r. replace (v + (Z.of_nat i - v)) with (Z.of_nat i) by lia.
      rewrite Z.mod_small; lia.
Qed.

(** Fairness of the rotation: as long as the counter does not wrap around
    2^64, any [n] successive advances of a client with [n] children select
    every child exactly once. *)
Theorem rotation_fair c name n :
  0 < n <= MaxInt64 ->
  0 <= snd (coordinator_counterFor c name) -> snd (coordinator_counterFor c name) + n <= 2 ^ 64 ->
  rotate (Z.to_nat n) c name n ≡ₚ (fun i => inl (Z.of_nat i)) <$> seq 0 (Z.to_nat n).
Proof.
  intros Hn H0 H1. rewrite rotate_spec by done. set (v := snd _) in *.
  assert ((fun i => inl (u64 (v + Z.of_nat i) mod n)) <$> seq 0 (Z.to_nat n) =
    (inl : Z -> Z + RRErr) <$> ((fun i => (v + Z.of_nat i) mod n) <$> seq 0 (Z.to_nat n))) as ->.
  { rewrite <- list_fmap_compose. apply Forall_fmap_ext_1, Forall_forall.
    intros i Hi%elem_of_seq. simpl. rewrite u64_id; [done|lia]. }
  rewrite consecutive_residues by lia. rewrite <- list_fmap_compose. done.
Qed.

Module RRTrace.
Definition coordinator : Coordinator := NewCoordinatorWithStarts (fun _ => 0) {[ "rr" := 5 ]}.
(** A nested strategy: [outer] rotates over [inner] and [C]. *)
Definition input : ResolveInput := mkInput "outer" None
  {[ "outer" := ["inner"; "C"]; "inner" := ["A"; "B"] ]}
  {[ "outer" := "baml-roundrobin"; "inner" := "round-robin"; "A" := "openai"; "B" := "openai" ]}.
Definition start : Coordinator := NewCoordinatorWithStarts (fun _ => 0) {[ "outer" := 0; "inner" := -1 ]}.
#[global] Instance zero_random : Random Coordinator.
Proof. refine {| IntN := fun w _ => (w, 0) |}. intros. simpl. lia. Defined.
End RRTrace.

Lemma rotation_fair_witness : rotate 3 RRTrace.coordinator "rr" 3 ≡ₚ [inl 0; inl 1; inl 2].
Proof.
  refine (rotation_fair RRTrace.coordinator "rr" 3 _ _ _); vm_compute; intuition congruence.
Defined.

Lemma Resolve_sound_witness :
  exists i, snd (Resolve (Some coordinator_Advance) RRTrace.input RRTrace.start) = inl (mkResult "B" (Some i))
    /\ info_ok RRTrace.input "outer" i.
Proof.
  exists (mkRRInfo "outer" ["inner"; "C"] 0 "inner"). split; [vm_compute; reflexivity|].
  refine (proj1 (proj2 (Resolve_sound (Some coordinator_Advance) RRTrace.input RRTrace.start
    (fst (Resolve (Some coordinator_Advance) RRTrace.input RRTrace.start))
    (mkResult "B" (Some (mkRRInfo "outer" ["inner"; "C"] 0 "inner"))) _ _))).
  - discriminate.
  - vm_compute. reflexivity.
Defined.

(** The three ways to honour a configured [start] agree: the first advance
    of an in-process coordinator seeded with it, the first advance of a pool
    worker whose shared counter is initialised with it, and the direct
    projection used for a per-request override all pick the same child, for
    negative values too. *)
Theorem start_agreement seed name start n :
  MinInt64 <= start <= MaxInt64 -> 0 < n <= MaxInt64 ->
  snd (coordinator_Advance (NewCoordinatorWithStarts seed {[ name := start ]}) name n)
    = inl (normalizeStartIndex start n)
  /\ RemoteAdvance (ErrAdvancer "") (Some (fun k d => inl (fst (spec_FetchAdd (u64 start) None d)))) name n
    = inl (normalizeStartIndex start n).
Proof.
  intros Hs Hn. unfold MaxInt64, MinInt64 in *. split.
  - unfold coordinator_Advance, coordinator_counterFor, NewCoordinatorWithStarts, normalizeStartIndex.
    replace (n <=? 0) with false by lia. cbn [co_counters co_starts].
    rewrite lookup_empty, lookup_fmap, lookup_singleton_eq. cbn [fmap option_fmap option_map snd].
    by rewrite u64_add_sub, u64_idem.
  - unfold RemoteAdvance. replace (n <=? 0) with false by lia. simpl. by rewrite u64_idem.
Qed.

Lemma start_agreement_witness :
  normalizeStartIndex (-1) 2 = 1
  /\ snd (coordinator_Advance (NewCoordinatorWithStarts (fun _ => 0) {[ "rr" := -1 ]}) "rr" 2)
     = inl (normalizeStartIndex (-1) 2).
Proof.
  split; [reflexivity|]. refine (proj1 (start_agreement (fun _ => 0) "rr" (-1) 2 _ _));
    unfold MinInt64, MaxInt64; lia.
Defined.

Lemma Resolve_complete_witness :
  exists w' r, Resolve (Some coordinator_Advance) RRTrace.input RRTrace.start = (w', inl r).
Proof.
  refine (Resolve_complete coordinator_Advance RRTrace.input _ _
    (fun s => match s with "outer" => 2%nat | "inner" => 1%nat | _ => 0%nat end) RRTrace.start _).
  - intros w name n. unfold coordinator_Advance. case_goal; [eauto|].
    destruct (coordinator_counterFor w name). eauto.
  - intros c chain Hc. unfold rrChain in Hc. simpl in Hc.
    destruct (ri_FallbackChains RRTrace.input !! c) as [ch|] eqn:E; simpl in E; rewrite E in Hc; [|done].
    apply elem_of_map_to_list in E. vm_compute in E.
    repeat (apply elem_of_cons in E as [E|E]; [injection E as -> ->; simpl in Hc; injection Hc as <-;
      vm_compute; congruence|]).
    by apply elem_of_nil in E.
  - intros c Hp Hrr. split; [reflexivity|]. unfold rrClient, resolveClientProvider in Hrr. simpl in Hrr.
    unfold map_str in Hrr.
    destruct (ri_ClientProviders RRTrace.input !! c) as [pv|] eqn:E; simpl in E; rewrite E in Hrr; [|done].
    apply elem_of_map_to_list in E. vm_compute in E.
    repeat (apply elem_of_cons in E as [E|E];
      [injection E as -> ->; try discriminate Hrr; eexists; (split; [reflexivity|]);
       intros x Hx; repeat (apply elem_of_cons in Hx as [->|Hx]; [vm_compute; lia|]); by apply elem_of_nil in Hx|]).
    by apply elem_of_nil in E.
Defined.
