(* ===== verification/ClientResolution.v ===== *)
(** * ClientResolution: [bamlutils/buildrequest/client_resolution.go]

    Which provider and which client a request is routed to, given the adapter,
    the runtime registry and the introspected defaults. *)

From S2P Require Import Prelude GoValue StrategyParse Registry Retry SharedState RoundRobin.

(** ** Reasons reported with a legacy decision ([metadata.go]) *)

Definition PathReasonEmptyProvider := "empty-provider".
Definition PathReasonUnsupportedProvider := "unsupported-provider".
Definition PathReasonFallbackEmptyChain := "fallback-empty-chain".
Definition PathReasonFallbackEmptyChildProvider := "fallback-empty-child-provider".
Definition PathReasonFallbackAllLegacy := "fallback-all-legacy".
Definition PathReasonRoundRobin := "roundrobin-legacy-only".
Definition PathReasonFallbackRoundRobinChildLegacy := "fallback-roundrobin-child-legacy".
Definition PathReasonFallbackRoundRobinChildBuildRequest := "fallback-roundrobin-child-buildrequest".
Definition PathReasonInvalidStrategyOverride := "invalid-strategy-override".
Definition PathReasonInvalidProviderOverride := "invalid-provider-override".
Definition PathReasonInvalidRoundRobinStartOverride := "invalid-round-robin-start-override".

(** [RetryConfig]: the per-request retry settings. *)
Record RetryConfig := mkRetryConfig {
  rc_MaxRetries : Z;
  rc_Strategy : string;
  rc_DelayMs : Z;
  rc_Multiplier : float64;
  rc_MaxDelayMs : Z
}.

(** The accessors of [bamlutils.Adapter] the resolution code reads. *)
Record Adapter (W : Type) := mkAdapter {
  ClientRegistryProvider : string;
  OriginalClientRegistry : option ClientRegistry;
  RoundRobinAdvancer : option (Advancer W);
  AdapterRetryConfig : option RetryConfig
}.
Arguments ClientRegistryProvider {W} _.
Arguments OriginalClientRegistry {W} _.
Arguments RoundRobinAdvancer {W} _.
Arguments AdapterRetryConfig {W} _.

(** ** Providers *)

(** [normalizeStrategyProvider]. *)
Definition normalizeStrategyProvider (provider : string) : string :=
  let provider := NormalizeProvider provider in
  if provider =s "fallback" then "baml-fallback" else provider.

(** [isStrategyProvider]. *)
Definition isStrategyProvider (p : string) : bool :=
  IsRoundRobinProvider p || (normalizeStrategyProvider p =s "baml-fallback").

(** The primary override, when set and nonempty. *)
Definition primary_name (reg : option ClientRegistry) : option string :=
  match reg with
  | Some r => match reg_Primary r with
              | Some p => if p =s "" then None else Some p
              | None => None
              end
  | None => None
  end.

(** [ResolveProvider]. *)
Definition ResolveProvider {W} (adapter : Adapter W) (defaultClientName introspectedProvider : string)
    : string :=
  if ClientRegistryProvider adapter <>s "" then
    normalizeStrategyProvider (ClientRegistryProvider adapter)
  else
    let reg := OriginalClientRegistry adapter in
    match p ← primary_name reg; find_present_client reg p with
    | Some client => normalizeStrategyProvider (cp_Provider client)
    | None =>
        match (if defaultClientName <>s "" then find_present_client reg defaultClientName else None) with
        | Some client => normalizeStrategyProvider (cp_Provider client)
        | None => normalizeStrategyProvider introspectedProvider
        end
    end.

(** [ResolvePrimaryClient]. *)
Definition ResolvePrimaryClient {W} (adapter : Adapter W) (defaultClientName : string) : string :=
  default defaultClientName (primary_name (OriginalClientRegistry adapter)).

(** [PreferAdvancer]. *)
Definition PreferAdvancer {W} (adapter : Adapter W) (fallback : option (Advancer W))
    : option (Advancer W) :=
  match RoundRobinAdvancer adapter with Some a => Some a | None => fallback end.

(** [ResolveClientProvider]. *)
Definition ResolveClientProvider (reg : option ClientRegistry) (clientName : string)
    (introspectedProviders : gmap string string) : string :=
  match find_present_client reg clientName with
  | Some client =>
      if cp_Provider client =s "" then "" else normalizeStrategyProvider (cp_Provider client)
  | None => normalizeStrategyProvider (map_str introspectedProviders clientName)
  end.

(** [ResolveEffectiveClient]. *)
Definition ResolveEffectiveClient {W} `{Random W} (adapter : Adapter W) (defaultClientName : string)
    (fallbackChains : gmap string (list string)) (clientProviders : gmap string string)
    (advancer : option (Advancer W)) (w : W) : W * ((string * option RoundRobinInfo) + RRErr) :=
  let clientName := ResolvePrimaryClient adapter defaultClientName in
  let advancer := PreferAdvancer adapter advancer in
  let '(w, res) := Resolve advancer
    (mkInput clientName (OriginalClientRegistry adapter) fallbackChains clientProviders) w in
  match res with
  | inr err =>
      if errors_Is err ErrInvalidStrategyOverride || errors_Is err ErrInvalidStartOverride
      then (w, inl (clientName, None))
      else (w, inr err)
  | inl r => (w, inl (res_Selected r, res_Info r))
  end.

(** ** Predicates on overrides *)

(** [hasInvalidProviderOverride]. *)
Definition hasInvalidProviderOverride (reg : option ClientRegistry) (clientName : string) : bool :=
  if clientName =s "" then false
  else match findRuntimeClient reg clientName with
       | Some c => IsProviderPresent c && (cp_Provider c =s "")
       | None => false
       end.

(** [hasInvalidStartOverride]. *)
Definition hasInvalidStartOverride (reg : option ClientRegistry) (clientName : string) : bool :=
  match findRuntimeClient reg clientName with
  | Some rc => match inspectStartOverride (cp_Options rc) with Invalid => true | _ => false end
  | None => false
  end.

(** [isInvalidOverrideReason]. *)
Definition isInvalidOverrideReason (reason : string) : bool :=
  (reason =s PathReasonInvalidProviderOverride) || (reason =s PathReasonInvalidStrategyOverride)
  || (reason =s PathReasonInvalidRoundRobinStartOverride).

(** [hasExplicitStrategyProviderWithoutStrategy]. *)
Definition hasExplicitStrategyProviderWithoutStrategy (reg : option ClientRegistry)
    (clientName : string) : bool :=
  match findRuntimeClient reg clientName with
  | None => false
  | Some rc =>
      if negb (IsProviderPresent rc) then false
      else if negb (isStrategyProvider (cp_Provider rc)) then false
      else match InspectStrategyOverride reg clientName with Absent => true | _ => false end
  end.

(** [resolveFallbackStrategyChain]. *)
Definition resolveFallbackStrategyChain (reg : option ClientRegistry) (clientName : string)
    (introspectedChains : gmap string (list string)) : list string :=
  match InspectStrategyOverride reg clientName with
  | Invalid => []
  | Valid chain => chain
  | Absent => default [] (introspectedChains !! clientName)
  end.

(** ** Properties *)

(** The package-level predicate and the one of [bamlutils/interfaces.go] accept
    the same five spellings. *)
Lemma isStrategyProvider_name p : isStrategyProvider p = isStrategyProviderName p.
Proof.
  unfold isStrategyProvider, isStrategyProviderName, normalizeStrategyProvider, NormalizeProvider.
  destruct (IsRoundRobinProvider p) eqn:E; simpl.
  - symmetry. apply bool_decide_eq_true. unfold IsRoundRobinProvider in E.
    rewrite !orb_true_iff, !String.eqb_eq in E. set_solver.
  - unfold IsRoundRobinProvider in E. rewrite !orb_false_iff, !String.eqb_neq in E.
    destruct E as [[E1 E2] E3]. symmetry.
    destruct (String.eqb_spec p "fallback") as [->|Hf]; [done|].
    destruct (String.eqb_spec p "baml-fallback") as [->|Hb]; [done|].
    apply bool_decide_eq_false. set_solver.
Qed.

Lemma IsRoundRobinProvider_normalize p :
  IsRoundRobinProvider p = (normalizeStrategyProvider p =s "baml-roundrobin").
Proof.
  unfold normalizeStrategyProvider, NormalizeProvider.
  destruct (IsRoundRobinProvider p) eqn:E; [done|].
  unfold IsRoundRobinProvider in E. rewrite !orb_false_iff, !String.eqb_neq in E.
  destruct (String.eqb_spec p "fallback"); symmetry; [done|]. apply String.eqb_neq. naive_solver.
Qed.

Lemma normalizeStrategyProvider_idem p :
  normalizeStrategyProvider (normalizeStrategyProvider p) = normalizeStrategyProvider p.
Proof.
  unfold normalizeStrategyProvider, NormalizeProvider.
  destruct (IsRoundRobinProvider p) eqn:E; [done|].
  destruct (String.eqb_spec p "fallback") as [->|Hf]; [done|]. rewrite E.
  apply String.eqb_neq in Hf. by rewrite Hf.
Qed.

(** Each strategy has a single spelling after normalisation. *)
Definition canonical (p : string) : Prop :=
  isStrategyProvider p = true -> p = "baml-roundrobin" \/ p = "baml-fallback".

Lemma normalize_canonical p : canonical (normalizeStrategyProvider p).
Proof.
  unfold canonical, isStrategyProvider. rewrite IsRoundRobinProvider_normalize, normalizeStrategyProvider_idem.
  rewrite orb_true_iff, !String.eqb_eq. done.
Qed.

(** Every resolver of a provider answers in canonical spelling: whichever
    of the adapter's cache, the runtime registry and the introspected defaults
    decides, a round-robin client is reported as baml-roundrobin and a fallback
    client as baml-fallback, never by an alias. *)
Theorem providers_canonical {W} (adapter : Adapter W) reg name p m :
  canonical (ResolveProvider adapter name p) /\ canonical (ResolveClientProvider reg name m).
Proof.
  unfold ResolveProvider, ResolveClientProvider.
  split; repeat case_goal; try apply normalize_canonical; done.
Qed.

(** The two per-client resolvers, here and in the round-robin package, see the
    same clients as round-robin clients. *)
Lemma ResolveClientProvider_rr reg name m :
  (ResolveClientProvider reg name m =s "baml-roundrobin")
  = IsRoundRobinProvider (resolveClientProvider reg name m).
Proof.
  unfold ResolveClientProvider, resolveClientProvider. rewrite IsRoundRobinProvider_normalize.
  destruct (find_present_client reg name) as [c|]; [|done].
  destruct (String.eqb_spec (cp_Provider c) "") as [->|]; done.
Qed.

Lemma ResolveClientProvider_isRR reg name m :
  IsRoundRobinProvider (ResolveClientProvider reg name m)
  = IsRoundRobinProvider (resolveClientProvider reg name m).
Proof.
  rewrite <- ResolveClientProvider_rr, IsRoundRobinProvider_normalize. f_equal.
  unfold ResolveClientProvider. repeat case_goal; rewrite ?normalizeStrategyProvider_idem; done.
Qed.

(** An error of [Resolve] that counts as an invalid override comes from a
    round-robin client on the path whose override is indeed invalid. *)
Definition sentinel (e : RRErr) : bool :=
  errors_Is e ErrInvalidStrategyOverride || errors_Is e ErrInvalidStartOverride.

Definition invalidRR (in_ : ResolveInput) (c : string) : Prop :=
  rrClient in_ c = true
  /\ (rrChain in_ c = inr ErrInvalidStrategyOverride \/ hasInvalidStartOverride (ri_Registry in_) c = true).

Section Effective.
Context {W : Type} `{Random W}.
Variable a : option (Advancer W).
(** Errors of an advancer are its own, not the resolver's sentinels. *)
Hypothesis advancer_errors : forall adv w name n w' e,
  a = Some adv -> adv w name n = (w', inr e) -> sentinel e = false.

Lemma selectIndex_sentinel reg c n w w' e :
  selectIndex a reg c n w = (w', inr e) -> sentinel e = true -> hasInvalidStartOverride reg c = true.
Proof.
  unfold selectIndex, hasInvalidStartOverride. intros Hs He.
  destruct (findRuntimeClient reg c) as [rc|].
  - destruct (inspectStartOverride _); [|done|by simplify_eq]. by destruct (AdvanceDynamic w n).
  - destruct a as [adv|] eqn:Ea; [|by destruct (AdvanceDynamic w n)].
    rewrite (advancer_errors adv w c n w' e) in He; done.
Qed.

Lemma rrChain_error in_ c e :
  rrChain in_ c = inr e -> e = ErrInvalidStrategyOverride \/ e = ErrNoChildren c.
Proof. unfold rrChain. intros Hc. repeat case_hyp Hc; simplify_eq; auto. Qed.

Lemma Resolve_loop_sentinel fuel : forall in_ seen current outer w w' e top,
  Resolve_loop fuel a in_ seen current outer w = (w', inr e) -> sentinel e = true ->
  rr_path in_ top current -> exists c, rr_path in_ top c /\ invalidRR in_ c.
Proof.
  induction fuel as [|fuel IH]; intros in_ seen current outer w w' e top Hr He Hp;
    cbn [Resolve_loop] in Hr; [by simplify_eq|].
  case_decide as Hd; [by simplify_eq|].
  destruct (negb _) eqn:Ep; [by simplify_eq|]. apply negb_false_iff in Ep.
  destruct (rrChain in_ current) as [chain|e'] eqn:Ec.
  2: { simplify_eq. exists current. split; [done|]. split; [done|left].
       destruct (rrChain_error _ _ _ Ec) as [->| ->]; done. }
  destruct (selectIndex a _ current _ w) as [w1 [idx|e']] eqn:Es.
  2: { simplify_eq. exists current. split; [done|]. split; [done|right].
       by eapply selectIndex_sentinel. }
  destruct ((idx <? 0)%Z || _) eqn:Er; [by simplify_eq|].
  destruct (lookup_lt_is_Some_2 chain (Z.to_nat idx)) as [x Hx]; [lia|]. rewrite Hx in Hr. simpl in Hr.
  eapply IH; eauto. eapply rr_path_snoc; eauto. by eapply list_elem_of_lookup_2.
Qed.
End Effective.

(** The client a request is routed to: it is either a leaf of the
    round-robin graph (so rotation happened, and was reported, exactly when the
    requested client is a round-robin client), or the requested client itself
    without any reported rotation, and then a round-robin client on the way to
    it has an invalid [strategy] or [start] override; the request then falls
    through to the legacy path that reports the error. *)
Theorem ResolveEffectiveClient_leaf {W} `{Random W} (adapter : Adapter W) name chains providers a w w' eff info :
  let clientName := ResolvePrimaryClient adapter name in
  let in_ := mkInput clientName (OriginalClientRegistry adapter) chains providers in
  (forall adv w name n w' e, PreferAdvancer adapter a = Some adv -> adv w name n = (w', inr e) -> sentinel e = false) ->
  clientName <> "" ->
  ResolveEffectiveClient adapter name chains providers a w = (w', inl (eff, info)) ->
  rrClient in_ eff = false /\ (is_Some info <-> rrClient in_ clientName = true)
  \/ eff = clientName /\ info = None /\ exists c, rr_path in_ clientName c /\ invalidRR in_ c.
Proof.
  intros clientName in_ Ha Hne Hr. unfold ResolveEffectiveClient in Hr. fold clientName in_ in Hr.
  destruct (Resolve (PreferAdvancer adapter a) in_ w) as [w1 [r|e]] eqn:E.
  - injection Hr as <- <- <-. left. destruct (Resolve_leaf _ in_ _ _ _ Hne E) as [Hl Hi]. split; [done|].
    destruct (res_Info r) as [i|]; simpl in Hi.
    + split; [|done]. intros _. apply Hi.
    + rewrite Hi in Hl. simpl in Hl. rewrite Hl. split; [by intros [? ?]|done].
  - fold (sentinel e) in Hr. destruct (sentinel e) eqn:Es; [|done].
    injection Hr as _ <- <-. right. split_and!; [done..|].
    unfold Resolve in E. apply String.eqb_neq in Hne.
    change (ri_ClientName in_) with clientName in E. rewrite Hne in E.
    eapply Resolve_loop_sentinel; [exact Ha|exact E|done|constructor].
Qed.

Lemma ResolveEffectiveClient_leaf_witness :
  let ad := mkAdapter Coordinator "" None (Some coordinator_Advance) None in
  let r := ResolveEffectiveClient ad "outer" (ri_FallbackChains RRTrace.input)
             (ri_ClientProviders RRTrace.input) None RRTrace.start in
  exists info, snd r = inl ("B", info) /\ rrClient RRTrace.input "B" = false /\ is_Some info.
Proof.
  intros ad r. exists (Some (mkRRInfo "outer" ["inner"; "C"] 0 "inner")).
  split; [vm_compute; reflexivity|].
  destruct (ResolveEffectiveClient_leaf ad "outer" (ri_FallbackChains RRTrace.input)
    (ri_ClientProviders RRTrace.input) None RRTrace.start (fst r) "B"
    (Some (mkRRInfo "outer" ["inner"; "C"] 0 "inner"))) as [[H1 H2]|[H _]].
  - intros adv w name n w' e [= <-] H. unfold coordinator_Advance in H. case_hyp H; [done|].
    by destruct (coordinator_counterFor w name).
  - discriminate.
  - vm_compute. reflexivity.
  - split; [exact H1|]. eauto.
  - discriminate H.
Defined.
