(* ===== verification/Dfs.v ===== *)
(** * Dfs: depth-first walks

    The walkers of [legacy_child_registry.go] over the strategy graph and those of
    [stream_serve.go] over the class graph share this shape: a visited set
    guards against cycles, a node may end the whole walk with a report, and its
    children are walked in order.  The walk is correct and total: it visits
    exactly the nodes reachable from the root, and reports exactly when some
    reachable node has something to report. *)

From S2P Require Import Prelude.

Section Dfs.
Context {A R : Type} `{Countable A}.
(** What a node reports, and the children walked when it reports nothing. *)
Variable check : A -> option R.
Variable next : A -> list A.

(** Walk a list of children with [walk], stopping at the first report. *)
Fixpoint dfs_list (walk : A -> gset A -> option (gset A * option R))
    (l : list A) (visited : gset A) : option (gset A * option R) :=
  match l with
  | [] => Some (visited, None)
  | child :: l' =>
      match walk child visited with
      | Some (visited', None) => dfs_list walk l' visited'
      | r => r
      end
  end.

(** The walk; [None] when the fuel, a bound on the depth, is used up. *)
Fixpoint dfs (fuel : nat) (name : A) (visited : gset A)
    : option (gset A * option R) :=
  match fuel with
  | O => None
  | S fuel' =>
      if decide (name ∈ visited) then Some (visited, None)
      else
        let visited := {[name]} ∪ visited in
        match check name with
        | Some r => Some (visited, Some r)
        | None => dfs_list (dfs fuel') (next name) visited
        end
  end.

Inductive reach : A -> A -> Prop :=
  | reach_refl x : reach x x
  | reach_step x y z : check x = None -> y ∈ next x -> reach y z -> reach x z.

(** What one call guarantees: the visited set grows by nodes reachable from
    [name]; the new ones are closed under [next] unless a report was made. *)
Definition dfs_post (names : list A) (v v' : gset A) (r : option R) : Prop :=
  v ⊆ v'
  /\ (forall x, x ∈ v' -> x ∈ v \/ exists n, n ∈ names /\ reach n x)
  /\ match r with
     | Some r => exists n x, n ∈ names /\ reach n x /\ check x = Some r
     | None => (forall n, n ∈ names -> n ∈ v')
               /\ forall x, x ∈ v' -> x ∉ v -> check x = None /\ forall y, y ∈ next x -> y ∈ v'
     end.

Lemma dfs_list_post walk l : forall v v' r,
  (forall n v v' r, n ∈ l -> walk n v = Some (v', r) -> dfs_post [n] v v' r) ->
  dfs_list walk l v = Some (v', r) -> dfs_post l v v' r.
Proof.
  induction l as [|c l IH]; intros v v' r Hw Hd; simpl in Hd.
  { simplify_eq. split_and!; [done|auto|set_solver|set_solver]. }
  destruct (walk c v) as [[v1 [r1|]]|] eqn:E; simplify_eq; apply Hw in E; try by constructor.
  - destruct E as (H1&H2&n&x&Hn&Hx). split_and!; [done| |].
    + intros y Hy. destruct (H2 y Hy) as [?|(m&?&?)]; [by left|right]. set_solver.
    + set_solver.
  - destruct E as (H1&H2&H3&H4). apply IH in Hd as (G1&G2&G3); [|set_solver].
    split_and!; [set_solver| |].
    + intros y Hy. destruct (G2 y Hy) as [Hy1|(m&?&?)]; [|set_solver].
      destruct (H2 y Hy1) as [?|(m&?&?)]; set_solver.
    + destruct r as [r|]; [set_solver|]. destruct G3 as [G3 G4]. split; [set_solver|].
      intros x Hx Hn. destruct (decide (x ∈ v1)) as [Hx1|]; [|by apply G4].
      destruct (H4 x Hx1 Hn) as [? Hy]. split; [done|]. set_solver.
Qed.

Lemma dfs_sound fuel : forall name v v' r,
  dfs fuel name v = Some (v', r) -> dfs_post [name] v v' r.
Proof.
  induction fuel as [|fuel IH]; intros name v v' r Hd; simpl in Hd; [done|].
  case_decide as Hv.
  { simplify_eq. split_and!; [done|auto|set_solver|set_solver]. }
  destruct (check name) as [r0|] eqn:Ec.
  - simplify_eq. split_and!; [set_solver| |].
    + intros x Hx. destruct (decide (x = name)) as [->|]; [right|left; set_solver].
      exists name. split; [set_solver|constructor].
    + exists name, name. split_and!; [set_solver|constructor|done].
  - apply dfs_list_post in Hd as (H1&H2&H3); [|intros ? ? ? ? _; apply IH].
    split_and!; [set_solver| |].
    + intros x Hx. destruct (H2 x Hx) as [Hx1|(n&Hn&Hr)].
      * destruct (decide (x = name)) as [->|]; [right|left; set_solver].
        exists name. split; [set_solver|constructor].
      * right. exists name. split; [set_solver|]. by eapply reach_step.
    + destruct r as [r|].
      * destruct H3 as (n&x&Hn&Hr&Hx). exists name, x. split_and!; [set_solver| |done].
        by eapply reach_step.
      * destruct H3 as [H3 H4]. split; [set_solver|]. intros x Hx Hn.
        destruct (decide (x = name)) as [->|Hne]; [by split; auto|]. apply H4; set_solver.
Qed.

(** ** The walk from a root

    [U] is a list of all the names that can occur. *)

Variable U : list A.

Definition walk (root : A) : option (gset A * option R) := dfs (S (length U)) root ∅.

Lemma walk_silent root v :
  walk root = Some (v, None) -> forall x, x ∈ v <-> reach root x.
Proof.
  intros Hd. apply dfs_sound in Hd as (_&H2&H3&H4). intros x. split.
  - intros Hx. destruct (H2 x Hx) as [?|(n&->%list_elem_of_singleton&?)]; [set_solver|done].
  - assert (root ∈ v) as Hroot by (apply H3; constructor). clear H2 H3. intros Hr.
    induction Hr as [|x y z Hc Hy Hr IH]; [done|]. apply IH. by apply (H4 x Hroot ltac:(set_solver)).
Qed.

Lemma walk_report root v r :
  walk root = Some (v, Some r) -> exists x, reach root x /\ check x = Some r.
Proof.
  intros Hd. apply dfs_sound in Hd as (_&_&n&x&->%list_elem_of_singleton&?&?). eauto.
Qed.

Lemma walk_silent_check root v :
  walk root = Some (v, None) -> forall x, reach root x -> check x = None.
Proof.
  intros Hd x Hx. assert (x ∈ v) by (by apply (walk_silent _ _ Hd)).
  apply dfs_sound in Hd as (_&_&_&H4). apply H4; set_solver.
Qed.

(** ** Totality *)

Hypothesis U_closed : forall x y, y ∈ next x -> y ∈ U.

Definition room (v : gset A) : nat := length U - size v.

Lemma size_in_U (v : gset A) : (forall x, x ∈ v -> x ∈ U) -> size v <= length U.
Proof.
  intros Hs. rewrite <- (list_to_set_elements_L v) at 1.
  rewrite size_list_to_set by apply NoDup_elements.
  apply NoDup_incl_length; [apply NoDup_elements|]. intros x Hx%elem_of_elements. auto.
Qed.

Lemma dfs_in_U fuel name v v' r :
  dfs fuel name v = Some (v', r) -> name ∈ U -> (forall x, x ∈ v -> x ∈ U) -> forall x, x ∈ v' -> x ∈ U.
Proof.
  intros Hd Hn Hv x Hx. apply dfs_sound in Hd as (_&H2&_).
  destruct (H2 x Hx) as [?|(m&->%list_elem_of_singleton&Hr)]; [auto|].
  clear -Hr Hn U_closed. induction Hr; eauto.
Qed.

Lemma dfs_list_total fuel l : forall v,
  (forall n v, n ∈ U -> (forall x, x ∈ v -> x ∈ U) -> length U < fuel + size v ->
     exists p, dfs fuel n v = Some p) ->
  (forall n, n ∈ l -> n ∈ U) -> (forall x, x ∈ v -> x ∈ U) -> length U < fuel + size v ->
  exists p, dfs_list (dfs fuel) l v = Some p.
Proof.
  induction l as [|c l IH]; intros v Hw Hl Hv Hf; simpl; [by eauto|].
  destruct (Hw c v) as [[v1 [r|]] E]; [by apply Hl; constructor|done..| |]; rewrite E; [by eauto|].
  assert (v ⊆ v1) as Hs by (by apply dfs_sound in E as (?&_)).
  apply IH; [done|set_solver| |].
  - eapply dfs_in_U; eauto. apply Hl. constructor.
  - apply subseteq_size in Hs. lia.
Qed.

Lemma dfs_total fuel : forall n v,
  n ∈ U -> (forall x, x ∈ v -> x ∈ U) -> length U < fuel + size v -> exists p, dfs fuel n v = Some p.
Proof.
  induction fuel as [|fuel IH]; intros n v Hn Hv Hf; simpl.
  { pose proof (size_in_U v Hv). lia. }
  case_decide as Hd; [by eauto|]. destruct (check n); [by eauto|].
  apply dfs_list_total; [done|eauto|set_solver|].
  rewrite size_union by set_solver. rewrite size_singleton. lia.
Qed.

Lemma walk_total root : root ∈ U -> exists p, walk root = Some p.
Proof. intros Hr. apply dfs_total; [done|set_solver|]. rewrite size_empty. lia. Qed.

(** ** What a walk of several roots finds *)

Definition leads : A -> A -> Prop := rtc (fun x y => y ∈ next x).

Lemma reach_leads x y : reach x y -> leads x y.
Proof. induction 1; [done|]. by eapply rtc_l. Qed.

Lemma dfs_list_exact fuel l : (forall n, n ∈ l -> n ∈ U) -> length U < fuel ->
  exists v r, dfs_list (dfs fuel) l ∅ = Some (v, r) /\
    match r with
    | Some r => exists n x, n ∈ l /\ leads n x /\ check x = Some r
    | None => forall n x, n ∈ l -> leads n x -> check x = None
    end.
Proof.
  intros Hl Hf. destruct (dfs_list_total fuel l ∅) as [[v r] E]; [intros; by apply dfs_total|done|set_solver|rewrite size_empty; lia|].
  exists v, r. split; [done|]. apply dfs_list_post in E as (_&_&E); [|intros ? ? ? ? _; apply dfs_sound]. destruct r as [r|].
  - destruct E as (n&x&?&?&?). exists n, x. split_and!; [done|by apply reach_leads|done].
  - destruct E as [Hin Hc]. intros n x Hn Hx. assert (n ∈ v) as Hv by auto. clear Hn.
    apply Hc; [|set_solver]. induction Hx as [|n y x Hy _ IH]; [done|]. apply IH. by apply (Hc n Hv ltac:(set_solver)).
Qed.
End Dfs.
