(* ===== verification/LegacyChild.v ===== *)
(** * LegacyChild: [bamlutils/buildrequest/legacy_child_registry.go]

    The registry handed to a legacy child callback (the runtime clients
    reachable from the child through the strategy graph), and the preflight that
    looks for an invalid override anywhere in that graph. *)

From S2P Require Import Prelude GoValue StrategyParse Registry SharedState RoundRobin ClientResolution Dfs.

(** [LegacyChildRegistryEntry]. *)
Record LegacyChildRegistryEntry := mkEntryLC {
  lc_Name : string;
  lc_Provider : string;
  lc_Options : option (gmap string goval)
}.

(** [lookupRuntimeClient]. *)
Definition lookupRuntimeClient (reg : option ClientRegistry) (name : string) : option ClientProperty :=
  match reg with None => None | Some r => find_client (reg_Clients r) name end.

Section Legacy.
Variable reg : option ClientRegistry.
Variable introspectedProviders : gmap string string.
Variable introspectedChains : gmap string (list string).

(** Every name a walk from [root] can meet. *)
Definition graphNames (root : string) : list string :=
  universe (mkInput root reg introspectedChains introspectedProviders).

(** The chain a strategy node descends into: the runtime override when it is
    valid, nothing when it is invalid, the introspected chain otherwise. *)
Definition overrideChain (name : string) : list string :=
  match InspectStrategyOverride reg name with
  | Valid chain => chain
  | Invalid => []
  | Absent => default [] (introspectedChains !! name)
  end.

(** The children [computeReachableSubgraph] walks from a node. *)
Definition reachableChildren (name : string) : list string :=
  let probe := default (mkClient name "" None None false) (lookupRuntimeClient reg name) in
  if negb (IsResolvedStrategyParent probe introspectedProviders) then []
  else overrideChain name.

(** [computeReachableSubgraph]. *)
Definition computeReachableSubgraph (rootName : string) : gset string :=
  match walk (R:=string) (fun _ => None) reachableChildren (graphNames rootName) rootName with
  | Some (visited, _) => visited
  | None => ∅
  end.

(** [resolveEffectiveProvider] of the preflight. *)
Definition resolveEffectiveProvider (name : string) : string :=
  match lookupRuntimeClient reg name with
  | Some rc =>
      if IsProviderPresent rc && (cp_Provider rc <>s "") then cp_Provider rc
      else map_str introspectedProviders name
  | None => map_str introspectedProviders name
  end.

(** [inStrategyGraph]. *)
Definition inStrategyGraph (name : string) : bool := isStrategyProvider (resolveEffectiveProvider name).

(** The report of a node in the preflight, before its children are walked. *)
Definition nodeReason (name : string) : option string :=
  if hasInvalidProviderOverride reg name then Some PathReasonInvalidProviderOverride
  else if negb (inStrategyGraph name) then None
  else
    match InspectStrategyOverride reg name with
    | Invalid => Some PathReasonInvalidStrategyOverride
    | ins =>
        let present := match ins with Absent => false | _ => true end in
        if match lookupRuntimeClient reg name with
           | Some rc => IsProviderPresent rc && isStrategyProvider (cp_Provider rc) && negb present
           | None => false
           end
        then Some PathReasonInvalidStrategyOverride
        else if IsRoundRobinProvider (resolveEffectiveProvider name) && hasInvalidStartOverride reg name
        then Some PathReasonInvalidRoundRobinStartOverride
        else None
    end.

(** The children the preflight walks from a node. *)
Definition preflightChildren (name : string) : list string :=
  if negb (inStrategyGraph name) then [] else overrideChain name.

(** [FindInvalidReachableStrategyOverride]. *)
Definition FindInvalidReachableStrategyOverride (rootName : string) : string :=
  match walk nodeReason preflightChildren (graphNames rootName) rootName with
  | Some (_, Some reason) => reason
  | _ => ""
  end.
End Legacy.

(** [BuildLegacyChildRegistryEntries]. *)
Definition BuildLegacyChildRegistryEntries (reg : option ClientRegistry) (clientOverride : string)
    (introspectedProviders : gmap string string) (introspectedChains : gmap string (list string))
    : list LegacyChildRegistryEntry :=
  match reg with
  | None => []
  | Some r =>
      let reachable := computeReachableSubgraph reg introspectedProviders introspectedChains clientOverride in
      omap (fun oc =>
        client ← oc;
        let entry := mkEntryLC (cp_Name client)
          (UpstreamClientRegistryProvider client introspectedProviders) (cp_Options client) in
        if bool_decide (cp_Name client ∉ reachable) then None
        else if negb (IsResolvedStrategyParent client introspectedProviders) then Some entry
        else if ShouldDropStrategyParentForTopLevelLegacy client introspectedProviders then None
        else Some entry) (reg_Clients r)
  end.

(** ** Properties *)

Section LegacyFacts.
Variable reg : option ClientRegistry.
Variable prov : gmap string string.
Variable chains : gmap string (list string).

Lemma overrideChain_names root x y :
  y ∈ overrideChain reg chains x -> y ∈ graphNames reg prov chains root.
Proof.
  unfold overrideChain, graphNames, universe. simpl. intros Hy. apply elem_of_cons. right.
  apply elem_of_app. destruct (InspectStrategyOverride reg x) as [| |ch] eqn:E; [left|by apply elem_of_nil in Hy|right].
  - destruct (chains !! x) as [ch|] eqn:El; [|by apply elem_of_nil in Hy].
    apply list_elem_of_join. exists ch. split; [done|]. apply list_elem_of_fmap.
    exists (x, ch). split; [done|]. by apply elem_of_map_to_list.
  - unfold InspectStrategyOverride in E. destruct (findRuntimeClient reg x) as [rc|] eqn:Ef; [|done].
    destruct (option_key rc "strategy") as [raw|] eqn:Eo; [|done].
    apply find_client_reg in Ef as (r&->&Hin&_). simpl. apply list_elem_of_bind.
    exists (Some rc). split; [|done]. rewrite Eo. simpl. by destruct (ParseStrategyOption raw); simplify_eq.
Qed.

Lemma root_in_names root : root ∈ graphNames reg prov chains root.
Proof. unfold graphNames, universe. constructor. Qed.

Definition reachable : string -> string -> Prop :=
  reach (R:=string) (fun _ => None) (reachableChildren reg prov chains).

Lemma computeReachable_spec root x :
  x ∈ computeReachableSubgraph reg prov chains root <-> reachable root x.
Proof.
  unfold computeReachableSubgraph, reachable.
  destruct (walk_total (R:=string) (fun _ => None) (reachableChildren reg prov chains)
    (graphNames reg prov chains root)) with root as [[v r] E].
  - intros a b Hb. unfold reachableChildren in Hb. case_hyp Hb; [by apply elem_of_nil in Hb|].
    by eapply overrideChain_names.
  - apply root_in_names.
  - rewrite E. destruct r as [r|].
    + apply walk_report in E as (?&_&?). done.
    + exact (walk_silent _ _ _ _ _ E x).
Qed.

(** The registry of a legacy child callback holds, in their original
    order, exactly the runtime clients reachable from the child through the
    strategy graph, less the inert strategy parents: nothing unrelated leaks
    in and no reachable leaf or overridden parent is lost, cycles or not. *)
Theorem BuildLegacyChildRegistryEntries_spec r root :
  reg = Some r ->
  exists kept, kept `sublist_of` omap id (reg_Clients r)
    /\ BuildLegacyChildRegistryEntries reg root prov chains
       = (fun c => mkEntryLC (cp_Name c) (UpstreamClientRegistryProvider c prov) (cp_Options c)) <$> kept
    /\ forall c, Some c ∈ reg_Clients r ->
         (c ∈ kept <-> reachable root (cp_Name c)
                       /\ ShouldDropStrategyParentForTopLevelLegacy c prov = false).
Proof.
  intros Er.
  set (keep := fun c => bool_decide (cp_Name c ∈ computeReachableSubgraph reg prov chains root)
    && negb (ShouldDropStrategyParentForTopLevelLegacy c prov)).
  exists (List.filter keep (omap id (reg_Clients r))). split_and!.
  - generalize (omap id (reg_Clients r)). intros l. induction l as [|c l IH]; simpl; [constructor|].
    destruct (keep c); by constructor.
  - rewrite Er. unfold BuildLegacyChildRegistryEntries. rewrite <- Er.
    induction (reg_Clients r) as [|[c|] l IH]; simpl; [done| |done]. unfold keep at 1.
    destruct (decide (cp_Name c ∈ computeReachableSubgraph reg prov chains root)) as [Hin|Hin].
    + rewrite bool_decide_false, bool_decide_true by tauto. simpl.
      destruct (IsResolvedStrategyParent c prov) eqn:Ep; simpl.
      * destruct (ShouldDropStrategyParentForTopLevelLegacy c prov); simpl; [exact IH|by f_equal].
      * unfold ShouldDropStrategyParentForTopLevelLegacy. rewrite Ep. simpl. by f_equal.
    + rewrite bool_decide_true, bool_decide_false by tauto. simpl. exact IH.
  - intros c Hc. rewrite list_elem_of_In, filter_In, <- list_elem_of_In. unfold keep.
    rewrite andb_true_iff, bool_decide_eq_true, negb_true_iff, computeReachable_spec.
    split; [tauto|]. intros H. split; [|done]. apply list_elem_of_omap. by exists (Some c).
Qed.

(** ** The preflight *)

Definition preflight_reach : string -> string -> Prop :=
  reach (nodeReason reg prov) (preflightChildren reg prov chains).

Lemma nodeReason_nonempty x r : nodeReason reg prov x = Some r -> r <> "".
Proof. unfold nodeReason. intros H. repeat case_hyp H; by simplify_eq. Qed.

Lemma preflight_total root :
  exists p, walk (nodeReason reg prov) (preflightChildren reg prov chains)
              (graphNames reg prov chains root) root = Some p.
Proof.
  apply walk_total; [|apply root_in_names]. intros a b Hb. unfold preflightChildren in Hb.
  case_hyp Hb; [by apply elem_of_nil in Hb|]. by eapply overrideChain_names.
Qed.

Lemma FindInvalid_silent root :
  FindInvalidReachableStrategyOverride reg prov chains root = "" <->
  forall x, preflight_reach root x -> nodeReason reg prov x = None.
Proof.
  unfold FindInvalidReachableStrategyOverride. destruct (preflight_total root) as [[v r] E].
  rewrite E. destruct r as [r|].
  - apply walk_report in E as (x&Hx&Hr). split; [intros ->; by apply nodeReason_nonempty in Hr|].
    intros H. by rewrite (H x Hx) in Hr.
  - split; [|done]. intros _. by eapply walk_silent_check.
Qed.

(** The preflight is exact: it is silent if and only if no strategy node
    reachable from the root carries an invalid override, and a reported reason
    is that of some reachable node. *)
Theorem FindInvalid_exact root :
  (FindInvalidReachableStrategyOverride reg prov chains root = "" <->
   forall x, preflight_reach root x -> nodeReason reg prov x = None)
  /\ (FindInvalidReachableStrategyOverride reg prov chains root <> "" ->
      exists x, preflight_reach root x /\
        nodeReason reg prov x = Some (FindInvalidReachableStrategyOverride reg prov chains root)).
Proof.
  split; [apply FindInvalid_silent|].
  unfold FindInvalidReachableStrategyOverride. destruct (preflight_total root) as [[v [r|]] E];
    rewrite E; [|done]. intros _. by eapply walk_report.
Qed.

(** On nodes with no invalid override, the two walkers take the same edges. *)
Lemma children_agree x :
  Validate reg = None -> nodeReason reg prov x = None ->
  reachableChildren reg prov chains x = preflightChildren reg prov chains x.
Proof.
  intros Hv Hn. unfold reachableChildren, preflightChildren, inStrategyGraph, resolveEffectiveProvider.
  rewrite isStrategyProvider_name. unfold IsResolvedStrategyParent.
  assert (lookupRuntimeClient reg x = findRuntimeClient reg x) as E by (by destruct reg).
  rewrite E. destruct (findRuntimeClient reg x) as [rc|] eqn:Ef; simpl; [|done].
  destruct (find_client_reg _ _ _ Ef) as (r&Hr&Hin&Hname). rewrite Hname.
  destruct (IsProviderPresent rc) eqn:Ep; [|done]. simpl.
  destruct (String.eqb_spec (cp_Provider rc) "") as [Hp|]; [|done]. exfalso.
  unfold nodeReason, hasInvalidProviderOverride in Hn. rewrite Ef, Ep, Hp in Hn.
  destruct (String.eqb_spec x "") as [Hx|]; [|done].
  rewrite Hr in Hv. apply Validate_loop_spec in Hv as [_ Hf]. rewrite Forall_forall in Hf.
  destruct (Hf (cp_Name rc)) as [Hne _]; [|congruence].
  apply list_elem_of_fmap. exists rc. split; [done|]. apply list_elem_of_omap. by exists (Some rc).
Qed.

Lemma reach_agree root x :
  Validate reg = None -> (forall y, preflight_reach root y -> nodeReason reg prov y = None) ->
  reachable root x -> preflight_reach root x.
Proof.
  intros Hv Hs Hr. induction Hr as [x|x y z _ Hy Hr IH]; [constructor|].
  assert (nodeReason reg prov x = None) as Hx by (apply Hs; constructor).
  rewrite children_agree in Hy by done. eapply reach_step; [done..|]. apply IH.
  intros u Hu. apply Hs. by eapply reach_step.
Qed.
End LegacyFacts.

(** The preflight covers what is forwarded: on a valid registry, when it is
    silent for a child, every runtime client forwarded to that child's callback
    is free of invalid overrides.  So an entry that the upstream parser would
    reject never reaches a callback, where a later sibling could mask it. *)
Theorem preflight_covers_forwarded r prov chains root e :
  Validate (Some r) = None ->
  FindInvalidReachableStrategyOverride (Some r) prov chains root = "" ->
  e ∈ BuildLegacyChildRegistryEntries (Some r) root prov chains ->
  nodeReason (Some r) prov (lc_Name e) = None
  /\ (lc_Provider e = "" -> exists c, Some c ∈ reg_Clients r /\ cp_Name c = lc_Name e
                              /\ IsProviderPresent c = false).
Proof.
  intros Hv Hs He. rewrite FindInvalid_silent in Hs.
  unfold BuildLegacyChildRegistryEntries in He. apply list_elem_of_omap in He as ([c|]&Hc&He); [|done].
  simpl in He. case_bool_decide as Hin; [done|].
  assert (e = mkEntryLC (cp_Name c) (UpstreamClientRegistryProvider c prov) (cp_Options c)) as ->
    by (repeat case_hyp He; by simplify_eq).
  simpl. assert (Hr : nodeReason (Some r) prov (cp_Name c) = None).
  { apply Hs, reach_agree; [done|done|]. apply computeReachable_spec.
    by destruct (decide (cp_Name c ∈ computeReachableSubgraph (Some r) prov chains root)). }
  split; [done|]. unfold UpstreamClientRegistryProvider. intros Hp. exists c. split_and!; [done..|].
  destruct (IsProviderPresent c) eqn:Ep; [|done]. exfalso.
  assert (cp_Provider c = "") as Hp0.
  { unfold TranslateUpstreamProvider in Hp. case_hyp Hp; [done|]. done. }
  pose proof Hv as [Hnd Hne]%Validate_loop_spec.
  unfold nodeReason, hasInvalidProviderOverride in Hr. simpl in Hr.
  rewrite (find_client_elem _ _ Hnd Hc), Ep, Hp0 in Hr. simpl in Hr.
  destruct (String.eqb_spec (cp_Name c) "") as [Hx|]; [|done].
  rewrite Forall_forall in Hne. destruct (Hne (cp_Name c)) as [? _]; [|done].
  apply list_elem_of_fmap. exists c. split; [done|]. apply list_elem_of_omap. by exists (Some c).
Qed.

Module LegacyTrace.
(** A runtime fallback over a dynamic leaf and a static round-robin client
    that points back at it, next to an unrelated leaf. *)
Definition registry : ClientRegistry := mkRegistry None
  [Some (mkClient "FB" "fallback" None (Some {[ "strategy" := GStrings ["Tenant"; "RR"] ]}) true);
   Some (mkClient "Tenant" "openai" None None true);
   None;
   Some (mkClient "Other" "anthropic" None None true)].
Definition providers : gmap string string := {[ "RR" := "baml-roundrobin" ]}.
Definition chains : gmap string (list string) := {[ "RR" := ["FB"; "Static"] ]}.
End LegacyTrace.

Lemma BuildLegacyChildRegistryEntries_spec_witness :
  BuildLegacyChildRegistryEntries (Some LegacyTrace.registry) "FB" LegacyTrace.providers LegacyTrace.chains
  = [mkEntryLC "FB" "fallback" (Some {[ "strategy" := GStrings ["Tenant"; "RR"] ]});
     mkEntryLC "Tenant" "openai" None]
  /\ exists kept : list ClientProperty, length kept = 2 /\ kept `sublist_of` omap id (reg_Clients LegacyTrace.registry).
Proof.
  split; [vm_compute; reflexivity|].
  destruct (BuildLegacyChildRegistryEntries_spec (Some LegacyTrace.registry) LegacyTrace.providers
    LegacyTrace.chains LegacyTrace.registry "FB" eq_refl) as (kept&Hs&Hk&_).
  exists kept. split; [|exact Hs]. apply (f_equal length) in Hk. rewrite length_fmap in Hk.
  rewrite <- Hk. vm_compute. reflexivity.
Defined.

Lemma preflight_covers_forwarded_witness :
  nodeReason (Some LegacyTrace.registry) LegacyTrace.providers "Tenant" = None.
Proof.
  refine (proj1 (preflight_covers_forwarded LegacyTrace.registry LegacyTrace.providers
    LegacyTrace.chains "FB" (mkEntryLC "Tenant" "openai" None) _ _ _)); try (vm_compute; reflexivity).
  rewrite (eq_refl : BuildLegacyChildRegistryEntries (Some LegacyTrace.registry) "FB" LegacyTrace.providers
    LegacyTrace.chains = [_; _]). right. left.
Defined.
