(* ===== verification/FallbackResolve.v ===== *)
(** * FallbackResolve: [bamlutils/buildrequest/fallback_resolve.go]

    Resolution of a fallback strategy into a plan: the ordered children, the
    provider that drives each, the children left to the legacy path, and the
    round-robin children unwrapped centrally to a leaf.

    A nil slice and an empty one are not told apart by the code that reads a
    resolution, so [Chain] is a list; a nil support predicate is [None]. *)

From S2P Require Import Prelude GoValue StrategyParse Registry SharedState RoundRobin ClientResolution Dfs LegacyChild.

(** [FallbackChainResolution]. *)
Record FallbackChainResolution := mkPlan {
  Chain : list string;
  Providers : gmap string string;
  LegacyChildren : gset string;
  Targets : gmap string string;
  NestedRoundRobin : gmap string RoundRobinInfo;
  Reason : string
}.

(** A resolution that only carries a reason. *)
Definition rejected (reason : string) : FallbackChainResolution := mkPlan [] ∅ ∅ ∅ ∅ reason.

(** The errors of the plan resolver. *)
Inductive PlanErr :=
  | ErrResolve (e : RRErr)
  | ErrDuplicateRRChild (client child : string) (prev i : nat).

(** The variables of the chain walk. *)
Record PlanState := mkPlanState {
  ps_providers : gmap string string;
  ps_legacy : gset string;
  ps_targets : gmap string string;
  ps_nested : gmap string RoundRobinInfo;
  ps_positions : gmap string nat;
  ps_legacyPositions : nat;
  ps_rrLegacy : bool;
  ps_rrCentral : bool
}.

Definition initPlanState : PlanState := mkPlanState ∅ ∅ ∅ ∅ ∅ 0 false false.

(** How the body of the walk leaves the loop early. *)
Inductive PlanExit :=
  | ExitReason (reason : string)
  | ExitErr (e : PlanErr).

(** [isCentralizationEligible]. *)
Definition isCentralizationEligible (leaf leafProvider : string)
    (isProviderSupported : option (string -> bool)) : bool :=
  if (leaf =s "") || (leafProvider =s "") then false
  else if isStrategyProvider leafProvider then false
  else match isProviderSupported with
       | None => false
       | Some f => f leafProvider
       end.

Section Plan.
Context {W : Type} `{Random W}.
Variable reg : option ClientRegistry.
Variable fallbackChains : gmap string (list string).
Variable clientProviders : gmap string string.
Variable isProviderSupported : option (string -> bool).
Variable advancer : option (Advancer W).

(** [resolveImmediateRRChild]. *)
Definition resolveImmediateRRChild (rrChildName : string) (w : W)
    : W * ((string * string * option RoundRobinInfo) + RRErr) :=
  let '(w, res) := Resolve advancer (mkInput rrChildName reg fallbackChains clientProviders) w in
  match res with
  | inr err => (w, inr err)
  | inl r =>
      let leaf := res_Selected r in
      (w, inl (leaf, ResolveClientProvider reg leaf clientProviders, res_Info r))
  end.

(** The provider goes into [chainProviders]. *)
Definition setProvider (child p : string) (st : PlanState) : PlanState :=
  mkPlanState (<[child:=p]> (ps_providers st)) (ps_legacy st) (ps_targets st) (ps_nested st)
    (ps_positions st) (ps_legacyPositions st) (ps_rrLegacy st) (ps_rrCentral st).

(** The last block of the body: the legacy classification of a child. *)
Definition classifyChild (child p : string) (st : PlanState) : PlanState :=
  if isStrategyProvider p || match isProviderSupported with Some f => negb (f p) | None => false end
  then mkPlanState (ps_providers st) ({[child]} ∪ ps_legacy st) (ps_targets st) (ps_nested st)
         (ps_positions st) (S (ps_legacyPositions st)) (ps_rrLegacy st) (ps_rrCentral st)
  else st.

(** A centralized round-robin child: its leaf's provider, its target, its
    decision. *)
Definition centralize (child leaf leafProvider : string) (info : option RoundRobinInfo)
    (st : PlanState) : PlanState :=
  mkPlanState (<[child:=leafProvider]> (ps_providers st)) (ps_legacy st)
    (if (leaf <>s child)%go then <[child:=leaf]> (ps_targets st) else ps_targets st)
    (match info with Some i => <[child:=i]> (ps_nested st) | None => ps_nested st end)
    (ps_positions st) (ps_legacyPositions st) (ps_rrLegacy st) true.

Definition markRRLegacy (st : PlanState) : PlanState :=
  mkPlanState (ps_providers st) (ps_legacy st) (ps_targets st) (ps_nested st)
    (ps_positions st) (ps_legacyPositions st) true (ps_rrCentral st).
Definition recordPosition (child : string) (i : nat) (st : PlanState) : PlanState :=
  mkPlanState (ps_providers st) (ps_legacy st) (ps_targets st) (ps_nested st)
    (<[child:=i]> (ps_positions st)) (ps_legacyPositions st) (ps_rrLegacy st) (ps_rrCentral st).

(** The branch of the body for a round-robin child. *)
Definition planRRChild (clientName : string) (i : nat) (child p : string) (st : PlanState) (w : W)
    : W * (PlanState + PlanExit) :=
  match ps_positions st !! child with
  | Some prev => (w, inr (ExitErr (ErrDuplicateRRChild clientName child prev i)))
  | None =>
      let st := recordPosition child i st in
      match isProviderSupported with
      | None => (w, inl (classifyChild child p (markRRLegacy st)))
      | Some _ =>
          let '(w, r) := resolveImmediateRRChild child w in
          match r with
          | inr err =>
              if errors_Is err ErrInvalidStrategyOverride
              then (w, inr (ExitReason PathReasonInvalidStrategyOverride))
              else if errors_Is err ErrInvalidStartOverride
              then (w, inr (ExitReason PathReasonInvalidRoundRobinStartOverride))
              else (w, inr (ExitErr (ErrResolve err)))
          | inl (leaf, leafProvider, info) =>
              if isCentralizationEligible leaf leafProvider isProviderSupported
              then (w, inl (centralize child leaf leafProvider info st))
              else (w, inl (classifyChild child p (markRRLegacy (setProvider child p st))))
          end
      end
  end.

(** The body of the chain walk. *)
Definition planChild (clientName : string) (i : nat) (child : string) (st : PlanState) (w : W)
    : W * (PlanState + PlanExit) :=
  if hasInvalidProviderOverride reg child
  then (w, inr (ExitReason PathReasonInvalidProviderOverride))
  else
    let p := ResolveClientProvider reg child clientProviders in
    if p =s "" then (w, inr (ExitReason PathReasonFallbackEmptyChildProvider))
    else
      let st := setProvider child p st in
      let reason :=
        if isStrategyProvider p
        then FindInvalidReachableStrategyOverride reg clientProviders fallbackChains child
        else "" in
      if reason <>s "" then (w, inr (ExitReason reason))
      else if IsRoundRobinProvider p then planRRChild clientName i child p st w
      else (w, inl (classifyChild child p st)).

(** The chain walk. *)
Fixpoint planLoop (clientName : string) (i : nat) (l : list string) (st : PlanState) (w : W)
    : W * (PlanState + PlanExit) :=
  match l with
  | [] => (w, inl st)
  | child :: l' =>
      match planChild clientName i child st w with
      | (w, inl st) => planLoop clientName (S i) l' st w
      | r => r
      end
  end.

(** The plan of a finished walk. *)
Definition planFinish (resolvedChain : list string) (st : PlanState) : FallbackChainResolution :=
  if ps_legacyPositions st =? length resolvedChain
  then rejected PathReasonFallbackAllLegacy
  else
    let reason :=
      if ps_rrCentral st then PathReasonFallbackRoundRobinChildBuildRequest
      else if ps_rrLegacy st then PathReasonFallbackRoundRobinChildLegacy
      else "" in
    mkPlan resolvedChain (ps_providers st) (ps_legacy st) (ps_targets st) (ps_nested st) reason.

(** [ResolveFallbackChainPlanForClient]; [inl None] is the nil resolution. *)
Definition ResolveFallbackChainPlanForClient (clientName : string) (w : W)
    : W * (option FallbackChainResolution + PlanErr) :=
  if ResolveClientProvider reg clientName clientProviders <>s "baml-fallback" then (w, inl None)
  else match InspectStrategyOverride reg clientName with
  | Invalid => (w, inl (Some (rejected PathReasonInvalidStrategyOverride)))
  | _ =>
      if hasExplicitStrategyProviderWithoutStrategy reg clientName
      then (w, inl (Some (rejected PathReasonInvalidStrategyOverride)))
      else
        let resolvedChain := resolveFallbackStrategyChain reg clientName fallbackChains in
        if length resolvedChain =? 0 then (w, inl (Some (rejected PathReasonFallbackEmptyChain)))
        else
          let '(w, r) := planLoop clientName 0 resolvedChain initPlanState w in
          match r with
          | inl st => (w, inl (Some (planFinish resolvedChain st)))
          | inr (ExitReason reason) => (w, inl (Some (rejected reason)))
          | inr (ExitErr err) => (w, inr err)
          end
  end.

(** ** The metadata-stable view *)

(** The walk of [resolveFallbackChainLegacyClassification]: providers, legacy
    children, legacy positions and whether a round-robin child was met. *)
Fixpoint legacyLoop (l : list string) (acc : gmap string string * gset string * nat * bool)
    : (gmap string string * gset string * nat * bool) + string :=
  match l with
  | [] => inl acc
  | child :: l' =>
      let '(chainProviders, chainLegacy, legacyPositions, hasRoundRobinChild) := acc in
      if hasInvalidProviderOverride reg child then inr PathReasonInvalidProviderOverride
      else
        let p := ResolveClientProvider reg child clientProviders in
        if p =s "" then inr PathReasonFallbackEmptyChildProvider
        else
          let reason :=
            if isStrategyProvider p
            then FindInvalidReachableStrategyOverride reg clientProviders fallbackChains child
            else "" in
          if reason <>s "" then inr reason
          else
            let legacy := isStrategyProvider p
              || match isProviderSupported with Some f => negb (f p) | None => false end in
            legacyLoop l'
              (<[child:=p]> chainProviders,
               (if legacy then {[child]} ∪ chainLegacy else chainLegacy),
               (if legacy then S legacyPositions else legacyPositions),
               (if IsRoundRobinProvider p then true else hasRoundRobinChild))
  end.

(** The four results of the wrappers. *)
Definition FourTuple : Type := list string * gmap string string * gset string * string.

(** [resolveFallbackChainLegacyClassification]. *)
Definition resolveFallbackChainLegacyClassification (clientName : string) : FourTuple :=
  if ResolveClientProvider reg clientName clientProviders <>s "baml-fallback" then ([], ∅, ∅, "")
  else match InspectStrategyOverride reg clientName with
  | Invalid => ([], ∅, ∅, PathReasonInvalidStrategyOverride)
  | _ =>
      if hasExplicitStrategyProviderWithoutStrategy reg clientName
      then ([], ∅, ∅, PathReasonInvalidStrategyOverride)
      else
        let resolvedChain := resolveFallbackStrategyChain reg clientName fallbackChains in
        if length resolvedChain =? 0 then ([], ∅, ∅, PathReasonFallbackEmptyChain)
        else match legacyLoop resolvedChain (∅, ∅, 0, false) with
             | inr reason => ([], ∅, ∅, reason)
             | inl (chainProviders, chainLegacy, legacyPositions, hasRoundRobinChild) =>
                 if legacyPositions =? length resolvedChain
                 then ([], ∅, ∅, PathReasonFallbackAllLegacy)
                 else if hasRoundRobinChild
                 then (resolvedChain, chainProviders, chainLegacy, PathReasonFallbackRoundRobinChildLegacy)
                 else (resolvedChain, chainProviders, chainLegacy, "")
             end
  end.

(** [resolveFallbackChainForClientWithAdvancer]. *)
Definition resolveFallbackChainForClientWithAdvancer (clientName : string) (w : W) : W * FourTuple :=
  let '(w, r) := ResolveFallbackChainPlanForClient clientName w in
  match r with
  | inr _ => (w, resolveFallbackChainLegacyClassification clientName)
  | inl None => (w, ([], ∅, ∅, ""))
  | inl (Some res) =>
      if (0 <? size (Targets res)) || (0 <? size (NestedRoundRobin res))
      then (w, resolveFallbackChainLegacyClassification clientName)
      else (w, (Chain res, Providers res, LegacyChildren res, Reason res))
  end.
End Plan.

Section Wrappers.
Context {W : Type} `{Random W}.
Variable adapter : Adapter W.
Variable defaultClientName : string.
Variable fallbackChains : gmap string (list string).
Variable clientProviders : gmap string string.
Variable isProviderSupported : option (string -> bool).

(** [ResolveFallbackChainPlan]. *)
Definition ResolveFallbackChainPlan (w : W) : W * (option FallbackChainResolution + PlanErr) :=
  ResolveFallbackChainPlanForClient (OriginalClientRegistry adapter) fallbackChains clientProviders
    isProviderSupported (RoundRobinAdvancer adapter) (ResolvePrimaryClient adapter defaultClientName) w.

(** [ResolveFallbackChainWithReason]. *)
Definition ResolveFallbackChainWithReason (w : W) : W * FourTuple :=
  resolveFallbackChainForClientWithAdvancer (OriginalClientRegistry adapter) fallbackChains
    clientProviders isProviderSupported (RoundRobinAdvancer adapter)
    (ResolvePrimaryClient adapter defaultClientName) w.

(** [ResolveFallbackChain]. *)
Definition ResolveFallbackChain (w : W) : W * (list string * gmap string string * gset string) :=
  let '(w, (chain, providers, legacyChildren, _)) := ResolveFallbackChainWithReason w in
  (w, (chain, providers, legacyChildren)).
End Wrappers.

(** [ResolveFallbackChainForClientWithReason]: no advancer at this seam. *)
Definition ResolveFallbackChainForClientWithReason {W} `{Random W} (reg : option ClientRegistry)
    (clientName : string) (fallbackChains : gmap string (list string))
    (clientProviders : gmap string string) (isProviderSupported : option (string -> bool)) (w : W)
    : W * FourTuple :=
  resolveFallbackChainForClientWithAdvancer reg fallbackChains clientProviders isProviderSupported
    None clientName w.

(** [ResolveFallbackChainForClient]. *)
Definition ResolveFallbackChainForClient {W} `{Random W} (reg : option ClientRegistry)
    (clientName : string) (fallbackChains : gmap string (list string))
    (clientProviders : gmap string string) (isProviderSupported : option (string -> bool)) (w : W)
    : W * (list string * gmap string string * gset string) :=
  let '(w, (chain, providers, legacyChildren, _)) :=
    ResolveFallbackChainForClientWithReason reg clientName fallbackChains clientProviders
      isProviderSupported w in
  (w, (chain, providers, legacyChildren)).

(** ** The preflight makes the resolver's sentinels unreachable *)

Lemma find_present_valid reg name :
  Validate reg = None ->
  find_present_client reg name =
    match findRuntimeClient reg name with
    | Some c => if IsProviderPresent c then Some c else None
    | None => None
    end.
Proof.
  destruct reg as [r|]; [|done]. intros [Hnd _]%Validate_loop_spec. by apply find_present_find.
Qed.

Section Preflight.
Context {W : Type} `{Random W}.
Variable reg : option ClientRegistry.
Variable chains : gmap string (list string).
Variable prov : gmap string string.
Variable advancer : option (Advancer W).
Hypothesis valid : Validate reg = None.
Hypothesis advancer_errors : forall adv w name n w' e,
  advancer = Some adv -> adv w name n = (w', inr e) -> sentinel e = false.

(** A round-robin client of the resolver is one of the preflight. *)
Lemma rrClient_effective root c :
  rrClient (mkInput root reg chains prov) c = true ->
  IsRoundRobinProvider (resolveEffectiveProvider reg prov c) = true.
Proof.
  unfold rrClient, resolveClientProvider, resolveEffectiveProvider.
  change (lookupRuntimeClient reg c) with (findRuntimeClient reg c). simpl.
  rewrite find_present_valid by done. destruct (findRuntimeClient reg c) as [rc|]; [|done].
  destruct (IsProviderPresent rc); [|done]. simpl.
  destruct (String.eqb_spec (cp_Provider rc) "") as [->|]; done.
Qed.

Lemma rrChain_override root c chain :
  rrChain (mkInput root reg chains prov) c = inl chain -> overrideChain reg chains c = chain.
Proof.
  unfold rrChain, overrideChain. simpl. intros Hc.
  destruct (InspectStrategyOverride reg c) as [| |ch]; [|done|by destruct ch; simplify_eq].
  case_hyp Hc; [done|]. by destruct (default [] (chains !! c)); simplify_eq.
Qed.

Lemma invalidRR_reason root c :
  invalidRR (mkInput root reg chains prov) c -> nodeReason reg prov c <> None.
Proof.
  intros [Hrr Hi]. pose proof (rrClient_effective _ _ Hrr) as Heff.
  assert (Hl : lookupRuntimeClient reg c = findRuntimeClient reg c) by (by destruct reg).
  unfold nodeReason, inStrategyGraph. rewrite Hl.
  assert (isStrategyProvider (resolveEffectiveProvider reg prov c) = true) as ->
    by (unfold isStrategyProvider; by rewrite Heff).
  destruct (hasInvalidProviderOverride reg c); [done|]. simpl. rewrite Heff.
  destruct Hi as [Hc|Hs]; simpl in *.
  - unfold rrChain, explicitRRWithoutStrategy in Hc. simpl in Hc.
    destruct (InspectStrategyOverride reg c) as [| |ch]; [|done|by destruct ch].
    destruct (findRuntimeClient reg c) as [rc|]; [|by destruct (default [] _)].
    destruct (IsProviderPresent rc); [|by destruct (default [] _)]. unfold isStrategyProvider. simpl in *.
    by destruct (IsRoundRobinProvider (cp_Provider rc)); [|destruct (default [] _)].
  - rewrite Hs. by repeat case_goal.
Qed.

Lemma rr_path_preflight root c y :
  rr_path (mkInput root reg chains prov) c y ->
  (forall x, preflight_reach reg prov chains c x -> nodeReason reg prov x = None) ->
  preflight_reach reg prov chains c y.
Proof.
  induction 1 as [c|c chain x y Hrr Hc Hx Hp IH]; intros Hs; [constructor|].
  assert (nodeReason reg prov c = None) as Hn by (apply Hs; constructor).
  assert (x ∈ preflightChildren reg prov chains c) as Hin.
  { unfold preflightChildren, inStrategyGraph, isStrategyProvider.
    rewrite (rrClient_effective _ _ Hrr). simpl. by rewrite (rrChain_override _ _ _ Hc). }
  eapply reach_step; [done..|]. apply IH. intros z Hz. apply Hs. by eapply reach_step.
Qed.

Lemma preflight_no_sentinel child w w' e :
  FindInvalidReachableStrategyOverride reg prov chains child = "" ->
  Resolve advancer (mkInput child reg chains prov) w = (w', inr e) -> sentinel e = false.
Proof.
  rewrite FindInvalid_silent. intros Hs Hr. destruct (sentinel e) eqn:He; [exfalso|done].
  unfold Resolve in Hr. destruct (String.eqb _ _); [done|].
  eapply Resolve_loop_sentinel in Hr as (c&Hp&Hc); eauto; [|constructor].
  simpl in Hp. apply invalidRR_reason in Hc. apply Hc, Hs. by eapply rr_path_preflight.
Qed.
End Preflight.

(** The defensive translation in the chain walk is dead code on a valid
    registry: when the preflight of a round-robin child is silent, unwrapping
    that child never fails with an invalid-override sentinel, whatever the
    advancer and the random numbers do. *)
Theorem preflight_subsumes_sentinels {W} `{Random W} reg chains prov (advancer : option (Advancer W)) child w :
  Validate reg = None ->
  (forall adv w name n w' e, advancer = Some adv -> adv w name n = (w', inr e) -> sentinel e = false) ->
  FindInvalidReachableStrategyOverride reg prov chains child = "" ->
  match snd (resolveImmediateRRChild reg chains prov advancer child w) with
  | inr e => errors_Is e ErrInvalidStrategyOverride = false /\ errors_Is e ErrInvalidStartOverride = false
  | inl _ => True
  end.
Proof.
  intros Hv Ha Hs. unfold resolveImmediateRRChild.
  destruct (Resolve advancer _ w) as [w1 [r|e]] eqn:E; [done|]. simpl.
  apply orb_false_iff. by eapply preflight_no_sentinel.
Qed.

Lemma preflight_subsumes_sentinels_witness :
  match snd (resolveImmediateRRChild None (ri_FallbackChains RRTrace.input) (ri_ClientProviders RRTrace.input)
               (Some coordinator_Advance) "outer" RRTrace.start) with
  | inr e => errors_Is e ErrInvalidStrategyOverride = false /\ errors_Is e ErrInvalidStartOverride = false
  | inl _ => True
  end.
Proof.
  apply preflight_subsumes_sentinels; [reflexivity| |vm_compute; reflexivity].
  intros adv w name n w' e [= <-] H. unfold coordinator_Advance in H. case_hyp H; [done|].
  by destruct (coordinator_counterFor w name).
Defined.

(** ** Well-formed plans *)

Section PlanFacts.
Context {W : Type} `{Random W}.
Variable reg : option ClientRegistry.
Variable chains : gmap string (list string).
Variable prov : gmap string string.
Variable supported : option (string -> bool).
Variable advancer : option (Advancer W).
Implicit Types (w : W).

Local Abbreviation P c := (ResolveClientProvider reg c prov).
Local Abbreviation rr_input c := (mkInput c reg chains prov).

(** Whether a provider sends a child to the legacy path. *)
Definition legacyProvider (p : string) : bool :=
  isStrategyProvider p || match supported with Some f => negb (f p) | None => false end.

(** What is known of the children walked so far. *)
Record PlanInv (done : list string) (st : PlanState) : Prop := {
  pi_provider : forall c, c ∈ done -> exists p, ps_providers st !! c = Some p /\ p <> ""
    /\ (c ∉ ps_legacy st -> legacyProvider p = false);
  pi_legacy : forall c, c ∈ ps_legacy st -> c ∈ done;
  pi_positions : forall c, is_Some (ps_positions st !! c) <-> c ∈ done /\ IsRoundRobinProvider (P c) = true;
  pi_class : forall c, c ∈ done -> IsRoundRobinProvider (P c) = false ->
    (c ∈ ps_legacy st <-> legacyProvider (P c) = true);
  pi_count : ps_legacyPositions st = length (filter (.∈ ps_legacy st) done);
  pi_target : forall c t, ps_targets st !! c = Some t ->
    c ∈ done /\ (c ∉ ps_legacy st) /\ IsRoundRobinProvider (P c) = true
    /\ ps_providers st !! c = Some (P t) /\ rrClient (rr_input c) t = false
    /\ exists i, ps_nested st !! c = Some i /\ info_ok (rr_input c) c i
         /\ rr_path (rr_input c) (rr_Selected i) t
}.

Lemma PlanInv_init : PlanInv [] initPlanState.
Proof.
  split; simpl; try set_solver.
  intros c. rewrite lookup_empty. split; [intros [? ?]; done|]. intros [?%elem_of_nil _]. done.
Qed.

(** Adding a child that is new, or classified as before. *)
Lemma count_snoc (done : list string) (legacy legacy' : gset string) child :
  (forall c, c ∈ done -> (c ∈ legacy' <-> c ∈ legacy)) ->
  length (filter (.∈ legacy') (done ++ [child]))
  = length (filter (.∈ legacy) done) + (if decide (child ∈ legacy') then 1 else 0).
Proof.
  intros Hc. rewrite filter_app, length_app. f_equal.
  - f_equal. clear child. induction done as [|c done IH]; [done|].
    rewrite !filter_cons, IH by (intros; apply Hc; by constructor).
    assert (c ∈ legacy' <-> c ∈ legacy) by (apply Hc; constructor).
    destruct (decide (c ∈ legacy')), (decide (c ∈ legacy)); tauto.
  - rewrite filter_cons, filter_nil. by case_decide.
Qed.

Lemma classify_unfold child p st :
  classifyChild supported child p st =
  if legacyProvider p
  then mkPlanState (ps_providers st) ({[child]} ∪ ps_legacy st) (ps_targets st) (ps_nested st)
         (ps_positions st) (S (ps_legacyPositions st)) (ps_rrLegacy st) (ps_rrCentral st)
  else st.
Proof. done. Qed.

(** An ordinary child. *)
Lemma PlanInv_leaf done st child :
  PlanInv done st -> P child <> "" -> IsRoundRobinProvider (P child) = false ->
  PlanInv (done ++ [child]) (classifyChild supported child (P child) (setProvider child (P child) st)).
Proof.
  intros [H1 H2 H3 H4 H5 H6] Hne Hrr. rewrite classify_unfold.
  assert (Hold : child ∈ done -> (child ∈ ps_legacy st <-> legacyProvider (P child) = true)) by auto.
  assert (Ht : forall c t, ps_targets st !! c = Some t -> c <> child).
  { intros c t Hc ->. destruct (H6 _ _ Hc) as (_&_&?&_). congruence. }
  destruct (legacyProvider (P child)) eqn:El; split; simpl.
  - intros c [Hc| ->%list_elem_of_singleton]%elem_of_app.
    + destruct (decide (c = child)) as [->|Hcc]; [exists (P child); rewrite lookup_insert_eq; set_solver|].
      rewrite lookup_insert_ne by done. destruct (H1 c Hc) as (p&?&?&?). exists p. set_solver.
    + exists (P child). rewrite lookup_insert_eq. set_solver.
  - set_solver.
  - intros c. rewrite H3, elem_of_app, list_elem_of_singleton. split; [tauto|].
    intros [[?| ->] ?]; [done|congruence].
  - intros c [Hc| ->%list_elem_of_singleton]%elem_of_app Hr; [|set_solver].
    destruct (decide (c = child)) as [->|]; [set_solver|]. rewrite elem_of_union, H4 by done. set_solver.
  - rewrite (count_snoc _ (ps_legacy st)), H5 by set_solver. rewrite decide_True by set_solver. lia.
  - intros c t Hc. pose proof (Ht _ _ Hc). rewrite lookup_insert_ne by done.
    destruct (H6 _ _ Hc) as (?&?&?&?&?&?). split_and!; try done; set_solver.
  - intros c [Hc| ->%list_elem_of_singleton]%elem_of_app.
    + destruct (decide (c = child)) as [->|Hcc]; [exists (P child); by rewrite lookup_insert_eq|].
      rewrite lookup_insert_ne by done. by apply H1.
    + exists (P child). by rewrite lookup_insert_eq.
  - set_solver.
  - intros c. rewrite H3, elem_of_app, list_elem_of_singleton. split; [tauto|].
    intros [[?| ->] ?]; [done|congruence].
  - intros c [Hc| ->%list_elem_of_singleton]%elem_of_app Hr; [by apply H4|].
    rewrite El. split; [|done]. intros Hc. discriminate (proj1 (Hold (H2 _ Hc)) Hc).
  - rewrite (count_snoc _ (ps_legacy st)), H5 by done. rewrite decide_False; [lia|].
    intros Hc. discriminate (proj1 (Hold (H2 _ Hc)) Hc).
  - intros c t Hc. pose proof (Ht _ _ Hc). rewrite lookup_insert_ne by done.
    destruct (H6 _ _ Hc) as (?&?&?&?&?&?). split_and!; try done; set_solver.
Qed.

(** A round-robin child that was not met before. *)
Lemma PlanInv_rr done st st' child :
  PlanInv done st -> IsRoundRobinProvider (P child) = true -> ps_positions st !! child = None ->
  (exists i, ps_positions st' = <[child:=i]> (ps_positions st)) ->
  (forall c, c <> child -> ps_providers st' !! c = ps_providers st !! c) ->
  (forall c, c <> child -> ps_targets st' !! c = ps_targets st !! c) ->
  (forall c, c <> child -> ps_nested st' !! c = ps_nested st !! c) ->
  (exists p, ps_providers st' !! child = Some p /\ p <> "" /\ (child ∉ ps_legacy st' -> legacyProvider p = false)) ->
  (ps_legacy st' = ps_legacy st /\ ps_legacyPositions st' = ps_legacyPositions st
   \/ ps_legacy st' = {[child]} ∪ ps_legacy st /\ ps_legacyPositions st' = S (ps_legacyPositions st)) ->
  (forall t, ps_targets st' !! child = Some t ->
    (child ∉ ps_legacy st') /\ ps_providers st' !! child = Some (P t) /\ rrClient (rr_input child) t = false
    /\ exists i, ps_nested st' !! child = Some i /\ info_ok (rr_input child) child i
         /\ rr_path (rr_input child) (rr_Selected i) t) ->
  PlanInv (done ++ [child]) st'.
Proof.
  intros [H1 H2 H3 H4 H5 H6] Hrr Hpos [i Hp] Hpr Htg Hns Hch Hl Ht.
  assert (Hnew : child ∉ done). { intros Hin. destruct (proj2 (H3 child) (conj Hin Hrr)). congruence. }
  assert (Hleg : child ∉ ps_legacy st) by (intros ?%H2; done).
  assert (Hsame : forall c, c <> child -> (c ∈ ps_legacy st' <-> c ∈ ps_legacy st))
    by (intros c Hne; destruct Hl as [[-> _]|[-> _]]; set_solver).
  assert (Hcc : forall c, c ∈ done -> c <> child) by (by intros c Hc ->).
  split.
  - intros c [Hc| ->%list_elem_of_singleton]%elem_of_app; [|done].
    pose proof (Hcc c Hc). rewrite Hpr by done. destruct (H1 c Hc) as (p&?&?&Hx). exists p.
    split_and!; [done..|]. intros Hn. apply Hx. by rewrite <- Hsame.
  - destruct Hl as [[-> _]|[-> _]]; set_solver.
  - intros c. rewrite Hp, elem_of_app, list_elem_of_singleton, lookup_insert_is_Some, H3.
    split; [intros [<-|[_ ?]]; tauto|]. intros [[?| ->] ?]; [right|by left].
    split; [by apply not_eq_sym, Hcc|done].
  - intros c [Hc| ->%list_elem_of_singleton]%elem_of_app Hr; [|congruence].
    rewrite Hsame by auto. by apply H4.
  - rewrite (count_snoc _ (ps_legacy st)) by auto. rewrite <- H5.
    destruct Hl as [[-> ->]|[-> ->]]; [rewrite decide_False by done|rewrite decide_True by set_solver]; lia.
  - intros c t Hc. destruct (decide (c = child)) as [->|Hne].
    + destruct (Ht _ Hc) as (?&?&?&?). split_and!; try done. set_solver.
    + rewrite Htg in Hc by done. rewrite Hpr, Hns, Hsame by done.
      destruct (H6 _ _ Hc) as (?&?&?&?&?&?). split_and!; try done. set_solver.
Qed.

Lemma rr_legacy c : IsRoundRobinProvider (P c) = true -> legacyProvider (P c) = true.
Proof. unfold legacyProvider, isStrategyProvider. by intros ->. Qed.

(** No target is recorded for a round-robin child that was not met before. *)
Lemma no_target done st child :
  PlanInv done st -> ps_positions st !! child = None -> ps_targets st !! child = None.
Proof.
  intros HI Hp. destruct (ps_targets st !! child) as [t|] eqn:E; [|done]. exfalso.
  destruct (pi_target _ _ HI _ _ E) as (?&_&?&_).
  destruct (proj2 (pi_positions _ _ HI child)); [done|congruence].
Qed.

(** The round-robin child stays on the legacy path. *)
Lemma PlanInv_rr_legacy done st child i :
  PlanInv done st -> P child <> "" -> IsRoundRobinProvider (P child) = true ->
  ps_positions st !! child = None ->
  PlanInv (done ++ [child]) (classifyChild supported child (P child)
    (markRRLegacy (recordPosition child i (setProvider child (P child) st)))).
Proof.
  intros HI Hne Hrr Hp. rewrite classify_unfold, rr_legacy by done.
  eapply (PlanInv_rr _ st); simpl; eauto.
  - intros c Hc. by rewrite lookup_insert_ne.
  - exists (P child). rewrite lookup_insert_eq. set_solver.
  - intros t Ht. by rewrite (no_target done st child HI Hp) in Ht.
Qed.

(** The round-robin child is unwrapped to a leaf. *)
Lemma PlanInv_rr_central done st child i w w' leaf lp info :
  PlanInv done st -> IsRoundRobinProvider (P child) = true -> ps_positions st !! child = None ->
  resolveImmediateRRChild reg chains prov advancer child w = (w', inl (leaf, lp, info)) ->
  isCentralizationEligible leaf lp supported = true ->
  PlanInv (done ++ [child])
    (centralize child leaf lp info (recordPosition child i (setProvider child (P child) st)))
  /\ is_Some info.
Proof.
  intros HI Hrr Hp Hres Hel. unfold resolveImmediateRRChild in Hres.
  destruct (Resolve advancer (rr_input child) w) as [w1 [r|e]] eqn:Er; simplify_eq.
  unfold isCentralizationEligible in Hel.
  destruct (String.eqb_spec (res_Selected r) ""); [done|].
  destruct (String.eqb_spec (P (res_Selected r)) "") as [|Hlp]; [done|]. simpl in Hel.
  assert (child <> "") as Hcne.
  { intros ->. unfold Resolve in Er. simpl in Er. by simplify_eq. }
  destruct (Resolve_leaf advancer (rr_input child) _ _ _ Hcne Er) as [Hleaf Hinfo]. simpl in Hinfo.
  assert (Hcrr : rrClient (rr_input child) child = true).
  { unfold rrClient. simpl. by rewrite <- ResolveClientProvider_isRR. }
  destruct (res_Info r) as [ri|]; [|congruence]. destruct Hinfo as [Hok Hpath].
  split; [|done]. eapply (PlanInv_rr _ st); simpl; eauto.
  - intros c Hc. by rewrite !lookup_insert_ne.
  - intros c Hc. case_goal; [by rewrite lookup_insert_ne|done].
  - intros c Hc. by rewrite lookup_insert_ne.
  - exists (P (res_Selected r)). rewrite lookup_insert_eq. split_and!; [done..|]. intros _.
    unfold legacyProvider. destruct (isStrategyProvider _); [done|]. destruct supported; [|done].
    by rewrite Hel.
  - intros t Ht. assert (t = res_Selected r) as ->.
    { case_hyp Ht; [by rewrite lookup_insert_eq in Ht; simplify_eq|].
      by rewrite (no_target done st child HI Hp) in Ht. }
    split_and!; [|by rewrite lookup_insert_eq|done|].
    + intros Hl%(pi_legacy _ _ HI). destruct (proj2 (pi_positions _ _ HI child) (conj Hl Hrr)). congruence.
    + exists ri. by rewrite lookup_insert_eq.
Qed.

Lemma planChild_inv done cn i child st w w' st' :
  PlanInv done st -> planChild reg chains prov supported advancer cn i child st w = (w', inl st') ->
  PlanInv (done ++ [child]) st'.
Proof.
  intros HI Hc. unfold planChild in Hc.
  destruct (hasInvalidProviderOverride reg child); [done|].
  destruct (String.eqb_spec (P child) "") as [|Hne]; [done|].
  case_hyp Hc; [done|].
  destruct (IsRoundRobinProvider (P child)) eqn:Hrr; [|simplify_eq; by apply PlanInv_leaf].
  unfold planRRChild in Hc. simpl in Hc.
  destruct (ps_positions st !! child) as [prev|] eqn:Ep; [done|].
  destruct supported as [f|] eqn:Es; [rewrite <- Es in *|rewrite <- Es in *; simplify_eq; by apply PlanInv_rr_legacy].
  destruct (resolveImmediateRRChild _ _ _ _ child w) as [w1 [[[leaf lp] info]|e]] eqn:Er;
    [|repeat case_hyp Hc; done].
  destruct (isCentralizationEligible leaf lp supported) eqn:El; simplify_eq.
  - by eapply PlanInv_rr_central.
  - replace (setProvider child (P child) (recordPosition child i (setProvider child (P child) st)))
      with (recordPosition child i (setProvider child (P child) st)); [by apply PlanInv_rr_legacy|].
    unfold setProvider, recordPosition. simpl. by rewrite insert_insert_eq.
Qed.

Lemma planLoop_inv l : forall done cn i st w w' st',
  PlanInv done st -> planLoop reg chains prov supported advancer cn i l st w = (w', inl st') ->
  PlanInv (done ++ l) st'.
Proof.
  induction l as [|child l IH]; intros done cn i st w w' st' HI Hl; simpl in Hl.
  - simplify_eq. by rewrite app_nil_r.
  - destruct (planChild _ _ _ _ _ cn i child st w) as [w1 [st1|e]] eqn:Ec; [|done].
    rewrite cons_middle, (assoc (++)). eapply IH; [|done]. by eapply planChild_inv.
Qed.

(** A plan BuildRequest can drive. *)
Record drivable (clientName : string) (plan : FallbackChainResolution) : Prop := {
  dr_chain : Chain plan = resolveFallbackStrategyChain reg clientName chains;
  dr_provider : forall c, c ∈ Chain plan -> exists p, Providers plan !! c = Some p /\ p <> ""
    /\ (c ∉ LegacyChildren plan -> legacyProvider p = false);
  dr_some : exists c, c ∈ Chain plan /\ (c ∉ LegacyChildren plan);
  dr_legacy : forall c, c ∈ LegacyChildren plan -> c ∈ Chain plan;
  dr_target : forall c t, Targets plan !! c = Some t ->
    c ∈ Chain plan /\ (c ∉ LegacyChildren plan) /\ IsRoundRobinProvider (P c) = true
    /\ Providers plan !! c = Some (P t) /\ rrClient (rr_input c) t = false
    /\ exists i, NestedRoundRobin plan !! c = Some i /\ info_ok (rr_input c) c i
         /\ rr_path (rr_input c) (rr_Selected i) t
}.

Lemma planFinish_drivable cn chain st :
  chain = resolveFallbackStrategyChain reg cn chains -> chain <> [] -> PlanInv chain st ->
  Chain (planFinish chain st) = [] \/ drivable cn (planFinish chain st).
Proof.
  intros Hc Hne [H1 H2 H3 H4 H5 H6]. unfold planFinish.
  destruct (Nat.eqb_spec (ps_legacyPositions st) (length chain)) as [|Hn]; [by left|right].
  split; simpl; auto.
  rewrite H5 in Hn. clear -Hn. induction chain as [|c chain IH]; [done|].
  rewrite filter_cons in Hn. destruct (decide (c ∈ ps_legacy st)).
  - destruct IH as (d&?&?); [simpl in Hn; lia|]. exists d. by split; [constructor|].
  - exists c. by split; [constructor|].
Qed.
End PlanFacts.

(** Every plan the resolver returns can be driven: its chain is the
    effective child list of the client, in order; every child has a nonempty
    provider; at least one child is not legacy; a child that is not legacy has a
    supported provider that is not a strategy; and a dispatch target exists only
    for a round-robin child that is not legacy, is a leaf reached from the
    reported rotation decision, and its provider is the one the plan lists. *)
Theorem ResolveFallbackChainPlan_drivable {W} `{Random W} reg chains prov supported
    (advancer : option (Advancer W)) clientName w w' plan :
  ResolveFallbackChainPlanForClient reg chains prov supported advancer clientName w
    = (w', inl (Some plan)) ->
  Chain plan <> [] -> drivable reg chains prov supported clientName plan.
Proof.
  unfold ResolveFallbackChainPlanForClient. intros Hr Hne.
  case_hyp Hr; [done|]. set (chain := resolveFallbackStrategyChain reg clientName chains) in Hr.
  assert (forall r, rejected r = plan -> False) as Hrej by (intros r <-; done).
  destruct (InspectStrategyOverride reg clientName) eqn:Ei;
    try (injection Hr as _ Hr; by apply Hrej in Hr);
    (destruct (hasExplicitStrategyProviderWithoutStrategy reg clientName);
      [injection Hr as _ Hr; by apply Hrej in Hr|]);
    (destruct (Nat.eqb_spec (length chain) 0) as [|Hlen]; [injection Hr as _ Hr; by apply Hrej in Hr|]);
    (destruct (planLoop _ _ _ _ _ clientName 0 chain initPlanState w) as [w1 [st|[reason|err]]] eqn:El;
      [|injection Hr as _ Hr; by apply Hrej in Hr|done]);
    injection Hr as _ <-;
    (eapply planLoop_inv in El; [|by apply PlanInv_init]);
    (destruct (planFinish_drivable reg chains prov supported clientName chain st) as [?|?];
      [done|by intros ->|exact El|done|done]).
Qed.

(** ** The metadata-stable view does not depend on the rotation *)

Section Stable.
Context {W : Type} `{Random W}.
Variable reg : option ClientRegistry.
Variable chains : gmap string (list string).
Variable prov : gmap string string.
Variable supported : option (string -> bool).
Variable advancer : option (Advancer W).
Hypothesis valid : Validate reg = None.
Hypothesis advancer_errors : forall adv w name n w' e,
  advancer = Some adv -> adv w name n = (w', inr e) -> sentinel e = false.

Definition legacyAcc (st : PlanState) : gmap string string * gset string * nat * bool :=
  (ps_providers st, ps_legacy st, ps_legacyPositions st, ps_rrLegacy st).

(** The walk and the legacy walk, one child each: they leave for the same
    reason, and continue with the same classification unless the child was
    centralized, which is on record. *)
Definition agrees (child : string) (st : PlanState) (r : PlanState + PlanExit) : Prop :=
  match r with
  | inr (ExitErr _) => True
  | inr (ExitReason reason) => forall l acc,
      legacyLoop reg chains prov supported (child :: l) acc = inr reason
  | inl st' =>
      (forall l acc, exists acc', legacyLoop reg chains prov supported (child :: l) acc
         = legacyLoop reg chains prov supported l acc')
      /\ (ps_rrCentral st = true -> ps_rrCentral st' = true)
      /\ (ps_nested st <> ∅ -> ps_nested st' <> ∅)
      /\ ps_legacyPositions st' <= S (ps_legacyPositions st)
      /\ (ps_rrCentral st' = true -> ps_rrCentral st = false ->
            ps_nested st' <> ∅ /\ ps_legacyPositions st' = ps_legacyPositions st)
      /\ (ps_rrCentral st' = false -> forall l,
            legacyLoop reg chains prov supported (child :: l) (legacyAcc st)
            = legacyLoop reg chains prov supported l (legacyAcc st'))
  end.

Lemma legacyLoop_cons child l acc :
  legacyLoop reg chains prov supported (child :: l) acc =
  let '(cp, cl, n, rr) := acc in
  if hasInvalidProviderOverride reg child then inr PathReasonInvalidProviderOverride
  else if ResolveClientProvider reg child prov =s "" then inr PathReasonFallbackEmptyChildProvider
  else if (if isStrategyProvider (ResolveClientProvider reg child prov)
           then FindInvalidReachableStrategyOverride reg prov chains child else "") <>s ""
  then inr (if isStrategyProvider (ResolveClientProvider reg child prov)
            then FindInvalidReachableStrategyOverride reg prov chains child else "")
  else legacyLoop reg chains prov supported l
         (<[child:=ResolveClientProvider reg child prov]> cp,
          (if legacyProvider supported (ResolveClientProvider reg child prov) then {[child]} ∪ cl else cl),
          (if legacyProvider supported (ResolveClientProvider reg child prov) then S n else n),
          (if IsRoundRobinProvider (ResolveClientProvider reg child prov) then true else rr)).
Proof. done. Qed.

(** The classification of a child that is not centralized. *)
Lemma agrees_classify child st st' :
  hasInvalidProviderOverride reg child = false ->
  ResolveClientProvider reg child prov <> "" ->
  (isStrategyProvider (ResolveClientProvider reg child prov) = true ->
   FindInvalidReachableStrategyOverride reg prov chains child = "") ->
  ps_providers st' = <[child:=ResolveClientProvider reg child prov]> (ps_providers st) ->
  ps_legacy st' = (if legacyProvider supported (ResolveClientProvider reg child prov)
                   then {[child]} ∪ ps_legacy st else ps_legacy st) ->
  ps_legacyPositions st' = (if legacyProvider supported (ResolveClientProvider reg child prov)
                   then S (ps_legacyPositions st) else ps_legacyPositions st) ->
  ps_rrLegacy st' = (if IsRoundRobinProvider (ResolveClientProvider reg child prov) then true else ps_rrLegacy st) ->
  ps_nested st' = ps_nested st -> ps_rrCentral st' = ps_rrCentral st ->
  agrees child st (inl st').
Proof.
  intros H1 H2 H3 E1 E2 E3 E4 E5 E6. apply String.eqb_neq in H2.
  assert (Hreason : (if isStrategyProvider (ResolveClientProvider reg child prov)
    then FindInvalidReachableStrategyOverride reg prov chains child else "") = "")
    by (destruct (isStrategyProvider _); auto).
  assert (Hstep : forall l, legacyLoop reg chains prov supported (child :: l) (legacyAcc st)
            = legacyLoop reg chains prov supported l (legacyAcc st')).
  { intros l. rewrite legacyLoop_cons. unfold legacyAcc at 1. rewrite H1, H2, Hreason. simpl.
    unfold legacyAcc. by rewrite E1, E2, E3, E4. }
  unfold agrees. split_and!.
  - intros l [[[cp cl] n] rr]. rewrite legacyLoop_cons, H1, H2, Hreason. eexists. reflexivity.
  - congruence.
  - by rewrite E5.
  - rewrite E3. case_goal; lia.
  - congruence.
  - done.
Qed.

Lemma planChild_agrees cn i child st w :
  agrees child st (snd (planChild reg chains prov supported advancer cn i child st w)).
Proof.
  unfold planChild. set (p := ResolveClientProvider reg child prov).
  destruct (hasInvalidProviderOverride reg child) eqn:H1.
  { intros l [[[cp cl] n] rr]. by rewrite legacyLoop_cons, H1. }
  destruct (String.eqb_spec p "") as [Hp|Hp].
  { intros l [[[cp cl] n] rr]. rewrite legacyLoop_cons, H1. fold p. by rewrite Hp. }
  pose proof Hp as Hp'. apply String.eqb_neq in Hp'.
  destruct (String.eqb_spec (if isStrategyProvider p
    then FindInvalidReachableStrategyOverride reg prov chains child else "") "") as [Hr|Hr]; cbn [negb].
  2: { intros l [[[cp cl] n] rr]. rewrite legacyLoop_cons, H1. fold p. rewrite Hp'.
       apply String.eqb_neq in Hr. by rewrite Hr. }
  assert (Hfind : isStrategyProvider p = true -> FindInvalidReachableStrategyOverride reg prov chains child = "")
    by (intros E; by rewrite E in Hr).
  destruct (IsRoundRobinProvider p) eqn:Hrr.
  2: { apply agrees_classify; try done; unfold classifyChild; fold (legacyProvider supported p); fold p;
       rewrite ?Hrr; by destruct (legacyProvider supported p). }
  assert (Hleg : legacyProvider supported p = true) by (by apply rr_legacy).
  unfold planRRChild. simpl. destruct (ps_positions st !! child); [done|].
  destruct supported as [f|] eqn:Es; rewrite <- Es in *; fold p.
  2: { apply agrees_classify; try done; rewrite classify_unfold, Hleg; fold p; by rewrite ?Hleg, ?Hrr. }
  destruct (resolveImmediateRRChild reg chains prov advancer child w) as [w1 [[[leaf lp] info]|e]] eqn:Er.
  - destruct (isCentralizationEligible leaf lp supported) eqn:El.
    + assert (is_Some info) as [ri ->].
      { unfold resolveImmediateRRChild in Er.
        destruct (Resolve advancer _ w) as [w2 [r|e]] eqn:E; simplify_eq.
        assert (child <> "") as Hne.
        { intros ->. unfold Resolve in E. simpl in E. by simplify_eq. }
        destruct (Resolve_leaf advancer (mkInput child reg chains prov) _ _ _ Hne E) as [Hl Hi]. destruct (res_Info r); [done|].
        simpl in Hi. exfalso. rewrite Hi in Hl. unfold rrClient in Hl. simpl in Hl.
        rewrite <- ResolveClientProvider_isRR in Hl. fold p in Hl. congruence. }
      assert (Hins : <[child:=ri]> (ps_nested st) <> ∅).
      { intros E. apply (f_equal (lookup child)) in E. by rewrite lookup_insert_eq, lookup_empty in E. }
      unfold agrees. split_and!; try done.
      * intros l [[[cp cl] n] rr]. rewrite legacyLoop_cons, H1. fold p. rewrite Hp', Hr. eexists. reflexivity.
      * simpl. lia.
    + apply agrees_classify; try done; rewrite classify_unfold, Hleg; fold p; rewrite ?Hleg, ?Hrr; simpl; try done.
      by rewrite insert_insert_eq.
  - assert (sentinel e = false) as [-> ->]%orb_false_iff; [|done].
    unfold resolveImmediateRRChild in Er. destruct (Resolve advancer _ w) as [w2 [r|e']] eqn:E; simplify_eq.
    eapply preflight_no_sentinel; eauto. apply Hfind. unfold isStrategyProvider. by rewrite Hrr.
Qed.

Lemma planLoop_agrees cn l : forall i st w,
  match snd (planLoop reg chains prov supported advancer cn i l st w) with
  | inr (ExitErr _) => True
  | inr (ExitReason reason) => forall acc, legacyLoop reg chains prov supported l acc = inr reason
  | inl st' =>
      (ps_rrCentral st' = false ->
         legacyLoop reg chains prov supported l (legacyAcc st) = inl (legacyAcc st') /\ ps_rrCentral st = false)
      /\ ps_legacyPositions st' <= ps_legacyPositions st + length l
      /\ (ps_nested st <> ∅ -> ps_nested st' <> ∅)
      /\ (ps_rrCentral st' = true -> ps_rrCentral st = false ->
            ps_nested st' <> ∅ /\ ps_legacyPositions st' < ps_legacyPositions st + length l)
  end.
Proof.
  induction l as [|child l IH]; intros i st w.
  - simpl. split_and!; try done; [lia|]. intros. congruence.
  - pose proof (planChild_agrees cn i child st w) as Hc. cbn [planLoop].
    destruct (planChild _ _ _ _ _ cn i child st w) as [w1 [st1|[reason|err]]]; simpl snd in Hc;
      [|exact (Hc l)|done].
    destruct Hc as (Hc1&Hc2&Hc3&Hc4&Hc5&Hc6). specialize (IH (S i) st1 w1).
    destruct (snd (planLoop _ _ _ _ _ cn (S i) l st1 w1)) as [st'|[reason|err]]; [|..|done].
    + destruct IH as (I1&I2&I3&I4). simpl length. split_and!.
      * intros Hf. destruct (I1 Hf) as [E Ef]. rewrite Hc6 by done. split; [done|].
        destruct (ps_rrCentral st); [|done]. by rewrite Hc2 in Ef.
      * lia.
      * auto.
      * intros Ht Hf. destruct (ps_rrCentral st1) eqn:E1.
        -- destruct (Hc5 eq_refl Hf). split; [auto|lia].
        -- destruct (I4 Ht eq_refl). split; [done|lia].
    + intros acc. destruct (Hc1 l acc) as [acc' ->]. apply IH.
Qed.

(** The end of the legacy classification. *)
Definition legacyFinish (chain : list string)
    (r : (gmap string string * gset string * nat * bool) + string) : FourTuple :=
  match r with
  | inr reason => ([], ∅, ∅, reason)
  | inl (cp, cl, n, rr) =>
      if n =? length chain then ([], ∅, ∅, PathReasonFallbackAllLegacy)
      else if rr then (chain, cp, cl, PathReasonFallbackRoundRobinChildLegacy) else (chain, cp, cl, "")
  end.

Lemma stable_finish cn chain w T :
  length chain <> 0 ->
  T = legacyFinish chain (legacyLoop reg chains prov supported chain (∅, ∅, 0, false)) ->
  snd (let '(w, r) :=
      let '(w, r) := planLoop reg chains prov supported advancer cn 0 chain initPlanState w in
      match r with
      | inl st => (w, inl (Some (planFinish chain st)))
      | inr (ExitReason reason) => (w, inl (Some (rejected reason)))
      | inr (ExitErr err) => (w, inr err)
      end in
    match r with
    | inr _ => (w, T)
    | inl None => (w, ([], ∅, ∅, ""))
    | inl (Some res) =>
        if (0 <? size (Targets res)) || (0 <? size (NestedRoundRobin res)) then (w, T)
        else (w, (Chain res, Providers res, LegacyChildren res, Reason res))
    end) = T.
Proof.
  intros Hne HT. pose proof (planLoop_agrees cn chain 0 initPlanState w) as Ha.
  destruct (planLoop _ _ _ _ _ cn 0 chain initPlanState w) as [w1 [st|[reason|err]]]; simpl in Ha; simpl; [|..|done].
  - destruct Ha as (A1&A2&A3&A4). unfold planFinish. destruct (ps_rrCentral st) eqn:Ec.
    + destruct (A4 eq_refl eq_refl) as [Hn Hlt].
      replace (ps_legacyPositions st =? length chain) with false by lia. simpl.
      assert (0 < size (ps_nested st)) as Hs.
      { destruct (decide (size (ps_nested st) = 0)) as [Hz|]; [|lia]. by apply map_size_empty_inv in Hz. }
      replace (0 <? size (ps_nested st)) with true by lia. by rewrite orb_true_r.
    + destruct (A1 eq_refl) as [E _]. change (∅, ∅, 0, false) with (legacyAcc initPlanState) in HT.
      rewrite E in HT. unfold legacyAcc, legacyFinish in HT. subst T.
      destruct (ps_legacyPositions st =? length chain); [done|]. simpl.
      destruct (_ || _); simpl; by destruct (ps_rrLegacy st).
  - rewrite HT, Ha. done.
Qed.

(** Metadata stability: on a valid registry the four-tuple view of a
    fallback chain is the legacy classification, whatever rotation, random
    choice, transport failure or centralization happened while the typed plan
    was resolved; so what metadata reports for a chain never depends on the
    state of the counters. *)
Theorem four_tuple_stable clientName w :
  snd (resolveFallbackChainForClientWithAdvancer reg chains prov supported advancer clientName w)
  = resolveFallbackChainLegacyClassification reg chains prov supported clientName.
Proof.
  unfold resolveFallbackChainForClientWithAdvancer, ResolveFallbackChainPlanForClient.
  destruct (negb (String.eqb (ResolveClientProvider reg clientName prov) "baml-fallback")) eqn:Ep.
  { unfold resolveFallbackChainLegacyClassification. by rewrite Ep. }
  set (chain := resolveFallbackStrategyChain reg clientName chains).
  assert (Hcls : resolveFallbackChainLegacyClassification reg chains prov supported clientName =
    match InspectStrategyOverride reg clientName with
    | Invalid => ([], ∅, ∅, PathReasonInvalidStrategyOverride)
    | _ => if hasExplicitStrategyProviderWithoutStrategy reg clientName
           then ([], ∅, ∅, PathReasonInvalidStrategyOverride)
           else if length chain =? 0 then ([], ∅, ∅, PathReasonFallbackEmptyChain)
           else legacyFinish chain (legacyLoop reg chains prov supported chain (∅, ∅, 0, false))
    end) by (unfold resolveFallbackChainLegacyClassification; by rewrite Ep).
  destruct (InspectStrategyOverride reg clientName); simpl; [|by rewrite Hcls|];
    (destruct (hasExplicitStrategyProviderWithoutStrategy reg clientName); simpl; [by rewrite Hcls|]);
    (destruct (Nat.eqb_spec (length chain) 0) as [|Hne]; simpl; [by rewrite Hcls|]);
    apply stable_finish; done.
Qed.
End Stable.

Module PlanTrace.
(** A fallback over a round-robin client, a plain leaf and an unsupported one. *)
Definition chains : gmap string (list string) :=
  {[ "FB" := ["RR"; "Leaf"; "Odd"]; "RR" := ["A"; "B"] ]}.
Definition providers : gmap string string :=
  {[ "FB" := "fallback"; "RR" := "round-robin"; "A" := "openai"; "B" := "anthropic";
     "Leaf" := "openai"; "Odd" := "custom" ]}.
Definition supported : option (string -> bool) := Some (fun p => (p =s "openai") || (p =s "anthropic")).
Definition start : Coordinator := NewCoordinatorWithStarts (fun _ => 0%Z) {[ "RR" := 1%Z ]}.
Definition plan : FallbackChainResolution := mkPlan ["RR"; "Leaf"; "Odd"]
  {[ "RR" := "anthropic"; "Leaf" := "openai"; "Odd" := "custom" ]} {[ "Odd" ]} {[ "RR" := "B" ]}
  {[ "RR" := mkRRInfo "RR" ["A"; "B"] 1 "B" ]} PathReasonFallbackRoundRobinChildBuildRequest.
End PlanTrace.

Lemma ResolveFallbackChainPlan_drivable_witness :
  drivable None PlanTrace.chains PlanTrace.providers PlanTrace.supported "FB" PlanTrace.plan.
Proof.
  apply (ResolveFallbackChainPlan_drivable None PlanTrace.chains PlanTrace.providers PlanTrace.supported
    (Some coordinator_Advance) "FB" PlanTrace.start
    (fst (coordinator_Advance PlanTrace.start "RR" 2))); [vm_compute; reflexivity|discriminate].
Defined.

Lemma four_tuple_stable_witness :
  snd (resolveFallbackChainForClientWithAdvancer None PlanTrace.chains PlanTrace.providers PlanTrace.supported
         (Some coordinator_Advance) "FB" PlanTrace.start)
  = (["RR"; "Leaf"; "Odd"], {[ "RR" := "baml-roundrobin"; "Leaf" := "openai"; "Odd" := "custom" ]},
     {[ "RR"; "Odd" ]}, PathReasonFallbackRoundRobinChildLegacy).
Proof.
  rewrite four_tuple_stable; [vm_compute; reflexivity|reflexivity|].
  intros adv w name n w' e [= <-] H. unfold coordinator_Advance in H. case_hyp H; [done|].
  by destruct (coordinator_counterFor w name).
Defined.
