(* ===== verification/RetryPolicy.v ===== *)
(** * RetryPolicy: [bamlutils/buildrequest/retry_policy.go]

    Which retry policy applies to a request (per-request override, runtime
    registry, introspected default; wrapper before leaf), and its compact
    encoding for metadata. *)

From S2P Require Import Prelude GoValue GoFloat Registry Retry RoundRobin ClientResolution.

From stdpp Require Import pretty.
Local Open Scope Z_scope.

(** ** Conversion *)

(** [RetryConfigToPolicy] on a non-nil config. *)
Definition RetryConfigToPolicy (rc : RetryConfig) : Policy :=
  ResolveStrategy
    (mkPolicy (rc_MaxRetries rc) None
       (Some (mkStrategyConfig (rc_Strategy rc) (rc_DelayMs rc) (rc_Multiplier rc) (rc_MaxDelayMs rc)))).

(** ** Resolution *)

(** The scan of the registry for a client whose named policy exists: the first
    entry with the name and a known policy decides. *)
Fixpoint registryPolicy (l : list (option ClientProperty)) (name : string)
    (introspectedPolicies : gmap string (option Policy)) : option (option Policy) :=
  match l with
  | [] => None
  | None :: l' => registryPolicy l' name introspectedPolicies
  | Some client :: l' =>
      match (if cp_Name client =s name then cp_RetryPolicy client else None) with
      | Some policyName =>
          match introspectedPolicies !! policyName with
          | Some p => Some p
          | None => registryPolicy l' name introspectedPolicies
          end
      | None => registryPolicy l' name introspectedPolicies
      end
  end.

(** The introspected default; a nil entry and a missing one are both nil. *)
Definition introspectedDefault (name : string) (introspectedPolicies : gmap string (option Policy))
    : option Policy :=
  if name <>s "" then mjoin (introspectedPolicies !! name) else None.

(** [ResolveRetryPolicy]. *)
Definition ResolveRetryPolicy {W} (adapter : Adapter W) (defaultClientName introspectedPolicyName : string)
    (introspectedPolicies : gmap string (option Policy)) : option Policy :=
  match AdapterRetryConfig adapter with
  | Some rc => Some (RetryConfigToPolicy rc)
  | None =>
      let fromRegistry :=
        match OriginalClientRegistry adapter with
        | None => None
        | Some reg =>
            match primary_name (Some reg) with
            | Some primary => registryPolicy (reg_Clients reg) primary introspectedPolicies
            | None =>
                if defaultClientName <>s ""
                then registryPolicy (reg_Clients reg) defaultClientName introspectedPolicies
                else None
            end
        end in
      match fromRegistry with
      | Some p => p
      | None => introspectedDefault introspectedPolicyName introspectedPolicies
      end
  end.

(** [resolveRetryPolicyForClient]. *)
Definition resolveRetryPolicyForClient {W} (adapter : Adapter W)
    (clientName introspectedPolicyName : string) (introspectedPolicies : gmap string (option Policy))
    : option Policy :=
  let fromRegistry :=
    match OriginalClientRegistry adapter with
    | Some reg => if clientName <>s "" then registryPolicy (reg_Clients reg) clientName introspectedPolicies else None
    | None => None
    end in
  match fromRegistry with
  | Some p => p
  | None => introspectedDefault introspectedPolicyName introspectedPolicies
  end.

(** [ResolveStrategyAwareRetryPolicy]. *)
Definition ResolveStrategyAwareRetryPolicy {W} (adapter : Adapter W)
    (strategyClient effectiveClient strategyPolicyName effectivePolicyName : string)
    (introspectedPolicies : gmap string (option Policy)) : option Policy :=
  match ResolveRetryPolicy adapter strategyClient strategyPolicyName introspectedPolicies with
  | Some p => Some p
  | None =>
      if strategyClient <>s effectiveClient
      then resolveRetryPolicyForClient adapter effectiveClient effectivePolicyName introspectedPolicies
      else None
  end.

(** ** Encoding *)

(** Nearest integer to [n / d], ties to even. *)
Definition div_round_even (n d : Z) : Z :=
  let q := n / d in let r := n mod d in
  if 2 * r <? d then q else if d <? 2 * r then q + 1 else if Z.even q then q else q + 1.

(** Two digits. *)
Definition two_digits (z : Z) : string := (if z <? 10 then "0" else "") +:+ pretty z.

(** [%.2f]: the exact binary value rounded to two decimals. *)
Definition format_2f (f : float64) : string :=
  match f with
  | S754_nan => "NaN"
  | S754_infinity s => if s then "-Inf" else "+Inf"
  | S754_zero s => (if s then "-" else "") +:+ "0.00"
  | S754_finite s m e =>
      let hundredths := if 0 <=? e then 100 * Zpos m * 2 ^ e else div_round_even (100 * Zpos m) (2 ^ (- e)) in
      (if s then "-" else "") +:+ pretty (hundredths / 100) +:+ "." +:+ two_digits (hundredths mod 100)
  end.

(** [EncodeRetryPolicy]. *)
Definition EncodeRetryPolicy (p : option Policy) : string :=
  match p with
  | None => ""
  | Some p =>
      match PolicyStrategyConfig p with
      | None => ""
      | Some cfg =>
          if (sc_Type cfg =s "constant_delay")%go then "const:" +:+ pretty (sc_DelayMs cfg) +:+ "ms"
          else if (sc_Type cfg =s "exponential_backoff")%go then
            "exp:" +:+ pretty (sc_DelayMs cfg) +:+ "ms:" +:+ format_2f (sc_Multiplier cfg)
              +:+ ":" +:+ pretty (sc_MaxDelayMs cfg) +:+ "ms"
          else sc_Type cfg
      end
  end.

(** ** Properties *)

(** A policy the introspected map holds under some name. *)
Definition introspected (policies : gmap string (option Policy)) (p : Policy) : Prop :=
  exists name, policies !! name = Some (Some p).

Lemma registryPolicy_some l name policies p :
  registryPolicy l name policies = Some p ->
  exists c n, Some c ∈ l /\ cp_Name c = name /\ cp_RetryPolicy c = Some n /\ policies !! n = Some p.
Proof.
  induction l as [|[c|] l IH]; simpl; intros H; [done| |].
  - destruct (String.eqb_spec (cp_Name c) name) as [<-|].
    + destruct (cp_RetryPolicy c) as [n|] eqn:En; [destruct (policies !! n) eqn:Ep|]; simplify_eq.
      * exists c, n. split_and!; [constructor|done..].
      * destruct (IH H) as (d&m&?&?). exists d, m. split; [by constructor|done].
      * destruct (IH H) as (d&m&?&?). exists d, m. split; [by constructor|done].
    + destruct (IH H) as (d&m&?&?). exists d, m. split; [by constructor|done].
  - destruct (IH H) as (d&m&?&?). exists d, m. split; [by constructor|done].
Qed.

Lemma introspectedDefault_some n policies p :
  introspectedDefault n policies = Some p -> introspected policies p.
Proof.
  unfold introspectedDefault. case_goal; [|done].
  destruct (policies !! n) as [[q|]|] eqn:E; [|done..]. intros [= ->]. by exists n.
Qed.

(** The answer of a registry scan, or else the default, is introspected. *)
Lemma fromRegistry_introspected policies n fr p :
  (fr = None \/ exists l name, fr = registryPolicy l name policies) ->
  match fr with Some p => p | None => introspectedDefault n policies end = Some p ->
  introspected policies p.
Proof.
  intros Hfr Hp. destruct fr as [q|]; [|by eapply introspectedDefault_some].
  destruct Hfr as [?|(l&name&E)]; [done|]. symmetry in E.
  apply registryPolicy_some in E as (c&m&_&_&_&?). simplify_eq. by exists m.
Qed.

(** The priority of retry policies: a per-request override always wins and
    is the only policy built at request time; every other answer is one of the
    introspected policies; when a primary is set, the registry entry consulted
    for the wrapper is the primary's, never another client's; and the leaf's
    policy is used only when the wrapper has none and an unwrap took place. *)
Theorem retry_priority {W} (adapter : Adapter W) sc ec sp ep policies r :
  ResolveStrategyAwareRetryPolicy adapter sc ec sp ep policies = r ->
  match AdapterRetryConfig adapter with
  | Some rc => r = Some (RetryConfigToPolicy rc)
  | None =>
      (forall p, r = Some p -> introspected policies p)
      /\ match ResolveRetryPolicy adapter sc sp policies with
         | Some p => r = Some p
         | None => r <> None -> sc <> ec /\ r = resolveRetryPolicyForClient adapter ec ep policies
         end
  end.
Proof.
  unfold ResolveStrategyAwareRetryPolicy. intros <-.
  destruct (AdapterRetryConfig adapter) as [rc|] eqn:Ea.
  { unfold ResolveRetryPolicy. by rewrite Ea. }
  split.
  - intros p. destruct (ResolveRetryPolicy adapter sc sp policies) eqn:E.
    + intros [= ->]. unfold ResolveRetryPolicy in E. rewrite Ea in E.
      eapply fromRegistry_introspected; [|exact E]. repeat case_goal; naive_solver.
    + case_goal; [|done]. intros Hr. unfold resolveRetryPolicyForClient in Hr.
      eapply fromRegistry_introspected; [|exact Hr]. repeat case_goal; naive_solver.
  - destruct (ResolveRetryPolicy adapter sc sp policies); [done|].
    destruct (String.eqb_spec sc ec); simpl; [done|]. done.
Qed.

Lemma retry_priority_witness :
  let ad := mkAdapter nat "" (Some (mkRegistry (Some "Outer")
              [Some (mkClient "Leaf" "" (Some "slow") None false)])) None None in
  let policies := {[ "slow" := Some (mkPolicy 4 None None) ]} in
  ResolveStrategyAwareRetryPolicy ad "Outer" "Leaf" "" "" policies
  = resolveRetryPolicyForClient ad "Leaf" "" policies.
Proof.
  intros ad policies.
  refine (proj2 (proj2 (retry_priority ad "Outer" "Leaf" "" "" policies _ eq_refl) _)).
  vm_compute. discriminate.
Defined.

(** What metadata reports is not always what runs: a per-request override
    that leaves the delay unset is encoded with a delay of 0ms although the
    policy sleeps the default 200ms, and one that also leaves the strategy unset
    is encoded as the empty string although it retries with that delay. *)
Theorem EncodeRetryPolicy_reports_unset_defaults n :
  let p := RetryConfigToPolicy (mkRetryConfig n "constant_delay" 0 (S754_zero false) 0) in
  let q := RetryConfigToPolicy (mkRetryConfig n "" 0 (S754_zero false) 0) in
  EncodeRetryPolicy (Some p) = "const:0ms" /\ EncodeRetryPolicy (Some q) = ""
  /\ (Delay <$> PolicyStrategy p) = Some (fun _ => 200 * Millisecond)
  /\ (Delay <$> PolicyStrategy q) = Some (fun _ => 200 * Millisecond).
Proof. repeat split. Qed.

(** The encoding of the documented example. *)
Example encode_example :
  EncodeRetryPolicy (Some (mkPolicy 3 None
    (Some (mkStrategyConfig "exponential_backoff" 200 DefaultMultiplier 10000))))
  = "exp:200ms:1.50:10000ms".
Proof. vm_compute. reflexivity. Qed.
