(* ===== verification/Metadata.v ===== *)
(** * Metadata: [bamlutils/buildrequest/metadata.go]

    The classification of a request's routing path and the planned-metadata
    builders.  Absent strings and lists are empty, an absent map is empty, and a
    pointer field is an option. *)

From S2P Require Import Prelude GoValue StrategyParse Registry Retry SharedState RoundRobin ClientResolution Dfs LegacyChild FallbackResolve RetryPolicy.

(** ** Data *)

Inductive MetadataPhase := PhasePlanned | PhaseOutcome.

(** [Metadata]. *)
Record Metadata := mkMetadata {
  md_Phase : MetadataPhase;
  md_Attempt : Z;
  md_Path : string;
  md_PathReason : string;
  md_BuildRequestAPI : string;
  md_Client : string;
  md_Provider : string;
  md_Strategy : string;
  md_Chain : list string;
  md_LegacyChildren : list string;
  md_RetryMax : option Z;
  md_RetryPolicy : string;
  md_RetryCount : option Z;
  md_WinnerClient : string;
  md_WinnerProvider : string;
  md_WinnerPath : string;
  md_WinnerEngine : string;
  md_PlannedEngine : string;
  md_UpstreamDurMs : option Z;
  md_BamlCallCount : option Z;
  md_RoundRobin : option RoundRobinInfo;
  md_FallbackTargets : gmap string string;
  md_FallbackRoundRobin : gmap string RoundRobinInfo
}.

(** [supportedProviders] and [callSupportedProviders] hold the same names. *)
Definition providerNames : list string :=
  ["openai"; "openai-generic"; "azure-openai"; "ollama"; "openrouter"; "openai-responses";
   "anthropic"; "google-ai"; "vertex-ai"; "aws-bedrock"].

(** [IsProviderSupported]. *)
Definition IsProviderSupported (provider : string) : bool := bool_decide (provider ∈ providerNames).

(** [IsCallProviderSupported]; [debugFilter] is the build-tagged filter, the
    identity outside debug builds. *)
Definition IsCallProviderSupported (debugFilter : string -> bool -> bool) (provider : string) : bool :=
  debugFilter provider (bool_decide (provider ∈ providerNames)).

(** [ProviderResolution]. *)
Record ProviderResolution := mkResolution {
  pr_Client : string;
  pr_Provider : string;
  pr_Strategy : string;
  pr_Path : string;
  pr_PathReason : string
}.

(** ** Classification *)

(** The reason of a strategy client whose override is invalid, or [otherwise]. *)
Definition strategyReason (reg : option ClientRegistry) (clientName : string) (otherwise : string) : string :=
  match InspectStrategyOverride reg clientName with
  | Invalid => PathReasonInvalidStrategyOverride
  | _ => if hasExplicitStrategyProviderWithoutStrategy reg clientName
         then PathReasonInvalidStrategyOverride
         else otherwise
  end.

(** The round-robin arm: the strategy first, then [start]. *)
Definition roundRobinReason (reg : option ClientRegistry) (clientName : string) : string :=
  strategyReason reg clientName
    (if hasInvalidStartOverride reg clientName then PathReasonInvalidRoundRobinStartOverride
     else PathReasonRoundRobin).

(** [ResolveProviderWithReason]. *)
Definition ResolveProviderWithReason {W} (adapter : Adapter W) (defaultClientName introspectedProvider : string)
    (isProviderSupported : option (string -> bool)) : ProviderResolution :=
  let provider := normalizeStrategyProvider (ResolveProvider adapter defaultClientName introspectedProvider) in
  let reg := OriginalClientRegistry adapter in
  let clientName := ResolvePrimaryClient adapter defaultClientName in
  if provider =s "" then
    mkResolution clientName provider "" "legacy"
      (if hasInvalidProviderOverride reg clientName then PathReasonInvalidProviderOverride
       else if from_option (hasInvalidProviderOverride reg) false (primary_name reg)
       then PathReasonInvalidProviderOverride
       else if hasInvalidProviderOverride reg defaultClientName then PathReasonInvalidProviderOverride
       else PathReasonEmptyProvider)
  else if provider =s "baml-fallback" then
    mkResolution clientName provider "baml-fallback" "legacy" (strategyReason reg clientName "")
  else if provider =s "baml-roundrobin" then
    mkResolution clientName provider "baml-roundrobin" "legacy" (roundRobinReason reg clientName)
  else if match isProviderSupported with Some f => f provider | None => false end then
    mkResolution clientName provider "" "buildrequest" ""
  else mkResolution clientName provider "" "legacy" PathReasonUnsupportedProvider.

(** ** Plan builders *)

(** [newPlanBase]. *)
Definition newPlanBase (path clientName : string) (retryPolicy : option Policy) (buildRequestAPI : string)
    : Metadata :=
  {| md_Phase := PhasePlanned; md_Attempt := 0; md_Path := path; md_PathReason := "";
     md_BuildRequestAPI := buildRequestAPI; md_Client := clientName; md_Provider := "";
     md_Strategy := ""; md_Chain := []; md_LegacyChildren := [];
     md_RetryMax := MaxRetries <$> retryPolicy; md_RetryPolicy := EncodeRetryPolicy retryPolicy;
     md_RetryCount := None; md_WinnerClient := ""; md_WinnerProvider := ""; md_WinnerPath := "";
     md_WinnerEngine := ""; md_PlannedEngine := ""; md_UpstreamDurMs := None; md_BamlCallCount := None;
     md_RoundRobin := None; md_FallbackTargets := ∅; md_FallbackRoundRobin := ∅ |}.

(** The fields the builders set on top of the base. *)
Definition withPlan (provider strategy reason : string) (chain legacy : list string)
    (targets : gmap string string) (nested : gmap string RoundRobinInfo) (m : Metadata) : Metadata :=
  {| md_Phase := md_Phase m; md_Attempt := md_Attempt m; md_Path := md_Path m; md_PathReason := reason;
     md_BuildRequestAPI := md_BuildRequestAPI m; md_Client := md_Client m; md_Provider := provider;
     md_Strategy := strategy; md_Chain := chain; md_LegacyChildren := legacy;
     md_RetryMax := md_RetryMax m; md_RetryPolicy := md_RetryPolicy m;
     md_RetryCount := md_RetryCount m; md_WinnerClient := md_WinnerClient m;
     md_WinnerProvider := md_WinnerProvider m; md_WinnerPath := md_WinnerPath m;
     md_WinnerEngine := md_WinnerEngine m; md_PlannedEngine := md_PlannedEngine m;
     md_UpstreamDurMs := md_UpstreamDurMs m; md_BamlCallCount := md_BamlCallCount m;
     md_RoundRobin := md_RoundRobin m; md_FallbackTargets := targets; md_FallbackRoundRobin := nested |}.

(** [orderedLegacyChildren]. *)
Definition orderedLegacyChildren (chain : list string) (legacy : gset string) : list string :=
  if size legacy =? 0 then [] else filter (.∈ legacy) chain.

(** [rebuildLegacyChainMetadata]. *)
Definition rebuildLegacyChainMetadata (reg : option ClientRegistry) (chain : list string)
    (clientProviders : gmap string string) (isProviderSupported : option (string -> bool))
    : gmap string string * gset string :=
  foldl (fun '(providers, legacy) child =>
    let p := ResolveClientProvider reg child clientProviders in
    (<[child:=p]> providers,
     if (p =s "") || isStrategyProvider p
        || match isProviderSupported with Some f => negb (f p) | None => false end
     then {[child]} ∪ legacy else legacy)) (∅, ∅) chain.

(** [BuildSingleProviderPlanForClient]. *)
Definition BuildSingleProviderPlanForClient (clientName provider : string) (retryPolicy : option Policy)
    (buildRequestAPI : string) : Metadata :=
  withPlan provider "" "" [] [] ∅ ∅ (newPlanBase "buildrequest" clientName retryPolicy buildRequestAPI).

(** [BuildSingleProviderPlan]. *)
Definition BuildSingleProviderPlan {W} (adapter : Adapter W) (defaultClientName provider : string)
    (retryPolicy : option Policy) (buildRequestAPI : string) : Metadata :=
  BuildSingleProviderPlanForClient (ResolvePrimaryClient adapter defaultClientName) provider retryPolicy
    buildRequestAPI.

(** [BuildFallbackChainPlanForClient]. *)
Definition BuildFallbackChainPlanForClient (clientName : string) (chain : list string)
    (legacyChildren : gset string) (retryPolicy : option Policy) (buildRequestAPI pathReason : string)
    : Metadata :=
  withPlan "" "baml-fallback" pathReason chain (orderedLegacyChildren chain legacyChildren) ∅ ∅
    (newPlanBase "buildrequest" clientName retryPolicy buildRequestAPI).

(** [BuildFallbackChainPlan]. *)
Definition BuildFallbackChainPlan {W} (adapter : Adapter W) (defaultClientName : string) (chain : list string)
    (legacyChildren : gset string) (retryPolicy : option Policy) (buildRequestAPI pathReason : string)
    : Metadata :=
  BuildFallbackChainPlanForClient (ResolvePrimaryClient adapter defaultClientName) chain legacyChildren
    retryPolicy buildRequestAPI pathReason.

(** [BuildFallbackChainPlanFromResolution]. *)
Definition BuildFallbackChainPlanFromResolution (clientName : string)
    (resolution : option FallbackChainResolution) (retryPolicy : option Policy) (buildRequestAPI : string)
    : Metadata :=
  let plan := newPlanBase "buildrequest" clientName retryPolicy buildRequestAPI in
  match resolution with
  | None => withPlan "" "baml-fallback" "" [] [] ∅ ∅ plan
  | Some r =>
      withPlan "" "baml-fallback" (Reason r) (Chain r) (orderedLegacyChildren (Chain r) (LegacyChildren r))
        (Targets r) (NestedRoundRobin r) plan
  end.

(** The chain a legacy plan reports: the resolver's, or else, unless the
    resolver found an invalid override, the client's own chain. *)
Definition legacyPlanChain (reg : option ClientRegistry) (clientName : string)
    (fallbackChains : gmap string (list string)) (clientProviders : gmap string string)
    (isProviderSupported : option (string -> bool)) (t : FourTuple) : list string * list string :=
  let '(chain, _, legacy, reason) := t in
  let '(chain, legacy) :=
    if (length chain =? 0) && negb (isInvalidOverrideReason reason)
    then let chain := resolveFallbackStrategyChain reg clientName fallbackChains in
         (chain, snd (rebuildLegacyChainMetadata reg chain clientProviders isProviderSupported))
    else (chain, legacy) in
  if length chain =? 0 then ([], []) else (chain, orderedLegacyChildren chain legacy).

(** [BuildLegacyMetadataPlan]. *)
Definition BuildLegacyMetadataPlan {W} `{Random W} (adapter : Adapter W)
    (defaultClientName introspectedProvider : string) (fallbackChains : gmap string (list string))
    (clientProviders : gmap string string) (isProviderSupported : option (string -> bool))
    (retryPolicy : option Policy) (w : W) : W * Metadata :=
  let resolution := ResolveProviderWithReason adapter defaultClientName introspectedProvider isProviderSupported in
  let plan := newPlanBase "legacy" (pr_Client resolution) retryPolicy "" in
  let provider := if pr_Strategy resolution =s "" then pr_Provider resolution else "" in
  if pr_Strategy resolution =s "baml-fallback" then
    let '(w, t) := ResolveFallbackChainWithReason adapter defaultClientName fallbackChains clientProviders
                     isProviderSupported w in
    let '(chain, legacy) := legacyPlanChain (OriginalClientRegistry adapter) (pr_Client resolution)
                              fallbackChains clientProviders isProviderSupported t in
    (w, withPlan provider (pr_Strategy resolution) (snd t) chain legacy ∅ ∅ plan)
  else (w, withPlan provider (pr_Strategy resolution) (pr_PathReason resolution) [] [] ∅ ∅ plan).

(** [BuildLegacyMetadataPlanForClient]. *)
Definition BuildLegacyMetadataPlanForClient {W} `{Random W} (reg : option ClientRegistry)
    (clientName introspectedProvider : string) (fallbackChains : gmap string (list string))
    (clientProviders : gmap string string) (isProviderSupported : option (string -> bool))
    (retryPolicy : option Policy) (w : W) : W * Metadata :=
  let provider := ResolveClientProvider reg clientName clientProviders in
  let provider :=
    if (provider =s "") && negb (hasInvalidProviderOverride reg clientName)
    then introspectedProvider else provider in
  let provider := normalizeStrategyProvider provider in
  let plan := newPlanBase "legacy" clientName retryPolicy "" in
  if provider =s "" then
    (w, withPlan "" "" (if hasInvalidProviderOverride reg clientName then PathReasonInvalidProviderOverride
                        else PathReasonEmptyProvider) [] [] ∅ ∅ plan)
  else if provider =s "baml-fallback" then
    let '(w, t) := ResolveFallbackChainForClientWithReason reg clientName fallbackChains clientProviders
                     isProviderSupported w in
    let '(chain, legacy) := legacyPlanChain reg clientName fallbackChains clientProviders isProviderSupported t in
    (w, withPlan "" "baml-fallback" (snd t) chain legacy ∅ ∅ plan)
  else if provider =s "baml-roundrobin" then
    (w, withPlan "" "baml-roundrobin" (roundRobinReason reg clientName) [] [] ∅ ∅ plan)
  else
    (w, withPlan provider ""
          (match isProviderSupported with
           | Some f => if f provider then "" else PathReasonUnsupportedProvider
           | None => "" end) [] [] ∅ ∅ plan).

(** ** Properties *)

(** The classification is sharp: BuildRequest is chosen exactly for a
    nonempty, supported provider that is not a strategy, and then no reason is
    given; a legacy decision without a reason occurs only for a fallback client,
    whose reason the chain resolver supplies. *)
Theorem ResolveProviderWithReason_sharp {W} (adapter : Adapter W) name p f :
  let r := ResolveProviderWithReason adapter name p (Some f) in
  (pr_Path r = "buildrequest" <->
     pr_Provider r <> "" /\ isStrategyProvider (pr_Provider r) = false /\ f (pr_Provider r) = true)
  /\ (pr_Path r = "buildrequest" -> pr_PathReason r = "" /\ pr_Strategy r = "")
  /\ (pr_Path r <> "buildrequest" -> pr_Path r = "legacy"
        /\ (pr_PathReason r = "" -> pr_Strategy r = "baml-fallback")).
Proof.
  unfold ResolveProviderWithReason. set (q := normalizeStrategyProvider _). simpl.
  assert (Hs : isStrategyProvider q = (q =s "baml-roundrobin") || (q =s "baml-fallback")).
  { unfold isStrategyProvider, q. by rewrite IsRoundRobinProvider_normalize, normalizeStrategyProvider_idem. }
  destruct (String.eqb_spec q "") as [->|Hq]; simpl.
  { split_and!; [naive_solver|done|]. intros _. split; [done|]. repeat case_goal; done. }
  destruct (String.eqb_spec q "baml-fallback") as [E|Hf]; simpl.
  { rewrite E in *. naive_solver. }
  destruct (String.eqb_spec q "baml-roundrobin") as [E|Hr]; simpl.
  { rewrite E in *. split_and!; [naive_solver|done|]. intros _. split; [done|].
    unfold roundRobinReason, strategyReason. repeat case_goal; done. }
  assert (isStrategyProvider q = false) as Hns
    by (by rewrite Hs).
  destruct (f q) eqn:Ef; simpl; rewrite ?Hns, ?Ef; naive_solver.
Qed.

Lemma legacyPlanChain_invalid reg name chains prov f chain pv legacy reason :
  isInvalidOverrideReason reason = true -> chain = [] ->
  legacyPlanChain reg name chains prov f (chain, pv, legacy, reason) = ([], []).
Proof. intros Hr ->. unfold legacyPlanChain. by rewrite Hr. Qed.

(** A resolution with a chain never carries an invalid-override reason. *)
Lemma four_tuple_reason {W} `{Random W} reg chains prov f (a : option (Advancer W)) name w w' chain pv legacy reason :
  resolveFallbackChainForClientWithAdvancer reg chains prov f a name w = (w', (chain, pv, legacy, reason)) ->
  isInvalidOverrideReason reason = true -> chain = [].
Proof.
  assert (Hleg : forall c p l r, resolveFallbackChainLegacyClassification reg chains prov f name = (c, p, l, r) ->
    isInvalidOverrideReason r = true -> c = []).
  { unfold resolveFallbackChainLegacyClassification. intros c p l r Hc Hr.
    repeat (case_hyp Hc; simplify_eq; try done). }
  unfold resolveFallbackChainForClientWithAdvancer.
  destruct (ResolveFallbackChainPlanForClient reg chains prov f a name w) as [w1 [[res|]|e]] eqn:E; intros Ht Hr.
  - case_hyp Ht; [injection Ht as _ Ht; by eapply Hleg|]. injection Ht as _ <- _ _ <-.
    unfold ResolveFallbackChainPlanForClient in E. revert E Hr. unfold planFinish.
    repeat (case_goal; try (intros; simplify_eq/=; done)).
  - by injection Ht as _ <- _ _ _.
  - injection Ht as _ Ht. by eapply Hleg.
Qed.

Lemma orderedLegacyChildren_spec chain legacy :
  orderedLegacyChildren chain legacy = filter (.∈ legacy) chain.
Proof.
  unfold orderedLegacyChildren. destruct (Nat.eqb_spec (size legacy) 0) as [E|]; [|done].
  apply size_empty_inv in E. symmetry.
  induction chain as [|c chain IH]; [done|]. rewrite filter_cons, decide_False; [done|set_solver].
Qed.

(** Metadata does not contradict itself: a legacy plan that reports an
    invalid override names no chain and no legacy children (nothing of the
    rejected chain ran), and in every plan the legacy children are the chain's
    legacy members in chain order. *)
Theorem legacy_plan_consistent {W} `{Random W} reg name p chains prov f policy (w : W) :
  let m := snd (BuildLegacyMetadataPlanForClient reg name p chains prov f policy w) in
  md_Path m = "legacy" /\ md_Phase m = PhasePlanned /\ md_Client m = name
  /\ (isInvalidOverrideReason (md_PathReason m) = true -> md_Chain m = [] /\ md_LegacyChildren m = [])
  /\ md_LegacyChildren m `sublist_of` md_Chain m
  /\ (md_Strategy m = "" \/ md_Provider m = "").
Proof.
  unfold BuildLegacyMetadataPlanForClient. set (q := normalizeStrategyProvider _). cbv zeta.
  destruct (String.eqb q ""); [simpl; by split_and!; auto|].
  destruct (String.eqb q "baml-fallback").
  - unfold ResolveFallbackChainForClientWithReason.
    destruct (resolveFallbackChainForClientWithAdvancer reg chains prov f None name w) as [w1 [[[ch pv] lg] rs]] eqn:E.
    destruct (legacyPlanChain reg name chains prov f (ch, pv, lg, rs)) as [c l] eqn:El. simpl.
    split_and!; auto.
    + intros Hr. rewrite (legacyPlanChain_invalid _ _ _ _ _ _ _ _ _ Hr) in El; [by simplify_eq|].
      by eapply four_tuple_reason.
    + unfold legacyPlanChain in El. repeat case_hyp El; simplify_eq; try done;
        rewrite orderedLegacyChildren_spec; apply sublist_filter.
  - destruct (String.eqb q "baml-roundrobin"); simpl; by split_and!; auto.
Qed.
