(* ===== verification/Cadence.v ===== *)
(** * Cadence: [bamlutils/buildrequest/stream_cadence.go]

    The per-window driver that turns normalized deltas into public stream
    events: it accumulates three channels, throttles structured parses, and
    decides the shape of each event.

    The clock, the parse callback and the event sink act on a world [W]. *)

From S2P Require Import Prelude GoStrings.

Local Open Scope Z_scope.

(** [StreamCadenceParsePolicy]. *)
Inductive StreamCadenceParsePolicy := CadenceParseErrorsAreNoEvent | CadenceParseErrorsAreTerminal.

(** [StreamCadenceEvent]; [HasPartial] and [Partial] are one option. *)
Record StreamCadenceEvent (P : Type) := mkEvent {
  ev_Partial : option P;
  ev_Raw : string;
  ev_Reasoning : string
}.
Arguments mkEvent {P} _ _ _.
Arguments ev_Partial {P} _.
Arguments ev_Raw {P} _.
Arguments ev_Reasoning {P} _.

(** [StreamCadenceConfig].  A parse gives a partial, no partial, or an error. *)
Record StreamCadenceConfig (W P E : Type) := mkCadenceConfig {
  cc_NeedsPartials : bool;
  cc_NeedsRaw : bool;
  cc_ParseThrottleInterval : Z;
  cc_ParsePartial : option (string -> W -> W * (option P + E));
  cc_Emit : StreamCadenceEvent P -> W -> W * option E;
  cc_ParsePolicy : StreamCadenceParsePolicy;
  cc_Now : W -> W * Z
}.
Arguments cc_NeedsPartials {W P E} _.
Arguments cc_NeedsRaw {W P E} _.
Arguments cc_ParseThrottleInterval {W P E} _.
Arguments cc_ParsePartial {W P E} _.
Arguments cc_Emit {W P E} _.
Arguments cc_ParsePolicy {W P E} _.
Arguments cc_Now {W P E} _.

(** [streamAccumulator]. *)
Record streamAccumulator := mkAcc {
  acc_parseable : string;
  acc_raw : string;
  acc_reasoning : string;
  acc_parsed : bool;
  acc_lastParseTime : Z
}.

(** [NewStreamCadence]: a fresh window. *)
Definition newAccumulator : streamAccumulator := mkAcc "" "" "" false 0.

(** One delta on the three channels. *)
Record delta := mkDelta { d_parseable : string; d_raw : string; d_reasoning : string }.

Section Cadence.
Context {W P E : Type}.
Implicit Types (cfg : StreamCadenceConfig W P E) (w : W).

(** What a call did: the error it returned, the events it handed to the sink,
    and the parses it ran, each with the time it was stamped with. *)
Record outcome := mkOutcome { o_err : option E; o_events : list (StreamCadenceEvent P); o_parses : list Z }.

(** Hand an event to the sink. *)
Definition emit cfg (ev : StreamCadenceEvent P) (parses : list Z) (acc : streamAccumulator) w
    : W * streamAccumulator * outcome :=
  let '(w, err) := cc_Emit cfg ev w in (w, acc, mkOutcome err [ev] parses).

(** [emitRawOnly]. *)
Definition emitRawOnly cfg (rawDelta reasoningDelta : string) (parses : list Z) (acc : streamAccumulator) w :=
  emit cfg (mkEvent None rawDelta reasoningDelta) parses acc w.

(** [classifyParseError]. *)
Definition classifyParseError cfg (err : E) : option E :=
  match cc_ParsePolicy cfg with
  | CadenceParseErrorsAreNoEvent => None
  | CadenceParseErrorsAreTerminal => Some err
  end.

(** The throttle test, which reads the clock only when it has to. *)
Definition shouldParse cfg (acc : streamAccumulator) w : W * bool :=
  if (cc_ParseThrottleInterval cfg =? 0) || negb (acc_parsed acc) then (w, true)
  else let '(w, now) := cc_Now cfg w in
       (w, cc_ParseThrottleInterval cfg <=? now - acc_lastParseTime acc).

(** The attempt at a structured partial: the partial, or the error to return. *)
Definition tryParse cfg (acc : streamAccumulator) w
    : W * streamAccumulator * list Z * (option P + E) :=
  match cc_ParsePartial cfg with
  | None => (w, acc, [], inl None)
  | Some parse =>
      let '(w, should) := shouldParse cfg acc w in
      if should then
        let '(w, now) := cc_Now cfg w in
        let acc := mkAcc (acc_parseable acc) (acc_raw acc) (acc_reasoning acc) true now in
        let '(w, r) := parse (acc_parseable acc) w in
        match r with
        | inr err =>
            match classifyParseError cfg err with
            | Some err => (w, acc, [now], inr err)
            | None => (w, acc, [now], inl None)
            end
        | inl p => (w, acc, [now], inl p)
        end
      else (w, acc, [], inl None)
  end.

(** [Delta]. *)
Definition Delta cfg (d : delta) (acc : streamAccumulator) w : W * streamAccumulator * outcome :=
  if (d_raw d =s "")%go && (d_parseable d =s "")%go && (d_reasoning d =s "")%go
  then (w, acc, mkOutcome None [] [])
  else
    let acc := mkAcc (acc_parseable acc +:+ d_parseable d) (acc_raw acc +:+ d_raw d)
                 (acc_reasoning acc +:+ d_reasoning d) (acc_parsed acc) (acc_lastParseTime acc) in
    if cc_NeedsPartials cfg && (d_parseable d =s "")%go then
      if cc_NeedsRaw cfg then emitRawOnly cfg (d_raw d) (d_reasoning d) [] acc w
      else (w, acc, mkOutcome None [] [])
    else if cc_NeedsPartials cfg then
      let '(w, acc, parses, r) := tryParse cfg acc w in
      match r with
      | inr err => (w, acc, mkOutcome (Some err) [] parses)
      | inl (Some parsed) =>
          emit cfg (mkEvent (Some parsed) (if cc_NeedsRaw cfg then d_raw d else "")
                      (if cc_NeedsRaw cfg then d_reasoning d else "")) parses acc w
      | inl None =>
          if cc_NeedsRaw cfg then emitRawOnly cfg (d_raw d) (d_reasoning d) parses acc w
          else (w, acc, mkOutcome None [] parses)
      end
    else (w, acc, mkOutcome None [] []).

(** A window: deltas are fed until one returns an error. *)
Fixpoint window cfg (ds : list delta) (acc : streamAccumulator) w : W * streamAccumulator * outcome :=
  match ds with
  | [] => (w, acc, mkOutcome None [] [])
  | d :: ds' =>
      let '(w, acc, o) := Delta cfg d acc w in
      match o_err o with
      | Some _ => (w, acc, o)
      | None =>
          let '(w, acc, o') := window cfg ds' acc w in
          (w, acc, mkOutcome (o_err o') (o_events o ++ o_events o') (o_parses o ++ o_parses o'))
      end
  end.

(** ** Properties *)

Definition cat (l : list string) : string := foldr String.append "" l.

Lemma cat_app l k : cat (l ++ k) = cat l +:+ cat k.
Proof. induction l as [|s l IH]; [done|]. simpl. by rewrite IH, sapp_assoc. Qed.

Lemma tryParse_channels cfg acc w w' acc' parses r :
  tryParse cfg acc w = (w', acc', parses, r) ->
  acc_parseable acc' = acc_parseable acc /\ acc_raw acc' = acc_raw acc
  /\ acc_reasoning acc' = acc_reasoning acc.
Proof.
  unfold tryParse. intros H. destruct (cc_ParsePartial cfg) as [f|]; [|by simplify_eq].
  destruct (shouldParse cfg acc w) as [w1 [|]]; [|by simplify_eq].
  destruct (cc_Now cfg w1). simpl in H. destruct (f _ _) as [w3 [p|e]]; [by simplify_eq|].
  by destruct (classifyParseError cfg e); simplify_eq.
Qed.

(** Every delta is accumulated on every channel, whatever becomes of it. *)
Lemma Delta_accumulates cfg d acc w w' acc' o :
  Delta cfg d acc w = (w', acc', o) ->
  acc_parseable acc' = acc_parseable acc +:+ d_parseable d
  /\ acc_raw acc' = acc_raw acc +:+ d_raw d /\ acc_reasoning acc' = acc_reasoning acc +:+ d_reasoning d.
Proof.
  unfold Delta, emitRawOnly, emit. intros H.
  destruct ((d_raw d =s "")%go && _ && _) eqn:Ee.
  { apply andb_true_iff in Ee as [[E1 E2]%andb_true_iff E3]. rewrite String.eqb_eq in E1, E2, E3.
    simplify_eq. by rewrite E1, E2, E3, !sapp_nil_r. }
  destruct (cc_NeedsPartials cfg && _).
  { destruct (cc_NeedsRaw cfg); [destruct (cc_Emit _ _ _)|]; by simplify_eq. }
  destruct (cc_NeedsPartials cfg); [|by simplify_eq].
  destruct (tryParse _ _ w) as [[[w1 acc1] ps] r] eqn:Et. apply tryParse_channels in Et. simpl in Et.
  destruct r as [[p|]|e]; [destruct (cc_Emit _ _ _)|destruct (cc_NeedsRaw cfg); [destruct (cc_Emit _ _ _)|]|];
    by simplify_eq.
Qed.

(** The events of one delta: their raw and reasoning parts, by mode. *)
Lemma Delta_events cfg d acc w w' acc' o :
  Delta cfg d acc w = (w', acc', o) ->
  (cc_NeedsRaw cfg = false -> Forall (fun ev => ev_Raw ev = "" /\ ev_Reasoning ev = "") (o_events o))
  /\ (cc_NeedsPartials cfg = false -> o_events o = [])
  /\ (cc_NeedsRaw cfg = true -> cc_NeedsPartials cfg = true ->
       (o_err o = None \/ o_events o <> []) ->
       cat (ev_Raw <$> o_events o) = d_raw d /\ cat (ev_Reasoning <$> o_events o) = d_reasoning d).
Proof.
  unfold Delta, emitRawOnly, emit. intros H.
  destruct ((d_raw d =s "")%go && _ && _) eqn:Ee.
  { apply andb_true_iff in Ee as [[E1 E2]%andb_true_iff E3]. rewrite String.eqb_eq in E1, E2, E3.
    simplify_eq/=. split_and!; [constructor|done|]. by rewrite E1, E3. }
  destruct (cc_NeedsPartials cfg) eqn:Ep; cbn [andb] in H; [|simplify_eq/=; split_and!; [constructor|done|done]].
  destruct (d_parseable d =s "")%go.
  { destruct (cc_NeedsRaw cfg); [destruct (cc_Emit _ _ _)|]; simplify_eq/=;
      split_and!; try done; intros; by rewrite ?sapp_nil_r. }
  destruct (tryParse _ _ w) as [[[w1 acc1] ps] r].
  destruct r as [[p|]|e].
  - destruct (cc_Emit _ _ _). simplify_eq/=. split_and!; [|done|].
    + intros ->. by repeat constructor.
    + intros ->. by rewrite !sapp_nil_r.
  - destruct (cc_NeedsRaw cfg); [destruct (cc_Emit _ _ _)|]; simplify_eq/=;
      split_and!; try done; intros; by rewrite ?sapp_nil_r.
  - simplify_eq/=. split_and!; [constructor|done|]. intros _ _ [?|?]; done.
Qed.

(** A delta hands at most one event to the sink, as its last act; before that it
    only reads the clock and parses. *)
Lemma Delta_emits cfg (R : W -> W -> Prop) d acc w w' acc' o :
  (forall u, R u u) -> (forall u v t, R u v -> R u (fst (cc_Now cfg v)) /\
     forall parse, cc_ParsePartial cfg = Some parse -> R u (fst (parse t v))) ->
  Delta cfg d acc w = (w', acc', o) ->
  exists w1, R w w1 /\
    match o_events o with
    | [] => w' = w1
    | [ev] => cc_Emit cfg ev w1 = (w', o_err o)
    | _ => False
    end.
Proof.
  intros Hr Hs H. unfold Delta, emitRawOnly, emit in H.
  destruct ((d_raw d =s "")%go && _ && _); [simplify_eq/=; eauto|].
  destruct (cc_NeedsPartials cfg && _).
  { destruct (cc_NeedsRaw cfg); [destruct (cc_Emit _ _ _) eqn:?|]; simplify_eq/=; eauto. }
  destruct (cc_NeedsPartials cfg); [|simplify_eq/=; eauto].
  set (acc0 := mkAcc _ _ _ _ _) in H.
  destruct (tryParse cfg acc0 w) as [[[w1 acc1] ps] r] eqn:Et.
  assert (R w w1) as H1.
  { unfold tryParse, shouldParse in Et. destruct (cc_ParsePartial cfg) as [f|] eqn:Ef; [|by simplify_eq].
    assert (forall u b, (if (cc_ParseThrottleInterval cfg =? 0) || negb (acc_parsed acc0) then (w, true)
       else let '(w, now) := cc_Now cfg w in (w, cc_ParseThrottleInterval cfg <=? now - acc_lastParseTime acc0))
       = (u, b) -> R w u) as Hu.
    { intros u b. destruct (_ || _); [by intros [= <- _]|].
      pose proof (proj1 (Hs w w "" (Hr w))). destruct (cc_Now cfg w). by intros [= <- _]. }
    destruct (if _ : bool then _ else _) as [u b] in Et, Hu. specialize (Hu u b eq_refl).
    destruct b; [|by simplify_eq]. pose proof (proj1 (Hs w u "" Hu)) as H2.
    destruct (cc_Now cfg u) as [u2 t]. simpl in *.
    pose proof (proj2 (Hs w u2 (acc_parseable acc0) H2) f eq_refl) as H3.
    simpl in H3. destruct (f _ u2) as [u3 [p|e]]; [by simplify_eq|].
    by destruct (classifyParseError cfg e); simplify_eq. }
  exists w1. split; [done|].
  destruct r as [[p|]|e]; [destruct (cc_Emit _ _ _) eqn:?|
    destruct (cc_NeedsRaw cfg); [destruct (cc_Emit _ _ _) eqn:?|]|]; by simplify_eq/=.
Qed.

(** No raw output is lost: in a mode that wants partials and raw output,
    over a window that ends without an error, the raw parts of the emitted
    events concatenate to the raw text received, and the same holds for the
    reasoning, whatever the parser answers, however the clock runs and
    whichever parses the throttle skips. *)
Theorem raw_is_delivered cfg ds : forall acc w w' acc' o,
  cc_NeedsPartials cfg = true -> cc_NeedsRaw cfg = true ->
  window cfg ds acc w = (w', acc', o) -> o_err o = None ->
  cat (ev_Raw <$> o_events o) = cat (d_raw <$> ds)
  /\ cat (ev_Reasoning <$> o_events o) = cat (d_reasoning <$> ds).
Proof.
  induction ds as [|d ds IH]; intros acc w w' acc' o Hp Hr H He; simpl in H; [by simplify_eq|].
  destruct (Delta cfg d acc w) as [[w1 acc1] o1] eqn:Ed.
  destruct (o_err o1) eqn:Eo; [simplify_eq; congruence|].
  destruct (window cfg ds acc1 w1) as [[w2 acc2] o2] eqn:Ew. simplify_eq/=.
  apply Delta_events in Ed as (_&_&Hd). destruct (Hd Hr Hp (or_introl Eo)) as [D1 D2].
  destruct (IH _ _ _ _ _ Hp Hr Ew He) as [I1 I2].
  rewrite !fmap_app, !cat_app, D1, D2, I1, I2. done.
Qed.

(** Mode gating: a window of a mode without raw output never emits raw or
    reasoning text, and one of a mode without partials emits nothing at all;
    in every mode the final texts are the concatenation of all deltas up to
    the one that stopped the window. *)
Theorem mode_gating cfg ds : forall acc w w' acc' o,
  window cfg ds acc w = (w', acc', o) ->
  (cc_NeedsRaw cfg = false -> Forall (fun ev => ev_Raw ev = "" /\ ev_Reasoning ev = "") (o_events o))
  /\ (cc_NeedsPartials cfg = false -> o_events o = [])
  /\ exists n, acc_parseable acc' = acc_parseable acc +:+ cat (d_parseable <$> take n ds)
       /\ acc_raw acc' = acc_raw acc +:+ cat (d_raw <$> take n ds)
       /\ acc_reasoning acc' = acc_reasoning acc +:+ cat (d_reasoning <$> take n ds)
       /\ (o_err o = None -> take n ds = ds).
Proof.
  induction ds as [|d ds IH]; intros acc w w' acc' o H; simpl in H.
  { simplify_eq. split_and!; [constructor|done|]. exists 0%nat. simpl. by rewrite !sapp_nil_r. }
  destruct (Delta cfg d acc w) as [[w1 acc1] o1] eqn:Ed.
  pose proof (Delta_accumulates _ _ _ _ _ _ _ Ed) as (A1&A2&A3).
  apply Delta_events in Ed as (D1&D2&_).
  destruct (o_err o1) eqn:Eo.
  { simplify_eq. split_and!; [done..|]. exists 1%nat. simpl. rewrite take_0. simpl. rewrite !sapp_nil_r.
    split_and!; try done. congruence. }
  destruct (window cfg ds acc1 w1) as [[w2 acc2] o2] eqn:Ew. simplify_eq/=.
  destruct (IH _ _ _ _ _ Ew) as (I1&I2&n&N1&N2&N3&N4). split_and!.
  - intros Hr. apply Forall_app. auto.
  - intros Hp. by rewrite D2, I2.
  - exists (S n). simpl. rewrite N1, N2, N3, A1, A2, A3, !sapp_assoc. split_and!; [done..|].
    intros He. by rewrite N4.
Qed.

(** ** The throttle *)

(** The times of the parses of a window, given when the last one was. *)
Definition spaced (i : Z) (last : option Z) (ts : list Z) : Prop :=
  forall k a b, (match last with Some l => l :: ts | None => ts end) !! k = Some a ->
                (match last with Some l => l :: ts | None => ts end) !! S k = Some b -> i <= b - a.

Definition lastParse (acc : streamAccumulator) : option Z :=
  if acc_parsed acc then Some (acc_lastParseTime acc) else None.

(** The clock does not go back between two readings. *)
Definition monotone cfg : Prop :=
  forall w w1 t1, cc_Now cfg w = (w1, t1) -> forall w2 t2, cc_Now cfg w1 = (w2, t2) -> t1 <= t2.

Lemma Delta_parses cfg d acc w w' acc' o :
  monotone cfg -> Delta cfg d acc w = (w', acc', o) ->
  (o_parses o = [] /\ lastParse acc' = lastParse acc)
  \/ exists t, o_parses o = [t] /\ lastParse acc' = Some t
       /\ match lastParse acc with
          | Some l => 0 < cc_ParseThrottleInterval cfg -> cc_ParseThrottleInterval cfg <= t - l
          | None => True
          end.
Proof.
  intros Hm H. unfold Delta, emitRawOnly, emit in H.
  case_hyp H; [simplify_eq; by left|].
  destruct (cc_NeedsPartials cfg && _).
  { destruct (cc_NeedsRaw cfg); [destruct (cc_Emit _ _ _)|]; simplify_eq/=; by left. }
  destruct (cc_NeedsPartials cfg); [|simplify_eq; by left].
  set (acc0 := mkAcc _ _ _ _ _) in H. assert (El : lastParse acc0 = lastParse acc) by done.
  destruct (tryParse cfg acc0 w) as [[[w1 acc1] ps] r] eqn:Et.
  assert (Ho : o_parses o = ps /\ acc' = acc1).
  { destruct r as [[p|]|e]; [destruct (cc_Emit _ _ _)|destruct (cc_NeedsRaw cfg); [destruct (cc_Emit _ _ _)|]|];
      by simplify_eq. }
  destruct Ho as [-> ->]. clear H. unfold tryParse in Et.
  destruct (cc_ParsePartial cfg) as [f|]; [|simplify_eq; by left].
  destruct (shouldParse cfg acc0 w) as [w2 s] eqn:Es. destruct s; [|simplify_eq; by left]. right.
  destruct (cc_Now cfg w2) as [w3 now] eqn:En. simpl in Et.
  assert (Hps : ps = [now] /\ lastParse acc1 = Some now).
  { destruct (f _ _) as [w4 [p|e]]; [by simplify_eq|]. by destruct (classifyParseError cfg e); simplify_eq. }
  destruct Hps as [-> ->]. exists now. split_and!; [done..|]. rewrite <- El.
  unfold shouldParse, lastParse in *. destruct (acc_parsed acc0); [|done]. intros Hi.
  replace (cc_ParseThrottleInterval cfg =? 0) with false in Es by lia. simpl in Es.
  destruct (cc_Now cfg w) as [w5 t5] eqn:E5. injection Es as -> Es.
  pose proof (Hm _ _ _ E5 _ _ En). change (acc_lastParseTime acc0) with (acc_lastParseTime acc). lia.
Qed.

(** Rate limit: with a positive interval and a clock that does not run
    backwards, any two consecutive structured parses of a window are at least
    the interval apart, failed parses included, so a parser that keeps failing
    is not run more often than one that succeeds. *)
Theorem parses_are_throttled cfg ds : forall acc w w' acc' o,
  monotone cfg -> 0 < cc_ParseThrottleInterval cfg ->
  window cfg ds acc w = (w', acc', o) -> spaced (cc_ParseThrottleInterval cfg) (lastParse acc) (o_parses o).
Proof.
  induction ds as [|d ds IH]; intros acc w w' acc' o Hm Hi H; simpl in H.
  { injection H as <- <- <-. intros k a b. simpl. destruct (lastParse acc), k; done. }
  destruct (Delta cfg d acc w) as [[w1 acc1] o1] eqn:Ed.
  apply Delta_parses in Ed; [|done].
  assert (Hrest : forall ps, spaced (cc_ParseThrottleInterval cfg) (lastParse acc1) ps ->
    spaced (cc_ParseThrottleInterval cfg) (lastParse acc) (o_parses o1 ++ ps)).
  { intros ps Hs. destruct Ed as [[-> <-]|(t&->&Hl&Hsp)]; [done|]. rewrite Hl in Hs. simpl in *.
    destruct (lastParse acc) as [l|]; [|exact Hs].
    intros [|k] a b; simpl; [|apply (Hs k)]. intros [= <-] [= <-]. auto. }
  destruct (o_err o1).
  - injection H as <- <- <-. rewrite <- (app_nil_r (o_parses o1)). apply Hrest.
    intros k a b. destruct (lastParse acc1), k; done.
  - destruct (window cfg ds acc1 w1) as [[w2 acc2] o2] eqn:Ew. simplify_eq/=. apply Hrest. by eapply IH.
Qed.

(** Where the error of a delta comes from. *)
Lemma Delta_error cfg d acc w w' acc' o err :
  Delta cfg d acc w = (w', acc', o) -> o_err o = Some err ->
  (exists ev u, last (o_events o) = Some ev /\ snd (cc_Emit cfg ev u) = Some err)
  \/ cc_ParsePolicy cfg = CadenceParseErrorsAreTerminal /\ o_events o = []
      /\ exists parse s u, cc_ParsePartial cfg = Some parse /\ snd (parse s u) = inr err.
Proof.
  intros H He. unfold Delta, emitRawOnly, emit in H.
  assert (Hem : forall ev u w1 e1, cc_Emit cfg ev u = (w1, e1) -> e1 = Some err ->
    exists ev0 u, last [ev] = Some ev0 /\ snd (cc_Emit cfg ev0 u) = Some err).
  { intros ev u w1 e1 Hc ->. exists ev, u. by rewrite Hc. }
  case_hyp H; [by simplify_eq|].
  destruct (cc_NeedsPartials cfg && _).
  { destruct (cc_NeedsRaw cfg); [destruct (cc_Emit _ _ _) eqn:Em|]; simplify_eq/=; left; eauto. }
  destruct (cc_NeedsPartials cfg); [|by simplify_eq].
  destruct (tryParse cfg _ w) as [[[w1 acc1] ps] r] eqn:Et.
  destruct r as [[p|]|e]; [destruct (cc_Emit _ _ _) eqn:Em|
    destruct (cc_NeedsRaw cfg); [destruct (cc_Emit _ _ _) eqn:Em|]|]; simplify_eq/=; try (left; by eauto).
  right. unfold tryParse, classifyParseError in Et. destruct (cc_ParsePartial cfg) as [f|]; [|by simplify_eq].
  destruct (shouldParse cfg _ w) as [w2 [|]]; [|by simplify_eq]. destruct (cc_Now cfg w2) as [w3 now].
  simpl in Et. destruct (f _ w3) as [w4 [p|e]] eqn:Ef; [by simplify_eq|].
  destruct (cc_ParsePolicy cfg); simplify_eq. split_and!; try done. eexists f, _, w3. by rewrite Ef.
Qed.

(** Parse policy: under the lenient policy the only errors a window can
    end with are those of the sink, which it returned for the last event; a
    parser error never ends it.  Under the strict one the error is the sink's
    for the last event, or one the parser returned. *)
Theorem parse_policy cfg ds : forall acc w w' acc' o err,
  window cfg ds acc w = (w', acc', o) -> o_err o = Some err ->
  match cc_ParsePolicy cfg with
  | CadenceParseErrorsAreNoEvent => exists ev u, last (o_events o) = Some ev /\ snd (cc_Emit cfg ev u) = Some err
  | CadenceParseErrorsAreTerminal =>
      (exists ev u, last (o_events o) = Some ev /\ snd (cc_Emit cfg ev u) = Some err)
      \/ exists parse s u, cc_ParsePartial cfg = Some parse /\ snd (parse s u) = inr err
  end.
Proof.
  induction ds as [|d ds IH]; intros acc w w' acc' o err H He; simpl in H; [by simplify_eq|].
  destruct (Delta cfg d acc w) as [[w1 acc1] o1] eqn:Ed.
  destruct (o_err o1) as [e1|] eqn:Eo.
  - injection H as <- <- <-. destruct (Delta_error _ _ _ _ _ _ _ _ Ed He) as [Hs|(Hp&_&Hs)]; [|rewrite Hp; by right].
    destruct (cc_ParsePolicy cfg); [done|by left].
  - destruct (window cfg ds acc1 w1) as [[w2 acc2] o2] eqn:Ew. simplify_eq/=.
    pose proof (IH _ _ _ _ _ _ Ew He) as Hi.
    assert (Happ : forall ev, last (o_events o2) = Some ev -> last (o_events o1 ++ o_events o2) = Some ev).
    { intros ev Hl. rewrite last_app, Hl. done. }
    destruct (cc_ParsePolicy cfg); [destruct Hi as (ev&u&?&?); exists ev, u; auto|].
    destruct Hi as [(ev&u&?&?)|?]; [left; exists ev, u; auto|by right].
Qed.
End Cadence.

Module CadenceTrace.
(** The world is the time; the parser accepts texts longer than three bytes;
    the sink never fails. *)
Definition cfg : StreamCadenceConfig Z string string :=
  mkCadenceConfig Z string string true true 10
    (Some (fun s w => (w + 4, if (3 <? Z.of_nat (String.length s)) then inl (Some s) else inr "short")))
    (fun _ w => (w, None)) CadenceParseErrorsAreNoEvent (fun w => (w, w)).
Definition strict : StreamCadenceConfig Z string string :=
  mkCadenceConfig Z string string true false 10
    (Some (fun s w => (w + 4, if (3 <? Z.of_nat (String.length s)) then inl (Some s) else inr "short")))
    (fun _ w => (w, None)) CadenceParseErrorsAreTerminal (fun w => (w, w)).
Definition deltas : list delta :=
  [mkDelta "ab" "ab" ""; mkDelta "" "x" "why"; mkDelta "cd" "cd" ""; mkDelta "ef" "ef" ""].
Definition run := window cfg deltas newAccumulator 0.
End CadenceTrace.

Lemma raw_is_delivered_witness :
  cat (ev_Raw <$> o_events (snd CadenceTrace.run)) = "abxcdef".
Proof.
  exact (proj1 (raw_is_delivered CadenceTrace.cfg CadenceTrace.deltas newAccumulator 0
    (fst (fst CadenceTrace.run)) (snd (fst CadenceTrace.run)) (snd CadenceTrace.run)
    eq_refl eq_refl eq_refl eq_refl)).
Defined.

Lemma mode_gating_witness :
  Forall (fun ev => ev_Raw ev = "" /\ ev_Reasoning ev = "")
    (o_events (snd (window CadenceTrace.strict [mkDelta "abcd" "abcd" "r"] newAccumulator 0))).
Proof.
  exact (proj1 (mode_gating CadenceTrace.strict [mkDelta "abcd" "abcd" "r"] newAccumulator 0 _ _ _ eq_refl) eq_refl).
Defined.

Lemma parses_are_throttled_witness : spaced 10 None (o_parses (snd CadenceTrace.run)).
Proof.
  apply (parses_are_throttled CadenceTrace.cfg CadenceTrace.deltas newAccumulator 0
    (fst (fst CadenceTrace.run)) (snd (fst CadenceTrace.run))); [|reflexivity|reflexivity].
  intros w w1 t1 H w2 t2 H2. simpl in *. injection H as <- <-. injection H2 as <- <-. lia.
Defined.

Lemma parse_policy_witness :
  exists parse s u, cc_ParsePartial CadenceTrace.strict = Some parse /\ snd (parse s u) = inr "short".
Proof.
  destruct (parse_policy CadenceTrace.strict CadenceTrace.deltas newAccumulator 0 _ _ _ "short" eq_refl eq_refl)
    as [(ev&u&_&H)|H]; [discriminate H|exact H].
Defined.
