(* ===== verification/Sse.v ===== *)
(** * Sse: [bamlutils/sseclient/sseclient.go]

    The server-sent-events parser, in its channel form ([scan], behind
    [Stream]) and its synchronous form ([ScanEvents]).

    The reader is the bytes it delivers and the error it ends with (none for
    EOF); [bufio.Scanner] with its line splitter and its bound on the token
    length turns them into lines.  The context, the channel and the callback act
    on a world [W]. *)

From Stdlib Require Import Ascii String.
From S2P Require Import Prelude GoStrings.

Open Scope stdpp_scope.

Definition CR : ascii := "013"%char.
Definition colon : ascii := "058"%char.
Definition space : ascii := "032"%char.
Definition NUL : ascii := "000"%char.

(** [Event]; [EventBytes] has the same three fields. *)
Record Event := mkEvent { ev_Type : string; ev_Data : string; ev_ID : string }.

(** ** Lines *)

Definition sseScannerMaxTokenSize : nat := N.to_nat 1048576.

(** [bufio.ScanLines] drops one carriage return at the end of a line. *)
Definition dropCR (l : string) : string :=
  match unsnoc l with
  | Some (i, z) => if Ascii.eqb z CR then i else l
  | None => l
  end.

(** The tokens of a [bufio.Scanner] over the pieces, and whether it stopped at a
    line that does not fit its buffer; an empty remainder at the end of the
    input is not a token. *)
Fixpoint scanTokens (max : nat) (pieces : list string) : list string * bool :=
  match pieces with
  | [] => ([], false)
  | l :: rest =>
      match rest, l with
      | [], EmptyString => ([], false)
      | _, _ =>
          if max <=? String.length l then ([], true)
          else let '(ts, tooLong) := scanTokens max rest in (dropCR l :: ts, tooLong)
      end
  end.

(** [parseSSELine]. *)
Definition parseSSELine (line : string) : string * string :=
  match CutByte colon line with
  | None => (line, EmptyString)
  | Some (field, value) =>
      (field, match value with
              | String a rest => if Ascii.eqb a space then rest else value
              | EmptyString => value
              end)
  end.

(** ** The parsers *)

(** The state between two lines. *)
Record parseState := mkState { st_type : string; st_data : string; st_hasData : bool; st_id : string }.
Definition emptyState : parseState := mkState "" "" false "".

Section Parsers.
Context {W E : Type}.
Variable ctxErr : W -> option E.
(** Waiting for the next line. *)
Variable tick : W -> W.
Variable errTooLong : E.
Variable max : nat.

(** The field switch of [scan]. *)
Definition scan_field (line : string) (st : parseState) : parseState :=
  let '(field, value) := parseSSELine line in
  if field =s "data" then
    mkState (st_type st)
      ((if st_hasData st then st_data st +:+ String LF EmptyString else st_data st) +:+ value) true (st_id st)
  else if field =s "event" then mkState value (st_data st) (st_hasData st) (st_id st)
  else if field =s "id" then
    if ContainsByte NUL value then st else mkState (st_type st) (st_data st) (st_hasData st) value
  else st.

Section Stream.
(** The send on the channel, or the context's error when it wins the select. *)
Variable send : Event -> W -> W * option E.

(** The loop of [scan]: an early return with the context's error, or the
    state at the end of the lines. *)
Fixpoint scan_loop (lines : list string) (st : parseState) (w : W) : W * (E + parseState) :=
  match lines with
  | [] => (w, inr st)
  | token :: lines' =>
      let w := tick w in
      match ctxErr w with
      | Some e => (w, inl e)
      | None =>
          let line := TrimRightByte CR token in
          match line with
          | EmptyString =>
              if st_hasData st then
                let '(w, r) := send (mkEvent (st_type st) (st_data st) (st_id st)) w in
                match r with
                | Some e => (w, inl e)
                | None => scan_loop lines' emptyState w
                end
              else scan_loop lines' emptyState w
          | String a _ =>
              if Ascii.eqb a colon then scan_loop lines' st w
              else scan_loop lines' (scan_field line st) w
          end
      end
  end.

(** [scan]: [readErr] is the reader's error, [None] for EOF. *)
Definition scan (input : string) (readErr : option E) (w : W) : W * option E :=
  let '(lines, tooLong) := scanTokens max (splitLF input) in
  let '(w, r) := scan_loop lines emptyState w in
  match r with
  | inl e => (w, Some e)
  | inr st =>
      if tooLong then (w, Some errTooLong)
      else match readErr with
           | Some e => (w, Some e)
           | None =>
               if st_hasData st then send (mkEvent (st_type st) (st_data st) (st_id st)) w
               else (w, None)
           end
  end.
End Stream.

Section Sync.
Variable fn : Event -> W -> W * option E.
(** [errors.Is(err, ErrStopScan)]. *)
Variable isStop : E -> bool.

(** [emit]: the context is read again before the callback runs. *)
Definition emit (st : parseState) (w : W) : W * option E :=
  match ctxErr w with
  | Some e => (w, Some e)
  | None => fn (mkEvent (st_type st) (st_data st) (st_id st)) w
  end.

(** How an error of [emit] leaves [ScanEvents]. *)
Definition stopped (e : E) : option E := if isStop e then None else Some e.

(** The field switch of [ScanEvents], on its scratch buffers. *)
Definition ScanEvents_field (line : string) (st : parseState) : parseState :=
  match parseSSELine line with
  | (field, value) =>
      if field =s "data" then
        let dataBuf := if st_hasData st then st_data st +:+ String LF EmptyString else st_data st in
        mkState (st_type st) (dataBuf +:+ value) true (st_id st)
      else if field =s "event" then mkState value (st_data st) (st_hasData st) (st_id st)
      else if (field =s "id") && negb (ContainsByte NUL value)
      then mkState (st_type st) (st_data st) (st_hasData st) value
      else st
  end.

Fixpoint ScanEvents_loop (lines : list string) (st : parseState) (w : W) : W * (option E + parseState) :=
  match lines with
  | [] => (w, inr st)
  | token :: lines' =>
      let w := tick w in
      match ctxErr w with
      | Some e => (w, inl (Some e))
      | None =>
          let line := TrimRightByte CR token in
          match line with
          | EmptyString =>
              if st_hasData st then
                let '(w, r) := emit st w in
                match r with
                | Some e => (w, inl (stopped e))
                | None => ScanEvents_loop lines' emptyState w
                end
              else ScanEvents_loop lines' emptyState w
          | String a _ =>
              if Ascii.eqb a colon then ScanEvents_loop lines' st w
              else ScanEvents_loop lines' (ScanEvents_field line st) w
          end
      end
  end.

(** [ScanEvents]. *)
Definition ScanEvents (input : string) (readErr : option E) (w : W) : W * option E :=
  let '(lines, tooLong) := scanTokens max (splitLF input) in
  let '(w, r) := ScanEvents_loop lines emptyState w in
  match r with
  | inl e => (w, e)
  | inr st =>
      if tooLong then (w, Some errTooLong)
      else match readErr with
           | Some e => (w, Some e)
           | None =>
               if st_hasData st then
                 let '(w, r) := emit st w in
                 match r with
                 | Some e => (w, stopped e)
                 | None => (w, None)
                 end
               else (w, None)
           end
  end.

(** What ticks and callbacks keep holds when the scan ends. *)
Lemma ScanEvents_inv (P : W -> Prop) input readErr w :
  (forall u, P u -> P (tick u)) -> (forall ev u, P u -> P (fst (fn ev u))) ->
  P w -> P (fst (ScanEvents input readErr w)).
Proof.
  intros Ht Hf.
  assert (forall st u, P u -> P (fst (emit st u))) as He.
  { intros st u Hu. unfold emit. destruct (ctxErr u); [done|by apply Hf]. }
  assert (forall lines st u, P u -> P (fst (ScanEvents_loop lines st u))) as Hl.
  { induction lines as [|token lines IH]; intros st u Hu; simpl; [done|].
    specialize (Ht u Hu). destruct (ctxErr (tick u)); [done|].
    destruct (TrimRightByte CR token) as [|a rest].
    - destruct (st_hasData st); [|by apply IH]. specialize (He st _ Ht).
      destruct (emit st (tick u)) as [u' [e|]]; [done|by apply IH].
    - destruct (Ascii.eqb a colon); by apply IH. }
  intros Hw. unfold ScanEvents. destruct (scanTokens max (splitLF input)) as [lines tooLong].
  specialize (Hl lines emptyState w Hw).
  destruct (ScanEvents_loop lines emptyState w) as [w1 [e|st]]; [done|].
  destruct tooLong; [done|]. destruct readErr; [done|]. destruct (st_hasData st); [|done].
  specialize (He st w1 Hl). by destruct (emit st w1) as [w2 [e|]].
Qed.
End Sync.

(** ** The two parsers agree *)

Lemma fields_agree line st : ScanEvents_field line st = scan_field line st.
Proof.
  unfold ScanEvents_field, scan_field. destruct (parseSSELine line) as [f v].
  destruct (f =s "data"); [done|]. destruct (f =s "event"); [done|].
  destruct (f =s "id"); [|done]. simpl. by destruct (ContainsByte NUL v).
Qed.

Section Agree.
Variable fn : Event -> W -> W * option E.
Variable isStop : E -> bool.
(** The channel send that first looks at the context. *)
Definition checkedSend (ev : Event) (w : W) : W * option E :=
  match ctxErr w with Some e => (w, Some e) | None => fn ev w end.
Hypothesis no_stop : forall ev w e, snd (checkedSend ev w) = Some e -> isStop e = false.

Lemma emit_checked st w :
  emit fn st w = checkedSend (mkEvent (st_type st) (st_data st) (st_id st)) w.
Proof. done. Qed.

Lemma stopped_checked ev w w' e : checkedSend ev w = (w', Some e) -> stopped isStop e = Some e.
Proof. intros H. unfold stopped. rewrite (no_stop ev w); [done|]. by rewrite H. Qed.

Lemma loops_agree lines : forall st w,
  ScanEvents_loop fn isStop lines st w =
  let '(w', r) := scan_loop checkedSend lines st w in
  (w', match r with inl e => inl (Some e) | inr st => inr st end).
Proof.
  induction lines as [|token lines IH]; intros st w; simpl; [done|].
  destruct (ctxErr (tick w)); [done|]. destruct (TrimRightByte CR token) as [|a rest].
  - destruct (st_hasData st); [|apply IH]. rewrite emit_checked.
    destruct (checkedSend _ (tick w)) as [w1 [e|]] eqn:Ec; [|apply IH].
    by rewrite (stopped_checked _ _ _ _ Ec).
  - rewrite fields_agree. destruct (Ascii.eqb a colon); apply IH.
Qed.

(** The synchronous parser is the channel parser: for every input, every
    reader error, every line too long for the buffer and every point of
    cancellation, [ScanEvents] calls its callback with the events [scan]
    sends, in the same states of the world, and ends with the same error
    (as long as the callback does not ask to stop). *)
Theorem ScanEvents_agrees input readErr w :
  ScanEvents fn isStop input readErr w = scan checkedSend input readErr w.
Proof.
  unfold ScanEvents, scan. destruct (scanTokens max (splitLF input)) as [lines tooLong].
  rewrite loops_agree. destruct (scan_loop checkedSend lines emptyState w) as [w1 [e|st]]; [done|].
  destruct tooLong; [done|]. destruct readErr; [done|]. destruct (st_hasData st); [|done].
  rewrite emit_checked. destruct (checkedSend _ w1) as [w2 [e|]] eqn:Ec; [|done].
  by rewrite (stopped_checked _ _ _ _ Ec).
Qed.
End Agree.
End Parsers.

(** ** Encoding and parsing *)

(** Collect the events; the context is never done. *)
Definition record (ev : Event) (w : list Event) : list Event * option unit := (w ++ [ev], None).
Definition parseEvents (max : nat) (input : string) : list Event * option unit :=
  scan (fun _ => None) (fun w => w) tt max record input None [].

(** The lines of an event: its type and its ID when it has them, a data line for
    every line of its data, and the blank line. *)
Definition eventLines (ev : Event) : list string :=
  (if ev_Type ev =s "" then [] else ["event: " +:+ ev_Type ev])
  ++ (if ev_ID ev =s "" then [] else ["id: " +:+ ev_ID ev])
  ++ ((fun l => "data: " +:+ l) <$> splitLF (ev_Data ev)) ++ [""].

Definition unlines (ls : list string) : string := foldr (fun l s => l +:+ String LF s) "" ls.
Definition encodeEvents (evs : list Event) : string := unlines (evs ≫= eventLines).

(** A value that fits on a line: no newline, and no carriage return at its end. *)
Definition lineValue (s : string) : bool := negb (ContainsByte LF s) && (TrimRightByte CR s =s s).

(** An event every field of which fits: the data line by line. *)
Definition encodable (max : nat) (ev : Event) : bool :=
  lineValue (ev_Type ev) && lineValue (ev_ID ev) && negb (ContainsByte NUL (ev_ID ev))
  && forallb (fun l => TrimRightByte CR l =s l) (splitLF (ev_Data ev))
  && forallb (fun l => String.length l <? max) (eventLines ev).

Lemma splitLF_unlines ls :
  Forall (fun l => ContainsByte LF l = false) ls -> splitLF (unlines ls) = ls ++ [""].
Proof. induction 1 as [|l ls Hl _ IH]; simpl; [done|]. by rewrite splitLF_line, IH. Qed.

Lemma TrimRightByte_snoc c s : TrimRightByte c (s +:+ String c "") = TrimRightByte c s.
Proof.
  induction s as [|a s IH]; simpl; [by rewrite Ascii.eqb_refl|]. by rewrite IH.
Qed.

Lemma TrimRight_dropCR l : TrimRightByte CR (dropCR l) = TrimRightByte CR l.
Proof.
  unfold dropCR. destruct (unsnoc l) as [[i z]|] eqn:E; [|done].
  destruct (Ascii.eqb z CR) eqn:Ez; [|done]. apply Ascii.eqb_eq in Ez as ->.
  apply unsnoc_some in E as ->. by rewrite TrimRightByte_snoc.
Qed.

Lemma TrimRightByte_app c p x :
  TrimRightByte c (p +:+ x) = match TrimRightByte c x with "" => TrimRightByte c p | t => p +:+ t end.
Proof.
  induction p as [|a p IH]; simpl.
  - by destruct (TrimRightByte c x).
  - rewrite IH. destruct (TrimRightByte c x) as [|b t]; [done|]. by destruct p.
Qed.

(** A value behind a field name keeps its end. *)
Lemma TrimRight_field p x :
  TrimRightByte CR p = p -> p <> "" -> TrimRightByte CR x = x -> TrimRightByte CR (p +:+ x) = p +:+ x.
Proof.
  intros Hp Hne Hx. rewrite TrimRightByte_app, Hx. destruct x; [|done]. by rewrite sapp_nil_r.
Qed.

Lemma scanTokens_lines max ls :
  Forall (fun l => String.length l < max) ls ->
  exists ts, scanTokens max (ls ++ [""]) = (ts, false) /\ (TrimRightByte CR <$> ts) = (TrimRightByte CR <$> ls).
Proof.
  induction 1 as [|l ls Hl _ (ts&Ht&He)]; [by exists []|]. exists (dropCR l :: ts). simpl.
  rewrite Ht. replace (max <=? String.length l) with false by lia.
  rewrite TrimRight_dropCR. split; [|by f_equal]. by destruct ls, l.
Qed.

(** ** What the parser does with the lines of an event *)

Section Roundtrip.
Local Abbreviation loop := (scan_loop (E:=unit) (fun _ => None) (fun w : list Event => w) record).

(** The loop only sees the trimmed tokens. *)
Lemma loop_trim ts ts' : forall st w,
  (TrimRightByte CR <$> ts) = (TrimRightByte CR <$> ts') -> loop ts st w = loop ts' st w.
Proof.
  revert ts'. induction ts as [|t ts IH]; intros [|t' ts'] st w He; try done.
  injection He as He Hes. simpl. rewrite He. destruct (TrimRightByte CR t') as [|a r].
  - destruct (st_hasData st); by apply IH.
  - destruct (Ascii.eqb a colon); by apply IH.
Qed.

Lemma loop_app ls ls' : forall st w,
  loop (ls ++ ls') st w = match loop ls st w with (w', inr st') => loop ls' st' w' | r => r end.
Proof.
  induction ls as [|t ls IH]; intros st w; simpl; [done|].
  destruct (TrimRightByte CR t) as [|a r].
  - destruct (st_hasData st); apply IH.
  - destruct (Ascii.eqb a colon); apply IH.
Qed.

(** A field line, for a field name without a colon. *)
Lemma loop_field line ls st w a r :
  TrimRightByte CR line = line -> line = String a r -> Ascii.eqb a colon = false ->
  loop (line :: ls) st w = loop ls (scan_field line st) w.
Proof. intros Ht -> Ha. cbn [scan_loop]. rewrite Ht, Ha. done. Qed.

Lemma loop_data ls : forall rest st w,
  Forall (fun l => TrimRightByte CR l = l) ls -> ls <> [] ->
  loop (((fun l => "data: " +:+ l) <$> ls) ++ rest) st w =
  loop rest (mkState (st_type st)
    ((if st_hasData st then st_data st +:+ String LF "" else st_data st) +:+ joinLF ls) true (st_id st)) w.
Proof.
  induction ls as [|l ls IH]; intros rest st w Hf Hne; [done|]. apply Forall_cons in Hf as [Hl Hf].
  cbn [fmap list_fmap app]. erewrite loop_field; [|by apply TrimRight_field|reflexivity|reflexivity].
  unfold scan_field. cbn. destruct ls as [|l2 ls]; [done|].
  rewrite IH by done. cbn [st_hasData st_data st_type st_id joinLF]. do 2 f_equal.
  by rewrite !sapp_assoc.
Qed.

Lemma loop_event max ev rest w :
  encodable max ev = true -> loop (eventLines ev ++ rest) emptyState w = loop rest emptyState (w ++ [ev]).
Proof.
  unfold encodable, lineValue. rewrite !andb_true_iff, !String.eqb_eq, !negb_true_iff.
  intros ((((Ht&Hi)&Hn)&Hd)&_). destruct ev as [t d i]; simpl in *.
  unfold eventLines. simpl. rewrite <- !(assoc_L (++)).
  assert (H1 : forall rest', loop ((if t =s "" then [] else ["event: " +:+ t]) ++ rest') emptyState w
    = loop rest' (mkState t "" false "") w).
  { intros rest'. destruct (String.eqb_spec t "") as [->|]; [done|]. simpl app.
    erewrite loop_field; [|apply (TrimRight_field "event: "); [done|done|apply Ht]|reflexivity|reflexivity]. done. }
  assert (H2 : forall rest', loop ((if i =s "" then [] else ["id: " +:+ i]) ++ rest') (mkState t "" false "") w
    = loop rest' (mkState t "" false i) w).
  { intros rest'. destruct (String.eqb_spec i "") as [->|]; [done|]. simpl app.
    erewrite loop_field; [|apply (TrimRight_field "id: "); [done|done|apply Hi]|reflexivity|reflexivity].
    unfold scan_field. cbn. by rewrite Hn. }
  rewrite H1, H2, loop_data; [|by apply Forall_forall; intros l Hl; rewrite forallb_forall in Hd;
    apply String.eqb_eq, Hd, list_elem_of_In|apply splitLF_nonempty].
  simpl. by rewrite joinLF_split.
Qed.

(** The lines of an encodable event are lines. *)
Lemma eventLines_noLF max ev :
  encodable max ev = true -> Forall (fun l => ContainsByte LF l = false /\ String.length l < max) (eventLines ev).
Proof.
  unfold encodable, lineValue. rewrite !andb_true_iff, !String.eqb_eq, !negb_true_iff.
  intros ((((Ht&Hi)&Hn)&Hd)&Hl). apply Forall_forall. intros l Hin. split.
  - unfold eventLines in Hin.
    repeat apply elem_of_app in Hin as [Hin|Hin].
    + case_hyp Hin; [by apply elem_of_nil in Hin|]. apply list_elem_of_singleton in Hin as ->. apply Ht.
    + case_hyp Hin; [by apply elem_of_nil in Hin|]. apply list_elem_of_singleton in Hin as ->. apply Hi.
    + apply list_elem_of_fmap in Hin as (x&->&Hx). simpl. by eapply splitLF_noLF.
    + by apply list_elem_of_singleton in Hin as ->.
  - rewrite forallb_forall in Hl. apply list_elem_of_In, Hl in Hin. lia.
Qed.

Lemma loop_events max evs : forall w,
  Forall (fun ev => encodable max ev = true) evs ->
  loop (evs ≫= eventLines) emptyState w = (w ++ evs, inr emptyState).
Proof.
  induction evs as [|ev evs IH]; intros w Hf; [by rewrite app_nil_r|].
  apply Forall_cons in Hf as [He Hf]. cbn [mbind list_bind].
  rewrite (loop_event max) by done. rewrite IH by done. by rewrite <- (assoc_L (++)).
Qed.
End Roundtrip.



(** Keepalives are invisible: comment lines may be interspersed anywhere
    between the lines of a stream, also inside an event, without changing the
    events or the final state. *)
Theorem comments_transparent {E} (lines : list string) (st : parseState) (w : list Event) :
  scan_loop (E:=E) (fun _ => None) (fun w => w) (fun ev w => (w ++ [ev], None)) lines st w
  = scan_loop (fun _ => None) (fun w => w) (fun ev w => (w ++ [ev], None))
      (List.filter (fun l => match TrimRightByte CR l with
                             | String a _ => negb (Ascii.eqb a colon)
                             | EmptyString => true end) lines) st w.
Proof.
  revert st w. induction lines as [|l lines IH]; intros st w; simpl; [done|].
  destruct (TrimRightByte CR l) as [|a r] eqn:El; simpl; [rewrite El; destruct (st_hasData st); apply IH|].
  destruct (Ascii.eqb a colon) eqn:Ea; simpl; [apply IH|]. rewrite El, Ea. apply IH.
Qed.

Lemma ScanEvents_agrees_witness :
  ScanEvents (fun _ => None) (fun w => w) tt 64 record (fun _ => false)
    (encodeEvents [mkEvent "t" "d" ""]) None [] = ([mkEvent "t" "d" ""], None).
Proof.
  rewrite (ScanEvents_agrees (fun _ => None) (fun w => w) tt 64 record (fun _ => false));
    [vm_compute; reflexivity|]. intros ev w e H. discriminate H.
Defined.
