(* ===== verification/Orchestration.v ===== *)
(** * Orchestration: what the two orchestrators share

    The errors of [bamlutils/buildrequest] with their wrappers ([raw_error.go],
    [errors.go], [native_stream_callback.go]), the engine tokens, the frames on
    the output channel, the metadata frames, and the environment an orchestrator
    runs in.  A callback that receives [sendHeartbeat] is a [Callback]: a
    computation on worlds that returns or calls the heartbeat and resumes.  A
    frame is modelled by the arguments the code passes to [newResult] and
    [NewMetadataResult]. *)

From S2P Require Import Prelude Registry Retry Metadata.
Local Open Scope Z_scope.

(** ** Errors: [raw_error.go], [errors.go] and the [fmt.Errorf] wraps *)

Inductive Err (X : Type) :=
  | Ext (x : X)
  | ErrUnsupportedProvider (provider : string)
  | ErrUnsupportedChild (provider child : string)
  | ErrLegacyCallChildNil
  | ErrLegacyStreamChildNil
  | ErrBuild (err : Err X)
  | ErrExtract (err : Err X)
  | ErrParseFinal (err : Err X)
  | OutputParseError (err : Err X)
  | rawCarryingError (err : Err X) (raw : string)
  | errNativeCallFailedNil
  | ErrUnknownDisposition (d : Z)
  | ErrNilFunction
  | ErrBedrockRequestNil
  | ErrBothNativeSeams
  | ErrNativeParsersNil
  | errNativeStreamFailedNil
  | ErrStopScan
  | ErrTooLong
  | ErrStream (err : Err X)
  | ErrDeltaExtraction (err : Err X)
  | ErrParseNativeFinal (err : Err X)
  | nativeStreamTerminalError (err : Err X).
Arguments Ext {X}. Arguments ErrUnsupportedProvider {X}. Arguments ErrUnsupportedChild {X}.
Arguments ErrLegacyCallChildNil {X}. Arguments ErrLegacyStreamChildNil {X}. Arguments ErrBuild {X}. Arguments ErrExtract {X}.
Arguments ErrParseFinal {X}. Arguments OutputParseError {X}. Arguments rawCarryingError {X}.
Arguments errNativeCallFailedNil {X}. Arguments ErrUnknownDisposition {X}. Arguments ErrNilFunction {X}.
Arguments ErrBedrockRequestNil {X}. Arguments ErrBothNativeSeams {X}. Arguments ErrNativeParsersNil {X}.
Arguments errNativeStreamFailedNil {X}. Arguments ErrStopScan {X}. Arguments ErrTooLong {X}.
Arguments ErrStream {X}. Arguments ErrDeltaExtraction {X}. Arguments ErrParseNativeFinal {X}.
Arguments nativeStreamTerminalError {X}.

(** [Unwrap], one step of the chain that [errors.Is] and [errors.As] walk. *)
Definition Unwrap {X} (err : Err X) : option (Err X) :=
  match err with
  | ErrBuild e | ErrExtract e | ErrParseFinal e | OutputParseError e | rawCarryingError e _
  | ErrStream e | ErrDeltaExtraction e | ErrParseNativeFinal e | nativeStreamTerminalError e => Some e
  | _ => None
  end.

Definition newRawError {X} (err : Err X) (raw : string) : Err X :=
  if raw =s "" then err else rawCarryingError err raw.

Fixpoint rawFromError {X} (err : Err X) : string :=
  match err with
  | rawCarryingError _ raw => raw
  | ErrBuild e | ErrExtract e | ErrParseFinal e | OutputParseError e | ErrStream e
  | ErrDeltaExtraction e | ErrParseNativeFinal e | nativeStreamTerminalError e => rawFromError e
  | _ => ""
  end.

Definition wrapOutputParse {X} (err : Err X) : Err X := OutputParseError err.

(** [newNativeStreamTerminalError]; a nil error becomes the sentinel. *)
Definition newNativeStreamTerminalError {X} (err : option (Err X)) (raw : string) : Err X :=
  newRawError (nativeStreamTerminalError (default errNativeStreamFailedNil err)) raw.

(** [isNativeStreamTerminal]. *)
Fixpoint isNativeStreamTerminal {X} (err : Err X) : bool :=
  match err with
  | nativeStreamTerminalError _ => true
  | ErrBuild e | ErrExtract e | ErrParseFinal e | OutputParseError e | rawCarryingError e _
  | ErrStream e | ErrDeltaExtraction e | ErrParseNativeFinal e => isNativeStreamTerminal e
  | _ => false
  end.

(** [retry.isTerminal]: the first [TerminalError] of the chain answers, which is
    a native stream failure or the innermost, external error. *)
Fixpoint isTerminal {X} (extTerminal : X -> bool) (err : Err X) : bool :=
  match err with
  | Ext x => extTerminal x
  | nativeStreamTerminalError _ => true
  | ErrBuild e | ErrExtract e | ErrParseFinal e | OutputParseError e | rawCarryingError e _
  | ErrStream e | ErrDeltaExtraction e | ErrParseNativeFinal e => isTerminal extTerminal e
  | _ => false
  end.

(** [errors.Is] against [context.Canceled] or [context.DeadlineExceeded]. *)
Fixpoint isCancellation {X} (extCancel : X -> bool) (err : Err X) : bool :=
  match err with
  | Ext x => extCancel x
  | ErrBuild e | ErrExtract e | ErrParseFinal e | OutputParseError e | rawCarryingError e _
  | ErrStream e | ErrDeltaExtraction e | ErrParseNativeFinal e | nativeStreamTerminalError e =>
      isCancellation extCancel e
  | _ => false
  end.

Lemma native_terminal_isTerminal {X} (f : X -> bool) e :
  isNativeStreamTerminal e = true -> isTerminal f e = true.
Proof. induction e; simpl; try done; auto. Qed.

Lemma newNativeStreamTerminalError_terminal {X} (err : option (Err X)) raw :
  isNativeStreamTerminal (newNativeStreamTerminalError err raw) = true.
Proof. unfold newNativeStreamTerminalError, newRawError. by destruct (raw =s ""). Qed.

(** ** Engine tokens: [native_callback.go] *)

Definition nativeEngineMarker : string := "native".
Definition nativeBAMLParseEngineMarker : string := "native_baml_parse".

Definition allowedWinnerEngine (e : string) : string :=
  if (e =s nativeEngineMarker) || (e =s nativeBAMLParseEngineMarker) then e else nativeEngineMarker.

Definition allowedPlannedEngine (e : string) : string :=
  if e =s nativeEngineMarker then e else "".

(** A callback that is handed [sendHeartbeat]. *)
Inductive Callback (W A : Type) :=
  | Done (w : W) (a : A)
  | Beat (w : W) (k : W -> Callback W A).
Arguments Done {W A}. Arguments Beat {W A}.

(** What is delivered on the output channel. *)
Inductive Frame (V X : Type) :=
  | FHeartbeat
  | FMetadata (m : Metadata)
  | FStream (stream : option V) (raw reasoning : string) (reset : bool)
  | FError (raw : string) (err : Err X)
  | FFinal (v : option V) (raw reasoning : string).
Arguments FHeartbeat {V X}. Arguments FMetadata {V X}. Arguments FStream {V X}.
Arguments FError {V X}. Arguments FFinal {V X}.

(** The context, the consumer and the clock.  [offer] is the blocking select of
    a send against [ctx.Done()], [tryOffer] the send with a default branch; both
    tell whether the frame was taken. *)
Record Env (W V X : Type) := mkEnv {
  ctxErr : W -> option (Err X);
  offer : Frame V X -> W -> W * bool;
  tryOffer : Frame V X -> W -> W * bool;
  now : W -> Z;
  sleep : Z -> W -> W * option (Err X);
  extTerminal : X -> bool;
  debugFilter : string -> bool -> bool
}.
Arguments mkEnv {W V X}. Arguments ctxErr {W V X}. Arguments offer {W V X}.
Arguments tryOffer {W V X}. Arguments now {W V X}. Arguments sleep {W V X}.
Arguments extTerminal {W V X}. Arguments debugFilter {W V X}.

(** The planned frame. *)
Definition plannedOf (plan : Metadata) : Metadata :=
  {| md_Phase := PhasePlanned; md_Attempt := 0; md_Path := md_Path plan;
     md_PathReason := md_PathReason plan; md_BuildRequestAPI := md_BuildRequestAPI plan;
     md_Client := md_Client plan; md_Provider := md_Provider plan; md_Strategy := md_Strategy plan;
     md_Chain := md_Chain plan; md_LegacyChildren := md_LegacyChildren plan;
     md_RetryMax := md_RetryMax plan; md_RetryPolicy := md_RetryPolicy plan;
     md_RetryCount := md_RetryCount plan; md_WinnerClient := md_WinnerClient plan;
     md_WinnerProvider := md_WinnerProvider plan; md_WinnerPath := md_WinnerPath plan;
     md_WinnerEngine := md_WinnerEngine plan; md_PlannedEngine := md_PlannedEngine plan;
     md_UpstreamDurMs := md_UpstreamDurMs plan; md_BamlCallCount := md_BamlCallCount plan;
     md_RoundRobin := md_RoundRobin plan; md_FallbackTargets := md_FallbackTargets plan;
     md_FallbackRoundRobin := md_FallbackRoundRobin plan |}.

(** The outcome frame. *)
Definition outcomeOf (plan : Metadata) (plannedEngine : string) (retryCount dur : Z)
    (client provider path engine : string) : Metadata :=
  {| md_Phase := PhaseOutcome; md_Attempt := 0; md_Path := md_Path plan;
     md_PathReason := md_PathReason plan; md_BuildRequestAPI := md_BuildRequestAPI plan;
     md_Client := md_Client plan; md_Provider := ""; md_Strategy := "";
     md_Chain := []; md_LegacyChildren := [];
     md_RetryMax := None; md_RetryPolicy := "";
     md_RetryCount := Some retryCount; md_WinnerClient := client;
     md_WinnerProvider := provider; md_WinnerPath := path;
     md_WinnerEngine := engine; md_PlannedEngine := allowedPlannedEngine plannedEngine;
     md_UpstreamDurMs := Some dur; md_BamlCallCount := md_BamlCallCount plan;
     md_RoundRobin := md_RoundRobin plan; md_FallbackTargets := ∅;
     md_FallbackRoundRobin := ∅ |}.
