(* ===== verification/CallOrchestrator.v ===== *)
(** * CallOrchestrator: [bamlutils/buildrequest/call_orchestrator.go]

    The non-streaming orchestrator: one request is driven through the native
    seam, the BAML build/send and the legacy callback, over a single client or a
    fallback chain, under the retry loop, and its outcome is delivered on the
    output channel.

    The environment is a world [W].  What the orchestrator does not own is a
    parameter: the context, the consumer of the channel, the clock and the
    transport ([Env]), and the closures the generated adapter supplies
    ([Functions] and the callbacks in [CallConfig]).  A callback that receives
    [sendHeartbeat] is a [Callback]: a computation on worlds that returns or
    calls the heartbeat and resumes.  A frame is modelled by the arguments the
    code passes to [newResult] and [NewMetadataResult]. *)

From S2P Require Import Prelude Registry Retry Metadata Orchestration.

Local Open Scope Z_scope.

(** [NativeCallDisposition] is a [uint8]; [NativeCallOther] stands for the
    values outside the declared constants. *)
Inductive NativeCallDisposition :=
  | NativeCallDeclined | NativeCallSucceeded | NativeCallFailed | NativeCallOther (d : Z).

(** The three extraction lanes of a response. *)
Record Response := mkResponse {
  StatusCode : Z;
  BorrowedBytes : option string;
  BodyBytes : option string;
  BodyString : string
}.

Record NativeCallOutcome (W V X : Type) := mkNativeOutcome {
  no_Disposition : NativeCallDisposition;
  no_DeclineStage : string;
  no_DeclineReason : string;
  no_OnResponseShadow : option (Z -> string -> W -> W);
  no_FinalResult : option V;
  no_Raw : string;
  no_Reasoning : string;
  no_WinnerEngine : string;
  no_Err : option (Err X)
}.
Arguments mkNativeOutcome {W V X}. Arguments no_Disposition {W V X}.
Arguments no_OnResponseShadow {W V X}. Arguments no_FinalResult {W V X}. Arguments no_Raw {W V X}.
Arguments no_Reasoning {W V X}. Arguments no_WinnerEngine {W V X}. Arguments no_Err {W V X}.

Definition DeclineNativeCall {W V X} (stage reason : string) : NativeCallOutcome W V X :=
  mkNativeOutcome NativeCallDeclined stage reason None None "" "" "" None.

Definition SucceedNativeCall {W V X} (finalResult : option V) (raw reasoning : string)
    : NativeCallOutcome W V X :=
  mkNativeOutcome NativeCallSucceeded "" "" None finalResult raw reasoning "" None.

Definition FailNativeCall {W V X} (err : option (Err X)) : NativeCallOutcome W V X :=
  mkNativeOutcome NativeCallFailed "" "" None None "" "" ""
    (Some (default errNativeCallFailedNil err)).

Definition FailNativeCallWithRaw {W V X} (err : option (Err X)) (raw : string)
    : NativeCallOutcome W V X :=
  let o := FailNativeCall (W:=W) (V:=V) err in
  mkNativeOutcome (no_Disposition o) "" "" None None raw "" "" (no_Err o).

Record NativeCallAttempt (W V Req X : Type) := mkNativeAttempt {
  na_Provider : string;
  na_ClientOverride : string;
  na_NeedsRaw : bool;
  na_IncludeReasoning : bool;
  na_OutputSchema : option V;
  na_BuildBAMLRequest : W -> W * (Req + Err X)
}.
Arguments mkNativeAttempt {W V Req X}.
Arguments na_Provider {W V Req X}. Arguments na_ClientOverride {W V Req X}.
Arguments na_NeedsRaw {W V Req X}.

(** ** Configuration, closures and environment *)

(** [CallConfig]; [cc_NewMetadataResult] tells whether that field is set. *)
Record CallConfig (W V Req X : Type) := mkCallConfig {
  cc_Provider : string;
  cc_RetryPolicy : option Policy;
  cc_NeedsRaw : bool;
  cc_IncludeReasoning : bool;
  cc_FallbackChain : list string;
  cc_ClientOverride : string;
  cc_ClientProviders : gmap string string;
  cc_LegacyChildren : gmap string bool;
  cc_FallbackTargets : gmap string string;
  cc_FallbackRoundRobin : gmap string RoundRobinInfo;
  cc_MetadataPlan : option Metadata;
  cc_NewMetadataResult : bool;
  cc_LegacyCallChild :
    option (string -> string -> bool -> W -> Callback W (option V * string * string + Err X));
  cc_NativeAttempt : option (NativeCallAttempt W V Req X -> W -> Callback W (NativeCallOutcome W V X));
  cc_NativeAttemptEnabled : bool;
  cc_NativeOutputSchema : option V;
  cc_PlannedEngine : string
}.
Arguments mkCallConfig {W V Req X}.
Arguments cc_Provider {W V Req X}. Arguments cc_RetryPolicy {W V Req X}.
Arguments cc_NeedsRaw {W V Req X}. Arguments cc_IncludeReasoning {W V Req X}.
Arguments cc_FallbackChain {W V Req X}. Arguments cc_ClientOverride {W V Req X}.
Arguments cc_ClientProviders {W V Req X}. Arguments cc_LegacyChildren {W V Req X}.
Arguments cc_FallbackTargets {W V Req X}. Arguments cc_MetadataPlan {W V Req X}.
Arguments cc_NewMetadataResult {W V Req X}. Arguments cc_LegacyCallChild {W V Req X}.
Arguments cc_NativeAttempt {W V Req X}. Arguments cc_NativeAttemptEnabled {W V Req X}.
Arguments cc_NativeOutputSchema {W V Req X}. Arguments cc_PlannedEngine {W V Req X}.

Definition Extractor (X : Type) : Type :=
  string -> string -> bool -> (string * string * string) + Err X.

(** The closures of the generated adapter and the HTTP client. *)
Record Functions (W V Req X : Type) := mkFunctions {
  buildRequest : string -> W -> W * (Req + Err X);
  executeBorrowed : Req -> W -> Callback W (Response + Err X);
  parseFinal : string -> W -> W * (option V + Err X);
  extractResponse : Extractor X;
  extractResponseBytes : option (Extractor X);
  extractResponseBorrowed : option (Extractor X)
}.
Arguments mkFunctions {W V Req X}.
Arguments buildRequest {W V Req X}. Arguments executeBorrowed {W V Req X}.
Arguments parseFinal {W V Req X}. Arguments extractResponse {W V Req X}.
Arguments extractResponseBytes {W V Req X}. Arguments extractResponseBorrowed {W V Req X}.

(** What a run does: frames delivered and upstream dispatches. *)
Inductive Act (V X : Type) :=
  | AFrame (f : Frame V X)
  | ANative (provider client : string) (d : NativeCallDisposition)
  | ASend (provider client : string)
  | ALegacy (child provider : string).
Arguments AFrame {V X}. Arguments ANative {V X}. Arguments ASend {V X}. Arguments ALegacy {V X}.

(** The variables [RunCallOrchestration]'s closures share, and what they did. *)
Record CallState (W V X : Type) := mkCallState {
  world : W;
  heartbeatSent : bool;
  plannedMetadataOnce : bool;
  finalAttempt : Z;
  log : list (Act V X)
}.
Arguments mkCallState {W V X}. Arguments world {W V X}. Arguments heartbeatSent {W V X}.
Arguments plannedMetadataOnce {W V X}. Arguments finalAttempt {W V X}. Arguments log {W V X}.

(** [callAttemptResult]. *)
Record callAttemptResult (V : Type) := mkAttemptResult {
  finalResult : option V;
  car_raw : string;
  car_reasoning : string;
  winnerClient : string;
  winnerProvider : string;
  winnerPath : string;
  winnerEngine : string
}.
Arguments mkAttemptResult {V}. Arguments finalResult {V}. Arguments car_raw {V}.
Arguments car_reasoning {V}. Arguments winnerClient {V}. Arguments winnerProvider {V}.
Arguments winnerPath {V}. Arguments winnerEngine {V}.

(** How a run ends: it returns an error or nil, or the type assertion on the
    retry loop's result panics. *)
Inductive CallReturn (X : Type) := Returned (err : option (Err X)) | Panicked.
Arguments Returned {X}. Arguments Panicked {X}.

Section Call.
Context {W V Req X : Type}.
Variable env : Env W V X.
Variable cfg : CallConfig W V Req X.
Variable fns : Functions W V Req X.

Local Abbreviation St := (CallState W V X).
Local Abbreviation E := (Err X).

Definition setWorld (w : W) (s : St) : St :=
  mkCallState w (heartbeatSent s) (plannedMetadataOnce s) (finalAttempt s) (log s).
Definition note (a : Act V X) (s : St) : St :=
  mkCallState (world s) (heartbeatSent s) (plannedMetadataOnce s) (finalAttempt s) (log s ++ [a]).
Definition setFinalAttempt (n : Z) (s : St) : St :=
  mkCallState (world s) (heartbeatSent s) (plannedMetadataOnce s) n (log s).

Definition initState (w : W) : St := mkCallState w false false 0 [].

(** Run a send on the world and record the frame when it was taken. *)
Definition deliver (send : Frame V X -> W -> W * bool) (f : Frame V X) (s : St) : St * bool :=
  let '(w, ok) := send f (world s) in
  let s := setWorld w s in
  (if ok then note (AFrame f) s else s, ok).

(** [emitPlannedMetadata]. *)
Definition emitPlannedMetadata (s : St) : St :=
  match cc_MetadataPlan cfg with
  | Some plan =>
      if negb (cc_NewMetadataResult cfg) then s
      else if plannedMetadataOnce s then s
      else
        let s := mkCallState (world s) (heartbeatSent s) true (finalAttempt s) (log s) in
        fst (deliver (offer env) (FMetadata (plannedOf plan)) s)
  | None => s
  end.

(** [config.LegacyChildren[child]] and [config.ClientProviders[child]]. *)
Definition isLegacy (child : string) : bool := default false (cc_LegacyChildren cfg !! child).
Definition childProvider (child : string) : string := map_str (cc_ClientProviders cfg) child.

(** The validation of the fallback chain's children. *)
Fixpoint validateChain (chain : list string) : option E :=
  match chain with
  | [] => None
  | child :: chain =>
      if isLegacy child then validateChain chain
      else
        let provider := childProvider child in
        if (provider =s "") || negb (IsCallProviderSupported (debugFilter env) provider)
        then Some (ErrUnsupportedChild provider child)
        else validateChain chain
  end.

(** The up-front validation. *)
Definition validate : option E :=
  match cc_FallbackChain cfg with
  | [] =>
      if (cc_Provider cfg =s "") || negb (IsCallProviderSupported (debugFilter env) (cc_Provider cfg))
      then Some (ErrUnsupportedProvider (cc_Provider cfg)) else None
  | chain =>
      if negb (bool_decide (cc_LegacyChildren cfg = ∅))
         && match cc_LegacyCallChild cfg with None => true | Some _ => false end
      then Some ErrLegacyCallChildNil
      else validateChain chain
  end.

(** A validated run has the callback its legacy children need: the nil branch
    of [tryChild] below is unreachable. *)
Lemma validate_legacy child :
  validate = None -> child ∈ cc_FallbackChain cfg -> isLegacy child = true ->
  is_Some (cc_LegacyCallChild cfg).
Proof.
  unfold validate, isLegacy. intros Hv Hin Hl. destruct (cc_FallbackChain cfg); [set_solver|].
  destruct (cc_LegacyCallChild cfg); [eauto|].
  rewrite andb_true_r in Hv. case_bool_decide as E; [|done]. by rewrite E, lookup_empty in Hl.
Qed.

(** [sendHeartbeat]: a compare-and-swap guards the frame, which is dropped
    when the channel is full. *)
Definition sendHeartbeat (s : St) : St :=
  emitPlannedMetadata
    (if heartbeatSent s then s
     else
       let s := mkCallState (world s) true (plannedMetadataOnce s) (finalAttempt s) (log s) in
       fst (deliver (tryOffer env) FHeartbeat s)).

(** Run a callback, serving its heartbeats. *)
Fixpoint runCallback {A} (c : Callback W A) (s : St) : St * A :=
  match c with
  | Done w a => (setWorld w s, a)
  | Beat w k =>
      let s := sendHeartbeat (setWorld w s) in
      runCallback (k (world s)) s
  end.

(** [trySend]. *)
Definition trySend (f : Frame V X) (s : St) : St * bool :=
  match ctxErr env (world s) with
  | Some _ => (s, false)
  | None => deliver (offer env) f s
  end.

(** [responseBodyClone]. *)
Definition responseBodyClone (resp : Response) : string :=
  match BorrowedBytes resp with
  | Some bb => bb
  | None => match BodyBytes resp with Some rb => rb | None => BodyString resp end
  end.

(** [runResponseShadow]: the shadow acts on the world only. *)
Definition runResponseShadow (shadow : option (Z -> string -> W -> W)) (resp : Response) (w : W) : W :=
  match shadow with
  | Some fn => fn (StatusCode resp) (responseBodyClone resp) w
  | None => w
  end.

(** The choice between the three extractors. *)
Definition extract (provider : string) (resp : Response) : (string * string * string) + E :=
  match BorrowedBytes resp, extractResponseBorrowed fns with
  | Some bb, Some f => f provider bb (cc_IncludeReasoning cfg)
  | _, _ =>
      match BodyBytes resp, extractResponseBytes fns with
      | Some rb, Some f => f provider rb (cc_IncludeReasoning cfg)
      | _, _ => extractResponse fns provider (BodyString resp) (cc_IncludeReasoning cfg)
      end
  end.

(** Raw and reasoning leave an attempt only when the caller asked for them. *)
Definition whenRaw (text : string) : string := if cc_NeedsRaw cfg then text else "".

(** The BAML half of [tryOneChild], after the native seam. *)
Definition tryBAML (provider clientOverride : string) (shadow : option (Z -> string -> W -> W))
    (s : St) : St * (callAttemptResult V + E) :=
  let '(w, req) := buildRequest fns clientOverride (world s) in
  let s := setWorld w s in
  match req with
  | inr err => (s, inr (ErrBuild err))
  | inl req =>
      let '(s, resp) := runCallback (executeBorrowed fns req (world s))
                          (note (ASend provider clientOverride) s) in
      match resp with
      | inr httpErr => (s, inr httpErr)
      | inl resp =>
          let s := setWorld (runResponseShadow shadow resp (world s)) s in
          match extract provider resp with
          | inr extractErr => (s, inr (newRawError (ErrExtract extractErr) (BodyString resp)))
          | inl (parseable, raw, reasoning) =>
              let '(w, final) := parseFinal fns parseable (world s) in
              let s := setWorld w s in
              match final with
              | inr parseErr => (s, inr (newRawError (wrapOutputParse (ErrParseFinal parseErr)) raw))
              | inl final =>
                  (s, inl (mkAttemptResult final (whenRaw raw) (whenRaw reasoning) ""
                             provider "buildrequest" ""))
              end
          end
      end
  end.

(** The outcome of the native callback: a result of the attempt, or the
    decision to go on with BAML. *)
Definition nativeResult (provider : string) (o : NativeCallOutcome W V X)
    : (callAttemptResult V + E) + option (Z -> string -> W -> W) :=
  match no_Disposition o with
  | NativeCallSucceeded =>
      inl (inl (mkAttemptResult (no_FinalResult o) (whenRaw (no_Raw o)) (whenRaw (no_Reasoning o)) ""
                  provider "buildrequest" (allowedWinnerEngine (no_WinnerEngine o))))
  | NativeCallFailed => inl (inr (newRawError (default errNativeCallFailedNil (no_Err o)) (no_Raw o)))
  | NativeCallDeclined => inr (no_OnResponseShadow o)
  | NativeCallOther d => inl (inr (ErrUnknownDisposition d))
  end.

(** The outcome constructors reach the branch they are named for: a failure
    built without an error still fails the attempt, with its raw text. *)
Lemma nativeResult_constructors p err raw reasoning v :
  nativeResult p (FailNativeCallWithRaw err raw)
    = inl (inr (newRawError (default errNativeCallFailedNil err) raw))
  /\ nativeResult p (FailNativeCall err) = nativeResult p (FailNativeCallWithRaw err "")
  /\ nativeResult p (DeclineNativeCall "stage" "reason") = inr None
  /\ nativeResult p (SucceedNativeCall v raw reasoning)
    = inl (inl (mkAttemptResult v (whenRaw raw) (whenRaw reasoning) "" p "buildrequest" "native")).
Proof. done. Qed.

(** [tryOneChild]. *)
Definition tryOneChild (provider clientOverride : string) (s : St) : St * (callAttemptResult V + E) :=
  match cc_NativeAttempt cfg with
  | Some native =>
      if cc_NativeAttemptEnabled cfg then
        let attempt := mkNativeAttempt provider clientOverride (cc_NeedsRaw cfg)
          (cc_IncludeReasoning cfg) (cc_NativeOutputSchema cfg) (buildRequest fns clientOverride) in
        let '(s, o) := runCallback (native attempt (world s)) s in
        let s := note (ANative provider clientOverride (no_Disposition o)) s in
        match nativeResult provider o with
        | inl r => (s, r)
        | inr shadow => tryBAML provider clientOverride shadow s
        end
      else tryBAML provider clientOverride None s
  | None => tryBAML provider clientOverride None s
  end.

Definition setWinner (client : string) (r : callAttemptResult V) : callAttemptResult V :=
  mkAttemptResult (finalResult r) (car_raw r) (car_reasoning r) client (winnerProvider r)
    (winnerPath r) (winnerEngine r).

(** The client a child is dispatched to. *)
Definition target (child : string) : string :=
  match cc_FallbackTargets cfg !! child with
  | Some t => if t =s "" then child else t
  | None => child
  end.

(** One child of the fallback chain. *)
Definition tryChild (child : string) (s : St) : St * (callAttemptResult V + E) :=
  let provider := childProvider child in
  if isLegacy child then
    match cc_LegacyCallChild cfg with
    | None => (s, inr ErrNilFunction)
    | Some legacy =>
        let '(s, r) := runCallback (legacy child provider (cc_NeedsRaw cfg) (world s))
                         (note (ALegacy child provider) s) in
        match r with
        | inl (final, raw, reasoning) =>
            (s, inl (mkAttemptResult final raw reasoning child provider "legacy" ""))
        | inr err => (s, inr err)
        end
    end
  else
    let '(s, r) := tryOneChild provider (target child) s in
    (s, match r with inl r => inl (setWinner (target child) r) | inr err => inr err end).

(** The walk over the chain.  The result is Go's pair: with an empty chain both
    halves are nil. *)
Fixpoint walkChain (attempt : Z) (chain : list string) (lastErr : option E) (s : St)
    : St * (option (callAttemptResult V) * option E) :=
  match chain with
  | [] => (s, (None, lastErr))
  | child :: chain =>
      match ctxErr env (world s) with
      | Some e => (s, (None, Some e))
      | None =>
          let '(s, r) := tryChild child s in
          match r with
          | inl r => (setFinalAttempt attempt s, (Some r, None))
          | inr err => walkChain attempt chain (Some err) s
          end
      end
  end.

(** [attemptFull]. *)
Definition attemptFull (attempt : Z) (s : St) : St * (option (callAttemptResult V) * option E) :=
  match cc_FallbackChain cfg with
  | [] =>
      let '(s, r) := tryOneChild (cc_Provider cfg) (cc_ClientOverride cfg) s in
      match r with
      | inl r =>
          (setFinalAttempt attempt s,
           (Some (match cc_MetadataPlan cfg with
                  | Some plan => setWinner (md_Client plan) r
                  | None => r
                  end), None))
      | inr err => (s, (None, Some err))
      end
  | chain => walkChain attempt chain None s
  end.

(** The deliveries after a successful run. *)
Definition deliverFinal (startTime : Z) (r : callAttemptResult V) (s : St) : St :=
  let '(s, go_on) :=
    match cc_MetadataPlan cfg with
    | Some plan =>
        if cc_NewMetadataResult cfg then
          let dur := Z.quot (now env (world s) - startTime) Millisecond in
          trySend (FMetadata (outcomeOf plan (cc_PlannedEngine cfg) (finalAttempt s) dur
                         (winnerClient r) (winnerProvider r) (winnerPath r) (winnerEngine r))) s
        else (s, true)
    | None => (s, true)
    end in
  if go_on then
    fst (trySend (FFinal (finalResult r) (whenRaw (car_raw r)) (whenRaw (car_reasoning r))) s)
  else s.

(** The retry loop over [attemptFull], without a retry callback. *)
Definition runAttempts (s : St)
    : St * list (Action (option (callAttemptResult V)) E) * (option (callAttemptResult V) * option E) :=
  Execute None (fun s : St => ctxErr env (world s)) (isTerminal (extTerminal env)) attemptFull None
    (fun d (s : St) => let '(w, e) := sleep env d (world s) in (setWorld w s, e))
    (cc_RetryPolicy cfg) s.

(** [RunCallOrchestration]. *)
Definition RunCallOrchestration (w : W) : St * CallReturn X :=
  let s := emitPlannedMetadata (initState w) in
  match validate with
  | Some err => (s, Returned (Some err))
  | None =>
      let startTime := now env (world s) in
      let '(s, _, (result, err)) := runAttempts s in
      match err, result with
      | Some err, _ => (fst (trySend (FError (rawFromError err) err) s), Returned None)
      | None, None => (s, Panicked)
      | None, Some r => (deliverFinal startTime r s, Returned None)
      end
  end.

(** ** Reading the log *)

Definition frames (l : list (Act V X)) : list (Frame V X) :=
  omap (fun a => match a with AFrame f => Some f | _ => None end) l.
Definition isDispatch (a : Act V X) : bool := match a with AFrame _ => false | _ => true end.
Definition dispatches (l : list (Act V X)) : list (Act V X) :=
  filter (fun a => Is_true (isDispatch a)) l.

Lemma frames_app l k : frames (l ++ k) = frames l ++ frames k.
Proof. apply omap_app. Qed.
Lemma dispatches_app l k : dispatches (l ++ k) = dispatches l ++ dispatches k.
Proof. apply filter_app. Qed.

Lemma deliver_log send f s :
  let '(s', ok) := deliver send f s in
  log s' = log s ++ (if ok then [AFrame f] else [])
  /\ heartbeatSent s' = heartbeatSent s /\ plannedMetadataOnce s' = plannedMetadataOnce s
  /\ finalAttempt s' = finalAttempt s.
Proof.
  unfold deliver. destruct (send f (world s)) as [w []]; simpl; [done|].
  by rewrite app_nil_r.
Qed.

(** ** Invariants of the attempts *)

(** The dispatches the configuration allows: the single client, or a child of
    the chain by the path its legacy mark selects. *)
Definition allowed (a : Act V X) : Prop :=
  match a with
  | AFrame _ => False
  | ANative p c _ | ASend p c =>
      match cc_FallbackChain cfg with
      | [] => p = cc_Provider cfg /\ c = cc_ClientOverride cfg
      | chain => exists child, child ∈ chain /\ isLegacy child = false
                   /\ p = childProvider child /\ c = target child
      end
  | ALegacy child p => child ∈ cc_FallbackChain cfg /\ isLegacy child = true /\ p = childProvider child
  end.

Section Attempts.
Variable I : St -> Prop.
Hypothesis I_world : forall w s, I s -> I (setWorld w s).
Hypothesis I_attempt : forall n s, I s -> I (setFinalAttempt n s).
Hypothesis I_heartbeat : forall s, I s -> I (sendHeartbeat s).
Hypothesis I_note : forall a s, allowed a -> I s -> I (note a s).

Lemma runCallback_inv {A} (c : Callback W A) : forall s, I s -> I (fst (runCallback c s)).
Proof.
  induction c as [w a|w k IH]; intros s Hs; simpl; [by apply I_world|].
  apply IH, I_heartbeat, I_world, Hs.
Qed.

Lemma tryBAML_inv p c shadow s :
  allowed (ASend p c) -> I s -> I (fst (tryBAML p c shadow s)).
Proof.
  intros Ha Hs. unfold tryBAML. destruct (buildRequest _ _ _) as [w [req|err]]; [|by apply I_world].
  match goal with |- context [runCallback ?k ?u] =>
    assert (I (fst (runCallback k u))) as H1
      by (apply runCallback_inv, I_note, I_world; done);
    destruct (runCallback k u) as [s1 [resp|e]] end; [|done].
  destruct (extract p resp) as [[[pa raw] rs]|e]; [|by apply I_world].
  destruct (parseFinal _ _ _) as [w' [f|e]]; simpl; by repeat apply I_world.
Qed.

Lemma tryOneChild_inv p c s :
  allowed (ASend p c) -> I s -> I (fst (tryOneChild p c s)).
Proof.
  intros Ha Hs. unfold tryOneChild.
  destruct (cc_NativeAttempt cfg) as [native|]; [|by apply tryBAML_inv].
  destruct (cc_NativeAttemptEnabled cfg); [|by apply tryBAML_inv]. cbv zeta.
  match goal with |- context [runCallback ?k ?u] =>
    pose proof (runCallback_inv k u Hs) as H1; destruct (runCallback k u) as [s1 o] end.
  assert (I (note (ANative p c (no_Disposition o)) s1)) as H2 by (apply I_note; done).
  destruct (nativeResult p o) as [r|shadow]; [done|by apply tryBAML_inv].
Qed.

Lemma tryChild_inv child s : child ∈ cc_FallbackChain cfg -> I s -> I (fst (tryChild child s)).
Proof.
  intros Hin Hs. unfold tryChild. destruct (isLegacy child) eqn:El.
  - destruct (cc_LegacyCallChild cfg) as [f|]; [|done].
    match goal with |- context [runCallback ?k ?u] =>
      assert (I (fst (runCallback k u))) as H1 by (apply runCallback_inv, I_note; done);
      destruct (runCallback k u) as [s1 [[[? ?] ?]|e]] end; done.
  - assert (allowed (ASend (childProvider child) (target child))) as Ha.
    { simpl. destruct (cc_FallbackChain cfg) eqn:E; [set_solver|eauto]. }
    pose proof (tryOneChild_inv _ _ s Ha Hs) as H1. by destruct (tryOneChild _ _ s).
Qed.

Lemma walkChain_inv attempt chain : forall lastErr s,
  (forall c, c ∈ chain -> c ∈ cc_FallbackChain cfg) ->
  I s -> I (fst (walkChain attempt chain lastErr s)).
Proof.
  induction chain as [|child chain IH]; intros lastErr s Hsub Hs; simpl; [done|].
  destruct (ctxErr env (world s)); [done|].
  pose proof (tryChild_inv child s ltac:(set_solver) Hs) as H1.
  destruct (tryChild child s) as [s1 [r|e]]; simpl; [by apply I_attempt|].
  apply IH; [set_solver|done].
Qed.

Lemma attemptFull_inv attempt s : I s -> I (fst (attemptFull attempt s)).
Proof.
  intros Hs. unfold attemptFull.
  destruct (cc_FallbackChain cfg) as [|c0 chain] eqn:E.
  - assert (allowed (ASend (cc_Provider cfg) (cc_ClientOverride cfg))) as Ha by (simpl; by rewrite E).
    pose proof (tryOneChild_inv _ _ s Ha Hs) as H1.
    destruct (tryOneChild _ _ s) as [s1 [r|e]]; [by apply I_attempt|done].
  - apply walkChain_inv; [|done]. by rewrite E.
Qed.

Lemma runAttempts_inv s : I s -> I (fst (fst (runAttempts s))).
Proof.
  intros Hs. apply (Execute_inv _ _ _ _ _ _ I); [apply attemptFull_inv|done| |done].
  intros d u Hu. destruct (sleep env d (world u)) as [w e]. by apply I_world.
Qed.
End Attempts.

(** ** The frames of a run *)

Definition metadataFrames (f : Metadata -> Metadata) : list (Frame V X) :=
  match cc_MetadataPlan cfg with
  | Some plan => if cc_NewMetadataResult cfg then [FMetadata (f plan)] else []
  | None => []
  end.

(** The outcome metadata of a winner. *)
Definition callOutcome (retryCount dur : Z) (r : callAttemptResult V) (plan : Metadata) : Metadata :=
  outcomeOf plan (cc_PlannedEngine cfg) retryCount dur
    (winnerClient r) (winnerProvider r) (winnerPath r) (winnerEngine r).

Definition plannedFrames : list (Frame V X) := metadataFrames plannedOf.
Definition closingFrames (retryCount dur : Z) (r : callAttemptResult V) : list (Frame V X) :=
  metadataFrames (callOutcome retryCount dur r)
  ++ [FFinal (finalResult r) (whenRaw (car_raw r)) (whenRaw (car_reasoning r))].

(** Planned metadata has had its chance. *)
Definition plannedDone (s : St) : Prop := plannedFrames = [] \/ plannedMetadataOnce s = true.

Lemma emitPlannedMetadata_done s : plannedDone s -> emitPlannedMetadata s = s.
Proof.
  unfold plannedDone, plannedFrames, metadataFrames, emitPlannedMetadata.
  destruct (cc_MetadataPlan cfg), (cc_NewMetadataResult cfg); simpl; try done.
  intros [?| ->]; done.
Qed.

Lemma emitPlannedMetadata_init w :
  let s := emitPlannedMetadata (initState w) in
  plannedDone s /\ heartbeatSent s = false
  /\ (log s = [] \/ frames (log s) = plannedFrames)
  /\ ((forall f u, snd (offer env f u) = true) -> frames (log s) = plannedFrames)
  /\ dispatches (log s) = [].
Proof.
  unfold plannedDone, plannedFrames, metadataFrames, emitPlannedMetadata.
  destruct (cc_MetadataPlan cfg) as [plan|]; [|by auto].
  destruct (cc_NewMetadataResult cfg); simpl; [|by auto].
  unfold deliver. simpl. 
  assert ((forall f u, snd (offer env f u) = true) ->
          snd (offer env (FMetadata (plannedOf plan)) w) = true) as Ho by auto.
  destruct (offer env _ w) as [w' []]; simpl in *; split_and!; auto.
  intros H. by specialize (Ho H).
Qed.

(** While attempts run only a heartbeat, at most one, follows [pl]. *)
Definition frameInv (pl : list (Frame V X)) (s : St) : Prop :=
  plannedDone s /\ (frames (log s) = pl
                    \/ heartbeatSent s = true /\ frames (log s) = pl ++ [FHeartbeat]).

Lemma sendHeartbeat_frames pl s : frameInv pl s -> frameInv pl (sendHeartbeat s).
Proof.
  intros [Hp Hf]. unfold sendHeartbeat. destruct (heartbeatSent s) eqn:Eh.
  { rewrite emitPlannedMetadata_done by done. split; [done|]. rewrite Eh. done. }
  destruct Hf as [Hf|[? _]]; [|done].
  pose proof (deliver_log (tryOffer env) FHeartbeat
    (mkCallState (world s) true (plannedMetadataOnce s) (finalAttempt s) (log s))) as Hd.
  destruct (deliver _ _ _) as [s1 ok]. destruct Hd as (Hl&Hh&Ho&_). simpl in *.
  assert (plannedDone s1) as H1 by (destruct Hp; [by left|right; congruence]).
  rewrite emitPlannedMetadata_done by done. split; [done|]. rewrite Hl, frames_app, Hf.
  destruct ok; simpl; [by right|left; apply app_nil_r].
Qed.

Lemma runAttempts_frames pl s : frameInv pl s -> frameInv pl (fst (fst (runAttempts s))).
Proof.
  apply runAttempts_inv; [done|done|apply sendHeartbeat_frames|].
  intros a u Ha [Hp Hf]. split; [done|]. unfold note. simpl. rewrite frames_app.
  destruct a; [done|..]; simpl; by rewrite app_nil_r.
Qed.

Lemma trySend_frames f s :
  let '(s', ok) := trySend f s in
  frames (log s') = frames (log s) ++ (if ok then [f] else []) /\ finalAttempt s' = finalAttempt s.
Proof.
  unfold trySend. destruct (ctxErr env (world s)); [by rewrite app_nil_r|].
  pose proof (deliver_log (offer env) f s) as H. destruct (deliver _ _ _) as [s' ok].
  destruct H as (->&_&_&?). rewrite frames_app. by destruct ok.
Qed.

Lemma trySend_frames_live f s :
  (forall u, ctxErr env u = None) -> (forall g u, snd (offer env g u) = true) ->
  snd (trySend f s) = true.
Proof.
  intros Hc Ho. unfold trySend, deliver. rewrite Hc. specialize (Ho f (world s)).
  by destruct (offer env f (world s)).
Qed.

Lemma deliverFinal_frames startTime r s :
  exists dur tl, frames (log (deliverFinal startTime r s)) = frames (log s) ++ tl
    /\ tl `prefix_of` closingFrames (finalAttempt s) dur r
    /\ ((forall u, ctxErr env u = None) -> (forall g u, snd (offer env g u) = true) ->
        tl = closingFrames (finalAttempt s) dur r).
Proof.
  unfold deliverFinal, closingFrames, metadataFrames.
  set (dur := Z.quot _ _). exists dur. set (final := FFinal _ _ _).
  assert (forall u, exists tl, frames (log (fst (trySend final u))) = frames (log u) ++ tl
    /\ tl `prefix_of` [final]
    /\ ((forall u, ctxErr env u = None) -> (forall g u, snd (offer env g u) = true) -> tl = [final]))
    as Hfin.
  { intros u. pose proof (trySend_frames final u) as H. pose proof (trySend_frames_live final u) as Hl.
    destruct (trySend final u) as [u' ok]. destruct H as [H _]. eexists. split; [exact H|].
    split; [destruct ok; [done|apply prefix_nil]|]. simpl in Hl. intros Hc Ho. by rewrite (Hl Hc Ho). }
  destruct (cc_MetadataPlan cfg) as [plan|]; [|apply Hfin].
  destruct (cc_NewMetadataResult cfg); [|apply Hfin].
  set (out := FMetadata _). pose proof (trySend_frames out s) as H.
  pose proof (trySend_frames_live out s) as Hl. destruct (trySend out s) as [s1 ok].
  destruct H as [H _]. destruct ok.
  - destruct (Hfin s1) as (tl&Ht&Hp&He). exists (out :: tl). rewrite Ht, H, <- app_assoc. split; [done|].
    split; [by apply prefix_cons|]. intros. simpl. by rewrite He.
  - exists []. rewrite H. split; [done|]. split; [apply prefix_nil|].
    intros Hc Ho. by specialize (Hl Hc Ho).
Qed.

(** C5. The protocol on the output channel.  Whatever the callbacks, the
    transport, the consumer and the context do, the frames of a run are the
    planned metadata (at most once, and before anything else), then at most one
    heartbeat, then at most one closing sequence: an error frame carrying the
    error's raw text, or the outcome metadata followed by the final frame.  A
    final frame never precedes its outcome, nothing follows a terminal frame,
    and the closing sequence is cut short only from its end (cancellation). *)
Theorem call_frames w :
  exists pl hb tl, frames (log (fst (RunCallOrchestration w))) = pl ++ hb ++ tl
    /\ (pl = [] \/ pl = plannedFrames) /\ (hb = [] \/ hb = [FHeartbeat])
    /\ ((exists err, tl `prefix_of` [FError (rawFromError err) err])
        \/ exists retryCount dur r, tl `prefix_of` closingFrames retryCount dur r).
Proof.
  unfold RunCallOrchestration.
  destruct (emitPlannedMetadata_init w) as (Hd&Hh&Hf&_&_).
  set (s0 := emitPlannedMetadata (initState w)) in *. set (pl := frames (log s0)) in *.
  exists pl. assert (pl = [] \/ pl = plannedFrames) as Hpl.
  { destruct Hf as [E|E]; [left; unfold pl; by rewrite E|by right]. }
  destruct validate as [err|].
  { exists [], []. simpl. rewrite app_nil_r. split_and!; auto. left. exists err. apply prefix_nil. }
  pose proof (runAttempts_frames pl s0) as Hr.
  destruct (runAttempts s0) as [[s1 acts] [result err]]. destruct Hr as [_ Hr]; [split; [done|by left]|].
  simpl in Hr. assert (exists hb, frames (log s1) = pl ++ hb /\ (hb = [] \/ hb = [FHeartbeat]))
    as (hb&E1&Hhb).
  { destruct Hr as [->|[_ ->]]; [exists []; rewrite app_nil_r|exists [FHeartbeat]]; auto. }
  exists hb. destruct err as [err|].
  - pose proof (trySend_frames (FError (rawFromError err) err) s1) as Ht.
    destruct (trySend _ s1) as [s2 ok]. destruct Ht as [Ht _]. simpl. rewrite Ht, E1, <- app_assoc.
    eexists. split; [done|]. split_and!; try done. left. exists err. destruct ok; [done|apply prefix_nil].
  - destruct result as [r|]; simpl.
    + destruct (deliverFinal_frames (now env (world s0)) r s1) as (dur&tl&->&Hp&_).
      rewrite E1, <- app_assoc. exists tl. split_and!; eauto 6.
    + exists []. rewrite app_nil_r, E1. split_and!; auto. right.
      exists 0, 0, (mkAttemptResult None "" "" "" "" "" ""). apply prefix_nil.
Qed.

(** ** What a successful attempt returns *)

Lemma walkChain_pair attempt chain : forall lastErr s s',
  (chain = [] -> is_Some lastErr) -> walkChain attempt chain lastErr s <> (s', (None, None)).
Proof.
  induction chain as [|child chain IH]; intros lastErr s s' Hl H; simpl in H.
  { destruct (Hl eq_refl). by simplify_eq. }
  destruct (ctxErr env (world s)); [done|]. destruct (tryChild child s) as [s1 [r|e]]; [done|].
  eapply IH; [|exact H]. eauto.
Qed.

(** An attempt never returns a nil result with a nil error. *)
Lemma attemptFull_pair attempt s s' : attemptFull attempt s <> (s', (None, None)).
Proof.
  unfold attemptFull. destruct (cc_FallbackChain cfg) as [|c chain].
  - by destruct (tryOneChild _ _ s) as [s1 [r|e]].
  - by apply walkChain_pair.
Qed.

(** ** A run that is not cancelled *)

Section Live.
Hypothesis live : forall w, ctxErr env w = None.
Hypothesis receiving : forall f w, snd (offer env f w) = true.

(** Delivery.  While the context is live and the consumer receives, a run
    with a valid configuration (and a retry count below the top of the [int]
    range) returns nil after delivering its planned metadata and exactly one
    complete closing sequence: the error frame of the last failure, or the
    outcome metadata and the final frame. *)
Theorem call_delivers w :
  validate = None -> from_option MaxRetries 0 (cc_RetryPolicy cfg) < MaxInt64 ->
  snd (RunCallOrchestration w) = Returned None
  /\ exists hb tl, frames (log (fst (RunCallOrchestration w))) = plannedFrames ++ hb ++ tl
       /\ (hb = [] \/ hb = [FHeartbeat])
       /\ ((exists err, tl = [FError (rawFromError err) err])
           \/ exists retryCount dur r, tl = closingFrames retryCount dur r).
Proof.
  intros Hv Hm. unfold RunCallOrchestration. rewrite Hv.
  destruct (emitPlannedMetadata_init w) as (Hd&Hh&_&Hf&_). specialize (Hf receiving).
  set (s0 := emitPlannedMetadata (initState w)) in *.
  pose proof (runAttempts_frames plannedFrames s0) as Hr.
  destruct (runAttempts s0) as [[s1 acts] [result err]] eqn:Ex.
  destruct Hr as [_ Hr]; [split; [done|by left]|]. simpl in Hr.
  assert (exists hb, frames (log s1) = plannedFrames ++ hb /\ (hb = [] \/ hb = [FHeartbeat]))
    as (hb&E1&Hhb).
  { destruct Hr as [->|[_ ->]]; [exists []; rewrite app_nil_r|exists [FHeartbeat]]; auto. }
  destruct err as [err|].
  - pose proof (trySend_frames (FError (rawFromError err) err) s1) as Ht.
    pose proof (trySend_frames_live (FError (rawFromError err) err) s1 live receiving) as Hl.
    destruct (trySend _ s1) as [s2 ok]. destruct Ht as [Ht _]. simpl in *. subst ok.
    split; [done|]. exists hb, [FError (rawFromError err) err].
    rewrite Ht, E1, <- app_assoc. eauto.
  - destruct result as [r|].
    + split; [done|]. simpl.
      destruct (deliverFinal_frames (now env (world s0)) r s1) as (dur&tl&->&_&Ht).
      exists hb, tl. rewrite E1, <- app_assoc. split_and!; [done|done|]. right.
      eexists _, _, _. exact (Ht live receiving).
    + exfalso. apply Execute_success in Ex as (i&_&_&u&_&Hu); [|done].
      revert Hu. apply attemptFull_pair.
Qed.
End Live.

(** ** Where the dispatches go *)

Definition dispatchInv (s : St) : Prop := Forall allowed (dispatches (log s)).

Lemma sendHeartbeat_dispatches s : dispatches (log (sendHeartbeat s)) = dispatches (log s).
Proof.
  assert (forall send f u, dispatches (log (fst (deliver send f u))) = dispatches (log u)) as Hd.
  { intros send f u. pose proof (deliver_log send f u) as H.
    destruct (deliver send f u) as [u' ok]. destruct H as [Hl _]. simpl.
    rewrite Hl, dispatches_app. destruct ok; simpl; by rewrite app_nil_r. }
  assert (forall u, dispatches (log (emitPlannedMetadata u)) = dispatches (log u)) as He.
  { intros u. unfold emitPlannedMetadata. destruct (cc_MetadataPlan cfg); [|done].
    destruct (negb _), (plannedMetadataOnce u); try done. by rewrite Hd. }
  unfold sendHeartbeat. rewrite He. destruct (heartbeatSent s); [done|]. by rewrite Hd.
Qed.

Lemma trySend_dispatches f s : dispatches (log (fst (trySend f s))) = dispatches (log s).
Proof.
  unfold trySend. destruct (ctxErr env (world s)); [done|].
  pose proof (deliver_log (offer env) f s) as H. destruct (deliver _ f s) as [u' ok].
  destruct H as [Hl _]. simpl. rewrite Hl, dispatches_app. destruct ok; simpl; by rewrite app_nil_r.
Qed.

Lemma deliverFinal_dispatches t r s : dispatches (log (deliverFinal t r s)) = dispatches (log s).
Proof.
  unfold deliverFinal. destruct (cc_MetadataPlan cfg); [|apply trySend_dispatches].
  destruct (cc_NewMetadataResult cfg); [|apply trySend_dispatches].
  match goal with |- context [trySend (FMetadata ?m) s] =>
    pose proof (trySend_dispatches (FMetadata m) s) as H; destruct (trySend (FMetadata m) s) as [s1 []] end;
    simpl in *; [by rewrite trySend_dispatches|done].
Qed.

(** Dispatch discipline.  Every upstream dispatch of a run is one the
    configuration allows: without a chain, only the configured provider and
    client; with a chain, the native seam and the BAML send see only children
    that are not marked legacy, under the child's own provider and its fallback
    target, and the legacy callback sees only children marked legacy, under the
    child's chain name. *)
Theorem call_dispatches w : Forall allowed (dispatches (log (fst (RunCallOrchestration w)))).
Proof.
  unfold RunCallOrchestration. destruct (emitPlannedMetadata_init w) as (_&_&_&_&H0).
  set (s0 := emitPlannedMetadata (initState w)) in *.
  assert (dispatchInv s0) as Hi by (unfold dispatchInv; by rewrite H0).
  destruct validate; [done|].
  assert (dispatchInv (fst (fst (runAttempts s0)))) as H1.
  { apply (runAttempts_inv dispatchInv); try done.
    - intros s Hs. unfold dispatchInv. by rewrite sendHeartbeat_dispatches.
    - intros a s Ha Hs. unfold dispatchInv, note. simpl. rewrite dispatches_app. apply Forall_app_2; [done|].
      destruct a; [done|..]; by constructor. }
  destruct (runAttempts s0) as [[s1 acts] [[r|] [err|]]]; simpl in *; unfold dispatchInv in H1;
    by rewrite ?trySend_dispatches, ?deliverFinal_dispatches.
Qed.

Lemma runCallback_dispatches {A} (c : Callback W A) s :
  dispatches (log (fst (runCallback c s))) = dispatches (log s).
Proof.
  apply (runCallback_inv (fun u => dispatches (log u) = dispatches (log s))); try done.
  intros u Hu. by rewrite sendHeartbeat_dispatches.
Qed.

Lemma tryBAML_dispatches p c shadow s :
  dispatches (log (fst (tryBAML p c shadow s))) = dispatches (log s)
  \/ dispatches (log (fst (tryBAML p c shadow s))) = dispatches (log s) ++ [ASend p c].
Proof.
  unfold tryBAML. destruct (buildRequest _ _ _) as [w [req|err]]; [right|by left].
  match goal with |- context [runCallback ?k ?u] =>
    pose proof (runCallback_dispatches k u) as H1; destruct (runCallback k u) as [s1 [resp|e]] end;
    simpl in H1; rewrite dispatches_app in H1; [|done].
  destruct (extract p resp) as [[[pa raw] rs]|e]; [|done]. by destruct (parseFinal _ _ _) as [w' [f|e]].
Qed.

(** Single ownership of a child attempt.  One child attempt makes at most
    one upstream dispatch: BAML's send happens only when the native seam is off
    or has declined; a native attempt that succeeded, failed or returned an
    unknown disposition is never followed by a BAML send for the same child,
    and it decides the attempt: success exactly when it succeeded. *)
Theorem tryOneChild_owner p c s :
  let '(s', r) := tryOneChild p c s in
  exists d, dispatches (log s') = dispatches (log s) ++ d
    /\ (d = [] \/ d = [ASend p c] \/ d = [ANative p c NativeCallDeclined]
        \/ d = [ANative p c NativeCallDeclined; ASend p c]
        \/ exists o, o <> NativeCallDeclined /\ d = [ANative p c o]
             /\ (o = NativeCallSucceeded <-> exists v, r = inl v)).
Proof.
  unfold tryOneChild.
  assert (forall shadow u pre, dispatches (log u) = dispatches (log s) ++ pre ->
    let '(s', r) := tryBAML p c shadow u in
    exists d, dispatches (log s') = dispatches (log s) ++ pre ++ d /\ (d = [] \/ d = [ASend p c])) as Hb.
  { intros shadow u pre Hu. pose proof (tryBAML_dispatches p c shadow u) as Hd.
    destruct (tryBAML p c shadow u) as [s' r]. simpl in Hd. rewrite Hu in Hd.
    destruct Hd as [->| ->]; [exists []; rewrite app_nil_r|exists [ASend p c]; rewrite app_assoc]; auto. }
  assert (forall shadow, let '(s', r) := tryBAML p c shadow s in
    exists d, dispatches (log s') = dispatches (log s) ++ d /\ (d = [] \/ d = [ASend p c])) as Hb0.
  { intros shadow. specialize (Hb shadow s []). rewrite app_nil_r in Hb. by apply Hb. }
  destruct (cc_NativeAttempt cfg) as [native|].
  2:{ specialize (Hb0 None). destruct (tryBAML p c None s) as [s' r].
      destruct Hb0 as (d&?&?). exists d. tauto. }
  destruct (cc_NativeAttemptEnabled cfg).
  2:{ specialize (Hb0 None). destruct (tryBAML p c None s) as [s' r].
      destruct Hb0 as (d&?&?). exists d. tauto. }
  cbv zeta. match goal with |- context [runCallback ?k ?u] =>
    pose proof (runCallback_dispatches k u) as H1; destruct (runCallback k u) as [s1 o] end.
  simpl in H1. set (s2 := note _ s1).
  assert (dispatches (log s2) = dispatches (log s) ++ [ANative p c (no_Disposition o)]) as H2.
  { unfold s2, note. simpl. by rewrite dispatches_app, H1. }
  unfold nativeResult. destruct (no_Disposition o) eqn:Eo.
  - specialize (Hb (no_OnResponseShadow o) s2 _ H2). destruct (tryBAML p c _ s2) as [s' r].
    destruct Hb as (d&Hd&[->| ->]); eexists; (split; [exact Hd|]); simpl; auto 6.
  - eexists. split; [exact H2|]. do 4 right. eexists. split; [|split; [done|]]; [done|].
    split; eauto.
  - eexists. split; [exact H2|]. do 4 right. eexists. split; [|split; [done|]]; [done|].
    split; [done|]. by intros [v ?].
  - eexists. split; [exact H2|]. do 4 right. eexists. split; [|split; [done|]]; [done|].
    split; [done|]. by intros [v ?].
Qed.

(** ** Provenance of the result *)

(** The children of a list were tried in order, on a live context, and failed. *)
Inductive failedWalk : list string -> St -> St -> Prop :=
  | failed_nil s : failedWalk [] s s
  | failed_cons child chain s s1 s2 e :
      ctxErr env (world s) = None -> tryChild child s = (s1, inr e) ->
      failedWalk chain s1 s2 -> failedWalk (child :: chain) s s2.

Lemma walkChain_success attempt chain : forall lastErr s s' r,
  walkChain attempt chain lastErr s = (s', (Some r, None)) ->
  exists pre child post s1 s2, chain = pre ++ child :: post /\ failedWalk pre s s1
    /\ tryChild child s1 = (s2, inl r) /\ s' = setFinalAttempt attempt s2.
Proof.
  induction chain as [|child chain IH]; intros lastErr s s' r H; simpl in H; [done|].
  destruct (ctxErr env (world s)) eqn:Ec; [done|].
  destruct (tryChild child s) as [s1 [v|e]] eqn:Et.
  - simplify_eq. exists [], child, chain, s, s1. split_and!; try done. constructor.
  - apply IH in H as (pre&c&post&u1&u2&->&Hf&Hc&->).
    exists (child :: pre), c, post, u1, u2. split_and!; try done. by econstructor.
Qed.

(** The winner of an attempt, by the shape of the configuration. *)
Definition wonBy (s s' : St) (r : callAttemptResult V) : Prop :=
  match cc_FallbackChain cfg with
  | [] => exists v, tryOneChild (cc_Provider cfg) (cc_ClientOverride cfg) s = (s', inl v)
            /\ r = from_option (fun plan => setWinner (md_Client plan) v) v (cc_MetadataPlan cfg)
  | chain => exists pre child post s1, chain = pre ++ child :: post /\ failedWalk pre s s1
               /\ tryChild child s1 = (s', inl r)
               /\ winnerClient r = (if isLegacy child then child else target child)
  end.

Lemma tryChild_winner child s s' r :
  tryChild child s = (s', inl r) -> winnerClient r = (if isLegacy child then child else target child).
Proof.
  unfold tryChild. destruct (isLegacy child).
  - destruct (cc_LegacyCallChild cfg); [|done].
    destruct (runCallback _ _) as [s1 [[[? ?] ?]|e]]; intros; by simplify_eq.
  - destruct (tryOneChild _ _ s) as [s1 [v|e]]; intros; by simplify_eq.
Qed.

Lemma attemptFull_success attempt s s' r :
  attemptFull attempt s = (s', (Some r, None)) ->
  exists s2, s' = setFinalAttempt attempt s2 /\ wonBy s s2 r.
Proof.
  unfold attemptFull, wonBy. destruct (cc_FallbackChain cfg) as [|c chain].
  - destruct (tryOneChild _ _ s) as [s1 [v|e]]; intros; simplify_eq. exists s1. split; [done|].
    exists v. split; [done|]. by destruct (cc_MetadataPlan cfg).
  - intros (pre&child&post&s1&s2&->&Hf&Hc&->)%walkChain_success.
    exists s2. split; [done|]. exists pre, child, post, s1.
    split_and!; try done. by eapply tryChild_winner.
Qed.

(** Provenance.  A final frame carries what one attempt produced: attempt
    [n], the last one the retry loop made (within the retry bound, on a live
    context), was won by the single client, or by the first child of the chain
    that succeeded after every earlier child had failed; the value is the winner's, raw and reasoning are
    withheld unless asked for, and the outcome metadata, when configured, was
    delivered and names that winner with [n] as its retry count. *)
Theorem call_provenance w v raw reasoning :
  from_option MaxRetries 0 (cc_RetryPolicy cfg) < MaxInt64 ->
  FFinal v raw reasoning ∈ frames (log (fst (RunCallOrchestration w))) ->
  exists n s1 s2 r, 0 <= n <= Z.max 0 (from_option MaxRetries 0 (cc_RetryPolicy cfg))
    /\ last (attempts (snd (fst (runAttempts (emitPlannedMetadata (initState w)))))) = Some (n, (Some r, None))
    /\ ctxErr env (world s1) = None /\ wonBy s1 s2 r
    /\ v = finalResult r /\ raw = whenRaw (car_raw r) /\ reasoning = whenRaw (car_reasoning r)
    /\ exists dur, forall f, f ∈ metadataFrames (callOutcome n dur r) ->
         f ∈ frames (log (fst (RunCallOrchestration w))).
Proof.
  intros Hm. unfold RunCallOrchestration.
  destruct (emitPlannedMetadata_init w) as (Hd&_&Hf&_&_).
  set (s0 := emitPlannedMetadata (initState w)) in *. set (pl := frames (log s0)) in *.
  assert (forall v raw rs, FFinal v raw rs ∉ pl) as Hpl.
  { intros v' raw' rs'. destruct Hf as [E|E]; subst pl; rewrite E; [set_solver|].
    unfold plannedFrames, metadataFrames.
    destruct (cc_MetadataPlan cfg), (cc_NewMetadataResult cfg); set_solver. }
  destruct validate as [err|]; [simpl; intros ?; by destruct (Hpl v raw reasoning)|].
  pose proof (runAttempts_frames pl s0) as Hr.
  destruct (runAttempts s0) as [[s1 acts] [result err]] eqn:Ex.
  destruct Hr as [_ Hr]; [split; [done|by left]|]. simpl in Hr.
  assert (forall v raw rs, FFinal v raw rs ∉ frames (log s1)) as H1.
  { intros v' raw' rs'. specialize (Hpl v' raw' rs'). destruct Hr as [->|[_ ->]]; set_solver. }
  destruct err as [err|].
  { pose proof (trySend_frames (FError (rawFromError err) err) s1) as Ht.
    destruct (trySend _ s1) as [s2 ok]. destruct Ht as [Ht _]. simpl. rewrite Ht.
    specialize (H1 v raw reasoning). destruct ok; set_solver. }
  destruct result as [r|]; [|intros Hin; by apply H1 in Hin].
  apply Execute_success in Ex as (n&Hn&Hlast&u&Hu&Ha); [|done].
  apply attemptFull_success in Ha as (s2&->&Hw). simpl.
  destruct (deliverFinal_frames (now env (world s0)) r (setFinalAttempt n s2)) as (dur&tl&->&Hp&_).
  unfold closingFrames in Hp. intros [Hin|Hin]%elem_of_app; [by apply H1 in Hin|].
  assert (forall g k : list (Frame V X), (forall v raw rs, FFinal v raw rs ∉ k) ->
    forall f : Frame V X, g `prefix_of` k ++ [f] -> FFinal v raw reasoning ∈ g ->
    g = k ++ [f] /\ f = FFinal v raw reasoning) as Hpre.
  { clear. intros g k Hk f [h Hh] Hin. destruct h as [|x h] using rev_ind.
    - rewrite app_nil_r in Hh. subst g. specialize (Hk v raw reasoning). split; [done|]. set_solver.
    - rewrite app_assoc in Hh. apply app_inj_tail in Hh as [-> _]. exfalso. apply (Hk v raw reasoning). set_solver. }
  apply Hpre in Hp as [-> Hfin]; [|unfold metadataFrames; repeat case_match; set_solver|done].
  simplify_eq. exists n, u, s2, r. split_and!; try done; [lia|lia|].
  exists dur. intros f Hfr. simpl. rewrite !elem_of_app. auto.
Qed.

(** The retry loop's overflow reaches the caller: a policy whose
    [MaxRetries] is the top of the [int] range makes a valid run panic on the
    type assertion, after the planned metadata and without any attempt. *)
Theorem call_overflow_panics w p :
  validate = None -> cc_RetryPolicy cfg = Some p -> MaxRetries p = MaxInt64 ->
  RunCallOrchestration w = (emitPlannedMetadata (initState w), Panicked).
Proof.
  intros Hv Hp Hm. unfold RunCallOrchestration, runAttempts, Execute. rewrite Hv, Hp.
  cbv zeta. rewrite ResolveStrategy_MaxRetries, Hm. reflexivity.
Qed.
End Call.

(** ** A concrete run: a mixed chain whose second attempt succeeds

    The world counts the BAML sends.  The legacy child always fails, the native
    seam declines, and the second BAML send answers after a heartbeat. *)

Module CallScenario.
Definition cfg (retries : Z) : CallConfig nat string string string :=
  mkCallConfig "" (Some (mkPolicy retries None None)) true false ["Old"; "A"] ""
    {[ "Old" := "custom"; "A" := "openai" ]} {[ "Old" := true ]} {[ "A" := "A-leaf" ]} ∅
    (Some (newPlanBase "buildrequest" "FB" None "request")) true
    (Some (fun _ _ _ w => Beat w (fun w => Done w (inr (Ext "legacy down")))))
    (Some (fun _ w => Done w (DeclineNativeCall "gate" "off"))) true None "native".
Definition fns : Functions nat string string string :=
  mkFunctions (fun client w => (w, inl client))
    (fun _ w => if (w =? 0)%nat then Done 1%nat (inr (Ext "503"))
                else Beat (S w) (fun w => Done w (inl (mkResponse 200 None (Some "hi") "hi"))))
    (fun parseable w => (w, inl (Some parseable)))
    (fun _ body _ => inl (body, body, ""))
    None None.
Definition env : Env nat string string :=
  mkEnv (fun _ => None) (fun _ w => (w, true)) (fun _ w => (w, true)) (fun _ => 0)
    (fun _ w => (w, None)) (fun _ => false) (fun _ ok => ok).
Definition run (retries : Z) := RunCallOrchestration env (cfg retries) fns 0%nat.

Example run_log : omap (fun a => match a with AFrame _ => None | _ => Some a end) (log (fst (run 2))) =
  [ALegacy "Old" "custom"; ANative "openai" "A-leaf" NativeCallDeclined; ASend "openai" "A-leaf";
   ALegacy "Old" "custom"; ANative "openai" "A-leaf" NativeCallDeclined; ASend "openai" "A-leaf"].
Proof. vm_compute. reflexivity. Qed.
End CallScenario.

Lemma call_delivers_witness : snd (CallScenario.run 2) = Returned None.
Proof.
  refine (proj1 (call_delivers CallScenario.env (CallScenario.cfg 2) CallScenario.fns _ _ 0%nat _ _));
    try reflexivity; intros; reflexivity.
Defined.

Lemma call_provenance_witness :
  exists n s1 s2 r, 0 <= n <= 2
    /\ wonBy CallScenario.env (CallScenario.cfg 2) CallScenario.fns s1 s2 r /\ Some "hi" = finalResult r.
Proof.
  destruct (call_provenance CallScenario.env (CallScenario.cfg 2) CallScenario.fns 0%nat (Some "hi") "hi" "")
    as (n&s1&s2&r&Hn&_&_&Hw&Hv&_).
  - reflexivity.
  - vm_compute. do 3 right. left.
  - exists n, s1, s2, r. split; [exact Hn|]. split; [exact Hw|exact Hv].
Defined.

Lemma call_overflow_panics_witness : snd (CallScenario.run MaxInt64) = Panicked.
Proof.
  unfold CallScenario.run.
  rewrite (call_overflow_panics CallScenario.env (CallScenario.cfg MaxInt64) CallScenario.fns 0%nat
    (mkPolicy MaxInt64 None None)); reflexivity.
Defined.
