(* ===== verification/StreamOrchestrator.v ===== *)
(** * StreamOrchestrator: [RunStreamOrchestration] in [bamlutils/buildrequest/orchestrator.go]

    The streaming orchestrator: a request is driven through the native stream
    seams, the event-stream transport of the BuildRequest path, the AWS
    event-stream transport of Bedrock or the legacy callback, over a single
    client or a fallback chain, under the retry loop.  Partials are delivered
    while the stream runs; a reset frame tells the consumer to discard what a
    failed window left behind.

    The event-stream body is parsed by [Sse.ScanEvents], its deltas feed
    [Cadence.Delta], and the attempts run under [Retry.Execute], each with the
    orchestrator's own state as its world.  The per-provider extraction of a
    delta from an event is a parameter. *)

From S2P Require Import Prelude GoStrings Registry Retry Metadata Cadence Sse Orchestration.
Local Open Scope Z_scope.

(** ** Native stream seams: [native_stream_callback.go], [native_stream_oracle_callback.go] *)

Inductive NativeStreamDisposition :=
  | NativeStreamDeclined | NativeStreamCompleted | NativeStreamFailedAfterClaim
  | NativeStreamOther (d : Z).

(** A callback that is handed [sendHeartbeat] and an emission function: it
    returns, calls the heartbeat, or emits an event and looks at the error. *)
Inductive StreamCallback (W Ev X A : Type) :=
  | SDone (w : W) (a : A)
  | SBeat (w : W) (k : W -> StreamCallback W Ev X A)
  | SEmit (w : W) (ev : Ev) (k : W -> option (Err X) -> StreamCallback W Ev X A).
Arguments SDone {W Ev X A}. Arguments SBeat {W Ev X A}. Arguments SEmit {W Ev X A}.

Record NativeStreamOutcome (X : Type) := mkStreamOutcome {
  ns_Disposition : NativeStreamDisposition;
  ns_DeclineStage : string;
  ns_DeclineReason : string;
  ns_WinnerEngine : string;
  ns_Err : option (Err X);
  ns_RawDiagnostic : string
}.
Arguments mkStreamOutcome {X}. Arguments ns_Disposition {X}. Arguments ns_WinnerEngine {X}.
Arguments ns_Err {X}. Arguments ns_RawDiagnostic {X}.

Definition DeclineNativeStream {X} (stage reason : string) : NativeStreamOutcome X :=
  mkStreamOutcome NativeStreamDeclined stage reason "" None "".
Definition CompleteNativeStream {X} (engine : string) : NativeStreamOutcome X :=
  mkStreamOutcome NativeStreamCompleted "" "" engine None "".
Definition FailNativeStreamAfterClaim {X} (err : option (Err X)) (raw : string) : NativeStreamOutcome X :=
  mkStreamOutcome NativeStreamFailedAfterClaim "" "" "" (Some (default errNativeStreamFailedNil err)) raw.

Record NativeStreamOracleOutcome (V X : Type) := mkOracleOutcome {
  no_Disposition : NativeStreamDisposition;
  no_DeclineStage : string;
  no_DeclineReason : string;
  no_Final : option V;
  no_Raw : string;
  no_Reasoning : string;
  no_WinnerEngine : string;
  no_Err : option (Err X);
  no_RawDiagnostic : string
}.
Arguments mkOracleOutcome {V X}. Arguments no_Disposition {V X}. Arguments no_Final {V X}.
Arguments no_Raw {V X}. Arguments no_Reasoning {V X}. Arguments no_WinnerEngine {V X}.
Arguments no_Err {V X}. Arguments no_RawDiagnostic {V X}.

(** What both native callbacks are told about the attempt. *)
Record NativeStreamAttempt (W V Req X : Type) := mkStreamAttempt {
  nsa_Provider : string;
  nsa_ClientOverride : string;
  nsa_NeedsPartials : bool;
  nsa_NeedsRaw : bool;
  nsa_IncludeReasoning : bool;
  nsa_OutputSchema : option V;
  nsa_BuildBAMLRequest : W -> W * (Req + Err X)
}.
Arguments mkStreamAttempt {W V Req X}.

(** ** Configuration, closures, environment, state *)

(** A partial parse: a candidate, a nil candidate, or an error. *)
Definition ParseStreamFunc (W V X : Type) : Type := string -> W -> W * (option V + Err X).
Definition ParseFinalFunc (W V X : Type) : Type := string -> W -> W * (option V + Err X).

Record StreamConfig (W V Req X : Type) := mkStreamConfig {
  cfg_Provider : string;
  cfg_RetryPolicy : option Policy;
  cfg_NeedsPartials : bool;
  cfg_NeedsRaw : bool;
  cfg_IncludeReasoning : bool;
  cfg_ParseThrottleInterval : Z;
  cfg_SoftFinalParse : bool;
  cfg_FallbackChain : list string;
  cfg_ClientOverride : string;
  cfg_ClientProviders : gmap string string;
  cfg_LegacyChildren : gmap string bool;
  cfg_FallbackTargets : gmap string string;
  cfg_MetadataPlan : option Metadata;
  cfg_NewMetadataResult : bool;
  cfg_BuildBedrockStreamRequest : option (string -> W -> W * (Req + Err X));
  cfg_LegacyStreamChild :
    option (string -> string -> bool -> W -> Callback W (option V * string * string + Err X));
  cfg_NativeAttemptEnabled : bool;
  cfg_NativeAttempt :
    option (NativeStreamAttempt W V Req X -> W -> StreamCallback W delta X (NativeStreamOutcome X));
  cfg_NativeOutputSchema : option V;
  cfg_NativeOracleAttemptEnabled : bool;
  cfg_NativeOracleAttempt :
    option (NativeStreamAttempt W V Req X -> W ->
            StreamCallback W (StreamCadenceEvent V) X (NativeStreamOracleOutcome V X));
  cfg_NativeParseStream : option (ParseStreamFunc W V X);
  cfg_NativeParseFinal : option (ParseFinalFunc W V X);
  cfg_PlannedEngine : string
}.
Arguments mkStreamConfig {W V Req X}. Arguments cfg_Provider {W V Req X}.
Arguments cfg_RetryPolicy {W V Req X}. Arguments cfg_NeedsPartials {W V Req X}.
Arguments cfg_NeedsRaw {W V Req X}. Arguments cfg_IncludeReasoning {W V Req X}.
Arguments cfg_ParseThrottleInterval {W V Req X}. Arguments cfg_SoftFinalParse {W V Req X}.
Arguments cfg_FallbackChain {W V Req X}. Arguments cfg_ClientOverride {W V Req X}.
Arguments cfg_ClientProviders {W V Req X}. Arguments cfg_LegacyChildren {W V Req X}.
Arguments cfg_FallbackTargets {W V Req X}. Arguments cfg_MetadataPlan {W V Req X}.
Arguments cfg_NewMetadataResult {W V Req X}. Arguments cfg_BuildBedrockStreamRequest {W V Req X}.
Arguments cfg_LegacyStreamChild {W V Req X}. Arguments cfg_NativeAttemptEnabled {W V Req X}.
Arguments cfg_NativeAttempt {W V Req X}. Arguments cfg_NativeOutputSchema {W V Req X}.
Arguments cfg_NativeOracleAttemptEnabled {W V Req X}. Arguments cfg_NativeOracleAttempt {W V Req X}.
Arguments cfg_NativeParseStream {W V Req X}. Arguments cfg_NativeParseFinal {W V Req X}.
Arguments cfg_PlannedEngine {W V Req X}.

(** The closures of the generated adapter and the transport.  An event-stream
    body is its text and the error the reader ends with; an AWS stream is the
    sequence of its decoded events and the error [Next] ends with. *)
Record StreamFunctions (W V Req Ev X : Type) := mkStreamFunctions {
  buildRequest : string -> W -> W * (Req + Err X);
  executeStreamCallback : Req -> W -> W * ((string * option (Err X)) + Err X);
  executeAWSStream : Req -> W -> W * ((list Ev * option (Err X)) + Err X);
  extractDelta : string -> string -> bool -> delta + Err X;
  extractBedrockDelta : Ev -> bool -> delta + Err X;
  parseStream : option (ParseStreamFunc W V X);
  parseFinal : ParseFinalFunc W V X;
  classifyStreamErr : Err X -> Err X
}.
Arguments mkStreamFunctions {W V Req Ev X}. Arguments buildRequest {W V Req Ev X}.
Arguments executeStreamCallback {W V Req Ev X}. Arguments executeAWSStream {W V Req Ev X}.
Arguments extractDelta {W V Req Ev X}. Arguments extractBedrockDelta {W V Req Ev X}.
Arguments parseStream {W V Req Ev X}. Arguments parseFinal {W V Req Ev X}.
Arguments classifyStreamErr {W V Req Ev X}.

(** The three-way select of a partial: sent, the context was done, or the
    channel was full. *)
Inductive PartialSend := Sent | CtxDone | Dropped.

(** [tick] is waiting for the next line or event of a body. *)
Record StreamEnv (W V X : Type) := mkStreamEnv {
  base : Env W V X;
  offerPartial : Frame V X -> W -> W * PartialSend;
  tick : W -> W;
  extCancel : X -> bool
}.
Arguments mkStreamEnv {W V X}. Arguments base {W V X}. Arguments offerPartial {W V X}.
Arguments tick {W V X}. Arguments extCancel {W V X}.

(** Frames delivered and upstream dispatches. *)
Inductive StreamAct (V X : Type) :=
  | SAFrame (f : Frame V X)
  | SAOracle (provider client : string) (d : NativeStreamDisposition)
  | SANative (provider client : string) (d : NativeStreamDisposition)
  | SASend (provider client : string)
  | SALegacy (child provider : string).
Arguments SAFrame {V X}. Arguments SAOracle {V X}. Arguments SANative {V X}.
Arguments SASend {V X}. Arguments SALegacy {V X}.

(** The variables the closures of [RunStreamOrchestration] share. *)
Record StreamState (W V X : Type) := mkStreamState {
  world : W;
  heartbeatSent : bool;
  sawStreamFrame : bool;
  plannedMetadataOnce : bool;
  nativeWinnerEngine : string;
  winnerClient : string;
  winnerProvider : string;
  winnerPath : string;
  finalRetryCount : Z;
  log : list (StreamAct V X)
}.
Arguments mkStreamState {W V X}. Arguments world {W V X}. Arguments heartbeatSent {W V X}.
Arguments sawStreamFrame {W V X}. Arguments plannedMetadataOnce {W V X}.
Arguments nativeWinnerEngine {W V X}. Arguments winnerClient {W V X}.
Arguments winnerProvider {W V X}. Arguments winnerPath {W V X}.
Arguments finalRetryCount {W V X}. Arguments log {W V X}.

(** The state of one event-stream window: the orchestrator's, the cadence's, and
    the error its callback recorded. *)
Record WindowState (W V X : Type) := mkWindow {
  win_state : StreamState W V X;
  win_acc : streamAccumulator;
  callbackErr : option (Err X)
}.
Arguments mkWindow {W V X}. Arguments win_state {W V X}. Arguments win_acc {W V X}.
Arguments callbackErr {W V X}.

(** What the context, the channel and the timer promise: a blocking send that
    was not taken, a partial that lost to the context and a sleep that was cut
    short leave a context that is done, and sleeping does not revive it. *)
Class LawfulStreamEnv {W V X} (env : StreamEnv W V X) : Prop := {
  offer_declined : forall f w,
    snd (offer (base env) f w) = false -> is_Some (ctxErr (base env) (fst (offer (base env) f w)));
  partial_declined : forall f w,
    snd (offerPartial env f w) = CtxDone -> is_Some (ctxErr (base env) (fst (offerPartial env f w)));
  sleep_cut : forall d w e,
    snd (sleep (base env) d w) = Some e -> is_Some (ctxErr (base env) (fst (sleep (base env) d w)));
  sleep_keeps : forall d w,
    is_Some (ctxErr (base env) w) -> is_Some (ctxErr (base env) (fst (sleep (base env) d w)))
}.

Section Stream.
Context {W V Req Ev X : Type}.
Variable env : StreamEnv W V X.
Variable cfg : StreamConfig W V Req X.
Variable fns : StreamFunctions W V Req Ev X.

Local Abbreviation St := (StreamState W V X).
Local Abbreviation E := (Err X).
Local Abbreviation Acc := streamAccumulator.
(** What a child attempt returns: the final, the raw text and the reasoning. *)
Local Abbreviation childResult := (option V * string * string + E)%type.

Definition setWorld (w : W) (s : St) : St :=
  mkStreamState w (heartbeatSent s) (sawStreamFrame s) (plannedMetadataOnce s) (nativeWinnerEngine s)
    (winnerClient s) (winnerProvider s) (winnerPath s) (finalRetryCount s) (log s).
Definition setFlags (heartbeat saw : bool) (s : St) : St :=
  mkStreamState (world s) heartbeat saw (plannedMetadataOnce s) (nativeWinnerEngine s)
    (winnerClient s) (winnerProvider s) (winnerPath s) (finalRetryCount s) (log s).
Definition setPlannedOnce (s : St) : St :=
  mkStreamState (world s) (heartbeatSent s) (sawStreamFrame s) true (nativeWinnerEngine s)
    (winnerClient s) (winnerProvider s) (winnerPath s) (finalRetryCount s) (log s).
Definition setNativeWinner (engine : string) (s : St) : St :=
  mkStreamState (world s) (heartbeatSent s) (sawStreamFrame s) (plannedMetadataOnce s) engine
    (winnerClient s) (winnerProvider s) (winnerPath s) (finalRetryCount s) (log s).
Definition setWinner (client provider path : string) (attempt : Z) (s : St) : St :=
  mkStreamState (world s) (heartbeatSent s) (sawStreamFrame s) (plannedMetadataOnce s)
    (nativeWinnerEngine s) client provider path attempt (log s).
Definition note (a : StreamAct V X) (s : St) : St :=
  mkStreamState (world s) (heartbeatSent s) (sawStreamFrame s) (plannedMetadataOnce s)
    (nativeWinnerEngine s) (winnerClient s) (winnerProvider s) (winnerPath s) (finalRetryCount s)
    (log s ++ [a]).

Definition initState (w : W) : St := mkStreamState w false false false "" "" "" "" 0 [].

Definition ctxDone (s : St) : option E := ctxErr (base env) (world s).

(** Run a send on the world and record the frame when it was taken. *)
Definition deliver (send : Frame V X -> W -> W * bool) (f : Frame V X) (s : St) : St * bool :=
  let '(w, ok) := send f (world s) in
  let s := setWorld w s in
  (if ok then note (SAFrame f) s else s, ok).

(** [emitPlannedMetadata]: here the send has a default branch. *)
Definition emitPlannedMetadata (s : St) : St :=
  match cfg_MetadataPlan cfg with
  | Some plan =>
      if negb (cfg_NewMetadataResult cfg) then s
      else if plannedMetadataOnce s then s
      else fst (deliver (tryOffer (base env)) (FMetadata (plannedOf plan)) (setPlannedOnce s))
  | None => s
  end.

(** [config.LegacyChildren[child]] and [config.ClientProviders[child]]. *)
Definition isLegacy (child : string) : bool := default false (cfg_LegacyChildren cfg !! child).
Definition childProvider (child : string) : string := map_str (cfg_ClientProviders cfg) child.

(** The walk over the chain's children, with [bedrockInChain]; the check of the
    Bedrock request builder follows it. *)
Fixpoint validateChain (chain : list string) (bedrockInChain : bool) : option E :=
  match chain with
  | [] =>
      if bedrockInChain && match cfg_BuildBedrockStreamRequest cfg with None => true | Some _ => false end
      then Some ErrBedrockRequestNil else None
  | child :: chain =>
      if isLegacy child then validateChain chain bedrockInChain
      else
        let provider := childProvider child in
        if (provider =s "") || negb (IsProviderSupported provider)
        then Some (ErrUnsupportedChild provider child)
        else validateChain chain (bedrockInChain || (provider =s "aws-bedrock"))
  end.

(** The up-front validation. *)
Definition validate : option E :=
  match cfg_FallbackChain cfg with
  | [] =>
      if (cfg_Provider cfg =s "") || negb (IsProviderSupported (cfg_Provider cfg))
      then Some (ErrUnsupportedProvider (cfg_Provider cfg))
      else if (cfg_Provider cfg =s "aws-bedrock")
              && match cfg_BuildBedrockStreamRequest cfg with None => true | Some _ => false end
      then Some ErrBedrockRequestNil else None
  | chain =>
      if negb (bool_decide (cfg_LegacyChildren cfg = ∅))
         && match cfg_LegacyStreamChild cfg with None => true | Some _ => false end
      then Some ErrLegacyStreamChildNil
      else validateChain chain false
  end.

(** [sendHeartbeat]. *)
Definition sendHeartbeat (s : St) : St :=
  emitPlannedMetadata
    (if heartbeatSent s then s
     else fst (deliver (tryOffer (base env)) FHeartbeat (setFlags true (sawStreamFrame s) s))).

(** Run a callback, serving its heartbeats. *)
Fixpoint runCallback {A} (c : Callback W A) (s : St) : St * A :=
  match c with
  | Done w a => (setWorld w s, a)
  | Beat w k =>
      let s := sendHeartbeat (setWorld w s) in
      runCallback (k (world s)) s
  end.

(** Run a native stream callback, serving its heartbeats and its events; [C] is
    what the emission function keeps. *)
Fixpoint runStreamCallback {Evt A C} (emitEvent : Evt -> C -> St -> St * C * option E)
    (c : StreamCallback W Evt X A) (acc : C) (s : St) : St * C * A :=
  match c with
  | SDone w a => (setWorld w s, acc, a)
  | SBeat w k =>
      let s := sendHeartbeat (setWorld w s) in
      runStreamCallback emitEvent (k (world s)) acc s
  | SEmit w ev k =>
      let '(s, acc, err) := emitEvent ev acc (setWorld w s) in
      runStreamCallback emitEvent (k (world s) err) acc s
  end.

(** [trySendPartialShared]. *)
Definition trySendPartialShared (parsed : option V) (rawDelta reasoningDelta : string) (s : St)
    : St * option E :=
  let f := FStream parsed rawDelta reasoningDelta false in
  let '(w, r) := offerPartial env f (world s) in
  let s := setWorld w s in
  match r with
  | Sent => (setFlags (heartbeatSent s) true (note (SAFrame f) s), None)
  | CtxDone => (s, ctxDone s)
  | Dropped => (s, None)
  end.

(** [newCadence]: the window's cadence, acting on the orchestrator's state. *)
Definition newCadence (parseStreamFn : option (ParseStreamFunc W V X)) : StreamCadenceConfig St V E :=
  mkCadenceConfig _ _ _ (cfg_NeedsPartials cfg) (cfg_NeedsRaw cfg) (cfg_ParseThrottleInterval cfg)
    (match parseStreamFn with
     | Some parse =>
         Some (fun accumulated (s : St) =>
           let '(w, r) := parse accumulated (world s) in (setWorld w s, r))
     | None => None
     end)
    (fun ev s => trySendPartialShared (ev_Partial ev) (ev_Raw ev) (ev_Reasoning ev) s)
    CadenceParseErrorsAreNoEvent
    (fun s => (s, now (base env) (world s))).

(** The final parse of the BAML lanes, with the soft final of raw-first streams. *)
Definition finalParse (acc : Acc) (s : St) : St * childResult :=
  let '(w, r) := parseFinal fns (acc_parseable acc) (world s) in
  let s := setWorld w s in
  match r with
  | inl final => (s, inl (final, acc_raw acc, acc_reasoning acc))
  | inr parseErr =>
      if cfg_NeedsPartials cfg && cfg_NeedsRaw cfg && cfg_SoftFinalParse cfg
         && match ctxDone s with None => true | Some _ => false end
         && negb (isCancellation (extCancel env) parseErr)
      then (s, inl (None, acc_raw acc, acc_reasoning acc))
      else (s, inr (newRawError (wrapOutputParse (ErrParseFinal parseErr)) (acc_raw acc)))
  end.

(** ** The Bedrock window: [tryOneBedrockStreamChild] *)

(** The throttled parse of a delta. *)
Definition bedrockParse (acc : Acc) (s : St) : St * Acc * option V :=
  match parseStream fns with
  | None => (s, acc, None)
  | Some parse =>
      if (cfg_ParseThrottleInterval cfg =? 0) || negb (acc_parsed acc)
         || (cfg_ParseThrottleInterval cfg <=? now (base env) (world s) - acc_lastParseTime acc)
      then
        let acc := mkAcc (acc_parseable acc) (acc_raw acc) (acc_reasoning acc) true
                     (now (base env) (world s)) in
        let '(w, r) := parse (acc_parseable acc) (world s) in
        (setWorld w s, acc, match r with inl candidate => candidate | inr _ => None end)
      else (s, acc, None)
  end.

(** One event's delta. *)
Definition bedrockDelta (d : delta) (acc : Acc) (s : St) : St * Acc * option E :=
  if (d_raw d =s "") && (d_parseable d =s "") && (d_reasoning d =s "") then (s, acc, None)
  else
    let acc := mkAcc (acc_parseable acc +:+ d_parseable d) (acc_raw acc +:+ d_raw d)
                 (acc_reasoning acc +:+ d_reasoning d) (acc_parsed acc) (acc_lastParseTime acc) in
    if cfg_NeedsPartials cfg && (d_parseable d =s "") then
      if cfg_NeedsRaw cfg then
        let '(s, err) := trySendPartialShared None (d_raw d) (d_reasoning d) s in (s, acc, err)
      else (s, acc, None)
    else if cfg_NeedsPartials cfg then
      let '(s, acc, parsed) := bedrockParse acc s in
      match parsed with
      | Some p =>
          let '(s, err) := trySendPartialShared (Some p) (if cfg_NeedsRaw cfg then d_raw d else "")
                             (if cfg_NeedsRaw cfg then d_reasoning d else "") s in (s, acc, err)
      | None =>
          if cfg_NeedsRaw cfg then
            let '(s, err) := trySendPartialShared None (d_raw d) (d_reasoning d) s in (s, acc, err)
          else (s, acc, None)
      end
    else (s, acc, None).

(** The loop over [resp.Events.Next]; [nextErr] ends it, [None] for EOF. *)
Fixpoint bedrockLoop (evs : list Ev) (nextErr : option E) (acc : Acc) (s : St) : St * Acc * option E :=
  let s := setWorld (tick env (world s)) s in
  match evs with
  | [] =>
      match nextErr with
      | Some e => (s, acc, Some (newRawError (ErrStream e) (acc_raw acc)))
      | None => (s, acc, None)
      end
  | ev :: evs =>
      match extractBedrockDelta fns ev (cfg_IncludeReasoning cfg) with
      | inr extractErr => (s, acc, Some (newRawError (ErrDeltaExtraction extractErr) (acc_raw acc)))
      | inl d =>
          let '(s, acc, err) := bedrockDelta d acc s in
          match err with
          | Some e => (s, acc, Some e)
          | None => bedrockLoop evs nextErr acc s
          end
      end
  end.

(** [tryOneBedrockStreamChild]. *)
Definition tryOneBedrockStreamChild (clientOverride : string) (s : St) : St * childResult :=
  match cfg_BuildBedrockStreamRequest cfg with
  | None => (s, inr ErrBedrockRequestNil)
  | Some build =>
      let '(w, req) := build clientOverride (world s) in
      let s := setWorld w s in
      match req with
      | inr err => (s, inr (ErrBuild err))
      | inl req =>
          let s := note (SASend "aws-bedrock" clientOverride) s in
          let '(w, resp) := executeAWSStream fns req (world s) in
          let s := setWorld w s in
          match resp with
          | inr err => (s, inr err)
          | inl (evs, nextErr) =>
              let s := sendHeartbeat s in
              let '(s, acc, err) := bedrockLoop evs nextErr newAccumulator s in
              match err with
              | Some e => (s, inr e)
              | None => finalParse acc s
              end
          end
      end
  end.

(** ** The event-stream window of the BuildRequest path *)

Definition isStop (e : E) : bool := match e with ErrStopScan => true | _ => false end.

(** The callback [ForEach] is given. *)
Definition onEvent (provider : string) (ev : Event) (wn : WindowState W V X)
    : WindowState W V X * option E :=
  match extractDelta fns provider (ev_Data ev) (cfg_IncludeReasoning cfg) with
  | inr extractErr =>
      (mkWindow (win_state wn) (win_acc wn)
         (Some (newRawError (ErrDeltaExtraction extractErr) (acc_raw (win_acc wn)))), Some ErrStopScan)
  | inl d =>
      let '(s, acc, o) := Delta (newCadence (parseStream fns)) d (win_acc wn) (win_state wn) in
      match o_err o with
      | Some e => (mkWindow s acc (Some e), Some ErrStopScan)
      | None => (mkWindow s acc (callbackErr wn), None)
      end
  end.

Definition windowTick (wn : WindowState W V X) : WindowState W V X :=
  mkWindow (setWorld (tick env (world (win_state wn))) (win_state wn)) (win_acc wn) (callbackErr wn).

(** [handle.ForEach]. *)
Definition forEach (provider body : string) (readErr : option E) (wn : WindowState W V X)
    : WindowState W V X * option E :=
  let '(wn, err) := ScanEvents (fun wn => ctxDone (win_state wn)) windowTick ErrTooLong
                      sseScannerMaxTokenSize (onEvent provider) isStop body readErr wn in
  (wn, classifyStreamErr fns <$> err).

(** The build, the send and the window, after the native seams. *)
Definition tryStreamBAML (provider clientOverride : string) (s : St) : St * childResult :=
  let '(w, req) := buildRequest fns clientOverride (world s) in
  let s := setWorld w s in
  match req with
  | inr err => (s, inr (ErrBuild err))
  | inl req =>
      let s := note (SASend provider clientOverride) s in
      let '(w, handle) := executeStreamCallback fns req (world s) in
      let s := setWorld w s in
      match handle with
      | inr err => (s, inr err)
      | inl (body, readErr) =>
          let s := sendHeartbeat s in
          let '(wn, streamErr) := forEach provider body readErr (mkWindow s newAccumulator None) in
          let s := win_state wn in
          match callbackErr wn, streamErr with
          | Some e, _ => (s, inr e)
          | None, Some e => (s, inr (newRawError (ErrStream e) (acc_raw (win_acc wn))))
          | None, None => finalParse (win_acc wn) s
          end
      end
  end.

(** ** The native stream seams *)

Definition streamAttempt (provider clientOverride : string) (schema : option V)
    : NativeStreamAttempt W V Req X :=
  mkStreamAttempt provider clientOverride (cfg_NeedsPartials cfg) (cfg_NeedsRaw cfg)
    (cfg_IncludeReasoning cfg) schema (buildRequest fns clientOverride).

(** [EmitDelta]. *)
Definition EmitDelta (d : delta) (acc : Acc) (s : St) : St * Acc * option E :=
  let '(s, acc, o) := Delta (newCadence (cfg_NativeParseStream cfg)) d acc s in (s, acc, o_err o).

(** [EmitResolved]. *)
Definition EmitResolved (ev : StreamCadenceEvent V) (u : unit) (s : St) : St * unit * option E :=
  if match ev_Partial ev with None => true | Some _ => false end
     && (ev_Raw ev =s "") && (ev_Reasoning ev =s "") then (s, u, None)
  else let '(s, err) := trySendPartialShared (ev_Partial ev) (ev_Raw ev) (ev_Reasoning ev) s in (s, u, err).

Definition oracleInstalled : bool :=
  cfg_NativeOracleAttemptEnabled cfg && match cfg_NativeOracleAttempt cfg with Some _ => true | None => false end.
Definition nativeInstalled : bool :=
  cfg_NativeAttemptEnabled cfg && match cfg_NativeAttempt cfg with Some _ => true | None => false end.

(** The oracle-owned seam: the result of the attempt, or none after a decline. *)
Definition tryOracle (provider clientOverride : string) (s : St) : St * option childResult :=
  match cfg_NativeOracleAttempt cfg with
  | Some oracle =>
      if cfg_NativeOracleAttemptEnabled cfg then
        if nativeInstalled then (s, Some (inr (newNativeStreamTerminalError (Some ErrBothNativeSeams) "")))
        else
          let '(s, _, o) := runStreamCallback EmitResolved
            (oracle (streamAttempt provider clientOverride None) (world s)) tt s in
          let s := note (SAOracle provider clientOverride (no_Disposition o)) s in
          match no_Disposition o with
          | NativeStreamDeclined => (s, None)
          | NativeStreamCompleted =>
              (setNativeWinner (allowedWinnerEngine (no_WinnerEngine o)) s,
               Some (inl (no_Final o, no_Raw o, no_Reasoning o)))
          | NativeStreamFailedAfterClaim =>
              (s, Some (inr (newNativeStreamTerminalError (no_Err o) (no_RawDiagnostic o))))
          | NativeStreamOther d => (s, Some (inr (newNativeStreamTerminalError (Some (ErrUnknownDisposition d)) "")))
          end
      else (s, None)
  | None => (s, None)
  end.

(** The transport-only seam. *)
Definition tryNative (provider clientOverride : string) (s : St) : St * option childResult :=
  match cfg_NativeAttempt cfg with
  | Some native =>
      if cfg_NativeAttemptEnabled cfg then
        match cfg_NativeParseStream cfg, cfg_NativeParseFinal cfg with
        | Some _, Some nativeParseFinal =>
            let '(s, acc, o) := runStreamCallback EmitDelta
              (native (streamAttempt provider clientOverride (cfg_NativeOutputSchema cfg)) (world s))
              newAccumulator s in
            let s := note (SANative provider clientOverride (ns_Disposition o)) s in
            match ns_Disposition o with
            | NativeStreamDeclined => (s, None)
            | NativeStreamCompleted =>
                let '(w, r) := nativeParseFinal (acc_parseable acc) (world s) in
                let s := setWorld w s in
                match r with
                | inr parseErr =>
                    (s, Some (inr (newNativeStreamTerminalError
                      (Some (wrapOutputParse (ErrParseNativeFinal parseErr))) (acc_raw acc))))
                | inl final =>
                    (setNativeWinner (allowedWinnerEngine (ns_WinnerEngine o)) s,
                     Some (inl (final, acc_raw acc, acc_reasoning acc)))
                end
            | NativeStreamFailedAfterClaim =>
                let raw := if ns_RawDiagnostic o =s "" then acc_raw acc else ns_RawDiagnostic o in
                (s, Some (inr (newNativeStreamTerminalError (ns_Err o) raw)))
            | NativeStreamOther d =>
                (s, Some (inr (newNativeStreamTerminalError (Some (ErrUnknownDisposition d)) "")))
            end
        | _, _ => (s, Some (inr (newNativeStreamTerminalError (Some ErrNativeParsersNil) "")))
        end
      else (s, None)
  | None => (s, None)
  end.

(** [tryOneStreamChild]. *)
Definition tryOneStreamChild (provider clientOverride : string) (s : St) : St * childResult :=
  if provider =s "aws-bedrock" then tryOneBedrockStreamChild clientOverride s
  else
    let '(s, r) := tryOracle provider clientOverride s in
    match r with
    | Some r => (s, r)
    | None =>
        let '(s, r) := tryNative provider clientOverride s in
        match r with
        | Some r => (s, r)
        | None => tryStreamBAML provider clientOverride s
        end
    end.

(** ** Attempts *)

(** The outcome metadata of the recorded winner. *)
Definition streamOutcome (dur : Z) (s : St) (plan : Metadata) : Metadata :=
  outcomeOf plan (cfg_PlannedEngine cfg) (finalRetryCount s) dur
    (winnerClient s) (winnerProvider s) (winnerPath s) (nativeWinnerEngine s).

(** [emitOutcomeMetadata]. *)
Definition emitOutcomeMetadata (startTime : Z) (s : St) : St :=
  match cfg_MetadataPlan cfg with
  | Some plan =>
      if cfg_NewMetadataResult cfg then
        let dur := Z.quot (now (base env) (world s) - startTime) Millisecond in
        fst (deliver (offer (base env)) (FMetadata (streamOutcome dur s plan)) s)
      else s
  | None => s
  end.

Definition whenRaw (text : string) : string := if cfg_NeedsRaw cfg then text else "".

(** [emitFinal]. *)
Definition emitFinal (startTime : Z) (final : option V) (raw reasoning : string) (s : St)
    : St * option E :=
  let s := emitOutcomeMetadata startTime s in
  let '(s, ok) := deliver (offer (base env)) (FFinal final (whenRaw raw) (whenRaw reasoning)) s in
  (s, if ok then None else ctxDone s).

(** The reset marker between two windows, when the consumer has partials to
    discard; false when the context won the select. *)
Definition emitReset (s : St) : St * bool :=
  if cfg_NeedsPartials cfg && sawStreamFrame s
  then deliver (offer (base env)) (FStream None "" "" true) s
  else (s, true).

(** The client a child is dispatched to. *)
Definition target (child : string) : string :=
  match cfg_FallbackTargets cfg !! child with
  | Some t => if t =s "" then child else t
  | None => child
  end.

(** One child of the fallback chain, with the path and the client it ran on. *)
Definition tryChild (child : string) (s : St) : St * childResult * string * string :=
  let provider := childProvider child in
  if isLegacy child then
    match cfg_LegacyStreamChild cfg with
    | None => (s, inr ErrNilFunction, "legacy", child)
    | Some legacy =>
        let '(s, r) := runCallback (legacy child provider (cfg_NeedsRaw cfg) (world s))
                         (note (SALegacy child provider) s) in
        (s, r, "legacy", child)
    end
  else
    let '(s, r) := tryOneStreamChild provider (target child) s in
    (s, r, "buildrequest", target child).

(** A window that succeeded: the winner is recorded and the final delivered. *)
Definition finish (startTime : Z) (client provider path : string) (attempt : Z)
    (result : option V * string * string) (s : St) : St * (option V * option E) :=
  let '(final, raw, reasoning) := result in
  let '(s, err) := emitFinal startTime final raw reasoning (setWinner client provider path attempt s) in
  match err with
  | Some e => (s, (None, Some e))
  | None => (s, (final, None))
  end.

(** What precedes a child after the first one ([lastErr] is set from then on):
    the reset, and the flags of the next window. *)
Definition handoff (lastErr : option E) (s : St) : St * bool :=
  match lastErr with
  | Some _ =>
      let '(s, sent) := emitReset s in
      (if sent then setFlags false false s else s, sent)
  | None => (s, true)
  end.

(** The loop over the chain. *)
Fixpoint walkChain (startTime attempt : Z) (chain : list string) (lastErr : option E) (s : St)
    : St * (option V * option E) :=
  match chain with
  | [] => (s, (None, lastErr))
  | child :: chain =>
      match ctxDone s with
      | Some e => (s, (None, Some e))
      | None =>
          let '(s, go_on) := handoff lastErr s in
          if go_on then
            let '(s, r, path, winnerTarget) := tryChild child s in
            match r with
            | inl result => finish startTime winnerTarget (childProvider child) path attempt result s
            | inr err =>
                if isNativeStreamTerminal err then (s, (None, Some err))
                else walkChain startTime attempt chain (Some err) s
            end
          else (s, (None, ctxDone s))
      end
  end.

(** [attemptFull]. *)
Definition attemptFull (startTime attempt : Z) (s : St) : St * (option V * option E) :=
  match cfg_FallbackChain cfg with
  | [] =>
      let '(s, r) := tryOneStreamChild (cfg_Provider cfg) (cfg_ClientOverride cfg) s in
      match r with
      | inl result =>
          finish startTime (from_option md_Client "" (cfg_MetadataPlan cfg)) (cfg_Provider cfg)
            "buildrequest" attempt result s
      | inr err => (s, (None, Some err))
      end
  | chain => walkChain startTime attempt chain None s
  end.

(** The retry callback. *)
Definition onRetry (attempt : Z) (s : St) : St := setFlags false false (fst (emitReset s)).

(** The retry loop. *)
Definition runAttempts (startTime : Z) (s : St)
    : St * list (Action (option V) E) * (option V * option E) :=
  Execute None ctxDone (isTerminal (extTerminal (base env))) (attemptFull startTime) (Some onRetry)
    (fun d (s : St) => let '(w, e) := sleep (base env) d (world s) in (setWorld w s, e))
    (cfg_RetryPolicy cfg) s.

(** [RunStreamOrchestration]: the error it returns is the validation's. *)
Definition RunStreamOrchestration (w : W) : St * option E :=
  let s := emitPlannedMetadata (initState w) in
  match validate with
  | Some err => (s, Some err)
  | None =>
      let startTime := now (base env) (world s) in
      let '(s, _, (_, err)) := runAttempts startTime s in
      match err, ctxDone s with
      | Some err, None =>
          (fst (deliver (offer (base env)) (FError (rawFromError err) err) s), None)
      | _, _ => (s, None)
      end
  end.
(** ** Reading the log *)

Definition frames (l : list (StreamAct V X)) : list (Frame V X) :=
  omap (fun a => match a with SAFrame f => Some f | _ => None end) l.
Definition isDispatch (a : StreamAct V X) : bool := match a with SAFrame _ => false | _ => true end.
Definition dispatches (l : list (StreamAct V X)) : list (StreamAct V X) :=
  filter (fun a => Is_true (isDispatch a)) l.
(** A native dispatch that did not decline owns the request. *)
Definition claimed (a : StreamAct V X) : bool :=
  match a with
  | SAOracle _ _ NativeStreamDeclined | SANative _ _ NativeStreamDeclined => false
  | SAOracle _ _ _ | SANative _ _ _ => true
  | _ => false
  end.

Lemma stream_frames_app l k : frames (l ++ k) = frames l ++ frames k.
Proof. apply omap_app. Qed.
Lemma stream_dispatches_app l k : dispatches (l ++ k) = dispatches l ++ dispatches k.
Proof. apply filter_app. Qed.

Lemma stream_deliver_log send f s :
  let '(s', ok) := deliver send f s in
  log s' = log s ++ (if ok then [SAFrame f] else [])
  /\ heartbeatSent s' = heartbeatSent s /\ sawStreamFrame s' = sawStreamFrame s
  /\ plannedMetadataOnce s' = plannedMetadataOnce s
  /\ nativeWinnerEngine s' = nativeWinnerEngine s /\ winnerPath s' = winnerPath s
  /\ (send f (world s)) = (world s', ok).
Proof.
  unfold deliver. destruct (send f (world s)) as [w []]; simpl; [done|].
  by rewrite app_nil_r.
Qed.

Lemma trySendPartialShared_log p raw rs s :
  let '(s', err) := trySendPartialShared p raw rs s in
  heartbeatSent s' = heartbeatSent s /\ plannedMetadataOnce s' = plannedMetadataOnce s
  /\ nativeWinnerEngine s' = nativeWinnerEngine s
  /\ match snd (offerPartial env (FStream p raw rs false) (world s)) with
     | Sent => err = None /\ sawStreamFrame s' = true
               /\ log s' = log s ++ [SAFrame (FStream p raw rs false)]
     | CtxDone => err = ctxDone s' /\ sawStreamFrame s' = sawStreamFrame s /\ log s' = log s
     | Dropped => err = None /\ sawStreamFrame s' = sawStreamFrame s /\ log s' = log s
     end.
Proof. unfold trySendPartialShared. by destruct (offerPartial _ _ _) as [w []]. Qed.

(** The Bedrock window accumulates, parses and emits as the shared cadence. *)
Lemma bedrockDelta_cadence d acc s :
  bedrockDelta d acc s = let '(s, acc, o) := Delta (newCadence (parseStream fns)) d acc s in (s, acc, o_err o).
Proof.
  unfold bedrockDelta, Delta, emitRawOnly, Cadence.emit. simpl.
  destruct ((d_raw d =s "") && _ && _); [done|].
  destruct (cfg_NeedsPartials cfg); [|done]. simpl.
  destruct (d_parseable d =s "").
  { destruct (cfg_NeedsRaw cfg); [|done]. by destruct (trySendPartialShared _ _ _ s). }
  unfold bedrockParse, tryParse, shouldParse. simpl. destruct (parseStream fns) as [parse|].
  2:{ destruct (cfg_NeedsRaw cfg); [|done]. by destruct (trySendPartialShared _ _ _ s). }
  match goal with |- context [if ?c || ?e then _ else _] =>
    assert ((if c then (s, true) else (s, e)) = (s, c || e)) as -> by (by destruct c); destruct (c || e) end.
  2:{ destruct (cfg_NeedsRaw cfg); [|done]. by destruct (trySendPartialShared _ _ _ s). }
  destruct (parse _ (world s)) as [w [[p|]|e]].
  - by destruct (trySendPartialShared _ _ _ _).
  - destruct (cfg_NeedsRaw cfg); [|done]. by destruct (trySendPartialShared _ _ _ _).
  - destruct (cfg_NeedsRaw cfg); [|done]. by destruct (trySendPartialShared _ _ _ _).
Qed.

(** ** Invariants of a child attempt *)

(** The dispatches the configuration allows. *)
Definition allowedTarget (p c : string) : Prop :=
  match cfg_FallbackChain cfg with
  | [] => p = cfg_Provider cfg /\ c = cfg_ClientOverride cfg
  | chain => exists child, child ∈ chain /\ isLegacy child = false
               /\ p = childProvider child /\ c = target child
  end.
Definition allowed (a : StreamAct V X) : Prop :=
  match a with
  | SAFrame _ => False
  | SAOracle p c _ | SANative p c _ | SASend p c => allowedTarget p c
  | SALegacy child p => child ∈ cfg_FallbackChain cfg /\ isLegacy child = true /\ p = childProvider child
  end.

Section Child.
Variable I : St -> Prop.
Hypothesis I_world : forall w s, I s -> I (setWorld w s).
Hypothesis I_heartbeat : forall s, I s -> I (sendHeartbeat s).
Hypothesis I_partial : forall p raw rs s, I s -> I (fst (trySendPartialShared p raw rs s)).
Hypothesis I_dispatch : forall a s, allowed a -> claimed a = false -> I s -> I (note a s).

Lemma stream_runCallback_inv {A} (c : Callback W A) : forall s, I s -> I (fst (runCallback c s)).
Proof.
  induction c as [w a|w k IH]; intros s Hs; simpl; [by apply I_world|].
  apply IH, I_heartbeat, I_world, Hs.
Qed.

Lemma runStreamCallback_inv {Evt A C} (f : Evt -> C -> St -> St * C * option E)
    (c : StreamCallback W Evt X A) :
  (forall ev acc s, I s -> I (fst (fst (f ev acc s)))) ->
  forall acc s, I s -> I (fst (fst (runStreamCallback f c acc s))).
Proof.
  intros Hf. induction c as [w a|w k IH|w ev k IH]; intros acc s Hs; simpl.
  - by apply I_world.
  - apply IH, I_heartbeat, I_world, Hs.
  - specialize (Hf ev acc _ (I_world w s Hs)). destruct (f ev acc _) as [[s1 acc1] err]. by apply IH.
Qed.

Lemma Delta_inv parse d acc s :
  I s -> I (fst (fst (Delta (newCadence parse) d acc s))).
Proof.
  intros Hs. destruct (Delta _ d acc s) as [[s' acc'] o] eqn:Ed.
  apply (Delta_emits _ (fun u v => I u -> I v)) in Ed as (s1&H1&He); [|done|].
  - specialize (H1 Hs). simpl. destruct (o_events o) as [|ev [|? ?]]; [by subst| |done].
    simpl in He. pose proof (I_partial (ev_Partial ev) (ev_Raw ev) (ev_Reasoning ev) s1 H1) as H2.
    by rewrite He in H2.
  - intros u v t Huv. split; [done|]. intros f Hf Hu. specialize (Huv Hu).
    destruct parse as [pf|]; [|done]. simpl in Hf. injection Hf as <-.
    destruct (pf t (world v)). by apply I_world.
Qed.

Lemma bedrockLoop_inv evs err : forall acc s, I s -> I (fst (fst (bedrockLoop evs err acc s))).
Proof.
  induction evs as [|ev evs IH]; intros acc s Hs; simpl.
  - destruct err; by apply I_world.
  - destruct (extractBedrockDelta fns ev _) as [d|e]; [|by apply I_world].
    rewrite bedrockDelta_cadence.
    pose proof (Delta_inv (parseStream fns) d acc _ (I_world (tick env (world s)) s Hs)) as H1.
    destruct (Delta _ _ _ _) as [[s1 acc1] o]. destruct (o_err o); [done|by apply IH].
Qed.

Lemma forEach_inv p body err wn : I (win_state wn) -> I (win_state (fst (forEach p body err wn))).
Proof.
  intros Hw. unfold forEach.
  match goal with |- context [ScanEvents ?a ?b ?c ?d ?e ?f ?g ?h ?i] =>
    pose proof (ScanEvents_inv a b c d e f (fun wn => I (win_state wn)) g h i) as H;
    destruct (ScanEvents a b c d e f g h i) as [wn' err'] end.
  apply H; [| |done].
  - intros u Hu. by apply I_world.
  - intros ev u Hu. unfold onEvent. destruct (extractDelta _ _ _ _) as [d|e]; [|done].
    pose proof (Delta_inv (parseStream fns) d (win_acc u) (win_state u) Hu) as H1.
    destruct (Delta _ _ _ _) as [[s1 acc1] o]. by destruct (o_err o).
Qed.

Lemma finalParse_inv acc s : I s -> I (fst (finalParse acc s)).
Proof.
  intros Hs. unfold finalParse. destruct (parseFinal _ _ _) as [w [f|e]]; [by apply I_world|].
  destruct (_ && _); by apply I_world.
Qed.

Lemma bedrock_inv c s :
  allowed (SASend "aws-bedrock" c) -> I s -> I (fst (tryOneBedrockStreamChild c s)).
Proof.
  intros Ha Hs. unfold tryOneBedrockStreamChild.
  destruct (cfg_BuildBedrockStreamRequest cfg) as [build|]; [|done].
  destruct (build _ _) as [w [req|e]]; [|by apply I_world].
  destruct (executeAWSStream _ _ _) as [w' [[evs ne]|e]]; [|by apply I_world, I_dispatch, I_world].
  match goal with |- context [bedrockLoop ?a ?b ?c ?s] =>
    assert (I (fst (fst (bedrockLoop a b c s)))) as H1
      by (by apply bedrockLoop_inv, I_heartbeat, I_world, I_dispatch, I_world);
    destruct (bedrockLoop a b c s) as [[s1 acc1] [e|]] end; [done|by apply finalParse_inv].
Qed.

Lemma tryStreamBAML_inv p c s : allowed (SASend p c) -> I s -> I (fst (tryStreamBAML p c s)).
Proof.
  intros Ha Hs. unfold tryStreamBAML. destruct (buildRequest _ _ _) as [w [req|e]]; [|by apply I_world].
  destruct (executeStreamCallback _ _ _) as [w' [[body re]|e]]; [|by apply I_world, I_dispatch, I_world].
  match goal with |- context [forEach ?a ?b ?c ?wn] =>
    assert (I (win_state (fst (forEach a b c wn)))) as H1
      by (by apply forEach_inv, I_heartbeat, I_world, I_dispatch, I_world);
    destruct (forEach a b c wn) as [wn' se] end.
  destruct (callbackErr wn'), se; try done. by apply finalParse_inv.
Qed.

Lemma EmitResolved_inv ev u s : I s -> I (fst (fst (EmitResolved ev u s))).
Proof.
  intros Hs. unfold EmitResolved. destruct (_ && _ && _); [done|].
  pose proof (I_partial (ev_Partial ev) (ev_Raw ev) (ev_Reasoning ev) s Hs) as H1.
  by destruct (trySendPartialShared _ _ _ s).
Qed.

Lemma EmitDelta_inv d acc s : I s -> I (fst (fst (EmitDelta d acc s))).
Proof.
  intros Hs. unfold EmitDelta. pose proof (Delta_inv (cfg_NativeParseStream cfg) d acc s Hs).
  by destruct (Delta _ _ _ _) as [[s1 acc1] o].
Qed.

Hypothesis I_claim : forall a s, allowed a -> claimed a = true -> I s -> I (note a s).
Hypothesis I_native : forall e s, I s -> I (setNativeWinner e s).

Lemma I_note a s : allowed a -> I s -> I (note a s).
Proof. destruct (claimed a) eqn:E; auto. Qed.

Lemma tryOracle_inv p c s : allowedTarget p c -> I s -> I (fst (tryOracle p c s)).
Proof.
  intros Ha Hs. unfold tryOracle. destruct (cfg_NativeOracleAttempt cfg) as [oracle|]; [|done].
  destruct (cfg_NativeOracleAttemptEnabled cfg); [|done]. destruct nativeInstalled; [done|].
  match goal with |- context [runStreamCallback ?f ?c ?a ?s] =>
    pose proof (runStreamCallback_inv f c EmitResolved_inv a s Hs) as H1;
    destruct (runStreamCallback f c a s) as [[s1 u] o] end.
  assert (I (note (SAOracle p c (no_Disposition o)) s1)) by (by apply I_note).
  destruct (no_Disposition o); simpl; auto.
Qed.

Lemma tryNative_inv p c s : allowedTarget p c -> I s -> I (fst (tryNative p c s)).
Proof.
  intros Ha Hs. unfold tryNative. destruct (cfg_NativeAttempt cfg) as [native|]; [|done].
  destruct (cfg_NativeAttemptEnabled cfg); [|done].
  destruct (cfg_NativeParseStream cfg) eqn:Eps; [|done].
  destruct (cfg_NativeParseFinal cfg) as [npf|]; [|done].
  match goal with |- context [runStreamCallback ?f ?c ?a ?s] =>
    pose proof (runStreamCallback_inv f c EmitDelta_inv a s Hs) as H1;
    destruct (runStreamCallback f c a s) as [[s1 acc] o] end.
  assert (I (note (SANative p c (ns_Disposition o)) s1)) by (by apply I_note).
  destruct (ns_Disposition o); simpl; auto. destruct (npf _ _) as [w [f|e]]; simpl; auto.
Qed.

Lemma tryOneStreamChild_inv p c s : allowedTarget p c -> I s -> I (fst (tryOneStreamChild p c s)).
Proof.
  intros Ha Hs. unfold tryOneStreamChild. destruct (p =s "aws-bedrock") eqn:Ep.
  { apply String.eqb_eq in Ep as ->. by apply bedrock_inv. }
  pose proof (tryOracle_inv p c s Ha Hs) as H1. destruct (tryOracle p c s) as [s1 [r|]]; [done|].
  pose proof (tryNative_inv p c s1 Ha H1) as H2. destruct (tryNative p c s1) as [s2 [r|]]; [done|].
  by apply tryStreamBAML_inv.
Qed.

Lemma stream_tryChild_inv child s :
  child ∈ cfg_FallbackChain cfg -> I s -> I (fst (fst (fst (tryChild child s)))).
Proof.
  intros Hin Hs. unfold tryChild. destruct (isLegacy child) eqn:El.
  - destruct (cfg_LegacyStreamChild cfg) as [f|]; [|done].
    match goal with |- context [runCallback ?k ?u] =>
      assert (I (fst (runCallback k u))) as H1 by (apply stream_runCallback_inv, I_dispatch; done);
      destruct (runCallback k u) as [s1 r] end; done.
  - assert (allowedTarget (childProvider child) (target child)) as Ha.
    { unfold allowedTarget. destruct (cfg_FallbackChain cfg) eqn:E; [set_solver|eauto]. }
    pose proof (tryOneStreamChild_inv _ _ s Ha Hs) as H1. by destruct (tryOneStreamChild _ _ s).
Qed.
End Child.

(** ** Invariants of the log *)

Section OnLog.
Variable P : list (StreamAct V X) -> Prop.
Hypothesis P_frame : forall f l, P l -> P (l ++ [SAFrame f]).

Lemma deliver_onlog send f s : P (log s) -> P (log (fst (deliver send f s))).
Proof.
  intros H. pose proof (stream_deliver_log send f s) as Hd. destruct (deliver send f s) as [s1 ok].
  destruct Hd as (Hl&_). simpl. rewrite Hl. destruct ok; [by apply P_frame|by rewrite app_nil_r].
Qed.

Lemma planned_onlog s : P (log s) -> P (log (emitPlannedMetadata s)).
Proof.
  intros H. unfold emitPlannedMetadata. destruct (cfg_MetadataPlan cfg); [|done].
  destruct (negb _), (plannedMetadataOnce s); try done. by apply deliver_onlog.
Qed.

Lemma heartbeat_onlog s : P (log s) -> P (log (sendHeartbeat s)).
Proof.
  intros H. apply planned_onlog. destruct (heartbeatSent s); [done|]. by apply deliver_onlog.
Qed.

Lemma partial_onlog p raw rs s : P (log s) -> P (log (fst (trySendPartialShared p raw rs s))).
Proof.
  intros H. pose proof (trySendPartialShared_log p raw rs s) as Ht.
  destruct (trySendPartialShared _ _ _ s) as [s1 e]. destruct Ht as (_&_&_&Ht). simpl.
  destruct (snd _); destruct Ht as (_&_&->); [by apply P_frame|done..].
Qed.

Lemma handoff_onlog lastErr s : P (log s) -> P (log (fst (handoff lastErr s))).
Proof.
  intros H. unfold handoff, emitReset. destruct lastErr; [|done]. destruct (_ && _); [|done].
  pose proof (deliver_onlog (offer (base env)) (FStream None "" "" true) s H) as H1.
  by destruct (deliver _ _ s) as [s1 []].
Qed.

Lemma retry_onlog i s : P (log s) -> P (log (onRetry i s)).
Proof.
  intros H. unfold onRetry, emitReset. destruct (_ && _); [|done]. by apply (deliver_onlog _ _ s).
Qed.

Lemma finish_onlog startTime c p path i res s :
  P (log s) -> P (log (fst (finish startTime c p path i res s))).
Proof.
  intros H. unfold finish, emitFinal, emitOutcomeMetadata. destruct res as [[final raw] rs].
  set (s1 := match cfg_MetadataPlan cfg with Some _ => _ | None => _ end).
  assert (P (log s1)) as H1.
  { unfold s1. destruct (cfg_MetadataPlan cfg); [|done]. destruct (cfg_NewMetadataResult cfg); [|done].
    by apply deliver_onlog. }
  pose proof (deliver_onlog (offer (base env)) (FFinal final (whenRaw raw) (whenRaw rs)) s1 H1) as H2.
  destruct (deliver _ _ s1) as [s2 []]; [done|]. by destruct (ctxDone s2).
Qed.

Hypothesis P_dispatch : forall a l, allowed a -> P l -> P (l ++ [a]).

Lemma child_onlog child s :
  child ∈ cfg_FallbackChain cfg -> P (log s) -> P (log (fst (fst (fst (tryChild child s))))).
Proof.
  intros Hin. apply (stream_tryChild_inv (fun s => P (log s)));
    auto using heartbeat_onlog, partial_onlog; intros; by apply P_dispatch.
Qed.

Lemma walkChain_onlog startTime i chain : forall lastErr s,
  (forall c, c ∈ chain -> c ∈ cfg_FallbackChain cfg) ->
  P (log s) -> P (log (fst (walkChain startTime i chain lastErr s))).
Proof.
  induction chain as [|child chain IH]; intros lastErr s Hsub Hs; simpl; [done|].
  destruct (ctxDone s); [done|].
  pose proof (handoff_onlog lastErr s Hs) as H1. destruct (handoff lastErr s) as [s1 []]; [|done].
  pose proof (child_onlog child s1 ltac:(set_solver) H1) as H2.
  destruct (tryChild child s1) as [[[s2 [res|e]] path] c]; [by apply finish_onlog|].
  destruct (isNativeStreamTerminal e); [done|]. apply IH; [set_solver|done].
Qed.

Lemma attemptFull_onlog startTime i s : P (log s) -> P (log (fst (attemptFull startTime i s))).
Proof.
  intros Hs. unfold attemptFull. destruct (cfg_FallbackChain cfg) as [|c chain] eqn:Ec.
  - assert (allowedTarget (cfg_Provider cfg) (cfg_ClientOverride cfg)) as Ha.
    { unfold allowedTarget. by rewrite Ec. }
    assert (P (log (fst (tryOneStreamChild (cfg_Provider cfg) (cfg_ClientOverride cfg) s)))) as H1.
    { apply (tryOneStreamChild_inv (fun s => P (log s)));
        auto using heartbeat_onlog, partial_onlog; intros; by apply P_dispatch. }
    destruct (tryOneStreamChild _ _ s) as [s1 [res|e]]; [by apply finish_onlog|done].
  - rewrite <- Ec. by apply walkChain_onlog.
Qed.

Lemma run_onlog w : P [] -> P (log (fst (RunStreamOrchestration w))).
Proof.
  intros H0. unfold RunStreamOrchestration.
  pose proof (planned_onlog (initState w) H0) as H1. set (s0 := emitPlannedMetadata (initState w)) in *.
  destruct validate; [done|]. set (t := now _ _).
  assert (P (log (fst (fst (runAttempts t s0))))) as H2.
  { apply (Execute_inv _ _ _ _ _ _ (fun s => P (log s))); [apply attemptFull_onlog| | |done].
    - intros f i u [= <-]. apply retry_onlog.
    - intros d u Hu. by destruct (sleep _ _ _). }
  destruct (runAttempts t s0) as [[s1 acts] [v [err|]]]; [|done].
  destruct (ctxDone s1); [done|]. by apply deliver_onlog.
Qed.
End OnLog.

(** Dispatch discipline of a stream.  Every upstream dispatch is one the
    configuration allows: without a chain, only the configured provider and
    client; with a chain, the native seams and the BuildRequest transports see
    only children that are not marked legacy, under the child's own provider and
    its fallback target, and the legacy callback sees only children marked
    legacy, under the child's chain name. *)
Theorem stream_dispatches w : Forall allowed (dispatches (log (fst (RunStreamOrchestration w)))).
Proof.
  apply (run_onlog (fun l => Forall allowed (dispatches l))); [| |constructor];
    intros a l; rewrite stream_dispatches_app, Forall_app.
  - auto using Forall_nil.
  - intros Ha Hl. split; [done|]. destruct a; [done|..]; by apply Forall_singleton.
Qed.

(** ** The frames of a run *)

(** The frames of the windows, read from the left: a reset needs a partial
    delivered since the previous reset; [dirty] tells whether there is one. *)
Fixpoint windows (dirty : bool) (l : list (Frame V X)) : option bool :=
  match l with
  | [] => Some dirty
  | FHeartbeat :: l => windows dirty l
  | FStream v raw reasoning reset :: l =>
      if reset then
        if dirty && match v with None => true | Some _ => false end && (raw =s "") && (reasoning =s "")
        then windows false l else None
      else windows true l
  | _ => None
  end.

Lemma windows_app l k : forall d, windows d (l ++ k) = windows d l ≫= fun d => windows d k.
Proof.
  induction l as [|f l IH]; intros d; [done|]. simpl.
  repeat case_match; simplify_eq; auto.
Qed.

Definition metadataFrames (f : Metadata -> Metadata) : list (Frame V X) :=
  match cfg_MetadataPlan cfg with
  | Some plan => if cfg_NewMetadataResult cfg then [FMetadata (f plan)] else []
  | None => []
  end.
Definition plannedFrames : list (Frame V X) := metadataFrames plannedOf.

(** The closing sequence of a successful window that ended in state [s]. *)
Definition closingFrames (dur : Z) (s : St) (final : option V) (raw reasoning : string)
    : list (Frame V X) :=
  metadataFrames (streamOutcome dur s) ++ [FFinal final (whenRaw raw) (whenRaw reasoning)].

(** Planned metadata is sent before anything runs, without blocking: it is lost when the
    channel has no room for it at that moment, and only then. *)
Definition plannedLost (w : W) : Prop := exists f, f ∈ plannedFrames /\ snd (tryOffer (base env) f w) = false.

(** Planned metadata has had its chance. *)
Definition plannedDone (s : St) : Prop := plannedFrames = [] \/ plannedMetadataOnce s = true.

Lemma streamPlanned_done s : plannedDone s -> emitPlannedMetadata s = s.
Proof.
  unfold plannedDone, plannedFrames, metadataFrames, emitPlannedMetadata.
  destruct (cfg_MetadataPlan cfg), (cfg_NewMetadataResult cfg); simpl; try done.
  intros [?| ->]; done.
Qed.

Lemma streamPlanned_init w :
  let s := emitPlannedMetadata (initState w) in
  plannedDone s /\ sawStreamFrame s = false
  /\ (frames (log s) = plannedFrames \/ frames (log s) = [] /\ plannedLost w) /\ dispatches (log s) = [].
Proof.
  unfold plannedLost, plannedDone, plannedFrames, metadataFrames, emitPlannedMetadata.
  destruct (cfg_MetadataPlan cfg) as [plan|]; [|by auto].
  destruct (cfg_NewMetadataResult cfg); simpl; [|by auto].
  unfold deliver. simpl. destruct (tryOffer _ _ w) as [w' []] eqn:E; simpl; [by auto|].
  split_and!; [by right|done| |done]. right. split; [done|]. exists (FMetadata (plannedOf plan)). rewrite E. split; [by left|done].
Qed.

(** A run between two frames: after the planned frames [pl] come the frames of
    the windows, and the partial flag is set only when there is one to discard. *)
Definition running (pl : list (Frame V X)) (s : St) : Prop :=
  plannedDone s /\ exists mid d, frames (log s) = pl ++ mid /\ windows false mid = Some d
    /\ (sawStreamFrame s = true -> d = true).

Lemma running_extend pl s s' f :
  running pl s -> plannedMetadataOnce s' = plannedMetadataOnce s ->
  frames (log s') = frames (log s) ++ [f] ->
  (forall d, (sawStreamFrame s = true -> d = true) ->
     exists d', windows d [f] = Some d' /\ (sawStreamFrame s' = true -> d' = true)) -> running pl s'.
Proof.
  intros [Hp (mid&d&Hf&Hw&Hd)] Ho Hl Hx. split; [unfold plannedDone in *; by rewrite Ho|].
  destruct (Hx d Hd) as (d'&Hd'&Hs). exists (mid ++ [f]), d'.
  by rewrite Hl, Hf, <- app_assoc, windows_app, Hw.
Qed.

Lemma running_same pl s s' :
  running pl s -> plannedMetadataOnce s' = plannedMetadataOnce s -> frames (log s') = frames (log s) ->
  (sawStreamFrame s' = true -> sawStreamFrame s = true) -> running pl s'.
Proof.
  intros [Hp (mid&d&Hf&Hw&Hd)] Ho Hl Hs. split; [unfold plannedDone in *; by rewrite Ho|].
  exists mid, d. rewrite Hl. auto.
Qed.

Lemma running_sendHeartbeat pl s : running pl s -> running pl (sendHeartbeat s).
Proof.
  intros Hr. unfold sendHeartbeat. destruct (heartbeatSent s).
  { rewrite streamPlanned_done; [done|apply Hr]. }
  pose proof (stream_deliver_log (tryOffer (base env)) FHeartbeat (setFlags true (sawStreamFrame s) s)) as Hd.
  destruct (deliver _ _ _) as [s1 ok]. destruct Hd as (Hl&_&Hs&Ho&_). simpl in *.
  assert (running pl s1) as H1.
  { destruct ok.
    - eapply (running_extend pl s s1 FHeartbeat); [done..|by rewrite Hl, stream_frames_app|].
      rewrite Hs. simpl. eauto.
    - rewrite app_nil_r in Hl. eapply running_same; [exact Hr|done|by rewrite Hl|by rewrite Hs]. }
  rewrite streamPlanned_done; [done|apply H1].
Qed.

Lemma running_partial pl p raw rs s : running pl s -> running pl (fst (trySendPartialShared p raw rs s)).
Proof.
  intros Hr. pose proof (trySendPartialShared_log p raw rs s) as H.
  destruct (trySendPartialShared _ _ _ s) as [s1 err]. destruct H as (_&Ho&_&H). simpl.
  destruct (snd (offerPartial _ _ _)); destruct H as (_&Hs&Hl);
    [|eapply running_same; [exact Hr|done|by rewrite Hl|by rewrite Hs]..].
  eapply running_extend; [exact Hr|done|by rewrite Hl, stream_frames_app|]. intros d _. simpl. by exists true.
Qed.

Lemma running_note pl a s : allowed a -> running pl s -> running pl (note a s).
Proof.
  intros Ha Hr. apply (running_same pl s); [done|done| |done].
  unfold note. simpl. rewrite stream_frames_app. destruct a; [done|..]; simpl; by rewrite app_nil_r.
Qed.

Lemma running_world pl w s : running pl s -> running pl (setWorld w s).
Proof. intros Hr. by apply (running_same pl s). Qed.

Section Lawful.
Context `{!LawfulStreamEnv env}.

Lemma deliver_declined f s :
  snd (deliver (offer (base env)) f s) = false -> is_Some (ctxDone (fst (deliver (offer (base env)) f s))).
Proof.
  pose proof (offer_declined (env:=env) f (world s)) as H. unfold deliver, ctxDone.
  by destruct (offer _ _ _) as [w []].
Qed.

(** A reset marker, when one is due, leaves a clean window; it is lost only to
    the context. *)
Lemma running_reset pl s : running pl s ->
  let '(s', ok) := emitReset s in
  running pl (setFlags false false s')
  /\ (ok = false -> running pl s' /\ is_Some (ctxDone s')).
Proof.
  intros Hr. unfold emitReset.
  destruct (cfg_NeedsPartials cfg && sawStreamFrame s) eqn:E.
  2:{ split; [by apply (running_same pl s)|done]. }
  apply andb_true_iff in E as [_ Es].
  pose proof (stream_deliver_log (offer (base env)) (FStream None "" "" true) s) as Hd.
  pose proof (deliver_declined (FStream None "" "" true) s) as Hc.
  destruct (deliver _ _ s) as [s1 ok]. destruct Hd as (Hl&_&Hs&Ho&_). simpl in Hc.
  destruct ok.
  - split; [|done]. eapply running_extend; [exact Hr|done|simpl; by rewrite Hl, stream_frames_app|].
    intros d Hd. rewrite (Hd Es). simpl. eauto.
  - rewrite app_nil_r in Hl. split; [apply (running_same pl s); try done; simpl; by rewrite Hl|].
    intros _. split; [|by apply Hc]. apply (running_same pl s); [done|done|by rewrite Hl|by rewrite Hs].
Qed.

(** A run whose last window succeeded, or was cut short while it delivered. *)
Definition closed (pl : list (Frame V X)) (complete : Prop) (s : St) : Prop :=
  exists mid d tl dur u final raw rs, frames (log s) = pl ++ mid ++ tl /\ windows false mid = Some d
    /\ tl `sublist_of` closingFrames dur u final raw rs
    /\ (complete -> tl = closingFrames dur u final raw rs).

(** The context is live and the consumer receives. *)
Definition receiving : Prop :=
  (forall w, ctxErr (base env) w = None) /\ (forall f w, snd (offer (base env) f w) = true).

Lemma emitFinal_closed startTime pl final raw rs s :
  running pl s ->
  let '(s', err) := emitFinal startTime final raw rs s in
  closed pl receiving s' /\ (is_Some err -> is_Some (ctxDone s')).
Proof.
  intros [_ (mid&d&Hf&Hw&_)]. unfold emitFinal, emitOutcomeMetadata.
  set (dur := Z.quot _ _).
  assert (exists s1 ml, (match cfg_MetadataPlan cfg with
      | Some plan => if cfg_NewMetadataResult cfg
          then fst (deliver (offer (base env)) (FMetadata (streamOutcome dur s plan)) s) else s
      | None => s end) = s1 /\ frames (log s1) = pl ++ mid ++ ml
      /\ ml `sublist_of` metadataFrames (streamOutcome dur s)
      /\ (receiving -> ml = metadataFrames (streamOutcome dur s))) as (s1&ml&->&Hf1&Hsub&Hall).
  { unfold metadataFrames. destruct (cfg_MetadataPlan cfg) as [plan|].
    2:{ exists s, []. rewrite app_nil_r. auto. }
    destruct (cfg_NewMetadataResult cfg).
    2:{ exists s, []. rewrite app_nil_r. auto. }
    pose proof (stream_deliver_log (offer (base env)) (FMetadata (streamOutcome dur s plan)) s) as H.
    destruct (deliver _ _ s) as [s1 ok]. destruct H as (Hl&_&_&_&_&_&Ho). simpl. exists s1.
    exists (if ok then [FMetadata (streamOutcome dur s plan)] else []).
    rewrite Hl, stream_frames_app, Hf, <- app_assoc. split_and!; [done|by destruct ok| |].
    - destruct ok; [done|by apply sublist_nil_l].
    - intros [_ Hrec]. specialize (Hrec (FMetadata (streamOutcome dur s plan)) (world s)).
      rewrite Ho in Hrec. simpl in Hrec. by subst ok. }
  pose proof (stream_deliver_log (offer (base env)) (FFinal final (whenRaw raw) (whenRaw rs)) s1) as H.
  pose proof (deliver_declined (FFinal final (whenRaw raw) (whenRaw rs)) s1) as Hc.
  destruct (deliver _ _ s1) as [s2 ok]. destruct H as (Hl&_&_&_&_&_&Ho). simpl in Hc. split.
  - exists mid, d, (ml ++ if ok then [FFinal final (whenRaw raw) (whenRaw rs)] else []), dur, s, final, raw, rs.
    rewrite Hl, stream_frames_app, Hf1, <- !app_assoc. unfold closingFrames. split_and!; [by destruct ok|done| |].
    + apply sublist_app; [done|]. destruct ok; [done|apply sublist_nil_l].
    + intros Hrec. rewrite (Hall Hrec). f_equal. destruct Hrec as [_ Hrec].
      specialize (Hrec (FFinal final (whenRaw raw) (whenRaw rs)) (world s1)).
      rewrite Ho in Hrec. simpl in Hrec. by subst ok.
  - destruct ok; [by intros [? ?]|]. intros _. by apply Hc.
Qed.

(** How an attempt may end. *)
Definition attemptPost (pl : list (Frame V X)) (s : St) (r : option V * option E) : Prop :=
  match snd r with
  | None => closed pl receiving s
  | Some _ => running pl s \/ is_Some (ctxDone s) /\ closed pl False s
  end.

Lemma finish_post startTime pl c p path i res s :
  running pl s ->
  let '(s', r) := finish startTime c p path i res s in attemptPost pl s' r.
Proof.
  intros Hr. unfold finish. destruct res as [[final raw] rs].
  assert (running pl (setWinner c p path i s)) as H1 by (by apply (running_same pl s)).
  pose proof (emitFinal_closed startTime pl final raw rs _ H1) as H2.
  destruct (emitFinal _ _ _ _ _) as [s1 [e|]]; destruct H2 as [H2 H3]; unfold attemptPost; simpl; [|done].
  right. split; [by apply H3|]. destruct H2 as (mid&d&tl&dur&u&f&ra&re&H2&H4&H5&_).
  by exists mid, d, tl, dur, u, f, ra, re.
Qed.

Lemma running_child pl child s :
  child ∈ cfg_FallbackChain cfg -> running pl s -> running pl (fst (fst (fst (tryChild child s)))).
Proof.
  intros Hin. apply (stream_tryChild_inv (running pl)); auto using running_world, running_sendHeartbeat, running_partial, running_note.
Qed.

Lemma handoff_running pl lastErr s : running pl s ->
  let '(s', ok) := handoff lastErr s in running pl s' /\ (ok = false -> is_Some (ctxDone s')).
Proof.
  intros Hr. unfold handoff. destruct lastErr; [|done]. pose proof (running_reset pl s Hr) as H.
  destruct (emitReset s) as [s1 []]; destruct H as [H1 H2]; [done|].
  by destruct (H2 eq_refl).
Qed.

Lemma walkChain_post startTime pl i chain : forall lastErr s,
  (forall c, c ∈ chain -> c ∈ cfg_FallbackChain cfg) -> (chain = [] -> is_Some lastErr) ->
  running pl s ->
  let '(s', r) := walkChain startTime i chain lastErr s in attemptPost pl s' r.
Proof.
  induction chain as [|child chain IH]; intros lastErr s Hsub Hl Hr; simpl.
  { destruct (Hl eq_refl) as [e ->]. by left. }
  destruct (ctxDone s) eqn:Ec; [by left|].
  pose proof (handoff_running pl lastErr s Hr) as H. destruct (handoff lastErr s) as [s1 ok].
  destruct H as [H1 Hok].
  destruct ok.
  2:{ unfold attemptPost. destruct (Hok eq_refl) as [e E]. rewrite E. by left. }
  pose proof (running_child pl child s1 ltac:(set_solver) H1) as H2.
  destruct (tryChild child s1) as [[[s2 r] path] c]. simpl in H2. destruct r as [res|e].
  - by apply finish_post.
  - destruct (isNativeStreamTerminal e); [by left|]. apply IH; [set_solver|eauto|done].
Qed.

Lemma attemptFull_post startTime pl i s :
  running pl s -> let '(s', r) := attemptFull startTime i s in attemptPost pl s' r.
Proof.
  intros Hr. unfold attemptFull. destruct (cfg_FallbackChain cfg) as [|c chain] eqn:Ec.
  - assert (allowedTarget (cfg_Provider cfg) (cfg_ClientOverride cfg)) as Ha.
    { unfold allowedTarget. by rewrite Ec. }
    pose proof (tryOneStreamChild_inv (running pl) (running_world pl) (running_sendHeartbeat pl)
      (running_partial pl) (fun a s Ha _ => running_note pl a s Ha) (fun a s Ha _ => running_note pl a s Ha)
      (fun e u Hu => running_same pl u (setNativeWinner e u) Hu eq_refl eq_refl (fun H => H)) _ _ s Ha Hr) as H1.
    destruct (tryOneStreamChild _ _ s) as [s1 [res|e]]; [by apply finish_post|by left].
  - rewrite <- Ec. apply walkChain_post; [done| |done]. by rewrite Ec.
Qed.

Lemma runAttempts_post startTime pl s :
  from_option MaxRetries 0 (cfg_RetryPolicy cfg) < MaxInt64 -> running pl s ->
  let '(s', _, r) := runAttempts startTime s in attemptPost pl s' r.
Proof.
  intros Hm Hr. destruct (runAttempts startTime s) as [[s' acts] r] eqn:Ex. unfold runAttempts in Ex.
  set (J := fun u (_ : E) => running pl u \/ is_Some (ctxDone u) /\ closed pl False u).
  assert (forall i u v e, running pl u -> forall u', attemptFull startTime i u = (u', (v, Some e)) -> J u' e) as HJ.
  { intros i u v e Hu u' Ha. pose proof (attemptFull_post startTime pl i u Hu) as Hp. by rewrite Ha in Hp. }
  eapply (Execute_rule _ _ _ _ _ _ (running pl) (running pl) J (attemptPost pl)); [..|exact Hm|exact Hr|exact Ex].
  - intros u e Hu _. by left.
  - intros i u u' v Hu _ Ha. pose proof (attemptFull_post startTime pl i u Hu) as Hp. by rewrite Ha in Hp.
  - intros i u u' v e Hu _ Ha _. by eapply HJ.
  - intros i u u' v e Hu _ Ha _. by eapply HJ.
  - done.
  - done.
  - intros i u e [Hu|[[? Hc] _]] Hn; [|congruence]. simpl. unfold onRetry.
    pose proof (running_reset pl u Hu) as H. destruct (emitReset u). apply H.
  - done.
  - done.
  - intros d u u' r0 Hu. cbn beta. destruct (sleep (base env) d (world u)) as [w e]. intros Hs; simplify_eq.
    destruct r0; [left|]; by apply (running_same pl u).
Qed.

(** The frames of a run with a valid configuration. *)
Lemma run_frames w :
  validate = None -> from_option MaxRetries 0 (cfg_RetryPolicy cfg) < MaxInt64 ->
  exists mid d tl, frames (log (fst (RunStreamOrchestration w)))
      = frames (log (emitPlannedMetadata (initState w))) ++ mid ++ tl
    /\ windows false mid = Some d
    /\ ((exists err, tl `prefix_of` [FError (rawFromError err) err]
           /\ (receiving -> tl = [FError (rawFromError err) err]))
        \/ exists dur s final raw reasoning, tl `sublist_of` closingFrames dur s final raw reasoning
           /\ (receiving -> tl = closingFrames dur s final raw reasoning)).
Proof.
  intros Hv Hm. unfold RunStreamOrchestration. rewrite Hv.
  destruct (streamPlanned_init w) as (Hd&Hs&_).
  set (s0 := emitPlannedMetadata (initState w)) in *. set (pl := frames (log s0)).
  assert (running pl s0) as Hr.
  { split; [done|]. exists [], false. rewrite app_nil_r. split_and!; [done..|congruence]. }
  pose proof (runAttempts_post (now (base env) (world s0)) pl s0 Hm Hr) as Hp.
  destruct (runAttempts _ s0) as [[s1 acts] [v [err|]]]; unfold attemptPost in Hp; simpl in Hp.
  - destruct Hp as [[_ (mid&d&Hf&Hw&_)]|[[e He] (mid&d&tl&dur&u&f&ra&rs&Hf&Hw&Hsub&_)]].
    + destruct (ctxDone s1) eqn:Ec; simpl.
      { exists mid, d, []. rewrite app_nil_r. split_and!; [done..|]. left. exists err.
        split; [apply prefix_nil|]. intros [Hc _]. unfold ctxDone in Ec. by rewrite Hc in Ec. }
      pose proof (stream_deliver_log (offer (base env)) (FError (rawFromError err) err) s1) as H.
      destruct (deliver _ _ s1) as [s2 ok]. destruct H as (Hl&_&_&_&_&_&Ho). simpl.
      exists mid, d, (if ok then [FError (rawFromError err) err] else []).
      rewrite Hl, stream_frames_app, Hf, <- app_assoc. split_and!; [by destruct ok|done|].
      left. exists err. split; [destruct ok; [done|apply prefix_nil]|]. intros [_ Hrec].
      specialize (Hrec (FError (rawFromError err) err) (world s1)). rewrite Ho in Hrec.
      simpl in Hrec. by subst ok.
    + rewrite He. simpl. exists mid, d, tl. split_and!; [done..|]. right.
      exists dur, u, f, ra, rs. split; [done|]. intros [Hc _]. unfold ctxDone in He. by rewrite Hc in He.
  - destruct Hp as (mid&d&tl&dur&u&f&ra&rs&Hf&Hw&Hsub&Hall). simpl. exists mid, d, tl.
    split_and!; [done..|]. right. eauto 8.
Qed.

(** C1. The protocol of a stream.  Whatever the callbacks, the transports, the
    parsers and the consumer do, the frames of a run are the planned metadata
    (once and before anything else, unless the channel had no room for it at the
    start), then the windows' heartbeats, partials and resets in any order the
    children produce (every child window may send its own heartbeat) in which
    every reset is empty and follows a partial delivered after the previous
    reset, so that a reset never counts as progress of a window that produced
    nothing; then at most one closing sequence, frames of which may be missing:
    an error frame carrying the error's raw text, or the outcome metadata and the
    final frame, in this order. *)
Theorem stream_frames w :
  from_option MaxRetries 0 (cfg_RetryPolicy cfg) < MaxInt64 ->
  exists pl mid d tl, frames (log (fst (RunStreamOrchestration w))) = pl ++ mid ++ tl
    /\ (pl = plannedFrames \/ pl = [] /\ plannedLost w) /\ windows false mid = Some d
    /\ ((exists err, tl `prefix_of` [FError (rawFromError err) err])
        \/ exists dur s final raw reasoning, tl `sublist_of` closingFrames dur s final raw reasoning).
Proof.
  intros Hm. destruct (streamPlanned_init w) as (_&_&Hpl&_).
  destruct validate as [err|] eqn:Hv.
  - unfold RunStreamOrchestration. rewrite Hv. simpl.
    exists (frames (log (emitPlannedMetadata (initState w)))), [], false, [].
    rewrite app_nil_r. split_and!; auto. left. exists err. apply prefix_nil.
  - destruct (run_frames w Hv Hm) as (mid&d&tl&Hf&Hw&Hc).
    eexists _, mid, d, tl. split_and!; [exact Hf|done|done|].
    destruct Hc as [(err&H&_)|(dur&s&f&ra&rs&H&_)]; [left; eauto|right; eauto 6].
Qed.

(** C9. Delivery of a stream.  While the context is live and the consumer
    receives, a run with a valid configuration returns nil, and its frames end with
    exactly one complete closing sequence: the error frame of the last failure, or
    the outcome metadata and the final frame.  Planned metadata comes before
    everything else; it is missing only when its send, which does not block, found
    no room in the channel. *)
Theorem stream_delivers w :
  receiving -> validate = None -> from_option MaxRetries 0 (cfg_RetryPolicy cfg) < MaxInt64 ->
  snd (RunStreamOrchestration w) = None
  /\ exists pl mid d tl, frames (log (fst (RunStreamOrchestration w))) = pl ++ mid ++ tl
       /\ (pl = plannedFrames \/ pl = [] /\ plannedLost w) /\ windows false mid = Some d
       /\ ((exists err, tl = [FError (rawFromError err) err])
           \/ exists dur s final raw reasoning, tl = closingFrames dur s final raw reasoning).
Proof.
  intros Hrec Hv Hm. split.
  { unfold RunStreamOrchestration. rewrite Hv.
    destruct (runAttempts _ _) as [[s1 acts] [v [err|]]]; [|done]. by destruct (ctxDone s1). }
  destruct (streamPlanned_init w) as (_&_&Hpl&_).
  destruct (run_frames w Hv Hm) as (mid&d&tl&Hf&Hw&Hc).
  eexists _, mid, d, tl. split_and!; [exact Hf|done|done|].
  destruct Hc as [(err&_&H)|(dur&s&f&ra&rs&_&H)]; [left|right].
  - exists err. by apply H.
  - exists dur, s, f, ra, rs. by apply H.
Qed.
End Lawful.

(** ** Ownership of the upstream *)

Definition unclaimed (s : St) : Prop := Forall (fun a => claimed a = false) (log s).

Lemma unclaimed_frame (f : Frame V X) l :
  Forall (fun a => claimed a = false) l -> Forall (fun a => claimed a = false) (l ++ [SAFrame f]).
Proof. intros H. apply Forall_app. split; [done|]. by apply Forall_singleton. Qed.

Lemma unclaimed_deliver send f s : unclaimed s -> unclaimed (fst (deliver send f s)).
Proof. by apply (deliver_onlog _ unclaimed_frame). Qed.
Lemma unclaimed_heartbeat s : unclaimed s -> unclaimed (sendHeartbeat s).
Proof. by apply (heartbeat_onlog _ unclaimed_frame). Qed.
Lemma unclaimed_partial p raw rs s : unclaimed s -> unclaimed (fst (trySendPartialShared p raw rs s)).
Proof. by apply (partial_onlog _ unclaimed_frame). Qed.
Lemma unclaimed_handoff lastErr s : unclaimed s -> unclaimed (fst (handoff lastErr s)).
Proof. by apply (handoff_onlog _ unclaimed_frame). Qed.

Lemma unclaimed_note a s : claimed a = false -> unclaimed s -> unclaimed (note a s).
Proof. intros Ha H. apply Forall_app. split; [done|by repeat constructor]. Qed.

Lemma unclaimed_world w s : unclaimed s -> unclaimed (setWorld w s).
Proof. done. Qed.

Hint Resolve unclaimed_heartbeat unclaimed_partial unclaimed_note unclaimed_world unclaimed_deliver : core.

(** The last act is the only claim. *)
Definition claimedLast (s : St) : Prop :=
  exists l a, log s = l ++ [a] /\ claimed a = true /\ Forall (fun a => claimed a = false) l.

(** A child either makes no claim, or claims as its last act and then succeeds
    or fails with a native terminal error. *)
Definition claimPost {R} (s : St) (r : R + E) : Prop :=
  unclaimed s \/ claimedLast s /\ forall e, r = inr e -> isNativeStreamTerminal e = true.

Lemma claimedLast_note a s : claimed a = true -> unclaimed s -> claimedLast (note a s).
Proof. intros Ha H. by exists (log s), a. Qed.
Hint Resolve newNativeStreamTerminalError_terminal claimedLast_note : core.

Lemma tryOracle_claim p c s : unclaimed s ->
  let '(s', r) := tryOracle p c s in
  match r with None => unclaimed s' | Some r => claimPost s' r end.
Proof.
  intros Hs. unfold tryOracle. destruct (cfg_NativeOracleAttempt cfg) as [oracle|]; [|done].
  destruct (cfg_NativeOracleAttemptEnabled cfg); [|done]. destruct nativeInstalled; [by left|].
  match goal with |- context [runStreamCallback ?f ?c ?a ?s] =>
    pose proof (runStreamCallback_inv unclaimed unclaimed_world unclaimed_heartbeat f c
      (EmitResolved_inv unclaimed unclaimed_partial) a s Hs) as H1;
    destruct (runStreamCallback f c a s) as [[s1 u] o] end. simpl in H1.
  destruct (no_Disposition o); auto; right; (split; [by apply (claimedLast_note (SAOracle p c _))|]);
    intros e [= <-]; auto.
Qed.

Lemma tryNative_claim p c s : unclaimed s ->
  let '(s', r) := tryNative p c s in
  match r with None => unclaimed s' | Some r => claimPost s' r end.
Proof.
  intros Hs. unfold tryNative. destruct (cfg_NativeAttempt cfg) as [native|]; [|done].
  destruct (cfg_NativeAttemptEnabled cfg); [|done].
  destruct (cfg_NativeParseStream cfg) eqn:Eps; [|by left].
  destruct (cfg_NativeParseFinal cfg) as [npf|]; [|by left].
  match goal with |- context [runStreamCallback ?f ?c ?a ?s] =>
    pose proof (runStreamCallback_inv unclaimed unclaimed_world unclaimed_heartbeat f c
      (EmitDelta_inv unclaimed unclaimed_world unclaimed_partial) a s Hs) as H1;
    destruct (runStreamCallback f c a s) as [[s1 acc] o] end. simpl in H1.
  destruct (ns_Disposition o); auto.
  2,3: right; (split; [by apply (claimedLast_note (SANative p c _))|]); intros e [= <-]; auto.
  destruct (npf _ _) as [w [f|e]]; right; (split; [by apply (claimedLast_note (SANative p c _))|]);
    [done|]; intros e' [= <-]; auto.
Qed.

Lemma tryOneStreamChild_claim p c s : allowedTarget p c -> unclaimed s ->
  let '(s', r) := tryOneStreamChild p c s in claimPost s' r.
Proof.
  intros Ha Hs. unfold tryOneStreamChild. destruct (p =s "aws-bedrock") eqn:Ep.
  { apply String.eqb_eq in Ep as ->.
    pose proof (bedrock_inv unclaimed unclaimed_world unclaimed_heartbeat unclaimed_partial
      (fun a s _ => unclaimed_note a s) c s Ha Hs) as H. destruct (tryOneBedrockStreamChild c s). by left. }
  pose proof (tryOracle_claim p c s Hs) as H1. destruct (tryOracle p c s) as [s1 [r|]]; [done|].
  pose proof (tryNative_claim p c s1 H1) as H2. destruct (tryNative p c s1) as [s2 [r|]]; [done|].
  pose proof (tryStreamBAML_inv unclaimed unclaimed_world unclaimed_heartbeat unclaimed_partial
      (fun a s _ => unclaimed_note a s) p c s2 Ha H2) as H. destruct (tryStreamBAML p c s2). by left.
Qed.

Lemma tryChild_claim child s : child ∈ cfg_FallbackChain cfg -> unclaimed s ->
  let '(s', r, _, _) := tryChild child s in claimPost s' r.
Proof.
  intros Hin Hs. unfold tryChild. destruct (isLegacy child) eqn:El.
  - destruct (cfg_LegacyStreamChild cfg) as [f|]; [|by left].
    match goal with |- context [runCallback ?k ?u] =>
      assert (unclaimed (fst (runCallback k u))) as H1
        by (apply stream_runCallback_inv; auto); destruct (runCallback k u) as [s1 r] end. by left.
  - assert (allowedTarget (childProvider child) (target child)) as Ha.
    { unfold allowedTarget. destruct (cfg_FallbackChain cfg) eqn:E; [set_solver|eauto]. }
    pose proof (tryOneStreamChild_claim _ _ s Ha Hs) as H1. by destruct (tryOneStreamChild _ _ s).
Qed.

(** The frames that close a run. *)
Definition isClosing (a : StreamAct V X) : bool :=
  match a with SAFrame (FMetadata _) | SAFrame (FError _ _) | SAFrame (FFinal _ _ _) => true | _ => false end.

(** At most one claim, followed by closing frames only. *)
Definition owned (s : St) : Prop :=
  unclaimed s \/ exists l a post, log s = l ++ a :: post /\ claimed a = true
    /\ Forall (fun a => claimed a = false) l /\ Forall (fun a => isClosing a = true) post.

Lemma owned_deliver send f s :
  isClosing (SAFrame f) = true -> owned s -> owned (fst (deliver send f s)).
Proof.
  intros Hf [H|(l&a&post&Hl&Ha&Hp&Hq)]; [left; by apply unclaimed_deliver|right].
  pose proof (stream_deliver_log send f s) as Hd. destruct (deliver send f s) as [s1 ok]. destruct Hd as (Hl'&_).
  exists l, a, (post ++ if ok then [SAFrame f] else []). simpl. rewrite Hl', Hl, <- app_assoc.
  split_and!; [done..|]. apply Forall_app. split; [done|]. destruct ok; by repeat constructor.
Qed.

Lemma claimPost_owned {R} s (r : R + E) : claimPost s r -> owned s.
Proof. intros [H|[(l&a&Hl&Ha&Hp) _]]; [by left|right]. by exists l, a, []. Qed.

(** Between two attempts nothing is claimed, unless the context is done. *)
Definition retriable (s : St) : Prop := unclaimed s \/ owned s /\ is_Some (ctxDone s).

Definition ownedPost (s : St) (r : option V * option E) : Prop :=
  owned s /\ forall e, snd r = Some e -> isNativeStreamTerminal e = false -> retriable s.

Lemma finish_owned startTime c p path i res s :
  owned s -> let '(s', r) := finish startTime c p path i res s in ownedPost s' r.
Proof.
  intros Hs. unfold finish, emitFinal, emitOutcomeMetadata. destruct res as [[final raw] rs].
  set (s1 := match cfg_MetadataPlan cfg with Some _ => _ | None => _ end).
  assert (owned s1) as H1.
  { unfold s1. destruct (cfg_MetadataPlan cfg); [|done]. destruct (cfg_NewMetadataResult cfg); [|done].
    by apply owned_deliver. }
  pose proof (owned_deliver (offer (base env)) (FFinal final (whenRaw raw) (whenRaw rs)) s1 eq_refl H1) as H2.
  destruct (deliver _ _ s1) as [s2 []]; simpl in H2; [by split|].
  destruct (ctxDone s2) eqn:Ec; (split; [done|]); [|done]. intros e' _ _. right. rewrite Ec. eauto.
Qed.

Lemma unclaimed_owned s r : unclaimed s -> ownedPost s r.
Proof. intros H. split; [by left|]. intros. by left. Qed.

Lemma failed_owned {R} s (v : option V) e :
  claimPost (R:=R) s (inr e) -> ownedPost s (v, Some e).
Proof.
  intros H. split; [by eapply claimPost_owned|]. intros e' [= <-] Ht.
  destruct H as [H|[_ H]]; [by left|]. specialize (H e eq_refl). congruence.
Qed.

Lemma walkChain_owned startTime i chain : forall lastErr s,
  (forall c, c ∈ chain -> c ∈ cfg_FallbackChain cfg) -> unclaimed s ->
  let '(s', r) := walkChain startTime i chain lastErr s in ownedPost s' r.
Proof.
  induction chain as [|child chain IH]; intros lastErr s Hsub Hs; simpl.
  { by apply unclaimed_owned. }
  destruct (ctxDone s); [by apply unclaimed_owned|].
  pose proof (unclaimed_handoff lastErr s Hs) as H1. destruct (handoff lastErr s) as [s1 []].
  2:{ by apply unclaimed_owned. }
  pose proof (tryChild_claim child s1 ltac:(set_solver) H1) as H2.
  destruct (tryChild child s1) as [[[s2 r] path] c]. destruct r as [res|e].
  - apply finish_owned. by eapply claimPost_owned.
  - destruct (isNativeStreamTerminal e) eqn:Et; [by eapply failed_owned|].
    apply IH; [set_solver|]. destruct H2 as [H2|[_ H2]]; [done|]. specialize (H2 e eq_refl). congruence.
Qed.

Lemma attemptFull_owned startTime i s :
  unclaimed s -> let '(s', r) := attemptFull startTime i s in ownedPost s' r.
Proof.
  intros Hs. unfold attemptFull. destruct (cfg_FallbackChain cfg) as [|c chain] eqn:Ec.
  - assert (allowedTarget (cfg_Provider cfg) (cfg_ClientOverride cfg)) as Ha.
    { unfold allowedTarget. by rewrite Ec. }
    pose proof (tryOneStreamChild_claim _ _ s Ha Hs) as H1.
    destruct (tryOneStreamChild _ _ s) as [s1 [res|e]].
    + apply finish_owned. by eapply claimPost_owned.
    + by eapply failed_owned.
  - rewrite <- Ec. by apply walkChain_owned.
Qed.

(** A marked element of a list whose other elements are not marked. *)
Lemma mark_unique {A} (f : A -> bool) (l pre : list A) (b a : A) (k post : list A) :
  Forall (fun x => f x = false) l -> Forall (fun x => f x = false) k -> f a = true ->
  pre ++ a :: post = l ++ b :: k -> post = k.
Proof.
  intros Hl Hk Ha. revert pre. induction Hl as [|x l Hx Hl IH]; intros pre H; simpl in H.
  - destruct pre as [|y pre]; simplify_eq/=; [done|].
    apply Forall_app in Hk as [_ [Hk _]%Forall_cons]. congruence.
  - destruct pre as [|y pre]; simplify_eq/=; [congruence|]. by apply (IH pre).
Qed.

(** C2. No replay after a claim.  Once a native stream callback has returned
    anything but a decline, nothing else is dispatched in the run (no BAML send,
    no legacy child, no other native attempt, no retry), and neither heartbeats,
    partials nor resets follow: only the closing frames do. *)
Theorem no_replay_after_claim w pre a post :
  from_option MaxRetries 0 (cfg_RetryPolicy cfg) < MaxInt64 ->
  log (fst (RunStreamOrchestration w)) = pre ++ a :: post -> claimed a = true ->
  Forall (fun a => isClosing a = true) post.
Proof.
  intros Hm Hlog Hcl.
  assert (owned (fst (RunStreamOrchestration w))) as Ho.
  { unfold RunStreamOrchestration.
    assert (unclaimed (emitPlannedMetadata (initState w))) as H0.
    { by apply (planned_onlog _ unclaimed_frame). }
    set (s0 := emitPlannedMetadata (initState w)) in *. destruct validate; [by left|].
    set (t := now _ _).
    assert (owned (fst (fst (runAttempts t s0)))) as H1.
    { destruct (runAttempts t s0) as [[s1 acts] r] eqn:Ex. unfold runAttempts in Ex.
      eapply (Execute_rule _ _ _ _ _ _ unclaimed unclaimed (fun u _ => retriable u) (fun u _ => owned u));
        [..|exact Hm|exact H0|exact Ex].
      - intros u e Hu _. by left.
      - intros i u u' v Hu _ Ha. pose proof (attemptFull_owned t i u Hu) as Hp. rewrite Ha in Hp. apply Hp.
      - intros i u u' v e Hu _ Ha _. pose proof (attemptFull_owned t i u Hu) as Hp. rewrite Ha in Hp. apply Hp.
      - intros i u u' v e Hu _ Ha Ht. pose proof (attemptFull_owned t i u Hu) as Hp. rewrite Ha in Hp.
        destruct Hp as [_ Hp]. apply (Hp e eq_refl). destruct (isNativeStreamTerminal e) eqn:En; [|done].
        by rewrite (native_terminal_isTerminal _ _ En) in Ht.
      - intros u e0 [?|[? _]]; [by left|done].
      - intros u e0 e1 [?|[? _]] _; [by left|done].
      - intros i u e [Hu|[_ [? Hc]]] Hn; [|congruence]. by apply (retry_onlog _ unclaimed_frame i u).
      - done.
      - done.
      - intros d u u' r0 Hu. cbn beta. destruct (sleep (base env) d (world u)) as [x e]. intros Hs; simplify_eq.
        destruct r0; [left|]; done. }
    destruct (runAttempts t s0) as [[s1 acts] [v [err|]]]; [|done].
    destruct (ctxDone s1); [done|]. by apply owned_deliver. }
  destruct Ho as [Hu|(l&b&post'&Hl&Hb&Hpre&Hpost)].
  { unfold unclaimed in Hu. rewrite Hlog in Hu. apply Forall_app in Hu as [_ Hu].
    apply Forall_cons in Hu as [Hu _]. congruence. }
  rewrite Hlog in Hl. rewrite (mark_unique claimed l pre b a post' post); [done|done| |done|done].
  eapply Forall_impl; [exact Hpost|]. intros x. by destruct x as [[]| | | |].
Qed.


(** ** What the consumer can reconstruct *)

(** The raw and reasoning texts of the partials since the last reset. *)
Definition pendingStep (acc : list (string * string)) (f : Frame V X) : list (string * string) :=
  match f with
  | FStream _ raw reasoning reset => if reset then [] else acc ++ [(raw, reasoning)]
  | _ => acc
  end.
Definition pending (l : list (Frame V X)) : list (string * string) := foldl pendingStep [] l.
Definition texts (l : list (string * string)) : string * string := (cat (fst <$> l), cat (snd <$> l)).

Lemma pending_snoc l f : pending (l ++ [f]) = pendingStep (pending l) f.
Proof. unfold pending. by rewrite foldl_app. Qed.

Lemma texts_snoc l raw rs : texts (l ++ [(raw, rs)]) = ((texts l).1 +:+ raw, (texts l).2 +:+ rs).
Proof. unfold texts. rewrite !fmap_app, !cat_app. simpl. by rewrite !sapp_nil_r. Qed.

Definition pendingOf (s : St) : list (string * string) := pending (frames (log s)).
Definition noFinal (s : St) : Prop := forall v raw rs, FFinal v raw rs ∉ frames (log s).

Lemma noFinal_snoc (l : list (Frame V X)) f :
  match f with FFinal _ _ _ => False | _ => True end ->
  (forall v raw rs, FFinal v raw rs ∉ l) -> forall v raw rs, FFinal v raw rs ∉ l ++ [f].
Proof. intros Hf Hl v raw rs [?|<-%list_elem_of_singleton]%elem_of_app; [by eapply Hl|done]. Qed.

(** Inside a window: an unset flag means there is nothing to discard. *)
Definition synced (s : St) : Prop := noFinal s /\ (sawStreamFrame s = false -> pendingOf s = []).
(** A window and the texts it accumulated. *)
Definition matched (acc : Acc) (s : St) : Prop :=
  synced s /\ texts (pendingOf s) = (acc_raw acc, acc_reasoning acc).

(** A callback that emits nothing when it declines (the code asks this of every
    native callback: a decline opens no socket and emits no delta). *)
Fixpoint silentDecline {Evt A} (dispositionOf : A -> NativeStreamDisposition)
    (emitted : bool) (c : StreamCallback W Evt X A) : Prop :=
  match c with
  | SDone _ a => emitted = true -> dispositionOf a <> NativeStreamDeclined
  | SBeat _ k => forall w, silentDecline dispositionOf emitted (k w)
  | SEmit _ _ k => forall w err, silentDecline dispositionOf true (k w err)
  end.

(** Steps that deliver no partial, no reset and no final. *)
Definition quiet (s s' : St) : Prop :=
  pendingOf s' = pendingOf s /\ sawStreamFrame s' = sawStreamFrame s /\ (noFinal s -> noFinal s').

Lemma quiet_synced s s' : quiet s s' -> synced s -> synced s'.
Proof. intros (Hp&Hs&Hn) [H1 H2]. split; [auto|]. by rewrite Hp, Hs. Qed.
Lemma quiet_matched acc s s' : quiet s s' -> matched acc s -> matched acc s'.
Proof. intros Hq [H1 H2]. split; [by eapply quiet_synced|]. by rewrite (proj1 Hq). Qed.
Lemma quiet_refl s : quiet s s.
Proof. done. Qed.
Lemma quiet_trans s1 s2 s3 : quiet s1 s2 -> quiet s2 s3 -> quiet s1 s3.
Proof. intros (?&?&?) (?&?&?). split_and!; [congruence|congruence|auto]. Qed.
Lemma quiet_world w s : quiet s (setWorld w s).
Proof. done. Qed.
Lemma quiet_note a s : isDispatch a = true -> quiet s (note a s).
Proof.
  intros Ha. unfold quiet, pendingOf, noFinal, note. simpl. rewrite stream_frames_app.
  destruct a; [done|..]; simpl; by rewrite app_nil_r.
Qed.

Lemma quiet_deliver send f s :
  match f with FHeartbeat | FMetadata _ => True | _ => False end -> quiet s (fst (deliver send f s)).
Proof.
  intros Hf. pose proof (stream_deliver_log send f s) as Hd. destruct (deliver send f s) as [s1 ok].
  destruct Hd as (Hl&_&Hs&_). unfold quiet, pendingOf, noFinal. simpl. rewrite Hl, stream_frames_app.
  destruct ok; simpl; [|by rewrite app_nil_r]. rewrite pending_snoc.
  split_and!; [by destruct f|done|]. intros Hn. apply noFinal_snoc; [|done]. by destruct f.
Qed.

Lemma quiet_heartbeat s : quiet s (sendHeartbeat s).
Proof.
  assert (forall u, quiet u (emitPlannedMetadata u)) as He.
  { intros u. unfold emitPlannedMetadata. destruct (cfg_MetadataPlan cfg); [|done].
    destruct (negb _), (plannedMetadataOnce u); try done. by apply (quiet_deliver _ _ (setPlannedOnce u)). }
  unfold sendHeartbeat. eapply quiet_trans; [|apply He]. destruct (heartbeatSent s); [done|].
  by apply (quiet_deliver _ _ (setFlags true (sawStreamFrame s) s)).
Qed.
Hint Resolve quiet_refl quiet_world quiet_note quiet_heartbeat : core.

Lemma quiet_callback {A} (c : Callback W A) : forall s, quiet s (fst (runCallback c s)).
Proof.
  induction c as [w a|w k IH]; intros s; simpl; [done|].
  eapply quiet_trans; [|apply IH]. eapply quiet_trans; [apply (quiet_world w)|done].
Qed.

Section Reconstruct.
Context `{!LawfulStreamEnv env}.
Hypothesis wants_partials : cfg_NeedsPartials cfg = true.
Hypothesis wants_raw : cfg_NeedsRaw cfg = true.
Hypothesis keeps_up : forall f w, snd (offerPartial env f w) = Sent.
Hypothesis no_oracle : oracleInstalled = false.
Hypothesis declines_silently : forall native attempt w,
  cfg_NativeAttempt cfg = Some native -> silentDecline ns_Disposition false (native attempt w).

(** A delta of a window delivers exactly its raw and reasoning texts. *)
Lemma matched_Delta parse d acc s :
  matched acc s ->
  let '(s', acc', o) := Delta (newCadence parse) d acc s in o_err o = None /\ matched acc' s'.
Proof.
  intros [[Hn Hs] Ht]. destruct (Delta _ d acc s) as [[s' acc'] o] eqn:Ed.
  pose proof (Delta_accumulates _ _ _ _ _ _ _ Ed) as (_&Ar&Ag).
  pose proof (Delta_events _ _ _ _ _ _ _ Ed) as (_&_&Hev). specialize (Hev wants_raw wants_partials).
  assert (o_err o = None) as Ho.
  { destruct (o_err o) as [e|] eqn:Eo; [|done].
    destruct (Delta_error _ _ _ _ _ _ _ _ Ed Eo) as [(ev&u&_&H)|[? _]]; [|done]. simpl in H.
    unfold trySendPartialShared in H. specialize (keeps_up (FStream (ev_Partial ev) (ev_Raw ev) (ev_Reasoning ev) false) (world u)).
    by destruct (offerPartial _ _ _) as [w []]. }
  split; [done|]. destruct (Hev (or_introl Ho)) as [Hr Hg]. clear Hev.
  apply (Delta_emits _ quiet) in Ed as (s1&(Hp1&Hs1&Hn1)&He); [|done|].
  - unfold matched. rewrite Ar, Ag, <- Hr, <- Hg. destruct (o_events o) as [|ev [|? ?]]; [| |done].
    + subst s'. simpl. rewrite !sapp_nil_r. by apply (quiet_matched acc s s1).
    + simpl in He |- *. pose proof (trySendPartialShared_log (ev_Partial ev) (ev_Raw ev) (ev_Reasoning ev) s1) as H.
      rewrite He, keeps_up in H. destruct H as (_&_&_&_&Hsaw&Hl).
      unfold synced, noFinal, pendingOf. rewrite Hl, stream_frames_app. simpl. rewrite pending_snoc. simpl.
      fold (pendingOf s1). rewrite Hp1, texts_snoc, Ht, !sapp_nil_r. split; [|done].
      split; [|congruence]. by apply noFinal_snoc, Hn1.
  - intros u v t Huv. split; [done|]. intros f Hf. destruct parse as [pf|]; [|done]. simpl in Hf.
    injection Hf as <-. destruct (pf t (world v)). by eapply quiet_trans.
Qed.

(** What a child attempt leaves behind. *)
Definition childMatch (s : St) (r : childResult) : Prop :=
  synced s /\ forall f raw rs, r = inl (f, raw, rs) -> texts (pendingOf s) = (raw, rs).

Lemma childMatch_err s e : synced s -> childMatch s (inr e).
Proof. by split. Qed.

Lemma finalParse_match acc s :
  matched acc s -> let '(s', r) := finalParse acc s in childMatch s' r.
Proof.
  intros H. unfold finalParse. destruct (parseFinal _ _ _) as [w r].
  destruct (quiet_matched acc s (setWorld w s) (quiet_world w s) H) as [H1 Ht].
  destruct r as [f|e]; [|destruct (_ && _)]; (split; [done|]); intros; by simplify_eq.
Qed.

Lemma bedrockLoop_match evs err : forall acc s,
  matched acc s ->
  let '(s', acc', e) := bedrockLoop evs err acc s in synced s' /\ (e = None -> matched acc' s').
Proof.
  induction evs as [|ev evs IH]; intros acc s Hs; simpl.
  - destruct err; (split; [apply Hs|done]).
  - destruct (extractBedrockDelta fns ev _) as [d|e]; [|split; [apply Hs|done]].
    rewrite bedrockDelta_cadence.
    pose proof (matched_Delta (parseStream fns) d acc (setWorld (tick env (world s)) s) Hs) as H1.
    destruct (Delta _ _ _ _) as [[s1 acc1] o]. destruct H1 as [-> H1]. by apply IH.
Qed.

Lemma forEach_match p body err wn :
  matched (win_acc wn) (win_state wn) ->
  let '(wn', _) := forEach p body err wn in matched (win_acc wn') (win_state wn').
Proof.
  intros Hw. unfold forEach.
  match goal with |- context [ScanEvents ?a ?b ?c ?d ?e ?f ?g ?h ?i] =>
    pose proof (ScanEvents_inv a b c d e f (fun wn => matched (win_acc wn) (win_state wn)) g h i) as H;
    destruct (ScanEvents a b c d e f g h i) as [wn' err'] end.
  apply H; [by intros u Hu| |done]. intros ev u Hu. unfold onEvent.
  destruct (extractDelta _ _ _ _) as [d|e]; [|done].
  pose proof (matched_Delta (parseStream fns) d (win_acc u) (win_state u) Hu) as H1.
  destruct (Delta _ _ _ _) as [[s1 acc1] o]. by destruct H1 as [-> H1].
Qed.

(** A window starts with nothing to discard. *)
Definition clean (s : St) : Prop := noFinal s /\ pendingOf s = [].
Lemma clean_matched s : clean s -> matched newAccumulator s.
Proof. intros [Hn Hp]. split; [by split|]. by rewrite Hp. Qed.
Lemma quiet_clean s s' : quiet s s' -> clean s -> clean s'.
Proof. intros (Hp&_&Hn) [? ?]. split; [auto|congruence]. Qed.
Lemma clean_synced s : clean s -> synced s.
Proof. by intros [? ?]. Qed.
Hint Resolve clean_synced : core.

Lemma clean_dispatch a w w' s :
  isDispatch a = true -> clean s -> clean (setWorld w' (note a (setWorld w s))).
Proof.
  intros Ha. apply quiet_clean. eapply quiet_trans; [apply (quiet_world w)|].
  by eapply quiet_trans; [apply (quiet_note a)|apply quiet_world].
Qed.
Lemma clean_heartbeat s : clean s -> clean (sendHeartbeat s).
Proof. apply quiet_clean, quiet_heartbeat. Qed.

Lemma bedrock_match c s : clean s -> let '(s', r) := tryOneBedrockStreamChild c s in childMatch s' r.
Proof.
  intros Hs. unfold tryOneBedrockStreamChild.
  destruct (cfg_BuildBedrockStreamRequest cfg) as [build|]; [|by apply childMatch_err, clean_synced].
  destruct (build _ _) as [w [req|e]]; [|by apply childMatch_err, clean_synced].
  destruct (executeAWSStream _ _ _) as [w' [[evs ne]|e]].
  2:{ by apply childMatch_err, clean_synced, clean_dispatch. }
  match goal with |- context [bedrockLoop ?a ?b ?c ?u] =>
    pose proof (bedrockLoop_match a b c u) as H1; destruct (bedrockLoop a b c u) as [[s1 acc1] e1] end.
  destruct H1 as [H1 H2].
  { by apply clean_matched, clean_heartbeat, clean_dispatch. }
  destruct e1 as [e|]; [by apply childMatch_err|]. by apply finalParse_match, H2.
Qed.

Lemma baml_match p c s : clean s -> let '(s', r) := tryStreamBAML p c s in childMatch s' r.
Proof.
  intros Hs. unfold tryStreamBAML.
  destruct (buildRequest _ _ _) as [w [req|e]]; [|by apply childMatch_err, clean_synced].
  destruct (executeStreamCallback _ _ _) as [w' [[body ne]|e]].
  2:{ by apply childMatch_err, clean_synced, clean_dispatch. }
  match goal with |- context [forEach ?a ?b ?c ?u] =>
    pose proof (forEach_match a b c u) as H1; destruct (forEach a b c u) as [wn se] end.
  assert (matched (win_acc wn) (win_state wn)) as H2.
  { by apply H1, clean_matched, clean_heartbeat, clean_dispatch. }
  destruct (callbackErr wn); [by apply childMatch_err, H2|].
  destruct se; [by apply childMatch_err, H2|]. by apply finalParse_match.
Qed.

(** The native callback: its deltas match what it accumulated, and a decline
    leaves the window clean. *)
Lemma nativeCallback_match {A} (disp : A -> NativeStreamDisposition) (c : StreamCallback W delta X A) :
  forall b acc s, silentDecline disp b c -> matched acc s -> (b = false -> clean s) ->
  let '(s', acc', a) := runStreamCallback EmitDelta c acc s in
  matched acc' s' /\ (disp a = NativeStreamDeclined -> clean s').
Proof.
  induction c as [w a|w k IH|w d k IH]; intros b acc s Hd Hm Hb; simpl in Hd |- *.
  - split; [done|]. intros Ha. destruct b; [by destruct (Hd eq_refl)|]. by apply Hb.
  - apply (IH _ b); [apply Hd| |].
    + eapply quiet_matched; [|exact Hm]. eapply quiet_trans; [apply (quiet_world w)|apply quiet_heartbeat].
    + intros E. eapply quiet_clean; [|by apply Hb]. eapply quiet_trans; [apply (quiet_world w)|done].
  - pose proof (matched_Delta (cfg_NativeParseStream cfg) d acc (setWorld w s) Hm) as H1.
    unfold EmitDelta. destruct (Delta _ _ _ _) as [[s1 acc1] o]. destruct H1 as [_ H1].
    by apply (IH _ _ true).
Qed.

Lemma tryNative_match p c s : clean s ->
  let '(s', r) := tryNative p c s in
  match r with None => clean s' | Some r => childMatch s' r end.
Proof.
  intros Hs. pose proof declines_silently as Hsilent. unfold tryNative.
  destruct (cfg_NativeAttempt cfg) as [native|] eqn:En; [|done].
  destruct (cfg_NativeAttemptEnabled cfg); [|done].
  destruct (cfg_NativeParseStream cfg) eqn:Eps; [|by apply childMatch_err, clean_synced].
  destruct (cfg_NativeParseFinal cfg) as [npf|]; [|by apply childMatch_err, clean_synced].
  match goal with |- context [runStreamCallback EmitDelta (native ?a ?w) newAccumulator s] =>
    pose proof (nativeCallback_match ns_Disposition (native a w) false newAccumulator s
      (Hsilent native a w eq_refl) (clean_matched s Hs) (fun _ => Hs)) as H1;
    destruct (runStreamCallback EmitDelta (native a w) newAccumulator s) as [[s1 acc] o] end.
  clear Hsilent. destruct H1 as [H1 H2].
  assert (quiet s1 (note (SANative p c (ns_Disposition o)) s1)) as Hq by (by apply quiet_note).
  apply (quiet_matched _ _ _ Hq) in H1. destruct (ns_Disposition o).
  - eapply quiet_clean; [exact Hq|auto].
  - destruct (npf _ _) as [w [f|e]]; [|apply childMatch_err, H1].
    split; [apply H1|]. intros f' raw rs [= <- <- <-]. apply H1.
  - apply childMatch_err, H1.
  - apply childMatch_err, H1.
Qed.

Lemma tryOneStreamChild_match p c s : clean s ->
  let '(s', r) := tryOneStreamChild p c s in childMatch s' r.
Proof.
  intros Hs. unfold tryOneStreamChild. destruct (p =s "aws-bedrock"); [by apply bedrock_match|].
  assert (tryOracle p c s = (s, None)) as ->.
  { pose proof no_oracle as Hno. unfold tryOracle, oracleInstalled in *.
    destruct (cfg_NativeOracleAttempt cfg); [|done]. by destruct (cfg_NativeOracleAttemptEnabled cfg). }
  pose proof (tryNative_match p c s Hs) as H1. destruct (tryNative p c s) as [s1 [r|]]; [done|].
  by apply baml_match.
Qed.

(** What a delivered final says of the partials before it. *)
Definition explained (s : St) : Prop :=
  forall v raw rs, FFinal v raw rs ∈ frames (log s) ->
    (winnerPath s = "buildrequest" /\ texts (pendingOf s) = (raw, rs))
    \/ (winnerPath s = "legacy" /\ pendingOf s = []).

Definition attemptMatch (s : St) (r : option V * option E) : Prop :=
  match snd r with Some _ => synced s | None => explained s end.

Lemma finish_match startTime c p path i final raw rs s :
  synced s ->
  (path = "buildrequest" /\ texts (pendingOf s) = (raw, rs)) \/ (path = "legacy" /\ pendingOf s = []) ->
  let '(s', r) := finish startTime c p path i (final, raw, rs) s in attemptMatch s' r.
Proof.
  intros Hs Hp. unfold finish, emitFinal, emitOutcomeMetadata, whenRaw. rewrite wants_raw.
  assert (quiet s (setWinner c p path i s)) as Hq0 by done.
  set (s0 := setWinner c p path i s) in *.
  set (s1 := match cfg_MetadataPlan cfg with Some _ => _ | None => _ end).
  assert (quiet s0 s1 /\ winnerPath s1 = path) as [Hq Hw].
  { unfold s1. destruct (cfg_MetadataPlan cfg); [|done]. destruct (cfg_NewMetadataResult cfg); [|done].
    split; [by apply quiet_deliver|].
    match goal with |- context [deliver ?a ?b s0] =>
      pose proof (stream_deliver_log a b s0) as H; destruct (deliver a b s0) as [u ok] end.
    by destruct H as (_&_&_&_&_&H&_). }
  pose proof (quiet_synced _ _ (quiet_trans _ _ _ Hq0 Hq) Hs) as H1.
  pose proof (proj1 (quiet_trans _ _ _ Hq0 Hq)) as Hpend. clearbody s1. clear Hq Hq0 s0.
  pose proof (stream_deliver_log (offer (base env)) (FFinal final raw rs) s1) as H.
  destruct (deliver _ _ s1) as [s2 ok]. destruct H as (Hl&_&Hsaw&_&_&Hwp&_).
  assert (pendingOf s2 = pendingOf s) as Hp2.
  { unfold pendingOf in *. rewrite Hl, stream_frames_app. destruct ok; simpl; by rewrite ?app_nil_r, ?pending_snoc. }
  assert (ok = true -> explained s2) as Hex.
  { intros ->. intros v raw' rs'. rewrite Hl, stream_frames_app. simpl. rewrite Hwp, Hw, Hp2.
    intros [Hin|Hin%list_elem_of_singleton]%elem_of_app; [by destruct (proj1 H1 v raw' rs')|by simplify_eq]. }
  destruct ok; [by apply Hex|]. rewrite app_nil_r in Hl.
  assert (noFinal s2) as Hn by (unfold noFinal; rewrite Hl; apply H1).
  destruct (ctxDone s2); unfold attemptMatch; simpl.
  - split; [done|]. rewrite Hsaw, Hp2, <- Hpend. apply H1.
  - intros v raw' rs' Hin. by destruct (Hn v raw' rs').
Qed.

Lemma emitReset_clean s : synced s ->
  let '(s', ok) := emitReset s in
  if ok then clean (setFlags false false s') else synced s' /\ noFinal s' /\ is_Some (ctxDone s').
Proof.
  intros [Hn Hs]. unfold emitReset. rewrite wants_partials. simpl.
  destruct (sawStreamFrame s) eqn:Esaw; [|by split; [|apply Hs]].
  pose proof (stream_deliver_log (offer (base env)) (FStream None "" "" true) s) as Hd.
  pose proof (deliver_declined (FStream None "" "" true) s) as Hc.
  destruct (deliver _ _ s) as [s1 ok]. destruct Hd as (Hl&_&Hsaw&_). simpl in Hc. destruct ok.
  - unfold clean, noFinal, pendingOf. simpl. rewrite Hl, stream_frames_app. simpl. rewrite pending_snoc.
    split; [|done]. by apply noFinal_snoc.
  - rewrite app_nil_r in Hl. assert (noFinal s1) as H1 by (unfold noFinal; by rewrite Hl).
    split_and!; [split; [done|congruence]|done|by apply Hc].
Qed.

Lemma tryChild_match child s : clean s ->
  let '(s', r, path, _) := tryChild child s in
  synced s' /\ forall f raw rs, r = inl (f, raw, rs) ->
    (path = "buildrequest" /\ texts (pendingOf s') = (raw, rs)) \/ (path = "legacy" /\ pendingOf s' = []).
Proof.
  intros Hs. unfold tryChild. destruct (isLegacy child).
  - destruct (cfg_LegacyStreamChild cfg) as [f|]; [|by split; [apply clean_synced|]].
    match goal with |- context [runCallback ?k (note ?a s)] =>
      assert (clean (fst (runCallback k (note a s)))) as H1
        by (eapply quiet_clean; [eapply quiet_trans; [by apply (quiet_note a)|apply quiet_callback]|exact Hs]);
      destruct (runCallback k (note a s)) as [s1 r] end.
    split; [by apply clean_synced|]. intros. right. split; [done|apply H1].
  - pose proof (tryOneStreamChild_match (childProvider child) (target child) s Hs) as H1.
    destruct (tryOneStreamChild _ _ s) as [s1 r]. destruct H1 as [H1 H2]. split; [done|]. left. split; [done|]. eauto.
Qed.

Lemma walkChain_match startTime i chain : forall lastErr s,
  synced s -> (lastErr = None -> clean s) -> (chain = [] -> is_Some lastErr) ->
  let '(s', r) := walkChain startTime i chain lastErr s in attemptMatch s' r.
Proof.
  induction chain as [|child chain IH]; intros lastErr s Hs Hc Hl; simpl.
  { destruct (Hl eq_refl) as [e ->]. done. }
  destruct (ctxDone s); [done|].
  assert (let '(s1, ok) := handoff lastErr s in
    if ok then clean s1 else synced s1 /\ is_Some (ctxDone s1)) as H1.
  { unfold handoff. destruct lastErr; [|by apply Hc]. pose proof (emitReset_clean s Hs) as H.
    destruct (emitReset s) as [s1 []]; [done|]. tauto. }
  destruct (handoff lastErr s) as [s1 []]; [|by destruct H1 as [H1 [e ->]]].
  pose proof (tryChild_match child s1 H1) as H2.
  destruct (tryChild child s1) as [[[s2 r] path] c]. destruct H2 as [H2 H3]. destruct r as [[[f raw] rs]|e].
  - apply finish_match; [done|]. by eapply H3.
  - destruct (isNativeStreamTerminal e); [done|]. by apply IH.
Qed.

Lemma attemptFull_match startTime i s : clean s ->
  let '(s', r) := attemptFull startTime i s in attemptMatch s' r.
Proof.
  intros Hs. unfold attemptFull. destruct (cfg_FallbackChain cfg) as [|c chain] eqn:Ec.
  - pose proof (tryOneStreamChild_match (cfg_Provider cfg) (cfg_ClientOverride cfg) s Hs) as H1.
    destruct (tryOneStreamChild _ _ s) as [s1 [[[f raw] rs]|e]]; destruct H1 as [H1 H2]; [|done].
    apply finish_match; [done|]. left. split; [done|]. by eapply H2.
  - apply walkChain_match; [by apply clean_synced|done|done].
Qed.

(** C3. No stale and no missing text.  In a mode that wants partials and raw
    output, when every partial is taken by the consumer, no oracle is installed and
    a native attempt that declines has sent nothing: a final frame that is
    delivered agrees with what the consumer has kept.  Either a BuildRequest
    transport won (the event stream, Bedrock or the transport-only native seam), and
    the raw and reasoning texts of the partials since the last reset concatenate to
    the final's raw and reasoning; or a legacy child won, which streams no
    partials, and there are none since the last reset.  Failed children and retries
    in between do not disturb this, whatever they had streamed. *)
Theorem stream_reconstruct w v raw reasoning :
  from_option MaxRetries 0 (cfg_RetryPolicy cfg) < MaxInt64 ->
  FFinal v raw reasoning ∈ frames (log (fst (RunStreamOrchestration w))) ->
  (winnerPath (fst (RunStreamOrchestration w)) = "buildrequest"
     /\ texts (pendingOf (fst (RunStreamOrchestration w))) = (raw, reasoning))
  \/ (winnerPath (fst (RunStreamOrchestration w)) = "legacy"
        /\ pendingOf (fst (RunStreamOrchestration w)) = []).
Proof.
  intros Hm Hin. assert (explained (fst (RunStreamOrchestration w))) as H; [clear Hin|by eapply H].
  unfold RunStreamOrchestration.
  assert (clean (emitPlannedMetadata (initState w))) as H0.
  { eapply (quiet_clean (initState w)).
    - unfold emitPlannedMetadata. destruct (cfg_MetadataPlan cfg); [|done]. destruct (negb _); [done|].
      by apply (quiet_deliver _ _ (setPlannedOnce (initState w))).
    - split; [|done]. intros ? ? ? ?%elem_of_nil. done. }
  set (s0 := emitPlannedMetadata (initState w)) in *.
  assert (forall s, noFinal s -> explained s) as Hno.
  { intros s Hn v' raw' rs' Hin. by destruct (Hn v' raw' rs'). }
  destruct validate; [apply Hno, H0|]. set (t := now _ _).
  set (Q := fun u (r : option V * option E) => match snd r with Some _ => noFinal u | None => explained u end).
  set (I := fun u => noFinal u /\ (pendingOf u = [] \/ is_Some (ctxDone u))).
  assert (let '(s1, _, r) := runAttempts t s0 in Q s1 r) as H1.
  { destruct (runAttempts t s0) as [[s1 acts] r] eqn:Ex. unfold runAttempts in Ex.
    assert (forall u, I u -> ctxDone u = None -> clean u) as HI.
    { intros u [? [?|[? ?]]] ?; [done|congruence]. }
    eapply (Execute_rule _ _ _ _ _ _ I I (fun u _ => synced u) Q);
      [..|exact Hm|split; [apply H0|left; apply H0]|exact Ex].
    - intros u e [Hu _] _. done.
    - intros i u u' v' Hu Hc Ha. pose proof (attemptFull_match t i u (HI u Hu Hc)) as Hp. by rewrite Ha in Hp.
    - intros i u u' v' e Hu Hc Ha _. pose proof (attemptFull_match t i u (HI u Hu Hc)) as Hp. rewrite Ha in Hp. apply Hp.
    - intros i u u' v' e Hu Hc Ha _. pose proof (attemptFull_match t i u (HI u Hu Hc)) as Hp. by rewrite Ha in Hp.
    - by intros u e [Hu _].
    - by intros u e e' [Hu _] _.
    - intros i u e Hu _. unfold onRetry. pose proof (emitReset_clean u Hu) as H.
      destruct (emitReset u) as [u1 []]; simpl; [split; [|left]; apply H|].
      destruct H as (H1&H2&H3). split; [done|by right].
    - done.
    - done.
    - intros d u u' r0 [Hu Hc]. cbn beta.
      pose proof (sleep_keeps (env:=env) d (world u)) as Hk. destruct (sleep (base env) d (world u)) as [x e].
      intros Hs; simplify_eq. destruct r0; [done|]. split; [done|]. destruct Hc as [Hc|Hc]; [by left|right].
      by apply Hk. }
  destruct (runAttempts t s0) as [[s1 acts] [v' [err|]]]; [|done]. unfold Q in H1. simpl in H1.
  destruct (ctxDone s1); [by apply Hno|]. apply Hno.
  pose proof (stream_deliver_log (offer (base env)) (FError (rawFromError err) err) s1) as Hd.
  destruct (deliver _ _ s1) as [s2 ok]. destruct Hd as (Hl&_). unfold noFinal. simpl. rewrite Hl, stream_frames_app.
  destruct ok; [by apply noFinal_snoc|]. simpl. by rewrite app_nil_r.
Qed.
End Reconstruct.
End Stream.

(** ** Concrete runs

    The world counts the sends.  The event stream of the first send breaks after
    one event; the second one completes.  The native callback of the claimed run
    streams one delta and fails. *)

Module StreamScenario.
Definition nl : string := String LF "".
Definition event (text : string) : string := "data: " +:+ text +:+ nl +:+ nl.
Definition native (fails : bool) : NativeStreamAttempt nat string string string -> nat ->
    StreamCallback nat delta string (NativeStreamOutcome string) :=
  fun _ w => if fails then SBeat w (fun w => SEmit w (mkDelta "n" "n" "") (fun w _ =>
               SDone w (FailNativeStreamAfterClaim (Some (Ext "boom")) "")))
             else SDone w (DeclineNativeStream "gate" "off").
Definition cfg (fails : bool) : StreamConfig nat string string string :=
  mkStreamConfig "" (Some (mkPolicy 2 None None)) true true false 0 false ["B"; "A"] ""
    {[ "A" := "openai"; "B" := "openai" ]} ∅ {[ "A" := "A-leaf" ]}
    (Some (newPlanBase "buildrequest" "FB" None "stream")) true None None
    true (Some (native fails)) None false None
    (Some (fun s w => (w, inl (Some s)))) (Some (fun s w => (w, inl (Some s)))) "native".
Definition fns : StreamFunctions nat string string string string :=
  mkStreamFunctions (fun client w => (w, inl client))
    (fun _ w => (S w, inl (if (w =? 0)%nat then (event "lost", Some (Ext "reset by peer"))
                           else (event "Hel" +:+ event "lo", None))))
    (fun _ w => (w, inl ([], None)))
    (fun _ data _ => inl (mkDelta data data ""))
    (fun ev _ => inl (mkDelta ev ev ""))
    (Some (fun s w => (w, inl (Some s)))) (fun s w => (w, inl (Some s))) (fun e => e).
Definition env : StreamEnv nat string string :=
  mkStreamEnv (mkEnv (fun _ => None) (fun _ w => (w, true)) (fun _ w => (w, true)) (fun _ => 0)
    (fun _ w => (w, None)) (fun _ => false) (fun _ ok => ok))
    (fun _ w => (w, Sent)) (fun w => w) (fun _ => false).
#[global] Instance env_lawful : LawfulStreamEnv env.
Proof. split; done. Qed.
Definition run (fails : bool) := RunStreamOrchestration env (cfg fails) fns 0%nat.

Example scenario_frames : skipn 1 (frames (log (fst (run false)))) =
  [FHeartbeat; FStream (Some "lost") "lost" "" false; FStream None "" "" true; FHeartbeat;
   FStream (Some "Hel") "Hel" "" false; FStream (Some "Hello") "lo" "" false]
  ++ closingFrames (cfg false) 0 (fst (run false)) (Some "Hello") "Hello" "".
Proof. vm_compute. reflexivity. Qed.

Example claimed_run : skipn 2 (log (fst (run true))) =
  [SAFrame (FStream (Some "n") "n" "" false); SANative "openai" "B" NativeStreamFailedAfterClaim;
   SAFrame (FError "n" (newNativeStreamTerminalError (Some (Ext "boom")) "n"))].
Proof. vm_compute. reflexivity. Qed.
End StreamScenario.

Lemma stream_frames_witness :
  exists pl mid d tl, frames (log (fst (StreamScenario.run false))) = pl ++ mid ++ tl
    /\ windows false mid = Some d.
Proof.
  destruct (stream_frames StreamScenario.env (StreamScenario.cfg false) StreamScenario.fns 0%nat)
    as (pl&mid&d&tl&H&_&Hw&_); [reflexivity|]. exists pl, mid, d, tl. split; [exact H|exact Hw].
Defined.

Lemma stream_delivers_witness : snd (StreamScenario.run false) = None.
Proof.
  refine (proj1 (stream_delivers StreamScenario.env (StreamScenario.cfg false) StreamScenario.fns 0%nat _ _ _));
    try reflexivity. split; intros; reflexivity.
Defined.

Lemma no_replay_after_claim_witness :
  Forall (fun a => isClosing a = true) (skipn 4 (log (fst (StreamScenario.run true)))).
Proof.
  apply (no_replay_after_claim StreamScenario.env (StreamScenario.cfg true) StreamScenario.fns 0%nat
    (firstn 3 (log (fst (StreamScenario.run true)))) (SANative "openai" "B" NativeStreamFailedAfterClaim));
    vm_compute; reflexivity.
Defined.

Lemma stream_reconstruct_witness : pendingOf (fst (StreamScenario.run false)) = [("Hel", ""); ("lo", "")]
  /\ texts (pendingOf (fst (StreamScenario.run false))) = ("Hello", "").
Proof.
  split; [vm_compute; reflexivity|].
  destruct (stream_reconstruct StreamScenario.env (StreamScenario.cfg false) StreamScenario.fns
    eq_refl eq_refl (fun _ _ => eq_refl) eq_refl) with (w := 0%nat) (v := Some "Hello") (raw := "Hello") (reasoning := "")
    as [[_ H]|[H _]].
  - intros native attempt w [= <-]. simpl. discriminate.
  - reflexivity.
  - vm_compute. do 8 right. left.
  - exact H.
  - exfalso. revert H. vm_compute. discriminate.
Defined.
