(* ===== verification/WorkerErrors.v ===== *)
(** * WorkerErrors: how errors of workers are classified

    The classifiers of [pool/pool.go] (retryable infrastructure failure, caller
    cancellation), the error carrier of [workerplugin/plugin.go], and the
    classifier of [cmd/serve/error.go] that names the failure to the client.

    A Go error is a tree of wrappers.  Errors of other packages are the type [X],
    with their text and with the status [status.FromError] (of the gRPC library)
    finds in an error as parameters. *)

From Stdlib Require Import Ascii String.
From S2P Require Import Prelude GoStrings.
Open Scope stdpp_scope.

(** [codes.Code], as far as the classifiers tell codes apart. *)
Inductive Code := Canceled | DeadlineExceeded | Unavailable | OtherCode (name : string).

(** [Code.String]. *)
Definition codeName (c : Code) : string :=
  match c with
  | Canceled => "Canceled" | DeadlineExceeded => "DeadlineExceeded"
  | Unavailable => "Unavailable" | OtherCode name => name
  end.

(** [ErrorWithStack] carries a stacktrace, a code and details; [Wrap] and
    [Wrap2] are [fmt.Errorf] with one and two [%w] verbs. *)
Inductive error (X : Type) :=
  | Plain (text : string)
  | ContextCanceled
  | ContextDeadlineExceeded
  | ErrPoolRetriesExhausted
  | ErrPoolUnavailable
  | Foreign (x : X)
  | ErrorWithStack (err : error X) (stacktrace code : string) (details : string)
  | Wrap (text : string) (err : error X)
  | Wrap2 (text : string) (err1 err2 : error X).
Arguments Plain {X}. Arguments ContextCanceled {X}. Arguments ContextDeadlineExceeded {X}.
Arguments ErrPoolRetriesExhausted {X}. Arguments ErrPoolUnavailable {X}. Arguments Foreign {X}.
Arguments ErrorWithStack {X}. Arguments Wrap {X}. Arguments Wrap2 {X}.

(** The sentinels [errors.Is] is asked about. *)
Inductive Sentinel := SCanceled | SDeadlineExceeded | SRetriesExhausted | SUnavailable.

(** [NewErrorWithMetadata]. *)
Definition NewErrorWithMetadata {X} (err : error X) (stacktrace code details : string) : error X :=
  if (stacktrace =s "") && (code =s "") && (details =s "") then err
  else ErrorWithStack err stacktrace code details.

(** [errors.Is]. *)
Fixpoint Is {X} (err : error X) (target : Sentinel) : bool :=
  match err, target with
  | ContextCanceled, SCanceled | ContextDeadlineExceeded, SDeadlineExceeded
  | ErrPoolRetriesExhausted, SRetriesExhausted | ErrPoolUnavailable, SUnavailable => true
  | ErrorWithStack e _ _ _, _ | Wrap _ e, _ => Is e target
  | Wrap2 _ e1 e2, _ => Is e1 target || Is e2 target
  | _, _ => false
  end.

(** [errors.As] with an [*ErrorWithStack] target: its stacktrace, code, details. *)
Fixpoint AsErrorWithStack {X} (err : error X) : option (string * string * string) :=
  match err with
  | ErrorWithStack _ stacktrace code details => Some (stacktrace, code, details)
  | Wrap _ e => AsErrorWithStack e
  | Wrap2 _ e1 e2 =>
      match AsErrorWithStack e1 with Some r => Some r | None => AsErrorWithStack e2 end
  | _ => None
  end.

(** ** Serialized gRPC errors *)

Definition grpcSerializedPrefix : string := "rpc error: code = ".

(** [parseSerializedGRPCCode]. *)
Definition parseSerializedGRPCCode (errStr : string) : option string :=
  match CutAfter grpcSerializedPrefix errStr with
  | None | Some EmptyString => None
  | Some rest =>
      match CutByte " "%char rest with
      | None | Some (EmptyString, _) => Some rest
      | Some (code, _) => Some code
      end
  end.

(** The texts of transport failures. *)
Definition infraText (s : string) : bool :=
  Contains s "connection reset" || Contains s "error reading from server: EOF"
  || Contains s "transport is closing".

Section Classify.
Context {X : Type}.
(** The text of a foreign error and the status found in an error's tree: its
    code and its message. *)
Variable foreignText : X -> string.
Variable FromError : error X -> option (Code * string).
Implicit Types err : error X.

(** [err.Error()]. *)
Fixpoint ErrorText err : string :=
  match err with
  | Plain text | Wrap text _ | Wrap2 text _ _ => text
  | ContextCanceled => "context canceled"
  | ContextDeadlineExceeded => "context deadline exceeded"
  | ErrPoolRetriesExhausted => "pool retries exhausted"
  | ErrPoolUnavailable => "pool unavailable"
  | Foreign x => foreignText x
  | ErrorWithStack e _ _ _ => ErrorText e
  end.

(** [isRetryableWorkerError], of an error that is not nil. *)
Definition isRetryableWorkerError err : bool :=
  if Is err SRetriesExhausted || Is err SUnavailable then true
  else match FromError err with
       | Some (code, msg) =>
           match code with
           | Unavailable | Canceled | DeadlineExceeded => true
           | OtherCode _ => infraText msg
           end
       | None =>
           let errStr := ErrorText err in
           match (if HasPrefix errStr grpcSerializedPrefix then parseSerializedGRPCCode errStr else None) with
           | Some code => (code =s "Unavailable") || (code =s "Canceled") || (code =s "DeadlineExceeded")
           | None => infraText errStr
           end
       end.

(** [IsTypedCancellationError], of an error that is not nil. *)
Definition IsTypedCancellationError err : bool :=
  if Is err SCanceled || Is err SDeadlineExceeded then true
  else match FromError err with
       | Some (code, _) => match code with Canceled | DeadlineExceeded => true | _ => false end
       | None =>
           let errStr := ErrorText err in
           if negb (HasPrefix errStr grpcSerializedPrefix) then false
           else match parseSerializedGRPCCode errStr with
                | Some code => (code =s "Canceled") || (code =s "DeadlineExceeded")
                | None => false
                end
       end.

(** [isCallerCancellationError], of an error that is not nil. *)
Definition isCallerCancellationError err : bool :=
  if Is err SCanceled || Is err SDeadlineExceeded then true
  else match FromError err with
       | Some (code, _) => match code with Canceled | DeadlineExceeded => true | _ => false end
       | None =>
           let errStr := ErrorText err in
           match parseSerializedGRPCCode errStr with
           | Some code => (code =s "Canceled") || (code =s "DeadlineExceeded")
           | None => Contains errStr "context canceled" || Contains errStr "context deadline exceeded"
           end
       end.

(** ** The class reported to the client: [cmd/serve/error.go] *)

Definition CodeRequestCanceled : string := "request_canceled".
Definition CodeWorkerUnavailable : string := "worker_unavailable".
Definition CodeWorkerError : string := "worker_error".
Definition CodeProviderError : string := "provider_error".
Definition CodeParseError : string := "parse_error".
Definition CodeInternalError : string := "internal_error".

(** [Code.IsWorkerFacing]. *)
Definition IsWorkerFacing (c : string) : bool :=
  (c =s CodeWorkerError) || (c =s CodeProviderError) || (c =s CodeParseError) || (c =s CodeInternalError).

(** [sonic.Valid] and the JSON encoding of a stacktrace envelope. *)
Variable validJSON : string -> bool.
Variable stacktraceDetailsJSON : string -> option string.

(** [bytes.TrimLeft(b, " \t\n\r")]. *)
Fixpoint trimJSONSpace (b : string) : string :=
  match b with
  | String a b' =>
      if Ascii.eqb a " " || Ascii.eqb a "009" || Ascii.eqb a "010" || Ascii.eqb a "013"
      then trimJSONSpace b' else b
  | EmptyString => b
  end.

(** [isJSONObject]. *)
Definition isJSONObject (b : string) : bool :=
  match trimJSONSpace b with
  | String a _ as trimmed => if Ascii.eqb a "{" then validJSON trimmed else false
  | EmptyString => false
  end.

(** [normalizeWorkerMetadata]. *)
Definition normalizeWorkerMetadata (rawCode rawDetails : string) : string * option string :=
  (if IsWorkerFacing rawCode then rawCode else "",
   if isJSONObject rawDetails then Some rawDetails else None).

(** [classifyWorkerError]. *)
Definition classifyWorkerError err : string * option string :=
  let '(workerCode, details) :=
    match AsErrorWithStack err with
    | Some (stacktrace, code, rawDetails) =>
        let '(workerCode, details) := normalizeWorkerMetadata code rawDetails in
        (workerCode,
         match details with
         | Some d => Some d
         | None => if stacktrace =s "" then None else stacktraceDetailsJSON stacktrace
         end)
    | None => ("", None)
    end in
  if negb (workerCode =s "") then (workerCode, details)
  else if Is err SRetriesExhausted then (CodeWorkerUnavailable, details)
  else if IsTypedCancellationError err then (CodeRequestCanceled, details)
  else if isRetryableWorkerError err then (CodeWorkerUnavailable, details)
  else (CodeWorkerError, details).

(** [writeChiParseWorkerError]: the code of a failed parse, and the status. *)
Definition parseWorkerErrorCode err : string * Z :=
  let code := fst (classifyWorkerError err) in
  if code =s CodeRequestCanceled then (code, 408%Z)
  else if code =s CodeWorkerError then (CodeParseError, 500%Z) else (code, 500%Z).

(** ** Properties *)

(** The code of a serialized status, whatever codes its message quotes. *)
Lemma parse_serialized name msg :
  name <> "" -> ContainsByte " " name = false ->
  parseSerializedGRPCCode (grpcSerializedPrefix +:+ name +:+ String " " msg) = Some name.
Proof.
  intros Hn Hs. unfold parseSerializedGRPCCode.
  rewrite (CutAfter_prefix _ _ _ (CutPrefix_app grpcSerializedPrefix (name +:+ String " " msg))).
  rewrite CutByte_app by done. by destruct name.
Qed.

(** A typed cancellation is a caller cancellation: the strict classifier of the
    HTTP layer never claims more than the lenient one of the retry loop. *)
Lemma typed_is_caller err :
  IsTypedCancellationError err = true -> isCallerCancellationError err = true.
Proof.
  unfold IsTypedCancellationError, isCallerCancellationError.
  destruct (Is err SCanceled || Is err SDeadlineExceeded); [done|].
  destruct (FromError err) as [[c m]|]; [done|].
  destruct (HasPrefix (ErrorText err) grpcSerializedPrefix); [|done]. simpl.
  by destruct (parseSerializedGRPCCode _).
Qed.

(** A status error: its code has a one-word name, its text is the one gRPC
    renders, and a plain error has no status. *)
Definition serializes (x : X) (c : Code) (msg : string) : Prop :=
  FromError (Foreign x) = Some (c, msg)
  /\ foreignText x = grpcSerializedPrefix +:+ codeName c +:+ " desc = " +:+ msg
  /\ codeName c <> "" /\ ContainsByte " " (codeName c) = false
  /\ match c with
     | OtherCode name => name ∉ ["Canceled"; "DeadlineExceeded"; "Unavailable"]
     | _ => True
     end.

(** Classification survives the plugin boundary.  A status error that was
    rendered to text on one side and rebuilt as a plain error on the other is
    classified as the original: the same for both cancellation tests, and for
    the retry test except that the original is also retried when its message,
    under another code, names a transport failure. *)
Theorem serialized_agrees x c msg :
  serializes x c msg -> (forall text, FromError (Plain text) = None) ->
  let copy := Plain (foreignText x) in
  IsTypedCancellationError copy = IsTypedCancellationError (Foreign x)
  /\ isCallerCancellationError copy = isCallerCancellationError (Foreign x)
  /\ isRetryableWorkerError (Foreign x)
     = isRetryableWorkerError copy || match c with OtherCode _ => infraText msg | _ => false end.
Proof.
  intros (Hf&Ht&Hn&Hs&Ho) Hp.
  assert (HasPrefix (foreignText x) grpcSerializedPrefix = true) as H1 by (rewrite Ht; apply HasPrefix_app).
  assert (parseSerializedGRPCCode (foreignText x) = Some (codeName c)) as H2.
  { rewrite Ht. by apply (parse_serialized _ ("desc = " +:+ msg)). }
  unfold IsTypedCancellationError, isCallerCancellationError, isRetryableWorkerError.
  simpl. rewrite Hp, Hf, H1, H2. simpl. destruct c as [| | |name]; simpl; try done.
  assert ((name =s "Canceled") = false /\ (name =s "DeadlineExceeded") = false
    /\ (name =s "Unavailable") = false) as (->&->&->); [|done].
  split_and!; apply String.eqb_neq; intros ->; apply Ho; rewrite !elem_of_cons; auto.
Qed.

(** The code a carried [ErrorWithStack] supplies, when the host honours it. *)
Definition suppliedCode err : string :=
  match AsErrorWithStack err with
  | Some (_, code, _) => if IsWorkerFacing code then code else ""
  | None => ""
  end.

Lemma classify_code err :
  fst (classifyWorkerError err) =
    if negb (suppliedCode err =s "") then suppliedCode err
    else if Is err SRetriesExhausted then CodeWorkerUnavailable
    else if IsTypedCancellationError err then CodeRequestCanceled
    else if isRetryableWorkerError err then CodeWorkerUnavailable else CodeWorkerError.
Proof.
  unfold classifyWorkerError, suppliedCode, normalizeWorkerMetadata.
  destruct (AsErrorWithStack err) as [[[st code] d]|]; simpl; repeat case_match; done.
Qed.

(** Retry exhaustion is never blamed on the client.  The error the pool
    gives up with, with or without a stderr tail, is retryable and is reported
    as [worker_unavailable] even when the failure it wraps is a cancellation,
    unless that failure carries a code of the worker's own. *)
Theorem exhausted_unavailable text tail last :
  let err := Wrap tail (Wrap2 text ErrPoolRetriesExhausted last) in
  isRetryableWorkerError err = true
  /\ (suppliedCode last = "" -> fst (classifyWorkerError err) = CodeWorkerUnavailable)
  /\ (suppliedCode last <> "" -> fst (classifyWorkerError err) = suppliedCode last).
Proof.
  intros err. split; [done|].
  assert (suppliedCode err = suppliedCode last) as E by done. rewrite classify_code, E.
  split; [by intros ->|]. intros H%String.eqb_neq. by rewrite H.
Qed.

Lemma supplied_facing err : suppliedCode err <> "" -> IsWorkerFacing (suppliedCode err) = true.
Proof.
  unfold suppliedCode. destruct (AsErrorWithStack err) as [[[st code] d]|]; [|done].
  by destruct (IsWorkerFacing code) eqn:E.
Qed.

(** A worker cannot speak for the client or for the host.  An error rebuilt
    from a worker's text, stacktrace, code and details is reported as
    [request_canceled] only when the text itself is a serialized gRPC
    cancellation; a code of the host's own that the worker claims is dropped;
    text that merely quotes a cancellation or a gRPC error changes nothing. *)
Theorem worker_cannot_cancel text stacktrace code details :
  let err := NewErrorWithMetadata (Plain text) stacktrace code details in
  FromError err = None ->
  let reported := fst (classifyWorkerError err) in
  (reported = CodeRequestCanceled ->
     (exists r, text = grpcSerializedPrefix +:+ r)
     /\ parseSerializedGRPCCode text ∈ [Some "Canceled"; Some "DeadlineExceeded"])
  /\ (IsWorkerFacing code = true -> reported = code)
  /\ (IsWorkerFacing code = false ->
       reported ∈ [CodeRequestCanceled; CodeWorkerUnavailable; CodeWorkerError]).
Proof.
  intros err Hf reported. unfold reported. rewrite classify_code.
  assert (suppliedCode err = if IsWorkerFacing code then code else "") as Hsup.
  { unfold err, NewErrorWithMetadata, suppliedCode.
    destruct (stacktrace =s "") eqn:?, (code =s "") eqn:Ec, (details =s ""); simpl; try done.
    apply String.eqb_eq in Ec as ->. done. }
  assert (ErrorText err = text /\ (forall t, Is err t = false)) as [Htext HIs].
  { unfold err, NewErrorWithMetadata. by destruct (_ && _ && _); split; [|intros []| |intros []]. }
  rewrite Hsup, !HIs. split_and!.
  - destruct (IsWorkerFacing code) eqn:Ew.
    { destruct (code =s "") eqn:Ec; [by apply String.eqb_eq in Ec as ->|]. simpl. by intros ->. }
    simpl. unfold IsTypedCancellationError. rewrite !HIs, Hf, Htext. simpl.
    destruct (HasPrefix text grpcSerializedPrefix) eqn:Ep; simpl; [|by destruct (isRetryableWorkerError err)].
    destruct (parseSerializedGRPCCode text) as [c|]; [|by destruct (isRetryableWorkerError err)].
    destruct (c =s "Canceled") eqn:E1; [|destruct (c =s "DeadlineExceeded") eqn:E2]; simpl;
      [| |by destruct (isRetryableWorkerError err)]; intros _;
      (split; [apply bool_decide_eq_true in Ep as [r Hr]; exists r; exact (CutPrefix_some _ _ _ Hr)|]).
    + apply String.eqb_eq in E1 as ->. left.
    + apply String.eqb_eq in E2 as ->. right. left.
  - intros Hw. rewrite Hw. destruct (code =s "") eqn:E; [|done]. by apply String.eqb_eq in E as ->.
  - intros ->. simpl. destruct (IsTypedCancellationError err), (isRetryableWorkerError err); set_solver.
Qed.
End Classify.

(** ** Concrete errors: foreign errors are statuses, found through wrappers *)

Module ErrorScenario.
Definition text (x : Code * string) : string :=
  grpcSerializedPrefix +:+ codeName x.1 +:+ " desc = " +:+ x.2.
Fixpoint FromError (err : error (Code * string)) : option (Code * string) :=
  match err with
  | Foreign x => Some x
  | ErrorWithStack e _ _ _ | Wrap _ e => FromError e
  | Wrap2 _ e1 e2 => match FromError e1 with Some x => Some x | None => FromError e2 end
  | _ => None
  end.
Definition classify := classifyWorkerError text FromError (fun _ => true) (fun _ => None).
Definition hung : error (Code * string) := Foreign (Canceled, "context canceled").
End ErrorScenario.

Lemma serialized_agrees_witness :
  isRetryableWorkerError ErrorScenario.text ErrorScenario.FromError
    (Plain "rpc error: code = Internal desc = rpc error: code = Canceled desc = x") = false.
Proof.
  pose proof (proj2 (proj2 (serialized_agrees ErrorScenario.text ErrorScenario.FromError
    (OtherCode "Internal", "rpc error: code = Canceled desc = x") (OtherCode "Internal")
    "rpc error: code = Canceled desc = x"
    ltac:(split; [reflexivity|split; [reflexivity|split; [discriminate|split; [reflexivity|set_solver]]]])
    (fun _ => eq_refl)))) as H.
  cbn [ErrorScenario.text fst snd codeName] in H.
  destruct (isRetryableWorkerError _ _ (Plain _)); [|reflexivity]. vm_compute in H. discriminate H.
Defined.

Lemma exhausted_unavailable_witness :
  fst (ErrorScenario.classify (Wrap "tail" (Wrap2 "gave up" ErrPoolRetriesExhausted ErrorScenario.hung)))
    = "worker_unavailable".
Proof.
  apply (exhausted_unavailable ErrorScenario.text ErrorScenario.FromError). reflexivity.
Defined.

Lemma worker_cannot_cancel_witness :
  fst (ErrorScenario.classify (NewErrorWithMetadata
    (Plain "openai: context deadline exceeded") "" "request_canceled" "")) <> "request_canceled".
Proof.
  intros H. destruct (proj1 (worker_cannot_cancel ErrorScenario.text ErrorScenario.FromError (fun _ => true)
    (fun _ => None) "openai: context deadline exceeded" "" "request_canceled" "" eq_refl) H) as [[r Hr] _].
  discriminate Hr.
Defined.
