(* ===== verification/StderrTail.v ===== *)
(** * StderrTail: [pool/stderr_tail.go]

    The bounded buffer that keeps the most recent stderr output of a worker, and
    the wrapper that appends it to a terminal pool error.  A buffer is a value;
    the mutex makes each [Write] and [snapshot] one step. *)

From Stdlib Require Import Ascii String.
From S2P Require Import Prelude GoStrings WorkerErrors.
Open Scope stdpp_scope.

Definition stderrTailMaxLines : nat := 100.
Definition stderrTailMaxBytes : nat := N.to_nat 65536.

Record stderrRingBuffer := mkRing {
  lines : list string;
  curBytes : nat;
  partial : string;
  maxLines : nat;
  maxBytes : nat
}.

Definition newStderrRingBuffer : stderrRingBuffer :=
  mkRing [] 0 "" stderrTailMaxLines stderrTailMaxBytes.

(** The last [n] bytes. *)
Definition lastBytes (n : nat) (s : string) : string :=
  if n <? String.length s then sdrop (String.length s - n) s else s.

(** The loop of [enforceBounds] over the retained lines. *)
Fixpoint evict (extraLines extraBytes maxLines maxBytes : nat) (ls : list string) (cur : nat)
    : list string * nat :=
  match ls with
  | [] => ([], cur)
  | l :: rest =>
      if (maxLines <? length ls + extraLines) || (maxBytes <? cur + extraBytes)
      then evict extraLines extraBytes maxLines maxBytes rest (cur - String.length l)
      else (ls, cur)
  end.

(** [enforceBounds]. *)
Definition enforceBounds (r : stderrRingBuffer) : stderrRingBuffer :=
  let extraBytes := String.length (partial r) in
  let extraLines := if 0 <? extraBytes then 1 else 0 in
  let '(ls, cur) := evict extraLines extraBytes (maxLines r) (maxBytes r) (lines r) (curBytes r) in
  mkRing ls cur (partial r) (maxLines r) (maxBytes r).

(** [appendLine]. *)
Definition appendLine (line : string) (r : stderrRingBuffer) : stderrRingBuffer :=
  let line := lastBytes (maxBytes r) line in
  enforceBounds (mkRing (lines r ++ [line]) (curBytes r + String.length line) (partial r)
                   (maxLines r) (maxBytes r)).

(** The loop of [Write], over the pieces between newlines: the last one has no
    newline after it. *)
Fixpoint writePieces (pieces : list string) (r : stderrRingBuffer) : stderrRingBuffer :=
  match pieces with
  | [] => r
  | [rest] =>
      enforceBounds (mkRing (lines r) (curBytes r) (lastBytes (maxBytes r) (partial r +:+ rest))
                       (maxLines r) (maxBytes r))
  | piece :: pieces =>
      let line := partial r +:+ piece in
      writePieces pieces (appendLine line (mkRing (lines r) (curBytes r) "" (maxLines r) (maxBytes r)))
  end.

(** [Write]: the new buffer and the count it reports. *)
Definition Write (p : string) (r : stderrRingBuffer) : stderrRingBuffer * nat :=
  (writePieces (splitLF p) r, String.length p).

(** The lines [snapshot] joins. *)
Definition snapshotLines (r : stderrRingBuffer) : list string :=
  lines r ++ (if partial r =s "" then [] else [partial r]).

(** [snapshot]. *)
Definition snapshot (r : stderrRingBuffer) : string * nat :=
  (joinLF (snapshotLines r), length (snapshotLines r)).

(** [withWorkerStderr], of an error that is not nil; [render] formats the text. *)
Definition withWorkerStderr {X} (render : error X -> nat -> nat -> string -> string)
    (err : error X) (h : option (nat * option stderrRingBuffer)) : error X :=
  match h with
  | Some (id, Some tail) =>
      let '(text, n) := snapshot tail in
      if text =s "" then err else Wrap (render err id n text) err
  | _ => err
  end.

(** ** Bounds *)

Definition bytes (ls : list string) : nat := sum_list_with String.length ls.

(** The counters are right and both caps hold, the partial line included. *)
Definition bounded (r : stderrRingBuffer) : Prop :=
  curBytes r = bytes (lines r)
  /\ length (lines r) + (if 0 <? String.length (partial r) then 1 else 0) <= maxLines r
  /\ bytes (lines r) + String.length (partial r) <= maxBytes r.

Lemma sdrop_length n s : String.length (sdrop n s) = String.length s - n.
Proof. revert s. induction n as [|n IH]; intros [|a s]; simpl; auto. Qed.

Lemma lastBytes_length n s : String.length (lastBytes n s) <= n.
Proof.
  unfold lastBytes. destruct (n <? String.length s) eqn:E; [rewrite sdrop_length; lia|].
  apply Nat.ltb_ge in E. lia.
Qed.

Lemma bytes_app l k : bytes (l ++ k) = bytes l + bytes k.
Proof. apply sum_list_with_app. Qed.

(** Eviction stops when the caps hold, and keeps the last line if it fits alone. *)
Lemma evict_spec el eb ml mb ls : forall cur,
  cur = bytes ls -> el <= ml -> eb <= mb ->
  let '(ls', cur') := evict el eb ml mb ls cur in
  cur' = bytes ls' /\ length ls' + el <= ml /\ bytes ls' + eb <= mb /\ ls' `suffix_of` ls
  /\ forall l, last ls = Some l -> 1 + el <= ml -> String.length l + eb <= mb -> last ls' = Some l.
Proof.
  induction ls as [|l ls IH]; intros cur Hc Hl Hb; simpl evict.
  { subst. unfold bytes. simpl. split_and!; try done; lia. }
  destruct (_ || _) eqn:E.
  - specialize (IH (cur - String.length l)). unfold bytes in *. simpl in Hc.
    destruct (evict _ _ _ _ ls _) as [ls' cur'].
    destruct IH as (H1&H2&H3&H4&H5); [lia|done|done|]. split_and!; try done.
    { by apply suffix_cons_r. }
    intros l' Hlast Hml Hmb. destruct ls as [|l2 ls].
    + simpl in Hlast, Hc, E. simplify_eq. rewrite orb_true_iff, !Nat.ltb_lt in E. simpl in E. lia.
    + apply H5; [|done|done]. by rewrite last_cons_cons in Hlast.
  - rewrite orb_false_iff, !Nat.ltb_ge in E. destruct E as [E1 E2]. rewrite Hc in E2 |- *. split_and!; [done..|by auto].
Qed.

Lemma enforceBounds_bounded r :
  curBytes r = bytes (lines r) -> 1 <= maxLines r -> String.length (partial r) <= maxBytes r ->
  bounded (enforceBounds r) /\ partial (enforceBounds r) = partial r
  /\ maxLines (enforceBounds r) = maxLines r /\ maxBytes (enforceBounds r) = maxBytes r
  /\ forall l, last (lines r) = Some l -> partial r = "" -> String.length l <= maxBytes r ->
       last (lines (enforceBounds r)) = Some l.
Proof.
  intros Hc Hl Hb. unfold enforceBounds, bounded.
  pose proof (evict_spec (if 0 <? String.length (partial r) then 1 else 0) (String.length (partial r))
    (maxLines r) (maxBytes r) (lines r) (curBytes r) Hc) as H.
  destruct (evict _ _ _ _ _ _) as [ls cur]. simpl.
  destruct H as (H1&H2&H3&_&H4); [case_match; lia|done|]. split_and!; try done.
  intros l Hlast Hp Hlen. apply H4; [done|rewrite Hp; simpl; lia|rewrite Hp; simpl; lia].
Qed.

Lemma appendLine_bounded line r :
  curBytes r = bytes (lines r) -> 1 <= maxLines r -> partial r = "" ->
  bounded (appendLine line r) /\ partial (appendLine line r) = ""
  /\ maxLines (appendLine line r) = maxLines r /\ maxBytes (appendLine line r) = maxBytes r
  /\ last (lines (appendLine line r)) = Some (lastBytes (maxBytes r) line).
Proof.
  intros Hc Hl Hp. unfold appendLine. set (r' := mkRing _ _ _ _ _).
  destruct (enforceBounds_bounded r') as (H1&H2&H3&H4&H5); simpl.
  - rewrite bytes_app, Hc. unfold bytes. simpl. lia.
  - done.
  - rewrite Hp. simpl. lia.
  - split_and!; try done; [by rewrite H2|]. apply H5; simpl; [apply last_snoc|done|apply lastBytes_length].
Qed.

Lemma writePieces_bounded pieces : forall r,
  pieces <> [] -> curBytes r = bytes (lines r) -> 1 <= maxLines r -> 
  let r' := writePieces pieces r in
  bounded r' /\ maxLines r' = maxLines r /\ maxBytes r' = maxBytes r.
Proof.
  induction pieces as [|piece pieces IH]; intros r Hne Hc Hl; [done|].
  destruct pieces as [|p2 pieces].
  - simpl. match goal with |- context [enforceBounds ?u] =>
      destruct (enforceBounds_bounded u) as (H1&_&H3&H4&_) end; simpl; [done|done|apply lastBytes_length|done].
  - set (u := appendLine (partial r +:+ piece) (mkRing (lines r) (curBytes r) "" (maxLines r) (maxBytes r))).
    change (writePieces (piece :: p2 :: pieces) r) with (writePieces (p2 :: pieces) u).
    destruct (appendLine_bounded (partial r +:+ piece)
      (mkRing (lines r) (curBytes r) "" (maxLines r) (maxBytes r))) as ((H1&_)&_&H3&H4&_); [done..|].
    fold u in H1, H3, H4. simpl in H3, H4.
    destruct (IH u) as (G1&G2&G3); [done|done|by rewrite H3|]. cbv zeta. split_and!; [done|congruence..].
Qed.

Lemma bounded_write r ps : 1 <= maxLines r -> bounded r ->
  let r' := foldl (fun r p => fst (Write p r)) r ps in
  bounded r' /\ maxLines r' = maxLines r /\ maxBytes r' = maxBytes r.
Proof.
  revert r. induction ps as [|p ps IH]; intros r Hl Hb; simpl; [done|].
  destruct (writePieces_bounded (splitLF p) r) as (H1&H2&H3); [apply splitLF_nonempty|apply Hb|done|].
  simpl in H2, H3. destruct (IH (writePieces (splitLF p) r)) as (G1&G2&G3); [by rewrite H2|done|].
  simpl in G2, G3. split_and!; [done|by rewrite G2|by rewrite G3].
Qed.

(** The tail never grows.  After any sequence of writes, of whatever sizes
    and whether or not they end in a newline, a snapshot has at most 100 lines
    and 64 KiB of content, the unfinished line included; the running byte count
    is exact; and the line that a write completes is kept, or its freshest 64
    KiB, together with the unfinished text it continues. *)
Theorem stderr_tail_bounded ps line :
  let r := foldl (fun r p => fst (Write p r)) newStderrRingBuffer ps in
  snd (snapshot r) <= stderrTailMaxLines /\ bytes (snapshotLines r) <= stderrTailMaxBytes
  /\ curBytes r = bytes (lines r)
  /\ (ContainsByte LF line = false ->
      last (lines (fst (Write (line +:+ String LF "") r)))
        = Some (lastBytes stderrTailMaxBytes (partial r +:+ line))).
Proof.
  intros r. destruct (bounded_write newStderrRingBuffer ps) as ((Hc&Hl&Hb)&Ml&Mb).
  { simpl. unfold stderrTailMaxLines. lia. }
  { unfold bounded, stderrTailMaxLines. simpl. split_and!; [done|lia|]. unfold bytes. simpl. lia. }
  fold r in Hc, Hl, Hb, Ml, Mb. clearbody r. simpl in Ml, Mb. rewrite Ml in Hl. rewrite Mb in Hb. split_and!.
  - unfold snapshot, snapshotLines. simpl. rewrite length_app. destruct (partial r); simpl in *; lia.
  - unfold snapshotLines. rewrite bytes_app. destruct (partial r); unfold bytes in *; simpl in *; lia.
  - done.
  - intros Hn. unfold Write. rewrite splitLF_line by done. simpl fst.
    set (u := appendLine (partial r +:+ line) (mkRing (lines r) (curBytes r) "" (maxLines r) (maxBytes r))).
    change (last (lines (enforceBounds (mkRing (lines u) (curBytes u)
      (lastBytes (maxBytes u) (partial u +:+ "")) (maxLines u) (maxBytes u))))
      = Some (lastBytes stderrTailMaxBytes (partial r +:+ line))).
    destruct (appendLine_bounded (partial r +:+ line)
      (mkRing (lines r) (curBytes r) "" (maxLines r) (maxBytes r))) as ((Hc'&_)&Hp&Ml'&Mb'&Hlast);
      [done|simpl; rewrite Ml; unfold stderrTailMaxLines; lia|done|].
    fold u in Hc', Hp, Ml', Mb', Hlast. clearbody u. simpl in Ml', Mb', Hlast.
    rewrite Mb in Hlast, Mb'. rewrite Ml in Ml'. rewrite <- Hlast, Hp.
    match goal with |- context [enforceBounds ?v] =>
      destruct (enforceBounds_bounded v) as (_&_&_&_&H5) end; simpl in *.
    + done.
    + rewrite Ml'. unfold stderrTailMaxLines. lia.
    + unfold lastBytes. simpl. lia.
    + rewrite Hlast in *. apply H5; [done|done|]. rewrite Mb'. apply lastBytes_length.
Qed.

Lemma stderr_tail_bounded_witness :
  last (lines (fst (Write ("panic: x" +:+ String LF "") (fst (Write "old" newStderrRingBuffer)))))
    = Some "oldpanic: x".
Proof.
  exact (proj2 (proj2 (proj2 (stderr_tail_bounded ["old"] "panic: x"))) eq_refl).
Defined.
