(* ===== verification/PoolStream.v ===== *)
(** * PoolStream: [Pool.CallStream], [Pool.Call] and [Pool.Parse] in [pool/pool.go]

    One logical request in the worker pool: it is admitted, given a worker, its
    results are forwarded, and worker failures are retried on other workers.

    The goroutine of [CallStream] acts on a world [W]; what the channels, the
    context and the other goroutines decide is the environment [PoolEnv].  The
    results channel of one attempt is the list of what the worker sends on it
    before it closes.  The loop counters are unbounded naturals: an [int] does
    not wrap in the number of attempts a process can make. *)

From Stdlib Require Import String.
From S2P Require Import Prelude GoStrings WorkerErrors.
Open Scope stdpp_scope.

(** [StreamResultKind]. *)
Inductive StreamResultKind :=
  | StreamResultKindStream | StreamResultKindFinal | StreamResultKindError
  | StreamResultKindHeartbeat | StreamResultKindMetadata.

#[global] Instance StreamResultKind_eq_dec : EqDecision StreamResultKind.
Proof. solve_decision. Defined.

(** [StreamResult]. *)
Record StreamResult (X : Type) := mkResult {
  Kind : StreamResultKind;
  Data : string;
  Raw : string;
  Reasoning : string;
  Error : option (error X);
  Stacktrace : string;
  Reset : bool;
  ErrorCode : string;
  ErrorDetails : string
}.
Arguments mkResult {X}. Arguments Kind {X}. Arguments Data {X}. Arguments Raw {X}.
Arguments Reasoning {X}. Arguments Error {X}. Arguments Stacktrace {X}. Arguments Reset {X}.
Arguments ErrorCode {X}. Arguments ErrorDetails {X}.

Definition setData {X} (d : string) (r : StreamResult X) : StreamResult X :=
  mkResult (Kind r) d (Raw r) (Reasoning r) (Error r) (Stacktrace r) (Reset r) (ErrorCode r) (ErrorDetails r).
Definition setReset {X} (r : StreamResult X) : StreamResult X :=
  mkResult (Kind r) (Data r) (Raw r) (Reasoning r) (Error r) (Stacktrace r) true (ErrorCode r) (ErrorDetails r).

(** [Config], as far as requests read it. *)
Record Config := mkConfig {
  MaxRetries : Z;
  DisableStreamInfrastructureRetries : bool;
  hasSharedState : bool
}.

(** [CallResult]. *)
Record CallResult := mkCallResult {
  res_Data : string;
  res_Raw : string;
  res_Reasoning : string;
  Planned : string;
  Outcome : string
}.

(** The environment of a request.  [ctxErr] is the caller's context;
    [attemptErr] tells whether the attempt's own context is done (hung detection
    cancels it).  [ctxWins] is waiting for the next result: true when the select
    takes the caller's cancellation.  [send] is the select of the forwarding
    send; it tells whether the result was taken. *)
Record PoolEnv (W H X : Type) := mkPoolEnv {
  ctxErr : W -> option (error X);
  attemptErr : W -> bool;
  admission : W -> W * option (error X);
  getWorkerForRetry : option H -> W -> W * (H + error X);
  workerCallStream : H -> W -> W * (list (StreamResult X) + error X);
  workerParse : H -> W -> W * (string + error X);
  ctxWins : W -> W * bool;
  send : StreamResult X -> W -> W * bool;
  stderrWrap : error X -> option H -> W -> error X
}.
Arguments mkPoolEnv {W H X}. Arguments ctxErr {W H X}. Arguments attemptErr {W H X}.
Arguments admission {W H X}. Arguments getWorkerForRetry {W H X}. Arguments workerCallStream {W H X}.
Arguments workerParse {W H X}. Arguments ctxWins {W H X}. Arguments send {W H X}.
Arguments stderrWrap {W H X}.

(** What is fixed for a process: the error classifiers, and the JSON functions
    that read the phase of a metadata payload and rewrite its attempt. *)
Record Codec (X : Type) := mkCodec {
  isRetryable : error X -> bool;
  isCancellation : error X -> bool;
  decodePhase : string -> option string;
  reencode : string -> nat -> option string;
  formatErr : string -> error X -> string
}.
Arguments mkCodec {X}. Arguments isRetryable {X}. Arguments isCancellation {X}.
Arguments decodePhase {X}. Arguments reencode {X}. Arguments formatErr {X}.

(** What a request does, in order.  [PRestart] marks the worker unhealthy and
    dispatches its restart; it notes whether the caller was still there.
    [PForward] carries the attempt the result belongs to and whether it is
    planned metadata; [PFail] is a terminal error of the pool itself. *)
Inductive PoolAct (H X : Type) :=
  | PTrack (h : H)
  | PFirstByte (h : H)
  | PCleanup (h : H)
  | PForward (attempt : nat) (planned : bool) (r : StreamResult X)
  | PFail (err : error X)
  | PRestart (h : H) (callerLive : bool)
  | PDrain (h : H)
  | PDropScope
  | PClose
  | PDone.
Arguments PTrack {H X}. Arguments PFirstByte {H X}. Arguments PCleanup {H X}.
Arguments PForward {H X}. Arguments PFail {H X}. Arguments PRestart {H X}. Arguments PDrain {H X}.
Arguments PDropScope {H X}. Arguments PClose {H X}. Arguments PDone {H X}.

(** The variables of the goroutine. *)
Record StreamVars (W H X : Type) := mkVars {
  world : W;
  sentAnyResults : bool;
  lastFailed : option H;
  lastRetryableErr : option (error X);
  log : list (PoolAct H X)
}.
Arguments mkVars {W H X}. Arguments world {W H X}. Arguments sentAnyResults {W H X}.
Arguments lastFailed {W H X}. Arguments lastRetryableErr {W H X}. Arguments log {W H X}.

Section Pool.
Context {W H X : Type}.
Variable env : PoolEnv W H X.
Variable codec : Codec X.
Variable cfg : Config.

Local Abbreviation S := (StreamVars W H X).
Local Abbreviation SR := (StreamResult X).
Local Abbreviation E := (error X).

Definition setWorld (w : W) (s : S) : S :=
  mkVars w (sentAnyResults s) (lastFailed s) (lastRetryableErr s) (log s).
Definition note (a : PoolAct H X) (s : S) : S :=
  mkVars (world s) (sentAnyResults s) (lastFailed s) (lastRetryableErr s) (log s ++ [a]).
Definition setSent (s : S) : S :=
  mkVars (world s) true (lastFailed s) (lastRetryableErr s) (log s).
Definition setFailed (h : H) (s : S) : S :=
  mkVars (world s) (sentAnyResults s) (Some h) (lastRetryableErr s) (log s).
Definition setRetryable (e : option E) (s : S) : S :=
  mkVars (world s) (sentAnyResults s) (lastFailed s) e (log s).

(** [ctx.Err() == nil]. *)
Definition live (s : S) : bool := match ctxErr env (world s) with None => true | Some _ => false end.

(** [handle.healthy.Store(false); p.dispatchRestart(handle)]. *)
Definition restart (h : H) (s : S) : S := note (PRestart h (live s)) s.

(** The classifiers on [result.Error], which may be nil. *)
Definition retryable (e : option E) : bool := from_option (isRetryable codec) false e.
Definition cancellation (e : option E) : bool := from_option (isCancellation codec) false e.

(** [metadataPhase]. *)
Definition metadataPhase (data : string) : string := default "" (decodePhase codec data).

(** [rewriteMetadataAttempt], with the caller's fallback to the payload as it is. *)
Definition rewriteMetadataAttempt (data : string) (attempt : nat) : string :=
  default data (reencode codec data attempt).

Definition isPlannedMetadata (r : SR) : bool :=
  bool_decide (Kind r = StreamResultKindMetadata) && negb (metadataPhase (Data r) =s "outcome").

(** [sendStreamError]. *)
Definition sendStreamError (err : E) (s : S) : S :=
  let r := mkResult StreamResultKindError "" "" "" (Some err) "" false "" "" in
  let '(w, ok) := send env r (world s) in
  let s := setWorld w s in
  if ok then note (PFail err) s else s.

(** [drainResultsAndCheckRestart]; its goroutine is run at once. *)
Fixpoint drainResultsAndCheckRestart (results : list SR) (h : H) (s : S) : S :=
  match results with
  | [] => s
  | r :: results =>
      drainResultsAndCheckRestart results h
        (if bool_decide (Kind r = StreamResultKindError) && retryable (Error r) && negb (cancellation (Error r))
         then restart h s else s)
  end.

(** How the forwarding loop ends: the goroutine returns, or the attempt is over
    with or without a retryable error ([shouldRetry]). *)
Inductive LoopEnd := Return | Fell (shouldRetry : bool).

(** Stamp the attempt number onto a metadata event. *)
Definition stamp (attempt : nat) (r : SR) : SR :=
  if bool_decide (Kind r = StreamResultKindMetadata) && negb (Data r =s "")
  then setData (rewriteMetadataAttempt (Data r) attempt) r else r.

(** The forwarding loop over one attempt's results. *)
Fixpoint streamLoop (h : H) (attempt : nat) (needsReset suppress injectedReset : bool)
    (results : list SR) (s : S) : S * LoopEnd :=
  let '(w, done) := ctxWins env (world s) in
  let s := setWorld w s in
  if done then (drainResultsAndCheckRestart results h (note (PCleanup h) s), Return)
  else
    match results with
    | [] => (s, Fell false)
    | r :: results =>
        let planned := isPlannedMetadata r in
        let s := if planned then s else note (PFirstByte h) s in
        if bool_decide (Kind r = StreamResultKindHeartbeat)
        then streamLoop h attempt needsReset suppress injectedReset results s
        else
          let r := stamp attempt r in
          let isError := bool_decide (Kind r = StreamResultKindError) in
          if isError && negb (live s) && cancellation (Error r)
          then (note (PCleanup h) (note (PDrain h) s), Return)
          else if isError && retryable (Error r) then (setRetryable (Error r) s, Fell true)
          else
            let inject := needsReset && negb injectedReset && negb planned && negb suppress in
            let r := if inject then setReset r else r in
            let '(w, ok) := send env r (world s) in
            let s := setWorld w s in
            if ok then
              let s := note (PForward attempt planned r) s in
              let s := if planned then s else setSent s in
              if bool_decide (Kind r = StreamResultKindFinal) || bool_decide (Kind r = StreamResultKindError)
              then (note (PCleanup h) (note (PDrain h) s), Return)
              else streamLoop h attempt needsReset suppress (injectedReset || inject) results s
            else (note (PCleanup h) (drainResultsAndCheckRestart results h s), Return)
    end.

(** One attempt on a worker: true when another attempt is to be made. *)
Definition attemptStream (h : H) (attempt : nat) (suppress : bool) (s : S) : S * bool :=
  let s := note (PTrack h) s in
  let '(w, results) := workerCallStream env h (world s) in
  let s := setWorld w s in
  match results with
  | inr err =>
      let attemptCancelled := attemptErr env (world s) in
      let s := note (PCleanup h) s in
      let workerFailed := isRetryable codec err in
      let callerCancelled := negb (live s) in
      let shouldRestart := workerFailed || (negb callerCancelled && attemptCancelled) in
      let s := if shouldRestart && negb (callerCancelled && isCancellation codec err) then restart h s else s in
      if callerCancelled then (s, false)
      else if shouldRestart then (setFailed h (setRetryable (Some err) s), true)
      else (sendStreamError err s, false)
  | inl results =>
      let '(s, e) := streamLoop h attempt (sentAnyResults s) suppress false results s in
      match e with
      | Return => (s, false)
      | Fell shouldRetry =>
          let s := note (PCleanup h) s in
          if negb shouldRetry && negb (live s) then (s, false)
          else
            let s := restart h s in
            if negb (live s) then (s, false) else (setFailed h s, true)
      end
  end.

(** The error of a retry that found no worker. *)
Definition noWorkerErr (err : E) (s : S) : E :=
  match ctxErr env (world s) with
  | Some ctxErr => Wrap (formatErr codec "retry failed, no workers available" err) ctxErr
  | None => stderrWrap env (Wrap2 (formatErr codec "retry failed, no workers available" err)
              ErrPoolRetriesExhausted err) (lastFailed s) (world s)
  end.

(** The error after the last attempt. *)
Definition exhaustedErr (s : S) : E :=
  stderrWrap env
    (match lastRetryableErr s with
     | Some e => Wrap2 (formatErr codec "" e) ErrPoolRetriesExhausted e
     | None => Wrap "pool retries exhausted (no terminal stream frame)" ErrPoolRetriesExhausted
     end) (lastFailed s) (world s).

(** The retry loop: [n] attempts are left, [attempt] is the number of the next one,
    [currentHandle] the worker of the first one. *)
Fixpoint retryLoop (n : nat) (attempt : nat) (currentHandle : H) (suppress : bool) (s : S) : S :=
  match n with
  | O => sendStreamError (exhaustedErr s) s
  | Datatypes.S n =>
      let '(s, worker) :=
        if (0 <? attempt)%nat then
          let '(w, r) := getWorkerForRetry env (lastFailed s) (world s) in (setWorld w s, r)
        else (s, inl currentHandle) in
      match worker with
      | inr err => sendStreamError (noWorkerErr err s) s
      | inl h =>
          let '(s, again) := attemptStream h attempt suppress s in
          if again then retryLoop n (Datatypes.S attempt) currentHandle suppress s else s
      end
  end.

(** The goroutine with its deferred calls; [needsPartials] is the stream mode's. *)
Definition goroutine (needsPartials : bool) (handle : H) (s : S) : S :=
  let suppress := DisableStreamInfrastructureRetries cfg && needsPartials in
  let maxStreamRetries := if suppress then 0%Z else MaxRetries cfg in
  let s := retryLoop (Z.to_nat (maxStreamRetries + 1)) 0 handle suppress s in
  note PDone (note PClose (if hasSharedState cfg then note PDropScope s else s)).

Definition initVars (w : W) : S := mkVars w false None None [].

(** [CallStream]: an error, or the run of the goroutine. *)
Definition CallStream (needsPartials : bool) (w : W) : S * option E :=
  let '(w, err) := admission env w in
  let s := initVars w in
  match err with
  | Some err => (s, Some err)
  | None =>
      let '(w, r) := getWorkerForRetry env None (world s) in
      let s := setWorld w s in
      match r with
      | inr err =>
          (note PDone s,
           Some (match ctxErr env (world s) with
                 | Some ctxErr => Wrap (formatErr codec "could not acquire worker" err) ctxErr
                 | None => Wrap2 (formatErr codec "" err) ErrPoolUnavailable err
                 end))
      | inl handle => (goroutine needsPartials handle s, None)
      end
  end.

(** ** The unary call *)

(** [metadataOnlyCallResult]. *)
Definition metadataOnlyCallResult (planned outcome : string) : option CallResult :=
  if (planned =s "") && (outcome =s "") then None else Some (mkCallResult "" "" "" planned outcome).

(** The drain of the results channel in [Call] (a result of kind error carries
    an error); [ctx] is the caller's context
    when the channel closes. *)
Fixpoint callLoop (ctx : option E) (results : list SR) (planned outcome : string)
    : option CallResult * option E :=
  match results with
  | [] =>
      (metadataOnlyCallResult planned outcome,
       Some (match ctx with Some e => e | None => Plain "no final result received" end))
  | r :: results =>
      match Kind r with
      | StreamResultKindError =>
          (metadataOnlyCallResult planned outcome,
           (fun e => NewErrorWithMetadata e (Stacktrace r) (ErrorCode r) (ErrorDetails r)) <$> Error r)
      | StreamResultKindFinal =>
          (Some (mkCallResult (Data r) (Raw r) (Reasoning r) planned outcome), None)
      | StreamResultKindMetadata =>
          if metadataPhase (Data r) =s "outcome" then callLoop ctx results planned (Data r)
          else callLoop ctx results (Data r) ""
      | _ => callLoop ctx results planned outcome
      end
  end.

(** The results put on the channel, with the attempt and the planned mark of the
    forwarded ones, and what the consumer receives. *)
Definition outs (l : list (PoolAct H X)) : list (option (nat * bool) * SR) :=
  omap (fun a => match a with
                 | PForward attempt planned r => Some (Some (attempt, planned), r)
                 | PFail err =>
                     Some (None, mkResult StreamResultKindError "" "" "" (Some err) "" false "" "")
                 | _ => None
                 end) l.
Definition received (l : list (PoolAct H X)) : list SR := snd <$> outs l.

(** [Call]. *)
Definition Call (needsPartials : bool) (w : W) : S * (option CallResult * option E) :=
  let '(s, err) := CallStream needsPartials w in
  match err with
  | Some err => (s, (None, Some err))
  | None => (s, callLoop (ctxErr env (world s)) (received (log s)) "" "")
  end.

(** ** Parse *)

(** The retry loop of [Parse]. *)
Fixpoint parseLoop (n : nat) (s : S) : S * (string + E) :=
  match n with
  | O =>
      (s, inr (stderrWrap env
        (match lastRetryableErr s with
         | Some e => Wrap2 (formatErr codec "" e) ErrPoolRetriesExhausted e
         | None => Wrap "pool retries exhausted: %!w(<nil>)" ErrPoolRetriesExhausted
         end) (lastFailed s) (world s)))
  | Datatypes.S n =>
      let '(w, r) := getWorkerForRetry env (lastFailed s) (world s) in
      let s := setWorld w s in
      match r with
      | inr err =>
          (s, inr (match ctxErr env (world s), lastRetryableErr s with
                   | Some ctxErr, _ => Wrap (formatErr codec "retry failed, no workers available" err) ctxErr
                   | None, Some _ =>
                       stderrWrap env (Wrap2 (formatErr codec "retry failed, no workers available" err)
                         ErrPoolRetriesExhausted err) (lastFailed s) (world s)
                   | None, None => err
                   end))
      | inl h =>
          let s := note (PFirstByte h) (note (PTrack h) s) in
          let '(w, result) := workerParse env h (world s) in
          let s := note (PCleanup h) (setWorld w s) in
          match result with
          | inl v => (s, inl v)
          | inr err =>
              let workerFailed := isRetryable codec err in
              let callerCancelled := negb (live s) in
              let s := if workerFailed && negb (callerCancelled && isCancellation codec err)
                       then restart h s else s in
              if callerCancelled then (s, inr err)
              else if workerFailed then parseLoop n (setRetryable (Some err) (setFailed h s))
              else (s, inr err)
          end
      end
  end.

(** [Parse]. *)
Definition Parse (w : W) : S * (string + E) :=
  let '(w, err) := admission env w in
  let s := initVars w in
  match err with
  | Some err => (s, inr err)
  | None =>
      let '(s, r) := parseLoop (Z.to_nat (MaxRetries cfg + 1)) s in (note PDone s, r)
  end.

(** ** What the consumer sees *)

(** A closed context is the only reason a select does not take the result. *)
Class LawfulPoolEnv : Prop := {
  ctxWins_done : forall w, snd (ctxWins env w) = true -> is_Some (ctxErr env (fst (ctxWins env w)));
  send_declined : forall r w, snd (send env r w) = false -> is_Some (ctxErr env (fst (send env r w)))
}.

Lemma outs_app l k : outs (l ++ k) = outs l ++ outs k.
Proof. apply omap_app. Qed.

Definition terminal (r : SR) : bool :=
  bool_decide (Kind r = StreamResultKindFinal) || bool_decide (Kind r = StreamResultKindError).

(** The attempt of the last result that is not planned metadata. *)
Fixpoint lastAttempt (prev : option nat) (l : list (option (nat * bool) * SR)) : option nat :=
  match l with
  | [] => prev
  | (Some (a, false), _) :: l => lastAttempt (Some a) l
  | _ :: l => lastAttempt prev l
  end.

(** A result of a later attempt than the one before it is marked [Reset]. *)
Fixpoint coherent (prev : option nat) (l : list (option (nat * bool) * SR)) : Prop :=
  match l with
  | [] => True
  | (Some (a, false), r) :: l =>
      match prev with Some p => p = a \/ (p < a)%nat /\ Reset r = true | None => True end
      /\ coherent (Some a) l
  | _ :: l => coherent prev l
  end.

Lemma lastAttempt_app l k : forall prev, lastAttempt prev (l ++ k) = lastAttempt (lastAttempt prev l) k.
Proof. induction l as [|[[[a []]|] r] l IH]; intros prev; simpl; auto. Qed.

Lemma coherent_app l k : forall prev,
  coherent prev (l ++ k) <-> coherent prev l /\ coherent (lastAttempt prev l) k.
Proof.
  induction l as [|[[[a []]|] r] l IH]; intros prev; simpl; [tauto|apply IH| |apply IH].
  rewrite IH. tauto.
Qed.

(** The results so far: none is a heartbeat, each change of attempt is marked. *)
Definition wellFormed (l : list (option (nat * bool) * SR)) : Prop :=
  Forall (fun o => Kind o.2 <> StreamResultKindHeartbeat) l /\ coherent None l.
Definition unfinished (l : list (option (nat * bool) * SR)) : Prop :=
  Forall (fun o => terminal o.2 = false) l.

(** A request whose stream is still open, and one whose stream has ended. *)
Definition running (s : S) : Prop := wellFormed (outs (log s)) /\ unfinished (outs (log s)).
Definition ended (s : S) : Prop :=
  wellFormed (outs (log s))
  /\ (unfinished (outs (log s)) /\ is_Some (ctxErr env (world s))
      \/ exists pre t, outs (log s) = pre ++ [t] /\ unfinished pre /\ terminal t.2 = true).

(** Acts that put nothing on the channel. *)
Definition silent (a : PoolAct H X) : bool :=
  match a with PForward _ _ _ | PFail _ => false | _ => true end.

Lemma outs_note a s : silent a = true -> outs (log (note a s)) = outs (log s).
Proof. intros Ha. unfold note. simpl. rewrite outs_app. destruct a; try done; apply app_nil_r. Qed.

Lemma outs_restart h s : outs (log (restart h s)) = outs (log s).
Proof. by apply outs_note. Qed.

Lemma drain_outs results h : forall s,
  outs (log (drainResultsAndCheckRestart results h s)) = outs (log s)
  /\ world (drainResultsAndCheckRestart results h s) = world s.
Proof.
  induction results as [|r results IH]; intros s; simpl; [done|].
  destruct (IH (if bool_decide (Kind r = StreamResultKindError) && retryable (Error r) && negb (cancellation (Error r))
    then restart h s else s)) as [-> ->]. destruct (_ && _ && _); [|done]. by rewrite outs_restart.
Qed.

Lemma wellFormed_fail l (r : SR) :
  Kind r <> StreamResultKindHeartbeat -> wellFormed l -> wellFormed (l ++ [(None, r)]).
Proof.
  intros Hk [H1 H2]. split; [by apply Forall_app_2, Forall_singleton|]. apply coherent_app. by split.
Qed.

Section Lawful.
Context `{!LawfulPoolEnv}.

Lemma sendStreamError_ended err s : running s -> ended (sendStreamError err s).
Proof.
  intros [Hw Hu]. unfold sendStreamError. set (r := mkResult _ _ _ _ _ _ _ _ _).
  pose proof (send_declined r (world s)) as Hd. destruct (send env r (world s)) as [w ok].
  destruct ok; [|split; [done|left; split; [done|by apply Hd]]].
  unfold ended, note. simpl. rewrite outs_app. simpl. split; [by apply wellFormed_fail|].
  right. eexists _, _. split_and!; [done|done|done].
Qed.

(** The state of the reset mark within attempt [a]. *)
Definition resetState (a : nat) (needsReset suppress injected : bool) (s : S) : Prop :=
  (suppress = true -> needsReset = false)
  /\ match lastAttempt None (outs (log s)) with
     | None => needsReset = false
     | Some p => p = a \/ (p < a)%nat /\ needsReset = true /\ injected = false
     end.

Lemma running_outs s s' : outs (log s') = outs (log s) -> running s -> running s'.
Proof. unfold running. by intros ->. Qed.
Lemma resetState_same a n u i s s' :
  outs (log s') = outs (log s) -> resetState a n u i s -> resetState a n u i s'.
Proof. unfold resetState. by intros ->. Qed.

(** Forwarding one result of attempt [a]. *)
Lemma forward_ok a needsReset suppress injected planned r s :
  running s -> resetState a needsReset suppress injected s ->
  Kind r <> StreamResultKindHeartbeat ->
  let inject := needsReset && negb injected && negb planned && negb suppress in
  let r' := if inject then setReset r else r in
  let s' := note (PForward a planned r') s in
  wellFormed (outs (log s')) /\ resetState a needsReset suppress (injected || inject) s'
  /\ outs (log s') = outs (log s) ++ [(Some (a, planned), r')] /\ terminal r' = terminal r.
Proof.
  intros [[Hh Hc] Hu] [Hs Hl] Hk inject r' s'.
  assert (outs (log s') = outs (log s) ++ [(Some (a, planned), r')]) as Ho.
  { unfold s', note. simpl. by rewrite outs_app. }
  assert (Kind r' = Kind r) as Hk' by (unfold r'; by destruct inject).
  split_and!; [| |done|unfold terminal; by rewrite Hk'].
  - rewrite Ho. split; [apply Forall_app_2, Forall_singleton; [done|simpl; by rewrite Hk']|].
    apply coherent_app. split; [done|]. destruct planned; [done|]. simpl. split; [|done].
    destruct (lastAttempt None (outs (log s))) as [p|]; [|done].
    destruct Hl as [->|(Hp&Hn&Hi)]; [by left|right; split; [done|]].
    unfold r', inject. rewrite Hn, Hi. destruct suppress; [by rewrite Hs in Hn|done].
  - split; [done|]. rewrite Ho, lastAttempt_app. destruct planned; simpl.
    + unfold inject. rewrite andb_false_r. simpl. by rewrite orb_false_r.
    + by left.
Qed.

Lemma stamp_kind a r : Kind (stamp a r) = Kind r.
Proof. unfold stamp. by destruct (_ && _). Qed.

(** The flag tells whether anything but planned metadata was sent. *)
Definition synced (s : S) : Prop :=
  sentAnyResults s = match lastAttempt None (outs (log s)) with Some _ => true | None => false end.

Lemma cancelled_ended results h w s :
  running s -> is_Some (ctxErr env w) ->
  ended (drainResultsAndCheckRestart results h (note (PCleanup h) (setWorld w s))).
Proof.
  intros [Hw Hu] Hc. destruct (drain_outs results h (note (PCleanup h) (setWorld w s))) as [Ho Hw'].
  unfold ended. rewrite Ho, Hw', outs_note by done. split; [done|]. by left.
Qed.

Lemma streamLoop_ok h a needsReset suppress results : forall injected s,
  running s -> resetState a needsReset suppress injected s ->
  synced s ->
  let '(s', e) := streamLoop h a needsReset suppress injected results s in
  match e with
  | Return => ended s'
  | Fell _ => running s' /\ (exists i, resetState a needsReset suppress i s')
      /\ synced s'
  end.
Proof.
  induction results as [|r results IH]; intros injected s Hr Hst Hsent; cbn [streamLoop].
  - pose proof (ctxWins_done (world s)) as Hc. destruct (ctxWins env (world s)) as [w []]; simpl in Hc.
    + by apply cancelled_ended, Hc.
    + split_and!; [done|by exists injected|done].
  - pose proof (ctxWins_done (world s)) as Hc. destruct (ctxWins env (world s)) as [w []]; simpl in Hc.
    { by apply cancelled_ended, Hc. }
    set (planned := isPlannedMetadata r).
    set (s2 := if planned then setWorld w s else note (PFirstByte h) (setWorld w s)).
    assert (outs (log s2) = outs (log s) /\ sentAnyResults s2 = sentAnyResults s) as [Ho2 Hs2].
    { unfold s2. destruct planned; [done|]. by rewrite outs_note. }
    assert (synced s2) as Hsent2 by (unfold synced in *; by rewrite Ho2, Hs2).
    clear Hsent. rename Hsent2 into Hsent. apply (running_outs _ s2 Ho2) in Hr.
    apply (resetState_same _ _ _ _ _ s2 Ho2) in Hst. clearbody s2. clear Ho2 Hs2 Hc.
    case_bool_decide as Ehb; [by apply IH|].
    assert (Kind (stamp a r) <> StreamResultKindHeartbeat) as Hk by (by rewrite stamp_kind).
    set (r1 := stamp a r) in *.
    destruct (bool_decide (Kind r1 = StreamResultKindError) && negb (live s2) && cancellation (Error r1)) eqn:Ec.
    { apply andb_true_iff in Ec as [[_ El]%andb_true_iff _]. unfold live in El.
      destruct Hr as [Hw Hu]. unfold ended. rewrite !outs_note by done. split; [done|left].
      split; [done|]. simpl. destruct (ctxErr env (world s2)); [eauto|done]. }
    destruct (bool_decide (Kind r1 = StreamResultKindError) && retryable (Error r1)) eqn:Er.
    { split_and!; [done|by exists injected|done]. }
    set (inject := needsReset && negb injected && negb planned && negb suppress).
    set (r' := if inject then setReset r1 else r1).
    pose proof (send_declined r' (world s2)) as Hd. destruct (send env r' (world s2)) as [w2 ok]. simpl in Hd.
    destruct ok.
    + destruct (forward_ok a needsReset suppress injected planned r1 (setWorld w2 s2) Hr Hst Hk)
        as (Hw&Hst'&Ho&Ht). fold inject in Hw, Hst', Ho, Ht. fold r' in Hw, Hst', Ho, Ht.
      set (s3 := note (PForward a planned r') (setWorld w2 s2)) in *.
      set (s4 := if planned then s3 else setSent s3).
      assert (outs (log s4) = outs (log s3)) as Ho4 by (unfold s4; by destruct planned).
      unfold terminal in Ht. fold (terminal r') in Ht |- *. fold (terminal r1) in Ht. destruct (terminal r') eqn:Et.
      * unfold ended. rewrite !outs_note, Ho4 by done. split; [done|right].
        eexists _, _. split; [exact Ho|]. split; [apply Hr|done].
      * apply IH.
        -- unfold running. rewrite Ho4. split; [done|]. rewrite Ho. apply Forall_app_2, Forall_singleton; [apply Hr|done].
        -- by eapply resetState_same.
        -- unfold synced in *. rewrite Ho4, Ho, lastAttempt_app. unfold s4. by destruct planned.
    + destruct (drain_outs results h (setWorld w2 s2)) as [Ho Hw].
      unfold ended. rewrite !outs_note, Ho by done. destruct Hr. split; [done|left]. split; [done|].
      simpl. rewrite Hw. by apply Hd.
Qed.

(** Between two attempts: everything sent belongs to an earlier one. *)
Definition between (attempt : nat) (suppress : bool) (s : S) : Prop :=
  running s
  /\ match lastAttempt None (outs (log s)) with
     | None => sentAnyResults s = false
     | Some p => (p < attempt)%nat /\ suppress = false /\ sentAnyResults s = true
     end.

Lemma between_same attempt suppress s s' :
  outs (log s') = outs (log s) -> sentAnyResults s' = sentAnyResults s ->
  between attempt suppress s -> between attempt suppress s'.
Proof. unfold between, running. intros -> ->. done. Qed.

Lemma unlive s : live s = false -> is_Some (ctxErr env (world s)).
Proof. unfold live. destruct (ctxErr env (world s)); [eauto|done]. Qed.

Lemma running_cancelled s : running s -> live s = false -> ended s.
Proof. intros [Hw Hu] Hl. split; [done|]. left. split; [done|by apply unlive]. Qed.

(** An attempt either ends the stream or leaves it ready for the next attempt
    (under suppression there is none). *)
Lemma attemptStream_ok h attempt suppress s :
  between attempt suppress s ->
  let '(s', again) := attemptStream h attempt suppress s in
  if again then running s' /\ (suppress = false -> between (Datatypes.S attempt) suppress s') else ended s'.
Proof.
  intros Hb. unfold attemptStream.
  assert (forall w, between attempt suppress (setWorld w (note (PTrack h) s))) as H1.
  { intros w. eapply between_same; [| |exact Hb]; [apply outs_note; done|done]. }
  destruct (workerCallStream env h _) as [w results]. specialize (H1 w).
  set (s1 := setWorld w _) in *. clearbody s1. destruct results as [results|err].
  - destruct H1 as [Hr Hl].
    assert (resetState attempt (sentAnyResults s1) suppress false s1 /\ synced s1) as [Hst Hsy].
    { unfold resetState, synced. destruct (lastAttempt _ _); [|by rewrite Hl].
      destruct Hl as (?&->&->). split; [split; [done|by right]|done]. }
    pose proof (streamLoop_ok h attempt (sentAnyResults s1) suppress results false s1 Hr Hst Hsy) as H2.
    destruct (streamLoop _ _ _ _ _ _ s1) as [s2 [|b]]; [done|].
    destruct H2 as (Hr2&[i Hst2]&Hsy2).
    assert (running (note (PCleanup h) s2)) as Hr3 by (eapply running_outs; [|exact Hr2]; by apply outs_note).
    destruct (negb b && negb (live (note (PCleanup h) s2))) eqn:E.
    { apply andb_true_iff in E as [_ E%negb_true_iff]. by apply running_cancelled. }
    assert (running (restart h (note (PCleanup h) s2))) as Hr4
      by (eapply running_outs; [|exact Hr3]; apply outs_restart).
    destruct (live (restart h (note (PCleanup h) s2))) eqn:El; simpl; [|by apply running_cancelled].
    split; [done|]. intros Hsup. split; [done|]. unfold synced in Hsy2. destruct Hst2 as [_ Hst2].
    change (outs (log (setFailed h (restart h (note (PCleanup h) s2)))))
      with (outs (log (restart h (note (PCleanup h) s2)))).
    rewrite outs_restart, outs_note by done. simpl. destruct (lastAttempt None (outs (log s2))); [|done].
    split_and!; [|done|done]. destruct Hst2; lia.
  - assert (between attempt suppress (note (PCleanup h) s1)) as H2
      by (eapply between_same; [| |exact H1]; [by apply outs_note|done]).
    set (s2 := note (PCleanup h) s1) in *. clearbody s2. cbv zeta.
    set (sr := isRetryable codec err || _).
    set (s3 := if sr && _ then restart h s2 else s2).
    assert (between attempt suppress s3) as H3.
    { unfold s3. destruct (sr && negb _); [|done]. eapply between_same; [| |exact H2]; [apply outs_restart|done]. }
    assert (live s3 = live s2) as El by (unfold s3; by destruct (sr && negb _)).
    rewrite <- El in *. clearbody s3 sr. destruct (live s3) eqn:Elive; simpl.
    + destruct sr; [|apply sendStreamError_ended, H3].
      split; [apply H3|]. intros Hsup. split; [apply H3|]. destruct H3 as [_ H3]. simpl.
      destruct (lastAttempt None (outs (log s3))); [|done]. destruct H3. split; [lia|done].
    + apply running_cancelled; [apply H3|done].
Qed.

Lemma retryLoop_ok suppress handle n : forall attempt s,
  running s -> (n <> 0%nat -> between attempt suppress s) -> (suppress = true -> (n <= 1)%nat) ->
  ended (retryLoop n attempt handle suppress s).
Proof.
  induction n as [|n IH]; intros attempt s Hr Hb Hn; simpl; [by apply sendStreamError_ended|].
  specialize (Hb ltac:(done)).
  set (x := if (0 <? attempt)%nat then _ else _).
  assert (between attempt suppress (fst x)) as H1.
  { unfold x. destruct (0 <? attempt)%nat; [|done]. by destruct (getWorkerForRetry _ _ _). }
  destruct x as [s1 [h|err]]; simpl in H1; [|apply sendStreamError_ended, H1].
  pose proof (attemptStream_ok h attempt suppress s1 H1) as H2.
  destruct (attemptStream h attempt suppress s1) as [s2 []]; [|done]. destruct H2 as [H2 H3].
  apply IH; [done| |]; destruct suppress; try done.
  - intros Hn0. specialize (Hn eq_refl). lia.
  - auto.
  - intros _. specialize (Hn eq_refl). lia.
Qed.

Lemma CallStream_ended needsPartials w :
  snd (CallStream needsPartials w) = None -> ended (fst (CallStream needsPartials w)).
Proof.
  unfold CallStream. destruct (admission env w) as [w1 [e|]]; [done|].
  destruct (getWorkerForRetry env None _) as [w2 [h|e]]; [|done]. intros _. simpl. unfold goroutine.
  set (suppress := DisableStreamInfrastructureRetries cfg && needsPartials).
  assert (ended (retryLoop (Z.to_nat ((if suppress then 0 else MaxRetries cfg) + 1)) 0 h suppress
    (setWorld w2 (initVars w1)))) as H1.
  { apply retryLoop_ok.
    - split; [split; constructor|constructor].
    - intros _. split; [split; [split; constructor|constructor]|done].
    - intros ->. simpl. lia. }
  set (s := retryLoop _ _ _ _ _) in *. clearbody s. unfold ended.
  assert (outs (log (note PDone (note PClose (if hasSharedState cfg then note PDropScope s else s)))) = outs (log s)
    /\ world (note PDone (note PClose (if hasSharedState cfg then note PDropScope s else s))) = world s) as [-> ->];
    [|done].
  rewrite !outs_note by done. destruct (hasSharedState cfg); [by rewrite outs_note|done].
Qed.

(** C4. What a client of the pool sees.  Whatever workers, restarts,
    cancellation and the consumer do, the results of one admitted request
    contain no heartbeat; at most one of them is terminal, and it is the last;
    the request ends without a terminal result only when the caller's context is
    done; and whenever consecutive results (planned metadata aside) come from
    different attempts, the attempts increase and the later result is marked
    [Reset], so that a client that discards at resets never mixes the output of
    two workers. *)
Theorem pool_stream_view needsPartials w :
  snd (CallStream needsPartials w) = None ->
  let l := outs (log (fst (CallStream needsPartials w))) in
  Forall (fun o => Kind o.2 <> StreamResultKindHeartbeat) l /\ coherent None l
  /\ ((exists pre t, l = pre ++ [t] /\ unfinished pre /\ terminal t.2 = true)
      \/ unfinished l /\ is_Some (ctxErr env (world (fst (CallStream needsPartials w))))).
Proof. intros Hok. destruct (CallStream_ended needsPartials w Hok) as [[H1 H2] H3]. split; [done|]. split; [done|]. destruct H3; [by right|by left]. Qed.
End Lawful.

(** ** Forwarding within an attempt *)

(** What an attempt may show of its results: all but the heartbeats, stamped. *)
Definition visible (a : nat) (results : list SR) : list (option (nat * bool) * SR) :=
  (fun r => (Some (a, isPlannedMetadata r), stamp a r))
    <$> filter (fun r => Kind r <> StreamResultKindHeartbeat) results.

(** The same result, up to the reset mark. *)
Definition marked (o v : option (nat * bool) * SR) : Prop :=
  o.1 = v.1 /\ (o.2 = v.2 \/ o.2 = setReset v.2).

(** The results an attempt shows before its first retryable error. *)
Fixpoint untilRetry (l : list (option (nat * bool) * SR)) : list (option (nat * bool) * SR) :=
  match l with
  | [] => []
  | v :: l =>
      if bool_decide (Kind v.2 = StreamResultKindError) && retryable (Error v.2) then []
      else v :: untilRetry l
  end.

(** Nothing of an attempt is lost, invented or reordered.  What one attempt
    forwards is a prefix of its results, in order, less the heartbeats, with
    metadata stamped with the attempt's number and at most a reset mark added;
    it is all of them when the channel closed, and all before the first
    retryable error when that ended the attempt. *)
Theorem streamLoop_forwards h a needsReset suppress results : forall injected s,
  let '(s', e) := streamLoop h a needsReset suppress injected results s in
  exists fw, outs (log s') = outs (log s) ++ fw
    /\ Forall2 marked fw (take (length fw) (visible a results))
    /\ match e with
       | Return => True
       | Fell false => length fw = length (visible a results)
       | Fell true => length fw = length (untilRetry (visible a results))
       end.
Proof.
  induction results as [|r results IH]; intros injected s; cbn [streamLoop].
  - destruct (ctxWins env (world s)) as [w []].
    + exists []. destruct (drain_outs [] h (note (PCleanup h) (setWorld w s))) as [-> _].
      rewrite outs_note, app_nil_r by done. by split_and!.
    + exists []. rewrite app_nil_r. by split_and!.
  - destruct (ctxWins env (world s)) as [w []].
    { exists []. destruct (drain_outs (r :: results) h (note (PCleanup h) (setWorld w s))) as [-> _].
      rewrite outs_note, app_nil_r by done. by split_and!. }
    set (planned := isPlannedMetadata r).
    set (s2 := if planned then setWorld w s else note (PFirstByte h) (setWorld w s)).
    assert (outs (log s2) = outs (log s)) as Ho2 by (unfold s2; destruct planned; [done|by rewrite outs_note]).
    rewrite <- Ho2. clearbody s2. unfold visible. rewrite filter_cons.
    case_bool_decide as Ehb; [rewrite decide_False by tauto; by apply IH|]. rewrite decide_True by done.
    fold (visible a results). simpl. fold planned. set (r1 := stamp a r) in *.
    destruct (bool_decide (Kind r1 = StreamResultKindError) && negb (live s2) && cancellation (Error r1)).
    { exists []. rewrite !outs_note, app_nil_r by done. by split_and!. }
    destruct (bool_decide (Kind r1 = StreamResultKindError) && retryable (Error r1)) eqn:Er.
    { exists []. simpl. rewrite app_nil_r. by split_and!. }
    set (inject := needsReset && negb injected && negb planned && negb suppress).
    set (r' := if inject then setReset r1 else r1).
    assert (marked (Some (a, planned), r') (Some (a, planned), r1)) as Hm
      by (split; [done|]; unfold r'; destruct inject; auto).
    destruct (send env r' (world s2)) as [w2 []].
    2:{ exists []. rewrite outs_note, app_nil_r by done.
        destruct (drain_outs results h (setWorld w2 s2)) as [-> _]. by split_and!. }
    set (s3 := note (PForward a planned r') (setWorld w2 s2)).
    assert (outs (log s3) = outs (log s2) ++ [(Some (a, planned), r')]) as Ho3.
    { unfold s3, note. simpl. by rewrite outs_app. }
    set (s4 := if planned then s3 else setSent s3).
    assert (outs (log s4) = outs (log s3)) as Ho4 by (unfold s4; by destruct planned). rewrite Ho3 in Ho4.
    destruct (bool_decide _ || bool_decide _).
    + exists [(Some (a, planned), r')]. rewrite !outs_note, Ho4 by done. split_and!; [done| |done].
      simpl. by constructor.
    + specialize (IH (injected || inject) s4).
      destruct (streamLoop h a needsReset suppress (injected || inject) results s4) as [s5 e].
      destruct IH as (fw&Ho&Hf&He). exists ((Some (a, planned), r') :: fw).
      rewrite Ho, Ho4, <- app_assoc. split_and!; [done|simpl; by constructor|].
      destruct e as [|[]]; simpl; [done| |by rewrite He].
      replace (bool_decide (Kind r1 = StreamResultKindError) && retryable (Error r1)) with false.
      simpl. by rewrite He.
Qed.
End Pool.

(** ** A concrete pool: worker [h] answers as told, a failed worker's successor is the next *)

Module PoolScenario.
Local Abbreviation Status := (Code * string)%type.
Definition frame (k : StreamResultKind) (d : string) (e : option (error Status)) : StreamResult Status :=
  mkResult k d "" "" e "" false "" "".

(** The world counts the results taken; the caller leaves at [cancelAt]. *)
Definition env (cancelAt : nat) (worker : nat -> list (StreamResult Status) + error Status) : PoolEnv nat nat Status :=
  mkPoolEnv (fun w => if (cancelAt <=? w)%nat then Some ContextCanceled else None) (fun _ => false)
    (fun w => (w, None)) (fun last w => (w, inl (match last with Some h => S h | None => O end)))
    (fun h w => (w, worker h))
    (fun h w => (w, match worker h with inl _ => inl "parsed" | inr e => inr e end))
    (fun w => (w, false)) (fun _ w => (S w, true)) (fun e _ _ => e).

Definition codec : Codec Status :=
  mkCodec (isRetryableWorkerError ErrorScenario.text ErrorScenario.FromError)
    (isCallerCancellationError ErrorScenario.text ErrorScenario.FromError)
    (fun d => Some (if HasPrefix d "outcome" then "outcome" else "planned"))
    (fun d a => Some (d +:+ (match a with O => "#0" | _ => "#1" end))) (fun t _ => t).

Definition reset : error Status := Foreign (Unavailable, "connection reset").

(** Worker 0 dies mid-stream, worker 1 finishes. *)
Definition failover (h : nat) : list (StreamResult Status) + error Status :=
  inl (match h with
       | O => [frame StreamResultKindMetadata "plan" None; frame StreamResultKindHeartbeat "" None;
               frame StreamResultKindStream "a" None; frame StreamResultKindError "" (Some reset)]
       | _ => [frame StreamResultKindMetadata "plan" None; frame StreamResultKindStream "b" None;
               frame StreamResultKindMetadata "outcome" None; frame StreamResultKindFinal "b!" None]
       end).
Definition cfg : Config := mkConfig 2 false true.
Definition run : StreamVars nat nat Status := fst (CallStream (env 99 failover) codec cfg true 0%nat).

#[global] Instance env_lawful cancelAt worker : LawfulPoolEnv (env cancelAt worker).
Proof. split; done. Qed.

(** The output of the second worker is marked. *)
Example run_received :
  (fun r => (Data r, Reset r)) <$> received (log run)
    = [("plan#0", false); ("a", false); ("plan#1", false); ("b", true); ("outcome#1", false); ("b!", false)].
Proof. reflexivity. Qed.
End PoolScenario.

Lemma pool_stream_view_witness :
  snd (CallStream (PoolScenario.env 99 PoolScenario.failover) PoolScenario.codec PoolScenario.cfg true 0%nat) = None
  /\ coherent None (outs (log PoolScenario.run)).
Proof.
  split; [reflexivity|].
  exact (proj1 (proj2 (pool_stream_view (PoolScenario.env 99 PoolScenario.failover) PoolScenario.codec
    PoolScenario.cfg true 0%nat eq_refl))).
Defined.
