(* ===== verification/PoolRequest.v ===== *)
(** * PoolRequest: the accounts of a pool request ([pool/pool.go])

    What [CallStream], [Call] and [Parse] of [PoolStream] do to the pool around a
    request: each attempt is tracked on its worker and released, workers are
    restarted only for cause, the deferred calls run once and in order, and the
    unary call reduces the stream to the result the reference gives. *)

From Stdlib Require Import String.
From S2P Require Import Prelude GoStrings WorkerErrors PoolStream.
Open Scope stdpp_scope.

(** ** The life of a request *)

(** Where a request stands: between attempts ([n] are over, [last] is the worker
    of the last), in attempt [n] on [h], past its terminal error, and through
    its deferred calls. *)
Inductive Phase (H : Type) :=
  | Idle (n : nat) (last : option H)
  | Active (n : nat) (h : H)
  | Over (n : nat)
  | Dropped (n : nat)
  | Closed (n : nat)
  | Finished (n : nat).
Arguments Idle {H}. Arguments Active {H}. Arguments Over {H}. Arguments Dropped {H}.
Arguments Closed {H}. Arguments Finished {H}.

Section Life.
Context {W H X : Type}.
Implicit Types (p q : Phase H) (a : PoolAct H X) (s : StreamVars W H X).
Variable scoped : bool.

(** What a request may do in each phase. *)
Inductive step : Phase H -> PoolAct H X -> Phase H -> Prop :=
  | step_track n l h : step (Idle n l) (PTrack h) (Active n h)
  | step_firstByte n h : step (Active n h) (PFirstByte h) (Active n h)
  | step_forward n h planned r : step (Active n h) (PForward n planned r) (Active n h)
  | step_drain n h : step (Active n h) (PDrain h) (Active n h)
  | step_restart n h b : step (Active n h) (PRestart h b) (Active n h)
  | step_cleanup n h : step (Active n h) (PCleanup h) (Idle (S n) (Some h))
  | step_restartLast n h b : step (Idle n (Some h)) (PRestart h b) (Idle n (Some h))
  | step_fail n l e : step (Idle n l) (PFail e) (Over n)
  | step_dropIdle n l : scoped = true -> step (Idle n l) PDropScope (Dropped n)
  | step_dropOver n : scoped = true -> step (Over n) PDropScope (Dropped n)
  | step_closeIdle n l : scoped = false -> step (Idle n l) PClose (Closed n)
  | step_closeOver n : scoped = false -> step (Over n) PClose (Closed n)
  | step_close n : step (Dropped n) PClose (Closed n)
  | step_done n : step (Closed n) PDone (Finished n).

(** A sequence of acts, from the start of a request. *)
Inductive lives : list (PoolAct H X) -> Phase H -> Prop :=
  | lives_start : lives [] (Idle 0 None)
  | lives_step l p a q : lives l p -> step p a q -> lives (l ++ [a]) q.

Lemma lives_note s p a q : lives (log s) p -> step p a q -> lives (log (note a s)) q.
Proof. apply lives_step. Qed.
End Life.

Create HintDb pool.
#[export] Hint Resolve lives_note : pool.
#[export] Hint Constructors step : pool.

Section Account.
Context {W H X : Type}.
Variable env : PoolEnv W H X.
Variable codec : Codec X.
Variable cfg : Config.
Implicit Types (s : StreamVars W H X).
Local Abbreviation lives := (@lives H X (hasSharedState cfg)).
Local Abbreviation step := (@step H X (hasSharedState cfg)).

Lemma drain_lives results h p : (forall b, step p (PRestart h b) p) ->
  forall s, lives (log s) p -> lives (log (drainResultsAndCheckRestart env codec results h s)) p.
Proof.
  intros Hp. induction results as [|r results IH]; intros s Hs; simpl; [done|]. apply IH.
  destruct (_ && _); [|done]. by eapply lives_note.
Qed.

Lemma streamLoop_lives h n needsReset suppress results : forall injected s,
  lives (log s) (Active n h) ->
  let '(s', e) := streamLoop env codec h n needsReset suppress injected results s in
  lives (log s') (match e with Return => Idle (S n) (Some h) | Fell _ => Active n h end).
Proof.
  induction results as [|r results IH]; intros injected s Hs; cbn [streamLoop];
    destruct (ctxWins env (world s)) as [w []]; try done.
  1, 2: apply drain_lives; eauto with pool.
  set (s2 := if isPlannedMetadata codec r then _ else _).
  assert (lives (log s2) (Active n h)) as Hs2 by (unfold s2; destruct (isPlannedMetadata codec r); eauto with pool).
  clearbody s2. case_bool_decide; [by apply IH|].
  destruct (_ && cancellation _ _); [eauto 6 with pool|]. destruct (_ && retryable _ _); [done|].
  destruct (send env _ _) as [w2 []].
  2:{ apply (lives_note _ _ (Active n h)); [apply drain_lives; eauto with pool|constructor]. }
  set (s3 := note (PForward n _ _) _).
  assert (lives (log s3) (Active n h)) as Hs3 by (eapply lives_note; [exact Hs2|constructor]).
  set (s4 := if isPlannedMetadata codec r then s3 else setSent s3).
  assert (lives (log s4) (Active n h)) as Hs4 by (unfold s4; by destruct (isPlannedMetadata codec r)).
  clearbody s4. destruct (_ || _); [eauto 6 with pool|by apply IH].
Qed.

Lemma sendStreamError_lives err s n l :
  lives (log s) (Idle n l) ->
  lives (log (sendStreamError env err s)) (Idle n l) \/ lives (log (sendStreamError env err s)) (Over n).
Proof. intros Hs. unfold sendStreamError. destruct (send env _ _) as [w []]; [right|by left]. eauto with pool. Qed.

(** Between attempts, or past the terminal error, with [n] attempts made. *)
Definition rests (n : nat) s : Prop := (exists l, lives (log s) (Idle n l)) \/ lives (log s) (Over n).

Lemma attemptStream_lives h n suppress s l :
  lives (log s) (Idle n l) ->
  let '(s', again) := attemptStream env codec h n suppress s in
  if again then exists l', lives (log s') (Idle (S n) l') else rests (S n) s'.
Proof.
  intros Hs. unfold attemptStream.
  assert (lives (log (note (PTrack h) s)) (Active n h)) as H1 by eauto with pool.
  destruct (workerCallStream env h _) as [w [results|err]].
  - pose proof (streamLoop_lives h n (sentAnyResults (setWorld w (note (PTrack h) s))) suppress results false
      (setWorld w (note (PTrack h) s)) H1) as H2.
    destruct (streamLoop _ _ _ _ _ _ _ _ _) as [s2 [|b]]; [left; eauto|].
    assert (lives (log (note (PCleanup h) s2)) (Idle (S n) (Some h))) as H3 by eauto with pool.
    destruct (_ && _); [left; eauto|].
    assert (lives (log (restart env h (note (PCleanup h) s2))) (Idle (S n) (Some h))) as H4
      by (eapply lives_note; [exact H3|constructor]).
    destruct (negb _); [left; eauto|]. by exists (Some h).
  - assert (lives (log (note (PCleanup h) (setWorld w (note (PTrack h) s)))) (Idle (S n) (Some h))) as H2
      by eauto with pool.
    set (s2 := note (PCleanup h) _) in *. cbv zeta. set (sr := isRetryable codec err || _).
    set (s3 := if sr && _ then restart env h s2 else s2).
    assert (lives (log s3) (Idle (S n) (Some h))) as H3.
    { unfold s3. destruct (sr && _); [|done]. eapply lives_note; [exact H2|constructor]. }
    clearbody s3 sr. destruct (negb (live env s2)); [left; eauto|]. destruct sr; [by exists (Some h)|].
    destruct (sendStreamError_lives err s3 _ _ H3); [left; eauto|by right].
Qed.

Lemma retryLoop_lives handle suppress k : forall n s l,
  lives (log s) (Idle n l) ->
  exists m, (n <= m <= n + k)%nat /\ rests m (retryLoop env codec k n handle suppress s).
Proof.
  induction k as [|k IH]; intros n s l Hs; simpl.
  { exists n. split; [lia|]. destruct (sendStreamError_lives (exhaustedErr env codec s) s _ _ Hs); [left; eauto|by right]. }
  set (x := if (0 <? n)%nat then _ else _).
  assert (lives (log (fst x)) (Idle n l)) as H1.
  { unfold x. destruct (0 <? n)%nat; [|done]. by destruct (getWorkerForRetry _ _ _). }
  destruct x as [s1 [h|err]]; simpl in H1.
  - pose proof (attemptStream_lives h n suppress s1 l H1) as H2.
    destruct (attemptStream env codec h n suppress s1) as [s2 []].
    + destruct H2 as [l' H2]. destruct (IH (S n) s2 l' H2) as (m&Hm&Hr). exists m. split; [lia|done].
    + exists (S n). split; [lia|done].
  - exists n. split; [lia|]. destruct (sendStreamError_lives (noWorkerErr env codec err s1) s1 _ _ H1); [left; eauto|by right].
Qed.

(** The attempts a request is given. *)
Definition budget (needsPartials : bool) : nat :=
  if DisableStreamInfrastructureRetries cfg && needsPartials then 1%nat else Z.to_nat (MaxRetries cfg + 1).

(** C13. The accounts of an admitted streaming request always balance.  Every
    attempt is tracked on one worker and released on the same worker before the
    next begins; results are forwarded, drained and stamped only inside the
    attempt they belong to; only the current or the last worker is restarted;
    the pool's own error is sent at most once and after every attempt; then the
    shared-state scope (when there is one) is dropped, the channel is closed and
    the request is ended, once each and in that order.  The attempts are at most
    the retry budget, and at most one when a stream's retries are disabled. *)
Theorem request_accounts needsPartials w :
  let '(s, err) := CallStream env codec cfg needsPartials w in
  match err with
  | None => exists n, (n <= budget needsPartials)%nat /\ lives (log s) (Finished n)
  | Some _ => log s = [] \/ log s = [PDone]
  end.
Proof.
  unfold CallStream. destruct (admission env w) as [w1 [e|]]; [by left|].
  destruct (getWorkerForRetry env None _) as [w2 [h|e]]; [|by right]. unfold goroutine.
  set (k := Z.to_nat _).
  destruct (retryLoop_lives h (DisableStreamInfrastructureRetries cfg && needsPartials) k 0
    (setWorld w2 (initVars w1)) None ltac:(constructor)) as (m&Hm&Hr).
  exists m. split. { unfold budget, k in *. destruct (_ && _); lia. }
  set (s := retryLoop _ _ _ _ _ _ _) in *. clearbody s.
  eapply lives_note; [|constructor].
  destruct Hr as [[l Hr]|Hr]; revert Hr; destruct (hasSharedState cfg); eauto with pool.
Qed.
End Account.

(** ** Restarts *)

Section Blame.
Context {W H X : Type}.
Variable env : PoolEnv W H X.
Variable codec : Codec X.
Variable cfg : Config.
Implicit Types (s : StreamVars W H X) (h : H) (e : error X).

(** The errors a worker reports to a request: on setting up a stream, in an
    error result, or from a parse. *)
Definition streamReports h e : Prop :=
  (exists w, snd (workerCallStream env h w) = inr e)
  \/ (exists w rs r, snd (workerCallStream env h w) = inl rs /\ r ∈ rs
        /\ Kind r = StreamResultKindError /\ Error r = Some e).
Definition parseReports h e : Prop := exists w, snd (workerParse env h w) = inr e.

(** A failure of the worker itself, not the echo of a cancellation. *)
Definition workerFault (reports : H -> error X -> Prop) h : Prop :=
  exists e, reports h e /\ isRetryable codec e = true /\ isCancellation codec e = false.

(** A restart made after the caller left is for a fault of that worker. *)
Definition excused (reports : H -> error X -> Prop) (a : PoolAct H X) : Prop :=
  match a with PRestart h false => workerFault reports h | _ => True end.

Section Reports.
Variable reports : H -> error X -> Prop.
Local Abbreviation justified s := (Forall (excused reports) (log s)).

Lemma justified_note a s : justified s -> excused reports a -> justified (note a s).
Proof. intros Hs Ha. by apply Forall_app_2, Forall_singleton. Qed.

Lemma justified_fault h s : justified s -> workerFault reports h -> justified (restart env h s).
Proof. intros Hs Ha. apply justified_note; [done|]. simpl. by destruct (live env s). Qed.

Lemma justified_live h s : justified s -> live env s = true -> justified (restart env h s).
Proof. intros Hs Ha. apply justified_note; [done|]. simpl. by rewrite Ha. Qed.

(** Every error result in [rs] is one [h] reports. *)
Definition reported h (rs : list (StreamResult X)) : Prop :=
  Forall (fun r => forall e, Kind r = StreamResultKindError -> Error r = Some e -> reports h e) rs.

Lemma fault_of h (r : StreamResult X) rs :
  reported h (r :: rs) -> Kind r = StreamResultKindError ->
  retryable codec (Error r) = true -> cancellation codec (Error r) = false -> workerFault reports h.
Proof.
  intros [Hr _]%Forall_cons Hk Hret Hcan. destruct (Error r) as [e|] eqn:Ee; [|done].
  exists e. by split; [apply Hr|].
Qed.

Lemma drain_justified h rs : reported h rs ->
  forall s, justified s -> justified (drainResultsAndCheckRestart env codec rs h s).
Proof.
  induction rs as [|r rs IH]; intros Hrs s Hs; simpl; [done|].
  apply IH; [by apply Forall_cons in Hrs as [_ Hrs]|].
  destruct (bool_decide _ && _ && _) eqn:E; [|done].
  apply andb_true_iff in E as [[Hk%bool_decide_eq_true Hret]%andb_true_iff Hcan%negb_true_iff].
  by eapply justified_fault, fault_of.
Qed.

(** When a retryable error ends the loop, the caller is still there or the
    worker is at fault. *)
Lemma streamLoop_justified h n needsReset suppress rs : reported h rs -> forall injected s,
  justified s ->
  let '(s', e) := streamLoop env codec h n needsReset suppress injected rs s in
  justified s' /\ (e = Fell true -> live env s' = true \/ workerFault reports h).
Proof.
  induction rs as [|r rs IH]; intros Hrs injected s Hs; cbn [streamLoop];
    destruct (ctxWins env (world s)) as [w []]; try by split.
  1, 2: split; [apply drain_justified; [done|by apply justified_note]|done].
  set (s2 := if isPlannedMetadata codec r then _ else _).
  assert (justified s2) as Hs2 by (unfold s2; destruct (isPlannedMetadata codec r); [done|by apply justified_note]).
  clearbody s2. pose proof Hrs as [_ Hrs']%Forall_cons. case_bool_decide as Ehb; [by apply IH|].
  assert (Error (stamp codec n r) = Error r) as -> by (unfold stamp; by destruct (_ && _)).
  rewrite stamp_kind. destruct (bool_decide _ && negb _ && cancellation _ _) eqn:Ec.
  { split; [|done]. by do 2 (apply justified_note; [|done]). }
  destruct (bool_decide _ && retryable _ _) eqn:Er.
  { apply andb_true_iff in Er as [Hk Hret]. rewrite Hk in Ec. split; [done|]. intros _.
    destruct (live env s2) eqn:El; [by left|right].
    apply (fault_of h r rs); [done|by apply bool_decide_eq_true in Hk|done|done]. }
  destruct (send env _ _) as [w2 []].
  2:{ split; [|done]. apply justified_note; [|done]. by apply drain_justified. }
  set (s3 := note (PForward n _ _) _).
  assert (justified s3) as Hs3 by (by apply justified_note).
  set (s4 := if isPlannedMetadata codec r then s3 else setSent s3).
  assert (justified s4) as Hs4 by (unfold s4; by destruct (isPlannedMetadata codec r)).
  clearbody s4. destruct (_ || _); [split; [|done]; by do 2 (apply justified_note; [|done])|by apply IH].
Qed.
End Reports.

Lemma sendStreamError_justified reports err s :
  Forall (excused reports) (log s) -> Forall (excused reports) (log (sendStreamError env err s)).
Proof. intros Hs. unfold sendStreamError. destruct (send env _ _) as [w []]; [by apply justified_note|done]. Qed.

Lemma attemptStream_justified h n suppress s :
  Forall (excused streamReports) (log s) ->
  Forall (excused streamReports) (log (fst (attemptStream env codec h n suppress s))).
Proof.
  intros Hs. unfold attemptStream. assert (Forall (excused streamReports) (log (note (PTrack h) s))) as H1
    by (by apply justified_note).
  destruct (workerCallStream env h _) as [w [rs|err]] eqn:Ew.
  - set (s1 := setWorld w _).
    assert (reported streamReports h rs) as Hrs.
    { apply Forall_forall. intros r Hin e Hk He. right. eexists _, rs, r. by rewrite Ew. }
    pose proof (streamLoop_justified streamReports h n (sentAnyResults s1) suppress rs Hrs false s1 H1) as H2.
    destruct (streamLoop _ _ _ _ _ _ _ _ s1) as [s2 [|b]]; [apply H2|]. destruct H2 as [H2 Hb].
    assert (Forall (excused streamReports) (log (note (PCleanup h) s2))) as H3 by (by apply justified_note).
    destruct (negb b && negb (live env (note (PCleanup h) s2))) eqn:El; [done|].
    set (s4 := restart env h _). assert (Forall (excused streamReports) (log s4)) as H4.
    { destruct (live env (note (PCleanup h) s2)) eqn:Elive; [by apply justified_live|].
      destruct b; [|done]. destruct (Hb eq_refl) as [Hl|Hf]; [|by apply justified_fault].
      by change (live env (note (PCleanup h) s2)) with (live env s2) in Elive; rewrite Hl in Elive. }
    by destruct (negb (live env s4)).
  - set (s2 := note (PCleanup h) _).
    assert (Forall (excused streamReports) (log s2)) as H2 by (by apply justified_note). cbv zeta.
    set (s3 := if _ : bool then restart env h s2 else s2).
    assert (Forall (excused streamReports) (log s3)) as H3.
    { unfold s3. destruct (live env s2) eqn:Elive; simpl.
      - destruct (_ && _); [by apply justified_live|done].
      - rewrite orb_false_r. destruct (isRetryable codec err && _) eqn:E; [|done].
        apply andb_true_iff in E as [E1 E2%negb_true_iff]. apply justified_fault; [done|].
        exists err. split; [|done]. left. eexists. by rewrite Ew. }
    clearbody s3. destruct (negb (live env s2)); [done|]. destruct (_ || _); [done|].
    by apply sendStreamError_justified.
Qed.

Lemma retryLoop_justified handle suppress k : forall n s,
  Forall (excused streamReports) (log s) ->
  Forall (excused streamReports) (log (retryLoop env codec k n handle suppress s)).
Proof.
  induction k as [|k IH]; intros n s Hs; simpl; [by apply sendStreamError_justified|].
  set (x := if (0 <? n)%nat then _ else _).
  assert (Forall (excused streamReports) (log (fst x))) as H1.
  { unfold x. destruct (0 <? n)%nat; [|done]. by destruct (getWorkerForRetry _ _ _). }
  destruct x as [s1 [h|err]]; simpl in H1; [|by apply sendStreamError_justified].
  pose proof (attemptStream_justified h n suppress s1 H1) as H2.
  destruct (attemptStream env codec h n suppress s1) as [s2 []]; [by apply IH|done].
Qed.

Lemma parseLoop_justified k : forall s,
  Forall (excused parseReports) (log s) -> Forall (excused parseReports) (log (fst (parseLoop env codec k s))).
Proof.
  induction k as [|k IH]; intros s Hs; cbn [parseLoop]; [done|].
  destruct (getWorkerForRetry _ _ _) as [w1 [h|err]]; [|done]. set (s1 := note (PFirstByte h) _).
  destruct (workerParse env h (world s1)) as [w2 [v|err]] eqn:Ew.
  - cbn [fst]. by do 3 (apply justified_note; [|done]).
  - set (s2 := note (PCleanup h) _). cbv zeta.
    assert (Forall (excused parseReports) (log s2)) as H2 by (by do 3 (apply justified_note; [|done])).
    set (s3 := if _ : bool then restart env h s2 else s2).
    assert (Forall (excused parseReports) (log s3)) as H3.
    { unfold s3. destruct (live env s2) eqn:Elive; simpl.
      - destruct (_ && _); [by apply justified_live|done].
      - destruct (isRetryable codec err && _) eqn:E; [|done].
        apply andb_true_iff in E as [E1 E2%negb_true_iff]. apply justified_fault; [done|].
        exists err. split; [|done]. eexists. by rewrite Ew. }
    clearbody s3. destruct (negb _); [done|]. destruct (isRetryable codec err); [by apply IH|done].
Qed.

(** C14. A caller's cancellation never costs a worker.  If a stream or a parse
    restarts a worker when the caller's context is already done, that worker
    itself reported, on setting up the call or in a result of it, a retryable
    error that is not cancellation shaped. *)
Theorem restart_blames_worker needsPartials w h :
  (PRestart h false ∈ log (fst (CallStream env codec cfg needsPartials w)) -> workerFault streamReports h)
  /\ (PRestart h false ∈ log (fst (Parse env codec cfg w)) -> workerFault parseReports h).
Proof.
  assert (forall reports l, Forall (excused reports) l -> PRestart h false ∈ l -> workerFault reports h) as Hin.
  { intros reports l Hl Hel. exact (proj1 (Forall_forall _ _) Hl _ Hel). }
  split; apply Hin.
  - unfold CallStream. destruct (admission env w) as [w1 [e|]]; [constructor|].
    destruct (getWorkerForRetry env None _) as [w2 [h'|e]]; [|by repeat constructor]. unfold goroutine. cbn [fst].
    set (s := retryLoop _ _ _ _ _ _ _).
    assert (Forall (excused streamReports) (log s)) as Hs by (apply retryLoop_justified; constructor).
    do 2 (apply justified_note; [|done]). destruct (hasSharedState cfg); [by apply justified_note|done].
  - unfold Parse. destruct (admission env w) as [w1 [e|]]; [constructor|].
    pose proof (parseLoop_justified (Z.to_nat (MaxRetries cfg + 1)) (initVars w1) ltac:(constructor)) as Hp.
    destruct (parseLoop _ _ _ _) as [s r]. by apply justified_note.
Qed.
End Blame.

(** ** The unary calls *)

Section Unary.
Context {W H X : Type}.
Variable env : PoolEnv W H X.
Variable codec : Codec X.
Variable cfg : Config.
Local Abbreviation planned := (fun r : StreamResult X => Is_true (isPlannedMetadata codec r)).
Local Abbreviation metadata := (fun r : StreamResult X => Kind r = StreamResultKindMetadata).

(** The routing metadata of a stream: the last planned event, and the outcome
    when it came after that. *)
Definition lastPlanned (rs : list (StreamResult X)) : string := default "" (Data <$> last (filter planned rs)).
Definition lastOutcome (rs : list (StreamResult X)) : string :=
  match last (filter metadata rs) with
  | Some r => if isPlannedMetadata codec r then "" else Data r
  | None => ""
  end.

(** The accumulators of [callLoop] after a stream. *)
Definition plannedFrom (p : string) (rs : list (StreamResult X)) : string :=
  default p (Data <$> last (filter planned rs)).
Definition outcomeFrom (o : string) (rs : list (StreamResult X)) : string :=
  match last (filter metadata rs) with
  | Some r => if isPlannedMetadata codec r then "" else Data r
  | None => o
  end.

Lemma callLoop_skip ctx rs : forall rest p o,
  Forall (fun r => terminal r = false) rs ->
  callLoop codec ctx (rs ++ rest) p o = callLoop codec ctx rest (plannedFrom p rs) (outcomeFrom o rs).
Proof.
  induction rs as [|r rs IH]; intros rest p o Hrs; [done|]. apply Forall_cons in Hrs as [Hr Hrs].
  apply orb_false_iff in Hr as [Hf%bool_decide_eq_false He%bool_decide_eq_false]. simpl.
  unfold plannedFrom, outcomeFrom. rewrite !filter_cons.
  destruct (Kind r) eqn:Ek; try done;
    [rewrite decide_False by (unfold isPlannedMetadata; rewrite Ek; auto); rewrite decide_False by done; by apply IH ..|].
  rewrite (decide_True (P := StreamResultKindMetadata = StreamResultKindMetadata)) by done.
  rewrite !last_cons.
  assert (isPlannedMetadata codec r = negb (metadataPhase codec (Data r) =s "outcome")) as Hp
    by (unfold isPlannedMetadata; by rewrite Ek).
  rewrite Hp. destruct (metadataPhase codec (Data r) =s "outcome"); simpl; rewrite IH by done;
    unfold plannedFrom, outcomeFrom; simpl; [|rewrite last_cons];
    repeat (match goal with |- context [last ?l] => destruct (last l) end); simpl;
    rewrite ?Hp; done.
Qed.

Lemma terminal_kind (r : StreamResult X) :
  terminal r = true -> Kind r = StreamResultKindFinal \/ Kind r = StreamResultKindError.
Proof. unfold terminal. intros [Hk%bool_decide_eq_true|Hk%bool_decide_eq_true]%orb_true_iff; auto. Qed.

Lemma from_terminal pre (t : StreamResult X) : terminal t = true ->
  plannedFrom "" pre = lastPlanned (pre ++ [t]) /\ outcomeFrom "" pre = lastOutcome (pre ++ [t]).
Proof.
  intros Ht. unfold plannedFrom, outcomeFrom, lastPlanned, lastOutcome. rewrite !filter_app, !filter_cons.
  destruct (terminal_kind t Ht) as [Ek|Ek];
    rewrite (decide_False (P := Is_true (isPlannedMetadata codec t))) by (unfold isPlannedMetadata; rewrite Ek; auto);
    rewrite (decide_False (P := Kind t = StreamResultKindMetadata)) by (by rewrite Ek);
    by rewrite !app_nil_r.
Qed.

(** C39. The unary call and the stream agree.  An admitted [Call] returns one of
    three things: the data of the stream's final result; the error of its error
    result, with that result's stack trace, code and details; or, only when the
    caller's context is done and the stream was cut, the context's error.  It
    carries the last planned metadata of the stream and the outcome reported
    after it, never an outcome of an abandoned attempt. *)
Theorem call_reduces_stream `{!LawfulPoolEnv env} needsPartials w :
  snd (CallStream env codec cfg needsPartials w) = None ->
  let s := fst (CallStream env codec cfg needsPartials w) in
  let rs := received (log s) in
  let partial := metadataOnlyCallResult (lastPlanned rs) (lastOutcome rs) in
  let result := snd (Call env codec cfg needsPartials w) in
  (exists pre t, rs = pre ++ [t] /\ Kind t = StreamResultKindFinal
     /\ result = (Some (mkCallResult (Data t) (Raw t) (Reasoning t) (lastPlanned rs) (lastOutcome rs)), None))
  \/ (exists pre t, rs = pre ++ [t] /\ Kind t = StreamResultKindError
     /\ result = (partial, (fun e => NewErrorWithMetadata e (Stacktrace t) (ErrorCode t) (ErrorDetails t)) <$> Error t))
  \/ (Forall (fun r => terminal r = false) rs /\ exists e, ctxErr env (world s) = Some e
     /\ result = (partial, Some e)).
Proof.
  intros Hok s rs partial result.
  assert (result = callLoop codec (ctxErr env (world s)) rs "" "") as Hres.
  { unfold result, Call, rs, s. destruct (CallStream _ _ _ _ _) as [s' [e|]]; [done|done]. }
  destruct (CallStream_ended env codec cfg needsPartials w Hok) as [_ [[Hu [e He]]|(pre&t&Hl&Hu&Ht)]].
  - assert (Forall (fun r => terminal r = false) rs) as Hrs by (by apply Forall_fmap).
    right; right. split; [done|]. exists e. split; [done|]. rewrite Hres. rewrite <- (app_nil_r rs).
    rewrite callLoop_skip by done. simpl. unfold s. by rewrite He.
  - assert (rs = pre.*2 ++ [t.2]) as Hrs by (unfold rs, received, s; rewrite Hl; by rewrite fmap_app).
    assert (result = callLoop codec (ctxErr env (world s)) [t.2] (lastPlanned rs) (lastOutcome rs)) as Hr.
    { rewrite Hres, Hrs, callLoop_skip by (by apply Forall_fmap).
      by destruct (from_terminal pre.*2 t.2 Ht) as [-> ->]. }
    destruct (terminal_kind t.2 Ht) as [Ek|Ek].
    + left. exists pre.*2, t.2. split_and!; [done|done|]. rewrite Hr. simpl. by rewrite Ek.
    + right; left. exists pre.*2, t.2. split_and!; [done|done|]. rewrite Hr. simpl. by rewrite Ek.
Qed.
End Unary.

Section ParseRequest.
Context {W H X : Type}.
Variable env : PoolEnv W H X.
Variable codec : Codec X.
Variable cfg : Config.
Implicit Types (s : StreamVars W H X).
Local Abbreviation lives := (@lives H X (hasSharedState cfg)).

Lemma parseLoop_lives k : forall n s l,
  lives (log s) (Idle n l) ->
  let '(s', r) := parseLoop env codec k s in
  exists m l', (n <= m <= n + k)%nat /\ lives (log s') (Idle m l')
    /\ match r with
       | inl v => exists h w, l' = Some h /\ snd (workerParse env h w) = inl v
       | inr e =>
           (exists h, l' = Some h /\ parseReports env h e
              /\ (isRetryable codec e = false \/ is_Some (ctxErr env (world s'))))
           \/ (exists f w err, (m < n + k)%nat /\ getWorkerForRetry env f w = (world s', inr err))
           \/ m = (n + k)%nat
       end.
Proof.
  induction k as [|k IH]; intros n s l Hs; cbn [parseLoop].
  { exists n, l. split_and!; [lia|lia|done|]. right; right. lia. }
  destruct (getWorkerForRetry _ _ _) as [w1 [h|err]] eqn:Eg.
  2:{ exists n, l. split_and!; [lia|lia|done|]. right; left. eexists _, _, err. split; [lia|exact Eg]. }
  set (s1 := note (PFirstByte h) _). destruct (workerParse env h (world s1)) as [w2 r] eqn:Ew.
  set (s2 := note (PCleanup h) _).
  assert (lives (log s2) (Idle (S n) (Some h))) as H2.
  { assert (lives (log s1) (Active n h)) as H1 by (unfold s1; eauto 6 with pool).
    apply (lives_note _ (setWorld w2 s1) (Active n h)); [exact H1|constructor]. }
  destruct r as [v|err].
  { exists (S n), (Some h). split_and!; [lia|lia|done|]. eexists _, _. split; [done|]. by rewrite Ew. }
  cbv zeta. set (s3 := if _ : bool then restart env h s2 else s2).
  assert (lives (log s3) (Idle (S n) (Some h)) /\ world s3 = world s2) as [H3 Hw].
  { unfold s3. destruct (_ && _); [|done]. split; [|done]. eapply lives_note; [exact H2|constructor]. }
  clearbody s3. assert (parseReports env h err) as Hrep by (eexists; by rewrite Ew).
  destruct (negb (live env s2)) eqn:El.
  { exists (S n), (Some h). split_and!; [lia|lia|done|]. left. exists h. split_and!; [done|done|]. right.
    rewrite Hw. apply unlive. by apply negb_true_iff. }
  destruct (isRetryable codec err) eqn:Er.
  2:{ exists (S n), (Some h). split_and!; [lia|lia|done|]. left. exists h. split_and!; [done|done|by left]. }
  pose proof (IH (S n) (setRetryable (Some err) (setFailed h s3)) (Some h) H3) as Hi.
  destruct (parseLoop _ _ _ _) as [s' r]. destruct Hi as (m&l'&Hm&Hl&Hr). exists m, l'. split_and!; [lia|lia|done|].
  replace (n + S k)%nat with (S n + k)%nat by lia. done.
Qed.

(** [Parse] keeps its accounts and fails only for a reason.  Every attempt is
    tracked and released on one worker, at most the retry budget of them, and an
    admitted request is ended once, last.  A value is what the worker of the last
    attempt answered; an error is that worker's own, not retryable or reported
    to a caller that left, or comes from an acquisition that failed within the
    budget, or is given after the whole budget was spent. *)
Theorem parse_accounts w :
  let k := Z.to_nat (MaxRetries cfg + 1) in
  let '(s, r) := Parse env codec cfg w in
  match snd (admission env w) with
  | Some e => log s = [] /\ r = inr e
  | None => exists n l body, log s = body ++ [PDone] /\ lives body (Idle n l) /\ (n <= k)%nat
      /\ match r with
         | inl v => exists h w', l = Some h /\ snd (workerParse env h w') = inl v
         | inr e =>
             (exists h, l = Some h /\ parseReports env h e
                /\ (isRetryable codec e = false \/ is_Some (ctxErr env (world s))))
             \/ (exists f w' err, (n < k)%nat /\ getWorkerForRetry env f w' = (world s, inr err))
             \/ n = k
         end
  end.
Proof.
  unfold Parse. destruct (admission env w) as [w1 [e|]]; [done|]. simpl.
  pose proof (parseLoop_lives (Z.to_nat (MaxRetries cfg + 1)) 0 (initVars w1) None ltac:(constructor)) as Hp.
  destruct (parseLoop _ _ _ _) as [s r]. destruct Hp as (m&l&Hm&Hl&Hr). exists m, l, (log s). split_and!; [done|done|lia|exact Hr].
Qed.
End ParseRequest.

(** ** The concrete pool's requests *)

(** Every worker is dead when the caller has already left. *)
Lemma restart_blames_worker_witness :
  workerFault PoolScenario.codec
    (streamReports (PoolScenario.env 0 (fun _ => inr PoolScenario.reset))) 0%nat
  /\ workerFault PoolScenario.codec
    (parseReports (PoolScenario.env 0 (fun _ => inr PoolScenario.reset))) 0%nat.
Proof.
  pose proof (restart_blames_worker (PoolScenario.env 0 (fun _ => inr PoolScenario.reset)) PoolScenario.codec
    PoolScenario.cfg true 0%nat 0%nat) as [H1 H2].
  split; [apply H1|apply H2]; apply list_elem_of_In; vm_compute; auto.
Defined.

(** The caller of the failover stream gets the second worker's answer. *)
Lemma call_reduces_stream_witness :
  snd (Call (PoolScenario.env 99 PoolScenario.failover) PoolScenario.codec PoolScenario.cfg true 0%nat)
    = (Some (mkCallResult "b!" "" "" "plan#1" "outcome#1"), None).
Proof.
  assert (last (received (log PoolScenario.run))
    = Some (PoolScenario.frame StreamResultKindFinal "b!" None)) as Hlast by reflexivity.
  unfold PoolScenario.run in Hlast.
  destruct (call_reduces_stream (PoolScenario.env 99 PoolScenario.failover) PoolScenario.codec PoolScenario.cfg
    true 0%nat eq_refl) as [(pre&t&Hrs&_&Hr)|[(pre&t&Hrs&Hk&_)|(_&e&He&_)]].
  - rewrite Hrs, last_snoc in Hlast. injection Hlast as ->. rewrite Hr. vm_compute. reflexivity.
  - rewrite Hrs, last_snoc in Hlast. injection Hlast as ->. discriminate Hk.
  - vm_compute in He. discriminate He.
Defined.
