(* ===== verification/Jsonish.v ===== *)
(** * Jsonish: the values of the native output parser and their strict decoding

    [internal/debaml/value.go] and [alias_number.go]: the ordered value, the
    strict JSON decoder over the token stream of [encoding/json], and the two
    classifications of a bare token.

    Strings are byte strings.  The decoder is the grammar the token stream of
    [encoding/json] accepts, with its string unquoting (escapes, surrogate pairs,
    replacement of invalid UTF-8).  Recursion uses fuel: twice the length of the
    input and one is always enough ([decodeToken_shrinks]). *)

From Stdlib Require Import Ascii String.
From S2P Require Import Prelude GoStrings.
Open Scope stdpp_scope.

Notation "a =c b" := (Ascii.eqb a b) (at level 70, no associativity) : go_scope.

(** Quotes and the backslash. *)
Definition dq : ascii := "034"%char.
Definition sq : ascii := "039"%char.
Definition bq : ascii := "096"%char.
Definition bs : ascii := "092"%char.
Definition str1 (c : ascii) : string := String c EmptyString.

(** The result of a parser on a text: a value and the rest of the text, a
    rejection, or no answer for want of fuel. *)
Inductive res (A : Type) := Ok (a : A) (rest : string) | Bad | NoFuel.
Arguments Ok {A}. Arguments Bad {A}. Arguments NoFuel {A}.

Definition bind {A B} (r : res A) (f : A -> string -> res B) : res B :=
  match r with Ok a rest => f a rest | Bad => Bad | NoFuel => NoFuel end.
Notation "'let?' ( a , rest ) := r 'in' k" := (bind r (fun a rest => k))
  (at level 10, a name, rest name, k at level 200) : go_scope.

(** ** Values *)

(** [value]: [inc] is [incomplete]; [serdeFloat] is [numSerdeFloat]. *)
Inductive value :=
  | valNull (inc : bool)
  | valBool (inc : bool) (b : bool)
  | valNumber (inc : bool) (serdeFloat : bool) (tok : string)
  | valString (inc : bool) (s : string)
  | valArray (inc : bool) (items : list value)
  | valObject (inc : bool) (fields : list (string * value)).

(** [numMode]. *)
Inductive numMode := numModeLegacy | numModeSerde.

(** ** Characters *)

Definition code (c : ascii) : Z := Z.of_N (N_of_ascii c).
Definition chr (z : Z) : ascii := ascii_of_N (Z.to_N z).

Definition isDigit (c : ascii) : bool := (48 <=? code c)%Z && (code c <=? 57)%Z.
Definition isWS (c : ascii) : bool :=
  (c =c " ") || (c =c "009") || (c =c "010") || (c =c "013").

(** [skipWS]: blanks, tabs, newlines and carriage returns. *)
Fixpoint skipWS (s : string) : string :=
  match s with
  | String c r => if isWS c then skipWS r else s
  | EmptyString => s
  end.

(** The longest prefix of bytes satisfying [p], and the rest. *)
Fixpoint span (p : ascii -> bool) (s : string) : string * string :=
  match s with
  | String c r => if p c then let '(a, b) := span p r in (String c a, b) else (EmptyString, s)
  | EmptyString => (EmptyString, s)
  end.

Lemma span_app p s : s = fst (span p s) +:+ snd (span p s).
Proof. induction s as [|c s IH]; simpl; [done|]. destruct (p c); [|done]. destruct (span p s). simpl in *. by rewrite <- IH. Qed.

(** ** JSON numbers *)

(** The integer part, the fraction and the exponent. *)
Definition scanInt (s : string) : option (string * string) :=
  match s with
  | String c r =>
      if c =c "0" then Some (str1 c, r)
      else if isDigit c then let '(d, r') := span isDigit r in Some (String c d, r')
      else None
  | EmptyString => None
  end.
Definition scanFrac (s : string) : option (string * string) :=
  match s with
  | String c r =>
      if c =c "." then
        match span isDigit r with
        | (EmptyString, _) => None
        | (d, r') => Some (String c d, r')
        end
      else Some (EmptyString, s)
  | EmptyString => Some (EmptyString, s)
  end.
Definition scanExp (s : string) : option (string * string) :=
  match s with
  | String c r =>
      if (c =c "e") || (c =c "E") then
        let '(sign, r1) :=
          match r with
          | String g r' => if (g =c "+") || (g =c "-") then (str1 g, r') else (EmptyString, r)
          | EmptyString => (EmptyString, r)
          end in
        match span isDigit r1 with
        | (EmptyString, _) => None
        | (d, r') => Some (String c (sign +:+ d), r')
        end
      else Some (EmptyString, s)
  | EmptyString => Some (EmptyString, s)
  end.

(** The number at the head of the text. *)
Definition scanNumber (s : string) : option (string * string) :=
  let '(sign, s0) :=
    match s with
    | String c r => if c =c "-" then (str1 c, r) else (EmptyString, s)
    | EmptyString => (EmptyString, s)
    end in
  match scanInt s0 with
  | None => None
  | Some (i, s1) =>
      match scanFrac s1 with
      | None => None
      | Some (f, s2) =>
          match scanExp s2 with
          | None => None
          | Some (e, s3) => Some (sign +:+ i +:+ f +:+ e, s3)
          end
      end
  end.

Definition isJSONNumber (s : string) : bool :=
  match scanNumber s with Some (_, EmptyString) => true | _ => false end.

(** ** Rust's number parsing *)

Fixpoint digitsValue (acc : Z) (s : string) : Z :=
  match s with
  | String c r => digitsValue (10 * acc + (code c - 48))%Z r
  | EmptyString => acc
  end.

Definition allDigits (s : string) : bool := sall isDigit s && (s <>s "").

(** A leading sign: is it a minus, and the rest. *)
Definition signOf (s : string) : bool * string :=
  match s with
  | String c r => if c =c "-" then (true, r) else if c =c "+" then (false, r) else (false, s)
  | EmptyString => (false, s)
  end.

(** [strconv.ParseInt(s, 10, 64)], [parseI64Rust]. *)
Definition parseI64Rust (s : string) : option Z :=
  let '(neg, d) := signOf s in
  if allDigits d then
    let v := if neg then (- digitsValue 0 d)%Z else digitsValue 0 d in
    if (MinInt64 <=? v)%Z && (v <=? MaxInt64)%Z then Some v else None
  else None.

(** [parseU64Rust]. *)
Definition parseU64Rust (s : string) : option Z :=
  let d := TrimPrefix s "+" in
  if allDigits d then
    let v := digitsValue 0 d in if (v <? 2 ^ 64)%Z then Some v else None
  else None.

(** The exponent [strconv.readFloat] reads stops growing at 10000. *)
Fixpoint expValue (acc : Z) (s : string) : Z :=
  match s with
  | String c r => expValue (if (acc <? 10000)%Z then 10 * acc + (code c - 48) else acc)%Z r
  | EmptyString => acc
  end.

(** The decimal forms of [strconv.ParseFloat]: mantissa digits and exponent of ten. *)
Definition readDecimal (s : string) : option (Z * Z) :=
  let '(_, s0) := signOf s in
  let '(i, s1) := span isDigit s0 in
  let '(f, s2) :=
    match s1 with
    | String c r => if c =c "." then span isDigit r else (EmptyString, s1)
    | EmptyString => (EmptyString, s1)
    end in
  if (i +:+ f) =s "" then None
  else
    let m := digitsValue 0 (i +:+ f) in
    let e0 := (- Z.of_nat (String.length f))%Z in
    match s2 with
    | EmptyString => Some (m, e0)
    | String c r =>
        if (c =c "e") || (c =c "E") then
          let '(neg, d) := signOf r in
          if allDigits d then Some (m, if neg then e0 - expValue 0 d else e0 + expValue 0 d)%Z else None
        else None
    end.

(** The decimal rounds to a finite binary64: it is below the midpoint between the
    largest one and 2^1024. *)
Definition finiteDecimal (m e : Z) : bool :=
  (m * 10 ^ Z.max e 0 <? (2 ^ 1024 - 2 ^ 970) * 10 ^ Z.max (- e) 0)%Z.

(** [parseF64Rust] gives a finite number: hex floats and underscores are not
    decimal, infinities and NaN are not finite, overflow is an error. *)
Definition finiteF64Rust (s : string) : bool :=
  match readDecimal s with Some (m, e) => finiteDecimal m e | None => false end.

(** [serdeParsesNumber] and [serdeStoresAsFloat]. *)
Definition serdeParsesNumber (tok : string) : bool := finiteF64Rust tok.
Definition serdeStoresAsFloat (tok : string) : bool :=
  (tok =s "-0") || negb (bool_decide (is_Some (parseI64Rust tok))).

(** [bamlNumberToken]. *)
Definition bamlNumberToken (s : string) : bool :=
  bool_decide (is_Some (parseI64Rust s)) || bool_decide (is_Some (parseU64Rust s)) || finiteF64Rust s.

(** [classifyScalar].  A bare token has no quote, brace or bracket, so that it is
    valid JSON exactly when it is a keyword or a number. *)
Definition classifyScalar (raw : string) : option value :=
  let s := TrimSpace raw in
  if s =s "true" then Some (valBool false true)
  else if s =s "false" then Some (valBool false false)
  else if s =s "null" then Some (valNull false)
  else if isJSONNumber s then Some (valNumber false false s)
  else None.

(** [classifyScalarSerde]. *)
Definition classifyScalarSerde (raw : string) : option value :=
  let s := TrimSpace raw in
  if s =s "true" then Some (valBool false true)
  else if s =s "false" then Some (valBool false false)
  else if s =s "null" then Some (valNull false)
  else if bamlNumberToken s then Some (valNumber false false s)
  else Some (valString false s).

(** [classifyScalarMode]. *)
Definition classifyScalarMode (nm : numMode) (raw : string) : option value :=
  match nm with numModeSerde => classifyScalarSerde raw | numModeLegacy => classifyScalar raw end.

(** Hexadecimal digits. *)
Definition isHex (c : ascii) : bool :=
  isDigit c || (97 <=? code c)%Z && (code c <=? 102)%Z || (65 <=? code c)%Z && (code c <=? 70)%Z.
Definition hexDigit (c : ascii) : Z :=
  if isDigit c then code c - 48 else if (97 <=? code c)%Z then code c - 87 else code c - 55.

(** ** [strconv.ParseFloat] without error *)

(** Fold an ASCII letter to lower case. *)
Definition lower (c : ascii) : ascii :=
  if ((65 <=? code c) && (code c <=? 90))%Z then chr (code c + 32)%Z else c.

(** [strings.EqualFold] with a lower-case ASCII [t] that has no [k]: U+017F folds
    to [s]. *)
Fixpoint EqualFold (s t : string) : bool :=
  match t, s with
  | EmptyString, EmptyString => true
  | String b t, String a s =>
      if lower a =c b then EqualFold s t
      else if (b =c "s") && (a =c "197") then
        match s with String a2 s => (a2 =c "191") && EqualFold s t | EmptyString => false end
      else false
  | _, _ => false
  end.

Definition stripSign (s : string) : string := snd (signOf s).

(** [underscoreOK]: [i] is the class of the last byte: ['0'] a digit, ['_'], ['^']
    the start or ['!'] anything else. *)
Fixpoint underscoresFrom (hex : bool) (i : ascii) (s : string) : bool :=
  match s with
  | EmptyString => negb (i =c "_")
  | String c r =>
      if isDigit c || hex && isHex c then underscoresFrom hex "0" r
      else if c =c "_" then (i =c "0") && underscoresFrom hex "_" r
      else negb (i =c "_") && underscoresFrom hex "!" r
  end.
Definition underscoreOK (s : string) : bool :=
  match stripSign s with
  | String z (String b r) as t =>
      let b := lower b in
      if (z =c "0") && ((b =c "b") || (b =c "o") || (b =c "x")) then underscoresFrom (b =c "x") "0" r
      else underscoresFrom false "^" t
  | t => underscoresFrom false "^" t
  end.

Fixpoint removeByte (c : ascii) (s : string) : string :=
  match s with
  | EmptyString => EmptyString
  | String a r => if a =c c then removeByte c r else String a (removeByte c r)
  end.

Fixpoint hexValue (acc : Z) (s : string) : Z :=
  match s with
  | String c r => hexValue (16 * acc + hexDigit c)%Z r
  | EmptyString => acc
  end.

(** A hexadecimal mantissa and exponent of two; the exponent is required. *)
Definition readHex (s : string) : option (Z * Z) :=
  let '(i, s1) := span isHex s in
  let '(f, s2) :=
    match s1 with
    | String c r => if c =c "." then span isHex r else (EmptyString, s1)
    | EmptyString => (EmptyString, s1)
    end in
  if (i +:+ f) =s "" then None
  else
    match s2 with
    | String c r =>
        if (c =c "p") || (c =c "P") then
          let '(neg, d) := signOf r in
          if allDigits d then
            Some (hexValue 0 (i +:+ f), (if neg then - expValue 0 d else expValue 0 d)
                                          - 4 * Z.of_nat (String.length f))%Z
          else None
        else None
    | EmptyString => None
    end.

Definition finiteHex (m e : Z) : bool :=
  (m * 2 ^ Z.max e 0 <? (2 ^ 1024 - 2 ^ 970) * 2 ^ Z.max (- e) 0)%Z.

Definition parseFloatOk (s : string) : bool :=
  let t := stripSign s in
  EqualFold t "inf" || EqualFold t "infinity" || EqualFold s "nan"
  || (underscoreOK s || negb (ContainsByte "_" s))
     && let t := removeByte "_" t in
        match t with
        | String z (String x r) =>
            if (z =c "0") && (lower x =c "x")
            then match readHex r with Some (m, e) => finiteHex m e | None => false end
            else finiteF64Rust t
        | _ => finiteF64Rust t
        end.

(** ** Strict JSON strings *)

(** Four hexadecimal digits at the head of the text. *)
Definition getu4 (s : string) : option Z :=
  match s with
  | String a (String b (String c (String d _))) =>
      if isHex a && isHex b && isHex c && isHex d
      then Some (((hexDigit a * 16 + hexDigit b) * 16 + hexDigit c) * 16 + hexDigit d)%Z
      else None
  | _ => None
  end.

(** [utf8.EncodeRune]. *)
Definition encodeRune (z : Z) : string :=
  let cont n := String (chr (128 + Z.land n 63)%Z) in
  if (z <? 128)%Z then str1 (chr z)
  else if (z <? 2048)%Z then String (chr (192 + Z.shiftr z 6)%Z) (cont z EmptyString)
  else if (z <? 65536)%Z then
    String (chr (224 + Z.shiftr z 12)%Z) (cont (Z.shiftr z 6) (cont z EmptyString))
  else
    String (chr (240 + Z.shiftr z 18)%Z)
      (cont (Z.shiftr z 12) (cont (Z.shiftr z 6) (cont z EmptyString))).
Definition replacementChar : Z := 65533.

(** The length of the valid UTF-8 encoding at the head of the text. *)
Definition utf8Len (s : string) : option nat :=
  let isIn c lo hi := ((lo <=? code c) && (code c <=? hi))%Z in
  let cont c := isIn c 128%Z 191%Z in
  match s with
  | String a r =>
      if isIn a 0%Z 127%Z then Some 1%nat
      else
        match r with
        | String b r1 =>
            if isIn a 194%Z 223%Z && cont b then Some 2%nat
            else
              match r1 with
              | String c r2 =>
                  if (((code a =? 224)%Z && isIn b 160%Z 191%Z
                      || (isIn a 225%Z 236%Z || isIn a 238%Z 239%Z) && cont b
                      || (code a =? 237)%Z && isIn b 128%Z 159%Z) && cont c)
                  then Some 3%nat
                  else
                    match r2 with
                    | String d _ =>
                        if ((code a =? 240)%Z && isIn b 144%Z 191%Z
                            || isIn a 241%Z 243%Z && cont b
                            || (code a =? 244)%Z && isIn b 128%Z 143%Z) && cont c && cont d
                        then Some 4%nat else None
                    | EmptyString => None
                    end
              | EmptyString => None
              end
        | EmptyString => None
        end
  | EmptyString => None
  end.

(** What a simple escape stands for. *)
Definition simpleEscape (c : ascii) : option ascii :=
  if c =c dq then Some dq else if c =c bs then Some bs else if c =c "/" then Some "/"%char
  else if c =c "b" then Some "008"%char else if c =c "f" then Some "012"%char
  else if c =c "n" then Some "010"%char else if c =c "r" then Some "013"%char
  else if c =c "t" then Some "009"%char else None.

(** One step inside a string literal: the text it stands for and the number of
    bytes after the current one that it covers; [None] is a syntax error. *)
Definition unquoteStep (c : ascii) (r : string) : option (string * nat) :=
  if c =c bs then
    match r with
    | String e r1 =>
        if e =c "u" then
          match getu4 r1 with
          | None => None
          | Some hi =>
              if (55296 <=? hi)%Z && (hi <? 57344)%Z then
                match r1 with
                | String _ (String _ (String _ (String _ (String b (String u r2))))) =>
                    match (if (b =c bs) && (u =c "u") then getu4 r2 else None) with
                    | Some lo =>
                        if (hi <? 56320)%Z && (56320 <=? lo)%Z && (lo <? 57344)%Z
                        then Some (encodeRune (65536 + (hi - 55296) * 1024 + (lo - 56320))%Z, 11%nat)
                        else Some (encodeRune replacementChar, 5%nat)
                    | None => Some (encodeRune replacementChar, 5%nat)
                    end
                | _ => Some (encodeRune replacementChar, 5%nat)
                end
              else Some (encodeRune hi, 5%nat)
          end
        else
          match simpleEscape e with Some x => Some (str1 x, 1%nat) | None => None end
    | EmptyString => None
    end
  else if (code c <? 32)%Z then None
  else
    match utf8Len (String c r) with
    | Some n => Some (stake n (String c r), Nat.pred n)
    | None => Some (encodeRune replacementChar, 0%nat)
    end.

(** The rest of a string literal after its opening quote; [skip] bytes were
    already accounted for. *)
Fixpoint unquote (skip : nat) (s : string) : res string :=
  match s with
  | EmptyString => Bad
  | String c r =>
      match skip with
      | S skip => unquote skip r
      | O =>
          if c =c dq then Ok EmptyString r
          else
            match unquoteStep c r with
            | None => Bad
            | Some (out, k) => let? (a, rest) := unquote k r in Ok (out +:+ a) rest
            end
      end
  end.

(** ** Strict decoding *)

(** The number token, as the mode keeps it. *)
Definition numberValue (nm : numMode) (tok : string) : option value :=
  match nm with
  | numModeSerde =>
      if serdeParsesNumber tok then Some (valNumber false (serdeStoresAsFloat tok) tok) else None
  | numModeLegacy => Some (valNumber false false tok)
  end.

Section Decode.
Variable nm : numMode.

(** [decodeToken], [decodeObject] and [decodeArray]: a value, the members of an
    object from a key on, the elements of an array from a value on. *)
Fixpoint decodeToken (fuel : nat) (s : string) : res value :=
  match fuel with
  | O => NoFuel
  | S n =>
      match skipWS s with
      | EmptyString => Bad
      | String c r =>
          if c =c "{" then
            match skipWS r with
            | String d r' => if d =c "}" then Ok (valObject false []) r'
                             else let? (fs, rest) := decodeMembers n (String d r') in Ok (valObject false fs) rest
            | EmptyString => Bad
            end
          else if c =c "[" then
            match skipWS r with
            | String d r' => if d =c "]" then Ok (valArray false []) r'
                             else let? (xs, rest) := decodeElements n (String d r') in Ok (valArray false xs) rest
            | EmptyString => Bad
            end
          else if c =c dq then let? (x, rest) := unquote 0 r in Ok (valString false x) rest
          else
            match CutPrefix "true" (String c r), CutPrefix "false" (String c r), CutPrefix "null" (String c r) with
            | Some rest, _, _ => Ok (valBool false true) rest
            | _, Some rest, _ => Ok (valBool false false) rest
            | _, _, Some rest => Ok (valNull false) rest
            | None, None, None =>
                match scanNumber (String c r) with
                | None => Bad
                | Some (tok, rest) =>
                    match numberValue nm tok with Some v => Ok v rest | None => Bad end
                end
            end
      end
  end
with decodeMembers (fuel : nat) (s : string) : res (list (string * value)) :=
  match fuel with
  | O => NoFuel
  | S n =>
      match skipWS s with
      | String c r =>
          if c =c dq then
            let? (key, r1) := unquote 0 r in
            match skipWS r1 with
            | String k r2 =>
                if k =c ":" then
                  let? (v, r3) := decodeToken n r2 in
                  match skipWS r3 with
                  | String e r4 =>
                      if e =c "," then let? (fs, rest) := decodeMembers n r4 in Ok ((key, v) :: fs) rest
                      else if e =c "}" then Ok [(key, v)] r4
                      else Bad
                  | EmptyString => Bad
                  end
                else Bad
            | EmptyString => Bad
            end
          else Bad
      | EmptyString => Bad
      end
  end
with decodeElements (fuel : nat) (s : string) : res (list value) :=
  match fuel with
  | O => NoFuel
  | S n =>
      let? (v, r3) := decodeToken n s in
      match skipWS r3 with
      | String e r4 =>
          if e =c "," then let? (xs, rest) := decodeElements n r4 in Ok (v :: xs) rest
          else if e =c "]" then Ok [v] r4
          else Bad
      | EmptyString => Bad
      end
  end.

(** [strictDecodeMode]. *)
Definition strictDecodeFuel (fuel : nat) (s : string) : res value :=
  let? (v, rest) := decodeToken fuel s in
  if skipWS rest =s "" then Ok v EmptyString else Bad.
Definition strictDecode (s : string) : option value :=
  match strictDecodeFuel (2 * String.length s + 1) s with Ok v _ => Some v | _ => None end.
End Decode.

(** ** Enough fuel *)

(** The parser answers, and an answer leaves less than it was given. *)
Definition shrinks {A} (s : string) (r : res A) : Prop :=
  match r with
  | Ok _ rest => (String.length rest < String.length s)%nat
  | Bad => True
  | NoFuel => False
  end.

Lemma skipWS_length s : (String.length (skipWS s) <= String.length s)%nat.
Proof. induction s as [|c s IH]; simpl; [done|]. destruct (isWS c); simpl; lia. Qed.

Lemma span_length p s : (String.length (snd (span p s)) <= String.length s)%nat.
Proof.
  induction s as [|c s IH]; simpl; [done|].
  destruct (p c); simpl; [|lia]. destruct (span p s); simpl in *. lia.
Qed.

Lemma unquote_length s : forall k,
  match unquote k s with Ok _ rest => (String.length rest < String.length s)%nat | Bad => True | NoFuel => False end.
Proof.
  induction s as [|c s IH]; intros k; simpl; [done|]. destruct k as [|k].
  - destruct (c =c dq); [simpl; lia|]. destruct (unquoteStep c s) as [[out k]|]; [|done].
    specialize (IH k). destruct (unquote k s); simpl; [lia|done|done].
  - specialize (IH k). destruct (unquote k s); simpl; [lia|done|done].
Qed.

Lemma scanInt_length s i r : scanInt s = Some (i, r) -> (String.length r < String.length s)%nat.
Proof.
  destruct s as [|c s]; simpl; [done|]. destruct (c =c "0"); [intros [= _ <-]; lia|].
  destruct (isDigit c); [|done]. pose proof (span_length isDigit s). destruct (span isDigit s).
  intros [= _ <-]. simpl in *. lia.
Qed.

Lemma scanFrac_length s f r : scanFrac s = Some (f, r) -> (String.length r <= String.length s)%nat.
Proof.
  destruct s as [|c s]; simpl; [intros [= _ <-]; done|]. destruct (c =c "."); [|intros [= _ <-]; done].
  pose proof (span_length isDigit s). destruct (span isDigit s) as [[|d ds] r']; [done|].
  intros [= _ <-]. simpl in *. lia.
Qed.

Lemma scanExp_length s e r : scanExp s = Some (e, r) -> (String.length r <= String.length s)%nat.
Proof.
  destruct s as [|c s]; simpl; [intros [= _ <-]; done|]. destruct (_ || _); [|intros [= _ <-]; done].
  set (x := match s with EmptyString => _ | String _ _ => _ end).
  assert (String.length (snd x) <= String.length s)%nat as Hx.
  { unfold x. destruct s as [|g s]; [done|]. destruct (_ || _); simpl; lia. }
  destruct x as [sign r1]. pose proof (span_length isDigit r1). destruct (span isDigit r1) as [[|d ds] r']; [done|].
  intros [= _ <-]. simpl in *. lia.
Qed.

Lemma scanNumber_length s t r : scanNumber s = Some (t, r) -> (String.length r < String.length s)%nat.
Proof.
  unfold scanNumber. set (x := match s with EmptyString => _ | String _ _ => _ end).
  assert (String.length (snd x) <= String.length s)%nat as Hx.
  { unfold x. destruct s as [|c s]; [done|]. destruct (c =c "-"); simpl; lia. }
  destruct x as [sign s0]. simpl in Hx.
  destruct (scanInt s0) as [[i s1]|] eqn:E1; [|done]. destruct (scanFrac s1) as [[f s2]|] eqn:E2; [|done].
  destruct (scanExp s2) as [[e s3]|] eqn:E3; [|done]. intros [= _ <-].
  apply scanInt_length in E1. apply scanFrac_length in E2. apply scanExp_length in E3. lia.
Qed.

Lemma CutPrefix_length p s r : CutPrefix p s = Some r -> (String.length s = String.length p + String.length r)%nat.
Proof. intros E. apply CutPrefix_some in E as ->. apply slength_app. Qed.

(** Rewrite the lengths left by [skipWS] before a byte. *)
Ltac ws_length :=
  repeat match goal with
  | E : skipWS ?s = ?t |- _ =>
      pose proof (skipWS_length s); rewrite E in *; simpl String.length in *; clear E
  end.

(** ** What a parser leaves is a suffix *)

Lemma suffix_skipWS s : suffix_of (skipWS s) s.
Proof. induction s as [|c s IH]; simpl; [apply suffix_refl|]. destruct (isWS c); [by apply suffix_cons|apply suffix_refl]. Qed.
Lemma suffix_skip s t c r : skipWS s = String c r -> suffix_of s t -> suffix_of (String c r) t.
Proof. intros E Hs. eapply suffix_trans; [|exact Hs]. rewrite <- E. apply suffix_skipWS. Qed.

Definition restSuffix {A} (s : string) (r : res A) : Prop :=
  forall a rest, r = Ok a rest -> suffix_of rest s.

Section DecodeFuel.
Variable nm : numMode.

Lemma decodeToken_shrinks fuel :
  (forall s, (2 * String.length s < fuel)%nat -> shrinks s (decodeToken nm fuel s))
  /\ (forall s, (2 * String.length s < fuel)%nat -> shrinks s (decodeMembers nm fuel s))
  /\ (forall s, (2 * String.length s + 1 < fuel)%nat -> shrinks s (decodeElements nm fuel s)).
Proof.
  induction fuel as [|fuel (IHt&IHm&IHe)]; [split_and!; intros; lia|]. split_and!; intros s Hf.
  - cbn [decodeToken]. destruct (skipWS s) as [|c r] eqn:E1; [done|].
    destruct (c =c "{"); [|destruct (c =c "["); [|destruct (c =c dq)]].
    + destruct (skipWS r) as [|d r'] eqn:E2; [done|]. ws_length. destruct (d =c "}"); [simpl; lia|].
      specialize (IHm (String d r') ltac:(simpl; lia)).
      destruct (decodeMembers nm fuel (String d r')); simpl in *; [lia|done|done].
    + destruct (skipWS r) as [|d r'] eqn:E2; [done|]. ws_length. destruct (d =c "]"); [simpl; lia|].
      specialize (IHe (String d r') ltac:(simpl; lia)).
      destruct (decodeElements nm fuel (String d r')); simpl in *; [lia|done|done].
    + ws_length. pose proof (unquote_length r 0). destruct (unquote 0 r); simpl in *; [lia|done|done].
    + assert (forall rest, (String.length rest < S (String.length r))%nat -> forall v, shrinks s (Ok (A:=value) v rest)) as Hok
        by (ws_length; intros; simpl; lia).
      destruct (CutPrefix "true" _) eqn:Et; [apply Hok; apply CutPrefix_length in Et; simpl in Et; lia|].
      destruct (CutPrefix "false" _) eqn:Ef; [apply Hok; apply CutPrefix_length in Ef; simpl in Ef; lia|].
      destruct (CutPrefix "null" _) eqn:En; [apply Hok; apply CutPrefix_length in En; simpl in En; lia|].
      destruct (scanNumber _) as [[tok rest]|] eqn:Es; [|done]. apply scanNumber_length in Es. simpl in Es.
      destruct (numberValue nm tok); [|done]. by apply Hok.
  - cbn [decodeMembers]. destruct (skipWS s) as [|c r] eqn:E1; [done|]. destruct (c =c dq); [|done].
    pose proof (unquote_length r 0) as Hu. destruct (unquote 0 r) as [key r1| |]; simpl; [|done|done].
    destruct (skipWS r1) as [|k r2] eqn:E2; [done|]. ws_length. destruct (k =c ":"); [|done].
    specialize (IHt r2 ltac:(lia)). destruct (decodeToken nm fuel r2) as [v r3| |]; simpl in *; [|done|done].
    destruct (skipWS r3) as [|e r4] eqn:E3; [done|]. ws_length.
    destruct (e =c ","); [|destruct (e =c "}"); simpl; [lia|done]].
    specialize (IHm r4 ltac:(lia)). destruct (decodeMembers nm fuel r4); simpl in *; [lia|done|done].
  - cbn [decodeElements]. specialize (IHt s ltac:(lia)).
    destruct (decodeToken nm fuel s) as [v r3| |]; simpl in *; [|done|done].
    destruct (skipWS r3) as [|e r4] eqn:E3; [done|]. ws_length.
    destruct (e =c ","); [|destruct (e =c "]"); simpl; [lia|done]].
    specialize (IHe r4 ltac:(lia)). destruct (decodeElements nm fuel r4); simpl in *; [lia|done|done].
Qed.
End DecodeFuel.

(** ** The strict decoder leaves a suffix *)

Lemma unquote_suffix s : forall k, restSuffix s (unquote k s).
Proof.
  induction s as [|c s IH]; intros k a rest; simpl; [done|]. destruct k as [|k].
  - destruct (c =c dq); [intros [= _ <-]; apply suffix_cons, suffix_refl|].
    destruct (unquoteStep c s) as [[out k]|]; [|done].
    destruct (unquote k s) as [x t| |] eqn:E; [|done|done]. intros [= _ <-]. apply suffix_cons. by eapply IH.
  - intros E. apply suffix_cons. by eapply IH.
Qed.

Lemma span_suffix p s : suffix_of (snd (span p s)) s.
Proof.
  induction s as [|c s IH]; simpl; [apply suffix_refl|]. destruct (p c); [|apply suffix_refl].
  destruct (span p s). by apply suffix_cons.
Qed.

Lemma scanInt_suffix s i r : scanInt s = Some (i, r) -> suffix_of r s.
Proof.
  destruct s as [|c s]; simpl; [done|]. destruct (c =c "0"); [intros [= _ <-]; apply suffix_cons, suffix_refl|].
  destruct (isDigit c); [|done]. pose proof (span_suffix isDigit s). destruct (span isDigit s).
  intros [= _ <-]. by apply suffix_cons.
Qed.

Lemma scanFrac_suffix s f r : scanFrac s = Some (f, r) -> suffix_of r s.
Proof.
  destruct s as [|c s]; simpl; [intros [= _ <-]; apply suffix_refl|].
  destruct (c =c "."); [|intros [= _ <-]; apply suffix_refl].
  pose proof (span_suffix isDigit s). destruct (span isDigit s) as [[|d ds] r']; [done|].
  intros [= _ <-]. by apply suffix_cons.
Qed.

Lemma scanExp_suffix s e r : scanExp s = Some (e, r) -> suffix_of r s.
Proof.
  destruct s as [|c s]; simpl; [intros [= _ <-]; apply suffix_refl|].
  destruct (_ || _); [|intros [= _ <-]; apply suffix_refl].
  set (x := match s with EmptyString => _ | String _ _ => _ end).
  assert (suffix_of (snd x) s) as Hx.
  { unfold x. destruct s as [|g s]; [apply suffix_refl|]. destruct (_ || _); [apply suffix_cons|]; apply suffix_refl. }
  destruct x as [sign r1]. pose proof (span_suffix isDigit r1). destruct (span isDigit r1) as [[|d ds] r']; [done|].
  intros [= _ <-]. apply suffix_cons. by eapply suffix_trans.
Qed.

Lemma scanNumber_suffix s t r : scanNumber s = Some (t, r) -> suffix_of r s.
Proof.
  unfold scanNumber. set (x := match s with EmptyString => _ | String _ _ => _ end).
  assert (suffix_of (snd x) s) as Hx.
  { unfold x. destruct s as [|c s]; [apply suffix_refl|]. destruct (c =c "-"); [apply suffix_cons|]; apply suffix_refl. }
  destruct x as [sign s0]. simpl in Hx.
  destruct (scanInt s0) as [[i s1]|] eqn:E1; [|done]. destruct (scanFrac s1) as [[f s2]|] eqn:E2; [|done].
  destruct (scanExp s2) as [[e s3]|] eqn:E3; [|done]. intros [= _ <-].
  apply scanInt_suffix in E1. apply scanFrac_suffix in E2. apply scanExp_suffix in E3.
  exact (suffix_trans _ _ _ E3 (suffix_trans _ _ _ E2 (suffix_trans _ _ _ E1 Hx))).
Qed.

Lemma CutPrefix_suffix p s r : CutPrefix p s = Some r -> suffix_of r s.
Proof. intros E. apply CutPrefix_some in E as ->. by exists p. Qed.

Section DecodeSuffix.
Variable nm : numMode.

Lemma decode_suffix fuel :
  (forall s, restSuffix s (decodeToken nm fuel s))
  /\ (forall s, restSuffix s (decodeMembers nm fuel s)) /\ (forall s, restSuffix s (decodeElements nm fuel s)).
Proof.
  induction fuel as [|fuel (IHt&IHm&IHe)]; [done|]. split_and!; intros s a rest.
  - cbn [decodeToken]. destruct (skipWS s) as [|c r] eqn:E1; [done|]. intros Hx.
    pose proof (suffix_skip _ s _ _ E1 (suffix_refl s)) as Hs. pose proof (suffix_tail _ _ _ Hs) as Hr.
    destruct (c =c "{"); [|destruct (c =c "["); [|destruct (c =c dq)]].
    + destruct (skipWS r) as [|d r'] eqn:E2; [done|]. pose proof (suffix_skip _ _ _ _ E2 Hr) as Hd.
      destruct (d =c "}"); [injection Hx as _ <-; by eapply suffix_tail|].
      destruct (decodeMembers nm fuel _) eqn:E; [|done|done]. injection Hx as _ <-. eapply suffix_trans; [by eapply IHm|done].
    + destruct (skipWS r) as [|d r'] eqn:E2; [done|]. pose proof (suffix_skip _ _ _ _ E2 Hr) as Hd.
      destruct (d =c "]"); [injection Hx as _ <-; by eapply suffix_tail|].
      destruct (decodeElements nm fuel _) eqn:E; [|done|done]. injection Hx as _ <-. eapply suffix_trans; [by eapply IHe|done].
    + destruct (unquote 0 r) eqn:E; [|done|done]. injection Hx as _ <-. eapply suffix_trans; [by eapply unquote_suffix|done].
    + eapply suffix_trans; [|exact Hs].
      destruct (CutPrefix "true" _) eqn:Et; [injection Hx as _ <-; by eapply CutPrefix_suffix|].
      destruct (CutPrefix "false" _) eqn:Ef; [injection Hx as _ <-; by eapply CutPrefix_suffix|].
      destruct (CutPrefix "null" _) eqn:En; [injection Hx as _ <-; by eapply CutPrefix_suffix|].
      destruct (scanNumber _) as [[tok t]|] eqn:Es; [|done]. destruct (numberValue nm tok); [|done].
      injection Hx as _ <-. by eapply scanNumber_suffix.
  - cbn [decodeMembers]. destruct (skipWS s) as [|c r] eqn:E1; [done|]. destruct (c =c dq); [|done]. intros Hx.
    pose proof (suffix_tail _ _ _ (suffix_skip _ s _ _ E1 (suffix_refl s))) as Hr.
    destruct (unquote 0 r) as [key r1| |] eqn:Eu; [|done|done]. cbn [bind] in Hx.
    destruct (skipWS r1) as [|k r2] eqn:E2; [done|]. destruct (k =c ":"); [|done].
    destruct (decodeToken nm fuel r2) as [v r3| |] eqn:Ev; [|done|done]. cbn [bind] in Hx.
    destruct (skipWS r3) as [|e r4] eqn:E3; [done|].
    assert (suffix_of r4 s) as H4.
    { eapply suffix_tail, suffix_skip; [exact E3|]. eapply suffix_trans; [by eapply IHt|].
      eapply suffix_tail, suffix_skip; [exact E2|]. eapply suffix_trans; [by eapply unquote_suffix|done]. }
    destruct (e =c ","); [|destruct (e =c "}"); [by injection Hx as _ <-|done]].
    destruct (decodeMembers nm fuel r4) eqn:E; [|done|done]. injection Hx as _ <-. eapply suffix_trans; [by eapply IHm|done].
  - cbn [decodeElements]. intros Hx. destruct (decodeToken nm fuel s) as [v r3| |] eqn:Ev; [|done|done]. cbn [bind] in Hx.
    destruct (skipWS r3) as [|e r4] eqn:E3; [done|].
    assert (suffix_of r4 s) as H4 by (eapply suffix_tail, suffix_skip; [exact E3|by eapply IHt]).
    destruct (e =c ","); [|destruct (e =c "]"); [by injection Hx as _ <-|done]].
    destruct (decodeElements nm fuel r4) eqn:E; [|done|done]. injection Hx as _ <-. eapply suffix_trans; [by eapply IHe|done].
Qed.

(** A container ends with its bracket. *)
Lemma decodeMembers_ends fuel : forall s fs rest,
  decodeMembers nm fuel s = Ok fs rest -> suffix_of (String "}" rest) s.
Proof.
  induction fuel as [|fuel IH]; intros s fs rest; [done|]. cbn [decodeMembers].
  destruct (skipWS s) as [|c r] eqn:E1; [done|]. destruct (c =c dq); [|done]. intros Hx.
  destruct (unquote 0 r) as [key r1| |] eqn:Eu; [|done|done]. cbn [bind] in Hx.
  destruct (skipWS r1) as [|k r2] eqn:E2; [done|]. destruct (k =c ":"); [|done].
  destruct (decodeToken nm fuel r2) as [v r3| |] eqn:Ev; [|done|done]. cbn [bind] in Hx.
  destruct (skipWS r3) as [|e r4] eqn:E3; [done|].
  assert (suffix_of (String e r4) s) as H4.
  { eapply suffix_skip; [exact E3|]. eapply suffix_trans; [by eapply (proj1 (decode_suffix fuel))|].
    eapply suffix_tail, suffix_skip; [exact E2|]. eapply suffix_trans; [by eapply unquote_suffix|].
    eapply suffix_tail, suffix_skip; [exact E1|apply suffix_refl]. }
  destruct (e =c ",").
  - destruct (decodeMembers nm fuel r4) eqn:E; [|done|done]. injection Hx as _ <-.
    eapply suffix_trans; [by eapply IH|by eapply suffix_tail].
  - destruct (e =c "}") eqn:Ee; [|done]. apply Ascii.eqb_eq in Ee as ->. by injection Hx as _ <-.
Qed.

Lemma decodeElements_ends fuel : forall s xs rest,
  decodeElements nm fuel s = Ok xs rest -> suffix_of (String "]" rest) s.
Proof.
  induction fuel as [|fuel IH]; intros s xs rest; [done|]. cbn [decodeElements]. intros Hx.
  destruct (decodeToken nm fuel s) as [v r3| |] eqn:Ev; [|done|done]. cbn [bind] in Hx.
  destruct (skipWS r3) as [|e r4] eqn:E3; [done|].
  assert (suffix_of (String e r4) s) as H4 by (eapply suffix_skip; [exact E3|by eapply (proj1 (decode_suffix fuel))]).
  destruct (e =c ",").
  - destruct (decodeElements nm fuel r4) eqn:E; [|done|done]. injection Hx as _ <-.
    eapply suffix_trans; [by eapply IH|by eapply suffix_tail].
  - destruct (e =c "]") eqn:Ee; [|done]. apply Ascii.eqb_eq in Ee as ->. by injection Hx as _ <-.
Qed.
End DecodeSuffix.

Example strictDecode_example :
  strictDecode numModeLegacy ("{" +:+ str1 dq +:+ "a" +:+ str1 dq +:+ ": [1, -2.5e3, true , null]}")
  = Some (valObject false [("a", valArray false
      [valNumber false false "1"; valNumber false false "-2.5e3"; valBool false true; valNull false])]).
Proof. reflexivity. Qed.
