(* ===== verification/FixParse.v ===== *)
(** * FixParse: the fixing parser of the native output engine ([internal/debaml/fix.go])

    The final fixing parser [fixParse] accepts a conservative superset of JSON
    (stray commas, unquoted and single-quoted keys, single-quoted strings); the
    streaming parser [streamFix] accepts any prefix of such a text and marks the
    values it had to close as incomplete.

    A cursor into the text is the rest of the text.  Where the streaming parser
    goes on from the place at which a key was rejected, the functions return that
    place.  Fuel as in [Jsonish]. *)

From Stdlib Require Import Ascii String.
From S2P Require Import Prelude GoStrings Jsonish.
Open Scope stdpp_scope.

Definition objectValueTerm : string := ",}".
Definition arrayValueTerm : string := ",]".

(** ** Pieces both parsers share *)

(** The escapes [decodeDoubleQuoteEscape] decodes; every other one is literal. *)
Definition fixEscape (c : ascii) : option ascii :=
  if c =c dq then Some dq else if c =c bs then Some bs
  else if c =c "n" then Some "010"%char else if c =c "t" then Some "009"%char
  else if c =c "r" then Some "013"%char else if c =c "b" then Some "008"%char
  else if c =c "f" then Some "012"%char else None.

Definition tripleQuote : string := String dq (String dq (str1 dq)).
Definition keyBailBytes (c : ascii) : bool :=
  ContainsByte c "{}[]," || (c =c dq) || (c =c sq) || (c =c bq).
Definition scalarBailBytes (c : ascii) : bool :=
  ContainsByte c "{}[]:" || (c =c dq) || (c =c sq) || (c =c bq).

(** A maximal run of bytes that neither stop nor spoil it, the rest, and whether
    a spoiling byte ended it. *)
Definition scanRun (stop bail : ascii -> bool) (s : string) : string * string * bool :=
  let '(raw, rest) := span (fun c => negb (stop c || bail c)) s in
  (raw, rest, match rest with String c _ => negb (stop c) | EmptyString => false end).

Definition keyStop (c : ascii) : bool := (c =c ":") || isWS c.
Definition scalarStop (term : string) (c : ascii) : bool := isWS c || ContainsByte c term.

(** [parseUnquotedKey]: the key, if any, and where the cursor stops. *)
Definition parseUnquotedKey (s : string) : option string * string :=
  let '(raw, rest, bailed) := scanRun keyStop keyBailBytes s in
  let key := TrimSpace raw in
  (if bailed || (key =s "") then None else Some key, rest).

(** ** The final parser *)

(** [parseDoubleQuoted] after the opening quote. *)
Fixpoint doubleQuoted (s : string) : res string :=
  match s with
  | EmptyString => Bad
  | String c r =>
      if c =c bs then
        match r with
        | EmptyString => Bad
        | String e r' =>
            match fixEscape e with
            | Some x => let? (a, rest) := doubleQuoted r' in Ok (String x a) rest
            | None => let? (a, rest) := doubleQuoted r in Ok (String bs a) rest
            end
        end
      else if c =c dq then Ok EmptyString r
      else let? (a, rest) := doubleQuoted r in Ok (String c a) rest
  end.

(** [parseDoubleQuoted], the opening quote at the cursor. *)
Definition parseDoubleQuoted (s : string) : res string :=
  if HasPrefix s tripleQuote then Bad
  else match s with String _ r => doubleQuoted r | EmptyString => Bad end.

(** [parseSingleQuoted] after the opening quote. *)
Fixpoint singleQuoted (s : string) : res string :=
  match s with
  | EmptyString => Bad
  | String c r =>
      if c =c bs then Bad
      else if c =c sq then Ok EmptyString r
      else let? (a, rest) := singleQuoted r in Ok (String c a) rest
  end.

(** [parseKey], at a byte that is not white space. *)
Definition parseKey (s : string) : res string :=
  match s with
  | EmptyString => Bad
  | String c r =>
      if c =c dq then parseDoubleQuoted s
      else if c =c sq then singleQuoted r
      else if c =c bq then Bad
      else match parseUnquotedKey s with (Some key, rest) => Ok key rest | (None, _) => Bad end
  end.

(** What may follow the comma after an unquoted object value. *)
Definition commaCloses (r : string) : bool :=
  match r with
  | String d _ => (d =c " ") || (d =c "010") || (d =c "}")
  | EmptyString => false
  end.

Section Fixer.
Variable nm : numMode.

(** [parseUnquotedScalar]. *)
Definition parseUnquotedScalar (term s : string) : res value :=
  let '(raw, r, bailed) := scanRun (scalarStop term) scalarBailBytes s in
  if bailed || (TrimSpace raw =s "") then Bad
  else
    match skipWS r with
    | EmptyString => Bad
    | String c r1 =>
        if negb (ContainsByte c term) then Bad
        else if (term =s objectValueTerm) && (c =c ",") && negb (commaCloses r1) then Bad
        else match classifyScalarMode nm raw with Some v => Ok v (String c r1) | None => Bad end
    end.

(** [parseValue]; [parseObject] and [parseArray] after their opening bracket. *)
Fixpoint parseValue (fuel : nat) (term s : string) : res value :=
  match fuel with
  | O => NoFuel
  | S n =>
      match skipWS s with
      | EmptyString => Bad
      | String c r =>
          if c =c "{" then let? (fs, rest) := parseObject n r in Ok (valObject false fs) rest
          else if c =c "[" then let? (xs, rest) := parseArray n r in Ok (valArray false xs) rest
          else if c =c dq then
            let? (x, rest) := parseDoubleQuoted (String c r) in Ok (valString false x) rest
          else if c =c sq then let? (x, rest) := singleQuoted r in Ok (valString false x) rest
          else if (c =c bq) || (c =c "/") || (c =c "#") then Bad
          else parseUnquotedScalar term (String c r)
      end
  end
with parseObject (fuel : nat) (s : string) : res (list (string * value)) :=
  match fuel with
  | O => NoFuel
  | S n =>
      match skipWS s with
      | EmptyString => Bad
      | String c r =>
          if c =c "}" then Ok [] r
          else if c =c "," then parseObject n r
          else
            let? (key, r1) := parseKey (String c r) in
            match skipWS r1 with
            | EmptyString => Bad
            | String k r2 =>
                if k =c ":" then
                  let? (v, r3) := parseValue n objectValueTerm r2 in
                  match skipWS r3 with
                  | EmptyString => Bad
                  | String e r4 =>
                      if e =c "}" then Ok [(key, v)] r4
                      else if e =c "," then
                        let? (fs, rest) := parseObject n r4 in Ok ((key, v) :: fs) rest
                      else Bad
                  end
                else Bad
            end
      end
  end
with parseArray (fuel : nat) (s : string) : res (list value) :=
  match fuel with
  | O => NoFuel
  | S n =>
      match skipWS s with
      | EmptyString => Bad
      | String c r =>
          if c =c "]" then Ok [] r
          else if c =c "," then parseArray n r
          else
            let? (v, r3) := parseValue n arrayValueTerm (String c r) in
            match skipWS r3 with
            | EmptyString => Bad
            | String e r4 =>
                if e =c "]" then Ok [v] r4
                else if e =c "," then let? (xs, rest) := parseArray n r4 in Ok (v :: xs) rest
                else Bad
            end
      end
  end.

(** [fixParseMode]. *)
Definition fixParseFuel (fuel : nat) (s : string) : res value :=
  match skipWS s with
  | EmptyString => Bad
  | String c r =>
      if (c =c "{") || (c =c "[") then
        let? (v, rest) := parseValue fuel "" (String c r) in
        if skipWS rest =s "" then Ok v EmptyString else Bad
      else Bad
  end.
Definition fixParse (s : string) : option value :=
  match fixParseFuel (2 * String.length s + 2) s with Ok v _ => Some v | _ => None end.
End Fixer.

(** ** The streaming parser *)

(** [parseDoubleQuotedStream] after the opening quote: the text and whether it is
    incomplete, or no answer, and the cursor. *)
Fixpoint doubleQuotedStream (s : string) : option (string * bool) * string :=
  let push x p := match p with (Some (a, inc), rest) => (Some (String x a, inc), rest) | (None, rest) => (None, rest) end in
  match s with
  | EmptyString => (Some (EmptyString, true), EmptyString)
  | String c r =>
      if c =c bs then
        match r with
        | EmptyString => (Some (str1 bs, true), EmptyString)
        | String e r' =>
            if e =c dq then (None, s)
            else
              match fixEscape e with
              | Some x => push x (doubleQuotedStream r')
              | None => push bs (doubleQuotedStream r)
              end
        end
      else if c =c dq then (Some (EmptyString, false), r)
      else push c (doubleQuotedStream r)
  end.

Definition parseDoubleQuotedStream (s : string) : option (string * bool) * string :=
  if HasPrefix s tripleQuote then (None, s)
  else match s with String _ r => doubleQuotedStream r | EmptyString => (None, s) end.

(** [parseSingleQuotedStream] after the opening quote. *)
Fixpoint singleQuotedStream (s : string) : option (string * bool) * string :=
  match s with
  | EmptyString => (Some (EmptyString, true), EmptyString)
  | String c r =>
      if c =c bs then (None, s)
      else if c =c sq then (Some (EmptyString, false), r)
      else
        match singleQuotedStream r with
        | (Some (a, inc), rest) => (Some (String c a, inc), rest)
        | (None, rest) => (None, rest)
        end
  end.

(** A quoted key that is complete. *)
Definition completeKey (p : option (string * bool) * string) : option string * string :=
  match p with (Some (a, false), rest) => (Some a, rest) | (_, rest) => (None, rest) end.

(** [parseKeyStream], at a byte that is not white space. *)
Definition parseKeyStream (s : string) : option string * string :=
  match s with
  | EmptyString => (None, s)
  | String c r =>
      if c =c dq then completeKey (parseDoubleQuotedStream s)
      else if c =c sq then completeKey (singleQuotedStream r)
      else if c =c bq then (None, s)
      else parseUnquotedKey s
  end.

(** Mark a value incomplete. *)
Definition setIncomplete (v : value) : value :=
  match v with
  | valNull _ => valNull true
  | valBool _ b => valBool true b
  | valNumber _ sf t => valNumber true sf t
  | valString _ s => valString true s
  | valArray _ xs => valArray true xs
  | valObject _ fs => valObject true fs
  end.

(** [isPossibleUnquotedValue]. *)
Definition isPossibleUnquotedValue (sp : string) : bool :=
  let s := TrimSpace sp in
  parseFloatOk s || EqualFold s "true" || EqualFold s "false" || EqualFold s "null"
  || negb (ContainsByte " "%char sp || ContainsByte "("%char sp).

(** [greedyObjectValueTail]: [sp] is the value read so far. *)
Fixpoint greedyTail (sp s : string) : res value :=
  match s with
  | EmptyString => Ok (valString true sp) EmptyString
  | String c r =>
      if c =c "," then
        match r with
        | EmptyString => Ok (valString false sp) s
        | String d _ =>
            if d =c "010" then Ok (valString false sp) s
            else if d =c " " then if isPossibleUnquotedValue sp then Ok (valString false sp) s else Bad
            else greedyTail (sp +:+ str1 c) r
        end
      else if c =c "}" then Ok (valString false sp) s
      else greedyTail (sp +:+ str1 c) r
  end.

(** The comma ends an unquoted object value of a streamed text. *)
Definition commaClosesStream (r : string) : bool := (r =s "") || commaCloses r.

Section StreamFixer.
Variable nm : numMode.

(** [parseUnquotedScalarStream]. *)
Definition parseUnquotedScalarStream (term s : string) : res value :=
  let '(raw, r, bailed) := scanRun (scalarStop term) scalarBailBytes s in
  if bailed || (TrimSpace raw =s "") then Bad
  else
    let '(ws, r0) := span isWS r in
    match r0 with
    | EmptyString =>
        match classifyScalarMode nm raw with
        | Some v => Ok (setIncomplete v) EmptyString
        | None => Ok (valString true raw) EmptyString
        end
    | String c r1 =>
        if negb (ContainsByte c term) then Bad
        else if (term =s objectValueTerm) && (c =c ",") && negb (commaClosesStream r1)
        then greedyTail (raw +:+ ws) r0
        else match classifyScalarMode nm raw with Some v => Ok v r0 | None => Bad end
    end.

(** A quoted string as a value. *)
Definition stringValue (p : option (string * bool) * string) : res value :=
  match p with (Some (a, inc), rest) => Ok (valString inc a) rest | (None, _) => Bad end.

(** [parseValueStream], at a byte that is not white space; [parseObjectStream]
    and [parseArrayStream] after their opening bracket: the contents and whether
    the container is incomplete. *)
Fixpoint parseValueStream (fuel : nat) (term s : string) : res value :=
  match fuel with
  | O => NoFuel
  | S n =>
      match s with
      | EmptyString => Bad
      | String c r =>
          if c =c "{" then let? (p, rest) := parseObjectStream n r in Ok (valObject (snd p) (fst p)) rest
          else if c =c "[" then let? (p, rest) := parseArrayStream n r in Ok (valArray (snd p) (fst p)) rest
          else if c =c dq then stringValue (parseDoubleQuotedStream s)
          else if c =c sq then stringValue (singleQuotedStream r)
          else if (c =c bq) || (c =c "/") || (c =c "#") then Bad
          else parseUnquotedScalarStream term s
      end
  end
with parseObjectStream (fuel : nat) (s : string) : res (list (string * value) * bool) :=
  match fuel with
  | O => NoFuel
  | S n =>
      match skipWS s with
      | EmptyString => Ok ([], true) EmptyString
      | String c r =>
          if c =c "}" then Ok ([], false) r
          else if c =c "," then parseObjectStream n r
          else
            match parseKeyStream (String c r) with
            | (None, rest) => Ok ([], true) rest
            | (Some key, r1) =>
                match skipWS r1 with
                | EmptyString => Ok ([], true) EmptyString
                | String k r2 =>
                    if k =c ":" then
                      match skipWS r2 with
                      | EmptyString => Ok ([], true) EmptyString
                      | String d r' =>
                          let? (v, r3) := parseValueStream n objectValueTerm (String d r') in
                          match skipWS r3 with
                          | EmptyString => Ok ([(key, v)], true) EmptyString
                          | String e r4 =>
                              if e =c "}" then Ok ([(key, v)], false) r4
                              else if e =c "," then
                                let? (p, rest) := parseObjectStream n r4 in
                                Ok ((key, v) :: fst p, snd p) rest
                              else Bad
                          end
                      end
                    else Bad
                end
            end
      end
  end
with parseArrayStream (fuel : nat) (s : string) : res (list value * bool) :=
  match fuel with
  | O => NoFuel
  | S n =>
      match skipWS s with
      | EmptyString => Ok ([], true) EmptyString
      | String c r =>
          if c =c "]" then Ok ([], false) r
          else if c =c "," then parseArrayStream n r
          else if (c =c "/") && (r =s "") then Ok ([], true) EmptyString
          else
            let? (v, r3) := parseValueStream n arrayValueTerm (String c r) in
            match skipWS r3 with
            | EmptyString => Ok ([v], true) EmptyString
            | String e r4 =>
                if e =c "]" then Ok ([v], false) r4
                else if e =c "," then
                  let? (p, rest) := parseArrayStream n r4 in Ok (v :: fst p, snd p) rest
                else Bad
            end
      end
  end.

(** [streamFixMode]. *)
Definition streamFixFuel (fuel : nat) (s : string) : res value :=
  match skipWS s with
  | EmptyString => Bad
  | String c r =>
      if (c =c "{") || (c =c "[") then
        let? (v, rest) := parseValueStream fuel "" (String c r) in
        if skipWS rest =s "" then Ok v EmptyString else Bad
      else Bad
  end.
Definition streamFix (s : string) : option value :=
  match streamFixFuel (2 * String.length s + 2) s with Ok v _ => Some v | _ => None end.
End StreamFixer.

(** ** Lengths and fuel *)

(** A parser with this much fuel answers, and leaves less than it was given. *)
Definition consumes {A} (fuel need : nat) (s : string) (r : res A) : Prop :=
  match r with
  | Ok _ rest => (String.length rest < String.length s)%nat
  | Bad => True
  | NoFuel => (fuel <= need)%nat
  end.

Lemma doubleQuoted_length n : forall s, (String.length s <= n)%nat ->
  match doubleQuoted s with Ok _ rest => (String.length rest < String.length s)%nat | Bad => True | NoFuel => False end.
Proof.
  induction n as [|n IH]; intros [|c r] Hn; simpl in *; try done; [lia|].
  destruct (c =c bs); [|destruct (c =c dq); [simpl; lia|]].
  - destruct r as [|e r']; [done|]. destruct (fixEscape e).
    + specialize (IH r' ltac:(simpl in *; lia)). destruct (doubleQuoted r'); simpl in *; [lia|done|done].
    + specialize (IH (String e r') ltac:(lia)). destruct (doubleQuoted _); simpl in *; [lia|done|done].
  - specialize (IH r ltac:(lia)). destruct (doubleQuoted r); simpl in *; [lia|done|done].
Qed.

Lemma parseDoubleQuoted_length s :
  match parseDoubleQuoted s with Ok _ rest => (String.length rest < String.length s)%nat | Bad => True | NoFuel => False end.
Proof.
  unfold parseDoubleQuoted. destruct (HasPrefix _ _); [done|]. destruct s as [|c r]; [done|].
  pose proof (doubleQuoted_length _ r (le_n _)). destruct (doubleQuoted r); simpl in *; [lia|done|done].
Qed.

Lemma singleQuoted_length s :
  match singleQuoted s with Ok _ rest => (String.length rest < String.length s)%nat | Bad => True | NoFuel => False end.
Proof.
  induction s as [|c r IH]; simpl; [done|]. destruct (c =c bs); [done|]. destruct (c =c sq); [simpl; lia|].
  destruct (singleQuoted r); simpl in *; [lia|done|done].
Qed.

Lemma TrimSpace_nil : TrimSpace "" = "".
Proof. reflexivity. Qed.

(** A run whose trimmed text is not empty leaves less. *)
Lemma scanRun_length stop bail s raw rest b :
  scanRun stop bail s = (raw, rest, b) -> TrimSpace raw <> "" -> (String.length rest < String.length s)%nat.
Proof.
  unfold scanRun. pose proof (span_app (fun c => negb (stop c || bail c)) s) as Hs.
  destruct (span _ s) as [a r]. simpl in Hs. intros [= <- <- _] Ht. rewrite Hs, slength_app.
  destruct a; [by rewrite TrimSpace_nil in Ht|simpl; lia].
Qed.

Lemma parseUnquotedKey_length s key rest :
  parseUnquotedKey s = (Some key, rest) -> (String.length rest < String.length s)%nat.
Proof.
  unfold parseUnquotedKey. destruct (scanRun keyStop keyBailBytes s) as [[raw r] b] eqn:E.
  destruct (b || (TrimSpace raw =s "")) eqn:Eb; [done|]. intros [= _ <-].
  apply orb_false_iff in Eb as [_ Ht]. eapply scanRun_length; [exact E|]. by apply String.eqb_neq.
Qed.

Lemma parseKey_length s :
  match parseKey s with Ok _ rest => (String.length rest < String.length s)%nat | Bad => True | NoFuel => False end.
Proof.
  unfold parseKey. destruct s as [|c r]; [done|]. destruct (c =c dq); [apply parseDoubleQuoted_length|].
  destruct (c =c sq).
  { pose proof (singleQuoted_length r). destruct (singleQuoted r); simpl in *; [lia|done|done]. }
  destruct (c =c bq); [done|]. destruct (parseUnquotedKey _) as [[key|] rest] eqn:E; [|done].
  by apply parseUnquotedKey_length in E.
Qed.

Section FixFuel.
Variable nm : numMode.

Lemma parseUnquotedScalar_length term s :
  match parseUnquotedScalar nm term s with
  | Ok _ rest => (String.length rest < String.length s)%nat | Bad => True | NoFuel => False end.
Proof.
  unfold parseUnquotedScalar. destruct (scanRun _ _ s) as [[raw r] b] eqn:E.
  destruct (b || (TrimSpace raw =s "")) eqn:Eb; [done|]. apply orb_false_iff in Eb as [_ Ht%String.eqb_neq].
  pose proof (scanRun_length _ _ _ _ _ _ E Ht). destruct (skipWS r) as [|c r1] eqn:Er; [done|]. ws_length.
  destruct (negb _); [done|]. destruct (_ && _ && _); [done|]. destruct (classifyScalarMode nm raw); simpl; [lia|done].
Qed.

Lemma parse_consumes fuel :
  (forall term s, consumes fuel (2 * String.length s) s (parseValue nm fuel term s))
  /\ (forall s, consumes fuel (2 * String.length s) s (parseObject nm fuel s))
  /\ (forall s, consumes fuel (2 * String.length s + 1) s (parseArray nm fuel s)).
Proof.
  induction fuel as [|fuel (IHv&IHo&IHa)]; [split_and!; intros; simpl; lia|]. split_and!.
  - intros term s. cbn [parseValue]. destruct (skipWS s) as [|c r] eqn:E1; [done|]. ws_length.
    destruct (c =c "{"); [|destruct (c =c "["); [|destruct (c =c dq); [|destruct (c =c sq); [|destruct (_ || _); [done|]]]]].
    + specialize (IHo r). destruct (parseObject nm fuel r); simpl in *; [lia|done|lia].
    + specialize (IHa r). destruct (parseArray nm fuel r); simpl in *; [lia|done|lia].
    + pose proof (parseDoubleQuoted_length (String c r)). destruct (parseDoubleQuoted _); simpl in *; [lia|done|done].
    + pose proof (singleQuoted_length r). destruct (singleQuoted r); simpl in *; [lia|done|done].
    + pose proof (parseUnquotedScalar_length term (String c r)).
      destruct (parseUnquotedScalar _ _ _); simpl in *; [lia|done|done].
  - intros s. cbn [parseObject]. destruct (skipWS s) as [|c r] eqn:E1; [done|]. ws_length.
    destruct (c =c "}"); [simpl; lia|]. destruct (c =c ",").
    { specialize (IHo r). destruct (parseObject nm fuel r); simpl in *; [lia|done|lia]. }
    pose proof (parseKey_length (String c r)) as Hk. destruct (parseKey _) as [key r1| |]; simpl; [|done|done].
    destruct (skipWS r1) as [|k r2] eqn:E2; [done|]. ws_length. destruct (k =c ":"); [|done].
    specialize (IHv objectValueTerm r2). destruct (parseValue nm fuel _ r2) as [v r3| |]; simpl in *; [|done|lia].
    destruct (skipWS r3) as [|e r4] eqn:E3; [done|]. ws_length. destruct (e =c "}"); [simpl; lia|].
    destruct (e =c ","); [|done]. specialize (IHo r4). destruct (parseObject nm fuel r4); simpl in *; [lia|done|lia].
  - intros s. cbn [parseArray]. destruct (skipWS s) as [|c r] eqn:E1; [done|]. ws_length.
    destruct (c =c "]"); [simpl; lia|]. destruct (c =c ",").
    { specialize (IHa r). destruct (parseArray nm fuel r); simpl in *; [lia|done|lia]. }
    specialize (IHv arrayValueTerm (String c r)).
    destruct (parseValue nm fuel _ _) as [v r3| |]; simpl in *; [|done|lia].
    destruct (skipWS r3) as [|e r4] eqn:E3; [done|]. ws_length. destruct (e =c "]"); [simpl; lia|].
    destruct (e =c ","); [|done]. specialize (IHa r4). destruct (parseArray nm fuel r4); simpl in *; [lia|done|lia].
Qed.

Lemma parseValue_ok fuel term s v rest :
  parseValue nm fuel term s = Ok v rest -> (String.length rest < String.length s)%nat.
Proof. intros E. pose proof (proj1 (parse_consumes fuel) term s) as Hc. by rewrite E in Hc. Qed.
Lemma parseObject_ok fuel s fs rest :
  parseObject nm fuel s = Ok fs rest -> (String.length rest < String.length s)%nat.
Proof. intros E. pose proof (proj1 (proj2 (parse_consumes fuel)) s) as Hc. by rewrite E in Hc. Qed.
Lemma parseArray_ok fuel s xs rest :
  parseArray nm fuel s = Ok xs rest -> (String.length rest < String.length s)%nat.
Proof. intros E. pose proof (proj2 (proj2 (parse_consumes fuel)) s) as Hc. by rewrite E in Hc. Qed.
End FixFuel.
