(* ===== verification/FixStream.v ===== *)
(** * FixStream: streaming shows views of the final value

    The relation between the two parsers of [FixParse] on a text and on its
    prefixes: what the stream shows of a text the final parser accepts is always a
    part of the final value. *)

From Stdlib Require Import Ascii String.
From S2P Require Import Prelude GoStrings Jsonish FixParse.
Open Scope stdpp_scope.

(** ** Prefixes *)

Lemma sapp_cons_inv p q c r : p +:+ q = String c r ->
  (p = "" /\ q = String c r) \/ exists p', p = String c p' /\ p' +:+ q = r.
Proof. destruct p as [|d p]; simpl; [by left|]. intros [= -> <-]. right. eauto. Qed.

Lemma skipWS_app p q :
  skipWS (p +:+ q) = match skipWS p with EmptyString => skipWS q | String c r => String c (r +:+ q) end.
Proof. induction p as [|c p IH]; simpl; [done|]. by destruct (isWS c). Qed.

Lemma span_prefix f p q :
  match span f p with
  | (a, EmptyString) => a = p /\ span f (p +:+ q) = (p +:+ fst (span f q), snd (span f q))
  | (a, r) => span f (p +:+ q) = (a, r +:+ q)
  end.
Proof.
  induction p as [|c p IH]; simpl; [split; [done|]; by destruct (span f q)|].
  destruct (f c); [|done]. destruct (span f p) as [a [|d r]].
  - destruct IH as [-> IH]. split; [done|]. by rewrite IH.
  - by rewrite IH.
Qed.

Lemma ContainsByte_sapp c s t : ContainsByte c (s +:+ t) = ContainsByte c s || ContainsByte c t.
Proof. induction s as [|a s IH]; simpl; [done|]. by rewrite IH, orb_assoc. Qed.

(** ** Views *)

(** A byte the two parsers treat alike: ASCII, no backslash, and no white space
    but the four bytes [skipWS] skips. *)
Definition plain (c : ascii) : bool :=
  (N_of_ascii c <? 128)%N && negb (c =c bs) && (negb (isAsciiSpace c) || isWS c).

(** The text of an unfinished string: a prefix, and maybe a dangling backslash. *)
Definition textView (x' x : string) : Prop :=
  exists y z, x = y +:+ z /\ (x' = y \/ x' = y +:+ str1 bs).

Section View.
Variable nm : numMode.

(** How an unfinished bare token is read. *)
Definition scalarView (raw : string) : value :=
  match classifyScalarMode nm raw with Some v => setIncomplete v | None => valString true raw end.

(** [view v' v]: [v'] is [v] itself or an unfinished part of it.  Of a container
    all members but the last shown are final. *)
Inductive view : value -> value -> Prop :=
  | view_whole v : view v v
  | view_string x' x : textView x' x -> view (valString true x') (valString false x)
  | view_token raw' raw'' v :
      classifyScalarMode nm (raw' +:+ raw'') = Some v -> view (scalarView raw') v
  | view_array xs' xs : itemsView xs' xs -> view (valArray true xs') (valArray false xs)
  | view_object fs' fs : fieldsView fs' fs -> view (valObject true fs') (valObject false fs)
with itemsView : list value -> list value -> Prop :=
  | items_cut xs : itemsView [] xs
  | items_last v' v xs : view v' v -> itemsView [v'] (v :: xs)
  | items_more v xs' xs : itemsView xs' xs -> itemsView (v :: xs') (v :: xs)
with fieldsView : list (string * value) -> list (string * value) -> Prop :=
  | fields_cut fs : fieldsView [] fs
  | fields_last key v' v fs : view v' v -> fieldsView [(key, v')] ((key, v) :: fs)
  | fields_more f fs' fs : fieldsView fs' fs -> fieldsView (f :: fs') (f :: fs).

(** ** Strings *)

Definition poison (s : string) : Prop := exists r, s = String bs r.

Lemma textView_cons c x' x : textView x' x -> textView (String c x') (String c x).
Proof. intros (y&z&->&[->| ->]); exists (String c y), z; split; auto. Qed.

Lemma doubleQuoted_cons c r :
  doubleQuoted (String c r) =
  if c =c bs then
    match r with
    | EmptyString => Bad
    | String e r' =>
        match fixEscape e with
        | Some x => let? (a, rest) := doubleQuoted r' in Ok (String x a) rest
        | None => let? (a, rest) := doubleQuoted r in Ok (String bs a) rest
        end
    end
  else if c =c dq then Ok EmptyString r
  else let? (a, rest) := doubleQuoted r in Ok (String c a) rest.
Proof. reflexivity. Qed.

(** [push] of the streaming parser. *)
Definition pushed (x : ascii) (p : option (string * bool) * string) : option (string * bool) * string :=
  match p with (Some (a, inc), rest) => (Some (String x a, inc), rest) | (None, rest) => (None, rest) end.

Lemma doubleQuotedStream_cons c r :
  doubleQuotedStream (String c r) =
  if c =c bs then
    match r with
    | EmptyString => (Some (str1 bs, true), EmptyString)
    | String e r' =>
        if e =c dq then (None, String c r)
        else
          match fixEscape e with
          | Some x => pushed x (doubleQuotedStream r')
          | None => pushed bs (doubleQuotedStream r)
          end
    end
  else if c =c dq then (Some (EmptyString, false), r)
  else pushed c (doubleQuotedStream r).
Proof. reflexivity. Qed.

(** What a streamed string literal shows of the final one. *)
Definition stringView (has : Prop) (x rest q : string) (r : option (string * bool) * string) : Prop :=
  match r with
  | (Some (x', false), rest') => x' = x /\ rest = rest' +:+ q
  | (Some (x', true), rest') => rest' = "" /\ textView x' x /\ (String.length rest < String.length q)%nat
  | (None, rest') => poison rest' /\ has
  end.

Lemma stringView_pushed (has has' : Prop) c x rest q r : (has -> has') ->
  stringView has x rest q r -> stringView has' (String c x) rest q (pushed c r).
Proof.
  intros Hh. destruct r as [[[x' []]|] rest']; simpl.
  - intros (?&?&?). split_and!; [done|by apply textView_cons|done].
  - by intros [-> ->].
  - intros [? ?]. by split; [|apply Hh].
Qed.

(** Nothing of the literal is there yet but maybe a backslash. *)
Lemma textView_start x : textView "" x.
Proof. exists "", x. by split; [|left]. Qed.
Lemma textView_dangling x : textView (str1 bs) x.
Proof. exists "", x. by split; [|right]. Qed.

Lemma doubleQuoted_rest s x rest : doubleQuoted s = Ok x rest -> (String.length rest < String.length s)%nat.
Proof. intros E. pose proof (doubleQuoted_length _ s (le_n _)) as Hl. by rewrite E in Hl. Qed.

Lemma doubleQuoted_view n : forall p q x rest, (String.length p <= n)%nat ->
  doubleQuoted (p +:+ q) = Ok x rest ->
  stringView (ContainsByte bs p = true) x rest q (doubleQuotedStream p).
Proof.
  induction n as [|n IH]; intros [|c p] q x rest Hn Hx; try (simpl in Hn; lia).
  1, 2: split_and!; [done|apply textView_start|by apply doubleQuoted_rest in Hx].
  change (String c p +:+ q) with (String c (p +:+ q)) in Hx.
  rewrite doubleQuoted_cons in Hx. rewrite doubleQuotedStream_cons. destruct (c =c bs) eqn:Ec.
  - apply Ascii.eqb_eq in Ec as ->. destruct p as [|e p].
    { split_and!; [done|apply textView_dangling|]. destruct q as [|e q]; [done|]. cbn [String.append] in Hx.
      destruct (fixEscape e) as [y|].
      - destruct (doubleQuoted q) as [a r| |] eqn:E; [|done|done]. injection Hx as _ <-.
        apply doubleQuoted_rest in E. simpl. lia.
      - destruct (doubleQuoted (String e q)) as [a r| |] eqn:E; [|done|done]. injection Hx as _ <-.
        by apply doubleQuoted_rest in E. }
    cbn [String.append] in Hx. destruct (e =c dq) eqn:Ed; [by split; [eexists|]|].
    destruct (fixEscape e) as [y|].
    + destruct (doubleQuoted (p +:+ q)) as [a r| |] eqn:Er; [|done|done]. injection Hx as <- <-.
      eapply stringView_pushed; [|apply IH; [simpl in Hn; lia|exact Er]]. done.
    + change (String e (p +:+ q)) with (String e p +:+ q) in Hx.
      destruct (doubleQuoted (String e p +:+ q)) as [a r| |] eqn:Er; [|done|done]. injection Hx as <- <-.
      eapply stringView_pushed; [|apply IH; [simpl in Hn |- *; lia|exact Er]]. done.
  - destruct (c =c dq); [by injection Hx as <- <-|].
    destruct (doubleQuoted (p +:+ q)) as [a r| |] eqn:Er; [|done|done]. injection Hx as <- <-.
    eapply stringView_pushed; [|apply IH; [simpl in Hn; lia|exact Er]].
    simpl. intros ->. by rewrite orb_true_r.
Qed.

Lemma singleQuoted_view p : forall q x rest,
  singleQuoted (p +:+ q) = Ok x rest -> stringView False x rest q (singleQuotedStream p).
Proof.
  induction p as [|c p IH]; intros q x rest Hx.
  { pose proof (singleQuoted_length q) as Hl. simpl in Hx. rewrite Hx in Hl.
    split_and!; [done|apply textView_start|done]. }
  simpl in Hx |- *. destruct (c =c bs); [done|]. destruct (c =c sq); [by injection Hx as <- <-|].
  destruct (singleQuoted (p +:+ q)) as [a r| |] eqn:Er; [|done|done]. injection Hx as <- <-.
  exact (stringView_pushed _ _ c _ _ _ _ id (IH q a r Er)).
Qed.

Lemma HasPrefix_mono p q t : HasPrefix p t = true -> HasPrefix (p +:+ q) t = true.
Proof.
  unfold HasPrefix. intros [r Hr]%bool_decide_eq_true. apply CutPrefix_some in Hr as ->.
  rewrite sapp_assoc, CutPrefix_app. by apply bool_decide_eq_true.
Qed.

Lemma parseDoubleQuoted_view c p q x rest :
  parseDoubleQuoted (String c (p +:+ q)) = Ok x rest ->
  stringView (ContainsByte bs (String c p) = true) x rest q (parseDoubleQuotedStream (String c p)).
Proof.
  unfold parseDoubleQuoted, parseDoubleQuotedStream. destruct (HasPrefix (String c (p +:+ q)) _) eqn:E; [done|].
  destruct (HasPrefix (String c p) _) eqn:E'.
  { apply (HasPrefix_mono _ q) in E'. cbn [String.append] in E'. by rewrite E in E'. }
  intros Hx. pose proof (doubleQuoted_view _ p q x rest (le_n _) Hx) as Hv.
  destruct (doubleQuotedStream p) as [[[x' []]|] rest']; [done|done|]. destruct Hv as [? Hv]. split; [done|].
  cbn [ContainsByte]. by rewrite Hv, orb_true_r.
Qed.

(** ** Runs *)

(** A run of a prefix: all of the prefix, or the run of the whole text. *)
Lemma scanRun_prefix stop bail p q raw rest b :
  scanRun stop bail (p +:+ q) = (raw, rest, b) ->
  match scanRun stop bail p with
  | (raw', EmptyString, b') => raw' = p /\ b' = false /\ (exists raw'', raw = p +:+ raw'')
      /\ (String.length rest <= String.length q)%nat
  | (raw', rest', b') => raw' = raw /\ b' = b /\ rest = rest' +:+ q
  end.
Proof.
  unfold scanRun. pose proof (span_prefix (fun c => negb (stop c || bail c)) p q) as Hs.
  destruct (span _ p) as [a [|c r]].
  - destruct Hs as [-> ->]. pose proof (span_length (fun c => negb (stop c || bail c)) q) as Hl.
    destruct (span _ q) as [a2 r2]. simpl in *. intros [= <- <- _]. split_and!; [done|done|by exists a2|done].
  - rewrite Hs. cbn [String.append]. by intros [= <- <- <-].
Qed.

(** What a streamed key shows: the key itself, or nothing of a key that is cut. *)
Definition keyView (has : Prop) (key rest q : string) (r : option string * string) : Prop :=
  (fst r = Some key /\ rest = snd r +:+ q)
  \/ (snd r = "" /\ (String.length rest <= String.length q)%nat)
  \/ (fst r = None /\ poison (snd r) /\ has).

Lemma completeKey_view has x rest q r : stringView has x rest q r -> keyView has x rest q (completeKey r).
Proof.
  destruct r as [[[x' []]|] rest']; simpl.
  - intros (->&_&?). right; left. split; [done|simpl; lia].
  - intros [-> ->]. by left.
  - intros [??]. by right; right.
Qed.

Lemma parseKey_view c p q key rest :
  parseKey (String c (p +:+ q)) = Ok key rest ->
  keyView (ContainsByte bs (String c p) = true) key rest q (parseKeyStream (String c p)).
Proof.
  unfold parseKey, parseKeyStream. destruct (c =c dq); [by intros Hk%parseDoubleQuoted_view; apply completeKey_view|].
  destruct (c =c sq).
  { intros Hk%singleQuoted_view. apply completeKey_view.
    destruct (singleQuotedStream p) as [[[x' []]|] rest']; [done|done|]. by destruct Hk. }
  destruct (c =c bq); [done|]. unfold parseUnquotedKey. change (String c (p +:+ q)) with (String c p +:+ q).
  destruct (scanRun keyStop keyBailBytes (String c p +:+ q)) as [[raw r] b] eqn:E. apply scanRun_prefix in E.
  destruct (b || (TrimSpace raw =s "")) eqn:Eb; [done|]. intros [= <- <-].
  destruct (scanRun keyStop keyBailBytes (String c p)) as [[raw' [|d r']] b'].
  - destruct E as (->&->&[raw'' ->]&?). right; left. by split; [|simpl].
  - destruct E as (->&->&->). left. by rewrite Eb.
Qed.

(** ** Bare tokens *)

(** What a streamed value shows of a value that leaves [rest]. *)
Definition valueView (has : Prop) (v : value) (rest q : string) (r : res value) : Prop :=
  match r with
  | Ok v' rest' =>
      (v' = v /\ rest = rest' +:+ q)
      \/ (rest' = "" /\ view v' v /\ (String.length rest <= String.length q)%nat)
      \/ (poison rest' /\ has)
  | Bad => has
  | NoFuel => False
  end.

Lemma stringValue_view (has has' : Prop) x rest q r : (has -> has') ->
  stringView has x rest q r -> valueView has' (valString false x) rest q (stringValue r).
Proof.
  intros Hh. destruct r as [[[x' []]|] rest']; simpl.
  - intros (->&?&?). right; left. split_and!; [done|by apply view_string|lia].
  - intros [-> ->]. by left.
  - intros [_ ?]. by apply Hh.
Qed.

Lemma sall_sub p s t u : sall p (s +:+ t +:+ u) = true -> sall p t = true.
Proof. rewrite !sall_app. by intros [_ [? _]%andb_true_iff]%andb_true_iff. Qed.

Lemma span_sall p s : sall p (fst (span p s)) = true.
Proof. induction s as [|c s IH]; simpl; [done|]. destruct (p c) eqn:E; [|done]. destruct (span p s). simpl in *. by rewrite E, IH. Qed.

Lemma sall_impl2 (p1 p2 p3 : ascii -> bool) s : (forall c, p1 c = true -> p2 c = true -> p3 c = true) ->
  sall p1 s = true -> sall p2 s = true -> sall p3 s = true.
Proof.
  intros Hi. induction s as [|c s IH]; simpl; [done|].
  intros [H1 H2]%andb_true_iff [H3 H4]%andb_true_iff. by rewrite Hi, IH.
Qed.

(** A plain run has its own text. *)
Lemma plain_run term p raw rest b : sall plain p = true ->
  scanRun (scalarStop term) scalarBailBytes p = (raw, rest, b) -> TrimSpace raw = raw.
Proof.
  unfold scanRun. set (f := fun c => negb (scalarStop term c || scalarBailBytes c)).
  pose proof (span_app f p) as Hc. pose proof (span_sall f p) as Hs. destruct (span f p) as [a r]. simpl in Hc, Hs.
  intros Hp [= <- _ _]. apply TrimSpace_solid. rewrite Hc, sall_app in Hp. apply andb_true_iff in Hp as [Hp _].
  eapply sall_impl2; [|exact Hp|exact Hs]. intros d Hd He. unfold f, plain, scalarStop, solidByte in *.
  destruct (isWS d); [done|]. destruct (isAsciiSpace d); [|by rewrite !andb_true_iff in *; tauto].
  simpl in Hd. by rewrite andb_false_r in Hd.
Qed.

Lemma span_skipWS s : snd (span isWS s) = skipWS s.
Proof. induction s as [|c s IH]; simpl; [done|]. destruct (isWS c); [|done]. by destruct (span isWS s). Qed.

Lemma commaCloses_prefix r q : commaCloses (r +:+ q) = true -> commaClosesStream r = true.
Proof. unfold commaClosesStream. by destruct r. Qed.

Lemma scalar_view term p q v rest : p <> "" ->
  parseUnquotedScalar nm term (p +:+ q) = Ok v rest ->
  valueView (sall plain p = false) v rest q (parseUnquotedScalarStream nm term p).
Proof.
  intros Hne. unfold parseUnquotedScalar, parseUnquotedScalarStream.
  destruct (scanRun _ _ (p +:+ q)) as [[raw r] b] eqn:E. apply scanRun_prefix in E.
  destruct (b || (TrimSpace raw =s "")) eqn:Eb; [done|].
  destruct (scanRun _ _ p) as [[raw' r'] b'] eqn:E'. destruct r' as [|d r'].
  - destruct E as (->&->&[raw'' ->]&Hl). simpl.
    destruct (TrimSpace p =s "") eqn:Et.
    { intros _. simpl. apply String.eqb_eq in Et. destruct (sall plain p) eqn:Ep; [|done].
      by rewrite (plain_run _ _ _ _ _ Ep E') in Et. }
    destruct (skipWS r) as [|e r1] eqn:Er; [done|]. ws_length.
    destruct (negb _); [done|]. destruct (_ && _ && _); [done|].
    destruct (classifyScalarMode nm (p +:+ raw'')) as [v0|] eqn:Ec; [|done]. intros [= -> <-].
    pose proof (view_token p raw'' v Ec) as Hv. unfold scalarView in Hv.
    destruct (classifyScalarMode nm p); right; left; (split; [done|]; split; [done|simpl; lia]).
  - destruct E as (->&->&->). rewrite Eb. pose proof (span_skipWS (String d r')) as Hs.
    destruct (span isWS (String d r')) as [ws r0]. cbn [snd] in Hs. rewrite skipWS_app, <- Hs.
    destruct r0 as [|e r1].
    + destruct (skipWS q) as [|e r1] eqn:Er; [done|]. ws_length.
      destruct (negb _); [done|]. destruct (_ && _ && _); [done|].
      destruct (classifyScalarMode nm raw) as [v0|] eqn:Ec; [|done]. intros [= -> <-].
      pose proof (view_token raw "" v) as Hv. rewrite sapp_nil_r in Hv. specialize (Hv Ec).
      unfold scalarView in Hv. rewrite Ec in Hv. right; left. split_and!; [done|done|simpl; lia].
    + destruct (negb (ContainsByte e term)); [done|].
      destruct ((term =s objectValueTerm) && (e =c ",")); simpl.
      * destruct (commaCloses (r1 +:+ q)) eqn:Ecc; [|done]. rewrite (commaCloses_prefix _ _ Ecc). simpl.
        destruct (classifyScalarMode nm raw); [|done]. intros [= <- <-]. by left.
      * destruct (classifyScalarMode nm raw); [|done]. intros [= <- <-]. by left.
Qed.

(** ** What is left of a text is a suffix of it *)

Section Rest.

Lemma doubleQuoted_suffix n : forall s, (String.length s <= n)%nat -> restSuffix s (doubleQuoted s).
Proof.
  induction n as [|n IH]; intros [|c r] Hn a rest; try done; [simpl in Hn; lia|].
  rewrite doubleQuoted_cons. intros Hx. apply suffix_cons. simpl in Hn. destruct (c =c bs).
  - destruct r as [|e r']; [done|]. destruct (fixEscape e).
    + destruct (doubleQuoted r') as [x t| |] eqn:E; [|done|done]. injection Hx as _ <-.
      apply suffix_cons. eapply IH; [|exact E]. simpl in Hn. lia.
    + destruct (doubleQuoted (String e r')) as [x t| |] eqn:E; [|done|done]. injection Hx as _ <-.
      eapply IH; [|exact E]. lia.
  - destruct (c =c dq); [injection Hx as _ <-; apply suffix_refl|].
    destruct (doubleQuoted r) as [x t| |] eqn:E; [|done|done]. injection Hx as _ <-. eapply IH; [|exact E]. lia.
Qed.

Lemma parseDoubleQuoted_suffix s : restSuffix s (parseDoubleQuoted s).
Proof.
  unfold parseDoubleQuoted. intros a rest. destruct (HasPrefix _ _); [done|]. destruct s as [|c r]; [done|].
  intros E. apply suffix_cons. by eapply doubleQuoted_suffix.
Qed.

Lemma singleQuoted_suffix s : restSuffix s (singleQuoted s).
Proof.
  induction s as [|c r IH]; intros a rest; simpl; [done|]. destruct (c =c bs); [done|].
  intros Hx. apply suffix_cons. destruct (c =c sq); [injection Hx as _ <-; apply suffix_refl|].
  destruct (singleQuoted r) as [x t| |]; [|done|done]. injection Hx as _ <-. by eapply IH.
Qed.

Lemma scanRun_suffix stop bail s raw rest b : scanRun stop bail s = (raw, rest, b) -> suffix_of rest s.
Proof.
  unfold scanRun. pose proof (span_app (fun c => negb (stop c || bail c)) s) as Hs.
  destruct (span _ s) as [a r]. simpl in Hs. intros [= _ <- _]. by exists a.
Qed.

Lemma parseKey_suffix s : restSuffix s (parseKey s).
Proof.
  unfold parseKey. intros a rest. destruct s as [|c r]; [done|]. destruct (c =c dq); [apply parseDoubleQuoted_suffix|].
  destruct (c =c sq). { intros E. apply suffix_cons. by eapply singleQuoted_suffix. }
  destruct (c =c bq); [done|]. unfold parseUnquotedKey.
  destruct (scanRun _ _ _) as [[raw t] b] eqn:E. destruct (b || _); [done|]. intros [= _ <-]. by eapply scanRun_suffix.
Qed.

Lemma scalar_suffix term s : restSuffix s (parseUnquotedScalar nm term s).
Proof.
  unfold parseUnquotedScalar. intros a rest. destruct (scanRun _ _ s) as [[raw r] b] eqn:E.
  destruct (b || _); [done|]. destruct (skipWS r) as [|c r1] eqn:Er; [done|]. destruct (negb _); [done|].
  destruct (_ && _ && _); [done|]. destruct (classifyScalarMode nm raw); [|done]. intros [= _ <-].
  eapply suffix_skip; [exact Er|]. by eapply scanRun_suffix.
Qed.

Lemma parse_suffix fuel :
  (forall term s, restSuffix s (parseValue nm fuel term s))
  /\ (forall s, restSuffix s (parseObject nm fuel s)) /\ (forall s, restSuffix s (parseArray nm fuel s)).
Proof.
  induction fuel as [|fuel (IHv&IHo&IHa)]; [done|]. split_and!.
  - intros term s a rest. cbn [parseValue]. destruct (skipWS s) as [|c r] eqn:E1; [done|]. intros Hx.
    pose proof (suffix_skip _ s _ _ E1 (suffix_refl s)) as Hs. pose proof (suffix_tail _ _ _ Hs) as Hr.
    destruct (c =c "{"); [|destruct (c =c "["); [|destruct (c =c dq); [|destruct (c =c sq); [|destruct (_ || _); [done|]]]]].
    + destruct (parseObject nm fuel r) eqn:E; [|done|done]. injection Hx as _ <-. eapply suffix_trans; [by eapply IHo|done].
    + destruct (parseArray nm fuel r) eqn:E; [|done|done]. injection Hx as _ <-. eapply suffix_trans; [by eapply IHa|done].
    + destruct (parseDoubleQuoted _) eqn:E; [|done|done]. injection Hx as _ <-.
      eapply suffix_trans; [by eapply parseDoubleQuoted_suffix|done].
    + destruct (singleQuoted r) eqn:E; [|done|done]. injection Hx as _ <-.
      eapply suffix_trans; [by eapply singleQuoted_suffix|done].
    + eapply suffix_trans; [by eapply scalar_suffix|done].
  - intros s a rest. cbn [parseObject]. destruct (skipWS s) as [|c r] eqn:E1; [done|]. intros Hx.
    pose proof (suffix_skip _ s _ _ E1 (suffix_refl s)) as Hs. pose proof (suffix_tail _ _ _ Hs) as Hr.
    destruct (c =c "}"); [by injection Hx as _ <-|].
    destruct (c =c ","); [eapply suffix_trans; [by eapply IHo|done]|].
    destruct (parseKey _) as [key r1| |] eqn:Ek; [|done|done]. cbn [bind] in Hx.
    destruct (skipWS r1) as [|k r2] eqn:E2; [done|]. destruct (k =c ":"); [|done].
    destruct (parseValue nm fuel _ r2) as [v r3| |] eqn:Ev; [|done|done]. cbn [bind] in Hx.
    destruct (skipWS r3) as [|e r4] eqn:E3; [done|].
    assert (suffix_of r4 s) as H4.
    { eapply suffix_tail, suffix_skip; [exact E3|]. eapply suffix_trans; [by eapply IHv|].
      eapply suffix_tail, suffix_skip; [exact E2|]. eapply suffix_trans; [by eapply parseKey_suffix|done]. }
    destruct (e =c "}"); [by injection Hx as _ <-|]. destruct (e =c ","); [|done].
    destruct (parseObject nm fuel r4) eqn:E; [|done|done]. injection Hx as _ <-. eapply suffix_trans; [by eapply IHo|done].
  - intros s a rest. cbn [parseArray]. destruct (skipWS s) as [|c r] eqn:E1; [done|]. intros Hx.
    pose proof (suffix_skip _ s _ _ E1 (suffix_refl s)) as Hs. pose proof (suffix_tail _ _ _ Hs) as Hr.
    destruct (c =c "]"); [by injection Hx as _ <-|].
    destruct (c =c ","); [eapply suffix_trans; [by eapply IHa|done]|].
    destruct (parseValue nm fuel _ _) as [v r3| |] eqn:Ev; [|done|done]. cbn [bind] in Hx.
    destruct (skipWS r3) as [|e r4] eqn:E3; [done|].
    assert (suffix_of r4 s) as H4.
    { eapply suffix_tail, suffix_skip; [exact E3|]. eapply suffix_trans; [by eapply IHv|done]. }
    destruct (e =c "]"); [by injection Hx as _ <-|]. destruct (e =c ","); [|done].
    destruct (parseArray nm fuel r4) eqn:E; [|done|done]. injection Hx as _ <-. eapply suffix_trans; [by eapply IHa|done].
Qed.

(** What spoils the rest spoiled the text. *)
Lemma spoiled_suffix f t s : suffix_of t s -> sall f t = false -> sall f s = false.
Proof. intros Hs Hf. destruct (sall f s) eqn:Es; [|done]. by rewrite (suffix_all _ _ _ Hs Es) in Hf. Qed.

Lemma spoiled f {A} s (r : res A) a rest : restSuffix s r -> r = Ok a rest -> sall f rest = false -> sall f s = false.
Proof. intros Hr He. by apply spoiled_suffix, (Hr a). Qed.

Lemma spoiled_skipWS f s c r : skipWS s = String c r -> sall f r = false -> sall f s = false.
Proof. intros He. eapply spoiled_suffix, suffix_tail, suffix_skip; [exact He|apply suffix_refl]. Qed.
End Rest.

(** ** The parsers step by step *)

(** How a member ends: the container, or a separator before the rest of it. *)
Lemma parseObject_inv n s fs rest : parseObject nm (S n) s = Ok fs rest ->
  exists c r, skipWS s = String c r
  /\ ((c =c "}") = true /\ fs = [] /\ rest = r
     \/ (c =c "}") = false /\ (c =c ",") = true /\ parseObject nm n r = Ok fs rest
     \/ (c =c "}") = false /\ (c =c ",") = false /\ exists key r1 r2 v r3 e r4,
          parseKey (String c r) = Ok key r1 /\ skipWS r1 = String ":" r2
          /\ parseValue nm n objectValueTerm r2 = Ok v r3 /\ skipWS r3 = String e r4
          /\ ((e =c "}") = true /\ fs = [(key, v)] /\ rest = r4
             \/ (e =c "}") = false /\ (e =c ",") = true
                /\ exists fs1, parseObject nm n r4 = Ok fs1 rest /\ fs = (key, v) :: fs1)).
Proof.
  cbn [parseObject]. destruct (skipWS s) as [|c r]; [done|]. intros Hx. exists c, r. split; [done|].
  destruct (c =c "}"); [injection Hx as <- <-; by left|]. destruct (c =c ","); [by right; left|].
  right; right. split_and!; [done|done|]. destruct (parseKey _) as [key r1| |]; [|done|done]. cbn [bind] in Hx.
  destruct (skipWS r1) as [|k r2] eqn:E2; [done|]. destruct (k =c ":") eqn:Ek; [|done].
  apply Ascii.eqb_eq in Ek as ->.
  destruct (parseValue nm n _ r2) as [v r3| |] eqn:Ev; [|done|done]. cbn [bind] in Hx.
  destruct (skipWS r3) as [|e r4] eqn:E3; [done|]. exists key, r1, r2, v, r3, e, r4. split_and!; try done.
  destruct (e =c "}"); [injection Hx as <- <-; by left|]. destruct (e =c ","); [|done].
  right. split_and!; [done|done|]. destruct (parseObject nm n r4) as [fs1 t| |]; [|done|done].
  injection Hx as <- <-. eauto.
Qed.

Lemma parseArray_inv n s xs rest : parseArray nm (S n) s = Ok xs rest ->
  exists c r, skipWS s = String c r
  /\ ((c =c "]") = true /\ xs = [] /\ rest = r
     \/ (c =c "]") = false /\ (c =c ",") = true /\ parseArray nm n r = Ok xs rest
     \/ (c =c "]") = false /\ (c =c ",") = false /\ exists v r3 e r4,
          parseValue nm n arrayValueTerm (String c r) = Ok v r3 /\ skipWS r3 = String e r4
          /\ ((e =c "]") = true /\ xs = [v] /\ rest = r4
             \/ (e =c "]") = false /\ (e =c ",") = true
                /\ exists xs1, parseArray nm n r4 = Ok xs1 rest /\ xs = v :: xs1)).
Proof.
  cbn [parseArray]. destruct (skipWS s) as [|c r]; [done|]. intros Hx. exists c, r. split; [done|].
  destruct (c =c "]"); [injection Hx as <- <-; by left|]. destruct (c =c ","); [by right; left|].
  right; right. split_and!; [done|done|].
  destruct (parseValue nm n _ _) as [v r3| |] eqn:Ev; [|done|done]. cbn [bind] in Hx.
  destruct (skipWS r3) as [|e r4] eqn:E3; [done|]. exists v, r3, e, r4. split_and!; try done.
  destruct (e =c "]"); [injection Hx as <- <-; by left|]. destruct (e =c ","); [|done].
  right. split_and!; [done|done|]. destruct (parseArray nm n r4) as [xs1 t| |]; [|done|done].
  injection Hx as <- <-. eauto.
Qed.

(** White space before the cut changes nothing. *)
Lemma parseValue_ws n term p q : skipWS p = "" -> parseValue nm n term (p +:+ q) = parseValue nm n term q.
Proof. intros E. destruct n; [done|]. cbn [parseValue]. by rewrite skipWS_app, E. Qed.
Lemma parseObject_ws n p q : skipWS p = "" -> parseObject nm n (p +:+ q) = parseObject nm n q.
Proof. intros E. destruct n; [done|]. cbn [parseObject]. by rewrite skipWS_app, E. Qed.
Lemma parseArray_ws n p q : skipWS p = "" -> parseArray nm n (p +:+ q) = parseArray nm n q.
Proof. intros E. destruct n; [done|]. cbn [parseArray]. by rewrite skipWS_app, E. Qed.

Lemma skipWS_head s c r : skipWS s = String c r -> skipWS (String c r) = String c r.
Proof.
  induction s as [|d s IH]; [done|]. simpl. destruct (isWS d) eqn:E; [exact IH|].
  intros [= <- _]. by rewrite E.
Qed.

(** Skipping to a byte of the whole text, seen from the cut. *)
Lemma skipWS_cut p q c r : skipWS (p +:+ q) = String c r ->
  (skipWS p = "" /\ skipWS q = String c r) \/ (exists p', skipWS p = String c p' /\ r = p' +:+ q).
Proof. rewrite skipWS_app. destruct (skipWS p) as [|d p']; [by left|]. intros [= -> <-]. right. eauto. Qed.

(** ** Containers *)

(** What the streamed body of a container shows of the final one. *)
Definition bodyView {A} (rel : A -> A -> Prop) (has : Prop) (xs : A) (rest q : string) (r : res (A * bool)) : Prop :=
  match r with
  | Ok (xs', inc) rest' =>
      (inc = false /\ xs' = xs /\ rest = rest' +:+ q)
      \/ (inc = true /\ rest' = "" /\ rel xs' xs /\ (String.length rest < String.length q)%nat)
      \/ (poison rest' /\ has)
  | Bad => has
  | NoFuel => False
  end.

Lemma bodyView_has {A} (rel : A -> A -> Prop) (has has' : Prop) xs rest q r : (has -> has') ->
  bodyView rel has xs rest q r -> bodyView rel has' xs rest q r.
Proof.
  intros Hh. destruct r as [[xs' inc] rest'| |]; simpl; [|done|done].
  intros [?|[?|[? ?]]]; [by left|by right; left|]. right; right. by split; [|apply Hh].
Qed.

(** One more final member in front. *)
Lemma bodyView_more {A} (rel : list A -> list A -> Prop) has x xs rest q r :
  (forall x xs' xs, rel xs' xs -> rel (x :: xs') (x :: xs)) ->
  bodyView rel has xs rest q r ->
  bodyView rel has (x :: xs) rest q (let? (p, t) := r in Ok (x :: fst p, snd p) t).
Proof.
  intros Hrel. destruct r as [[xs' inc] rest'| |]; simpl; [|done|done].
  intros [(?&->&?)|[(?&?&?&?)|?]]; [by left|right; left; split_and!; auto|by right; right].
Qed.

(** The container is cut before its next member. *)
Lemma bodyView_cut {A} (rel : list A -> list A -> Prop) has xs rest q :
  rel [] xs -> (String.length rest < String.length q)%nat -> bodyView rel has xs rest q (Ok ([], true) "").
Proof. intros ??. right; left. done. Qed.

Lemma valueView_object (has has' : Prop) fs rest q r : (has -> has') ->
  bodyView fieldsView has fs rest q r ->
  valueView has' (valObject false fs) rest q (let? (p, t) := r in Ok (valObject (snd p) (fst p)) t).
Proof.
  intros Hh. destruct r as [[fs' inc] rest'| |]; simpl; [|done|done].
  intros [(->&->&?)|[(->&?&?&?)|[? ?]]]; [by left| |right; right; by split; [|apply Hh]].
  right; left. split_and!; [done|by apply view_object|lia].
Qed.

Lemma valueView_array (has has' : Prop) xs rest q r : (has -> has') ->
  bodyView itemsView has xs rest q r ->
  valueView has' (valArray false xs) rest q (let? (p, t) := r in Ok (valArray (snd p) (fst p)) t).
Proof.
  intros Hh. destruct r as [[fs' inc] rest'| |]; simpl; [|done|done].
  intros [(->&->&?)|[(->&?&?&?)|[? ?]]]; [by left| |right; right; by split; [|apply Hh]].
  right; left. split_and!; [done|by apply view_array|lia].
Qed.

Lemma valueView_has (has has' : Prop) v rest q r : (has -> has') ->
  valueView has v rest q r -> valueView has' v rest q r.
Proof.
  intros Hh. destruct r as [v' rest'| |]; simpl; [|done|done].
  intros [?|[?|[? ?]]]; [by left|by right; left|]. right; right. by split; [|apply Hh].
Qed.

(** After a value: the end of the container, or the rest of it. *)
Lemma member_tail {A} (rel : list A -> list A -> Prop) (mk : value -> A) (close : ascii)
    (K : string -> res (list A * bool)) (has : Prop) v r3 q (R : res value) e r4 xs rest :
  (forall v' v xs, view v' v -> rel [mk v'] (mk v :: xs)) ->
  (forall x xs' xs, rel xs' xs -> rel (x :: xs') (x :: xs)) ->
  (bs =c close) = false ->
  valueView has v r3 q R -> skipWS r3 = String e r4 -> (String.length rest <= String.length r4)%nat ->
  ((e =c close) = true /\ xs = [mk v] /\ rest = r4
   \/ (e =c close) = false /\ (e =c ",") = true /\ exists xs1, xs = mk v :: xs1
      /\ forall r4', r4 = r4' +:+ q -> (String.length r4' < String.length r3)%nat ->
         (String.length r4 < String.length r3)%nat -> bodyView rel has xs1 rest q (K r4')) ->
  bodyView rel has xs rest q
    (let? (v', t) := R in
     match skipWS t with
     | EmptyString => Ok ([mk v'], true) EmptyString
     | String e r4 =>
         if e =c close then Ok ([mk v'], false) r4
         else if e =c "," then let? (p, t) := K r4 in Ok (mk v' :: fst p, snd p) t
         else Bad
     end).
Proof.
  intros Hlast Hmore Hclose HR H3 Hlen Hend.
  assert (exists tl, xs = mk v :: tl) as [tl Hxs] by (destruct Hend as [(_&->&_)|(_&_&xs1&->&_)]; eauto).
  pose proof (skipWS_length r3) as Hws. rewrite H3 in Hws. simpl in Hws.
  destruct R as [v' r3'| |]; [|exact HR|destruct HR]. cbn [bind].
  destruct HR as [[-> Hr3]|[(->&Hv&Hl)|[[t ->] Hh]]].
  - rewrite Hr3 in H3. destruct (skipWS_cut _ _ _ _ H3) as [[Ew Eq]|(r4'&Ew&Hr4)]; rewrite Ew.
    + right; left. split_and!; [done|done|rewrite Hxs; apply Hlast, view_whole|]. ws_length. lia.
    + destruct Hend as [(->&->&->)|(->&->&xs1&->&HK)]; [by left|].
      apply bodyView_more; [done|]. apply HK; [done| |lia]. rewrite Hr4, slength_app in Hws. lia.
  - simpl. right; left. split_and!; [done|done|rewrite Hxs; by apply Hlast|lia].
  - cbn [skipWS]. change (isWS bs) with false. cbn iota. rewrite Hclose. exact Hh.
Qed.

Lemma spoiled_head f s c r : skipWS s = String c r -> sall f (String c r) = false -> sall f s = false.
Proof. intros He. eapply spoiled_suffix, suffix_skip; [exact He|apply suffix_refl]. Qed.

Lemma bs_spoils s t : ContainsByte bs s = true -> sall plain (s +:+ t) = false.
Proof.
  intros Hc. rewrite sall_app. induction s as [|c s IH]; [done|]. cbn [ContainsByte] in Hc. cbn [sall].
  destruct (plain c) eqn:Ep; [|done]. apply orb_true_iff in Hc as [Hc|Hc]; [|by apply IH].
  apply Ascii.eqb_eq in Hc. by subst c.
Qed.

Lemma spoils_app s t : sall plain s = false -> sall plain (s +:+ t) = false.
Proof. intros Hs. by rewrite sall_app, Hs. Qed.

(** The streaming parser on a prefix of a text the final parser accepts. *)
Definition view_value (n : nat) : Prop := forall m term p q c p' v rest,
  parseValue nm n term (p +:+ q) = Ok v rest -> skipWS p = String c p' -> (2 * String.length p < m)%nat ->
  valueView (sall plain (p +:+ q) = false) v rest q (parseValueStream nm m term (String c p')).
Definition view_object_body (n : nat) : Prop := forall m p q fs rest,
  parseObject nm n (p +:+ q) = Ok fs rest -> (2 * String.length p < m)%nat ->
  bodyView fieldsView (sall plain (p +:+ q) = false) fs rest q (parseObjectStream nm m p).
Definition view_array_body (n : nat) : Prop := forall m p q xs rest,
  parseArray nm n (p +:+ q) = Ok xs rest -> (2 * String.length p + 1 < m)%nat ->
  bodyView itemsView (sall plain (p +:+ q) = false) xs rest q (parseArrayStream nm m p).

Lemma stream_value n : view_object_body n -> view_array_body n -> view_value (S n).
Proof.
  intros IHo IHa [|m] term p q c p' v rest Hx E Hm; [lia|].
  assert (skipWS (p +:+ q) = String c (p' +:+ q)) as Es by (by rewrite skipWS_app, E).
  pose proof (spoiled_skipWS plain _ _ _ Es) as Hsp. pose proof (spoiled_head plain _ _ _ Es) as Hsh.
  pose proof (skipWS_length p) as Hl. rewrite E in Hl. simpl in Hl.
  cbn [parseValue] in Hx. rewrite Es in Hx. cbn [parseValueStream].
  destruct (c =c "{"); [|destruct (c =c "["); [|destruct (c =c dq); [|destruct (c =c sq); [|destruct (_ || _); [done|]]]]].
  + destruct (parseObject nm n _) as [fs t| |] eqn:Eo; [|done|done]. injection Hx as <- <-.
    eapply valueView_object; [exact Hsp|]. apply IHo; [exact Eo|lia].
  + destruct (parseArray nm n _) as [fs t| |] eqn:Eo; [|done|done]. injection Hx as <- <-.
    eapply valueView_array; [exact Hsp|]. apply IHa; [exact Eo|lia].
  + destruct (parseDoubleQuoted _) as [x t| |] eqn:Eq; [|done|done]. injection Hx as <- <-.
    eapply stringValue_view; [|exact (parseDoubleQuoted_view _ _ _ _ _ Eq)]. intros Hc. apply Hsh.
    by apply (bs_spoils (String c p')).
  + destruct (singleQuoted _) as [x t| |] eqn:Eq; [|done|done]. injection Hx as <- <-.
    by eapply stringValue_view; [|exact (singleQuoted_view _ _ _ _ Eq)].
  + change (String c (p' +:+ q)) with (String c p' +:+ q) in Hx.
    eapply valueView_has; [|eapply scalar_view; [done|exact Hx]]. intros Hc. apply Hsh.
    by apply (spoils_app (String c p')).
Qed.

Lemma stream_array n : view_value n -> view_array_body n -> view_array_body (S n).
Proof.
  intros IHv IHa [|m] p q xs rest Hx Hm; [lia|]. pose proof (parseArray_ok _ _ _ _ _ Hx) as Hlen.
  destruct (parseArray_inv _ _ _ _ Hx) as (c&r&Es&Hc). cbn [parseArrayStream].
  destruct (skipWS_cut _ _ _ _ Es) as [[E Eq]|(p'&E&->)]; rewrite E.
  { apply bodyView_cut; [constructor|]. rewrite parseArray_ws in Hx by done. by apply parseArray_ok in Hx. }
  pose proof (spoiled_skipWS plain _ _ _ Es) as Hsp. pose proof (spoiled_head plain _ _ _ Es) as Hsh.
  pose proof (skipWS_length p) as Hl. rewrite E in Hl. simpl in Hl.
  destruct Hc as [(->&->&->)|[(->&->&Hc)|(->&->&v&r3&e&r4&Hv&H3&Hend)]]; [by left| |].
  { eapply bodyView_has; [exact Hsp|]. apply IHa; [done|lia]. }
  destruct ((c =c "/") && (p' =s "")) eqn:Esl.
  { apply andb_true_iff in Esl as [Ec%Ascii.eqb_eq _]. subst c. by destruct n. }
  change (String c (p' +:+ q)) with (String c p' +:+ q) in Hv.
  eapply (member_tail itemsView id "]" (parseArrayStream nm m)); [by constructor|by constructor|done| |exact H3| |].
  - eapply valueView_has; [exact Hsh|].
    exact (IHv m _ (String c p') q c p' v r3 Hv (skipWS_head _ _ _ E) ltac:(simpl; lia)).
  - destruct Hend as [(_&_&->)|(_&_&xs1&Ha&_)]; [done|]. apply parseArray_ok in Ha. lia.
  - destruct Hend as [(He&->&->)|(He&He'&xs1&Ha&->)]; [by left|right]. split_and!; [done|done|].
    exists xs1. split; [done|]. intros r4' -> H1 H2. eapply bodyView_has; [|apply IHa; [exact Ha|]].
    + intros Hf. apply Hsh. eapply (spoiled plain); [apply (proj1 (parse_suffix n))|exact Hv|].
      by eapply spoiled_skipWS.
    + apply parseValue_ok in Hv. rewrite !slength_app in *. simpl in Hv. lia.
Qed.

(** After a key: the separator and the value. *)
Lemma stream_member n m r1' q key fs rest r2 v r3 e r4 : view_value n -> view_object_body n ->
  (2 * String.length r1' < m)%nat ->
  skipWS (r1' +:+ q) = String ":" r2 -> parseValue nm n objectValueTerm r2 = Ok v r3 ->
  skipWS r3 = String e r4 -> (String.length rest <= String.length r4)%nat ->
  ((e =c "}") = true /\ fs = [(key, v)] /\ rest = r4
   \/ (e =c "}") = false /\ (e =c ",") = true
      /\ exists fs1, parseObject nm n r4 = Ok fs1 rest /\ fs = (key, v) :: fs1) ->
  bodyView fieldsView (sall plain (r1' +:+ q) = false) fs rest q
    (match skipWS r1' with
     | EmptyString => Ok ([], true) EmptyString
     | String k r2 =>
         if k =c ":" then
           match skipWS r2 with
           | EmptyString => Ok ([], true) EmptyString
           | String d r' =>
               let? (v, r3) := parseValueStream nm m objectValueTerm (String d r') in
               match skipWS r3 with
               | EmptyString => Ok ([(key, v)], true) EmptyString
               | String e r4 =>
                   if e =c "}" then Ok ([(key, v)], false) r4
                   else if e =c "," then
                     let? (p, rest) := parseObjectStream nm m r4 in Ok ((key, v) :: fst p, snd p) rest
                   else Bad
               end
           end
         else Bad
     end).
Proof.
  intros IHv IHo Hm H1 Hv H3 Hlen Hend. pose proof (parseValue_ok _ _ _ _ _ _ Hv) as Hv3.
  pose proof (skipWS_length r3) as Hl3. rewrite H3 in Hl3. simpl in Hl3.
  pose proof (spoiled_skipWS plain _ _ _ H1) as Hsp. pose proof (skipWS_length r1') as Hl1.
  destruct (skipWS_cut _ _ _ _ H1) as [[-> Eq]|(r2'&E&->)].
  { apply bodyView_cut; [constructor|]. ws_length. lia. }
  rewrite E in *. cbn iota. simpl in Hl1. destruct (skipWS r2') as [|d r'] eqn:E2.
  { apply bodyView_cut; [constructor|]. rewrite parseValue_ws in Hv by done. apply parseValue_ok in Hv. lia. }
  eapply (member_tail fieldsView (pair key) "}" (parseObjectStream nm m)); [by constructor|by constructor|done| |exact H3|done|].
  - eapply valueView_has; [exact Hsp|]. exact (IHv m _ r2' q d r' v r3 Hv E2 ltac:(lia)).
  - destruct Hend as [(He&->&->)|(He&He'&fs1&Ho&->)]; [by left|right]. split_and!; [done|done|].
    exists fs1. split; [done|]. intros r4' -> Ha Hb. eapply bodyView_has; [|apply IHo; [exact Ho|]].
    + intros Hf. apply Hsp. eapply (spoiled plain); [apply (proj1 (parse_suffix n))|exact Hv|].
      by eapply spoiled_skipWS.
    + rewrite !slength_app in *. lia.
Qed.

Lemma stream_object n : view_value n -> view_object_body n -> view_object_body (S n).
Proof.
  intros IHv IHo [|m] p q fs rest Hx Hm; [lia|]. pose proof (parseObject_ok _ _ _ _ _ Hx) as Hlen.
  destruct (parseObject_inv _ _ _ _ Hx) as (c&r&Es&Hc). cbn [parseObjectStream].
  destruct (skipWS_cut _ _ _ _ Es) as [[E Eq]|(p'&E&->)]; rewrite E.
  { apply bodyView_cut; [constructor|]. rewrite parseObject_ws in Hx by done. by apply parseObject_ok in Hx. }
  pose proof (spoiled_skipWS plain _ _ _ Es) as Hsp. pose proof (spoiled_head plain _ _ _ Es) as Hsh.
  pose proof (skipWS_length p) as Hl. rewrite E in Hl. simpl in Hl.
  destruct Hc as [(->&->&->)|[(->&->&Hc)|(->&->&key&r1&r2&v&r3&e&r4&Hk&H1&Hv&H3&Hend)]]; [by left| |].
  { eapply bodyView_has; [exact Hsp|]. apply IHo; [done|lia]. }
  pose proof (parseValue_ok _ _ _ _ _ _ Hv) as Hv3. pose proof (skipWS_length r1) as Hl1. rewrite H1 in Hl1.
  pose proof (skipWS_length r3) as Hl3. rewrite H3 in Hl3. simpl in Hl1, Hl3.
  assert (String.length rest <= String.length r4)%nat as Hr4.
  { destruct Hend as [(_&_&->)|(_&_&fs1&Ho&_)]; [done|]. apply parseObject_ok in Ho. lia. }
  pose proof (parseKey_view c p' q key r1 Hk) as Hkv. pose proof (parseKey_length (String c (p' +:+ q))) as Hkl.
  rewrite Hk in Hkl. destruct (parseKeyStream (String c p')) as [ko r1']. destruct Hkv as [[Hko Hr1]|[[Hr1 Hl2]|(Hko&Hp&Hf)]].
  - simpl in Hko, Hr1. subst ko r1. eapply bodyView_has; [|eapply stream_member; try done].
    + intros Hf. apply Hsh. eapply (spoiled plain); [apply parseKey_suffix|exact Hk|done].
    + simpl in Hkl. rewrite !slength_app in Hkl. lia.
  - simpl in Hr1. subst r1'. destruct ko; (apply bodyView_cut; [constructor|lia]).
  - simpl in Hko, Hp. subst ko. right; right. split; [done|]. apply Hsh. by apply (bs_spoils (String c p')).
Qed.

Lemma stream_all n : view_value n /\ view_object_body n /\ view_array_body n.
Proof.
  induction n as [|n (IHv&IHo&IHa)]; [split_and!; intros ?; intros; done|].
  split_and!; [by apply stream_value|by apply stream_object|by apply stream_array].
Qed.

(** A container that is shown unfinished is cut. *)
Lemma container_cut n m term c p' q v rest v' rest' : (c =c "{") || (c =c "[") = true ->
  parseValue nm n term (String c p' +:+ q) = Ok v rest -> isWS c = false -> (2 * String.length p' + 2 < m)%nat ->
  parseValueStream nm m term (String c p') = Ok v' rest' ->
  v' = v \/ (String.length rest < String.length q)%nat \/ poison rest'.
Proof.
  intros Hc Hx Hws Hm Hs. destruct n as [|n]; [done|]. destruct m as [|m]; [lia|].
  pose proof (stream_all n) as (_&IHo&IHa). cbn [parseValue String.append skipWS] in Hx. rewrite Hws in Hx.
  cbn [parseValueStream] in Hs. destruct (c =c "{"); [|destruct (c =c "["); [|done]].
  - destruct (parseObject nm n _) as [fs t| |] eqn:Eo; [|done|done]. injection Hx as <- <-.
    specialize (IHo m p' q fs t Eo ltac:(lia)). destruct (parseObjectStream nm m p') as [[fs' inc] t'| |]; [|done|done].
    injection Hs as <- <-. destruct IHo as [(->&->&_)|[(_&_&_&?)|[??]]]; auto.
  - destruct (parseArray nm n _) as [xs t| |] eqn:Eo; [|done|done]. injection Hx as <- <-.
    specialize (IHa m p' q xs t Eo ltac:(lia)). destruct (parseArrayStream nm m p') as [[xs' inc] t'| |]; [|done|done].
    injection Hs as <- <-. destruct IHa as [(->&->&_)|[(_&_&_&?)|[??]]]; auto.
Qed.

(** ** Views of the whole text *)

(** A container ends with its bracket. *)
Lemma parseObject_ends n : forall s fs rest, parseObject nm n s = Ok fs rest -> suffix_of (String "}" rest) s.
Proof.
  induction n as [|n IH]; intros s fs rest Hx; [done|].
  destruct (parseObject_inv _ _ _ _ Hx) as (c&r&Es&Hc). pose proof (suffix_skip _ s _ _ Es (suffix_refl s)) as Hs.
  destruct Hc as [(Hc&_&->)|[(_&_&Hc)|(_&_&key&r1&r2&v&r3&e&r4&Hk&H1&Hv&H3&Hend)]].
  - apply Ascii.eqb_eq in Hc. by subst c.
  - eapply suffix_trans; [by eapply IH|by eapply suffix_tail].
  - assert (suffix_of (String e r4) s) as H4.
    { eapply suffix_skip; [exact H3|]. eapply suffix_trans; [by eapply (proj1 (parse_suffix n))|].
      eapply suffix_tail, suffix_skip; [exact H1|]. eapply suffix_trans; [by eapply parseKey_suffix|done]. }
    destruct Hend as [(He&_&->)|(_&_&fs1&Ho&_)]; [apply Ascii.eqb_eq in He; by subst e|].
    eapply suffix_trans; [by eapply IH|by eapply suffix_tail].
Qed.

Lemma parseArray_ends n : forall s xs rest, parseArray nm n s = Ok xs rest -> suffix_of (String "]" rest) s.
Proof.
  induction n as [|n IH]; intros s xs rest Hx; [done|].
  destruct (parseArray_inv _ _ _ _ Hx) as (c&r&Es&Hc). pose proof (suffix_skip _ s _ _ Es (suffix_refl s)) as Hs.
  destruct Hc as [(Hc&_&->)|[(_&_&Hc)|(_&_&v&r3&e&r4&Hv&H3&Hend)]].
  - apply Ascii.eqb_eq in Hc. by subst c.
  - eapply suffix_trans; [by eapply IH|by eapply suffix_tail].
  - assert (suffix_of (String e r4) s) as H4.
    { eapply suffix_skip; [exact H3|]. eapply suffix_trans; [by eapply (proj1 (parse_suffix n))|done]. }
    destruct Hend as [(He&_&->)|(_&_&xs1&Ha&_)]; [apply Ascii.eqb_eq in He; by subst e|].
    eapply suffix_trans; [by eapply IH|by eapply suffix_tail].
Qed.

(** The streaming parser on a prefix, at the top level. *)
Lemma streamFix_prefix p q v :
  fixParse nm (p +:+ q) = Some v ->
  match streamFix nm p with
  | Some v' => view v' v /\ (q = "" -> v' = v)
  | None => skipWS p = "" \/ sall plain (p +:+ q) = false
  end.
Proof.
  unfold fixParse, streamFix, fixParseFuel, streamFixFuel. rewrite skipWS_app.
  destruct (skipWS p) as [|c p'] eqn:E; [by left|]. destruct (_ || _) eqn:Ec; [|done].
  set (n := (2 * String.length (p +:+ q) + 2)%nat). set (m := (2 * String.length p + 2)%nat).
  destruct (parseValue nm n "" _) as [w rest| |] eqn:Ev; [|done|done]. cbn [bind].
  destruct (skipWS rest =s "") eqn:Er; [|done]. intros [= ->]. apply String.eqb_eq in Er.
  assert (skipWS (p +:+ q) = String c (p' +:+ q)) as Es by (by rewrite skipWS_app, E).
  pose proof (skipWS_length p) as Hl. rewrite E in Hl. simpl in Hl.
  pose proof (proj1 (stream_all n) m "" (String c p') q c p' v rest Ev (skipWS_head _ _ _ E) ltac:(simpl; lia)) as Hv.
  pose proof (spoiled_head plain _ _ _ Es) as Hsh.
  destruct (parseValueStream nm m "" (String c p')) as [v' rest'| |] eqn:Esv; [|right; by apply Hsh|done].
  cbn [bind]. destruct Hv as [[-> Hr]|[(->&Hview&Hlen)|[[t ->] Hf]]].
  - rewrite Hr, skipWS_app in Er. destruct (skipWS rest'); [|done]. split; [apply view_whole|done].
  - split; [exact Hview|]. intros ->.
    assert (isWS c = false) as Hws.
    { apply orb_true_iff in Ec as [Ec|Ec]; apply Ascii.eqb_eq in Ec; by subst c. }
    destruct (container_cut n m "" c p' "" v rest v' "" Ec Ev Hws ltac:(lia) Esv) as [->|[Hc|[t Ht]]]; [done| |done].
    simpl in Hc. lia.
  - right. by apply Hsh.
Qed.

(** C15. Streaming never shows anything the final answer does not have.  If the
    final fixing parser reads [v] from a text, then of every prefix of that text
    the streaming parser shows a view of [v] (an unfinished part whose finished
    members are those of [v]), and of the whole text [v] itself; or it shows
    nothing, which happens only before the first bracket or when the text has a
    byte outside plain ASCII or a backslash. *)
Theorem streamFix_view p q v :
  fixParse nm (p +:+ q) = Some v ->
  match streamFix nm p with
  | Some v' => view v' v /\ (q = "" -> v' = v)
  | None => skipWS p = "" \/ sall plain (p +:+ q) = false
  end.
Proof. exact (streamFix_prefix p q v). Qed.
End View.

(** ** Fuel of the streaming parser *)

Definition keeps {A} (fuel need : nat) (s : string) (r : res A) : Prop :=
  match r with
  | Ok _ rest => (String.length rest <= String.length s)%nat
  | Bad => True
  | NoFuel => (fuel <= need)%nat
  end.

Lemma pushed_rest c r : snd (pushed c r) = snd r.
Proof. by destruct r as [[[]|] ?]. Qed.

Lemma doubleQuotedStream_length n : forall s, (String.length s <= n)%nat ->
  (String.length (snd (doubleQuotedStream s)) <= String.length s)%nat.
Proof.
  induction n as [|n IH]; intros [|c r] Hn; simpl in Hn; try done; [lia|].
  rewrite doubleQuotedStream_cons. destruct (c =c bs).
  - destruct r as [|e r']; [simpl; lia|]. destruct (e =c dq); [done|]. simpl in Hn. destruct (fixEscape e); rewrite pushed_rest.
    + specialize (IH r' ltac:(lia)). simpl. lia.
    + specialize (IH (String e r') ltac:(simpl; lia)). change (String.length (String c (String e r'))) with (S (String.length (String e r'))). lia.
  - destruct (c =c dq); [simpl; lia|]. rewrite pushed_rest. specialize (IH r ltac:(lia)). simpl. lia.
Qed.

Lemma singleQuotedStream_length s : (String.length (snd (singleQuotedStream s)) <= String.length s)%nat.
Proof.
  induction s as [|c r IH]; simpl; [done|]. destruct (c =c bs); [done|]. destruct (c =c sq); [simpl; lia|].
  destruct (singleQuotedStream r) as [[[]|] rest]; simpl in *; lia.
Qed.

Lemma parseDoubleQuotedStream_length s :
  (String.length (snd (parseDoubleQuotedStream s)) <= String.length s)%nat.
Proof.
  unfold parseDoubleQuotedStream. destruct (HasPrefix _ _); [done|]. destruct s as [|c r]; [done|].
  pose proof (doubleQuotedStream_length _ r (le_n _)). simpl. lia.
Qed.

Lemma completeKey_rest p : snd (completeKey p) = snd p.
Proof. by destruct p as [[[? []]|] ?]. Qed.

Lemma parseKeyStream_length s : (String.length (snd (parseKeyStream s)) <= String.length s)%nat.
Proof.
  unfold parseKeyStream. destruct s as [|c r]; [done|]. destruct (c =c dq).
  { rewrite completeKey_rest. apply parseDoubleQuotedStream_length. }
  destruct (c =c sq). { rewrite completeKey_rest. pose proof (singleQuotedStream_length r). simpl. lia. }
  destruct (c =c bq); [done|]. unfold parseUnquotedKey, scanRun.
  pose proof (span_length (fun c => negb (keyStop c || keyBailBytes c)) (String c r)) as Hl.
  by destruct (span _ (String c r)).
Qed.

Lemma greedyTail_length s : forall sp,
  match greedyTail sp s with Ok _ rest => (String.length rest <= String.length s)%nat | Bad => True | NoFuel => False end.
Proof.
  induction s as [|c r IH]; intros sp; simpl; [done|]. destruct (c =c ",").
  - destruct r as [|d r']; [done|]. destruct (d =c "010"); [done|]. destruct (d =c " ").
    { by destruct (isPossibleUnquotedValue sp). }
    specialize (IH (sp +:+ str1 c)). destruct (greedyTail _ _); simpl in *; [lia|done|done].
  - destruct (c =c "}"); [done|]. specialize (IH (sp +:+ str1 c)). destruct (greedyTail _ _); simpl in *; [lia|done|done].
Qed.

Section StreamFuel.
Variable nm : numMode.

Lemma scalarStream_length term s :
  match parseUnquotedScalarStream nm term s with
  | Ok _ rest => (String.length rest <= String.length s)%nat | Bad => True | NoFuel => False end.
Proof.
  unfold parseUnquotedScalarStream, scanRun.
  pose proof (span_length (fun c => negb (scalarStop term c || scalarBailBytes c)) s) as Hl.
  destruct (span _ s) as [raw r]. simpl in Hl. destruct (_ || _); [done|].
  pose proof (span_length isWS r) as Hw. destruct (span isWS r) as [ws r0]. simpl in Hw.
  destruct r0 as [|e r1]; [destruct (classifyScalarMode nm raw); simpl; lia|].
  destruct (negb _); [done|]. destruct (_ && _ && _).
  { pose proof (greedyTail_length (String e r1) (raw +:+ ws)). destruct (greedyTail _ _); [lia|done|done]. }
  destruct (classifyScalarMode nm raw); [lia|done].
Qed.

Lemma stream_keeps fuel :
  (forall term s, consumes fuel (2 * String.length s) (String " " s) (parseValueStream nm fuel term s))
  /\ (forall s, keeps fuel (2 * String.length s) s (parseObjectStream nm fuel s))
  /\ (forall s, keeps fuel (2 * String.length s + 1) s (parseArrayStream nm fuel s)).
Proof.
  induction fuel as [|fuel (IHv&IHo&IHa)]; [split_and!; intros; simpl; lia|]. split_and!.
  - intros term [|c r]; cbn [parseValueStream]; [done|].
    destruct (c =c "{"); [|destruct (c =c "["); [|destruct (c =c dq); [|destruct (c =c sq); [|destruct (_ || _); [done|]]]]].
    + specialize (IHo r). destruct (parseObjectStream nm fuel r); simpl in *; [lia|done|lia].
    + specialize (IHa r). destruct (parseArrayStream nm fuel r); simpl in *; [lia|done|lia].
    + pose proof (parseDoubleQuotedStream_length (String c r)).
      destruct (parseDoubleQuotedStream _) as [[[]|] ?]; simpl in *; [lia|done].
    + pose proof (singleQuotedStream_length r). destruct (singleQuotedStream r) as [[[]|] ?]; simpl in *; [lia|done].
    + pose proof (scalarStream_length term (String c r)).
      destruct (parseUnquotedScalarStream nm term (String c r)); simpl in *; [lia|done|done].
  - intros s. cbn [parseObjectStream]. destruct (skipWS s) as [|c r] eqn:E1; [simpl; lia|]. ws_length.
    destruct (c =c "}"); [simpl; lia|]. destruct (c =c ",").
    { specialize (IHo r). destruct (parseObjectStream nm fuel r); simpl in *; [lia|done|lia]. }
    pose proof (parseKeyStream_length (String c r)) as Hk. destruct (parseKeyStream _) as [[key|] r1]; [|simpl in *; lia].
    simpl in Hk. destruct (skipWS r1) as [|k r2] eqn:E2; [simpl; lia|]. ws_length. destruct (k =c ":"); [|done].
    destruct (skipWS r2) as [|d r'] eqn:E3; [simpl; lia|]. ws_length.
    specialize (IHv objectValueTerm (String d r')). destruct (parseValueStream nm fuel _ _) as [v r3| |]; simpl in *; [|done|lia].
    destruct (skipWS r3) as [|e r4] eqn:E4; [simpl; lia|]. ws_length. destruct (e =c "}"); [simpl; lia|].
    destruct (e =c ","); [|done]. specialize (IHo r4). destruct (parseObjectStream nm fuel r4); simpl in *; [lia|done|lia].
  - intros s. cbn [parseArrayStream]. destruct (skipWS s) as [|c r] eqn:E1; [simpl; lia|]. ws_length.
    destruct (c =c "]"); [simpl; lia|]. destruct (c =c ",").
    { specialize (IHa r). destruct (parseArrayStream nm fuel r); simpl in *; [lia|done|lia]. }
    destruct (_ && _); [simpl; lia|].
    specialize (IHv arrayValueTerm (String c r)).
    destruct (parseValueStream nm fuel _ _) as [v r3| |]; simpl in *; [|done|lia].
    destruct (skipWS r3) as [|e r4] eqn:E3; [simpl; lia|]. ws_length. destruct (e =c "]"); [simpl; lia|].
    destruct (e =c ","); [|done]. specialize (IHa r4). destruct (parseArrayStream nm fuel r4); simpl in *; [lia|done|lia].
Qed.

(** C16. The parsers of the native engine end on every text: with fuel linear in
    the length of the text, the strict decoder, the final fixing parser and the
    streaming fixing parser give a value or decline. *)
Theorem parsers_terminate s :
  strictDecodeFuel nm (2 * String.length s + 1) s <> NoFuel
  /\ fixParseFuel nm (2 * String.length s + 2) s <> NoFuel
  /\ streamFixFuel nm (2 * String.length s + 2) s <> NoFuel.
Proof.
  split_and!.
  - unfold strictDecodeFuel. pose proof (proj1 (decodeToken_shrinks nm (2 * String.length s + 1)) s ltac:(lia)) as Hd.
    destruct (decodeToken _ _ s); simpl; [by destruct (_ =s _)|done|done].
  - unfold fixParseFuel. pose proof (skipWS_length s) as Hl. destruct (skipWS s) as [|c r]; [done|].
    destruct (_ || _); [|done]. pose proof (proj1 (parse_consumes nm (2 * String.length s + 2)) "" (String c r)) as Hp.
    destruct (parseValue _ _ _ _); cbn [bind consumes] in *; [by destruct (_ =s _)|done|lia].
  - unfold streamFixFuel. pose proof (skipWS_length s) as Hl. destruct (skipWS s) as [|c r]; [done|].
    destruct (_ || _); [|done]. pose proof (proj1 (stream_keeps (2 * String.length s + 2)) "" (String c r)) as Hp.
    destruct (parseValueStream _ _ _ _); cbn [bind consumes] in *; [by destruct (_ =s _)|done|lia].
Qed.
End StreamFuel.

(** ** A concrete text *)

(** [{name: 'Ada', "n": [1, 22, ], }] and a prefix of it. *)
Definition sampleHead : string :=
  "{name: " +:+ str1 sq +:+ "Ada" +:+ str1 sq +:+ ", " +:+ str1 dq +:+ "n" +:+ str1 dq +:+ ": [1, 2".
Definition sampleTail : string := "2, ], }".
Definition sampleValue : value :=
  valObject false [("name", valString false "Ada");
    ("n", valArray false [valNumber false false "1"; valNumber false false "22"])].

Lemma streamFix_view_witness :
  fixParse numModeLegacy (sampleHead +:+ sampleTail) = Some sampleValue
  /\ view numModeLegacy (valObject true [("name", valString false "Ada");
       ("n", valArray true [valNumber false false "1"; valNumber true false "2"])]) sampleValue.
Proof.
  split; [reflexivity|].
  exact (proj1 (streamFix_view numModeLegacy sampleHead sampleTail sampleValue eq_refl)).
Defined.
