(* ===== verification/Extract.v ===== *)
(** * Extract: finding the JSON candidate in a model's text ([internal/debaml/extract.go])

    The comment pass, the markdown fence, the first balanced span, and the final
    and streaming extractors built from them.  An index into the text is the part
    of the text after it. *)

From Stdlib Require Import Ascii String.
From S2P Require Import Prelude GoStrings Jsonish FixParse FixStream.
Open Scope stdpp_scope.

(** ** Comments *)

(** Where the scan of [stripJSONComments] is: outside, in a string literal with
    its quote and whether the last byte was a backslash, or in a comment. *)
Inductive scanMode := InCode | InString (quote : ascii) (escaped : bool) | InBlock | InLine.

(** A single quote opens a string at the start of a value, key or element. *)
Definition structural (lastSig : option ascii) : bool :=
  match lastSig with
  | None => true
  | Some c => (c =c "000") || ContainsByte c "{[,:"
  end.

(** The loop of [stripJSONComments]; [lastSig] is the last significant byte
    outside strings and comments. *)
Fixpoint stripLoop (mode : scanMode) (lastSig : option ascii) (s : string) : string :=
  match s with
  | EmptyString => EmptyString
  | String c r =>
      match mode with
      | InString q escaped =>
          String c
            (if escaped then stripLoop (InString q false) lastSig r
             else if c =c bs then stripLoop (InString q true) lastSig r
             else if c =c q then stripLoop InCode (Some c) r
             else stripLoop (InString q false) lastSig r)
      | InBlock =>
          if c =c "*" then
            match r with
            | String d r' => if d =c "/" then stripLoop InCode lastSig r' else stripLoop InBlock lastSig r
            | EmptyString => EmptyString
            end
          else stripLoop InBlock lastSig r
      | InLine =>
          if c =c LF then String c (stripLoop InCode lastSig r) else stripLoop InLine lastSig r
      | InCode =>
          if c =c dq then String c (stripLoop (InString dq false) lastSig r)
          else if (c =c sq) && structural lastSig then String c (stripLoop (InString sq false) lastSig r)
          else
            let plainByte := String c (stripLoop InCode (if isWS c then lastSig else Some c) r) in
            if c =c "/" then
              match r with
              | String d r' =>
                  if d =c "*" then String " " (stripLoop InBlock lastSig r')
                  else if d =c "/" then String " " (stripLoop InLine lastSig r')
                  else plainByte
              | EmptyString => plainByte
              end
            else plainByte
      end
  end.

(** [stripJSONComments]. *)
Definition stripJSONComments (s : string) : string :=
  if negb (Contains s "/*") && negb (Contains s "//") then s else stripLoop InCode None s.

(** ** Fences *)

Definition fence : string := String bq (String bq (str1 bq)).

(** [strings.TrimLeft(line, " \t")]. *)
Fixpoint trimLeftBlank (s : string) : string :=
  match s with
  | String c r => if (c =c " ") || (c =c "009") then trimLeftBlank r else s
  | EmptyString => s
  end.

Definition isFence (line : string) : bool := HasPrefix (trimLeftBlank line) fence.

(** The lines before the first fence line and those after it. *)
Fixpoint cutFence (lines : list string) : option (list string * list string) :=
  match lines with
  | [] => None
  | l :: lines =>
      if isFence l then Some ([], lines)
      else match cutFence lines with Some (a, b) => Some (l :: a, b) | None => None end
  end.

(** [extractFenceContent]. *)
Definition extractFenceContent (raw : string) : option string :=
  match cutFence (splitLF raw) with
  | None => None
  | Some (_, lines) =>
      match cutFence lines with Some (body, _) => Some (joinLF body) | None => None end
  end.

(** [extractFenceContentStream]. *)
Definition extractFenceContentStream (raw : string) : option string :=
  match cutFence (splitLF raw) with
  | None => None
  | Some (_, lines) =>
      match cutFence lines with Some (body, _) => Some (joinLF body) | None => Some (joinLF lines) end
  end.

(** ** Balanced spans *)

(** The state of a scan that is blind inside double-quoted text. *)
Inductive quoteState := Outside | Inside (escaped : bool).

Definition quoteStep (st : quoteState) (c : ascii) : quoteState :=
  match st with
  | Outside => if c =c dq then Inside false else Outside
  | Inside true => Inside false
  | Inside false => if c =c bs then Inside true else if c =c dq then Outside else Inside false
  end.

(** [containsUnquotedBracket]. *)
Fixpoint unquotedBracket (st : quoteState) (s : string) : bool :=
  match s with
  | EmptyString => false
  | String c r =>
      match st with
      | Outside => (c =c "{") || (c =c "[") || unquotedBracket (quoteStep st c) r
      | Inside _ => unquotedBracket (quoteStep st c) r
      end
  end.
Definition containsUnquotedBracket (s : string) : bool := unquotedBracket Outside s.

(** The anchor: what precedes the first bracket outside quotes, and the text from
    it on. *)
Fixpoint findAnchor (st : quoteState) (s : string) : option (string * string) :=
  match s with
  | EmptyString => None
  | String c r =>
      let next := match findAnchor (quoteStep st c) r with Some (a, t) => Some (String c a, t) | None => None end in
      match st with
      | Outside => if (c =c "{") || (c =c "[") then Some (EmptyString, s) else next
      | Inside _ => next
      end
  end.

(** The span up to the matching close at [depth], and what follows it. *)
Fixpoint closeSpan (opening closing : ascii) (depth : nat) (st : quoteState) (s : string)
    : option (string * string) :=
  match s with
  | EmptyString => None
  | String c r =>
      let next d := match closeSpan opening closing d (quoteStep st c) r with
                    | Some (a, t) => Some (String c a, t) | None => None end in
      match st with
      | Inside _ => next depth
      | Outside =>
          if c =c dq then next depth
          else if c =c opening then next (S depth)
          else if c =c closing then if (depth =? 1)%nat then Some (str1 c, r) else next (Nat.pred depth)
          else next depth
      end
  end.

(** The span that starts at an anchor. *)
Definition spanAt (anchored : string) : option (string * string) :=
  match anchored with
  | String c r =>
      let closing : ascii := if c =c "{" then "}"%char else "]"%char in
      match closeSpan c closing 1 Outside r with
      | Some (a, t) => Some (String c a, t)
      | None => None
      end
  | EmptyString => None
  end.

(** [extractBalancedSpan]: the span and the text after it. *)
Definition extractBalancedSpan (raw : string) : option (string * string) :=
  match findAnchor Outside raw with Some (_, t) => spanAt t | None => None end.

(** [extractBalancedSpanStream]: the span, the text after it, and whether it is closed. *)
Definition extractBalancedSpanStream (raw : string) : option (string * string * bool) :=
  match findAnchor Outside raw with
  | None => None
  | Some (_, t) =>
      match spanAt t with
      | Some (sp, rest) => Some (sp, rest, true)
      | None => Some (t, EmptyString, false)
      end
  end.

(** ** Extraction *)

Section Extract.
Variable nm : numMode.

(** [decodeSpan] and [decodeSpanStream]. *)
Definition decodeSpan (sp : string) : option value :=
  match strictDecode nm sp with Some v => Some v | None => fixParse nm sp end.
Definition decodeSpanStream (sp : string) : option value :=
  match strictDecode nm sp with Some v => Some v | None => streamFix nm sp end.

(** The whole input, strictly. *)
Definition strictWhole (raw : string) : option value :=
  let trimmed := TrimSpace raw in
  if trimmed =s "" then None else strictDecode nm trimmed.

(** [extractCandidateMode]. *)
Definition extractCandidate (raw : string) : option value :=
  match strictWhole raw with
  | Some v => Some v
  | None =>
      match extractFenceContent raw with
      | Some f => decodeSpan (TrimSpace f)
      | None =>
          match extractBalancedSpan raw with
          | Some (sp, rest) => if containsUnquotedBracket rest then None else decodeSpan sp
          | None => None
          end
      end
  end.

(** White space and backticks: the rest of a partial closing fence. *)
Definition fenceRest (c : ascii) : bool := isWS c || (c =c bq).

(** [streamExtractCandidateMode]. *)
Definition streamExtractCandidate (raw : string) : option value :=
  match strictWhole raw with
  | Some v => Some v
  | None =>
      match extractFenceContentStream raw with
      | Some content =>
          let trimmed := TrimSpace content in
          match extractBalancedSpanStream trimmed with
          | Some (sp, rest, true) =>
              if sall fenceRest rest then decodeSpanStream sp else decodeSpanStream trimmed
          | _ => decodeSpanStream trimmed
          end
      | None =>
          match extractBalancedSpanStream raw with
          | Some (sp, rest, closed) =>
              if closed && containsUnquotedBracket rest then None else decodeSpanStream sp
          | None => None
          end
      end
  end.
End Extract.

(** ** Comments *)

(** Where a scan of the output stands: the output of a skipped comment is code. *)
Definition afterMode (m : scanMode) : scanMode :=
  match m with InBlock | InLine => InCode | m => m end.

Lemma stripLoop_slash_head ls r d r' : r = String d r' -> (d =c "/") = false ->
  exists t, stripLoop InCode ls r = String d t.
Proof. intros -> Hd. simpl. rewrite Hd. destruct (d =c dq); [eauto|]. destruct (_ && _); eauto. Qed.

Lemma stripLoop_slash ls d t : (d =c "*") = false -> (d =c "/") = false ->
  stripLoop InCode ls (String "/" (String d t)) = String "/" (stripLoop InCode (Some "/"%char) (String d t)).
Proof. intros E1 E2. cbn -[stripLoop]. cbn [stripLoop]. cbn -[stripLoop]. by rewrite E1, E2. Qed.

Lemma stripLoop_idem n : forall mode ls s, (String.length s <= n)%nat ->
  stripLoop (afterMode mode) ls (stripLoop mode ls s) = stripLoop mode ls s.
Proof.
  induction n as [|n IH]; intros mode ls [|c r] Hn; simpl in Hn; try lia; [by destruct mode..|].
  destruct mode as [|q escaped| |]; cbn [stripLoop afterMode].
  - destruct (c =c dq) eqn:Ed; [cbn [stripLoop]; rewrite Ed; f_equal; apply (IH (InString dq false)); lia|].
    destruct ((c =c sq) && structural ls) eqn:Es.
    { cbn [stripLoop]. rewrite Ed, Es. f_equal. apply (IH (InString sq false)). lia. }
    destruct (c =c "/") eqn:Ec.
    + assert (forall m r', (String.length r' <= n)%nat -> afterMode m = InCode ->
        stripLoop InCode ls (String " " (stripLoop m ls r')) = String " " (stripLoop m ls r')) as Hcomment.
      { intros m r' Hr Hm. cbn [stripLoop]. change (isWS " ") with true. cbn -[stripLoop]. f_equal.
        rewrite <- Hm at 1. by apply IH. }
      destruct r as [|d r']; [cbn [stripLoop]; by rewrite Ed, Es, Ec|]. simpl in Hn.
      destruct (d =c "*") eqn:Eb; [apply Hcomment; [lia|done]|].
      destruct (d =c "/") eqn:El; [apply Hcomment; [lia|done]|].
      apply Ascii.eqb_eq in Ec as ->. change (isWS "/") with false. cbn iota.
      destruct (stripLoop_slash_head (Some "/"%char) (String d r') d r' eq_refl El) as [t Ht]. rewrite Ht.
      rewrite stripLoop_slash by done. f_equal. rewrite <- Ht. apply (IH InCode). simpl. lia.
    + cbn [stripLoop]. rewrite Ed, Es, Ec. f_equal. apply (IH InCode). lia.
  - f_equal. destruct escaped; [apply (IH (InString q false)); lia|].
    destruct (c =c bs); [apply (IH (InString q true)); lia|].
    destruct (c =c q); [apply (IH InCode); lia|apply (IH (InString q false)); lia].
  - destruct (c =c "*"); [|apply (IH InBlock); lia]. destruct r as [|d r']; [done|]. simpl in Hn.
    destruct (d =c "/"); [apply (IH InCode); lia|apply (IH InBlock); simpl; lia].
  - destruct (c =c LF) eqn:Ec; [|apply (IH InLine); lia].
    apply Ascii.eqb_eq in Ec as ->. cbn -[stripLoop]. cbn [stripLoop].
    change (LF =c dq) with false. change (LF =c sq) with false. change (LF =c "/") with false.
    change (isWS LF) with true. cbn -[stripLoop]. f_equal. apply (IH InCode). lia.
Qed.

Lemma Contains_cons c s p : Contains (String c s) p = false ->
  CutPrefix p (String c s) = None /\ Contains s p = false.
Proof.
  unfold Contains. intros Hc%bool_decide_eq_false. cbn [CutAfter] in Hc.
  destruct (CutPrefix p (String c s)); [by destruct Hc|]. split; [done|]. by apply bool_decide_eq_false.
Qed.

(** Without a comment marker the scan changes nothing. *)
Lemma stripLoop_noop s : forall mode ls, (mode = InCode \/ exists q e, mode = InString q e) ->
  Contains s "/*" = false -> Contains s "//" = false -> stripLoop mode ls s = s.
Proof.
  induction s as [|c r IH]; intros mode ls Hm H1 H2; [by destruct mode|].
  apply Contains_cons in H1 as [P1 H1]. apply Contains_cons in H2 as [P2 H2].
  destruct Hm as [->|(q&e&->)]; cbn [stripLoop].
  - destruct (c =c dq); [f_equal; apply IH; eauto|]. destruct (_ && _); [f_equal; apply IH; eauto|].
    destruct (c =c "/") eqn:Ec; [|f_equal; apply IH; eauto]. apply Ascii.eqb_eq in Ec as ->.
    destruct r as [|d r']; [done|]. simpl in P1, P2.
    destruct (d =c "*") eqn:Ed; [apply Ascii.eqb_eq in Ed as ->; done|].
    destruct (d =c "/") eqn:El; [apply Ascii.eqb_eq in El as ->; done|]. f_equal. apply IH; eauto.
  - f_equal. destruct e; [apply IH; eauto|]. destruct (c =c bs); [apply IH; eauto|].
    destruct (c =c q); apply IH; eauto.
Qed.

(** The comment pass is one scan, and once is enough.  The fast path of
    [stripJSONComments] gives what the scan gives, and a second pass changes
    nothing: removing comments never makes a new one. *)
Theorem strip_once s :
  stripJSONComments s = stripLoop InCode None s
  /\ stripJSONComments (stripJSONComments s) = stripJSONComments s.
Proof.
  assert (forall s, stripJSONComments s = stripLoop InCode None s) as H.
  { clear s. intros s. unfold stripJSONComments. destruct (Contains s "/*") eqn:E1; [done|].
    destruct (Contains s "//") eqn:E2; [done|]. symmetry. apply stripLoop_noop; auto. }
  split; [apply H|]. rewrite !H. exact (stripLoop_idem _ InCode None s (le_n _)).
Qed.

(** ** Spans *)

Lemma closeSpan_app o k x s : forall d st a t, closeSpan o k d st s = Some (a, t) ->
  s = a +:+ t /\ suffix_of (String k t) s /\ closeSpan o k d st (s +:+ x) = Some (a, t +:+ x).
Proof.
  induction s as [|c r IH]; intros d st a t; cbn [closeSpan String.append]; [done|].
  assert (forall d', match closeSpan o k d' (quoteStep st c) r with Some (a, t) => Some (String c a, t) | None => None end = Some (a, t) ->
    String c r = a +:+ t /\ suffix_of (String k t) (String c r)
    /\ match closeSpan o k d' (quoteStep st c) (r +:+ x) with Some (a, t) => Some (String c a, t) | None => None end = Some (a, t +:+ x)) as Hnext.
  { intros d' E. destruct (closeSpan o k d' _ r) as [[a' t']|] eqn:E'; [|done]. injection E as <- <-.
    apply IH in E' as (Hr&Hs&->). cbn [String.append]. split_and!; [congruence|by apply suffix_cons|done]. }
  destruct st; [|apply Hnext]. destruct (c =c dq); [apply Hnext|]. destruct (c =c o); [apply Hnext|].
  destruct (c =c k) eqn:Ek; [|apply Hnext]. apply Ascii.eqb_eq in Ek as ->. destruct (d =? 1)%nat; [|apply Hnext].
  intros [= <- <-]. split_and!; [done|apply suffix_refl|done].
Qed.

(** A span that is still open can only grow. *)
Lemma closeSpan_grows o k x s : forall d st a t, closeSpan o k d st s = None ->
  closeSpan o k d st (s +:+ x) = Some (a, t) -> exists a', a = s +:+ a' /\ x = a' +:+ t.
Proof.
  induction s as [|c r IH]; intros d st a t; cbn [closeSpan String.append].
  { intros _ E. apply (closeSpan_app o k "") in E as (->&_&_). eauto. }
  assert (forall d', match closeSpan o k d' (quoteStep st c) r with Some (a, t) => Some (String c a, t) | None => None end = None ->
    match closeSpan o k d' (quoteStep st c) (r +:+ x) with Some (a, t) => Some (String c a, t) | None => None end = Some (a, t) ->
    exists a', a = String c r +:+ a' /\ x = a' +:+ t) as Hnext.
  { intros d' E. destruct (closeSpan o k d' _ r) as [[]|] eqn:E1; [done|].
    destruct (closeSpan o k d' _ (r +:+ x)) as [[a1 t1]|] eqn:E2; [|done]. intros [= <- <-].
    destruct (IH _ _ _ _ E1 E2) as (a'&->&->). by exists a'. }
  destruct st; [|apply Hnext]. destruct (c =c dq); [apply Hnext|]. destruct (c =c o); [apply Hnext|].
  destruct (c =c k); [|apply Hnext]. destruct (d =? 1)%nat; [done|apply Hnext].
Qed.

Lemma findAnchor_app x s : forall st a t, findAnchor st s = Some (a, t) ->
  s = a +:+ t /\ findAnchor st (s +:+ x) = Some (a, t +:+ x)
  /\ exists c r, t = String c r /\ (c =c "{") || (c =c "[") = true.
Proof.
  induction s as [|c r IH]; intros st a t; cbn [findAnchor String.append]; [done|].
  assert (match findAnchor (quoteStep st c) r with Some (a, t) => Some (String c a, t) | None => None end = Some (a, t) ->
    String c r = a +:+ t
    /\ match findAnchor (quoteStep st c) (r +:+ x) with Some (a, t) => Some (String c a, t) | None => None end = Some (a, t +:+ x)
    /\ exists c r, t = String c r /\ (c =c "{") || (c =c "[") = true) as Hnext.
  { intros E. destruct (findAnchor _ r) as [[a' t']|] eqn:E'; [|done]. injection E as <- <-.
    apply IH in E' as (Hr&->&Hc). cbn [String.append]. split_and!; [congruence|done|done]. }
  destruct st; [|exact Hnext]. destruct (_ || _) eqn:Eb; [|exact Hnext].
  intros [= <- <-]. split_and!; [done|done|eauto].
Qed.

Lemma spanAt_app x t sp rest : spanAt t = Some (sp, rest) ->
  t = sp +:+ rest /\ spanAt (t +:+ x) = Some (sp, rest +:+ x).
Proof.
  destruct t as [|c r]; [done|]. cbn [spanAt String.append]. cbv zeta. set (k := if c =c "{" then _ else _).
  destruct (closeSpan c k 1 Outside r) as [[a t']|] eqn:E; [|done]. intros [= <- <-].
  apply (closeSpan_app c k x) in E as (->&_&->). done.
Qed.

(** Once the streamed text has closed its first JSON structure, later text
    does not change what is taken from it: the span of the text is the span of
    every continuation.  While the structure is open, the span of a continuation
    starts with everything shown so far. *)
Theorem span_stable raw x :
  (forall sp rest, extractBalancedSpan raw = Some (sp, rest) ->
     (exists pre, raw = pre +:+ sp +:+ rest)
     /\ extractBalancedSpan (raw +:+ x) = Some (sp, rest +:+ x)
     /\ extractBalancedSpanStream (raw +:+ x) = Some (sp, rest +:+ x, true))
  /\ (forall sp rest, extractBalancedSpanStream raw = Some (sp, rest, false) ->
     exists more rest' closed,
       extractBalancedSpanStream (raw +:+ x) = Some (sp +:+ more, rest', closed) /\ x = more +:+ rest').
Proof.
  unfold extractBalancedSpan, extractBalancedSpanStream. split; intros sp rest.
  - destruct (findAnchor Outside raw) as [[pre t]|] eqn:E; [|done]. intros Hs.
    apply (findAnchor_app x) in E as (->&->&_). apply (spanAt_app x) in Hs as (->&->).
    split_and!; [by exists pre|done|done].
  - destruct (findAnchor Outside raw) as [[pre t]|] eqn:E; [|done].
    destruct (spanAt t) as [[]|] eqn:Es; [done|]. intros [= <- <-].
    apply (findAnchor_app x) in E as (_&->&c&r&->&_). cbn [spanAt String.append] in *. cbv zeta in *.
    set (k := if c =c "{" then _ else _) in *.
    destruct (closeSpan c k 1 Outside r) as [[]|] eqn:E1; [done|].
    destruct (closeSpan c k 1 Outside (r +:+ x)) as [[a t]|] eqn:E2.
    + destruct (closeSpan_grows _ _ _ _ _ _ _ _ E1 E2) as (a'&->&->). by exists a', t, true.
    + exists x, "", false. by rewrite sapp_nil_r.
Qed.

(** ** Where an accepted text ends *)

(** [endsWith p s t]: [t] is what is left of [s] after a byte satisfying [p]. *)
Definition endsWith (p : ascii -> bool) (s t : string) : Prop :=
  exists d, p d = true /\ suffix_of (String d t) s.

Lemma endsWith_trans p s s' t : endsWith p s t -> suffix_of s s' -> endsWith p s' t.
Proof. intros (d&Hd&Hs) Hs'. exists d. split; [done|by eapply suffix_trans]. Qed.

Lemma endsWith_impl (p p' : ascii -> bool) s t :
  (forall d, p d = true -> p' d = true) -> endsWith p s t -> endsWith p' s t.
Proof. intros H (d&Hd&Hs). exists d. auto. Qed.

Lemma endsWith_head (p : ascii -> bool) c t : p c = true -> endsWith p (String c t) t.
Proof. intros Hc. exists c. split; [done|apply suffix_refl]. Qed.

Lemma unquote_ends s : forall k x rest, unquote k s = Ok x rest -> endsWith (Ascii.eqb dq) s rest.
Proof.
  induction s as [|c s IH]; intros k x rest; simpl; [done|].
  assert (endsWith (Ascii.eqb dq) s rest -> endsWith (Ascii.eqb dq) (String c s) rest) as Hc.
  { intros H. eapply endsWith_trans; [exact H|apply suffix_cons, suffix_refl]. }
  destruct k as [|k]; [|intros E; apply Hc; by eapply IH].
  destruct (c =c dq) eqn:Ec.
  { apply Ascii.eqb_eq in Ec as ->. intros [= _ <-]. by apply endsWith_head. }
  destruct (unquoteStep c s) as [[out k]|]; [|done].
  destruct (unquote k s) as [y t| |] eqn:E; [|done|done]. intros [= _ <-]. apply Hc. by eapply IH.
Qed.

Lemma span_digits_ends r : forall d ds rest, span isDigit r = (String d ds, rest) -> endsWith isDigit r rest.
Proof.
  induction r as [|a r IH]; intros d ds rest; simpl; [done|]. destruct (isDigit a) eqn:Ea; [|done].
  destruct (span isDigit r) as [[|b x] t] eqn:E; intros [= _ _ <-].
  - pose proof (span_app isDigit r) as Hr. rewrite E in Hr. simpl in Hr. subst r. by apply endsWith_head.
  - eapply endsWith_trans; [by eapply IH|apply suffix_cons, suffix_refl].
Qed.

Lemma scanNumber_ends s t r : scanNumber s = Some (t, r) -> endsWith isDigit s r.
Proof.
  unfold scanNumber. set (x := match s with EmptyString => _ | String _ _ => _ end).
  assert (suffix_of (snd x) s) as Hx.
  { unfold x. destruct s as [|c s']; [apply suffix_refl|]. destruct (c =c "-"); [apply suffix_cons|]; apply suffix_refl. }
  destruct x as [sign s0]. cbn [snd] in Hx.
  destruct (scanInt s0) as [[i s1]|] eqn:E1; [|done]. destruct (scanFrac s1) as [[f s2]|] eqn:E2; [|done].
  destruct (scanExp s2) as [[e s3]|] eqn:E3; [|done]. intros [= _ <-]. eapply endsWith_trans; [|exact Hx].
  assert (endsWith isDigit s0 s1) as H1.
  { destruct s0 as [|c s0]; cbn [scanInt] in E1; [done|]. destruct (c =c "0") eqn:Ec.
    - apply Ascii.eqb_eq in Ec as ->. injection E1 as _ <-. by apply endsWith_head.
    - destruct (isDigit c) eqn:Ed; [|done]. pose proof (span_app isDigit s0) as Hs.
      destruct (span isDigit s0) as [[|d ds] r'] eqn:Es; injection E1 as _ <-.
      + simpl in Hs. subst s0. by apply endsWith_head.
      + eapply endsWith_trans; [by eapply span_digits_ends|apply suffix_cons, suffix_refl]. }
  assert (endsWith isDigit s0 s2) as H2.
  { destruct s1 as [|c s1]; cbn [scanFrac] in E2; [by injection E2 as _ <-|].
    destruct (c =c "."); [|by injection E2 as _ <-]. destruct (span isDigit s1) as [[|d ds] r'] eqn:Es; [done|].
    injection E2 as _ <-. eapply endsWith_trans; [by eapply span_digits_ends|].
    destruct H1 as (d'&_&Hs%suffix_tail). by eapply suffix_tail. }
  destruct s2 as [|c s2]; cbn [scanExp] in E3; [by injection E3 as _ <-|].
  destruct (_ || _); [|by injection E3 as _ <-]. destruct H2 as (d'&_&Hs%suffix_tail%suffix_tail).
  set (y := match s2 with EmptyString => _ | String _ _ => _ end) in E3.
  assert (suffix_of (snd y) s2) as Hy.
  { unfold y. destruct s2 as [|g s2']; [apply suffix_refl|]. destruct (_ || _); [apply suffix_cons|]; apply suffix_refl. }
  destruct y as [sg r1]. destruct (span isDigit r1) as [[|d ds] r'] eqn:Es; [done|]. injection E3 as _ <-.
  eapply endsWith_trans; [by eapply span_digits_ends|]. by eapply suffix_trans.
Qed.

Section Final.
Variable nm : numMode.

(** The last byte of a text the strict decoder accepts, by its first byte. *)
Definition bracket (c : ascii) : bool := (c =c "{") || (c =c "[").
Definition closer (c : ascii) : bool := (c =c "}") || (c =c "]").
Definition scalarEnd (c : ascii) : bool := (c =c dq) || (c =c "e") || (c =c "l") || isDigit c.

Lemma decodeToken_ends n s v rest c r : decodeToken nm n s = Ok v rest -> skipWS s = String c r ->
  endsWith (if bracket c then closer else scalarEnd) s rest.
Proof.
  destruct n as [|n]; [done|]. cbn [decodeToken]. intros Hx Es. rewrite Es in Hx. unfold bracket.
  pose proof (suffix_skip _ s _ _ Es (suffix_refl s)) as Hs. pose proof (suffix_tail _ _ _ Hs) as Hr.
  destruct (c =c "{"); [|destruct (c =c "["); [|cbn [orb]; destruct (c =c dq)]].
  - destruct (skipWS r) as [|d r'] eqn:E2; [done|]. pose proof (suffix_skip _ _ _ _ E2 Hr) as Hd. cbn [orb].
    destruct (d =c "}") eqn:Ed.
    + apply Ascii.eqb_eq in Ed as ->. injection Hx as _ <-. by exists "}"%char.
    + destruct (decodeMembers nm n _) eqn:E; [|done|done]. injection Hx as _ <-. exists "}"%char. split; [done|].
      eapply suffix_trans; [by eapply decodeMembers_ends|done].
  - destruct (skipWS r) as [|d r'] eqn:E2; [done|]. pose proof (suffix_skip _ _ _ _ E2 Hr) as Hd. cbn [orb].
    destruct (d =c "]") eqn:Ed.
    + apply Ascii.eqb_eq in Ed as ->. injection Hx as _ <-. by exists "]"%char.
    + destruct (decodeElements nm n _) eqn:E; [|done|done]. injection Hx as _ <-. exists "]"%char. split; [done|].
      eapply suffix_trans; [by eapply decodeElements_ends|done].
  - destruct (unquote 0 r) eqn:E; [|done|done]. injection Hx as _ <-.
    eapply endsWith_impl; [|eapply endsWith_trans; [by eapply unquote_ends|done]].
    intros d Hd%Ascii.eqb_eq. by subst d.
  - assert (forall w k t, CutPrefix (w +:+ str1 k) (String c r) = Some t -> scalarEnd k = true -> endsWith scalarEnd s t) as Hw.
    { intros w k t E%CutPrefix_some Hk. exists k. split; [done|]. rewrite E in Hs. eapply suffix_trans; [|exact Hs].
      exists w. by rewrite sapp_assoc. }
    destruct (CutPrefix "true" _) eqn:Et; [injection Hx as _ <-; by apply (Hw "tru" "e"%char)|].
    destruct (CutPrefix "false" _) eqn:Ef; [injection Hx as _ <-; by apply (Hw "fals" "e"%char)|].
    destruct (CutPrefix "null" _) eqn:En; [injection Hx as _ <-; by apply (Hw "nul" "l"%char)|].
    destruct (scanNumber _) as [[tok t]|] eqn:Esn; [|done]. destruct (numberValue nm tok); [|done].
    injection Hx as _ <-. eapply endsWith_impl; [|eapply endsWith_trans; [by eapply scanNumber_ends|done]].
    intros d Hd. unfold scalarEnd. by rewrite Hd, !orb_true_r.
Qed.

Lemma endsWith_last p s rest : endsWith p s rest -> rest = "" -> exists u d, s = u +:+ str1 d /\ p d = true.
Proof. intros (d&Hd&u&->) ->. by exists u, d. Qed.

(** What is left of a trimmed text after a value is not white space only. *)
Lemma trimmed_rest s rest : TrimSpace s = s -> suffix_of rest s -> skipWS rest = "" -> rest = "".
Proof.
  intros Ht [u Hu] Hw. destruct (string_snoc rest) as [->|(y&c&->)]; [done|]. exfalso.
  assert (isAsciiSpace c = false) as Hc by (apply (TrimSpace_last s (u +:+ y)); by rewrite Ht, Hu, sapp_assoc).
  assert (isWS c = true) as Hi.
  { clear -Hw. induction y as [|a y IH]; simpl in Hw; destruct (isWS _) eqn:E; [done|done|auto|done]. }
  unfold isWS in Hi. repeat (apply orb_true_iff in Hi as [Hi|Hi]); apply Ascii.eqb_eq in Hi; by subst c.
Qed.

Lemma decodeSpan_ends s v c r : TrimSpace s = s -> decodeSpan nm s = Some v -> s = String c r ->
  exists u d, s = u +:+ str1 d /\ (if bracket c then closer d else scalarEnd d) = true.
Proof.
  intros Ht Hv ->. assert (isWS c = false) as Hc.
  { pose proof (TrimSpace_first _ _ _ Ht) as Hf. unfold isWS. destruct (_ || _) eqn:E; [|done]. exfalso.
    repeat (apply orb_true_iff in E as [E|E]); apply Ascii.eqb_eq in E; by subst c. }
  assert (skipWS (String c r) = String c r) as Es by (simpl; by rewrite Hc).
  unfold decodeSpan in Hv. destruct (strictDecode nm _) as [w|] eqn:E.
  - unfold strictDecode, strictDecodeFuel in E. destruct (decodeToken nm _ _) as [w' rest| |] eqn:Ed; [|done|done].
    cbn [bind] in E. destruct (skipWS rest =s "") eqn:Er; [|done]. apply String.eqb_eq in Er.
    pose proof (trimmed_rest _ _ Ht (proj1 (decode_suffix nm _) _ _ _ Ed) Er) as ->.
    apply decodeToken_ends with (c := c) (r := r) in Ed; [|done]. apply endsWith_last in Ed as (u&d&Hu&Hd); [|done].
    exists u, d. by destruct (bracket c).
  - unfold fixParse, fixParseFuel in Hv. rewrite Es in Hv. change (_ || _) with (bracket c) in Hv.
    destruct (bracket c) eqn:Eb; [|done]. destruct (parseValue nm _ _ _) as [w' rest| |] eqn:Ed; [|done|done].
    cbn [bind] in Hv. destruct (skipWS rest =s "") eqn:Er; [|done]. apply String.eqb_eq in Er.
    pose proof (trimmed_rest _ _ Ht (proj1 (parse_suffix nm _) _ _ _ _ Ed) Er) as ->.
    apply (endsWith_last closer _ ""); [|done].
    set (n := (2 * _ + 2)%nat) in Ed. destruct n as [|n]; [done|]. cbn [parseValue] in Ed. rewrite Es in Ed. unfold bracket in Eb.
    destruct (c =c "{"); [|destruct (c =c "["); [|done]].
    + destruct (parseObject nm n r) as [fs t| |] eqn:Eo; [|done|done]. injection Ed as _ ->.
      exists "}"%char. split; [done|]. apply suffix_cons. by eapply parseObject_ends.
    + destruct (parseArray nm n r) as [xs t| |] eqn:Eo; [|done|done]. injection Ed as _ ->.
      exists "]"%char. split; [done|]. apply suffix_cons. by eapply parseArray_ends.
Qed.

Lemma decodeSpan_stream s v : sall plain s = true -> decodeSpan nm s = Some v -> decodeSpanStream nm s = Some v.
Proof.
  intros Hp. unfold decodeSpan, decodeSpanStream. destruct (strictDecode nm s); [done|]. intros Hv.
  assert (skipWS s <> "") as Hs by (unfold fixParse, fixParseFuel in Hv; by destruct (skipWS s)).
  pose proof (streamFix_prefix nm s "" v) as Hf. rewrite sapp_nil_r in Hf. specialize (Hf Hv).
  destruct (streamFix nm s) as [v'|]; [by rewrite (proj2 Hf eq_refl)|]. destruct Hf; congruence.
Qed.

(** A span that only the rest of a fence follows is all of an accepted text. *)
Lemma accepted_span s v sp rest : TrimSpace s = s -> decodeSpan nm s = Some v ->
  extractBalancedSpanStream s = Some (sp, rest, true) -> sall fenceRest rest = true -> sp = s.
Proof.
  intros Ht Hv. unfold extractBalancedSpanStream. destruct (findAnchor Outside s) as [[pre t]|] eqn:Ea; [|done].
  destruct (spanAt t) as [[sp' rest']|] eqn:Es; [|done]. intros [= -> ->] Hr.
  pose proof (findAnchor_app "" s _ _ _ Ea) as (Hs&_&c&r&->&Hc). pose proof (spanAt_app "" _ _ _ Es) as [Hsp _].
  destruct s as [|a s]; [done|]. destruct (decodeSpan_ends _ _ _ _ Ht Hv eq_refl) as (u&d&Hu&Hd).
  assert (rest = "") as ->.
  { destruct (string_snoc rest) as [->|(y&e&->)]; [done|]. exfalso.
    rewrite sall_app in Hr. apply andb_true_iff in Hr as [_ Hr]. simpl in Hr. rewrite andb_true_r in Hr.
    rewrite Hsp, <- !sapp_assoc, Hu in Hs. apply (f_equal unsnoc) in Hs. unfold str1 in Hs.
    rewrite !unsnoc_app in Hs. injection Hs as _ ->.
    unfold fenceRest, isWS in Hr. repeat (apply orb_true_iff in Hr as [Hr|Hr]); apply Ascii.eqb_eq in Hr; subst e;
      by destruct (bracket a). }
  rewrite sapp_nil_r in Hsp. subst sp. destruct (bracket a) eqn:Eb.
  { cbn [findAnchor] in Ea. change (_ || _) with (bracket a) in Ea. rewrite Eb in Ea. injection Ea as <- <- <-. done. }
  exfalso. cbn [spanAt] in Es. cbv zeta in Es. set (k := if c =c "{" then "}"%char else "]"%char) in Es.
  destruct (closeSpan c k 1 Outside r) as [[b t]|] eqn:Ek; [|done]. injection Es as <- ->.
  apply (closeSpan_app c k "") in Ek as (_&[w Hw]&_).
  rewrite Hw, Hu in Hs. change (String c (w +:+ String k "")) with (String c w +:+ String k "") in Hs.
  rewrite <- sapp_assoc in Hs. apply (f_equal unsnoc) in Hs. unfold str1 in Hs.
  rewrite !unsnoc_app in Hs. injection Hs as _ ->. unfold k in Hd. by destruct (c =c "{").
Qed.

Lemma cutFence_sub lines a b : cutFence lines = Some (a, b) -> forall f : string -> Prop, Forall f lines -> Forall f a /\ Forall f b.
Proof.
  revert a b. induction lines as [|l lines IH]; intros a b; simpl; [done|]. destruct (isFence l).
  - intros [= <- <-] f Hf. inversion Hf; subst. by split.
  - destruct (cutFence lines) as [[a' b']|]; [|done]. intros [= <- <-] f Hf. inversion Hf; subst.
    destruct (IH _ _ eq_refl f) as [??]; [done|]. split; [by constructor|done].
Qed.

Lemma sall_fence f raw body : f LF = true -> extractFenceContent raw = Some body -> sall f raw = true -> sall f body = true.
Proof.
  unfold extractFenceContent. intros Hf. destruct (cutFence (splitLF raw)) as [[a b]|] eqn:E1; [|done].
  destruct (cutFence b) as [[body' b']|] eqn:E2; [|done]. intros [= <-] Hr. apply sall_joinLF; [done|].
  apply sall_lines in Hr. apply (cutFence_sub _ _ _ E1) in Hr as [_ Hr]. by apply (cutFence_sub _ _ _ E2) in Hr as [Hr _].
Qed.

Lemma candidate_streams raw v : sall plain raw = true ->
  extractFenceContentStream raw = extractFenceContent raw ->
  extractCandidate nm raw = Some v -> streamExtractCandidate nm raw = Some v.
Proof.
  intros Hp Hfence. unfold extractCandidate, streamExtractCandidate. rewrite Hfence.
  destruct (strictWhole nm raw); [done|]. destruct (extractFenceContent raw) as [f|] eqn:Ef.
  - intros Hv. assert (sall plain (TrimSpace f) = true) as Hf by (apply sall_TrimSpace; by eapply sall_fence).
    pose proof (decodeSpan_stream _ _ Hf Hv) as Hs. cbv zeta.
    destruct (extractBalancedSpanStream (TrimSpace f)) as [[[sp rest] [|]]|] eqn:Es; [|done|done].
    destruct (sall fenceRest rest) eqn:Er; [|done].
    by rewrite (accepted_span _ _ _ _ (TrimSpace_idem f) Hv Es Er).
  - unfold extractBalancedSpan, extractBalancedSpanStream.
    destruct (findAnchor Outside raw) as [[pre t]|] eqn:Ea; [|done].
    destruct (spanAt t) as [[sp rest]|] eqn:Es; [|done]. cbn [andb].
    destruct (containsUnquotedBracket rest); [done|]. intros Hv. apply decodeSpan_stream; [|done].
    apply (findAnchor_app "") in Ea as (->&_&_). apply (spanAt_app "") in Es as (->&_).
    by eapply sall_sub.
Qed.

(** What the final extractor reads, the streaming extractor reads alike from
    the whole text: for plain text (ASCII without a backslash) in which no markdown
    fence is left open, a value that the final pass finds (strictly, in a fence or
    in the first balanced span) is the value the last streaming pass finds. *)
Theorem final_candidate_streams raw v : sall plain raw = true ->
  extractFenceContentStream raw = extractFenceContent raw ->
  extractCandidate nm raw = Some v -> streamExtractCandidate nm raw = Some v.
Proof. apply candidate_streams. Qed.
End Final.

(** ** Concrete texts *)

Definition proseText : string :=
  "Sure: {a: 1, b: [true, " +:+ str1 dq +:+ "x]" +:+ str1 dq +:+ "]} done".
Definition fencedText : string :=
  "text" +:+ str1 LF +:+ fence +:+ "json" +:+ str1 LF +:+ "{a: 1}" +:+ str1 LF +:+ fence.

Lemma final_candidate_streams_witness :
  streamExtractCandidate numModeLegacy fencedText = Some (valObject false [("a", valNumber false false "1")])
  /\ streamExtractCandidate numModeSerde proseText
     = Some (valObject false [("a", valNumber false false "1");
         ("b", valArray false [valBool false true; valString false "x]"])]).
Proof. split; apply final_candidate_streams; reflexivity. Defined.

(** A fence that is left open separates the two: the final pass reads the span
    before it, the streaming pass only looks behind it. *)
Example open_fence_differs :
  let raw := "{a: 1}" +:+ str1 LF +:+ fence +:+ str1 LF in
  extractCandidate numModeLegacy raw = Some (valObject false [("a", valNumber false false "1")])
  /\ streamExtractCandidate numModeLegacy raw = None.
Proof. split; reflexivity. Qed.

Lemma span_stable_witness :
  extractBalancedSpan (proseText +:+ " {more}")
    = Some ("{a: 1, b: [true, " +:+ str1 dq +:+ "x]" +:+ str1 dq +:+ "]}", " done {more}")
  /\ exists more rest closed,
       extractBalancedSpanStream ("Sure: {a: [1" +:+ ", 2]} x]")
         = Some ("{a: [1" +:+ more, rest, closed) /\ ", 2]} x]" = more +:+ rest.
Proof.
  split; [exact (proj1 (proj2 (proj1 (span_stable proseText " {more}") _ " done" eq_refl)))|].
  eapply (proj2 (span_stable "Sure: {a: [1" ", 2]} x]")). reflexivity.
Defined.
