(* ===== verification/Schema.v ===== *)
(** * Schema: the compact type bundle the native engine coerces against
    ([internal/schema/schema.go], [index.go], [validate.go])

    Types, definitions and the bundle with its lookup indexes; the rebuilding of
    the indexes and the validation.  Errors keep their kind and the name they
    report; the path text in their messages is left out.  A pointer field is an
    [option], a nil Go map is the empty map. *)

From S2P Require Import Prelude.
Open Scope stdpp_scope.

(** ** Types *)

(** [ConstraintLevel]. *)
Definition ConstraintLevel := string.

Record Constraint := mkConstraint { ct_Level : ConstraintLevel; ct_Expression : string; ct_Label : option string }.

(** [StreamingBehavior]. *)
Record StreamingBehavior := mkStreaming { sb_Needed : bool; sb_Done : bool; sb_State : bool }.
Definition StreamIsZero (s : StreamingBehavior) : bool := negb (sb_Needed s) && negb (sb_Done s) && negb (sb_State s).

(** [TypeMeta]. *)
Record TypeMeta := mkMeta { tm_Constraints : list Constraint; tm_Stream : StreamingBehavior }.
Definition noMeta : TypeMeta := mkMeta [] (mkStreaming false false false).
Definition MetaIsZero (m : TypeMeta) : bool := bool_decide (tm_Constraints m = []) && StreamIsZero (tm_Stream m).

(** [StreamingMode], a string. *)
Definition StreamingMode := string.
Definition NonStreaming : StreamingMode := "non_streaming".
Definition Streaming : StreamingMode := "streaming".

(** [MediaKind] and [PrimitiveKind]; the media kind is part of the media primitive. *)
Inductive MediaKind := MediaImage | MediaAudio | MediaPDF | MediaVideo | MediaOther (k : string).
Inductive PrimitiveKind :=
  | PrimitiveString | PrimitiveInt | PrimitiveFloat | PrimitiveBool | PrimitiveNull
  | PrimitiveMedia (media : MediaKind) | PrimitiveOther (k : string).

(** [LiteralValue]: the kind with the value of that kind. *)
Inductive LiteralValue :=
  | LiteralString (s : string) | LiteralInt (n : Z) | LiteralBool (b : bool) | LiteralOther (k : string).

(** [Type]: the kind with the fields that kind uses. *)
Inductive type :=
  | TypeTop (meta : TypeMeta)
  | TypePrimitive (meta : TypeMeta) (p : PrimitiveKind)
  | TypeEnum (meta : TypeMeta) (name : string)
  | TypeLiteral (meta : TypeMeta) (lit : option LiteralValue)
  | TypeClass (meta : TypeMeta) (name : string) (mode : StreamingMode)
  | TypeList (meta : TypeMeta) (elem : option type)
  | TypeMap (meta : TypeMeta) (key value : option type)
  | TypeRecursiveAlias (meta : TypeMeta) (name : string) (mode : StreamingMode)
  | TypeTuple (meta : TypeMeta) (items : list type)
  | TypeArrow (meta : TypeMeta) (arrow : option (list type * type))
  | TypeUnion (meta : TypeMeta) (union : option (list type * bool))
  | TypeOther (meta : TypeMeta) (kind : string).

Definition Meta (t : type) : TypeMeta :=
  match t with
  | TypeTop m | TypePrimitive m _ | TypeEnum m _ | TypeLiteral m _ | TypeClass m _ _ | TypeList m _
  | TypeMap m _ _ | TypeRecursiveAlias m _ _ | TypeTuple m _ | TypeArrow m _ | TypeUnion m _
  | TypeOther m _ => m
  end.

(** ** Definitions *)

(** [Name] and [RenderedName]. *)
Record Name := mkName { nm_Name : string; nm_Alias : option string }.
Definition RenderedName (n : Name) : string := default (nm_Name n) (nm_Alias n).

(** [ClassKey]. *)
Definition ClassKey : Type := string * StreamingMode.

Record EnumValue := mkEnumValue { ev_Name : Name; ev_Description : option string }.
Record EnumDef := mkEnumDef {
  ed_Name : Name; ed_Values : list EnumValue; ed_Constraints : list Constraint;
  ed_valueByName : gmap string nat; ed_valueByRenderedName : gmap string nat
}.
Record ClassField := mkClassField {
  cf_Name : Name; cf_Type : type; cf_Description : option string; cf_StreamingNeeded : bool
}.
Record ClassDef := mkClassDef {
  cd_Name : Name; cd_Description : option string; cd_Mode : StreamingMode; cd_Fields : list ClassField;
  cd_Constraints : list Constraint; cd_Stream : StreamingBehavior;
  cd_fieldByName : gmap string nat; cd_fieldByRenderedName : gmap string nat
}.
Record RecursiveAliasDef := mkAliasDef { ra_Name : string; ra_Target : type }.

(** [Bundle]. *)
Record Bundle := mkBundle {
  Target : type;
  Enums : list EnumDef;
  Classes : list ClassDef;
  RecursiveClasses : list string;
  StructuralRecursiveAliases : list RecursiveAliasDef;
  enumByName : gmap string nat;
  classByKey : gmap ClassKey nat;
  aliasByName : gmap string nat
}.

Definition classKey (c : ClassDef) : ClassKey := (nm_Name (cd_Name c), cd_Mode c).

(** ** Lookups *)

Definition FindEnum (b : Bundle) (name : string) : option EnumDef := i ← enumByName b !! name; Enums b !! i.
Definition FindClass (b : Bundle) (name : string) (mode : StreamingMode) : option ClassDef :=
  i ← classByKey b !! (name, mode); Classes b !! i.
Definition FindRecursiveAlias (b : Bundle) (name : string) : option RecursiveAliasDef :=
  i ← aliasByName b !! name; StructuralRecursiveAliases b !! i.
Definition Field (c : ClassDef) (name : string) : option ClassField := i ← cd_fieldByName c !! name; cd_Fields c !! i.
Definition FieldByRenderedName (c : ClassDef) (rendered : string) : option ClassField :=
  i ← cd_fieldByRenderedName c !! rendered; cd_Fields c !! i.
Definition Value (e : EnumDef) (name : string) : option EnumValue := i ← ed_valueByName e !! name; ed_Values e !! i.
Definition ValueByRenderedName (e : EnumDef) (rendered : string) : option EnumValue :=
  i ← ed_valueByRenderedName e !! rendered; ed_Values e !! i.

(** ** Errors *)

Inductive SchemaErr :=
  | DuplicateEnum (name : string) | DuplicateClass (key : ClassKey) | DuplicateAlias (name : string)
  | DuplicateName (def name : string) | DuplicateRendered (def name : string)
  | InvalidMode (mode : string) | InvalidMedia (k : MediaKind) | UnknownPrimitive (p : PrimitiveKind)
  | LiteralMissing | UnknownLiteral | UnresolvedEnum (name : string) | UnresolvedClass (name : string)
  | UnresolvedAlias (name : string) | ListMissing | MapMissing | MapKey | UnionMissing | UnionEmpty
  | UnionNull | ArrowMissing | UnknownKind (k : string) | NotOutput.

(** ** Rebuilding the indexes *)

(** The loop of the two [rebuildIndexes]: the index of every canonical and of
    every rendered name, or the first duplicate. *)
Fixpoint indexNames (def : string) (i : nat) (ns : list Name) (byName byRendered : gmap string nat)
    : gmap string nat * gmap string nat + SchemaErr :=
  match ns with
  | [] => inl (byName, byRendered)
  | n :: ns =>
      if bool_decide (is_Some (byName !! nm_Name n)) then inr (DuplicateName def (nm_Name n))
      else if bool_decide (is_Some (byRendered !! RenderedName n)) then inr (DuplicateRendered def (RenderedName n))
      else indexNames def (S i) ns (<[nm_Name n := i]> byName) (<[RenderedName n := i]> byRendered)
  end.

Definition setEnumIndex (e : EnumDef) (byName byRendered : gmap string nat) : EnumDef :=
  mkEnumDef (ed_Name e) (ed_Values e) (ed_Constraints e) byName byRendered.
Definition setClassIndex (c : ClassDef) (byName byRendered : gmap string nat) : ClassDef :=
  mkClassDef (cd_Name c) (cd_Description c) (cd_Mode c) (cd_Fields c) (cd_Constraints c) (cd_Stream c) byName byRendered.

(** [EnumDef.rebuildIndexes] and [ClassDef.rebuildIndexes]. *)
Definition rebuildEnum (e : EnumDef) : EnumDef * option SchemaErr :=
  match indexNames (nm_Name (ed_Name e)) 0 (ev_Name <$> ed_Values e) ∅ ∅ with
  | inl (m, r) => (setEnumIndex e m r, None)
  | inr err => (setEnumIndex e ∅ ∅, Some err)
  end.
Definition rebuildClass (c : ClassDef) : ClassDef * option SchemaErr :=
  match indexNames (nm_Name (cd_Name c)) 0 (cf_Name <$> cd_Fields c) ∅ ∅ with
  | inl (m, r) => (setClassIndex c m r, None)
  | inr err => (setClassIndex c ∅ ∅, Some err)
  end.

(** [validateStreamingMode]. *)
Definition validateStreamingMode (mode : StreamingMode) : option SchemaErr :=
  if (mode =s NonStreaming) || (mode =s Streaming) then None else Some (InvalidMode mode).

(** The three loops of [RebuildIndexes]: the definitions as they are left, and the
    index or the first error. *)
Fixpoint rebuildEnums (i : nat) (es : list EnumDef) (m : gmap string nat)
    : list EnumDef * (gmap string nat + SchemaErr) :=
  match es with
  | [] => ([], inl m)
  | e :: es =>
      let name := nm_Name (ed_Name e) in
      if bool_decide (is_Some (m !! name)) then (e :: es, inr (DuplicateEnum name))
      else
        match rebuildEnum e with
        | (e, Some err) => (e :: es, inr err)
        | (e, None) => let '(es, r) := rebuildEnums (S i) es (<[name := i]> m) in (e :: es, r)
        end
  end.
Fixpoint rebuildClasses (i : nat) (cs : list ClassDef) (m : gmap ClassKey nat)
    : list ClassDef * (gmap ClassKey nat + SchemaErr) :=
  match cs with
  | [] => ([], inl m)
  | c :: cs =>
      match validateStreamingMode (cd_Mode c) with
      | Some err => (c :: cs, inr err)
      | None =>
          if bool_decide (is_Some (m !! classKey c)) then (c :: cs, inr (DuplicateClass (classKey c)))
          else
            match rebuildClass c with
            | (c, Some err) => (c :: cs, inr err)
            | (c, None) => let '(cs, r) := rebuildClasses (S i) cs (<[classKey c := i]> m) in (c :: cs, r)
            end
      end
  end.
Fixpoint rebuildAliases (i : nat) (ras : list RecursiveAliasDef) (m : gmap string nat)
    : gmap string nat + SchemaErr :=
  match ras with
  | [] => inl m
  | a :: ras =>
      if bool_decide (is_Some (m !! ra_Name a)) then inr (DuplicateAlias (ra_Name a))
      else rebuildAliases (S i) ras (<[ra_Name a := i]> m)
  end.

Definition setIndexes (b : Bundle) (es : list EnumDef) (cs : list ClassDef)
    (me : gmap string nat) (mc : gmap ClassKey nat) (ma : gmap string nat) : Bundle :=
  mkBundle (Target b) es cs (RecursiveClasses b) (StructuralRecursiveAliases b) me mc ma.

(** [Bundle.RebuildIndexes]. *)
Definition RebuildIndexes (b : Bundle) : Bundle * option SchemaErr :=
  let es := (fun e => setEnumIndex e ∅ ∅) <$> Enums b in
  let cs := (fun c => setClassIndex c ∅ ∅) <$> Classes b in
  match rebuildEnums 0 es ∅ with
  | (es, inr err) => (setIndexes b es cs ∅ ∅ ∅, Some err)
  | (es, inl me) =>
      match rebuildClasses 0 cs ∅ with
      | (cs, inr err) => (setIndexes b es cs ∅ ∅ ∅, Some err)
      | (cs, inl mc) =>
          match rebuildAliases 0 (StructuralRecursiveAliases b) ∅ with
          | inr err => (setIndexes b es cs ∅ ∅ ∅, Some err)
          | inl ma => (setIndexes b es cs me mc ma, None)
          end
      end
  end.

(** ** Validation *)

(** The first error of a list of checks. *)
Fixpoint firstErr {A E : Type} (f : A -> option E) (xs : list A) : option E :=
  match xs with
  | [] => None
  | x :: xs => match f x with None => firstErr f xs | Some e => Some e end
  end.
Notation "a ';err' b" := (match a with None => b | Some e => Some e end) (at level 60, right associativity).

(** [isStringLiteralUnion]. *)
Fixpoint isStringLiteralUnion (t : type) : bool :=
  match t with
  | TypeUnion _ (Some (vs, nullable)) =>
      negb nullable && negb (bool_decide (vs = []))
      && forallb (fun v =>
           match v with
           | TypeLiteral _ (Some (LiteralString _)) => true
           | TypeUnion _ _ => isStringLiteralUnion v
           | _ => false
           end) vs
  | _ => false
  end.

(** [Bundle.isValidMapKey]. *)
Definition isValidMapKey (t : type) : bool :=
  match t with
  | TypePrimitive _ PrimitiveString => true
  | TypeEnum _ _ => true
  | TypeLiteral _ (Some (LiteralString _)) => true
  | TypeUnion _ _ => isStringLiteralUnion t
  | _ => false
  end.

Definition isNullPrimitive (t : type) : bool :=
  match t with TypePrimitive _ PrimitiveNull => true | _ => false end.

Section Validation.
Variable b : Bundle.

(** [Bundle.validateType]. *)
Fixpoint validateType (t : type) : option SchemaErr :=
  match t with
  | TypeTop _ => None
  | TypePrimitive _ p =>
      match p with
      | PrimitiveString | PrimitiveInt | PrimitiveFloat | PrimitiveBool | PrimitiveNull => None
      | PrimitiveMedia m =>
          match m with
          | MediaImage | MediaAudio | MediaPDF | MediaVideo => None
          | MediaOther _ => Some (InvalidMedia m)
          end
      | PrimitiveOther _ => Some (UnknownPrimitive p)
      end
  | TypeLiteral _ lit =>
      match lit with
      | None => Some LiteralMissing
      | Some (LiteralOther _) => Some UnknownLiteral
      | Some _ => None
      end
  | TypeEnum _ name => if bool_decide (is_Some (FindEnum b name)) then None else Some (UnresolvedEnum name)
  | TypeClass _ name mode =>
      validateStreamingMode mode ;err
      if bool_decide (is_Some (FindClass b name mode)) then None else Some (UnresolvedClass name)
  | TypeRecursiveAlias _ name mode =>
      validateStreamingMode mode ;err
      if bool_decide (is_Some (FindRecursiveAlias b name)) then None else Some (UnresolvedAlias name)
  | TypeList _ None => Some ListMissing
  | TypeList _ (Some elem) => validateType elem
  | TypeMap _ (Some key) (Some value) =>
      if isValidMapKey key then validateType key ;err validateType value else Some MapKey
  | TypeMap _ _ _ => Some MapMissing
  | TypeUnion _ None => Some UnionMissing
  | TypeUnion _ (Some (vs, nullable)) =>
      if bool_decide (vs = []) && negb nullable then Some UnionEmpty
      else firstErr (fun v => if isNullPrimitive v then Some UnionNull else validateType v) vs
  | TypeTuple _ items => firstErr validateType items
  | TypeArrow _ None => Some ArrowMissing
  | TypeArrow _ (Some (params, ret)) => firstErr validateType params ;err validateType ret
  | TypeOther _ k => Some (UnknownKind k)
  end.

(** [walkType] with the check of [ValidateOutput]. *)
Definition outputNode (t : type) : option SchemaErr :=
  match t with
  | TypeTuple _ _ | TypeArrow _ _ | TypeTop _ | TypePrimitive _ (PrimitiveMedia _) => Some NotOutput
  | _ => None
  end.
Fixpoint walkType (fn : type -> option SchemaErr) (t : type) : option SchemaErr :=
  fn t ;err
  match t with
  | TypeList _ (Some elem) => walkType fn elem
  | TypeMap _ key value =>
      (match key with Some k => walkType fn k | None => None end) ;err
      (match value with Some v => walkType fn v | None => None end)
  | TypeUnion _ (Some (vs, _)) => firstErr (walkType fn) vs
  | TypeTuple _ items => firstErr (walkType fn) items
  | TypeArrow _ (Some (params, ret)) => firstErr (walkType fn) params ;err walkType fn ret
  | _ => None
  end.

(** [Bundle.eachRootType]. *)
Definition eachRootType (fn : type -> option SchemaErr) : option SchemaErr :=
  fn (Target b) ;err
  firstErr (fun c => firstErr (fun f => fn (cf_Type f)) (cd_Fields c)) (Classes b) ;err
  firstErr (fun a => fn (ra_Target a)) (StructuralRecursiveAliases b).

(** [Bundle.classExists]. *)
Definition classExists (name : string) : bool :=
  bool_decide (is_Some (FindClass b name NonStreaming)) || bool_decide (is_Some (FindClass b name Streaming)).
End Validation.

(** [Bundle.Validate] and [Bundle.ValidateOutput]: the bundle with its indexes
    rebuilt, and the error. *)
Definition Validate (b : Bundle) : Bundle * option SchemaErr :=
  let '(b, err) := RebuildIndexes b in
  (b, err ;err
      eachRootType b (validateType b) ;err
      firstErr (fun name => if classExists b name then None else Some (UnresolvedClass name)) (RecursiveClasses b)).
Definition ValidateOutput (b : Bundle) : Bundle * option SchemaErr :=
  let '(b, err) := Validate b in
  (b, err ;err eachRootType b (walkType outputNode)).

(** ** Induction on types *)

Section TypeInd.
Variable P : type -> Prop.
Definition optP {A} (Q : A -> Prop) (o : option A) : Prop := match o with Some a => Q a | None => True end.
Hypothesis HTop : forall m, P (TypeTop m).
Hypothesis HPrim : forall m p, P (TypePrimitive m p).
Hypothesis HEnum : forall m n, P (TypeEnum m n).
Hypothesis HLit : forall m l, P (TypeLiteral m l).
Hypothesis HClass : forall m n mode, P (TypeClass m n mode).
Hypothesis HList : forall m e, optP P e -> P (TypeList m e).
Hypothesis HMap : forall m k v, optP P k -> optP P v -> P (TypeMap m k v).
Hypothesis HAlias : forall m n mode, P (TypeRecursiveAlias m n mode).
Hypothesis HTuple : forall m ts, Forall P ts -> P (TypeTuple m ts).
Hypothesis HArrow : forall m a, optP (fun a => Forall P a.1 /\ P a.2) a -> P (TypeArrow m a).
Hypothesis HUnion : forall m u, optP (fun u => Forall P u.1) u -> P (TypeUnion m u).
Hypothesis HOther : forall m k, P (TypeOther m k).

Fixpoint type_induction (t : type) : P t :=
  let all := fix all (ts : list type) : Forall P ts :=
    match ts with [] => Forall_nil_2 _ | t :: ts => Forall_cons_2 _ _ _ (type_induction t) (all ts) end in
  let opt (o : option type) : optP P o := match o with Some t => type_induction t | None => I end in
  match t with
  | TypeTop m => HTop m
  | TypePrimitive m p => HPrim m p
  | TypeEnum m n => HEnum m n
  | TypeLiteral m l => HLit m l
  | TypeClass m n mode => HClass m n mode
  | TypeList m e => HList m e (opt e)
  | TypeMap m k v => HMap m k v (opt k) (opt v)
  | TypeRecursiveAlias m n mode => HAlias m n mode
  | TypeTuple m ts => HTuple m ts (all ts)
  | TypeArrow m a => HArrow m a (match a with Some (ps, r) => conj (all ps) (type_induction r) | None => I end)
  | TypeUnion m u => HUnion m u (match u with Some (vs, n) => all vs | None => I end)
  | TypeOther m k => HOther m k
  end.
End TypeInd.

(** ** What a valid bundle is *)

(** A known primitive; a media primitive has a known subtype. *)
Definition goodPrimitive (p : PrimitiveKind) : Prop :=
  match p with PrimitiveOther _ | PrimitiveMedia (MediaOther _) => False | _ => True end.

Inductive goodLiteral : LiteralValue -> Prop :=
  | good_string s : goodLiteral (LiteralString s)
  | good_int n : goodLiteral (LiteralInt n)
  | good_bool x : goodLiteral (LiteralBool x).

(** A union of string literals, nested unions included, none of them nullable. *)
Inductive literalUnion : type -> Prop :=
  | literal_union m vs : vs <> [] -> Forall literalKey vs -> literalUnion (TypeUnion m (Some (vs, false)))
with literalKey : type -> Prop :=
  | literal_key m s : literalKey (TypeLiteral m (Some (LiteralString s)))
  | literal_nested t : literalUnion t -> literalKey t.

Inductive goodKey : type -> Prop :=
  | key_string m : goodKey (TypePrimitive m PrimitiveString)
  | key_enum m n : goodKey (TypeEnum m n)
  | key_literal m s : goodKey (TypeLiteral m (Some (LiteralString s)))
  | key_union t : literalUnion t -> goodKey t.

Definition goodMode (mode : StreamingMode) : Prop := mode = NonStreaming \/ mode = Streaming.

(** Every reference names a definition, keys are admissible and null occurs only
    as the flag of a union.  The definitions are given by their names. *)
Section Typing.
Variables (enums : list string) (classes : list ClassKey) (aliases : list string).

Inductive wellTyped : type -> Prop :=
  | typed_top m : wellTyped (TypeTop m)
  | typed_primitive m p : goodPrimitive p -> wellTyped (TypePrimitive m p)
  | typed_enum m n : n ∈ enums -> wellTyped (TypeEnum m n)
  | typed_literal m l : goodLiteral l -> wellTyped (TypeLiteral m (Some l))
  | typed_class m n mode : (n, mode) ∈ classes -> goodMode mode -> wellTyped (TypeClass m n mode)
  | typed_list m t : wellTyped t -> wellTyped (TypeList m (Some t))
  | typed_map m k v : goodKey k -> wellTyped k -> wellTyped v -> wellTyped (TypeMap m (Some k) (Some v))
  | typed_alias m n mode : n ∈ aliases -> goodMode mode -> wellTyped (TypeRecursiveAlias m n mode)
  | typed_tuple m ts : Forall wellTyped ts -> wellTyped (TypeTuple m ts)
  | typed_arrow m ps r : Forall wellTyped ps -> wellTyped r -> wellTyped (TypeArrow m (Some (ps, r)))
  | typed_union m vs nullable : vs <> [] \/ nullable = true ->
      Forall (fun v => isNullPrimitive v = false) vs -> Forall wellTyped vs ->
      wellTyped (TypeUnion m (Some (vs, nullable))).
End Typing.

(** Names are unique, canonical and rendered ones. *)
Definition namesUnique (ns : list Name) : Prop := NoDup (nm_Name <$> ns) /\ NoDup (RenderedName <$> ns).

Definition enumName (e : EnumDef) : string := nm_Name (ed_Name e).
Definition typedIn (b : Bundle) : type -> Prop :=
  wellTyped (enumName <$> Enums b) (classKey <$> Classes b) (ra_Name <$> StructuralRecursiveAliases b).

Record validBundle (b : Bundle) : Prop := {
  valid_enums : NoDup (enumName <$> Enums b);
  valid_values : Forall (fun e => namesUnique (ev_Name <$> ed_Values e)) (Enums b);
  valid_classes : NoDup (classKey <$> Classes b);
  valid_modes : Forall (fun c => goodMode (cd_Mode c)) (Classes b);
  valid_fields : Forall (fun c => namesUnique (cf_Name <$> cd_Fields c)) (Classes b);
  valid_aliases : NoDup (ra_Name <$> StructuralRecursiveAliases b);
  valid_target : typedIn b (Target b);
  valid_field_types : Forall (fun c => Forall (fun f => typedIn b (cf_Type f)) (cd_Fields c)) (Classes b);
  valid_alias_types : Forall (fun a => typedIn b (ra_Target a)) (StructuralRecursiveAliases b);
  valid_recursive : Forall (fun name => exists mode, (name, mode) ∈ classKey <$> Classes b) (RecursiveClasses b)
}.

(** ** The indexes *)

Section Index.
Context {K : Type} `{Countable K}.

(** The positions of keys, counted from [i], over a map. *)
Fixpoint indexed (i : nat) (ks : list K) (m : gmap K nat) : gmap K nat :=
  match ks with [] => m | k :: ks => indexed (S i) ks (<[k := i]> m) end.

Definition fresh (ks : list K) (m : gmap K nat) : Prop := NoDup ks /\ Forall (fun k => m !! k = None) ks.

Lemma fresh_nil m : fresh [] m.
Proof. split; constructor. Qed.

Lemma fresh_cons k ks m i : fresh (k :: ks) m <-> m !! k = None /\ fresh ks (<[k := i]> m).
Proof.
  unfold fresh. rewrite NoDup_cons, Forall_cons. split.
  - intros [[Hk Hn] [Hm Hf]]. split_and!; [done|done|]. rewrite Forall_forall in *. intros x Hx.
    rewrite lookup_insert_ne; [by apply Hf|]. by intros ->.
  - intros [Hm [Hn Hf]]. rewrite Forall_forall in *. split_and!; [|done|done|].
    + intros Hk. specialize (Hf _ Hk). by rewrite lookup_insert_eq in Hf.
    + intros x Hx. specialize (Hf _ Hx). destruct (decide (k = x)) as [->|Hne]; [done|].
      by rewrite lookup_insert_ne in Hf.
Qed.

Lemma indexed_lookup ks : forall i m k j, fresh ks m ->
  indexed i ks m !! k = Some j <-> m !! k = Some j \/ exists n, ks !! n = Some k /\ j = (i + n)%nat.
Proof.
  induction ks as [|x ks IH]; intros i m k j Hf; simpl.
  { split; [by left|intros [?|(?&?&_)]; [done|by rewrite lookup_nil in *]]. }
  pose proof Hf as Hf'. apply (fresh_cons x ks m i) in Hf as [Hx Hf]. rewrite IH by done. destruct (decide (x = k)) as [->|Hne].
  - rewrite lookup_insert_eq. split.
    + intros [[= <-]|(n&Hn&->)]; right; [exists 0%nat; split; [done|lia]|exists (S n); split; [done|lia]].
    + intros [Hm|([|n]&Hn&->)]; [congruence|left; f_equal; lia|right; exists n; split; [done|lia]].
  - rewrite lookup_insert_ne by done. split.
    + intros [?|(n&Hn&->)]; [by left|]. right. exists (S n). split; [done|lia].
    + intros [?|([|n]&Hn&->)]; [by left|by injection Hn as ->|]. right. exists n. split; [done|lia].
Qed.

(** Looking a key up in the index of a list finds the element with that key. *)
Lemma indexed_find {A} (f : A -> K) (xs : list A) k x :
  NoDup (f <$> xs) -> (i ← indexed 0 (f <$> xs) ∅ !! k; xs !! i) = Some x <-> x ∈ xs /\ f x = k.
Proof.
  intros Hn. assert (fresh (f <$> xs) ∅) as Hf by (split; [done|by apply Forall_true]). split.
  - intros (i&Hi&Hx)%bind_Some. apply indexed_lookup in Hi as [Hi|(n&Hk&->)]; [done| |done].
    rewrite list_lookup_fmap in Hk. simpl in Hx. rewrite Hx in Hk. injection Hk as <-.
    split; [by eapply list_elem_of_lookup_2|done].
  - intros [[i Hi]%list_elem_of_lookup_1 <-]. apply bind_Some. exists i. split; [|done].
    apply indexed_lookup; [done|]. right. exists i. by rewrite list_lookup_fmap, Hi.
Qed.
End Index.

Lemma indexNames_spec def ns : forall i m r,
  match indexNames def i ns m r with
  | inl (m', r') => fresh (nm_Name <$> ns) m /\ fresh (RenderedName <$> ns) r
                    /\ m' = indexed i (nm_Name <$> ns) m /\ r' = indexed i (RenderedName <$> ns) r
  | inr _ => ~ (fresh (nm_Name <$> ns) m /\ fresh (RenderedName <$> ns) r)
  end.
Proof.
  induction ns as [|n ns IH]; intros i m r; cbn [indexNames]; [split_and!; (apply fresh_nil || done)|].
  pose proof (fresh_cons (nm_Name n) (nm_Name <$> ns) m i) as Fm.
  pose proof (fresh_cons (RenderedName n) (RenderedName <$> ns) r i) as Fr. rewrite !fmap_cons.
  case_bool_decide as Hm. { intros [[Hn _]%Fm _]. rewrite Hn in Hm. by destruct Hm. }
  case_bool_decide as Hr. { intros [_ [Hn _]%Fr]. rewrite Hn in Hr. by destruct Hr. }
  apply eq_None_not_Some in Hm, Hr. specialize (IH (S i) (<[nm_Name n:=i]> m) (<[RenderedName n:=i]> r)).
  destruct (indexNames def (S i) ns _ _) as [[]|]; cbn [indexed]; tauto.
Qed.

(** The indexes of one definition, and the definition with them. *)
Definition nameIndex (ns : list Name) : gmap string nat := indexed 0 (nm_Name <$> ns) ∅.
Definition renderedIndex (ns : list Name) : gmap string nat := indexed 0 (RenderedName <$> ns) ∅.
Definition indexEnum (e : EnumDef) : EnumDef :=
  setEnumIndex e (nameIndex (ev_Name <$> ed_Values e)) (renderedIndex (ev_Name <$> ed_Values e)).
Definition indexClass (c : ClassDef) : ClassDef :=
  setClassIndex c (nameIndex (cf_Name <$> cd_Fields c)) (renderedIndex (cf_Name <$> cd_Fields c)).
Definition clearEnum (e : EnumDef) : EnumDef := setEnumIndex e ∅ ∅.
Definition clearClass (c : ClassDef) : ClassDef := setClassIndex c ∅ ∅.

Lemma fresh_empty {K} `{Countable K} (ks : list K) : fresh ks ∅ <-> NoDup ks.
Proof. unfold fresh. split; [by intros [? _]|]. split; [done|by apply Forall_true]. Qed.

Lemma rebuildEnum_spec e :
  match rebuildEnum (clearEnum e) with
  | (e', None) => namesUnique (ev_Name <$> ed_Values e) /\ e' = indexEnum e
  | (e', Some _) => ~ namesUnique (ev_Name <$> ed_Values e) /\ e' = clearEnum e
  end.
Proof.
  unfold rebuildEnum, namesUnique, clearEnum, indexEnum. cbn [setEnumIndex ed_Values ed_Name].
  pose proof (indexNames_spec (nm_Name (ed_Name e)) (ev_Name <$> ed_Values e) 0 ∅ ∅) as H.
  destruct (indexNames _ _ _ _ _) as [[m r]|err]; rewrite !fresh_empty in H; [|by split].
  by destruct H as (?&?&->&->).
Qed.

Lemma rebuildClass_spec c :
  match rebuildClass (clearClass c) with
  | (c', None) => namesUnique (cf_Name <$> cd_Fields c) /\ c' = indexClass c
  | (c', Some _) => ~ namesUnique (cf_Name <$> cd_Fields c) /\ c' = clearClass c
  end.
Proof.
  unfold rebuildClass, namesUnique, clearClass, indexClass. cbn [setClassIndex cd_Fields cd_Name].
  pose proof (indexNames_spec (nm_Name (cd_Name c)) (cf_Name <$> cd_Fields c) 0 ∅ ∅) as H.
  destruct (indexNames _ _ _ _ _) as [[m r]|err]; rewrite !fresh_empty in H; [|by split].
  by destruct H as (?&?&->&->).
Qed.

(** What a loop leaves when it fails: rebuilt definitions, then cleared ones. *)
Definition partly {A} (done clear : A -> A) (xs ys : list A) : Prop :=
  Forall2 (fun x y => y = done x \/ y = clear x) xs ys.

Lemma partly_clear {A} (f g : A -> A) xs : partly f g xs (g <$> xs).
Proof. induction xs; constructor; auto. Qed.

Lemma rebuildEnums_spec es : forall i m,
  match rebuildEnums i (clearEnum <$> es) m with
  | (es', inl m') => fresh (enumName <$> es) m /\ Forall (fun e => namesUnique (ev_Name <$> ed_Values e)) es
                     /\ es' = indexEnum <$> es /\ m' = indexed i (enumName <$> es) m
  | (es', inr _) => ~ (fresh (enumName <$> es) m /\ Forall (fun e => namesUnique (ev_Name <$> ed_Values e)) es)
                    /\ partly indexEnum clearEnum es es'
  end.
Proof.
  induction es as [|e es IH]; intros i m; cbn [fmap list_fmap rebuildEnums].
  { split_and!; (apply fresh_nil || constructor || done). }
  pose proof (fresh_cons (enumName e) (enumName <$> es) m i) as F. change (nm_Name (ed_Name (clearEnum e))) with (enumName e).
  case_bool_decide as Hm.
  { split; [|constructor; [by right|apply partly_clear]]. intros [[Hn _]%F _]. rewrite Hn in Hm. by destruct Hm. }
  apply eq_None_not_Some in Hm. pose proof (rebuildEnum_spec e) as He.
  destruct (rebuildEnum (clearEnum e)) as [e' [err|]]; destruct He as [He ->].
  { split; [|constructor; [by right|apply partly_clear]]. intros [_ Hf]. by inversion Hf. }
  specialize (IH (S i) (<[enumName e := i]> m)). destruct (rebuildEnums (S i) _ _) as [es' [m'|]].
  - destruct IH as (H1&H2&->&->). split_and!; [apply F; by split|by constructor|done|done].
  - destruct IH as [Hn Hp]. split; [|constructor; [by left|done]]. intros [[_ Hf]%F Hu]. inversion Hu; subst. tauto.
Qed.

Lemma validateStreamingMode_spec mode : validateStreamingMode mode = None <-> goodMode mode.
Proof.
  unfold validateStreamingMode, goodMode. rewrite <- !String.eqb_eq. destruct (mode =s NonStreaming), (mode =s Streaming);
    simpl; split; intros; try done; auto. by destruct H.
Qed.

Lemma rebuildClasses_spec cs : forall i m,
  match rebuildClasses i (clearClass <$> cs) m with
  | (cs', inl m') => fresh (classKey <$> cs) m /\ Forall (fun c => goodMode (cd_Mode c)) cs
                     /\ Forall (fun c => namesUnique (cf_Name <$> cd_Fields c)) cs
                     /\ cs' = indexClass <$> cs /\ m' = indexed i (classKey <$> cs) m
  | (cs', inr _) => ~ (fresh (classKey <$> cs) m /\ Forall (fun c => goodMode (cd_Mode c)) cs
                       /\ Forall (fun c => namesUnique (cf_Name <$> cd_Fields c)) cs)
                    /\ partly indexClass clearClass cs cs'
  end.
Proof.
  induction cs as [|c cs IH]; intros i m; cbn [fmap list_fmap rebuildClasses].
  { split_and!; (apply fresh_nil || constructor || done). }
  pose proof (fresh_cons (classKey c) (classKey <$> cs) m i) as F. change (classKey (clearClass c)) with (classKey c).
  change (cd_Mode (clearClass c)) with (cd_Mode c). pose proof (validateStreamingMode_spec (cd_Mode c)) as Hv.
  destruct (validateStreamingMode (cd_Mode c)).
  { split; [|constructor; [by right|apply partly_clear]]. intros (_&Hf&_). inversion Hf as [|?? Hg]; subst. by apply Hv in Hg. }
  destruct Hv as [Hv _]. specialize (Hv eq_refl). case_bool_decide as Hm.
  { split; [|constructor; [by right|apply partly_clear]]. intros [[Hn _]%F _]. rewrite Hn in Hm. by destruct Hm. }
  apply eq_None_not_Some in Hm. pose proof (rebuildClass_spec c) as Hc.
  destruct (rebuildClass (clearClass c)) as [c' [err|]]; destruct Hc as [Hc ->].
  { split; [|constructor; [by right|apply partly_clear]]. intros (_&_&Hf). by inversion Hf. }
  specialize (IH (S i) (<[classKey c := i]> m)). destruct (rebuildClasses (S i) _ _) as [cs' [m'|]].
  - destruct IH as (H1&H2&H3&->&->). split_and!; [apply F; by split|by constructor|by constructor|done|done].
  - destruct IH as [Hn Hp]. split; [|constructor; [by left|done]].
    intros ([_ Hf]%F&Hg&Hu). inversion Hg; inversion Hu; subst. tauto.
Qed.

Lemma rebuildAliases_spec ras : forall i m,
  match rebuildAliases i ras m with
  | inl m' => fresh (ra_Name <$> ras) m /\ m' = indexed i (ra_Name <$> ras) m
  | inr _ => ~ fresh (ra_Name <$> ras) m
  end.
Proof.
  induction ras as [|a ras IH]; intros i m; cbn [rebuildAliases]; [by split; [apply fresh_nil|]|].
  pose proof (fresh_cons (ra_Name a) (ra_Name <$> ras) m i) as F. rewrite fmap_cons. case_bool_decide as Hm.
  { intros [Hn _]%F. rewrite Hn in Hm. by destruct Hm. }
  apply eq_None_not_Some in Hm. specialize (IH (S i) (<[ra_Name a:=i]> m)).
  destruct (rebuildAliases (S i) ras _); [destruct IH as [? ->]; split; [by apply F|done]|]. by intros [_ ?]%F.
Qed.

(** The names are unique and the modes known. *)
Record uniqueNames (b : Bundle) : Prop := {
  unique_enums : NoDup (enumName <$> Enums b);
  unique_values : Forall (fun e => namesUnique (ev_Name <$> ed_Values e)) (Enums b);
  unique_classes : NoDup (classKey <$> Classes b);
  unique_modes : Forall (fun c => goodMode (cd_Mode c)) (Classes b);
  unique_fields : Forall (fun c => namesUnique (cf_Name <$> cd_Fields c)) (Classes b);
  unique_aliases : NoDup (ra_Name <$> StructuralRecursiveAliases b)
}.

Definition indexedBundle (b : Bundle) : Bundle :=
  setIndexes b (indexEnum <$> Enums b) (indexClass <$> Classes b)
    (indexed 0 (enumName <$> Enums b) ∅) (indexed 0 (classKey <$> Classes b) ∅)
    (indexed 0 (ra_Name <$> StructuralRecursiveAliases b) ∅).

Lemma RebuildIndexes_spec b :
  match RebuildIndexes b with
  | (b', None) => uniqueNames b /\ b' = indexedBundle b
  | (b', Some _) => ~ uniqueNames b /\ exists es cs,
      b' = setIndexes b es cs ∅ ∅ ∅ /\ partly indexEnum clearEnum (Enums b) es /\ partly indexClass clearClass (Classes b) cs
  end.
Proof.
  unfold RebuildIndexes. change (fun e => setEnumIndex e ∅ ∅) with clearEnum. change (fun c => setClassIndex c ∅ ∅) with clearClass.
  pose proof (rebuildEnums_spec (Enums b) 0 ∅) as He. destruct (rebuildEnums 0 _ ∅) as [es [me|]].
  2: { destruct He as [He Hp]. split; [intros []; apply He; by rewrite fresh_empty|].
       eexists _, _. split_and!; [done|done|apply partly_clear]. }
  destruct He as (E1&E2&->&->). rewrite fresh_empty in E1.
  pose proof (rebuildClasses_spec (Classes b) 0 ∅) as Hc. destruct (rebuildClasses 0 _ ∅) as [cs [mc|]].
  2: { destruct Hc as [Hc Hp]. split; [intros []; apply Hc; by rewrite fresh_empty|].
       eexists _, _. split_and!; [done| |done]. clear. unfold partly. induction (Enums b); constructor; auto. }
  destruct Hc as (C1&C2&C3&->&->). rewrite fresh_empty in C1.
  pose proof (rebuildAliases_spec (StructuralRecursiveAliases b) 0 ∅) as Ha.
  destruct (rebuildAliases _ _ _) as [ma|]; rewrite fresh_empty in Ha.
  - destruct Ha as [Ha ->]. by split; [constructor|].
  - split; [by intros []|]. eexists _, _. split_and!; [done| |].
    + clear. unfold partly. induction (Enums b); constructor; auto.
    + clear. unfold partly. induction (Classes b); constructor; auto.
Qed.

(** Whatever happens to the indexes, a field or value they give has the name that
    was asked for, and complete indexes give every one. *)
Lemma indexClass_exact c rendered f : namesUnique (cf_Name <$> cd_Fields c) ->
  FieldByRenderedName (indexClass c) rendered = Some f <-> f ∈ cd_Fields c /\ RenderedName (cf_Name f) = rendered.
Proof.
  intros [_ Hn]. rewrite <- list_fmap_compose in Hn.
  unfold FieldByRenderedName, indexClass. cbn [setClassIndex cd_fieldByRenderedName cd_Fields].
  unfold renderedIndex. rewrite <- list_fmap_compose. exact (indexed_find (RenderedName ∘ cf_Name) (cd_Fields c) rendered f Hn).
Qed.
Lemma indexEnum_exact e rendered v : namesUnique (ev_Name <$> ed_Values e) ->
  ValueByRenderedName (indexEnum e) rendered = Some v <-> v ∈ ed_Values e /\ RenderedName (ev_Name v) = rendered.
Proof.
  intros [_ Hn]. rewrite <- list_fmap_compose in Hn.
  unfold ValueByRenderedName, indexEnum. cbn [setEnumIndex ed_valueByRenderedName ed_Values].
  unfold renderedIndex. rewrite <- list_fmap_compose. exact (indexed_find (RenderedName ∘ ev_Name) (ed_Values e) rendered v Hn).
Qed.

Lemma indexed_find_in {K} `{Countable K} {A} (f : A -> K) (g : A -> A) (xs : list A) k x :
  (forall x, f (g x) = f x) -> NoDup (f <$> xs) ->
  (i ← indexed 0 (f <$> xs) ∅ !! k; (g <$> xs) !! i) = Some x <-> None = @None SchemaErr /\ x ∈ g <$> xs /\ f x = k.
Proof.
  intros Hg Hn. assert (f <$> xs = f <$> (g <$> xs)) as Hs.
  { rewrite <- list_fmap_compose. apply list_fmap_ext. intros i y _. symmetry. apply Hg. }
  rewrite Hs in *. rewrite indexed_find by done. tauto.
Qed.

(** The indexes are the slices or nothing.  [RebuildIndexes] succeeds exactly
    when all names are unique and all modes known; then a name or key finds
    exactly the definition that has it, and a rendered field name exactly its
    field.  When it fails, no enum, class or alias can be found at all. *)
Theorem rebuild_fail_closed b b' err : RebuildIndexes b = (b', err) ->
  (err = None <-> uniqueNames b)
  /\ (forall name e, FindEnum b' name = Some e <-> err = None /\ e ∈ Enums b' /\ enumName e = name)
  /\ (forall name mode c, FindClass b' name mode = Some c <-> err = None /\ c ∈ Classes b' /\ classKey c = (name, mode))
  /\ (forall name a, FindRecursiveAlias b' name = Some a
        <-> err = None /\ a ∈ StructuralRecursiveAliases b' /\ ra_Name a = name)
  /\ (err = None -> forall c rendered f, c ∈ Classes b' ->
        FieldByRenderedName c rendered = Some f <-> f ∈ cd_Fields c /\ RenderedName (cf_Name f) = rendered)
  /\ (err = None -> forall e rendered v, e ∈ Enums b' ->
        ValueByRenderedName e rendered = Some v <-> v ∈ ed_Values e /\ RenderedName (ev_Name v) = rendered).
Proof.
  intros E. pose proof (RebuildIndexes_spec b) as H. rewrite E in H. destruct err as [err|].
  { destruct H as (Hu&es&cs&->&_). split_and!; try done; intros; (split; [|by intros []]); done. }
  destruct H as ([Ue Uv Uc Um Uf Ua]&->). cbn [indexedBundle setIndexes Enums Classes StructuralRecursiveAliases].
  split_and!; [by split| | | | |].
  - intros name e. exact (indexed_find_in enumName indexEnum _ name e (fun _ => eq_refl) Ue).
  - intros name mode c. exact (indexed_find_in classKey indexClass _ (name, mode) c (fun _ => eq_refl) Uc).
  - intros name a. pose proof (indexed_find_in ra_Name id _ name a (fun _ => eq_refl) Ua) as H.
    by rewrite list_fmap_id in H.
  - intros _ c rendered f Hc. apply list_elem_of_fmap in Hc as (c0&->&Hc). exact (indexClass_exact c0 rendered f (proj1 (Forall_forall _ _) Uf _ Hc)).
  - intros _ e rendered v He. apply list_elem_of_fmap in He as (e0&->&He). exact (indexEnum_exact e0 rendered v (proj1 (Forall_forall _ _) Uv _ He)).
Qed.

(** ** Validation is well-typedness *)

Lemma firstErr_none {A E} (f : A -> option E) xs : firstErr f xs = None <-> Forall (fun x => f x = None) xs.
Proof.
  induction xs as [|x xs IH]; simpl; [by split|]. rewrite Forall_cons, <- IH. destruct (f x); naive_solver.
Qed.
Lemma thenErr_none {E} (a c : option E) : (a ;err c) = None <-> a = None /\ c = None.
Proof. destruct a; naive_solver. Qed.

Lemma forallb_Forall {A} (f : A -> bool) xs : forallb f xs = true <-> Forall (fun x => f x = true) xs.
Proof. induction xs as [|x xs IH]; simpl; [by split|]. by rewrite andb_true_iff, Forall_cons, IH. Qed.

Lemma isStringLiteralUnion_spec t : isStringLiteralUnion t = true <-> literalUnion t.
Proof.
  induction t as [| | | | | | | | | |m u IH|] using type_induction; try (split; [done|by inversion 1]).
  destruct u as [[vs nullable]|]; [|split; [done|by inversion 1]]. cbn [isStringLiteralUnion optP fst] in *.
  rewrite !andb_true_iff, !negb_true_iff, bool_decide_eq_false, forallb_Forall.
  assert (Forall (fun v => match v with
             | TypeLiteral _ (Some (LiteralString _)) => true
             | TypeUnion _ _ => isStringLiteralUnion v
             | _ => false end = true) vs <-> Forall literalKey vs) as ->.
  { clear m nullable. induction IH as [|v vs Hv _ IHvs]; [by split|]. rewrite !Forall_cons, IHvs.
    assert (forall P Q R : Prop, (P <-> Q) -> P /\ R <-> Q /\ R) as Hcong by tauto. apply Hcong. clear Hcong IHvs. split.
    - destruct v as [| | |? [[]|]| | | | | | | |]; try done; [constructor|]. intros Hu. constructor. by apply Hv.
    - intros Hk. destruct Hk as [|v Hu]; [done|]. pose proof Hu as Hu'. apply Hv in Hu'. by destruct Hu. }
  split; [intros [[-> ?] ?]; by constructor|]. by inversion 1.
Qed.

Lemma isValidMapKey_spec t : isValidMapKey t = true <-> goodKey t.
Proof.
  split.
  - destruct t as [|? []| |? [[]|]| | | | | | |? ?|]; try done; try (intros _; (apply key_string || apply key_enum || apply key_literal)).
    intros Hk. apply key_union. by apply isStringLiteralUnion_spec.
  - intros Hk. destruct Hk as [| | |t Hu]; try done. pose proof Hu as Hu'. apply isStringLiteralUnion_spec in Hu'.
    by destruct Hu.
Qed.

(** The references a bundle resolves are those of its names. *)
Definition resolves (b : Bundle) (es : list string) (cs : list ClassKey) (ras : list string) : Prop :=
  (forall n, is_Some (FindEnum b n) <-> n ∈ es)
  /\ (forall n mode, is_Some (FindClass b n mode) <-> (n, mode) ∈ cs)
  /\ (forall n, is_Some (FindRecursiveAlias b n) <-> n ∈ ras).

Lemma resolved_spec (P : Prop) (err : SchemaErr) `{Decision P} : (if bool_decide P then None else Some err) = None <-> P.
Proof. case_bool_decide; naive_solver. Qed.

Lemma validateType_spec b es cs ras t : resolves b es cs ras ->
  validateType b t = None <-> wellTyped es cs ras t.
Proof.
  intros (He&Hc&Ha). induction t as [m|m p|m n|m l|m n mode|m e IH|m k v IHk IHv|m n mode|m ts IH|m a IH|m u IH|m k]
    using type_induction; cbn [validateType].
  - split; [constructor|done].
  - split; [|inversion 1 as [|? ? Hp| | | | | | | | |]; subst]; destruct p as [| | | | |[]|]; try done; intros _; by constructor.
  - rewrite resolved_spec, He. split; [by constructor|by inversion 1].
  - destruct l as [[]|]; (split; [done || (intros; repeat constructor)|]); inversion 1 as [| | |? ? Hl| | | | | | |]; subst; try done; inversion Hl.
  - rewrite thenErr_none, validateStreamingMode_spec, resolved_spec, Hc. split; [intros []; by constructor|by inversion 1].
  - destruct e as [e|]; [|split; [done|by inversion 1]]. cbn [optP] in IH. rewrite IH. split; [by constructor|by inversion 1].
  - destruct k as [k|]; [|split; [done|by inversion 1]]. destruct v as [v|]; [|split; [done|by inversion 1]].
    cbn [optP] in *. pose proof (isValidMapKey_spec k) as Hk. destruct (isValidMapKey k).
    + rewrite thenErr_none, IHk, IHv. split; [intros []; constructor; tauto|by inversion 1].
    + split; [done|]. intros Ht. inversion Ht as [| | | | | |? ? ? Hg| | | |]; subst. by apply Hk in Hg.
  - rewrite thenErr_none, validateStreamingMode_spec, resolved_spec, Ha. split; [intros []; by constructor|by inversion 1].
  - rewrite firstErr_none. transitivity (Forall (wellTyped es cs ras) ts); [|split; [by constructor|by inversion 1]].
    clear m. induction IH; [by split|]. by rewrite !Forall_cons, IHIH, H.
  - destruct a as [[ps r]|]; [|split; [done|by inversion 1]]. destruct IH as [IHp IHr]. cbn [fst snd] in *.
    rewrite thenErr_none, firstErr_none, IHr.
    transitivity (Forall (wellTyped es cs ras) ps /\ wellTyped es cs ras r); [|split; [intros []; by constructor|by inversion 1]].
    apply and_iff_compat_r. clear m r IHr. induction IHp; [by split|]. by rewrite !Forall_cons, IHIHp, H.
  - destruct u as [[vs nullable]|]; [|split; [done|by inversion 1]]. cbn [optP fst] in IH.
    destruct (bool_decide (vs = []) && negb nullable) eqn:Eu.
    { split; [done|]. inversion 1; subst. destruct nullable; simpl in Eu; [by rewrite andb_false_r in Eu|].
      rewrite andb_true_r in Eu. apply bool_decide_eq_true in Eu. naive_solver. }
    rewrite firstErr_none.
    transitivity (Forall (fun v => isNullPrimitive v = false) vs /\ Forall (wellTyped es cs ras) vs).
    + clear Eu m. induction IH as [|v vs Hv _ IHvs]; [by repeat split|]. rewrite !Forall_cons, IHvs.
      destruct (isNullPrimitive v); [naive_solver|]. rewrite Hv. tauto.
    + split; [|by inversion 1]. intros []. constructor; [|done|done]. apply andb_false_iff in Eu as [Eu|Eu].
      * left. by apply bool_decide_eq_false in Eu.
      * right. by apply negb_false_iff in Eu.
  - split; [done|by inversion 1].
Qed.

(** The types nested in a type, itself included; named references are leaves. *)
Inductive within : type -> type -> Prop :=
  | within_refl t : within t t
  | within_list n m t : within n t -> within n (TypeList m (Some t))
  | within_key n m k v : within n k -> within n (TypeMap m (Some k) v)
  | within_value n m k v : within n v -> within n (TypeMap m k (Some v))
  | within_union n m vs nullable v : v ∈ vs -> within n v -> within n (TypeUnion m (Some (vs, nullable)))
  | within_tuple n m ts t : t ∈ ts -> within n t -> within n (TypeTuple m ts)
  | within_param n m ps r t : t ∈ ps -> within n t -> within n (TypeArrow m (Some (ps, r)))
  | within_return n m ps r : within n r -> within n (TypeArrow m (Some (ps, r))).

Definition outputOnly (t : type) : Prop := forall n, within n t -> outputNode n = None.

Lemma walk_all (fn : type -> option SchemaErr) ts :
  Forall (fun t => walkType fn t = None <-> forall n, within n t -> fn n = None) ts ->
  Forall (fun t => walkType fn t = None) ts <-> forall t, t ∈ ts -> forall n, within n t -> fn n = None.
Proof. intros IH. rewrite !Forall_forall in *. split; intros H t Ht; [by apply IH, H|by apply IH, H]. Qed.

Lemma walkType_spec fn t : walkType fn t = None <-> forall n, within n t -> fn n = None.
Proof.
  induction t as [m|m p|m n|m l|m n mode|m e IH|m k v IHk IHv|m n mode|m ts IH|m a IH|m u IH|m k]
    using type_induction; cbn [walkType]; rewrite thenErr_none;
    try (split; [intros [H _] n' Hw; by inversion Hw; subst|intros H; split; [apply H; constructor|done]]).
  - destruct e as [e|]; cbn [optP] in IH.
    + rewrite IH. split; [intros [H1 H2] n Hw; inversion Hw; subst; auto|]. intros H. split; [apply H; constructor|].
      intros n Hw. by apply H, within_list.
    + split; [intros [H _] n Hw; by inversion Hw; subst|intros H; split; [apply H; constructor|done]].
  - rewrite thenErr_none. destruct k as [k|], v as [v|]; cbn [optP] in *; rewrite ?IHk, ?IHv;
      (split; [intros (H1&H2&H3) n Hw; inversion Hw; subst; auto|intros H; split_and!; try done;
        [apply H; constructor|intros n Hw; apply H; eauto using within..]]).
  - rewrite firstErr_none, walk_all by done. split.
    + intros [H1 H2] n Hw. inversion Hw; subst; eauto.
    + intros H. split; [apply H; constructor|]. intros t Ht n Hw. eapply H, within_tuple; eauto.
  - destruct a as [[ps r]|]; cbn [optP fst snd] in IH.
    + destruct IH as [IHp IHr]. rewrite thenErr_none, firstErr_none, walk_all, IHr by done. split.
      * intros (H1&H2&H3) n Hw. inversion Hw; subst; eauto.
      * intros H. split_and!; [apply H; constructor| |].
        -- intros t Ht n Hw. eapply H, within_param; eauto.
        -- intros n Hw. by apply H, within_return.
    + split; [intros [H _] n Hw; by inversion Hw; subst|intros H; split; [apply H; constructor|done]].
  - destruct u as [[vs nullable]|]; cbn [optP fst] in IH.
    + rewrite firstErr_none, walk_all by done. split.
      * intros [H1 H2] n Hw. inversion Hw; subst; eauto.
      * intros H. split; [apply H; constructor|]. intros t Ht n Hw. eapply H, within_union; eauto.
    + split; [intros [H _] n Hw; by inversion Hw; subst|intros H; split; [apply H; constructor|done]].
Qed.

(** The types a bundle owns. *)
Definition rootTypes (b : Bundle) (P : type -> Prop) : Prop :=
  P (Target b) /\ Forall (fun c => Forall (fun f => P (cf_Type f)) (cd_Fields c)) (Classes b)
  /\ Forall (fun a => P (ra_Target a)) (StructuralRecursiveAliases b).

Lemma Forall_equiv {A} (P Q : A -> Prop) xs : (forall x, P x <-> Q x) -> Forall P xs <-> Forall Q xs.
Proof. intros H. split; intros HF; (eapply Forall_impl; [exact HF|]); intros; by apply H. Qed.

Lemma eachRootType_spec b fn (P : type -> Prop) : (forall t, fn t = None <-> P t) ->
  eachRootType b fn = None <-> rootTypes b P.
Proof.
  intros H. unfold eachRootType, rootTypes. rewrite !thenErr_none, !firstErr_none, H.
  apply and_iff_compat_l. apply Morphisms_Prop.and_iff_morphism; apply Forall_equiv; intros x; [|apply H].
  rewrite firstErr_none. apply Forall_equiv. intros f. apply H.
Qed.

Lemma rootTypes_indexed b P : rootTypes (indexedBundle b) P <-> rootTypes b P.
Proof.
  unfold rootTypes. cbn [indexedBundle setIndexes Target Classes StructuralRecursiveAliases]. by rewrite Forall_fmap.
Qed.

Lemma indexed_resolves b : uniqueNames b ->
  resolves (indexedBundle b) (enumName <$> Enums b) (classKey <$> Classes b) (ra_Name <$> StructuralRecursiveAliases b).
Proof.
  intros [Ue _ Uc _ _ Ua]. split_and!.
  - intros n. rewrite list_elem_of_fmap. split.
    + intros [e He]. apply (indexed_find_in enumName indexEnum _ _ _ (fun _ => eq_refl) Ue) in He as (_&He&<-).
      apply list_elem_of_fmap in He as (e0&->&He). by exists e0.
    + intros (e&->&He). exists (indexEnum e). apply (indexed_find_in enumName indexEnum _ _ _ (fun _ => eq_refl) Ue).
      split_and!; [done| |done]. by apply list_elem_of_fmap_2.
  - intros n mode. rewrite list_elem_of_fmap. split.
    + intros [c Hc]. apply (indexed_find_in classKey indexClass _ (n, mode) _ (fun _ => eq_refl) Uc) in Hc as (_&Hc&Hk).
      apply list_elem_of_fmap in Hc as (c0&->&Hc). by exists c0.
    + intros (c&Hk&Hc). exists (indexClass c). apply (indexed_find_in classKey indexClass _ (n, mode) _ (fun _ => eq_refl) Uc).
      split_and!; [done|by apply list_elem_of_fmap_2|done].
  - intros n. rewrite list_elem_of_fmap.
    pose proof (fun a => indexed_find ra_Name _ n a Ua) as Hf. split.
    + intros [a Ha]. apply Hf in Ha as [Ha <-]. by exists a.
    + intros (a&->&Ha). exists a. by apply Hf.
Qed.

Lemma classExists_spec b name : uniqueNames b ->
  classExists (indexedBundle b) name = true <-> exists mode, (name, mode) ∈ classKey <$> Classes b.
Proof.
  intros Hu. pose proof (indexed_resolves b Hu) as (_&Hc&_). unfold classExists.
  rewrite orb_true_iff, !bool_decide_eq_true, !Hc. split; [intros []; eauto|].
  intros [mode Hm]. pose proof Hm as (c&Hk&Hin)%list_elem_of_fmap.
  assert (goodMode (cd_Mode c)) as Hg by exact (proj1 (Forall_forall _ _) (unique_modes _ Hu) _ Hin).
  unfold classKey in Hk. injection Hk as -> ->. destruct Hg as [Hg|Hg]; rewrite Hg in Hm; auto.
Qed.

Lemma Validate_accepts b : snd (Validate b) = None <-> validBundle b /\ fst (Validate b) = indexedBundle b.
Proof.
  unfold Validate. pose proof (RebuildIndexes_spec b) as H. destruct (RebuildIndexes b) as [b' [err|]].
  { split; [done|]. destruct H as [Hu _]. intros [[] _]. exfalso. by apply Hu. }
  destruct H as [Hu ->]. cbn [fst snd]. pose proof (indexed_resolves b Hu) as Hr.
  rewrite thenErr_none, (eachRootType_spec _ _ (typedIn b)) by (intros t; by apply validateType_spec).
  rewrite rootTypes_indexed, firstErr_none.
  rewrite (Forall_equiv _ (fun name => exists mode, (name, mode) ∈ classKey <$> Classes b)).
  2: { intros name. rewrite <- (classExists_spec b name Hu). by destruct (classExists _ name). }
  destruct Hu as [Ue Uv Uc Um Uf Ua]. unfold rootTypes. split.
  - intros ((H1&H2&H3)&H4). split; [by constructor|done].
  - by intros [[] _].
Qed.

Lemma Validate_valid b : snd (Validate b) = None <-> validBundle b.
Proof.
  pose proof (Validate_accepts b) as H.
  assert (validBundle b -> fst (Validate b) = indexedBundle b) as Hi; [|tauto].
  intros []. unfold Validate. pose proof (RebuildIndexes_spec b) as Hr.
  destruct (RebuildIndexes b) as [b' [err|]]; destruct Hr as [Hu Hr]; [|done]. destruct Hu. by constructor.
Qed.

Lemma ValidateOutput_valid b : snd (ValidateOutput b) = None <-> validBundle b /\ rootTypes b outputOnly.
Proof.
  pose proof (Validate_accepts b) as H. pose proof (Validate_valid b) as Hv. unfold ValidateOutput.
  destruct (Validate b) as [b' err]. cbn [fst snd] in *.
  rewrite thenErr_none, (eachRootType_spec _ _ outputOnly) by (intros t; apply walkType_spec). split.
  - intros [He Ho]. apply H in He as [Hb ->]. by rewrite rootTypes_indexed in Ho.
  - intros [Hb Ho]. apply Hv in Hb. split; [done|]. apply H in Hb as [_ ->]. by rewrite rootTypes_indexed.
Qed.

(** C31. [Validate] accepts exactly the well-formed bundles: unique canonical and
    rendered names, known modes, and every type well typed, that is, every
    reference names a definition of the bundle, map keys are admissible and null
    is a flag of unions only.  [ValidateOutput] accepts those in which no tuple,
    arrow, top or media type occurs, however deep. *)
Theorem Validate_exact b :
  (snd (Validate b) = None <-> validBundle b)
  /\ (snd (ValidateOutput b) = None <-> validBundle b /\ rootTypes b outputOnly).
Proof. split; [apply Validate_valid|apply ValidateOutput_valid]. Qed.

(** ** A concrete bundle *)

(** [class Person { name string, tags string[] @alias("labels"), next Person? }]. *)
Definition personFields : list ClassField :=
  [mkClassField (mkName "name" None) (TypePrimitive noMeta PrimitiveString) None false;
   mkClassField (mkName "tags" (Some "labels")) (TypeList noMeta (Some (TypePrimitive noMeta PrimitiveString))) None false;
   mkClassField (mkName "next" None) (TypeUnion noMeta (Some ([TypeClass noMeta "Person" NonStreaming], true))) None false].
Definition personBundle : Bundle :=
  mkBundle (TypeClass noMeta "Person" NonStreaming) []
    [mkClassDef (mkName "Person" None) None NonStreaming personFields [] (mkStreaming false false false) ∅ ∅]
    ["Person"] [] ∅ ∅ ∅.

Example personBundle_valid : snd (ValidateOutput personBundle) = None.
Proof. vm_compute. reflexivity. Qed.

Lemma rebuild_fail_closed_witness :
  exists c, FindClass (fst (RebuildIndexes personBundle)) "Person" NonStreaming = Some c /\ classKey c = ("Person", NonStreaming).
Proof.
  pose proof (rebuild_fail_closed personBundle _ None eq_refl) as (_&_&H&_).
  eexists. split; [|apply (fun c Hc => proj2 (proj2 (proj1 (H "Person" NonStreaming c) Hc)))]; reflexivity.
Defined.
