(* ===== verification/Unicode.v ===== *)
(** * Unicode: the Unicode profile of the native engine ([internal/debaml/bamlunicode])

    Case folding, compatibility decomposition and the properties the matcher
    reads.  The generated tables are the fields of a record; the searches over
    them and the algorithms are the code's.  Strings are byte strings, runes are
    code points, and an invalid byte reads as U+FFFD, as in a Go range loop. *)

From Stdlib Require Import Ascii String Sorting.Sorted.
From S2P Require Import Prelude GoStrings Jsonish.
Open Scope stdpp_scope.

(** ** Runes of a string *)

(** The code point of a valid encoding of [n] bytes at the head of the text. *)
Definition runeOf (n : nat) (s : string) : Z :=
  match n, s with
  | 2%nat, String a (String b _) => (Z.land (code a) 31 * 64 + Z.land (code b) 63)%Z
  | 3%nat, String a (String b (String c _)) =>
      ((Z.land (code a) 15 * 64 + Z.land (code b) 63) * 64 + Z.land (code c) 63)%Z
  | 4%nat, String a (String b (String c (String d _))) =>
      (((Z.land (code a) 7 * 64 + Z.land (code b) 63) * 64 + Z.land (code c) 63) * 64 + Z.land (code d) 63)%Z
  | _, String a _ => code a
  | _, EmptyString => replacementChar
  end.

(** The runes a range loop visits; [skip] bytes belong to the last one. *)
Fixpoint runesFrom (skip : nat) (s : string) : list Z :=
  match s with
  | EmptyString => []
  | String _ r =>
      match skip with
      | S skip => runesFrom skip r
      | O =>
          match utf8Len s with
          | Some n => runeOf n s :: runesFrom (Nat.pred n) r
          | None => replacementChar :: runesFrom 0 r
          end
      end
  end.
Definition runes (s : string) : list Z := runesFrom 0 s.

(** [string(runes)]. *)
Fixpoint ofRunes (rs : list Z) : string :=
  match rs with [] => EmptyString | r :: rs => encodeRune r +:+ ofRunes rs end.

(** ** Tables *)

(** [sort.Search]: the smallest index in [[0, n)] at which [f] holds, if [f] is
    monotone; the binary search of the library. *)
Fixpoint searchLoop (fuel : nat) (f : nat -> bool) (i j : nat) : nat :=
  match fuel with
  | O => i
  | S fuel =>
      if (i <? j)%nat then
        let h := ((i + j) / 2)%nat in
        if f h then searchLoop fuel f i h else searchLoop fuel f (S h) j
      else i
  end.
Definition Search (n : nat) (f : nat -> bool) : nat := searchLoop (S n) f 0 n.

(** The generated tables: [urange], [lowerEntry], [lowerFullEntry], [cccEntry]
    and the decompositions [nfkdIndex] points at. *)
Record tables := mkTables {
  alphabetic17 : list (Z * Z); numberGC17 : list (Z * Z); combiningMark16 : list (Z * Z);
  cased17 : list (Z * Z); caseIgnorable17 : list (Z * Z);
  lowerSingle : list (Z * Z); lowerFull : list (Z * list Z);
  ccc16 : list (Z * Z * N); nfkdTable : list (Z * list Z)
}.

(** [inRanges]. *)
Definition inRanges (ranges : list (Z * Z)) (r : Z) : bool :=
  let i := Search (length ranges) (fun i => match ranges !! i with Some p => (r <=? snd p)%Z | None => true end) in
  match ranges !! i with Some p => (fst p <=? r)%Z | None => false end.

(** A table keyed by its first component. *)
Definition lookupKey {A} (t : list (Z * A)) (r : Z) : option A :=
  let i := Search (length t) (fun i => match t !! i with Some p => (r <=? fst p)%Z | None => true end) in
  match t !! i with Some p => if (fst p =? r)%Z then Some (snd p) else None | None => None end.

Section Profile.
Variable T : tables.

Definition lookupLowerSingle (r : Z) : Z := default r (lookupKey (lowerSingle T) r).
Definition lookupLowerFull (r : Z) : option (list Z) := lookupKey (lowerFull T) r.
Definition lookupNFKD (r : Z) : option (list Z) := lookupKey (nfkdTable T) r.
Definition combiningClass (r : Z) : N :=
  let t := ccc16 T in
  let i := Search (length t) (fun i => match t !! i with Some (_, hi, _) => (r <=? hi)%Z | None => true end) in
  match t !! i with Some (lo, _, class) => if (lo <=? r)%Z then class else 0%N | None => 0%N end.

(** ** Properties *)

Definition IsAlphanumeric (r : Z) : bool := inRanges (alphabetic17 T) r || inRanges (numberGC17 T) r.
Definition IsCombiningMark (r : Z) : bool := inRanges (combiningMark16 T) r.
Definition isCased (r : Z) : bool := inRanges (cased17 T) r.
Definition isCaseIgnorable (r : Z) : bool := inRanges (caseIgnorable17 T) r.

(** ** Lower case *)

Definition capitalSigma : Z := 931.
Definition smallSigma : Z := 963.
Definition finalSigma : Z := 962.

(** [caseIgnorableThenCasedForward]; the reverse one reads the runes backwards. *)
Fixpoint caseIgnorableThenCased (rs : list Z) : bool :=
  match rs with
  | [] => false
  | r :: rs => if isCaseIgnorable r then caseIgnorableThenCased rs else isCased r
  end.

(** [LowerString]: [before] holds the runes already passed, last first. *)
Fixpoint lowerRunes (before rs : list Z) : list Z :=
  match rs with
  | [] => []
  | r :: rs =>
      (if (r =? capitalSigma)%Z
       then [if caseIgnorableThenCased before && negb (caseIgnorableThenCased rs) then finalSigma else smallSigma]
       else match lookupLowerFull r with Some sq => sq | None => [lookupLowerSingle r] end)
      ++ lowerRunes (r :: before) rs
  end.
Definition LowerString (s : string) : string := ofRunes (lowerRunes [] (runes s)).

(** ** Compatibility decomposition *)

Definition hangulSBase : Z := 44032.
Definition hangulLBase : Z := 4352.
Definition hangulVBase : Z := 4449.
Definition hangulTBase : Z := 4519.
Definition hangulTCount : Z := 28.
Definition hangulNCount : Z := 588.
Definition hangulSCount : Z := 11172.

(** [appendHangulDecomposition]. *)
Definition hangulDecomposition (s : Z) : list Z :=
  let sIndex := (s - hangulSBase)%Z in
  let l := (hangulLBase + sIndex / hangulNCount)%Z in
  let v := (hangulVBase + sIndex mod hangulNCount / hangulTCount)%Z in
  let t := (hangulTBase + sIndex mod hangulTCount)%Z in
  [l; v] ++ (if (t =? hangulTBase)%Z then [] else [t]).

(** [appendDecomposed]. *)
Definition decomposed (r : Z) : list Z :=
  if (hangulSBase <=? r)%Z && (r <? hangulSBase + hangulSCount)%Z then hangulDecomposition r
  else default [r] (lookupNFKD r).

(** The insertion sort of one run: insert [r] into a sorted run, kept last first. *)
Fixpoint insertRune (r : Z) (rev : list Z) : list Z :=
  match rev with
  | x :: rest => if (combiningClass r <? combiningClass x)%N then x :: insertRune r rest else r :: rev
  | [] => [r]
  end.

(** [canonicalOrder]: [run] is the current run of non-starters, sorted, last first. *)
Fixpoint orderRuns (run rs : list Z) : list Z :=
  match rs with
  | [] => reverse run
  | r :: rs =>
      if (combiningClass r =? 0)%N then reverse run ++ r :: orderRuns [] rs
      else orderRuns (insertRune r run) rs
  end.
Definition canonicalOrder (rs : list Z) : list Z := orderRuns [] rs.

Definition NFKD (s : string) : string := ofRunes (canonicalOrder (r ← runes s; decomposed r)).
End Profile.

(** ** The canonical order *)

Section Order.
Variable T : tables.
Local Notation "'ccc' x" := (combiningClass T x) (at level 10, x at level 9).

(** No non-starter stands right after one of a higher class. *)
Definition inOrder (a c : Z) : Prop := ~ (0 < ccc c < ccc a)%N.
Definition sortedRun (run : list Z) : Prop :=
  StronglySorted (fun x y => (ccc y <= ccc x)%N) run /\ Forall (fun r => ccc r <> 0%N) run.

Lemma insertRune_perm r run : Permutation (insertRune T r run) (r :: run).
Proof.
  induction run as [|x run IH]; simpl; [done|]. destruct (ccc r <? ccc x)%N; [|done].
  rewrite IH. apply Permutation_swap.
Qed.

Lemma insertRune_sorted r run : ccc r <> 0%N -> sortedRun run -> sortedRun (insertRune T r run).
Proof.
  intros Hr [Hs Hf]. split; [|rewrite insertRune_perm; by constructor].
  clear Hf. induction Hs as [|x run Hs IH Hx]; simpl; [repeat constructor|].
  destruct (ccc r <? ccc x)%N eqn:E.
  - constructor; [done|]. rewrite insertRune_perm. constructor; [lia|done].
  - constructor; [by constructor|]. constructor; [lia|]. eapply Forall_impl; [exact Hx|]. simpl. lia.
Qed.

Lemma insertRune_stable r run c :
  filter (fun x => ccc x = c) (reverse (insertRune T r run)) = filter (fun x => ccc x = c) (reverse run ++ [r]).
Proof.
  induction run as [|x run IH]; cbn [insertRune]; [done|].
  destruct (ccc r <? ccc x)%N eqn:E; rewrite !reverse_cons; [|by rewrite <- ?app_assoc].
  rewrite filter_app, IH, !filter_app, <- !app_assoc. f_equal. rewrite !filter_cons, !filter_nil.
  repeat case_decide; (done || lia).
Qed.

Lemma orderRuns_perm rs : forall run, Permutation (orderRuns T run rs) (reverse run ++ rs).
Proof.
  induction rs as [|r rs IH]; intros run; cbn [orderRuns]; [by rewrite app_nil_r|].
  destruct (ccc r =? 0)%N; rewrite IH; [done|].
  rewrite !reverse_Permutation, insertRune_perm. by rewrite <- Permutation_middle.
Qed.

Lemma orderRuns_stable c rs : forall run,
  filter (fun x => ccc x = c) (orderRuns T run rs) = filter (fun x => ccc x = c) (reverse run ++ rs).
Proof.
  induction rs as [|r rs IH]; intros run; cbn [orderRuns]; [by rewrite app_nil_r|].
  destruct (ccc r =? 0)%N.
  - rewrite !filter_app, !filter_cons, IH. done.
  - rewrite IH, filter_app, insertRune_stable, <- filter_app, <- app_assoc. done.
Qed.

Definition starter (r : Z) : bool := (ccc r =? 0)%N.

Lemma nonstarters run : Forall (fun r => ccc r <> 0%N) run -> starter <$> run = replicate (length run) false.
Proof.
  induction 1 as [|r run Hr _ IH]; [done|]. rewrite fmap_cons, IH. unfold starter at 1. by replace (ccc r =? 0)%N with false by lia.
Qed.

Lemma orderRuns_starters rs : forall run, sortedRun run ->
  starter <$> orderRuns T run rs = starter <$> (reverse run ++ rs).
Proof.
  induction rs as [|r rs IH]; intros run Hrun; cbn [orderRuns]; [by rewrite app_nil_r|].
  destruct (ccc r =? 0)%N eqn:E.
  - rewrite !fmap_app, !fmap_cons, IH; [done|by repeat constructor].
  - assert (ccc r <> 0%N) as Hr by lia. pose proof (insertRune_sorted r run Hr Hrun) as Hi.
    rewrite IH, !fmap_app, fmap_cons by done.
    rewrite (nonstarters (reverse run)), (nonstarters (reverse _)) by (rewrite Forall_reverse; apply Hi || apply Hrun).
    rewrite !length_reverse, (Permutation_length (insertRune_perm r run)). cbn [length].
    replace (starter r) with false by (unfold starter; lia). by rewrite replicate_S_end, <- app_assoc.
Qed.

Lemma Sorted_join (l1 l2 : list Z) : Sorted inOrder l1 -> Sorted inOrder l2 ->
  (forall x y, last l1 = Some x -> head l2 = Some y -> inOrder x y) -> Sorted inOrder (l1 ++ l2).
Proof.
  intros H1 H2 Hj. induction H1 as [|x l1 H1 IH Hx]; simpl; [done|]. constructor.
  - apply IH. intros z y Hz Hy. apply Hj; [|done]. by destruct l1.
  - destruct Hx as [|y l1 Hy]; simpl; [|by constructor]. destruct l2 as [|y l2]; constructor. by apply Hj.
Qed.

Lemma sortedRun_order run : sortedRun run -> Sorted inOrder (reverse run).
Proof.
  intros [Hs _]. induction Hs as [|x run Hs IH Hx]; [constructor|]. rewrite reverse_cons.
  apply Sorted_join; [done|by repeat constructor|]. intros a c Ha [= <-]. rewrite last_reverse in Ha.
  destruct run as [|y run]; [done|]. injection Ha as ->. inversion Hx; subst. unfold inOrder. lia.
Qed.

Lemma orderRuns_order rs : forall run, sortedRun run -> Sorted inOrder (orderRuns T run rs).
Proof.
  induction rs as [|r rs IH]; intros run Hrun; cbn [orderRuns]; [by apply sortedRun_order|].
  destruct (ccc r =? 0)%N eqn:E; [|apply IH, insertRune_sorted; [lia|done]].
  apply Sorted_join; [by apply sortedRun_order| |].
  - constructor; [apply IH; by repeat constructor|]. destruct (orderRuns T [] rs); constructor. unfold inOrder. lia.
  - intros x y _ [= <-]. unfold inOrder. lia.
Qed.

Lemma orderRuns_id rs : forall run, sortedRun run -> Sorted inOrder (reverse run ++ rs) -> orderRuns T run rs = reverse run ++ rs.
Proof.
  induction rs as [|r rs IH]; intros run Hrun Hs; cbn [orderRuns]; [by rewrite app_nil_r|].
  destruct (ccc r =? 0)%N eqn:E.
  - f_equal. f_equal. apply (IH []); [by repeat constructor|]. clear -Hs. cbn [reverse].
    induction (reverse run) as [|x l IHl]; [by inversion Hs|]. apply IHl. by inversion Hs.
  - assert (insertRune T r run = r :: run) as Hi.
    { destruct run as [|x run]; [done|]. cbn [insertRune]. destruct (ccc r <? ccc x)%N eqn:El; [|done]. exfalso.
      rewrite reverse_cons, <- app_assoc in Hs. simpl in Hs.
      assert (inOrder x r) as Ho.
      { clear -Hs. induction (reverse run) as [|y l IHl]; [inversion Hs as [|? ? ? Hh]; subst; by inversion Hh|].
        apply IHl. by inversion Hs. }
      destruct Hrun as [_ Hf]. inversion Hf; subst. unfold inOrder in Ho. lia. }
    rewrite IH; rewrite Hi; [by rewrite reverse_cons, <- app_assoc|by rewrite <- Hi; apply insertRune_sorted; [lia|]|].
    by rewrite reverse_cons, <- app_assoc.
Qed.
End Order.

(** The canonical ordering is the one of the Unicode standard: a
    rearrangement that keeps starters in place and runes of one combining class in
    order, leaves no non-starter behind one of a higher class, and changes nothing
    the second time. *)
Theorem canonicalOrder_spec T rs :
  let out := canonicalOrder T rs in
  Permutation out rs
  /\ starter T <$> out = starter T <$> rs
  /\ (forall c, filter (fun r => combiningClass T r = c) out = filter (fun r => combiningClass T r = c) rs)
  /\ Sorted (inOrder T) out
  /\ canonicalOrder T out = out.
Proof.
  assert (sortedRun T []) as H0 by (split; constructor). cbv zeta. unfold canonicalOrder. split_and!.
  - exact (orderRuns_perm T rs []).
  - exact (orderRuns_starters T rs [] H0).
  - intros c. exact (orderRuns_stable T c rs []).
  - exact (orderRuns_order T rs [] H0).
  - apply (orderRuns_id T _ []); [done|]. exact (orderRuns_order T rs [] H0).
Qed.

(** ** The searches *)

Lemma searchLoop_spec f n fuel : forall i j, (j - i < fuel)%nat -> (i <= j <= n)%nat ->
  (forall a b, (a <= b < n)%nat -> f a = true -> f b = true) ->
  (forall k, (k < i)%nat -> f k = false) -> (forall k, (j <= k < n)%nat -> f k = true) ->
  let r := searchLoop fuel f i j in
  (r <= n)%nat /\ (forall k, (k < r)%nat -> f k = false) /\ (forall k, (r <= k < n)%nat -> f k = true).
Proof.
  induction fuel as [|fuel IH]; intros i j Hf Hij Hm Hlo Hhi; [lia|]. cbn [searchLoop].
  destruct (i <? j)%nat eqn:E; [|split_and!; [lia|done|intros k Hk; apply Hhi; lia]].
  assert (i <= (i + j) / 2 < j)%nat as Hh.
  { split; [apply Nat.div_le_lower_bound; lia|apply Nat.Div0.div_lt_upper_bound; lia]. }
  cbv zeta. destruct (f ((i + j) / 2)%nat) eqn:Ef.
  - apply IH; try (lia || done). intros k Hk. eapply Hm; [|exact Ef]. lia.
  - apply IH; try (lia || done). intros k Hk. destruct (f k) eqn:Ek; [|done]. rewrite (Hm k ((i + j) / 2)%nat) in Ef; [done|lia|done].
Qed.

Lemma Search_spec f n : (forall a b, (a <= b < n)%nat -> f a = true -> f b = true) ->
  (Search n f <= n)%nat /\ (forall k, (k < Search n f)%nat -> f k = false) /\ (forall k, (Search n f <= k < n)%nat -> f k = true).
Proof. intros Hm. apply (searchLoop_spec f n (S n) 0 n); try done; lia. Qed.

(** Sorted, disjoint ranges. *)
Definition rangesSorted (ranges : list (Z * Z)) : Prop :=
  Forall (fun p => (fst p <= snd p)%Z) ranges /\ StronglySorted (fun p q => (snd p < fst q)%Z) ranges.

Lemma StronglySorted_lookup {A} (R : A -> A -> Prop) l i j x y : StronglySorted R l ->
  l !! i = Some x -> l !! j = Some y -> (i < j)%nat -> R x y.
Proof.
  intros Hs. revert i j. induction Hs as [|a l Hs IH Ha]; intros [|i] [|j] Hi Hj Hij; try done; try lia.
  - injection Hi as <-. rewrite Forall_forall in Ha. apply Ha. by eapply list_elem_of_lookup_2.
  - apply (IH i j); [done|done|lia].
Qed.

(** The binary search decides membership in the ranges of a table. *)
Lemma inRanges_spec ranges r : rangesSorted ranges ->
  inRanges ranges r = true <-> exists p, p ∈ ranges /\ (fst p <= r <= snd p)%Z.
Proof.
  intros [Hle Hs]. unfold inRanges. set (f := fun i => match ranges !! i with Some p => (r <=? snd p)%Z | None => true end).
  destruct (Search_spec f (length ranges)) as (Hn&Hlo&Hhi).
  { intros a b Hab. unfold f. destruct (ranges !! a) as [p|] eqn:Ea; [|apply lookup_ge_None in Ea; lia].
    destruct (ranges !! b) as [q|] eqn:Eb; [|done]. destruct (decide (a = b)) as [->|Hne]; [congruence|]. intros Hp.
    pose proof (StronglySorted_lookup _ _ a b p q Hs Ea Eb ltac:(lia)) as Hpq.
    pose proof (proj1 (Forall_lookup _ _) Hle b q Eb) as Hq. simpl in *. lia. }
  set (i := Search (length ranges) f) in *. split.
  - destruct (ranges !! i) as [p|] eqn:Ei; [|done]. intros Hp. exists p. split; [by eapply list_elem_of_lookup_2|].
    specialize (Hhi i). unfold f in Hhi. rewrite Ei in Hhi. apply lookup_lt_Some in Ei. specialize (Hhi ltac:(lia)). lia.
  - intros (p&[j Hj]%list_elem_of_lookup_1&Hp). destruct (lt_eq_lt_dec i j) as [[Hlt| ->]|Hgt].
    + pose proof (lookup_lt_Some _ _ _ Hj) as Hjl. destruct (lookup_lt_is_Some_2 ranges i ltac:(lia)) as [q Hq].
      specialize (Hhi i ltac:(lia)). unfold f in Hhi. rewrite Hq in Hhi.
      pose proof (StronglySorted_lookup _ _ i j q p Hs Hq Hj Hlt) as Hpq. simpl in Hpq. lia.
    + rewrite Hj. lia.
    + specialize (Hlo j Hgt). unfold f in Hlo. rewrite Hj in Hlo. lia.
Qed.
