(* ===== verification/MatchString.v ===== *)
(** * MatchString: the fuzzy matcher of names ([internal/debaml/parse.go])

    The matcher behind enum values, string literals, map keys and class fields:
    exact, accent-folded, punctuation-stripped, case-folded and substring
    matching, over any Unicode tables. *)

From Stdlib Require Import Ascii String Sorting.Sorted.
From S2P Require Import Prelude GoStrings Jsonish Unicode.
Open Scope stdpp_scope.

(** [matchOutcome] and [matchCandidate]. *)
Inductive matchOutcome := matchNone | matchOne | matchAmbiguous.
Record matchCandidate := mkCandidate { mc_name : string; mc_validValues : list string }.

(** ** Normal forms *)

Section Forms.
Variable T : tables.

(** [stripPunctuation]. *)
Definition stripPunctuation (s : string) : string :=
  ofRunes (filter (fun r => (r =? 45)%Z || (r =? 95)%Z || IsAlphanumeric T r = true) (runes s)).

(** [ligatureFolder]: the two-byte encodings of the seven ligatures. *)
Fixpoint foldLigatures (s : string) : string :=
  match s with
  | String a (String b r as r1) =>
      let x := code a in let y := code b in
      if ((x =? 195) && (y =? 159))%Z then "ss" +:+ foldLigatures r
      else if ((x =? 195) && (y =? 166))%Z then "ae" +:+ foldLigatures r
      else if ((x =? 195) && (y =? 134))%Z then "AE" +:+ foldLigatures r
      else if ((x =? 195) && (y =? 184))%Z then "o" +:+ foldLigatures r
      else if ((x =? 195) && (y =? 152))%Z then "O" +:+ foldLigatures r
      else if ((x =? 197) && (y =? 147))%Z then "oe" +:+ foldLigatures r
      else if ((x =? 197) && (y =? 146))%Z then "OE" +:+ foldLigatures r
      else String a (foldLigatures r1)
  | _ => s
  end.

(** [removeAccents]. *)
Definition removeAccents (s : string) : string :=
  ofRunes (filter (fun r => IsCombiningMark T r = false) (runes (NFKD T (foldLigatures s)))).
End Forms.

(** ** Occurrences *)

(** Every non-overlapping occurrence of [needle], from offset [pos]; [skip] bytes
    belong to the last one. *)
Fixpoint occurrences (needle : string) (skip pos : nat) (s : string) : list nat :=
  match s with
  | EmptyString => []
  | String _ r =>
      match skip with
      | S skip => occurrences needle skip (S pos) r
      | O =>
          if HasPrefix s needle
          then pos :: occurrences needle (Nat.pred (String.length needle)) (S pos) r
          else occurrences needle 0 (S pos) r
      end
  end.

(** The offsets a range loop visits. *)
Fixpoint runeStarts (skip pos : nat) (s : string) : list nat :=
  match s with
  | EmptyString => []
  | String _ r =>
      match skip with
      | S skip => runeStarts skip (S pos) r
      | O => pos :: runeStarts (Nat.pred (default 1%nat (utf8Len s))) (S pos) r
      end
  end.

(** [matchIndices]. *)
Definition matchIndices (haystack needle : string) : list nat :=
  if needle =s "" then runeStarts 0 0 haystack ++ [String.length haystack]
  else occurrences needle 0 0 haystack.

(** ** Substring matching *)

(** A found occurrence: where it starts and ends, and the candidate's name. *)
Record mspan := mkSpan { sp_start : nat; sp_end : nat; sp_variant : string }.

(** The order of the sort: by start, then the longer first. *)
Definition spanLess (a b : mspan) : bool :=
  if (sp_start a =? sp_start b)%nat then (sp_end b <? sp_end a)%nat else (sp_start a <? sp_start b)%nat.

(** [sort.SliceStable]. *)
Fixpoint insertSpan (x : mspan) (l : list mspan) : list mspan :=
  match l with
  | y :: r => if spanLess y x then y :: insertSpan x r else x :: l
  | [] => [x]
  end.
Definition sortSpans (l : list mspan) : list mspan := foldr insertSpan [] l.

(** Drop what starts before the end of the last span kept. *)
Fixpoint dropOverlaps (lastEnd : nat) (l : list mspan) : list mspan :=
  match l with
  | [] => []
  | s :: l => if (lastEnd <=? sp_start s)%nat then s :: dropOverlaps (sp_end s) l else dropOverlaps lastEnd l
  end.

(** The variants in first-seen order, and how often each occurs. *)
Fixpoint variantOrder (seen : list string) (l : list mspan) : list string :=
  match l with
  | [] => []
  | s :: l =>
      if bool_decide (sp_variant s ∈ seen) then variantOrder seen l
      else sp_variant s :: variantOrder (sp_variant s :: seen) l
  end.
Definition variantCount (l : list mspan) (v : string) : nat :=
  length (filter (fun s => sp_variant s = v) l).

(** The loop that finds the most frequent variant: the best one, its count and how
    many variants have that count. *)
Fixpoint bestVariant (l : list mspan) (order : list string) (best : string) (max atMax : nat) : string * nat :=
  match order with
  | [] => (best, atMax)
  | v :: order =>
      let c := variantCount l v in
      if (max <? c)%nat then bestVariant l order v c 1
      else if (c =? max)%nat then bestVariant l order best max (S atMax)
      else bestVariant l order best max atMax
  end.

(** The verdict on the spans that were found. *)
Definition substringVerdict (all : list mspan) : string * matchOutcome :=
  let filtered := dropOverlaps 0 (sortSpans all) in
  let '(best, atMax) := bestVariant filtered (variantOrder [] filtered) "" 0 0 in
  if (1 <? atMax)%nat then ("", matchAmbiguous) else (best, matchOne).

(** ** The strategies *)

Section Match.
Variable T : tables.

(** The first candidate one of whose values satisfies [p]. *)
Fixpoint findCandidate (p : string -> bool) (cs : list matchCandidate) : option string :=
  match cs with
  | [] => None
  | c :: cs => if existsb p (mc_validValues c) then Some (mc_name c) else findCandidate p cs
  end.

(** The spans of every value of every candidate in [text], a value being looked
    for in the form [form] gives it. *)
Definition findSpans (text : string) (form : string -> string) (cs : list matchCandidate) : list mspan :=
  c ← cs; valid ← mc_validValues c; start ← matchIndices text (form valid);
  [mkSpan start (start + String.length valid) (mc_name c)].

(** [stringMatchStrategy]: the verdict and whether it came from a substring. *)
Definition stringMatchStrategy (valueStr : string) (cs : list matchCandidate) (allowSubstring : bool)
    : option (string * matchOutcome * bool) :=
  match findCandidate (fun v => v =s valueStr) cs with
  | Some name => Some (name, matchOne, false)
  | None =>
      let unaccented := removeAccents T valueStr in
      match findCandidate (fun v => removeAccents T v =s unaccented) cs with
      | Some name => Some (name, matchOne, false)
      | None =>
          if negb allowSubstring then None
          else
            let all := findSpans valueStr id cs in
            let all := match all with [] => findSpans unaccented (removeAccents T) cs | _ => all end in
            match all with
            | [] => None
            | _ => Some (substringVerdict all, true)
            end
      end
  end.

Definition mapValues (f : string -> string) (cs : list matchCandidate) : list matchCandidate :=
  (fun c => mkCandidate (mc_name c) (f <$> mc_validValues c)) <$> cs.

(** [matchString]. *)
Definition matchString (input : string) (cs : list matchCandidate) (allowSubstring : bool)
    : string * matchOutcome * bool :=
  let ctx := TrimSpace input in
  match stringMatchStrategy ctx cs allowSubstring with
  | Some r => r
  | None =>
      let ctx := stripPunctuation T ctx in
      let stripped := mapValues (stripPunctuation T) cs in
      match stringMatchStrategy ctx stripped allowSubstring with
      | Some r => r
      | None =>
          let ctx := LowerString T ctx in
          let lowered := mapValues (LowerString T) stripped in
          match stringMatchStrategy ctx lowered allowSubstring with
          | Some r => r
          | None => ("", matchNone, false)
          end
      end
  end.

(** [matchesStringToString]. *)
Definition matchesStringToString (input target : string) : bool :=
  match matchString input [mkCandidate target [target]] false with (_, matchOne, _) => true | _ => false end.
End Match.

(** ** Occurrences are occurrences *)

Lemma occurrences_spec needle s : forall skip pos p,
  p ∈ occurrences needle skip pos s -> (pos <= p)%nat /\ HasPrefix (sdrop (p - pos) s) needle = true
    /\ (p < pos + String.length s)%nat.
Proof.
  induction s as [|c s IH]; intros skip pos p; cbn [occurrences]; [by intros ?%elem_of_nil|].
  assert (forall k, p ∈ occurrences needle k (S pos) s -> (pos <= p)%nat
    /\ HasPrefix (sdrop (p - pos) (String c s)) needle = true /\ (p < pos + String.length (String c s))%nat) as Hs.
  { intros k Hp. apply IH in Hp as (Hle&Hpre&Hlt). simpl String.length. split_and!; [lia| |lia].
    by replace (p - pos)%nat with (S (p - S pos)) by lia. }
  destruct skip as [|skip]; [|apply Hs]. destruct (HasPrefix (String c s) needle) eqn:E; [|apply Hs].
  rewrite elem_of_cons. intros [->|Hp]; [|by eapply Hs]. rewrite Nat.sub_diag. simpl. split_and!; [lia|done|lia].
Qed.

Lemma HasPrefix_nil s : HasPrefix s "" = true.
Proof. apply bool_decide_eq_true. by exists s. Qed.

(** Every index is that of an occurrence. *)
Lemma matchIndices_sound h n p : p ∈ matchIndices h n -> HasPrefix (sdrop p h) n = true.
Proof.
  unfold matchIndices. destruct (n =s "") eqn:E.
  - apply String.eqb_eq in E as ->. intros _. apply HasPrefix_nil.
  - intros Hp. apply occurrences_spec in Hp as (_&Hp&_). by rewrite Nat.sub_0_r in Hp.
Qed.

(** ** Spans *)

Lemma insertSpan_perm x l : Permutation (insertSpan x l) (x :: l).
Proof.
  induction l as [|y l IH]; simpl; [done|]. destruct (spanLess y x); [|done]. rewrite IH. apply Permutation_swap.
Qed.
Lemma sortSpans_perm l : Permutation (sortSpans l) l.
Proof. induction l as [|x l IH]; simpl; [done|]. by rewrite insertSpan_perm, IH. Qed.

Definition startOrder (a b : mspan) : Prop := (sp_start a <= sp_start b)%nat.

Lemma insertSpan_sorted x l : StronglySorted startOrder l -> StronglySorted startOrder (insertSpan x l).
Proof.
  induction 1 as [|y l Hs IH Hy]; simpl; [repeat constructor|].
  unfold spanLess. destruct ((sp_start y =? sp_start x)%nat) eqn:E1.
  - apply Nat.eqb_eq in E1. destruct (sp_end x <? sp_end y)%nat.
    + constructor; [done|]. rewrite insertSpan_perm. constructor; [|done]. unfold startOrder. lia.
    + constructor; [by constructor|]. constructor; [unfold startOrder; lia|].
      eapply Forall_impl; [exact Hy|]. unfold startOrder. lia.
  - apply Nat.eqb_neq in E1. destruct (sp_start y <? sp_start x)%nat eqn:E2.
    + constructor; [done|]. rewrite insertSpan_perm. constructor; [|done]. unfold startOrder. lia.
    + constructor; [by constructor|]. apply Nat.ltb_ge in E2. constructor; [unfold startOrder; lia|].
      eapply Forall_impl; [exact Hy|]. unfold startOrder. lia.
Qed.
Lemma sortSpans_sorted l : StronglySorted startOrder (sortSpans l).
Proof. induction l; simpl; [constructor|by apply insertSpan_sorted]. Qed.

(** Kept spans are disjoint and in order; a dropped one starts inside a kept one. *)
Definition disjointFrom (lastEnd : nat) (l : list mspan) : Prop :=
  Forall (fun s => (lastEnd <= sp_start s)%nat) l
  /\ StronglySorted (fun a b => (sp_end a <= sp_start b)%nat) l.

Lemma dropOverlaps_disjoint l : forall lastEnd, Forall (fun s => (sp_start s <= sp_end s)%nat) l ->
  disjointFrom lastEnd (dropOverlaps lastEnd l).
Proof.
  induction l as [|s l IH]; intros lastEnd Hw; cbn [dropOverlaps]; [split; constructor|].
  inversion Hw as [|? ? Hse Hl]; subst. destruct (lastEnd <=? sp_start s)%nat eqn:E; [|by apply IH].
  apply Nat.leb_le in E. destruct (IH (sp_end s) Hl) as [H1 H2]. split.
  - constructor; [done|]. eapply Forall_impl; [exact H1|]. simpl. lia.
  - by constructor.
Qed.

Lemma dropOverlaps_cover l : forall lastEnd s, s ∈ l -> StronglySorted startOrder l ->
  s ∈ dropOverlaps lastEnd l \/ (sp_start s < lastEnd)%nat
  \/ exists k, k ∈ dropOverlaps lastEnd l /\ (sp_start k <= sp_start s < sp_end k)%nat.
Proof.
  induction l as [|x l IH]; intros lastEnd s Hs Hsort; cbn [dropOverlaps]; [by apply elem_of_nil in Hs|].
  inversion Hsort as [|? ? Hl Hx]; subst. apply elem_of_cons in Hs as [->|Hs].
  - destruct (lastEnd <=? sp_start x)%nat eqn:E; [left; set_solver|]. apply Nat.leb_gt in E. auto.
  - rewrite Forall_forall in Hx. specialize (Hx s Hs). unfold startOrder in Hx.
    destruct (lastEnd <=? sp_start x)%nat eqn:E; [|by apply IH].
    destruct (IH (sp_end x) s Hs Hl) as [?|[?|(k&Hk&?)]]; [set_solver| |].
    + right; right. exists x. split; [set_solver|lia].
    + right; right. exists k. split; [set_solver|done].
Qed.

Lemma dropOverlaps_incl l : forall lastEnd s, s ∈ dropOverlaps lastEnd l -> s ∈ l.
Proof.
  induction l as [|x l IH]; intros lastEnd s; cbn [dropOverlaps]; [done|].
  destruct (lastEnd <=? sp_start x)%nat; rewrite ?elem_of_cons; [intros [->|Hs]; [by left|]|intros Hs]; right; by eapply IH.
Qed.

Lemma dropOverlaps_nonempty l : l <> [] -> dropOverlaps 0 l <> [].
Proof. by destruct l. Qed.

(** ** The winner *)

Lemma variantOrder_elem l : forall seen v, v ∈ variantOrder seen l <-> (v ∉ seen) /\ exists s, s ∈ l /\ sp_variant s = v.
Proof.
  induction l as [|s l IH]; intros seen v; cbn [variantOrder]; [set_solver|].
  case_bool_decide as Hs; rewrite ?elem_of_cons, IH; [set_solver|]. rewrite elem_of_cons.
  destruct (decide (v = sp_variant s)) as [->|Hne]; set_solver.
Qed.
Lemma variantOrder_nodup l : forall seen, NoDup (variantOrder seen l).
Proof.
  induction l as [|s l IH]; intros seen; cbn [variantOrder]; [constructor|]. case_bool_decide; [done|].
  constructor; [|done]. rewrite variantOrder_elem. set_solver.
Qed.

Lemma variantCount_pos l v : (0 < variantCount l v)%nat <-> exists s, s ∈ l /\ sp_variant s = v.
Proof.
  unfold variantCount. split.
  - destruct (filter _ l) as [|s f] eqn:E; [simpl; lia|]. intros _. exists s.
    assert (s ∈ filter (fun s => sp_variant s = v) l) as Hs by (rewrite E; set_solver). apply list_elem_of_filter in Hs. tauto.
  - intros (s&Hs&Hv). assert (s ∈ filter (fun s => sp_variant s = v) l) as Hf by (by apply list_elem_of_filter).
    destruct (filter _ l); [by apply elem_of_nil in Hf|simpl; lia].
Qed.

Definition bestSoFar (l : list mspan) (P : list string) (best : string) (max atMax : nat) : Prop :=
  (P = [] /\ max = 0%nat /\ atMax = 0%nat)
  \/ (best ∈ P /\ variantCount l best = max /\ (forall v, v ∈ P -> (variantCount l v <= max)%nat)
      /\ atMax = length (filter (fun v => variantCount l v = max) P)).

Lemma bestVariant_spec l order : forall P best max atMax,
  (forall v, v ∈ order -> (0 < variantCount l v)%nat) -> bestSoFar l P best max atMax ->
  exists m, bestSoFar l (P ++ order) (fst (bestVariant l order best max atMax)) m (snd (bestVariant l order best max atMax)).
Proof.
  induction order as [|v order IH]; intros P best max atMax Hpos HP; cbn [bestVariant].
  { exists max. by rewrite app_nil_r. }
  assert (0 < variantCount l v)%nat as Hv by (apply Hpos; set_solver).
  replace (P ++ v :: order) with ((P ++ [v]) ++ order) by (by rewrite <- app_assoc).
  destruct (max <? variantCount l v)%nat eqn:E1; [|destruct (variantCount l v =? max)%nat eqn:E2];
    (apply IH; [intros; apply Hpos; set_solver|]); right; rewrite filter_app, length_app, filter_cons, filter_nil.
  - apply Nat.ltb_lt in E1. rewrite decide_True by done. split_and!; [set_solver|done| |].
    + intros w Hw. apply elem_of_app in Hw as [Hw|Hw%list_elem_of_singleton]; [|by subst].
      destruct HP as [(->&_)|(_&_&Hle&_)]; [by apply elem_of_nil in Hw|]. specialize (Hle w Hw). lia.
    + destruct (filter _ P) as [|w f] eqn:Ef; [done|]. exfalso.
      assert (w ∈ filter (fun w => variantCount l w = variantCount l v) P) as Hw by (rewrite Ef; set_solver).
      apply list_elem_of_filter in Hw as [Hw Hwp].
      destruct HP as [(->&_)|(_&_&Hle&_)]; [by apply elem_of_nil in Hwp|]. specialize (Hle w Hwp). lia.
  - apply Nat.eqb_eq in E2. destruct HP as [(->&->&_)|(Hb&Hm&Hle&->)]; [lia|]. rewrite decide_True by done.
    split_and!; [set_solver|done| |simpl; lia]. intros w [Hw|Hw%list_elem_of_singleton]%elem_of_app; [by apply Hle|]. subst. lia.
  - apply Nat.ltb_ge in E1. apply Nat.eqb_neq in E2. destruct HP as [(->&->&_)|(Hb&Hm&Hle&->)]; [lia|].
    rewrite decide_False by lia. split_and!; [set_solver|done| |simpl; lia].
    intros w [Hw|Hw%list_elem_of_singleton]%elem_of_app; [by apply Hle|]. subst. lia.
Qed.

(** The verdict on found spans: the strictly most frequent variant among the spans
    that are kept, and a tie is ambiguous. *)
Definition verdictOf (all : list mspan) (r : string * matchOutcome) : Prop :=
  let kept := dropOverlaps 0 (sortSpans all) in
  match r with
  | (v, matchOne) => (0 < variantCount kept v)%nat /\ forall v', v' <> v -> (variantCount kept v' < variantCount kept v)%nat
  | (_, matchAmbiguous) =>
      exists v v', v <> v' /\ (0 < variantCount kept v)%nat /\ variantCount kept v = variantCount kept v'
        /\ forall w, (variantCount kept w <= variantCount kept v)%nat
  | (_, matchNone) => False
  end.

Lemma two_elements {A} (l : list A) : NoDup l -> (1 < length l)%nat -> exists a c, a ∈ l /\ c ∈ l /\ a <> c.
Proof.
  intros Hn Hl. destruct l as [|a [|c l]]; simpl in Hl; [lia|lia|]. exists a, c.
  apply NoDup_cons in Hn as [Ha _]. set_solver.
Qed.

Lemma substringVerdict_spec all : all <> [] -> verdictOf all (substringVerdict all).
Proof.
  intros Hne. unfold substringVerdict, verdictOf. set (kept := dropOverlaps 0 (sortSpans all)).
  assert (kept <> []) as Hk.
  { apply dropOverlaps_nonempty. intros E. apply Hne. pose proof (sortSpans_perm all) as Hp. rewrite E in Hp. by apply Permutation_nil in Hp. }
  assert (forall v, v ∈ variantOrder [] kept <-> (0 < variantCount kept v)%nat) as Hin.
  { intros v. rewrite variantOrder_elem, variantCount_pos. set_solver. }
  destruct (bestVariant_spec kept (variantOrder [] kept) [] "" 0 0) as [m Hm]; [intros v; apply Hin|by left|].
  destruct (bestVariant _ _ _ _ _) as [best atMax]. simpl in Hm.
  destruct Hm as [(E&_)|(Hb&Hm&Hle&Hat)].
  { destruct kept as [|s k]; [done|]. exfalso. assert (sp_variant s ∈ variantOrder [] (s :: k)) as Hs.
    { apply Hin, variantCount_pos. exists s. set_solver. }
    simpl app in E. rewrite E in Hs. by apply elem_of_nil in Hs. }
  assert (forall w, (variantCount kept w <= m)%nat) as Hmax.
  { intros w. destruct (decide (0 < variantCount kept w)%nat) as [Hw|]; [|lia]. by apply Hle, Hin. }
  pose proof (proj1 (Hin best) Hb) as Hpos.
  assert (best ∈ filter (fun v => variantCount kept v = m) (variantOrder [] kept)) as Hbf by (by apply list_elem_of_filter).
  pose proof (NoDup_filter (fun v => variantCount kept v = m) _ (variantOrder_nodup kept [])) as Hnd.
  destruct (1 <? atMax)%nat eqn:E.
  - apply Nat.ltb_lt in E. rewrite Hat in E. destruct (two_elements _ Hnd E) as (a&c&Ha&Hc&Hac).
    apply list_elem_of_filter in Ha as [Ha _], Hc as [Hc _]. exists a, c. split_and!; [done|lia|lia|]. intros w. rewrite Ha. apply Hmax.
  - apply Nat.ltb_ge in E. split; [done|]. intros v Hv. rewrite Hm. specialize (Hmax v).
    destruct (decide (variantCount kept v = m)) as [Hvm|]; [|lia]. exfalso.
    assert (v ∈ filter (fun v => variantCount kept v = m) (variantOrder [] kept)) as Hvf.
    { apply list_elem_of_filter. split; [done|]. apply Hin. lia. }
    rewrite Hat in E. destruct (filter _ _) as [|x [|y f]]; simpl in E; [set_solver| |lia].
    apply list_elem_of_singleton in Hbf, Hvf. congruence.
Qed.

(** ** Verdicts *)

Section Verdict.
Variable T : tables.

Lemma findCandidate_some p cs name : findCandidate p cs = Some name ->
  exists before c after, cs = before ++ c :: after /\ mc_name c = name
    /\ (exists v, v ∈ mc_validValues c /\ p v = true)
    /\ (forall c' v, c' ∈ before -> v ∈ mc_validValues c' -> p v = false).
Proof.
  induction cs as [|c cs IH]; simpl; [done|]. destruct (existsb p (mc_validValues c)) eqn:E.
  - intros [= <-]. exists [], c, cs. split_and!; [done|done| |by intros ? ? ?%elem_of_nil].
    apply existsb_exists in E as (v&Hv&Hp). exists v. by rewrite list_elem_of_In.
  - intros (before&d&after&->&Hd&Hv&Hb)%IH. exists (c :: before), d, after. split_and!; [done|done|done|].
    intros c' v [->|Hc']%elem_of_cons Hv'; [|by eapply Hb]. destruct (p v) eqn:Ep; [|done].
    enough (existsb p (mc_validValues c) = true) by congruence. apply existsb_exists. exists v. by rewrite <- list_elem_of_In.
Qed.

Lemma findCandidate_none p cs : findCandidate p cs = None ->
  forall c v, c ∈ cs -> v ∈ mc_validValues c -> p v = false.
Proof.
  induction cs as [|c cs IH]; simpl; [by intros _ ? ? ?%elem_of_nil|].
  destruct (existsb p (mc_validValues c)) eqn:E; [done|]. intros Hn c' v [->|Hc']%elem_of_cons Hv; [|by eapply IH].
  destruct (p v) eqn:Ep; [|done]. enough (existsb p (mc_validValues c) = true) by congruence.
  apply existsb_exists. exists v. by rewrite <- list_elem_of_In.
Qed.

(** The first candidate with a value equal to the text, or, when no value of any
    candidate is equal to it, the first with one that is equal but for accents. *)
Definition accepts (text : string) (cs : list matchCandidate) (name : string) : Prop :=
  exists before c after, cs = before ++ c :: after /\ mc_name c = name
    /\ ((text ∈ mc_validValues c /\ forall c', c' ∈ before -> text ∉ mc_validValues c')
        \/ ((forall c', c' ∈ cs -> text ∉ mc_validValues c')
            /\ (exists v, v ∈ mc_validValues c /\ removeAccents T v = removeAccents T text)
            /\ forall c' v, c' ∈ before -> v ∈ mc_validValues c' -> removeAccents T v <> removeAccents T text)).

(** Every span is an occurrence of a value of its candidate. *)
Definition found (text : string) (cs : list matchCandidate) (all : list mspan) : Prop :=
  all <> [] /\ forall s, s ∈ all -> exists c v form, c ∈ cs /\ v ∈ mc_validValues c
    /\ form ∈ [id; removeAccents T] /\ sp_variant s = mc_name c
    /\ sp_end s = (sp_start s + String.length v)%nat
    /\ HasPrefix (sdrop (sp_start s) (form text)) (form v) = true.

Lemma findSpans_found text form cs s : s ∈ findSpans (form text) form cs ->
  exists c v, c ∈ cs /\ v ∈ mc_validValues c /\ sp_variant s = mc_name c
    /\ sp_end s = (sp_start s + String.length v)%nat /\ HasPrefix (sdrop (sp_start s) (form text)) (form v) = true.
Proof.
  unfold findSpans. intros (c&Hs&Hc)%list_elem_of_bind. apply list_elem_of_bind in Hs as (v&Hs&Hv).
  apply list_elem_of_bind in Hs as (p&Hs&Hp). apply list_elem_of_singleton in Hs as ->. exists c, v.
  split_and!; try done. by apply matchIndices_sound.
Qed.

Lemma strategy_spec text cs sub :
  match stringMatchStrategy T text cs sub with
  | Some (name, matchOne, false) => accepts text cs name
  | Some (name, o, via) => sub = true /\ via = true /\ exists all, found text cs all /\ verdictOf all (name, o)
  | None => forall c v, c ∈ cs -> v ∈ mc_validValues c -> removeAccents T v <> removeAccents T text
  end.
Proof.
  unfold stringMatchStrategy. cbv zeta. destruct (findCandidate _ cs) as [name|] eqn:E1.
  { apply findCandidate_some in E1 as (before&c&after&->&Hn&(v&Hv&Hp)&Hb). apply String.eqb_eq in Hp as ->.
    exists before, c, after. split_and!; [done|done|left]. split; [done|]. intros c' Hc' Hin.
    specialize (Hb c' text Hc' Hin). simpl in Hb. by rewrite String.eqb_refl in Hb. }
  pose proof (findCandidate_none _ _ E1) as H1. clear E1.
  destruct (findCandidate (fun v => removeAccents T v =s removeAccents T text) cs) as [name|] eqn:E2.
  { apply findCandidate_some in E2 as (before&c&after&->&Hn&(v&Hv&Hp)&Hb). apply String.eqb_eq in Hp.
    exists before, c, after. split_and!; [done|done|right]. split_and!.
    - intros c' Hc' Hin. specialize (H1 c' text Hc' Hin). simpl in H1. by rewrite String.eqb_refl in H1.
    - by exists v.
    - intros c' w Hc' Hw. apply String.eqb_neq. by eapply Hb. }
  pose proof (findCandidate_none _ _ E2) as H2.
  assert (forall c v, c ∈ cs -> v ∈ mc_validValues c -> removeAccents T v <> removeAccents T text) as Hnone.
  { intros c v Hc Hv. apply String.eqb_neq. by eapply H2. }
  destruct sub; [|done]. cbn [negb]. set (all := match findSpans text id cs with [] => _ | _ => _ end).
  assert (forall s, s ∈ all -> exists c v form, c ∈ cs /\ v ∈ mc_validValues c
    /\ form ∈ [id; removeAccents T] /\ sp_variant s = mc_name c
    /\ sp_end s = (sp_start s + String.length v)%nat /\ HasPrefix (sdrop (sp_start s) (form text)) (form v) = true) as Hall.
  { intros s Hs. assert (s ∈ findSpans (id text) id cs \/ s ∈ findSpans (removeAccents T text) (removeAccents T) cs) as [Hf|Hf].
    { unfold all in Hs. change (id text) with text. destruct (findSpans text id cs); auto. }
    - apply findSpans_found in Hf as (c&v&?&?&?&?&?). exists c, v, id. by split_and!; try (apply elem_of_cons; left).
    - apply (findSpans_found text (removeAccents T)) in Hf as (c&v&?&?&?&?&?). exists c, v, (removeAccents T).
      split_and!; try done. constructor. constructor. }
  destruct all as [|s all']; [done|]. pose proof (substringVerdict_spec (s :: all') ltac:(done)) as Hv.
  destruct (substringVerdict (s :: all')) as [name o].
  destruct o; (split_and!; [done|done|]); exists (s :: all'); (split; [split; [done|exact Hall]|exact Hv]).
Qed.

(** The three forms the matcher compares in, in order. *)
Definition forms : list (string -> string) :=
  [id; stripPunctuation T; fun s => LowerString T (stripPunctuation T s)].

Lemma mapValues_id cs : mapValues id cs = cs.
Proof. unfold mapValues. induction cs as [|[n vs] cs IH]; [done|]. rewrite fmap_cons, IH. simpl. by rewrite list_fmap_id. Qed.
Lemma mapValues_mapValues f g cs : mapValues g (mapValues f cs) = mapValues (fun s => g (f s)) cs.
Proof.
  unfold mapValues. rewrite <- list_fmap_compose. apply list_fmap_ext. intros i c _. simpl.
  by rewrite <- list_fmap_compose.
Qed.

Lemma noValue form cs text :
  (forall c v, c ∈ mapValues form cs -> v ∈ mc_validValues c -> removeAccents T v <> removeAccents T text) ->
  forall c v, c ∈ cs -> v ∈ mc_validValues c -> removeAccents T (form v) <> removeAccents T text.
Proof.
  intros H c v Hc Hv. apply (H (mkCandidate (mc_name c) (form <$> mc_validValues c)) (form v)).
  - unfold mapValues. apply list_elem_of_fmap. by exists c.
  - by apply list_elem_of_fmap_2.
Qed.

(** A match is the name of a candidate. *)
Lemma strategy_name text cs sub name via : stringMatchStrategy T text cs sub = Some (name, matchOne, via) ->
  exists c, c ∈ cs /\ mc_name c = name.
Proof.
  intros H. pose proof (strategy_spec text cs sub) as Hs. rewrite H in Hs. destruct via.
  - destruct Hs as (_&_&all&[_ Hall]&Hv&_). apply variantCount_pos in Hv as (s&Hs&<-).
    apply dropOverlaps_incl in Hs. rewrite sortSpans_perm in Hs. destruct (Hall s Hs) as (c&_&_&Hc&_&_&->&_). by exists c.
  - destruct Hs as (before&c&after&->&Hn&_). exists c. split; [set_solver|done].
Qed.

Lemma mapValues_name f cs name : (exists c, c ∈ mapValues f cs /\ mc_name c = name) -> exists c, c ∈ cs /\ mc_name c = name.
Proof. intros (c&Hc&<-). apply list_elem_of_fmap in Hc as (d&->&Hd). by exists d. Qed.

Lemma matchString_name input cs sub name via : matchString T input cs sub = (name, matchOne, via) ->
  exists c, c ∈ cs /\ mc_name c = name.
Proof.
  unfold matchString. destruct (stringMatchStrategy T _ cs sub) eqn:E1; [intros ->; by eapply strategy_name|].
  destruct (stringMatchStrategy T _ (mapValues _ cs) sub) eqn:E2;
    [intros ->; by eapply mapValues_name, strategy_name|].
  destruct (stringMatchStrategy T _ (mapValues _ (mapValues _ cs)) sub) eqn:E3; [|done].
  intros ->. by eapply mapValues_name, mapValues_name, strategy_name.
Qed.

(** The verdict of the matcher, whatever the Unicode tables.  A match that is
    not a substring match is the first candidate equal to the trimmed input, or
    equal but for accents, in one of three forms: as it is, without punctuation,
    and in lower case; a substring match names the candidate that occurs strictly
    most often among the non-overlapping occurrences, and a tie is ambiguous; no
    match means that no value is equal to the input in any form, even but for
    accents. *)
Theorem matchString_verdict input cs sub :
  let text := TrimSpace input in
  match matchString T input cs sub with
  | (name, matchOne, false) => exists form, form ∈ forms /\ accepts (form text) (mapValues form cs) name
  | (name, matchNone, via) =>
      name = "" /\ via = false
      /\ forall form c v, form ∈ forms -> c ∈ cs -> v ∈ mc_validValues c ->
           removeAccents T (form v) <> removeAccents T (form text)
  | (name, o, via) =>
      sub = true /\ via = true
      /\ exists form all, form ∈ forms /\ found (form text) (mapValues form cs) all /\ verdictOf all (name, o)
  end.
Proof.
  cbv zeta. unfold matchString. set (text := TrimSpace input).
  assert (forall form r, form ∈ forms -> stringMatchStrategy T (form text) (mapValues form cs) sub = Some r ->
    match r with
    | (name, matchOne, false) => exists form, form ∈ forms /\ accepts (form text) (mapValues form cs) name
    | (name, matchNone, via) => False
    | (name, o, via) => sub = true /\ via = true
        /\ exists form all, form ∈ forms /\ found (form text) (mapValues form cs) all /\ verdictOf all (name, o)
    end) as Hsome.
  { intros form r Hf Hr. pose proof (strategy_spec (form text) (mapValues form cs) sub) as Hs. rewrite Hr in Hs.
    destruct r as [[name []] []]; [| | |by exists form| |];
      destruct Hs as (?&?&all&Hf'&Hv); try done; (split_and!; [done|done|by exists form, all]). }
  assert (forall form, stringMatchStrategy T (form text) (mapValues form cs) sub = None ->
    forall c v, c ∈ cs -> v ∈ mc_validValues c -> removeAccents T (form v) <> removeAccents T (form text)) as Hnone.
  { intros form Hr. pose proof (strategy_spec (form text) (mapValues form cs) sub) as Hs. rewrite Hr in Hs. by apply noValue. }
  pose proof (Hsome id) as S1. pose proof (Hnone id) as N1. rewrite mapValues_id in S1, N1.
  change (id text) with text in S1, N1.
  destruct (stringMatchStrategy T text cs sub) as [[[n o] via]|].
  { specialize (S1 _ ltac:(set_solver) eq_refl). by destruct o, via. }
  pose proof (Hsome (stripPunctuation T)) as S2. pose proof (Hnone (stripPunctuation T)) as N2.
  destruct (stringMatchStrategy T (stripPunctuation T text) _ sub) as [[[n o] via]|].
  { specialize (S2 _ ltac:(set_solver) eq_refl). by destruct o, via. }
  rewrite mapValues_mapValues.
  pose proof (Hsome (fun s => LowerString T (stripPunctuation T s))) as S3.
  pose proof (Hnone (fun s => LowerString T (stripPunctuation T s))) as N3.
  destruct (stringMatchStrategy T (LowerString T (stripPunctuation T text)) _ sub) as [[[n o] via]|].
  { specialize (S3 _ ltac:(set_solver) eq_refl). by destruct o, via. }
  split_and!; [done|done|]. intros form c v Hf Hc Hv. unfold forms in Hf. rewrite !elem_of_cons, elem_of_nil in Hf.
  destruct Hf as [->|[->|[->|[]]]]; [by eapply N1|by eapply N2|by eapply N3].
Qed.

(** Exact wins: when the trimmed input is a value of some candidate, the first
    such candidate is the answer, no substring being considered. *)
Theorem matchString_exact input before c after sub :
  TrimSpace input ∈ mc_validValues c -> (forall c', c' ∈ before -> TrimSpace input ∉ mc_validValues c') ->
  matchString T input (before ++ c :: after) sub = (mc_name c, matchOne, false).
Proof.
  intros Hc Hb. unfold matchString, stringMatchStrategy.
  assert (findCandidate (fun v => v =s TrimSpace input) (before ++ c :: after) = Some (mc_name c)) as ->; [|done].
  induction before as [|d before IH]; simpl.
  - assert (existsb (fun v => v =s TrimSpace input) (mc_validValues c) = true) as ->; [|done].
    apply existsb_exists. exists (TrimSpace input). rewrite <- list_elem_of_In, String.eqb_refl. done.
  - destruct (existsb _ (mc_validValues d)) eqn:E; [|apply IH; intros c' Hc'; apply Hb; set_solver].
    apply existsb_exists in E as (v&Hv&->%String.eqb_eq). rewrite <- list_elem_of_In in Hv. exfalso. apply (Hb d); set_solver.
Qed.
End Verdict.

(** ** Concrete candidates *)

(** The profile restricted to ASCII. *)
Definition asciiTables : tables :=
  mkTables [(65, 90); (97, 122)]%Z [(48, 57)]%Z [] [(65, 90); (97, 122)]%Z []
    ((fun n => (Z.of_nat n, Z.of_nat n + 32)%Z) <$> seq 65 26) [] [] [].

Definition colours : list matchCandidate :=
  [mkCandidate "RED" ["Red"; "warm"; "Red: warm"]; mkCandidate "BLUE" ["Blue"]].

Example match_case : matchString asciiTables " *blue* " colours true = ("BLUE", matchOne, false).
Proof. vm_compute. reflexivity. Qed.
Example match_substring : matchString asciiTables "I take red, red or blue" colours true = ("RED", matchOne, true).
Proof. vm_compute. reflexivity. Qed.
Example match_tie : matchString asciiTables "red or blue" colours true = ("", matchAmbiguous, true).
Proof. vm_compute. reflexivity. Qed.

Lemma matchString_exact_witness : matchString asciiTables " Blue" colours true = ("BLUE", matchOne, false).
Proof.
  apply (matchString_exact asciiTables " Blue" [mkCandidate "RED" ["Red"; "warm"; "Red: warm"]] (mkCandidate "BLUE" ["Blue"]) []).
  - apply list_elem_of_singleton. reflexivity.
  - intros c' ->%list_elem_of_singleton. apply (bool_decide_unpack (TrimSpace " Blue" ∉ _)). vm_compute. exact I.
Defined.
