(* ===== verification/NumberText.v ===== *)
(** * NumberText: reading and writing numbers in the native coercer
    ([internal/debaml/coerce.go], with the parts of [strconv] and [math] it calls)

    Floats are binary64 data ([spec_float]).  Reading a decimal rounds the exact
    rational once; writing takes the shortest decimal that reads back. *)

From Stdlib Require Import Ascii String.
From stdpp Require Import pretty.
From S2P Require Import Prelude GoStrings GoValue GoFloat Jsonish.
Open Scope stdpp_scope.

(** ** [strconv.ParseFloat] *)

(** The binary64 nearest to [m * 10^e]. *)
Definition roundDecimal (neg : bool) (m e : Z) : float64 :=
  match m with
  | Zpos p =>
      if (0 <=? e)%Z then binary_normalize 53 1024 (if neg then - (m * 10 ^ e) else m * 10 ^ e)%Z 0 neg
      else
        match (10 ^ (- e))%Z with
        | Zpos q =>
            let '(mz, ez, lz) := SFdiv_core_binary 53 1024 (Zpos p) 0 (Zpos q) 0 in
            binary_round_aux 53 1024 neg mz ez lz
        | _ => S754_zero neg
        end
  | _ => S754_zero neg
  end.

Definition isNaN (f : float64) : bool := match f with S754_nan => true | _ => false end.
Definition isInf (f : float64) : bool := match f with S754_infinity _ => true | _ => false end.

(** The words [ParseFloat] reads. *)
Definition specialFloat (s : string) : option float64 :=
  let '(neg, t) := signOf s in
  if EqualFold t "inf" || EqualFold t "infinity" then Some (S754_infinity neg)
  else if EqualFold s "nan" then Some S754_nan else None.

(** [parseF64Rust]: decimals and words; an overflow is an error.  Underscores and
    hexadecimal floats are not decimal. *)
Definition parseF64Rust (s : string) : option float64 :=
  match specialFloat s with
  | Some f => Some f
  | None =>
      match readDecimal s with
      | Some (m, e) => if finiteDecimal m e then Some (roundDecimal (fst (signOf s)) m e) else None
      | None => None
      end
  end.

(** [rustF64Parseable]: overflow included. *)
Definition rustF64Parseable (s : string) : bool :=
  bool_decide (is_Some (specialFloat s)) || bool_decide (is_Some (readDecimal s)).

(** ** Rounding to an integer *)

(** [math.Round] of a finite float: half away from zero. *)
Definition roundHalfAway (f : float64) : Z :=
  match f with
  | S754_finite s m e =>
      let a := if (0 <=? e)%Z then (Zpos m * 2 ^ e)%Z
               else ((2 * Zpos m + 2 ^ (- e)) / (2 * 2 ^ (- e)))%Z in
      if s then (- a)%Z else a
  | _ => 0%Z
  end.

(** [i64FromF64Round]: a saturating conversion. *)
Definition i64FromF64Round (f : float64) : Z :=
  match f with
  | S754_nan => 0%Z
  | S754_infinity s => if s then MinInt64 else MaxInt64
  | _ => let r := roundHalfAway f in
         if (MaxInt64 <? r)%Z then MaxInt64 else if (r <? MinInt64)%Z then MinInt64 else r
  end.

(** [i64FromF64RoundOk]. *)
Definition i64FromF64RoundOk (f : float64) : option Z :=
  if isNaN f || isInf f then None else Some (i64FromF64Round f).

(** ** Fractions and embedded numbers *)

(** Division of floats. *)
Definition fdiv : float64 -> float64 -> float64 := SFdiv 53 1024.
Definition isZero (f : float64) : bool := match f with S754_zero _ => true | _ => false end.

(** [floatFromMaybeFraction]. *)
Definition floatFromMaybeFraction (s : string) : option float64 :=
  match CutByte "/" s with
  | None => None
  | Some (l, r) =>
      match parseF64Rust (TrimSpace l), parseF64Rust (TrimSpace r) with
      | Some num, Some den => if isZero den then None else Some (fdiv num den)
      | _, _ => None
      end
  end.

(** [bamlFractionParses]. *)
Definition bamlFractionParses (s : string) : bool :=
  match CutByte "/" s with
  | None => false
  | Some (l, r) =>
      let num := TrimSpace l in let den := TrimSpace r in
      if rustF64Parseable num && rustF64Parseable den
      then negb (match parseF64Rust den with Some d => isZero d | None => false end)
      else false
  end.

(** [extractedNumberRe] at the head of the text: an optional sign and dollar sign;
    digits in groups with a fraction, or a fraction alone; an exponent. *)
Fixpoint digitGroups (fuel : nat) (s : string) : string * string :=
  match fuel, s with
  | S fuel, String c r =>
      if c =c "," then
        match span isDigit r with
        | (EmptyString, _) => (EmptyString, s)
        | (d, r') => let '(g, rest) := digitGroups fuel r' in (String c (d +:+ g), rest)
        end
      else (EmptyString, s)
  | _, _ => (EmptyString, s)
  end.
Definition optionalFraction (s : string) : string * string :=
  match s with
  | String c r =>
      if c =c "." then match span isDigit r with (EmptyString, _) => (EmptyString, s) | (d, r') => (String c d, r') end
      else (EmptyString, s)
  | EmptyString => (EmptyString, s)
  end.
Definition optionalExponent (s : string) : string * string :=
  match s with
  | String c r =>
      if c =c "e" then
        let '(sign, r1) :=
          match r with
          | String g r' => if (g =c "+") || (g =c "-") then (str1 g, r') else (EmptyString, r)
          | EmptyString => (EmptyString, r)
          end in
        match span isDigit r1 with (EmptyString, _) => (EmptyString, s) | (d, r') => (String c (sign +:+ d), r') end
      else (EmptyString, s)
  | EmptyString => (EmptyString, s)
  end.
Definition numberHere (s : string) : option (string * string) :=
  let '(sign, s1) :=
    match s with
    | String c r => if (c =c "-") || (c =c "+") then (str1 c, r) else (EmptyString, s)
    | EmptyString => (EmptyString, s)
    end in
  let '(dollar, s2) :=
    match s1 with
    | String c r => if c =c "$" then (str1 c, r) else (EmptyString, s1)
    | EmptyString => (EmptyString, s1)
    end in
  match span isDigit s2 with
  | (EmptyString, _) =>
      match optionalFraction s2 with
      | (EmptyString, _) => None
      | (f, s3) => let '(e, s4) := optionalExponent s3 in Some (sign +:+ dollar +:+ f +:+ e, s4)
      end
  | (d, s3) =>
      let '(g, s4) := digitGroups (String.length s3) s3 in
      let '(f, s5) := optionalFraction s4 in
      let '(e, s6) := optionalExponent s5 in
      Some (sign +:+ dollar +:+ d +:+ g +:+ f +:+ e, s6)
  end.

(** [FindAllString(s, -1)]: all matches, left to right; [skip] bytes belong to the
    last one. *)
Fixpoint findNumbers (skip : nat) (s : string) : list string :=
  match s with
  | EmptyString => []
  | String _ r =>
      match skip with
      | S skip => findNumbers skip r
      | O =>
          match numberHere s with
          | Some (m, _) => m :: findNumbers (Nat.pred (String.length m)) r
          | None => findNumbers 0 r
          end
      end
  end.

(** The number [floatFromCommaSeparated] parses: the only match, without commas
    and currency symbols (of which a match can hold the dollar sign). *)
Definition onlyNumber (s : string) : option string :=
  match findNumbers 0 s with [m] => Some (removeByte "$" (removeByte "," m)) | _ => None end.

(** [floatFromCommaSeparated] and [bamlCommaNumberParses]. *)
Definition floatFromCommaSeparated (s : string) : option float64 := n ← onlyNumber s; parseF64Rust n.
Definition bamlCommaNumberParses (s : string) : bool :=
  match onlyNumber s with Some n => rustF64Parseable n | None => false end.

(** [trimNumericString] and [bamlStringNumberFails]. *)
Definition trimNumericString (s : string) : string := TrimRightByte "," (TrimSpace s).
Definition bamlStringNumberFails (s : string) : bool :=
  let t := trimNumericString s in
  negb (rustF64Parseable t || bamlFractionParses t || bamlCommaNumberParses t).

(** ** [strconv.FormatFloat] with the shortest precision *)

(** The number of decimal digits of a positive integer. *)
Definition numDigits (z : Z) : Z := Z.of_nat (String.length (pretty z)).

(** The decimal exponent of [p / q]: [10^k <= p / q < 10^(k + 1)]. *)
Definition exponent10 (p q : Z) : Z :=
  if (q <=? p)%Z then (numDigits (p / q) - 1)%Z
  else let c := (- (- q / p))%Z in (- (if (c =? 1)%Z then 0 else numDigits (c - 1)))%Z.

(** The decimals of [n] digits next to [p / q], at the exponent [j] of the last
    digit, that read back as [f]; the nearer one. *)
Definition shortestAt (f : float64) (p q j : Z) : option Z :=
  let '(p, q) := if (0 <=? j)%Z then (p, q * 10 ^ j)%Z else (p * 10 ^ (- j), q)%Z in
  let lo := (p / q)%Z in
  let back d := bool_decide (SFeqb (roundDecimal false d j) f = true) in
  match back lo, back (lo + 1)%Z with
  | true, true => Some (if (2 * (p mod q) <=? q)%Z then lo else lo + 1)%Z
  | true, false => Some lo
  | false, true => Some (lo + 1)%Z
  | false, false => None
  end.
Fixpoint shortestFrom (fuel : nat) (f : float64) (p q k n : Z) (exact : Z * Z) : Z * Z :=
  match fuel with
  | O => exact
  | S fuel =>
      let j := (k - n + 1)%Z in
      match shortestAt f p q j with
      | Some d => (d, j)
      | None => shortestFrom fuel f p q k (n + 1)%Z exact
      end
  end.

(** The digits of a finite float without trailing zeros, and the exponent of ten of
    the leading one.  Seventeen digits are enough for every float; the exact decimal
    is what is left to write otherwise. *)
Definition shortestDigits (f : float64) : string * Z :=
  match f with
  | S754_finite _ m e =>
      let '(p, q) := if (0 <=? e)%Z then (Zpos m * 2 ^ e, 1)%Z else (Zpos m, 2 ^ (- e))%Z in
      let exact := if (0 <=? e)%Z then (Zpos m * 2 ^ e, 0)%Z else (Zpos m * 5 ^ (- e), e)%Z in
      let '(d, j) := shortestFrom 17 (S754_finite false m e) p q (exponent10 p q) 1 exact in
      let digits := pretty d in
      (TrimRightByte "0" digits, j + Z.of_nat (String.length digits) - 1)%Z
  | _ => ("0", 0%Z)
  end.

Definition signBit (f : float64) : bool :=
  match f with S754_zero s | S754_infinity s | S754_finite s _ _ => s | S754_nan => false end.

(** [strings.Repeat("0", n)]. *)
Fixpoint zeros (n : nat) : string := match n with O => EmptyString | S n => String "0" (zeros n) end.

(** The digits before the point of [digits] whose leading digit has exponent [k]. *)
Definition wholePart (digits : string) (k : Z) : string :=
  let n := Z.to_nat (k + 1) in
  if (String.length digits <=? n)%nat then digits +:+ zeros (n - String.length digits) else stake n digits.
Definition fractionPart (digits : string) (k : Z) : string := sdrop (Z.to_nat (k + 1)) digits.

(** Layout ['f'] and layout ['e'] with at least [width] exponent digits. *)
Definition layoutF (digits : string) (k : Z) : string :=
  if (k <? 0)%Z then "0." +:+ zeros (Z.to_nat (- k - 1)) +:+ digits
  else
    let frac := fractionPart digits k in
    wholePart digits k +:+ (if frac =s "" then "" else "." +:+ frac).
Definition layoutE (width : bool) (digits : string) (k : Z) : string :=
  let e := pretty (Z.abs k) in
  stake 1 digits +:+ (if sdrop 1 digits =s "" then "" else "." +:+ sdrop 1 digits)
  +:+ "e" +:+ (if (k <? 0)%Z then "-" else "+") +:+ (if width && (Z.abs k <? 10)%Z then "0" else "") +:+ e.

(** [jsonFloatFormat]: ['e'] below 1e-6 and from 1e21 on, its negative exponent
    without a leading zero. *)
Definition jsonFloatFormat (f : float64) : string :=
  let '(digits, k) := shortestDigits f in
  (if signBit f then "-" else "")
  +:+ (if negb (isZero f) && ((k <? -6)%Z || (21 <=? k)%Z) then layoutE (0 <=? k)%Z digits k else layoutF digits k).

(** [floatRaw]. *)
Definition floatRaw (f : float64) : option string :=
  if isNaN f || isInf f then None else Some (jsonFloatFormat f).

(** [displayFloat64]. *)
Definition displayFloat64 (f : float64) : string :=
  let '(digits, k) := shortestDigits f in
  (if signBit f then "-" else "")
  +:+ (if (k <? -5)%Z || (16 <=? k)%Z
       then stake 1 digits +:+ (if sdrop 1 digits =s "" then "" else "." +:+ sdrop 1 digits) +:+ "e" +:+ pretty k
       else if (0 <=? k)%Z then
         if (Z.of_nat (String.length digits) <=? k + 1)%Z
         then digits +:+ zeros (Z.to_nat (k + 1) - String.length digits) +:+ ".0"
         else stake (Z.to_nat (k + 1)) digits +:+ "." +:+ sdrop (Z.to_nat (k + 1)) digits
       else "0." +:+ zeros (Z.to_nat (- k - 1)) +:+ digits).

(** [isNegZeroToken]. *)
Definition isNegZeroToken (s : string) : bool :=
  match s with
  | String c r => (c =c "-") && (r <>s "") && sall (fun d => d =c "0") r
  | EmptyString => false
  end.

(** [displayNumber]: the text and whether it is certain. *)
Definition displayNumber (s : string) : string * bool :=
  let plain := negb (ContainsByte "." s || ContainsByte "e" s || ContainsByte "E" s) in
  if plain && isNegZeroToken s then ("-0.0", true)
  else
    match (if plain then parseI64Rust s else None), (if plain && negb (HasPrefix s "+") then parseU64Rust s else None) with
    | Some v, _ => (pretty v, true)
    | None, Some v => (pretty v, true)
    | None, None =>
        if parseFloatOk s then
          match parseF64Rust s with Some f => (displayFloat64 f, true) | None => (s, false) end
        else (s, false)
    end.

Example format_examples :
  jsonFloatFormat <$> omap parseF64Rust ["0.1"; "1e21"; "123456.5"; "5e-324"; "1e-7"; "100"; "-0"]
  = ["0.1"; "1e+21"; "123456.5"; "5e-324"; "1e-7"; "100"; "-0"].
Proof. vm_compute. reflexivity. Qed.
