(* ===== verification/PairGuard.v ===== *)
(** * PairGuard: the path-local circular-reference guard
    ([internal/debaml/pair_guard.go])

    A context carries two chains of (class or alias, value) pairs, one per phase of
    a coercion, and the union hint.  A chain of frames is a list whose head is the
    innermost frame; a nil context is the empty one. *)

From Stdlib Require Import Ascii String.
From S2P Require Import Prelude GoStrings Jsonish Schema.
Open Scope stdpp_scope.

(** ** Induction on values, and their size *)

Section ValueInd.
Variable P : value -> Prop.
Hypothesis HNull : forall i, P (valNull i).
Hypothesis HBool : forall i b, P (valBool i b).
Hypothesis HNumber : forall i f t, P (valNumber i f t).
Hypothesis HString : forall i s, P (valString i s).
Hypothesis HArray : forall i xs, Forall P xs -> P (valArray i xs).
Hypothesis HObject : forall i fs, Forall (fun f => P f.2) fs -> P (valObject i fs).

Fixpoint value_induction (v : value) : P v :=
  match v with
  | valNull i => HNull i
  | valBool i b => HBool i b
  | valNumber i f t => HNumber i f t
  | valString i s => HString i s
  | valArray i xs =>
      HArray i xs ((fix all (xs : list value) : Forall P xs :=
        match xs with [] => Forall_nil_2 _ | x :: xs => Forall_cons_2 _ _ _ (value_induction x) (all xs) end) xs)
  | valObject i fs =>
      HObject i fs ((fix all (fs : list (string * value)) : Forall (fun f => P f.2) fs :=
        match fs with [] => Forall_nil_2 _ | f :: fs => Forall_cons_2 _ _ _ (value_induction f.2) (all fs) end) fs)
  end.
End ValueInd.

(** The number of nodes. *)
Fixpoint vsize (v : value) : nat :=
  match v with
  | valArray _ xs => S (list_sum (vsize <$> xs))
  | valObject _ fs => S (list_sum ((fun f => vsize f.2) <$> fs))
  | _ => 1
  end.

Lemma vsize_pos v : (0 < vsize v)%nat.
Proof. destruct v; simpl; lia. Qed.

Lemma list_sum_elem {A} (f : A -> nat) x l : x ∈ l -> (f x <= list_sum (f <$> l))%nat.
Proof. induction 1; csimpl; lia. Qed.

Lemma vsize_item i x xs : x ∈ xs -> (vsize x < vsize (valArray i xs))%nat.
Proof. intros H%(list_sum_elem vsize). simpl. lia. Qed.

Lemma vsize_field i f fs : f ∈ fs -> (vsize f.2 < vsize (valObject i fs))%nat.
Proof. intros H%(list_sum_elem (fun f => vsize f.2)). simpl. lia. Qed.

(** ** Structural equality *)

(** [valueEqual]: completion state included; the number model of a token is not
    compared. *)
Fixpoint valueEqual (a b : value) : bool :=
  match a, b with
  | valNull i, valNull j => Bool.eqb i j
  | valBool i x, valBool j y => Bool.eqb i j && Bool.eqb x y
  | valNumber i _ s, valNumber j _ t => Bool.eqb i j && (s =s t)
  | valString i s, valString j t => Bool.eqb i j && (s =s t)
  | valArray i xs, valArray j ys =>
      Bool.eqb i j
      && (fix all (xs ys : list value) : bool :=
            match xs, ys with
            | [], [] => true
            | x :: xs, y :: ys => valueEqual x y && all xs ys
            | _, _ => false
            end) xs ys
  | valObject i fs, valObject j gs =>
      Bool.eqb i j
      && (fix all (fs gs : list (string * value)) : bool :=
            match fs, gs with
            | [], [] => true
            | f :: fs, g :: gs => (f.1 =s g.1) && valueEqual f.2 g.2 && all fs gs
            | _, _ => false
            end) fs gs
  | _, _ => false
  end.

(** What the comparison looks at. *)
Fixpoint erase (v : value) : value :=
  match v with
  | valNumber i _ t => valNumber i false t
  | valArray i xs => valArray i (erase <$> xs)
  | valObject i fs => valObject i ((fun f => (f.1, erase f.2)) <$> fs)
  | v => v
  end.

Lemma valueEqual_spec a b : valueEqual a b = true <-> erase a = erase b.
Proof.
  revert b. induction a as [i|i x|i f s|i s|i xs IH|i fs IH] using value_induction; intros [j|j y|j g t|j t|j ys|j gs];
    cbn [valueEqual erase]; rewrite ?andb_true_iff, ?eqb_true_iff, ?String.eqb_eq;
    try (split; [intros; destruct_and?; by subst|by inversion 1]).
  - revert ys. assert (E : forall ys, (fix all (xs ys : list value) : bool :=
            match xs, ys with
            | [], [] => true
            | x :: xs, y :: ys => valueEqual x y && all xs ys
            | _, _ => false
            end) xs ys = true <-> erase <$> xs = erase <$> ys).
    { induction IH as [|x xs Hx _ IH]; intros [|y ys]; csimpl; try done.
      rewrite andb_true_iff, Hx, IH. split; [by intros [-> ->]|by inversion 1]. }
    intros ys. rewrite E. split; [by intros [-> ->]|by inversion 1].
  - assert (E : forall gs, (fix all (fs gs : list (string * value)) : bool :=
            match fs, gs with
            | [], [] => true
            | f :: fs, g :: gs => (f.1 =s g.1) && valueEqual f.2 g.2 && all fs gs
            | _, _ => false
            end) fs gs = true
            <-> (fun f => (f.1, erase f.2)) <$> fs = (fun f => (f.1, erase f.2)) <$> gs).
    { clear gs. induction IH as [|f fs Hf _ IH]; intros [|g gs]; csimpl; try done.
      rewrite !andb_true_iff, String.eqb_eq, Hf, IH.
      split; [by intros [[-> ->] ->]|inversion 1; subst; done]. }
    rewrite E. split; [by intros [-> ->]|by inversion 1].
Qed.

Lemma valueEqual_refl v : valueEqual v v = true.
Proof. by apply valueEqual_spec. Qed.

#[export] Instance valueEqual_equiv : Equivalence (fun a b => valueEqual a b = true).
Proof.
  split.
  - intros v. apply valueEqual_refl.
  - intros a b. rewrite !valueEqual_spec. done.
  - intros a b c. rewrite !valueEqual_spec. congruence.
Qed.

Lemma vsize_erase v : vsize (erase v) = vsize v.
Proof.
  induction v as [| | | |i xs IH|i fs IH] using value_induction; cbn [erase vsize]; try done; f_equal; f_equal;
    rewrite <- list_fmap_compose; apply Forall_fmap_ext_1; exact IH.
Qed.

(** A part of a value is never equal to the whole. *)
Lemma valueEqual_size a b : valueEqual a b = true -> vsize a = vsize b.
Proof. rewrite valueEqual_spec. intros E. by rewrite <- (vsize_erase a), <- (vsize_erase b), E. Qed.

(** ** Contexts *)

(** [pairKey]: a class and an alias of the same name are different keys. *)
Inductive pairKey := classPairKey (k : ClassKey) | aliasPairKey (name : string).
#[export] Instance pairKey_eq_dec : EqDecision pairKey.
Proof. solve_decision. Defined.

(** [coerceCtx]. *)
Record coerceCtx := mkCtx {
  coerceChain : list (pairKey * value);
  tryCastChain : list (pairKey * value);
  unionHint : option nat
}.
Definition emptyCtx : coerceCtx := mkCtx [] [] None.

(** [has]. *)
Definition has (chain : list (pairKey * value)) (key : pairKey) (v : value) : bool :=
  existsb (fun f => bool_decide (f.1 = key) && valueEqual f.2 v) chain.
Definition coerceHas (c : coerceCtx) (key : ClassKey) (v : value) : bool := has (coerceChain c) (classPairKey key) v.
Definition tryCastHas (c : coerceCtx) (key : ClassKey) (v : value) : bool := has (tryCastChain c) (classPairKey key) v.

(** [enterCoerceKey], [enterTryCastKey], [enterScope] and [enterScopeWithHint]. *)
Definition enterCoerceKey (c : coerceCtx) (key : pairKey) (v : value) : coerceCtx :=
  mkCtx ((key, v) :: coerceChain c) (tryCastChain c) None.
Definition enterTryCastKey (c : coerceCtx) (key : pairKey) (v : value) : coerceCtx :=
  mkCtx (coerceChain c) ((key, v) :: tryCastChain c) None.
Definition enterCoerce (c : coerceCtx) (key : ClassKey) (v : value) : coerceCtx := enterCoerceKey c (classPairKey key) v.
Definition enterTryCast (c : coerceCtx) (key : ClassKey) (v : value) : coerceCtx := enterTryCastKey c (classPairKey key) v.
Definition enterScopeWithHint (c : coerceCtx) (hint : option nat) : coerceCtx :=
  mkCtx (coerceChain c) (tryCastChain c) hint.
Definition enterScope (c : coerceCtx) : coerceCtx := enterScopeWithHint c None.

Lemma has_cons key' w chain key v :
  has ((key', w) :: chain) key v = (bool_decide (key' = key) && valueEqual w v) || has chain key v.
Proof. done. Qed.

(** ** The measure

    How many of the keys [ks] are not yet on the chain with the value [v]. *)
Definition openPairs (ks : list ClassKey) (chain : list (pairKey * value)) (v : value) : nat :=
  length (filter (fun k => negb (has chain (classPairKey k) v) = true) ks).

Lemma openPairs_bound ks chain v : (openPairs ks chain v <= length ks)%nat.
Proof. apply length_filter. Qed.

Lemma filter_length_le {A} (P Q : A -> bool) l : (forall x, P x = true -> Q x = true) ->
  (length (filter (fun x => P x = true) l) <= length (filter (fun x => Q x = true) l))%nat.
Proof.
  intros H. induction l as [|x l IH]; [done|]. rewrite !filter_cons.
  repeat case_decide; simpl; try lia; naive_solver.
Qed.

Lemma openPairs_enter ks chain k v : k ∈ ks -> has chain (classPairKey k) v = false ->
  (openPairs ks ((classPairKey k, v) :: chain) v < openPairs ks chain v)%nat.
Proof.
  unfold openPairs. intros Hk Hf. set (P c k' := negb (has c (classPairKey k') v)).
  change (length (filter (fun k' => P ((classPairKey k, v) :: chain) k' = true) ks)
    < length (filter (fun k' => P chain k' = true) ks))%nat.
  assert (HP : forall k', P ((classPairKey k, v) :: chain) k' = true -> P chain k' = true).
  { intros k'. unfold P. rewrite has_cons, !negb_true_iff, orb_false_iff. naive_solver. }
  assert (Hn : P ((classPairKey k, v) :: chain) k = false).
  { unfold P. rewrite has_cons, valueEqual_refl. by rewrite bool_decide_true by done. }
  assert (Hy : P chain k = true) by (unfold P; by rewrite Hf).
  clearbody P. induction ks as [|x l IH]; [set_solver|]. rewrite !filter_cons. apply elem_of_cons in Hk as [->|Hk].
  - rewrite Hn, Hy. simpl. pose proof (filter_length_le _ _ l HP). lia.
  - specialize (IH Hk). specialize (HP x). repeat case_decide; simpl; try lia; naive_solver.
Qed.
