(* ===== verification/Candidate.v ===== *)
(** * Candidate: scores, errors and the selection of the best candidate
    ([internal/debaml/coerce.go], the score model and [pickBest])

    A coercion works on an accumulator of score-bearing conditions and returns the
    output text or an error: the monad [M] threads the accumulator, which keeps
    what was recorded before an error.  A nil accumulator is an accumulator that
    nobody reads.  Scores are sums over the nodes of one value, far from the bounds
    of an [int], and are [Z].  Messages of errors are left out. *)

From Stdlib Require Import Ascii String.
From S2P Require Import Prelude.
Open Scope stdpp_scope.

(** ** Errors *)

(** The kinds of error: the fallback sentinel ([unsupported]), a provable BAML
    error ([provenErr]), a claimed verdict ([mismatchError]), the internal signals
    [errUnionAllArmsFailed] and [errStreamDeleted], a circular reference, and the
    failures that no supported input reaches.  [OutOfFuel] belongs to the model. *)
Inductive CoerceErr :=
  | Unsupported | Proven | Mismatch | UnionAllArmsFailed | StreamDeleted | Circular | Hard | OutOfFuel.
#[export] Instance CoerceErr_eq_dec : EqDecision CoerceErr.
Proof. solve_decision. Defined.

(** [errors.Is(err, ErrDeBAMLParseUnsupported)]. *)
Definition isUnsupported (e : CoerceErr) : bool :=
  match e with Unsupported | Proven | UnionAllArmsFailed => true | _ => false end.

(** [isClaimedMismatch], [declinableChildError] and [isProvenBamlError]. *)
Definition isClaimedMismatch (e : CoerceErr) : bool := match e with Mismatch => true | _ => false end.
Definition declinableChildError (e : CoerceErr) : bool := isUnsupported e || isClaimedMismatch e.
Definition isProvenBamlError (e : CoerceErr) : bool := match e with Mismatch | Proven => true | _ => false end.

(** ** Accumulators and candidates *)

(** [candKind]. *)
Inductive candKind := candScalar | candEnum | candNull | candList | candMap | candClass.
#[export] Instance candKind_eq_dec : EqDecision candKind.
Proof. solve_decision. Defined.
Definition isComposite (k : candKind) : bool := match k with candList | candMap | candClass => true | _ => false end.
Definition isListKind (k : candKind) : bool := match k with candList => true | _ => false end.
Definition isClassKind (k : candKind) : bool := match k with candClass => true | _ => false end.

(** The discriminators that [coerceFlags] and [candidate] share. *)
Record conditions := mkConditions {
  kind : candKind;
  singleToArray : bool;
  itemsEmpty : bool;
  arrayItemErrors : Z;
  firstItemMarkdown : bool;
  hasJsonToString : bool;
  hasFirstMatch : bool;
  hasUnionMatch : bool;
  unionArmIdx : nat;
  classPropCount : Z;
  classAllDefault : bool;
  classSingleImplied : bool
}.
Definition noConditions : conditions := mkConditions candScalar false false 0 false false false false 0 0 false false.

(** [coerceFlags]. *)
Record coerceFlags := mkFlags {
  score : Z;
  uncertain : bool;
  scoreUnknown : bool;
  targetIsUnion : bool;
  conds : conditions
}.
Definition newFlags (targetIsUnion : bool) : coerceFlags := mkFlags 0 false false targetIsUnion noConditions.

(** [candidate]. *)
Record candidate := mkCand {
  output : string;
  originIndex : nat;
  cand_score : Z;
  cand_unknown : bool;
  cand_conds : conditions
}.

Definition withKind (k : candKind) (c : conditions) : conditions :=
  mkConditions k (singleToArray c) (itemsEmpty c) (arrayItemErrors c) (firstItemMarkdown c) (hasJsonToString c)
    (hasFirstMatch c) (hasUnionMatch c) (unionArmIdx c) (classPropCount c) (classAllDefault c) (classSingleImplied c).
Definition withJsonToString (c : conditions) : conditions :=
  mkConditions (kind c) (singleToArray c) (itemsEmpty c) (arrayItemErrors c) (firstItemMarkdown c) true
    (hasFirstMatch c) (hasUnionMatch c) (unionArmIdx c) (classPropCount c) (classAllDefault c) (classSingleImplied c).
Definition withFirstMatch (c : conditions) : conditions :=
  mkConditions (kind c) (singleToArray c) (itemsEmpty c) (arrayItemErrors c) (firstItemMarkdown c) (hasJsonToString c)
    true (hasUnionMatch c) (unionArmIdx c) (classPropCount c) (classAllDefault c) (classSingleImplied c).
Definition withUnionMatch (arm : nat) (c : conditions) : conditions :=
  mkConditions (kind c) (singleToArray c) (itemsEmpty c) (arrayItemErrors c) (firstItemMarkdown c) (hasJsonToString c)
    (hasFirstMatch c) true arm (classPropCount c) (classAllDefault c) (classSingleImplied c).
Definition withSingleToArray (c : conditions) : conditions :=
  mkConditions (kind c) true (itemsEmpty c) (arrayItemErrors c) (firstItemMarkdown c) (hasJsonToString c)
    (hasFirstMatch c) (hasUnionMatch c) (unionArmIdx c) (classPropCount c) (classAllDefault c) (classSingleImplied c).
Definition withItems (isEmpty : bool) (errors : Z) (c : conditions) : conditions :=
  mkConditions (kind c) (singleToArray c) isEmpty errors (firstItemMarkdown c) (hasJsonToString c)
    (hasFirstMatch c) (hasUnionMatch c) (unionArmIdx c) (classPropCount c) (classAllDefault c) (classSingleImplied c).
Definition withClass (props : Z) (allDefault singleImplied : bool) (c : conditions) : conditions :=
  mkConditions (kind c) (singleToArray c) (itemsEmpty c) (arrayItemErrors c) (firstItemMarkdown c) (hasJsonToString c)
    (hasFirstMatch c) (hasUnionMatch c) (unionArmIdx c) props allDefault singleImplied.

(** [add], [markUncertain], [markScoreUnknown] and the changes of the conditions. *)
Definition addScore (w : Z) (f : coerceFlags) : coerceFlags :=
  mkFlags (score f + w) (uncertain f) (scoreUnknown f) (targetIsUnion f) (conds f).
Definition setUncertain (f : coerceFlags) : coerceFlags :=
  mkFlags (score f) true (scoreUnknown f) (targetIsUnion f) (conds f).
Definition setScoreUnknown (f : coerceFlags) : coerceFlags :=
  mkFlags (score f) (uncertain f) true (targetIsUnion f) (conds f).
Definition onConds (g : conditions -> conditions) (f : coerceFlags) : coerceFlags :=
  mkFlags (score f) (uncertain f) (scoreUnknown f) (targetIsUnion f) (g (conds f)).

(** [foldChild]: the score, and what spoils a verdict or a ranking. *)
Definition foldFlags (child f : coerceFlags) : coerceFlags :=
  mkFlags (score f + score child) (uncertain f || uncertain child) (scoreUnknown f || scoreUnknown child)
    (targetIsUnion f) (conds f).

(** [absorb] and [toCandidate]. *)
Definition absorbCandidate (w : candidate) (f : coerceFlags) : coerceFlags :=
  mkFlags (score f + cand_score w) (uncertain f) (scoreUnknown f || cand_unknown w) (targetIsUnion f) (cand_conds w).
Definition toCandidate (f : coerceFlags) (out : string) (originIndex : nat) : candidate :=
  mkCand out originIndex (score f) (scoreUnknown f) (conds f).

Definition onCandConds (g : conditions -> conditions) (c : candidate) : candidate :=
  mkCand (output c) (originIndex c) (cand_score c) (cand_unknown c) (g (cand_conds c)).

(** [siblingHint] and [candSiblingHint]. *)
Definition hintOf (c : conditions) : option nat := if hasUnionMatch c then Some (unionArmIdx c) else None.

(** ** The monad *)

Definition M (A : Type) : Type := coerceFlags -> coerceFlags * (A + CoerceErr).
Definition ret {A} (a : A) : M A := fun f => (f, inl a).
Definition fail {A} (e : CoerceErr) : M A := fun f => (f, inr e).
Definition bindM {A B} (m : M A) (k : A -> M B) : M B :=
  fun f => let '(f, r) := m f in match r with inl a => k a f | inr e => (f, inr e) end.
Definition modify (g : coerceFlags -> coerceFlags) : M unit := fun f => (g f, inl tt).
Definition getFlags : M coerceFlags := fun f => (f, inl f).
Definition lift {A} (r : A + CoerceErr) : M A := fun f => (f, r).
Notation "x <~ m ';;' k" := (bindM m (fun x => k)) (at level 100, m at next level, right associativity) : go_scope.
Notation "m ';;;' k" := (bindM m (fun _ => k)) (at level 100, right associativity) : go_scope.

(** The operations of the accumulator as steps. *)
Definition add (w : Z) : M unit := modify (addScore w).
Definition setKind (k : candKind) : M unit := modify (onConds (withKind k)).
Definition markUncertain : M unit := modify setUncertain.
Definition markScoreUnknown : M unit := modify setScoreUnknown.
Definition foldChild (child : coerceFlags) : M unit := modify (foldFlags child).
Definition absorb (w : candidate) : M unit := modify (absorbCandidate w).

(** Errors of a result. *)
Definition thenR {A B} (r : A + CoerceErr) (k : A -> B + CoerceErr) : B + CoerceErr :=
  match r with inl a => k a | inr e => inr e end.
Notation "x <== r ';;' k" := (thenR r (fun x => k)) (at level 100, r at next level, right associativity) : go_scope.

(** ** [pickBest] *)

(** [isDefaultList] and [nullCandidate]. *)
Definition isDefaultList (c : candidate) : bool :=
  isListKind (kind (cand_conds c)) && itemsEmpty (cand_conds c) && singleToArray (cand_conds c).
Definition nullConditions : conditions := withKind candNull noConditions.
Definition nullCandidate (originIndex : nat) : candidate := mkCand "null" originIndex 110 false nullConditions.

(** Two candidates one of which has a flaw: the other goes first. *)
Definition flawLast (a b : bool) : comparison :=
  match a, b with true, false => Gt | false, true => Lt | _, _ => Eq end.
Definition andThen (c d : comparison) : comparison := match c with Eq => d | _ => c end.

(** The list rules of [cmpCandidates]. *)
Definition cmpLists (a b : conditions) : comparison :=
  andThen (flawLast (singleToArray a) (singleToArray b))
    (andThen (flawLast (firstItemMarkdown a) (firstItemMarkdown b))
      (if (arrayItemErrors a =? 0)%Z && (0 <? arrayItemErrors b)%Z && itemsEmpty b then Lt
       else if (0 <? arrayItemErrors a)%Z && (arrayItemErrors b =? 0)%Z && itemsEmpty a then Gt
       else Eq)).

(** The class rules. *)
Definition cmpClasses (targetIsUnion : bool) (a b : conditions) : comparison :=
  andThen (if targetIsUnion then flawLast (classSingleImplied a) (classSingleImplied b) else Eq)
    (flawLast (classAllDefault a) (classAllDefault b)).

(** A scalar cast from JSON or taken from an array, against a composite. *)
Definition castScalar (a b : conditions) : bool :=
  negb (isComposite (kind a)) && isComposite (kind b) && (hasJsonToString a || hasFirstMatch a).

(** [cmpCandidates]; [Lt] is a negative result. *)
Definition cmpCandidates (targetIsUnion : bool) (a b : candidate) : comparison :=
  let ca := cand_conds a in let cb := cand_conds b in
  andThen (if isListKind (kind ca) && isListKind (kind cb) then cmpLists ca cb else Eq)
    (andThen (if isClassKind (kind ca) && isClassKind (kind cb) then cmpClasses targetIsUnion ca cb else Eq)
      (if castScalar ca cb then Gt else if castScalar cb ca then Lt
       else
         andThen (flawLast (isDefaultList a) (isDefaultList b))
           (andThen (cand_score a ?= cand_score b)%Z (originIndex a ?= originIndex b)%nat))).

(** The pairwise scan for a minimum. *)
Fixpoint minScan (targetIsUnion : bool) (i : nat) (cs : list candidate) (best : nat) (c : candidate) : nat * candidate :=
  match cs with
  | [] => (best, c)
  | d :: cs =>
      match cmpCandidates targetIsUnion d c with
      | Lt => minScan targetIsUnion (S i) cs i d
      | _ => minScan targetIsUnion (S i) cs best c
      end
  end.

(** No other candidate goes before [c], the one at [best]. *)
Fixpoint consistent (targetIsUnion : bool) (i best : nat) (c : candidate) (cs : list candidate) : bool :=
  match cs with
  | [] => true
  | d :: cs =>
      (Nat.eqb i best || match cmpCandidates targetIsUnion c d with Gt => false | _ => true end)
      && consistent targetIsUnion (S i) best c cs
  end.

(** [pickBest]. *)
Definition pickBest (targetIsUnion : bool) (cs : list candidate) : nat + CoerceErr :=
  match cs with
  | [] => inr Unsupported
  | c :: rest =>
      if existsb cand_unknown cs then inr Unsupported
      else
        match rest with
        | [] => inl 0
        | _ =>
            let '(best, w) := minScan targetIsUnion 1 rest 0 c in
            if consistent targetIsUnion 0 best w cs then inl best else inr Unsupported
        end
  end.

(** The winner itself. *)
Definition pickCandidate (targetIsUnion : bool) (cs : list candidate) : (nat * candidate) + CoerceErr :=
  match pickBest targetIsUnion cs with
  | inl i => match cs !! i with Some c => inl (i, c) | None => inr Hard end
  | inr e => inr e
  end.

(** ** The comparison *)

Lemma flawLast_opp a b : CompOpp (flawLast a b) = flawLast b a.
Proof. by destruct a, b. Qed.

Lemma andThen_opp c d : CompOpp (andThen c d) = andThen (CompOpp c) (CompOpp d).
Proof. by destruct c. Qed.

Lemma cmpLists_opp a b : CompOpp (cmpLists a b) = cmpLists b a.
Proof.
  unfold cmpLists. rewrite !andThen_opp, !flawLast_opp. f_equal. f_equal.
  destruct (arrayItemErrors a =? 0)%Z eqn:?, (arrayItemErrors b =? 0)%Z eqn:?, (0 <? arrayItemErrors a)%Z eqn:?,
    (0 <? arrayItemErrors b)%Z eqn:?, (itemsEmpty a), (itemsEmpty b); try done; lia.
Qed.

Lemma cmpClasses_opp u a b : CompOpp (cmpClasses u a b) = cmpClasses u b a.
Proof. unfold cmpClasses. rewrite andThen_opp, flawLast_opp. by destruct u; rewrite ?flawLast_opp. Qed.

(** Swapping the candidates turns the verdict round. *)
Lemma cmpCandidates_opp u a b : CompOpp (cmpCandidates u a b) = cmpCandidates u b a.
Proof.
  unfold cmpCandidates. rewrite !andThen_opp. f_equal; [|f_equal].
  - rewrite (andb_comm (isListKind (kind (cand_conds b)))). case_match; [apply cmpLists_opp|done].
  - rewrite (andb_comm (isClassKind (kind (cand_conds b)))). case_match; [apply cmpClasses_opp|done].
  - unfold castScalar.
    destruct (isComposite (kind (cand_conds a))), (isComposite (kind (cand_conds b))); cbn [negb andb];
      repeat case_match; rewrite ?andThen_opp, ?flawLast_opp, <- ?Z.compare_antisym, <- ?Nat.compare_antisym; done.
Qed.

Lemma cmpCandidates_eq u a b : cmpCandidates u a b = Eq -> originIndex a = originIndex b.
Proof.
  unfold cmpCandidates. intros H.
  destruct (if _ : bool then cmpLists _ _ else _); try done. destruct (if _ : bool then cmpClasses _ _ _ else _); try done.
  cbn [andThen] in H. repeat (case_match; try done).
  destruct (flawLast _ _); try done. destruct (_ ?= _)%Z; try done. by apply Nat.compare_eq.
Qed.

(** ** The selection *)

(** [w] at [i] goes strictly before every other candidate. *)
Definition strictMin (u : bool) (cs : list candidate) (i : nat) (w : candidate) : Prop :=
  cs !! i = Some w /\ forall j c, cs !! j = Some c -> j <> i -> cmpCandidates u w c = Lt.

Lemma minScan_in u cs : forall pre best c b w, pre !! best = Some c ->
  minScan u (length pre) cs best c = (b, w) -> (pre ++ cs) !! b = Some w.
Proof.
  induction cs as [|d cs IH]; intros pre best c b w Hc; simpl.
  - intros [= <- <-]. by rewrite app_nil_r.
  - rewrite (cons_middle d pre cs), app_assoc. specialize (IH (pre ++ [d])). rewrite length_app, Nat.add_1_r in IH.
    case_match; apply IH; try (by apply lookup_app_l_Some). by apply list_lookup_middle.
Qed.

Lemma minScan_min u cs : forall pre best c i w, pre !! best = Some c -> strictMin u (pre ++ cs) i w ->
  (i < length pre -> best = i)%nat -> fst (minScan u (length pre) cs best c) = i.
Proof.
  induction cs as [|d cs IH]; intros pre best c i w Hc [Hi Hm] Hb; simpl.
  - apply Hb. rewrite app_nil_r in Hi. by eapply lookup_lt_Some.
  - rewrite (cons_middle d pre cs), app_assoc in Hi, Hm. specialize (IH (pre ++ [d])).
    rewrite length_app, Nat.add_1_r in IH. specialize (IH). pose proof (lookup_lt_Some _ _ _ Hc) as Hlt.
    assert (Hd : ((pre ++ [d]) ++ cs) !! length pre = Some d).
    { rewrite <- app_assoc. by apply list_lookup_middle. }
    assert (Hbc : ((pre ++ [d]) ++ cs) !! best = Some c) by (rewrite <- app_assoc; by apply lookup_app_l_Some).
    destruct (decide (i = length pre)) as [->|Hne].
    + assert (d = w) as -> by congruence. rewrite (Hm best c Hbc) by lia.
      eapply IH; [by apply list_lookup_middle|by split|done].
    + destruct (decide (i < length pre)%nat) as [Hl|Hl].
      * specialize (Hb Hl) as ->. assert (c = w) as -> by congruence.
        rewrite <- cmpCandidates_opp, (Hm _ _ Hd) by done. simpl.
        eapply IH; [by apply lookup_app_l_Some|by split|done].
      * case_match; (eapply IH; [|by split|lia]); first [by apply lookup_app_l_Some|by apply list_lookup_middle].
Qed.

Lemma consistent_spec u best c cs : forall i, consistent u i best c cs = true <->
  forall j d, cs !! j = Some d -> (i + j)%nat <> best -> cmpCandidates u c d <> Gt.
Proof.
  induction cs as [|d cs IH]; intros i; simpl; [naive_solver|].
  rewrite andb_true_iff, orb_true_iff, Nat.eqb_eq, IH. split.
  - intros [H1 H2] [|j] d'; simpl.
    + intros [= ->]. rewrite Nat.add_0_r. intros. destruct H1; [done|]. by destruct (cmpCandidates u c d').
    + intros Hj Hn. apply (H2 _ _ Hj). lia.
  - intros H. split.
    + destruct (decide (i = best)) as [->|Hn]; [by left|right]. specialize (H 0 d eq_refl).
      rewrite Nat.add_0_r in H. specialize (H Hn). by destruct (cmpCandidates u c d).
    + intros j d' Hj Hn. apply (H (S j) d' Hj). lia.
Qed.

(** On candidates with distinct positions [pickBest] answers exactly with the
    candidate that goes strictly before every other one, although the comparison
    is not transitive; without one, or when a score is not known, it declines. *)
Theorem pickBest_exact u cs i : NoDup (originIndex <$> cs) -> cs <> [] ->
  pickBest u cs = inl i <-> (Forall (fun c => cand_unknown c = false) cs /\ exists w, strictMin u cs i w).
Proof.
  intros Hnd Hne. destruct cs as [|c rest]; [done|]. clear Hne. unfold pickBest.
  destruct (existsb cand_unknown (c :: rest)) eqn:Hu.
  { split; [done|]. intros [Hk _]. apply existsb_exists in Hu as (d&Hd&Hu).
    rewrite Forall_forall in Hk. rewrite <- list_elem_of_In in Hd. specialize (Hk d Hd). congruence. }
  apply existsb_false_forall in Hu. destruct rest as [|d rest].
  { split.
    - intros [= <-]. split; [done|]. exists c. split; [done|]. by intros [|j] ? [=] ?.
    - intros [_ [w [Hw _]]]. by destruct i. }
  destruct (minScan _ _ _ _ _) as [best w] eqn:Hs.
  pose proof (minScan_in u (d :: rest) [c] 0 c best w eq_refl Hs) as Hw. change ([c] ++ d :: rest) with (c :: d :: rest) in Hw.
  split.
  - destruct (consistent _ _ _ _ _) eqn:Hc; [|done]. intros [= <-]. split; [done|]. exists w. split; [done|].
    rewrite consistent_spec in Hc. intros j e He Hj. specialize (Hc j e He Hj).
    destruct (cmpCandidates u w e) eqn:Hcmp; [|done|done]. apply cmpCandidates_eq in Hcmp. exfalso. apply Hj.
    eapply (NoDup_lookup _ j best _ Hnd); rewrite list_lookup_fmap; [by rewrite He|rewrite Hw; simpl; by rewrite Hcmp].
  - intros [_ [v [Hv Hm]]].
    assert (best = i) as ->.
    { transitivity (fst (best, w)); [done|]. rewrite <- Hs.
      eapply (minScan_min u (d :: rest) [c] 0 c i v eq_refl); [by split|]. simpl. lia. }
    assert (v = w) as -> by congruence.
    rewrite (proj2 (consistent_spec u i w (c :: d :: rest) 0)); [done|].
    intros j e He Hj. by rewrite (Hm j e He).
Qed.

Lemma pickBest_error u cs e : pickBest u cs = inr e -> e = Unsupported.
Proof. unfold pickBest. repeat case_match; naive_solver. Qed.

Lemma minScan_bound u cs i best c : (best < i)%nat -> (fst (minScan u i cs best c) < i + length cs)%nat.
Proof.
  revert i best c. induction cs as [|d cs IH]; intros i best c H; simpl; [lia|].
  case_match; (eapply Nat.lt_le_trans; [apply IH; lia|lia]).
Qed.

Lemma pickBest_lookup u cs i : pickBest u cs = inl i -> is_Some (cs !! i).
Proof.
  destruct cs as [|c rest]; [done|]. unfold pickBest. case_match; [done|]. destruct rest as [|d rest].
  { intros [= <-]. by eexists. }
  destruct (minScan _ _ _ _ _) as [best w] eqn:Hs. case_match; [|done]. intros [= <-].
  apply lookup_lt_is_Some. pose proof (minScan_bound u (d :: rest) 1 0 c) as Hb. rewrite Hs in Hb. simpl in *. lia.
Qed.

Lemma pickCandidate_spec u cs : match pickCandidate u cs with
  | inl (i, c) => cs !! i = Some c
  | inr e => e = Unsupported
  end.
Proof.
  unfold pickCandidate. destruct (pickBest u cs) as [i|e] eqn:H; [|by eapply pickBest_error].
  destruct (pickBest_lookup _ _ _ H) as [c Hc]. by rewrite Hc.
Qed.

(** The three-way cycle: an ordinary class, an all-default class and the null arm. *)
Example pickBest_cycle :
  pickBest true [mkCand "{a}" 0 111 false (withKind candClass noConditions);
                 mkCand "{b}" 1 100 false (withClass 1 true false (withKind candClass noConditions));
                 nullCandidate 2] = inr Unsupported.
Proof. reflexivity. Qed.

Lemma pickBest_exact_witness :
  pickBest true [mkCand "1" 0 1 false noConditions; nullCandidate 1] = inl 0.
Proof.
  apply pickBest_exact.
  - apply (bool_decide_unpack _). vm_compute. exact I.
  - done.
  - split; [repeat constructor|]. exists (mkCand "1" 0 1 false noConditions). split; [reflexivity|].
    intros [|[|j]] c [= <-] Hj; [done|reflexivity].
Defined.
