(* ===== verification/OutputText.v ===== *)
(** * OutputText: the texts the native coercer writes
    ([internal/debaml/coerce.go]: [marshalJSON], [boolRaw], [displayValue])

    A [json.RawMessage] is its text.  [quoteJSON] is the string encoder
    of [encoding/json], with or without HTML escaping. *)

From Stdlib Require Import Ascii String.
From stdpp Require Import pretty.
From S2P Require Import Prelude GoStrings Jsonish NumberText PairGuard.
Open Scope stdpp_scope.

(** ** Strings *)

Definition hexChar (n : Z) : ascii := if (n <? 10)%Z then chr (48 + n)%Z else chr (87 + n)%Z.

Section Encode.
Variable html : bool.

(** An ASCII character between quotes. *)
Definition escapeASCII (c : ascii) : string :=
  if (c =c bs) || (c =c dq) then String bs (str1 c)
  else if c =c "008" then "\b" else if c =c "012" then "\f" else if c =c "010" then "\n"
  else if c =c "013" then "\r" else if c =c "009" then "\t"
  else if (code c <? 32)%Z || html && ((c =c "<") || (c =c ">") || (c =c "&")) then "\u00" +:+ String (hexChar (code c / 16)) (str1 (hexChar (code c mod 16)))
  else str1 c.

(** The text for the character at the head, and how many more bytes it covers. *)
Definition escapeStep (c : ascii) (r : string) : string * nat :=
  if (code c <? 128)%Z then (escapeASCII c, 0)
  else
    match utf8Len (String c r) with
    | None => ("\ufffd", 0)
    | Some n =>
        let t := stake n (String c r) in
        (if t =s encodeRune 8232 then "\u2028" else if t =s encodeRune 8233 then "\u2029" else t, Nat.pred n)
    end.
Fixpoint escapeFrom (skip : nat) (s : string) : string :=
  match s with
  | EmptyString => EmptyString
  | String c r =>
      match skip with
      | S skip => escapeFrom skip r
      | O => let '(t, k) := escapeStep c r in t +:+ escapeFrom k r
      end
  end.
Definition quoteJSON (s : string) : string := String dq (escapeFrom 0 s +:+ str1 dq).
Arguments quoteJSON _ : simpl never.

(** [boolRaw]. *)
Definition boolRaw (b : bool) : string := if b then "true" else "false".

(** ** [displayValue] *)

(** Texts with [", "] between them. *)
Fixpoint commaJoin (xs : list string) : string :=
  match xs with [] => "" | [x] => x | x :: xs => x +:+ ", " +:+ commaJoin xs end.

(** [displayValue]: the text and whether it is certain. *)
Fixpoint displayValue (v : value) : string * bool :=
  match v with
  | valNull _ => ("null", true)
  | valBool _ b => (boolRaw b, true)
  | valNumber _ _ tok => displayNumber tok
  | valString _ s => (s, true)
  | valArray _ xs =>
      let ds := displayValue <$> xs in
      ("[" +:+ commaJoin (fst <$> ds) +:+ "]", forallb snd ds)
  | valObject _ fs =>
      let ds := (fun f => (f.1 +:+ ": " +:+ (displayValue f.2).1, (displayValue f.2).2)) <$> fs in
      ("{" +:+ commaJoin (fst <$> ds) +:+ "}", forallb snd ds)
  end.

(** ** Reading a string back *)

(** The text with every invalid byte replaced by U+FFFD, and the texts that have none. *)
Fixpoint toValidFrom (skip : nat) (s : string) : string :=
  match s with
  | EmptyString => EmptyString
  | String _ r =>
      match skip with
      | S skip => toValidFrom skip r
      | O =>
          match utf8Len s with
          | Some n => stake n s +:+ toValidFrom (Nat.pred n) r
          | None => encodeRune replacementChar +:+ toValidFrom 0 r
          end
      end
  end.
Definition toValidUTF8 (s : string) : string := toValidFrom 0 s.
Definition validUTF8 (s : string) : bool := toValidUTF8 s =s s.

Example display_examples :
  displayValue (valObject false [("a", valArray false [valNumber false false "+5"; valString false "x"]); ("b", valNull false)])
  = ("{a: [5, x], b: null}", true).
Proof. vm_compute. reflexivity. Qed.

Lemma utf8Len_bound s n : utf8Len s = Some n -> (0 < n <= String.length s)%nat.
Proof.
  destruct s as [|a s]; simpl; [done|]. repeat (case_match; try done); intros [= <-]; simpl; lia.
Qed.

(** The encoding at the head is found from its own bytes. *)
Lemma utf8Len_stake s n t : utf8Len s = Some n -> utf8Len (stake n s +:+ t) = Some n.
Proof.
  destruct s as [|a s]; [done|]. unfold utf8Len at 1.
  destruct ((0 <=? code a)%Z && (code a <=? 127)%Z) eqn:E1; [intros [= <-]; simpl; by rewrite E1|].
  destruct s as [|b s]; [done|].
  match goal with |- (if ?x then _ else _) = _ -> _ => destruct x eqn:E2 end; [intros [= <-]; simpl; by rewrite E1, E2|].
  destruct s as [|c s]; [done|].
  match goal with |- (if ?x then _ else _) = _ -> _ => destruct x eqn:E3 end; [intros [= <-]; simpl; by rewrite E1, E2, E3|].
  destruct s as [|d s]; [done|].
  match goal with |- (if ?x then _ else _) = _ -> _ => destruct x eqn:E4 end; [intros [= <-]; simpl; by rewrite E1, E2, E3, E4|done].
Qed.

Lemma utf8Len_ascii c r : (code c <? 128)%Z = true -> utf8Len (String c r) = Some 1%nat.
Proof.
  intros H. simpl. replace ((0 <=? code c)%Z && (code c <=? 127)%Z) with true; [done|].
  assert (0 <= code c)%Z by (unfold code; lia). lia.
Qed.

Lemma unquote_skip t rest : unquote (String.length t) (t +:+ rest) = unquote 0 rest.
Proof. induction t as [|c t IH]; [done|]. exact IH. Qed.

(** One character read back: the escape stands for it. *)
Lemma unquote_escapeASCII c rest : (code c <? 128)%Z = true ->
  unquote 0 (escapeASCII c +:+ rest) = (let? (a, rest') := unquote 0 rest in Ok (String c a) rest').
Proof. unfold escapeASCII. generalize html as h. intros []; destruct c as [[] [] [] [] [] [] [] []]; intros H; first [discriminate H|reflexivity]. Qed.

Lemma unquote_multibyte c r n rest : (code c <? 128)%Z = false -> utf8Len (String c r) = Some n ->
  unquote 0 (stake n (String c r) +:+ rest)
  = (let? (a, rest') := unquote 0 rest in Ok (stake n (String c r) +:+ a) rest').
Proof.
  intros Hc Hn. pose proof (utf8Len_bound _ _ Hn) as Hb. destruct n as [|n]; [lia|].
  pose proof (utf8Len_stake _ _ rest Hn) as Ht. cbn [stake] in *. cbn [append unquote].
  assert (Hq : (c =c dq) = false) by (apply Ascii.eqb_neq; by intros ->).
  assert (Hs : (c =c bs) = false) by (apply Ascii.eqb_neq; by intros ->).
  rewrite Hq. unfold unquoteStep. rewrite Hs. replace (code c <? 32)%Z with false by lia.
  cbn [append] in Ht. rewrite Ht. cbn [stake Nat.pred].
  assert (Hl : String.length (stake n r) = n).
  { simpl in Hb. assert (Hr : (n <= String.length r)%nat) by lia. clear -Hr. revert r Hr.
    induction n as [|n IH]; intros [|x r]; simpl; try lia. intros. rewrite IH; lia. }
  assert (Hu : unquote n (stake n r +:+ rest) = unquote 0 rest) by (rewrite <- Hl at 1; apply unquote_skip).
  assert (Hk : stake n (stake n r +:+ rest) = stake n r).
  { rewrite <- Hl at 1. clear. induction (stake n r) as [|x t IH]; [by destruct rest|]. simpl. by rewrite IH. }
  by rewrite Hu, Hk.
Qed.

Lemma escapeFrom_skip n s : (n <= String.length s)%nat -> escapeFrom n s = escapeFrom 0 (sdrop n s).
Proof. revert s. induction n as [|n IH]; intros [|c s]; simpl; try done; try lia. intros. apply IH. lia. Qed.

Lemma toValidFrom_skip n s : (n <= String.length s)%nat -> toValidFrom n s = toValidFrom 0 (sdrop n s).
Proof. revert s. induction n as [|n IH]; intros [|c s]; simpl; try done; try lia. intros. apply IH. lia. Qed.

Lemma sdrop_le n s : (String.length (sdrop n s) <= String.length s)%nat.
Proof. revert s. induction n as [|n IH]; intros [|c s]; simpl; try done. specialize (IH s). lia. Qed.

Lemma unquote_escapeFrom len : forall s rest, (String.length s <= len)%nat ->
  unquote 0 (escapeFrom 0 s +:+ String dq rest) = Ok (toValidUTF8 s) rest.
Proof.
  induction len as [|len IH]; intros [|c r] rest Hlen; simpl in Hlen; try (by simpl in *; lia || done).
  unfold toValidUTF8. cbn [escapeFrom toValidFrom]. unfold escapeStep.
  assert (Hstep : forall k x out, (k <= String.length r)%nat ->
    (forall t, unquote 0 (x +:+ t) = let? (a, rest') := unquote 0 t in Ok (out +:+ a) rest') ->
    unquote 0 ((x +:+ escapeFrom k r) +:+ String dq rest) = Ok (out +:+ toValidFrom k r) rest).
  { intros k x out Hk Hx. pose proof (sdrop_le k r) as Hd.
    rewrite sapp_assoc, Hx, escapeFrom_skip, toValidFrom_skip, (IH _ rest) by lia. done. }
  destruct (code c <? 128)%Z eqn:Hc.
  - rewrite (utf8Len_ascii _ _ Hc). apply (Hstep 0 _ (str1 c)); [lia|]. intros t. by apply unquote_escapeASCII.
  - destruct (utf8Len (String c r)) as [n|] eqn:Hn.
    2:{ apply (Hstep 0 "\ufffd" (encodeRune replacementChar)); [lia|]. reflexivity. }
    pose proof (utf8Len_bound _ _ Hn) as Hb. simpl in Hb. cbv zeta. cbn beta iota. apply Hstep; [lia|].
    destruct (stake n (String c r) =s encodeRune 8232) eqn:E1; [apply String.eqb_eq in E1 as ->; reflexivity|].
    destruct (stake n (String c r) =s encodeRune 8233) eqn:E2; [apply String.eqb_eq in E2 as ->; reflexivity|].
    intros t. by apply unquote_multibyte.
Qed.

Lemma unquote_marshal s rest : unquote 0 (escapeFrom 0 s +:+ String dq rest) = Ok (toValidUTF8 s) rest.
Proof. by apply (unquote_escapeFrom (String.length s)). Qed.

(** ** Compact texts of values

    What every output is: no blanks, members in order. *)
Fixpoint joinComma (xs : list string) : string :=
  match xs with [] => "" | [x] => x | x :: xs => x +:+ "," +:+ joinComma xs end.
Fixpoint compact (v : value) : string :=
  match v with
  | valNull _ => "null"
  | valBool _ b => boolRaw b
  | valNumber _ _ tok => tok
  | valString _ s => quoteJSON s
  | valArray _ xs => "[" +:+ joinComma (compact <$> xs) +:+ "]"
  | valObject _ fs => "{" +:+ joinComma ((fun f => quoteJSON f.1 +:+ String ":" (compact f.2)) <$> fs) +:+ "}"
  end.

(** The value the strict decoder reads back: complete, its strings made valid. *)
Fixpoint readBack (v : value) : value :=
  match v with
  | valNull _ => valNull false
  | valBool _ b => valBool false b
  | valNumber _ _ tok => valNumber false false tok
  | valString _ s => valString false (toValidUTF8 s)
  | valArray _ xs => valArray false (readBack <$> xs)
  | valObject _ fs => valObject false ((fun f => (toValidUTF8 f.1, readBack f.2)) <$> fs)
  end.

(** Values whose number tokens are JSON numbers. *)
Inductive jsonNumbers : value -> Prop :=
  | numbers_null i : jsonNumbers (valNull i)
  | numbers_bool i b : jsonNumbers (valBool i b)
  | numbers_number i f tok : isJSONNumber tok = true -> jsonNumbers (valNumber i f tok)
  | numbers_string i s : jsonNumbers (valString i s)
  | numbers_array i xs : Forall jsonNumbers xs -> jsonNumbers (valArray i xs)
  | numbers_object i fs : Forall (fun f => jsonNumbers f.2) fs -> jsonNumbers (valObject i fs).

(** ** Numbers read back *)

(** Characters that end a number. *)
Definition endsNumber (rest : string) : bool :=
  match rest with
  | EmptyString => true
  | String c _ => negb (isDigit c || (c =c ".") || (c =c "e") || (c =c "E") || (c =c "+") || (c =c "-"))
  end.

Lemma span_digits_app s rest a b : endsNumber rest = true -> span isDigit s = (a, b) ->
  span isDigit (s +:+ rest) = (a, b +:+ rest).
Proof.
  intros Hr. revert a b. induction s as [|c s IH]; intros a b; simpl.
  - intros [= <- <-]. destruct rest as [|c rest]; [done|]. simpl in *.
    destruct (isDigit c); [done|]. done.
  - destruct (isDigit c); [|by intros [= <- <-]]. destruct (span isDigit s) as [x y].
    intros [= <- <-]. by rewrite (IH x y).
Qed.

Lemma scanInt_app s rest i r : endsNumber rest = true -> scanInt s = Some (i, r) ->
  scanInt (s +:+ rest) = Some (i, r +:+ rest) /\ s = i +:+ r.
Proof.
  intros Hr. destruct s as [|c s]; [done|]. simpl. case_match; [by intros [= <- <-]|].
  case_match; [|done]. destruct (span isDigit s) as [a b] eqn:Hs. intros [= <- <-].
  rewrite (span_digits_app _ _ _ _ Hr Hs). split; [done|]. simpl. f_equal.
  rewrite (span_app isDigit s). by rewrite Hs.
Qed.

Lemma scanFrac_app s rest i r : endsNumber rest = true -> scanFrac s = Some (i, r) ->
  scanFrac (s +:+ rest) = Some (i, r +:+ rest) /\ s = i +:+ r.
Proof.
  intros Hr. destruct s as [|c s]; simpl.
  - intros [= <- <-]. split; [|done]. destruct rest as [|c rest]; [done|]. simpl in *.
    by destruct (c =c "."); [rewrite !orb_true_r in Hr|].
  - case_match; [|by intros [= <- <-]]. destruct (span isDigit s) as [a b] eqn:Hs.
    rewrite (span_digits_app _ _ _ _ Hr Hs). destruct a as [|x a]; [done|]. intros [= <- <-].
    split; [done|]. simpl. f_equal. rewrite (span_app isDigit s). by rewrite Hs.
Qed.

Lemma scanExp_app s rest i r : endsNumber rest = true -> scanExp s = Some (i, r) ->
  scanExp (s +:+ rest) = Some (i, r +:+ rest) /\ s = i +:+ r.
Proof.
  intros Hr. destruct s as [|c s]; simpl.
  - intros [= <- <-]. split; [|done]. destruct rest as [|c rest]; [done|]. simpl in *.
    destruct (c =c "e"), (c =c "E"); rewrite ?orb_true_r in Hr; done.
  - case_match; [|by intros [= <- <-]]. destruct s as [|g s].
    + done.
    + simpl. destruct ((g =c "+") || (g =c "-")).
      * destruct (span isDigit s) as [a b] eqn:Hs. rewrite (span_digits_app _ _ _ _ Hr Hs).
        destruct a as [|x a]; [done|]. intros [= <- <-]. split; [done|]. simpl. f_equal. f_equal.
        rewrite (span_app isDigit s). by rewrite Hs.
      * destruct (span isDigit (String g s)) as [a b] eqn:Hs.
        pose proof (span_digits_app _ _ _ _ Hr Hs) as Ha. cbn [append] in Ha. rewrite Ha.
        destruct a as [|x a]; [done|]. intros [= <- <-]. split; [done|]. simpl. f_equal.
        rewrite (span_app isDigit (String g s)). by rewrite Hs.
Qed.

Lemma scanUnsigned_app s rest : endsNumber rest = true -> forall i s1 f s2 e,
  scanInt s = Some (i, s1) -> scanFrac s1 = Some (f, s2) -> scanExp s2 = Some (e, EmptyString) ->
  scanInt (s +:+ rest) = Some (i, s1 +:+ rest) /\ scanFrac (s1 +:+ rest) = Some (f, s2 +:+ rest)
  /\ scanExp (s2 +:+ rest) = Some (e, rest) /\ s = i +:+ f +:+ e.
Proof.
  intros Hr i s1 f s2 e Hi Hf He.
  destruct (scanInt_app _ rest _ _ Hr Hi) as [Hi' ->]. destruct (scanFrac_app _ rest _ _ Hr Hf) as [Hf' ->].
  destruct (scanExp_app _ rest _ _ Hr He) as [He' Ee]. rewrite sapp_nil_r in Ee. subst s2.
  by split_and!.
Qed.

Lemma scanNumber_app tok rest : isJSONNumber tok = true -> endsNumber rest = true ->
  scanNumber (tok +:+ rest) = Some (tok, rest).
Proof.
  intros Ht Hr. unfold isJSONNumber, scanNumber in *. destruct tok as [|c t]; [done|]. cbn [append].
  destruct (c =c "-"); cbn beta iota in *.
  all: destruct (scanInt _) as [[i s1]|] eqn:Hi; [|done]; destruct (scanFrac s1) as [[f s2]|] eqn:Hf; [|done];
    destruct (scanExp s2) as [[e [|]]|] eqn:He; try done;
    destruct (scanUnsigned_app _ rest Hr _ _ _ _ _ Hi Hf He) as (Hi'&Hf'&He'&Ht');
    cbn [append] in Hi'; rewrite Hi', Hf', He', ?Ht'; try done.
Qed.

(** ** Compact texts read back *)

Lemma joinComma_cons x y xs : joinComma (x :: y :: xs) = x +:+ "," +:+ joinComma (y :: xs).
Proof. done. Qed.

Lemma skipWS_id c s : isWS c = false -> skipWS (String c s) = String c s.
Proof. intros H. simpl. by rewrite H. Qed.

(** Reading the text of [v] before anything that ends a number. *)
Definition readsBack (v : value) : Prop := forall fuel rest,
  (2 * vsize v <= fuel)%nat -> endsNumber rest = true ->
  decodeToken numModeLegacy fuel (compact v +:+ rest) = Ok (readBack v) rest.

Lemma number_head tok : isJSONNumber tok = true ->
  exists c t, tok = String c t /\ ((c =c "-") || isDigit c) = true.
Proof.
  destruct tok as [|c t]; [done|]. intros H. exists c, t. split; [done|].
  unfold isJSONNumber, scanNumber in H. destruct (c =c "-"); [done|]. cbn beta iota in H. simpl in H.
  destruct (c =c "0") eqn:E; [apply Ascii.eqb_eq in E as ->; done|]. by destruct (isDigit c).
Qed.

Lemma digit_plain c : ((c =c "-") || isDigit c) = true ->
  isWS c = false /\ (c =c "{") = false /\ (c =c "[") = false /\ (c =c dq) = false
  /\ (c =c "t") = false /\ (c =c "f") = false /\ (c =c "n") = false.
Proof. destruct c as [[] [] [] [] [] [] [] []]; intros H; first [discriminate H|by split_and!]. Qed.

Lemma CutPrefix_ne p c s t : (c =c p) = false -> CutPrefix (String p t) (String c s) = None.
Proof. intros H. cbn [CutPrefix]. by rewrite Ascii.eqb_sym, H. Qed.

Lemma compact_head v : jsonNumbers v -> exists c t, compact v = String c t /\ isWS c = false /\ (c =c "]") = false.
Proof.
  destruct 1 as [i|i []|i f tok Ht|i s|i xs _|i fs _]; cbn [compact boolRaw quoteJSON]; try (by eexists _, _).
  destruct (number_head tok Ht) as (c&t&->&Hc). exists c, t. split; [done|]. revert Hc.
  destruct c as [[] [] [] [] [] [] [] []]; intros H; first [discriminate H|done].
Qed.

Lemma decode_number i f tok : isJSONNumber tok = true -> readsBack (valNumber i f tok).
Proof.
  intros Ht fuel rest Hf Hr. destruct fuel as [|n]; [simpl in Hf; lia|]. cbn [decodeToken compact].
  pose proof (scanNumber_app tok rest Ht Hr) as Hs. destruct (number_head tok Ht) as (c&t&->&Hc).
  destruct (digit_plain c Hc) as (H1&H2&H3&H4&H5&H6&H7). cbn [append] in *.
  rewrite (skipWS_id c _ H1), H2, H3, H4, !CutPrefix_ne by done. rewrite Hs. done.
Qed.

Lemma decodeElements_compact xs : forall fuel rest, xs <> [] -> Forall (fun x => jsonNumbers x /\ readsBack x) xs ->
  (1 + 2 * list_sum (vsize <$> xs) <= fuel)%nat ->
  decodeElements numModeLegacy fuel (joinComma (compact <$> xs) +:+ String "]" rest) = Ok (readBack <$> xs) rest.
Proof.
  induction xs as [|x xs IH]; intros fuel rest Hne Hall Hfuel; [done|]. clear Hne.
  apply Forall_cons in Hall as [[Hj Hx] Hall]. csimpl in Hfuel. pose proof (vsize_pos x).
  destruct fuel as [|n]; [lia|]. cbn [decodeElements]. rewrite !fmap_cons. destruct xs as [|y ys].
  - cbn [joinComma fmap list_fmap]. rewrite Hx by (simpl; lia || done). reflexivity.
  - rewrite fmap_cons, joinComma_cons, !sapp_assoc, <- fmap_cons. rewrite Hx by (simpl; lia || done). cbn [bind append].
    rewrite (skipWS_id ",") by done. cbn [Ascii.eqb]. change ("," =c ",") with true. cbn iota.
    rewrite (IH n rest) by (done || lia). reflexivity.
Qed.

Lemma decodeMembers_compact fs : forall fuel rest, fs <> [] -> Forall (fun f => readsBack f.2) fs ->
  (1 + 2 * list_sum ((fun f => vsize f.2) <$> fs) <= fuel)%nat ->
  decodeMembers numModeLegacy fuel
    (joinComma ((fun f => quoteJSON f.1 +:+ String ":" (compact f.2)) <$> fs) +:+ String "}" rest)
  = Ok ((fun f => (toValidUTF8 f.1, readBack f.2)) <$> fs) rest.
Proof.
  induction fs as [|[k v] fs IH]; intros fuel rest Hne Hall Hfuel; [done|]. clear Hne.
  apply Forall_cons in Hall as [Hx Hall]. csimpl in Hfuel. simpl in Hx. pose proof (vsize_pos v).
  destruct fuel as [|n]; [lia|]. cbn [decodeMembers].
  assert (Hhead : forall tail, joinComma ((quoteJSON k +:+ String ":" (compact v)) :: tail)
    = String dq (escapeFrom 0 k +:+ String dq (String ":" (compact v +:+ match tail with [] => "" | _ => "," +:+ joinComma tail end)))).
  { intros tail. unfold quoteJSON. destruct tail as [|t tail]; [cbn [joinComma]|rewrite joinComma_cons];
      cbn [append]; rewrite ?sapp_nil_r, !sapp_assoc; reflexivity. }
  rewrite !fmap_cons. cbn [fst snd]. rewrite Hhead. cbn [append]. rewrite (skipWS_id dq) by done. change (dq =c dq) with true. cbn iota.
  rewrite sapp_assoc. cbn [append]. rewrite unquote_marshal. cbn [bind]. rewrite (skipWS_id ":") by done.
  change (":" =c ":") with true. cbn iota. rewrite sapp_assoc. destruct fs as [|[k' v'] fs].
  - cbn [append fmap list_fmap]. rewrite Hx by (simpl; lia || done). reflexivity.
  - specialize (IH n rest). csimpl in IH. csimpl. cbn [append].
    rewrite Hx by (simpl; lia || done). cbn [bind]. rewrite (skipWS_id ",") by done.
    change ("," =c ",") with true. cbn iota. csimpl in Hfuel. rewrite IH by (done || simpl; lia). reflexivity.
Qed.

Lemma compact_readsBack v : jsonNumbers v -> readsBack v.
Proof.
  induction v as [i|i b|i f tok|i s|i xs IH|i fs IH] using value_induction; intros Hv fuel rest Hf Hr;
    (destruct fuel as [|n]; [simpl in Hf; lia|]).
  - reflexivity.
  - by destruct b.
  - inversion Hv; subst. by apply decode_number.
  - cbn [decodeToken compact]. unfold quoteJSON. cbn [append]. rewrite (skipWS_id dq) by done.
    change (dq =c "{") with false. change (dq =c "[") with false. change (dq =c dq) with true. cbn iota.
    rewrite sapp_assoc. cbn [append str1]. rewrite unquote_marshal. reflexivity.
  - inversion Hv as [| | | |? ? Hall|]; subst. cbn [decodeToken compact append]. rewrite (skipWS_id "[") by done.
    change ("[" =c "{") with false. change ("[" =c "[") with true. cbn iota. rewrite sapp_assoc. cbn [append].
    destruct xs as [|x xs]; [reflexivity|].
    assert (Hx : jsonNumbers x) by (by apply Forall_cons in Hall as [? _]).
    assert (exists c t, joinComma (compact <$> x :: xs) +:+ String "]" rest = String c t /\ isWS c = false /\ (c =c "]") = false) as (c&t&Ht&Hws&Hc).
    { destruct (compact_head x Hx) as (c&t&Ht&Hws&Hc). csimpl. rewrite Ht.
      destruct xs; csimpl; rewrite ?joinComma_cons; cbn [joinComma append]; by eexists _, _. }
    rewrite Ht, (skipWS_id c t Hws), Hc, <- Ht. cbn [vsize] in Hf. rewrite decodeElements_compact; [done|done| |lia].
    rewrite Forall_forall in *. intros y Hy. split; [by apply Hall|]. apply IH; [done|by apply Hall].
  - inversion Hv as [| | | | |? ? Hall]; subst. cbn [decodeToken compact append]. rewrite (skipWS_id "{") by done.
    change ("{" =c "{") with true. cbn iota. rewrite sapp_assoc. cbn [append].
    destruct fs as [|f fs]; [reflexivity|].
    assert (exists t, joinComma ((fun f => quoteJSON f.1 +:+ String ":" (compact f.2)) <$> f :: fs) +:+ String "}" rest = String dq t) as [t Ht].
    { csimpl. unfold quoteJSON. destruct fs; csimpl; rewrite ?joinComma_cons; cbn [joinComma append]; by eexists. }
    rewrite Ht, (skipWS_id dq t) by done. change (dq =c "}") with false. cbn iota. rewrite <- Ht. cbn [vsize] in Hf.
    rewrite decodeMembers_compact; [done|done| |lia].
    rewrite Forall_forall in *. intros y Hy. apply IH; [done|by apply (Hall y)].
Qed.

Lemma joinComma_length xs : (list_sum (String.length <$> xs) <= String.length (joinComma xs))%nat.
Proof.
  induction xs as [|x xs IH]; [done|]. rewrite fmap_cons. destruct xs as [|y ys]; [simpl; lia|].
  rewrite joinComma_cons, !slength_app. revert IH. generalize (joinComma (y :: ys)), (String.length <$> y :: ys).
  intros z l IH. simpl. lia.
Qed.

Lemma vsize_compact v : jsonNumbers v -> (vsize v <= String.length (compact v))%nat.
Proof.
  assert (Hsum : forall {A} (f g : A -> nat) l, Forall (fun x => f x <= g x)%nat l -> (list_sum (f <$> l) <= list_sum (g <$> l))%nat).
  { intros A f g l. induction 1; csimpl; lia. }
  induction v as [i|i b|i f tok|i s|i xs IH|i fs IH] using value_induction; intros Hv; cbn [vsize compact]; try (by simpl; lia).
  - by destruct b; simpl; lia.
  - inversion Hv as [| |? ? ? Ht| | |]; subst. destruct (number_head tok Ht) as (c&t&->&_). simpl. lia.
  - inversion Hv as [| | | |? ? Hall|]; subst. pose proof (joinComma_length (compact <$> xs)) as H2.
    rewrite <- list_fmap_compose in H2. assert (H1 : Forall (fun x => vsize x <= String.length (compact x))%nat xs).
    { rewrite Forall_forall in *. eauto. }
    apply Hsum in H1. cbn [String.length append]. rewrite slength_app. unfold compose in H2. lia.
  - inversion Hv as [| | | | |? ? Hall]; subst.
    pose proof (joinComma_length ((fun f => quoteJSON f.1 +:+ String ":" (compact f.2)) <$> fs)) as H2.
    rewrite <- list_fmap_compose in H2.
    assert (H1 : Forall (fun f => vsize f.2 <= String.length (quoteJSON f.1 +:+ String ":" (compact f.2)))%nat fs).
    { rewrite Forall_forall in *. intros f Hf. rewrite !slength_app. specialize (IH f Hf (Hall f Hf)). simpl. lia. }
    apply Hsum in H1. cbn [String.length append]. rewrite slength_app. unfold compose in H2. lia.
Qed.

(** The strict decoder reads the compact text of a value as that value,
    strings with their invalid bytes replaced. *)
Lemma strictDecode_compact v : jsonNumbers v -> strictDecode numModeLegacy (compact v) = Some (readBack v).
Proof.
  intros Hv. unfold strictDecode, strictDecodeFuel. pose proof (vsize_compact v Hv) as Hs.
  rewrite <- (sapp_nil_r (compact v)) at 2. rewrite (compact_readsBack v Hv) by (done || lia). reflexivity.
Qed.
End Encode.
#[global] Arguments quoteJSON _ _ : simpl never.

(** [marshalJSON] on a string. *)
Definition marshalJSON (s : string) : string := quoteJSON false s.
#[global] Arguments marshalJSON _ : simpl never.
