(* ===== verification/Gate.v ===== *)
(** * Gate: which schemas the native parser accepts
    ([internal/debaml/parse.go], the support gates)

    [checkSupported] and the walks below it.  [None] is acceptance.  The walks call
    each other through class definitions and are given fuel: [OutOfFuel] stands for
    a walk that has not returned.  The fingerprint of the checked static family is
    an argument ([admitted], [family]). *)

From S2P Require Import Prelude Schema Candidate.
Open Scope stdpp_scope.

(** The constraints of a type node. *)
Definition constrained (t : type) : bool := negb (bool_decide (tm_Constraints (Meta t) = [])).
#[export] Instance Constraint_eq_dec : EqDecision Constraint.
Proof. solve_decision. Defined.

(** ** Leaves and shapes *)

(** [isFlatLeafField]. *)
Definition isFlatLeafField (t : type) : bool :=
  if constrained t then false
  else
    match t with
    | TypePrimitive _ (PrimitiveString | PrimitiveInt | PrimitiveFloat | PrimitiveBool) => true
    | TypeLiteral _ _ | TypeEnum _ _ => true
    | _ => false
    end.

(** [isMultiArmUnion]. *)
Definition isMultiArmUnion (t : type) : bool :=
  match t with TypeUnion _ (Some (vs, _)) => (2 <=? length vs)%nat | _ => false end.

(** [isOptional] ([coerce.go]). *)
Definition isOptional (t : type) : bool :=
  match t with TypeUnion _ (Some (_, nullable)) => nullable | _ => false end.

Definition isStringKey (t : type) : bool := match t with TypePrimitive _ PrimitiveString => true | _ => false end.

(** [isStringLiteralUnionType]; only a union has the payload it looks at. *)
Definition isStringLiteralUnionType (t : type) : bool := isStringLiteralUnion t.

(** [checkSupportedMapKey]. *)
Definition checkSupportedMapKey (t : type) : option CoerceErr :=
  if constrained t then Some Unsupported
  else
    match t with
    | TypePrimitive _ PrimitiveString => None
    | TypeEnum _ _ => None
    | TypeLiteral _ (Some (LiteralString _)) => None
    | TypeUnion _ _ => if isStringLiteralUnionType t then None else Some Unsupported
    | _ => Some Unsupported
    end.

Section Gate.
Variable admitted : type -> bool.

(** [checkTypeNoConstraints]; [admitted] is the node of the checked static family. *)
Fixpoint checkTypeNoConstraints (t : type) : option CoerceErr :=
  if constrained t && negb (admitted t) then Some Unsupported
  else
    match t with
    | TypeList _ (Some elem) => checkTypeNoConstraints elem
    | TypeMap _ key value =>
        (match key with Some k => checkTypeNoConstraints k | None => None end) ;err
        (match value with Some v => checkTypeNoConstraints v | None => None end)
    | TypeUnion _ (Some (vs, _)) => firstErr checkTypeNoConstraints vs
    | TypeTuple _ items => firstErr checkTypeNoConstraints items
    | _ => None
    end.

Variable b : Bundle.

(** [checkSupportedType], [checkSupportedUnionShape], [checkUnionVariant],
    [checkUnionMapVariant], [checkUnionClassVariantSeen], [checkUnionClassField]
    and [checkUnionCollectionClasses]. *)
Fixpoint checkSupportedType (fuel : nat) (t : type) : option CoerceErr :=
  match fuel with
  | O => Some OutOfFuel
  | S n =>
      checkTypeNoConstraints t ;err
      match t with
      | TypePrimitive _ _ | TypeLiteral _ _ | TypeEnum _ _ | TypeClass _ _ _ => None
      | TypeList _ (Some elem) => checkSupportedType n elem
      | TypeUnion _ (Some (vs, nullable)) =>
          if nullable then None
          else match vs with [v] => checkSupportedType n v | _ => checkSupportedUnionShape n vs end
      | TypeMap _ (Some key) (Some value) => checkSupportedMapKey key ;err checkSupportedType n value
      | _ => Some Unsupported
      end
  end
with checkSupportedUnionShape (fuel : nat) (vs : list type) : option CoerceErr :=
  match fuel with
  | O => Some OutOfFuel
  | S n => if (length vs <? 2)%nat then Some Unsupported else firstErr (checkUnionVariant n) vs
  end
with checkUnionVariant (fuel : nat) (v : type) : option CoerceErr :=
  match fuel with
  | O => Some OutOfFuel
  | S n =>
      if isFlatLeafField v then None
      else
        match v with
        | TypeClass _ _ _ => checkUnionClassVariantSeen n v []
        | TypeList _ _ => checkSupportedType n v
        | TypeMap _ _ _ => checkUnionMapVariant n v
        | _ => Some Unsupported
        end
  end
with checkUnionMapVariant (fuel : nat) (v : type) : option CoerceErr :=
  match fuel with
  | O => Some OutOfFuel
  | S n =>
      if constrained v then Some Unsupported
      else
        match v with
        | TypeMap _ (Some key) (Some value) =>
            if constrained key then Some Unsupported
            else if isStringKey key then checkSupportedType n value else Some Unsupported
        | _ => Some Unsupported
        end
  end
with checkUnionClassVariantSeen (fuel : nat) (v : type) (walked : list ClassKey) : option CoerceErr :=
  match fuel with
  | O => Some OutOfFuel
  | S n =>
      match v with
      | TypeClass _ name mode =>
          if constrained v then Some Unsupported
          else
            match FindClass b name mode with
            | None => Some Hard
            | Some cls =>
                let key := (nm_Name (cd_Name cls), cd_Mode cls) in
                if bool_decide (key ∈ walked) then Some Unsupported
                else if negb (bool_decide (cd_Constraints cls = [])) then Some Unsupported
                else if bool_decide (length (cd_Fields cls) = 0%nat) then Some Unsupported
                else checkUnionClassFields n (cd_Fields cls) [] (key :: walked)
            end
      | _ => Some Hard
      end
  end
with checkUnionClassFields (fuel : nat) (fs : list ClassField) (seen : list string) (walked : list ClassKey)
    : option CoerceErr :=
  match fuel with
  | O => Some OutOfFuel
  | S n =>
      match fs with
      | [] => None
      | f :: fs =>
          checkUnionClassField n (cf_Type f) walked ;err
          let rn := RenderedName (cf_Name f) in
          if bool_decide (rn ∈ seen) then Some Unsupported
          else checkUnionClassFields n fs (rn :: seen) walked
      end
  end
with checkUnionClassField (fuel : nat) (t : type) (walked : list ClassKey) : option CoerceErr :=
  match fuel with
  | O => Some OutOfFuel
  | S n =>
      if isFlatLeafField t then None
      else
        match t with
        | TypeList _ elem =>
            checkSupportedType n t ;err
            match elem with Some e => checkUnionCollectionClasses n e walked | None => Some Unsupported end
        | TypeMap _ _ value =>
            checkUnionMapVariant n t ;err
            match value with Some v => checkUnionCollectionClasses n v walked | None => Some Unsupported end
        | TypeUnion _ (Some ([v], true)) => checkUnionClassField n v walked
        | _ => Some Unsupported
        end
  end
with checkUnionCollectionClasses (fuel : nat) (t : type) (walked : list ClassKey) : option CoerceErr :=
  match fuel with
  | O => Some OutOfFuel
  | S n =>
      match t with
      | TypeClass _ _ _ => checkUnionClassVariantSeen n t walked
      | TypeList _ (Some e) => checkUnionCollectionClasses n e walked
      | TypeMap _ _ (Some v) => checkUnionCollectionClasses n v walked
      | TypeUnion _ (Some (vs, _)) => firstErr (fun v => checkUnionCollectionClasses n v walked) vs
      | _ => None
      end
  end.

(** [checkSupportedFields] and [checkSupported]. *)
Definition checkSupportedFields (fuel : nat) : option CoerceErr :=
  checkTypeNoConstraints (Target b) ;err
  firstErr (fun e => if bool_decide (ed_Constraints e = []) then None else Some Unsupported) (Enums b) ;err
  firstErr (fun c =>
    if bool_decide (cd_Constraints c = [])
    then firstErr (fun f => checkSupportedType fuel (cf_Type f)) (cd_Fields c)
    else Some Unsupported) (Classes b).
Definition checkSupported (fuel : nat) : option CoerceErr :=
  if negb (bool_decide (length (StructuralRecursiveAliases b) = 0%nat)) then Some Unsupported
  else if negb (bool_decide (length (RecursiveClasses b) = 0%nat)) then Some Unsupported
  else checkSupportedFields fuel.

(** [checkTypeNoStream] and [checkNoStreamAnnotations]. *)
Fixpoint checkTypeNoStream (t : type) : option CoerceErr :=
  if negb (StreamIsZero (tm_Stream (Meta t))) then Some Unsupported
  else
    match t with
    | TypeList _ (Some elem) => checkTypeNoStream elem
    | TypeMap _ key value =>
        (match key with Some k => checkTypeNoStream k | None => None end) ;err
        (match value with Some v => checkTypeNoStream v | None => None end)
    | TypeUnion _ (Some (vs, _)) => firstErr checkTypeNoStream vs
    | TypeTuple _ items => firstErr checkTypeNoStream items
    | _ => None
    end.
Definition checkNoStreamAnnotations : option CoerceErr :=
  checkTypeNoStream (Target b) ;err
  firstErr (fun c =>
    if negb (StreamIsZero (cd_Stream c)) then Some Unsupported
    else firstErr (fun f => if cf_StreamingNeeded f then Some Unsupported else checkTypeNoStream (cf_Type f)) (cd_Fields c))
    (Classes b).

(** [targetIsMultiFieldClass]. *)
Definition targetIsMultiFieldClass : bool :=
  match Target b with
  | TypeClass _ name mode =>
      match FindClass b name mode with Some cls => (2 <=? length (cd_Fields cls))%nat | None => false end
  | _ => false
  end.

(** [staticCheckedRouteBoundary]. *)
Definition staticCheckedRouteBoundary (family : bool) : option CoerceErr :=
  if family then Some Unsupported else None.
End Gate.

(** ** Termination on class graphs without cycles *)

(** The classes a type refers to, at any depth. *)
Fixpoint classRefs (t : type) : list ClassKey :=
  match t with
  | TypeClass _ name mode => [(name, mode)]
  | TypeList _ (Some e) => classRefs e
  | TypeMap _ k v =>
      (match k with Some k => classRefs k | None => [] end) ++ (match v with Some v => classRefs v | None => [] end)
  | TypeUnion _ (Some (vs, _)) => vs ≫= classRefs
  | TypeTuple _ items => items ≫= classRefs
  | _ => []
  end.

(** A rank that falls along every reference from a class to a class. *)
Definition acyclic (b : Bundle) (rank : ClassKey -> nat) : Prop :=
  forall name mode cls f k, FindClass b name mode = Some cls -> f ∈ cd_Fields cls -> k ∈ classRefs (cf_Type f) ->
    (rank k < rank (name, mode))%nat.

Section Terminates.
Variables (admitted : type -> bool) (b : Bundle).

(** The walk returns. *)
Definition answered (r : option CoerceErr) : Prop := r <> Some OutOfFuel.

Lemma answered_then r s : answered r -> answered s -> answered (r ;err s).
Proof. destruct r; done. Qed.

Lemma answered_first {A} (f : A -> option CoerceErr) xs : Forall (fun x => answered (f x)) xs -> answered (firstErr f xs).
Proof. induction 1 as [|x xs Hx _ IH]; simpl; [done|]. by apply answered_then. Qed.

Lemma noConstraints_answered t : answered (checkTypeNoConstraints admitted t).
Proof.
  induction t as [| | | | |m e IH|m k v IHk IHv| |m ts IH| |m u IH|] using type_induction; cbn [checkTypeNoConstraints];
    (destruct (constrained _ && _); [done|]); try done.
  - by destruct e.
  - by apply answered_then; [destruct k|destruct v].
  - by apply answered_first.
  - destruct u as [[vs n]|]; [by apply answered_first|done].
Qed.

(** With [n] or more fuel, every walk of [t] returns. *)
Record walks (t : type) (n : nat) : Prop := {
  walk_type : answered (checkSupportedType admitted b n t);
  walk_variant : answered (checkUnionVariant admitted b n t);
  walk_map : answered (checkUnionMapVariant admitted b n t);
  walk_class walked : answered (checkUnionClassVariantSeen admitted b n t walked);
  walk_field walked : answered (checkUnionClassField admitted b n t walked);
  walk_collection walked : answered (checkUnionCollectionClasses admitted b n t walked)
}.
Definition total (t : type) : Prop := exists N, forall n, (N <= n)%nat -> walks t n.

Lemma total_all {A} (P : A -> nat -> Prop) xs : Forall (fun x => exists N, forall n, (N <= n)%nat -> P x n) xs ->
  exists N, forall n, (N <= n)%nat -> Forall (fun x => P x n) xs.
Proof.
  induction 1 as [|x xs [N1 H1] _ [N2 IH]]; [by exists 0|].
  exists (Nat.max N1 N2). intros n Hn. constructor; [apply H1|apply IH]; lia.
Qed.

Lemma mapKey_answered t : answered (checkSupportedMapKey t).
Proof. unfold checkSupportedMapKey. repeat (case_match; try done). Qed.

Lemma fields_answered fs : Forall (fun f => total (cf_Type f)) fs ->
  exists N, forall n, (N <= n)%nat -> forall seen walked, answered (checkUnionClassFields admitted b n fs seen walked).
Proof.
  induction 1 as [|f fs [N1 H1] _ [N2 IH]].
  - exists 1. intros [|n] Hn seen walked; [lia|done].
  - exists (S (Nat.max N1 N2)). intros [|n] Hn seen walked; [lia|]. cbn [checkUnionClassFields].
    apply answered_then; [apply H1; lia|]. cbv zeta. case_match; [done|]. apply IH. lia.
Qed.

(** A class variant returns when the fields of its class do. *)
Lemma class_answered t : (match t with
    | TypeClass _ name mode => forall cls, FindClass b name mode = Some cls -> Forall (fun f => total (cf_Type f)) (cd_Fields cls)
    | _ => True end) ->
  exists N, forall n, (N <= n)%nat -> forall walked, answered (checkUnionClassVariantSeen admitted b n t walked).
Proof.
  intros H. destruct t as [| | | |m name mode| | | | | | |];
    try (exists 1; intros [|n] Hn walked; [lia|done]).
  destruct (FindClass b name mode) as [cls|] eqn:Hf.
  - destruct (fields_answered _ (H cls eq_refl)) as [N HN]. exists (S N). intros [|n] Hn walked; [lia|].
    cbn [checkUnionClassVariantSeen]. rewrite Hf. cbv zeta. repeat (case_match; try done). apply HN. lia.
  - exists 1. intros [|n] Hn walked; [lia|]. cbn [checkUnionClassVariantSeen]. rewrite Hf. by case_match.
Qed.

(** The parts of a type that its walks descend into. *)
Definition parts (t : type) : list type :=
  match t with
  | TypeList _ (Some e) => [e]
  | TypeMap _ _ (Some v) => [v]
  | TypeUnion _ (Some (vs, _)) => vs
  | _ => []
  end.

Lemma total_step t : Forall total (parts t) ->
  (exists N, forall n, (N <= n)%nat -> forall walked, answered (checkUnionClassVariantSeen admitted b n t walked)) -> total t.
Proof.
  intros Hp%(total_all (fun t n => walks t n)) [N2 H2]. destruct Hp as [N1 H1]. exists (3 + Nat.max N1 N2).
  assert (Ht : forall n, (2 + Nat.max N1 N2 <= n)%nat -> answered (checkSupportedType admitted b n t)).
  { intros [|n] Hn; [lia|]. cbn [checkSupportedType]. apply answered_then; [apply noConstraints_answered|].
    destruct t as [| | | | |m [e|]|m [k|] [v|]| | | |m [[vs [|]]|]|]; try done.
    - apply (Forall_singleton (fun x => walks x n)). apply H1. lia.
    - apply answered_then; [apply mapKey_answered|]. apply (Forall_singleton (fun x => walks x n)). apply H1. lia.
    - assert (Hs : answered (checkSupportedUnionShape admitted b n vs)).
      { destruct n as [|n]; [lia|]. cbn [checkSupportedUnionShape]. case_match; [done|]. apply answered_first.
        eapply Forall_impl; [apply (H1 n); lia|]. intros x Hx. apply Hx. }
      destruct vs as [|v [|w vs]]; try done. apply (Forall_singleton (fun x => walks x n)). apply H1. lia. }
  assert (Hm : forall n, (2 + Nat.max N1 N2 <= n)%nat -> answered (checkUnionMapVariant admitted b n t)).
  { intros [|n] Hn; [lia|]. cbn [checkUnionMapVariant]. case_match; [done|].
    destruct t as [| | | | | |m [k|] [v|]| | | | |]; try done. repeat (case_match; try done).
    apply (Forall_singleton (fun x => walks x n)). apply H1. lia. }
  intros [|n] Hn; [lia|]. split.
  - apply Ht. lia.
  - cbn [checkUnionVariant]. case_match; [done|].
    destruct t; try done; [apply H2; lia|apply Ht; lia|apply Hm; lia].
  - apply Hm. lia.
  - intros walked. apply H2. lia.
  - intros walked. cbn [checkUnionClassField]. case_match; [done|].
    destruct t as [| | | | |m [e|]|m k [v|]| | | |m [[vs [|]]|]|]; try done.
    + apply answered_then; [apply Ht; lia|]. apply (Forall_singleton (fun x => walks x n)). apply H1. lia.
    + apply answered_then; [apply Ht; lia|]. done.
    + apply answered_then; [apply Hm; lia|]. apply (Forall_singleton (fun x => walks x n)). apply H1. lia.
    + apply answered_then; [apply Hm; lia|]. done.
    + destruct vs as [|v [|]]; try done. apply (Forall_singleton (fun x => walks x n)). apply H1. lia.
    + by destruct vs as [|? [|]].
  - intros walked. cbn [checkUnionCollectionClasses].
    destruct t as [| | | |m name mode|m [e|]|m k [v|]| | | |m [[vs nullable]|]|]; try done.
    + apply H2. lia.
    + apply (Forall_singleton (fun x => walks x n)). apply H1. lia.
    + apply (Forall_singleton (fun x => walks x n)). apply H1. lia.
    + apply answered_first. eapply Forall_impl; [apply (H1 n); lia|]. intros x Hx. apply Hx.
Qed.

Lemma total_ranked rank : acyclic b rank -> forall r t, (forall k, k ∈ classRefs t -> (rank k < r)%nat) -> total t.
Proof.
  intros Hac r. induction (lt_wf r) as [r _ IHr]. intros t.
  induction t as [| | | |m name mode|m e IH|m k v IHk IHv| |m ts IH| |m u IH|] using type_induction; intros Hr;
    (apply total_step; [|apply class_answered; try done]); cbn [parts]; try done.
  - intros cls Hf. apply Forall_forall. intros f Hin. apply (IHr (rank (name, mode))).
    + apply Hr. simpl. set_solver.
    + intros k Hk. by eapply Hac.
  - destruct e as [e|]; [|done]. apply Forall_singleton. apply IH. done.
  - destruct v as [v|]; [|done]. apply Forall_singleton. apply IHv. intros k' Hk'. apply Hr. simpl. set_solver.
  - destruct u as [[vs n]|]; [|done]. simpl in IH. rewrite Forall_forall in *. intros v Hv. apply IH; [done|].
    intros k Hk. apply Hr. simpl. apply list_elem_of_bind. eauto.
Qed.
End Terminates.

(** The gate returns on every bundle whose classes do not refer to each other
    in a cycle. *)
Theorem gate_terminates admitted b rank : acyclic b rank ->
  exists N, forall fuel, (N <= fuel)%nat -> checkSupported admitted b fuel <> Some OutOfFuel.
Proof.
  intros Hac.
  assert (Ht : forall t, total admitted b t).
  { intros t. apply (total_ranked admitted b rank Hac (S (list_max (rank <$> classRefs t)))).
    intros k Hk. apply Nat.lt_succ_r. assert (Hm : Forall (fun x => x <= list_max (rank <$> classRefs t))%nat (rank <$> classRefs t))
      by (apply list_max_le; done). rewrite Forall_forall in Hm. apply Hm. apply list_elem_of_fmap. eauto. }
  assert (exists N, forall n, (N <= n)%nat ->
    Forall (fun c => Forall (fun f => walks admitted b (cf_Type f) n) (cd_Fields c)) (Classes b)) as [N HN].
  { apply (total_all (fun c n => Forall (fun f => walks admitted b (cf_Type f) n) (cd_Fields c))).
    apply Forall_forall. intros c _. apply (total_all (fun f n => walks admitted b (cf_Type f) n)).
    apply Forall_forall. intros f _. apply Ht. }
  exists N. intros fuel Hf. unfold checkSupported. repeat (case_match; try done). unfold checkSupportedFields.
  change (answered (checkTypeNoConstraints admitted (Target b) ;err
    firstErr (fun e => if bool_decide (ed_Constraints e = []) then None else Some Unsupported) (Enums b) ;err
    firstErr (fun c => if bool_decide (cd_Constraints c = [])
      then firstErr (fun f => checkSupportedType admitted b fuel (cf_Type f)) (cd_Fields c) else Some Unsupported) (Classes b))).
  apply answered_then; [apply noConstraints_answered|]. apply answered_then.
  - apply answered_first, Forall_forall. intros e _. by case_match.
  - apply answered_first. eapply Forall_impl; [by apply HN|]. intros c Hc. case_match; [|done].
    apply answered_first. eapply Forall_impl; [exact Hc|]. intros f [Hw _ _ _ _ _]. exact Hw.
Qed.

(** ** A class graph with a cycle *)

(** [class A { items (A | string)[] }]. *)
Definition loopField : type :=
  TypeList noMeta (Some (TypeUnion noMeta (Some ([TypeClass noMeta "A" NonStreaming; TypePrimitive noMeta PrimitiveString], false)))).
Definition loopBundle : Bundle :=
  fst (RebuildIndexes (mkBundle (TypeClass noMeta "A" NonStreaming) []
    [mkClassDef (mkName "A" None) None NonStreaming [mkClassField (mkName "items" None) loopField None false] []
       (mkStreaming false false false) ∅ ∅] [] [] ∅ ∅ ∅)).

Lemma loop_valid : snd (ValidateOutput loopBundle) = None.
Proof. vm_compute. reflexivity. Qed.

Lemma loop_diverges fuel : checkSupportedType (fun _ => false) loopBundle fuel loopField = Some OutOfFuel.
Proof.
  induction (lt_wf fuel) as [fuel _ IH].
  do 7 (destruct fuel as [|fuel]; [vm_compute; reflexivity|]).
  set (no := fun _ : type => false) in *. set (A := TypeClass noMeta "A" NonStreaming). set (S1 := TypePrimitive noMeta PrimitiveString).
  assert (E1 : forall n, checkSupportedType no loopBundle (S n) loopField = checkSupportedType no loopBundle n (TypeUnion noMeta (Some ([A; S1], false)))) by reflexivity.
  assert (E2 : forall n, checkSupportedType no loopBundle (S n) (TypeUnion noMeta (Some ([A; S1], false))) = checkSupportedUnionShape no loopBundle n [A; S1]) by reflexivity.
  assert (E3 : forall n, checkSupportedUnionShape no loopBundle (S n) [A; S1] = checkUnionVariant no loopBundle n A ;err firstErr (checkUnionVariant no loopBundle n) [S1]) by reflexivity.
  assert (E4 : forall n, checkUnionVariant no loopBundle (S n) A = checkUnionClassVariantSeen no loopBundle n A []) by reflexivity.
  assert (E5 : forall n, checkUnionClassVariantSeen no loopBundle (S n) A []
    = checkUnionClassFields no loopBundle n [mkClassField (mkName "items" None) loopField None false] [] [("A", NonStreaming)]).
  { intros n. cbn [checkUnionClassVariantSeen A]. vm_compute (FindClass _ _ _). reflexivity. }
  assert (E6 : forall n fs f seen w, checkUnionClassFields no loopBundle (S n) (f :: fs) seen w
    = checkUnionClassField no loopBundle n (cf_Type f) w ;err
      (if bool_decide (RenderedName (cf_Name f) ∈ seen) then Some Unsupported
       else checkUnionClassFields no loopBundle n fs (RenderedName (cf_Name f) :: seen) w)) by reflexivity.
  assert (E7 : forall n w, checkUnionClassField no loopBundle (S n) loopField w
    = checkSupportedType no loopBundle n loopField ;err checkUnionCollectionClasses no loopBundle n (TypeUnion noMeta (Some ([A; S1], false))) w) by reflexivity.
  rewrite E1, E2, E3, E4, E5, E6. cbn [cf_Type]. rewrite E7, IH; [done|lia].
Qed.

(** C30. On a valid bundle in which a class holds a list of a union with that class,
    the walk of the gate does not return: the walk of a union inside a class field
    starts with an empty set of visited classes. *)
Theorem gate_diverges fuel :
  snd (ValidateOutput loopBundle) = None /\ checkSupported (fun _ => false) loopBundle fuel = Some OutOfFuel.
Proof.
  split; [apply loop_valid|].
  transitivity ((checkSupportedType (fun _ => false) loopBundle fuel loopField ;err None) ;err None); [reflexivity|].
  by rewrite loop_diverges.
Qed.

Lemma gate_terminates_witness : exists N, forall fuel, (N <= fuel)%nat ->
  checkSupported (fun _ => false)
    (fst (RebuildIndexes (mkBundle (TypeClass noMeta "A" NonStreaming) []
      [mkClassDef (mkName "A" None) None NonStreaming
         [mkClassField (mkName "s" None) (TypePrimitive noMeta PrimitiveString) None false] []
         (mkStreaming false false false) ∅ ∅] [] [] ∅ ∅ ∅))) fuel <> Some OutOfFuel.
Proof.
  apply (gate_terminates _ _ (fun _ => 0)). intros name mode cls f k Hf Hin. unfold FindClass in Hf.
  destruct (classByKey _ !! (name, mode)) as [i|] eqn:Hk; [|done].
  destruct i as [|i]; [|done]. vm_compute in Hf. injection Hf as <-. simpl in Hin.
  apply list_elem_of_singleton in Hin as ->. simpl. set_solver.
Defined.
