(* ===== verification/LeafCoerce.v ===== *)
(** * LeafCoerce: coercion of leaves and the helpers of the native coercer
    ([internal/debaml/coerce.go])

    Primitives, literals and enums; the selection of one item of an array; default
    values; map keys; the failures that BAML provably shares.  The tables of the
    name matcher are a parameter. *)

From Stdlib Require Import Ascii String.
From stdpp Require Import pretty.
From S2P Require Import Prelude GoStrings GoValue Jsonish GoFloat NumberText Unicode MatchString Schema PairGuard Candidate OutputText Gate.
Open Scope stdpp_scope.

(** ** Numbers and booleans *)

(** [intFromNumeric]: the integer and whether it was rounded. *)
Definition intFromNumeric (s : string) : option (Z * bool) :=
  match parseI64Rust s with
  | Some v => Some (v, false)
  | None =>
      match parseU64Rust s with
      | Some v => Some (i64 v, false)
      | None => match parseF64Rust s with Some v => Some (i64FromF64Round v, true) | None => None end
      end
  end.

(** [coerceIntValue]. *)
Definition coerceIntValue (input : value) : Z * bool + CoerceErr :=
  match input with
  | valNumber _ _ tok => match intFromNumeric tok with Some r => inl r | None => inr Unsupported end
  | valString _ s =>
      let t := trimNumericString s in
      match intFromNumeric t with
      | Some r => inl r
      | None =>
          match floatFromMaybeFraction t with
          | Some v => match i64FromF64RoundOk v with Some n => inl (n, true) | None => inr Unsupported end
          | None =>
              match floatFromCommaSeparated t with
              | Some v => match i64FromF64RoundOk v with Some n => inl (n, true) | None => inr Unsupported end
              | None => inr Unsupported
              end
          end
      end
  | _ => inr Unsupported
  end.

(** [emitFloat]. *)
Definition emitFloat (v : float64) (flagged : bool) : string * bool + CoerceErr :=
  match floatRaw v with Some out => inl (out, flagged) | None => inr Unsupported end.

(** [coerceFloatValue]. *)
Definition coerceFloatValue (input : value) : string * bool + CoerceErr :=
  match input with
  | valNumber _ _ tok => match parseF64Rust tok with Some _ => inl (tok, false) | None => inr Unsupported end
  | valString _ s =>
      let t := trimNumericString s in
      match parseF64Rust t, parseI64Rust t, parseU64Rust t, floatFromMaybeFraction t, floatFromCommaSeparated t with
      | Some v, _, _, _, _ => emitFloat v false
      | _, Some v, _, _, _ => emitFloat (float_of_int v) false
      | _, _, Some v, _, _ => emitFloat (float_of_int v) false
      | _, _, _, Some v, _ => emitFloat v false
      | _, _, _, _, Some v => emitFloat v true
      | _, _, _, _, _ => inr Unsupported
      end
  | _ => inr Unsupported
  end.

(** [strings.ToLower] compared with a text of the letters of [true] and [false]: no
    character outside ASCII has one of them as its lower case. *)
Fixpoint lowerIs (w s : string) : bool :=
  match w, s with
  | EmptyString, EmptyString => true
  | String a w, String c s => (lower c =c a) && lowerIs w s
  | _, _ => false
  end.

(** [boolMatchCandidates]. *)
Definition boolMatchCandidates : list matchCandidate :=
  [mkCandidate "true" ["true"; "True"; "TRUE"]; mkCandidate "false" ["false"; "False"; "FALSE"]].

(** ** One item of an array *)

Section ArrayToSingular.
Variables (coerceItem : value -> coerceFlags * (string + CoerceErr)) (itemProvenErr : value -> bool).

(** The candidates of the items, from position [i] on. *)
Fixpoint arrayItems (i : nat) (items : list value) : list candidate + CoerceErr :=
  match items with
  | [] => inl []
  | item :: items =>
      let '(cf, r) := coerceItem item in
      if uncertain cf then inr Unsupported
      else
        match r with
        | inl out => cs <== arrayItems (S i) items ;; inl (toCandidate cf out i :: cs)
        | inr e =>
            if negb (declinableChildError e) then inr e
            else if isProvenBamlError e || itemProvenErr item then arrayItems (S i) items
            else inr Unsupported
        end
  end.

Definition firstMatch (w : candidate) : candidate :=
  mkCand (output w) (originIndex w) (cand_score w + 1) (cand_unknown w) (withFirstMatch (cand_conds w)).

(** [coerceArrayToSingular]. *)
Definition coerceArrayToSingular (items : list value) (tu : bool) : candidate + CoerceErr :=
  match items with
  | [] => inr Proven
  | _ =>
      cs <== arrayItems 0 items ;;
      match cs with
      | [] => inr Proven
      | _ =>
          iw <== pickCandidate tu cs ;;
          let '(idx, w) := iw in
          let w :=
            if (1 <? length items)%nat && negb (hasUnionMatch (cand_conds w) || hasFirstMatch (cand_conds w))
            then if tu then onCandConds (withUnionMatch idx) w else firstMatch w
            else w in
          inl (firstMatch w)
      end
  end.
End ArrayToSingular.

(** [coerceScalarArrayToSingular]. *)
Definition coerceScalarArrayToSingular (coerceItem : value -> M string) (itemProvenErr : value -> bool)
    (items : list value) : M string :=
  f <~ getFlags ;;
  let tu := targetIsUnion f in
  w <~ lift (coerceArrayToSingular (fun item => coerceItem item (newFlags tu)) itemProvenErr items tu) ;;
  absorb w ;;; ret (output w).

(** [provenNumericArrayItemError] and [provenBoolArrayItemError]. *)
Definition provenNumericArrayItemError (item : value) : bool :=
  match item with
  | valString _ s => bamlStringNumberFails s
  | valObject _ _ | valBool _ _ | valNull _ => true
  | _ => false
  end.
Definition provenBoolArrayItemError (item : value) : bool :=
  match item with valString _ _ | valObject _ _ | valNumber _ _ _ | valNull _ => true | _ => false end.

(** ** Primitives *)

Definition addIf (flagged : bool) (w : Z) : M unit := if flagged then add w else ret tt.

(** [coercePrimitiveInt] and [coercePrimitiveFloat]. *)
Fixpoint coercePrimitiveInt (input : value) : M string :=
  match input with
  | valArray _ items => coerceScalarArrayToSingular coercePrimitiveInt provenNumericArrayItemError items
  | _ => r <~ lift (coerceIntValue input) ;; setKind candScalar ;;; addIf r.2 1 ;;; ret (pretty r.1)
  end.
Fixpoint coercePrimitiveFloat (input : value) : M string :=
  match input with
  | valArray _ items => coerceScalarArrayToSingular coercePrimitiveFloat provenNumericArrayItemError items
  | _ => r <~ lift (coerceFloatValue input) ;; setKind candScalar ;;; addIf r.2 1 ;;; ret r.1
  end.

(** [coercePrimitiveNull]. *)
Definition coercePrimitiveNull (input : value) : M string :=
  setKind candNull ;;; addIf (match input with valNull _ => false | _ => true end) 110 ;;; ret "null".

(** [displayStringification]. *)
Definition displayStringification (input : value) : M string :=
  let '(s, certain) := displayValue input in
  if certain then add 2 ;;; ret s else markUncertain ;;; fail Unsupported.

(** [coercePrimitiveString]. *)
Definition coercePrimitiveString (input : value) : M string :=
  setKind candScalar ;;;
  match input with
  | valString _ s => ret (marshalJSON s)
  | valNull _ => fail Unsupported
  | _ => s <~ displayStringification input ;; modify (onConds withJsonToString) ;;; ret (marshalJSON s)
  end.

(** [stringForMatch]. *)
Definition stringForMatch (input : value) : M string :=
  match input with
  | valString _ s => ret s
  | valNull _ => fail Unsupported
  | _ => displayStringification input
  end.

(** ** Defaults and provable failures *)

(** [defaultValue]. *)
Fixpoint defaultValue (t : type) : option string :=
  match t with
  | TypeList _ _ => Some "[]"
  | TypeMap _ _ _ => Some "{}"
  | TypePrimitive _ PrimitiveNull => Some "null"
  | TypeUnion _ (Some (vs, nullable)) =>
      match (fix first (vs : list type) : option string :=
               match vs with
               | [] => None
               | v :: vs => match defaultValue v with Some d => Some d | None => first vs end
               end) vs with
      | Some d => Some d
      | None => if nullable then Some "null" else None
      end
  | TypeTuple _ items =>
      match (fix all (ts : list type) : option (list string) :=
               match ts with
               | [] => Some []
               | t :: ts => match defaultValue t, all ts with Some d, Some ds => Some (d :: ds) | _, _ => None end
               end) items with
      | Some ds => Some ("[" +:+ joinComma ds +:+ "]")
      | None => None
      end
  | _ => None
  end.

(** [classAllRequiredFlatLeaf]. *)
Definition classAllRequiredFlatLeaf (cls : ClassDef) : bool :=
  (2 <=? length (cd_Fields cls))%nat && forallb (fun f => isFlatLeafField (cf_Type f)) (cd_Fields cls).

(** [provenListItemError], which [provenMapValueError] delegates to. *)
Definition provenListItemError (b : Bundle) (elem : type) (item : value) : bool :=
  match elem with
  | TypePrimitive _ p =>
      match p with
      | PrimitiveInt | PrimitiveFloat => provenNumericArrayItemError item
      | PrimitiveBool => provenBoolArrayItemError item
      | PrimitiveString => match item with valNull _ => true | _ => false end
      | _ => false
      end
  | TypeEnum _ _ => match item with valString _ _ => true | _ => false end
  | TypeLiteral _ (Some (LiteralString _)) => match item with valString _ _ => true | _ => false end
  | TypeClass _ name mode =>
      match FindClass b name mode with
      | None => false
      | Some cls =>
          classAllRequiredFlatLeaf cls
          && match item with valString _ _ | valNumber _ _ _ | valBool _ _ | valNull _ => true | _ => false end
      end
  | _ => false
  end.

Definition isDefaultable (t : type) : bool := bool_decide (is_Some (defaultValue t)).

(** [provenClassFieldError]. *)
Definition provenClassFieldError (b : Bundle) (fieldT : type) (v : value) (e : CoerceErr) : bool :=
  if isOptional fieldT || isDefaultable fieldT then false else isProvenBamlError e || provenListItemError b fieldT v.

(** [nullSurvivingUnionArm], [nullIntoNonNullableUnion] and [unionNoArmVerdict]. *)
Definition nullSurvivingUnionArm (t : type) : bool :=
  match t with TypePrimitive _ _ | TypeLiteral _ _ | TypeEnum _ _ | TypeMap _ _ _ => false | _ => true end.
Definition unionNoArmVerdict (variants : list type) : CoerceErr :=
  if isDefaultable (TypeUnion noMeta (Some (variants, false))) then Proven else Mismatch.
Definition nullIntoNonNullableUnion (variants : list type) : CoerceErr :=
  if existsb nullSurvivingUnionArm variants then Unsupported else unionNoArmVerdict variants.

(** [flattenStringLiterals]. *)
Fixpoint flattenStringLiterals (t : type) : list string :=
  match t with
  | TypeUnion _ (Some (vs, _)) =>
      vs ≫= (fun v =>
        match v with
        | TypeLiteral _ (Some (LiteralString s)) => [s]
        | TypeUnion _ _ => flattenStringLiterals v
        | _ => []
        end)
  | _ => []
  end.

(** [enumMatchCandidates]. *)
Definition enumMatchCandidates (e : EnumDef) : list matchCandidate :=
  (fun v =>
     let rendered := RenderedName (ev_Name v) in
     let d := match ev_Description v with Some d => TrimSpace d | None => "" end in
     mkCandidate (nm_Name (ev_Name v)) (if d =s "" then [rendered] else [rendered; d; rendered +:+ ": " +:+ d]))
  <$> ed_Values e.

(** ** Coercers that match names *)

Section Matching.
Variable T : tables.

(** [coerceBoolValue]. *)
Definition coerceBoolValue (input : value) : bool * bool + CoerceErr :=
  match input with
  | valBool _ x => inl (x, false)
  | valString _ s =>
      if lowerIs "true" s then inl (true, true)
      else if lowerIs "false" s then inl (false, true)
      else
        match matchString T s boolMatchCandidates true with
        | (m, matchOne, _) =>
            if m =s "true" then inl (true, true) else if m =s "false" then inl (false, true) else inr Unsupported
        | _ => inr Unsupported
        end
  | _ => inr Unsupported
  end.

(** [coercePrimitiveBool]. *)
Fixpoint coercePrimitiveBool (input : value) : M string :=
  match input with
  | valArray _ items => coerceScalarArrayToSingular coercePrimitiveBool provenBoolArrayItemError items
  | _ => r <~ lift (coerceBoolValue input) ;; setKind candScalar ;;; addIf r.2 1 ;;; ret (boolRaw r.1)
  end.

(** [coercePrimitive]. *)
Definition coercePrimitive (p : PrimitiveKind) (input : value) : M string :=
  match p with
  | PrimitiveString => coercePrimitiveString input
  | PrimitiveInt => coercePrimitiveInt input
  | PrimitiveFloat => coercePrimitiveFloat input
  | PrimitiveBool => coercePrimitiveBool input
  | PrimitiveNull => coercePrimitiveNull input
  | _ => fail Hard
  end.

(** The value a literal admits, by the kind of the literal. *)
Definition coerceLiteralValue (lit : LiteralValue) (input : value) : M string :=
  match lit with
  | LiteralString s =>
      str <~ stringForMatch input ;;
      match matchString T str [mkCandidate s [s]] true with
      | (m, matchOne, viaSub) => addIf viaSub 2 ;;; ret (marshalJSON m)
      | (_, matchAmbiguous, _) => fail Mismatch
      | _ => fail Proven
      end
  | LiteralInt n =>
      match coerceIntValue input with
      | inr e => fail (if declinableChildError e then Unsupported else e)
      | inl (m, flagged) => if (m =? n)%Z then addIf flagged 1 ;;; ret (pretty m) else fail Proven
      end
  | LiteralBool x =>
      match coerceBoolValue input with
      | inr e => fail (if declinableChildError e then Unsupported else e)
      | inl (y, flagged) => if Bool.eqb y x then addIf flagged 1 ;;; ret (boolRaw y) else fail Proven
      end
  | LiteralOther _ => fail Hard
  end.

(** [coerceLiteral]: an object with one scalar member stands for that member. *)
Fixpoint coerceLiteral (lit : option LiteralValue) (input : value) : M string :=
  match lit with
  | None => fail Hard
  | Some l =>
      setKind candScalar ;;;
      match input with
      | valObject _ [(_, (valNumber _ _ _ | valBool _ _ | valString _ _) as inner)] =>
          out <~ coerceLiteral lit inner ;; add 2 ;;; ret out
      | _ => coerceLiteralValue l input
      end
  end.

(** [coerceEnum]. *)
Definition coerceEnum (b : Bundle) (name : string) (input : value) : M string :=
  match FindEnum b name with
  | None => fail Hard
  | Some e =>
      setKind candEnum ;;;
      str <~ stringForMatch input ;;
      match matchString T str (enumMatchCandidates e) true with
      | (m, matchOne, viaSub) => addIf viaSub 2 ;;; ret (marshalJSON m)
      | (_, matchAmbiguous, _) => fail Mismatch
      | _ => fail Proven
      end
  end.

(** The verdict on a map key: a miss keeps the key but makes the score unknown. *)
Definition keyVerdict (key : string) (cands : list matchCandidate) : M unit :=
  match matchString T key cands true with
  | (_, matchOne, _) => ret tt
  | (_, matchNone, _) => markScoreUnknown
  | (_, matchAmbiguous, _) => fail Unsupported
  end.

(** [coerceMapKey]. *)
Definition coerceMapKey (b : Bundle) (keyT : type) (key : string) : M unit :=
  match keyT with
  | TypePrimitive _ PrimitiveString => ret tt
  | TypeEnum _ name =>
      match FindEnum b name with None => fail Hard | Some e => keyVerdict key (enumMatchCandidates e) end
  | TypeLiteral _ (Some (LiteralString s)) => keyVerdict key [mkCandidate s [s]]
  | TypeUnion _ _ =>
      if isStringLiteralUnionType keyT
      then keyVerdict key ((fun s => mkCandidate s [s]) <$> flattenStringLiterals keyT)
      else fail Unsupported
  | _ => fail Unsupported
  end.
End Matching.

(** ** Examples *)

Example int_from_text :
  coerceIntValue (valString false " $1,234.5 ") = inl (1235%Z, true)
  /\ coerceIntValue (valString false "3/4") = inl (1%Z, true)
  /\ coerceIntValue (valNumber false false "18446744073709551615") = inl ((-1)%Z, false).
Proof. split_and!; vm_compute; reflexivity. Qed.

(** A number read as a float keeps its spelling. *)
Example float_keeps_token : coerceFloatValue (valNumber false false "1.0") = inl ("1.0", false).
Proof. vm_compute. reflexivity. Qed.

Example int_of_array : fst (coercePrimitiveInt (valArray false [valString false "x"; valNumber false false "2.5"; valNumber false false "4"]) (newFlags false))
  = mkFlags 2 false false false (withFirstMatch noConditions)
  /\ snd (coercePrimitiveInt (valArray false [valString false "x"; valNumber false false "2.5"; valNumber false false "4"]) (newFlags false)) = inl "4".
Proof. split; vm_compute; reflexivity. Qed.
