(* ===== verification/TryCast.v ===== *)
(** * TryCast: the strict phase of a union coercion
    ([internal/debaml/coerce.go]: [tryCastUnion], [tryCastArm] and below)

    A strict cast gives a candidate, no match ([None]) or an error.  Every
    operation takes the recursive call as an argument; [tryCastArm] ties the knot
    with fuel. *)

From Stdlib Require Import Ascii String.
From stdpp Require Import pretty.
From S2P Require Import Prelude GoStrings GoValue Jsonish NumberText Schema PairGuard Candidate OutputText Gate LeafCoerce.
Open Scope stdpp_scope.

(** ** Assigning keys to fields *)

(** The first field that [p] accepts for the key. *)
Fixpoint findField (p : ClassField -> bool) (fs : list ClassField) : option nat :=
  match fs with
  | [] => None
  | f :: fs => if p f then Some 0 else S <$> findField p fs
  end.

(** The values of the fields and the number of keys that belong to none: each key
    goes to the first field it matches, the first key of a field stays. *)
Definition assignKey (p : string -> ClassField -> bool) (fields : list ClassField)
    (acc : list (option value) * Z) (kv : string * value) : list (option value) * Z :=
  let '(assigned, extras) := acc in
  match findField (p kv.1) fields with
  | None => (assigned, extras + 1)%Z
  | Some j =>
      match assigned !! j with
      | Some None => (<[j := Some kv.2]> assigned, extras)
      | _ => (assigned, extras)
      end
  end.
Definition assignKeys (p : string -> ClassField -> bool) (fields : list ClassField) (members : list (string * value))
    : list (option value) * Z :=
  foldl (assignKey p fields) (replicate (length fields) None, 0%Z) members.

(** The text of an object. *)
Definition memberText (key out : string) : string := marshalJSON key +:+ String ":" out.
Definition objectText (ms : list string) : string := "{" +:+ joinComma ms +:+ "}".
Definition arrayText (xs : list string) : string := "[" +:+ joinComma xs +:+ "]".

(** The exact match of a strict cast. *)
Definition renderedIs (key : string) (f : ClassField) : bool := RenderedName (cf_Name f) =s key.

(** ** Leaves *)

Definition castTo (k : candKind) (out : string) : option candidate + CoerceErr :=
  inl (Some (mkCand out 0 0 false (withKind k noConditions))).
Definition noCast : option candidate + CoerceErr := inl None.

(** The rendered name of an enum value. *)
Fixpoint renderedValue (s : string) (vs : list EnumValue) : option string :=
  match vs with
  | [] => None
  | v :: vs => if RenderedName (ev_Name v) =s s then Some (nm_Name (ev_Name v)) else renderedValue s vs
  end.

(** [tryCastArm] on primitives, literals and enums. *)
Definition tryCastLeaf (b : Bundle) (t : type) (input : value) : option candidate + CoerceErr :=
  match t, input with
  | TypePrimitive _ PrimitiveString, valString _ s => castTo candScalar (marshalJSON s)
  | TypePrimitive _ PrimitiveInt, valNumber _ _ tok =>
      match parseI64Rust tok with Some v => castTo candScalar (pretty v) | None => noCast end
  | TypePrimitive _ PrimitiveFloat, valNumber _ _ tok =>
      match parseF64Rust tok with
      | Some v => match floatRaw v with Some out => castTo candScalar out | None => inr Unsupported end
      | None => noCast
      end
  | TypePrimitive _ PrimitiveBool, valBool _ x => castTo candScalar (boolRaw x)
  | TypeLiteral _ None, _ => inr Hard
  | TypeLiteral _ (Some (LiteralString l)), valString _ s => if s =s l then castTo candScalar (marshalJSON s) else noCast
  | TypeLiteral _ (Some (LiteralInt l)), valNumber _ _ tok =>
      match parseI64Rust tok with
      | Some v => if (v =? l)%Z then castTo candScalar (pretty v) else noCast
      | None => noCast
      end
  | TypeLiteral _ (Some (LiteralBool l)), valBool _ x => if Bool.eqb x l then castTo candScalar (boolRaw x) else noCast
  | TypeEnum _ name, valString _ s =>
      match FindEnum b name with
      | None => inr Hard
      | Some e => match renderedValue s (ed_Values e) with Some n => castTo candEnum (marshalJSON n) | None => noCast end
      end
  | _, _ => noCast
  end.

(** ** Composites *)

Section Step.
Variables (b : Bundle) (rec : type -> value -> coerceCtx -> option candidate + CoerceErr).

(** The values of a map, all of which must cast: their texts and their score. *)
Fixpoint castEntries (valT : type) (ctx : coerceCtx) (fs : list (string * value)) : option (list string * Z) + CoerceErr :=
  match fs with
  | [] => inl (Some ([], 0%Z))
  | f :: fs =>
      r <== rec valT f.2 ctx ;;
      match r with
      | None => inl None
      | Some c =>
          rest <== castEntries valT ctx fs ;;
          inl (match rest with Some (ms, s) => Some (memberText f.1 (output c) :: ms, cand_score c + s)%Z | None => None end)
      end
  end.

(** [tryCastMap]. *)
Definition tryCastMap (key val : option type) (input : value) (ctx : coerceCtx) : option candidate + CoerceErr :=
  match key, val with
  | Some keyT, Some valT =>
      if negb (isStringKey keyT) then noCast
      else
        match input with
        | valObject _ fs =>
            if negb (bool_decide (NoDup (fst <$> fs))) then noCast
            else
              r <== castEntries valT ctx fs ;;
              match r with
              | None => noCast
              | Some (ms, s) => inl (Some (mkCand (objectText ms) 0 (1 + s) false (withKind candMap noConditions)))
              end
        | _ => noCast
        end
  | _, _ => inr Hard
  end.

(** The items of a list, all of which must cast; [last] is the hint of the item
    before. *)
Fixpoint castItems (elem : type) (ctx : coerceCtx) (last : option nat) (items : list value)
    : option (list string * Z) + CoerceErr :=
  match items with
  | [] => inl (Some ([], 0%Z))
  | item :: items =>
      r <== rec elem item (enterScopeWithHint ctx last) ;;
      match r with
      | None => inl None
      | Some c =>
          rest <== castItems elem ctx (hintOf (cand_conds c)) items ;;
          inl (match rest with Some (xs, s) => Some (output c :: xs, cand_score c + s)%Z | None => None end)
      end
  end.

(** [tryCastArray]. *)
Definition tryCastArray (elem : option type) (input : value) (ctx : coerceCtx) : option candidate + CoerceErr :=
  match elem with
  | None => inr Hard
  | Some e =>
      match input with
      | valArray _ items =>
          r <== castItems e ctx None items ;;
          match r with
          | None => noCast
          | Some (xs, s) =>
              inl (Some (mkCand (arrayText xs) 0 s false
                (withItems (bool_decide (length items = 0%nat)) 0 (withKind candList noConditions))))
          end
      | _ => noCast
      end
  end.

(** A candidate that won as arm [i]. *)
Definition asArm (i : nat) (c : candidate) : candidate :=
  mkCand (output c) i (cand_score c) (cand_unknown c) (withUnionMatch i (cand_conds c)).

(** The arms in order: the first that casts with score 0, or all that cast. *)
Fixpoint castVariants (input : value) (ctx : coerceCtx) (i : nat) (vs : list type)
    : candidate + list candidate + CoerceErr :=
  match vs with
  | [] => inl (inr [])
  | v :: vs =>
      r <== rec v input ctx ;;
      match r with
      | None => castVariants input ctx (S i) vs
      | Some c =>
          if (cand_score c =? 0)%Z then inl (inl (asArm i c))
          else
            rest <== castVariants input ctx (S i) vs ;;
            inl (match rest with inl w => inl w | inr cs => inr (asArm i c :: cs) end)
      end
  end.
Definition castStandard (variants : list type) (input : value) (ctx : coerceCtx) : option candidate + CoerceErr :=
  r <== castVariants input ctx 0 variants ;;
  match r with
  | inl w => inl (Some w)
  | inr [] => inl None
  | inr cs => iw <== pickCandidate true cs ;; inl (Some iw.2)
  end.

(** [tryCastUnion]. *)
Definition tryCastUnion (variants : list type) (input : value) (ctx : coerceCtx) : option candidate + CoerceErr :=
  match unionHint ctx with
  | None => castStandard variants input ctx
  | Some h =>
      match variants !! h with
      | None => castStandard variants input ctx
      | Some v =>
          r <== rec v input ctx ;;
          match r with
          | Some c => if (cand_score c =? 0)%Z then inl (Some (asArm h c)) else castStandard variants input ctx
          | None => castStandard variants input ctx
          end
      end
  end.

(** [tryCastUnionArm]. *)
Definition tryCastUnionArm (u : option (list type * bool)) (input : value) (ctx : coerceCtx)
    : option candidate + CoerceErr :=
  match u with
  | None => inr Hard
  | Some (variants, nullable) =>
      match input with
      | valNull _ => if nullable then castTo candNull "null" else noCast
      | _ => tryCastUnion variants input ctx
      end
  end.

(** The fields of a class with their values: an absent optional field is null at
    the price of 1, an absent required field does not cast. *)
Fixpoint castFields (ctx : coerceCtx) (fs : list (ClassField * option value)) : option (list string * Z) + CoerceErr :=
  match fs with
  | [] => inl (Some ([], 0%Z))
  | (f, None) :: fs =>
      if isOptional (cf_Type f) then
        rest <== castFields ctx fs ;;
        inl (match rest with Some (ms, s) => Some (memberText (nm_Name (cf_Name f)) "null" :: ms, 1 + s)%Z | None => None end)
      else inl None
  | (f, Some v) :: fs =>
      r <== rec (cf_Type f) v ctx ;;
      match r with
      | None => inl None
      | Some c =>
          rest <== castFields ctx fs ;;
          inl (match rest with
               | Some (ms, s) => Some (memberText (nm_Name (cf_Name f)) (output c) :: ms, cand_score c + s)%Z
               | None => None
               end)
      end
  end.

(** [tryCastClass]. *)
Definition tryCastClass (name : string) (mode : StreamingMode) (input : value) (ctx : coerceCtx)
    : option candidate + CoerceErr :=
  match FindClass b name mode with
  | None => inr Hard
  | Some cls =>
      match input with
      | valObject _ members =>
          if tryCastHas ctx (name, mode) input then noCast
          else
            let child := enterTryCast ctx (name, mode) input in
            let '(assigned, extras) := assignKeys renderedIs (cd_Fields cls) members in
            if (0 <? extras)%Z then noCast
            else
              r <== castFields child (combine (cd_Fields cls) assigned) ;;
              match r with
              | None => noCast
              | Some (ms, s) => inl (Some (mkCand (objectText ms) 0 s false (withKind candClass noConditions)))
              end
      | _ => noCast
      end
  end.

(** One level of [tryCastArm]. *)
Definition tryCastStep (t : type) (input : value) (ctx : coerceCtx) : option candidate + CoerceErr :=
  match t with
  | TypeClass _ name mode => tryCastClass name mode input ctx
  | TypeMap _ key val => tryCastMap key val input ctx
  | TypeList _ elem => tryCastArray elem input ctx
  | TypeUnion _ u => tryCastUnionArm u input ctx
  | _ => tryCastLeaf b t input
  end.
End Step.

(** [tryCastArm]. *)
Fixpoint tryCastArm (fuel : nat) (b : Bundle) (t : type) (input : value) (ctx : coerceCtx)
    : option candidate + CoerceErr :=
  match fuel with
  | O => inr OutOfFuel
  | S n => tryCastStep b (tryCastArm n b) t input ctx
  end.
