(* ===== verification/Coerce.v ===== *)
(** * Coerce: the type-directed coercion of the native output parser
    ([internal/debaml/coerce.go]: [coerce] and the composite coercers)

    Every composite coercer takes the recursive call, the strict cast and the
    union gate as arguments; [coerce] ties the knot with fuel.  The recursive alias
    arm ([alias_coerce.go]) is an argument of the whole development. *)

From Stdlib Require Import Ascii String.
From S2P Require Import Prelude GoStrings GoValue Jsonish NumberText Unicode MatchString Schema PairGuard Candidate OutputText Gate LeafCoerce TryCast.
Open Scope stdpp_scope.

(** ** Union selection *)

Section Select.
Variable arm : type -> coerceFlags * (string + CoerceErr).

(** The arms in order: the first that coerces with score 0, or all that coerce. *)
Fixpoint armLoop (i : nat) (vs : list type) : candidate + list candidate + CoerceErr :=
  match vs with
  | [] => inl (inr [])
  | v :: vs =>
      let '(armF, r) := arm v in
      if uncertain armF then inr Unsupported
      else
        match r with
        | inl out =>
            let c := toCandidate armF out i in
            if (cand_score c =? 0)%Z then inl (inl (onCandConds (withUnionMatch i) c))
            else
              rest <== armLoop (S i) vs ;;
              inl (match rest with inl w => inl w | inr cs => inr (c :: cs) end)
        | inr e =>
            if isProvenBamlError e then armLoop (S i) vs
            else if declinableChildError e then inr Unsupported
            else inr e
        end
  end.

(** The pass over all arms of [selectUnionArms]. *)
Definition selectStandard (vs : list type) (nullable : bool) : candidate + CoerceErr :=
  r <== armLoop 0 vs ;;
  match r with
  | inl w => inl w
  | inr cs =>
      match cs ++ (if nullable then [nullCandidate (length vs)] else []) with
      | [] => inr UnionAllArmsFailed
      | cs =>
          iw <== pickCandidate true cs ;;
          let w := iw.2 in
          inl (if hasUnionMatch (cand_conds w) || hasFirstMatch (cand_conds w) then w
               else onCandConds (withUnionMatch (originIndex w)) w)
      end
  end.

(** [selectUnionArms]. *)
Definition selectUnionArms (vs : list type) (nullable : bool) (hint : option nat) : candidate + CoerceErr :=
  match hint with
  | None => selectStandard vs nullable
  | Some h =>
      match vs !! h with
      | None => selectStandard vs nullable
      | Some v =>
          match arm v with
          | (armF, inl out) =>
              if negb (uncertain armF) && (score armF =? 0)%Z
              then inl (onCandConds (withUnionMatch h) (toCandidate armF out h))
              else selectStandard vs nullable
          | (_, inr OutOfFuel) => inr OutOfFuel
          | (_, inr _) => selectStandard vs nullable
          end
      end
  end.
End Select.

Section Step.
Variables (T : tables) (b : Bundle).
Variable rec : type -> value -> coerceCtx -> M string.
Variable cast : type -> value -> coerceCtx -> option candidate + CoerceErr.
Variables (gateType : type -> option CoerceErr) (gateShape : list type -> option CoerceErr).

(** ** Lists *)

(** [coerceListChild]: the text of the element and the hint for the next one, or
    [None] for an element that is dropped. *)
Definition coerceListChild (elem : type) (item : value) (ctx : coerceCtx) : M (option (string * option nat)) :=
  fun cf =>
    let '(childF, r) := rec elem item ctx (newFlags false) in
    match r with
    | inl out => (foldFlags childF cf, inl (Some (out, hintOf (conds childF))))
    | inr e =>
        if negb (declinableChildError e) then (cf, inr e)
        else if uncertain childF then (setUncertain cf, inr Unsupported)
        else if provenListItemError b elem item then (cf, inl None)
        else if (match elem with TypeUnion _ _ => true | _ => false end) && isProvenBamlError e then (cf, inl None)
        else (cf, inr Unsupported)
    end.

(** The elements from position [i] on: their texts and the number dropped. *)
Fixpoint listItems (elem : type) (ctx : coerceCtx) (i : nat) (last : option nat) (items : list value) : M (list string * Z) :=
  match items with
  | [] => ret ([], 0%Z)
  | item :: items =>
      r <~ coerceListChild elem item (enterScopeWithHint ctx last) ;;
      match r with
      | None => add (1 + Z.of_nat i) ;;; rest <~ listItems elem ctx (S i) last items ;; ret (rest.1, rest.2 + 1)%Z
      | Some (out, next) => rest <~ listItems elem ctx (S i) next items ;; ret (out :: rest.1, rest.2)
      end
  end.

Definition finishList (r : list string * Z) : M string :=
  modify (onConds (withItems (bool_decide (length r.1 = 0%nat)) r.2)) ;;; ret (arrayText r.1).

(** [coerceList]. *)
Definition coerceList (elem : option type) (input : value) (ctx : coerceCtx) : M string :=
  match elem with
  | None => fail Hard
  | Some e =>
      setKind candList ;;;
      match input with
      | valArray _ items => r <~ listItems e ctx 0 None items ;; finishList r
      | _ =>
          add 1 ;;; modify (onConds withSingleToArray) ;;;
          r <~ coerceListChild e input (enterScope ctx) ;;
          match r with
          | Some (out, _) => finishList ([out], 0%Z)
          | None => add 1 ;;; finishList ([], 1%Z)
          end
      end
  end.

(** ** Maps *)

(** [coerceMapValueChild]. *)
Definition coerceMapValueChild (valT : type) (v : value) (ctx : coerceCtx) : M (option string) :=
  fun cf =>
    let '(childF, r) := rec valT v (enterScope ctx) (newFlags false) in
    match r with
    | inl out => (foldFlags childF cf, inl (Some out))
    | inr e =>
        if negb (declinableChildError e) then (cf, inr e)
        else if uncertain childF then (setUncertain cf, inr Unsupported)
        else if provenListItemError b valT v then (cf, inl None)
        else (cf, inr Unsupported)
    end.

Fixpoint mapEntries (keyT valT : type) (ctx : coerceCtx) (fs : list (string * value)) : M (list string) :=
  match fs with
  | [] => ret []
  | f :: fs =>
      r <~ coerceMapValueChild valT f.2 ctx ;;
      match r with
      | None => add 1 ;;; mapEntries keyT valT ctx fs
      | Some out =>
          coerceMapKey T b keyT f.1 ;;;
          rest <~ mapEntries keyT valT ctx fs ;; ret (memberText f.1 out :: rest)
      end
  end.

(** [coerceMap]. *)
Definition coerceMap (key val : option type) (input : value) (ctx : coerceCtx) : M string :=
  match key, val with
  | Some keyT, Some valT =>
      match input with
      | valObject _ fs =>
          if negb (bool_decide (NoDup (fst <$> fs))) then fail Unsupported
          else setKind candMap ;;; add 1 ;;; ms <~ mapEntries keyT valT ctx fs ;; ret (objectText ms)
      | _ => fail Unsupported
      end
  | _, _ => fail Hard
  end.

(** ** Classes *)

(** What became of a field that got a value: its text, or nothing that can be
    proven. *)
Inductive fieldRes := Filled (out : string) | Indeterminate.

Definition isMapType (t : type) : bool := match t with TypeMap _ _ _ => true | _ => false end.
Definition isObjectValue (v : value) : bool := match v with valObject _ _ => true | _ => false end.

(** [resolveMatched]. *)
Definition resolveMatched (f : ClassField) (v : value) (ctx : coerceCtx) : M fieldRes :=
  fun cf =>
    let '(childF, r) := rec (cf_Type f) v ctx (newFlags false) in
    match r with
    | inl out => (foldFlags childF cf, inl (Filled out))
    | inr e =>
        if negb (declinableChildError e) then (cf, inr e)
        else if isClaimedMismatch e then (cf, inr e)
        else
          match (if isProvenBamlError e then defaultValue (cf_Type f) else None) with
          | Some d => (addScore 2 cf, inl (Filled d))
          | None =>
              if isMapType (cf_Type f) && negb (isObjectValue v) then (addScore 2 cf, inl (Filled "{}"))
              else if uncertain childF then (setUncertain cf, inl Indeterminate)
              else if provenClassFieldError b (cf_Type f) v e then (cf, inr Proven)
              else (cf, inl Indeterminate)
          end
    end.

(** [coerceImplied]. *)
Definition coerceImplied (f : ClassField) (v : value) (ctx : coerceCtx) : M fieldRes :=
  fun cf =>
    let '(childF, r) := rec (cf_Type f) v ctx (newFlags false) in
    match r with
    | inl out => (addScore 2 (foldFlags childF cf), inl (Filled out))
    | inr e =>
        if negb (declinableChildError e) then (cf, inr e)
        else if isClaimedMismatch e then (cf, inr e)
        else if uncertain childF then (setUncertain cf, inl Indeterminate)
        else if provenClassFieldError b (cf_Type f) v e then (cf, inr Proven)
        else (cf, inl Indeterminate)
    end.

(** The fields that got a value, in order. *)
Fixpoint resolveFields (ctx : coerceCtx) (fs : list (ClassField * option value)) : M (list (option fieldRes)) :=
  match fs with
  | [] => ret []
  | (f, None) :: fs => rest <~ resolveFields ctx fs ;; ret (None :: rest)
  | (f, Some v) :: fs =>
      r <~ resolveMatched f v ctx ;;
      rest <~ resolveFields ctx fs ;; ret (Some r :: rest)
  end.

Definition isFilled (r : option fieldRes) : bool := match r with Some (Filled _) => true | _ => false end.
Definition isIndeterminate (r : option fieldRes) : bool := match r with Some Indeterminate => true | _ => false end.

(** The fields of the class from an object, and whether a string was implied. *)
Definition resolveObject (fields : list ClassField) (input : value) (members : list (string * value)) (ctx : coerceCtx)
    : M (list (option fieldRes) * bool) :=
  let '(assigned, extras) := assignKeys (fun key f => matchesStringToString T key (RenderedName (cf_Name f))) fields members in
  rs <~ resolveFields ctx (combine fields assigned) ;;
  match fields with
  | [f] =>
      if negb (existsb (fun a => bool_decide (is_Some a)) assigned) && (0 <? extras)%Z
      then r <~ coerceImplied f input ctx ;; ret ([Some r], isFilled (Some r) && isStringKey (cf_Type f))
      else (if (0 <? extras)%Z then add extras else ret tt) ;;; ret (rs, false)
  | _ => (if (0 <? extras)%Z then add extras else ret tt) ;;; ret (rs, false)
  end.

(** The fields of the class from a scalar or null. *)
Definition resolveScalar (fields : list ClassField) (input : value) (ctx : coerceCtx) : M (list (option fieldRes) * bool) :=
  match fields with
  | [f] => r <~ coerceImplied f input ctx ;; ret ([Some r], isFilled (Some r) && isStringKey (cf_Type f))
  | _ => ret ((fun _ => None) <$> fields, false)
  end.

(** The defaults of the fields without a value; [None] is a missing field. *)
Fixpoint fillDefaults (fs : list (ClassField * option fieldRes)) : M (list (option string)) :=
  match fs with
  | [] => ret []
  | (f, Some (Filled out)) :: fs => rest <~ fillDefaults fs ;; ret (Some out :: rest)
  | (f, _) :: fs =>
      if isOptional (cf_Type f) then add 1 ;;; rest <~ fillDefaults fs ;; ret (Some "null" :: rest)
      else
        match defaultValue (cf_Type f) with
        | Some d => add 100 ;;; rest <~ fillDefaults fs ;; ret (Some d :: rest)
        | None => rest <~ fillDefaults fs ;; ret (None :: rest)
        end
  end.

(** [coerceClassArray]. *)
Definition coerceClassArray (cls : ClassDef) (name : string) (mode : StreamingMode) (items : list value) (ctx : coerceCtx)
    : M string :=
  if negb (classAllRequiredFlatLeaf cls) then fail Unsupported
  else
    f <~ getFlags ;;
    let tu := targetIsUnion f in
    w <~ lift (coerceArrayToSingular (fun item => rec (TypeClass noMeta name mode) item ctx (newFlags tu)) (fun _ => false) items tu) ;;
    absorb w ;;; ret (output w).

(** The end of [coerceClass]: defaults, missing fields, and the text. *)
Definition finishClass (fields : list ClassField) (r : list (option fieldRes) * bool) : M string :=
  let '(rs, impliedString) := r in
  if existsb isIndeterminate rs then fail Unsupported
  else
    outs <~ fillDefaults (combine fields rs) ;;
    if existsb (fun o => bool_decide (o = None)) outs then fail Proven
    else
      modify (onConds (withClass (Z.of_nat (length outs)) (negb (existsb isFilled rs)) impliedString)) ;;;
      ret (objectText (zip_with (fun f o => memberText (nm_Name (cf_Name f)) (default "" o)) fields outs)).

(** [coerceClass]. *)
Definition coerceClass (name : string) (mode : StreamingMode) (input : value) (ctx : coerceCtx) : M string :=
  match FindClass b name mode with
  | None => fail Hard
  | Some cls =>
      if coerceHas ctx (name, mode) input then fail Circular
      else
        let child := enterCoerce ctx (name, mode) input in
        match input with
        | valArray _ items => coerceClassArray cls name mode items child
        | valObject _ members =>
            setKind candClass ;;; r <~ resolveObject (cd_Fields cls) input members child ;; finishClass (cd_Fields cls) r
        | _ => setKind candClass ;;; r <~ resolveScalar (cd_Fields cls) input child ;; finishClass (cd_Fields cls) r
        end
  end.

(** ** Unions *)

(** The lenient coercion of one arm; an arm of a union that is not nullable whose
    failure BAML provably shares counts as proven. *)
Definition lenientArm (input : value) (nullable : bool) (ctx : coerceCtx) (v : type) : coerceFlags * (string + CoerceErr) :=
  let '(armF, r) := rec v input ctx (newFlags true) in
  match r with
  | inr e =>
      if negb nullable && declinableChildError e && negb (isProvenBamlError e) && negb (uncertain armF)
         && provenListItemError b v input
      then (armF, inr Proven) else (armF, inr e)
  | inl out => (armF, inl out)
  end.

(** [coerceUnionSafeMulti]. *)
Definition coerceUnionSafeMulti (variants : list type) (input : value) (nullable : bool) (ctx : coerceCtx) : M string :=
  r <~ lift (tryCastUnion cast variants input ctx) ;;
  match r with
  | Some w => absorb w ;;; ret (output w)
  | None =>
      match selectUnionArms (lenientArm input nullable ctx) variants nullable (unionHint ctx) with
      | inl w => absorb w ;;; ret (output w)
      | inr UnionAllArmsFailed => fail (unionNoArmVerdict variants)
      | inr e => fail e
      end
  end.

(** [coerceUnionSafe]. *)
Definition coerceUnionSafe (u : option (list type * bool)) (input : value) (ctx : coerceCtx) : M string :=
  match u with
  | None => fail Hard
  | Some (variants, nullable) =>
      match input with
      | valNull _ => if nullable then ret "null" else fail (nullIntoNonNullableUnion variants)
      | _ =>
          match variants with
          | [v] =>
              match gateType v with
              | Some e => fail e
              | None =>
                  w <~ lift (selectUnionArms (fun v => rec v input ctx (newFlags true)) [v] true (unionHint ctx)) ;;
                  absorb w ;;; ret (output w)
              end
          | _ =>
              match gateShape variants with
              | Some e => fail e
              | None => coerceUnionSafeMulti variants input nullable ctx
              end
          end
      end
  end.

(** ** One level of [coerce] *)

Variable alias : value -> coerceCtx -> M string.

Definition coerceStep (t : type) (input : value) (ctx : coerceCtx) : M string :=
  match t with
  | TypePrimitive _ p => coercePrimitive T p input
  | TypeLiteral _ lit => coerceLiteral T lit input
  | TypeEnum _ name => coerceEnum T b name input
  | TypeClass _ name mode => coerceClass name mode input ctx
  | TypeList _ elem => coerceList elem input ctx
  | TypeMap _ key val => coerceMap key val input ctx
  | TypeUnion _ u => coerceUnionSafe u input ctx
  | TypeRecursiveAlias _ _ _ => alias input ctx
  | _ => fail Hard
  end.
End Step.

(** The engine around a bundle: the tables of the matcher, the constraint node the
    gate lets pass, and the recursive alias arm. *)
Record engine := mkEngine {
  en_tables : tables;
  en_admitted : type -> bool;
  en_alias : value -> coerceCtx -> M string
}.

(** [coerce]. *)
Fixpoint coerce (fuel : nat) (E : engine) (b : Bundle) (t : type) (input : value) (ctx : coerceCtx) : M string :=
  match fuel with
  | O => fail OutOfFuel
  | S n =>
      coerceStep (en_tables E) b (coerce n E b) (tryCastArm n b)
        (checkSupportedType (en_admitted E) b n) (checkSupportedUnionShape (en_admitted E) b n)
        (en_alias E) t input ctx
  end.

(** ** Examples *)

Definition plainEngine : engine := mkEngine asciiTables (fun _ => false) (fun _ _ => fail Unsupported).
Definition str : type := TypePrimitive noMeta PrimitiveString.
Definition int : type := TypePrimitive noMeta PrimitiveInt.
Definition float : type := TypePrimitive noMeta PrimitiveFloat.
Definition opt (t : type) : type := TypeUnion noMeta (Some ([t], true)).
Definition union (ts : list type) : type := TypeUnion noMeta (Some (ts, false)).
Definition listOf (t : type) : type := TypeList noMeta (Some t).
Definition classOf (name : string) : type := TypeClass noMeta name NonStreaming.
Definition mkField (name : string) (t : type) : ClassField := mkClassField (mkName name None) t None false.
Definition mkClass (name : string) (fs : list ClassField) : ClassDef :=
  mkClassDef (mkName name None) None NonStreaming fs [] (mkStreaming false false false) ∅ ∅.
Definition bundleOf (target : type) (es : list EnumDef) (cs : list ClassDef) : Bundle :=
  fst (RebuildIndexes (mkBundle target es cs [] [] ∅ ∅ ∅)).

(** [class Node { value int; next Node? }]. *)
Definition nodeBundle : Bundle :=
  bundleOf (classOf "Node") [] [mkClass "Node" [mkField "value" int; mkField "next" (opt (classOf "Node"))]].

Definition nodeValue : value :=
  valObject false [("Value", valString false "$1,000"); ("next", valObject false [("value", valNumber false false "2.4")])].

Example coerce_node : snd (coerce 20 plainEngine nodeBundle (Target nodeBundle) nodeValue emptyCtx (newFlags false))
  = inl (compact false (valObject false
      [("value", valNumber false false "1000");
       ("next", valObject false [("value", valNumber false false "2"); ("next", valNull false)])])).
Proof. vm_compute. reflexivity. Qed.

(** The hint: the second element follows the arm of the first. *)
Example coerce_hint : snd (coerce 20 plainEngine nodeBundle (listOf (union [int; float]))
    (valArray false [valNumber false false "1.5"; valNumber false false "7"]) emptyCtx (newFlags false)) = inl "[1.5,7]".
Proof. vm_compute. reflexivity. Qed.
