(* ===== verification/NumberValid.v ===== *)
(** * NumberValid: the numbers the native coercer writes are JSON numbers

    For the integers ([strconv.FormatInt]) and the floats ([jsonFloatFormat]). *)

From Stdlib Require Import Ascii String.
From stdpp Require Import pretty.
From S2P Require Import Prelude GoStrings GoValue GoFloat Jsonish NumberText PairGuard OutputText.
Open Scope stdpp_scope.

(** ** Building a JSON number *)

(** A numeral that is zero or has no leading zero. *)
Definition numeral (s : string) : Prop :=
  s = "0" \/ exists c t, s = String c t /\ isDigit c = true /\ (c =c "0") = false /\ sall isDigit t = true.
Definition digits (s : string) : Prop := s <> "" /\ sall isDigit s = true.

Definition headNotDigit (s : string) : bool := match s with String c _ => negb (isDigit c) | EmptyString => true end.

Lemma span_all s rest : sall isDigit s = true -> headNotDigit rest = true -> span isDigit (s +:+ rest) = (s, rest).
Proof.
  intros Hs Hr. induction s as [|c s IH]; simpl in *.
  - destruct rest as [|c rest]; [done|]. simpl in *. by destruct (isDigit c).
  - apply andb_true_iff in Hs as [-> Hs]. by rewrite IH.
Qed.

Lemma scanInt_numeral i rest : numeral i -> headNotDigit rest = true -> scanInt (i +:+ rest) = Some (i, rest).
Proof.
  intros [->|(c&t&->&Hc&H0&Ht)] Hr; [done|]. simpl. rewrite H0, Hc, span_all by done. done.
Qed.

(** The fraction and the exponent. *)
Definition fractionText (f : string) : Prop := f = "" \/ exists d, f = String "." d /\ digits d.
Definition exponentText (e : string) : Prop :=
  e = "" \/ exists g d, e = String "e" (String g d) /\ ((g =c "+") || (g =c "-")) = true /\ digits d.

Lemma scanFrac_text f e : fractionText f -> exponentText e -> scanFrac (f +:+ e) = Some (f, e).
Proof.
  intros Hf He.
  assert (Hn : headNotDigit e = true) by (by destruct He as [->|(g&d&->&_)]).
  destruct Hf as [->|(d&->&Hd&Hs)].
  - by destruct He as [->|(g&d&->&_)].
  - simpl. rewrite span_all by done. destruct d; done.
Qed.

Lemma scanExp_text e : exponentText e -> scanExp e = Some (e, "").
Proof.
  intros [->|(g&d&->&Hg&Hd&Hs)]; [done|]. simpl. rewrite Hg. rewrite <- (sapp_nil_r d) at 1.
  rewrite span_all by done. destruct d; done.
Qed.

Lemma json_number neg i f e : numeral i -> fractionText f -> exponentText e ->
  isJSONNumber ((if neg : bool then "-" else "") +:+ i +:+ f +:+ e) = true.
Proof.
  intros Hi Hf He.
  assert (Hr : headNotDigit (f +:+ e) = true).
  { destruct Hf as [->|(d&->&_)]; [|done]. by destruct He as [->|(g&d&->&_)]. }
  pose proof (scanInt_numeral i _ Hi Hr) as H1. pose proof (scanFrac_text f e Hf He) as H2.
  pose proof (scanExp_text e He) as H3. unfold isJSONNumber, scanNumber. destruct neg.
  - simpl. by rewrite H1, H2, H3.
  - change ("" +:+ i +:+ f +:+ e) with (i +:+ f +:+ e).
    assert (exists c t, i +:+ f +:+ e = String c t /\ (c =c "-") = false) as (c&t&Ht&Hc).
    { destruct Hi as [->|(c&t&->&Hc&_)]; [by eexists _, _|]. eexists c, _. split; [done|].
      destruct (c =c "-") eqn:E; [|done]. by apply Ascii.eqb_eq in E as ->. }
    rewrite Ht, Hc, <- Ht. by rewrite H1, H2, H3.
Qed.

(** ** Decimals of integers *)

Lemma pretty_char_digit x : (x < 10)%N ->
  isDigit (pretty_N_char x) = true /\ ((0 < x)%N -> (pretty_N_char x =c "0") = false).
Proof.
  intros H. assert (E : x = 0%N \/ x = 1%N \/ x = 2%N \/ x = 3%N \/ x = 4%N \/ x = 5%N \/ x = 6%N \/ x = 7%N \/ x = 8%N \/ x = 9%N) by lia.
  destruct_or? E; subst; (split; [reflexivity|]); intros; first [lia|reflexivity].
Qed.

Lemma pretty_go_digits x : forall s, (0 < x)%N -> sall isDigit s = true ->
  exists c t, pretty_N_go x s = String c t /\ isDigit c = true /\ (c =c "0") = false /\ sall isDigit t = true.
Proof.
  induction (N.lt_wf_0 x) as [x _ IH]. intros s Hx Hs. rewrite pretty_N_go_step by done.
  destruct (pretty_char_digit (x `mod` 10)) as [Hd Hz]; [apply N.mod_lt; lia|].
  destruct (decide (x < 10)%N) as [Hl|Hl].
  - rewrite N.div_small by done. rewrite pretty_N_go_0. eexists _, s. split; [done|]. split_and!; try done.
    apply Hz. rewrite N.mod_small; lia.
  - apply IH.
    + apply N.div_lt; lia.
    + apply N.div_str_pos. lia.
    + simpl. by rewrite Hd.
Qed.

Lemma pretty_N_numeral (x : N) : numeral (pretty x) /\ ((0 < x)%N -> pretty x <> "0").
Proof.
  unfold pretty, pretty_N. case_decide as H; [split; [by left|lia]|].
  destruct (pretty_go_digits x "") as (c&t&Ht&H1&H2&H3); [lia|done|]. rewrite Ht. split.
  - right. by exists c, t.
  - intros _ [= -> _]. done.
Qed.

Lemma pretty_Z_text (z : Z) : pretty z = (if (z <? 0)%Z then "-" else "") +:+ pretty (Z.to_N (Z.abs z)).
Proof. destruct z; reflexivity. Qed.

Lemma pretty_int_json (z : Z) : isJSONNumber (pretty z) = true.
Proof.
  rewrite pretty_Z_text. rewrite <- (sapp_nil_r (pretty (Z.to_N (Z.abs z)))).
  apply (json_number _ _ "" ""); [apply pretty_N_numeral|by left|by left].
Qed.

(** ** Decimals of floats *)

Lemma TrimRight_sall p c s : sall p s = true -> sall p (TrimRightByte c s) = true.
Proof.
  induction s as [|a s IH]; [done|]. simpl. intros [Ha Hs]%andb_true_iff. specialize (IH Hs).
  destruct (TrimRightByte c s); [|simpl in *; by rewrite Ha]. case_match; [done|]. simpl. by rewrite Ha.
Qed.

(** A significand: digits, the first of them not zero. *)
Definition significand (s : string) : Prop :=
  exists c t, s = String c t /\ isDigit c = true /\ (c =c "0") = false /\ sall isDigit t = true.

Lemma significand_digits s : significand s -> digits s.
Proof. intros (c&t&->&Hc&_&Ht). split; [done|]. simpl. by rewrite Hc. Qed.

Lemma TrimRight_significand d : (0 < d)%Z -> significand (TrimRightByte "0" (pretty d)).
Proof.
  intros Hd. rewrite pretty_Z_text. replace (d <? 0)%Z with false by lia. cbn [append].
  destruct (pretty_N_numeral (Z.to_N (Z.abs d))) as [[E|(c&t&->&Hc&H0&Ht)] Hn].
  { exfalso. by apply Hn; [lia|]. }
  cbn [TrimRightByte]. pose proof (TrimRight_sall isDigit "0" t Ht) as Hs.
  destruct (TrimRightByte "0" t) as [|a u]; [rewrite H0; by exists c, ""|]. by exists c, (String a u).
Qed.

Lemma shortestAt_pos f p q j d : match f with S754_finite false _ _ => True | _ => False end ->
  shortestAt f p q j = Some d -> (0 <= p)%Z -> (0 < q)%Z -> (0 < d)%Z.
Proof.
  intros Hf H Hp Hq. unfold shortestAt in H.
  set (pq := if (0 <=? j)%Z then _ else _) in H.
  assert (0 <= pq.1 /\ 0 < pq.2)%Z as [Hp' Hq'].
  { subst pq. destruct (0 <=? j)%Z eqn:E; simpl; split; nia || (assert (0 < 10 ^ j)%Z by (apply Z.pow_pos_nonneg; lia); nia)
      || (assert (0 < 10 ^ (- j))%Z by (apply Z.pow_pos_nonneg; lia); nia). }
  destruct pq as [p' q']. simpl in *. pose proof (Z.div_pos p' q' Hp' Hq') as Hlo.
  assert (Hback : forall x, bool_decide (SFeqb (roundDecimal false x j) f = true) = true -> (0 <= x)%Z -> (0 < x)%Z).
  { intros x Hx Hx0. apply bool_decide_eq_true in Hx. destruct x; try lia. simpl in Hx. by destruct f as [| | |[] ? ?]. }
  destruct (bool_decide (SFeqb (roundDecimal false (p' / q') j) f = true)) eqn:E1,
    (bool_decide (SFeqb (roundDecimal false (p' / q' + 1) j) f = true)) eqn:E2; try done.
  - apply Hback in E1; [|lia]. destruct (2 * (p' mod q') <=? q')%Z; injection H as <-; lia.
  - apply Hback in E1; [|lia]. injection H as <-. lia.
  - injection H as <-. lia.
Qed.

Lemma shortestFrom_pos fuel f p q k exact : match f with S754_finite false _ _ => True | _ => False end ->
  (0 <= p)%Z -> (0 < q)%Z -> (0 < exact.1)%Z -> forall n, (0 < (shortestFrom fuel f p q k n exact).1)%Z.
Proof.
  intros Hf Hp Hq Hx. induction fuel as [|fuel IH]; intros n; [done|]. cbn [shortestFrom]. cbv zeta.
  destruct (shortestAt f p q (k - n + 1)%Z) eqn:E; [|apply IH]. by eapply shortestAt_pos.
Qed.

Lemma shortestDigits_finite s m e : significand (fst (shortestDigits (S754_finite s m e))).
Proof.
  unfold shortestDigits. set (pq := if (0 <=? e)%Z then _ else _). set (exact := if (0 <=? e)%Z then _ else _).
  assert (H2 : forall n, (0 <= n)%Z -> (0 < 2 ^ n)%Z) by (intros; apply Z.pow_pos_nonneg; lia).
  assert (H5 : forall n, (0 <= n)%Z -> (0 < 5 ^ n)%Z) by (intros; apply Z.pow_pos_nonneg; lia).
  assert (0 <= pq.1 /\ 0 < pq.2 /\ 0 < exact.1)%Z as (Hp&Hq&He).
  { subst pq exact. destruct (0 <=? e)%Z eqn:E; simpl.
    - specialize (H2 e). nia.
    - specialize (H2 (- e)%Z). specialize (H5 (- e)%Z). nia. }
  destruct pq as [p q]. simpl in Hp, Hq.
  destruct (shortestFrom _ _ _ _ _ _ _) as [d j] eqn:Hs. cbn [fst]. apply TrimRight_significand.
  pose proof (shortestFrom_pos 17 (S754_finite false m e) p q (exponent10 p q) exact I Hp Hq He 1) as Hd. by rewrite Hs in Hd.
Qed.

Lemma zeros_sall n : sall isDigit (zeros n) = true.
Proof. induction n; done. Qed.

Lemma stake_significand n s : significand s -> significand (stake (S n) s).
Proof.
  intros (c&t&->&Hc&H0&Ht). cbn [stake]. exists c, (stake n t). split_and!; try done.
  rewrite <- (stake_sdrop n t), sall_app in Ht. by apply andb_true_iff in Ht as [? _].
Qed.

Lemma sdrop_sall n s : sall isDigit s = true -> sall isDigit (sdrop n s) = true.
Proof. intros H. rewrite <- (stake_sdrop n s), sall_app in H. by apply andb_true_iff in H as [_ ?]. Qed.

Lemma significand_numeral s : significand s -> numeral s.
Proof. intros H. by right. Qed.

Lemma fractionText_cases s : sall isDigit s = true -> fractionText (if s =s "" then "" else "." +:+ s).
Proof.
  intros H. case_match; [by left|]. right. exists s. split; [done|]. split; [|done]. intros ->. done.
Qed.

Lemma layoutF_json neg s k : significand s -> isJSONNumber ((if neg : bool then "-" else "") +:+ layoutF s k) = true.
Proof.
  intros Hs. pose proof (significand_digits s Hs) as [_ Hd]. unfold layoutF. destruct (k <? 0)%Z eqn:Hk.
  - rewrite <- (sapp_nil_r (zeros _ +:+ s)).
    apply (json_number neg "0" (String "." (zeros (Z.to_nat (- k - 1)) +:+ s)) ""); [by left| |by left].
    right. eexists. split; [done|]. split; [|by rewrite sall_app, zeros_sall].
    destruct Hs as (c&t&->&_). by destruct (zeros _).
  - cbv zeta. rewrite <- (sapp_nil_r (if _ =s "" then _ else _)). apply json_number; [| |by left].
    + apply significand_numeral. unfold wholePart. case_match.
      * destruct Hs as (c&t&->&Hc&H0&Ht). exists c, (t +:+ zeros (Z.to_nat (k + 1) - String.length (String c t))).
        split_and!; try done. by rewrite sall_app, Ht, zeros_sall.
      * replace (Z.to_nat (k + 1)) with (S (Z.to_nat k)) by lia. by apply stake_significand.
    + apply fractionText_cases. by apply sdrop_sall.
Qed.

Lemma layoutE_json neg w s k : significand s -> isJSONNumber ((if neg : bool then "-" else "") +:+ layoutE w s k) = true.
Proof.
  intros Hs. pose proof (significand_digits s Hs) as [_ Hd]. unfold layoutE. cbv zeta.
  apply json_number; [apply significand_numeral, (stake_significand 0), Hs| |].
  - by apply fractionText_cases, sdrop_sall.
  - right. destruct (pretty_N_numeral (Z.to_N (Z.abs (Z.abs k)))) as [Hn _].
    assert (Hdig : digits (pretty (Z.abs k))).
    { rewrite pretty_Z_text. replace (Z.abs k <? 0)%Z with false by lia. cbn [append].
      destruct Hn as [->|(c&t&->&Hc&_&Ht)]; [done|]. split; [done|]. simpl. by rewrite Hc. }
    destruct Hdig as [Hne Hsd].
    exists (if (k <? 0)%Z then "-"%char else "+"%char), ((if w && (Z.abs k <? 10)%Z then "0" else "") +:+ pretty (Z.abs k)).
    split; [by destruct (k <? 0)%Z|]. split; [by destruct (k <? 0)%Z|]. split.
    + destruct (w && _); done.
    + rewrite sall_app, Hsd. by destruct (w && _).
Qed.

(** What [jsonFloatFormat] writes for a finite float is a JSON number. *)
Lemma floatRaw_json f out : floatRaw f = Some out -> isJSONNumber out = true.
Proof.
  unfold floatRaw. destruct f as [s|s| |s m e]; simpl; try done.
  - intros [= <-]. by destruct s.
  - intros [= <-]. unfold jsonFloatFormat. pose proof (shortestDigits_finite s m e) as Hs.
    destruct (shortestDigits _) as [digs k]. cbn [fst] in Hs. cbn [signBit isZero negb andb].
    destruct ((k <? -6)%Z || (21 <=? k)%Z); [by apply layoutE_json|by apply layoutF_json].
Qed.
