(* ===== verification/CoerceTyping.v ===== *)
(** * CoerceTyping: every text the coercer emits is a value of its type

    [hasType] says what a value of a schema type is; [textOf] a compact text of
    one.  The strict casts, the leaves, the composites and the union selection all
    yield texts of their types, hence so does [coerce]. *)

From Stdlib Require Import Ascii String.
From stdpp Require Import pretty.
From S2P Require Import Prelude GoStrings GoValue Jsonish GoFloat NumberText Unicode MatchString Schema PairGuard Candidate OutputText Gate LeafCoerce TryCast Coerce NumberValid.
Open Scope stdpp_scope.

(** ** Typing of values *)

Inductive hasType (b : Bundle) : type -> value -> Prop :=
  | type_string m i s : hasType b (TypePrimitive m PrimitiveString) (valString i s)
  | type_int m i f z : (MinInt64 <= z <= MaxInt64)%Z -> hasType b (TypePrimitive m PrimitiveInt) (valNumber i f (pretty z))
  | type_float m i f tok : isJSONNumber tok = true -> hasType b (TypePrimitive m PrimitiveFloat) (valNumber i f tok)
  | type_bool m i x : hasType b (TypePrimitive m PrimitiveBool) (valBool i x)
  | type_null m i : hasType b (TypePrimitive m PrimitiveNull) (valNull i)
  | type_lit_string m i s : hasType b (TypeLiteral m (Some (LiteralString s))) (valString i s)
  | type_lit_int m i f z : hasType b (TypeLiteral m (Some (LiteralInt z))) (valNumber i f (pretty z))
  | type_lit_bool m i x : hasType b (TypeLiteral m (Some (LiteralBool x))) (valBool i x)
  | type_enum m i name e v : FindEnum b name = Some e -> v ∈ ed_Values e ->
      hasType b (TypeEnum m name) (valString i (nm_Name (ev_Name v)))
  | type_class m i name mode cls kvs : FindClass b name mode = Some cls ->
      Forall2 (fun f kv => kv.1 = nm_Name (cf_Name f) /\ hasType b (cf_Type f) kv.2) (cd_Fields cls) kvs ->
      hasType b (TypeClass m name mode) (valObject i kvs)
  | type_nil m i e : hasType b (TypeList m e) (valArray i [])
  | type_list m i e xs : Forall (hasType b e) xs -> hasType b (TypeList m (Some e)) (valArray i xs)
  | type_empty m i k v : hasType b (TypeMap m k v) (valObject i [])
  | type_map m i k v kvs : NoDup kvs.*1 -> Forall (fun kv => hasType b v kv.2) kvs ->
      hasType b (TypeMap m (Some k) (Some v)) (valObject i kvs)
  | type_tuple m i ts xs : Forall2 (hasType b) ts xs -> hasType b (TypeTuple m ts) (valArray i xs)
  | type_arm m vs nullable t v : t ∈ vs -> hasType b t v -> hasType b (TypeUnion m (Some (vs, nullable))) v
  | type_no_arm m i vs : hasType b (TypeUnion m (Some (vs, true))) (valNull i)
  | type_alias m name mode def v : FindRecursiveAlias b name = Some def -> hasType b (ra_Target def) v ->
      hasType b (TypeRecursiveAlias m name mode) v.
Create HintDb typing discriminated.
#[export] Hint Constructors hasType jsonNumbers : typing.
#[export] Hint Resolve pretty_int_json floatRaw_json i64_range : typing.

(** The compact text of a value of the type. *)
Definition textOf (b : Bundle) (t : type) (out : string) : Prop :=
  exists v, hasType b t v /\ jsonNumbers v /\ compact false v = out.

(** Types without recursive aliases in which a union of one arm is nullable, as the
    simplification of unions leaves them. *)
Fixpoint collapsed (t : type) : bool :=
  match t with
  | TypeList _ (Some e) => collapsed e
  | TypeMap _ _ (Some v) => collapsed v
  | TypeUnion _ (Some (vs, nullable)) =>
      match vs with [_] => nullable | _ => true end && forallb collapsed vs
  | TypeRecursiveAlias _ _ _ => false
  | _ => true
  end.
Definition collapsedBundle (b : Bundle) : Prop :=
  forall name mode cls f, FindClass b name mode = Some cls -> f ∈ cd_Fields cls -> collapsed (cf_Type f) = true.

(** ** Texts of values *)

Section Texts.
Variable b : Bundle.

Lemma textOf_value t v : hasType b t v -> jsonNumbers v -> textOf b t (compact false v).
Proof. intros. by exists v. Qed.

(** The text of the value [v]. *)
Ltac text v := exists v; split_and!; [eauto with typing|eauto with typing|reflexivity].

Lemma textOf_arm m vs nullable t out : t ∈ vs -> textOf b t out -> textOf b (TypeUnion m (Some (vs, nullable))) out.
Proof. intros Ht (v&Hv&Hn&<-). apply textOf_value; eauto with typing. Qed.

Lemma textOf_null m vs : textOf b (TypeUnion m (Some (vs, true))) "null".
Proof. text (valNull false). Qed.

Lemma textOf_optional t : isOptional t = true -> textOf b t "null".
Proof. destruct t as [| | | | | | | | | |m [[vs []]|]|]; try done. intros _. apply textOf_null. Qed.

Lemma textOf_string m s : textOf b (TypePrimitive m PrimitiveString) (marshalJSON s).
Proof. text (valString false s). Qed.

Lemma textOf_int m z : (MinInt64 <= z <= MaxInt64)%Z -> textOf b (TypePrimitive m PrimitiveInt) (pretty z).
Proof. intros Hz. text (valNumber false false (pretty z)). Qed.

Lemma textOf_float m out : isJSONNumber out = true -> textOf b (TypePrimitive m PrimitiveFloat) out.
Proof. intros Ho. text (valNumber false false out). Qed.

Lemma textOf_bool m x : textOf b (TypePrimitive m PrimitiveBool) (boolRaw x).
Proof. text (valBool false x). Qed.

(** The texts of a list of values. *)
Lemma texts_list t outs : Forall (textOf b t) outs ->
  exists vs, Forall (hasType b t) vs /\ Forall jsonNumbers vs /\ compact false <$> vs = outs.
Proof.
  induction 1 as [|out outs (v&Ht&Hn&<-) _ (vs&Hts&Hns&<-)]; [by exists []|].
  exists (v :: vs). split_and!; by try constructor.
Qed.

Lemma arrayText_compact vs : arrayText (compact false <$> vs) = compact false (valArray false vs).
Proof. done. Qed.

Lemma textOf_list m e outs : Forall (textOf b e) outs -> textOf b (TypeList m (Some e)) (arrayText outs).
Proof.
  intros (vs&Ht&Hn&<-)%texts_list. rewrite arrayText_compact. apply textOf_value; by constructor.
Qed.

(** The members of an object. *)
Definition memberOf (kv : string * value) : string := memberText kv.1 (compact false kv.2).

Lemma objectText_compact kvs : objectText (memberOf <$> kvs) = compact false (valObject false kvs).
Proof. done. Qed.

Lemma textOf_map m k v kvs : NoDup kvs.*1 -> Forall (fun kv => hasType b v kv.2) kvs -> Forall (fun kv => jsonNumbers kv.2) kvs ->
  textOf b (TypeMap m (Some k) (Some v)) (objectText (memberOf <$> kvs)).
Proof. intros. rewrite objectText_compact. apply textOf_value; by constructor. Qed.

(** The texts of the fields of a class, in the order of the fields. *)
Lemma textOf_class m name mode cls outs : FindClass b name mode = Some cls ->
  Forall2 (fun f out => textOf b (cf_Type f) out) (cd_Fields cls) outs ->
  textOf b (TypeClass m name mode) (objectText (zip_with (fun f out => memberText (nm_Name (cf_Name f)) out) (cd_Fields cls) outs)).
Proof.
  intros Hc Hf. enough (exists kvs, zip_with (fun f out => memberText (nm_Name (cf_Name f)) out) (cd_Fields cls) outs = memberOf <$> kvs
    /\ Forall2 (fun f kv => kv.1 = nm_Name (cf_Name f) /\ hasType b (cf_Type f) kv.2) (cd_Fields cls) kvs
    /\ Forall (fun kv => jsonNumbers kv.2) kvs) as (kvs&->&Ht&Hn).
  { rewrite objectText_compact. apply textOf_value; [by econstructor|by constructor]. }
  induction Hf as [|f out fs outs (v&Ht&Hn&<-) _ (kvs&Hk&Hts&Hns)]; [by exists []|].
  exists ((nm_Name (cf_Name f), v) :: kvs). simpl. rewrite Hk. split_and!; by try constructor.
Qed.

Lemma textOf_default t d : defaultValue t = Some d -> textOf b t d.
Proof.
  revert d. induction t as [|m p| | | |m e _|m k v _ _| |m ts IH| |m u IH|] using type_induction; intros d; try done.
  - destruct p; try done. intros [= <-]. text (valNull false).
  - intros [= <-]. text (valArray false []).
  - intros [= <-]. text (valObject false []).
  - cbn [defaultValue]. destruct (_ ts) as [ds|] eqn:Hds; [|done]. intros [= <-].
    enough (exists vs, Forall2 (hasType b) ts vs /\ Forall jsonNumbers vs /\ compact false <$> vs = ds) as (vs&Ht&Hn&<-).
    { exists (valArray false vs). split_and!; [by constructor|by constructor|done]. }
    revert ds Hds. induction IH as [|t ts Ht _ IHts]; intros ds; [intros [= <-]; by exists []|].
    destruct (defaultValue t) as [d|]; [|done]. destruct (_ ts) as [ds'|]; [|done]. intros [= <-].
    destruct (Ht d eq_refl) as (v&Htv&Hnv&<-). destruct (IHts ds' eq_refl) as (vs&?&?&<-).
    exists (v :: vs). split_and!; by try constructor.
  - destruct u as [[vs nullable]|]; [|done]. cbn [defaultValue].
    destruct (_ vs) as [d'|] eqn:Hd; [|destruct nullable; [intros [= <-]; apply textOf_null|done]]. intros [= <-].
    enough (exists t, t ∈ vs /\ textOf b t d') as (t&?&?) by (by eapply textOf_arm).
    simpl in IH. clear -IH Hd. induction IH as [|t vs Ht _ IHvs]; [done|]. destruct (defaultValue t) as [d|].
    + injection Hd as <-. exists t. split; [set_solver|by apply Ht].
    + destruct (IHvs Hd) as (t'&?&?). exists t'. split; [set_solver|done].
Qed.
End Texts.
#[export] Hint Resolve textOf_string textOf_int textOf_float textOf_bool textOf_default textOf_arm textOf_null textOf_optional : typing.

(** ** Results *)

(** Every result of the computation satisfies [Q]. *)
Definition yields {A} (m : M A) (Q : A -> Prop) : Prop := forall f g a, m f = (g, inl a) -> Q a.
(** Every success of the outcome satisfies [Q]. *)
Definition gives {A} (r : A + CoerceErr) (Q : A -> Prop) : Prop := forall a, r = inl a -> Q a.

Lemma yields_ret {A} (a : A) (Q : A -> Prop) : Q a -> yields (ret a) Q.
Proof. by intros H f g a' [= <- <-]. Qed.
Lemma yields_fail {A} e (Q : A -> Prop) : yields (fail e) Q.
Proof. done. Qed.
Lemma yields_bind {A B} (m : M A) (k : A -> M B) P Q : yields m P -> (forall a, P a -> yields (k a) Q) -> yields (bindM m k) Q.
Proof.
  intros Hm Hk f g a. unfold bindM. destruct (m f) as [f' [x|e]] eqn:E; [|done]. apply Hk. by eapply Hm.
Qed.
Lemma yields_seq {A B} (m : M A) (k : A -> M B) Q : (forall a, yields (k a) Q) -> yields (bindM m k) Q.
Proof. intros Hk. by apply (yields_bind m k (fun _ => True)). Qed.
Lemma yields_lift {A} (r : A + CoerceErr) Q : gives r Q -> yields (lift r) Q.
Proof. intros H f g a [= _ ->]. by apply H. Qed.
Lemma yields_impl {A} (m : M A) (P Q : A -> Prop) : yields m P -> (forall a, P a -> Q a) -> yields m Q.
Proof. intros Hm Hi f g a H. by eapply Hi, Hm. Qed.
Lemma gives_bind {A B} (r : A + CoerceErr) (k : A -> B + CoerceErr) P Q :
  gives r P -> (forall a, P a -> gives (k a) Q) -> gives (thenR r k) Q.
Proof. intros Hr Hk b. destruct r as [a|e]; [|done]. by apply Hk, Hr. Qed.
Lemma gives_ok {A} (a : A) (Q : A -> Prop) : Q a -> gives (inl a) Q.
Proof. by intros H b [= <-]. Qed.
Lemma gives_err {A} e (Q : A -> Prop) : gives (inr e) Q.
Proof. done. Qed.
#[export] Hint Resolve yields_ret yields_fail yields_lift gives_ok gives_err : typing.
#[export] Hint Extern 1 (yields (bindM _ _) _) => apply yields_seq; intros : typing.

(** What [yields] says of one run. *)
Lemma yields_run {A} (m : M A) Q f g a : yields m Q -> m f = (g, inl a) -> Q a.
Proof. intros H. apply H. Qed.

(** The winner of a selection is one of its candidates. *)
Lemma pickCandidate_gives u cs (P : candidate -> Prop) : Forall P cs -> gives (pickCandidate u cs) (fun iw => P iw.2).
Proof.
  intros H [i w] E. pose proof (pickCandidate_spec u cs) as Hs. rewrite E in Hs. simpl.
  rewrite Forall_forall in H. apply H. by eapply list_elem_of_lookup_2.
Qed.

(** Reporting a winner gives its text. *)
Lemma yields_absorb w (Q : string -> Prop) : Q (output w) -> yields (absorb w ;;; ret (output w)) Q.
Proof. auto with typing. Qed.
#[export] Hint Resolve yields_absorb : typing.

(** ** One item of an array *)

Lemma arrayItems_gives item proven (P : string -> Prop) items : forall i,
  Forall (fun x => forall f out, item x = (f, inl out) -> P out) items ->
  gives (arrayItems item proven i items) (Forall (fun c => P (output c))).
Proof.
  induction items as [|x items IH]; intros i Hx; cbn [arrayItems]; [auto with typing|].
  inversion Hx as [|? ? Hx1 Hxs]; subst. specialize (IH (S i) Hxs).
  destruct (item x) as [f r] eqn:E. destruct (uncertain f); [done|]. destruct r as [out|e].
  - eapply gives_bind; [exact IH|]. intros cs Hcs. apply gives_ok. constructor; [by eapply Hx1|done].
  - destruct (negb _); [done|]. destruct (_ || _); [exact IH|done].
Qed.

Lemma coerceArrayToSingular_gives item proven (P : string -> Prop) items tu :
  Forall (fun x => forall f out, item x = (f, inl out) -> P out) items ->
  gives (coerceArrayToSingular item proven items tu) (fun w => P (output w)).
Proof.
  intros Hx. unfold coerceArrayToSingular. destruct items as [|x items]; [done|].
  eapply gives_bind; [by apply (arrayItems_gives item proven P)|]. intros cs Hcs. destruct cs as [|c cs]; [done|].
  eapply gives_bind; [exact (pickCandidate_gives tu _ _ Hcs)|]. intros [i w] Hw. apply gives_ok. simpl in *.
  destruct (_ && _); [destruct tu|]; exact Hw.
Qed.

Lemma scalarArray_yields item proven (P : string -> Prop) items : Forall (fun x => yields (item x) P) items ->
  yields (coerceScalarArrayToSingular item proven items) P.
Proof.
  intros Hx. apply yields_seq. intros f. eapply yields_bind; [|intros w Hw; apply yields_absorb, Hw].
  apply yields_lift. apply (coerceArrayToSingular_gives _ _ P). eapply Forall_impl; [exact Hx|]. intros x H f' out. apply H.
Qed.

(** ** Leaves *)

Definition inI64 (z : Z) : Prop := (MinInt64 <= z <= MaxInt64)%Z.

Lemma parseI64Rust_range s z : parseI64Rust s = Some z -> inI64 z.
Proof.
  unfold parseI64Rust, inI64. destruct (signOf s) as [neg d]. case_match; [|done]. case_match eqn:E; [|done].
  intros [= <-]. apply andb_true_iff in E as [?%Z.leb_le ?%Z.leb_le]. done.
Qed.
Lemma i64FromF64Round_range f : inI64 (i64FromF64Round f).
Proof.
  assert (inI64 0 /\ inI64 MinInt64 /\ inI64 MaxInt64) as (H0&Hm&HM) by (unfold inI64, MinInt64, MaxInt64; lia).
  assert (forall r, inI64 (if (MaxInt64 <? r)%Z then MaxInt64 else if (r <? MinInt64)%Z then MinInt64 else r)) as Hr.
  { intros r. destruct (Z.ltb_spec MaxInt64 r); [done|]. destruct (Z.ltb_spec r MinInt64); [done|]. done. }
  unfold i64FromF64Round. destruct f as [s|[]| |s m e]; try done; apply Hr.
Qed.
Lemma intFromNumeric_range s r : intFromNumeric s = Some r -> inI64 r.1.
Proof.
  unfold intFromNumeric. destruct (parseI64Rust s) eqn:E1; [intros [= <-]; by eapply parseI64Rust_range|].
  destruct (parseU64Rust s); [intros [= <-]; apply i64_range|].
  destruct (parseF64Rust s); [intros [= <-]; apply i64FromF64Round_range|done].
Qed.
Lemma coerceIntValue_range input : gives (coerceIntValue input) (fun r => inI64 r.1).
Proof.
  assert (forall v, gives (match i64FromF64RoundOk v with Some n => inl (n, true) | None => inr Unsupported end) (fun r => inI64 r.1)) as Hok.
  { intros v. unfold i64FromF64RoundOk. destruct (_ || _); [done|]. apply gives_ok, i64FromF64Round_range. }
  unfold coerceIntValue. destruct input as [| |i f tok|i s| |]; try done.
  - destruct (intFromNumeric tok) eqn:E; [|done]. apply gives_ok. by eapply intFromNumeric_range.
  - destruct (intFromNumeric _) eqn:E; [apply gives_ok; by eapply intFromNumeric_range|]. repeat (case_match; [apply Hok|]). done.
Qed.

Lemma emitFloat_json v flagged : gives (emitFloat v flagged) (fun r => isJSONNumber r.1 = true).
Proof. unfold emitFloat. destruct (floatRaw v) eqn:E; [|done]. apply gives_ok. by eapply floatRaw_json. Qed.
Lemma coerceFloatValue_json input : jsonNumbers input -> gives (coerceFloatValue input) (fun r => isJSONNumber r.1 = true).
Proof.
  intros Hn. unfold coerceFloatValue. destruct input as [| |i f tok|i s| |]; try done.
  - inversion Hn; subst. destruct (parseF64Rust tok); [|done]. by apply gives_ok.
  - repeat (case_match; try apply emitFloat_json); done.
Qed.

Section Leaves.
Variables (T : tables) (b : Bundle).

Lemma numbers_items i xs : jsonNumbers (valArray i xs) -> Forall jsonNumbers xs.
Proof. by inversion 1. Qed.
Lemma numbers_fields i fs : jsonNumbers (valObject i fs) -> Forall (fun f => jsonNumbers f.2) fs.
Proof. by inversion 1. Qed.

Lemma coercePrimitiveInt_yields m input : yields (coercePrimitiveInt input) (textOf b (TypePrimitive m PrimitiveInt)).
Proof.
  induction input as [| | | |i items IH|] using value_induction; cbn [coercePrimitiveInt]; [..|by apply scalarArray_yields|];
    (eapply yields_bind; [apply yields_lift, coerceIntValue_range|]; intros r Hr; auto 6 with typing).
Qed.
Lemma coercePrimitiveFloat_yields m input : jsonNumbers input ->
  yields (coercePrimitiveFloat input) (textOf b (TypePrimitive m PrimitiveFloat)).
Proof.
  induction input as [| | | |i items IH|] using value_induction; intros Hn; cbn [coercePrimitiveFloat];
    [..|apply numbers_items in Hn; apply scalarArray_yields, Forall_forall; intros x Hx; rewrite Forall_forall in IH, Hn; auto|];
    (eapply yields_bind; [by apply yields_lift, coerceFloatValue_json|]; intros r Hr; auto 6 with typing).
Qed.
Lemma coercePrimitiveBool_yields m input : yields (coercePrimitiveBool T input) (textOf b (TypePrimitive m PrimitiveBool)).
Proof.
  induction input as [| | | |i items IH|] using value_induction; cbn [coercePrimitiveBool]; [..|by apply scalarArray_yields|];
    (apply yields_seq; intros r; auto 6 with typing).
Qed.

Lemma coercePrimitive_yields m p input : jsonNumbers input -> yields (coercePrimitive T p input) (textOf b (TypePrimitive m p)).
Proof.
  intros Hn. destruct p; cbn [coercePrimitive]; try done.
  - unfold coercePrimitiveString. apply yields_seq. intros _. destruct input; auto 7 with typing.
  - apply coercePrimitiveInt_yields.
  - by apply coercePrimitiveFloat_yields.
  - apply coercePrimitiveBool_yields.
  - unfold coercePrimitiveNull. do 2 (apply yields_seq; intros _). apply yields_ret.
    exists (valNull false). auto with typing.
Qed.

(** A name that matched. *)
Lemma match_yields str cs (P : string -> Prop) : (forall c, c ∈ cs -> P (marshalJSON (mc_name c))) ->
  yields (match matchString T str cs true with
          | (m, matchOne, viaSub) => addIf viaSub 2 ;;; ret (marshalJSON m)
          | (_, matchAmbiguous, _) => fail Mismatch
          | _ => fail Proven
          end) P.
Proof.
  intros H. destruct (matchString T str cs true) as [[name []] via] eqn:E; [auto with typing| |auto with typing].
  apply yields_seq. intros _. apply yields_ret. apply matchString_name in E as (c&Hc&<-). by apply H.
Qed.

Lemma coerceLiteralValue_yields m l input : yields (coerceLiteralValue T l input) (textOf b (TypeLiteral m (Some l))).
Proof.
  destruct l as [s|n|x|k]; cbn [coerceLiteralValue]; [| | |done].
  - apply yields_seq. intros str. apply match_yields. intros c ->%list_elem_of_singleton.
    exists (valString false s). auto with typing.
  - destruct (coerceIntValue input) as [[z flagged]|e]; [|done]. destruct (z =? n)%Z eqn:E; [|done]. apply Z.eqb_eq in E as ->.
    apply yields_seq. intros _. apply yields_ret. exists (valNumber false false (pretty n)). auto with typing.
  - destruct (coerceBoolValue T input) as [[y flagged]|e]; [|done]. destruct (Bool.eqb y x) eqn:E; [|done]. apply Bool.eqb_prop in E as ->.
    apply yields_seq. intros _. apply yields_ret. exists (valBool false x). auto with typing.
Qed.

Lemma coerceLiteral_yields m lit input : yields (coerceLiteral T lit input) (textOf b (TypeLiteral m lit)).
Proof.
  destruct lit as [l|]; [|by destruct input]. induction input as [| | | | |i fs IH] using value_induction; cbn [coerceLiteral];
    (apply yields_seq; intros _); try apply coerceLiteralValue_yields.
  destruct fs as [|[k v] [|]]; [apply coerceLiteralValue_yields| |destruct v; apply coerceLiteralValue_yields].
  apply Forall_cons in IH as [IH _].
  destruct v; try apply coerceLiteralValue_yields; (eapply yields_bind; [exact IH|]; intros out Ho; auto with typing).
Qed.

Lemma coerceEnum_yields m name input : yields (coerceEnum T b name input) (textOf b (TypeEnum m name)).
Proof.
  unfold coerceEnum. destruct (FindEnum b name) as [e|] eqn:He; [|done]. do 2 (apply yields_seq; intros ?).
  apply match_yields. intros c Hc. apply list_elem_of_fmap in Hc as (v&->&Hv). simpl.
  exists (valString false (nm_Name (ev_Name v))). eauto with typing.
Qed.
End Leaves.

(** ** Keys and fields *)

Lemma assignKey_spec p fields acc kv : length acc.1 = length fields ->
  length (assignKey p fields acc kv).1 = length fields
  /\ forall v, Some v ∈ (assignKey p fields acc kv).1 -> v = kv.2 \/ Some v ∈ acc.1.
Proof.
  destruct acc as [assigned extras]. simpl. intros Hl. destruct (findField _ fields) as [j|]; [|auto].
  destruct (assigned !! j) as [[w|]|]; auto. simpl. rewrite length_insert. split; [done|].
  intros v [i Hi]%list_elem_of_lookup. destruct (decide (i = j)) as [->|Hne].
  - apply list_lookup_insert_Some in Hi as [(_&[= <-]&_)|(?&_)]; [by left|done].
  - rewrite list_lookup_insert_ne in Hi by done. right. by eapply list_elem_of_lookup_2.
Qed.

(** Every field gets at most a value of a member. *)
Lemma assignKeys_spec p fields members :
  length (assignKeys p fields members).1 = length fields
  /\ forall v, Some v ∈ (assignKeys p fields members).1 -> exists k, (k, v) ∈ members.
Proof.
  unfold assignKeys. set (acc := (replicate (length fields) None, 0%Z)).
  assert (length acc.1 = length fields /\ forall v, Some v ∈ acc.1 -> False) as [Hl Hnone].
  { split; [apply length_replicate|]. intros v [Hv _]%elem_of_replicate. done. }
  enough (length (foldl (assignKey p fields) acc members).1 = length fields
    /\ forall v, Some v ∈ (foldl (assignKey p fields) acc members).1 -> (exists k, (k, v) ∈ members) \/ Some v ∈ acc.1) as [H1 H2].
  { split; [done|]. intros v [?|?%Hnone]%H2; done. }
  clear Hnone. clearbody acc. revert acc Hl. induction members as [|[k w] ms IH]; intros acc Hl; [simpl; auto|]. cbn [foldl].
  destruct (assignKey_spec p fields acc (k, w) Hl) as [Hl' Hv']. destruct (IH _ Hl') as [H1 H2]. split; [done|].
  intros v [(k'&?)|[->|?]%Hv']%H2; [left; exists k'; set_solver|left; exists k; set_solver|by right].
Qed.

Lemma assigned_numbers p fields i members : jsonNumbers (valObject i members) ->
  Forall (fun a : ClassField * option value => forall v, a.2 = Some v -> jsonNumbers v) (combine fields (assignKeys p fields members).1).
Proof.
  intros Hn%numbers_fields. rewrite Forall_forall in Hn. apply Forall_forall. intros [f a] Ha v Hv. simpl in Hv. subst a.
  destruct (assignKeys_spec p fields members) as [_ Hin]. destruct (Hin v) as [k Hk]; [|exact (Hn _ Hk)].
  apply list_elem_of_In in Ha. apply list_elem_of_In. by eapply in_combine_r.
Qed.

(** A list of pairs is read as its two halves. *)
Lemma combine_fst {A B} (xs : list A) (ys : list B) : length ys = length xs -> (combine xs ys).*1 = xs.
Proof. revert ys. induction xs as [|x xs IH]; intros [|y ys]; simpl; try done. intros [= H]. by rewrite IH. Qed.

(** ** Strict casts *)

Section Casts.
Variables (b : Bundle) (rec : type -> value -> coerceCtx -> option candidate + CoerceErr).

(** A cast to the type gives a text of it. *)
Definition castTyped (t : type) (r : option candidate + CoerceErr) : Prop :=
  gives r (fun o => forall c, o = Some c -> textOf b t (output c)).

Lemma castTyped_none t : castTyped t noCast.
Proof. by intros o [= <-]. Qed.
Lemma castTyped_to t k out : textOf b t out -> castTyped t (castTo k out).
Proof. intros H o [= <-] c [= <-]. exact H. Qed.
Lemma castTyped_some t c : textOf b t (output c) -> castTyped t (inl (Some c)).
Proof. intros H o [= <-] d [= <-]. exact H. Qed.
Lemma castTyped_err t e : castTyped t (inr e).
Proof. done. Qed.
#[local] Hint Resolve castTyped_none castTyped_to castTyped_some castTyped_err : typing.

Hypothesis rec_typed : forall t v ctx, jsonNumbers v -> castTyped t (rec t v ctx).

Lemma renderedValue_elem s vs n : renderedValue s vs = Some n -> exists v, v ∈ vs /\ nm_Name (ev_Name v) = n.
Proof.
  induction vs as [|v vs IH]; simpl; [done|]. case_match; [intros [= <-]; exists v; set_solver|].
  intros (w&?&?)%IH. exists w. set_solver.
Qed.

Lemma tryCastLeaf_typed t input : castTyped t (tryCastLeaf b t input).
Proof.
  destruct t as [|m p|m name|m [[s|n|x|k]|]| | | | | | | |]; try (destruct input; apply castTyped_none); try (destruct input; done).
  - destruct p; try (destruct input; apply castTyped_none); destruct input; try apply castTyped_none; cbn [tryCastLeaf].
    + auto with typing.
    + destruct (parseI64Rust tok) eqn:E; [|auto with typing]. apply castTyped_to, textOf_int. by eapply parseI64Rust_range.
    + destruct (parseF64Rust tok); [|auto with typing]. destruct (floatRaw _) eqn:E; [|done]. eauto with typing.
    + auto with typing.
  - destruct input; try apply castTyped_none. cbn [tryCastLeaf]. destruct (FindEnum b name) as [e|] eqn:He; [|done].
    destruct (renderedValue s (ed_Values e)) eqn:E; [|apply castTyped_none]. apply renderedValue_elem in E as (v&Hv&<-).
    apply castTyped_to. exists (valString false (nm_Name (ev_Name v))). eauto with typing.
  - destruct input; try apply castTyped_none. cbn [tryCastLeaf]. destruct (s0 =s s) eqn:E; [|apply castTyped_none].
    apply String.eqb_eq in E as ->. apply castTyped_to. exists (valString false s). auto with typing.
  - destruct input; try apply castTyped_none. cbn [tryCastLeaf]. destruct (parseI64Rust tok) as [v|]; [|apply castTyped_none].
    destruct (v =? n)%Z eqn:E; [|apply castTyped_none]. apply Z.eqb_eq in E as ->. apply castTyped_to.
    exists (valNumber false false (pretty n)). auto with typing.
  - destruct input; try apply castTyped_none. cbn [tryCastLeaf]. destruct (Bool.eqb b0 x) eqn:E; [|apply castTyped_none].
    apply Bool.eqb_prop in E as ->. apply castTyped_to. exists (valBool false x). auto with typing.
Qed.

(** One typed child. *)
Lemma rec_gives t v ctx : jsonNumbers v -> gives (rec t v ctx) (fun o => forall c, o = Some c -> textOf b t (output c)).
Proof. apply rec_typed. Qed.

Lemma castEntries_typed valT ctx fs : Forall (fun f => jsonNumbers f.2) fs ->
  gives (castEntries rec valT ctx fs) (fun o => forall ms s, o = Some (ms, s) ->
    exists kvs, ms = memberOf <$> kvs /\ kvs.*1 = fs.*1 /\ Forall (fun kv => hasType b valT kv.2) kvs /\ Forall (fun kv => jsonNumbers kv.2) kvs).
Proof.
  induction 1 as [|[k v] fs Hn _ IH]; cbn [castEntries]; [apply gives_ok; intros ms s [= <- <-]; by exists []|].
  eapply gives_bind; [by apply rec_gives|]. intros [c|] Hc; [|by apply gives_ok].
  eapply gives_bind; [exact IH|]. intros [[ms s]|] Hms; [|by apply gives_ok]. apply gives_ok. intros ms' s' [= <- <-].
  destruct (Hc c eq_refl) as (w&Hw&Hnw&Ew). destruct (Hms ms s eq_refl) as (kvs&->&Hk&Ht&Hns).
  exists ((k, w) :: kvs). rewrite !fmap_cons, Hk. unfold memberOf at 2. simpl. rewrite Ew. split_and!; by try constructor.
Qed.

Lemma tryCastMap_typed m key val input ctx : jsonNumbers input -> castTyped (TypeMap m key val) (tryCastMap rec key val input ctx).
Proof.
  intros Hn. destruct key as [k|], val as [v|]; try done. cbn [tryCastMap]. destruct (negb _); [auto with typing|].
  destruct input as [| | | | |i fs]; try apply castTyped_none. case_bool_decide as Hd; [|apply castTyped_none]. simpl negb. cbn iota.
  eapply gives_bind; [by eapply castEntries_typed, numbers_fields|]. intros [[ms s]|] Hms; [|apply castTyped_none].
  destruct (Hms ms s eq_refl) as (kvs&->&Hk&Ht&Hns). apply castTyped_some. apply textOf_map; [by rewrite Hk|done|done].
Qed.

Lemma castItems_typed elem ctx items : Forall jsonNumbers items -> forall last,
  gives (castItems rec elem ctx last items) (fun o => forall xs s, o = Some (xs, s) -> Forall (textOf b elem) xs).
Proof.
  induction 1 as [|v items Hn _ IH]; intros last; cbn [castItems]; [by apply gives_ok; intros ? ? [= <- <-]|].
  eapply gives_bind; [by apply rec_gives|]. intros [c|] Hc; [|by apply gives_ok].
  eapply gives_bind; [apply IH|]. intros [[xs s]|] Hxs; [|by apply gives_ok]. apply gives_ok. intros xs' s' [= <- <-].
  constructor; [by apply Hc|by eapply Hxs].
Qed.

Lemma tryCastArray_typed m elem input ctx : jsonNumbers input -> castTyped (TypeList m elem) (tryCastArray rec elem input ctx).
Proof.
  intros Hn. destruct elem as [e|]; [|done]. destruct input as [| | | |i items|]; try apply castTyped_none. cbn [tryCastArray].
  eapply gives_bind; [by eapply castItems_typed, numbers_items|]. intros [[xs s]|] Hxs; [|apply castTyped_none].
  apply castTyped_some, textOf_list. by eapply Hxs.
Qed.

(** The arms: every candidate is a text of one of them. *)
Definition armText (vs : list type) (out : string) : Prop := exists t, t ∈ vs /\ textOf b t out.

Lemma armText_union m vs nullable out : armText vs out -> textOf b (TypeUnion m (Some (vs, nullable))) out.
Proof. intros (t&?&?). by eapply textOf_arm. Qed.
Lemma armText_mono vs ws out : vs ⊆ ws -> armText vs out -> armText ws out.
Proof. intros Hs (t&?&?). exists t. split; [by apply Hs|done]. Qed.

Lemma castVariants_typed input ctx vs : jsonNumbers input -> forall i,
  gives (castVariants rec input ctx i vs) (fun r => match r with
    | inl w => armText vs (output w)
    | inr cs => Forall (fun c => armText vs (output c)) cs
    end).
Proof.
  intros Hn. induction vs as [|v vs IH]; intros i; cbn [castVariants]; [by apply gives_ok|].
  assert (forall out, armText vs out -> armText (v :: vs) out) as Hm by (intros out; apply armText_mono; set_solver).
  assert (forall cs, Forall (fun c => armText vs (output c)) cs -> Forall (fun c => armText (v :: vs) (output c)) cs) as Hms.
  { intros cs H. eapply Forall_impl; [exact H|]. intros c. apply Hm. }
  eapply gives_bind; [by apply rec_gives|]. intros [c|] Hc.
  - assert (armText (v :: vs) (output c)) as Ha by (exists v; split; [set_solver|by apply Hc]).
    destruct (_ =? 0)%Z; [by apply gives_ok|]. eapply gives_bind; [apply IH|].
    intros [w|cs] Hr; apply gives_ok; [by apply Hm|]. constructor; [done|by apply Hms].
  - intros r E. apply IH in E. destruct r as [w|cs]; auto.
Qed.

Lemma castStandard_typed m vs nullable input ctx : jsonNumbers input ->
  castTyped (TypeUnion m (Some (vs, nullable))) (castStandard rec vs input ctx).
Proof.
  intros Hn. eapply gives_bind; [by apply castVariants_typed|]. intros [w|cs] Hr.
  - by apply castTyped_some, armText_union.
  - destruct cs as [|c cs]; [apply castTyped_none|]. eapply gives_bind; [exact (pickCandidate_gives true _ _ Hr)|].
    intros [j w] Hw. by apply castTyped_some, armText_union.
Qed.

Lemma tryCastUnion_typed m vs nullable input ctx : jsonNumbers input ->
  castTyped (TypeUnion m (Some (vs, nullable))) (tryCastUnion rec vs input ctx).
Proof.
  intros Hn. unfold tryCastUnion. destruct (unionHint ctx) as [h|]; [|by apply castStandard_typed].
  destruct (vs !! h) as [v|] eqn:Hv; [|by apply castStandard_typed].
  eapply gives_bind; [by apply rec_gives|]. intros [c|] Hc; [|by apply castStandard_typed].
  destruct (_ =? 0)%Z; [|by apply castStandard_typed]. apply castTyped_some, armText_union.
  exists v. split; [by eapply list_elem_of_lookup_2|exact (Hc c eq_refl)].
Qed.

Lemma castFields_typed ctx fs : Forall (fun a : ClassField * option value => forall v, a.2 = Some v -> jsonNumbers v) fs ->
  gives (castFields rec ctx fs) (fun o => forall ms s, o = Some (ms, s) ->
    exists outs, ms = zip_with (fun f out => memberText (nm_Name (cf_Name f)) out) fs.*1 outs
      /\ Forall2 (fun f out => textOf b (cf_Type f) out) fs.*1 outs).
Proof.
  induction 1 as [|[f a] fs Ha _ IH]; cbn [castFields]; [apply gives_ok; intros ms s [= <- <-]; by exists []|].
  destruct a as [v|].
  - eapply gives_bind; [by apply rec_gives, Ha|]. intros [c|] Hc; [|by apply gives_ok].
    eapply gives_bind; [exact IH|]. intros [[ms s]|] Hms; [|by apply gives_ok]. apply gives_ok. intros ms' s' [= <- <-].
    destruct (Hms ms s eq_refl) as (outs&->&Ho). exists (output c :: outs). split; [done|]. constructor; [by apply Hc|done].
  - destruct (isOptional (cf_Type f)) eqn:Hopt; [|by apply gives_ok].
    eapply gives_bind; [exact IH|]. intros [[ms s]|] Hms; [|by apply gives_ok]. apply gives_ok. intros ms' s' [= <- <-].
    destruct (Hms ms s eq_refl) as (outs&->&Ho). exists ("null" :: outs). split; [done|]. constructor; [by apply textOf_optional|done].
Qed.

Lemma tryCastClass_typed m name mode input ctx : jsonNumbers input ->
  castTyped (TypeClass m name mode) (tryCastClass b rec name mode input ctx).
Proof.
  intros Hn. unfold tryCastClass. destruct (FindClass b name mode) as [cls|] eqn:Hc; [|done].
  destruct input as [| | | | |i fs]; try apply castTyped_none. destruct (tryCastHas _ _ _); [apply castTyped_none|].
  pose proof (assigned_numbers renderedIs (cd_Fields cls) i fs Hn) as Ha.
  destruct (assignKeys_spec renderedIs (cd_Fields cls) fs) as [Hl _].
  destruct (assignKeys _ _ _) as [assigned extras]. destruct (_ <? _)%Z; [apply castTyped_none|].
  eapply gives_bind; [by apply castFields_typed|]. intros [[ms s]|] Hms; [|apply castTyped_none].
  destruct (Hms ms s eq_refl) as (outs&->&Ho). apply castTyped_some. rewrite combine_fst in Ho |- * by done. by apply textOf_class.
Qed.

Lemma tryCastStep_typed t input ctx : jsonNumbers input -> castTyped t (tryCastStep b rec t input ctx).
Proof.
  intros Hn. destruct t as [| | | |m name mode|m e|m k v| | | |m u|]; cbn [tryCastStep]; try apply tryCastLeaf_typed.
  - by apply tryCastClass_typed.
  - by apply tryCastArray_typed.
  - by apply tryCastMap_typed.
  - destruct u as [[vs nullable]|]; [|done]. unfold tryCastUnionArm.
    destruct input; try by apply tryCastUnion_typed. destruct nullable; auto with typing.
Qed.
End Casts.

Lemma tryCastArm_typed b fuel : forall t input ctx, jsonNumbers input -> castTyped b t (tryCastArm fuel b t input ctx).
Proof. induction fuel as [|n IH]; intros; [done|]. cbn [tryCastArm]. by apply tryCastStep_typed. Qed.
