(* ===== verification/CoerceSound.v ===== *)
(** * CoerceSound: type soundness of the native coercer

    Lists, maps, classes and unions yield texts of their types whenever the
    recursive call and the strict cast do; [coerce] follows by induction on the
    fuel, and what it emits reads back as a value of the type. *)

From Stdlib Require Import Ascii String.
From stdpp Require Import pretty.
From S2P Require Import Prelude GoStrings GoValue Jsonish NumberText Unicode MatchString Schema PairGuard Candidate OutputText Gate LeafCoerce TryCast Coerce CoerceTyping.
Open Scope stdpp_scope.

Section Sound.
Variables (T : tables) (b : Bundle).
Variable rec : type -> value -> coerceCtx -> M string.
Variable cast : type -> value -> coerceCtx -> option candidate + CoerceErr.
Variables (gateType : type -> option CoerceErr) (gateShape : list type -> option CoerceErr).
Hypothesis bundle_collapsed : collapsedBundle b.
Hypothesis rec_typed : forall t v ctx, collapsed t = true -> jsonNumbers v -> yields (rec t v ctx) (textOf b t).
Hypothesis cast_typed : forall t v ctx, jsonNumbers v -> castTyped b t (cast t v ctx).

(** What the call on a child shows when it succeeds. *)
Lemma rec_run t v ctx f g out : collapsed t = true -> jsonNumbers v -> rec t v ctx f = (g, inl out) -> textOf b t out.
Proof. intros Ht Hv H. exact (rec_typed t v ctx Ht Hv f g out H). Qed.

(** ** Lists *)

Lemma coerceListChild_yields elem item ctx : collapsed elem = true -> jsonNumbers item ->
  yields (coerceListChild b rec elem item ctx) (fun r => forall out next, r = Some (out, next) -> textOf b elem out).
Proof.
  intros He Hn f g r. unfold coerceListChild. destruct (rec elem item ctx (newFlags false)) as [childF [o|e]] eqn:E.
  - intros [= <- <-] out next [= <- <-]. by eapply rec_run.
  - repeat case_match; by intros [= <- <-].
Qed.

Lemma listItems_yields elem ctx items : collapsed elem = true -> Forall jsonNumbers items -> forall i last,
  yields (listItems b rec elem ctx i last items) (fun r => Forall (textOf b elem) r.1).
Proof.
  intros He. induction 1 as [|v items Hn _ IH]; intros i last; cbn [listItems]; [by apply yields_ret|].
  eapply yields_bind; [by apply coerceListChild_yields|]. intros [[out next]|] Hr.
  - eapply yields_bind; [apply IH|]. intros rest Hrest. apply yields_ret. constructor; [by eapply Hr|done].
  - apply yields_seq. intros _. eapply yields_bind; [apply IH|]. intros rest Hrest. by apply yields_ret.
Qed.

Lemma finishList_yields m e r : Forall (textOf b e) r.1 -> yields (finishList r) (textOf b (TypeList m (Some e))).
Proof. intros H. apply yields_seq. intros _. by apply yields_ret, textOf_list. Qed.

Lemma coerceList_yields m elem input ctx : collapsed (TypeList m elem) = true -> jsonNumbers input ->
  yields (coerceList b rec elem input ctx) (textOf b (TypeList m elem)).
Proof.
  intros Hc Hn. destruct elem as [e|]; [|done]. simpl in Hc. apply yields_seq. intros _.
  assert (yields (add 1 ;;; modify (onConds withSingleToArray) ;;; r <~ coerceListChild b rec e input (enterScope ctx) ;;
    match r with Some (out, _) => finishList ([out], 0%Z) | None => add 1 ;;; finishList ([], 1%Z) end)
    (textOf b (TypeList m (Some e)))) as Hone.
  { do 2 (apply yields_seq; intros _). eapply yields_bind; [by apply coerceListChild_yields|]. intros [[out next]|] Hr.
    - apply finishList_yields. simpl. eauto.
    - apply yields_seq. intros _. by apply finishList_yields. }
  destruct input as [| | | |i items|]; try exact Hone.
  eapply yields_bind; [by eapply listItems_yields, numbers_items|]. intros r. apply finishList_yields.
Qed.

(** ** Maps *)

Lemma coerceMapValueChild_yields valT v ctx : collapsed valT = true -> jsonNumbers v ->
  yields (coerceMapValueChild b rec valT v ctx) (fun r => forall out, r = Some out -> textOf b valT out).
Proof.
  intros He Hn f g r. unfold coerceMapValueChild. destruct (rec valT v _ (newFlags false)) as [childF [o|e]] eqn:E.
  - intros [= <- <-] out [= <-]. by eapply rec_run.
  - repeat case_match; by intros [= <- <-].
Qed.

Lemma mapEntries_yields keyT valT ctx fs : collapsed valT = true -> Forall (fun f => jsonNumbers f.2) fs ->
  yields (mapEntries T b rec keyT valT ctx fs) (fun ms => exists kvs, ms = memberOf <$> kvs
    /\ kvs.*1 `sublist_of` fs.*1 /\ Forall (fun kv => hasType b valT kv.2) kvs /\ Forall (fun kv => jsonNumbers kv.2) kvs).
Proof.
  intros He. induction 1 as [|[k v] fs Hn _ IH]; cbn [mapEntries]; [apply yields_ret; by exists []|].
  eapply yields_bind; [by apply coerceMapValueChild_yields|]. intros [out|] Hr.
  - apply yields_seq. intros _. eapply yields_bind; [exact IH|]. intros ms (kvs&->&Hk&Ht&Hns). apply yields_ret.
    destruct (Hr out eq_refl) as (w&Hw&Hnw&<-). exists ((k, w) :: kvs). split_and!; [done|by apply sublist_skip|by constructor|by constructor].
  - apply yields_seq. intros _. eapply yields_impl; [exact IH|]. intros ms (kvs&->&Hk&Ht&Hns).
    exists kvs. split_and!; [done|by apply sublist_cons|done|done].
Qed.

Lemma coerceMap_yields m key val input ctx : collapsed (TypeMap m key val) = true -> jsonNumbers input ->
  yields (coerceMap T b rec key val input ctx) (textOf b (TypeMap m key val)).
Proof.
  intros Hc Hn. destruct key as [k|], val as [v|]; try done. destruct input as [| | | | |i fs]; try done.
  cbn [coerceMap]. case_bool_decide as Hd; [|done]. do 2 (apply yields_seq; intros _).
  eapply yields_bind; [by eapply mapEntries_yields, numbers_fields|]. intros ms (kvs&->&Hk&Ht&Hns). apply yields_ret.
  apply textOf_map; [by eapply sublist_NoDup|done|done].
Qed.

(** ** Classes *)

(** A field that was filled holds a text of its type. *)
Definition fieldTyped (f : ClassField) (r : option fieldRes) : Prop :=
  forall out, r = Some (Filled out) -> textOf b (cf_Type f) out.

Lemma resolveMatched_yields f v ctx : collapsed (cf_Type f) = true -> jsonNumbers v ->
  yields (resolveMatched b rec f v ctx) (fun r => fieldTyped f (Some r)).
Proof.
  intros Hf Hn fl g r. unfold resolveMatched. destruct (rec (cf_Type f) v ctx (newFlags false)) as [childF [o|e]] eqn:E.
  { intros [= <- <-] out [= <-]. by eapply rec_run. }
  destruct (negb _); [done|]. destruct (isClaimedMismatch e); [done|].
  destruct (if isProvenBamlError e then defaultValue (cf_Type f) else None) as [d|] eqn:Hd.
  { intros [= <- <-] out [= <-]. destruct (isProvenBamlError e); [by apply textOf_default|done]. }
  destruct (isMapType (cf_Type f) && negb (isObjectValue v)) eqn:Hm.
  { intros [= <- <-] out [= <-]. destruct (cf_Type f); try done. by apply textOf_default. }
  repeat case_match; by intros [= <- <-].
Qed.

Lemma coerceImplied_yields f v ctx : collapsed (cf_Type f) = true -> jsonNumbers v ->
  yields (coerceImplied b rec f v ctx) (fun r => fieldTyped f (Some r)).
Proof.
  intros Hf Hn fl g r. unfold coerceImplied. destruct (rec (cf_Type f) v ctx (newFlags false)) as [childF [o|e]] eqn:E.
  - intros [= <- <-] out [= <-]. by eapply rec_run.
  - repeat case_match; by intros [= <- <-].
Qed.

Lemma resolveFields_yields ctx fs : Forall (fun f => collapsed (cf_Type f) = true) fs.*1 ->
  Forall (fun a : ClassField * option value => forall v, a.2 = Some v -> jsonNumbers v) fs ->
  yields (resolveFields b rec ctx fs) (Forall2 fieldTyped fs.*1).
Proof.
  intros Hc. induction 1 as [|[f a] fs Ha _ IH]; cbn [resolveFields]; [apply yields_ret; constructor|].
  apply Forall_cons in Hc as [Hf Hc]. destruct a as [v|].
  - eapply yields_bind; [by apply resolveMatched_yields, Ha|]. intros r Hr.
    eapply yields_bind; [by apply IH|]. intros rs Hrs. apply yields_ret. by constructor.
  - eapply yields_bind; [by apply IH|]. intros rs Hrs. apply yields_ret. by constructor.
Qed.

Lemma resolveObject_yields fields i members ctx : Forall (fun f => collapsed (cf_Type f) = true) fields ->
  jsonNumbers (valObject i members) ->
  yields (resolveObject T b rec fields (valObject i members) members ctx) (fun r => Forall2 fieldTyped fields r.1).
Proof.
  intros Hc Hn. unfold resolveObject. set (p := fun key f => matchesStringToString T key (RenderedName (cf_Name f))).
  pose proof (assigned_numbers p fields i members Hn) as Ha. destruct (assignKeys_spec p fields members) as [Hl _].
  destruct (assignKeys p fields members) as [assigned extras]. simpl in Ha, Hl.
  pose proof (resolveFields_yields ctx (combine fields assigned)) as Hr. rewrite combine_fst in Hr by done.
  eapply yields_bind; [by apply Hr|]. intros rs Hrs.
  assert (yields ((if (0 <? extras)%Z then add extras else ret tt) ;;; ret (rs, false)) (fun r => Forall2 fieldTyped fields r.1)) as Hend.
  { apply yields_seq. intros _. by apply yields_ret. }
  destruct fields as [|f [|]]; try exact Hend. destruct (_ && _); [|exact Hend]. apply Forall_cons in Hc as [Hf _].
  eapply yields_bind; [by apply coerceImplied_yields|]. intros r Hf'. apply yields_ret. by repeat constructor.
Qed.

Lemma resolveScalar_yields fields input ctx : Forall (fun f => collapsed (cf_Type f) = true) fields -> jsonNumbers input ->
  yields (resolveScalar b rec fields input ctx) (fun r => Forall2 fieldTyped fields r.1).
Proof.
  intros Hc Hn. assert (Forall2 fieldTyped fields ((fun _ => None) <$> fields)) as Hnone by (clear; induction fields; by constructor).
  destruct fields as [|f [|]]; [by apply yields_ret| |by apply yields_ret]. apply Forall_cons in Hc as [Hf _].
  eapply yields_bind; [by apply coerceImplied_yields|]. intros r Hr. apply yields_ret. by repeat constructor.
Qed.

Lemma fillDefaults_yields fields rs : Forall2 fieldTyped fields rs ->
  yields (fillDefaults (combine fields rs)) (Forall2 (fun f o => forall out, o = Some out -> textOf b (cf_Type f) out) fields).
Proof.
  assert (forall (f : ClassField) fields o m, (forall out, o = Some out -> textOf b (cf_Type f) out) ->
    yields m (Forall2 (fun f o => forall out, o = Some out -> textOf b (cf_Type f) out) fields) ->
    yields (rest <~ m ;; ret (o :: rest)) (Forall2 (fun f o => forall out, o = Some out -> textOf b (cf_Type f) out) (f :: fields))) as Hcons.
  { intros f fs o m Ho Hm. eapply yields_bind; [exact Hm|]. intros rest Hrest. apply yields_ret. by constructor. }
  induction 1 as [|f r fields rs Hr _ IH]; cbn [combine fillDefaults]; [by apply yields_ret|].
  destruct r as [[out|]|]; [by apply Hcons; [intros ? [= <-]; apply Hr|]|..];
    (destruct (isOptional (cf_Type f)) eqn:Ho; [apply yields_seq; intros _; apply Hcons; [intros ? [= <-]; by apply textOf_optional|done]|];
     destruct (defaultValue (cf_Type f)) as [d|] eqn:Hd;
     [apply yields_seq; intros _; apply Hcons; [intros ? [= <-]; by apply textOf_default|done]|by apply Hcons]).
Qed.

(** All fields filled: the texts. *)
Lemma all_filled fields outs : existsb (fun o : option string => bool_decide (o = None)) outs = false ->
  Forall2 (fun f o => forall out, o = Some out -> textOf b (cf_Type f) out) fields outs ->
  exists texts, zip_with (fun f o => memberText (nm_Name (cf_Name f)) (default "" o)) fields outs
      = zip_with (fun f out => memberText (nm_Name (cf_Name f)) out) fields texts
    /\ Forall2 (fun f out => textOf b (cf_Type f) out) fields texts.
Proof.
  intros He H. induction H as [|f o fields outs Ho _ IH]; [by exists []|]. simpl in He. apply orb_false_iff in He as [He1 He2].
  apply bool_decide_eq_false in He1. destruct o as [out|]; [|done]. destruct (IH He2) as (texts&Hz&Ht).
  exists (out :: texts). simpl. rewrite Hz. split; [done|]. constructor; auto.
Qed.

Lemma finishClass_yields m name mode cls r : FindClass b name mode = Some cls -> Forall2 fieldTyped (cd_Fields cls) r.1 ->
  yields (finishClass (cd_Fields cls) r) (textOf b (TypeClass m name mode)).
Proof.
  intros Hc Hr. destruct r as [rs implied]. unfold finishClass. simpl in Hr. destruct (existsb _ rs); [done|].
  eapply yields_bind; [by apply fillDefaults_yields|]. intros outs Ho. destruct (existsb _ outs) eqn:He; [done|].
  apply yields_seq. intros _. apply yields_ret. destruct (all_filled _ _ He Ho) as (texts&->&Ht). by apply textOf_class.
Qed.

(** A class type whatever its metadata. *)
Lemma textOf_class_meta m m' name mode out : textOf b (TypeClass m name mode) out -> textOf b (TypeClass m' name mode) out.
Proof. intros (v&Hv&Hn&<-). inversion Hv; subst. apply textOf_value; [by econstructor|done]. Qed.

Lemma coerceClassArray_yields m cls name mode items ctx : Forall jsonNumbers items ->
  yields (coerceClassArray rec cls name mode items ctx) (textOf b (TypeClass m name mode)).
Proof.
  intros Hn. unfold coerceClassArray. destruct (negb _); [done|]. apply yields_seq. intros f.
  eapply yields_bind; [|intros w Hw; apply yields_absorb, Hw]. apply yields_lift.
  apply (coerceArrayToSingular_gives _ _ (textOf b (TypeClass m name mode))). eapply Forall_impl; [exact Hn|].
  intros x Hx f' out E. eapply textOf_class_meta, rec_run; [|exact Hx|exact E]. done.
Qed.

Lemma coerceClass_yields m name mode input ctx : jsonNumbers input ->
  yields (coerceClass T b rec name mode input ctx) (textOf b (TypeClass m name mode)).
Proof.
  intros Hn. unfold coerceClass. destruct (FindClass b name mode) as [cls|] eqn:Hc; [|done].
  destruct (coerceHas _ _ _); [done|]. cbv zeta.
  assert (Forall (fun f => collapsed (cf_Type f) = true) (cd_Fields cls)) as Hf.
  { apply Forall_forall. intros f. by eapply bundle_collapsed. }
  assert (yields (setKind candClass ;;; r <~ resolveScalar b rec (cd_Fields cls) input (enterCoerce ctx (name, mode) input) ;;
    finishClass (cd_Fields cls) r) (textOf b (TypeClass m name mode))) as Hs.
  { apply yields_seq. intros _. eapply yields_bind; [by apply resolveScalar_yields|]. intros r. by apply finishClass_yields. }
  destruct input as [| | | |i items|i members]; try exact Hs; [by eapply coerceClassArray_yields, numbers_items|].
  apply yields_seq. intros _. eapply yields_bind; [by apply resolveObject_yields|]. intros r. by apply finishClass_yields.
Qed.

(** ** Unions *)

Section Select.
Variables (vs : list type) (arm : type -> coerceFlags * (string + CoerceErr)).
Hypothesis arm_typed : forall t f out, t ∈ vs -> arm t = (f, inl out) -> textOf b t out.

Lemma armLoop_gives ts : ts ⊆ vs -> forall i, gives (armLoop arm i ts) (fun r => match r with
    | inl w => armText b vs (output w)
    | inr cs => Forall (fun c => armText b vs (output c)) cs
    end).
Proof.
  induction ts as [|t ts IH]; intros Hs i; cbn [armLoop]; [by apply gives_ok|].
  specialize (IH ltac:(set_solver)). destruct (arm t) as [f [out|e]] eqn:E; (destruct (uncertain f); [done|]).
  - assert (armText b vs out) as Ht by (exists t; split; [set_solver|by eapply arm_typed; [set_solver|]]).
    destruct (_ =? 0)%Z; [by apply gives_ok|]. eapply gives_bind; [apply IH|]. intros [w|cs] Hr; apply gives_ok; [done|by constructor].
  - destruct (isProvenBamlError e); [apply IH|]. by destruct (declinableChildError e).
Qed.

(** The winner is a text of an arm, or null when null competes. *)
Lemma selectStandard_gives nullable :
  gives (selectStandard arm vs nullable) (fun w => armText b vs (output w) \/ nullable = true /\ output w = "null").
Proof.
  eapply gives_bind; [by apply armLoop_gives|]. intros [w|cs] Hr; [apply gives_ok; by left|].
  set (all := cs ++ _). assert (Forall (fun c => armText b vs (output c) \/ nullable = true /\ output c = "null") all) as Ha.
  { apply Forall_app. split; [eapply Forall_impl; [exact Hr|]; by left|]. destruct nullable; [|constructor].
    constructor; [by right|constructor]. }
  destruct all as [|c all']; [done|]. eapply gives_bind; [exact (pickCandidate_gives true _ _ Ha)|].
  intros [j w] Hw. apply gives_ok. simpl. by destruct (_ || _).
Qed.

Lemma selectUnionArms_gives nullable hint :
  gives (selectUnionArms arm vs nullable hint) (fun w => armText b vs (output w) \/ nullable = true /\ output w = "null").
Proof.
  unfold selectUnionArms. destruct hint as [h|]; [|apply selectStandard_gives].
  destruct (vs !! h) as [t|] eqn:Ht; [|apply selectStandard_gives].
  destruct (arm t) as [f [out|e]] eqn:E; [|destruct e; (done || apply selectStandard_gives)].
  destruct (_ && _); [|apply selectStandard_gives]. apply gives_ok. left. exists t.
  apply list_elem_of_lookup_2 in Ht. split; [done|]. by eapply arm_typed.
Qed.
End Select.

Lemma union_text m vs nullable (w : candidate) : armText b vs (output w) \/ nullable = true /\ output w = "null" ->
  textOf b (TypeUnion m (Some (vs, nullable))) (output w).
Proof. intros [H|[-> ->]]; [by apply armText_union|apply textOf_null]. Qed.

Lemma coerceUnionSafeMulti_yields m vs input nullable ctx : forallb collapsed vs = true -> jsonNumbers input ->
  yields (coerceUnionSafeMulti b rec cast vs input nullable ctx) (textOf b (TypeUnion m (Some (vs, nullable)))).
Proof.
  intros Hc Hn. eapply yields_bind; [apply yields_lift; by apply (tryCastUnion_typed b cast cast_typed m vs nullable)|].
  intros [w|] Hw; [apply yields_absorb; by apply Hw|].
  destruct (selectUnionArms _ vs nullable _) as [w|e] eqn:E; [|by destruct e]. apply yields_absorb, union_text.
  revert w E Hw. intros w E _. eapply selectUnionArms_gives; [|exact E]. intros t f out Ht. unfold lenientArm.
  destruct (rec t input ctx (newFlags true)) as [g [o|e]] eqn:Er; [|by case_match]. intros [= <- <-].
  eapply rec_run; [|exact Hn|exact Er]. rewrite forallb_forall in Hc. by apply Hc, list_elem_of_In.
Qed.

Lemma coerceUnionSafe_yields m u input ctx : collapsed (TypeUnion m u) = true -> jsonNumbers input ->
  yields (coerceUnionSafe b rec cast gateType gateShape u input ctx) (textOf b (TypeUnion m u)).
Proof.
  intros Hc Hn. destruct u as [[vs nullable]|]; [|done]. simpl in Hc. apply andb_true_iff in Hc as [H1 Hvs].
  assert (yields (match vs with
    | [v] => match gateType v with
             | Some e => fail e
             | None => w <~ lift (selectUnionArms (fun v => rec v input ctx (newFlags true)) [v] true (unionHint ctx)) ;; absorb w ;;; ret (output w)
             end
    | _ => match gateShape vs with Some e => fail e | None => coerceUnionSafeMulti b rec cast vs input nullable ctx end
    end) (textOf b (TypeUnion m (Some (vs, nullable))))) as H.
  { destruct vs as [|v [|v' vs]]; [case_match; [done|by apply coerceUnionSafeMulti_yields]| |case_match; [done|by apply coerceUnionSafeMulti_yields]].
    subst nullable. destruct (gateType v); [done|]. eapply yields_bind; [apply yields_lift, (selectUnionArms_gives [v])|].
    - intros t f out ->%list_elem_of_singleton E. simpl in Hvs. rewrite andb_true_r in Hvs. by eapply rec_run.
    - intros w Hw. by apply yields_absorb, union_text. }
  destruct input; try exact H. destruct nullable; [apply yields_ret, textOf_null|done].
Qed.

(** ** One level *)

Variable alias : value -> coerceCtx -> M string.

Lemma coerceStep_typed t input ctx : collapsed t = true -> jsonNumbers input ->
  yields (coerceStep T b rec cast gateType gateShape alias t input ctx) (textOf b t).
Proof.
  intros Hc Hn. destruct t; cbn [coerceStep]; try done.
  - by apply coercePrimitive_yields.
  - apply coerceEnum_yields.
  - apply coerceLiteral_yields.
  - by apply coerceClass_yields.
  - by apply coerceList_yields.
  - by apply coerceMap_yields.
  - by apply coerceUnionSafe_yields.
Qed.
End Sound.

Lemma coerce_sound E b : collapsedBundle b -> forall fuel t input ctx, collapsed t = true -> jsonNumbers input ->
  yields (coerce fuel E b t input ctx) (textOf b t).
Proof.
  intros Hb fuel. induction fuel as [|n IH]; intros t input ctx Ht Hn; [done|]. cbn [coerce].
  apply coerceStep_typed; [done|exact IH|apply tryCastArm_typed|done|done].
Qed.

(** C28. Type soundness of the coercer: whatever the value, the context, the matcher's
    tables and the state of the accumulator, a text that [coerce] emits is the
    compact text of a value of the target type (integers in 64 bits, numbers in
    JSON's syntax, literals and enum members by their canonical names, classes with
    all their fields and no others, unions by an arm or by null when they are
    nullable), and the strict decoder reads that value back from it. *)
Theorem coerce_typed fuel E b t input ctx f g out :
  collapsedBundle b -> collapsed t = true -> jsonNumbers input -> coerce fuel E b t input ctx f = (g, inl out) ->
  exists v, hasType b t v /\ out = compact false v /\ strictDecode numModeLegacy out = Some (readBack v).
Proof.
  intros Hb Ht Hn H. destruct (coerce_sound E b Hb fuel t input ctx Ht Hn f g out H) as (v&Hv&Hnv&<-).
  exists v. split_and!; [done|done|]. by apply strictDecode_compact.
Qed.

Lemma nodeBundle_collapsed : collapsedBundle nodeBundle.
Proof.
  intros name mode cls f Hc Hf. unfold FindClass in Hc. apply bind_Some in Hc as (i&_&Hi).
  apply list_elem_of_lookup_2 in Hi. apply list_elem_of_singleton in Hi as ->.
  apply elem_of_cons in Hf as [->|Hf]; [done|]. apply list_elem_of_singleton in Hf as ->. done.
Qed.

Lemma coerce_typed_witness : exists out v, hasType nodeBundle (Target nodeBundle) v /\ out = compact false v
  /\ strictDecode numModeLegacy out = Some (readBack v).
Proof.
  destruct (coerce 20 plainEngine nodeBundle (Target nodeBundle) nodeValue emptyCtx (newFlags false)) as [g [out|e]] eqn:E;
    [|exfalso; vm_compute in E; congruence].
  exists out. apply (coerce_typed 20 plainEngine nodeBundle (Target nodeBundle) nodeValue emptyCtx (newFlags false) g).
  - exact nodeBundle_collapsed.
  - reflexivity.
  - repeat constructor.
  - exact E.
Defined.
