(* ===== verification/GateFuel.v ===== *)
(** * GateFuel: more fuel does not change an answer of the gate *)

From S2P Require Import Prelude Schema PairGuard Candidate Gate.
Open Scope stdpp_scope.

(** An answer of [r] is the answer of [s]. *)
Definition refines (r s : option CoerceErr) : Prop := answered r -> s = r.

Lemma refines_refl r : refines r r.
Proof. done. Qed.
Lemma refines_fuel s : refines (Some OutOfFuel) s.
Proof. by intros []. Qed.
Lemma refines_then r s r' s' : refines r r' -> refines s s' -> refines (r ;err s) (r' ;err s').
Proof.
  intros Hr Hs Ha. destruct r as [e|]; [by rewrite (Hr Ha)|]. rewrite (Hr ltac:(done)). by apply Hs.
Qed.
Lemma refines_first {A} (f g : A -> option CoerceErr) xs : (forall x, refines (f x) (g x)) -> refines (firstErr f xs) (firstErr g xs).
Proof. intros H. induction xs as [|x xs IH]; [done|]. cbn [firstErr]. by apply refines_then. Qed.
Create HintDb gate discriminated.
#[export] Hint Resolve refines_refl refines_fuel refines_then refines_first : gate.

Section Mono.
Variables (admitted : type -> bool) (b : Bundle).

(** Every walk with fuel [n] against the same walk with fuel [n']. *)
Record refinesAll (n n' : nat) : Prop := {
  ra_type t : refines (checkSupportedType admitted b n t) (checkSupportedType admitted b n' t);
  ra_shape vs : refines (checkSupportedUnionShape admitted b n vs) (checkSupportedUnionShape admitted b n' vs);
  ra_variant v : refines (checkUnionVariant admitted b n v) (checkUnionVariant admitted b n' v);
  ra_map v : refines (checkUnionMapVariant admitted b n v) (checkUnionMapVariant admitted b n' v);
  ra_class v w : refines (checkUnionClassVariantSeen admitted b n v w) (checkUnionClassVariantSeen admitted b n' v w);
  ra_fields fs s w : refines (checkUnionClassFields admitted b n fs s w) (checkUnionClassFields admitted b n' fs s w);
  ra_field t w : refines (checkUnionClassField admitted b n t w) (checkUnionClassField admitted b n' t w);
  ra_collection t w : refines (checkUnionCollectionClasses admitted b n t w) (checkUnionCollectionClasses admitted b n' t w)
}.
#[local] Hint Resolve ra_type ra_shape ra_variant ra_map ra_class ra_fields ra_field ra_collection : gate.

Ltac gate_cases := repeat first [solve [auto with gate] | apply refines_then | case_match].

Lemma refinesAll_step n n' : refinesAll n n' -> refinesAll (S n) (S n').
Proof.
  intros H. constructor; intros.
  - cbn [checkSupportedType]. apply refines_then; [apply refines_refl|]. destruct t; gate_cases.
  - cbn [checkSupportedUnionShape]. gate_cases.
  - cbn [checkUnionVariant]. destruct v; gate_cases.
  - cbn [checkUnionMapVariant]. destruct v; gate_cases.
  - cbn [checkUnionClassVariantSeen]. destruct v; gate_cases.
  - cbn [checkUnionClassFields]. destruct fs; gate_cases.
  - cbn [checkUnionClassField]. destruct t; gate_cases.
  - cbn [checkUnionCollectionClasses]. destruct t; gate_cases.
Qed.

Lemma gate_mono n n' : (n <= n')%nat -> refinesAll n n'.
Proof.
  revert n'. induction n as [|n IH]; intros n' Hn; [constructor; intros; apply refines_fuel|].
  destruct n' as [|n']; [lia|]. apply refinesAll_step, IH. lia.
Qed.
End Mono.
