(* ===== verification/CoerceFuel.v ===== *)
(** * CoerceFuel: the coercer terminates

    With fuel above a measure of the value, the pairs still open on the chain of
    the circularity guard and the depth of the type, [tryCastArm] and [coerce]
    answer, and more fuel does not change the answer. *)

From Stdlib Require Import Ascii String.
From S2P Require Import Prelude GoStrings GoValue Jsonish NumberText Unicode MatchString Schema PairGuard Candidate OutputText Gate LeafCoerce TryCast Coerce CoerceTyping GateFuel.
Open Scope stdpp_scope.

(** ** Agreement

    Two outcomes that are the same answer. *)
Definition agreeR {A} (r s : A + CoerceErr) : Prop := r = s /\ r <> inr OutOfFuel.
Definition agreeM {A} (m n : M A) : Prop := forall f, m f = n f /\ snd (m f) <> inr OutOfFuel.

Lemma agreeR_ok {A} (a : A) : agreeR (inl a) (inl a).
Proof. done. Qed.
Lemma agreeR_err {A} e : e <> OutOfFuel -> agreeR (A := A) (inr e) (inr e).
Proof. split; congruence. Qed.
Lemma agreeR_bind {A B} (r s : A + CoerceErr) (k l : A -> B + CoerceErr) :
  agreeR r s -> (forall a, agreeR (k a) (l a)) -> agreeR (thenR r k) (thenR s l).
Proof. intros [-> Hs] Hk. destruct s as [a|e]; [apply Hk|]. split; [done|]. simpl. congruence. Qed.

Lemma agreeM_ret {A} (a : A) : agreeM (ret a) (ret a).
Proof. done. Qed.
Lemma agreeM_fail {A} e : e <> OutOfFuel -> agreeM (A := A) (fail e) (fail e).
Proof. split; [done|]. simpl. congruence. Qed.
Lemma agreeM_modify g : agreeM (modify g) (modify g).
Proof. done. Qed.
Lemma agreeM_flags : agreeM getFlags getFlags.
Proof. done. Qed.
Lemma agreeM_lift {A} (r s : A + CoerceErr) : agreeR r s -> agreeM (lift r) (lift s).
Proof. intros [-> Hs] f. done. Qed.
Lemma agreeM_bind {A B} (m n : M A) (k l : A -> M B) :
  agreeM m n -> (forall a, agreeM (k a) (l a)) -> agreeM (bindM m k) (bindM n l).
Proof.
  intros Hm Hk f. unfold bindM. destruct (Hm f) as [<- Hf]. destruct (m f) as [f' [a|e]]; [apply Hk|].
  split; [done|]. simpl in *. congruence.
Qed.
Lemma agreeM_addIf x w : agreeM (addIf x w) (addIf x w).
Proof. by destruct x. Qed.
Create HintDb fuel discriminated.
#[export] Hint Resolve agreeR_ok agreeR_err agreeR_bind agreeM_ret agreeM_fail agreeM_modify agreeM_flags agreeM_lift agreeM_addIf : fuel.
#[export] Hint Extern 1 (_ <> OutOfFuel) => congruence : fuel.
#[export] Hint Extern 2 (agreeM (bindM _ _) (bindM _ _)) => apply agreeM_bind; intros : fuel.
#[export] Hint Extern 1 (agreeM (add _) _) => apply agreeM_modify : fuel.
#[export] Hint Extern 1 (agreeM (setKind _) _) => apply agreeM_modify : fuel.
#[export] Hint Extern 1 (agreeM markUncertain _) => apply agreeM_modify : fuel.
#[export] Hint Extern 1 (agreeM markScoreUnknown _) => apply agreeM_modify : fuel.
#[export] Hint Extern 1 (agreeM (absorb _) _) => apply agreeM_modify : fuel.

Ltac fuel := intros; repeat first [solve [auto with fuel] | apply agreeR_bind; intros | apply agreeM_bind; intros | case_match].

Lemma pickCandidate_fuel u cs : agreeR (pickCandidate u cs) (pickCandidate u cs).
Proof. split; [done|]. pose proof (pickCandidate_spec u cs). destruct (pickCandidate u cs); congruence. Qed.
#[export] Hint Resolve pickCandidate_fuel : fuel.

(** ** One item of an array *)

Definition agreeItem (p q : coerceFlags * (string + CoerceErr)) : Prop := p = q /\ snd p <> inr OutOfFuel.

Lemma arrayItems_fuel item item' proven items : (forall x, x ∈ items -> agreeItem (item x) (item' x)) -> forall i,
  agreeR (arrayItems item proven i items) (arrayItems item' proven i items).
Proof.
  induction items as [|x items IH]; intros H i; cbn [arrayItems]; [done|].
  assert (forall i, agreeR (arrayItems item proven i items) (arrayItems item' proven i items)) as IH' by (apply IH; set_solver).
  destruct (H x ltac:(set_solver)) as [<- Hf]. destruct (item x) as [f [out|e]]; simpl in Hf; fuel.
Qed.

Lemma arrayToSingular_fuel item item' proven items tu : (forall x, x ∈ items -> agreeItem (item x) (item' x)) ->
  agreeR (coerceArrayToSingular item proven items tu) (coerceArrayToSingular item' proven items tu).
Proof.
  intros H. unfold coerceArrayToSingular. destruct items as [|x items]; [fuel|].
  apply agreeR_bind; [by apply arrayItems_fuel|]. intros cs. destruct cs; [fuel|]. apply agreeR_bind; [fuel|]. intros [i w]. fuel.
Qed.

Lemma scalarArray_fuel item proven items : (forall x, x ∈ items -> agreeM (item x) (item x)) ->
  agreeM (coerceScalarArrayToSingular item proven items) (coerceScalarArrayToSingular item proven items).
Proof.
  intros H. apply agreeM_bind; [fuel|]. intros f. apply agreeM_bind; [|fuel]. apply agreeM_lift, arrayToSingular_fuel.
  intros x Hx. apply (H x Hx).
Qed.

(** ** Leaves *)

Section Leaves.
Variables (T : tables) (b : Bundle).

Lemma coerceIntValue_fuel input : agreeR (coerceIntValue input) (coerceIntValue input).
Proof. unfold coerceIntValue. fuel. Qed.
Lemma emitFloat_fuel v x : agreeR (emitFloat v x) (emitFloat v x).
Proof. unfold emitFloat. fuel. Qed.
Hint Resolve emitFloat_fuel : fuel.
Lemma coerceFloatValue_fuel input : agreeR (coerceFloatValue input) (coerceFloatValue input).
Proof. unfold coerceFloatValue. fuel. Qed.
Lemma coerceBoolValue_fuel input : agreeR (coerceBoolValue T input) (coerceBoolValue T input).
Proof. unfold coerceBoolValue. fuel. Qed.
Hint Resolve coerceIntValue_fuel coerceFloatValue_fuel coerceBoolValue_fuel : fuel.

Lemma scalars_fuel input : agreeM (coercePrimitiveInt input) (coercePrimitiveInt input)
  /\ agreeM (coercePrimitiveFloat input) (coercePrimitiveFloat input)
  /\ agreeM (coercePrimitiveBool T input) (coercePrimitiveBool T input).
Proof.
  induction input as [| | | |i items IH|] using value_induction; split_and!; cbn [coercePrimitiveInt coercePrimitiveFloat coercePrimitiveBool];
    try (rewrite Forall_forall in IH; apply scalarArray_fuel; intros x Hx; by apply IH); fuel.
Qed.

Lemma displayStringification_fuel input : agreeM (displayStringification input) (displayStringification input).
Proof. unfold displayStringification. fuel. Qed.
Hint Resolve displayStringification_fuel : fuel.

Lemma coercePrimitive_fuel p input : agreeM (coercePrimitive T p input) (coercePrimitive T p input).
Proof.
  destruct p; cbn [coercePrimitive]; try apply scalars_fuel; unfold coercePrimitiveString, coercePrimitiveNull; fuel.
Qed.

Lemma stringForMatch_fuel input : agreeM (stringForMatch input) (stringForMatch input).
Proof. unfold stringForMatch. fuel. Qed.
Hint Resolve stringForMatch_fuel : fuel.

Lemma coerceLiteralValue_fuel l input : agreeM (coerceLiteralValue T l input) (coerceLiteralValue T l input).
Proof.
  destruct l; cbn [coerceLiteralValue]; [fuel| | |fuel].
  - pose proof (coerceIntValue_fuel input) as [_ H]. fuel.
  - pose proof (coerceBoolValue_fuel input) as [_ H]. fuel.
Qed.
Hint Resolve coerceLiteralValue_fuel : fuel.

Lemma coerceLiteral_fuel lit input : agreeM (coerceLiteral T lit input) (coerceLiteral T lit input).
Proof.
  destruct lit as [l|]; [|destruct input; apply agreeM_fail; congruence]. destruct input; cbn [coerceLiteral]; fuel.
Qed.

Lemma coerceEnum_fuel name input : agreeM (coerceEnum T b name input) (coerceEnum T b name input).
Proof. unfold coerceEnum. fuel. Qed.

Lemma coerceMapKey_fuel keyT key : agreeM (coerceMapKey T b keyT key) (coerceMapKey T b keyT key).
Proof. unfold coerceMapKey, keyVerdict. fuel. Qed.
End Leaves.
#[export] Hint Resolve coercePrimitive_fuel coerceLiteral_fuel coerceEnum_fuel coerceMapKey_fuel : fuel.

(** ** Strict casts *)

Section Casts.
Variable b : Bundle.
Variables rec rec' : type -> value -> coerceCtx -> option candidate + CoerceErr.
Definition agreeCast (t : type) (v : value) : Prop := forall ctx, agreeR (rec t v ctx) (rec' t v ctx).

Lemma castEntries_fuel valT ctx fs : (forall f, f ∈ fs -> agreeCast valT f.2) ->
  agreeR (castEntries rec valT ctx fs) (castEntries rec' valT ctx fs).
Proof.
  induction fs as [|f fs IH]; intros H; cbn [castEntries]; [done|].
  apply agreeR_bind; [apply H; set_solver|]. intros [c|]; [|done]. apply agreeR_bind; [apply IH; set_solver|]. fuel.
Qed.
Lemma castItems_fuel elem ctx items : (forall v, v ∈ items -> agreeCast elem v) -> forall last,
  agreeR (castItems rec elem ctx last items) (castItems rec' elem ctx last items).
Proof.
  induction items as [|v items IH]; intros H last; cbn [castItems]; [done|].
  apply agreeR_bind; [apply H; set_solver|]. intros [c|]; [|done]. apply agreeR_bind; [apply IH; set_solver|]. fuel.
Qed.
Lemma castVariants_fuel input ctx vs : (forall t, t ∈ vs -> agreeCast t input) -> forall i,
  agreeR (castVariants rec input ctx i vs) (castVariants rec' input ctx i vs).
Proof.
  induction vs as [|t vs IH]; intros H i; cbn [castVariants]; [done|].
  assert (forall i, agreeR (castVariants rec input ctx i vs) (castVariants rec' input ctx i vs)) as IH' by (apply IH; set_solver).
  apply agreeR_bind; [apply H; set_solver|]. intros [c|]; [|apply IH']. fuel.
Qed.
Lemma tryCastUnion_fuel vs input ctx : (forall t, t ∈ vs -> agreeCast t input) ->
  agreeR (tryCastUnion rec vs input ctx) (tryCastUnion rec' vs input ctx).
Proof.
  intros H. assert (agreeR (castStandard rec vs input ctx) (castStandard rec' vs input ctx)) as Hs.
  { apply agreeR_bind; [by apply castVariants_fuel|]. fuel. }
  unfold tryCastUnion. destruct (unionHint ctx) as [h|]; [|done]. destruct (vs !! h) as [t|] eqn:E; [|done].
  apply agreeR_bind; [|fuel]. apply H. by eapply list_elem_of_lookup_2.
Qed.
Lemma castFields_fuel ctx fs : (forall f v, (f, Some v) ∈ fs -> agreeCast (cf_Type f) v) ->
  agreeR (castFields rec ctx fs) (castFields rec' ctx fs).
Proof.
  induction fs as [|[f [v|]] fs IH]; intros H; cbn [castFields]; [done|..].
  - apply agreeR_bind; [apply H; set_solver|]. intros [c|]; [|done]. apply agreeR_bind; [apply IH; set_solver|]. fuel.
  - destruct (isOptional _); [|done]. apply agreeR_bind; [apply IH; set_solver|]. fuel.
Qed.

(** The calls of one level: what each arm may ask of the recursive call. *)
Definition castCalls (t : type) (v : value) (t' : type) (v' : value) : Prop :=
  match t, v with
  | TypeClass _ name mode, valObject _ members =>
      exists cls f k, FindClass b name mode = Some cls /\ f ∈ cd_Fields cls /\ t' = cf_Type f /\ (k, v') ∈ members
  | TypeMap _ _ (Some valT), valObject _ fs => t' = valT /\ exists k, (k, v') ∈ fs
  | TypeList _ (Some e), valArray _ items => t' = e /\ v' ∈ items
  | TypeUnion _ (Some (vs, _)), _ => t' ∈ vs /\ v' = v
  | _, _ => False
  end.

Lemma tryCastLeaf_fuel t input : agreeR (tryCastLeaf b t input) (tryCastLeaf b t input).
Proof. destruct t; cbn [tryCastLeaf]; unfold castTo, noCast; fuel. Qed.

Lemma combine_assigned p fields members f v : (f, Some v) ∈ combine fields (assignKeys p fields members).1 ->
  f ∈ fields /\ exists k, (k, v) ∈ members.
Proof.
  intros H. destruct (assignKeys_spec p fields members) as [_ Hin]. apply list_elem_of_In in H. split.
  - apply list_elem_of_In. by eapply in_combine_l.
  - apply Hin, list_elem_of_In. by eapply in_combine_r.
Qed.

Lemma tryCastStep_fuel t input ctx : (forall t' v', castCalls t input t' v' -> agreeCast t' v') ->
  agreeR (tryCastStep b rec t input ctx) (tryCastStep b rec' t input ctx).
Proof.
  intros H. destruct t as [| | | |m name mode|m e|m k v| | | |m u|]; cbn [tryCastStep]; try apply tryCastLeaf_fuel.
  - unfold tryCastClass. destruct (FindClass b name mode) as [cls|] eqn:Hc; [|fuel].
    destruct input as [| | | | |i fs]; try done. destruct (tryCastHas _ _ _); [done|].
    pose proof (combine_assigned renderedIs (cd_Fields cls) fs) as Ha.
    destruct (assignKeys _ _ _) as [assigned extras]. destruct (_ <? _)%Z; [done|].
    apply agreeR_bind; [|unfold noCast; fuel]. apply castFields_fuel. intros f v [Hf [k Hk]]%Ha. apply H. by exists cls, f, k.
  - destruct e as [e|]; cbn [tryCastArray]; [|fuel]. destruct input as [| | | |i items|]; try done.
    apply agreeR_bind; [|unfold noCast; fuel]. apply castItems_fuel. intros v Hv. by apply H.
  - destruct k as [k|], v as [v|]; cbn [tryCastMap]; [|fuel..]. destruct (negb _); [done|].
    destruct input as [| | | | |i fs]; try done. destruct (negb _); [done|].
    apply agreeR_bind; [|unfold noCast; fuel]. apply castEntries_fuel. intros [x w] Hw. apply H. split; [done|by exists x].
  - destruct u as [[vs nullable]|]; unfold tryCastUnionArm, castTo, noCast; [|fuel].
    destruct input; try (apply tryCastUnion_fuel; intros t Ht; by apply H). fuel.
Qed.
End Casts.

(** ** Depth of types *)

Fixpoint tdepth (t : type) : nat :=
  match t with
  | TypeList _ (Some e) => S (tdepth e)
  | TypeMap _ _ (Some v) => S (tdepth v)
  | TypeUnion _ (Some (vs, _)) => S (max_list (tdepth <$> vs))
  | _ => 0
  end.
Lemma tdepth_arm m vs nullable t : t ∈ vs -> (tdepth t < tdepth (TypeUnion m (Some (vs, nullable))))%nat.
Proof. intros Ht. cbn [tdepth]. pose proof (max_list_elem_of_le (tdepth t) (tdepth <$> vs)). apply Nat.lt_succ_r, H. by apply list_elem_of_fmap_2. Qed.

(** No field of a class of the bundle is deeper than [W]. *)
Definition depthBound (b : Bundle) (W : nat) : Prop :=
  forall name mode cls f, FindClass b name mode = Some cls -> f ∈ cd_Fields cls -> (tdepth (cf_Type f) <= W)%nat.

(** The measure of a strict cast. *)
Definition castMeasure (W : nat) (t : type) (v : value) : nat := (vsize v * S W + tdepth t)%nat.

Lemma castCalls_smaller b W t v t' v' : depthBound b W -> (tdepth t <= W)%nat -> castCalls b t v t' v' ->
  (tdepth t' <= W)%nat /\ (castMeasure W t' v' < castMeasure W t v)%nat.
Proof.
  intros HW Ht Hc. unfold castMeasure.
  assert ((vsize v' < vsize v)%nat -> (tdepth t' <= W)%nat -> (vsize v' * S W + tdepth t' < vsize v * S W + tdepth t)%nat) as Hv.
  { intros H1 H2. assert (S (vsize v') * S W <= vsize v * S W)%nat by (apply Nat.mul_le_mono_r; lia). lia. }
  destruct t as [| | | |m name mode|m [e|]|m k [w|]| | | |m [[vs nullable]|]|]; try done; cbn [castCalls] in Hc; try by destruct v.
  - destruct v as [| | | | |i fs]; try done. destruct Hc as (cls&f&k&Hc&Hf&->&Hk).
    assert (tdepth (cf_Type f) <= W)%nat by (by eapply HW). split; [done|]. apply Hv; [by apply (vsize_field i (k, v'))|done].
  - destruct v as [| | | |i items|]; try done. destruct Hc as [-> Hin]. cbn [tdepth] in *. split; [lia|]. apply Hv; [by apply vsize_item|lia].
  - destruct v as [| | | | |i fs]; try done. destruct Hc as [-> [x Hin]]. cbn [tdepth] in Ht. split; [lia|].
    apply Hv; [by apply (vsize_field i (x, v'))|lia].
  - destruct Hc as [Hin ->]. pose proof (tdepth_arm m vs nullable t' Hin). lia.
Qed.

(** The strict cast answers with fuel above its measure, and always the same. *)
Lemma tryCastArm_fuel b W : depthBound b W -> forall n n' t v ctx, (tdepth t <= W)%nat ->
  (castMeasure W t v < n)%nat -> (castMeasure W t v < n')%nat -> agreeR (tryCastArm n b t v ctx) (tryCastArm n' b t v ctx).
Proof.
  intros HW n. induction n as [|n IH]; intros n' t v ctx Ht Hn Hn'; [lia|]. destruct n' as [|n']; [lia|]. cbn [tryCastArm].
  apply tryCastStep_fuel. intros t' v' Hc ctx'. destruct (castCalls_smaller b W t v t' v' HW Ht Hc). apply IH; lia.
Qed.

(** ** Composites *)

Section Step.
Variables (T : tables) (b : Bundle).
Variables rec rec' : type -> value -> coerceCtx -> M string.
Variables cast cast' : type -> value -> coerceCtx -> option candidate + CoerceErr.
Variables (gateType gateType' : type -> option CoerceErr) (gateShape gateShape' : list type -> option CoerceErr).
Definition agreeRec (t : type) (v : value) (ctx : coerceCtx) : Prop := agreeM (rec t v ctx) (rec' t v ctx).

Lemma coerceListChild_fuel elem item ctx : agreeRec elem item ctx ->
  agreeM (coerceListChild b rec elem item ctx) (coerceListChild b rec' elem item ctx).
Proof.
  intros H f. unfold coerceListChild. destruct (H (newFlags false)) as [<- Hf].
  destruct (rec elem item ctx (newFlags false)) as [g [out|e]]; [done|]. simpl in Hf. repeat case_match; simpl; split; congruence.
Qed.
Lemma coerceMapValueChild_fuel valT v ctx : agreeRec valT v (enterScope ctx) ->
  agreeM (coerceMapValueChild b rec valT v ctx) (coerceMapValueChild b rec' valT v ctx).
Proof.
  intros H f. unfold coerceMapValueChild. destruct (H (newFlags false)) as [<- Hf].
  destruct (rec valT v _ (newFlags false)) as [g [out|e]]; [done|]. simpl in Hf. repeat case_match; simpl; split; congruence.
Qed.
Lemma resolveMatched_fuel fld v ctx : agreeRec (cf_Type fld) v ctx ->
  agreeM (resolveMatched b rec fld v ctx) (resolveMatched b rec' fld v ctx).
Proof.
  intros H f. unfold resolveMatched. destruct (H (newFlags false)) as [<- Hf].
  destruct (rec (cf_Type fld) v ctx (newFlags false)) as [g [out|e]]; [done|]. simpl in Hf. repeat case_match; simpl; split; congruence.
Qed.
Lemma coerceImplied_fuel fld v ctx : agreeRec (cf_Type fld) v ctx ->
  agreeM (coerceImplied b rec fld v ctx) (coerceImplied b rec' fld v ctx).
Proof.
  intros H f. unfold coerceImplied. destruct (H (newFlags false)) as [<- Hf].
  destruct (rec (cf_Type fld) v ctx (newFlags false)) as [g [out|e]]; [done|]. simpl in Hf. repeat case_match; simpl; split; congruence.
Qed.

Lemma finishList_fuel r : agreeM (finishList r) (finishList r).
Proof. unfold finishList. fuel. Qed.
Hint Resolve finishList_fuel : fuel.

Lemma listItems_fuel elem ctx items : (forall v hint, v ∈ items -> agreeRec elem v (enterScopeWithHint ctx hint)) -> forall i last,
  agreeM (listItems b rec elem ctx i last items) (listItems b rec' elem ctx i last items).
Proof.
  induction items as [|v items IH]; intros H i last; cbn [listItems]; [done|].
  assert (forall i last, agreeM (listItems b rec elem ctx i last items) (listItems b rec' elem ctx i last items)) as IH'
    by (apply IH; intros; apply H; set_solver).
  apply agreeM_bind; [apply coerceListChild_fuel, H; set_solver|]. fuel.
Qed.

Lemma mapEntries_fuel keyT valT ctx fs : (forall f, f ∈ fs -> agreeRec valT f.2 (enterScope ctx)) ->
  agreeM (mapEntries T b rec keyT valT ctx fs) (mapEntries T b rec' keyT valT ctx fs).
Proof.
  induction fs as [|f fs IH]; intros H; cbn [mapEntries]; [done|].
  assert (agreeM (mapEntries T b rec keyT valT ctx fs) (mapEntries T b rec' keyT valT ctx fs)) as IH' by (apply IH; set_solver).
  apply agreeM_bind; [apply coerceMapValueChild_fuel, H; set_solver|]. fuel.
Qed.

Lemma resolveFields_fuel ctx fs : (forall f v, (f, Some v) ∈ fs -> agreeRec (cf_Type f) v ctx) ->
  agreeM (resolveFields b rec ctx fs) (resolveFields b rec' ctx fs).
Proof.
  induction fs as [|[f [v|]] fs IH]; intros H; cbn [resolveFields]; [done|..].
  - apply agreeM_bind; [apply resolveMatched_fuel, H; set_solver|]. intros r. apply agreeM_bind; [apply IH; set_solver|]. fuel.
  - apply agreeM_bind; [apply IH; set_solver|]. fuel.
Qed.

Lemma fillDefaults_fuel fs : agreeM (fillDefaults fs) (fillDefaults fs).
Proof. induction fs as [|[f [[out|]|]] fs IH]; cbn [fillDefaults]; fuel. Qed.
Hint Resolve fillDefaults_fuel : fuel.

Lemma finishClass_fuel fields r : agreeM (finishClass fields r) (finishClass fields r).
Proof. unfold finishClass. destruct r. fuel. Qed.
Hint Resolve finishClass_fuel : fuel.

(** The arms of a union. *)
Lemma armLoop_fuel arm arm' vs : (forall t, t ∈ vs -> agreeItem (arm t) (arm' t)) -> forall i,
  agreeR (armLoop arm i vs) (armLoop arm' i vs).
Proof.
  induction vs as [|t vs IH]; intros H i; cbn [armLoop]; [done|].
  assert (forall i, agreeR (armLoop arm i vs) (armLoop arm' i vs)) as IH' by (apply IH; set_solver).
  destruct (H t ltac:(set_solver)) as [<- Hf]. destruct (arm t) as [f [out|e]]; simpl in Hf; fuel.
Qed.
Lemma selectUnionArms_fuel arm arm' vs nullable hint : (forall t, t ∈ vs -> agreeItem (arm t) (arm' t)) ->
  agreeR (selectUnionArms arm vs nullable hint) (selectUnionArms arm' vs nullable hint).
Proof.
  intros H. assert (agreeR (selectStandard arm vs nullable) (selectStandard arm' vs nullable)) as Hs.
  { apply agreeR_bind; [by apply armLoop_fuel|]. fuel. }
  unfold selectUnionArms. destruct hint as [h|]; [|done]. destruct (vs !! h) as [t|] eqn:Ht; [|done].
  destruct (H t) as [<- Hf]; [by eapply list_elem_of_lookup_2|]. destruct (arm t) as [f [out|e]]; simpl in Hf; [fuel|].
  destruct e; try done.
Qed.

(** What one level may ask of the recursive call. *)
Definition coerceCalls (t : type) (v : value) (chain : list (pairKey * value)) (t' : type) (v' : value) (chain' : list (pairKey * value)) : Prop :=
  let part := match v with
              | valArray _ items => v' ∈ items
              | valObject _ fs => exists k, (k, v') ∈ fs
              | _ => False
              end in
  match t with
  | TypeClass _ name mode =>
      exists cls, FindClass b name mode = Some cls /\ has chain (classPairKey (name, mode)) v = false
        /\ chain' = (classPairKey (name, mode), v) :: chain
        /\ (t' = TypeClass noMeta name mode /\ part \/ exists f, f ∈ cd_Fields cls /\ t' = cf_Type f /\ (part \/ v' = v))
  | TypeMap _ _ (Some valT) => t' = valT /\ part /\ chain' = chain
  | TypeList _ (Some e) => t' = e /\ (part \/ v' = v) /\ chain' = chain
  | TypeUnion _ (Some (vs, _)) => t' ∈ vs /\ v' = v /\ chain' = chain
  | _ => False
  end.

Section Level.
Variables (t : type) (input : value) (ctx : coerceCtx).
Hypothesis calls_agree : forall t' v' ctx', coerceCalls t input (coerceChain ctx) t' v' (coerceChain ctx') -> agreeRec t' v' ctx'.

Lemma coerceList_fuel m elem : t = TypeList m elem -> agreeM (coerceList b rec elem input ctx) (coerceList b rec' elem input ctx).
Proof.
  intros Ht. subst t. destruct elem as [e|]; unfold coerceList; [|fuel]. apply agreeM_bind; [fuel|]. intros _.
  assert (forall items i, input = valArray i items -> forall v hint, v ∈ items -> agreeRec e v (enterScopeWithHint ctx hint)) as Hitem.
  { intros items i -> v hint Hv. apply calls_agree. simpl. auto. }
  assert (agreeRec e input (enterScope ctx)) as Hself by (apply calls_agree; simpl; auto).
  destruct input as [| | | |i items|]; try (do 2 (apply agreeM_bind; [fuel|]; intros _); apply agreeM_bind; [by apply coerceListChild_fuel|]; fuel).
  apply agreeM_bind; [|fuel]. apply listItems_fuel. by eapply Hitem.
Qed.

Lemma coerceMap_fuel m key val : t = TypeMap m key val -> agreeM (coerceMap T b rec key val input ctx) (coerceMap T b rec' key val input ctx).
Proof.
  intros Ht. subst t. destruct key as [k|], val as [w|]; unfold coerceMap; [|fuel..].
  destruct input as [| | | | |i fs]; try (apply agreeM_fail; congruence). destruct (negb _); [fuel|].
  do 2 (apply agreeM_bind; [fuel|]; intros _). apply agreeM_bind; [|fuel]. apply mapEntries_fuel.
  intros [x v] Hx. apply calls_agree. simpl. eauto.
Qed.

Lemma coerceClass_fuel m name mode : t = TypeClass m name mode ->
  agreeM (coerceClass T b rec name mode input ctx) (coerceClass T b rec' name mode input ctx).
Proof.
  intros Ht. subst t. unfold coerceClass. destruct (FindClass b name mode) as [cls|] eqn:Hc; [|fuel].
  destruct (coerceHas ctx (name, mode) input) eqn:Hh; [fuel|]. cbv zeta. set (child := enterCoerce ctx (name, mode) input).
  assert (forall f, f ∈ cd_Fields cls -> agreeRec (cf_Type f) input child) as Hself.
  { intros f Hf. apply calls_agree. exists cls. split_and!; [done|done|done|]. right. exists f. auto. }
  assert (agreeM (r <~ resolveScalar b rec (cd_Fields cls) input child ;; finishClass (cd_Fields cls) r)
    (r <~ resolveScalar b rec' (cd_Fields cls) input child ;; finishClass (cd_Fields cls) r)) as Hs.
  { apply agreeM_bind; [|fuel]. unfold resolveScalar. destruct (cd_Fields cls) as [|f [|]]; [fuel| |fuel].
    apply agreeM_bind; [apply coerceImplied_fuel, Hself; set_solver|]. fuel. }
  destruct input as [| | | |i items|i members]; try (apply agreeM_bind; [fuel|]; intros _; exact Hs).
  - unfold coerceClassArray. destruct (negb _); [fuel|]. apply agreeM_bind; [fuel|]. intros fl. apply agreeM_bind; [|fuel].
    apply agreeM_lift, arrayToSingular_fuel. intros v Hv. apply calls_agree. exists cls. split_and!; [done|done|done|]. by left.
  - apply agreeM_bind; [fuel|]. intros _. apply agreeM_bind; [|fuel]. unfold resolveObject.
    set (p := fun key f => matchesStringToString T key (RenderedName (cf_Name f))).
    pose proof (combine_assigned p (cd_Fields cls) members) as Ha. destruct (assignKeys p (cd_Fields cls) members) as [assigned extras].
    apply agreeM_bind.
    + apply resolveFields_fuel. intros f v [Hf Hk]%Ha. apply calls_agree. exists cls. split_and!; [done|done|done|]. right. exists f. auto.
    + intros rs. destruct (cd_Fields cls) as [|f [|]]; [fuel| |fuel]. destruct (_ && _); [|fuel].
      apply agreeM_bind; [apply coerceImplied_fuel, Hself; set_solver|]. fuel.
Qed.

Hypothesis casts_agree : forall m vs nullable, t = TypeUnion m (Some (vs, nullable)) -> forall t', t' ∈ vs -> agreeCast cast cast' t' input.
Hypothesis gates_agree : forall m vs nullable, t = TypeUnion m (Some (vs, nullable)) ->
  (forall v, vs = [v] -> gateType v = gateType' v /\ answered (gateType v)) /\ gateShape vs = gateShape' vs /\ answered (gateShape vs).

Lemma unionVerdict_fuel (vs : list type) : unionNoArmVerdict vs <> OutOfFuel /\ nullIntoNonNullableUnion vs <> OutOfFuel.
Proof. unfold nullIntoNonNullableUnion, unionNoArmVerdict. repeat case_match; split; congruence. Qed.

Lemma coerceUnionSafeMulti_fuel m vs nullable : t = TypeUnion m (Some (vs, nullable)) ->
  agreeM (coerceUnionSafeMulti b rec cast vs input nullable ctx) (coerceUnionSafeMulti b rec' cast' vs input nullable ctx).
Proof.
  intros Ht. pose proof (casts_agree m vs nullable Ht) as Hcast. subst t. destruct (unionVerdict_fuel vs) as [Hv _].
  apply agreeM_bind; [apply agreeM_lift; by apply tryCastUnion_fuel|]. intros [w|]; [fuel|].
  assert (agreeR (selectUnionArms (lenientArm b rec input nullable ctx) vs nullable (unionHint ctx))
    (selectUnionArms (lenientArm b rec' input nullable ctx) vs nullable (unionHint ctx))) as [<- Hf].
  { apply selectUnionArms_fuel. intros t' Ht'. unfold lenientArm.
    destruct (calls_agree t' input ctx) with (f := newFlags true) as [<- Hr]; [by simpl; auto|].
    destruct (rec t' input ctx (newFlags true)) as [g [out|e]]; [done|]. simpl in Hr. case_match; split; simpl; congruence. }
  destruct (selectUnionArms _ _ _ _) as [w|e]; [fuel|]. destruct e; fuel.
Qed.

Lemma coerceUnionSafe_fuel m u : t = TypeUnion m u ->
  agreeM (coerceUnionSafe b rec cast gateType gateShape u input ctx) (coerceUnionSafe b rec' cast' gateType' gateShape' u input ctx).
Proof.
  intros Ht. destruct u as [[vs nullable]|]; unfold coerceUnionSafe; [|fuel]. destruct (unionVerdict_fuel vs) as [_ Hnull].
  destruct (gates_agree m vs nullable Ht) as (Hone&<-&Hshape). unfold answered in Hshape.
  pose proof (coerceUnionSafeMulti_fuel m vs nullable Ht) as Hmulti.
  assert (agreeM (match gateShape vs with Some e => fail e | None => coerceUnionSafeMulti b rec cast vs input nullable ctx end)
    (match gateShape vs with Some e => fail e | None => coerceUnionSafeMulti b rec' cast' vs input nullable ctx end)) as Hmany by fuel.
  assert (forall v, vs = [v] -> agreeM
    (match gateType v with Some e => fail e | None => w <~ lift (selectUnionArms (fun v => rec v input ctx (newFlags true)) [v] true (unionHint ctx)) ;; absorb w ;;; ret (output w) end)
    (match gateType' v with Some e => fail e | None => w <~ lift (selectUnionArms (fun v => rec' v input ctx (newFlags true)) [v] true (unionHint ctx)) ;; absorb w ;;; ret (output w) end)) as Hlone.
  { intros v Hv. destruct (Hone v Hv) as [<- Hg]. unfold answered in Hg. destruct (gateType v); [fuel|].
    apply agreeM_bind; [|fuel]. apply agreeM_lift, selectUnionArms_fuel. intros t' Ht'. apply calls_agree. subst t vs. simpl. auto. }
  destruct input; [destruct nullable; fuel|..]; (destruct vs as [|v [|v' vs]]; [exact Hmany|by apply Hlone|exact Hmany]).
Qed.

Variable alias : value -> coerceCtx -> M string.
Hypothesis alias_answers : agreeM (alias input ctx) (alias input ctx).

Lemma coerceStep_fuel : agreeM (coerceStep T b rec cast gateType gateShape alias t input ctx)
  (coerceStep T b rec' cast' gateType' gateShape' alias t input ctx).
Proof.
  pose proof coerceClass_fuel as Hclass. pose proof coerceList_fuel as Hlist.
  pose proof coerceMap_fuel as Hmap. pose proof coerceUnionSafe_fuel as Hunion.
  clear calls_agree casts_agree gates_agree. destruct t; cbn [coerceStep]; solve [fuel | eauto].
Qed.
End Level.
End Step.

(** ** The measure *)

Definition classKeys (b : Bundle) : list ClassKey := (map_to_list (classByKey b)).*1.

Lemma FindClass_key b name mode cls : FindClass b name mode = Some cls -> (name, mode) ∈ classKeys b.
Proof.
  intros (i&Hi&_)%bind_Some. apply list_elem_of_fmap. exists ((name, mode), i). split; [done|]. by apply elem_of_map_to_list.
Qed.

Definition measure (b : Bundle) (W : nat) (t : type) (v : value) (chain : list (pairKey * value)) : nat :=
  ((vsize v * S (length (classKeys b)) + openPairs (classKeys b) chain v) * S W + tdepth t)%nat.

Lemma measure_value b W t v chain t' v' chain' : (vsize v' < vsize v)%nat -> (tdepth t' <= W)%nat ->
  (measure b W t' v' chain' < measure b W t v chain)%nat.
Proof.
  intros Hv Ht. unfold measure. pose proof (openPairs_bound (classKeys b) chain' v') as Hb. set (K := length (classKeys b)) in *.
  assert (S (vsize v') * S K <= vsize v * S K)%nat by (apply Nat.mul_le_mono_r; lia).
  assert (S (vsize v' * S K + openPairs (classKeys b) chain' v') * S W
    <= (vsize v * S K + openPairs (classKeys b) chain v) * S W)%nat by (apply Nat.mul_le_mono_r; lia).
  lia.
Qed.
Lemma measure_pair b W t v k chain t' : k ∈ classKeys b -> has chain (classPairKey k) v = false -> (tdepth t' <= W)%nat ->
  (measure b W t' v ((classPairKey k, v) :: chain) < measure b W t v chain)%nat.
Proof.
  intros Hk Hf Ht. unfold measure. pose proof (openPairs_enter _ _ _ _ Hk Hf) as Hp. set (K := length (classKeys b)) in *.
  assert (S (vsize v * S K + openPairs (classKeys b) ((classPairKey k, v) :: chain) v) * S W
    <= (vsize v * S K + openPairs (classKeys b) chain v) * S W)%nat by (apply Nat.mul_le_mono_r; lia).
  lia.
Qed.

Lemma castMeasure_le b W t v chain : (castMeasure W t v <= measure b W t v chain)%nat.
Proof.
  unfold castMeasure, measure. set (K := length (classKeys b)).
  assert (vsize v * S W <= (vsize v * S K + openPairs (classKeys b) chain v) * S W)%nat by (apply Nat.mul_le_mono_r; lia). lia.
Qed.

(** Every call is on a smaller argument. *)
Lemma coerceCalls_smaller b W t v chain t' v' chain' : depthBound b W -> (tdepth t <= W)%nat ->
  coerceCalls b t v chain t' v' chain' -> (tdepth t' <= W)%nat /\ (measure b W t' v' chain' < measure b W t v chain)%nat.
Proof.
  intros HW Ht. unfold coerceCalls. set (part := match v with valArray _ _ => _ | _ => _ end).
  assert (part -> (vsize v' < vsize v)%nat) as Hpart.
  { unfold part. destruct v as [| | | |i items|i fs]; try done; [apply vsize_item|]. intros [k Hk]. by apply (vsize_field i (k, v')). }
  clearbody part. destruct t as [| | | |m name mode|m [e|]|m k [w|]| | | |m [[vs nullable]|]|]; try done.
  - intros (cls&Hc&Hh&->&[[-> Hp]|(f&Hf&->&[Hp| ->])]).
    + split; [simpl; lia|]. apply measure_value; [by apply Hpart|simpl; lia].
    + assert (tdepth (cf_Type f) <= W)%nat by (by eapply HW). split; [done|]. apply measure_value; [by apply Hpart|done].
    + assert (tdepth (cf_Type f) <= W)%nat by (by eapply HW). split; [done|]. apply measure_pair; [by eapply FindClass_key|done|done].
  - cbn [tdepth] in Ht. intros (->&[Hp| ->]&->); (split; [lia|]); [apply measure_value; [by apply Hpart|lia]|]. unfold measure. cbn [tdepth]. lia.
  - cbn [tdepth] in Ht. intros (->&Hp&->). split; [lia|]. apply measure_value; [by apply Hpart|lia].
  - intros (Hin&->&->). pose proof (tdepth_arm m vs nullable t' Hin). unfold measure. lia.
Qed.

(** ** Gates *)

(** The gate answers on the arms of every union in the type. *)
Fixpoint gated (E : engine) (b : Bundle) (N : nat) (t : type) : Prop :=
  match t with
  | TypeList _ (Some e) => gated E b N e
  | TypeMap _ _ (Some v) => gated E b N v
  | TypeUnion _ (Some (vs, _)) =>
      (forall v, vs = [v] -> answered (checkSupportedType (en_admitted E) b N v))
      /\ answered (checkSupportedUnionShape (en_admitted E) b N vs)
      /\ (fix all (ts : list type) : Prop := match ts with [] => True | t :: ts => gated E b N t /\ all ts end) vs
  | _ => True
  end.
Definition gatedBundle (E : engine) (b : Bundle) (N : nat) : Prop :=
  forall name mode cls f, FindClass b name mode = Some cls -> f ∈ cd_Fields cls -> gated E b N (cf_Type f).

Lemma gated_arm E b N m vs nullable t : t ∈ vs -> gated E b N (TypeUnion m (Some (vs, nullable))) -> gated E b N t.
Proof.
  cbn [gated]. intros Ht (_&_&H). induction vs as [|v vs IH]; [set_solver|]. destruct H as [Hv H].
  apply elem_of_cons in Ht as [->|Ht]; auto.
Qed.

Lemma gated_call E b N t v chain t' v' chain' : gatedBundle E b N -> gated E b N t ->
  coerceCalls b t v chain t' v' chain' -> gated E b N t'.
Proof.
  intros Hb Ht. unfold coerceCalls. destruct t as [| | | |m name mode|m [e|]|m k [w|]| | | |m [[vs nullable]|]|]; try done.
  - intros (cls&Hc&_&_&[[-> _]|(f&Hf&->&_)]); [done|by eapply Hb].
  - by intros (->&_).
  - by intros (->&_).
  - intros (Hin&_). by eapply gated_arm.
Qed.

Lemma gate_stable E b N n n' : (N <= n)%nat -> (N <= n')%nat -> forall m vs nullable, gated E b N (TypeUnion m (Some (vs, nullable))) ->
  (forall v, vs = [v] -> checkSupportedType (en_admitted E) b n v = checkSupportedType (en_admitted E) b n' v
    /\ answered (checkSupportedType (en_admitted E) b n v))
  /\ checkSupportedUnionShape (en_admitted E) b n vs = checkSupportedUnionShape (en_admitted E) b n' vs
  /\ answered (checkSupportedUnionShape (en_admitted E) b n vs).
Proof.
  intros Hn Hn' m vs nullable (H1&H2&_).
  destruct (gate_mono (en_admitted E) b N n Hn) as [Ht Hs _ _ _ _ _ _].
  destruct (gate_mono (en_admitted E) b N n' Hn') as [Ht' Hs' _ _ _ _ _ _]. split.
  - intros v Hv. specialize (H1 v Hv). rewrite (Ht v H1), (Ht' v H1). done.
  - rewrite (Hs vs H2), (Hs' vs H2). done.
Qed.

(** The recursive alias arm always answers. *)
Definition aliasAnswers (E : engine) : Prop := forall v ctx, agreeM (en_alias E v ctx) (en_alias E v ctx).

Lemma coerce_fuel E b W N : aliasAnswers E -> depthBound b W -> gatedBundle E b N ->
  forall n n' t v ctx, (tdepth t <= W)%nat -> gated E b N t ->
  (N + measure b W t v (coerceChain ctx) < n)%nat -> (N + measure b W t v (coerceChain ctx) < n')%nat ->
  agreeM (coerce n E b t v ctx) (coerce n' E b t v ctx).
Proof.
  intros HA HW HG n. induction n as [|n IH]; intros n' t v ctx Ht Hg Hn Hn'; [lia|]. destruct n' as [|n']; [lia|]. cbn [coerce].
  apply coerceStep_fuel; [..|apply HA].
  - intros t' v' ctx' Hc. destruct (coerceCalls_smaller b W t v _ t' v' _ HW Ht Hc). apply IH; [done|by eapply gated_call|lia|lia].
  - intros m vs nullable -> t' Ht' ctx'. pose proof (tdepth_arm m vs nullable t' Ht').
    pose proof (castMeasure_le b W (TypeUnion m (Some (vs, nullable))) v (coerceChain ctx)).
    unfold castMeasure in *. apply (tryCastArm_fuel b W HW); unfold castMeasure; lia.
  - intros m vs nullable ->. eapply gate_stable; [| |exact Hg]; lia.
Qed.

(** C29. The coercer terminates wherever the support gate it consults does.  If the gate
    answers with fuel [N] on the unions of the type and of the bundle's classes (it does
    not on every valid bundle, see [Gate.gate_diverges]), and the alias coercion
    answers, then on every value and context, recursive classes included, the coercer
    answers as soon as the fuel exceeds an explicit bound, and more fuel never changes
    the answer.  The bound counts, per node of the value, the classes of the bundle not
    yet on the chain of the circularity guard with that value, times the depth of the
    bundle's types. *)
Theorem coerce_terminates E b W N t v ctx f : aliasAnswers E -> depthBound b W -> gatedBundle E b N ->
  (tdepth t <= W)%nat -> gated E b N t ->
  let bound := S (N + measure b W t v (coerceChain ctx)) in
  snd (coerce bound E b t v ctx f) <> inr OutOfFuel
  /\ forall fuel, (bound <= fuel)%nat -> coerce fuel E b t v ctx f = coerce bound E b t v ctx f.
Proof.
  intros HA HW HG Ht Hg bound. pose proof (coerce_fuel E b W N HA HW HG) as H. split.
  - by apply (H bound bound t v ctx Ht Hg); lia.
  - intros fuel Hf. by apply (H fuel bound t v ctx Ht Hg); lia.
Qed.

Lemma plain_alias : aliasAnswers plainEngine.
Proof. intros v ctx. apply agreeM_fail. congruence. Qed.

Lemma nodeBundle_fields (P : type -> Prop) : P int -> P (opt (classOf "Node")) ->
  forall name mode cls f, FindClass nodeBundle name mode = Some cls -> f ∈ cd_Fields cls -> P (cf_Type f).
Proof.
  intros H1 H2 name mode cls f Hc Hf. unfold FindClass in Hc. apply bind_Some in Hc as (i&_&Hi).
  apply list_elem_of_lookup_2 in Hi. apply list_elem_of_singleton in Hi as ->.
  apply elem_of_cons in Hf as [->|Hf]; [done|]. by apply list_elem_of_singleton in Hf as ->.
Qed.

Lemma coerce_terminates_witness :
  snd (coerce (S (2 + measure nodeBundle 1 (Target nodeBundle) nodeValue [])) plainEngine nodeBundle (Target nodeBundle) nodeValue emptyCtx (newFlags false))
  <> inr OutOfFuel.
Proof.
  apply (coerce_terminates plainEngine nodeBundle 1 2 (Target nodeBundle) nodeValue emptyCtx (newFlags false)).
  - exact plain_alias.
  - refine (nodeBundle_fields (fun t => (tdepth t <= 1)%nat) _ _); vm_compute; lia.
  - refine (nodeBundle_fields (gated plainEngine nodeBundle 2) _ _); [exact I|].
    split_and!; [intros v [= <-]; vm_compute; congruence|vm_compute; congruence|exact I|exact I].
  - vm_compute. lia.
  - exact I.
Defined.
