(* ===== verification/AliasCoerce.v ===== *)
(** * AliasCoerce: the recursive aliases [JSON] and [JsonValue]
    ([internal/debaml/recursive_alias_profile.go], [internal/debaml/alias_coerce.go])

    The fingerprints of the two served families and the scored coercion of a value
    to one of them.  The strict cast recurses on the value; the lenient coercion
    may ask for the same value again, which the circularity guard stops, and runs on
    fuel.  A strategy that skips a failed arm or element never skips the end of the
    fuel. *)

From Stdlib Require Import Ascii String.
From stdpp Require Import pretty.
From S2P Require Import Prelude GoStrings GoValue Jsonish GoFloat NumberText Unicode MatchString Schema PairGuard Candidate OutputText Gate LeafCoerce TryCast Coerce.
Open Scope stdpp_scope.

(** ** Profiles *)

Inductive aliasFamily := aliasFamilyJSON | aliasFamilyJsonValue.
Record recAliasProfile := mkProfile { aliasName : string; family : aliasFamily; prof_nullable : bool }.
Definition recAliasJSONName : string := "JSON".
Definition recAliasJsonValueName : string := "JsonValue".

(** [aliasBundleShapeOK]; the result is the lone alias. *)
Definition aliasBundleShapeOK (b : Bundle) : option RecursiveAliasDef :=
  match StructuralRecursiveAliases b, Classes b, Enums b, RecursiveClasses b with
  | [def], [], [], [] => Some def
  | _, _, _, _ => None
  end.

(** [isBareAliasRef] and [isBarePrimitive]. *)
Definition isBareAliasRef (t : type) (name : string) : bool :=
  match t with
  | TypeRecursiveAlias m n mode => (n =s name) && (mode =s NonStreaming) && MetaIsZero m
  | _ => false
  end.
Inductive leafKind := leafInt | leafFloat | leafBool | leafString.
Definition isBarePrimitive (t : type) (k : leafKind) : bool :=
  match t, k with
  | TypePrimitive m PrimitiveInt, leafInt | TypePrimitive m PrimitiveFloat, leafFloat
  | TypePrimitive m PrimitiveBool, leafBool | TypePrimitive m PrimitiveString, leafString => MetaIsZero m
  | _, _ => false
  end.
Definition isBareList (t : type) (name : string) : bool :=
  match t with TypeList m (Some e) => MetaIsZero m && isBareAliasRef e name | _ => false end.
Definition isBareMap (t : type) (name : string) : bool :=
  match t with
  | TypeMap m (Some k) (Some v) => MetaIsZero m && isBarePrimitive k leafString && isBareAliasRef v name
  | _ => false
  end.

(** [isExactJSONAliasTarget] and [isExactJsonValueAliasTarget]. *)
Definition isExactJSONAliasTarget (t : type) : bool :=
  match t with
  | TypeUnion m (Some ([v0; v1; v2; v3; v4], false)) =>
      MetaIsZero m && isBarePrimitive v0 leafInt && isBarePrimitive v1 leafString && isBarePrimitive v2 leafBool
      && isBareList v3 recAliasJSONName && isBareMap v4 recAliasJSONName
  | _ => false
  end.
Definition isExactJsonValueAliasTarget (t : type) : bool :=
  match t with
  | TypeUnion m (Some ([v0; v1; v2; v3; v4; v5], true)) =>
      MetaIsZero m && isBarePrimitive v0 leafInt && isBarePrimitive v1 leafFloat && isBarePrimitive v2 leafBool
      && isBarePrimitive v3 leafString && isBareList v4 recAliasJsonValueName && isBareMap v5 recAliasJsonValueName
  | _ => false
  end.

(** [admittedRecursiveAliasProfile] and [admittedJsonValueRecursiveAliasProfile]. *)
Definition admittedRecursiveAliasProfile (b : Bundle) : option recAliasProfile :=
  def ← aliasBundleShapeOK b;
  if isBareAliasRef (Target b) recAliasJSONName && (ra_Name def =s recAliasJSONName) && isExactJSONAliasTarget (ra_Target def)
  then Some (mkProfile recAliasJSONName aliasFamilyJSON false) else None.
Definition admittedJsonValueRecursiveAliasProfile (b : Bundle) : option recAliasProfile :=
  def ← aliasBundleShapeOK b;
  if isBareAliasRef (Target b) recAliasJsonValueName && (ra_Name def =s recAliasJsonValueName) && isExactJsonValueAliasTarget (ra_Target def)
  then Some (mkProfile recAliasJsonValueName aliasFamilyJsonValue true) else None.

(** [admittedServedRecursiveAliasProfile] and the exported predicates. *)
Definition admittedServedRecursiveAliasProfile (b : Bundle) : option recAliasProfile :=
  match admittedRecursiveAliasProfile b with Some p => Some p | None => admittedJsonValueRecursiveAliasProfile b end.
Definition IsProvenServedRecursiveAliasStaticFamily (b : Bundle) : bool :=
  bool_decide (is_Some (admittedServedRecursiveAliasProfile b)).

(** [bundleNumMode]. *)
Definition bundleNumMode (b : Bundle) : numMode :=
  match admittedJsonValueRecursiveAliasProfile b with Some _ => numModeSerde | None => numModeLegacy end.

(** ** Values *)

(** [aliasValue], with the entries of the ordered map. *)
Inductive aliasValue :=
  | akInt (i : Z)
  | akString (s : string)
  | akBool (b : bool)
  | akArray (arr : list aliasValue)
  | akMap (entries : list (string * aliasValue))
  | akFloat (f : float64)
  | akNull.

(** [orderedAliasMap.put]: a key keeps its first position and gets the last value. *)
Fixpoint put {A} (key : string) (val : A) (entries : list (string * A)) : list (string * A) :=
  match entries with
  | [] => [(key, val)]
  | (k, v) :: rest => if k =s key then (k, val) :: rest else (k, v) :: put key val rest
  end.

(** [aliasHasNegativeZero]. *)
Fixpoint aliasHasNegativeZero (av : aliasValue) : bool :=
  match av with
  | akFloat (S754_zero s) => s
  | akArray arr => existsb aliasHasNegativeZero arr
  | akMap entries => existsb (fun e => aliasHasNegativeZero e.2) entries
  | _ => false
  end.

(** ** [marshalPublic]

    [json.Marshal] of the tree: keys in byte order, HTML characters escaped. *)
Fixpoint insertKey {A} (x : string * A) (l : list (string * A)) : list (string * A) :=
  match l with
  | [] => [x]
  | y :: l => if String.leb x.1 y.1 then x :: y :: l else y :: insertKey x l
  end.
Definition sortKeys {A} (l : list (string * A)) : list (string * A) := foldr insertKey [] l.

(** [toAny]: the tree that is encoded; a float that has no spelling fails. *)
Fixpoint publicValue (av : aliasValue) : option value :=
  match av with
  | akInt i => Some (valNumber false false (pretty i))
  | akFloat f => tok ← floatRaw f; Some (valNumber false false tok)
  | akNull => Some (valNull false)
  | akString s => Some (valString false s)
  | akBool x => Some (valBool false x)
  | akArray arr => valArray false <$> mapM publicValue arr
  | akMap entries => (fun fs => valObject false (sortKeys fs)) <$> mapM (fun e => pair e.1 <$> publicValue e.2) entries
  end.
Definition marshalPublic (av : aliasValue) : option string := compact true <$> publicValue av.

(** ** The strict cast *)

Definition isFiniteFloat (f : float64) : bool := negb (isNaN f || isInf f).

(** A value, its accumulator and the arm that won. *)
Definition aliasResult : Type := aliasValue * coerceFlags * option nat.

Definition flagsOf (s : Z) (c : conditions) : coerceFlags := mkFlags s false false false c.

(** [aliasCandFlags]. *)
Definition aliasCandFlags (c : candidate) : coerceFlags :=
  onConds (fun k => withUnionMatch (unionArmIdx k) k) (absorbCandidate c (newFlags false)).

(** The winner among values with their candidates. *)
Definition pickValue (cands : list (aliasValue * candidate)) : (aliasValue * candidate) + CoerceErr :=
  iw <== pickCandidate true (snd <$> cands) ;;
  match cands !! iw.1 with Some c => inl c | None => inr Hard end.

Section Alias.
Variables (T : tables) (b : Bundle) (prof : recAliasProfile).

(** [aliasVariants]. *)
Definition aliasVariants : list type + CoerceErr :=
  match FindRecursiveAlias b (aliasName prof) with
  | None => inr Hard
  | Some def => match ra_Target def with TypeUnion _ (Some (vs, _)) => inl vs | _ => inr Hard end
  end.

(** [aliasTryCastLeaf]. *)
Definition aliasTryCastLeaf (p : PrimitiveKind) (input : value) : option aliasValue :=
  match p, input with
  | PrimitiveInt, valNumber _ serdeFloat tok => if serdeFloat then None else akInt <$> parseI64Rust tok
  | PrimitiveFloat, valNumber _ _ tok => f ← parseF64Rust tok; if isFiniteFloat f then Some (akFloat f) else None
  | PrimitiveString, valString _ s => Some (akString s)
  | PrimitiveBool, valBool _ x => Some (akBool x)
  | _, _ => None
  end.

Section Casts.
Variable rec : value -> coerceCtx -> option aliasResult + CoerceErr.

(** [aliasTryCastArray] and [aliasTryCastMap], over the elements. *)
Fixpoint aliasTryCastItems (ctx : coerceCtx) (last : option nat) (items : list value) : option (list aliasValue * Z) + CoerceErr :=
  match items with
  | [] => inl (Some ([], 0%Z))
  | item :: items =>
      r <== rec item (enterScopeWithHint ctx last) ;;
      match r with
      | None => inl None
      | Some (av, f, idx) =>
          rest <== aliasTryCastItems ctx idx items ;;
          inl (match rest with Some (avs, s) => Some (av :: avs, score f + s)%Z | None => None end)
      end
  end.
Definition aliasTryCastArray (ctx : coerceCtx) (items : list value) : option (aliasValue * coerceFlags) + CoerceErr :=
  r <== aliasTryCastItems ctx None items ;;
  inl (match r with
       | None => None
       | Some (avs, s) =>
           Some (akArray avs, flagsOf s (withItems (bool_decide (length avs = 0%nat)) 0 (withKind candList noConditions)))
       end).
Fixpoint aliasTryCastEntries (ctx : coerceCtx) (fs : list (string * value)) (m : list (string * aliasValue)) (s : Z)
    : option (list (string * aliasValue) * Z) + CoerceErr :=
  match fs with
  | [] => inl (Some (m, s))
  | f :: fs =>
      r <== rec f.2 ctx ;;
      match r with
      | None => inl None
      | Some (av, fl, _) => aliasTryCastEntries ctx fs (put f.1 av m) (s + score fl)%Z
      end
  end.
Definition aliasTryCastMap (ctx : coerceCtx) (fs : list (string * value)) : option (aliasValue * coerceFlags) + CoerceErr :=
  r <== aliasTryCastEntries ctx fs [] 1 ;;
  inl (match r with None => None | Some (m, s) => Some (akMap m, flagsOf s (withKind candMap noConditions)) end).
End Casts.

(** [aliasTryCastArm], the results for lists and maps given. *)
Definition aliasTryCastArm (array map : option (aliasValue * coerceFlags) + CoerceErr) (input : value) (armT : type)
    : option (aliasValue * coerceFlags) + CoerceErr :=
  match armT with
  | TypePrimitive _ p =>
      inl (match aliasTryCastLeaf p input with Some av => Some (av, flagsOf 0 (withKind candScalar noConditions)) | None => None end)
  | TypeList _ _ => array
  | TypeMap _ _ _ => map
  | _ => inr Hard
  end.

(** The arms in order: the first of score 0, or all that cast. *)
Fixpoint aliasCastArms (arm : type -> option (aliasValue * coerceFlags) + CoerceErr) (i : nat) (vs : list type)
    : aliasResult + list (aliasValue * candidate) + CoerceErr :=
  match vs with
  | [] => inl (inr [])
  | v :: vs =>
      r <== arm v ;;
      match r with
      | None => aliasCastArms arm (S i) vs
      | Some (av, f) =>
          if (score f =? 0)%Z then inl (inl (av, f, Some i))
          else
            rest <== aliasCastArms arm (S i) vs ;;
            inl (match rest with inl w => inl w | inr cs => inr ((av, toCandidate f "" i) :: cs) end)
      end
  end.
Definition aliasCastStandard (arm : type -> option (aliasValue * coerceFlags) + CoerceErr) (vs : list type)
    : option aliasResult + CoerceErr :=
  r <== aliasCastArms arm 0 vs ;;
  match r with
  | inl w => inl (Some w)
  | inr [] => inl None
  | inr [(av, c)] => inl (Some (av, aliasCandFlags c, Some (originIndex c)))
  | inr cs => w <== pickValue cs ;; inl (Some (w.1, aliasCandFlags w.2, Some (originIndex w.2)))
  end.

(** [tryCastAliasUnion]. *)
Definition tryCastAliasUnion (vs : list type) (input : value) (ctx : coerceCtx)
    (arm : type -> option (aliasValue * coerceFlags) + CoerceErr) : option aliasResult + CoerceErr :=
  if prof_nullable prof && (match input with valNull _ => true | _ => false end)
  then inl (Some (akNull, flagsOf 0 (withUnionMatch 0 (withKind candNull noConditions)), None))
  else
    match (h ← unionHint ctx; v ← vs !! h; Some (h, v)) with
    | Some (h, v) =>
        r <== arm v ;;
        match r with
        | Some (av, f) => if (score f =? 0)%Z then inl (Some (av, f, Some h)) else aliasCastStandard arm vs
        | None => aliasCastStandard arm vs
        end
    | None => aliasCastStandard arm vs
    end.

(** [tryCastAlias]. *)
Fixpoint tryCastAlias (input : value) (ctx : coerceCtx) {struct input} : option aliasResult + CoerceErr :=
  if has (tryCastChain ctx) (aliasPairKey (aliasName prof)) input then inl None
  else
    let child := enterTryCastKey ctx (aliasPairKey (aliasName prof)) input in
    match aliasVariants with
    | inr e => inr e
    | inl vs =>
        tryCastAliasUnion vs input child
          (aliasTryCastArm
             (match input with valArray _ items => aliasTryCastArray tryCastAlias child items | _ => inl None end)
             (match input with valObject _ fs => aliasTryCastMap tryCastAlias child fs | _ => inl None end)
             input)
    end.

(** ** The lenient coercion *)

(** [rawToAliasScalar]. *)
Definition rawToAliasScalar (p : PrimitiveKind) (out : string) : aliasValue + CoerceErr :=
  match p with
  | PrimitiveInt => match parseI64Rust out with Some n => inl (akInt n) | None => inr Hard end
  | PrimitiveFloat =>
      match parseF64Rust out with Some f => if isFiniteFloat f then inl (akFloat f) else inr Hard | None => inr Hard end
  | PrimitiveString => match strictDecode numModeLegacy out with Some (valString _ s) => inl (akString s) | _ => inr Hard end
  | PrimitiveBool => inl (akBool (out =s "true"))
  | _ => inr Hard
  end.

(** [aliasCoerceLeaf]. *)
Definition aliasCoerceLeaf (p : PrimitiveKind) (input : value) : (aliasValue * coerceFlags) + CoerceErr :=
  let run (m : M string) :=
    let '(f, r) := m (newFlags true) in
    out <== r ;; av <== rawToAliasScalar p out ;; inl (av, f) in
  match p with
  | PrimitiveInt => run (coercePrimitiveInt input)
  | PrimitiveFloat => run (coercePrimitiveFloat input)
  | PrimitiveString => run (coercePrimitiveString input)
  | PrimitiveBool => run (coercePrimitiveBool T input)
  | _ => inr Hard
  end.

(** Errors of an arm or an element are skipped, the end of the fuel is not. *)
Definition skip {A B} (r : A + CoerceErr) (ok : A -> B + CoerceErr) (ko : B + CoerceErr) : B + CoerceErr :=
  match r with inl a => ok a | inr OutOfFuel => inr OutOfFuel | inr _ => ko end.

Section Lenient.
Variable rec : value -> coerceCtx -> aliasResult + CoerceErr.

(** [aliasCoerceArray]: values, score and errors from position [i] on. *)
Fixpoint aliasCoerceItems (ctx : coerceCtx) (i : nat) (last : option nat) (items : list value)
    : (list aliasValue * Z * Z) + CoerceErr :=
  match items with
  | [] => inl ([], 0, 0)%Z
  | item :: items =>
      skip (rec item (enterScopeWithHint ctx last))
        (fun r => let '(av, f, idx) := r in
           rest <== aliasCoerceItems ctx (S i) idx items ;;
           inl (av :: rest.1.1, score f + rest.1.2, rest.2)%Z)
        (rest <== aliasCoerceItems ctx (S i) last items ;;
         inl (rest.1.1, 1 + Z.of_nat i + rest.1.2, 1 + rest.2)%Z)
  end.
Definition aliasList (single : bool) (avs : list aliasValue) (s errors : Z) : aliasValue * coerceFlags :=
  let c := withItems (bool_decide (length avs = 0%nat)) errors (withKind candList noConditions) in
  (akArray avs, flagsOf s (if single then withSingleToArray c else c)).
Definition aliasCoerceArray (input : value) (ctx : coerceCtx) : (aliasValue * coerceFlags) + CoerceErr :=
  match input with
  | valArray _ items => r <== aliasCoerceItems ctx 0 None items ;; inl (aliasList false r.1.1 r.1.2 r.2)
  | _ =>
      skip (rec input (enterScope ctx))
        (fun r => inl (aliasList true [r.1.1] (1 + score r.1.2) 0))
        (inl (aliasList true [] 2 1))
  end.

(** [aliasCoerceMap]: the entries, the score of each key, and the skipped ones. *)
Fixpoint aliasCoerceEntries (ctx : coerceCtx) (fs : list (string * value)) (m : list (string * aliasValue))
    (scoreByKey : list (string * Z)) (s : Z) : (list (string * aliasValue) * list (string * Z) * Z) + CoerceErr :=
  match fs with
  | [] => inl (m, scoreByKey, s)
  | f :: fs =>
      skip (rec f.2 (enterScope ctx))
        (fun r => aliasCoerceEntries ctx fs (put f.1 r.1.1 m) (put f.1 (score r.1.2) scoreByKey) s)
        (aliasCoerceEntries ctx fs m scoreByKey (s + 1)%Z)
  end.
Definition aliasCoerceMap (input : value) (ctx : coerceCtx) : (aliasValue * coerceFlags) + CoerceErr :=
  match input with
  | valObject _ fs =>
      r <== aliasCoerceEntries ctx fs [] [] 1 ;;
      let '(m, scoreByKey, s) := r in
      inl (akMap m, flagsOf (foldr Z.add s (snd <$> scoreByKey))%Z (withKind candMap noConditions))
  | _ => inr Unsupported
  end.

(** [aliasCoerceArm]. *)
Definition aliasCoerceArm (input : value) (ctx : coerceCtx) (armT : type) : (aliasValue * coerceFlags) + CoerceErr :=
  match armT with
  | TypePrimitive _ p => aliasCoerceLeaf p input
  | TypeList _ _ => aliasCoerceArray input ctx
  | TypeMap _ _ _ => aliasCoerceMap input ctx
  | _ => inr Hard
  end.

(** The arms in order: the first of score 0, or all that coerce, with their arm. *)
Fixpoint aliasCoerceArms (arm : type -> (aliasValue * coerceFlags) + CoerceErr) (i : nat) (vs : list type)
    : aliasResult + list (aliasValue * option nat * candidate) + CoerceErr :=
  match vs with
  | [] => inl (inr [])
  | v :: vs =>
      skip (arm v)
        (fun r => let '(av, f) := r in
           if uncertain f then aliasCoerceArms arm (S i) vs
           else if (score f =? 0)%Z then inl (inl (av, f, Some i))
           else
             rest <== aliasCoerceArms arm (S i) vs ;;
             inl (match rest with inl w => inl w | inr cs => inr ((av, Some i, toCandidate f "" i) :: cs) end))
        (aliasCoerceArms arm (S i) vs)
  end.
Definition aliasCoerceStandard (arm : type -> (aliasValue * coerceFlags) + CoerceErr) (vs : list type) (input : value)
    : aliasResult + CoerceErr :=
  r <== aliasCoerceArms arm 0 vs ;;
  match r with
  | inl w => inl w
  | inr cs =>
      let finish (cs : list (aliasValue * option nat * candidate)) :=
        match cs with
        | [] => inr Unsupported
        | _ =>
            iw <== pickCandidate true (snd <$> cs) ;;
            match cs !! iw.1 with Some (av, i, c) => inl (av, aliasCandFlags c, i) | None => inr Hard end
        end in
      if prof_nullable prof then
        let nf := fst (coercePrimitiveNull input (newFlags true)) in
        if (score nf =? 0)%Z then inl (akNull, nf, None)
        else finish (cs ++ [(akNull, None, nullCandidate (length vs))])
      else finish cs
  end.

(** [coerceAliasUnion]. *)
Definition coerceAliasUnion (vs : list type) (input : value) (ctx : coerceCtx) : aliasResult + CoerceErr :=
  let arm := aliasCoerceArm input ctx in
  match (h ← unionHint ctx; v ← vs !! h; Some (h, v)) with
  | Some (h, v) =>
      skip (arm v)
        (fun r => if (score r.2 =? 0)%Z && negb (uncertain r.2) then inl (r.1, r.2, Some h) else aliasCoerceStandard arm vs input)
        (aliasCoerceStandard arm vs input)
  | None => aliasCoerceStandard arm vs input
  end.

(** [coerceAlias]. *)
Definition coerceAlias (input : value) (ctx : coerceCtx) : aliasResult + CoerceErr :=
  if has (coerceChain ctx) (aliasPairKey (aliasName prof)) input then inr Circular
  else vs <== aliasVariants ;; coerceAliasUnion vs input (enterCoerceKey ctx (aliasPairKey (aliasName prof)) input).
End Lenient.

(** [aliasCoerceValue]. *)
Fixpoint aliasCoerceValue (fuel : nat) (input : value) (ctx : coerceCtx) : aliasResult + CoerceErr :=
  match fuel with
  | O => inr OutOfFuel
  | S n =>
      r <== tryCastAlias input ctx ;;
      match r with
      | Some w => inl w
      | None => coerceAlias (aliasCoerceValue n) input ctx
      end
  end.
End Alias.

(** The arm of [coerce] for recursive aliases. *)
Definition coerceRecursiveAlias (T : tables) (b : Bundle) (input : value) (ctx : coerceCtx) : M string :=
  match admittedServedRecursiveAliasProfile b with
  | None => fail Unsupported
  | Some prof =>
      r <~ lift (aliasCoerceValue T b prof (S (vsize input)) input ctx) ;;
      let '(av, af, _) := r in
      if aliasHasNegativeZero av then fail Unsupported
      else
        foldChild af ;;; setKind (kind (conds af)) ;;;
        match marshalPublic av with Some out => ret out | None => fail Hard end
  end.
