(* ===== verification/AliasSound.v ===== *)
(** * AliasSound: what the recursive alias coercion returns

    A value of the family is returned as it is; every answer is a value of the
    alias and is read back from the emitted text; the coercion terminates. *)

From Stdlib Require Import Ascii String.
From stdpp Require Import pretty.
From S2P Require Import Prelude GoStrings GoValue Jsonish GoFloat NumberText Unicode MatchString Schema PairGuard Candidate OutputText Gate LeafCoerce TryCast Coerce NumberValid CoerceTyping CoerceFuel AliasCoerce.
Open Scope stdpp_scope.

(** ** The families *)

(** The arms of the two families. *)
Inductive familyArms : recAliasProfile -> list type -> Prop :=
  | arms_JSON m0 m1 m2 m3 m4 mk ml mv :
      familyArms (mkProfile recAliasJSONName aliasFamilyJSON false)
        [TypePrimitive m0 PrimitiveInt; TypePrimitive m1 PrimitiveString; TypePrimitive m2 PrimitiveBool;
         TypeList m3 (Some (TypeRecursiveAlias ml recAliasJSONName NonStreaming));
         TypeMap m4 (Some (TypePrimitive mk PrimitiveString)) (Some (TypeRecursiveAlias mv recAliasJSONName NonStreaming))]
  | arms_JsonValue m0 m1 m2 m3 m4 m5 mk ml mv :
      familyArms (mkProfile recAliasJsonValueName aliasFamilyJsonValue true)
        [TypePrimitive m0 PrimitiveInt; TypePrimitive m1 PrimitiveFloat; TypePrimitive m2 PrimitiveBool; TypePrimitive m3 PrimitiveString;
         TypeList m4 (Some (TypeRecursiveAlias ml recAliasJsonValueName NonStreaming));
         TypeMap m5 (Some (TypePrimitive mk PrimitiveString)) (Some (TypeRecursiveAlias mv recAliasJsonValueName NonStreaming))].

Lemma bareAlias_inv t name : isBareAliasRef t name = true -> exists m, t = TypeRecursiveAlias m name NonStreaming.
Proof.
  destruct t as [| | | | | | |m n mode| | | |]; try done. intros [[->%String.eqb_eq ->%String.eqb_eq]%andb_true_iff _]%andb_true_iff. by exists m.
Qed.
Lemma bareList_inv t name : isBareList t name = true -> exists m ml, t = TypeList m (Some (TypeRecursiveAlias ml name NonStreaming)).
Proof. destruct t as [| | | | |m [e|]| | | | | |]; try done. intros [_ [ml ->]%bareAlias_inv]%andb_true_iff. by exists m, ml. Qed.
Lemma barePrimitive_inv t k : isBarePrimitive t k = true ->
  exists m, t = TypePrimitive m (match k with leafInt => PrimitiveInt | leafFloat => PrimitiveFloat | leafBool => PrimitiveBool | leafString => PrimitiveString end).
Proof. destruct t as [|m [] | | | | | | | | | |], k; try done; intros _; by exists m. Qed.
Lemma bareMap_inv t name : isBareMap t name = true ->
  exists m mk mv, t = TypeMap m (Some (TypePrimitive mk PrimitiveString)) (Some (TypeRecursiveAlias mv name NonStreaming)).
Proof.
  destruct t as [| | | | | |m [k|] [v|]| | | | |]; try done. intros [[_ [mk ->]%barePrimitive_inv]%andb_true_iff [mv ->]%bareAlias_inv]%andb_true_iff.
  by exists m, mk, mv.
Qed.

(** The alias found by name is the lone alias of an admitted bundle. *)
Lemma admitted_def b prof def : admittedServedRecursiveAliasProfile b = Some prof ->
  FindRecursiveAlias b (aliasName prof) = Some def -> aliasBundleShapeOK b = Some def.
Proof.
  unfold admittedServedRecursiveAliasProfile, admittedRecursiveAliasProfile, admittedJsonValueRecursiveAliasProfile.
  intros Hp (i&_&Hi)%bind_Some. destruct (aliasBundleShapeOK b) as [d|] eqn:Hs; [|done].
  unfold aliasBundleShapeOK in Hs. destruct (StructuralRecursiveAliases b) as [|d' [|]]; try done. destruct i as [|[|]]; [|done|done].
  by destruct (Classes b), (Enums b), (RecursiveClasses b); simplify_eq/=.
Qed.

(** An admitted bundle has the arms of its family. *)
Lemma admitted_arms b prof vs : admittedServedRecursiveAliasProfile b = Some prof -> aliasVariants b prof = inl vs ->
  familyArms prof vs
  /\ exists m def, FindRecursiveAlias b (aliasName prof) = Some def /\ ra_Target def = TypeUnion m (Some (vs, prof_nullable prof))
  /\ exists mt, Target b = TypeRecursiveAlias mt (aliasName prof) NonStreaming.
Proof.
  unfold aliasVariants. intros Hp Hv. destruct (FindRecursiveAlias b (aliasName prof)) as [def|] eqn:Hf; [|done].
  pose proof (admitted_def b prof def Hp Hf) as Hd.
  unfold admittedServedRecursiveAliasProfile, admittedRecursiveAliasProfile, admittedJsonValueRecursiveAliasProfile in Hp.
  rewrite Hd in Hp. cbn in Hp.
  destruct (isBareAliasRef (Target b) recAliasJSONName && (ra_Name def =s recAliasJSONName) && isExactJSONAliasTarget (ra_Target def)) eqn:E1;
    [|destruct (isBareAliasRef (Target b) recAliasJsonValueName && (ra_Name def =s recAliasJsonValueName) && isExactJsonValueAliasTarget (ra_Target def)) eqn:E2; [|done]];
    injection Hp as <-.
  - apply andb_true_iff in E1 as [[Ht _]%andb_true_iff He]. apply bareAlias_inv in Ht as [mt Ht].
    destruct (ra_Target def) as [| | | | | | | | | |m [[[|v0 [|v1 [|v2 [|v3 [|v4 [|]]]]]] []]|]|] eqn:Er; try done. cbn [isExactJSONAliasTarget] in He.
    rewrite !andb_true_iff in He. destruct He as [[[[[_ H0] H1] H2] H3] H4].
    apply barePrimitive_inv in H0 as [m0 ->], H1 as [m1 ->], H2 as [m2 ->]. apply bareList_inv in H3 as (m3&ml&->). apply bareMap_inv in H4 as (m4&mk&mv&->).
    injection Hv as <-. split; [apply arms_JSON|]. exists m, def. split_and!; [done|done|by exists mt].
  - apply andb_true_iff in E2 as [[Ht _]%andb_true_iff He]. apply bareAlias_inv in Ht as [mt Ht].
    destruct (ra_Target def) as [| | | | | | | | | |m [[[|v0 [|v1 [|v2 [|v3 [|v4 [|v5 [|]]]]]]] []]|]|] eqn:Er; try done. cbn [isExactJsonValueAliasTarget] in He.
    rewrite !andb_true_iff in He. destruct He as [[[[[[_ H0] H1] H2] H3] H4] H5].
    apply barePrimitive_inv in H0 as [m0 ->], H1 as [m1 ->], H2 as [m2 ->], H3 as [m3 ->].
    apply bareList_inv in H4 as (m4&ml&->). apply bareMap_inv in H5 as (m5&mk&mv&->).
    injection Hv as <-. split; [apply arms_JsonValue|]. exists m, def. split_and!; [done|done|by exists mt].
Qed.

(** ** Documents of a family are returned as they are *)

(** The tree of a value of the family. *)
Inductive document (fam : aliasFamily) : value -> aliasValue -> Prop :=
  | doc_int i tok z : parseI64Rust tok = Some z -> document fam (valNumber i false tok) (akInt z)
  | doc_string i s : document fam (valString i s) (akString s)
  | doc_bool i x : document fam (valBool i x) (akBool x)
  | doc_array i xs avs : Forall2 (document fam) xs avs -> document fam (valArray i xs) (akArray avs)
  | doc_object i fs es : NoDup fs.*1 -> Forall2 (fun f e => f.1 = e.1 /\ document fam f.2 e.2) fs es ->
      document fam (valObject i fs) (akMap es)
  | doc_float i serde tok f : fam = aliasFamilyJsonValue -> serde = true \/ parseI64Rust tok = None ->
      parseF64Rust tok = Some f -> isFiniteFloat f = true -> document fam (valNumber i serde tok) (akFloat f)
  | doc_null i : fam = aliasFamilyJsonValue -> document fam (valNull i) akNull.

(** The first arm that casts wins when it is free or the only one. *)
Lemma castArms_first arm vs : forall pre t post i av f, vs = pre ++ t :: post ->
  Forall (fun v => arm v = inl None) pre -> arm t = inl (Some (av, f)) ->
  score f = 0%Z \/ Forall (fun v => arm v = inl None) post ->
  aliasCastArms arm i vs = inl (inl (av, f, Some (i + length pre)%nat))
  \/ aliasCastArms arm i vs = inl (inr [(av, toCandidate f "" (i + length pre))]).
Proof.
  assert (forall post i, Forall (fun v => arm v = inl None) post -> aliasCastArms arm i post = inl (inr [])) as Hnone.
  { intros post i H. revert i. induction H as [|v post Hv _ IH]; intros i; [done|]. cbn [aliasCastArms]. rewrite Hv. apply IH. }
  intros pre. revert vs. induction pre as [|v pre IH]; intros vs t post i av f -> Hpre Ht Hpost; cbn [app aliasCastArms length].
  - rewrite Ht, Nat.add_0_r. cbn [thenR]. destruct (score f =? 0)%Z eqn:E; [by left|]. right.
    destruct Hpost as [Hz|Hp]; [apply Z.eqb_neq in E; done|]. by rewrite (Hnone post (S i) Hp).
  - apply Forall_cons in Hpre as [Hv Hpre]. rewrite Hv. cbn [thenR]. replace (i + S (length pre))%nat with (S i + length pre)%nat by lia.
    by eapply IH.
Qed.
Lemma castStandard_first arm pre t post av f :
  Forall (fun v => arm v = inl None) pre -> arm t = inl (Some (av, f)) ->
  score f = 0%Z \/ Forall (fun v => arm v = inl None) post ->
  exists f' idx, aliasCastStandard arm (pre ++ t :: post) = inl (Some (av, f', idx)).
Proof.
  intros Hpre Ht Hpost. unfold aliasCastStandard.
  destruct (castArms_first arm _ pre t post 0 av f eq_refl Hpre Ht Hpost) as [->| ->]; by do 2 eexists.
Qed.

(** An object without repeated keys keeps its entries. *)
Lemma put_new {A} key (v : A) es : key ∉ es.*1 -> put key v es = es ++ [(key, v)].
Proof.
  induction es as [|[k w] es IH]; [done|]. intros Hn. cbn [put]. destruct (k =s key) eqn:E.
  - apply String.eqb_eq in E as ->. set_solver.
  - rewrite IH by set_solver. done.
Qed.

Section Identity.
Variables (b : Bundle) (prof : recAliasProfile) (vs : list type).
Hypothesis variants : aliasVariants b prof = inl vs.

(** No value on the chain is as small as [v]. *)
Definition fresh (v : value) (ctx : coerceCtx) : Prop := Forall (fun p => (vsize v < vsize p.2)%nat) (tryCastChain ctx).

Lemma fresh_has key v ctx : fresh v ctx -> has (tryCastChain ctx) key v = false.
Proof.
  unfold fresh, has. induction 1 as [|[k w] chain Hw _ IH]; [done|]. simpl. rewrite IH, orb_false_r. simpl in Hw.
  destruct (valueEqual w v) eqn:E; [|apply andb_false_r]. apply valueEqual_size in E. lia.
Qed.
Lemma fresh_child key v w ctx : (vsize w < vsize v)%nat -> fresh v ctx -> fresh w (enterTryCastKey ctx key v).
Proof. intros Hw Hf. constructor; [done|]. eapply Forall_impl; [exact Hf|]. simpl. lia. Qed.
Lemma fresh_hint v ctx h : fresh v ctx -> fresh v (enterScopeWithHint ctx h).
Proof. done. Qed.

(** The strict cast of [v] finds [av]. *)
Definition casts (v : value) (av : aliasValue) : Prop := forall ctx, fresh v ctx ->
  exists f idx, tryCastAlias b prof v ctx = inl (Some (av, f, idx)).

Lemma items_cast xs avs ctx : Forall2 casts xs avs -> Forall (fun x => fresh x ctx) xs -> forall last,
  exists s, aliasTryCastItems (tryCastAlias b prof) ctx last xs = inl (Some (avs, s)).
Proof.
  induction 1 as [|x av xs avs Hx _ IH]; intros Hf last; [by eexists|]. apply Forall_cons in Hf as [Hfx Hf]. cbn [aliasTryCastItems].
  destruct (Hx (enterScopeWithHint ctx last) (fresh_hint _ _ _ Hfx)) as (f&idx&->). cbn [thenR].
  destruct (IH Hf idx) as (s&->). by eexists.
Qed.

Lemma entries_cast fs es ctx : Forall2 (fun f e => f.1 = e.1 /\ casts f.2 e.2) fs es -> Forall (fun f => fresh f.2 ctx) fs ->
  forall m s, NoDup (m.*1 ++ fs.*1) -> exists s', aliasTryCastEntries (tryCastAlias b prof) ctx fs m s = inl (Some (m ++ es, s')).
Proof.
  induction 1 as [|[k x] [k' av] fs es [Hk Hx] _ IH]; intros Hf m s Hn; [exists s; by rewrite app_nil_r|].
  simpl in Hk, Hx. subst k'. apply Forall_cons in Hf as [Hfx Hf]. cbn [aliasTryCastEntries fst snd].
  destruct (Hx ctx Hfx) as (f&idx&->). cbn [thenR]. rewrite put_new.
  2:{ intros Hin. apply NoDup_app in Hn as (_&Hd&_). apply (Hd k Hin). rewrite fmap_cons. set_solver. }
  destruct (IH Hf (m ++ [(k, av)]) (s + score f)%Z) as (s'&->); [by rewrite fmap_app, <- app_assoc|].
  exists s'. by rewrite <- app_assoc.
Qed.

(** One level, without the null that a nullable alias takes first. *)
Lemma cast_level v ctx : fresh v ctx -> prof_nullable prof && (match v with valNull _ => true | _ => false end) = false ->
  let child := enterTryCastKey ctx (aliasPairKey (aliasName prof)) v in
  tryCastAlias b prof v ctx = aliasCastStandard
    (aliasTryCastArm
       (match v with valArray _ items => aliasTryCastArray (tryCastAlias b prof) child items | _ => inl None end)
       (match v with valObject _ fs => aliasTryCastMap (tryCastAlias b prof) child fs | _ => inl None end) v) vs.
Proof.
  intros Hf Hn. cbv zeta. destruct v; cbn [tryCastAlias]; rewrite (fresh_has _ _ _ Hf), variants; unfold tryCastAliasUnion; rewrite Hn; reflexivity.
Qed.

End Identity.

(** None of these arms casts. *)
Ltac none := repeat (apply Forall_cons; split; [reflexivity|]); by apply Forall_nil.

Lemma document_casts b prof vs v av : aliasVariants b prof = inl vs -> familyArms prof vs ->
  document (family prof) v av -> casts b prof v av.
Proof.
  intros variants arms. revert av. induction v as [i|i x|i serde tok|i s|i xs IH|i fs IH] using value_induction; intros av Hd ctx Hf; inversion Hd; subst.
  - unfold tryCastAlias. rewrite (fresh_has _ _ _ Hf), variants. unfold tryCastAliasUnion.
    assert (prof_nullable prof = true) as -> by (destruct arms; [done|reflexivity]). by do 2 eexists.
  - rewrite (cast_level _ _ _ variants _ _ Hf) by apply andb_false_r. destruct arms.
    + eapply (castStandard_first _ [_; _] _ [_; _]); [none|reflexivity|by left].
    + eapply (castStandard_first _ [_; _] _ [_; _; _]); [none|reflexivity|by left].
  - rewrite (cast_level _ _ _ variants _ _ Hf) by apply andb_false_r. destruct arms.
    + eapply (castStandard_first _ [] _ [_; _; _; _]); [by apply Forall_nil|simpl; match goal with H : parseI64Rust _ = _ |- _ => by rewrite H end|by left].
    + eapply (castStandard_first _ [] _ [_; _; _; _; _]); [by apply Forall_nil|simpl; match goal with H : parseI64Rust _ = _ |- _ => by rewrite H end|by left].
  - rewrite (cast_level _ _ _ variants _ _ Hf) by apply andb_false_r. destruct arms; [done|].
    match goal with Hs : _ \/ _, Hp : parseF64Rust _ = _, Hfin : isFiniteFloat _ = true |- _ => rename Hs into Hser, Hp into Hpar, Hfin into Hfinite end.
    eapply (castStandard_first _ [_] _ [_; _; _; _]); [|simpl; rewrite Hpar; simpl; by rewrite Hfinite|by left].
    apply Forall_singleton. simpl. destruct Hser as [->|Hnone]; [done|]. by destruct serde; rewrite ?Hnone.
  - rewrite (cast_level _ _ _ variants _ _ Hf) by apply andb_false_r. destruct arms.
    + eapply (castStandard_first _ [_] _ [_; _; _]); [none|reflexivity|by left].
    + eapply (castStandard_first _ [_; _; _] _ [_; _]); [none|reflexivity|by left].
  - assert (Forall2 (casts b prof) xs avs) as Hxs.
    { match goal with H : Forall2 (document _) xs avs |- _ => rename H into Hdoc end. clear -IH Hdoc. induction Hdoc as [|x av xs avs Hx _ IHxs]; [constructor|]. apply Forall_cons in IH as [Hc IH]. constructor; auto. }
    assert (Forall (fun x => fresh x (enterTryCastKey ctx (aliasPairKey (aliasName prof)) (valArray i xs))) xs) as Hfs.
    { apply Forall_forall. intros x Hx. apply fresh_child; [by apply vsize_item|done]. }
    destruct (items_cast b prof xs avs _ Hxs Hfs None) as (s&Hs). rewrite (cast_level _ _ _ variants _ _ Hf) by apply andb_false_r.
    destruct arms.
    + eapply (castStandard_first _ [_; _; _] _ [_]); [none|cbn [aliasTryCastArm]; unfold aliasTryCastArray; rewrite Hs; reflexivity|right; none].
    + eapply (castStandard_first _ [_; _; _; _] _ [_]); [none|cbn [aliasTryCastArm]; unfold aliasTryCastArray; rewrite Hs; reflexivity|right; none].
  - assert (Forall2 (fun f e => f.1 = e.1 /\ casts b prof f.2 e.2) fs es) as Hfs.
    { match goal with H : Forall2 _ fs es |- _ => rename H into Hdoc end. clear -IH Hdoc. induction Hdoc as [|x e fs es [Hk Hx] _ IHxs]; [constructor|]. apply Forall_cons in IH as [Hc IH]. constructor; auto. }
    assert (Forall (fun f => fresh f.2 (enterTryCastKey ctx (aliasPairKey (aliasName prof)) (valObject i fs))) fs) as Hfr.
    { apply Forall_forall. intros x Hx. apply fresh_child; [by apply vsize_field|done]. }
    destruct (entries_cast b prof vs variants fs es _ Hfs Hfr [] 1%Z) as (s&Hs); [done|]. rewrite (cast_level _ _ _ variants _ _ Hf) by apply andb_false_r.
    destruct arms.
    + eapply (castStandard_first _ [_; _; _; _] _ []); [none|cbn [aliasTryCastArm]; unfold aliasTryCastMap; rewrite Hs; reflexivity|right; by apply Forall_nil].
    + eapply (castStandard_first _ [_; _; _; _; _] _ []); [none|cbn [aliasTryCastArm]; unfold aliasTryCastMap; rewrite Hs; reflexivity|right; by apply Forall_nil].
Qed.

(** ** Termination *)

Lemma agreeR_skip {A B} (r r' : A + CoerceErr) (ok ok' : A -> B + CoerceErr) ko ko' :
  agreeR r r' -> (forall a, agreeR (ok a) (ok' a)) -> agreeR ko ko' -> agreeR (skip r ok ko) (skip r' ok' ko').
Proof. intros [<- Hr] Hok Hko. destruct r as [a|e]; [apply Hok|]. by destruct e. Qed.
#[export] Hint Resolve agreeR_skip : fuel.

Section Terminates.
Variables (T : tables) (b : Bundle) (prof : recAliasProfile).

Lemma aliasVariants_fuel : agreeR (aliasVariants b prof) (aliasVariants b prof).
Proof. unfold aliasVariants. fuel. Qed.

Lemma castItems_answers rec ctx items : (forall v c, v ∈ items -> agreeR (rec v c) (rec v c)) -> forall last,
  agreeR (aliasTryCastItems rec ctx last items) (aliasTryCastItems rec ctx last items).
Proof.
  induction items as [|v items IH]; intros H last; cbn [aliasTryCastItems]; [done|].
  apply agreeR_bind; [apply H; set_solver|]. intros [[[av f] idx]|]; [|done]. apply agreeR_bind; [apply IH; set_solver|]. fuel.
Qed.
Lemma castEntries_answers rec ctx fs : (forall f c, f ∈ fs -> agreeR (rec f.2 c) (rec f.2 c)) -> forall m s,
  agreeR (aliasTryCastEntries rec ctx fs m s) (aliasTryCastEntries rec ctx fs m s).
Proof.
  induction fs as [|f fs IH]; intros H m s; cbn [aliasTryCastEntries]; [done|].
  apply agreeR_bind; [apply H; set_solver|]. intros [[[av fl] idx]|]; [|done]. apply IH. set_solver.
Qed.
Lemma castArms_answers arm vs : (forall t, agreeR (arm t) (arm t)) -> forall i,
  agreeR (aliasCastArms arm i vs) (aliasCastArms arm i vs).
Proof.
  intros H. induction vs as [|t vs IH]; intros i; cbn [aliasCastArms]; [done|]. apply agreeR_bind; [apply H|]. fuel.
Qed.
Lemma pickValue_answers cs : agreeR (pickValue cs) (pickValue cs).
Proof. unfold pickValue. fuel. Qed.
Hint Resolve pickValue_answers : fuel.
Lemma castStandard_answers arm vs : (forall t, agreeR (arm t) (arm t)) ->
  agreeR (aliasCastStandard arm vs) (aliasCastStandard arm vs).
Proof. intros H. unfold aliasCastStandard. apply agreeR_bind; [by apply castArms_answers|]. fuel. Qed.
Hint Resolve castStandard_answers : fuel.

Lemma castUnion_answers vs v ctx arm : (forall t, agreeR (arm t) (arm t)) ->
  agreeR (tryCastAliasUnion prof vs v ctx arm) (tryCastAliasUnion prof vs v ctx arm).
Proof.
  intros H. unfold tryCastAliasUnion. destruct (_ && _); [done|]. destruct (unionHint ctx ≫= _) as [[h t]|]; [|fuel]. apply agreeR_bind; [apply H|]. fuel.
Qed.
Lemma castArm_answers array map v t : agreeR array array -> agreeR map map ->
  agreeR (aliasTryCastArm array map v t) (aliasTryCastArm array map v t).
Proof. intros Ha Hm. destruct t; cbn [aliasTryCastArm]; fuel. Qed.

Lemma tryCastAlias_fuel v : forall ctx, agreeR (tryCastAlias b prof v ctx) (tryCastAlias b prof v ctx).
Proof.
  induction v as [| | | |i items IH|i fs IH] using value_induction; intros ctx; cbn [tryCastAlias];
    (destruct (has _ _ _); [done|]; destruct aliasVariants_fuel as [_ Hv]; destruct (aliasVariants b prof) as [vs|e]; [|split; congruence]);
    apply castUnion_answers; intros armT; apply castArm_answers; try done; rewrite Forall_forall in IH.
  - unfold aliasTryCastArray. apply agreeR_bind; [apply castItems_answers; intros; by apply IH|]. fuel.
  - unfold aliasTryCastMap. apply agreeR_bind; [apply castEntries_answers; intros; by apply IH|]. fuel.
Qed.

(** The lenient level: what it asks of the recursive call. *)
Section Level.
Variables rec rec' : value -> coerceCtx -> aliasResult + CoerceErr.

Lemma coerceItems_fuel ctx items : (forall v c, v ∈ items -> agreeR (rec v c) (rec' v c)) -> forall i last,
  agreeR (aliasCoerceItems rec ctx i last items) (aliasCoerceItems rec' ctx i last items).
Proof.
  induction items as [|v items IH]; intros H i last; cbn [aliasCoerceItems]; [done|].
  assert (forall i last, agreeR (aliasCoerceItems rec ctx i last items) (aliasCoerceItems rec' ctx i last items)) as IH' by (apply IH; set_solver).
  apply agreeR_skip; [apply H; set_solver|intros [[av f] idx]|]; fuel.
Qed.
Lemma coerceEntries_fuel ctx fs : (forall f c, f ∈ fs -> agreeR (rec f.2 c) (rec' f.2 c)) -> forall m sk s,
  agreeR (aliasCoerceEntries rec ctx fs m sk s) (aliasCoerceEntries rec' ctx fs m sk s).
Proof.
  induction fs as [|f fs IH]; intros H m sk s; cbn [aliasCoerceEntries]; [done|].
  assert (forall m sk s, agreeR (aliasCoerceEntries rec ctx fs m sk s) (aliasCoerceEntries rec' ctx fs m sk s)) as IH' by (apply IH; set_solver).
  apply agreeR_skip; [apply H; set_solver|intros r|]; fuel.
Qed.

Lemma coerceLeaf_answers p v : agreeR (aliasCoerceLeaf T p v) (aliasCoerceLeaf T p v).
Proof.
  assert (forall m, agreeM m m -> agreeR (let '(f, r) := m (newFlags true) in out <== r ;; av <== rawToAliasScalar p out ;; inl (av, f))
    (let '(f, r) := m (newFlags true) in out <== r ;; av <== rawToAliasScalar p out ;; inl (av, f))) as Hrun.
  { intros m Hm. destruct (Hm (newFlags true)) as [_ Hf]. destruct (m (newFlags true)) as [f r]. simpl in Hf.
    apply agreeR_bind; [done|]. intros out. apply agreeR_bind; [|fuel]. unfold rawToAliasScalar. fuel. }
  unfold aliasCoerceLeaf. destruct p; try (apply Hrun, scalars_fuel); try (apply (Hrun _), (coercePrimitive_fuel T PrimitiveString)); fuel.
Qed.

Lemma coerceArms_fuel arm arm' vs : (forall t, agreeR (arm t) (arm' t)) -> forall i,
  agreeR (aliasCoerceArms arm i vs) (aliasCoerceArms arm' i vs).
Proof.
  intros H. induction vs as [|t vs IH]; intros i; cbn [aliasCoerceArms]; [done|].
  apply agreeR_skip; [apply H|intros [av f]|apply IH]. fuel.
Qed.
Lemma coerceStandard_fuel arm arm' vs v : (forall t, agreeR (arm t) (arm' t)) ->
  agreeR (aliasCoerceStandard prof arm vs v) (aliasCoerceStandard prof arm' vs v).
Proof. intros H. unfold aliasCoerceStandard. apply agreeR_bind; [by apply coerceArms_fuel|]. fuel. Qed.

Lemma coerceAlias_fuel v ctx :
  (has (coerceChain ctx) (aliasPairKey (aliasName prof)) v = false ->
   forall c, has (coerceChain c) (aliasPairKey (aliasName prof)) v = true -> agreeR (rec v c) (rec' v c)) ->
  (has (coerceChain ctx) (aliasPairKey (aliasName prof)) v = false ->
   forall w c, (vsize w < vsize v)%nat -> agreeR (rec w c) (rec' w c)) ->
  agreeR (coerceAlias T b prof rec v ctx) (coerceAlias T b prof rec' v ctx).
Proof.
  intros Hself Hpart. unfold coerceAlias. destruct (has _ _ _) eqn:E; [fuel|]. apply agreeR_bind; [apply aliasVariants_fuel|]. intros vs.
  set (child := enterCoerceKey ctx _ _).
  assert (forall t, agreeR (aliasCoerceArm T rec v child t) (aliasCoerceArm T rec' v child t)) as Harm.
  { intros t. unfold aliasCoerceArm, aliasCoerceArray. pose proof (Hpart eq_refl) as Hp.
    assert (agreeR (rec v (enterScope child)) (rec' v (enterScope child))) as Hs.
    { apply Hself; [done|]. unfold child, enterScope, enterScopeWithHint, enterCoerceKey. cbn [coerceChain]. rewrite has_cons, valueEqual_refl, bool_decide_true; done. }
    destruct t; try solve [fuel]; [apply coerceLeaf_answers|..].
    - destruct v as [| | | |i items|]; try (apply agreeR_skip; [apply Hs|fuel|fuel]).
      apply agreeR_bind; [|fuel]. apply coerceItems_fuel. intros w c Hw. apply Hp. by apply vsize_item.
    - unfold aliasCoerceMap. destruct v as [| | | | |i fs]; try (apply agreeR_err; congruence).
      apply agreeR_bind; [|intros [[m sk] s]; fuel]. apply coerceEntries_fuel. intros f c Hf. apply Hp. by apply vsize_field. }
  unfold coerceAliasUnion. pose proof (coerceStandard_fuel _ _ vs v Harm) as Hst.
  destruct (unionHint child ≫= _) as [[h t]|]; [|exact Hst]. apply agreeR_skip; [apply Harm|intros r; fuel|exact Hst].
Qed.
End Level.

(** Enough fuel: one call when the guard stops the value, else more than its size. *)
Definition enough (n : nat) (v : value) (ctx : coerceCtx) : Prop :=
  if has (coerceChain ctx) (aliasPairKey (aliasName prof)) v then (0 < n)%nat else (vsize v < n)%nat.
Lemma enough_size n v ctx : (vsize v < n)%nat -> enough n v ctx.
Proof. unfold enough. case_match; lia. Qed.

Lemma aliasCoerceValue_fuel n : forall n' v ctx, enough n v ctx -> enough n' v ctx ->
  agreeR (aliasCoerceValue T b prof n v ctx) (aliasCoerceValue T b prof n' v ctx).
Proof.
  induction n as [|n IH]; intros n' v ctx Hn Hn'; [unfold enough in Hn; case_match; lia|].
  destruct n' as [|n']; [unfold enough in Hn'; case_match; lia|]. cbn [aliasCoerceValue].
  apply agreeR_bind; [apply tryCastAlias_fuel|]. intros [w|]; [done|]. pose proof (vsize_pos v) as Hp.
  apply coerceAlias_fuel; intros Hh; unfold enough in Hn, Hn'; rewrite Hh in Hn, Hn'.
  - intros c Hc. apply IH; unfold enough; rewrite Hc; lia.
  - intros w c Hw. apply IH; apply enough_size; lia.
Qed.
End Terminates.
