(* ===== verification/AliasTyping.v ===== *)
(** * AliasTyping: the alias coercion emits values of the alias

    Every answer of the strict and of the lenient coercion is a value of the
    recursive alias; the emitted text is read back; and the coercion as a whole:
    identity on documents of the family, termination, the hint without effect. *)

From Stdlib Require Import Ascii String.
From stdpp Require Import pretty.
From S2P Require Import Prelude GoStrings GoValue Jsonish GoFloat NumberText Unicode MatchString Schema PairGuard Candidate OutputText Gate LeafCoerce TryCast Coerce NumberValid CoerceTyping CoerceFuel AliasCoerce AliasSound.
Open Scope stdpp_scope.

(** ** Maps *)

Lemma put_keys {A} key (v : A) es : (put key v es).*1 = if bool_decide (key ∈ es.*1) then es.*1 else es.*1 ++ [key].
Proof.
  induction es as [|[k w] es IH]; [done|]. cbn [put]. destruct (k =s key) eqn:E.
  - apply String.eqb_eq in E as ->. rewrite bool_decide_true by set_solver. done.
  - apply String.eqb_neq in E. rewrite !fmap_cons, IH. cbn [fst]. repeat case_bool_decide; set_solver.
Qed.
Lemma put_nodup {A} key (v : A) es : NoDup es.*1 -> NoDup (put key v es).*1.
Proof.
  intros H. rewrite put_keys. case_bool_decide; [done|]. apply NoDup_app. split_and!; [done|set_solver|apply NoDup_singleton].
Qed.
Lemma put_forall {A} (P : A -> Prop) key v es : P v -> Forall (fun e => P e.2) es -> Forall (fun e => P e.2) (put key v es).
Proof. intros Hv. induction 1 as [|[k w] es Hw Hes IH]; cbn [put]; [by repeat constructor|]. case_match; by constructor. Qed.

Lemma sortKeys_perm {A} (l : list (string * A)) : Permutation (sortKeys l) l.
Proof.
  assert (forall x (l : list (string * A)), Permutation (insertKey x l) (x :: l)) as Hins.
  { intros x k. induction k as [|y k IH]; simpl; [done|]. case_match; [done|]. rewrite IH. apply Permutation_swap. }
  induction l as [|x l IH]; simpl; [done|]. by rewrite Hins, IH.
Qed.

(** ** Public values *)

Section Typed.
Variables (T : tables) (b : Bundle) (prof : recAliasProfile) (vs : list type) (m : TypeMeta) (def : RecursiveAliasDef).
Hypothesis found : FindRecursiveAlias b (aliasName prof) = Some def.
Hypothesis target : ra_Target def = TypeUnion m (Some (vs, prof_nullable prof)).

(** The tree is encoded as a value of the alias. *)
Definition public (av : aliasValue) : Prop :=
  exists v, publicValue av = Some v /\ (forall m', hasType b (TypeRecursiveAlias m' (aliasName prof) NonStreaming) v) /\ jsonNumbers v.

Lemma public_arm av v t : publicValue av = Some v -> t ∈ vs -> hasType b t v -> jsonNumbers v -> public av.
Proof.
  intros Hp Ht Hv Hn. exists v. split_and!; [done| |done]. intros m'. eapply type_alias; [exact found|]. rewrite target. by eapply type_arm.
Qed.

Lemma public_list avs : Forall public avs ->
  exists xs, mapM publicValue avs = Some xs
    /\ Forall (fun x => forall m', hasType b (TypeRecursiveAlias m' (aliasName prof) NonStreaming) x) xs /\ Forall jsonNumbers xs.
Proof.
  induction 1 as [|av avs (v&Hp&Ht&Hn) _ (xs&Hxs&Hts&Hns)]; [by exists []|].
  exists (v :: xs). cbn. rewrite Hp. cbn. rewrite Hxs. split_and!; [done|by constructor|by constructor].
Qed.
Lemma public_entries es : Forall (fun e => public e.2) es ->
  exists fs, mapM (fun e : string * aliasValue => pair e.1 <$> publicValue e.2) es = Some fs /\ fs.*1 = es.*1
    /\ Forall (fun f => forall m', hasType b (TypeRecursiveAlias m' (aliasName prof) NonStreaming) f.2) fs
    /\ Forall (fun f => jsonNumbers f.2) fs.
Proof.
  induction 1 as [|[k av] es (v&Hp&Ht&Hn) _ (fs&Hfs&Hk&Hts&Hns)]; [by exists []|]. simpl in Hp.
  exists ((k, v) :: fs). cbn. rewrite Hp. cbn. rewrite Hfs. cbn. rewrite Hk. split_and!; [done|done|by constructor|by constructor].
Qed.

(** ** Arms *)

Hypothesis arms : familyArms prof vs.

(** The values an arm makes. *)
Lemma public_int z t p : t ∈ vs -> t = TypePrimitive p PrimitiveInt -> inI64 z -> public (akInt z).
Proof. intros Ht -> Hz. eapply public_arm; [done|exact Ht|by constructor|by constructor; apply pretty_int_json]. Qed.
Lemma public_float f t p : t ∈ vs -> t = TypePrimitive p PrimitiveFloat -> isFiniteFloat f = true -> public (akFloat f).
Proof.
  intros Ht -> Hf. unfold isFiniteFloat in Hf. apply negb_true_iff in Hf.
  assert (floatRaw f = Some (jsonFloatFormat f)) as Hr by (unfold floatRaw; by rewrite Hf).
  pose proof (floatRaw_json _ _ Hr). eapply public_arm; [cbn; by rewrite Hr|exact Ht|by constructor|by constructor].
Qed.
Lemma public_string s t p : t ∈ vs -> t = TypePrimitive p PrimitiveString -> public (akString s).
Proof. intros Ht ->. eapply public_arm; [done|exact Ht|constructor|constructor]. Qed.
Lemma public_bool x t p : t ∈ vs -> t = TypePrimitive p PrimitiveBool -> public (akBool x).
Proof. intros Ht ->. eapply public_arm; [done|exact Ht|constructor|constructor]. Qed.
Lemma public_null : prof_nullable prof = true -> public akNull.
Proof.
  intros Hn. exists (valNull false). split_and!; [done| |constructor]. intros m'. eapply type_alias; [exact found|]. rewrite target, Hn. constructor.
Qed.
Lemma public_array avs t p e : t ∈ vs -> t = TypeList p e -> Forall public avs -> public (akArray avs).
Proof.
  intros Ht -> (xs&Hxs&Hts&Hns)%public_list. eapply public_arm; [cbn; by rewrite Hxs|exact Ht| |by constructor].
  assert (exists ml, e = Some (TypeRecursiveAlias ml (aliasName prof) NonStreaming)) as [ml ->].
  { destruct arms; rewrite !elem_of_cons in Ht; destruct_or! Ht; simplify_eq; try (by eexists); by apply elem_of_nil in Ht. }
  constructor. eapply Forall_impl; [exact Hts|]. intros x Hx. apply Hx.
Qed.
Lemma public_map es t p k w : t ∈ vs -> t = TypeMap p k w -> NoDup es.*1 -> Forall (fun e => public e.2) es -> public (akMap es).
Proof.
  intros Ht -> Hnd (fs&Hfs&Hk&Hts&Hns)%public_entries.
  assert (exists mk mv, k = Some (TypePrimitive mk PrimitiveString) /\ w = Some (TypeRecursiveAlias mv (aliasName prof) NonStreaming)) as (mk&mv&->&->).
  { destruct arms; rewrite !elem_of_cons in Ht; destruct_or! Ht; simplify_eq; try (by do 2 eexists); by apply elem_of_nil in Ht. }
  eapply public_arm; [cbn; by rewrite Hfs|exact Ht| |].
  - constructor; rewrite sortKeys_perm; [by rewrite Hk|]. eapply Forall_impl; [exact Hts|]. intros x Hx. apply Hx.
  - constructor. by rewrite sortKeys_perm.
Qed.

(** ** The strict cast *)

Lemma tryCastLeaf_public p t q v av : t ∈ vs -> t = TypePrimitive q p -> aliasTryCastLeaf p v = Some av -> public av.
Proof.
  intros Ht Hq. unfold aliasTryCastLeaf. destruct p, v as [|i x|i serde tok|i s| |]; try done.
  - intros [= <-]. by eapply public_string.
  - destruct serde; [done|]. destruct (parseI64Rust tok) eqn:E; [|done]. intros [= <-]. eapply public_int; [done|done|by eapply parseI64Rust_range].
  - destruct (parseF64Rust tok) as [f|]; [|done]. cbn. destruct (isFiniteFloat f) eqn:E; [|done]. intros [= <-]. by eapply public_float.
  - intros [= <-]. by eapply public_bool.
Qed.

Definition castPublic (r : option aliasResult + CoerceErr) : Prop := gives r (fun o => forall w, o = Some w -> public w.1.1).
Definition armPublic (r : option (aliasValue * coerceFlags) + CoerceErr) : Prop := gives r (fun o => forall w, o = Some w -> public w.1).

Lemma castItems_public rec ctx items : (forall v c, v ∈ items -> castPublic (rec v c)) -> forall last,
  gives (aliasTryCastItems rec ctx last items) (fun o => forall w, o = Some w -> Forall public w.1).
Proof.
  induction items as [|v items IH]; intros H last; cbn [aliasTryCastItems]; [apply gives_ok; by intros w [= <-]|].
  eapply gives_bind; [apply H; set_solver|]. intros [[[av f] idx]|] Hr; [|by apply gives_ok].
  eapply gives_bind; [apply IH; set_solver|]. intros [[avs s]|] Hrest; apply gives_ok; [|done]. intros w [= <-].
  constructor; [exact (Hr _ eq_refl)|exact (Hrest _ eq_refl)].
Qed.
Lemma castEntries_public rec ctx fs : (forall f c, f ∈ fs -> castPublic (rec f.2 c)) -> forall es s,
  NoDup es.*1 -> Forall (fun e => public e.2) es ->
  gives (aliasTryCastEntries rec ctx fs es s) (fun o => forall w, o = Some w -> NoDup w.1.*1 /\ Forall (fun e => public e.2) w.1).
Proof.
  induction fs as [|f fs IH]; intros H es s Hn He; cbn [aliasTryCastEntries]; [apply gives_ok; by intros w [= <-]|].
  eapply gives_bind; [apply H; set_solver|]. intros [[[av fl] idx]|] Hr; [|by apply gives_ok].
  apply IH; [set_solver|by apply put_nodup|apply put_forall; [exact (Hr _ eq_refl)|done]].
Qed.

Lemma castArms_public arm ts : ts ⊆ vs -> (forall t, t ∈ vs -> armPublic (arm t)) -> forall i,
  gives (aliasCastArms arm i ts) (fun r => match r with inl w => public w.1.1 | inr cs => Forall (fun c => public c.1) cs end).
Proof.
  intros Hts H. induction ts as [|t ts IH]; intros i; cbn [aliasCastArms]; [by apply gives_ok|].
  specialize (IH ltac:(set_solver)). eapply gives_bind; [apply H; set_solver|]. intros [[av f]|] Hr; [|apply IH].
  specialize (Hr _ eq_refl). simpl in Hr. destruct (_ =? 0)%Z; [by apply gives_ok|].
  eapply gives_bind; [apply IH|]. intros [w|cs] Hc; apply gives_ok; [done|by constructor].
Qed.
Lemma castStandard_public arm : (forall t, t ∈ vs -> armPublic (arm t)) -> castPublic (aliasCastStandard arm vs).
Proof.
  intros H. eapply gives_bind; [by apply castArms_public|]. intros [w|cs] Hc; [apply gives_ok; by intros ? [= <-]|].
  assert (gives (w <== pickValue cs ;; inl (Some (w.1, aliasCandFlags w.2, Some (originIndex w.2))))
    (fun o => forall w, o = Some w -> public w.1.1)) as Hpick.
  { intros o Ho w ->. unfold pickValue in Ho. destruct (pickCandidate true cs.*2) as [[j c]|]; [|done]. cbn [thenR fst] in Ho.
    destruct (cs !! j) as [[av' c']|] eqn:E; [|done]. simplify_eq/=. rewrite Forall_forall in Hc. apply list_elem_of_lookup_2 in E. exact (Hc _ E). }
  destruct cs as [|[av c] [|]]; [by apply gives_ok| |exact Hpick]. apply gives_ok. intros w [= <-]. by apply Forall_cons in Hc as [Hc _].
Qed.

Lemma castUnion_public v ctx arm : (forall t, t ∈ vs -> armPublic (arm t)) -> castPublic (tryCastAliasUnion prof vs v ctx arm).
Proof.
  intros H. unfold tryCastAliasUnion. destruct (prof_nullable prof && _) eqn:E.
  { apply andb_true_iff in E as [E _]. apply gives_ok. intros w [= <-]. by apply public_null. }
  destruct (unionHint ctx ≫= _) as [[h t]|] eqn:Eh; [|by apply castStandard_public].
  assert (t ∈ vs) as Ht.
  { apply bind_Some in Eh as (h'&_&Eh). apply bind_Some in Eh as (t'&Et&[= -> ->]). by eapply list_elem_of_lookup_2. }
  eapply gives_bind; [by apply H|]. intros [[av f]|] Hr; [|by apply castStandard_public].
  destruct (_ =? 0)%Z; [|by apply castStandard_public]. apply gives_ok. intros w [= <-]. exact (Hr _ eq_refl).
Qed.

Hypothesis variants : aliasVariants b prof = inl vs.

Lemma castArm_public array map v t : t ∈ vs -> (forall p e, t = TypeList p e -> armPublic array) ->
  (forall p k w, t = TypeMap p k w -> armPublic map) -> armPublic (aliasTryCastArm array map v t).
Proof.
  intros Ht Ha Hm. destruct t as [|q p| | | |q e|q k w| | | | |] eqn:E; cbn [aliasTryCastArm]; try done; [|by eapply Ha|by eapply Hm].
  apply gives_ok. intros w. destruct (aliasTryCastLeaf p v) as [av|] eqn:El; [|done]. intros [= <-]. by eapply tryCastLeaf_public.
Qed.

Lemma tryCastAlias_public v : forall ctx, castPublic (tryCastAlias b prof v ctx).
Proof.
  assert (armPublic (inl None)) as Hnone by (by intros o [= <-]).
  induction v as [| | | |i items IH|i fs IH] using value_induction; intros ctx; cbn [tryCastAlias]; rewrite variants;
    (destruct (has _ _ _); [by apply gives_ok|]); apply castUnion_public; intros armT Ht; apply castArm_public; try done.
  - intros p e ->. rewrite Forall_forall in IH. eapply gives_bind; [apply castItems_public; intros; by apply IH|].
    intros [[avs s]|] Hr; apply gives_ok; [|done]. intros w [= <-]. eapply public_array; [done|done|exact (Hr _ eq_refl)].
  - intros p k w ->. rewrite Forall_forall in IH. eapply gives_bind; [apply castEntries_public; [intros; by apply IH|constructor|constructor]|].
    intros [[es s]|] Hr; apply gives_ok; [|done]. intros x [= <-]. destruct (Hr _ eq_refl). by eapply public_map.
Qed.

(** ** The lenient coercion *)

Lemma coerceLeaf_public p t q v : t ∈ vs -> t = TypePrimitive q p -> gives (aliasCoerceLeaf T p v) (fun w => public w.1).
Proof.
  intros Ht Hq. assert (forall mm, gives (let '(f, r) := mm (newFlags true) : coerceFlags * (string + CoerceErr) in
    out <== r ;; av <== rawToAliasScalar p out ;; inl (av, f)) (fun w => public w.1)) as Hrun.
  { intros mm. destruct (mm (newFlags true)) as [f [out|]]; [|done]. cbn [thenR]. eapply (gives_bind _ _ public); [|intros av Hav; by apply gives_ok].
    intros av. unfold rawToAliasScalar. destruct p; try done.
    - repeat case_match; try done. intros [= <-]. by eapply public_string.
    - destruct (parseI64Rust out) eqn:E; [|done]. intros [= <-]. eapply public_int; [done|done|by eapply parseI64Rust_range].
    - destruct (parseF64Rust out) as [x|]; [|done]. destruct (isFiniteFloat x) eqn:E; [|done]. intros [= <-]. by eapply public_float.
    - intros [= <-]. by eapply public_bool. }
  unfold aliasCoerceLeaf. destruct p; try done; apply Hrun.
Qed.

Lemma gives_skip {A B} (r : A + CoerceErr) (ok : A -> B + CoerceErr) ko P Q :
  gives r P -> (forall a, P a -> gives (ok a) Q) -> gives ko Q -> gives (skip r ok ko) Q.
Proof. intros Hr Hok Hko. destruct r as [a|e]; [by apply Hok, Hr|]. by destruct e. Qed.

Section Level.
Variable rec : value -> coerceCtx -> aliasResult + CoerceErr.
Hypothesis rec_public : forall v c, gives (rec v c) (fun w => public w.1.1).

Lemma coerceItems_public ctx items : forall i last,
  gives (aliasCoerceItems rec ctx i last items) (fun r => Forall public r.1.1).
Proof.
  induction items as [|v items IH]; intros i last; cbn [aliasCoerceItems]; [by apply gives_ok|].
  eapply gives_skip; [apply rec_public|intros [[av f] idx] Hav|]; (eapply gives_bind; [apply IH|]; intros rest Hr; apply gives_ok); [by constructor|done].
Qed.
Lemma coerceEntries_public ctx fs : forall es sk s, NoDup es.*1 -> Forall (fun e => public e.2) es ->
  gives (aliasCoerceEntries rec ctx fs es sk s) (fun r => NoDup r.1.1.*1 /\ Forall (fun e => public e.2) r.1.1).
Proof.
  induction fs as [|f fs IH]; intros es sk s Hn He; cbn [aliasCoerceEntries]; [by apply gives_ok|].
  eapply gives_skip; [apply rec_public|intros r Hr; apply IH; [by apply put_nodup|by apply put_forall]|by apply IH].
Qed.
Lemma coerceArm_public v ctx t : t ∈ vs -> gives (aliasCoerceArm T rec v ctx t) (fun w => public w.1).
Proof.
  intros Ht. destruct t as [|q p| | | |q e|q k w| | | | |] eqn:E; cbn [aliasCoerceArm]; try done; [by eapply coerceLeaf_public|..].
  - assert (forall single avs s errors, Forall public avs -> public (aliasList single avs s errors).1) as Hlist.
    { intros. by eapply public_array. }
    unfold aliasCoerceArray. destruct v as [| | | |i items|];
      try (eapply gives_skip; [apply rec_public|intros r Hr; apply gives_ok, Hlist; by constructor|apply gives_ok, Hlist; constructor]).
    eapply gives_bind; [apply coerceItems_public|]. intros r Hr. apply gives_ok. by apply Hlist.
  - unfold aliasCoerceMap. destruct v as [| | | | |i fs]; try done.
    eapply gives_bind; [apply coerceEntries_public; constructor|]. intros [[es sk] s] [Hn He]. apply gives_ok. by eapply public_map.
Qed.

Lemma coerceArms_public arm ts : ts ⊆ vs -> (forall t, t ∈ vs -> gives (arm t) (fun w => public w.1)) -> forall i,
  gives (aliasCoerceArms arm i ts) (fun r => match r with inl w => public w.1.1 | inr cs => Forall (fun c => public c.1.1) cs end).
Proof.
  intros Hts H. induction ts as [|t ts IH]; intros i; cbn [aliasCoerceArms]; [by apply gives_ok|].
  specialize (IH ltac:(set_solver)). eapply gives_skip; [apply H; set_solver|intros [av f] Hav|apply IH].
  destruct (uncertain f); [apply IH|]. destruct (_ =? 0)%Z; [by apply gives_ok|].
  eapply gives_bind; [apply IH|]. intros [w|cs] Hc; apply gives_ok; [done|by constructor].
Qed.
Lemma coerceStandard_public arm v : (forall t, t ∈ vs -> gives (arm t) (fun w => public w.1)) ->
  gives (aliasCoerceStandard prof arm vs v) (fun w => public w.1.1).
Proof.
  intros H. eapply gives_bind; [by apply coerceArms_public|]. intros [w|cs] Hc; [by apply gives_ok|]. cbv zeta.
  assert (forall cs : list (aliasValue * option nat * candidate), Forall (fun c => public c.1.1) cs ->
    gives (match cs with
           | [] => inr Unsupported
           | _ => iw <== pickCandidate true cs.*2 ;;
                  match cs !! iw.1 with Some (av, i, c) => inl (av, aliasCandFlags c, i) | None => inr Hard end
           end) (fun w => public w.1.1)) as Hfin.
  { intros l Hl w. destruct l as [|x l]; [done|]. destruct (pickCandidate true (x :: l).*2) as [[j c]|]; [|done]. cbn [thenR fst].
    destruct ((x :: l) !! j) as [[[av i] c']|] eqn:E; [|done]. intros [= <-]. rewrite Forall_forall in Hl. apply list_elem_of_lookup_2 in E. exact (Hl _ E). }
  pose proof public_null as Hnull. clear H target. destruct (prof_nullable prof); [|by apply Hfin].
  destruct (_ =? 0)%Z; [apply gives_ok; by apply Hnull|]. apply Hfin, Forall_app. split; [done|]. apply Forall_singleton. by apply Hnull.
Qed.

Lemma coerceAlias_public v ctx : gives (coerceAlias T b prof rec v ctx) (fun w => public w.1.1).
Proof.
  unfold coerceAlias. destruct (has _ _ _); [done|]. rewrite variants. cbn [thenR]. set (child := enterCoerceKey ctx _ _).
  assert (forall t, t ∈ vs -> gives (aliasCoerceArm T rec v child t) (fun w => public w.1)) as Harm by (intros; by apply coerceArm_public).
  unfold coerceAliasUnion. change (unionHint child) with (@None nat). cbn. by apply coerceStandard_public.
Qed.
End Level.

Lemma aliasCoerceValue_public n : forall v ctx, gives (aliasCoerceValue T b prof n v ctx) (fun w => public w.1.1).
Proof.
  induction n as [|n IH]; intros v ctx; [done|]. cbn [aliasCoerceValue].
  eapply gives_bind; [apply tryCastAlias_public|]. intros [w|] Hw; [apply gives_ok; by apply Hw|]. by apply coerceAlias_public.
Qed.
End Typed.

(** ** The alias arm of the coercer *)

Lemma coerceRecursiveAlias_answers T b v ctx : agreeM (coerceRecursiveAlias T b v ctx) (coerceRecursiveAlias T b v ctx).
Proof.
  unfold coerceRecursiveAlias. destruct (admittedServedRecursiveAliasProfile b) as [prof|]; [|fuel].
  apply agreeM_bind; [|intros [[av af] idx]; unfold foldChild; fuel].
  apply agreeM_lift, aliasCoerceValue_fuel; apply enough_size; lia.
Qed.

(** What the alias arm emits is the encoding of a value of the recursive alias, the
    target of the bundle: numbers in JSON's syntax, integers in 64 bits, floats and
    null only in the family that has them, objects without repeated keys; the strict
    decoder reads it back.  The arm answers on every value, with fuel above its
    size and the same whatever the fuel. *)
Theorem alias_typed T b prof input ctx f : admittedServedRecursiveAliasProfile b = Some prof ->
  (forall fuel, (vsize input < fuel)%nat ->
     aliasCoerceValue T b prof fuel input ctx = aliasCoerceValue T b prof (S (vsize input)) input ctx
     /\ aliasCoerceValue T b prof fuel input ctx <> inr OutOfFuel)
  /\ match snd (coerceRecursiveAlias T b input ctx f) with
     | inl out => exists v, hasType b (Target b) v /\ out = compact true v /\ strictDecode numModeLegacy out = Some (readBack v)
     | inr e => e <> OutOfFuel
     end.
Proof.
  intros Hp. split.
  { intros fuel Hf. apply aliasCoerceValue_fuel; apply enough_size; lia. }
  destruct (coerceRecursiveAlias_answers T b input ctx f) as [_ Hans].
  unfold coerceRecursiveAlias in *. rewrite Hp in *. unfold bindM, lift in *.
  destruct (aliasCoerceValue T b prof (S (vsize input)) input ctx) as [[[av af] idx]|e] eqn:E; [|simpl in *; congruence].
  destruct (aliasHasNegativeZero av); [done|]. cbn [modify foldChild setKind] in *.
  assert (is_Some (match aliasVariants b prof with inl vs => Some vs | inr _ => None end)) as [vs Hvs].
  { destruct (aliasVariants b prof) as [vs|e] eqn:Ev; [by exists vs|]. exfalso. cbn [aliasCoerceValue] in E.
    destruct (tryCastAlias b prof input ctx) as [[w|]|e'] eqn:Ec; cbn [thenR] in E.
    - destruct input; cbn [tryCastAlias] in Ec; rewrite Ev in Ec; by destruct (has _ _ _).
    - unfold coerceAlias in E. rewrite Ev in E. by destruct (has _ _ _).
    - done. }
  destruct (aliasVariants b prof) as [vs'|] eqn:Ev; [|done]. injection Hvs as ->.
  destruct (admitted_arms b prof vs Hp Ev) as (Harms&m&def&Hfound&Htarget&mt&Ht).
  destruct (aliasCoerceValue_public T b prof vs m def Hfound Htarget Harms Ev _ _ _ _ E) as (v&Hv&Htv&Hn). simpl in Hv.
  unfold marshalPublic in *. rewrite Hv in *. simpl. exists v. rewrite Ht. split_and!; [apply Htv|done|by apply strictDecode_compact].
Qed.

(** The alias coercion is the identity on its family: a value that is a document of
    the alias (integers that fit 64 bits, strings, booleans, arrays and objects
    without repeated keys; for [JsonValue] also other finite numbers and null) is
    returned as the tree it is, whatever the matcher's tables. *)
Theorem alias_identity T b prof v av fuel : admittedServedRecursiveAliasProfile b = Some prof ->
  is_Some (FindRecursiveAlias b (aliasName prof)) -> document (family prof) v av ->
  exists f idx, aliasCoerceValue T b prof (S fuel) v emptyCtx = inl (av, f, idx).
Proof.
  intros Hp Hf Hd. assert (exists vs, aliasVariants b prof = inl vs) as [vs Hv].
  { destruct Hf as [def Hdef]. unfold aliasVariants. rewrite Hdef.
    pose proof (admitted_def b prof def Hp Hdef) as Hshape.
    unfold admittedServedRecursiveAliasProfile, admittedRecursiveAliasProfile, admittedJsonValueRecursiveAliasProfile in Hp.
    rewrite Hshape in Hp. cbn in Hp. destruct (ra_Target def) as [| | | | | | | | | |m [[vs n]|]|]; try by rewrite ?andb_false_r in Hp. by exists vs. }
  destruct (admitted_arms b prof vs Hp Hv) as (Harms&_). cbn [aliasCoerceValue].
  destruct (document_casts b prof vs v av Hv Harms Hd emptyCtx) as (f&idx&->); [constructor|]. by exists f, idx.
Qed.

(** The hint of an array sibling has no effect: entering the alias resets it before
    any arm is tried. *)
Lemma alias_hint_dead T b prof fuel v ctx h :
  aliasCoerceValue T b prof fuel v (enterScopeWithHint ctx h) = aliasCoerceValue T b prof fuel v ctx.
Proof. destruct fuel as [|n]; [done|]. by destruct v. Qed.

(** ** Concrete aliases *)

Definition jsonAlias : type := TypeRecursiveAlias noMeta recAliasJSONName NonStreaming.
Definition jsonBundle : Bundle :=
  fst (RebuildIndexes (mkBundle jsonAlias [] [] [] [mkAliasDef recAliasJSONName
    (union [int; str; TypePrimitive noMeta PrimitiveBool; listOf jsonAlias; TypeMap noMeta (Some str) (Some jsonAlias)])] ∅ ∅ ∅)).
Definition jsonProfile : recAliasProfile := mkProfile recAliasJSONName aliasFamilyJSON false.
Definition jsonInput : value :=
  valObject false [("b", valArray false [valNumber false false "1"; valString false "<x>"]); ("a", valBool false true)].

(** Keys are sorted and HTML characters escaped; null becomes the empty list. *)
Example alias_text :
  snd (coerceRecursiveAlias asciiTables jsonBundle jsonInput emptyCtx (newFlags false)) = inl (compact true (valObject false
    [("a", valBool false true); ("b", valArray false [valNumber false false "1"; valString false "<x>"])]))
  /\ snd (coerceRecursiveAlias asciiTables jsonBundle (valNull false) emptyCtx (newFlags false)) = inl "[]".
Proof. split; vm_compute; reflexivity. Qed.

Lemma alias_typed_witness :
  match snd (coerceRecursiveAlias asciiTables jsonBundle jsonInput emptyCtx (newFlags false)) with
  | inl out => exists v, hasType jsonBundle (Target jsonBundle) v /\ out = compact true v /\ strictDecode numModeLegacy out = Some (readBack v)
  | inr e => e <> OutOfFuel
  end.
Proof. apply (alias_typed asciiTables jsonBundle jsonProfile jsonInput emptyCtx (newFlags false)). reflexivity. Defined.

Lemma alias_identity_witness :
  exists f idx, aliasCoerceValue asciiTables jsonBundle jsonProfile 1 jsonInput emptyCtx
    = inl (akMap [("b", akArray [akInt 1; akString "<x>"]); ("a", akBool true)], f, idx).
Proof.
  apply (alias_identity asciiTables jsonBundle jsonProfile jsonInput _ 0).
  - reflexivity.
  - vm_compute. by eexists.
  - constructor; [apply (bool_decide_unpack _); vm_compute; exact I|].
    repeat first [reflexivity | constructor].
Defined.
