(* ===== verification/OrderedMap.v ===== *)
(** * OrderedMap: maps that remember insertion order ([bamlutils/orderedmap.go])

    A list of keys beside a hash map of values.  Every operation keeps the two in
    step, and the map is observably an association list with distinct keys. *)

From Stdlib Require Import Ascii String.
From S2P Require Import Prelude.
Open Scope stdpp_scope.

(** [ErrOrderedMapDuplicateKey] and [ErrOrderedMapMissingKey], with the key. *)
Inductive OrderedMapErr := DuplicateKey (key : string) | MissingKey (key : string).

Record OrderedMap (V : Type) := mkOrdered { om_keys : list string; om_vals : gmap string V }.
Arguments mkOrdered {V} _ _.
Arguments om_keys {V} _.
Arguments om_vals {V} _.

Section Operations.
Context {V : Type}.
Implicit Types (m : OrderedMap V) (key : string) (v : V).

Definition zeroMap : OrderedMap V := mkOrdered [] ∅.

(** [Get], [Has], [Len], [Keys], [Entries] and [IsZero]. *)
Definition Get m key : option V := om_vals m !! key.
Definition Has m key : bool := bool_decide (is_Some (om_vals m !! key)).
Definition Len m : nat := length (om_keys m).
Definition Keys m : list string := om_keys m.
Definition Entries m : list (string * option V) := (fun k => (k, om_vals m !! k)) <$> om_keys m.
Definition IsZero m : bool := bool_decide (Len m = 0%nat).

(** [Set], [SetFront], [Replace], [Delete] and [Clear]. *)
Definition Set_ m key v : OrderedMap V * option OrderedMapErr :=
  if Has m key then (m, Some (DuplicateKey key)) else (mkOrdered (om_keys m ++ [key]) (<[key := v]> (om_vals m)), None).
Definition SetFront m key v : OrderedMap V * option OrderedMapErr :=
  if Has m key then (m, Some (DuplicateKey key)) else (mkOrdered (key :: om_keys m) (<[key := v]> (om_vals m)), None).
Definition Replace m key v : OrderedMap V * option OrderedMapErr :=
  if Has m key then (mkOrdered (om_keys m) (<[key := v]> (om_vals m)), None) else (m, Some (MissingKey key)).
Fixpoint removeFirst key (ks : list string) : list string :=
  match ks with [] => [] | k :: ks => if bool_decide (k = key) then ks else k :: removeFirst key ks end.
Definition Delete m key : OrderedMap V * bool :=
  if Has m key then (mkOrdered (removeFirst key (om_keys m)) (delete key (om_vals m)), true) else (m, false).
Definition Clear m : OrderedMap V := zeroMap.

(** [Clone]. *)
Definition Clone m : OrderedMap V := if IsZero m then zeroMap else m.

(** [NewOrderedMap]: the first duplicate key fails and the map is dropped. *)
Fixpoint setAll m (entries : list (string * V)) : OrderedMap V * option OrderedMapErr :=
  match entries with
  | [] => (m, None)
  | (k, v) :: rest =>
      match Set_ m k v with
      | (m, None) => setAll m rest
      | (_, Some e) => (zeroMap, Some e)
      end
  end.
Definition NewOrderedMap (entries : list (string * V)) : OrderedMap V * option OrderedMapErr := setAll zeroMap entries.

(** [Range]: [fn] is called in order until it asks to stop; [A] is what the calls
    change. *)
Definition Range {A} m (fn : A -> string -> option V -> A * bool) (a : A) : A :=
  (fix go (ks : list string) (a : A) : A :=
     match ks with
     | [] => a
     | k :: ks => let '(a, more) := fn a k (om_vals m !! k) in if more then go ks a else a
     end) (om_keys m) a.
End Operations.

(** ** The abstract map: an association list *)

Section Abstract.
Context {V : Type}.

Inductive op := OpSet (key : string) (v : V) | OpSetFront (key : string) (v : V) | OpReplace (key : string) (v : V)
  | OpDelete (key : string) | OpClear.
(** What the caller of an operation sees. *)
Inductive outcome := Done | Failed (e : OrderedMapErr) | Deleted (present : bool).

Definition ofErr (e : option OrderedMapErr) : outcome := match e with None => Done | Some e => Failed e end.
Definition run (o : op) (m : OrderedMap V) : OrderedMap V * outcome :=
  match o with
  | OpSet k v => let '(m, e) := Set_ m k v in (m, ofErr e)
  | OpSetFront k v => let '(m, e) := SetFront m k v in (m, ofErr e)
  | OpReplace k v => let '(m, e) := Replace m k v in (m, ofErr e)
  | OpDelete k => let '(m, x) := Delete m k in (m, Deleted x)
  | OpClear => (Clear m, Done)
  end.

(** The same on an association list. *)
Definition mem (key : string) (l : list (string * V)) : bool := bool_decide (key ∈ l.*1).
Definition update (key : string) (v : V) (l : list (string * V)) : list (string * V) :=
  (fun e => if bool_decide (e.1 = key) then (e.1, v) else e) <$> l.
Definition abstractRun (o : op) (l : list (string * V)) : list (string * V) * outcome :=
  match o with
  | OpSet k v => if mem k l then (l, Failed (DuplicateKey k)) else (l ++ [(k, v)], Done)
  | OpSetFront k v => if mem k l then (l, Failed (DuplicateKey k)) else ((k, v) :: l, Done)
  | OpReplace k v => if mem k l then (update k v l, Done) else (l, Failed (MissingKey k))
  | OpDelete k => if mem k l then (filter (fun e => e.1 <> k) l, Deleted true) else (l, Deleted false)
  | OpClear => ([], Done)
  end.
Fixpoint runs {S} (step : op -> S -> S * outcome) (ops : list op) (s : S) : S * list outcome :=
  match ops with
  | [] => (s, [])
  | o :: ops => let '(s, x) := step o s in let '(s, xs) := runs step ops s in (s, x :: xs)
  end.

(** The map holds exactly the entries of the list, in its order. *)
Record holds (m : OrderedMap V) (l : list (string * V)) : Prop := {
  holds_keys : om_keys m = l.*1;
  holds_nodup : NoDup l.*1;
  holds_vals : om_vals m = list_to_map l
}.

Lemma holds_get m l key : holds m l -> Get m key = (list_to_map l : gmap string V) !! key.
Proof. intros [_ _ H]. unfold Get. by rewrite H. Qed.

Lemma holds_has m l key : holds m l -> Has m key = mem key l.
Proof.
  intros [_ Hn Hv]. unfold Has, mem. rewrite Hv. apply bool_decide_ext. rewrite <- not_eq_None_Some, <- not_elem_of_list_to_map.
  split; [intros H; destruct (decide (key ∈ l.*1)); [done|tauto]|auto].
Qed.

Lemma removeFirst_filter key (l : list (string * V)) : NoDup l.*1 ->
  removeFirst key l.*1 = (filter (fun e => e.1 <> key) l).*1.
Proof.
  induction l as [|[k v] l IH]; [done|]. cbn [fmap list_fmap fst]. intros [Hk Hn]%NoDup_cons. cbn [removeFirst].
  rewrite filter_cons. case_bool_decide as E; subst.
  - rewrite decide_False by (simpl; tauto). clear IH. induction l as [|[k' v'] l IH]; [done|]. rewrite filter_cons.
    cbn [fmap list_fmap fst] in *. apply NoDup_cons in Hn as [_ Hn].
    rewrite decide_True by (simpl; set_solver). cbn [fmap list_fmap fst]. rewrite <- IH; set_solver.
  - rewrite decide_True by done. cbn [fmap list_fmap fst]. by rewrite IH.
Qed.

Lemma filter_vals key (l : list (string * V)) : list_to_map (M := gmap string V) (filter (fun e => e.1 <> key) l) = delete key (list_to_map l).
Proof.
  induction l as [|[k v] l IH]; [simpl; by rewrite delete_empty|]. rewrite filter_cons. case_decide as E; simpl in *.
  - rewrite IH. by rewrite delete_insert_ne.
  - subst k. rewrite IH. by rewrite delete_insert_eq.
Qed.

Lemma update_keys key v (l : list (string * V)) : (update key v l).*1 = l.*1.
Proof. induction l as [|[k w] l IH]; [done|]. cbn. rewrite <- IH. by case_bool_decide. Qed.
Lemma update_vals key v (l : list (string * V)) : key ∈ l.*1 -> NoDup l.*1 ->
  list_to_map (M := gmap string V) (update key v l) = <[key := v]> (list_to_map l).
Proof.
  induction l as [|[k w] l IH]; [set_solver|]. cbn [fmap list_fmap fst]. intros Hk [Hn Hl]%NoDup_cons. unfold update. cbn [fmap list_fmap].
  fold (update key v l). cbn [fst]. case_bool_decide as E; subst; simpl.
  - rewrite insert_insert_eq. f_equal. clear IH Hk Hl. induction l as [|[k' w'] l IH]; [done|]. unfold update. cbn [fmap list_fmap fst].
    fold (update key v l). rewrite bool_decide_false by set_solver. simpl. rewrite IH; set_solver.
  - rewrite IH by set_solver. by rewrite insert_insert_ne.
Qed.

Lemma run_holds o m l : holds m l ->
  holds (fst (run o m)) (fst (abstractRun o l)) /\ snd (run o m) = snd (abstractRun o l).
Proof.
  intros H. pose proof H as [Hk Hn Hv].
  destruct o as [k v|k v|k v|k|]; cbn [run abstractRun]; unfold Set_, SetFront, Replace, Delete; try rewrite (holds_has m l k H);
    [destruct (mem k l) eqn:E; (split; [|done])..|]; try exact H; try (apply bool_decide_eq_true in E); try (apply bool_decide_eq_false in E).
  - split; simpl; rewrite ?fmap_app; simpl; [by rewrite Hk|apply NoDup_app; split_and!; [done|set_solver|apply NoDup_singleton]|].
    rewrite list_to_map_app, Hv. apply map_eq. intros i. rewrite lookup_union. destruct (decide (i = k)) as [->|Hi].
    + rewrite lookup_insert_eq. simpl. rewrite lookup_insert_eq. apply not_elem_of_list_to_map_1 in E. by rewrite E.
    + rewrite lookup_insert_ne by done. simpl. rewrite lookup_insert_ne, lookup_empty by done. by destruct (_ !! i).
  - split; simpl; [by rewrite Hk|by apply NoDup_cons|by rewrite Hv].
  - split; simpl; [by rewrite Hk, update_keys|by rewrite update_keys|by rewrite Hv, update_vals].
  - split; simpl; [rewrite Hk; by apply removeFirst_filter| |by rewrite Hv, filter_vals].
    rewrite <- removeFirst_filter by done. clear -Hn. induction (l.*1) as [|x xs IH]; [constructor|]. simpl.
    apply NoDup_cons in Hn as [Hx Hn]. case_bool_decide; [done|]. apply NoDup_cons. split; [|by apply IH].
    contradict Hx. clear -Hx. induction xs as [|y ys IH]; simpl in Hx; [done|]. case_bool_decide; set_solver.
  - split; [|done]. split; [done|constructor|done].
Qed.

(** C37. The ordered map refines an association list with distinct keys: after any
    sequence of operations from the zero value every operation had the same
    outcome, the keys and entries are those of the list in its order, each lookup
    agrees, and there are no repeated keys. *)
Theorem ordered_map_refines (ops : list op) :
  let '(m, xs) := runs run ops zeroMap in
  let '(l, ys) := runs abstractRun ops [] in
  xs = ys /\ NoDup (Keys m) /\ Keys m = l.*1 /\ Len m = length l
  /\ Entries m = (fun e => (e.1, Some e.2)) <$> l /\ (forall key, Get m key = (list_to_map l : gmap string V) !! key).
Proof.
  assert (forall m l, holds m l -> holds (fst (runs run ops m)) (fst (runs abstractRun ops l))
    /\ snd (runs run ops m) = snd (runs abstractRun ops l)) as Hruns.
  { induction ops as [|o ops IH]; intros m l H; [done|]. cbn [runs]. destruct (run_holds o m l H) as [H1 H2].
    destruct (run o m) as [m' x], (abstractRun o l) as [l' y]. simpl in H1, H2. subst y. destruct (IH m' l' H1) as [H3 H4].
    destruct (runs run ops m') as [m'' xs], (runs abstractRun ops l') as [l'' ys]. simpl in *. by subst. }
  destruct (Hruns zeroMap []) as [Hh Hx]; [by split; [|constructor|]|].
  destruct (runs run ops zeroMap) as [m xs], (runs abstractRun ops []) as [l ys]. simpl in Hh, Hx. destruct Hh as [Hk Hn Hv].
  unfold Keys, Len, Entries, Get. rewrite Hk, Hv. split_and!; [done|done|done|by rewrite length_fmap| |done].
  rewrite <- list_fmap_compose. apply list_fmap_ext. intros i [k v] Hi. simpl. f_equal.
  apply elem_of_list_to_map_1; [done|]. by eapply list_elem_of_lookup_2.
Qed.
End Abstract.
