(* ===== verification/Reachability.v ===== *)
(** * Reachability: the order of definitions in a dynamic bundle
    ([internal/schema/order.go])

    The walk from the target type over a stack, keyed by the display text of a
    type, that decides which enums, classes and aliases a bundle holds and in which
    order.  Go maps of definitions are finite maps; the top of the stack is the
    head of the list. *)

From stdpp Require Import pretty.
From Stdlib Require Import Lia.
From S2P Require Import Prelude Schema.
Open Scope stdpp_scope.

(** ** Display keys *)

(** [primitiveDisplay]. *)
Definition mediaText (m : MediaKind) : string :=
  match m with
  | MediaImage => "image" | MediaAudio => "audio" | MediaPDF => "pdf" | MediaVideo => "video" | MediaOther k => k
  end.
Definition primitiveDisplay (p : PrimitiveKind) : string :=
  match p with
  | PrimitiveString => "string" | PrimitiveInt => "int" | PrimitiveFloat => "float" | PrimitiveBool => "bool"
  | PrimitiveNull => "null" | PrimitiveMedia m => mediaText m | PrimitiveOther k => k
  end.

(** [literalDisplayKey]; the one-character string is the double quote. *)
Definition quoteMark : string := String (Ascii.ascii_of_nat 34) EmptyString.
Definition literalDisplayKey (l : option LiteralValue) : string :=
  match l with
  | None | Some (LiteralOther _) => "literal[]"
  | Some (LiteralString s) => quoteMark +:+ s +:+ quoteMark
  | Some (LiteralInt n) => pretty n
  | Some (LiteralBool true) => "true"
  | Some (LiteralBool false) => "false"
  end.

(** [nullType], and [iterIncludeNull] with its test. *)
Definition nullType : type := TypePrimitive noMeta PrimitiveNull.
Definition includesNull {A} (vs : list A) (nullable : bool) : bool := (length vs <=? 1)%nat || nullable.
Definition iterIncludeNull (vs : list type) (nullable : bool) : list type :=
  vs ++ (if includesNull vs nullable then [nullType] else []).

(** [displayKey]. *)
Fixpoint displayKey (t : type) : string :=
  match t with
  | TypePrimitive _ p => primitiveDisplay p
  | TypeEnum _ name => name
  | TypeClass _ name mode | TypeRecursiveAlias _ name mode => if mode =s Streaming then "Streaming." +:+ name else name
  | TypeLiteral _ l => literalDisplayKey l
  | TypeList _ None => "null[]"
  | TypeList _ (Some e) => displayKey e +:+ "[]"
  | TypeMap _ k v =>
      "map<" +:+ match k with Some k => displayKey k | None => "null" end +:+ ", "
      +:+ match v with Some v => displayKey v | None => "null" end +:+ ">"
  | TypeUnion _ None => "()"
  | TypeUnion _ (Some (vs, nullable)) =>
      "(" +:+ String.concat " | " (map displayKey vs ++ (if includesNull vs nullable then ["null"] else [])) +:+ ")"
  | TypeTuple _ items => "(" +:+ String.concat ", " (map displayKey items) +:+ ")"
  | TypeArrow _ None => "() -> top"
  | TypeArrow _ (Some (params, r)) => "(" +:+ String.concat ", " (map displayKey params) +:+ ") -> " +:+ displayKey r
  | TypeTop _ => "ANY"
  | TypeOther _ kind => kind
  end.

(** ** The walk *)

Section Walk.
Variables (enumDefs : gmap string EnumDef) (classDefs : gmap ClassKey ClassDef) (aliasTargets : gmap string type).

Record walk := mkWalk {
  w_stack : list type; w_checked : gset string;
  w_enums : list EnumDef; w_classes : list ClassDef; w_aliases : list string
}.

(** [pushIfUnchecked], and the loops over it. *)
Definition pushIfUnchecked (checked : gset string) (stack : list type) (t : type) : list type :=
  if bool_decide (displayKey t ∈ checked) then stack else t :: stack.
Definition pushAll (checked : gset string) (stack : list type) (ts : list type) : list type :=
  foldl (pushIfUnchecked checked) stack ts.

(** One iteration of [orderByReachability] with [t] popped; [visit] is the test and
    the insertion of the display key that six of the arms share. *)
Definition visit (t : type) (w : walk) (k : gset string -> walk) : walk :=
  if bool_decide (displayKey t ∈ w_checked w) then w else k ({[displayKey t]} ∪ w_checked w).
Definition iteration (t : type) (w : walk) : walk :=
  let '(mkWalk stack checked es cs ras) := w in
  match t with
  | TypeEnum _ name => visit t w (fun checked =>
      mkWalk stack checked (es ++ option_list (enumDefs !! name)) cs ras)
  | TypeClass _ name mode => visit t w (fun checked =>
      match classDefs !! (name, mode) with
      | None => mkWalk stack checked es cs ras
      | Some def => mkWalk (pushAll checked stack (cf_Type <$> cd_Fields def)) checked es (cs ++ [def]) ras
      end)
  | TypeList _ elem => mkWalk (pushAll checked stack (option_list elem)) checked es cs ras
  | TypeMap _ key value => visit t w (fun checked =>
      mkWalk (pushAll checked (pushAll checked stack (option_list key)) (option_list value)) checked es cs ras)
  | TypeUnion _ u => visit t w (fun checked =>
      match u with
      | None => mkWalk stack checked es cs ras
      | Some (vs, nullable) => mkWalk (pushAll checked stack (iterIncludeNull vs nullable)) checked es cs ras
      end)
  | TypeTuple _ items => visit t w (fun checked => mkWalk (pushAll checked stack items) checked es cs ras)
  | TypeRecursiveAlias _ name _ => visit t w (fun checked =>
      mkWalk (pushAll checked stack (option_list (aliasTargets !! name))) checked es cs (ras ++ [name]))
  | _ => w
  end.

(** The loop of [orderByReachability], while the stack is not empty. *)
Fixpoint walkLoop (fuel : nat) (w : walk) : option walk :=
  match w_stack w with
  | [] => Some w
  | t :: stack =>
      match fuel with
      | O => None
      | S n => walkLoop n (iteration t (mkWalk stack (w_checked w) (w_enums w) (w_classes w) (w_aliases w)))
      end
  end.
Definition startWalk (target : type) : walk := mkWalk [target] ∅ [] [] [].

(** ** Termination *)

(** The number of nodes of a type; a union has room for the null it may show. *)
Fixpoint nodes (t : type) : nat :=
  match t with
  | TypeList _ (Some e) => S (nodes e)
  | TypeMap _ k v => S (match k with Some k => nodes k | None => 0 end + match v with Some v => nodes v | None => 0 end)
  | TypeUnion _ (Some (vs, _)) => S (S (sum_list (map nodes vs)))
  | TypeTuple _ items => S (sum_list (map nodes items))
  | _ => 1
  end.
Definition total (ts : list type) : nat := sum_list (map nodes ts).

(** The types a visited type pushes, and whether it is visited once. *)
Definition children (t : type) : list type :=
  match t with
  | TypeClass _ name mode => match classDefs !! (name, mode) with Some def => cf_Type <$> cd_Fields def | None => [] end
  | TypeList _ elem => option_list elem
  | TypeMap _ key value => option_list key ++ option_list value
  | TypeUnion _ (Some (vs, nullable)) => iterIncludeNull vs nullable
  | TypeTuple _ items => items
  | TypeRecursiveAlias _ name _ => option_list (aliasTargets !! name)
  | _ => []
  end.
Definition inserts (t : type) : bool :=
  match t with
  | TypeEnum _ _ | TypeClass _ _ _ | TypeMap _ _ _ | TypeUnion _ _ | TypeTuple _ _ | TypeRecursiveAlias _ _ _ => true
  | _ => false
  end.
Definition skips (t : type) (w : walk) : bool := inserts t && bool_decide (displayKey t ∈ w_checked w).
Definition mark (t : type) (checked : gset string) : gset string :=
  if inserts t then {[displayKey t]} ∪ checked else checked.

Lemma iteration_skips t w : skips t w = true -> iteration t w = w.
Proof. unfold skips, iteration, visit. destruct w. by destruct t as [| | | | | | | | | |? [[??]|]|]; simpl; try done; intros ->. Qed.

Lemma iteration_visits t w : skips t w = false ->
  w_stack (iteration t w) = pushAll (mark t (w_checked w)) (w_stack w) (children t)
  /\ w_checked (iteration t w) = mark t (w_checked w).
Proof.
  unfold skips, iteration, visit, mark, pushAll. destruct w.
  destruct t as [| | | |m n md| | | | | |? [[??]|]|]; simpl; try done; try intros ->; try done.
  - by destruct (classDefs !! (n, md)).
  - simpl. by rewrite foldl_app.
Qed.

(** What the classes and aliases that are still unchecked may push; an alias has
    one key per streaming mode. *)
Definition unless (checked : gset string) (key : string) (cost : nat) : nat :=
  if bool_decide (key ∈ checked) then 0 else cost.
Definition classCost (checked : gset string) (d : ClassKey * ClassDef) : nat :=
  unless checked (displayKey (TypeClass noMeta d.1.1 d.1.2)) (total (cf_Type <$> cd_Fields d.2)).
Definition aliasCost (checked : gset string) (d : string * type) : nat :=
  unless checked d.1 (nodes d.2) + unless checked ("Streaming." +:+ d.1) (nodes d.2).
Definition budget (checked : gset string) : nat :=
  sum_list (classCost checked <$> map_to_list classDefs) + sum_list (aliasCost checked <$> map_to_list aliasTargets).
Definition reachFuel (target : type) : nat := nodes target + budget ∅.

Lemma nodes_pos t : 1 <= nodes t.
Proof. destruct t as [| | | | |? [|]| | | | |? [[??]|]|]; simpl; lia. Qed.

Lemma total_app ts us : total (ts ++ us) = total ts + total us.
Proof. unfold total. rewrite map_app. induction ts as [|t ts IH]; simpl; [done|]. unfold total in *. lia. Qed.

Lemma pushAll_total checked ts : forall stack, total (pushAll checked stack ts) <= total stack + total ts.
Proof.
  induction ts as [|t ts IH]; intros stack; simpl; [unfold total; simpl; lia|].
  unfold pushAll in *. simpl. rewrite IH. unfold pushIfUnchecked, total. case_bool_decide; simpl; lia.
Qed.

Lemma unless_anti checked checked' key cost : checked ⊆ checked' -> unless checked' key cost <= unless checked key cost.
Proof. unfold unless. intros H. do 2 case_bool_decide; try lia. set_solver. Qed.

Lemma sum_drop {A} (f g : A -> nat) c l : (forall x, g x <= f x) ->
  (exists x, x ∈ l /\ g x + c <= f x) \/ c = 0 -> sum_list (g <$> l) + c <= sum_list (f <$> l).
Proof.
  intros H. induction l as [|y l IH]; intros Hx.
  - destruct Hx as [(x&Hx&_)| ->]; [by apply not_elem_of_nil in Hx|done].
  - csimpl. pose proof (H y). destruct Hx as [(x&Hx&Hc)| ->]; [apply elem_of_cons in Hx as [Hx|Hx]; [subst x|]|].
    + enough (sum_list (g <$> l) + 0 <= sum_list (f <$> l)) by lia. clear -H. induction l; csimpl; [done|]. specialize (H a). lia.
    + enough (sum_list (g <$> l) + c <= sum_list (f <$> l)) by lia. apply IH. left. eauto.
    + enough (sum_list (g <$> l) + 0 <= sum_list (f <$> l)) by lia. apply IH. by right.
Qed.

(** A visited type pays for what it pushes: with its own nodes, or as the first
    visit of a definition. *)
Lemma children_cost t checked : inserts t = false \/ displayKey t ∉ checked ->
  total (children t) + budget (mark t checked) < nodes t + budget checked.
Proof.
  intros Hf. pose proof (nodes_pos t) as Hpos.
  assert (checked ⊆ mark t checked) as Hsub by (unfold mark; destruct (inserts t); set_solver).
  assert (forall d, classCost (mark t checked) d <= classCost checked d) as Hc by (intros d; by apply unless_anti).
  assert (forall d, aliasCost (mark t checked) d <= aliasCost checked d) as Ha
    by (intros d; unfold aliasCost; apply Nat.add_le_mono; by apply unless_anti).
  assert (forall c a, (exists x, x ∈ map_to_list classDefs /\ classCost (mark t checked) x + c <= classCost checked x) \/ c = 0 ->
    (exists x, x ∈ map_to_list aliasTargets /\ aliasCost (mark t checked) x + a <= aliasCost checked x) \/ a = 0 ->
    budget (mark t checked) + (c + a) <= budget checked) as Hb.
  { intros c a Hcx Hax. unfold budget. pose proof (sum_drop _ _ c _ Hc Hcx). pose proof (sum_drop _ _ a _ Ha Hax). lia. }
  assert (budget (mark t checked) <= budget checked) as H0 by (pose proof (Hb 0 0 (or_intror eq_refl) (or_intror eq_refl)); lia).
  destruct t as [| | | |m n md|m [e|]|m k v|m n md|m ts| |m [[vs nl]|]|]; simpl children in *; simpl nodes in *;
    try (unfold total in *; simpl; lia).
  - destruct (classDefs !! (n, md)) as [def|] eqn:Hd; [|unfold total in *; simpl; lia].
    destruct Hf as [Hf|Hf]; [done|].
    enough (budget (mark (TypeClass m n md) checked) + (total (cf_Type <$> cd_Fields def) + 0) <= budget checked) by lia.
    apply Hb; [|by right]. left. exists ((n, md), def). split; [by apply elem_of_map_to_list|].
    unfold classCost, unless, mark. simpl in *. rewrite bool_decide_true by set_solver. by rewrite bool_decide_false.
  - destruct k as [k|], v as [v|]; unfold total; simpl; lia.
  - destruct (aliasTargets !! n) as [tg|] eqn:Hd; [|unfold total in *; simpl; lia].
    destruct Hf as [Hf|Hf]; [done|].
    enough (budget (mark (TypeRecursiveAlias m n md) checked) + (0 + nodes tg) <= budget checked) by (unfold total; simpl; lia).
    apply Hb; [by right|]. left. exists (n, tg). split; [by apply elem_of_map_to_list|].
    unfold aliasCost, mark. simpl in *.
    assert (forall key, key ∉ checked -> unless ({[key]} ∪ checked) key (nodes tg) + nodes tg <= unless checked key (nodes tg)) as Hk.
    { intros key Hk. unfold unless. rewrite bool_decide_true by set_solver. by rewrite bool_decide_false. }
    pose proof (unless_anti _ _ n (nodes tg) Hsub). pose proof (unless_anti _ _ ("Streaming." +:+ n) (nodes tg) Hsub).
    unfold mark in *. simpl in *.
    destruct (md =s Streaming); [pose proof (Hk _ Hf)|pose proof (Hk _ Hf)]; lia.
  - unfold iterIncludeNull. rewrite total_app. unfold total at 1. destruct (includesNull vs nl); unfold total; simpl; lia.
Qed.

Lemma iteration_cost t w :
  total (w_stack (iteration t w)) + budget (w_checked (iteration t w)) < nodes t + total (w_stack w) + budget (w_checked w).
Proof.
  pose proof (nodes_pos t). destruct (skips t w) eqn:Hs; [rewrite (iteration_skips _ _ Hs); lia|].
  destruct (iteration_visits _ _ Hs) as [-> ->].
  pose proof (pushAll_total (mark t (w_checked w)) (children t) (w_stack w)).
  enough (total (children t) + budget (mark t (w_checked w)) < nodes t + budget (w_checked w)) by lia.
  apply children_cost. unfold skips in Hs. apply andb_false_iff in Hs as [Hs|Hs]; [by left|].
  right. by apply bool_decide_eq_false in Hs.
Qed.

Lemma walkLoop_total fuel : forall w, total (w_stack w) + budget (w_checked w) <= fuel -> is_Some (walkLoop fuel w).
Proof.
  induction fuel as [|n IH]; intros [st ch es cs ras] H; simpl in H; destruct st as [|t st]; simpl; try by eexists.
  - pose proof (nodes_pos t). unfold total in H. simpl in H. lia.
  - apply IH. pose proof (iteration_cost t (mkWalk st ch es cs ras)) as Hc. simpl in Hc. unfold total in *. simpl in *. lia.
Qed.

(** [orderByReachability], with fuel that is enough. *)
Definition orderByReachability (target : type) : option (list EnumDef * list ClassDef * list string) :=
  w ← walkLoop (reachFuel target) (startWalk target); Some (w_enums w, w_classes w, w_aliases w).

Lemma startWalk_total target : is_Some (walkLoop (reachFuel target) (startWalk target)).
Proof. apply walkLoop_total. unfold reachFuel, total. simpl. lia. Qed.

(** ** What the walk finds *)

(** A type below the target, through definitions. *)
Inductive reaches (target : type) : type -> Prop :=
  | reach_target : reaches target target
  | reach_child t c : reaches target t -> c ∈ children t -> reaches target c.

Definition enumOf (t : type) : option EnumDef := match t with TypeEnum _ name => enumDefs !! name | _ => None end.
Definition classOf (t : type) : option ClassDef := match t with TypeClass _ name mode => classDefs !! (name, mode) | _ => None end.
Definition aliasOf (t : type) : option string := match t with TypeRecursiveAlias _ name _ => Some name | _ => None end.

(** The state of the walk after the types [seen] were visited, in that order. *)
Record tracks (target : type) (w : walk) (seen : list type) : Prop := {
  tr_stack : forall t, t ∈ w_stack w -> reaches target t;
  tr_seen : forall t, t ∈ seen -> reaches target t;
  tr_checked : forall key, key ∈ w_checked w <-> exists t, t ∈ seen /\ inserts t = true /\ displayKey t = key;
  tr_covered : forall c, c = target \/ (exists t, t ∈ seen /\ c ∈ children t) ->
    c ∈ w_stack w \/ c ∈ seen \/ displayKey c ∈ w_checked w;
  tr_once : NoDup (displayKey <$> filter (fun t => inserts t = true) seen);
  tr_enums : w_enums w = omap enumOf seen;
  tr_classes : w_classes w = omap classOf seen;
  tr_aliases : w_aliases w = omap aliasOf seen
}.

Lemma pushAll_spec checked ts : forall stack t,
  t ∈ pushAll checked stack ts <-> t ∈ stack \/ (t ∈ ts /\ displayKey t ∉ checked).
Proof.
  induction ts as [|u ts IH]; intros stack t; [set_solver|].
  unfold pushAll in *. simpl. rewrite IH. unfold pushIfUnchecked. case_bool_decide; set_solver.
Qed.

Lemma iteration_outputs t w : skips t w = false ->
  w_enums (iteration t w) = w_enums w ++ option_list (enumOf t)
  /\ w_classes (iteration t w) = w_classes w ++ option_list (classOf t)
  /\ w_aliases (iteration t w) = w_aliases w ++ option_list (aliasOf t).
Proof.
  unfold skips, iteration, visit. destruct w.
  destruct t as [| | | |m n md| | | | | |? [[??]|]|]; simpl; try intros ->; simpl; rewrite ?app_nil_r; try done.
  by destruct (classDefs !! (n, md)); simpl; rewrite ?app_nil_r.
Qed.

Lemma omap_snoc {A B} (f : A -> option B) l x : omap f (l ++ [x]) = omap f l ++ option_list (f x).
Proof. induction l as [|y l IH]; csimpl; [by destruct (f x)|]. destruct (f y); csimpl; by rewrite IH. Qed.

Lemma iteration_tracks target t st ch es cs ras seen :
  tracks target (mkWalk (t :: st) ch es cs ras) seen ->
  exists seen', tracks target (iteration t (mkWalk st ch es cs ras)) seen'.
Proof.
  intros [Hst Hseen Hch Hcov Honce He Hc Ha]. cbn [w_stack w_checked w_enums w_classes w_aliases] in *.
  set (w := mkWalk st ch es cs ras).
  assert (reaches target t) as Hrt by (apply Hst; set_solver).
  destruct (skips t w) eqn:Hs.
  { exists seen. rewrite (iteration_skips _ _ Hs). unfold skips in Hs. apply andb_true_iff in Hs as [_ Hk%bool_decide_eq_true].
    simpl in Hk. split; simpl; try done; [set_solver|]. intros c Hcc. destruct (Hcov c Hcc) as [[->|]%elem_of_cons|]; set_solver. }
  destruct (iteration_visits _ _ Hs) as [Hstack Hmark]. destruct (iteration_outputs _ _ Hs) as (HE&HC&HA).
  exists (seen ++ [t]).
  assert (ch ⊆ mark t ch) as Hsub by (unfold mark; destruct (inserts t); set_solver).
  split; rewrite ?Hstack, ?Hmark; simpl.
  - intros u [Hu|[Hu _]]%pushAll_spec; [set_solver|]. by eapply reach_child.
  - intros u [Hu| ->%list_elem_of_singleton]%elem_of_app; auto.
  - intros key. unfold mark. transitivity ((inserts t = true /\ displayKey t = key) \/ key ∈ ch).
    { destruct (inserts t); [rewrite elem_of_union, elem_of_singleton|]; intuition congruence. }
    rewrite Hch. split.
    + intros [[Hi Hk]|(u&Hu&Hi&Hk)]; [exists t|exists u]; rewrite elem_of_app, list_elem_of_singleton; auto.
    + intros (u&[Hu| ->%list_elem_of_singleton]%elem_of_app&Hi&Hk); [right; eauto|by left].
  - setoid_rewrite elem_of_app. setoid_rewrite list_elem_of_singleton. intros c Hcc.
    assert ((c = target \/ exists u, u ∈ seen /\ c ∈ children u) \/ c ∈ children t) as [Hold|Hnew].
    { destruct Hcc as [Hcc|(u&[Hu| ->]&Hcc)]; eauto. }
    + destruct (Hcov c Hold) as [[->|]%elem_of_cons|[|]]; [by auto| |by auto|set_solver].
      left. apply pushAll_spec. by left.
    + destruct (decide (displayKey c ∈ mark t ch)); [by auto|]. left. apply pushAll_spec. by right.
  - rewrite filter_app, fmap_app. apply NoDup_app. split_and!; [done| |].
    + intros k (u&->&Hu)%list_elem_of_fmap. rewrite list_elem_of_filter in Hu. rewrite filter_cons.
      unfold skips in Hs. destruct (decide (inserts t = true)) as [Hi|Hi]; [|by intros []%not_elem_of_nil]. rewrite Hi in Hs. simpl in Hs.
      apply bool_decide_eq_false in Hs. rewrite filter_nil. simpl. rewrite list_elem_of_singleton. intros Heq. apply Hs.
      apply Hch. exists u. split_and!; [apply Hu|apply Hu|done].
    + rewrite filter_cons. destruct (decide (inserts t = true)); rewrite filter_nil; simpl; [apply NoDup_singleton|constructor].
  - by rewrite omap_snoc, <- He.
  - by rewrite omap_snoc, <- Hc.
  - by rewrite omap_snoc, <- Ha.
Qed.

Lemma walkLoop_tracks target fuel : forall w w' seen, walkLoop fuel w = Some w' -> tracks target w seen ->
  w_stack w' = [] /\ exists seen', tracks target w' seen'.
Proof.
  induction fuel as [|n IH]; intros [[|t st] ch es cs ras] w' seen H Ht; simpl in H; try (injection H as <-; by eauto); [done|].
  destruct (iteration_tracks _ _ _ _ _ _ _ _ Ht) as [seen' Ht']. by apply (IH _ _ _ H Ht').
Qed.

Lemma walk_tracks target : exists w seen,
  walkLoop (reachFuel target) (startWalk target) = Some w /\ w_stack w = [] /\ tracks target w seen.
Proof.
  destruct (startWalk_total target) as [w Hw]. exists w.
  destruct (walkLoop_tracks target _ _ _ [] Hw) as [Hst [seen Hs]]; [|by exists seen].
  split; simpl; try set_solver; [|constructor]. intros t ->%list_elem_of_singleton. constructor.
Qed.

(** Different types below the target have different keys, as far as the walk
    compares them. *)
Definition keysDistinct (target : type) : Prop :=
  forall t u, reaches target t -> reaches target u -> inserts u = true -> displayKey t = displayKey u -> t = u.

Lemma tracks_complete target w seen t : tracks target w seen -> w_stack w = [] -> keysDistinct target ->
  reaches target t -> t ∈ seen.
Proof.
  intros [Hst Hseen Hch Hcov _ _ _ _] Hempty Hd Ht. rewrite Hempty in Hcov.
  assert (forall c, reaches target c -> c = target \/ (exists u, u ∈ seen /\ c ∈ children u) -> c ∈ seen) as Hin.
  { intros c Hc Hr. destruct (Hcov c Hr) as [[]%not_elem_of_nil|[|(u&Hu&Hi&Hk)%Hch]]; [done|].
    rewrite (Hd c u); auto. }
  induction Ht as [|t c Ht IH Hc]; [apply Hin; [constructor|by left]|].
  apply Hin; [by eapply reach_child|right; eauto].
Qed.

(** A definition the walk visited is found under its own key. *)
Definition keyedClasses : Prop := forall key d, classDefs !! key = Some d -> classKey d = key.
Definition keyedEnums : Prop := forall name d, enumDefs !! name = Some d -> enumName d = name.

Lemma omap_distinct {A B} (f : type -> option A) (key : A -> B) (seen : list type) :
  (forall t u a c, f t = Some a -> f u = Some c -> key a = key c -> inserts t = true /\ inserts u = true /\ displayKey t = displayKey u) ->
  NoDup (displayKey <$> filter (fun t => inserts t = true) seen) -> NoDup (key <$> omap f seen).
Proof.
  intros Hf. induction seen as [|t seen IH]; [constructor|]. csimpl. rewrite filter_cons. intros Hn.
  assert (NoDup (displayKey <$> filter (fun t => inserts t = true) seen)) as Hn'.
  { destruct (decide (inserts t = true)); [by inversion Hn|done]. }
  destruct (f t) as [a|] eqn:Ha; [|by apply IH]. csimpl. constructor; [|by apply IH].
  intros (c&Hk&(u&Hu&Hc)%list_elem_of_omap)%list_elem_of_fmap.
  destruct (Hf t u a c Ha Hc Hk) as (Ht&Hi&Hd). rewrite decide_True in Hn by done. csimpl.
  inversion Hn as [|? ? Hin _]; subst. apply Hin. rewrite Hd. apply list_elem_of_fmap_2. by apply list_elem_of_filter.
Qed.

Lemma tracks_classes target w seen : keyedClasses -> tracks target w seen -> NoDup (classKey <$> w_classes w).
Proof.
  intros Hk Ht. rewrite (tr_classes _ _ _ Ht). apply omap_distinct; [|apply (tr_once _ _ _ Ht)].
  intros t u a c Ha Hc He. destruct t, u; try done. simpl in *. apply Hk in Ha, Hc. rewrite Ha, Hc in He.
  injection He as -> ->. done.
Qed.

Lemma tracks_enums target w seen : keyedEnums -> tracks target w seen -> NoDup (enumName <$> w_enums w).
Proof.
  intros Hk Ht. rewrite (tr_enums _ _ _ Ht). apply omap_distinct; [|apply (tr_once _ _ _ Ht)].
  intros t u a c Ha Hc He. destruct t, u; try done. simpl in *. apply Hk in Ha, Hc. rewrite Ha, Hc in He.
  by subst.
Qed.

(** What the walk returns, as sets. *)
Definition foundEnum (target : type) (d : EnumDef) : Prop :=
  exists m name, reaches target (TypeEnum m name) /\ enumDefs !! name = Some d.
Definition foundClass (target : type) (d : ClassDef) : Prop :=
  exists m name mode, reaches target (TypeClass m name mode) /\ classDefs !! (name, mode) = Some d.
Definition foundAlias (target : type) (name : string) : Prop :=
  exists m mode, reaches target (TypeRecursiveAlias m name mode).

(** The reachability walk ends, and it returns definitions the target reaches,
    each enum and each class once.  When different types below the target have
    different display keys, it returns all of them: a definition is in the result
    exactly when a reference to it is reachable. *)
Lemma order_exact target : keyedEnums -> keyedClasses ->
  exists es cs ras, orderByReachability target = Some (es, cs, ras)
  /\ NoDup (enumName <$> es) /\ NoDup (classKey <$> cs)
  /\ (forall d, d ∈ es -> foundEnum target d) /\ (forall d, d ∈ cs -> foundClass target d)
  /\ (forall name, name ∈ ras -> foundAlias target name)
  /\ (keysDistinct target ->
        (forall d, foundEnum target d -> d ∈ es) /\ (forall d, foundClass target d -> d ∈ cs)
        /\ (forall name, foundAlias target name -> name ∈ ras)).
Proof.
  intros He Hc. destruct (walk_tracks target) as (w&seen&Hw&Hst&Ht). unfold orderByReachability. rewrite Hw. simpl.
  exists (w_enums w), (w_classes w), (w_aliases w).
  split_and!; [done|by eapply tracks_enums|by eapply tracks_classes| | | |].
  - intros d. rewrite (tr_enums _ _ _ Ht), list_elem_of_omap. intros (t&Hin&Hd). apply (tr_seen _ _ _ Ht) in Hin.
    destruct t; try done. by eexists _, _.
  - intros d. rewrite (tr_classes _ _ _ Ht), list_elem_of_omap. intros (t&Hin&Hd). apply (tr_seen _ _ _ Ht) in Hin.
    destruct t; try done. by eexists _, _, _.
  - intros n. rewrite (tr_aliases _ _ _ Ht), list_elem_of_omap. intros (t&Hin&Hd). apply (tr_seen _ _ _ Ht) in Hin.
    destruct t; try done. injection Hd as <-. by eexists _, _.
  - intros Hdist. pose proof (fun t => tracks_complete _ _ _ t Ht Hst Hdist) as Hall.
    rewrite (tr_enums _ _ _ Ht), (tr_classes _ _ _ Ht), (tr_aliases _ _ _ Ht).
    split_and!; intros d; rewrite list_elem_of_omap.
    + intros (m&n&Hr&Hd). exists (TypeEnum m n). auto.
    + intros (m&n&md&Hr&Hd). exists (TypeClass m n md). auto.
    + intros (m&md&Hr). exists (TypeRecursiveAlias m d md). auto.
Qed.
End Walk.

(** ** The exported order *)

(** A map filled by one assignment per definition. *)
Definition assignAll {K V} `{Countable K} (key : V -> K) (l : list V) : gmap K V := foldl (fun m x => <[key x := x]> m) ∅ l.

(** [Bundle.ReachableOrder]. *)
Definition ReachableOrder (b : Bundle) : option (list string * list ClassKey * list string) :=
  let enumDefs := assignAll enumName (Enums b) in
  let classDefs := assignAll classKey (Classes b) in
  let aliasTargets := ra_Target <$> assignAll ra_Name (StructuralRecursiveAliases b) in
  match orderByReachability enumDefs classDefs aliasTargets (Target b) with
  | None => None
  | Some (es, cs, ras) => Some (enumName <$> es, classKey <$> cs, ras)
  end.
