(* ===== verification/DynamicSchema.v ===== *)
(** * DynamicSchema: dynamic output schemas and their lowering
    ([bamlutils/interfaces.go], [bamlutils/dynamic.go], [internal/schema/build.go])

    The schema a request carries, the validation the worker runs on it, and the
    lowering into the bundle the native engine uses.  A nil pointer is [None]; the
    eight fields that a property shares with a type specification are one
    specification; a Go [any] is a [goval].  The paths in error texts are left out,
    and so is the dynamic flag of a reference, which depends only on its name. *)

From Stdlib Require Import Lia.
From stdpp Require Import pretty.
From S2P Require Import Prelude GoStrings GoValue Jsonish OrderedMap Schema Reachability.
Open Scope stdpp_scope.

(** ** The input *)

(** [DynamicTypeSpec]. *)
Inductive DynamicTypeSpec := mkSpec {
  ts_Type : string; ts_Ref : string;
  ts_Items : option DynamicTypeSpec; ts_Inner : option DynamicTypeSpec; ts_OneOf : list (option DynamicTypeSpec);
  ts_Keys : option DynamicTypeSpec; ts_Values : option DynamicTypeSpec; ts_Value : goval
}.

(** [DynamicProperty], [DynamicClass], [DynamicEnumValue], [DynamicEnum]. *)
Record DynamicProperty := mkProperty { dp_Spec : DynamicTypeSpec; dp_Description : string; dp_Alias : string }.
Record DynamicClass := mkDynClass { dc_Description : string; dc_Alias : string; dc_Properties : OrderedMap (option DynamicProperty) }.
Record DynamicEnumValue := mkDynValue { dv_Name : string; dv_Description : string; dv_Alias : string; dv_Skip : bool }.
Record DynamicEnum := mkDynEnum { de_Description : string; de_Alias : string; de_Values : list (option DynamicEnumValue) }.

(** [DynamicTypes] and [DynamicOutputSchema]. *)
Record DynamicTypes := mkDynTypes { dt_Classes : OrderedMap (option DynamicClass); dt_Enums : OrderedMap (option DynamicEnum) }.
Record DynamicOutputSchema := mkOutputSchema {
  os_Properties : OrderedMap (option DynamicProperty);
  os_Classes : OrderedMap (option DynamicClass);
  os_Enums : OrderedMap (option DynamicEnum)
}.

(** The entries of a map of pointers: a key without a value has the zero value, nil. *)
Definition pointers {V} (m : OrderedMap (option V)) : list (string * option V) :=
  (fun e : string * option (option V) => (e.1, mjoin e.2)) <$> Entries m.

(** ** Validation on the worker *)

Inductive TypesErr :=
  | NilEnum (name : string) | NilEnumValue (name : string) (i : nat) | EmptyEnumValue (name : string) (i : nat)
  | NilClass (name : string) | NilProperty (class name : string) | TooDeep | TypeAndRef | NoTypeNoRef
  | Missing (typ : string) | NilVariant (i : nat) | NilSpec | BadLiteral (typ : string) | UnknownType (typ : string).

Definition maxTypeDepth : nat := 64.

(** The checks on an optional part: it must be there and pass. *)
Definition needs (typ : string) (part : option (option TypesErr)) : option TypesErr :=
  match part with None => Some (Missing typ) | Some e => e end.

(** The first error of the variants of a union, each with its index. *)
Fixpoint firstVariant (i : nat) (vs : list (option (option TypesErr))) : option TypesErr :=
  match vs with
  | [] => None
  | None :: _ => Some (NilVariant i)
  | Some None :: vs => firstVariant (S i) vs
  | Some (Some e) :: _ => Some e
  end.

(** [validateTypeRef] and [validateDynamicTypeSpec]. *)
Fixpoint validateTypeRef (s : DynamicTypeSpec) (depth : nat) : option TypesErr :=
  let '(mkSpec typ ref items inner oneOf keys values value) := s in
  if (maxTypeDepth <? depth)%nat then Some TooDeep
  else if ref <>s "" then (if typ <>s "" then Some TypeAndRef else None)
  else if typ =s "" then Some NoTypeNoRef
  else if (typ =s "string") || (typ =s "int") || (typ =s "float") || (typ =s "bool") || (typ =s "null") then None
  else if typ =s "list" then
    match items with None => Some (Missing typ) | Some s => validateTypeRef s (S depth) end
  else if typ =s "optional" then
    match inner with None => Some (Missing typ) | Some s => validateTypeRef s (S depth) end
  else if typ =s "map" then
    match keys, values with
    | Some k, Some v => match validateTypeRef k (S depth) with None => validateTypeRef v (S depth) | Some e => Some e end
    | _, _ => Some (Missing typ)
    end
  else if typ =s "union" then
    match oneOf with
    | [] => Some (Missing typ)
    | _ => firstVariant 0 (map (option_map (fun s => validateTypeRef s (S depth))) oneOf)
    end
  else if typ =s "literal_string" then
    match value with GNil => Some (Missing typ) | GString _ => None | _ => Some (BadLiteral typ) end
  else if typ =s "literal_int" then
    match value with
    | GNil => Some (Missing typ)
    | GInt KInt _ | GInt KInt64 _ | GFloat _ => None
    | _ => Some (BadLiteral typ)
    end
  else if typ =s "literal_bool" then
    match value with GNil => Some (Missing typ) | GBool _ => None | _ => Some (BadLiteral typ) end
  else Some (UnknownType typ).

(** The loops of [DynamicTypes.Validate]. *)
Fixpoint validateValues (name : string) (i : nat) (vs : list (option DynamicEnumValue)) : option TypesErr :=
  match vs with
  | [] => None
  | None :: _ => Some (NilEnumValue name i)
  | Some v :: vs => if dv_Name v =s "" then Some (EmptyEnumValue name i) else validateValues name (S i) vs
  end.
Definition validateEnum (e : string * option DynamicEnum) : option TypesErr :=
  match e.2 with None => Some (NilEnum e.1) | Some en => validateValues e.1 0 (de_Values en) end.
Definition validateProperty (class : string) (p : string * option DynamicProperty) : option TypesErr :=
  match p.2 with None => Some (NilProperty class p.1) | Some prop => validateTypeRef (dp_Spec prop) 0 end.
Definition validateClass (c : string * option DynamicClass) : option TypesErr :=
  match c.2 with None => Some (NilClass c.1) | Some cls => firstErr (validateProperty c.1) (pointers (dc_Properties cls)) end.

(** [DynamicTypes.Validate]. *)
Definition ValidateTypes (dt : DynamicTypes) : option TypesErr :=
  firstErr validateEnum (pointers (dt_Enums dt)) ;err firstErr validateClass (pointers (dt_Classes dt)).

(** ** The worker payload *)

Definition dynamicOutputClassName : string := "Baml_Rest_DynamicOutput".

(** [validateReservedClassNames]. *)
Definition validateReservedClassNames (s : DynamicOutputSchema) : bool := negb (Has (os_Classes s) dynamicOutputClassName).

(** [buildWorkerClassMap]; the classes are added one by one until an addition fails. *)
Definition buildWorkerClassMap (s : DynamicOutputSchema) : OrderedMap (option DynamicClass) + OrderedMapErr :=
  match Set_ zeroMap dynamicOutputClassName (Some (mkDynClass "" "" (Clone (os_Properties s)))) with
  | (_, Some e) => inr e
  | (classes, None) =>
      match setAll classes (pointers (os_Classes s)) with
      | (_, Some e) => inr e
      | (classes, None) => inl classes
      end
  end.

(** The dynamic types [ToWorkerInput] sends. *)
Definition workerTypes (s : DynamicOutputSchema) : DynamicTypes + OrderedMapErr :=
  match buildWorkerClassMap s with
  | inr e => inr e
  | inl classes => inl (mkDynTypes classes (Clone (os_Enums s)))
  end.

(** ** Unions *)

Definition isNull (t : type) : bool := match t with TypePrimitive _ PrimitiveNull => true | _ => false end.

(** [flattenForUnion]. *)
Fixpoint flattenForUnion (t : type) : list type :=
  match t with
  | TypeUnion m (Some (vs, nullable)) =>
      if bool_decide (tm_Constraints m = []) then
        concat (map flattenForUnion vs) ++ (if nullable then [nullType] else [])
      else [t]
  | _ => [t]
  end.

(** Structural equality, [reflect.DeepEqual] on types. *)
#[export] Instance Constraint_eq_dec : EqDecision Constraint.
Proof. solve_decision. Defined.
#[export] Instance StreamingBehavior_eq_dec : EqDecision StreamingBehavior.
Proof. solve_decision. Defined.
#[export] Instance TypeMeta_eq_dec : EqDecision TypeMeta.
Proof. solve_decision. Defined.
#[export] Instance MediaKind_eq_dec : EqDecision MediaKind.
Proof. solve_decision. Defined.
#[export] Instance PrimitiveKind_eq_dec : EqDecision PrimitiveKind.
Proof. solve_decision. Defined.
#[export] Instance LiteralValue_eq_dec : EqDecision LiteralValue.
Proof. solve_decision. Defined.

Definition optEqb {A} (f : A -> A -> bool) (x y : option A) : bool :=
  match x, y with Some x, Some y => f x y | None, None => true | _, _ => false end.
Definition listEqb {A} (f : A -> A -> bool) : list A -> list A -> bool :=
  fix go xs ys := match xs, ys with [], [] => true | x :: xs, y :: ys => f x y && go xs ys | _, _ => false end.
Fixpoint typeEqb (t u : type) : bool :=
  match t, u with
  | TypeTop m, TypeTop m' => bool_decide (m = m')
  | TypePrimitive m p, TypePrimitive m' p' => bool_decide (m = m') && bool_decide (p = p')
  | TypeEnum m n, TypeEnum m' n' => bool_decide (m = m') && bool_decide (n = n')
  | TypeLiteral m l, TypeLiteral m' l' => bool_decide (m = m') && bool_decide (l = l')
  | TypeClass m n d, TypeClass m' n' d' | TypeRecursiveAlias m n d, TypeRecursiveAlias m' n' d' =>
      bool_decide (m = m') && bool_decide (n = n') && bool_decide (d = d')
  | TypeList m e, TypeList m' e' => bool_decide (m = m') && optEqb typeEqb e e'
  | TypeMap m k v, TypeMap m' k' v' => bool_decide (m = m') && optEqb typeEqb k k' && optEqb typeEqb v v'
  | TypeTuple m ts, TypeTuple m' ts' => bool_decide (m = m') && listEqb typeEqb ts ts'
  | TypeArrow m a, TypeArrow m' a' =>
      bool_decide (m = m')
      && match a, a' with
         | Some (ps, r), Some (ps', r') => listEqb typeEqb ps ps' && typeEqb r r'
         | None, None => true
         | _, _ => false
         end
  | TypeUnion m u, TypeUnion m' u' =>
      bool_decide (m = m')
      && match u, u' with
         | Some (vs, n), Some (vs', n') => listEqb typeEqb vs vs' && bool_decide (n = n')
         | None, None => true
         | _, _ => false
         end
  | TypeOther m k, TypeOther m' k' => bool_decide (m = m') && bool_decide (k = k')
  | _, _ => false
  end.

(** [containsType]. *)
Definition containsType (ts : list type) (t : type) : bool := existsb (fun u => typeEqb u t) ts.

(** [simplifyUnion]: whether a null was met, and the variants in first-seen order;
    the variants are the types seen. *)
Fixpoint distinctVariants (seen : list type) (ts : list type) : bool * list type :=
  match ts with
  | [] => (false, seen)
  | t :: ts =>
      if isNull t then (true, snd (distinctVariants seen ts))
      else if containsType seen t then distinctVariants seen ts
      else distinctVariants (seen ++ [t]) ts
  end.
Definition simplifyUnion (choices : list type) : type :=
  match distinctVariants [] (concat (map flattenForUnion choices)) with
  | (_, []) => nullType
  | (true, [v]) => TypeUnion noMeta (Some ([v], true))
  | (false, [v]) => v
  | (hasNull, vs) => TypeUnion noMeta (Some (vs, hasNull))
  end.

(** [makeUnion] and [makeOptional]. *)
Definition makeUnion (choices : list type) : type :=
  match choices with [c] => c | _ => simplifyUnion choices end.
Definition makeOptional (inner : type) : type := if isNull inner then inner else makeUnion [inner; nullType].

(** ** Lowering *)

Inductive BuildErr :=
  | NilSchema | ReservedClass | ClassAndEnum (name : string) | BuildNilEnum (name : string) | BuildNilValue (name : string) (i : nat)
  | BuildNilClass (name : string) | BuildNilProperty (class name : string) | BuildNilSpec | BothTypeAndRef | NeitherTypeNorRef
  | RequiresPart (typ : string) | RequiresValue (typ : string) | BuildUnknownType (typ : string)
  | AmbiguousRef (name : string) | UnknownRefKind (name : string) | UnresolvedRef (name : string)
  | IndexErr (e : SchemaErr) | WalkErr.

(** [toInt64]: math.Trunc keeps infinities, which the range check rejects. *)
Definition toInt64 (v : goval) : option Z :=
  match v with
  | GInt KInt z | GInt KInt64 z => Some z
  | GFloat f =>
      match float_integer f with
      | None => None
      | Some z =>
          if (z <? MinInt64)%Z || (MaxInt64 <? z)%Z then None
          else if (2 ^ 53 <=? z)%Z || (z <=? - 2 ^ 53)%Z then None
          else Some z
      end
  | GJSONNumber s => parseI64Rust s
  | _ => None
  end.

(** [RefKind]; [strPtr]. *)
Inductive RefKind := RefClass | RefEnum | RefOther (k : string).
Definition strPtr (s : string) : option string := if s =s "" then None else Some s.

Section Builder.
Variables (resolver : option (string -> option RefKind)) (classNames enumNames : gset string).

(** [builder.resolveRef]. *)
Definition resolveRef (name : string) : type + BuildErr :=
  match bool_decide (name ∈ classNames), bool_decide (name ∈ enumNames) with
  | true, true => inr (AmbiguousRef name)
  | true, false => inl (TypeClass noMeta name NonStreaming)
  | false, true => inl (TypeEnum noMeta name)
  | false, false =>
      match (r ← resolver; r name) with
      | Some RefClass => inl (TypeClass noMeta name NonStreaming)
      | Some RefEnum => inl (TypeEnum noMeta name)
      | Some (RefOther _) => inr (UnknownRefKind name)
      | None => inr (UnresolvedRef name)
      end
  end.

Fixpoint sequence {A E} (xs : list (A + E)) : list A + E :=
  match xs with
  | [] => inl []
  | inr e :: _ => inr e
  | inl x :: xs => match sequence xs with inl ys => inl (x :: ys) | inr e => inr e end
  end.

(** [builder.convertType], [convertProperty] and [convertSpec]. *)
Fixpoint convertType (s : DynamicTypeSpec) : type + BuildErr :=
  let '(mkSpec typ ref items inner oneOf keys values value) := s in
  if ref <>s "" then (if typ <>s "" then inr BothTypeAndRef else resolveRef ref)
  else if typ =s "" then inr NeitherTypeNorRef
  else if typ =s "string" then inl (TypePrimitive noMeta PrimitiveString)
  else if typ =s "int" then inl (TypePrimitive noMeta PrimitiveInt)
  else if typ =s "float" then inl (TypePrimitive noMeta PrimitiveFloat)
  else if typ =s "bool" then inl (TypePrimitive noMeta PrimitiveBool)
  else if typ =s "null" then inl (TypePrimitive noMeta PrimitiveNull)
  else if typ =s "list" then
    match items with
    | None => inr (RequiresPart typ)
    | Some s => match convertType s with inl e => inl (TypeList noMeta (Some e)) | inr e => inr e end
    end
  else if typ =s "optional" then
    match inner with
    | None => inr (RequiresPart typ)
    | Some s => match convertType s with inl t => inl (makeOptional t) | inr e => inr e end
    end
  else if typ =s "map" then
    match keys, values with
    | Some k, Some v =>
        match convertType k with
        | inr e => inr e
        | inl key => match convertType v with inl val => inl (TypeMap noMeta (Some key) (Some val)) | inr e => inr e end
        end
    | _, _ => inr (RequiresPart typ)
    end
  else if typ =s "union" then
    match oneOf with
    | [] => inr (RequiresPart typ)
    | _ =>
        match sequence (map (fun o => match o with Some s => convertType s | None => inr BuildNilSpec end) oneOf) with
        | inl choices => inl (makeUnion choices)
        | inr e => inr e
        end
    end
  else if typ =s "literal_string" then
    match value with GString str => inl (TypeLiteral noMeta (Some (LiteralString str))) | _ => inr (RequiresValue typ) end
  else if typ =s "literal_int" then
    match toInt64 value with Some n => inl (TypeLiteral noMeta (Some (LiteralInt n))) | None => inr (RequiresValue typ) end
  else if typ =s "literal_bool" then
    match value with GBool b => inl (TypeLiteral noMeta (Some (LiteralBool b))) | _ => inr (RequiresValue typ) end
  else inr (BuildUnknownType typ).

(** [builder.buildFields]. *)
Definition buildField (class : string) (p : string * option DynamicProperty) : ClassField + BuildErr :=
  match p.2 with
  | None => inr (BuildNilProperty class p.1)
  | Some prop =>
      match convertType (dp_Spec prop) with
      | inr e => inr e
      | inl ty => inl (mkClassField (mkName p.1 (strPtr (dp_Alias prop))) ty (strPtr (dp_Description prop)) false)
      end
  end.
Definition buildFields (class : string) (props : OrderedMap (option DynamicProperty)) : list ClassField + BuildErr :=
  sequence (buildField class <$> pointers props).
End Builder.

(** [buildEnum]. *)
Fixpoint buildValues (name : string) (i : nat) (vs : list (option DynamicEnumValue)) : list EnumValue + BuildErr :=
  match vs with
  | [] => inl []
  | None :: _ => inr (BuildNilValue name i)
  | Some v :: vs =>
      match buildValues name (S i) vs with
      | inr e => inr e
      | inl out =>
          inl (if dv_Skip v then out
               else mkEnumValue (mkName (dv_Name v) (strPtr (dv_Alias v))) (strPtr (dv_Description v)) :: out)
      end
  end.
Definition buildEnum (e : string * option DynamicEnum) : EnumDef + BuildErr :=
  match e.2 with
  | None => inr (BuildNilEnum e.1)
  | Some en =>
      match buildValues e.1 0 (de_Values en) with
      | inr err => inr err
      | inl vs => inl (mkEnumDef (mkName e.1 (strPtr (de_Alias en))) vs [] ∅ ∅)
      end
  end.
Definition buildClass resolver classNames enumNames (c : string * option DynamicClass) : ClassDef + BuildErr :=
  match c.2 with
  | None => inr (BuildNilClass c.1)
  | Some cls =>
      match buildFields resolver classNames enumNames c.1 (dc_Properties cls) with
      | inr e => inr e
      | inl fields =>
          inl (mkClassDef (mkName c.1 (strPtr (dc_Alias cls))) (strPtr (dc_Description cls)) NonStreaming fields []
                 (mkStreaming false false false) ∅ ∅)
      end
  end.

(** [FromDynamicOutputSchema]. *)
Definition syntheticClass (fields : list ClassField) : ClassDef :=
  mkClassDef (mkName dynamicOutputClassName None) None NonStreaming fields [] (mkStreaming false false false) ∅ ∅.
Definition outputTarget : type := TypeClass noMeta dynamicOutputClassName NonStreaming.
Fixpoint firstDup (seen : gset string) (names : list string) : option string :=
  match names with [] => None | n :: ns => if bool_decide (n ∈ seen) then Some n else firstDup seen ns end.
Definition lowerDefinitions (resolver : option (string -> option RefKind)) (s : DynamicOutputSchema) : list EnumDef * list ClassDef + BuildErr :=
  if bool_decide (dynamicOutputClassName ∈ Keys (os_Classes s)) then inr ReservedClass
  else
    let classNames : gset string := list_to_set (dynamicOutputClassName :: Keys (os_Classes s)) in
    let enumNames : gset string := list_to_set (Keys (os_Enums s)) in
    match firstDup classNames (Keys (os_Enums s)) with
    | Some n => inr (ClassAndEnum n)
    | None =>
        match sequence (buildEnum <$> pointers (os_Enums s)) with
        | inr e => inr e
        | inl es =>
            match buildFields resolver classNames enumNames dynamicOutputClassName (os_Properties s) with
            | inr e => inr e
            | inl fields =>
                match sequence (buildClass resolver classNames enumNames <$> pointers (os_Classes s)) with
                | inr e => inr e
                | inl cs => inl (es, syntheticClass fields :: cs)
                end
            end
        end
    end.
Definition FromDynamicOutputSchema (resolver : option (string -> option RefKind)) (o : option DynamicOutputSchema) : Bundle + BuildErr :=
  match o with
  | None => inr NilSchema
  | Some s =>
      match lowerDefinitions resolver s with
      | inr e => inr e
      | inl (es, cs) =>
          match orderByReachability (assignAll enumName es) (assignAll classKey cs) ∅ outputTarget with
          | None => inr WalkErr
          | Some (enums, classes, _) =>
              match RebuildIndexes (mkBundle outputTarget enums classes [] [] ∅ ∅ ∅) with
              | (b, None) => inl b
              | (_, Some e) => inr (IndexErr e)
              end
          end
      end
  end.
