(* ===== verification/DynamicLowering.v ===== *)
(** * DynamicLowering: what lowering a dynamic schema preserves

    The union simplifier keeps exactly the values of its choices, so a lowered type
    has exactly the values its specification describes; the types it builds are
    normal, which is what the coercer relies on. *)

From Stdlib Require Import Lia.
From stdpp Require Import pretty.
From S2P Require Import Prelude GoStrings GoValue Jsonish OrderedMap Schema CoerceTyping Reachability DynamicSchema.
Open Scope stdpp_scope.

(** ** Structural equality *)

Lemma listEqb_eq {A} (f : A -> A -> bool) xs : Forall (fun x => forall y, f x y = true <-> x = y) xs ->
  forall ys, listEqb f xs ys = true <-> xs = ys.
Proof.
  induction 1 as [|x xs Hx _ IH]; intros [|y ys]; simpl; [done|done|done|].
  rewrite andb_true_iff, Hx, IH. split; [by intros [-> ->]|by intros [= -> ->]].
Qed.

Lemma optEqb_eq {A} (f : A -> A -> bool) x : optP (fun x => forall y, f x y = true <-> x = y) x ->
  forall y, optEqb f x y = true <-> x = y.
Proof. destruct x as [x|]; intros Hx [y|]; simpl; [|done|done|done]. unfold optP in Hx. rewrite Hx. split; [by intros ->|by intros [= ->]]. Qed.

Lemma typeEqb_eq t : forall u, typeEqb t u = true <-> t = u.
Proof.
  induction t as [m|m p|m n|m l|m n d|m e IH|m k v IHk IHv|m n d|m ts IH|m a IH|m un IH|m k] using type_induction;
    intros [m'|m' p'|m' n'|m' l'|m' n' d'|m' e'|m' k' v'|m' n' d'|m' ts'|m' a'|m' un'|m' k']; cbn [typeEqb]; try done;
    rewrite ?andb_true_iff, ?bool_decide_eq_true; try (split; [intuition congruence|by intros [= -> ->]]);
    try (split; [intuition congruence|by intros [= -> -> ->]]).
  - split; [by intros ->|by intros [= ->]].
  - rewrite (optEqb_eq _ _ IH). split; [by intros [-> ->]|by intros [= -> ->]].
  - rewrite (optEqb_eq _ _ IHk), (optEqb_eq _ _ IHv). split; [by intros [[-> ->] ->]|by intros [= -> -> ->]].
  - rewrite (listEqb_eq _ _ IH). split; [by intros [-> ->]|by intros [= -> ->]].
  - destruct a as [[ps r]|], a' as [[ps' r']|]; try (split; [by intros [_ ?]|by intros [=]]); [|split; [by intros [-> _]|by intros [= ->]]].
    destruct IH as [Hp Hr]. simpl in Hp, Hr. rewrite andb_true_iff, (listEqb_eq _ _ Hp), Hr. split; [by intros (->&->&->)|by intros [= -> -> ->]].
  - destruct un as [[vs n]|], un' as [[vs' n']|]; try (split; [by intros [_ ?]|by intros [=]]); [|split; [by intros [-> _]|by intros [= ->]]].
    simpl in IH. rewrite andb_true_iff, bool_decide_eq_true, (listEqb_eq _ _ IH). split; [by intros (->&->&->)|by intros [= -> -> ->]].
Qed.

Lemma containsType_spec ts t : containsType ts t = true <-> t ∈ ts.
Proof.
  unfold containsType. rewrite existsb_exists. setoid_rewrite typeEqb_eq. split.
  - intros (u&Hu&->). by apply list_elem_of_In.
  - intros H. exists t. split; [by apply list_elem_of_In|done].
Qed.

(** ** The variants of a union *)

Lemma isNull_spec t : isNull t = true <-> exists m, t = TypePrimitive m PrimitiveNull.
Proof. split; [destruct t as [|? []| | | | | | | | | |]; try done; by eexists|by intros [m ->]]. Qed.

(** The variants are the non-null types met, each once, in their order; the flag
    says whether a null was met. *)
Lemma distinctVariants_spec ts : forall seen, NoDup seen ->
  let '(hasNull, vs) := distinctVariants seen ts in
  hasNull = existsb isNull ts /\ NoDup vs /\ (exists new, vs = seen ++ new)
  /\ (forall t, t ∈ vs <-> t ∈ seen \/ (t ∈ ts /\ isNull t = false)).
Proof.
  induction ts as [|t ts IH]; intros seen Hn; simpl.
  { split_and!; [done|done|by exists []; rewrite app_nil_r|set_solver]. }
  destruct (isNull t) eqn:Ht; [|destruct (containsType seen t) eqn:Hc].
  - specialize (IH seen Hn). destruct (distinctVariants seen ts) as [h vs]. destruct IH as (Hh&Hv&Hnew&Hin). simpl.
    split_and!; [done|done|done|]. intros u. rewrite Hin, elem_of_cons. intuition congruence.
  - specialize (IH seen Hn). destruct (distinctVariants seen ts) as [h vs]. destruct IH as (Hh&Hv&Hnew&Hin).
    split_and!; [done|done|done|]. apply containsType_spec in Hc. intros u. rewrite Hin, elem_of_cons. intuition congruence.
  - assert (t ∉ seen) as Hnot by (rewrite <- containsType_spec; congruence).
    specialize (IH (seen ++ [t])). destruct (distinctVariants (seen ++ [t]) ts) as [h vs].
    destruct IH as (Hh&Hv&[new ->]&Hin).
    { apply NoDup_app. split_and!; [done| |apply NoDup_singleton]. intros x Hx ->%list_elem_of_singleton. done. }
    split_and!; [done|done|exists ([t] ++ new); by rewrite app_assoc|].
    intros u. rewrite Hin, elem_of_app, list_elem_of_singleton, elem_of_cons. intuition congruence.
Qed.

Lemma elem_of_flat_map {A B} (f : A -> list B) l y : y ∈ concat (map f l) <-> exists x, x ∈ l /\ y ∈ f x.
Proof.
  induction l as [|x l IH]; simpl; [set_solver|]. rewrite elem_of_app, IH. setoid_rewrite elem_of_cons. naive_solver.
Qed.

Section Values.
Variable b : Bundle.

Lemma hasType_null m v : hasType b (TypePrimitive m PrimitiveNull) v <-> exists i, v = valNull i.
Proof. split; [inversion 1; by eexists|intros [i ->]; constructor]. Qed.

Lemma hasType_union m vs nullable v : hasType b (TypeUnion m (Some (vs, nullable))) v
  <-> (exists t, t ∈ vs /\ hasType b t v) \/ (nullable = true /\ exists i, v = valNull i).
Proof.
  split.
  - inversion 1; subst; [left|right]; eauto.
  - intros [(t&Ht&Hv)|[-> [i ->]]]; [by eapply type_arm|constructor].
Qed.

Lemma flatten_self t v : hasType b t v <-> exists u, u ∈ [t] /\ hasType b u v.
Proof. split; [intros H; exists t; set_solver|]. by intros (w&->%list_elem_of_singleton&H). Qed.

Lemma flatten_values t : forall v, hasType b t v <-> exists u, u ∈ flattenForUnion t /\ hasType b u v.
Proof.
  induction t as [| | | | | |m k w IHk IHw| | | |m [[vs n]|] IH|] using type_induction; intros v; try by apply flatten_self.
  cbn [flattenForUnion optP fst] in *. case_bool_decide as Hc; [|apply flatten_self].
  rewrite hasType_union. setoid_rewrite elem_of_app. setoid_rewrite elem_of_flat_map.
  rewrite Forall_forall in IH. split.
  - intros [(t&Ht&Hv)|[-> [i ->]]].
    + apply (IH t Ht) in Hv as (u&Hu&Hv). exists u. eauto.
    + exists nullType. split; [right; set_solver|constructor].
  - intros (u&[(t&Ht&Hu)|Hu]&Hv).
    + left. exists t. split; [done|]. apply (IH t Ht). by exists u.
    + right. destruct n; [|by apply not_elem_of_nil in Hu]. apply list_elem_of_singleton in Hu as ->. by apply hasType_null in Hv.
Qed.

Lemma simplify_values cs v : concat (map flattenForUnion cs) <> [] ->
  hasType b (simplifyUnion cs) v <-> exists c, c ∈ cs /\ hasType b c v.
Proof.
  intros Hne. transitivity (exists u, u ∈ concat (map flattenForUnion cs) /\ hasType b u v).
  2:{ setoid_rewrite elem_of_flat_map. setoid_rewrite (flatten_values _ v) at 2. naive_solver. }
  unfold simplifyUnion. set (ts := concat (map flattenForUnion cs)) in *.
  pose proof (distinctVariants_spec ts [] ltac:(constructor)) as Hd. destruct (distinctVariants [] ts) as [h vs].
  destruct Hd as (Hh&_&_&Hin).
  assert ((exists u, u ∈ ts /\ hasType b u v) <-> (exists u, u ∈ vs /\ hasType b u v) \/ (h = true /\ exists i, v = valNull i)) as ->.
  { split.
    - intros (u&Hu&Hv). destruct (isNull u) eqn:Hn.
      + right. split; [rewrite Hh; apply existsb_exists; exists u; split; [by apply list_elem_of_In|done]|].
        apply isNull_spec in Hn as [m ->]. by apply hasType_null in Hv.
      + left. exists u. split; [|done]. apply Hin. by right.
    - intros [(u&Hu&Hv)|[Hn [i ->]]].
      + exists u. split; [|done]. apply Hin in Hu as [[]%not_elem_of_nil|[]]. done.
      + rewrite Hh in Hn. apply existsb_exists in Hn as (u&Hu%list_elem_of_In&[m ->]%isNull_spec). eexists. split; [done|constructor]. }
  destruct vs as [|x [|y vs]].
  - assert (h = true) as ->.
    { destruct ts as [|t ts]; [done|]. destruct (isNull t) eqn:Hn; [by rewrite Hh; simpl; rewrite Hn|].
      exfalso. apply (not_elem_of_nil t). apply Hin. right. set_solver. }
    unfold nullType. rewrite hasType_null. set_solver.
  - destruct h; [rewrite hasType_union; set_solver|].
    split; [intros H; left; exists x; set_solver|]. intros [(u&->%list_elem_of_singleton&H)|[? _]]; done.
  - destruct h; by rewrite hasType_union.
Qed.
End Values.

(** ** Normal types *)

(** What lowering builds: no metadata, references of known names, unions flat,
    without null and repeated variants, nullable when they have one variant. *)
Section Normal.
Variables (isClass isEnum : string -> Prop).

Definition plainUnion (t : type) : bool := match t with TypeUnion _ _ => true | _ => false end.

Inductive normal : type -> Prop :=
  | normal_primitive p : p ∈ [PrimitiveString; PrimitiveInt; PrimitiveFloat; PrimitiveBool; PrimitiveNull] ->
      normal (TypePrimitive noMeta p)
  | normal_literal l : goodLiteral l -> normal (TypeLiteral noMeta (Some l))
  | normal_class n : isClass n -> normal (TypeClass noMeta n NonStreaming)
  | normal_enum n : isEnum n -> normal (TypeEnum noMeta n)
  | normal_list e : normal e -> normal (TypeList noMeta (Some e))
  | normal_map k v : normal k -> normal v -> normal (TypeMap noMeta (Some k) (Some v))
  | normal_union vs nullable : vs <> [] -> (length vs = 1 -> nullable = true) -> NoDup vs -> Forall normal vs ->
      Forall (fun v => isNull v = false /\ plainUnion v = false) vs -> normal (TypeUnion noMeta (Some (vs, nullable))).

Lemma normal_null : normal nullType.
Proof. constructor. set_solver. Qed.

Lemma normal_pair t : normal t -> Forall normal [t; nullType].
Proof. intros Ht. constructor; [done|]. constructor; [apply normal_null|constructor]. Qed.

Lemma flatten_single t : plainUnion t = false -> flattenForUnion t = [t].
Proof. by destruct t. Qed.

Lemma flatten_normal t : normal t -> flattenForUnion t <> [] /\ Forall (fun u => normal u /\ plainUnion u = false) (flattenForUnion t).
Proof.
  intros Hn. assert (plainUnion t = false -> flattenForUnion t <> [] /\ Forall (fun u => normal u /\ plainUnion u = false) (flattenForUnion t)) as Hs.
  { intros Ht. rewrite flatten_single by done. split; [done|]. by repeat constructor. }
  destruct Hn as [| | | | | |vs nullable Hne Hone Hnd Hall Hv]; try by apply Hs. cbn [flattenForUnion]. simpl.
  assert (concat (map flattenForUnion vs) = vs) as ->.
  { clear -Hv. induction Hv as [|v vs [_ Hv] _ IH]; [done|]. simpl. by rewrite flatten_single, IH. }
  split; [by destruct vs|]. apply Forall_app. split.
  - rewrite Forall_forall in *. intros u Hu. split; [by apply Hall|by apply Hv].
  - destruct nullable; by repeat constructor.
Qed.

Lemma simplify_normal cs : cs <> [] -> Forall normal cs -> normal (simplifyUnion cs) /\ concat (map flattenForUnion cs) <> [].
Proof.
  intros Hne Hc.
  assert (Forall (fun u => normal u /\ plainUnion u = false) (concat (map flattenForUnion cs))) as Hf.
  { rewrite Forall_forall in *. intros u (c&Hin&Hu)%elem_of_flat_map. destruct (flatten_normal c (Hc c Hin)) as [_ H].
    rewrite Forall_forall in H. by apply H. }
  split.
  2:{ destruct cs as [|c cs]; [done|]. inversion Hc; subst. destruct (flatten_normal c) as [H _]; [done|].
      simpl. by destruct (flattenForUnion c). }
  unfold simplifyUnion. pose proof (distinctVariants_spec (concat (map flattenForUnion cs)) [] ltac:(constructor)) as Hd.
  destruct (distinctVariants [] (concat (map flattenForUnion cs))) as [h vs]. destruct Hd as (_&Hnd&_&Hin).
  assert (Forall (fun u => normal u /\ isNull u = false /\ plainUnion u = false) vs) as Hvs.
  { rewrite Forall_forall in *. intros u [[]%not_elem_of_nil|[Hu Hn]]%Hin. destruct (Hf u Hu). done. }
  assert (normal (TypeUnion noMeta (Some (vs, h))) \/ vs = [] \/ (h = false /\ exists v, vs = [v])) as [Hu|[->|(->&v&->)]].
  { destruct (decide (vs = [])) as [|Hv]; [auto|]. destruct (decide (length vs = 1 /\ h = false)) as [[Hl ->]|Hl].
    - right. right. split; [done|]. destruct vs as [|v [|]]; try done. by exists v.
    - left. constructor; try done; [destruct h; intuition congruence| |]; eapply Forall_impl; eauto; naive_solver. }
  - destruct h, vs as [|v [|? ?]]; try done; try apply normal_null. by inversion Hvs as [|? ? [? _]].
  - destruct h; apply normal_null.
  - by inversion Hvs as [|? ? [? _]].
Qed.

Lemma makeUnion_normal cs : cs <> [] -> Forall normal cs -> normal (makeUnion cs).
Proof.
  intros Hne Hc. destruct cs as [|c [|c' cs]]; [done|by inversion Hc|]. by apply simplify_normal.
Qed.

Lemma normal_collapsed t : normal t -> collapsed t = true.
Proof.
  revert t. fix IH 2. intros t Hn. destruct Hn as [| | | |e He|k v _ Hv|vs nullable _ Hone _ Hall _]; try done; simpl.
  - by apply IH.
  - by apply IH.
  - apply andb_true_iff. split; [destruct vs as [|? [|]]; try done; by apply Hone|].
    clear Hone. induction Hall as [|v vs Hv _ IHvs]; [done|]. simpl. by rewrite IHvs, (IH v Hv).
Qed.
End Normal.

Lemma makeUnion_values b isClass isEnum cs v : cs <> [] -> Forall (normal isClass isEnum) cs ->
  hasType b (makeUnion cs) v <-> exists c, c ∈ cs /\ hasType b c v.
Proof.
  intros Hne Hc. destruct cs as [|c [|c' cs]]; [done| |].
  - simpl. setoid_rewrite list_elem_of_singleton. naive_solver.
  - apply simplify_values. by eapply simplify_normal.
Qed.

(** ** The meaning of a specification *)

Section SpecInd.
Variable P : DynamicTypeSpec -> Prop.
Hypothesis HSpec : forall typ ref items inner oneOf keys values value,
  optP P items -> optP P inner -> Forall (optP P) oneOf -> optP P keys -> optP P values ->
  P (mkSpec typ ref items inner oneOf keys values value).

Fixpoint spec_induction (s : DynamicTypeSpec) : P s :=
  let opt (o : option DynamicTypeSpec) : optP P o := match o with Some s => spec_induction s | None => I end in
  let all := fix all (l : list (option DynamicTypeSpec)) : Forall (optP P) l :=
    match l with [] => Forall_nil_2 _ | o :: l => Forall_cons_2 _ o l (opt o) (all l) end in
  let '(mkSpec typ ref items inner oneOf keys values value) := s in
  HSpec typ ref items inner oneOf keys values value (opt items) (opt inner) (all oneOf) (opt keys) (opt values).
End SpecInd.

Lemma sequence_inl {A E} (xs : list (A + E)) ys : sequence xs = inl ys <-> Forall2 (fun x y => x = inl y) xs ys.
Proof.
  revert ys. induction xs as [|[x|e] xs IH]; intros ys; simpl.
  - split; [intros [= <-]; constructor|by inversion 1].
  - destruct (sequence xs) as [zs|e] eqn:Hs.
    + split; [intros [= <-]; constructor; [done|by apply IH]|]. inversion 1 as [|? y ? ys' Hx Hf]; subst.
      apply IH in Hf as [= ->]. by injection Hx as ->.
    + split; [done|]. inversion 1 as [|? y ? ys' Hx Hf]; subst. by apply IH in Hf.
  - split; [done|]. by inversion 1.
Qed.

Section Meaning.
Variables (resolver : option (string -> option RefKind)) (classNames enumNames : gset string) (b : Bundle).
Implicit Types (it inn k w : option DynamicTypeSpec) (oo : list (option DynamicTypeSpec)) (x : goval).

(** The values a specification describes. *)
Inductive describes : DynamicTypeSpec -> value -> Prop :=
  | says_ref r it inn oo k w x t v : r <> "" -> resolveRef resolver classNames enumNames r = inl t -> hasType b t v ->
      describes (mkSpec "" r it inn oo k w x) v
  | says_string it inn oo k w x i s : describes (mkSpec "string" "" it inn oo k w x) (valString i s)
  | says_int it inn oo k w x i f z : (MinInt64 <= z <= MaxInt64)%Z ->
      describes (mkSpec "int" "" it inn oo k w x) (valNumber i f (pretty z))
  | says_float it inn oo k w x i f tok : isJSONNumber tok = true -> describes (mkSpec "float" "" it inn oo k w x) (valNumber i f tok)
  | says_bool it inn oo k w x i y : describes (mkSpec "bool" "" it inn oo k w x) (valBool i y)
  | says_null it inn oo k w x i : describes (mkSpec "null" "" it inn oo k w x) (valNull i)
  | says_list s inn oo k w x i vs : Forall (describes s) vs -> describes (mkSpec "list" "" (Some s) inn oo k w x) (valArray i vs)
  | says_some s it oo k w x v : describes s v -> describes (mkSpec "optional" "" it (Some s) oo k w x) v
  | says_none s it oo k w x i : describes (mkSpec "optional" "" it (Some s) oo k w x) (valNull i)
  | says_map s1 s2 it inn oo x i kvs : NoDup kvs.*1 -> Forall (fun kv => describes s2 kv.2) kvs ->
      describes (mkSpec "map" "" it inn oo (Some s1) (Some s2) x) (valObject i kvs)
  | says_variant s it inn oo k w x v : Some s ∈ oo -> describes s v -> describes (mkSpec "union" "" it inn oo k w x) v
  | says_lit_string it inn oo k w i s : describes (mkSpec "literal_string" "" it inn oo k w (GString s)) (valString i s)
  | says_lit_int it inn oo k w x i f z : toInt64 x = Some z -> describes (mkSpec "literal_int" "" it inn oo k w x) (valNumber i f (pretty z))
  | says_lit_bool it inn oo k w i y : describes (mkSpec "literal_bool" "" it inn oo k w (GBool y)) (valBool i y).

Definition knownClass (n : string) : Prop := n ∈ classNames \/ ((n ∉ enumNames) /\ mbind (fun r => r n) resolver = Some RefClass).
Definition knownEnum (n : string) : Prop := n ∈ enumNames \/ ((n ∉ classNames) /\ mbind (fun r => r n) resolver = Some RefEnum).

Lemma resolveRef_normal n t : resolveRef resolver classNames enumNames n = inl t -> normal knownClass knownEnum t.
Proof.
  unfold resolveRef. intros H. repeat case_bool_decide; try done; [injection H as <-|injection H as <-|].
  - constructor. by left.
  - constructor. by left.
  - destruct (r ← resolver; r n) as [[]|] eqn:Hr; try done; injection H as <-; constructor; by right.
Qed.

Lemma hasType_list m e v : hasType b (TypeList m (Some e)) v <-> exists i xs, v = valArray i xs /\ Forall (hasType b e) xs.
Proof.
  split; [|by intros (i&xs&->&H); constructor]. inversion 1; subst; [by eexists _, []|by eexists _, _].
Qed.

Lemma hasType_map m key e v : hasType b (TypeMap m (Some key) (Some e)) v
  <-> exists i kvs, v = valObject i kvs /\ NoDup kvs.*1 /\ Forall (fun kv => hasType b e kv.2) kvs.
Proof.
  split; [|by intros (i&xs&->&H1&H2); constructor]. inversion 1; subst; [|by eexists _, _].
  eexists _, []. split_and!; [done|constructor|constructor].
Qed.

Definition lowers (s : DynamicTypeSpec) : Prop := forall t, convertType resolver classNames enumNames s = inl t ->
  normal knownClass knownEnum t /\ forall v, hasType b t v <-> describes s v.

(** The choices of a union. *)
Lemma choices_spec oo cs : Forall (optP lowers) oo ->
  sequence (map (fun o => match o with Some s => convertType resolver classNames enumNames s | None => inr BuildNilSpec end) oo) = inl cs ->
  length cs = length oo /\ Forall (normal knownClass knownEnum) cs
  /\ forall v, (exists c, c ∈ cs /\ hasType b c v) <-> exists s, Some s ∈ oo /\ describes s v.
Proof.
  intros Ho Hs%sequence_inl. revert cs Hs. induction Ho as [|o oo Ho _ IH]; simpl; intros cs Hs; inversion Hs as [|? c ? cs' Hc Hcs]; subst.
  { split_and!; [done|constructor|]. intros v. split; intros (?&[]%not_elem_of_nil&_). }
  destruct (IH _ Hcs) as (Hl&Hn&Hv). destruct o as [s|]; [|done]. destruct (Ho c Hc) as [Hcn Hcv].
  split_and!; [by simpl; f_equal|by constructor|]. intros v. setoid_rewrite elem_of_cons. split.
  - intros (c'&[->|Hin]&Ht); [exists s; split; [by left|by apply Hcv]|].
    destruct (proj1 (Hv v)) as (s'&Hs'&Hd); [by eauto|]. exists s'. split; [by right|done].
  - intros (s'&[[= ->]|Hin]&Hd); [exists c; split; [by left|by apply Hcv]|].
    destruct (proj2 (Hv v)) as (c'&Hc'&Ht); [by eauto|]. exists c'. split; [by right|done].
Qed.

Lemma optional_values t v : normal knownClass knownEnum t ->
  hasType b (makeOptional t) v <-> hasType b t v \/ exists i, v = valNull i.
Proof.
  intros Ht. unfold makeOptional. destruct (isNull t) eqn:Hn.
  - apply isNull_spec in Hn as [m ->]. rewrite hasType_null. naive_solver.
  - rewrite (makeUnion_values b knownClass knownEnum); [|done|by apply normal_pair].
    setoid_rewrite elem_of_cons. setoid_rewrite list_elem_of_singleton. split.
    + intros (c&[->| ->]&H); [by left|]. right. by apply hasType_null in H.
    + intros [H|[i ->]]; [by eauto|]. exists nullType. split; [by right|constructor].
Qed.

Ltac kind typ name := let H := fresh in destruct (typ =s name) eqn:H; [apply String.eqb_eq in H; subst typ|clear H].
Ltac done_kind := split; [by repeat constructor|]; intros v; split; inversion 1; subst; by constructor.

Lemma convertType_lowers s : lowers s.
Proof.
  induction s as [typ ref it inn oo k w x Hit Hinn Hoo Hk Hw] using spec_induction. intros t. cbn [convertType].
  destruct (ref <>s "") eqn:Hr.
  { destruct (typ <>s "") eqn:Ht; [done|]. apply negb_false_iff, String.eqb_eq in Ht as ->. apply negb_true_iff, String.eqb_neq in Hr.
    intros Hres. split; [by eapply resolveRef_normal|]. intros v. split; [by econstructor|]. inversion 1; subst; congruence. }
  apply negb_false_iff, String.eqb_eq in Hr as ->. destruct (typ =s "") eqn:Hz; [done|]. clear Hz.
  kind typ "string"; [intros [= <-]; done_kind|]. kind typ "int"; [intros [= <-]; done_kind|].
  kind typ "float"; [intros [= <-]; done_kind|]. kind typ "bool"; [intros [= <-]; done_kind|].
  kind typ "null"; [intros [= <-]; done_kind|].
  kind typ "list".
  { destruct it as [s|]; [|done]. destruct (convertType _ _ _ s) as [e|] eqn:He; [|done]. intros [= <-].
    destruct (Hit e He) as [Hn Hv]. split; [by constructor|]. intros v. rewrite hasType_list. split.
    - intros (i&xs&->&H). constructor. eapply Forall_impl; [done|]. intros y. by apply Hv.
    - inversion 1; subst. eexists _, _. split; [done|]. eapply Forall_impl; [done|]. intros y. by apply Hv. }
  kind typ "optional".
  { destruct inn as [s|]; [|done]. destruct (convertType _ _ _ s) as [u|] eqn:He; [|done]. intros [= <-].
    destruct (Hinn u He) as [Hn Hv]. split; [unfold makeOptional; destruct (isNull u); [done|apply makeUnion_normal; [done|by apply normal_pair]]|].
    intros v. rewrite optional_values by done. rewrite Hv. split; [intros [H|[i ->]]; by constructor|]. inversion 1; subst; eauto. }
  kind typ "map".
  { destruct k as [s1|], w as [s2|]; try done. destruct (convertType _ _ _ s1) as [e1|] eqn:He1; [|done].
    destruct (convertType _ _ _ s2) as [e2|] eqn:He2; [|done]. intros [= <-]. destruct (Hk e1 He1) as [Hn1 _], (Hw e2 He2) as [Hn2 Hv].
    split; [by constructor|]. intros v. rewrite hasType_map. split.
    - intros (i&kvs&->&Hnd&H). constructor; [done|]. eapply Forall_impl; [done|]. intros y. by apply Hv.
    - inversion 1; subst. eexists _, _. split_and!; [done|done|]. eapply Forall_impl; [done|]. intros y. by apply Hv. }
  kind typ "union".
  { destruct oo as [|o oo]; [done|]. destruct (sequence _) as [cs|] eqn:Hs; [|done]. intros [= <-].
    destruct (choices_spec _ _ Hoo Hs) as (Hl&Hn&Hv). assert (cs <> []) as Hne by by destruct cs.
    split; [by apply makeUnion_normal|]. intros v. rewrite (makeUnion_values b knownClass knownEnum) by done. rewrite Hv.
    split; [intros (s&Hin&Hd); by econstructor|]. inversion 1; subst; eauto. }
  kind typ "literal_string"; [destruct x; try done; intros [= <-]; done_kind|].
  kind typ "literal_int".
  { destruct (toInt64 x) as [n|] eqn:Hx; [|done]. intros [= <-]. split; [by repeat constructor|].
    intros v. split; inversion 1; subst; [by constructor|]. assert (z = n) as -> by congruence. constructor. }
  kind typ "literal_bool"; [destruct x; try done; intros [= <-]; done_kind|done].
Qed.
End Meaning.

(** C34. Lowering keeps the meaning of a specification: whatever the bundle, the lowered
    type has exactly the values the specification describes, unions flattened,
    deduplicated and made nullable or not. *)
Theorem lowering_meaning resolver classNames enumNames b s t v :
  convertType resolver classNames enumNames s = inl t ->
  hasType b t v <-> describes resolver classNames enumNames b s v.
Proof. intros Ht. apply (convertType_lowers resolver classNames enumNames b s t Ht). Qed.

(** [string? | (int | string)]. *)
Definition prim (typ : string) : DynamicTypeSpec := mkSpec typ "" None None [] None None GNil.
Definition nested : DynamicTypeSpec :=
  mkSpec "union" "" None None
    [Some (mkSpec "optional" "" None (Some (prim "string")) [] None None GNil);
     Some (mkSpec "union" "" None None [Some (prim "int"); Some (prim "string")] None None GNil)] None None GNil.
Definition emptyBundle : Bundle := mkBundle outputTarget [] [] [] [] ∅ ∅ ∅.

Lemma lowering_meaning_witness :
  hasType emptyBundle (TypeUnion noMeta (Some ([TypePrimitive noMeta PrimitiveString; TypePrimitive noMeta PrimitiveInt], true))) (valNull false)
  <-> describes None ∅ ∅ emptyBundle nested (valNull false).
Proof. apply (lowering_meaning None ∅ ∅ emptyBundle nested). vm_compute. reflexivity. Defined.
