(* ===== verification/DisplayKey.v ===== *)
(** * DisplayKey: display keys tell lowered types apart

    The walk compares types by their display keys.  When names are identifiers
    other than the reserved words and string literals hold no quote, different
    lowered types have different keys; without the second condition they need not. *)

From Stdlib Require Import Lia Ascii.
From stdpp Require Import pretty.
From S2P Require Import Prelude GoStrings GoValue Jsonish OrderedMap Schema CoerceTyping NumberValid Reachability DynamicSchema DynamicLowering.
Open Scope stdpp_scope.

(** ** Words and the text after them *)

Definition wordChar (c : ascii) : bool :=
  let n := nat_of_ascii c in
  (48 <=? n)%nat && (n <=? 57)%nat || (65 <=? n)%nat && (n <=? 90)%nat || (97 <=? n)%nat && (n <=? 122)%nat
  || (n =? 95)%nat || (n =? 45)%nat.
Definition startChar (c : ascii) : bool :=
  let n := nat_of_ascii c in (65 <=? n)%nat && (n <=? 90)%nat || (97 <=? n)%nat && (n <=? 122)%nat || (n =? 95)%nat.
Definition notQuote (c : ascii) : bool := negb (nat_of_ascii c =? 34)%nat.

Definition reserved : list string := ["string"; "int"; "float"; "bool"; "null"; "true"; "false"].

(** An identifier that is not reserved. *)
Definition goodName (n : string) : bool :=
  match n with EmptyString => false | String c _ => startChar c end && sall wordChar n && negb (bool_decide (n ∈ reserved)).

(** String literals without quotes. *)
Fixpoint quoteFree (t : type) : bool :=
  match t with
  | TypeLiteral _ (Some (LiteralString s)) => sall notQuote s
  | TypeList _ (Some e) => quoteFree e
  | TypeMap _ k v => match k with Some k => quoteFree k | None => true end && match v with Some v => quoteFree v | None => true end
  | TypeUnion _ (Some (vs, _)) => forallb quoteFree vs
  | TypeTuple _ items => forallb quoteFree items
  | _ => true
  end.

(** The text is empty or does not go on with such a character. *)
Definition stopsAt (p : ascii -> bool) (r : string) : Prop := match r with String c _ => p c = false | EmptyString => True end.

Lemma munch p w : forall w' r r', sall p w = true -> sall p w' = true -> stopsAt p r -> stopsAt p r' ->
  w +:+ r = w' +:+ r' -> w = w' /\ r = r'.
Proof.
  induction w as [|c w IH]; intros [|c' w'] r r' Hw Hw' Hr Hr' He; simpl in *.
  - done.
  - subst r. simpl in Hr. by rewrite Hr in Hw'.
  - subst r'. simpl in Hr'. by rewrite Hr' in Hw.
  - injection He as -> He. apply andb_true_iff in Hw as [_ Hw], Hw' as [_ Hw'].
    destruct (IH w' r r' Hw Hw' Hr Hr' He) as [-> ->]. done.
Qed.

Lemma digit_word s : sall isDigit s = true -> sall wordChar s = true.
Proof.
  induction s as [|c s IH]; [done|]. simpl. intros [Hc Hs]%andb_true_iff. rewrite IH by done.
  destruct c as [[] [] [] [] [] [] [] []]; try done.
Qed.
Lemma digit_not_start c : isDigit c = true -> startChar c = false.
Proof. by destruct c as [[] [] [] [] [] [] [] []]. Qed.

(** A decimal integer is a word that no identifier equals. *)
Lemma pretty_word (z : Z) : sall wordChar (pretty z) = true /\ exists c r, pretty z = String c r /\ startChar c = false.
Proof.
  destruct (pretty_N_numeral (Z.to_N (Z.abs z))) as [Hn _]. rewrite pretty_Z_text. set (d := pretty _) in *.
  assert (exists c r, d = String c r /\ isDigit c = true /\ sall isDigit r = true) as (c&r&->&Hc&Hr).
  { destruct Hn as [->|(c&t&->&Hc&_&Ht)]; [by eexists _, ""|by eexists _, _]. }
  pose proof (digit_word (String c r)) as Hw. simpl in Hw. rewrite Hc, Hr in Hw. specialize (Hw eq_refl).
  destruct (z <? 0)%Z; simpl; (split; [done|]); eexists _, _; (split; [done|]); [done|by apply digit_not_start].
Qed.

(** ** Types that are words *)

Definition wordOf (t : type) : option string :=
  match t with
  | TypePrimitive _ _ | TypeEnum _ _ | TypeClass _ _ _ | TypeLiteral _ (Some (LiteralInt _)) | TypeLiteral _ (Some (LiteralBool _)) =>
      Some (displayKey t)
  | _ => None
  end.

Section Injective.
Variables (isClass isEnum : string -> Prop).
Hypothesis class_good : forall n, isClass n -> goodName n = true.
Hypothesis enum_good : forall n, isEnum n -> goodName n = true.
Hypothesis disjoint : forall n, isClass n -> isEnum n -> False.

Lemma goodName_word n : goodName n = true -> sall wordChar n = true /\ (n ∉ reserved) /\ exists c r, n = String c r /\ startChar c = true.
Proof.
  unfold goodName. intros [[Hs Hw]%andb_true_iff Hr%negb_true_iff%bool_decide_eq_false]%andb_true_iff.
  destruct n as [|c r]; [done|]. split_and!; [done|done|by eexists _, _].
Qed.

(** A word is a reserved one, a decimal integer or a name. *)
Inductive wordKind : type -> string -> Prop :=
  | word_reserved t w : (w ∈ reserved) -> (t = TypePrimitive noMeta PrimitiveString /\ w = "string"
      \/ t = TypePrimitive noMeta PrimitiveInt /\ w = "int" \/ t = TypePrimitive noMeta PrimitiveFloat /\ w = "float"
      \/ t = TypePrimitive noMeta PrimitiveBool /\ w = "bool" \/ t = nullType /\ w = "null"
      \/ t = TypeLiteral noMeta (Some (LiteralBool true)) /\ w = "true"
      \/ t = TypeLiteral noMeta (Some (LiteralBool false)) /\ w = "false") -> wordKind t w
  | word_int z : wordKind (TypeLiteral noMeta (Some (LiteralInt z))) (pretty z)
  | word_class n : isClass n -> wordKind (TypeClass noMeta n NonStreaming) n
  | word_enum n : isEnum n -> wordKind (TypeEnum noMeta n) n.

Ltac pick := first [left; split; reflexivity | right; pick | split; reflexivity].

Lemma wordOf_kind t w : normal isClass isEnum t -> wordOf t = Some w -> displayKey t = w /\ wordKind t w.
Proof.
  intros [p Hp|l Hl|n Hn|n Hn| | |]; simpl; try done.
  - intros [= <-]. split; [done|]. destruct p; try (exfalso; set_solver); (apply word_reserved; [unfold reserved; simpl; set_solver|pick]).
  - destruct Hl as [s|z|x]; [done|intros [= <-]; split; [done|apply word_int]|]. intros [= <-]. split; [done|].
    destruct x; (apply word_reserved; [unfold reserved; simpl; set_solver|pick]).
  - intros [= <-]. split; [done|]. by apply word_class.
  - intros [= <-]. split; [done|]. by apply word_enum.
Qed.

Lemma wordKind_word t w : wordKind t w -> sall wordChar w = true.
Proof.
  destruct 1 as [t w _ Hw|z|n Hn|n Hn].
  - by destruct_or! Hw; destruct Hw as [_ ->].
  - apply pretty_word.
  - by apply goodName_word, class_good.
  - by apply goodName_word, enum_good.
Qed.

Lemma reserved_start w : w ∈ reserved -> exists c r, w = String c r /\ startChar c = true.
Proof. unfold reserved. intros H. repeat (apply elem_of_cons in H as [->|H]; [by eexists _, _|]). by apply not_elem_of_nil in H. Qed.

(** A word that starts like an identifier, or not. *)
Lemma wordKind_start t w : wordKind t w -> exists c r, w = String c r
  /\ startChar c = match t with TypeLiteral _ (Some (LiteralInt _)) => false | _ => true end.
Proof.
  destruct 1 as [t w Hr Hw|z|n Hn|n Hn].
  - destruct (reserved_start _ Hr) as (c&r&->&Hc). exists c, r. split; [done|]. rewrite Hc.
    by destruct_or! Hw; destruct Hw as [-> _].
  - apply pretty_word.
  - by apply goodName_word, class_good.
  - by apply goodName_word, enum_good.
Qed.

Lemma wordKind_inj t w u w' : wordKind t w -> wordKind u w' -> w = w' -> t = u.
Proof.
  intros Ht Hu. destruct (wordKind_start _ _ Ht) as (c&r&Hc&Hs), (wordKind_start _ _ Hu) as (c'&r'&Hc'&Hs'). intros He.
  assert (startChar c = startChar c') as Hss by congruence. rewrite Hs, Hs' in Hss. clear Hc Hc' Hs Hs'.
  assert (forall n, isClass n \/ isEnum n -> n ∈ reserved -> False) as Hno.
  { intros n [H|H] Hr; [apply class_good in H|apply enum_good in H]; by destruct (goodName_word _ H) as (_&?&_). }
  destruct Ht as [t w Hr Hw|z|n Hn|n Hn], Hu as [u w' Hr' Hw'|z'|n' Hn'|n' Hn']; subst; try done; try by exfalso; eauto.
  - destruct_or! Hw; destruct Hw as [-> ->]; destruct_or! Hw'; destruct Hw' as [-> ?]; done.
  - by destruct_or! Hw; destruct Hw as [-> _].
  - by destruct_or! Hw'; destruct Hw' as [-> _].
  - apply (inj pretty) in He. by subst.
Qed.

(** ** Keys followed by a delimiter *)

Definition restOK (r : string) : Prop := stopsAt (fun c => wordChar c || (c =c "<")) r.
Definition tight (r : string) : Prop := stopsAt (fun c => wordChar c || (c =c "<") || (c =c "[")) r.
Definition okType (t : type) : Prop := normal isClass isEnum t /\ quoteFree t = true.

(** The key of [t] is read back from any text it starts, up to a delimiter. *)
Definition decodes (t : type) : Prop := forall u r r', okType u -> tight r -> tight r' ->
  displayKey t +:+ r = displayKey u +:+ r' -> t = u /\ r = r'.

Lemma restOK_word r : restOK r -> stopsAt wordChar r.
Proof. destruct r as [|c r]; [done|]. unfold restOK. simpl. by intros [? _]%orb_false_iff. Qed.

(** The members of a union, joined. *)
Lemma join_inj ts : forall us r r', Forall (fun t => okType t /\ decodes t) ts -> Forall okType us -> ts <> [] -> us <> [] ->
  String.concat " | " (map displayKey ts) +:+ (")" +:+ r) = String.concat " | " (map displayKey us) +:+ (")" +:+ r') ->
  ts = us /\ r = r'.
Proof.
  induction ts as [|t ts IH]; intros us r r' Ht Hu Hne Hne' He; [done|]. destruct us as [|u us]; [done|].
  inversion Ht as [|? ? [Hok Hd] Hts]; inversion Hu as [|? ? Hoku Hus]; subst.
  assert (forall l (z : string), exists tl, String.concat " | " (map displayKey l) +:+ (")" +:+ z) =
    match l with [] => ")" +:+ z | x :: l' => displayKey x +:+ tl end
    /\ tight tl /\ match l with [] | [_] => tl = ")" +:+ z
        | _ :: l' => tl = " | " +:+ (String.concat " | " (map displayKey l') +:+ (")" +:+ z)) end) as Hshape.
  { intros [|x [|y l]] z; simpl; [by exists (")" +:+ z)|by exists (")" +:+ z)|].
    eexists. rewrite !sapp_assoc. by split_and!. }
  destruct (Hshape (t :: ts) r) as (tl&E1&T1&S1), (Hshape (u :: us) r') as (tl'&E2&T2&S2).
  rewrite E1, E2 in He. destruct (Hd u tl tl' Hoku T1 T2 He) as [-> Htl].
  destruct ts as [|t' ts], us as [|u' us]; subst tl tl'; simpl in Htl; try done; [by injection Htl as ->|].
  injection Htl as Htl. destruct (IH (u' :: us) r r' Hts Hus) as [-> ->]; try done.
Qed.

(** ** Reading a key back *)

Fixpoint brackets (n : nat) : string := match n with O => "" | S n => brackets n +:+ "[]" end.
Fixpoint lists (n : nat) (t : type) : type := match n with O => t | S n => TypeList noMeta (Some (lists n t)) end.
Definition isList (t : type) : bool := match t with TypeList _ _ => true | _ => false end.

Lemma peel t : okType t -> exists n base, t = lists n base /\ isList base = false /\ okType base /\ nodes base <= nodes t
  /\ displayKey t = displayKey base +:+ brackets n.
Proof.
  induction t as [| | | | |m e IH| | | | | |] using type_induction; intros Hok;
    try (eexists 0, _; split_and!; [reflexivity|done|exact Hok|done|symmetry; apply sapp_nil_r]).
  destruct Hok as [Hn Hq]. inversion Hn as [| | | |e' He| |]; subst. simpl in IH, Hq.
  destruct (IH (conj He Hq)) as (n&base&->&Hb&Hok&Hsz&Hk). exists (S n), base. split_and!; [done|done|done|simpl; lia|].
  simpl. by rewrite Hk, sapp_assoc.
Qed.

Lemma brackets_shift n : brackets n +:+ "[]" = "[]" +:+ brackets n.
Proof. induction n as [|n IH]; [done|]. simpl. by rewrite IH at 1. Qed.

Lemma brackets_rest n r : tight r -> restOK (brackets n +:+ r).
Proof.
  intros Hr. destruct n as [|n]; [|simpl; rewrite brackets_shift; done].
  destruct r as [|c r]; [done|]. unfold restOK, tight in *. simpl in *. by apply orb_false_iff in Hr as [? _].
Qed.

Lemma brackets_inj n : forall m r r', tight r -> tight r' -> brackets n +:+ r = brackets m +:+ r' -> n = m /\ r = r'.
Proof.
  induction n as [|n IH]; intros [|m] r r' Hr Hr' He; simpl in *; rewrite ?brackets_shift in He.
  - done.
  - subst r. done.
  - subst r'. done.
  - injection He as He. by destruct (IH m r r' Hr Hr' He) as [-> ->].
Qed.

(** The shapes a lowered type has, lists apart. *)
Inductive shape : type -> Prop :=
  | shape_word t w : displayKey t = w -> wordKind t w -> shape t
  | shape_quoted s : sall notQuote s = true -> shape (TypeLiteral noMeta (Some (LiteralString s)))
  | shape_map k v : okType k -> okType v -> shape (TypeMap noMeta (Some k) (Some v))
  | shape_union vs n : Forall okType (iterIncludeNull vs n) -> includesNull vs n = n -> Forall (fun v => isNull v = false) vs ->
      shape (TypeUnion noMeta (Some (vs, n))).

Lemma okType_shape t : okType t -> isList t = false -> shape t.
Proof.
  intros [Hn Hq] Hl. destruct (wordOf t) as [w|] eqn:Hw.
  { destruct (wordOf_kind _ _ Hn Hw) as [Hk Hkind]. by eapply shape_word. }
  destruct Hn as [p Hp|l Hlit|n Hn|n Hn|e He|k v Hk Hv|vs n Hne Hone Hnd Hall Hv]; try done.
  - destruct Hlit; try done. by constructor.
  - simpl in Hq. apply andb_true_iff in Hq as [? ?]. by constructor.
  - simpl in Hq. apply forallb_Forall in Hq.
    assert (includesNull vs n = n) as Hinc.
    { unfold includesNull. destruct vs as [|? [|]]; [done| |done]. simpl. symmetry. by apply Hone. }
    constructor; [|done|eapply Forall_impl; [exact Hv|by intros ? []]].
    unfold iterIncludeNull. rewrite Hinc. apply Forall_app. split.
    + rewrite Forall_forall in *. intros x Hx. split; auto.
    + destruct n; by repeat constructor.
Qed.

Lemma members_inj vs n vs' n' : includesNull vs n = n -> includesNull vs' n' = n' ->
  Forall (fun v => isNull v = false) vs -> Forall (fun v => isNull v = false) vs' ->
  iterIncludeNull vs n = iterIncludeNull vs' n' -> vs = vs' /\ n = n'.
Proof.
  unfold iterIncludeNull. intros -> -> Hv Hv' He. destruct n, n'.
  - by apply app_inj_tail in He as [-> _].
  - rewrite app_nil_r in He. subst vs'. apply Forall_app in Hv' as [_ Hv']. by inversion Hv'.
  - rewrite app_nil_r in He. subst vs. apply Forall_app in Hv as [_ Hv]. by inversion Hv.
  - by rewrite !app_nil_r in He.
Qed.

(** A word is not the beginning of the text of another shape. *)
Lemma word_clash t w r s : wordKind t w -> restOK r -> w +:+ r = s ->
  match s with
  | EmptyString => False
  | String c _ => wordChar c = true
  end /\ (forall x, s <> "map<" +:+ x).
Proof.
  intros Hw Hr <-. destruct (wordKind_start _ _ Hw) as (c&tl&->&_). pose proof (wordKind_word _ _ Hw) as Hall. split.
  - simpl in *. by apply andb_true_iff in Hall as [? _].
  - intros x He. change ("map<" +:+ x) with ("map" +:+ ("<" +:+ x)) in He.
    destruct (munch wordChar (String c tl) "map" r ("<" +:+ x)) as [_ ->]; try done. by apply restOK_word.
Qed.

Lemma union_key vs n : displayKey (TypeUnion noMeta (Some (vs, n))) = "(" +:+ String.concat " | " (map displayKey (iterIncludeNull vs n)) +:+ ")".
Proof. simpl. unfold iterIncludeNull. rewrite map_app. by destruct (includesNull vs n). Qed.

Lemma nodes_member vs n v : v ∈ iterIncludeNull vs n -> nodes v < nodes (TypeUnion noMeta (Some (vs, n))).
Proof.
  unfold iterIncludeNull. intros [Hv|Hv]%elem_of_app.
  - simpl. enough (nodes v <= sum_list (map nodes vs)) by lia. clear -Hv. induction Hv; simpl; lia.
  - destruct (includesNull vs n); [|by apply not_elem_of_nil in Hv]. apply list_elem_of_singleton in Hv as ->. simpl. lia.
Qed.

Lemma base_decodes t : okType t -> isList t = false -> (forall t', nodes t' < nodes t -> okType t' -> decodes t') ->
  forall u r r', okType u -> isList u = false -> restOK r -> restOK r' ->
  displayKey t +:+ r = displayKey u +:+ r' -> t = u /\ r = r'.
Proof.
  intros Ht Hl IH u r r' Hu Hlu Hr Hr' He. apply okType_shape in Ht, Hu; [|done|done].
  destruct Ht as [t w Hk Hw|s Hs|k v Hk Hv|vs n Hvs Hin Hnn], Hu as [u w' Hk' Hw'|s' Hs'|k' v' Hk' Hv'|vs' n' Hvs' Hin' Hnn'];
    rewrite ?union_key in He; try (rewrite Hk in He; destruct (word_clash _ _ _ _ Hw Hr He) as [Hc Hm]);
    try (rewrite Hk' in He; destruct (word_clash _ _ _ _ Hw' Hr' (eq_sym He)) as [Hc' Hm']);
    try (by simpl in He); try (by simpl in Hc); try (by simpl in Hc').
  - destruct (munch wordChar w w' r r') as [-> ->]; [by eapply wordKind_word|by eapply wordKind_word|by apply restOK_word|by apply restOK_word|done|].
    split; [by eapply wordKind_inj|done].
  - exfalso. simpl in Hm. by eapply Hm.
  - simpl in He. injection He as He. rewrite !sapp_assoc in He.
    destruct (munch notQuote s s' (quoteMark +:+ r) (quoteMark +:+ r')) as [-> He']; try done. by injection He' as ->.
  - exfalso. simpl in Hm'. by eapply Hm'.
  - simpl in He. injection He as He. rewrite !sapp_assoc in He.
    assert (nodes k < nodes (TypeMap noMeta (Some k) (Some v)) /\ nodes v < nodes (TypeMap noMeta (Some k) (Some v))) as [Sk Sv]
      by (pose proof (nodes_pos k); pose proof (nodes_pos v); simpl; lia).
    unfold decodes in IH. eapply (IH k Sk Hk k') in He as [-> He']; [|done|done|done]. injection He' as He'. rewrite !sapp_assoc in He'.
    eapply (IH v Sv Hv v') in He' as [-> He'']; [|done|done|done]. by injection He'' as ->.
  - simpl in He. injection He as He. rewrite !sapp_assoc in He.
    destruct (join_inj (iterIncludeNull vs n) (iterIncludeNull vs' n') r r') as [Hm ->]; try done.
    + rewrite Forall_forall in *. intros x Hx. split; [by apply Hvs|]. apply IH; [by apply nodes_member|by apply Hvs].
    + unfold iterIncludeNull, includesNull. by destruct vs.
    + unfold iterIncludeNull, includesNull. by destruct vs'.
    + by destruct (members_inj vs n vs' n' Hin Hin' Hnn Hnn' Hm) as [-> ->].
Qed.

Lemma okType_decodes t : okType t -> decodes t.
Proof.
  remember (nodes t) as size eqn:Hsize. revert t Hsize. induction (Nat.lt_wf_0 size) as [size _ IH]. intros t -> Ht u r r' Hu Hr Hr' He.
  destruct (peel t Ht) as (n&base&->&Hb&Hok&Hsz&Hk), (peel u Hu) as (m&ubase&->&Hub&Huok&_&Huk).
  rewrite Hk, Huk, !sapp_assoc in He.
  destruct (base_decodes base Hok Hb) with (u := ubase) (r := brackets n +:+ r) (r' := brackets m +:+ r') as [-> He'];
    try done; try by apply brackets_rest.
  { intros t' Ht'. eapply IH; [|done]. lia. }
  by destruct (brackets_inj n m r r' Hr Hr' He') as [-> ->].
Qed.

(** Lowered types have different keys. *)
Lemma displayKey_inj t u : okType t -> okType u -> displayKey t = displayKey u -> t = u.
Proof. intros Ht Hu He. apply (okType_decodes t Ht u "" "" Hu); [done|done|by rewrite He]. Qed.
End Injective.
