(* ===== verification/DynamicBundle.v ===== *)
(** * DynamicBundle: the bundles dynamic schemas are lowered to

    A lowered schema is what the coercer's typing theorem asks for, and, with
    ordinary names, it passes the output validation exactly when its maps have
    admissible keys.  With a quote in a string literal the walk can lose a class. *)

From Stdlib Require Import Lia.
From S2P Require Import Prelude GoStrings GoValue Jsonish OrderedMap Schema CoerceTyping Reachability DynamicSchema DynamicLowering DisplayKey.
Open Scope stdpp_scope.

(** ** Definitions *)

Section Assign.
Context {K V : Type} `{Countable K}.
Implicit Types (key : V -> K) (l : list V).

Lemma assign_from key l : forall (m : gmap K V) k x, foldl (fun m x => <[key x := x]> m) m l !! k = Some x ->
  m !! k = Some x \/ (x ∈ l /\ key x = k).
Proof.
  induction l as [|y l IH]; intros m k x Hx; simpl in Hx; [by left|].
  apply IH in Hx as [Hx|[Hx Hk]]; [|right; split; [by right|done]].
  destruct (decide (key y = k)) as [<-|Hne]; [rewrite lookup_insert_eq in Hx; injection Hx as ->; right; split; [by left|done]|].
  rewrite lookup_insert_ne in Hx by done. by left.
Qed.
Lemma assignAll_from key l k x : assignAll key l !! k = Some x -> x ∈ l /\ key x = k.
Proof. unfold assignAll. intros [Hx|Hx]%assign_from; [by rewrite lookup_empty in Hx|done]. Qed.

Lemma assign_keeps key l : forall (m : gmap K V) k, is_Some (m !! k) \/ k ∈ key <$> l ->
  is_Some (foldl (fun m x => <[key x := x]> m) m l !! k).
Proof.
  induction l as [|y l IH]; intros m k Hk; simpl; [destruct Hk as [|[]%not_elem_of_nil]; done|].
  apply IH. destruct (decide (key y = k)) as [<-|Hne]; [left; by rewrite lookup_insert_eq|].
  rewrite lookup_insert_ne by done. destruct Hk as [|[->|]%elem_of_cons]; auto. done.
Qed.
Lemma assignAll_has key l k : k ∈ key <$> l -> is_Some (assignAll key l !! k).
Proof. intros Hk. apply assign_keeps. by right. Qed.
End Assign.

Definition namesOf (s : DynamicOutputSchema) : gset string := list_to_set (dynamicOutputClassName :: Keys (os_Classes s)).
Definition enumsOf (s : DynamicOutputSchema) : gset string := list_to_set (Keys (os_Enums s)).

Lemma pointers_keys {V} (m : OrderedMap (option V)) : (pointers m).*1 = Keys m.
Proof. unfold pointers, Entries, Keys. rewrite <- !list_fmap_compose. induction (om_keys m); [done|]. csimpl. by f_equal. Qed.

Lemma sequence_map {A B E} (f : A -> B + E) l ys : sequence (f <$> l) = inl ys <-> Forall2 (fun x y => f x = inl y) l ys.
Proof. rewrite sequence_inl. apply Forall2_fmap_l. Qed.

Lemma Forall2_names {A B} (R : A -> B -> Prop) (f : A -> string) (g : B -> string) xs ys :
  Forall2 R xs ys -> (forall x y, R x y -> g y = f x) -> g <$> ys = f <$> xs.
Proof. intros Hf Hr. induction Hf as [|x y xs ys Hxy _ IH]; [done|]. csimpl. by rewrite IH, (Hr x y Hxy). Qed.

Section Lowered.
Variables (resolver : option (string -> option RefKind)) (s : DynamicOutputSchema) (es : list EnumDef) (cs : list ClassDef).
Hypothesis lowered : lowerDefinitions resolver s = inl (es, cs).

Lemma lowered_parts : exists fields cs', cs = syntheticClass fields :: cs'
  /\ sequence (buildEnum <$> pointers (os_Enums s)) = inl es
  /\ buildFields resolver (namesOf s) (enumsOf s) dynamicOutputClassName (os_Properties s) = inl fields
  /\ sequence (buildClass resolver (namesOf s) (enumsOf s) <$> pointers (os_Classes s)) = inl cs'
  /\ firstDup (namesOf s) (Keys (os_Enums s)) = None.
Proof.
  revert lowered. unfold lowerDefinitions. fold (namesOf s) (enumsOf s). case_bool_decide; [done|].
  destruct (firstDup _ _); [done|]. destruct (sequence (buildEnum <$> _)) as [es'|]; [|done].
  destruct (buildFields _ _ _ _ _) as [fields|]; [|done]. destruct (sequence _) as [cs'|]; [|done].
  intros [= -> <-]. by exists fields, cs'.
Qed.

Lemma lowered_enum_names : enumName <$> es = Keys (os_Enums s).
Proof.
  destruct lowered_parts as (fields&cs'&_&He&_). apply sequence_map in He. rewrite <- pointers_keys.
  eapply Forall2_names; [exact He|]. intros [name en] e. unfold buildEnum. simpl. destruct en as [en|]; [|done].
  destruct (buildValues _ _ _); [|done]. by intros [= <-].
Qed.

Lemma lowered_class_keys : classKey <$> cs = (fun n => (n, NonStreaming)) <$> dynamicOutputClassName :: Keys (os_Classes s).
Proof.
  destruct lowered_parts as (fields&cs'&->&_&_&Hc&_). rewrite !fmap_cons. f_equal. apply sequence_map in Hc.
  rewrite <- pointers_keys, <- list_fmap_compose. clear -Hc.
  induction Hc as [|[name cls] c l cs'' Hb _ IH]; [done|]. rewrite !fmap_cons, IH.
  f_equal. unfold buildClass in Hb. simpl in Hb. destruct cls as [cls|]; [|done]. destruct (buildFields _ _ _ _ _); [|done]. by injection Hb as <-.
Qed.

Lemma buildFields_normal class props fields : buildFields resolver (namesOf s) (enumsOf s) class props = inl fields ->
  Forall (fun f => normal (knownClass resolver (namesOf s) (enumsOf s)) (knownEnum resolver (namesOf s) (enumsOf s)) (cf_Type f)) fields.
Proof.
  unfold buildFields. intros Hf%sequence_map. induction Hf as [|[name p] f l fs Hb _ IH]; constructor; [|done].
  unfold buildField in Hb. simpl in Hb. destruct p as [p|]; [|done]. destruct (convertType _ _ _ _) as [t|] eqn:Ht; [|done].
  injection Hb as <-. by apply (convertType_lowers resolver (namesOf s) (enumsOf s) (mkBundle outputTarget [] [] [] [] ∅ ∅ ∅) _ _ Ht).
Qed.

Lemma lowered_fields c f : c ∈ cs -> f ∈ cd_Fields c ->
  normal (knownClass resolver (namesOf s) (enumsOf s)) (knownEnum resolver (namesOf s) (enumsOf s)) (cf_Type f).
Proof.
  destruct lowered_parts as (fields&cs'&->&_&Hf&Hc&_). intros [->|Hin]%elem_of_cons.
  - intros Hff. by apply (proj1 (Forall_forall _ _) (buildFields_normal _ _ _ Hf)).
  - apply sequence_map in Hc. apply list_elem_of_lookup in Hin as [i Hi].
    destruct (Forall2_lookup_r _ _ _ _ _ Hc Hi) as ([name cls]&_&Hb). unfold buildClass in Hb. simpl in Hb.
    destruct cls as [cls|]; [|done]. destruct (buildFields _ _ _ _ (dc_Properties cls)) as [fs|] eqn:Hfs; [|done]. injection Hb as <-. simpl.
    apply (proj1 (Forall_forall _ _) (buildFields_normal _ _ _ Hfs)).
Qed.

Lemma lowered_mode c : c ∈ cs -> cd_Mode c = NonStreaming.
Proof.
  intros Hc. assert (classKey c ∈ classKey <$> cs) as Hk by by apply list_elem_of_fmap_2.
  rewrite lowered_class_keys in Hk. apply list_elem_of_fmap in Hk as (n&Hn&_). unfold classKey in Hn. by injection Hn.
Qed.

Lemma lowered_disjoint n : n ∈ namesOf s -> n ∈ enumsOf s -> False.
Proof.
  destruct lowered_parts as (fields&cs'&_&_&_&_&Hd). unfold enumsOf. rewrite elem_of_list_to_set. clear -Hd.
  induction (Keys (os_Enums s)) as [|m ms IH]; simpl in Hd; [by intros _ []%not_elem_of_nil|].
  case_bool_decide; [done|]. intros Hn [->|Hin]%elem_of_cons; [done|by apply IH].
Qed.
End Lowered.

(** ** Lowered types in a bundle *)

(** Map keys are admissible, at any depth. *)
Fixpoint mapKeysOK (t : type) : bool :=
  match t with
  | TypeList _ (Some e) => mapKeysOK e
  | TypeMap _ (Some k) (Some v) => isValidMapKey k && mapKeysOK k && mapKeysOK v
  | TypeUnion _ (Some (vs, _)) => forallb mapKeysOK vs
  | _ => true
  end.

Section NormalTypes.
Variables (C E : string -> Prop).

(** Induction on normal types, through the variants of unions. *)
Lemma normal_induction (P : type -> Prop) :
  (forall t, normal C E t -> match t with TypeList _ _ | TypeMap _ _ _ | TypeUnion _ _ => False | _ => True end -> P t) ->
  (forall e, normal C E e -> P e -> P (TypeList noMeta (Some e))) ->
  (forall k v, normal C E k -> normal C E v -> P k -> P v -> P (TypeMap noMeta (Some k) (Some v))) ->
  (forall vs n, normal C E (TypeUnion noMeta (Some (vs, n))) -> Forall P vs -> P (TypeUnion noMeta (Some (vs, n)))) ->
  forall t, normal C E t -> P t.
Proof.
  intros Hleaf Hlist Hmap Hunion. fix IH 2. intros t Hn.
  destruct Hn as [p Hp|l Hl|n Hc|n He|e He|k v Hk Hv|vs n Hne Hone Hnd Hall Hv].
  - apply Hleaf; [by constructor|done].
  - apply Hleaf; [by constructor|done].
  - apply Hleaf; [by constructor|done].
  - apply Hleaf; [by constructor|done].
  - apply Hlist; [done|by apply IH].
  - apply Hmap; [done|done|by apply IH|by apply IH].
  - apply Hunion; [by constructor|]. clear -Hall IH. induction Hall as [|v vs Hv _ IHvs]; constructor; [by apply IH|done].
Qed.

Lemma normal_typed enums classes aliases t : (forall n, C n -> (n, NonStreaming) ∈ classes) -> (forall n, E n -> n ∈ enums) ->
  normal C E t -> mapKeysOK t = true <-> wellTyped enums classes aliases t.
Proof.
  intros HC HE. revert t. apply normal_induction.
  - intros t Hn Ht. split; [|by destruct t]. intros _. destruct Hn as [p Hp|l Hl|n Hc|n He| | |]; try done.
    + constructor. destruct p; try done; set_solver.
    + by constructor.
    + constructor; [by apply HC|by left].
    + constructor. by apply HE.
  - intros e _ IH. simpl. rewrite IH. split; [by constructor|by inversion 1].
  - intros k v _ _ IHk IHv. simpl. rewrite !andb_true_iff, IHk, IHv, isValidMapKey_spec. split.
    + intros [[Hg Hk] Hv]. by constructor.
    + by inversion 1.
  - intros vs n Hn IH. simpl. rewrite forallb_Forall. inversion Hn as [| | | | | |? ? Hne Hone Hnd Hall Hv]; subst. split.
    + intros Hk. constructor; [by left| |].
      * eapply Forall_impl; [exact Hv|]. intros v [H _]. by destruct v as [|? []| | | | | | | | | |].
      * rewrite Forall_forall in *. intros v Hin. by apply IH, Hk.
    + inversion 1; subst. rewrite Forall_forall in *. intros v Hin. apply IH; auto.
Qed.

Lemma normal_output t : normal C E t -> outputOnly t.
Proof.
  intros Hn. unfold outputOnly. apply (proj1 (walkType_spec outputNode t)). revert t Hn. apply normal_induction.
  - intros t Hn Ht. destruct Hn as [p Hp| | | | | |]; try done. simpl. destruct p; try done. set_solver.
  - done.
  - intros k v _ _ Hk Hv. simpl. by rewrite Hk.
  - intros vs n _ IH. simpl. by apply firstErr_none.
Qed.

Variables (C' E' : string -> Prop) (classDefs : gmap ClassKey ClassDef) (target : type).

(** The references of a reachable type are reachable. *)
Lemma normal_reached : 
  (forall n, C n -> reaches classDefs ∅ target (TypeClass noMeta n NonStreaming) -> C' n) ->
  (forall n, E n -> reaches classDefs ∅ target (TypeEnum noMeta n) -> E' n) ->
  forall t, normal C E t -> reaches classDefs ∅ target t -> normal C' E' t.
Proof.
  intros HC HE. apply (normal_induction (fun t => reaches classDefs ∅ target t -> normal C' E' t)).
  - intros t Hn Ht Hr. destruct Hn; try done; constructor; auto.
  - intros e _ IH Hr. constructor. apply IH. eapply reach_child; [done|]. simpl. set_solver.
  - intros k v _ _ IHk IHv Hr. constructor; [apply IHk|apply IHv]; (eapply reach_child; [done|]); simpl; set_solver.
  - intros vs n Hn IH Hr. inversion Hn as [| | | | | |? ? Hne Hone Hnd Hall Hv]; subst. constructor; try done.
    rewrite Forall_forall in *. intros v Hin. apply IH; [done|]. eapply reach_child; [done|]. simpl. unfold iterIncludeNull. set_solver.
Qed.

Lemma reached_normal : normal C E target ->
  (forall key c f, classDefs !! key = Some c -> f ∈ cd_Fields c -> normal C E (cf_Type f)) ->
  forall t, reaches classDefs ∅ target t -> normal C E t.
Proof.
  intros Ht Hc t. induction 1 as [|t c Hr IH Hin]; [done|]. destruct IH as [| |n Hn| |e He|k v Hk Hv|vs n Hne Hone Hnd Hall Hv];
    simpl in Hin; try by apply not_elem_of_nil in Hin.
  - destruct (classDefs !! (n, NonStreaming)) as [def|] eqn:Hd; [|by apply not_elem_of_nil in Hin].
    apply list_elem_of_fmap in Hin as (f&->&Hf). by eapply Hc.
  - by apply list_elem_of_singleton in Hin as ->.
  - apply elem_of_cons in Hin as [->|Hin]; [done|]. by apply list_elem_of_singleton in Hin as ->.
  - unfold iterIncludeNull in Hin. apply elem_of_app in Hin as [Hin|Hin]; [rewrite Forall_forall in Hall; by apply Hall|].
    destruct (includesNull vs n); [|by apply not_elem_of_nil in Hin]. apply list_elem_of_singleton in Hin as ->. apply normal_null.
Qed.
End NormalTypes.

(** ** The lowered bundle *)

(** Ordinary schemas: names are identifiers, string literals hold no quote. *)
Definition plainSchema (s : DynamicOutputSchema) : bool :=
  forallb goodName (Keys (os_Classes s) ++ Keys (os_Enums s))
  && match lowerDefinitions None s with
     | inl (_, cs) => forallb (fun c => forallb (fun f => quoteFree (cf_Type f)) (cd_Fields c)) cs
     | inr _ => true
     end.

Lemma reached_quoteFree classDefs target t : quoteFree target = true ->
  (forall key c f, classDefs !! key = Some c -> f ∈ cd_Fields c -> quoteFree (cf_Type f) = true) ->
  reaches classDefs ∅ target t -> quoteFree t = true.
Proof.
  intros Ht Hc. induction 1 as [|t c Hr IH Hin]; [done|].
  destruct t as [| | | |m n md|m [e|]|m k v|m n md|m ts| |m [[vs n]|]|]; simpl in Hin, IH; try by apply not_elem_of_nil in Hin.
  - destruct (classDefs !! (n, md)) as [def|] eqn:Hd; [|by apply not_elem_of_nil in Hin].
    apply list_elem_of_fmap in Hin as (f&->&Hf). by eapply Hc.
  - by apply list_elem_of_singleton in Hin as ->.
  - apply andb_true_iff in IH as [Hk Hv]. destruct k, v; set_solver.
  - apply forallb_Forall in IH. rewrite Forall_forall in IH. by apply IH.
  - apply forallb_Forall in IH. rewrite Forall_forall in IH. unfold iterIncludeNull in Hin.
    apply elem_of_app in Hin as [Hin|Hin]; [by apply IH|]. destruct (includesNull vs n); set_solver.
Qed.

Section Built.
Variables (s : DynamicOutputSchema) (es : list EnumDef) (cs : list ClassDef).
Hypothesis lowered : lowerDefinitions None s = inl (es, cs).
Let known (names : gset string) (n : string) : Prop := n ∈ names.

Lemma known_class n : knownClass None (namesOf s) (enumsOf s) n <-> n ∈ namesOf s.
Proof. unfold knownClass. simpl. naive_solver. Qed.
Lemma known_enum n : knownEnum None (namesOf s) (enumsOf s) n <-> n ∈ enumsOf s.
Proof. unfold knownEnum. simpl. naive_solver. Qed.

Let C := knownClass None (namesOf s) (enumsOf s).
Let E := knownEnum None (namesOf s) (enumsOf s).

Lemma target_normal : normal C E outputTarget.
Proof. constructor. apply known_class. unfold namesOf. set_solver. Qed.

Lemma built_reached t : reaches (assignAll classKey cs) ∅ outputTarget t -> normal C E t.
Proof.
  apply reached_normal; [apply target_normal|]. intros key c f [Hc _]%assignAll_from Hf. by eapply lowered_fields.
Qed.

Lemma built_distinct : plainSchema s = true -> keysDistinct (assignAll classKey cs) ∅ outputTarget.
Proof.
  unfold plainSchema. rewrite lowered. intros [Hn Hq]%andb_true_iff t u Ht Hu _. apply forallb_Forall in Hn. apply forallb_Forall in Hq.
  assert (forall t, reaches (assignAll classKey cs) ∅ outputTarget t -> quoteFree t = true) as Hqf.
  { intros t'. apply reached_quoteFree; [done|]. intros key c f [Hc _]%assignAll_from Hf.
    rewrite Forall_forall in Hq. specialize (Hq c Hc). apply forallb_Forall in Hq. rewrite Forall_forall in Hq. by apply Hq. }
  apply (displayKey_inj C E).
  - intros n Hc%known_class. unfold namesOf in Hc. apply elem_of_list_to_set, elem_of_cons in Hc as [->|Hc]; [reflexivity|].
    rewrite Forall_forall in Hn. apply Hn, elem_of_app. by left.
  - intros n He%known_enum. unfold enumsOf in He. apply elem_of_list_to_set in He. rewrite Forall_forall in Hn.
    apply Hn, elem_of_app. by right.
  - intros n Hc%known_class He%known_enum. by eapply lowered_disjoint.
  - split; [by apply built_reached|by apply Hqf].
  - split; [by apply built_reached|by apply Hqf].
Qed.

Lemma built_keyed : keyedEnums (assignAll enumName es) /\ keyedClasses (assignAll classKey cs).
Proof. split; intros ? ? [_ H]%assignAll_from; done. Qed.
End Built.

Lemma FromDynamic_parts s b : FromDynamicOutputSchema None (Some s) = inl b ->
  exists es cs enums classes ras, lowerDefinitions None s = inl (es, cs)
  /\ orderByReachability (assignAll enumName es) (assignAll classKey cs) ∅ outputTarget = Some (enums, classes, ras)
  /\ let b0 := mkBundle outputTarget enums classes [] [] ∅ ∅ ∅ in uniqueNames b0 /\ b = indexedBundle b0.
Proof.
  unfold FromDynamicOutputSchema. destruct (lowerDefinitions None s) as [[es cs]|] eqn:Hl; [|done].
  destruct (orderByReachability _ _ _ _) as [[[enums classes] ras]|] eqn:Ho; [|done].
  pose proof (RebuildIndexes_spec (mkBundle outputTarget enums classes [] [] ∅ ∅ ∅)) as Hr.
  destruct (RebuildIndexes _) as [b' [e|]]; [done|]. intros [= ->]. exists es, cs, enums, classes, ras. by destruct Hr.
Qed.

Lemma indexed_valid b : validBundle (indexedBundle b) <-> validBundle b.
Proof.
  assert (enumName <$> (indexEnum <$> Enums b) = enumName <$> Enums b) as He by (by rewrite <- list_fmap_compose).
  assert (classKey <$> (indexClass <$> Classes b) = classKey <$> Classes b) as Hc by (by rewrite <- list_fmap_compose).
  split; intros [H1 H2 H3 H4 H5 H6 H7 H8 H9 H10]; unfold typedIn in *; cbn -[fmap] in *; rewrite ?He, ?Hc, ?Forall_fmap in *;
    split; unfold typedIn; cbn -[fmap]; rewrite ?He, ?Hc, ?Forall_fmap; done.
Qed.

Lemma built_valid s es cs enums classes ras : lowerDefinitions None s = inl (es, cs) ->
  orderByReachability (assignAll enumName es) (assignAll classKey cs) ∅ outputTarget = Some (enums, classes, ras) ->
  let b := mkBundle outputTarget enums classes [] [] ∅ ∅ ∅ in uniqueNames b ->
  (forall c, c ∈ classes -> c ∈ cs)
  /\ (plainSchema s = true -> (validBundle b /\ rootTypes b outputOnly)
       <-> Forall (fun c => Forall (fun f => mapKeysOK (cf_Type f) = true) (cd_Fields c)) classes).
Proof.
  intros Hl Ho b Hu. destruct (built_keyed es cs) as [Ke Kc].
  destruct (order_exact _ _ ∅ outputTarget Ke Kc) as (es'&cs'&ras'&Ho'&_&_&_&Fc&_&Hall). rewrite Ho in Ho'. injection Ho' as <- <- <-.
  assert (forall c, c ∈ classes -> c ∈ cs) as Hsub.
  { intros c (m&n&md&_&Hc)%Fc. by apply assignAll_from in Hc as [? _]. }
  split; [done|]. intros Hp. destruct (Hall (built_distinct s es cs Hl Hp)) as (Ae&Ac&_).
  set (C' n := (n, NonStreaming) ∈ classKey <$> classes). set (E' n := n ∈ enumName <$> enums).
  assert (forall t, reaches (assignAll classKey cs) ∅ outputTarget t -> normal C' E' t) as Hnormal.
  { intros t Ht. eapply normal_reached; [| |by eapply built_reached|done].
    - intros n Hn%known_class Hr. destruct (assignAll_has classKey cs (n, NonStreaming)) as [d Hd].
      { rewrite (lowered_class_keys _ _ _ _ Hl). apply (list_elem_of_fmap_2 (fun n => (n, NonStreaming)) _ n). unfold namesOf in Hn. by apply elem_of_list_to_set in Hn. }
      unfold C'. rewrite <- (Kc _ _ Hd). apply list_elem_of_fmap_2, Ac. by eexists _, _, _.
    - intros n Hn%known_enum Hr. destruct (assignAll_has enumName es n) as [d Hd].
      { rewrite (lowered_enum_names _ _ _ _ Hl). unfold enumsOf in Hn. by apply elem_of_list_to_set in Hn. }
      unfold E'. rewrite <- (Ke _ _ Hd). apply list_elem_of_fmap_2, Ae. by eexists _, _. }
  assert (forall c f, c ∈ classes -> f ∈ cd_Fields c -> normal C' E' (cf_Type f)) as Hfields.
  { intros c f (m&n&md&Hr&Hd)%Fc Hf. apply Hnormal. eapply reach_child; [exact Hr|]. simpl. rewrite Hd. by apply list_elem_of_fmap_2. }
  assert (normal C' E' outputTarget) as Htarget by (apply Hnormal; constructor).
  pose proof (fun t => normal_typed C' E' (enumName <$> enums) (classKey <$> classes) [] t (fun n H => H) (fun n H => H)) as Htyped.
  split.
  - intros [[] _]. rewrite Forall_forall in *. intros c Hc. rewrite Forall_forall. intros f Hf.
    apply (Htyped _ (Hfields c f Hc Hf)). specialize (valid_field_types c Hc). rewrite Forall_forall in valid_field_types. by apply valid_field_types.
  - intros Hk. destruct Hu as [U1 U2 U3 U4 U5 U6]. split; [split; try done|].
    + by apply (Htyped _ Htarget).
    + rewrite Forall_forall in *. intros c Hc. specialize (Hk c Hc). rewrite Forall_forall in *. intros f Hf.
      apply (Htyped _ (Hfields c f Hc Hf)). by apply Hk.
    + split_and!; [by eapply normal_output| |constructor]. rewrite Forall_forall. intros c Hc. rewrite Forall_forall.
      intros f Hf. eapply normal_output. by eapply Hfields.
Qed.

(** C33. The bundle lowered from a dynamic schema is what the engine needs.  All its
    types are simplified, as the coercer's typing asks.  When the names are
    identifiers and string literals hold no quote, no definition it refers to is
    missing: it passes the output validation exactly when the keys of its maps
    are admissible. *)
Theorem dynamic_bundle s b : FromDynamicOutputSchema None (Some s) = inl b ->
  collapsed (Target b) = true /\ collapsedBundle b
  /\ (plainSchema s = true -> snd (ValidateOutput b) = None
       <-> Forall (fun c => Forall (fun f => mapKeysOK (cf_Type f) = true) (cd_Fields c)) (Classes b)).
Proof.
  intros (es&cs&enums&classes&ras&Hl&Ho&Hu&->)%FromDynamic_parts.
  destruct (built_valid _ _ _ _ _ _ Hl Ho Hu) as [Hsub Hv]. split_and!; [done| |].
  - intros name mode cls f Hc Hf. unfold FindClass in Hc. destruct (classByKey _ !! _) as [i|]; [|done]. simpl in Hc.
    apply list_elem_of_lookup_2, list_elem_of_fmap in Hc as (c&->&Hc). eapply normal_collapsed, (lowered_fields _ _ _ _ Hl c f); auto.
  - intros Hp. rewrite ValidateOutput_valid, indexed_valid, rootTypes_indexed, (Hv Hp). simpl. by rewrite Forall_fmap.
Qed.

(** ** Concrete schemas *)

Definition orderedOf {V} (entries : list (string * V)) : OrderedMap V := fst (NewOrderedMap entries).
Definition property (spec : DynamicTypeSpec) : option DynamicProperty := Some (mkProperty spec "" "").
Definition refTo (name : string) : DynamicTypeSpec := mkSpec "" name None None [] None None GNil.
Definition literal (str : string) : DynamicTypeSpec := mkSpec "literal_string" "" None None [] None None (GString str).
Definition oneOf (specs : list DynamicTypeSpec) : DynamicTypeSpec := mkSpec "union" "" None None (Some <$> specs) None None GNil.

(** A person with a mood, a map of friends and an optional note. *)
Definition personSchema : DynamicOutputSchema :=
  mkOutputSchema
    (orderedOf [("person", property (refTo "Person")); ("note", property (mkSpec "optional" "" None (Some (prim "string")) [] None None GNil))])
    (orderedOf [("Person", Some (mkDynClass "" "" (orderedOf
       [("name", property (prim "string")); ("mood", property (oneOf [refTo "Mood"; literal "none"]));
        ("friends", property (mkSpec "map" "" None None [] (Some (prim "string")) (Some (refTo "Person")) GNil))])))])
    (orderedOf [("Mood", Some (mkDynEnum "" "" [Some (mkDynValue "HAPPY" "" "" false); Some (mkDynValue "SAD" "" "" false)]))]).
Definition bundleOf (s : DynamicOutputSchema) : Bundle :=
  match FromDynamicOutputSchema None (Some s) with inl b => b | inr _ => emptyBundle end.

Lemma dynamic_bundle_witness :
  plainSchema personSchema = true /\ collapsedBundle (bundleOf personSchema)
  /\ (snd (ValidateOutput (bundleOf personSchema)) = None
       <-> Forall (fun c => Forall (fun f => mapKeysOK (cf_Type f) = true) (cd_Fields c)) (Classes (bundleOf personSchema))).
Proof.
  destruct (dynamic_bundle personSchema (bundleOf personSchema)) as (_&Hc&Hv); [vm_compute; reflexivity|].
  assert (plainSchema personSchema = true) as Hp by (vm_compute; reflexivity).
  split; [exact Hp|]. split; [exact Hc|]. exact (Hv Hp).
Defined.
