(* ===== verification/DynamicErrors.v ===== *)
(** * DynamicErrors: what the worker accepts and the lowering refuses

    The worker validates the schema it is sent; the native engine lowers the same
    schema.  After the validation only a few errors of the lowering are left. *)

From Stdlib Require Import Lia.
From S2P Require Import Prelude GoStrings GoValue Jsonish OrderedMap Schema CoerceTyping Reachability DynamicSchema DynamicLowering DisplayKey DynamicBundle.
Open Scope stdpp_scope.

(** Errors of one specification that validation does not exclude: references, which
    it does not resolve, and integer literals, whose value it does not read. *)
Definition residual (e : BuildErr) : Prop :=
  match e with
  | UnresolvedRef _ | AmbiguousRef _ | UnknownRefKind _ => True
  | RequiresValue typ => typ = "literal_int"
  | _ => False
  end.

Lemma firstVariant_none i vs : firstVariant i vs = None <-> Forall (fun v => v = Some None) vs.
Proof.
  revert i. induction vs as [|[[e|]|] vs IH]; intros i; simpl; rewrite ?Forall_cons; [done| | |].
  - split; [done|by intros [? _]].
  - rewrite IH. naive_solver.
  - split; [done|by intros [? _]].
Qed.

Lemma sequence_inr {A E} (xs : list (A + E)) e : sequence xs = inr e -> inr e ∈ xs.
Proof.
  induction xs as [|[x|e'] xs IH]; simpl; [done| |intros [= ->]; by left].
  destruct (sequence xs); [done|]. intros [= ->]. right. by apply IH.
Qed.

Section Residual.
Variables (resolver : option (string -> option RefKind)) (classNames enumNames : gset string).

Lemma resolveRef_residual n e : resolveRef resolver classNames enumNames n = inr e -> residual e.
Proof.
  unfold resolveRef. intros H. repeat case_bool_decide; try done; [by injection H as <-|].
  destruct (r ← resolver; r n) as [[]|]; try done; by injection H as <-.
Qed.

Ltac kind typ name := let H := fresh in destruct (typ =s name) eqn:H; [apply String.eqb_eq in H; subst typ|].

Lemma convertType_residual s : forall depth e, validateTypeRef s depth = None ->
  convertType resolver classNames enumNames s = inr e -> residual e.
Proof.
  induction s as [typ ref it inn oo k w x Hit Hinn Hoo Hk Hw] using spec_induction. intros depth e. cbn [convertType validateTypeRef].
  destruct (maxTypeDepth <? depth)%nat; [done|]. destruct (ref <>s ""); [destruct (typ <>s ""); [done|intros _; apply resolveRef_residual]|].
  destruct (typ =s ""); [done|].
  kind typ "string"; [done|]. kind typ "int"; [done|]. kind typ "float"; [done|]. kind typ "bool"; [done|]. kind typ "null"; [done|].
  cbn [orb]. kind typ "list".
  { destruct it as [s|]; [|done]. intros Hv. specialize (Hit (S depth)). destruct (convertType _ _ _ s) as [|e']; [done|]. intros [= ->]. by apply Hit. }
  kind typ "optional".
  { destruct inn as [s|]; [|done]. intros Hv. specialize (Hinn (S depth)). destruct (convertType _ _ _ s) as [|e']; [done|]. intros [= ->]. by apply Hinn. }
  kind typ "map".
  { destruct k as [s1|], w as [s2|]; try done. specialize (Hk (S depth)). specialize (Hw (S depth)).
    destruct (validateTypeRef s1 (S depth)) eqn:Hv1; [done|]. intros Hv.
    destruct (convertType _ _ _ s1) as [|e1]; [|intros [= ->]; by apply Hk].
    destruct (convertType _ _ _ s2) as [|e2]; [done|]. intros [= ->]. by apply Hw. }
  kind typ "union".
  { destruct oo as [|o oo]; [done|]. rewrite firstVariant_none. intros Hv. destruct (sequence _) as [|e'] eqn:Hs; [done|]. intros [= ->].
    apply sequence_inr, list_elem_of_In, in_map_iff in Hs as (o'&He&Hin%list_elem_of_In). rewrite Forall_forall in Hoo. rewrite Forall_forall in Hv.
    assert (option_map (fun s => validateTypeRef s (S depth)) o' = Some None) as Ho'.
    { apply Hv. by apply list_elem_of_In, in_map, list_elem_of_In. }
    destruct o' as [s'|]; [|done]. injection Ho' as Ho'. by eapply (Hoo (Some s') Hin (S depth)). }
  kind typ "literal_string"; [by destruct x|]. kind typ "literal_int".
  { intros _. destruct (toInt64 x); [done|]. by intros [= <-]. }
  kind typ "literal_bool"; by destruct x.
Qed.
End Residual.

(** ** Whole schemas *)

Lemma setAll_pointers {V} entries : forall m m' : OrderedMap (option V), setAll m entries = (m', None) ->
  (forall k, k ∈ Keys m -> Has m k = true) ->
  pointers m' = pointers m ++ entries /\ (forall e, e ∈ entries -> Has m e.1 = false) /\ (forall k, k ∈ Keys m' -> Has m' k = true).
Proof.
  induction entries as [|[k v] entries IH]; intros m m' Hs Hm; simpl in Hs.
  { injection Hs as ->. split_and!; [by rewrite app_nil_r|by intros e []%not_elem_of_nil|done]. }
  unfold Set_ in Hs. destruct (Has m k) eqn:Hk; [done|]. apply bool_decide_eq_false in Hk.
  set (m1 := mkOrdered (om_keys m ++ [k]) (<[k := v]> (om_vals m))) in Hs.
  assert (forall k', Has m1 k' = bool_decide (k' = k) || Has m k') as Hhas.
  { intros k'. unfold Has, m1. simpl. destruct (decide (k' = k)) as [->|Hne].
    - rewrite lookup_insert_eq, (bool_decide_true (k = k)) by done. apply bool_decide_eq_true. by eexists.
    - rewrite lookup_insert_ne by done. by rewrite (bool_decide_false (k' = k)). }
  destruct (IH m1 m' Hs) as (Hp&Hn&Hh).
  { intros k'. rewrite Hhas. unfold Keys, m1. simpl. intros [Hin| ->%list_elem_of_singleton]%elem_of_app.
    - rewrite (Hm k' Hin). apply orb_true_r.
    - by rewrite bool_decide_true. }
  split_and!; [| |done].
  - rewrite Hp. unfold pointers, Entries, m1. simpl. rewrite !fmap_app, <- app_assoc. f_equal.
    + rewrite <- !list_fmap_compose. apply list_fmap_ext. intros i k' Hi. simpl. rewrite lookup_insert_ne; [done|].
      intros ->. apply Hk. apply (bool_decide_eq_true (is_Some (om_vals m !! k'))), Hm. by eapply list_elem_of_lookup_2.
    + simpl. by rewrite lookup_insert_eq.
  - intros e [->|Hin]%elem_of_cons; [by apply bool_decide_eq_false|]. specialize (Hn e Hin). rewrite Hhas in Hn.
    by apply orb_false_iff in Hn as [_ ?].
Qed.

Lemma Clone_pointers {V} (m : OrderedMap (option V)) : pointers (Clone m) = pointers m.
Proof.
  unfold Clone, IsZero. case_bool_decide as Hl; [|done]. unfold Len in Hl. apply length_zero_iff_nil in Hl.
  unfold pointers, Entries. by rewrite Hl.
Qed.

Lemma workerTypes_spec s dt : workerTypes s = inl dt ->
  pointers (dt_Enums dt) = pointers (os_Enums s)
  /\ (exists cls, pointers (dt_Classes dt) = (dynamicOutputClassName, Some cls) :: pointers (os_Classes s)
       /\ pointers (dc_Properties cls) = pointers (os_Properties s))
  /\ (dynamicOutputClassName ∉ Keys (os_Classes s)).
Proof.
  unfold workerTypes, buildWorkerClassMap. intros H. set (cls := Some _) in H.
  set (m0 := mkOrdered [dynamicOutputClassName] {[dynamicOutputClassName := cls]}).
  change (Set_ zeroMap dynamicOutputClassName cls) with (m0, @None OrderedMapErr) in H. cbv iota beta in H.
  destruct (setAll m0 (pointers (os_Classes s))) as [m' [err|]] eqn:Hs; [done|]. injection H as <-. simpl.
  destruct (setAll_pointers _ _ _ Hs) as (Hp&Hn&_).
  { intros k. unfold Keys, m0. simpl. intros ->%list_elem_of_singleton. reflexivity. }
  split_and!; [apply Clone_pointers| |].
  - rewrite Hp. eexists. split; [reflexivity|]. simpl. apply Clone_pointers.
  - rewrite <- pointers_keys. intros ([k v]&Hk&Hin)%list_elem_of_fmap. specialize (Hn _ Hin). simpl in Hk. by subst k.
Qed.

(** Errors of a whole schema after validation. *)
Definition residualSchema (e : BuildErr) : Prop :=
  match e with ClassAndEnum _ | IndexErr _ => True | _ => residual e end.

Lemma buildValues_valid name vs : forall i, validateValues name i vs = None -> exists out, buildValues name i vs = inl out.
Proof.
  induction vs as [|[v|] vs IH]; intros i H; simpl in *; [by eexists| |done].
  destruct (dv_Name v =s ""); [done|]. destruct (IH _ H) as [out ->]. by eexists.
Qed.

Lemma fields_residual resolver cn en class props e : firstErr (validateProperty class) (pointers props) = None ->
  buildFields resolver cn en class props = inr e -> residual e.
Proof.
  unfold buildFields. rewrite firstErr_none, Forall_forall. intros Hv Hs%sequence_inr. apply list_elem_of_fmap in Hs as ([n p]&Hb&Hin).
  specialize (Hv _ Hin). unfold buildField, validateProperty in *. simpl in *. destruct p as [p|]; [|done].
  destruct (convertType _ _ _ _) eqn:Hc; [done|]. injection Hb as ->. by eapply convertType_residual.
Qed.

(** After the worker has validated the dynamic types of a request, the native
    lowering of the same schema can only fail on what the validation does not
    look at: a name that is a class and an enum, a reference, the value of an
    integer literal, or a name repeated in the bundle. *)
Theorem lowering_after_validation resolver s dt e : workerTypes s = inl dt -> ValidateTypes dt = None ->
  FromDynamicOutputSchema resolver (Some s) = inr e -> residualSchema e.
Proof.
  intros (He&(cls&Hc&Hp)&Hr)%workerTypes_spec. unfold ValidateTypes. rewrite thenErr_none, He, Hc. intros [Hve Hvc].
  simpl in Hvc. apply thenErr_none in Hvc as [Hvp Hvc]. unfold validateClass in Hvp. simpl in Hvp. rewrite Hp in Hvp.
  apply firstErr_none in Hve, Hvc. rewrite Forall_forall in Hve. rewrite Forall_forall in Hvc.
  assert (forall e, residual e -> residualSchema e) as Hres by by intros [].
  unfold FromDynamicOutputSchema. destruct (lowerDefinitions resolver s) as [[es cs]|e'] eqn:Hl.
  - destruct (built_keyed es cs) as [Ke Kc]. destruct (order_exact _ _ ∅ outputTarget Ke Kc) as (?&?&?&->&_).
    destruct (RebuildIndexes _) as [b [err|]]; [by intros [= <-]|done].
  - intros [= ->]. revert Hl. unfold lowerDefinitions. rewrite bool_decide_false by done.
    destruct (firstDup _ _); [by intros [= <-]|].
    destruct (sequence (buildEnum <$> _)) as [es|e''] eqn:Hs; [|exfalso].
    + destruct (buildFields _ _ _ _ _) as [fields|e''] eqn:Hf; [|intros [= ->]; by eapply Hres, fields_residual].
      destruct (sequence (buildClass _ _ _ <$> _)) as [|e''] eqn:Hcs; [done|]. intros [= ->]. apply sequence_inr, list_elem_of_fmap in Hcs as ([n c]&Hb&Hin).
      specialize (Hvc _ Hin). unfold buildClass, validateClass in *. simpl in *. destruct c as [c|]; [|done].
      destruct (buildFields _ _ _ _ (dc_Properties c)) eqn:Hf'; [done|]. injection Hb as ->. by eapply Hres, fields_residual.
    + apply sequence_inr, list_elem_of_fmap in Hs as ([n en]&Hb&Hin). specialize (Hve _ Hin). unfold buildEnum, validateEnum in *. simpl in *.
      destruct en as [en|]; [|done]. destruct (buildValues_valid _ _ _ Hve) as [out Ho]. by rewrite Ho in Hb.
Qed.

(** ** Concrete schemas *)

(** The class the schema refers to is lost: two unions, one of them with the text
    of the other inside a literal, have the same key. *)
Definition quotedText : string := "x" +:+ quoteMark +:+ " | Foo | " +:+ quoteMark +:+ "y".
Definition collidingSchema : DynamicOutputSchema :=
  mkOutputSchema
    (orderedOf [("a", property (oneOf [literal "x"; refTo "Foo"; literal "y"; prim "int"]));
                ("b", property (oneOf [literal quotedText; prim "int"]))])
    (orderedOf [("Foo", Some (mkDynClass "" "" (orderedOf [("name", property (prim "string"))])))])
    zeroMap.

(** A quote in a string literal makes the lowering lose a class.  The worker
    accepts the schema and the lowering succeeds, but two different unions have
    one display key, the second is not walked, and the class only it refers to is
    not in the bundle: the output validation fails on an unresolved class. *)
Theorem display_key_collision :
  (exists dt, workerTypes collidingSchema = inl dt /\ ValidateTypes dt = None)
  /\ (exists b, FromDynamicOutputSchema None (Some collidingSchema) = inl b
       /\ snd (ValidateOutput b) = Some (UnresolvedClass "Foo")).
Proof.
  split; (eexists; split; [vm_compute; reflexivity|vm_compute; reflexivity]).
Qed.

(** A schema with an unknown reference. *)
Definition danglingSchema : DynamicOutputSchema := mkOutputSchema (orderedOf [("a", property (refTo "Nowhere"))]) zeroMap zeroMap.

Lemma lowering_after_validation_witness : residualSchema (UnresolvedRef "Nowhere").
Proof.
  refine (lowering_after_validation None danglingSchema _ (UnresolvedRef "Nowhere") _ _ _);
    [vm_compute; reflexivity|vm_compute; reflexivity|vm_compute; reflexivity].
Defined.
