(* ===== verification/CoerceStream.v ===== *)
(** * CoerceStream: coercion of partial values ([internal/debaml/coerce.go])

    The streaming twin of the coercer.  A value that is still incomplete and must be
    done is deleted: a list or map drops it, a class shows null.  The recursion is
    on the value, with fuel. *)

From Stdlib Require Import Ascii String.
From Stdlib Require Import Lia.
From stdpp Require Import pretty.
From S2P Require Import Prelude GoStrings GoValue Jsonish GoFloat NumberText Unicode MatchString Schema PairGuard Candidate OutputText Gate LeafCoerce TryCast Coerce NumberValid CoerceTyping CoerceSound CoerceFuel.
Open Scope stdpp_scope.

Definition incomplete (v : value) : bool :=
  match v with
  | valNull i | valBool i _ | valNumber i _ _ | valString i _ | valArray i _ | valObject i _ => i
  end.

(** [streamCompleteLeafUnparseable]. *)
Definition streamCompleteLeafUnparseable (t : type) (input : value) : bool :=
  match input with
  | valString _ _ =>
      match t with
      | TypeEnum _ _ => true
      | TypeLiteral _ (Some (LiteralString _)) => true
      | _ => false
      end
  | _ => false
  end.

(** [streamMissingFieldFiller]. *)
Definition streamMissingFieldFiller (ft : type) : string :=
  if isOptional ft then "null" else default "null" (defaultValue ft).

Section Stream.
Variables (E : engine) (b : Bundle).

(** [coerceStreamDoneLeaf]; a leaf needs no recursion of [coerce]. *)
Definition coerceStreamDoneLeaf (t : type) (input : value) : string + CoerceErr :=
  if incomplete input then inr StreamDeleted
  else
    match snd (coerce 1 E b t input emptyCtx (newFlags false)) with
    | inl out => inl out
    | inr _ => if streamCompleteLeafUnparseable t input then inr StreamDeleted else inr Unsupported
    end.

(** The string arm of [coerceStream]. *)
Definition coerceStreamString (input : value) : string + CoerceErr :=
  match input with
  | valString _ s => inl (marshalJSON s)
  | valNumber _ _ _ => snd (coercePrimitiveString input (newFlags false))
  | _ => if incomplete input then inr Unsupported else snd (coercePrimitiveString input (newFlags false))
  end.

Section Containers.
Variable rec : type -> value -> string + CoerceErr.

(** [coerceStreamClass]: one field, then all of them in order. *)
Definition streamField (f : ClassField) (assigned : option value) : string + CoerceErr :=
  match assigned with
  | None => inl (streamMissingFieldFiller (cf_Type f))
  | Some v =>
      match rec (cf_Type f) v with
      | inl o => inl o
      | inr StreamDeleted => inl "null"
      | inr e => inr e
      end
  end.
Fixpoint streamFields (fs : list (ClassField * option value)) : list string + CoerceErr :=
  match fs with
  | [] => inl []
  | (f, a) :: fs =>
      o <== streamField f a ;;
      rest <== streamFields fs ;;
      inl (memberText (nm_Name (cf_Name f)) o :: rest)
  end.
Definition coerceStreamClass (name : string) (mode : StreamingMode) (input : value) : string + CoerceErr :=
  match FindClass b name mode with
  | None => inr Hard
  | Some cls =>
      match input with
      | valObject _ members =>
          let assigned := fst (assignKeys (fun key f => matchesStringToString (en_tables E) key (RenderedName (cf_Name f))) (cd_Fields cls) members) in
          ms <== streamFields (combine (cd_Fields cls) assigned) ;;
          inl (objectText ms)
      | _ => inr Unsupported
      end
  end.

(** [coerceStreamList]. *)
Fixpoint streamItems (elem : type) (items : list value) : list string + CoerceErr :=
  match items with
  | [] => inl []
  | v :: items =>
      match rec elem v with
      | inl o => rest <== streamItems elem items ;; inl (o :: rest)
      | inr StreamDeleted => streamItems elem items
      | inr e => if isUnsupported e && provenListItemError b elem v then streamItems elem items else inr e
      end
  end.
Definition coerceStreamList (elem : option type) (input : value) : string + CoerceErr :=
  match elem with
  | None => inr Hard
  | Some elem =>
      match input with
      | valArray _ items => outs <== streamItems elem items ;; inl (arrayText outs)
      | _ => inr Unsupported
      end
  end.

(** [coerceStreamMap]. *)
Fixpoint streamEntries (valT : type) (fs : list (string * value)) : list string + CoerceErr :=
  match fs with
  | [] => inl []
  | (key, v) :: fs =>
      match rec valT v with
      | inl o => rest <== streamEntries valT fs ;; inl (memberText key o :: rest)
      | inr StreamDeleted => streamEntries valT fs
      | inr e => inr e
      end
  end.
Definition coerceStreamMap (keyT valT : option type) (input : value) : string + CoerceErr :=
  match keyT, valT with
  | Some keyT, Some valT =>
      match input with
      | valObject _ fs =>
          match keyT with
          | TypePrimitive _ PrimitiveString =>
              if negb (bool_decide (NoDup fs.*1)) then inr Unsupported
              else ms <== streamEntries valT fs ;; inl (objectText ms)
          | _ => inr Unsupported
          end
      | _ => inr Unsupported
      end
  | _, _ => inr Hard
  end.
End Containers.

(** [coerceStream]. *)
Fixpoint coerceStream (fuel : nat) (t : type) (input : value) : string + CoerceErr :=
  match fuel with
  | O => inr OutOfFuel
  | S n =>
      match t with
      | TypePrimitive _ PrimitiveString => coerceStreamString input
      | TypePrimitive _ _ | TypeLiteral _ _ | TypeEnum _ _ => coerceStreamDoneLeaf t input
      | TypeClass _ name mode => coerceStreamClass (coerceStream n) name mode input
      | TypeList _ elem => coerceStreamList (coerceStream n) elem input
      | TypeMap _ key value => coerceStreamMap (coerceStream n) key value input
      | _ => inr Unsupported
      end
  end.

(** ** Fuel *)

(** A leaf does not use the recursion of [coerce]. *)
Lemma leaf_fuel n t input : match t with TypePrimitive _ _ | TypeLiteral _ _ | TypeEnum _ _ => True | _ => False end ->
  coerce (S n) E b t input emptyCtx = coerce 1 E b t input emptyCtx.
Proof. by destruct t. Qed.

Lemma primitiveString_err input f e : snd (coercePrimitiveString input f) = inr e -> e = Unsupported.
Proof.
  unfold coercePrimitiveString, displayStringification. destruct (displayValue input) as [s certain].
  destruct input, certain; cbn; by intros [= <-].
Qed.

Lemma streamString_err input e : coerceStreamString input = inr e -> e = Unsupported.
Proof.
  destruct input as [i|i x|i f tok|i s|i xs|i fs]; cbn [coerceStreamString incomplete]; try done;
    try (destruct i; [by intros [= <-]|]); apply primitiveString_err.
Qed.

Lemma doneLeaf_err t input e : coerceStreamDoneLeaf t input = inr e -> e = Unsupported \/ e = StreamDeleted.
Proof.
  unfold coerceStreamDoneLeaf. destruct (incomplete input); [by intros [= <-]; right|].
  destruct (snd _); [done|]. destruct (streamCompleteLeafUnparseable t input); intros [= <-]; auto.
Qed.

(** Two recursive calls that agree on the parts of the value. *)
Section Agree.
Variables rec rec' : type -> value -> string + CoerceErr.

Lemma streamFields_agree fs : (forall f v, (f, Some v) ∈ fs -> forall t, rec t v = rec' t v) -> streamFields rec fs = streamFields rec' fs.
Proof.
  induction fs as [|[f a] fs IH]; intros H; [done|]. cbn [streamFields].
  assert (streamField rec f a = streamField rec' f a) as ->.
  { destruct a as [v|]; [|done]. cbn [streamField]. by rewrite (H f v) by set_solver. }
  rewrite IH; [done|]. intros f' v' Hin. apply (H f' v'). set_solver.
Qed.

Lemma streamItems_agree elem xs : (forall v, v ∈ xs -> forall t, rec t v = rec' t v) -> streamItems rec elem xs = streamItems rec' elem xs.
Proof.
  induction xs as [|x xs IH]; intros H; [done|]. cbn [streamItems]. rewrite (H x) by set_solver. rewrite IH; [done|].
  intros v Hv. apply H. set_solver.
Qed.

Lemma streamEntries_agree valT fs : (forall kv, kv ∈ fs -> forall t, rec t kv.2 = rec' t kv.2) -> streamEntries rec valT fs = streamEntries rec' valT fs.
Proof.
  induction fs as [|[k x] fs IH]; intros H; [done|]. cbn [streamEntries]. rewrite (H (k, x)) by set_solver. rewrite IH; [done|].
  intros v Hv. apply H. set_solver.
Qed.
End Agree.

(** With fuel for every node of the value, more fuel changes nothing. *)
Lemma coerceStream_fuel n : forall m t input, (vsize input <= n)%nat -> (n <= m)%nat -> coerceStream m t input = coerceStream n t input.
Proof.
  induction n as [|n IH]; intros m t input Hn Hm; [pose proof (vsize_pos input); lia|]. destruct m as [|m]; [lia|].
  assert (forall v, (vsize v < vsize input)%nat -> forall t, coerceStream m t v = coerceStream n t v) as Hsub by (intros; apply IH; lia).
  cbn [coerceStream]. destruct t as [|? p|?|?|? name mode|? [elem|]|? [key|] [val|]|?|?|?|?|?]; try done.
  - unfold coerceStreamClass. destruct (FindClass b name mode) as [cls|]; [|done]. destruct input as [| | | | |i members]; try done.
    rewrite (streamFields_agree (coerceStream m) (coerceStream n)); [done|]. intros f v [_ [k Hk]]%combine_assigned. apply Hsub.
    by apply (vsize_field i (k, v) members).
  - unfold coerceStreamList. destruct input as [| | | |i items|]; try done.
    rewrite (streamItems_agree (coerceStream m) (coerceStream n)); [done|]. intros v Hv. apply Hsub. by apply vsize_item.
  - unfold coerceStreamMap. destruct input as [| | | | |i fs]; try done.
    rewrite (streamEntries_agree (coerceStream m) (coerceStream n)); [done|]. intros [k v] Hv. apply Hsub. by apply (vsize_field i (k, v) fs).
Qed.

(** ** Typing of partial values *)

(** A partial value of a type: a field of a class may be null or a default, lists
    and maps may lack elements; everything else is a value of its type. *)
Inductive partialType : type -> value -> Prop :=
  | partial_full t v : hasType b t v -> partialType t v
  | partial_class m i name mode cls kvs : FindClass b name mode = Some cls ->
      Forall2 (fun f kv => kv.1 = nm_Name (cf_Name f) /\ (kv.2 = valNull false \/ partialType (cf_Type f) kv.2)) (cd_Fields cls) kvs ->
      partialType (TypeClass m name mode) (valObject i kvs)
  | partial_list m i e xs : Forall (partialType e) xs -> partialType (TypeList m (Some e)) (valArray i xs)
  | partial_map m i k v kvs : NoDup kvs.*1 -> Forall (fun kv => partialType v kv.2) kvs ->
      partialType (TypeMap m (Some k) (Some v)) (valObject i kvs).

Definition partialText (t : type) (out : string) : Prop := exists v, partialType t v /\ jsonNumbers v /\ compact false v = out.

Lemma textOf_partial t out : textOf b t out -> partialText t out.
Proof. intros (v&Ht&Hn&Hc). exists v. split_and!; [by apply partial_full|done|done]. Qed.

Lemma doneLeaf_typed t input out : jsonNumbers input ->
  match t with TypePrimitive _ _ | TypeLiteral _ _ | TypeEnum _ _ => True | _ => False end ->
  coerceStreamDoneLeaf t input = inl out -> textOf b t out.
Proof.
  intros Hn Ht. unfold coerceStreamDoneLeaf. destruct (incomplete input); [done|].
  destruct (coerce 1 E b t input emptyCtx (newFlags false)) as [g [o|e]] eqn:Hc; [|by destruct (streamCompleteLeafUnparseable t input)].
  intros [= <-]. eapply yields_run; [|exact Hc].
  destruct t; try done; [by apply coercePrimitive_yields|apply coerceEnum_yields|apply coerceLiteral_yields].
Qed.

Lemma streamString_typed m input out : jsonNumbers input -> coerceStreamString input = inl out -> textOf b (TypePrimitive m PrimitiveString) out.
Proof.
  intros Hn H. assert (input = input /\ (snd (coercePrimitiveString input (newFlags false)) = inl out)) as [_ Hs].
  { split; [done|]. destruct input as [i|i x|i f tok|i s|i xs|i fs]; cbn [coerceStreamString incomplete] in H; try done; by destruct i. }
  destruct (coercePrimitiveString input (newFlags false)) as [g r] eqn:Hc. simpl in Hs. subst r.
  eapply yields_run; [|exact Hc]. by apply (coercePrimitive_yields (en_tables E) b m PrimitiveString).
Qed.

Section Typed.
Variable rec : type -> value -> string + CoerceErr.
Hypothesis rec_typed : forall t v out, jsonNumbers v -> rec t v = inl out -> partialText t out.

Lemma filler_text t : streamMissingFieldFiller t = "null" \/ partialText t (streamMissingFieldFiller t).
Proof.
  unfold streamMissingFieldFiller. destruct (isOptional t); [by left|]. destruct (defaultValue t) as [d|] eqn:Hd; [|by left].
  right. by apply textOf_partial, textOf_default.
Qed.

Lemma streamField_typed f a out : (forall v, a = Some v -> jsonNumbers v) -> streamField rec f a = inl out ->
  exists v, (v = valNull false \/ partialType (cf_Type f) v) /\ jsonNumbers v /\ compact false v = out.
Proof.
  intros Hn Hf. assert (out = "null" \/ partialText (cf_Type f) out) as [->|(v&Hv&Hj&Hc)].
  { destruct a as [v|]; cbn [streamField] in Hf.
    - destruct (rec (cf_Type f) v) as [o|[]] eqn:Hr; try done; injection Hf as <-; [right; eapply rec_typed; [|exact Hr]; auto|by left].
    - injection Hf as <-. apply filler_text. }
  - exists (valNull false). split_and!; [by left|constructor|done].
  - exists v. auto.
Qed.

Lemma streamFields_typed fs ms : Forall (fun a : ClassField * option value => forall v, a.2 = Some v -> jsonNumbers v) fs ->
  streamFields rec fs = inl ms -> exists kvs, ms = memberOf <$> kvs /\ Forall (fun kv => jsonNumbers kv.2) kvs
  /\ Forall2 (fun f kv => kv.1 = nm_Name (cf_Name f) /\ (kv.2 = valNull false \/ partialType (cf_Type f) kv.2)) fs.*1 kvs.
Proof.
  intros Hn. revert ms. induction Hn as [|[f a] fs Ha _ IH]; intros ms; cbn [streamFields]; [intros [= <-]; by exists []|].
  destruct (streamField rec f a) as [o|] eqn:Ho; [|done]. destruct (streamFields rec fs) as [rest|] eqn:Hr; [|done]. intros [= <-].
  destruct (IH _ eq_refl) as (kvs&->&Hj&Hf). destruct (streamField_typed f a o Ha Ho) as (v&Hv&Hjv&<-).
  exists ((nm_Name (cf_Name f), v) :: kvs). split_and!; by try constructor.
Qed.

Lemma streamItems_typed elem xs outs : Forall jsonNumbers xs -> streamItems rec elem xs = inl outs ->
  exists vs, outs = compact false <$> vs /\ Forall (partialType elem) vs /\ Forall jsonNumbers vs.
Proof.
  intros Hn. revert outs. induction Hn as [|x xs Hx _ IH]; intros outs; cbn [streamItems]; [intros [= <-]; by exists []|].
  assert (streamItems rec elem xs = inl outs -> exists vs, outs = compact false <$> vs /\ Forall (partialType elem) vs /\ Forall jsonNumbers vs) as Hskip by apply IH.
  destruct (rec elem x) as [o|e] eqn:Ho.
  - destruct (streamItems rec elem xs) as [rest|]; [|done]. intros [= <-]. destruct (IH _ eq_refl) as (vs&->&Ht&Hj).
    destruct (rec_typed _ _ _ Hx Ho) as (v&Hv&Hjv&<-). exists (v :: vs). split_and!; by try constructor.
  - destruct e; try done; cbn [isUnsupported andb]; try (destruct (provenListItemError b elem x); [done|done]); done.
Qed.

Lemma streamEntries_typed valT fs ms : Forall (fun f => jsonNumbers f.2) fs -> streamEntries rec valT fs = inl ms ->
  exists kvs, ms = memberOf <$> kvs /\ kvs.*1 `sublist_of` fs.*1
  /\ Forall (fun kv => partialType valT kv.2) kvs /\ Forall (fun kv => jsonNumbers kv.2) kvs.
Proof.
  intros Hn. revert ms. induction Hn as [|[k x] fs Hx _ IH]; intros ms; cbn [streamEntries]; [intros [= <-]; by exists []|].
  destruct (rec valT x) as [o|e] eqn:Ho.
  - destruct (streamEntries rec valT fs) as [rest|]; [|done]. intros [= <-]. destruct (IH _ eq_refl) as (kvs&->&Hs&Ht&Hj).
    destruct (rec_typed _ _ _ Hx Ho) as (v&Hv&Hjv&<-). exists ((k, v) :: kvs). split_and!; by try constructor.
  - destruct e; try done. intros (kvs&->&Hs&Ht&Hj)%IH. exists kvs. split_and!; try done. by apply sublist_cons.
Qed.
End Typed.

Lemma coerceStream_typed n : forall t input out, jsonNumbers input -> coerceStream n t input = inl out -> partialText t out.
Proof.
  induction n as [|n IH]; intros t input out Hn; cbn [coerceStream]; [done|].
  destruct t as [|m p|m name|m lit|m name mode|m [elem|]|m [key|] [val|]| | | | |]; try done.
  - intros H. apply textOf_partial. destruct p; [by eapply streamString_typed|..]; (eapply doneLeaf_typed; [exact Hn|done|exact H]).
  - intros H. apply textOf_partial. by eapply doneLeaf_typed.
  - intros H. apply textOf_partial. by eapply doneLeaf_typed.
  - unfold coerceStreamClass. destruct (FindClass b name mode) as [cls|] eqn:Hc; [|done]. destruct input as [| | | | |i members]; try done.
    set (p := fun key f => _). destruct (streamFields _ _) as [ms|] eqn:Hf; [|done]. intros [= <-].
    destruct (streamFields_typed _ IH _ _ (assigned_numbers p (cd_Fields cls) i members Hn) Hf) as (kvs&->&Hj&Ht).
    rewrite combine_fst in Ht by apply assignKeys_spec. exists (valObject false kvs).
    split_and!; [by econstructor|by constructor|symmetry; apply objectText_compact].
  - unfold coerceStreamList. destruct input as [| | | |i items|]; try done. destruct (streamItems _ _ _) as [outs|] eqn:Hi; [|done]. intros [= <-].
    destruct (streamItems_typed _ IH _ _ _ (numbers_items _ _ Hn) Hi) as (vs&->&Ht&Hj). exists (valArray false vs).
    split_and!; [by constructor|by constructor|symmetry; apply arrayText_compact].
  - unfold coerceStreamMap. destruct input as [| | | | |i fs]; try done. destruct key as [|? []| | | | | | | | | |]; try done.
    case_bool_decide as Hnd; [|done]. cbn [negb]. destruct (streamEntries _ _ _) as [ms|] eqn:Hf; [|done]. intros [= <-].
    destruct (streamEntries_typed _ IH _ _ _ (numbers_fields _ _ Hn) Hf) as (kvs&->&Hs&Ht&Hj). exists (valObject false kvs).
    split_and!; [constructor; [by eapply sublist_NoDup|done]|by constructor|symmetry; apply objectText_compact].
Qed.

(** ** Errors *)

Definition isLeaf (t : type) : bool := match t with TypePrimitive _ _ | TypeLiteral _ _ | TypeEnum _ _ => true | _ => false end.

(** A failure is a decline, or the deletion of a leaf. *)
Definition declines (t : type) (e : CoerceErr) : Prop := e = Unsupported \/ (e = StreamDeleted /\ isLeaf t = true).

(** Every field type of the bundle passes the validation. *)
Definition validFields : Prop := forall name mode cls f, FindClass b name mode = Some cls -> f ∈ cd_Fields cls -> validateType b (cf_Type f) = None.

Lemma streamFields_err rec fs e : (forall f v, (f, Some v) ∈ fs -> forall e, rec (cf_Type f) v = inr e -> e = Unsupported \/ e = StreamDeleted) ->
  streamFields rec fs = inr e -> e = Unsupported.
Proof.
  induction fs as [|[f a] fs IH]; intros H; [done|]. cbn [streamFields].
  destruct (streamField rec f a) as [o|e'] eqn:Hf; simpl.
  - destruct (streamFields rec fs) as [|e''] eqn:Hr; simpl; [done|]. intros [= <-]. apply IH; [|done]. intros f' v' Hin. apply H. set_solver.
  - intros [= <-]. destruct a as [v|]; [|done]. cbn [streamField] in Hf. destruct (rec (cf_Type f) v) as [|e''] eqn:Hr; [done|].
    destruct (H f v ltac:(set_solver) e'' Hr) as [-> | ->]; [by injection Hf|done].
Qed.

Lemma streamItems_err rec elem xs e : (forall v, v ∈ xs -> forall e, rec elem v = inr e -> e = Unsupported \/ e = StreamDeleted) ->
  streamItems rec elem xs = inr e -> e = Unsupported.
Proof.
  induction xs as [|x xs IH]; intros H; [done|]. cbn [streamItems].
  assert (streamItems rec elem xs = inr e -> e = Unsupported) as Hskip by (apply IH; intros v Hv; apply H; set_solver).
  destruct (rec elem x) as [o|e'] eqn:Hr.
  - by destruct (streamItems rec elem xs).
  - destruct (H x ltac:(set_solver) e' Hr) as [-> | ->]; [|done]. cbn [isUnsupported andb]. destruct (provenListItemError b elem x); [done|]. by intros [= <-].
Qed.

Lemma streamEntries_err rec valT fs e : (forall kv, kv ∈ fs -> forall e, rec valT kv.2 = inr e -> e = Unsupported \/ e = StreamDeleted) ->
  streamEntries rec valT fs = inr e -> e = Unsupported.
Proof.
  induction fs as [|[k x] fs IH]; intros H; [done|]. cbn [streamEntries].
  assert (streamEntries rec valT fs = inr e -> e = Unsupported) as Hskip by (apply IH; intros v Hv; apply H; set_solver).
  destruct (rec valT x) as [o|e'] eqn:Hr.
  - by destruct (streamEntries rec valT fs).
  - destruct (H (k, x) ltac:(set_solver) e' Hr) as [-> | ->]; [by intros [= <-]|done].
Qed.

Lemma coerceStream_declines n : validFields -> forall t input e, validateType b t = None -> (vsize input <= n)%nat ->
  coerceStream n t input = inr e -> declines t e.
Proof.
  intros HF. induction n as [|n IH]; intros t input e Hv Hn; [pose proof (vsize_pos input); lia|].
  assert (forall t v e, validateType b t = None -> (vsize v < vsize input)%nat -> coerceStream n t v = inr e -> e = Unsupported \/ e = StreamDeleted) as Hsub.
  { intros t' v' e' Ht' Hs He'. destruct (IH t' v' e' Ht') as [->|[-> _]]; [lia|done|by left|by right]. }
  assert (e = Unsupported -> declines t e) as Hd by by left.
  cbn [coerceStream]. destruct t as [|m p|m name|m lit|m name mode|m [elem|]|m [key|] [val|]| | | | |]; try (by intros [= <-]; left); try done.
  - intros H. destruct p; [left; by eapply streamString_err|..]; (apply doneLeaf_err in H as [-> | ->]; [by left|by right]).
  - intros H. apply doneLeaf_err in H as [-> | ->]; [by left|by right].
  - intros H. apply doneLeaf_err in H as [-> | ->]; [by left|by right].
  - intros H. apply Hd. revert H. unfold coerceStreamClass. cbn [validateType] in Hv. destruct (FindClass b name mode) as [cls|] eqn:Hc.
    2:{ apply thenErr_none in Hv as [_ Hv]. rewrite bool_decide_false in Hv; [done|]. by intros [? ?]. }
    destruct input as [| | | | |i members]; try (by intros [= <-]). set (p := fun key f => _).
    destruct (streamFields _ _) as [ms|e'] eqn:Hf; simpl; [done|]. intros [= <-]. eapply streamFields_err; [|exact Hf].
    intros f v [Hin [k Hk]]%combine_assigned e'' Hr. eapply Hsub; [by eapply HF|by apply (vsize_field i (k, v) members)|exact Hr].
  - intros H. apply Hd. revert H. unfold coerceStreamList. cbn [validateType] in Hv. destruct input as [| | | |i items|]; try (by intros [= <-]).
    destruct (streamItems _ _ _) as [|e'] eqn:Hi; simpl; [done|]. intros [= <-]. eapply streamItems_err; [|exact Hi].
    intros v Hin e'' Hr. eapply Hsub; [exact Hv|by apply vsize_item|exact Hr].
  - intros H. apply Hd. revert H. unfold coerceStreamMap. cbn [validateType] in Hv. destruct (isValidMapKey key); [|done].
    apply thenErr_none in Hv as [_ Hv]. destruct input as [| | | | |i fs]; try (by intros [= <-]).
    destruct key as [|? []| | | | | | | | | |]; try (by intros [= <-]). destruct (negb _); [by intros [= <-]|].
    destruct (streamEntries _ _ _) as [|e'] eqn:Hf; simpl; [done|]. intros [= <-]. eapply streamEntries_err; [|exact Hf].
    intros [k v] Hin e'' Hr. eapply Hsub; [exact Hv|by apply (vsize_field i (k, v) fs)|exact Hr].
Qed.
End Stream.
