(* ===== verification/ParseNumbers.v ===== *)
(** * ParseNumbers: what the text parsers read has JSON numbers

    The strict decoder, the fixing parser and the streaming parser, in the number
    mode of ordinary bundles, give values whose number tokens are JSON numbers; so
    do both extractors. *)

From Stdlib Require Import Ascii String.
From S2P Require Import Prelude GoStrings Jsonish FixParse Extract NumberText PairGuard OutputText NumberValid CoerceTyping.
Open Scope stdpp_scope.

(** ** Number tokens *)

Lemma span_digits s d r : span isDigit s = (d, r) -> sall isDigit d = true.
Proof.
  revert d r. induction s as [|c s IH]; intros d r; simpl; [by intros [= <- _]|]. destruct (isDigit c) eqn:Hc; [|by intros [= <- _]].
  destruct (span isDigit s) as [a r']. intros [= <- _]. simpl. by rewrite Hc, (IH _ _ eq_refl).
Qed.

Lemma scanInt_again s i r x : scanInt s = Some (i, r) -> headNotDigit x = true -> scanInt (i +:+ x) = Some (i, x).
Proof.
  intros Hs Hx. apply scanInt_numeral; [|done]. destruct s as [|c s]; [done|]. simpl in Hs. destruct (c =c "0") eqn:H0.
  - apply Ascii.eqb_eq in H0 as ->. injection Hs as <- _. by left.
  - destruct (isDigit c) eqn:Hc; [|done]. destruct (span isDigit s) as [d r'] eqn:Hd. injection Hs as <- _. right.
    exists c, d. split_and!; try done. by eapply span_digits.
Qed.

Definition headNotDot (s : string) : bool := match s with String c _ => negb (c =c ".") | EmptyString => true end.

Lemma scanFrac_again s f r x : scanFrac s = Some (f, r) -> headNotDigit x = true -> headNotDot x = true ->
  scanFrac (f +:+ x) = Some (f, x) /\ (headNotDigit (f +:+ x) = true).
Proof.
  intros Hs Hx Hd. destruct s as [|c s]; simpl in Hs; [injection Hs as <- _|destruct (c =c ".") eqn:Hc; [|injection Hs as <- _]].
  - simpl. split; [|done]. destruct x as [|c x]; [done|]. simpl in *. by destruct (c =c ".").
  - apply Ascii.eqb_eq in Hc as ->. destruct (span isDigit s) as [[|d ds] r'] eqn:Hsp; [done|]. injection Hs as <- _.
    split; [|done]. apply span_digits in Hsp. change (String "." (String d ds) +:+ x) with (String "." (String d ds +:+ x)).
    cbn [scanFrac]. by rewrite span_all by done.
  - simpl. split; [|done]. destruct x as [|c' x]; [done|]. simpl in *. by destruct (c' =c ".").
Qed.

Lemma scanExp_again s e r : scanExp s = Some (e, r) -> scanExp e = Some (e, "") /\ headNotDigit e = true /\ headNotDot e = true.
Proof.
  destruct s as [|c s]; simpl; [by intros [= <- _]|]. destruct ((c =c "e") || (c =c "E")) eqn:Hc; [|by intros [= <- _]].
  set (x := match s with EmptyString => _ | String _ _ => _ end).
  assert (x.1 = "" \/ exists g, x.1 = str1 g /\ ((g =c "+") || (g =c "-")) = true) as Hx.
  { unfold x. destruct s as [|g s]; [by left|]. destruct ((g =c "+") || (g =c "-")) eqn:Hg; [right; by exists g|by left]. }
  destruct x as [sign r1]. simpl in Hx. destruct (span isDigit r1) as [[|d ds] r'] eqn:Hs; [done|]. intros [= <- _].
  apply span_digits in Hs. split; [|].
  - destruct Hx as [->|(g&->&Hg)]; cbn [append str1 scanExp]; rewrite Hc.
    + assert (((d =c "+") || (d =c "-")) = false) as ->.
      { simpl in Hs. apply andb_true_iff in Hs as [Hd _]. destruct (d =c "+") eqn:E; [by apply Ascii.eqb_eq in E as ->|].
        destruct (d =c "-") eqn:E'; [by apply Ascii.eqb_eq in E' as ->|done]. }
      pose proof (span_all (String d ds) "" Hs eq_refl) as Hsp. rewrite sapp_nil_r in Hsp. by rewrite Hsp.
    + rewrite Hg. pose proof (span_all (String d ds) "" Hs eq_refl) as Hsp. rewrite sapp_nil_r in Hsp. by rewrite Hsp.
  - simpl. apply orb_true_iff in Hc as [E|E]; apply Ascii.eqb_eq in E as ->; done.
Qed.

Lemma scanNumber_json s tok rest : scanNumber s = Some (tok, rest) -> isJSONNumber tok = true.
Proof.
  unfold scanNumber. set (x := match s with EmptyString => _ | String _ _ => _ end).
  assert (x.1 = "" \/ x.1 = "-") as Hx.
  { unfold x. destruct s as [|c s]; [by left|]. destruct (c =c "-") eqn:E; [apply Ascii.eqb_eq in E as ->; by right|by left]. }
  destruct x as [sign s0]. simpl in Hx.
  destruct (scanInt s0) as [[i s1]|] eqn:E1; [|done]. destruct (scanFrac s1) as [[f s2]|] eqn:E2; [|done].
  destruct (scanExp s2) as [[e s3]|] eqn:E3; [|done]. intros [= <- _].
  destruct (scanExp_again _ _ _ E3) as (H3&Hn&Hd). destruct (scanFrac_again _ _ _ e E2 Hn Hd) as [H2 Hn2].
  pose proof (scanInt_again _ _ _ (f +:+ e) E1 Hn2) as H1.
  unfold isJSONNumber, scanNumber. destruct Hx as [-> | ->].
  - change ("" +:+ i +:+ f +:+ e) with (i +:+ f +:+ e).
    destruct (i +:+ f +:+ e) as [|c t] eqn:Et; [rewrite H1, H2, H3; done|].
    assert ((c =c "-") = false) as ->; [|by rewrite H1, H2, H3].
    destruct s0 as [|c0 s0]; [done|]. simpl in E1. destruct (c =c "-") eqn:Ec; [|done]. apply Ascii.eqb_eq in Ec as ->.
    exfalso. clear -H1. simpl in H1. done.
  - simpl. by rewrite H1, H2, H3.
Qed.

(** ** Parsers *)

(** What a parser answers satisfies the predicate. *)
Definition good {A} (P : A -> Prop) (r : res A) : Prop := forall a rest, r = Ok a rest -> P a.

Lemma good_ok {A} (P : A -> Prop) a rest : P a -> good P (Ok a rest).
Proof. by intros Ha a' rest' [= <- _]. Qed.
Lemma good_bad {A} (P : A -> Prop) : good P Bad.
Proof. done. Qed.
Lemma good_nofuel {A} (P : A -> Prop) : good P NoFuel.
Proof. done. Qed.
Lemma good_bind {A B} (P : A -> Prop) (Q : B -> Prop) (r : res A) k : good P r -> (forall a rest, P a -> good Q (k a rest)) -> good Q (Jsonish.bind r k).
Proof. destruct r as [a rest| |]; simpl; [|done|done]. intros Hr Hk. apply Hk. by eapply Hr. Qed.
Lemma good_any {A} (r : res A) : good (fun _ => True) r.
Proof. done. Qed.

Create HintDb numbers discriminated.
#[export] Hint Resolve good_ok good_bad good_nofuel good_any : numbers.
#[export] Hint Constructors jsonNumbers Forall : numbers.

Definition members (fs : list (string * value)) : Prop := Forall (fun f => jsonNumbers f.2) fs.

Lemma scalar_numbers raw v : classifyScalarMode numModeLegacy raw = Some v -> jsonNumbers v.
Proof.
  unfold classifyScalarMode, classifyScalar. repeat (case_match; try (intros [= <-]; by constructor)).
Qed.
Lemma setIncomplete_numbers v : jsonNumbers v -> jsonNumbers (setIncomplete v).
Proof. by inversion 1; constructor. Qed.
#[export] Hint Resolve scalar_numbers setIncomplete_numbers : numbers.

(** Split a parser into its cases. *)
Ltac cases := try solve [eauto with numbers]; repeat (case_match; try solve [eauto with numbers]).

(** The final parsers answer with values of any predicate that holds of what they
    build. *)
Section Final.
Variable P : value -> Prop.
Hypothesis Pnull : P (valNull false).
Hypothesis Pbool : forall x, P (valBool false x).
Hypothesis Pstring : forall s, P (valString false s).
Hypothesis Pnumber : forall tok, isJSONNumber tok = true -> P (valNumber false false tok).
Hypothesis Pscalar : forall raw v, classifyScalarMode numModeLegacy raw = Some v -> P v.
Hypothesis Parray : forall xs, Forall P xs -> P (valArray false xs).
Hypothesis Pobject : forall fs, Forall (fun f => P f.2) fs -> P (valObject false fs).
#[local] Hint Resolve Pnull Pbool Pstring Pnumber Pscalar Parray Pobject : numbers.

Lemma decode_good fuel :
  (forall s, good P (decodeToken numModeLegacy fuel s)) /\ (forall s, good (Forall (fun f => P f.2)) (decodeMembers numModeLegacy fuel s))
  /\ (forall s, good (Forall P) (decodeElements numModeLegacy fuel s)).
Proof.
  induction fuel as [|n (IHt&IHm&IHe)]; [done|]. split_and!; intros s; cbn [decodeToken decodeMembers decodeElements].
  - cases.
    + eapply good_bind; [apply IHm|]. eauto with numbers.
    + eapply good_bind; [apply IHe|]. eauto with numbers.
    + eapply good_bind; [apply good_any|]. eauto with numbers.
    + apply good_ok. simpl in *. simplify_eq. apply Pnumber. by eapply scanNumber_json.
  - cases. eapply good_bind; [apply good_any|]. intros key r1 _. cases. eapply good_bind; [apply IHt|]. intros v r3 Hv. cases.
    eapply good_bind; [apply IHm|]. intros fs r Hfs. apply good_ok. by constructor.
  - eapply good_bind; [apply IHt|]. intros v r3 Hv. cases. eapply good_bind; [apply IHe|]. eauto with numbers.
Qed.

Lemma strictDecode_good s v : strictDecode numModeLegacy s = Some v -> P v.
Proof.
  unfold strictDecode, strictDecodeFuel. destruct (decode_good (2 * String.length s + 1)) as [Ht _]. specialize (Ht s).
  destruct (decodeToken _ _ _) as [w rest| |]; simpl; [|done|done]. destruct (skipWS rest =s ""); [|done]. intros [= <-]. by eapply Ht.
Qed.

Lemma parse_good fuel :
  (forall term s, good P (parseValue numModeLegacy fuel term s)) /\ (forall s, good (Forall (fun f => P f.2)) (parseObject numModeLegacy fuel s))
  /\ (forall s, good (Forall P) (parseArray numModeLegacy fuel s)).
Proof.
  induction fuel as [|n (IHv&IHo&IHa)]; [done|]. split_and!; [intros term s|intros s|intros s]; cbn [parseValue parseObject parseArray].
  - cases.
    + eapply good_bind; [apply IHo|]. eauto with numbers.
    + eapply good_bind; [apply IHa|]. eauto with numbers.
    + eapply good_bind; [apply good_any|]. eauto with numbers.
    + eapply good_bind; [apply good_any|]. eauto with numbers.
    + unfold parseUnquotedScalar. cases.
  - cases. eapply good_bind; [apply good_any|]. intros key r1 _. cases.
    eapply good_bind; [apply IHv|]. intros v r3 Hv. cases.
    eapply good_bind; [apply IHo|]. intros fs r Hfs. apply good_ok. by constructor.
  - cases. eapply good_bind; [apply IHv|]. intros v r3 Hv. cases. eapply good_bind; [apply IHa|]. eauto with numbers.
Qed.

Lemma fixParse_good s v : fixParse numModeLegacy s = Some v -> P v.
Proof.
  unfold fixParse, fixParseFuel. destruct (parse_good (2 * String.length s + 2)) as [Ht _].
  destruct (skipWS s) as [|c r]; [done|]. destruct (_ || _); [|done]. specialize (Ht "" (String c r)).
  destruct (parseValue _ _ _ _) as [w rest| |]; simpl; [|done|done]. destruct (skipWS rest =s ""); [|done]. intros [= <-]. by eapply Ht.
Qed.

Lemma extractCandidate_good raw v : extractCandidate numModeLegacy raw = Some v -> P v.
Proof.
  assert (Hd : forall s w, decodeSpan numModeLegacy s = Some w -> P w).
  { intros s w. unfold decodeSpan. case_match eqn:E; [intros [= <-]; by eapply strictDecode_good|apply fixParse_good]. }
  assert (Hw : forall s w, strictWhole numModeLegacy s = Some w -> P w).
  { intros s w. unfold strictWhole. destruct (_ =s ""); [done|]. apply strictDecode_good. }
  unfold extractCandidate. intros H. repeat case_match; simplify_eq; eauto.
Qed.
End Final.

Lemma strictDecode_numbers s v : strictDecode numModeLegacy s = Some v -> jsonNumbers v.
Proof. apply strictDecode_good; eauto with numbers. Qed.

Lemma greedyTail_numbers s : forall sp, good jsonNumbers (greedyTail sp s).
Proof. induction s as [|c r IH]; intros sp; cbn [greedyTail]; cases. Qed.
Lemma stringValue_numbers p : good jsonNumbers (stringValue p).
Proof. unfold stringValue. cases. Qed.
#[export] Hint Resolve greedyTail_numbers stringValue_numbers : numbers.

Lemma stream_numbers fuel :
  (forall term s, good jsonNumbers (parseValueStream numModeLegacy fuel term s))
  /\ (forall s, good (fun p => members p.1) (parseObjectStream numModeLegacy fuel s))
  /\ (forall s, good (fun p => Forall jsonNumbers p.1) (parseArrayStream numModeLegacy fuel s)).
Proof.
  induction fuel as [|n (IHv&IHo&IHa)]; [done|].
  split_and!; [intros term s|intros s|intros s]; cbn [parseValueStream parseObjectStream parseArrayStream].
  - cases.
    + eapply good_bind; [apply IHo|]. eauto with numbers.
    + eapply good_bind; [apply IHa|]. eauto with numbers.
    + unfold parseUnquotedScalarStream. cases.
  - cases; try (apply good_ok; constructor).
    eapply good_bind; [apply IHv|]. intros v r3 Hv. cases; try (apply good_ok; by repeat constructor).
    eapply good_bind; [apply IHo|]. intros p r Hfs. apply good_ok. by constructor.
  - cases; try (apply good_ok; constructor). eapply good_bind; [apply IHv|]. intros v r3 Hv. cases; try (apply good_ok; by repeat constructor).
    eapply good_bind; [apply IHa|]. intros p r Hp. apply good_ok. by constructor.
Qed.

Lemma streamFix_numbers s v : streamFix numModeLegacy s = Some v -> jsonNumbers v.
Proof.
  unfold streamFix, streamFixFuel. destruct (stream_numbers (2 * String.length s + 2)) as [Ht _].
  destruct (skipWS s) as [|c r]; [done|]. destruct (_ || _); [|done]. specialize (Ht "" (String c r)).
  destruct (parseValueStream _ _ _ _) as [w rest| |]; simpl; [|done|done]. destruct (skipWS rest =s ""); [|done]. intros [= <-]. by eapply Ht.
Qed.

(** ** Extractors *)

Lemma decodeSpanStream_numbers s v : decodeSpanStream numModeLegacy s = Some v -> jsonNumbers v.
Proof. unfold decodeSpanStream. case_match eqn:E; [intros [= <-]; by eapply strictDecode_numbers|apply streamFix_numbers]. Qed.
Lemma strictWhole_numbers s v : strictWhole numModeLegacy s = Some v -> jsonNumbers v.
Proof. unfold strictWhole. destruct (_ =s ""); [done|]. apply strictDecode_numbers. Qed.
#[export] Hint Resolve decodeSpanStream_numbers strictWhole_numbers : numbers.

Lemma extractCandidate_numbers raw v : extractCandidate numModeLegacy raw = Some v -> jsonNumbers v.
Proof. apply extractCandidate_good; eauto with numbers. Qed.
Lemma streamExtractCandidate_numbers raw v : streamExtractCandidate numModeLegacy raw = Some v -> jsonNumbers v.
Proof. unfold streamExtractCandidate. intros H. repeat case_match; simplify_eq; eauto with numbers. Qed.
