(* ===== verification/ParseDynamic.v ===== *)
(** * ParseDynamic: the native parse of a dynamic output
    ([internal/debaml/parse.go])

    The final and the streaming route of [Parse] for a dynamic output schema: lower
    and validate the schema, pass the gates, extract a candidate from the text,
    coerce it.  The fingerprint of the checked static family and the constraint
    node it admits are parameters. *)

From Stdlib Require Import Ascii String.
From S2P Require Import Prelude GoStrings GoValue Jsonish FixParse Extract GoFloat NumberText Unicode MatchString Schema PairGuard Candidate OutputText Gate LeafCoerce TryCast Coerce NumberValid CoerceTyping CoerceSound OrderedMap Reachability DynamicSchema DynamicLowering DisplayKey DynamicBundle AliasCoerce CoerceStream ParseNumbers.
Open Scope stdpp_scope.

Section Parse.
Variables (T : tables) (fingerprint : Bundle -> bool) (admitted : Bundle -> type -> bool).

(** The coercer of a bundle. *)
Definition engineOf (b : Bundle) : engine := mkEngine T (admitted b) (coerceRecursiveAlias T b).

(** The start of both routes: the schema is lowered, validated and gated. *)
Definition admitBundle (gateFuel : nat) (o : option DynamicOutputSchema) : Bundle + CoerceErr :=
  match FromDynamicOutputSchema None o with
  | inr _ => inr Unsupported
  | inl b =>
      match ValidateOutput b with
      | (_, Some _) => inr Unsupported
      | (b, None) =>
          match checkSupported (admitted b) b gateFuel with
          | Some e => inr e
          | None =>
              match staticCheckedRouteBoundary (fingerprint b) with
              | Some e => inr e
              | None => inl b
              end
          end
      end
  end.

(** [Parse], the final route. *)
Definition parseFinal (gateFuel fuel : nat) (o : option DynamicOutputSchema) (raw : string) : string + CoerceErr :=
  match admitBundle gateFuel o with
  | inr e => inr e
  | inl b =>
      match extractCandidate numModeLegacy (stripJSONComments raw) with
      | None => inr Unsupported
      | Some v => snd (coerce fuel (engineOf b) b (Target b) v emptyCtx (newFlags false))
      end
  end.

(** The candidate of the streaming route: without one, an empty object for a class
    of several fields when no object was opened. *)
Definition streamCandidate (b : Bundle) (raw : string) : option value :=
  match streamExtractCandidate numModeLegacy raw with
  | Some v => Some v
  | None =>
      if (TrimSpace raw =s "") || negb (targetIsMultiFieldClass b) || ContainsByte "{"%char raw then None
      else Some (valObject false [])
  end.

(** [parseStream]. *)
Definition parseStream (gateFuel : nat) (o : option DynamicOutputSchema) (raw : string) : string + CoerceErr :=
  match admitBundle gateFuel o with
  | inr e => inr e
  | inl b =>
      match checkNoStreamAnnotations b with
      | Some e => inr e
      | None =>
          match streamCandidate b (stripJSONComments raw) with
          | None => inr Unsupported
          | Some v => coerceStream (engineOf b) b (vsize v) (Target b) v
          end
      end
  end.

(** ** The admitted bundle *)

(** [b] is the lowered schema with its indexes rebuilt, and it is valid. *)
Definition admits (o : option DynamicOutputSchema) (b : Bundle) : Prop :=
  exists b0, FromDynamicOutputSchema None o = inl b0 /\ ValidateOutput b0 = (b, None).

Lemma admitBundle_spec gateFuel o :
  match admitBundle gateFuel o with
  | inl b => admits o b
  | inr e => e = Unsupported \/ exists b, admits o b /\ checkSupported (admitted b) b gateFuel = Some e
  end.
Proof.
  unfold admitBundle. destruct (FromDynamicOutputSchema None o) as [b0|] eqn:Hf; [|by left].
  destruct (ValidateOutput b0) as [b [e|]] eqn:Hv; [by left|]. assert (admits o b) as Ha by (by exists b0).
  destruct (checkSupported _ _ _) as [e|] eqn:Hc; [right; by exists b|].
  unfold staticCheckedRouteBoundary. destruct (fingerprint b); [by left|done].
Qed.

Lemma admits_valid o b : admits o b ->
  collapsed (Target b) = true /\ collapsedBundle b /\ Target b = outputTarget
  /\ validFields b /\ validateType b (Target b) = None.
Proof.
  intros (b0&Hf&Hv). destruct o as [s|]; [|done].
  destruct (FromDynamic_parts _ _ Hf) as (es&cs&enums&classes&ras&Hl&Ho&Hu&->).
  set (b1 := mkBundle outputTarget enums classes [] [] ∅ ∅ ∅) in *.
  destruct (built_valid _ _ _ _ _ _ Hl Ho Hu) as [Hsub _].
  assert (snd (Validate (indexedBundle b1)) = None /\ b = fst (Validate (indexedBundle b1))) as [He ->].
  { unfold ValidateOutput in Hv. destruct (Validate (indexedBundle b1)) as [b' e']. injection Hv as -> Hv. by apply thenErr_none in Hv as [-> _]. }
  pose proof (Validate_accepts (indexedBundle b1)) as Ha. apply Ha in He as [Hvalid ->]. destruct Hvalid.
  set (b2 := indexedBundle (indexedBundle b1)).
  assert (uniqueNames (indexedBundle b1)) as Hu' by by split.
  pose proof (indexed_resolves _ Hu') as Hr.
  assert (forall name mode cls, FindClass b2 name mode = Some cls -> exists c, c ∈ Classes (indexedBundle b1) /\ cd_Fields cls = cd_Fields c) as Hfind.
  { intros name mode cls Hc. unfold FindClass in Hc. destruct (classByKey b2 !! (name, mode)) as [i|]; [|done]. simpl in Hc.
    apply list_elem_of_lookup_2, list_elem_of_fmap in Hc as (c&->&Hc). by exists c. }
  split_and!; [done| |done| |].
  - intros name mode cls f Hc Hin. destruct (Hfind _ _ _ Hc) as (c&Hcin&Heq). rewrite Heq in Hin.
    simpl in Hcin. apply list_elem_of_fmap in Hcin as (c0&->&Hc0). eapply normal_collapsed, (lowered_fields _ _ _ _ Hl c0 f); auto.
  - intros name mode cls f Hc Hin. destruct (Hfind _ _ _ Hc) as (c&Hcin&Heq). rewrite Heq in Hin.
    apply (validateType_spec _ _ _ _ (cf_Type f) Hr). rewrite Forall_forall in valid_field_types.
    specialize (valid_field_types c Hcin). rewrite Forall_forall in valid_field_types. by apply valid_field_types.
  - by apply (validateType_spec _ _ _ _ _ Hr).
Qed.

Lemma streamCandidate_numbers b raw v : streamCandidate b raw = Some v -> jsonNumbers v.
Proof.
  unfold streamCandidate. destruct (streamExtractCandidate _ raw) as [w|] eqn:Hs; [intros [= <-]; by eapply streamExtractCandidate_numbers|].
  destruct (_ || _ || _); [done|]. intros [= <-]. constructor. constructor.
Qed.

Lemma firstErr_found {A X} (f : A -> option X) xs e : firstErr f xs = Some e -> exists x, x ∈ xs /\ f x = Some e.
Proof.
  induction xs as [|x xs IH]; simpl; [done|]. destruct (f x) as [e'|] eqn:Hf; [intros [= ->]; exists x; set_solver|].
  intros (y&Hy&He)%IH. exists y. set_solver.
Qed.

Lemma typeNoStream_err t e : checkTypeNoStream t = Some e -> e = Unsupported.
Proof.
  revert e. induction t as [| | | | |m el IH|m k w IHk IHw| |m ts IH|m a IH|m u IH|] using type_induction; intros e; cbn [checkTypeNoStream];
    (destruct (negb _); [by intros [= <-]|]); try done.
  - destruct el as [el|]; [apply IH|done].
  - destruct k as [k|], w as [w|]; simpl in *; repeat (case_match; try done); intros; simplify_eq; eauto.
  - intros (x&Hx&He)%firstErr_found. rewrite Forall_forall in IH. by eapply IH.
  - destruct u as [[vs n]|]; [|done]. intros (x&Hx&He)%firstErr_found. simpl in IH. rewrite Forall_forall in IH. by eapply IH.
Qed.

Lemma noStream_err b e : checkNoStreamAnnotations b = Some e -> e = Unsupported.
Proof.
  unfold checkNoStreamAnnotations. destruct (checkTypeNoStream (Target b)) as [e'|] eqn:Ht; [intros [= <-]; by eapply typeNoStream_err|].
  intros (c&_&Hc)%firstErr_found. destruct (negb _); [by injection Hc|]. apply firstErr_found in Hc as (f&_&Hf).
  destruct (cf_StreamingNeeded f); [by injection Hf|by eapply typeNoStream_err].
Qed.

Lemma parseFinal_value gateFuel fuel o raw out : parseFinal gateFuel fuel o raw = inl out ->
  exists b v, admits o b /\ hasType b (Target b) v /\ out = compact false v /\ strictDecode numModeLegacy out = Some (readBack v).
Proof.
  unfold parseFinal. pose proof (admitBundle_spec gateFuel o) as Ha. destruct (admitBundle gateFuel o) as [b|]; [|done].
  destruct (extractCandidate _ _) as [w|] eqn:Hw; [|done]. destruct (admits_valid _ _ Ha) as (Ht&Hb&_).
  destruct (coerce _ _ _ _ _ _ _) as [g [o'|e]] eqn:Hc; [|done]. intros [= ->].
  destruct (coerce_sound (engineOf b) b Hb fuel (Target b) w emptyCtx Ht (extractCandidate_numbers _ _ Hw) _ _ _ Hc) as (v&Hv&Hj&<-).
  exists b, v. split_and!; [done|done|done|]. by apply strictDecode_compact.
Qed.

(** The final parse of a dynamic output is type safe end to end: whatever the
    schema, the text and the fuel, what it emits is the compact text of a value of
    the schema's output class, and the strict decoder reads that value back. *)
Theorem parse_final_typed gateFuel fuel o raw out : parseFinal gateFuel fuel o raw = inl out ->
  exists b v, admits o b /\ hasType b (Target b) v /\ out = compact false v /\ strictDecode numModeLegacy out = Some (readBack v).
Proof. apply parseFinal_value. Qed.

Lemma parseStream_value gateFuel o raw :
  match parseStream gateFuel o raw with
  | inl out => exists b v, admits o b /\ partialType b (Target b) v /\ out = compact false v
      /\ strictDecode numModeLegacy out = Some (readBack v)
  | inr e => e = Unsupported \/ exists b, admits o b /\ checkSupported (admitted b) b gateFuel = Some e
  end.
Proof.
  unfold parseStream. pose proof (admitBundle_spec gateFuel o) as Ha. destruct (admitBundle gateFuel o) as [b|e]; [|done].
  destruct (admits_valid _ _ Ha) as (_&_&Htarget&HF&Hv).
  destruct (checkNoStreamAnnotations b) as [e|] eqn:Hn; [left; by eapply noStream_err|].
  destruct (streamCandidate b _) as [w|] eqn:Hw; [|by left].
  destruct (coerceStream _ _ _ _ _) as [out|e] eqn:Hc.
  - destruct (coerceStream_typed _ _ _ _ _ _ (streamCandidate_numbers _ _ _ Hw) Hc) as (v&Hp&Hj&<-).
    exists b, v. split_and!; [done|done|done|]. by apply strictDecode_compact.
  - left. destruct (coerceStream_declines _ _ _ HF _ _ _ Hv (le_n _) Hc) as [->|[_ Hl]]; [done|]. by rewrite Htarget in Hl.
Qed.

(** C24. The streaming parse of a dynamic output, on every text: what it emits is the
    compact text of a partial value of the output class, which the strict decoder reads
    back; and it has no failure of its own but a decline.  Any other error is the one
    with which the support gate refused the bundle before the text was read, the end of
    the gate's fuel included (on the schemas of [Gate.gate_diverges] the gate has no
    answer). *)
Theorem parse_stream_safe gateFuel o raw :
  match parseStream gateFuel o raw with
  | inl out => exists b v, admits o b /\ partialType b (Target b) v /\ out = compact false v
      /\ strictDecode numModeLegacy out = Some (readBack v)
  | inr e => e = Unsupported \/ exists b, admits o b /\ checkSupported (admitted b) b gateFuel = Some e
  end.
Proof. apply parseStream_value. Qed.
End Parse.

(** ** A concrete request *)

Definition personText : string :=
  "Sure: " +:+ compact false (valObject false
    [("person", valObject false [("Name", valString false "Ada"); ("mood", valString false "happy"); ("friends", valObject false [])])]).
Definition noFamily (b : Bundle) : bool := false.
Definition noAdmitted (b : Bundle) (t : type) : bool := false.

Definition personOut : string :=
  compact false (valObject false
    [("person", valObject false [("name", valString false "Ada"); ("mood", valString false "HAPPY"); ("friends", valObject false [])]);
     ("note", valNull false)]).

Lemma parse_final_typed_witness :
  exists b v, admits (Some personSchema) b /\ hasType b (Target b) v /\ personOut = compact false v
    /\ strictDecode numModeLegacy personOut = Some (readBack v).
Proof. apply (parse_final_typed asciiTables noFamily noAdmitted 30 40 (Some personSchema) personText personOut). vm_compute. reflexivity. Defined.

(** A prefix of such a text: what is not there yet is null, an unfinished name is
    shown as far as it goes. *)
Example stream_prefix :
  parseStream asciiTables noFamily noAdmitted 30 (Some personSchema) ("{" +:+ quoteMark +:+ "person" +:+ quoteMark +:+ ": {" +:+ quoteMark +:+ "name" +:+ quoteMark +:+ ": " +:+ quoteMark +:+ "Ad")
  = inl (compact false (valObject false
      [("person", valObject false [("name", valString false "Ad"); ("mood", valNull false); ("friends", valObject false [])]);
       ("note", valNull false)])).
Proof. vm_compute. reflexivity. Qed.
