(* ===== verification/CompleteFinal.v ===== *)
(** * CompleteFinal: the close of an unfinished text
    ([internal/debaml/complete_final.go])

    A stream that ended without its closing brackets is completed before it is
    parsed: one pass over the bytes keeps a stack of open containers, each with
    the last length of the output at which it can be closed; a key without a value
    is dropped, an unfinished string is closed, an unfinished number is trimmed,
    and every open container is closed.  The completed text is closed: the pass
    finds nothing to complete in it. *)

From Stdlib Require Import Ascii String.
From S2P Require Import Prelude GoStrings Jsonish.
Open Scope stdpp_scope.

(** ** The pass *)

(** [frame]: an open container. *)
Record frame := mkFrame {
  arr : bool;
  safeLen : nat;
  expectValue : bool;
  pendingKey : bool;
}.

(** The variables of the loop; the top of the stack comes first. *)
Record scanState := mkScan {
  out : string;
  fr : list frame;
  inStr : bool;
  esc : bool;
  strIsKey : bool;
  strQuote : ascii;
  trailTokStart : option nat;
}.

Definition scan0 : scanState := mkScan "" [] false false false "000"%char None.

(** Assignments. *)
Definition setTop (f : frame -> frame) (st : scanState) : scanState :=
  match fr st with
  | [] => st
  | t :: ts => mkScan (out st) (f t :: ts) (inStr st) (esc st) (strIsKey st) (strQuote st) (trailTokStart st)
  end.
Definition setOut (o : string) (st : scanState) : scanState :=
  mkScan o (fr st) (inStr st) (esc st) (strIsKey st) (strQuote st) (trailTokStart st).
Definition setFr (l : list frame) (st : scanState) : scanState :=
  mkScan (out st) l (inStr st) (esc st) (strIsKey st) (strQuote st) (trailTokStart st).
Definition setStr (b e k : bool) (q : ascii) (st : scanState) : scanState :=
  mkScan (out st) (fr st) b e k q (trailTokStart st).
Definition setTrail (n : nat) (st : scanState) : scanState :=
  mkScan (out st) (fr st) (inStr st) (esc st) (strIsKey st) (strQuote st) (Some n).
Definition setFlags (e p : bool) (f : frame) : frame := mkFrame (arr f) (safeLen f) e p.
Definition setExpect (e : bool) (f : frame) : frame := setFlags e (pendingKey f) f.
Definition setPending (p : bool) (f : frame) : frame := setFlags (expectValue f) p f.

Definition emit (x : string) (st : scanState) : scanState := setOut (out st +:+ x) st.

(** [commit]: the content of the innermost container up to here is complete. *)
Definition commit (st : scanState) : scanState :=
  setTop (fun f => mkFrame (arr f) (String.length (out st)) (expectValue f) (pendingKey f)) st.

(** The innermost container is an object waiting for a key. *)
Definition keyPosition (st : scanState) : bool :=
  match fr st with [] => false | t :: _ => negb (arr t) && negb (expectValue t) end.
Definition inObject (st : scanState) : bool :=
  match fr st with [] => false | t :: _ => negb (arr t) end.

Definition sq : ascii := "'"%char.
Definition opener (c : ascii) : bool := (c =c "{") || (c =c "[").
Definition closer (c : ascii) : bool := (c =c "}") || (c =c "]").

(** The bytes an unquoted token goes on with. *)
Definition tokenByte (inKeyPos : bool) (d : ascii) : bool :=
  negb ((d =c ",") || closer d || isWS d || (inKeyPos && (d =c ":"))).

(** One byte inside a string. *)
Definition stringByte (c : ascii) (st : scanState) : scanState :=
  let st := emit (str1 c) st in
  if esc st then setStr true false (strIsKey st) (strQuote st) st
  else if c =c bs then setStr true true (strIsKey st) (strQuote st) st
  else if c =c strQuote st then
    let st := setStr false false (strIsKey st) (strQuote st) st in
    if strIsKey st then setTop (setPending true) st else commit st
  else st.

(** An unquoted token; [tok] is the text of it and [rest] what follows. *)
Definition unquoted (tok rest : string) (st : scanState) : scanState :=
  let inKeyPos := keyPosition st in
  let tokOut := String.length (out st) in
  let st := emit tok st in
  if inKeyPos then setTop (setPending true) st
  else
    let st := setTop (setExpect false) st in
    match rest with
    | EmptyString => setTrail tokOut st
    | _ => commit st
    end.

(** One round of the loop at the byte [c] followed by [r]: the state and what is
    left of the text. *)
Definition round (st : scanState) (c : ascii) (r : string) : scanState * string :=
  if inStr st then (stringByte c st, r)
  else if (c =c dq) || (c =c sq) then
    let st' := setStr true false (keyPosition st) c st in
    (emit (str1 c) (if inObject st then setTop (setExpect false) st' else st'), r)
  else if opener c then
    (emit (str1 c) (setFr (mkFrame (c =c "[") (S (String.length (out st))) false false :: fr st) st), r)
  else if closer c then
    let st := emit (str1 c) st in
    (commit (setFr (tail (fr st)) st), r)
  else if c =c ":" then (emit (str1 c) (setTop (setFlags true false) st), r)
  else if c =c "," then (emit (str1 c) (setTop (setFlags false false) st), r)
  else if isWS c then (emit (str1 c) st, r)
  else
    let '(tok, rest) := span (tokenByte (keyPosition st)) (String c r) in
    (unquoted tok rest st, rest).

Fixpoint rounds (fuel : nat) (st : scanState) (s : string) : scanState :=
  match fuel, s with
  | S n, String c r => let '(st', s') := round st c r in rounds n st' s'
  | _, _ => st
  end.

(** Every round consumes a byte. *)
Definition scanText (s : string) : scanState := rounds (String.length s) scan0 s.

(** ** The completion *)

Definition isDigitByte (c : ascii) : bool := ((48 <=? N_of_ascii c)%N && (N_of_ascii c <=? 57)%N).
Definition numberPunct (c : ascii) : bool :=
  (c =c ".") || (c =c "e") || (c =c "E") || (c =c "+") || (c =c "-").
Definition trimNumber (tok : string) : string := srev (snd (span numberPunct (srev tok))).

Definition dropField (st : scanState) : scanState :=
  match fr st with [] => st | t :: _ => setOut (stake (safeLen t) (out st)) st end.

(** The patch of the end of the output. *)
Definition recoverEnd (st : scanState) : scanState :=
  if inStr st then
    if strIsKey st then dropField st
    else commit (emit ((if esc st then str1 bs else EmptyString) +:+ str1 (strQuote st)) st)
  else
    match trailTokStart st with
    | Some start =>
        let tok := sdrop start (out st) in
        if negb (sall (fun c => negb (isDigitByte c)) tok) then
          commit (setOut (stake start (out st) +:+ trimNumber tok) st)
        else if sall numberPunct tok then dropField st
        else commit st
    | None =>
        match fr st with
        | t :: _ => if negb (arr t) && (expectValue t || pendingKey t) then dropField st else st
        | [] => st
        end
    end.

Fixpoint closeFrames (l : list frame) : string :=
  match l with
  | [] => EmptyString
  | f :: l => String (if arr f then "]"%char else "}"%char) (closeFrames l)
  end.

Definition completeUnclosedFinal (s : string) : string * bool :=
  let st := scanText s in
  match fr st with
  | [] => (s, false)
  | _ => (out (recoverEnd st) +:+ closeFrames (fr st), true)
  end.

Definition qd (s : string) : string := str1 dq +:+ s +:+ str1 dq.
Example complete_examples :
  (completeUnclosedFinal ("{" +:+ qd "a" +:+ ": {" +:+ qd "b" +:+ ": [1, 2., -") = ("{" +:+ qd "a" +:+ ": {" +:+ qd "b" +:+ ": [1, 2.]}}", true))
  /\ (completeUnclosedFinal ("{" +:+ qd "a" +:+ ":3.1e") = ("{" +:+ qd "a" +:+ ":3.1}", true))
  /\ (completeUnclosedFinal ("{" +:+ qd "a" +:+ ": 1, " +:+ qd "b" +:+ ":") = ("{" +:+ qd "a" +:+ ": 1}", true))
  /\ (completeUnclosedFinal ("[{'n':'a" +:+ str1 bs) = ("[{'n':'a" +:+ str1 bs +:+ str1 bs +:+ "'}]", true))
  /\ (completeUnclosedFinal "no text" = ("no text", false)).
Proof. vm_compute. done. Qed.

(** ** Rounds as steps *)

Definition step (x y : scanState * string) : Prop :=
  exists c r, snd x = String c r /\ round (fst x) c r = y.
Definition steps : scanState * string -> scanState * string -> Prop := rtc step.

Lemma span_sapp p s : fst (span p s) +:+ snd (span p s) = s.
Proof. induction s as [|c s IH]; simpl; [done|]. destruct (p c); [|done]. destruct (span p s). simpl in *. by rewrite IH. Qed.

Lemma span_fst_sall p s : sall p (fst (span p s)) = true.
Proof. induction s as [|c s IH]; simpl; [done|]. destruct (p c) eqn:E; [|done]. destruct (span p s). simpl in *. by rewrite E. Qed.

Lemma span_stop p x q : sall p x = true -> match q with String d _ => p d = false | _ => True end -> span p (x +:+ q) = (x, q).
Proof.
  intros Hx Hq. induction x as [|c x IH]; simpl in *.
  - destruct q as [|d q]; simpl; [done|]. by rewrite Hq.
  - apply andb_prop in Hx as [-> Hx]. by rewrite IH.
Qed.

(** The bytes that start an unquoted token. *)
Definition tokenStart (c : ascii) : bool :=
  negb ((c =c dq) || (c =c sq) || opener c || closer c || (c =c ":") || (c =c ",") || isWS c).

Lemma tokenStart_byte k c : tokenStart c = true -> tokenByte k c = true.
Proof.
  unfold tokenStart, tokenByte. destruct (closer c), (c =c ","), (isWS c), (c =c ":"), k, (c =c dq), (c =c sq), (opener c); done.
Qed.

Lemma round_token st c r : inStr st = false -> tokenStart c = true ->
  round st c r = let '(tok, rest) := span (tokenByte (keyPosition st)) (String c r) in (unquoted tok rest st, rest).
Proof.
  intros Hi Hc. unfold round. rewrite Hi. unfold tokenStart in Hc. rewrite negb_true_iff, !orb_false_iff in Hc.
  destruct Hc as [[[[[[Hd Hs] Ho] Hc] Hk] Hm] Hw]. by rewrite Hd, Hs, Ho, Hc, Hk, Hm, Hw.
Qed.

Lemma setTop_out f st : out (setTop f st) = out st.
Proof. by destruct st as [? [|??] ????]. Qed.
Lemma setTop_trail f st : trailTokStart (setTop f st) = trailTokStart st.
Proof. by destruct st as [? [|??] ????]. Qed.
Lemma setTop_inStr f st : inStr (setTop f st) = inStr st.
Proof. by destruct st as [? [|??] ????]. Qed.
Lemma length_setTop g st : length (fr (setTop g st)) = length (fr st).
Proof. by destruct st as [? [|??] ????]. Qed.
Lemma commit_out st : out (commit st) = out st.
Proof. apply setTop_out. Qed.
Lemma commit_trail st : trailTokStart (commit st) = trailTokStart st.
Proof. apply setTop_trail. Qed.
Lemma commit_inStr st : inStr (commit st) = inStr st.
Proof. apply setTop_inStr. Qed.
Lemma length_commit st : length (fr (commit st)) = length (fr st).
Proof. apply length_setTop. Qed.

Create Rewrite HintDb scan.
#[local] Hint Rewrite setTop_out setTop_trail setTop_inStr length_setTop commit_out commit_trail commit_inStr length_commit : scan.
Ltac scan := simpl; autorewrite with scan; simpl.

Lemma unquoted_out tok rest st : out (unquoted tok rest st) = out st +:+ tok.
Proof. unfold unquoted. destruct (keyPosition st), rest; by scan. Qed.
Lemma stringByte_out c st : out (stringByte c st) = out st +:+ str1 c /\ trailTokStart (stringByte c st) = trailTokStart st.
Proof.
  unfold stringByte. destruct (esc _); [done|]. destruct (c =c bs); [done|]. destruct (c =c _); [|done].
  destruct (strIsKey _); by scan.
Qed.

(** Either the round consumes one byte whatever follows, or it reads a token. *)
Lemma round_cases st c :
  (exists st', (forall r, round st c r = (st', r)) /\ out st' = out st +:+ str1 c /\ trailTokStart st' = trailTokStart st)
  \/ (inStr st = false /\ tokenStart c = true).
Proof.
  destruct (inStr st) eqn:Hi.
  { left. exists (stringByte c st). split; [intros r; unfold round; by rewrite Hi|apply stringByte_out]. }
  destruct (tokenStart c) eqn:Hc; [by right|]. left. unfold round. rewrite Hi. unfold tokenStart in Hc. rewrite negb_false_iff in Hc.
  destruct ((c =c dq) || (c =c sq)).
  { eexists. split; [done|]. destruct (inObject st); by scan. }
  destruct (opener c); [by eexists|].
  destruct (closer c); [eexists; split; [done|]; by scan|].
  destruct (c =c ":"); [eexists; split; [done|]; by scan|].
  destruct (c =c ","); [eexists; split; [done|]; by scan|].
  destruct (isWS c); [by eexists|done].
Qed.

(** A round consumes a byte or more and copies what it consumes. *)
Lemma round_consumes st c r st' r' : round st c r = (st', r') ->
  exists x, r = x +:+ r' /\ out st' = out st +:+ String c x.
Proof.
  destruct (round_cases st c) as [(st1&H1&Ho&_)|[Hi Hc]].
  - rewrite H1. intros [= -> ->]. by exists "".
  - rewrite (round_token _ _ _ Hi Hc). simpl. rewrite (tokenStart_byte _ _ Hc).
    pose proof (span_sapp (tokenByte (keyPosition st)) r) as Hs. destruct (span _ r) as [tok rest].
    intros [= <- <-]. exists tok. by rewrite unquoted_out.
Qed.

Lemma rounds_steps : forall fuel st s, (String.length s <= fuel)%nat -> steps (st, s) (rounds fuel st s, "").
Proof.
  induction fuel as [|n IH]; intros st [|c r] Hl; simpl in *; try done; [lia|].
  destruct (round st c r) as [st' r'] eqn:E. eapply rtc_l; [by exists c, r|].
  apply IH. destruct (round_consumes _ _ _ _ _ E) as (x&->&_). rewrite slength_app in Hl. lia.
Qed.

Lemma steps_rounds x y : steps x y -> snd y = "" ->
  forall fuel, (String.length (snd x) <= fuel)%nat -> rounds fuel (fst x) (snd x) = fst y.
Proof.
  induction 1 as [x|x y z (c&r&Hx&Hr) _ IH]; intros Hy fuel Hl.
  - rewrite Hy. by destruct fuel.
  - rewrite Hx in *. destruct fuel as [|n]; simpl in *; [lia|]. rewrite Hr. destruct y as [st' r'].
    apply IH; [done|]. destruct (round_consumes _ _ _ _ _ Hr) as (x'&->&_). simpl. rewrite slength_app in Hl. lia.
Qed.

Lemma scanText_steps s : steps (scan0, s) (scanText s, "").
Proof. by apply rounds_steps. Qed.

Lemma scanText_reached s st : steps (scan0, s) (st, "") -> scanText s = st.
Proof. intros H. by apply (steps_rounds _ _ H). Qed.

(** ** Resuming at a cut *)

(** The text [q] may follow the state [st] where the pass saw [rest] next: inside a
    string any text, elsewhere a closing bracket or the byte the pass saw. *)
Definition follows (st : scanState) (rest q : string) : Prop :=
  inStr st = true \/ exists d q', q = String d q' /\ (closer d = true \/ exists r, rest = String d r).

Lemma follows_same st c r q : follows st (String c r) (String c q).
Proof. right. exists c, q. split; [done|]. right. by exists r. Qed.

(** A round does not look beyond the byte that ends its token. *)
Lemma round_resumes st c r st' r' : round st c r = (st', r') -> trailTokStart st = None -> trailTokStart st' = None ->
  exists x, r = x +:+ r' /\ out st' = out st +:+ String c x
    /\ forall q, follows st' r' q -> round st c (x +:+ q) = (st', q).
Proof.
  intros H Ht Ht'. destruct (round_cases st c) as [(st1&H1&Ho&_)|[Hi Hc]].
  - rewrite H1 in H. injection H as -> ->. exists "". split_and!; try done.
  - revert H. rewrite (round_token _ _ _ Hi Hc). simpl. rewrite (tokenStart_byte _ _ Hc).
    pose proof (span_sapp (tokenByte (keyPosition st)) r) as Hs. pose proof (span_fst_sall (tokenByte (keyPosition st)) r) as Ha.
    assert (Hr : match snd (span (tokenByte (keyPosition st)) r) with String d _ => tokenByte (keyPosition st) d = false | _ => True end).
    { clear. induction r as [|d r IH]; simpl; [done|]. destruct (tokenByte _ d) eqn:E; [|exact E]. by destruct (span _ r). }
    destruct (span _ r) as [tok rest]. simpl in *. intros [= <- <-]. exists tok. split_and!; [done|by rewrite unquoted_out|].
    intros q Hq. rewrite (round_token _ _ _ Hi Hc). simpl. rewrite (tokenStart_byte _ _ Hc).
    assert (Hne : exists d q', q = String d q' /\ tokenByte (keyPosition st) d = false /\ (keyPosition st = false -> rest <> "")).
    { assert (inStr (unquoted (String c tok) rest st) = false) as Hi'.
      { unfold unquoted. destruct (keyPosition st), rest; destruct st as [? [|??] ????]; done. }
      destruct Hq as [Hq|(d&q'&->&Hd)]; [congruence|]. exists d, q'. split_and!; [done| |].
      - destruct Hd as [Hd|[r0 ->]]; [|done]. unfold tokenByte. by rewrite Hd, orb_true_r.
      - intros Hk ->. unfold unquoted in Ht'. by rewrite Hk in Ht'. }
    destruct Hne as (d&q'&->&Hd&Hne). rewrite span_stop by done. f_equal.
    unfold unquoted. destruct (keyPosition st); [done|]. destruct rest; [by destruct (Hne eq_refl)|done].
Qed.

(** The pass reaches [st] after [out st] whatever text may follow. *)
Definition resumes (st : scanState) (rest : string) : Prop :=
  forall q, follows st rest q -> steps (scan0, out st +:+ q) (st, q).

(** [n] containers are open after the text [p], outside a string, when a closing
    bracket follows. *)
Definition closable (p : string) (n : nat) : Prop :=
  exists st, inStr st = false /\ length (fr st) = n
    /\ forall d q, closer d = true -> steps (scan0, p +:+ String d q) (st, String d q).

Fixpoint framesOk (o : string) (l : list frame) : Prop :=
  match l with
  | [] => True
  | f :: l => (safeLen f <= String.length o)%nat /\ closable (stake (safeLen f) o) (S (length l)) /\ framesOk o l
  end.

(** Where the last token ran to the end of the text. *)
Definition trailOk (st : scanState) (rest : string) : Prop :=
  match trailTokStart st with
  | None => resumes st rest
  | Some n =>
      rest = "" /\ inStr st = false /\ exists p c x st0, out st = p +:+ String c x /\ n = String.length p
        /\ tokenStart c = true /\ sall (tokenByte false) (String c x) = true
        /\ inStr st0 = false /\ keyPosition st0 = false /\ length (fr st0) = length (fr st)
        /\ forall q, steps (scan0, p +:+ String c q) (st0, String c q)
  end.

Definition invariant (x : scanState * string) : Prop :=
  framesOk (out (fst x)) (fr (fst x)) /\ trailOk (fst x) (snd x).

Lemma stake_app n s t : (n <= String.length s)%nat -> stake n (s +:+ t) = stake n s.
Proof. revert s. induction n as [|n IH]; intros [|c s] H; simpl in *; try done; [lia|]. rewrite IH by lia. done. Qed.
Lemma stake_all s : stake (String.length s) s = s.
Proof. induction s; simpl; congruence. Qed.
Lemma stake_length s t : stake (String.length s) (s +:+ t) = s.
Proof. by rewrite stake_app, stake_all. Qed.
Lemma sdrop_app_l s t : sdrop (String.length s) (s +:+ t) = t.
Proof. induction s; simpl; congruence. Qed.

Lemma framesOk_app o x l : framesOk o l -> framesOk (o +:+ x) l.
Proof.
  induction l as [|f l IH]; simpl; [done|]. intros (Hl&Hc&Hf). rewrite slength_app, stake_app by done.
  split_and!; [lia|done|auto].
Qed.

Lemma framesOk_top o f g l : safeLen f = safeLen g -> framesOk o (f :: l) -> framesOk o (g :: l).
Proof. simpl. by intros ->. Qed.

Lemma setTop_frames g o st : (forall f, safeLen (g f) = safeLen f) -> framesOk o (fr st) -> framesOk o (fr (setTop g st)).
Proof. intros Hg. destruct st as [? [|f l] ????]; [done|]. simpl. by rewrite Hg. Qed.

Lemma resumes_closable st rest : resumes st rest -> inStr st = false -> closable (out st) (length (fr st)).
Proof. intros H Hi. exists st. split_and!; [done|done|]. intros d q Hd. apply H. right. exists d, q. auto. Qed.

(** After a commit the top can be closed at the end of the output. *)
Lemma commit_frames o st : o = out st -> closable o (length (fr st)) -> framesOk o (tail (fr st)) -> framesOk o (fr (commit st)).
Proof. intros ->. destruct st as [o [|f l] ????]; [done|]. intros H1 H2. simpl in *. by rewrite stake_all. Qed.
Lemma framesOk_tail o l : framesOk o l -> framesOk o (tail l).
Proof. destruct l; [done|]. by intros (?&?&?). Qed.

(** ** The invariant *)

(** A round that changed only flags of the top, or committed it. *)
Lemma round_frames st c r st' r' : round st c r = (st', r') -> framesOk (out st) (fr st) ->
  (trailTokStart st' = None -> inStr st' = false -> closable (out st') (length (fr st'))) ->
  trailTokStart st = None -> framesOk (out st') (fr st').
Proof.
  intros H Hf Hc Ht. revert H. unfold round. destruct (inStr st) eqn:Hi; [|destruct ((c =c dq) || (c =c sq)); [|destruct (opener c);
    [|destruct (closer c); [|destruct (c =c ":"); [|destruct (c =c ","); [|destruct (isWS c)]]]]]].
  - intros [= <- <-]. revert Hc. unfold stringByte. destruct (esc _); [intros _; by apply framesOk_app|].
    destruct (c =c bs); [intros _; by apply framesOk_app|]. destruct (c =c _); [|intros _; by apply framesOk_app].
    destruct (strIsKey _).
    + intros _. scan. apply setTop_frames; [done|]. by apply framesOk_app.
    + scan. intros Hc. apply commit_frames; [done|by apply Hc|]. by apply framesOk_app, framesOk_tail.
  - intros [= <- <-]. destruct (inObject st); scan; [apply setTop_frames; [done|]|]; by apply framesOk_app.
  - intros [= <- <-]. scan. rewrite slength_app. simpl. split_and!; [lia| |by apply framesOk_app].
    change (closable (stake (S (String.length (out st))) (out st +:+ str1 c)) (S (length (fr st)))).
    rewrite (eq_trans (eq_sym (Nat.add_1_r _)) (eq_sym (slength_app (out st) (str1 c)))), stake_all. by apply Hc.
  - intros [= <- <-]. revert Hc. scan. intros Hc. apply commit_frames; simpl; [done|by apply Hc|].
    by apply framesOk_app, framesOk_tail, framesOk_tail.
  - intros [= <- <-]. scan. apply setTop_frames; [done|]. by apply framesOk_app.
  - intros [= <- <-]. scan. apply setTop_frames; [done|]. by apply framesOk_app.
  - intros [= <- <-]. scan. by apply framesOk_app.
  - destruct (span _ _) as [tok rest]. intros [= <- <-]. rewrite unquoted_out. revert Hc. unfold unquoted.
    destruct (keyPosition st); [intros _; apply setTop_frames; [done|]; by apply framesOk_app|].
    destruct rest; [intros _; simpl; apply setTop_frames; [done|]; by apply framesOk_app|].
    scan. intros Hc. apply commit_frames; scan; [done|by apply Hc|].
    apply framesOk_tail. apply setTop_frames; [done|]. by apply framesOk_app.
Qed.

(** The start of the last token. *)
Lemma round_trail st c r st' r' : round st c r = (st', r') -> resumes st (String c r) ->
  trailTokStart st = None -> trailTokStart st' <> None -> trailOk st' r'.
Proof.
  intros H Hr Ht Ht'. destruct (round_cases st c) as [(st1&H1&_&Hn)|[Hi Hc]].
  { rewrite H1 in H. injection H as -> ->. congruence. }
  revert H. rewrite (round_token _ _ _ Hi Hc). simpl. rewrite (tokenStart_byte _ _ Hc).
  pose proof (span_fst_sall (tokenByte (keyPosition st)) r) as Ha. destruct (span _ r) as [tok rest]. simpl in Ha.
  intros [= <- <-]. revert Ht'. unfold unquoted, trailOk. destruct (keyPosition st) eqn:Hk; [by scan|].
  destruct rest; [|by scan]. intros _. scan. split_and!; [done|done|].
  exists (out st), c, tok, st. split_and!; try done.
  - by rewrite (tokenStart_byte _ _ Hc).
  - intros q. apply Hr, follows_same.
Qed.

Lemma invariant_step x y : invariant x -> step x y -> invariant y.
Proof.
  destruct x as [st s], y as [st' r']. intros [Hf Ht] (c&r&Hs&H). simpl in *. subst s.
  unfold trailOk in Ht. destruct (trailTokStart st) eqn:E; [by destruct Ht|].
  assert (Hok : trailOk st' r').
  { destruct (trailTokStart st') eqn:E'; [apply (round_trail _ _ _ _ _ H Ht E); congruence|]. unfold trailOk. rewrite E'.
    destruct (round_resumes _ _ _ _ _ H E E') as (x&->&Ho&Hq). intros q Fq. rewrite Ho, sapp_assoc.
    eapply rtc_r; [apply Ht, follows_same|]. exists c, (x +:+ q). by split; [|apply Hq]. }
  split; [|done]. simpl. eapply round_frames; [done|done| |done].
  intros Hn Hi. unfold trailOk in Hok. rewrite Hn in Hok. by eapply resumes_closable.
Qed.

Lemma invariant_steps x y : steps x y -> invariant x -> invariant y.
Proof. induction 1; eauto using invariant_step. Qed.

Lemma invariant_start s : invariant (scan0, s).
Proof. split; [done|]. intros q _. by apply rtc_refl. Qed.

(** ** The completed text *)

Lemma closeFrames_steps l : forall st, inStr st = false -> length (fr st) = length l ->
  exists st', steps (st, closeFrames l) (st', "") /\ fr st' = [].
Proof.
  induction l as [|f l IH]; intros st Hi Hl; simpl.
  - exists st. split; [apply rtc_refl|]. by destruct (fr st).
  - set (c := if arr f then "]"%char else "}"%char).
    destruct (IH (commit (setFr (tail (fr st)) (emit (str1 c) st)))) as (st'&Hs&He).
    + by scan.
    + scan. destruct (fr st); simpl in *; lia.
    + exists st'. split; [|done]. eapply rtc_l; [|exact Hs]. exists c, (closeFrames l). split; [done|].
      unfold round. cbn [fst]. rewrite Hi. unfold c. by destruct (arr f).
Qed.

Lemma closable_closed p l : closable p (length l) -> l <> [] -> fr (scanText (p +:+ closeFrames l)) = [].
Proof.
  intros (st&Hi&Hl&Hs) Hn. destruct (closeFrames_steps l st Hi Hl) as (st'&Hc&He).
  destruct l as [|f l]; [done|]. rewrite (scanText_reached _ st'); [done|].
  etrans; [|exact Hc]. apply Hs. by destruct (arr f).
Qed.

(** A token can be cut anywhere after its first byte. *)
Lemma token_closable p c x st0 : tokenStart c = true -> sall (tokenByte false) (String c x) = true ->
  inStr st0 = false -> keyPosition st0 = false -> (forall q, steps (scan0, p +:+ String c q) (st0, String c q)) ->
  closable (p +:+ String c x) (length (fr st0)).
Proof.
  intros Hc Ha Hi Hk Hs. exists (commit (setTop (setExpect false) (emit (String c x) st0))). split_and!; [by scan|by scan|].
  intros d q Hd. rewrite sapp_assoc. eapply rtc_r; [apply Hs|]. exists c, (x +:+ String d q). split; [done|]. simpl.
  rewrite (round_token _ _ _ Hi Hc), Hk. change (String c (x +:+ String d q)) with (String c x +:+ String d q).
  rewrite span_stop; [|done|unfold tokenByte; by rewrite Hd, orb_true_r].
  unfold unquoted. by rewrite Hk.
Qed.

(** The delimiter of an open string is a quote. *)
Definition quoted (st : scanState) : Prop := inStr st = true -> strQuote st = dq \/ strQuote st = sq.

Lemma setTop_quote f st : strQuote (setTop f st) = strQuote st.
Proof. by destruct st as [? [|??] ????]. Qed.

Lemma quoted_step x y : quoted (fst x) -> step x y -> quoted (fst y).
Proof.
  destruct x as [st s], y as [st' r']. intros Hq (c&r&Hs&H). simpl in *. subst s. unfold quoted in *. revert H. unfold round.
  destruct (inStr st) eqn:Hi.
  - intros [= <- <-]. unfold stringByte. specialize (Hq eq_refl). simpl.
    destruct (esc st); [done|]. destruct (c =c bs); [done|]. destruct (c =c strQuote st); [|done]. by destruct (strIsKey st); scan.
  - destruct (c =c dq) eqn:E1; [|destruct (c =c sq) eqn:E2]; simpl.
    1-2: intros [= <- <-] _; destruct (inObject st); scan; rewrite ?setTop_quote; simpl; apply Ascii.eqb_eq in E1 || apply Ascii.eqb_eq in E2; auto.
    destruct (opener c); [intros [= <- <-]; scan; congruence|]. destruct (closer c); [intros [= <- <-]; scan; congruence|].
    destruct (c =c ":"); [intros [= <- <-]; scan; congruence|]. destruct (c =c ","); [intros [= <- <-]; scan; congruence|].
    destruct (isWS c); [intros [= <- <-]; scan; congruence|].
    destruct (if tokenByte _ c then _ else _) as [tok rest]. intros [= <- <-]. unfold unquoted. destruct (keyPosition st), rest; scan; congruence.
Qed.

Lemma quoted_steps x y : steps x y -> quoted (fst x) -> quoted (fst y).
Proof. induction 1; eauto using quoted_step. Qed.

Lemma round_inStr st c r : inStr st = true -> round st c r = (stringByte c st, r).
Proof. unfold round. by intros ->. Qed.

Lemma stringByte_close st : esc st = false -> strIsKey st = false -> (strQuote st =c bs) = false ->
  inStr (stringByte (strQuote st) st) = false /\ length (fr (stringByte (strQuote st) st)) = length (fr st).
Proof. intros He Hk Hb. unfold stringByte. simpl. rewrite He, Hb, Ascii.eqb_refl, Hk. by scan. Qed.

(** Closing an open string. *)
Lemma string_closable st : resumes st "" -> inStr st = true -> quoted st -> strIsKey st = false ->
  closable (out st +:+ (if esc st then str1 bs else EmptyString) +:+ str1 (strQuote st)) (length (fr st)).
Proof.
  intros Hr Hi Hq Hk. assert (Hb : (strQuote st =c bs) = false) by (destruct (Hq Hi) as [-> | ->]; done).
  destruct (esc st) eqn:He; simpl.
  - set (st1 := setStr true false false (strQuote st) (emit (str1 bs) st)).
    assert (H1 : stringByte bs st = st1) by (unfold stringByte; simpl; by rewrite He, Hk).
    destruct (stringByte_close st1 eq_refl eq_refl Hb) as [Hi2 Hl2].
    exists (stringByte (strQuote st1) st1). split_and!; [done|done|]. intros d q _. rewrite sapp_assoc. simpl.
    eapply rtc_r; [eapply rtc_r; [apply Hr; by left|]|].
    + eexists bs, _. split; [done|]. cbn [fst]. rewrite round_inStr by done. by rewrite H1.
    + eexists (strQuote st), _. split; [done|]. by apply round_inStr.
  - destruct (stringByte_close st He Hk Hb) as [Hi2 Hl2].
    exists (stringByte (strQuote st) st). split_and!; [done|done|]. intros d q _. rewrite sapp_assoc. simpl.
    eapply rtc_r; [apply Hr; by left|]. eexists (strQuote st), _. split; [done|]. by apply round_inStr.
Qed.

Lemma trimNumber_prefix tok : exists y, tok = trimNumber tok +:+ y /\ sall numberPunct y = true.
Proof.
  unfold trimNumber. pose proof (span_sapp numberPunct (srev tok)) as Hs. pose proof (span_fst_sall numberPunct (srev tok)) as Ha.
  destruct (span _ _) as [a b]. simpl in *. exists (srev a). rewrite <- srev_sapp, Hs, srev_involutive, sall_srev. done.
Qed.

Lemma punct_no_digit s : sall numberPunct s = true -> sall (fun c => negb (isDigitByte c)) s = true.
Proof.
  induction s as [|c s IH]; simpl; [done|]. rewrite !andb_true_iff. intros [Hc Hs]. split; [|auto].
  unfold numberPunct in Hc. rewrite !orb_true_iff, !Ascii.eqb_eq in Hc. by destruct Hc as [[[[-> | ->]| ->]| ->]| ->].
Qed.

Lemma dropField_closable st : framesOk (out st) (fr st) -> fr st <> [] -> closable (out (dropField st)) (length (fr st)).
Proof. unfold dropField. destruct (fr st) as [|f l]; [done|]. simpl. by intros (_&?&_). Qed.

Lemma recoverEnd_closable st : invariant (st, "") -> quoted st -> fr st <> [] ->
  closable (out (recoverEnd st)) (length (fr st)).
Proof.
  intros [Hf Ht] Hq Hn. simpl in *. unfold recoverEnd. destruct (inStr st) eqn:Hi.
  - destruct (strIsKey st) eqn:Hk; [by apply dropField_closable|]. scan.
    unfold trailOk in Ht. destruct (trailTokStart st); [destruct Ht as (_&?&_); congruence|]. by apply string_closable.
  - unfold trailOk in Ht. destruct (trailTokStart st) as [n|] eqn:E.
    + destruct Ht as (_&_&p&c&x&st0&Ho&->&Hc&Ha&Hi0&Hk0&Hl&Hs). rewrite Ho, sdrop_app_l, stake_length.
      destruct (negb _) eqn:Hd; [|destruct (sall numberPunct _); [|scan; rewrite Ho, <- Hl; by apply token_closable]].
      * scan. destruct (trimNumber_prefix (String c x)) as (y&Hy&Hp). destruct (trimNumber (String c x)) as [|c' x'] eqn:Et; simpl in Hy.
        { rewrite <- Hy in Hp. rewrite negb_true_iff in Hd. by rewrite punct_no_digit in Hd. }
        injection Hy as <- ->. rewrite <- Hl. apply token_closable; try done. change (String c (x' +:+ y)) with (String c x' +:+ y) in Ha.
        rewrite sall_app in Ha. by apply andb_prop in Ha as [? _].
      * by apply dropField_closable.
    + destruct (fr st) as [|f l] eqn:El; [done|].
      destruct (_ && _); [rewrite <- El; apply dropField_closable; by rewrite El|]. rewrite <- El. by eapply resumes_closable.
Qed.

(** Nothing but a prefix of the text is kept, with at most a string closed. *)
Lemma scan_out x y : steps x y -> out (fst x) +:+ snd x = out (fst y) +:+ snd y.
Proof.
  induction 1 as [|x y z (c&r&Hx&Hr) _ IH]; [done|]. rewrite <- IH, Hx. destruct y as [st' r'].
  destruct (round_consumes _ _ _ _ _ Hr) as (x'&->&Ho). cbn [fst snd]. by rewrite Ho, sapp_assoc.
Qed.

Lemma scanText_out s : out (scanText s) = s.
Proof. pose proof (scan_out _ _ (scanText_steps s)) as H. simpl in H. by rewrite sapp_nil_r in H. Qed.

Definition patches : list string :=
  [EmptyString; str1 dq; str1 sq; String bs (str1 dq); String bs (str1 sq)].

Lemma recoverEnd_out st : quoted st -> exists k patch, out (recoverEnd st) = stake k (out st) +:+ patch /\ patch ∈ patches.
Proof.
  intros Hq. assert (Hk : forall k, exists k' patch, stake k (out st) = stake k' (out st) +:+ patch /\ patch ∈ patches).
  { intros k. exists k, "". rewrite sapp_nil_r. split; [done|]. by left. }
  assert (Hall : exists k patch, out st = stake k (out st) +:+ patch /\ patch ∈ patches).
  { destruct (Hk (String.length (out st))) as (k&q&E&?). rewrite stake_all in E. eauto. }
  assert (Hdrop : exists k patch, out (dropField st) = stake k (out st) +:+ patch /\ patch ∈ patches).
  { unfold dropField. destruct (fr st); [done|apply Hk]. }
  unfold recoverEnd. destruct (inStr st) eqn:Hi.
  - destruct (strIsKey st); [done|]. scan. exists (String.length (out st)). rewrite stake_all. eexists. split; [done|].
    unfold patches. destruct (Hq Hi) as [-> | ->], (esc st); set_solver.
  - destruct (trailTokStart st) as [n|].
    + destruct (negb _); [|destruct (sall _ _); [done|by scan]]. scan.
      destruct (trimNumber_prefix (sdrop n (out st))) as (y&Hy&_).
      assert (E : out st = (stake n (out st) +:+ trimNumber (sdrop n (out st))) +:+ y) by (rewrite sapp_assoc, <- Hy; symmetry; apply stake_sdrop).
      revert E. generalize (stake n (out st) +:+ trimNumber (sdrop n (out st))). intros u E.
      exists (String.length u), "". rewrite E, stake_length, sapp_nil_r. split; [done|]. by left.
    + destruct (fr st); [done|]. by destruct (_ && _).
Qed.

(** The completion of an unfinished text is finished: a second pass finds no
    open container in it and leaves it alone.  It keeps a prefix of the text, at
    most finishes the open string, and closes every open container with its own
    bracket, innermost first. *)
Theorem completion_closed s t : completeUnclosedFinal s = (t, true) ->
  completeUnclosedFinal t = (t, false)
  /\ exists k patch, t = stake k s +:+ patch +:+ closeFrames (fr (scanText s)) /\ patch ∈ patches.
Proof.
  unfold completeUnclosedFinal at 1. destruct (fr (scanText s)) as [|f l] eqn:El; [done|]. intros [= <-].
  change (String _ (closeFrames l)) with (closeFrames (f :: l)). rewrite <- El.
  assert (Hq : quoted (scanText s)) by (by apply (quoted_steps _ _ (scanText_steps s))).
  split.
  - unfold completeUnclosedFinal. rewrite closable_closed; [done| |by rewrite El].
    apply recoverEnd_closable; [|done|by rewrite El]. eapply invariant_steps; [apply scanText_steps|apply invariant_start].
  - destruct (recoverEnd_out (scanText s) Hq) as (k&patch&E&?). exists k, patch. rewrite scanText_out in E.
    by rewrite E, sapp_assoc.
Qed.

Lemma completion_closed_witness :
  completeUnclosedFinal "[1, {'a': 'b', 'c': 3}]" = ("[1, {'a': 'b', 'c': 3}]", false)
  /\ exists k patch, "[1, {'a': 'b', 'c': 3}]" = stake k "[1, {'a': 'b', 'c': 3." +:+ patch +:+ closeFrames (fr (scanText "[1, {'a': 'b', 'c': 3."))
      /\ patch ∈ patches.
Proof. apply (completion_closed "[1, {'a': 'b', 'c': 3."). vm_compute. reflexivity. Defined.
