(* ===== verification/StreamServe.v ===== *)
(** * StreamServe: which schemas the native stream lane takes
    ([internal/debaml/stream_serve.go], [recursive_profile.go], and the predicates
    of [parse.go] they use)

    The schema tests that run before a native stream is claimed.  The walks over
    the class graph are depth-first: one with three colours for cycles, two with a
    visited set.  The dynamic flag of a type node and the fingerprint of the checked
    static family are parameters. *)

From S2P Require Import Prelude GoStrings Schema Candidate Gate Dfs Unicode MatchString AliasCoerce DynamicSchema.
Open Scope stdpp_scope.

(** ** Tests of one type *)

(** Some node of [t] satisfies [p]: the walk the tests share, through the element
    of a list, the key and the value of a map, the items of a tuple and the arms of
    a union. *)
Fixpoint typeAny (p : type -> bool) (t : type) : bool :=
  p t ||
  match t with
  | TypeList _ (Some e) => typeAny p e
  | TypeMap _ k v =>
      (match k with Some k => typeAny p k | None => false end) || (match v with Some v => typeAny p v | None => false end)
  | TypeTuple _ items => existsb (typeAny p) items
  | TypeUnion _ (Some (vs, _)) => existsb (typeAny p) vs
  | _ => false
  end.

Definition isList (t : type) : bool := match t with TypeList _ _ => true | _ => false end.
Definition isClass (t : type) : bool := match t with TypeClass _ _ _ => true | _ => false end.
Definition isUnion (t : type) : bool := match t with TypeUnion _ _ => true | _ => false end.
Definition isMap (t : type) : bool := match t with TypeMap _ _ _ => true | _ => false end.

(** [typeHasNestedList], [typeHasNull], [typeHasBoolOrFloat], [typeHasMap],
    [typeHasUnion], [typeContainsClass]. *)
Definition typeHasNestedList : type -> bool :=
  typeAny (fun t => match t with TypeList _ (Some e) => isList e | _ => false end).
Definition typeHasNull : type -> bool :=
  typeAny (fun t => match t with TypePrimitive _ PrimitiveNull => true | _ => false end).
Definition typeHasBoolOrFloat : type -> bool :=
  typeAny (fun t =>
    match t with
    | TypePrimitive _ (PrimitiveBool | PrimitiveFloat) | TypeLiteral _ (Some (LiteralBool _)) => true
    | _ => false
    end).
Definition typeHasMap : type -> bool := typeAny isMap.
Definition typeHasUnion : type -> bool := typeAny isUnion.
Definition typeContainsClass : type -> bool := typeAny isClass.

(** [typeHasClassContainer]. *)
Definition typeHasClassContainer : type -> bool :=
  typeAny (fun t =>
    match t with
    | TypeList _ (Some e) => typeContainsClass e
    | TypeMap _ _ (Some v) => typeContainsClass v
    | _ => false
    end).

(** [typeHasNonStringMapKey]. *)
Definition typeHasNonStringMapKey : type -> bool :=
  typeAny (fun t => match t with TypeMap _ (Some k) _ => negb (isStringKey k) | _ => false end).

(** [typeIsUnquotedScalar]. *)
Fixpoint typeIsUnquotedScalar (t : type) : bool :=
  match t with
  | TypePrimitive _ (PrimitiveInt | PrimitiveFloat | PrimitiveBool) => true
  | TypeLiteral _ (Some (LiteralInt _ | LiteralBool _)) => true
  | TypeUnion _ (Some (vs, _)) => existsb typeIsUnquotedScalar vs
  | _ => false
  end.

(** [typeHasScalarMapValue]. *)
Fixpoint typeHasScalarMapValue (t : type) : bool :=
  match t with
  | TypeMap _ _ (Some v) => typeIsUnquotedScalar v || typeHasScalarMapValue v
  | TypeList _ (Some e) => typeHasScalarMapValue e
  | TypeTuple _ items => existsb typeHasScalarMapValue items
  | TypeUnion _ (Some (vs, _)) => existsb typeHasScalarMapValue vs
  | _ => false
  end.

(** [typeAbsorbsString]; both branches on the null arm test the same. *)
Fixpoint typeAbsorbsString (t : type) : bool :=
  match t with
  | TypePrimitive _ PrimitiveString => true
  | TypeLiteral _ (Some (LiteralString _)) => true
  | TypeUnion _ (Some (vs, _)) => existsb typeAbsorbsString vs
  | _ => false
  end.

(** ** Tests of the bundle *)

Section Serve.
Variables (T : tables) (b : Bundle).

(** The target and every field of every class: [typeGraphHasNestedList],
    [typeGraphHasNull], [typeGraphHasBoolOrFloat], [typeGraphHasMap],
    [typeGraphHasClassInContainer], [typeGraphHasNonStringMapKey] and
    [typeGraphHasUnion] have this shape. *)
Definition typeGraphHas (p : type -> bool) : bool :=
  p (Target b) || existsb (fun c => existsb (fun f => p (cf_Type f)) (cd_Fields c)) (Classes b).

(** The field of a root class of one field. *)
Definition rootSingleField : option type :=
  match Target b with
  | TypeClass _ name mode =>
      match FindClass b name mode with
      | Some cls => match cd_Fields cls with [f] => Some (cf_Type f) | _ => None end
      | None => None
      end
  | _ => None
  end.
Definition rootFieldIsStringAbsorbing : bool :=
  match rootSingleField with Some t => typeAbsorbsString t | None => false end.
Definition rootSingleFieldIsFreeStringList : bool :=
  match rootSingleField with Some (TypeList _ (Some (TypePrimitive _ PrimitiveString))) => true | _ => false end.
Definition rootSingleFieldIsClass : bool :=
  match rootSingleField with Some t => isClass t | None => false end.

(** [graphHasGreedyCommaRisk]: the fields of one class, then all classes. *)
Fixpoint greedyFields (fs : list ClassField) : bool :=
  match fs with
  | [] => false
  | f :: rest =>
      (negb (bool_decide (rest = [])) && typeIsUnquotedScalar (cf_Type f)) || typeHasScalarMapValue (cf_Type f) || greedyFields rest
  end.
Definition graphHasGreedyCommaRisk : bool :=
  existsb (fun c => greedyFields (cd_Fields c)) (Classes b) || typeHasScalarMapValue (Target b).

(** [aliasRenderedNameCollision]. *)
Definition collides (f g : ClassField) : bool :=
  negb (bool_decide (nm_Alias (cf_Name f) = None) && bool_decide (nm_Alias (cf_Name g) = None))
  && (matchesStringToString T (RenderedName (cf_Name f)) (RenderedName (cf_Name g))
      || matchesStringToString T (RenderedName (cf_Name g)) (RenderedName (cf_Name f))).
Fixpoint fieldCollision (fs : list ClassField) : bool :=
  match fs with
  | [] => false
  | f :: rest => existsb (collides f) rest || fieldCollision rest
  end.
Definition aliasRenderedNameCollision : bool := existsb (fun c => fieldCollision (cd_Fields c)) (Classes b).

(** ** Walks of the class graph *)

Definition findKey (k : ClassKey) : option ClassDef := FindClass b k.1 k.2.

(** Every class a class refers to, in the order of its fields. *)
Definition allRefs (k : ClassKey) : list ClassKey :=
  match findKey k with Some cls => cd_Fields cls ≫= (fun f => classRefs (cf_Type f)) | None => [] end.
(** The classes its fields are. *)
Definition classFields (k : ClassKey) : list ClassKey :=
  match findKey k with
  | Some cls => cd_Fields cls ≫= (fun f => match cf_Type f with TypeClass _ name mode => [(name, mode)] | _ => [] end)
  | None => []
  end.

(** [typeGraphHasClassCycle]: [Some true] is a back edge.  [None] is fuel used up. *)
Inductive color := gray | black.
Fixpoint cycleList (walk : ClassKey -> gmap ClassKey color -> option (gmap ClassKey color * bool))
    (refs : list ClassKey) (c : gmap ClassKey color) : option (gmap ClassKey color * bool) :=
  match refs with
  | [] => Some (c, false)
  | r :: refs =>
      match walk r c with
      | Some (c, false) => cycleList walk refs c
      | res => res
      end
  end.
Fixpoint cycleDfs (fuel : nat) (k : ClassKey) (c : gmap ClassKey color) : option (gmap ClassKey color * bool) :=
  match fuel with
  | O => None
  | S n =>
      match findKey k with
      | None => Some (c, false)
      | Some _ =>
          match c !! k with
          | Some gray => Some (c, true)
          | Some black => Some (c, false)
          | None =>
              match cycleList (cycleDfs n) (allRefs k) (<[k := gray]> c) with
              | Some (c, false) => Some (<[k := black]> c, false)
              | res => res
              end
          end
      end
  end.
Definition cycleFuel : nat := S (size (dom (classByKey b) : gset ClassKey)).
Definition typeGraphHasClassCycle : bool :=
  match Target b with
  | TypeClass _ name mode =>
      match cycleDfs cycleFuel (name, mode) ∅ with Some (_, r) => r | None => false end
  | _ => false
  end.

(** The keys a walk can meet. *)
Definition allKeys : list ClassKey := elements (dom (classByKey b)) ++ (elements (dom (classByKey b)) ≫= allRefs).
Definition foundBy (r : option (gset ClassKey * option unit)) : bool :=
  match r with Some (_, Some _) => true | _ => false end.

(** [classSubtreeHasList]: the class or one of the classes its fields are, at any
    depth, has a list field. *)
Definition ownList (k : ClassKey) : option unit :=
  match findKey k with Some cls => if existsb (fun f => isList (cf_Type f)) (cd_Fields cls) then Some tt else None | None => None end.
Definition classSubtreeHasList (k : ClassKey) : bool :=
  foundBy (walk ownList classFields (k :: allKeys) k).

(** [nestedClassUnsafe]. *)
Definition isListHolder (f : ClassField) : bool :=
  match cf_Type f with TypeClass _ name mode => classSubtreeHasList (name, mode) | _ => false end.
Definition isHeldLeaf (f : ClassField) : bool :=
  match cf_Type f with TypeEnum _ _ | TypeLiteral _ (Some (LiteralString _)) => true | _ => false end.
Definition nestedClassUnsafe (cls : ClassDef) : bool :=
  let fs := cd_Fields cls in
  let lists := length (List.filter (fun f => isList (cf_Type f)) fs) in
  (4 <=? length fs)%nat || existsb isHeldLeaf fs || (2 <=? lists)%nat || ((1 <=? lists)%nat && existsb isListHolder fs).

(** [typeGraphHasUnsafeNestedClass]: the walk from the classes the fields of the
    root are, with one visited set. *)
Definition unsafeClass (k : ClassKey) : option unit :=
  match findKey k with Some cls => if nestedClassUnsafe cls then Some tt else None | None => None end.
Definition typeGraphHasUnsafeNestedClass : bool :=
  match Target b with
  | TypeClass _ name mode =>
      foundBy (dfs_list (dfs unsafeClass classFields (S (length allKeys))) (classFields (name, mode)) ∅)
  | _ => false
  end.
End Serve.

(** ** The recursive class family ([recursive_profile.go]) *)

Section Profile.
Variable Dynamic : type -> bool.

Definition recNodeClass : string := "Node".
Definition recAClass : string := "A".
Definition recBClass : string := "B".

(** [recProfile]: the keys of the classes of the cycle. *)
Definition recProfile : Type := list ClassKey.

Definition noAlias (n : Name) : bool := bool_decide (nm_Alias n = None).
Definition isExactRecursiveClassHeader (cd : ClassDef) (name : string) : bool :=
  (nm_Name (cd_Name cd) =s name) && noAlias (cd_Name cd) && (cd_Mode cd =s NonStreaming)
  && bool_decide (cd_Constraints cd = []) && StreamIsZero (cd_Stream cd) && bool_decide (length (cd_Fields cd) = 2%nat).
Definition plainField (f : ClassField) (name : string) : bool :=
  (nm_Name (cf_Name f) =s name) && noAlias (cf_Name f) && negb (cf_StreamingNeeded f).
Definition isExactValueField (f : ClassField) : bool :=
  plainField f "value" &&
  match cf_Type f with TypePrimitive m PrimitiveString => negb (Dynamic (cf_Type f)) && MetaIsZero m | _ => false end.
Definition isExactNullableClassEdge (f : ClassField) (fieldName targetClass : string) : bool :=
  plainField f fieldName &&
  match cf_Type f with
  | TypeUnion m (Some ([TypeClass mv n mode as v], true)) =>
      MetaIsZero m && (n =s targetClass) && (mode =s NonStreaming) && negb (Dynamic v) && MetaIsZero mv
  | _ => false
  end.

(** [isExactMutualClass]; [isExactSelfRecursiveClass] is the case of the edge
    [next] to the class itself. *)
Definition isExactMutualClass (cd : ClassDef) (name edgeField edgeTarget : string) : bool :=
  isExactRecursiveClassHeader cd name &&
  match cd_Fields cd with
  | f0 :: f1 :: _ => isExactValueField f0 && isExactNullableClassEdge f1 edgeField edgeTarget
  | _ => false
  end.
Definition isExactSelfRecursiveClass (cd : ClassDef) (name : string) : bool := isExactMutualClass cd name "next" name.

Definition recNamesExactly (rec names : list string) : bool :=
  let got : gset string := list_to_set rec in
  bool_decide (size got = length names) && forallb (fun n => bool_decide (n ∈ got)) names.

(** [admittedRecursiveClassProfile]. *)
Definition admittedRecursiveClassProfile (b : Bundle) : option recProfile :=
  if bool_decide (length (RecursiveClasses b) = 0%nat) then None
  else if negb (bool_decide (length (StructuralRecursiveAliases b) = 0%nat)) || negb (bool_decide (length (Enums b) = 0%nat)) then None
  else
    match Target b with
    | TypeClass m name mode as t =>
        if negb (mode =s NonStreaming) || Dynamic t || negb (MetaIsZero m) then None
        else
          match Classes b with
          | [cd] =>
              if isExactSelfRecursiveClass cd recNodeClass && (name =s recNodeClass) && recNamesExactly (RecursiveClasses b) [recNodeClass]
              then Some [(recNodeClass, NonStreaming)] else None
          | [_; _] =>
              match FindClass b recAClass NonStreaming, FindClass b recBClass NonStreaming with
              | Some ca, Some cb =>
                  if ((name =s recAClass) || (name =s recBClass)) && recNamesExactly (RecursiveClasses b) [recAClass; recBClass]
                     && isExactMutualClass ca recAClass "b" recBClass && isExactMutualClass cb recBClass "a" recAClass
                  then Some [(recAClass, NonStreaming); (recBClass, NonStreaming)] else None
              | _, _ => None
              end
          | _ => None
          end
    | _ => None
    end.

(** [isAdmittedRecursiveEdge] and [typeHasNonAdmittedUnion]. *)
Definition isAdmittedRecursiveEdge (t : type) (prof : recProfile) : bool :=
  match t with
  | TypeUnion m (Some ([TypeClass mv n mode as v], true)) =>
      MetaIsZero m && negb (Dynamic v) && MetaIsZero mv && bool_decide ((n, mode) ∈ prof)
  | _ => false
  end.
Fixpoint typeHasNonAdmittedUnion (prof : recProfile) (t : type) : bool :=
  match t with
  | TypeUnion _ _ => negb (isAdmittedRecursiveEdge t prof)
  | TypeList _ (Some e) => typeHasNonAdmittedUnion prof e
  | TypeMap _ k v =>
      (match k with Some k => typeHasNonAdmittedUnion prof k | None => false end)
      || (match v with Some v => typeHasNonAdmittedUnion prof v | None => false end)
  | TypeTuple _ items => existsb (typeHasNonAdmittedUnion prof) items
  | _ => false
  end.

(** ** Admission *)

Variables (T : tables) (admitted : Bundle -> type -> bool) (fingerprint : Bundle -> bool).

(** The tests of [checkStreamRootSupported] in their order; [None] as the profile
    is the stream lane. *)
Definition streamTests (b : Bundle) (prof : option recProfile) : list bool :=
  [ rootFieldIsStringAbsorbing b
  ; rootSingleFieldIsFreeStringList b
  ; rootSingleFieldIsClass b
  ; match prof with None => typeGraphHasClassCycle b | Some _ => false end
  ; typeGraphHas b typeHasNestedList
  ; graphHasGreedyCommaRisk b
  ; match prof with None => typeGraphHas b typeHasUnion | Some p => typeGraphHas b (typeHasNonAdmittedUnion p) end
  ; typeGraphHas b typeHasNonStringMapKey
  ; aliasRenderedNameCollision T b
  ; typeGraphHas b typeHasMap
  ; typeGraphHas b typeHasBoolOrFloat
  ; typeGraphHas b typeHasNull
  ; typeGraphHas b typeHasClassContainer
  ; typeGraphHasUnsafeNestedClass b ].
Definition checkStreamRootSupported (b : Bundle) (prof : option recProfile) : option CoerceErr :=
  if existsb id (streamTests b prof) then Some Unsupported else None.

(** [SupportsNativeStreamBundle]. *)
Definition SupportsNativeStreamBundle (gateFuel : nat) (b : Bundle) : option CoerceErr :=
  checkSupported (admitted b) b gateFuel ;err
  staticCheckedRouteBoundary (fingerprint b) ;err
  checkStreamRootSupported b None ;err
  checkNoStreamAnnotations b.

(** [checkSupportedRecursive] and [SupportsNativeFinalBundle]. *)
Definition checkSupportedRecursive (gateFuel : nat) (b : Bundle) : option CoerceErr :=
  if negb (bool_decide (length (StructuralRecursiveAliases b) = 0%nat)) then Some Unsupported
  else checkSupportedFields (admitted b) b gateFuel.
Definition SupportsNativeFinalBundle (gateFuel : nat) (b : Bundle) : option CoerceErr :=
  if IsProvenServedRecursiveAliasStaticFamily b then None
  else
    match admittedRecursiveClassProfile b with
    | Some prof => checkSupportedRecursive gateFuel b ;err checkStreamRootSupported b (Some prof)
    | None => checkSupported (admitted b) b gateFuel ;err checkStreamRootSupported b None
    end.

(** [lowerForSupport], [SupportsNativeStream] and [SupportsNativeFinal]. *)
Definition lowerForSupport (s : option DynamicOutputSchema) : Bundle + CoerceErr :=
  match s with
  | None => inr Unsupported
  | Some _ =>
      match FromDynamicOutputSchema None s with
      | inr _ => inr Unsupported
      | inl b => match ValidateOutput b with (_, Some _) => inr Unsupported | (b, None) => inl b end
      end
  end.
Definition SupportsNativeStream (gateFuel : nat) (s : option DynamicOutputSchema) : option CoerceErr :=
  match lowerForSupport s with inr e => Some e | inl b => SupportsNativeStreamBundle gateFuel b end.
Definition SupportsNativeFinal (gateFuel : nat) (s : option DynamicOutputSchema) : option CoerceErr :=
  match lowerForSupport s with inr e => Some e | inl b => SupportsNativeFinalBundle gateFuel b end.
End Profile.

(** ** The cycle test *)

Section Cycle.
Variable b : Bundle.

(** A class refers to a class. *)
Definition refers (k k' : ClassKey) : Prop := k' ∈ allRefs b k.
(** No infinite chain of references starts at [k]. *)
Definition grounded : ClassKey -> Prop := Acc (fun k' k => refers k k').
Definition onCycle (x : ClassKey) : Prop := tc refers x x.

Definition blackOk (c : gmap ClassKey color) : Prop := forall k, c !! k = Some black -> grounded k.
Definition sameGray (c c' : gmap ClassKey color) : Prop := forall g, c' !! g = Some gray <-> c !! g = Some gray.

(** What a walk of the references [l] guarantees. *)
Definition cyclePost (l : list ClassKey) (c c' : gmap ClassKey color) (r : bool) : Prop :=
  dom c ⊆ dom c' /\
  if r then (forall g k, c !! g = Some gray -> k ∈ l -> tc refers g k) -> exists k x, k ∈ l /\ rtc refers k x /\ onCycle x
  else sameGray c c' /\ (blackOk c -> blackOk c' /\ forall k, k ∈ l -> grounded k).

Lemma cycleList_post walk l : forall c c' r,
  (forall k c c' r, k ∈ l -> walk k c = Some (c', r) -> cyclePost [k] c c' r) ->
  cycleList walk l c = Some (c', r) -> cyclePost l c c' r.
Proof.
  induction l as [|k l IH]; intros c c' r Hw H; simpl in H.
  { simplify_eq. split; [done|]. split; [done|]. set_solver. }
  destruct (walk k c) as [[c1 [|]]|] eqn:E; simplify_eq; apply Hw in E as [Hd E]; try by constructor.
  - split; [done|]. intros Hg. destruct E as (k'&x&->%list_elem_of_singleton&?&?).
    + intros g k' Hgray ->%list_elem_of_singleton. apply Hg; [done|constructor].
    + exists k, x. split_and!; [constructor|done|done].
  - destruct E as [Hs Hb]. apply IH in H as [Hd' H]; [|intros; eapply Hw; [by constructor|done]].
    split; [set_solver|]. destruct r.
    + intros Hg. destruct H as (k'&x&?&?&?).
      * intros g k' Hgray Hk'. apply Hg; [by apply Hs|by constructor].
      * exists k', x. split_and!; [by constructor|done|done].
    + destruct H as [Hs' Hb']. split; [intros g; rewrite (Hs' g); apply Hs|].
      intros Hc. destruct (Hb Hc) as [Hc1 Hk]. destruct (Hb' Hc1) as [Hc' Hl]. split; [done|].
      intros k' [->|Hk']%elem_of_cons; [apply Hk; constructor|auto].
Qed.

Lemma cycleDfs_post fuel : forall k c c' r, cycleDfs b fuel k c = Some (c', r) -> cyclePost [k] c c' r.
Proof.
  induction fuel as [|n IH]; intros k c c' r H; simpl in H; [done|].
  destruct (findKey b k) as [cls|] eqn:Hf.
  2: { simplify_eq. split; [done|]. split; [done|]. intros Hb. split; [done|]. intros k' ->%list_elem_of_singleton.
       constructor. intros y Hy. unfold refers, allRefs in Hy. rewrite Hf in Hy. set_solver. }
  destruct (c !! k) as [[|]|] eqn:Hk.
  - simplify_eq. split; [done|]. intros Hg. exists k, k. split_and!; [constructor|done|]. apply Hg; [done|constructor].
  - simplify_eq. split; [done|]. split; [done|]. intros Hb. split; [done|]. intros k' ->%list_elem_of_singleton. auto.
  - destruct (cycleList _ _ _) as [[c1 [|]]|] eqn:El; simplify_eq; apply cycleList_post in El as [Hd El]; try (by intros; eapply IH).
    + split; [set_solver|]. intros Hg. destruct El as (k'&x&Hk'&Hx&Hc).
      * intros g k' Hgray Hk'. destruct (decide (g = k)) as [->|Hne]; [by apply tc_once|].
        rewrite lookup_insert_ne in Hgray by done. eapply tc_r; [apply Hg; [done|constructor]|done].
      * exists k, x. split_and!; [constructor| |done]. by eapply rtc_l.
    + destruct El as [Hs Hb]. split; [set_solver|]. split.
      * intros g. destruct (decide (g = k)) as [->|Hne].
        -- rewrite lookup_insert_eq, Hk. done.
        -- rewrite lookup_insert_ne by done. rewrite (Hs g). by rewrite lookup_insert_ne.
      * intros Hc. destruct Hb as [Hb Hl].
        { intros x Hx. destruct (decide (x = k)) as [->|]; [by rewrite lookup_insert_eq in Hx|]. rewrite lookup_insert_ne in Hx by done. auto. }
        assert (Hacc : grounded k) by (constructor; intros y Hy; by apply Hl).
        split; [|by intros k' ->%list_elem_of_singleton].
        intros x Hx. destruct (decide (x = k)) as [->|]; [done|]. rewrite lookup_insert_ne in Hx by done. auto.
Qed.

Lemma findKey_dom k : is_Some (findKey b k) -> k ∈ dom (classByKey b).
Proof.
  intros [cls H]. unfold findKey, FindClass in H. destruct k as [name mode]. simpl in H.
  destruct (classByKey b !! (name, mode)) eqn:E; [|done]. by apply elem_of_dom.
Qed.

Definition unseen (c : gmap ClassKey color) : nat := size ((dom (classByKey b) : gset ClassKey) ∖ dom c).

Lemma unseen_mono c c' : dom c ⊆ dom c' -> (unseen c' <= unseen c)%nat.
Proof. intros H. unfold unseen. apply subseteq_size. set_solver. Qed.

Lemma cycleDfs_total fuel : forall k c, (unseen c < fuel)%nat -> is_Some (cycleDfs b fuel k c).
Proof.
  induction fuel as [|n IH]; intros k c Hf; simpl; [lia|]. destruct (findKey b k) as [cls|] eqn:Hk; [|done].
  destruct (c !! k) as [[|]|] eqn:Hc; [done|done|].
  assert (Hu : (unseen (<[k := gray]> c) < n)%nat).
  { enough (unseen (<[k := gray]> c) < unseen c)%nat by lia. unfold unseen. apply subset_size.
    assert (k ∈ dom (classByKey b)) by (apply findKey_dom; by rewrite Hk).
    assert (k ∉ dom c) by (by apply not_elem_of_dom). rewrite dom_insert. set_solver. }
  assert (Hl : forall l c, (unseen c < n)%nat -> is_Some (cycleList (cycleDfs b n) l c)).
  { induction l as [|r l IHl]; intros c1 H1; simpl; [done|].
    destruct (IH r c1 H1) as [[c2 [|]] E]; rewrite E; [done|]. apply IHl.
    apply cycleDfs_post in E as [Hd _]. pose proof (unseen_mono _ _ Hd). lia. }
  destruct (Hl (allRefs b k) _ Hu) as [[c1 [|]] ->]; done.
Qed.

Lemma grounded_no_cycle k : grounded k -> forall x, rtc refers k x -> ~ onCycle x.
Proof.
  intros Hk x Hx. assert (Hg : grounded x).
  { induction Hx as [|k y x Hky _ IH]; [done|]. apply IH. by destruct Hk as [Hk]; apply Hk. }
  clear -Hg. induction Hg as [x _ IH]. intros Hc.
  assert (exists y, refers x y /\ onCycle y) as (y&Hy&Hc').
  { unfold onCycle in *. inversion Hc as [? ? H|? y ? H1 H2]; subst; [by exists x|].
    exists y. split; [done|]. by eapply tc_r. }
  by apply (IH y).
Qed.

Lemma cycleDfs_fuel c : (unseen c < cycleFuel b)%nat.
Proof. unfold unseen, cycleFuel. apply Nat.lt_succ_r, subseteq_size. set_solver. Qed.

(** A test that finds nothing grounds the class it started from. *)
Lemma no_cycle_grounded m name mode : Target b = TypeClass m name mode -> typeGraphHasClassCycle b = false -> grounded (name, mode).
Proof.
  unfold typeGraphHasClassCycle. intros -> H. destruct (cycleDfs_total _ (name, mode) ∅ (cycleDfs_fuel ∅)) as [[c r] E].
  rewrite E in H. subst r. apply cycleDfs_post in E as (_&_&Hb). apply Hb; [|constructor]. by intros k Hk; rewrite lookup_empty in Hk.
Qed.

(** The three-colour walk decides whether the class graph of the target has a
    cycle: it answers, and it reports one exactly when a class reachable from the
    target refers, through fields, containers or other classes, back to itself. *)
Theorem class_cycle_exact :
  typeGraphHasClassCycle b = true <->
  exists m name mode x, Target b = TypeClass m name mode /\ rtc refers (name, mode) x /\ onCycle x.
Proof.
  split.
  - unfold typeGraphHasClassCycle. destruct (Target b) as [| | | |m name mode| | | | | | |] eqn:Et; try done.
    destruct (cycleDfs b (cycleFuel b) (name, mode) ∅) as [[c r]|] eqn:E; [|done]. intros ->.
    apply cycleDfs_post in E as [_ E]. destruct E as (k&x&->%list_elem_of_singleton&?&?); [|eauto 8].
    intros g k Hg. by rewrite lookup_empty in Hg.
  - intros (m&name&mode&x&Et&Hx&Hc). destruct (typeGraphHasClassCycle b) eqn:E; [done|]. exfalso.
    by eapply (grounded_no_cycle _ (no_cycle_grounded _ _ _ Et E)).
Qed.
End Cycle.

(** ** The walks with a visited set *)

Section Walks.
Variable b : Bundle.

(** The class [k'] is a field, at any depth, of the class [k]. *)
Definition nestedIn (k k' : ClassKey) : Prop := leads (classFields b) k k'.

Lemma classFields_refs k : classFields b k ⊆ allRefs b k.
Proof.
  unfold classFields, allRefs. destruct (findKey b k) as [cls|]; [|done]. intros x. rewrite !list_elem_of_bind.
  intros (f&Hx&Hf). exists f. split; [|done]. destruct (cf_Type f); try (by apply not_elem_of_nil in Hx). done.
Qed.

Lemma classFields_keys k k' : k' ∈ classFields b k -> k' ∈ allKeys b.
Proof.
  intros Hk. assert (Hd : k ∈ dom (classByKey b)).
  { apply findKey_dom. unfold classFields in Hk. destruct (findKey b k); [done|]. by apply not_elem_of_nil in Hk. }
  apply elem_of_app. right. apply list_elem_of_bind. exists k. split; [by apply classFields_refs|by apply elem_of_elements].
Qed.

Lemma foundBy_exact (check : ClassKey -> option unit) U l fuel :
  (forall k k', k' ∈ classFields b k -> k' ∈ U) -> (forall k, k ∈ l -> k ∈ U) -> (length U < fuel)%nat ->
  foundBy (dfs_list (dfs check (classFields b) fuel) l ∅) = true <->
  exists k x, k ∈ l /\ nestedIn k x /\ check x = Some tt.
Proof.
  intros Hn Hl Hf. destruct (dfs_list_exact check (classFields b) U Hn fuel l Hl Hf) as (v&r&->&H). destruct r as [[]|]; simpl.
  - split; [|done]. intros _. destruct H as (n&x&?&?&?). by exists n, x.
  - split; [done|]. intros (k&x&Hk&Hx&Hc). by rewrite (H k x Hk Hx) in Hc.
Qed.

(** [classSubtreeHasList] finds a list field of the class or of a nested class. *)
Lemma classSubtreeHasList_exact k :
  classSubtreeHasList b k = true <-> exists x cls f, nestedIn k x /\ findKey b x = Some cls /\ f ∈ cd_Fields cls /\ isList (cf_Type f) = true.
Proof.
  assert (classSubtreeHasList b k = foundBy (dfs_list (dfs (ownList b) (classFields b) (S (length (k :: allKeys b)))) [k] ∅)) as ->.
  { unfold classSubtreeHasList, walk. cbn [dfs_list]. by destruct (dfs _ _ _ _ _) as [[? []]|]. }
  rewrite (foundBy_exact _ (k :: allKeys b)); [|intros; right; by eapply classFields_keys|set_solver|lia].
  unfold ownList. split.
  - intros (k'&x&->%list_elem_of_singleton&Hx&H). destruct (findKey b x) as [cls|] eqn:E; [|done].
    destruct (existsb _ _) eqn:Ee; [|done]. apply existsb_exists in Ee as (f&?%list_elem_of_In&?). by exists x, cls, f.
  - intros (x&cls&f&Hx&Hc&Hf&Hl). exists k, x. split_and!; [constructor|done|]. rewrite Hc.
    assert (existsb (fun f => isList (cf_Type f)) (cd_Fields cls) = true) as -> by (apply existsb_exists; exists f; by rewrite <- list_elem_of_In).
    done.
Qed.

Lemma unsafe_nested_exact m name mode : Target b = TypeClass m name mode ->
  typeGraphHasUnsafeNestedClass b = true <->
  exists k x cls, k ∈ classFields b (name, mode) /\ nestedIn k x /\ findKey b x = Some cls /\ nestedClassUnsafe b cls = true.
Proof.
  intros Ht. unfold typeGraphHasUnsafeNestedClass. rewrite Ht.
  rewrite (foundBy_exact _ (allKeys b)); [|apply classFields_keys|apply classFields_keys|lia]. unfold unsafeClass. split.
  - intros (k&x&Hk&Hx&H). destruct (findKey b x) as [cls|] eqn:E; [|done]. destruct (nestedClassUnsafe b cls) eqn:Eu; [|done].
    by exists k, x, cls.
  - intros (k&x&cls&Hk&Hx&Hc&Hu). exists k, x. by rewrite Hc, Hu.
Qed.
End Walks.

(** ** What the stream lane admits *)

(** A leaf of the core: a string, an integer, an enum, a literal string or integer. *)
Definition coreLeaf (t : type) : Prop :=
  match t with
  | TypePrimitive _ (PrimitiveString | PrimitiveInt) | TypeEnum _ _
  | TypeLiteral _ (Some (LiteralString _ | LiteralInt _)) => True
  | _ => False
  end.
(** A field of the core: a leaf, a list of leaves, or a class. *)
Definition coreField (t : type) : Prop :=
  match t with
  | TypeList _ (Some e) => coreLeaf e
  | TypeClass _ _ _ => True
  | _ => coreLeaf t
  end.

(** A nested class of the core. *)
Definition smallClass (b : Bundle) (cls : ClassDef) : Prop :=
  (length (cd_Fields cls) <= 3)%nat
  /\ (length (List.filter (fun f => isList (cf_Type f)) (cd_Fields cls)) <= 1)%nat
  /\ (forall f, f ∈ cd_Fields cls -> isHeldLeaf f = false)
  /\ (forall f g m name mode x c h, f ∈ cd_Fields cls -> isList (cf_Type f) = true ->
        g ∈ cd_Fields cls -> cf_Type g = TypeClass m name mode -> nestedIn b (name, mode) x ->
        findKey b x = Some c -> h ∈ cd_Fields c -> isList (cf_Type h) = false).

(** The root is one field of a kind that cannot be implied, or several fields. *)
Definition plainRoot (cls : ClassDef) : Prop :=
  match cd_Fields cls with
  | [f] => typeAbsorbsString (cf_Type f) = false /\ isClass (cf_Type f) = false
      /\ forall m m', cf_Type f <> TypeList m (Some (TypePrimitive m' PrimitiveString))
  | _ => True
  end.

Record streamCore (b : Bundle) (root : ClassKey) : Prop := {
  core_fields : forall k cls f, findKey b k = Some cls -> f ∈ cd_Fields cls -> coreField (cf_Type f);
  core_last : forall k cls before f rest, findKey b k = Some cls -> cd_Fields cls = before ++ f :: rest ->
    rest <> [] -> typeIsUnquotedScalar (cf_Type f) = false;
  core_grounded : grounded b root;
  core_nested : forall k x cls, k ∈ classFields b root -> nestedIn b k x -> findKey b x = Some cls -> smallClass b cls;
  core_root : forall cls, findKey b root = Some cls -> plainRoot cls
}.

Section Core.
Lemma typeAny_here p t : typeAny p t = false -> p t = false.
Proof. destruct t; simpl; intros H; by apply orb_false_iff in H as [? _]. Qed.

Lemma typeAny_elem p m e : typeAny p (TypeList m (Some e)) = false -> typeAny p e = false.
Proof. simpl. intros H. by apply orb_false_iff in H as [_ ?]. Qed.

Lemma findKey_in b k cls : findKey b k = Some cls -> cls ∈ Classes b.
Proof.
  unfold findKey, FindClass. destruct (classByKey b !! _) as [i|]; simpl; [|done]. apply list_elem_of_lookup_2.
Qed.

Lemma typeGraphHas_field b p k cls f : typeGraphHas b p = false -> findKey b k = Some cls -> f ∈ cd_Fields cls -> p (cf_Type f) = false.
Proof.
  unfold typeGraphHas. intros [_ H]%orb_false_iff Hk Hf. apply findKey_in in Hk.
  rewrite existsb_false_forall, Forall_forall in H. specialize (H cls Hk). simpl in H.
  rewrite existsb_false_forall, Forall_forall in H. by apply H.
Qed.

Lemma coreLeaf_intro b ad n t : checkSupportedType ad b n t = None -> validateType b t = None -> outputNode t = None ->
  isList t = false -> isClass t = false -> typeHasUnion t = false -> typeHasMap t = false -> typeHasBoolOrFloat t = false -> typeHasNull t = false ->
  coreLeaf t.
Proof.
  intros Hs Hv Ho Hl Hc Hu Hm Hf Hn. apply typeAny_here in Hu, Hm, Hf, Hn.
  destruct n as [|n]; [done|]. cbn [checkSupportedType] in Hs. apply thenErr_none in Hs as [_ Hs].
  destruct t as [|m p| |m [[]|]| | | | | | | |]; try done. by destruct p.
Qed.

Lemma coreField_intro b ad n t : checkSupportedType ad b n t = None -> validateType b t = None -> outputOnly t ->
  typeHasNestedList t = false -> typeHasClassContainer t = false ->
  typeHasUnion t = false -> typeHasMap t = false -> typeHasBoolOrFloat t = false -> typeHasNull t = false ->
  coreField t.
Proof.
  intros Hs Hv Ho Hl Hc Hu Hm Hf Hn. destruct (isClass t) eqn:Ec; [by destruct t|]. destruct (isList t) eqn:El.
  - destruct t as [| | | | |m [e|]| | | | | |]; try done. simpl.
    apply typeAny_here in Hl, Hc. simpl in Hl, Hc.
    eapply (coreLeaf_intro b ad (pred n)); [|done|apply Ho; repeat constructor|done|by eapply typeAny_here|by eapply typeAny_elem..].
    destruct n as [|n]; [done|]. cbn [checkSupportedType] in Hs. by apply thenErr_none in Hs as [_ Hs].
  - assert (coreLeaf t) as H by (eapply coreLeaf_intro; try done; apply Ho; constructor). by destruct t.
Qed.

Lemma greedyFields_last fs : greedyFields fs = false -> forall before f rest, fs = before ++ f :: rest -> rest <> [] ->
  typeIsUnquotedScalar (cf_Type f) = false.
Proof.
  induction fs as [|g fs IH]; intros H before f rest E Hn; [by destruct before|]. simpl in H.
  apply orb_false_iff in H as [[H _]%orb_false_iff Hr]. destruct before as [|g' before]; injection E as -> ->; [|by eapply IH].
  apply andb_false_iff in H as [H|H]; [|done]. by rewrite negb_false_iff, bool_decide_eq_true in H.
Qed.

Lemma smallClass_intro b cls : nestedClassUnsafe b cls = false -> smallClass b cls.
Proof.
  unfold nestedClassUnsafe. rewrite !orb_false_iff. intros (((H1&H2)&H3)&H4). unfold smallClass.
  apply Nat.leb_gt in H1, H3. rewrite existsb_false_forall, Forall_forall in H2. split_and!; [lia|lia|auto|].
  intros f g m name mode x c h Hf Hl Hg Ht Hx Hc Hh. apply andb_false_iff in H4 as [H4|H4].
  - apply Nat.leb_gt in H4. destruct (List.filter _ _) eqn:E; [|simpl in H4; lia].
    assert (f ∈ []) as []%not_elem_of_nil. rewrite <- E. apply list_elem_of_In, filter_In. by rewrite <- list_elem_of_In.
  - rewrite existsb_false_forall, Forall_forall in H4. specialize (H4 g Hg). unfold isListHolder in H4. rewrite Ht in H4.
    destruct (isList (cf_Type h)) eqn:E; [|done]. exfalso. rewrite (proj2 (classSubtreeHasList_exact b (name, mode))) in H4; [done|].
    by exists x, c, h.
Qed.

(** What the tests of the lane and the validation of the bundle leave. *)
Lemma validated_roots b0 b : ValidateOutput b0 = (b, None) ->
  rootTypes b (fun t => validateType b t = None) /\ rootTypes b outputOnly.
Proof.
  unfold ValidateOutput, Validate. destruct (RebuildIndexes b0) as [b1 e]. intros [= -> H].
  apply thenErr_none in H as [[_ H]%thenErr_none Ho]. apply thenErr_none in H as [H _]. split.
  - by apply (eachRootType_spec b (validateType b) (fun t => validateType b t = None)) in H.
  - apply (eachRootType_spec b (walkType outputNode) outputOnly) in Ho; [done|]. intros t. apply walkType_spec.
Qed.

Lemma rootTypes_field b P k cls f : rootTypes b P -> findKey b k = Some cls -> f ∈ cd_Fields cls -> P (cf_Type f).
Proof.
  intros (_&H&_) Hk Hf. apply findKey_in in Hk. rewrite Forall_forall in H. specialize (H cls Hk). rewrite Forall_forall in H. auto.
Qed.

Lemma checkSupported_field b ad n k cls f : checkSupported ad b n = None -> findKey b k = Some cls -> f ∈ cd_Fields cls ->
  checkSupportedType ad b n (cf_Type f) = None.
Proof.
  unfold checkSupported, checkSupportedFields. destruct (negb _); [done|]. destruct (negb _); [done|].
  rewrite !thenErr_none, !firstErr_none, !Forall_forall. intros (_&_&H) Hk Hf. apply findKey_in in Hk. specialize (H cls Hk). simpl in H.
  destruct (bool_decide (cd_Constraints cls = [])); [|done]. rewrite firstErr_none, Forall_forall in H. auto.
Qed.
End Core.

Section Admission.
Variables (Dynamic : type -> bool) (T : tables) (admitted : Bundle -> type -> bool) (fingerprint : Bundle -> bool).

Lemma admission_core b0 b m name mode gateFuel :
  ValidateOutput b0 = (b, None) -> Target b = TypeClass m name mode ->
  SupportsNativeStreamBundle Dynamic T admitted fingerprint gateFuel b = None ->
  streamCore b (name, mode).
Proof.
  intros Hv Ht Hs. destruct (validated_roots _ _ Hv) as [Hty Hout]. unfold SupportsNativeStreamBundle in Hs.
  rewrite !thenErr_none in Hs. destruct Hs as (Hsup&_&Hroot&_).
  unfold checkStreamRootSupported, streamTests in Hroot. destruct (existsb id _) eqn:E; [done|]. clear Hroot. cbn [existsb id] in E.
  rewrite !orb_false_iff in E. destruct E as (R1&R2&R3&Hcyc&Hnl&Hgr&Hun&_&_&Hmap&Hbf&Hnull&Hcc&Hns&_). split.
  - intros k cls f Hk Hf. eapply coreField_intro; [by eapply checkSupported_field|by apply (rootTypes_field _ _ _ _ _ Hty Hk Hf)|
      by apply (rootTypes_field _ _ _ _ _ Hout Hk Hf)|by apply (typeGraphHas_field b _ k cls)..].
  - intros k cls before f rest Hk E Hn. unfold graphHasGreedyCommaRisk in Hgr. apply orb_false_iff in Hgr as [Hgr _].
    rewrite existsb_false_forall, Forall_forall in Hgr. by apply (greedyFields_last _ (Hgr _ (findKey_in _ _ _ Hk)) before f rest).
  - by eapply no_cycle_grounded.
  - intros k x cls Hk Hx Hc. destruct (nestedClassUnsafe b cls) eqn:E; [|exact (smallClass_intro b cls E)].
    rewrite (proj2 (unsafe_nested_exact b m name mode Ht)) in Hns; [done|]. by exists k, x, cls.
  - intros cls Hc. unfold rootFieldIsStringAbsorbing, rootSingleFieldIsFreeStringList, rootSingleFieldIsClass, rootSingleField in *.
    unfold findKey in Hc. simpl in Hc. rewrite Ht, Hc in *. unfold plainRoot. destruct (cd_Fields cls) as [|f [|]]; try done.
    split_and!; [done|done|]. intros m1 m2 E. by rewrite E in R2.
Qed.

(** C18. The schemas the native stream lane admits are the documented core: every
    field is a string, an integer, an enum, a literal string or integer, a list of
    such leaves or a class; an unquoted scalar is the last field of its class; the
    references between classes are well founded; every nested class has at most
    three fields, at most one list (and then no nested class with a list) and no
    enum or literal string; and a root of one field is not one that text could be
    taken for. *)
Theorem stream_admission_core b0 b m name mode gateFuel :
  ValidateOutput b0 = (b, None) -> Target b = TypeClass m name mode ->
  SupportsNativeStreamBundle Dynamic T admitted fingerprint gateFuel b = None ->
  streamCore b (name, mode).
Proof. apply admission_core. Qed.
End Admission.

(** ** A schema of the core *)

Definition coreBundle : Bundle :=
  mkBundle (TypeClass noMeta "Root" NonStreaming) []
    [ mkClassDef (mkName "Root" None) None NonStreaming
        [ mkClassField (mkName "title" None) (TypePrimitive noMeta PrimitiveString) None false
        ; mkClassField (mkName "tags" None) (TypeList noMeta (Some (TypePrimitive noMeta PrimitiveString))) None false
        ; mkClassField (mkName "inner" None) (TypeClass noMeta "Inner" NonStreaming) None false
        ; mkClassField (mkName "count" (Some "n")) (TypePrimitive noMeta PrimitiveInt) None false ]
        [] (mkStreaming false false false) ∅ ∅
    ; mkClassDef (mkName "Inner" None) None NonStreaming
        [ mkClassField (mkName "text" None) (TypePrimitive noMeta PrimitiveString) None false
        ; mkClassField (mkName "sizes" None) (TypeList noMeta (Some (TypePrimitive noMeta PrimitiveInt))) None false ]
        [] (mkStreaming false false false) ∅ ∅ ]
    [] [] ∅ ∅ ∅.

Lemma stream_admission_core_witness : streamCore (fst (ValidateOutput coreBundle)) ("Root", NonStreaming).
Proof.
  apply (stream_admission_core (fun _ => true) asciiTables (fun _ _ => false) (fun _ => false) coreBundle _ noMeta "Root" NonStreaming 9);
    vm_compute; reflexivity.
Defined.
