(* ===== verification/StreamAgree.v ===== *)
(** * StreamAgree: the last partial is the final value

    On the schemas of the native stream lane, for classes of several fields, the
    streaming coercion of a complete value that the final coercion accepts emits
    the same text or declines; so does the streaming parse of a finished text. *)

From Stdlib Require Import Ascii String.
From S2P Require Import Prelude GoStrings GoValue Jsonish FixParse FixStream Extract GoFloat NumberText Unicode MatchString Schema PairGuard Candidate OutputText Gate LeafCoerce TryCast Coerce NumberValid CoerceTyping CoerceSound OrderedMap Reachability DynamicSchema AliasCoerce CoerceStream ParseNumbers ParseDynamic StreamServe.
Open Scope stdpp_scope.

(** ** Complete values *)

Inductive complete : value -> Prop :=
  | complete_null : complete (valNull false)
  | complete_bool x : complete (valBool false x)
  | complete_number f tok : complete (valNumber false f tok)
  | complete_string s : complete (valString false s)
  | complete_array xs : Forall complete xs -> complete (valArray false xs)
  | complete_object fs : Forall (fun f => complete f.2) fs -> complete (valObject false fs).
#[local] Hint Constructors complete Forall : numbers.

Lemma complete_incomplete v : complete v -> incomplete v = false.
Proof. by destruct 1. Qed.

(** ** Coercion *)

(** What the stream shows of an accepted text: the same text, or a decline that is
    not a deletion. *)
Definition shows (r : string + CoerceErr) (out : string) : Prop :=
  match r with inl o => o = out | inr e => e <> StreamDeleted end.

(** The text, or the end of the fuel. *)
Definition shown (r : string + CoerceErr) (out : string) : Prop := r = inl out \/ r = inr OutOfFuel.

Section Agree.
Variables (E : engine) (b : Bundle).
Hypothesis core : forall k cls f, findKey b k = Some cls -> f ∈ cd_Fields cls -> coreField (cf_Type f).
Hypothesis several : forall k cls, findKey b k = Some cls -> length (cd_Fields cls) <> 1%nat.

(** A leaf: the two coercions accept and refuse the same values. *)
Lemma leaf_agree n t v ctx : coreLeaf t -> complete v ->
  match snd (coerce (S n) E b t v ctx (newFlags false)) with
  | inl out => forall k, shown (coerceStream E b k t v) out
  | inr _ => forall k, exists e, coerceStream E b k t v = inr e
  end.
Proof.
  intros Ht Hv. pose proof (complete_incomplete v Hv) as Hi.
  assert (Hstr : forall m, match snd (coerce (S n) E b (TypePrimitive m PrimitiveString) v ctx (newFlags false)) with
    | inl out => coerceStreamString v = inl out | inr e => coerceStreamString v = inr e end).
  { intros m. cbn [coerce coerceStep coercePrimitive]. unfold coerceStreamString.
    destruct v as [i|i x|i f tok|i s|i xs|i fs]; cbn [incomplete] in Hi; rewrite ?Hi; try (by destruct (snd _)). done. }
  assert (Hleaf : forall t', match t' with TypePrimitive _ _ | TypeLiteral _ _ | TypeEnum _ _ => True | _ => False end ->
    match snd (coerce (S n) E b t' v ctx (newFlags false)) with
    | inl out => coerceStreamDoneLeaf E b t' v = inl out
    | inr _ => exists e, coerceStreamDoneLeaf E b t' v = inr e end).
  { intros t' H'. assert (coerce (S n) E b t' v ctx = coerce 1 E b t' v emptyCtx) as -> by by destruct t'.
    unfold coerceStreamDoneLeaf. rewrite Hi. destruct (snd _); [done|]. destruct (streamCompleteLeafUnparseable t' v); eauto. }
  assert (Hk : forall r, (forall k, coerceStream E b (S k) t v = r) ->
    match snd (coerce (S n) E b t v ctx (newFlags false)) with inl out => r = inl out | inr _ => exists e, r = inr e end ->
    match snd (coerce (S n) E b t v ctx (newFlags false)) with
    | inl out => forall k, shown (coerceStream E b k t v) out
    | inr _ => forall k, exists e, coerceStream E b k t v = inr e end).
  { intros r Hr. destruct (snd _) as [out|e]; intros H [|k]; rewrite ?Hr; [by right|by left; rewrite H|by eexists|done]. }
  destruct t as [|m p|m name|m lit| | | | | | | |]; try done.
  - destruct p; try done.
    + apply (Hk (coerceStreamString v)); [done|]. specialize (Hstr m). destruct (snd _); [done|eauto].
    + apply (Hk (coerceStreamDoneLeaf E b (TypePrimitive m PrimitiveInt) v)); [done|]. by apply Hleaf.
  - apply (Hk (coerceStreamDoneLeaf E b (TypeEnum m name) v)); [done|]. by apply Hleaf.
  - apply (Hk (coerceStreamDoneLeaf E b (TypeLiteral m lit) v)); [done|]. by apply Hleaf.
Qed.

Lemma shown_shows r out : shown r out -> shows r out.
Proof. by intros [-> | ->]. Qed.

(** A list of an array fails only by declining. *)
Lemma listItems_err rec elem ctx items : forall i last f g e, listItems b rec elem ctx i last items f = (g, inr e) -> isProvenBamlError e = true ->
  declinableChildError e = false.
Proof.
  induction items as [|v items IHl]; intros i last f g e; cbn [listItems]; [done|]. unfold bindM at 1.
  destruct (coerceListChild b rec elem v _ f) as [f1 [[[out next]|]|e1]] eqn:Ec.
  - unfold bindM at 1. destruct (listItems _ _ _ _ _ _ _ f1) as [f2 [r|e2]] eqn:El; [done|]. intros [= <- <-]. by eapply IHl.
  - unfold bindM at 1, add, modify. unfold bindM at 1. destruct (listItems _ _ _ _ _ _ _ _) as [f2 [r|e2]] eqn:El; [done|]. intros [= <- <-]. by eapply IHl.
  - intros [= <- <-]. revert Ec. unfold coerceListChild. destruct (rec elem v _ _) as [childF [out|e']]; [done|].
    destruct (declinableChildError e') eqn:Hd; simpl; [|by intros [= _ <-]]. repeat case_match; by intros [= _ <-].
Qed.

Lemma list_err n m elem i items ctx f g e : coerce n E b (TypeList m elem) (valArray i items) ctx f = (g, inr e) ->
  isProvenBamlError e = true -> declinableChildError e = false.
Proof.
  destruct n as [|n']; [by intros [= <- <-]|]. cbn [coerce coerceStep]. destruct elem as [elem|]; [|by intros [= <- <-]].
  unfold coerceList. unfold bindM at 1, setKind, modify. unfold bindM at 1.
  destruct (listItems _ _ _ _ _ _ _ _) as [f2 [r|e2]] eqn:El; [done|]. intros [= <- <-]. by eapply listItems_err.
Qed.

(** Containers, over the coercion of the parts. *)
Section Parts.
Variable n : nat.
Hypothesis IH : forall t v ctx g out, coreField t -> complete v -> coerce n E b t v ctx (newFlags false) = (g, inl out) ->
  forall k, shows (coerceStream E b k t v) out.

Lemma listChild_agree elem v ctx : coreLeaf elem -> complete v ->
  yields (coerceListChild b (coerce n E b) elem v ctx)
    (fun r => match r with Some (out, _) => forall k, shown (coerceStream E b k elem v) out | None => forall k, exists e, coerceStream E b k elem v = inr e end).
Proof.
  intros He Hv cf g r. unfold coerceListChild. destruct n as [|n']; [done|]. pose proof (leaf_agree n' elem v ctx He Hv) as Hl.
  destruct (coerce (S n') E b elem v ctx (newFlags false)) as [childF [out|e]]; simpl in Hl; [by intros [= <- <-]|].
  destruct (negb _); [done|]. destruct (uncertain childF); [done|].
  destruct (provenListItemError b elem v); [by intros [= <- <-]|]. by destruct (_ && _); intros [= <- <-].
Qed.

Lemma listItems_agree elem ctx items : coreLeaf elem -> Forall complete items -> forall i last,
  yields (listItems b (coerce n E b) elem ctx i last items)
    (fun r => forall k, match streamItems b (coerceStream E b k) elem items with inl outs => outs = r.1 | inr e => e <> StreamDeleted end).
Proof.
  intros He. induction 1 as [|v items Hv _ IHl]; intros i last; cbn [listItems]; [by apply yields_ret|].
  eapply yields_bind; [by apply listChild_agree|]. intros [[out next]|] Hr.
  - eapply yields_bind; [apply IHl|]. intros rest Hrest. apply yields_ret. intros k. cbn [streamItems].
    specialize (Hr k). specialize (Hrest k). destruct Hr as [-> | ->]; [|done].
    destruct (streamItems _ _ _ _); simpl; [by subst|done].
  - apply yields_seq. intros _. eapply yields_bind; [apply IHl|]. intros rest Hrest. apply yields_ret. intros k. cbn [streamItems].
    destruct (Hr k) as [e ->]. specialize (Hrest k). simpl. destruct e; try done; by destruct (_ && _).
Qed.

Lemma resolveMatched_agree f v ctx : coreField (cf_Type f) -> complete v ->
  yields (resolveMatched b (coerce n E b) f v ctx)
    (fun r => forall o, r = Filled o -> forall k, shows (streamField (coerceStream E b k) f (Some v)) o).
Proof.
  intros Hf Hv cf g r. unfold resolveMatched. destruct (coerce n E b (cf_Type f) v ctx (newFlags false)) as [childF [out|e]] eqn:Ec.
  { intros [= <- <-] o [= <-] k. specialize (IH _ _ _ _ _ Hf Hv Ec k). cbn [streamField].
    destruct (coerceStream E b k (cf_Type f) v) as [o|e]; [done|]. by destruct e. }
  destruct (negb _) eqn:Hdec; [done|]. destruct (isClaimedMismatch e); [done|].
  destruct (if isProvenBamlError e then defaultValue (cf_Type f) else None) as [d|] eqn:Hd.
  - intros [= <- <-] o [= <-] k. destruct (isProvenBamlError e) eqn:Hp; [|done].
    cbn [streamField]. destruct (cf_Type f) as [|m [] | |m [[]|]|m nm md|m [elem|]| | | | | |]; try done.
    destruct v as [| | | |i items|]; try (destruct k; cbn; discriminate).
    exfalso.
    apply list_err in Ec; [|done]. by rewrite Ec in Hdec.
  - destruct (isMapType (cf_Type f) && _) eqn:Hm; [by destruct (cf_Type f)|]. repeat case_match; by intros [= <- <-].
Qed.

Lemma resolveFields_agree ctx fs : Forall (fun a : ClassField * option value => coreField (cf_Type a.1) /\ forall v, a.2 = Some v -> complete v) fs ->
  yields (resolveFields b (coerce n E b) ctx fs) (Forall2 (fun a r =>
    match a.2, r with
    | None, None => True
    | Some v, Some r => forall o, r = Filled o -> forall k, shows (streamField (coerceStream E b k) a.1 (Some v)) o
    | _, _ => False
    end) fs).
Proof.
  induction 1 as [|[f a] fs [Hf Ha] _ IHf]; cbn [resolveFields]; [apply yields_ret; constructor|]. simpl in *. destruct a as [v|].
  - eapply yields_bind; [by apply resolveMatched_agree, Ha|]. intros r Hr. eapply yields_bind; [apply IHf|]. intros rs Hrs.
    apply yields_ret. by constructor.
  - eapply yields_bind; [apply IHf|]. intros rs Hrs. apply yields_ret. by constructor.
Qed.
End Parts.

(** The fields with their values. *)
Definition fieldShown (a : ClassField * option value) (o : option string) : Prop :=
  forall out, o = Some out -> forall k, shows (streamField (coerceStream E b k) a.1 a.2) out.

Lemma fillDefaults_agree fs rs : Forall (fun a : ClassField * option value => coreField (cf_Type a.1)) fs ->
  existsb isIndeterminate rs = false ->
  Forall2 (fun a r =>
    match a.2, r with
    | None, None => True
    | Some v, Some r => forall o, r = Filled o -> forall k, shows (streamField (coerceStream E b k) a.1 (Some v)) o
    | _, _ => False
    end) fs rs ->
  yields (fillDefaults (combine fs.*1 rs)) (Forall2 fieldShown fs).
Proof.
  intros Hc Hi H. induction H as [|[f a] r fs rs Hr _ IHf]; [by apply yields_ret|].
  apply Forall_cons in Hc as [Hf Hc]. simpl in Hi. apply orb_false_iff in Hi as [Hi1 Hi]. specialize (IHf Hc Hi).
  rewrite fmap_cons. cbn [combine fillDefaults fst snd] in *.
  destruct r as [[o|]|], a as [v|]; try done.
  - eapply yields_bind; [exact IHf|]. intros rest Hrest. apply yields_ret. constructor; [|done]. intros out [= <-]. by apply Hr.
  - destruct (isOptional (cf_Type f)) eqn:Ho; [by destruct (cf_Type f)|].
    assert (Hd : fieldShown (f, None) (defaultValue (cf_Type f))).
    { intros out Hout k. cbn [fst snd streamField shows]. unfold streamMissingFieldFiller. by rewrite Ho, Hout. }
    destruct (defaultValue (cf_Type f)) as [d|].
    + apply yields_seq. intros _. eapply yields_bind; [exact IHf|]. intros rest Hrest. apply yields_ret. by constructor.
    + eapply yields_bind; [exact IHf|]. intros rest Hrest. apply yields_ret. by constructor.
Qed.

(** The text of the class. *)
Lemma streamFields_agree' k fs outs : existsb (fun o : option string => bool_decide (o = None)) outs = false -> Forall2 fieldShown fs outs ->
  match streamFields (coerceStream E b k) fs with
  | inl ms => ms = zip_with (fun f o => memberText (nm_Name (cf_Name f)) (default "" o)) fs.*1 outs
  | inr e => e <> StreamDeleted
  end.
Proof.
  intros Hn H. induction H as [|[f a] o fs outs Ho _ IHf]; [done|]. simpl in Hn. apply orb_false_iff in Hn as [Hn1 Hn].
  apply bool_decide_eq_false in Hn1. destruct o as [out|]; [|done]. specialize (IHf Hn). specialize (Ho out eq_refl k).
  cbn [streamFields fst snd] in *. rewrite fmap_cons. cbn [zip_with fst default].
  destruct (streamField _ f a) as [o'|e]; [|done]. simpl in Ho. subst o'. simpl.
  destruct (streamFields _ fs) as [ms|e]; [|done]. simpl. by rewrite IHf.
Qed.


(** A class, over the coercion of its fields. *)
Lemma class_agree n m name mode v ctx : 
  (forall t v ctx g out, coreField t -> complete v -> coerce n E b t v ctx (newFlags false) = (g, inl out) ->
     forall k, shows (coerceStream E b k t v) out) ->
  complete v -> yields (coerce (S n) E b (TypeClass m name mode) v ctx) (fun out => forall k, shows (coerceStream E b k (TypeClass m name mode) v) out).
Proof.
  intros IH Hv. cbn [coerce coerceStep]. unfold coerceClass. destruct (FindClass b name mode) as [cls|] eqn:Hc; [|done].
  destruct (coerceHas ctx (name, mode) v); [done|].
  destruct v as [| | | | |i members]; try (intros f g out _ [|k]; cbn; [done|unfold coerceStreamClass; by rewrite Hc]).
  inversion Hv as [| | | | |fs Hm]; subst. pose proof (several (name, mode) cls Hc) as Hs.
  pose proof (core (name, mode) cls) as Hcore. apply yields_seq. intros _. unfold resolveObject.
  set (p := fun key f => matchesStringToString (en_tables E) key (RenderedName (cf_Name f))).
  destruct (assignKeys_spec p (cd_Fields cls) members) as [Hl Ha]. destruct (assignKeys p (cd_Fields cls) members) as [assigned extras] eqn:Eas.
  simpl in Hl, Ha. set (fs := combine (cd_Fields cls) assigned).
  assert (Hfst : fs.*1 = cd_Fields cls) by by apply combine_fst.
  assert (Hok : Forall (fun a : ClassField * option value => coreField (cf_Type a.1) /\ forall w, a.2 = Some w -> complete w) fs).
  { apply Forall_forall. intros [f a] Hin. split.
    - apply Hcore; [done|]. rewrite <- Hfst. apply list_elem_of_fmap. by exists (f, a).
    - intros w Hw. simpl in Hw. subst a. apply list_elem_of_In, in_combine_r, list_elem_of_In, Ha in Hin as (key&Hin).
      rewrite Forall_forall in Hm. by apply (Hm (key, w)). }
  eapply (yields_bind _ _ (fun r => Forall2 _ fs r.1)).
  { eapply yields_bind; [by apply (resolveFields_agree n IH)|]. intros rs Hrs.
    destruct (cd_Fields cls) as [|f0 [|]]; [|done|]; apply yields_seq; intros _; by apply yields_ret. }
  intros [rs implied] Hrs. simpl in Hrs. unfold finishClass. destruct (existsb isIndeterminate rs) eqn:Hi; [done|].
  eapply yields_bind.
  { rewrite <- Hfst. apply fillDefaults_agree; [|done|exact Hrs]. eapply Forall_impl; [exact Hok|]. by intros ? []. }
  intros outs Houts. destruct (existsb _ outs) eqn:Hn; [done|]. apply yields_seq. intros _. apply yields_ret.
  intros [|k]; [done|]. cbn [coerceStream]. unfold coerceStreamClass. rewrite Hc. fold p. rewrite Eas. cbn [fst]. fold fs.
  pose proof (streamFields_agree' k fs outs Hn Houts) as Ht. rewrite Hfst in Ht. destruct (streamFields _ fs) as [ms|e]; [|done].
  simpl. by rewrite Ht.
Qed.

Lemma coerce_agree n : forall t v ctx g out, coreField t -> complete v -> coerce n E b t v ctx (newFlags false) = (g, inl out) ->
  forall k, shows (coerceStream E b k t v) out.
Proof.
  induction n as [|n IH]; intros t v ctx g out Ht Hv H k; [done|].
  destruct t as [|m p|m name|m lit|m name mode|m [elem|]| | | | | |]; try done.
  1-3: pose proof (leaf_agree n _ v ctx Ht Hv) as Hl; rewrite H in Hl; by apply shown_shows.
  - by eapply (class_agree n m name mode v ctx IH Hv).
  - destruct v as [| | | |i items|]; try (by destruct k). inversion Hv as [| | | |xs Hxs|]; subst.
    revert H k. cbn [coerce coerceStep]. unfold coerceList. set (mm := bindM _ _). intros H.
    assert (Hy : yields mm (fun out => forall k, shows (coerceStream E b k (TypeList m (Some elem)) (valArray false items)) out)); [|by eapply Hy].
    unfold mm. apply yields_seq. intros _. eapply yields_bind; [by apply listItems_agree|]. intros r Hr. unfold finishList.
    apply yields_seq. intros _. apply yields_ret. intros [|k]; [done|]. cbn [coerceStream coerceStreamList]. specialize (Hr k).
    destruct (streamItems _ _ _ _) as [outs|e]; simpl; [by subst|done].
Qed.
End Agree.
