(* ===== verification/NativeStream.v ===== *)
(** * NativeStream: the closures of the native stream lane
    ([internal/debaml/stream_serve.go])

    The partial closure emits or says nothing; the final closure parses the text,
    completes it when the parse declined, and turns a decline into a terminal
    error.  On an admitted schema the last partial of a finished text is its final
    value. *)

From Stdlib Require Import Ascii String.
From S2P Require Import Prelude GoStrings GoValue Jsonish FixParse FixStream Extract GoFloat NumberText Unicode MatchString Schema PairGuard Candidate OutputText Gate LeafCoerce TryCast Coerce NumberValid CoerceTyping CoerceSound OrderedMap Reachability DynamicSchema DynamicLowering DisplayKey DynamicBundle AliasCoerce CoerceStream ParseNumbers ParseDynamic CompleteFinal StreamServe StreamAgree.
Open Scope stdpp_scope.

(** The errors of the final closure: [ErrDeBAMLNativeStreamUnsupported], or the
    error of the parser. *)
Inductive nativeErr := NativeUnsupported | ParseErr (e : CoerceErr).

Section Native.
Variables (T : tables) (fingerprint : Bundle -> bool) (admitted : Bundle -> type -> bool).
Variables (gateFuel : nat) (s : option DynamicOutputSchema).

(** [ParseNativeStreamPartial]; [None] is no emission. *)
Definition ParseNativeStreamPartial (accumulated : string) : option string :=
  match parseStream T fingerprint admitted gateFuel s accumulated with
  | inr _ => None
  | inl out => if out =s "" then None else Some out
  end.

(** [ParseNativeStreamFinal]. *)
Definition ParseNativeStreamFinal (fuel : nat) (accumulated : string) : string + nativeErr :=
  let finish e := if isUnsupported e then inr NativeUnsupported else inr (ParseErr e) in
  match parseFinal T fingerprint admitted gateFuel fuel s accumulated with
  | inl out => inl out
  | inr e =>
      if isUnsupported e then
        match completeUnclosedFinal accumulated with
        | (completed, true) =>
            match parseFinal T fingerprint admitted gateFuel fuel s completed with
            | inl out => inl out
            | inr e2 => finish e2
            end
        | (_, false) => finish e
        end
      else finish e
  end.

(** ** The last partial and the final value *)

(** No class of the bundle has exactly one field. *)
Definition severalFields (b : Bundle) : bool :=
  forallb (fun c => negb (bool_decide (length (cd_Fields c) = 1%nat))) (Classes b).

Lemma admits_lower b : admits s b -> lowerForSupport s = inl b.
Proof. intros (b0&Hf&Hv). unfold lowerForSupport. destruct s; [|done]. by rewrite Hf, Hv. Qed.

Lemma admits_core Dynamic b : admits s b -> SupportsNativeStream Dynamic T admitted fingerprint gateFuel s = None ->
  forall k cls f, findKey b k = Some cls -> f ∈ cd_Fields cls -> coreField (cf_Type f).
Proof.
  intros Ha Hs. unfold SupportsNativeStream in Hs. rewrite (admits_lower _ Ha) in Hs.
  destruct (admits_valid _ _ Ha) as (_&_&Ht&_). destruct Ha as (b0&_&Hv).
  by destruct (admission_core Dynamic T admitted fingerprint b0 b noMeta dynamicOutputClassName NonStreaming gateFuel Hv Ht Hs).
Qed.

(** The two parses of one text. *)
Lemma parses_agree Dynamic fuel raw out out' :
  SupportsNativeStream Dynamic T admitted fingerprint gateFuel s = None ->
  (forall b, lowerForSupport s = inl b -> severalFields b = true) ->
  sall plain (stripJSONComments raw) = true ->
  extractFenceContentStream (stripJSONComments raw) = extractFenceContent (stripJSONComments raw) ->
  parseFinal T fingerprint admitted gateFuel fuel s raw = inl out ->
  parseStream T fingerprint admitted gateFuel s raw = inl out' -> out' = out.
Proof.
  intros Hs Hsev Hp Hfence. unfold parseFinal, parseStream. pose proof (admitBundle_spec fingerprint admitted gateFuel s) as Ha.
  destruct (admitBundle _ _ _ _) as [b|]; [|done]. pose proof (admits_core Dynamic b Ha Hs) as Hcore.
  specialize (Hsev b (admits_lower b Ha)). destruct (admits_valid _ _ Ha) as (_&_&Ht&_).
  destruct (extractCandidate _ _) as [v|] eqn:Hv; [|done]. intros Hf.
  assert (Hstream : streamCandidate b (stripJSONComments raw) = Some v).
  { unfold streamCandidate. by rewrite (candidate_streams _ _ _ Hp Hfence Hv). }
  rewrite Hstream. destruct (checkNoStreamAnnotations b); [done|]. intros Hst.
  destruct (coerce _ _ _ _ _ _ _) as [g r] eqn:Hc. simpl in Hf. subst r.
  assert (Hcomplete : complete v).
  { eapply extractCandidate_good; [..|exact Hv]; try (by constructor).
    intros raw' w. unfold classifyScalarMode, classifyScalar. repeat (case_match; try (intros [= <-]; by constructor)). }
  assert (Hmany : forall k cls, findKey b k = Some cls -> length (cd_Fields cls) <> 1%nat).
  { intros k cls Hk%findKey_in. unfold severalFields in Hsev. rewrite forallb_forall in Hsev. apply list_elem_of_In, Hsev in Hk.
    by rewrite negb_true_iff, bool_decide_eq_false in Hk. }
  pose proof (coerce_agree (engineOf T admitted b) b Hcore Hmany fuel (Target b) v emptyCtx g out) as Hagree.
  rewrite Ht in Hagree, Hst, Hc. specialize (Hagree I Hcomplete Hc (vsize v)). by rewrite Hst in Hagree.
Qed.

(** C17. On a schema the stream lane admits in which no class has exactly one field, the
    last partial is the final value.  Take a text that without its JSON comments is
    plain (ASCII, no backslash, no white space but the four JSON bytes), whose fence is
    not left open, and in which the final closure finds no open container: if the
    partial closure emits something on it and the final closure returns, they give the
    same bytes.  (With an escape in a string the two closures may differ: the streaming
    parser then waits.) *)
Theorem last_partial_is_final Dynamic fuel raw out out' :
  SupportsNativeStream Dynamic T admitted fingerprint gateFuel s = None ->
  (forall b, lowerForSupport s = inl b -> severalFields b = true) ->
  sall plain (stripJSONComments raw) = true ->
  extractFenceContentStream (stripJSONComments raw) = extractFenceContent (stripJSONComments raw) ->
  snd (completeUnclosedFinal raw) = false ->
  ParseNativeStreamPartial raw = Some out' -> ParseNativeStreamFinal fuel raw = inl out -> out' = out.
Proof.
  intros Hs Hsev Hp Hfence Hclosed. unfold ParseNativeStreamPartial, ParseNativeStreamFinal.
  destruct (parseStream _ _ _ _ _ _) as [o'|] eqn:Est; [|done]. destruct (o' =s ""); [done|]. intros [= <-].
  destruct (parseFinal _ _ _ _ _ _ _) as [o|e] eqn:Efin; [intros [= <-]; by eapply parses_agree|].
  destruct (completeUnclosedFinal raw) as [c x]. simpl in Hclosed. subst x. by destruct (isUnsupported e).
Qed.

(** The final closure of the native lane returns the compact text of a value of
    the output class, or an error that is not the sentinel on which a caller
    would fall back to the other parser: a decline, of the text or of its
    completion, has become the terminal error. *)
Theorem native_final_terminal fuel raw :
  match ParseNativeStreamFinal fuel raw with
  | inl out => exists b v, admits s b /\ hasType b (Target b) v /\ out = compact false v
      /\ strictDecode numModeLegacy out = Some (readBack v)
  | inr NativeUnsupported => exists e, parseFinal T fingerprint admitted gateFuel fuel s raw = inr e /\ isUnsupported e = true
  | inr (ParseErr e) => isUnsupported e = false
  end.
Proof.
  unfold ParseNativeStreamFinal. destruct (parseFinal _ _ _ _ _ _ raw) as [out|e] eqn:E1; [by eapply parseFinal_value|].
  destruct (isUnsupported e) eqn:Eu; [|done]. destruct (completeUnclosedFinal raw) as [completed []]; [|by exists e].
  destruct (parseFinal _ _ _ _ _ _ completed) as [out|e2] eqn:E2; [by eapply parseFinal_value|].
  destruct (isUnsupported e2) eqn:Eu2; [by exists e|done].
Qed.
End Native.

(** ** A concrete stream *)

(** A title, tags, an author and a count. *)
Definition bookSchema : DynamicOutputSchema :=
  mkOutputSchema
    (orderedOf [("title", property (prim "string"));
                ("tags", property (mkSpec "list" "" (Some (prim "string")) None [] None None GNil));
                ("author", property (refTo "Author")); ("count", property (prim "int"))])
    (orderedOf [("Author", Some (mkDynClass "" "" (orderedOf [("name", property (prim "string")); ("age", property (prim "int"))])))])
    (orderedOf []).
Definition bookText : string :=
  "Here: {title: " +:+ qd "Emma" +:+ ", tags: [" +:+ qd "a" +:+ ", 7], author: {name: " +:+ qd "Jane" +:+ ", age: 41}, count: " +:+ qd "3" +:+ "} ok".
Definition bookOut : string :=
  compact false (valObject false
    [("title", valString false "Emma"); ("tags", valArray false [valString false "a"; valString false "7"]);
     ("author", valObject false [("name", valString false "Jane"); ("age", valNumber false false "41")]);
     ("count", valNumber false false "3")]).

Lemma last_partial_is_final_witness :
  ParseNativeStreamPartial asciiTables noFamily noAdmitted 30 (Some bookSchema) bookText = Some bookOut /\ bookOut = bookOut.
Proof.
  split; [vm_compute; reflexivity|].
  apply (last_partial_is_final asciiTables noFamily noAdmitted 30 (Some bookSchema) (fun _ => true) 40 bookText); [|intros b|..]; try (vm_compute; reflexivity).
  intros Hb. assert (E : forall x, lowerForSupport (Some bookSchema) = inl x -> severalFields x = true); [|by apply E].
  destruct (lowerForSupport (Some bookSchema)) as [b'|] eqn:Eb; [|done]. intros x [= <-].
  revert Eb. vm_compute. intros [= <-]. reflexivity.
Defined.

(** A stream that lost its end: the final closure completes it, the open number is
    trimmed. *)
Example unclosed_final :
  ParseNativeStreamFinal asciiTables noFamily noAdmitted 30 (Some bookSchema) 40
    ("{title: " +:+ qd "Emma" +:+ ", tags: [], author: {name: " +:+ qd "Jane" +:+ ", age: 41}, count: 3.")
  = inl (compact false (valObject false
      [("title", valString false "Emma"); ("tags", valArray false []);
       ("author", valObject false [("name", valString false "Jane"); ("age", valNumber false false "41")]);
       ("count", valNumber false false "3")])).
Proof. vm_compute. reflexivity. Qed.
