(* ===== verification/PoolLifecycle.v ===== *)
(** * PoolLifecycle: workers, restarts and shutdown ([pool/pool.go])

    The state of the pool and the goroutines that change it, as atomic steps under
    any interleaving: admission of requests, worker selection, hung detection,
    health probes, restarts with hot swap, waits for a restart, [Shutdown] and
    [Close].  Mutexes are held by goroutines; a goroutine that cannot move is
    blocked.  Starting a worker, health probes and timeouts are choices of the
    environment. *)

From S2P Require Import Prelude.
Open Scope stdpp_scope.

(** ** Data *)

(** [inFlightRequest]; times in nanoseconds. *)
Record inFlightRequest := mkRequest { startedAt : Z; gotFirstByte : bool; cancelled : bool }.

(** [workerHandle]; [restartDone] is a channel, [killed] that [kill] was called. *)
Record workerHandle := mkHandle {
  h_id : nat;
  healthy : bool;
  restartPending : Z;
  restarting : bool;
  restartDone : option nat;
  killed : bool;
  inFlightReq : gmap Z inFlightRequest;
}.
Definition newHandle (id : nat) : workerHandle := mkHandle id true 0 false None false ∅.

(** Who runs [restartWorker]: [dispatchRestart], or [awaitRestart] with the channel
    it waits on. *)
Inductive origin := dispatched | awaited (done : nat).
(** What follows [dispatchRestart]. *)
Inductive cont := KDone | KCancel.

(** Where a goroutine stands.  [h] is a handle, [n] a replacement, [g] that
    [Shutdown] saw no request left. *)
Inductive pc :=
  | ReqBegin | ReqClosed | ReqDraining | ReqAdd | ReqLive
  | DispLock (h : nat) (k : cont) | DispCheck (h : nat) (k : cont) | DispCount (h : nat) (k : cont) | DispPend (h : nat) (k : cont)
  | KillMark (h : nat) | KillProc (h : nat) | KillCancel (h : nat)
  | HealthStart (h : nat) | HealthProbe (h : nat) | HealthBad (h : nat) | HealthSnap (h : nat) | HealthOk (h : nat) | HealthSet (h : nat)
  | RwEarly (h : nat) (o : origin) | RwCas (h : nat) (o : origin) | RwWait (h : nat) (o : origin)
  | RwPublish (h : nat) (o : origin) | RwDouble (h : nat) (o : origin) | RwStart (h : nat) (o : origin) | RwBoot (h : nat) (o : origin)
  | RwFailMark (h : nat) (o : origin) | RwFailKill (h : nat) (o : origin)
  | RwSwapLock (h n : nat) (o : origin) | RwSwapCheck (h n : nat) (o : origin) | RwSwapSet (h n : nat) (o : origin)
  | RwKillNew (h n : nat) (o : origin) | RwKillOld (h : nat) (o : origin)
  | RwFinish (h : nat) (o : origin) | RwEnd (h : nat) (o : origin) | RwDone (h : nat) (o : origin)
  | AwLoop (h : nat) (sawPending : bool) | AwSelect (h ch : nat) | AwPoll (h : nat) | AwSpawn (h : nat) | AwDone (ch : nat)
  | CloseSwap (g : bool) | CloseDrain (g : bool) | CloseDrainCh (g : bool) | CloseCancel (g : bool) | CloseStop (g : bool)
  | CloseBarrier (g : bool) | CloseSnap (g : bool) | CloseKill (g : bool) (rest : list nat) | CloseWait (g : bool)
  | CloseFinished (g : bool)
  | ShutLock | ShutStore | ShutLoop
  | Finished.

(** [Pool], with the handles its slots point to, the closed channels and the
    goroutines. *)
Record pool := mkPool {
  workers : list nat;
  handles : list workerHandle;
  threads : list pc;
  next : Z;
  closed : bool;
  draining : bool;
  drainCh : bool;
  shutdownDone : bool;
  stopCh : bool;
  admissionMu : option nat;
  restartMu : option nat;
  poolMu : option nat;
  restartWG : Z;
  logicalInFlight : Z;
  closedChans : gset nat;
  nextChan : nat;
}.

Definition set_workers f s := mkPool (f (workers s)) (handles s) (threads s) (next s) (closed s) (draining s) (drainCh s) (shutdownDone s) (stopCh s) (admissionMu s) (restartMu s) (poolMu s) (restartWG s) (logicalInFlight s) (closedChans s) (nextChan s).
Definition set_handles f s := mkPool (workers s) (f (handles s)) (threads s) (next s) (closed s) (draining s) (drainCh s) (shutdownDone s) (stopCh s) (admissionMu s) (restartMu s) (poolMu s) (restartWG s) (logicalInFlight s) (closedChans s) (nextChan s).
Definition set_threads f s := mkPool (workers s) (handles s) (f (threads s)) (next s) (closed s) (draining s) (drainCh s) (shutdownDone s) (stopCh s) (admissionMu s) (restartMu s) (poolMu s) (restartWG s) (logicalInFlight s) (closedChans s) (nextChan s).
Definition set_next z s := mkPool (workers s) (handles s) (threads s) z (closed s) (draining s) (drainCh s) (shutdownDone s) (stopCh s) (admissionMu s) (restartMu s) (poolMu s) (restartWG s) (logicalInFlight s) (closedChans s) (nextChan s).
Definition set_closed s := mkPool (workers s) (handles s) (threads s) (next s) true (draining s) (drainCh s) (shutdownDone s) (stopCh s) (admissionMu s) (restartMu s) (poolMu s) (restartWG s) (logicalInFlight s) (closedChans s) (nextChan s).
Definition set_draining s := mkPool (workers s) (handles s) (threads s) (next s) (closed s) true (drainCh s) (shutdownDone s) (stopCh s) (admissionMu s) (restartMu s) (poolMu s) (restartWG s) (logicalInFlight s) (closedChans s) (nextChan s).
Definition set_drainCh s := mkPool (workers s) (handles s) (threads s) (next s) (closed s) (draining s) true (shutdownDone s) (stopCh s) (admissionMu s) (restartMu s) (poolMu s) (restartWG s) (logicalInFlight s) (closedChans s) (nextChan s).
Definition set_shutdownDone s := mkPool (workers s) (handles s) (threads s) (next s) (closed s) (draining s) (drainCh s) true (stopCh s) (admissionMu s) (restartMu s) (poolMu s) (restartWG s) (logicalInFlight s) (closedChans s) (nextChan s).
Definition set_stopCh s := mkPool (workers s) (handles s) (threads s) (next s) (closed s) (draining s) (drainCh s) (shutdownDone s) true (admissionMu s) (restartMu s) (poolMu s) (restartWG s) (logicalInFlight s) (closedChans s) (nextChan s).
Definition set_admissionMu m s := mkPool (workers s) (handles s) (threads s) (next s) (closed s) (draining s) (drainCh s) (shutdownDone s) (stopCh s) m (restartMu s) (poolMu s) (restartWG s) (logicalInFlight s) (closedChans s) (nextChan s).
Definition set_restartMu m s := mkPool (workers s) (handles s) (threads s) (next s) (closed s) (draining s) (drainCh s) (shutdownDone s) (stopCh s) (admissionMu s) m (poolMu s) (restartWG s) (logicalInFlight s) (closedChans s) (nextChan s).
Definition set_poolMu m s := mkPool (workers s) (handles s) (threads s) (next s) (closed s) (draining s) (drainCh s) (shutdownDone s) (stopCh s) (admissionMu s) (restartMu s) m (restartWG s) (logicalInFlight s) (closedChans s) (nextChan s).
Definition set_restartWG f s := mkPool (workers s) (handles s) (threads s) (next s) (closed s) (draining s) (drainCh s) (shutdownDone s) (stopCh s) (admissionMu s) (restartMu s) (poolMu s) (f (restartWG s)) (logicalInFlight s) (closedChans s) (nextChan s).
Definition set_logical f s := mkPool (workers s) (handles s) (threads s) (next s) (closed s) (draining s) (drainCh s) (shutdownDone s) (stopCh s) (admissionMu s) (restartMu s) (poolMu s) (restartWG s) (f (logicalInFlight s)) (closedChans s) (nextChan s).
Definition closeChan c s := mkPool (workers s) (handles s) (threads s) (next s) (closed s) (draining s) (drainCh s) (shutdownDone s) (stopCh s) (admissionMu s) (restartMu s) (poolMu s) (restartWG s) (logicalInFlight s) ({[c]} ∪ closedChans s) (nextChan s).
Definition makeChan s := mkPool (workers s) (handles s) (threads s) (next s) (closed s) (draining s) (drainCh s) (shutdownDone s) (stopCh s) (admissionMu s) (restartMu s) (poolMu s) (restartWG s) (logicalInFlight s) (closedChans s) (S (nextChan s)).

Definition goto (t : nat) (p : pc) : pool -> pool := set_threads (<[t := p]>).
(** [go]. *)
Definition spawn (p : pc) : pool -> pool := set_threads (fun ts => ts ++ [p]).

(** Updates of a handle. *)
Definition upd (h : nat) (f : workerHandle -> workerHandle) : pool -> pool := set_handles (alter f h).
Definition setHealthy b h := mkHandle (h_id h) b (restartPending h) (restarting h) (restartDone h) (killed h) (inFlightReq h).
Definition addPending z h := mkHandle (h_id h) (healthy h) (restartPending h + z) (restarting h) (restartDone h) (killed h) (inFlightReq h).
Definition setRestarting b h := mkHandle (h_id h) (healthy h) (restartPending h) b (restartDone h) (killed h) (inFlightReq h).
Definition setRestartDone c h := mkHandle (h_id h) (healthy h) (restartPending h) (restarting h) c (killed h) (inFlightReq h).
(** [kill], idempotent. *)
Definition kill h := mkHandle (h_id h) (healthy h) (restartPending h) (restarting h) (restartDone h) true (inFlightReq h).
Definition cancelAll h :=
  mkHandle (h_id h) (healthy h) (restartPending h) (restarting h) (restartDone h) (killed h)
    ((fun r => mkRequest (startedAt r) (gotFirstByte r) true) <$> inFlightReq h).

(** [snapshotRestartState]: the channel, and whether restart work is visible. *)
Definition restartVisible (h : workerHandle) : bool :=
  (0 <? restartPending h)%Z || restarting h || bool_decide (is_Some (restartDone h)).

(** The slot of the handle [h] holds [h]. *)
Definition inSlot (s : pool) (h : nat) (hd : workerHandle) : bool := bool_decide (workers s !! h_id hd = Some h).

(** What the environment decides in a step: nothing, the end of a context, the
    outcome of a worker start, the outcome of a probe. *)
Inductive choice := CNone | CCancel | CStarted | CStartFailed | CStartAborted | CProbe (ok : bool).

(** ** Steps *)

Definition acquire (mu : pool -> option nat) (set : option nat -> pool -> pool) (t : nat) (s : pool) : option pool :=
  match mu s with None => Some (set (Some t) s) | Some _ => None end.

(** [beginLogicalRequest] and the [done] it returns. *)
Definition step_request (t : nat) (p : pc) (s : pool) : option pool :=
  match p with
  | ReqBegin => goto t ReqClosed <$> acquire admissionMu set_admissionMu t s
  | ReqClosed => Some (if closed s then goto t Finished (set_admissionMu None s) else goto t ReqDraining s)
  | ReqDraining => Some (if draining s then goto t Finished (set_admissionMu None s) else goto t ReqAdd s)
  | ReqAdd => Some (goto t ReqLive (set_admissionMu None (set_logical (Z.add 1) s)))
  | ReqLive => Some (goto t Finished (set_logical (Z.add (-1)) s))
  | _ => None
  end.

(** [dispatchRestart]. *)
Definition after (h : nat) (k : cont) : pc := match k with KDone => Finished | KCancel => KillCancel h end.
Definition step_dispatchRestart (t : nat) (p : pc) (s : pool) : option pool :=
  match p with
  | DispLock h k => goto t (DispCheck h k) <$> acquire restartMu set_restartMu t s
  | DispCheck h k => Some (if closed s then goto t (after h k) (set_restartMu None s) else goto t (DispCount h k) s)
  | DispCount h k => Some (goto t (DispPend h k) (set_restartWG (Z.add 1) s))
  | DispPend h k =>
      Some (spawn (RwEarly h dispatched) (goto t (after h k) (set_restartMu None (upd h (addPending 1) s))))
  | _ => None
  end.

(** [killWorkerAndRetry]. *)
Definition step_killWorkerAndRetry (t : nat) (p : pc) (s : pool) : option pool :=
  match p with
  | KillMark h => Some (goto t (KillProc h) (upd h (setHealthy false) s))
  | KillProc h => Some (goto t (DispLock h KCancel) (upd h kill s))
  | KillCancel h => Some (goto t Finished (upd h cancelAll s))
  | _ => None
  end.

(** [checkHealth], for one worker of the sweep. *)
Definition step_checkHealth (t : nat) (ch : choice) (p : pc) (s : pool) : option pool :=
  match p with
  | HealthStart h => Some (goto t (if shutdownDone s then Finished else HealthProbe h) s)
  | HealthProbe h =>
      match ch with
      | CProbe ok => Some (goto t (if shutdownDone s then Finished else if ok then HealthOk h else HealthBad h) s)
      | _ => None
      end
  | HealthBad h => Some (goto t (HealthSnap h) (upd h (setHealthy false) s))
  | HealthSnap h => hd ← handles s !! h; Some (goto t (if restartVisible hd then Finished else DispLock h KDone) s)
  | HealthOk h => hd ← handles s !! h; Some (goto t (if restartVisible hd then Finished else HealthSet h) s)
  | HealthSet h => Some (goto t Finished (upd h (setHealthy true) s))
  | _ => None
  end.

(** [finishRestart]. *)
Definition finishRestart (h : nat) (hd : workerHandle) (s : pool) : pool :=
  let s := upd h (fun x => setRestartDone None (setRestarting false x)) s in
  match restartDone hd with Some c => closeChan c s | None => s end.

(** [restartWorker]; [o] is the goroutine that runs it. *)
Definition step_restartWorker (t : nat) (ch : choice) (p : pc) (s : pool) : option pool :=
  match p with
  | RwEarly h o =>
      hd ← handles s !! h;
      match poolMu s with
      | Some _ => None
      | None => Some (goto t (if inSlot s h hd then RwCas h o else RwEnd h o) s)
      end
  | RwCas h o =>
      hd ← handles s !! h;
      Some (if restarting hd then goto t (RwWait h o) s else goto t (RwPublish h o) (upd h (setRestarting true) s))
  | RwWait h o => hd ← handles s !! h; if restarting hd then None else Some (goto t (RwEnd h o) s)
  | RwPublish h o => Some (goto t (RwDouble h o) (upd h (setRestartDone (Some (nextChan s))) (makeChan s)))
  | RwDouble h o =>
      hd ← handles s !! h;
      match poolMu s with
      | Some _ => None
      | None => Some (goto t (if negb (inSlot s h hd) || closed s then RwFinish h o else RwStart h o) s)
      end
  | RwStart h o => Some (goto t (if stopCh s then RwFinish h o else RwBoot h o) s)
  | RwBoot h o =>
      hd ← handles s !! h;
      match ch with
      | CStarted =>
          let n := length (handles s) in
          Some (goto t (RwSwapLock h n o) (set_handles (fun hs => hs ++ [newHandle (h_id hd)]) s))
      | CStartFailed => Some (goto t (if closed s then RwFinish h o else RwFailMark h o) s)
      | CStartAborted => if stopCh s then Some (goto t (RwFinish h o) s) else None
      | _ => None
      end
  | RwFailMark h o =>
      hd ← handles s !! h;
      match poolMu s with
      | Some _ => None
      | None => Some (goto t (RwFailKill h o) (if inSlot s h hd then upd h (setHealthy false) s else s))
      end
  | RwFailKill h o => Some (goto t (RwFinish h o) (upd h kill s))
  | RwSwapLock h n o => goto t (RwSwapCheck h n o) <$> acquire poolMu set_poolMu t s
  | RwSwapCheck h n o =>
      hd ← handles s !! h;
      Some (if closed s || negb (inSlot s h hd) then goto t (RwKillNew h n o) (set_poolMu None s) else goto t (RwSwapSet h n o) s)
  | RwSwapSet h n o =>
      hd ← handles s !! h;
      Some (goto t (RwKillOld h o) (set_poolMu None (set_workers (<[h_id hd := n]>) s)))
  | RwKillNew h n o => Some (goto t (RwFinish h o) (upd n kill s))
  | RwKillOld h o => Some (goto t (RwFinish h o) (upd h kill s))
  | RwFinish h o => hd ← handles s !! h; Some (goto t (RwEnd h o) (finishRestart h hd s))
  | RwEnd h o =>
      match o with
      | dispatched => Some (goto t (RwDone h o) (upd h (addPending (-1)) s))
      | awaited _ => Some (goto t (RwDone h o) s)
      end
  | RwDone h o =>
      match o with
      | dispatched => Some (goto t Finished (set_restartWG (Z.add (-1)) s))
      | awaited c => Some (goto t Finished (closeChan c s))
      end
  | _ => None
  end.

(** [awaitRestart]; the context ends by the choice [CCancel]. *)
Definition step_awaitRestart (t : nat) (ch : choice) (p : pc) (s : pool) : option pool :=
  match p with
  | AwLoop h saw =>
      hd ← handles s !! h;
      Some (goto t (match restartDone hd with
                    | Some c => AwSelect h c
                    | None => if restartVisible hd then AwPoll h else if saw then Finished else AwSpawn h
                    end) s)
  | AwSelect h c =>
      match ch with
      | CCancel => Some (goto t Finished s)
      | _ => if bool_decide (c ∈ closedChans s) || drainCh s then Some (goto t Finished s) else None
      end
  | AwPoll h =>
      match ch with
      | CCancel => Some (goto t Finished s)
      | _ => Some (goto t (if drainCh s then Finished else AwLoop h true) s)
      end
  | AwSpawn h =>
      Some (if drainCh s then goto t Finished s
            else spawn (RwEarly h (awaited (nextChan s))) (goto t (AwDone (nextChan s)) (makeChan s)))
  | AwDone c =>
      match ch with
      | CCancel => Some (goto t Finished s)
      | _ => if bool_decide (c ∈ closedChans s) || drainCh s then Some (goto t Finished s) else None
      end
  | _ => None
  end.

(** [Close], up to its wait on [restartWG]; the end of the health checker and of the
    sweeper of the shared state, which it awaits after that, are left out. *)
Definition step_Close (t : nat) (p : pc) (s : pool) : option pool :=
  match p with
  | CloseSwap g => Some (if closed s then goto t Finished s else goto t (CloseDrain g) (set_closed s))
  | CloseDrain g => Some (goto t (CloseDrainCh g) (set_draining s))
  | CloseDrainCh g => Some (goto t (CloseCancel g) (set_drainCh s))
  | CloseCancel g => Some (goto t (CloseStop g) (set_shutdownDone s))
  | CloseStop g => Some (goto t (CloseBarrier g) (set_stopCh s))
  | CloseBarrier g => match restartMu s with Some _ => None | None => Some (goto t (CloseSnap g) s) end
  | CloseSnap g => match poolMu s with Some _ => None | None => Some (goto t (CloseKill g (workers s)) s) end
  | CloseKill g (h :: rest) => Some (goto t (CloseKill g rest) (upd h kill s))
  | CloseKill g [] => Some (goto t (CloseWait g) s)
  | CloseWait g => if (restartWG s =? 0)%Z then Some (goto t (CloseFinished g) s) else None
  | _ => None
  end.

(** [Shutdown]. *)
Definition step_Shutdown (t : nat) (ch : choice) (p : pc) (s : pool) : option pool :=
  match p with
  | ShutLock => goto t ShutStore <$> acquire admissionMu set_admissionMu t s
  | ShutStore => Some (goto t ShutLoop (set_admissionMu None (set_draining s)))
  | ShutLoop =>
      if (logicalInFlight s =? 0)%Z then Some (goto t (CloseSwap true) s)
      else match ch with CCancel => Some (goto t (CloseSwap false) s) | _ => Some s end
  | _ => None
  end.

(** One step of goroutine [t]. *)
Definition step (t : nat) (ch : choice) (s : pool) : option pool :=
  p ← threads s !! t;
  match p with
  | ReqBegin | ReqClosed | ReqDraining | ReqAdd | ReqLive => step_request t p s
  | DispLock _ _ | DispCheck _ _ | DispCount _ _ | DispPend _ _ => step_dispatchRestart t p s
  | KillMark _ | KillProc _ | KillCancel _ => step_killWorkerAndRetry t p s
  | HealthStart _ | HealthProbe _ | HealthBad _ | HealthSnap _ | HealthOk _ | HealthSet _ => step_checkHealth t ch p s
  | AwLoop _ _ | AwSelect _ _ | AwPoll _ | AwSpawn _ | AwDone _ => step_awaitRestart t ch p s
  | ShutLock | ShutStore | ShutLoop => step_Shutdown t ch p s
  | Finished | CloseFinished _ => None
  | CloseSwap _ | CloseDrain _ | CloseDrainCh _ | CloseCancel _ | CloseStop _ | CloseBarrier _ | CloseSnap _
  | CloseKill _ _ | CloseWait _ => step_Close t p s
  | _ => step_restartWorker t ch p s
  end.

(** A schedule picks the goroutine that moves next; a blocked one stays. *)
Fixpoint run (sched : list (nat * choice)) (s : pool) : pool :=
  match sched with [] => s | (t, ch) :: sched => run sched (default s (step t ch s)) end.

(** A pool of [n] workers, each slot with its handle, and goroutines at the start of
    their operations. *)
Definition newPool (n : nat) (ts : list pc) : pool :=
  mkPool (seq 0 n) (newHandle <$> seq 0 n) ts 0 false false false false false None None None 0 0 ∅ 0.
Definition starts (n : nat) (p : pc) : bool :=
  match p with
  | ReqBegin | CloseSwap false | ShutLock => true
  | DispLock h KDone | KillMark h | HealthStart h | AwLoop h false => (h <? n)%nat
  | _ => false
  end.

(** Hot swap: the request waits for the restart of a killed worker. *)
Example hot_swap :
  let s := run [(0, CNone); (0, CNone); (0, CNone); (0, CNone); (0, CNone); (0, CNone);
                (1, CNone); (2, CNone); (2, CNone); (2, CNone); (1, CNone); (1, CNone);
                (2, CNone); (2, CNone); (2, CStarted); (2, CNone); (2, CNone); (2, CNone); (2, CNone); (2, CNone);
                (1, CNone); (2, CNone); (2, CNone); (0, CNone)]%nat
             (newPool 1 [KillMark 0; AwLoop 0 false]) in
  (workers s, killed <$> handles s, threads s, restartWG s) = ([1%nat], [true; false], [Finished; Finished; Finished], 0%Z).
Proof. vm_compute. reflexivity. Qed.

(** The states of a pool: calls may start at any time, on any handle there is. *)
Inductive reachable (n : nat) : pool -> Prop :=
  | reach_new : reachable n (newPool n [])
  | reach_call s p : reachable n s -> starts (length (handles s)) p = true -> reachable n (spawn p s)
  | reach_step s t ch s' : reachable n s -> step t ch s = Some s' -> reachable n s'.
