(* ===== verification/PoolInvariant.v ===== *)
(** * PoolInvariant: what holds of the pool under every interleaving

    Invariants of the lifecycle model, each by induction on the reachable states:
    mutual exclusion, one guard per restart, the counters, the phases of [Close] and
    [Shutdown], and the whereabouts of every worker. *)

From S2P Require Import Prelude PoolLifecycle.
Open Scope stdpp_scope.

(** ** Counting goroutines *)

Definition count (P : pc -> bool) (ts : list pc) : nat := length (List.filter P ts).

Lemma count_insert P ts t p p' : ts !! t = Some p ->
  (count P (<[t := p']> ts) + Nat.b2n (P p) = count P ts + Nat.b2n (P p'))%nat.
Proof.
  unfold count. revert t. induction ts as [|q ts IH]; intros [|t] H; simpl in *; [done|done| |].
  - injection H as ->. destruct (P p), (P p'); simpl; lia.
  - specialize (IH t H). destruct (P q); simpl; lia.
Qed.

Lemma count_spawn P ts p : count P (ts ++ [p]) = (count P ts + Nat.b2n (P p))%nat.
Proof. unfold count. rewrite List.filter_app, length_app. simpl. by destruct (P p). Qed.

Lemma count_pos P ts t p : ts !! t = Some p -> P p = true -> (0 < count P ts)%nat.
Proof.
  intros H HP. pose proof (count_insert P ts t p p H) as _. unfold count.
  apply list_elem_of_lookup_2, list_elem_of_In in H. assert (In p (List.filter P ts)) by (by apply filter_In).
  by destruct (List.filter P ts); [|simpl; lia].
Qed.

Lemma count_zero P ts : (forall t p, ts !! t = Some p -> P p = false) -> count P ts = 0%nat.
Proof.
  unfold count. intros H. induction ts as [|p ts IH]; [done|]. simpl. rewrite (H 0%nat p eq_refl). apply IH.
  intros t q Hq. by apply (H (S t)).
Qed.

(** ** What a goroutine has in hand *)

(** The handle whose restart it guards: between the compare-and-swap and
    [finishRestart]. *)
Definition guardOf (p : pc) : option nat :=
  match p with
  | RwPublish h _ | RwDouble h _ | RwStart h _ | RwBoot h _ | RwFailMark h _ | RwFailKill h _ | RwSwapLock h _ _
  | RwSwapCheck h _ _ | RwSwapSet h _ _ | RwKillNew h _ _ | RwKillOld h _ | RwFinish h _ => Some h
  | _ => None
  end.
(** The handle on which it has published the channel. *)
Definition publishedOf (p : pc) : option nat := match p with RwPublish _ _ => None | _ => guardOf p end.
(** The restart it runs. *)
Definition restartOf (p : pc) : option (nat * origin) :=
  match p with
  | RwEarly h o | RwCas h o | RwWait h o | RwPublish h o | RwDouble h o | RwStart h o | RwBoot h o | RwFailMark h o
  | RwFailKill h o | RwSwapLock h _ o | RwSwapCheck h _ o | RwSwapSet h _ o | RwKillNew h _ o | RwKillOld h o
  | RwFinish h o | RwEnd h o | RwDone h o => Some (h, o)
  | _ => None
  end.
(** The handle whose [restartPending] it counts in. *)
Definition pendingOf (p : pc) : option nat :=
  match p with
  | RwDone _ _ => None
  | _ => match restartOf p with Some (h, dispatched) => Some h | _ => None end
  end.
(** It counts in [restartWG]. *)
Definition registered (p : pc) : bool :=
  match p with
  | DispPend _ _ => true
  | _ => match restartOf p with Some (_, dispatched) => true | _ => false end
  end.
(** A worker that is not in a slot and that it will install or kill. *)
Definition inHand (p : pc) (a : nat) : bool :=
  match p with
  | RwSwapLock _ n _ | RwSwapCheck _ n _ | RwSwapSet _ n _ | RwKillNew _ n _ => (n =? a)%nat
  | RwKillOld h _ => (h =? a)%nat
  | _ => false
  end.
(** The handles it knows. *)
Definition knows (p : pc) : list nat :=
  match p with
  | DispLock h _ | DispCheck h _ | DispCount h _ | DispPend h _ | KillMark h | KillProc h | KillCancel h
  | HealthStart h | HealthProbe h | HealthBad h | HealthSnap h | HealthOk h | HealthSet h
  | AwLoop h _ | AwSelect h _ | AwPoll h | AwSpawn h => [h]
  | RwSwapLock h n _ | RwSwapCheck h n _ | RwSwapSet h n _ | RwKillNew h n _ => [h; n]
  | CloseKill _ rest => rest
  | _ => match restartOf p with Some (h, _) => [h] | None => [] end
  end.
Definition isAt (o : option nat) (a : nat) : bool := match o with Some h => (h =? a)%nat | None => false end.

(** Mutexes. *)
Definition holdsRestart (p : pc) : bool := match p with DispCheck _ _ | DispCount _ _ | DispPend _ _ => true | _ => false end.
Definition holdsPool (p : pc) : bool := match p with RwSwapCheck _ _ _ | RwSwapSet _ _ _ => true | _ => false end.
Definition holdsAdmission (p : pc) : bool := match p with ReqClosed | ReqDraining | ReqAdd | ShutStore => true | _ => false end.

(** How far [Close] is. *)
Definition closing (p : pc) : bool :=
  match p with
  | CloseDrain _ | CloseDrainCh _ | CloseCancel _ | CloseStop _ | CloseBarrier _ | CloseSnap _ | CloseKill _ _ | CloseWait _
  | CloseFinished _ => true
  | _ => false
  end.
Definition pastBarrier (p : pc) : bool :=
  match p with CloseSnap _ | CloseKill _ _ | CloseWait _ | CloseFinished _ => true | _ => false end.
(** The workers it has still to kill, once it has taken the snapshot. *)
Definition toKill (p : pc) : option (list nat) :=
  match p with CloseKill _ rest => Some rest | CloseWait _ | CloseFinished _ => Some [] | _ => None end.

(** How far [Shutdown] is; it saw no request left. *)
Definition drained (p : pc) : bool :=
  match p with
  | CloseSwap true | CloseDrain true | CloseDrainCh true | CloseCancel true | CloseStop true | CloseBarrier true | CloseSnap true
  | CloseKill true _ | CloseWait true | CloseFinished true => true
  | _ => false
  end.
Definition shutting (p : pc) : bool := match p with ShutLoop => true | _ => drained p end.
Definition isLive (p : pc) : bool := match p with ReqLive => true | _ => false end.


(** ** Induction on the reachable states *)

(** The cases of one step: the goroutine [t] was at [p]. *)
Ltac split_match H :=
  repeat (match type of H with
    | context [mbind _ (?x !! ?i)] => destruct (x !! i) eqn:?
    | context [fmap _ (match ?x with _ => _ end)] => destruct x eqn:?
    | context [match ?x with _ => _ end] => destruct x eqn:?
    end; simpl in H; try discriminate H).
Ltac explode H :=
  match type of H with step ?t ?ch ?s = Some ?s' =>
    unfold step in H; destruct (threads s !! t) as [p|] eqn:Hp; simpl in H; [|discriminate H];
    destruct p; simpl in H; try discriminate H; unfold acquire, finishRestart in H; split_match H; simplify_eq; repeat match goal with k : cont |- _ => destruct k end
  end.

(** Goroutines after a step: the one that moved, those that did not, a new one. *)
Lemma threads_goto (ts : list pc) t p p' t' q : ts !! t = Some p -> <[t := p']> ts !! t' = Some q ->
  (t' = t /\ q = p') \/ (t' <> t /\ ts !! t' = Some q).
Proof.
  intros Hp H. destruct (decide (t' = t)) as [->|Hne].
  - rewrite list_lookup_insert_eq in H by by eapply lookup_lt_Some. left. by simplify_eq.
  - rewrite list_lookup_insert_ne in H by done. by right.
Qed.
Lemma threads_spawn (ts : list pc) p t' q : (ts ++ [p]) !! t' = Some q -> ts !! t' = Some q \/ q = p.
Proof. intros [H|[_ H]]%lookup_app_Some; [by left|]. right. by destruct (t' - length ts)%nat; simplify_eq/=. Qed.

(** A goroutine of the new state. *)
Ltac moved H :=
  match type of H with
  | <[?t := _]> ?ts !! _ = Some _ => eapply threads_goto in H as [[-> ->]|[? H]]; [|..|eassumption]
  | _ => idtac
  end.
Ltac thread H :=
  simpl in H; first [apply threads_spawn in H; destruct H as [H|H]; [moved H|subst]|moved H].

(** *** Mutual exclusion *)

Record locksOk (s : pool) : Prop := {
  lock_restart : forall t p, threads s !! t = Some p -> holdsRestart p = true -> restartMu s = Some t;
  lock_pool : forall t p, threads s !! t = Some p -> holdsPool p = true -> poolMu s = Some t;
  lock_admission : forall t p, threads s !! t = Some p -> holdsAdmission p = true -> admissionMu s = Some t
}.

Lemma locks_step t ch s s' : step t ch s = Some s' -> locksOk s -> locksOk s'.
Proof.
  intros H [L1 L2 L3]. explode H.
  all: split; simpl; intros t' q Hq Hh; thread Hq; try done;
    try pose proof (L1 _ _ Hq Hh); try pose proof (L2 _ _ Hq Hh); try pose proof (L3 _ _ Hq Hh);
    try pose proof (L1 _ _ Hp eq_refl); try pose proof (L2 _ _ Hp eq_refl); try pose proof (L3 _ _ Hp eq_refl); congruence.
Qed.

(** A call starts a goroutine that holds nothing yet. *)
Lemma starts_idle n p : starts n p = true ->
  holdsRestart p = false /\ holdsPool p = false /\ holdsAdmission p = false /\ restartOf p = None /\ guardOf p = None
  /\ publishedOf p = None /\ pendingOf p = None /\ registered p = false /\ closing p = false /\ pastBarrier p = false
  /\ toKill p = None /\ shutting p = false /\ drained p = false /\ isLive p = false /\ forall a, a ∈ knows p -> (a < n)%nat.
Proof.
  destruct p; try done; simpl; intros H; repeat case_match; try done; split_and!; try done; intros a Ha;
    first [by apply not_elem_of_nil in Ha|apply list_elem_of_singleton in Ha as ->; by apply Nat.ltb_lt].
Qed.

Lemma locks_reachable n s : reachable n s -> locksOk s.
Proof.
  induction 1 as [|s p _ [L1 L2 L3] Hs|s t ch s' _ IH Hs]; [done| |by eapply locks_step].
  apply starts_idle in Hs as (H1&H2&H3&_). split; simpl; intros t q [Hq| ->]%threads_spawn Hh; eauto; congruence.
Qed.

(** *** Handles and slots *)

Definition ids (s : pool) : list nat := h_id <$> handles s.
Definition swapOf (p : pc) : option (nat * nat) :=
  match p with RwSwapLock h n _ | RwSwapCheck h n _ | RwSwapSet h n _ | RwKillNew h n _ => Some (h, n) | _ => None end.

Lemma fmap_alter {A B} (g : A -> B) (f : A -> A) h (hs : list A) : (forall x, g (f x) = g x) -> g <$> alter f h hs = g <$> hs.
Proof. intros H. revert h. induction hs as [|x hs IH]; intros [|h]; csimpl; [done|done|by rewrite H|by rewrite IH]. Qed.

Definition slotsOk (s : pool) : Prop := forall i a, workers s !! i = Some a -> ids s !! a = Some i.
Definition idsOk (s : pool) : Prop := forall a i, ids s !! a = Some i -> (i < length (workers s))%nat.
Definition knowsOk (s : pool) : Prop := forall t p a, threads s !! t = Some p -> a ∈ knows p -> (a < length (handles s))%nat.
Definition swapsOk (s : pool) : Prop := forall t p h n, threads s !! t = Some p -> swapOf p = Some (h, n) ->
  exists i, ids s !! h = Some i /\ ids s !! n = Some i.

Lemma ids_lookup s h hd : handles s !! h = Some hd -> ids s !! h = Some (h_id hd).
Proof. intros H. unfold ids. by rewrite list_lookup_fmap, H. Qed.

Lemma slots_step t ch s s' : step t ch s = Some s' -> swapsOk s -> slotsOk s -> slotsOk s'.
Proof.
  intros H S4 S2 i a. explode H; unfold ids; simpl; rewrite ?fmap_alter by done; try (by apply S2).
  - rewrite fmap_app. intros Hi. apply lookup_app_l_Some. by apply S2.
  - intros Hi. destruct (S4 _ _ _ _ Hp eq_refl) as (j&Hj&Hn). pose proof (ids_lookup _ _ _ Heqo0) as Hd. rewrite Hd in Hj. simplify_eq.
    apply list_lookup_insert_Some in Hi as [(<-&<-&_)|[_ Hi]]; [done|by apply S2].
Qed.

Lemma ids_step t ch s s' : step t ch s = Some s' -> idsOk s -> idsOk s'.
Proof.
  intros H S3 a i. explode H; unfold ids; simpl; rewrite ?fmap_alter by done; rewrite ?length_insert; try (by apply S3).
  rewrite fmap_app. intros [Hi|[_ Hi]]%lookup_app_Some; [by eapply S3|]. apply (S3 h). rewrite (ids_lookup _ _ _ Heqo0).
  by destruct (a - _)%nat; simplify_eq/=.
Qed.

Lemma knows_step t ch s s' : step t ch s = Some s' -> slotsOk s -> knowsOk s -> knowsOk s'.
Proof.
  intros H S2 S1 t' q a. explode H; simpl; rewrite ?length_alter, ?length_app; intros Hq Ha; thread Hq; simpl in Ha;
    try (by eapply S1); try (by apply not_elem_of_nil in Ha); try (by apply (S1 _ _ _ Hp); simpl; set_solver).
  - pose proof (lookup_lt_Some _ _ _ Heqo0). simpl. rewrite !elem_of_cons, elem_of_nil in Ha. destruct Ha as [->|[->|[]]]; lia.
  - pose proof (S1 _ _ _ Hq Ha). simpl. lia.
  - apply list_elem_of_lookup_1 in Ha as [i Ha]. apply S2, lookup_lt_Some in Ha. unfold ids in Ha. by rewrite length_fmap in Ha.
Qed.

Lemma swaps_step t ch s s' : step t ch s = Some s' -> swapsOk s -> swapsOk s'.
Proof.
  intros H S4 t' q h' n'. explode H; unfold ids; simpl; rewrite ?fmap_alter by done; intros Hq Hs; thread Hq; simpl in Hs; simplify_eq;
    try (by eapply S4); try (by apply (S4 _ _ _ _ Hp)).
  - exists (h_id w). rewrite fmap_app. split; [apply lookup_app_l_Some, (ids_lookup _ _ _ Heqo0)|].
    rewrite lookup_app_r by (by rewrite length_fmap). by rewrite length_fmap, Nat.sub_diag.
  - destruct (S4 _ _ _ _ Hq Hs) as (i&?&?). exists i. rewrite fmap_app. split; by apply lookup_app_l_Some.
Qed.

Record shapeOk (s : pool) : Prop := {
  shape_slots : slotsOk s; shape_ids : idsOk s; shape_knows : knowsOk s; shape_swaps : swapsOk s
}.

Lemma shape_reachable n s : reachable n s -> shapeOk s.
Proof.
  induction 1 as [|s p _ [S1 S2 S3 S4] Hs|s t ch s' _ [S1 S2 S3 S4] Hs].
  - split; try done; unfold slotsOk, idsOk, ids; simpl.
    + intros i a Hi. rewrite <- list_fmap_compose, list_lookup_fmap. simpl.
      apply lookup_seq in Hi as [-> Hi]. simpl. rewrite lookup_seq_lt by done. done.
    + intros a i. rewrite <- list_fmap_compose, list_lookup_fmap, length_seq. destruct (seq 0 n !! a) eqn:E; [|done].
      apply lookup_seq in E as [-> E]. simpl. by intros [= <-].
  - pose proof (starts_idle _ _ Hs) as Hi. split; [done|done| |]; intros t q.
    + intros a [Hq| ->]%threads_spawn; [by eapply S3|]. by apply Hi.
    + intros h n' [Hq| ->]%threads_spawn; [by eapply S4|]. by destruct p.
  - split; [by eapply slots_step|by eapply ids_step|by eapply knows_step|by eapply swaps_step].
Qed.

(** *** The counters *)

(** The count after a step, in terms of the count before. *)
Ltac counts Hp :=
  simpl; rewrite ?count_spawn;
  repeat match goal with
  | |- context [count ?P (<[?t := ?p']> ?ts)] =>
      let E := fresh "E" in pose proof (count_insert P ts t _ p' Hp) as E; revert E;
      generalize (count P (<[t := p']> ts)); intros ? E
  end; simpl in *.

Definition wgOk (s : pool) : Prop := restartWG s = Z.of_nat (count registered (threads s)).
Definition logicalOk (s : pool) : Prop := logicalInFlight s = Z.of_nat (count isLive (threads s)).

Lemma wg_step t ch s s' : step t ch s = Some s' -> wgOk s -> wgOk s'.
Proof.
  unfold wgOk. intros H W. explode H; repeat match goal with o : origin |- _ => destruct o end; counts Hp; try lia.
Qed.
Lemma logical_step t ch s s' : step t ch s = Some s' -> logicalOk s -> logicalOk s'.
Proof. unfold logicalOk. intros H W. explode H; counts Hp; lia. Qed.

(** *** The guard, the channel and the pending count of a handle *)

Definition guards (a : nat) (p : pc) : bool := isAt (guardOf p) a.
Definition publishes (a : nat) (p : pc) : bool := isAt (publishedOf p) a.
Definition pends (a : nat) (p : pc) : bool := isAt (pendingOf p) a.

Definition handleOk (ts : list pc) (a : nat) (hd : workerHandle) : Prop :=
  Nat.b2n (restarting hd) = count (guards a) ts
  /\ Nat.b2n (bool_decide (is_Some (restartDone hd))) = count (publishes a) ts
  /\ restartPending hd = Z.of_nat (count (pends a) ts).
Definition handlesOk (s : pool) : Prop := forall a hd, handles s !! a = Some hd -> handleOk (threads s) a hd.

Lemma count_lt (P Q : pc -> bool) ts t p : (forall q, P q = true -> Q q = true) -> ts !! t = Some p -> P p = false -> Q p = true ->
  (count P ts < count Q ts)%nat.
Proof.
  intros HI. unfold count.
  assert (Hle : forall us, (length (List.filter P us) <= length (List.filter Q us))%nat).
  { induction us as [|q us IH]; simpl; [done|]. destruct (P q) eqn:E; [rewrite (HI _ E); simpl; lia|destruct (Q q); simpl; lia]. }
  revert t. induction ts as [|q ts IH]; intros [|t] H HP HQ; simpl in *; [done|done| |].
  - injection H as ->. rewrite HP, HQ. simpl. specialize (Hle ts). lia.
  - specialize (IH t H HP HQ). destruct (P q) eqn:E; [rewrite (HI _ E); simpl; lia|destruct (Q q); simpl; lia].
Qed.

Lemma unknown_counts s a : knowsOk s -> (length (handles s) <= a)%nat ->
  count (guards a) (threads s) = 0%nat /\ count (publishes a) (threads s) = 0%nat /\ count (pends a) (threads s) = 0%nat.
Proof.
  intros K Ha. split_and!; apply count_zero; intros t p Hp; apply not_true_is_false; intros HP;
    unfold guards, publishes, pends in HP; destruct p; try done; simpl in HP; repeat case_match; try done;
    apply Nat.eqb_eq in HP as ->; (enough (a < length (handles s))%nat by lia); apply (K _ _ _ Hp); simpl; set_solver.
Qed.

Lemma published_guarded a q : publishes a q = true -> guards a q = true.
Proof. by destruct q. Qed.
Lemma guards_at p a : guardOf p = Some a -> guards a p = true.
Proof. unfold guards. intros ->. apply Nat.eqb_refl. Qed.

(** The handle [a] after an update of [h]. *)
Lemma alter_cases (f : workerHandle -> workerHandle) h (hs : list workerHandle) a hd : alter f h hs !! a = Some hd ->
  (a = h /\ exists x, hs !! a = Some x /\ hd = f x) \/ (a <> h /\ hs !! a = Some hd).
Proof.
  destruct (decide (a = h)) as [->|Hne].
  - rewrite list_lookup_alter_eq. destruct (hs !! h); simpl; intros [= <-]. left. eauto.
  - rewrite list_lookup_alter_ne by done. by right.
Qed.

Ltac handle_cases H :=
  match type of H with
  | alter _ _ _ !! _ = Some _ => apply alter_cases in H as [(->&?&H&->)|[? H]]
  | _ => idtac
  end.
Ltac eqbs := repeat match goal with
  | |- context [(?a =? ?b)%nat] => destruct (Nat.eqb_spec a b); subst
  | H : context [(?a =? ?b)%nat] |- _ => destruct (Nat.eqb_spec a b); subst
  end.

Lemma handles_step t ch s s' : step t ch s = Some s' -> knowsOk s -> handlesOk s -> handlesOk s'.
Proof.
  intros H K HO a hd. explode H; simpl; intros Ha; handle_cases Ha.
  all: try (match type of Ha with (_ ++ _) !! _ = _ => idtac end;
    apply lookup_app_Some in Ha as [Ha|[Hl Ha]];
      [|destruct (a - length (handles s))%nat; simplify_eq/=; pose proof (unknown_counts s a K Hl) as (?&?&?)]).
  all: try pose proof (HO _ _ Ha) as (G&U&W).
  all: repeat match goal with o : origin |- _ => destruct o end.
  all: unfold handleOk, guards, publishes, pends in *.
  all: counts Hp; eqbs; try (split_and!; lia).
  1,2: simplify_eq; rewrite Heqb in G; simpl in G; split_and!; lia.
  all: pose proof (count_lt (publishes h) (guards h) _ _ _ (published_guarded h) Hp eq_refl (guards_at (RwPublish h _) h eq_refl)) as Hlt;
    unfold guards, publishes in Hlt; destruct (restarting x); simpl in *; split_and!; lia.
Qed.

Record countsOk (s : pool) : Prop := {
  counts_wg : wgOk s; counts_logical : logicalOk s; counts_handles : handlesOk s
}.

Lemma counts_reachable n s : reachable n s -> countsOk s.
Proof.
  induction 1 as [|s p _ [C1 C2 C3] Hs|s t ch s' Hr [C1 C2 C3] Hs].
  - split; [done|done|]. intros a hd. simpl. rewrite list_lookup_fmap. intros (i&_&->)%fmap_Some. done.
  - apply starts_idle in Hs as Hi. destruct Hi as (_&_&_&_&G&U&W&R&_&_&_&_&_&L&_).
    split; [unfold wgOk; simpl; rewrite count_spawn, R, C1; simpl; lia|unfold logicalOk; simpl; rewrite count_spawn, L, C2; simpl; lia|].
    intros a hd Ha. destruct (C3 a hd Ha) as (H1&H2&H3). unfold handleOk, guards, publishes, pends in *. simpl.
    rewrite !count_spawn, G, U, W. simpl. split_and!; lia.
  - pose proof (shape_reachable _ _ Hr) as Sh. split; [by eapply wg_step|by eapply logical_step|eapply handles_step; [done|apply Sh|done]].
Qed.
