(* ===== verification/PoolClose.v ===== *)
(** * PoolClose: what [Close] and [Shutdown] leave behind ([pool/pool.go])

    After [Close] returned, every worker of a slot is killed and no restart counted
    in [restartWG] is left; a worker that still lives is in the hands of a restart
    that a waiting request started.  A [Shutdown] that saw no request left closes a
    pool without requests. *)

From S2P Require Import Prelude PoolLifecycle PoolInvariant.
Open Scope stdpp_scope.

(** ** The phases of [Close] *)

(** Registering a restart, past the check of [closed]. *)
Definition registering (p : pc) : bool := match p with DispCount _ _ | DispPend _ _ => true | _ => false end.
Definition installing (p : pc) : option (nat * nat) := match p with RwSwapSet h n _ => Some (h, n) | _ => None end.
Definition returned (p : pc) : bool := match p with CloseFinished _ => true | _ => false end.

Definition deadAt (s : pool) (a : nat) : Prop := exists hd, handles s !! a = Some hd /\ killed hd = true.

Record closeOk (s : pool) : Prop := {
  close_closed : forall t p, threads s !! t = Some p -> closing p = true -> closed s = true;
  close_barrier : forall t p t' q, threads s !! t = Some p -> pastBarrier p = true ->
    threads s !! t' = Some q -> registering q = false;
  close_swaps : forall t p rest t' q, threads s !! t = Some p -> toKill p = Some rest ->
    threads s !! t' = Some q -> installing q = None;
  close_kills : forall t p rest i a, threads s !! t = Some p -> toKill p = Some rest ->
    workers s !! i = Some a -> a ∈ rest \/ deadAt s a;
  close_waits : forall t p, threads s !! t = Some p -> returned p = true -> count registered (threads s) = 0%nat
}.

(** A killed worker stays killed. *)
Lemma dead_step t ch s s' a : step t ch s = Some s' -> deadAt s a -> deadAt s' a.
Proof.
  intros H (hd&Ha&Hk). unfold deadAt. explode H; simpl; eauto;
    try (rewrite list_lookup_alter; case_decide; subst; [rewrite Ha; simpl; eauto|eauto]).
  exists hd. split; [by apply lookup_app_l_Some|done].
Qed.

Lemma barrier_closing p : pastBarrier p = true -> closing p = true.
Proof. by destruct p. Qed.
Lemma kill_barrier p rest : toKill p = Some rest -> pastBarrier p = true.
Proof. by destruct p. Qed.
Lemma returned_kill p : returned p = true -> toKill p = Some [].
Proof. by destruct p. Qed.

Lemma closed_step t ch s s' : step t ch s = Some s' -> closed s = true -> closed s' = true.
Proof. intros H Hc. explode H; simpl; done. Qed.

Lemma close_closed_step t ch s s' : step t ch s = Some s' -> closeOk s ->
  forall t' p, threads s' !! t' = Some p -> closing p = true -> closed s' = true.
Proof.
  intros H HC t' q. explode H; simpl; intros Hq Hc; thread Hq; simpl in *; try done;
    first [by eapply (close_closed _ HC)|by apply (close_closed _ HC _ _ Hp)].
Qed.

Lemma close_barrier_step t ch s s' : step t ch s = Some s' -> locksOk s -> closeOk s ->
  forall t' p t'' q, threads s' !! t' = Some p -> pastBarrier p = true -> threads s' !! t'' = Some q -> registering q = false.
Proof.
  intros H HL HC t' q t'' r. explode H; simpl; intros Hq Hc Hr; thread Hq; try done; thread Hr; simpl in *; try done.
  all: try (by apply (close_barrier _ HC _ _ _ _ Hq Hc Hr)); try (by apply (close_barrier _ HC _ _ _ _ Hp eq_refl Hr)).
  all: try (by specialize (close_barrier _ HC _ _ _ _ Hq Hc Hp)).
  all: try (by pose proof (close_closed _ HC _ _ Hq (barrier_closing _ Hc)); congruence).
  apply not_true_is_false. intros Hreg. assert (restartMu s = Some t'') by (eapply (lock_restart _ HL); [done|by destruct r]). congruence.
Qed.

Lemma close_swaps_step t ch s s' : step t ch s = Some s' -> locksOk s -> closeOk s ->
  forall t' p rest t'' q, threads s' !! t' = Some p -> toKill p = Some rest -> threads s' !! t'' = Some q -> installing q = None.
Proof.
  intros H HL HC t' q rest t'' r. explode H; simpl; intros Hq Hc Hr; thread Hq; try done; thread Hr; simpl in *; try done.
  all: try (by apply (close_swaps _ HC _ _ _ _ _ Hq Hc Hr)); try (by apply (close_swaps _ HC _ _ _ _ _ Hp eq_refl Hr)).
  all: try (by pose proof (close_closed _ HC _ _ Hq (barrier_closing _ (kill_barrier _ _ Hc))); destruct (closed s)).
  destruct (installing r) eqn:Hi; [|done]. assert (poolMu s = Some t'') by (eapply (lock_pool _ HL); [done|by destruct r]). congruence.
Qed.

Lemma kill_dead s h : (h < length (handles s))%nat -> deadAt (upd h kill s) h.
Proof.
  intros [hd Hh]%lookup_lt_is_Some. exists (kill hd). simpl. by rewrite list_lookup_alter_eq, Hh.
Qed.

Lemma close_kills_step t ch s s' : step t ch s = Some s' -> knowsOk s -> closeOk s ->
  forall t' p rest i a, threads s' !! t' = Some p -> toKill p = Some rest -> workers s' !! i = Some a -> a ∈ rest \/ deadAt s' a.
Proof.
  intros H HK HC t' q rest i a. pose proof (dead_step _ _ _ _ a H) as HD.
  explode H; simpl; intros Hq Hc Hi; thread Hq; simpl in Hc; simplify_eq.
  all: try (by destruct (close_kills _ HC _ _ _ _ _ Hq Hc Hi); [left|right; apply HD]).
  all: try (by specialize (close_swaps _ HC _ _ _ _ _ Hq Hc Hp)).
  all: try (by destruct (close_kills _ HC _ _ _ _ _ Hp eq_refl Hi); [left|right; apply HD]).
  - left. by eapply list_elem_of_lookup_2.
  - destruct (close_kills _ HC _ _ _ _ _ Hp eq_refl Hi) as [[->|Hr]%elem_of_cons|Hd]; [|by left|right; by apply HD].
    right. change (deadAt (upd n kill s) n). apply kill_dead, (HK _ _ _ Hp). left.
Qed.

Lemma close_waits_step t ch s s' : step t ch s = Some s' -> wgOk s -> closeOk s ->
  forall t' p, threads s' !! t' = Some p -> returned p = true -> count registered (threads s') = 0%nat.
Proof.
  intros H HW HC t' q. unfold wgOk in HW.
  explode H; repeat match goal with o : origin |- _ => destruct o end; simpl; intros Hq Hc; thread Hq; try done; counts Hp;
    try pose proof (close_waits _ HC _ _ Hq Hc); try lia.
  all: try (by specialize (close_barrier _ HC _ _ _ _ Hq (kill_barrier _ _ (returned_kill _ Hc)) Hp)).
Qed.

Lemma close_step t ch s s' : step t ch s = Some s' -> locksOk s -> shapeOk s -> countsOk s -> closeOk s -> closeOk s'.
Proof.
  intros H HL HS HN HC. split.
  - by eapply close_closed_step.
  - by eapply close_barrier_step.
  - by eapply close_swaps_step.
  - eapply close_kills_step; [done|apply HS|done].
  - eapply close_waits_step; [done|apply HN|done].
Qed.

Lemma close_reachable n s : reachable n s -> closeOk s.
Proof.
  induction 1 as [|s p Hr IH Hs|s t ch s' Hr IH Hs]; [done| |].
  - pose proof (starts_idle _ _ Hs) as (L&_&_&R&_&_&_&G&C&B&K&_).
    assert (Hreg : registering p = false) by by destruct p.
    assert (Hins : installing p = None) by by destruct p.
    split; simpl.
    + intros t q [Hq| ->]%threads_spawn Hc; [by eapply (close_closed _ IH)|congruence].
    + intros t q t' r [Hq| ->]%threads_spawn Hc [Hr'| ->]%threads_spawn; try congruence. exact (close_barrier _ IH _ _ _ _ Hq Hc Hr').
    + intros t q rest t' r [Hq| ->]%threads_spawn Hc [Hr'| ->]%threads_spawn; try congruence. exact (close_swaps _ IH _ _ _ _ _ Hq Hc Hr').
    + intros t q rest i a [Hq| ->]%threads_spawn Hc Hi; [|congruence]. exact (close_kills _ IH _ _ _ _ _ Hq Hc Hi).
    + intros t q [Hq| ->]%threads_spawn Hc; [|by destruct p]. rewrite count_spawn, G, (close_waits _ IH _ _ Hq Hc). done.
  - eapply close_step; [done|by eapply locks_reachable|by eapply shape_reachable|by eapply counts_reachable|done].
Qed.

(** ** Where the workers are *)

(** Every worker that lives is in a slot or in the hands of a restart. *)
Definition heldIn (ts : list pc) (a : nat) : Prop := exists t p, ts !! t = Some p /\ inHand p a = true.
Definition swapSlotOk (s : pool) : Prop := forall t p h n i, threads s !! t = Some p -> installing p = Some (h, n) ->
  ids s !! h = Some i -> workers s !! i = Some h.
Definition liveOk (s : pool) : Prop := forall a hd, handles s !! a = Some hd -> killed hd = false ->
  (exists i, workers s !! i = Some a) \/ heldIn (threads s) a.

Lemma held_goto ts t p p' a : ts !! t = Some p -> (inHand p a = true -> inHand p' a = true) -> heldIn ts a -> heldIn (<[t := p']> ts) a.
Proof.
  intros Hp Hi (t'&q&Hq&Ha). destruct (decide (t' = t)) as [->|Hne].
  - exists t, p'. rewrite list_lookup_insert_eq by by eapply lookup_lt_Some. simplify_eq. auto.
  - exists t', q. by rewrite list_lookup_insert_ne.
Qed.
Lemma held_spawn ts p a : heldIn ts a -> heldIn (ts ++ [p]) a.
Proof. intros (t&q&Hq&Ha). exists t, q. split; [by apply lookup_app_l_Some|done]. Qed.
Lemma held_here ts t p p' a : ts !! t = Some p -> inHand p' a = true -> heldIn (<[t := p']> ts) a.
Proof. intros Hp Ha. exists t, p'. by rewrite list_lookup_insert_eq by by eapply lookup_lt_Some. Qed.

Lemma swapSlot_step t ch s s' : step t ch s = Some s' -> locksOk s -> knowsOk s -> swapSlotOk s -> swapSlotOk s'.
Proof.
  intros H HL HK HS t' q h' n' i. explode H; unfold ids; simpl; rewrite ?fmap_alter by done; intros Hq Hi Hd; thread Hq; simpl in Hi; simplify_eq;
    try (by apply (HS _ _ _ _ _ Hq Hi Hd)).
  - apply (HS _ _ _ _ _ Hq Hi). rewrite fmap_app, lookup_app_l in Hd; [done|].
    rewrite length_fmap. apply (HK _ _ _ Hq). destruct q; simplify_eq/=. left.
  - apply orb_false_iff in Heqb as [_ Hs]. apply negb_false_iff, bool_decide_eq_true in Hs.
    pose proof (ids_lookup _ _ _ Heqo0) as He. unfold ids in He. congruence.
  - exfalso. assert (poolMu s = Some t') by (eapply (lock_pool _ HL); [done|by destruct q]).
    pose proof (lock_pool _ HL _ _ Hp eq_refl). congruence.
Qed.

Lemma live_step t ch s s' : step t ch s = Some s' -> shapeOk s -> swapSlotOk s -> liveOk s -> liveOk s'.
Proof.
  intros H HSh HS HL a hd. explode H; simpl; intros Ha Hk; handle_cases Ha; try done.
  all: try (destruct (HL _ _ Ha Hk) as [?|Hh]; [by left|right]; try apply held_spawn; eapply held_goto; [done| |done]; simpl; try done).
  all: try (rewrite Nat.eqb_eq; congruence).
  all: try (by apply (HL _ _ Ha Hk)).
  - apply lookup_app_Some in Ha as [Ha|[Hl Ha]].
    + destruct (HL _ _ Ha Hk) as [?|Hh]; [by left|right]. by eapply held_goto.
    + right. apply (held_here _ _ _ _ _ Hp). simpl. apply Nat.eqb_eq. destruct (a - _)%nat eqn:E; simplify_eq/=. lia.
  - pose proof (ids_lookup _ _ _ Heqo0) as Hd. destruct (HL _ _ Ha Hk) as [[i Hi]|(t'&q&Hq&Hh)].
    + destruct (decide (i = h_id w)) as [->|Hne].
      * right. apply (held_here _ _ _ _ _ Hp). apply Nat.eqb_eq. rewrite (HS _ _ _ _ _ Hp eq_refl Hd) in Hi. by simplify_eq.
      * left. exists i. by rewrite list_lookup_insert_ne.
    + destruct (decide (t' = t)) as [->|Hne].
      * simplify_eq. apply Nat.eqb_eq in Hh as <-. left. exists (h_id w). apply list_lookup_insert_eq, (shape_ids _ HSh _ _ Hd).
      * right. exists t', q. by rewrite list_lookup_insert_ne.
Qed.

Lemma live_reachable n s : reachable n s -> swapSlotOk s /\ liveOk s.
Proof.
  induction 1 as [|s p Hr [I1 I2] Hs|s t ch s' Hr [I1 I2] Hs].
  - split; [done|]. intros a hd Ha _. left. exists a. simpl in *. rewrite list_lookup_fmap in Ha.
    apply fmap_Some in Ha as (i&Hi&_). by apply lookup_seq in Hi as Hj; destruct Hj as [-> _].
  - split.
    + intros t q h m i [Hq| ->]%threads_spawn; [by apply (I1 _ _ _ _ _ Hq)|by destruct p].
    + intros a hd Ha Hk. destruct (I2 a hd Ha Hk); [by left|right; by apply held_spawn].
  - pose proof (shape_reachable _ _ Hr) as HSh. split.
    + eapply swapSlot_step; [done|by eapply locks_reachable|apply HSh|done].
    + by eapply live_step.
Qed.

(** ** What [Close] leaves behind *)

Lemma count_none P ts t p : count P ts = 0%nat -> ts !! t = Some p -> P p = false.
Proof. intros Hc Hp. apply not_true_is_false. intros HP. pose proof (count_pos _ _ _ _ Hp HP). lia. Qed.

Lemma inHand_restart p a : inHand p a = true -> exists h o, restartOf p = Some (h, o).
Proof. destruct p; try done; simpl; eauto. Qed.

(** C7. Once [Close] has returned, under any interleaving with requests, restarts,
    health probes and other closes: no restart that [restartWG] counts is left, every
    worker of a slot has been killed, and a worker that is still alive is in the hands
    of a restart that a waiting request started, which will kill it. *)
Theorem close_kills_all n s t g : reachable n s -> threads s !! t = Some (CloseFinished g) ->
  restartWG s = 0%Z
  /\ (forall i a, workers s !! i = Some a -> deadAt s a)
  /\ (forall a hd, handles s !! a = Some hd -> killed hd = false ->
        exists t' p h c, threads s !! t' = Some p /\ restartOf p = Some (h, awaited c) /\ inHand p a = true /\ installing p = None).
Proof.
  intros Hr Ht. pose proof (close_reachable _ _ Hr) as HC. pose proof (counts_reachable _ _ Hr) as [HW _ _].
  pose proof (close_waits _ HC _ _ Ht eq_refl) as H0.
  assert (Hd : forall i a, workers s !! i = Some a -> deadAt s a).
  { intros i a Hi. destruct (close_kills _ HC _ _ _ _ _ Ht eq_refl Hi) as [Hn|]; [by apply not_elem_of_nil in Hn|done]. }
  split_and!; [unfold wgOk in HW; lia|done|]. intros a hd Ha Hk.
  destruct (live_reachable _ _ Hr) as [_ HL]. destruct (HL _ _ Ha Hk) as [[i Hi]|(t'&p&Hp&Hh)].
  - destruct (Hd _ _ Hi) as (x&Hx&Hxk). congruence.
  - destruct (inHand_restart _ _ Hh) as (h&[|c]&Ho); [|exists t', p, h, c; split_and!; try done; by apply (close_swaps _ HC _ _ _ _ _ Ht eq_refl Hp)].
    pose proof (count_none _ _ _ _ H0 Hp) as Hn. exfalso. by destruct p; simplify_eq/=.
Qed.

(** Schedules stay within the reachable states. *)
Lemma run_reachable n sched s : reachable n s -> reachable n (run sched s).
Proof.
  revert s. induction sched as [|[t ch] sched IH]; intros s Hr; simpl; [done|]. apply IH.
  destruct (step t ch s) eqn:E; simpl; [by eapply reach_step|done].
Qed.
Lemma calls_reachable n ps s : reachable n s -> forallb (starts (length (handles s))) ps = true ->
  reachable n (foldl (fun s p => spawn p s) s ps).
Proof.
  revert s. induction ps as [|p ps IH]; intros s Hr Hs; simpl; [done|]. simpl in Hs. apply andb_true_iff in Hs as [Hp Hs].
  apply IH; [by apply reach_call|done].
Qed.

(** A restart that a waiting request started is not in [restartWG]: here it boots a
    worker after [Close] has returned. *)
Definition outliving : pool :=
  run ([(0, CNone); (0, CNone)] ++ replicate 5 (2, CNone) ++ replicate 10 (1, CNone) ++ [(2, CStarted)])%nat
    (foldl (fun s p => spawn p s) (newPool 1 []) [AwLoop 0 false; CloseSwap false]).
Lemma close_kills_all_witness :
  (threads outliving !! 1%nat, killed <$> handles outliving) = (Some (CloseFinished false), [true; false])
  /\ restartWG outliving = 0%Z
  /\ (forall i a, workers outliving !! i = Some a -> deadAt outliving a)
  /\ (forall a hd, handles outliving !! a = Some hd -> killed hd = false ->
        exists t' p h c, threads outliving !! t' = Some p /\ restartOf p = Some (h, awaited c) /\ inHand p a = true /\ installing p = None).
Proof.
  split; [vm_compute; reflexivity|]. apply (close_kills_all 1 outliving 1 false); [|vm_compute; reflexivity].
  apply run_reachable, calls_reachable; [constructor|reflexivity].
Defined.

(** ** Graceful shutdown *)

(** The states that follow [s]. *)
Inductive later (s : pool) : pool -> Prop :=
  | later_refl : later s s
  | later_call s' p : later s s' -> starts (length (handles s')) p = true -> later s (spawn p s')
  | later_step s' t ch s'' : later s s' -> step t ch s' = Some s'' -> later s s''.

Lemma later_reachable n s s' : reachable n s -> later s s' -> reachable n s'.
Proof. intros Hr. induction 1; [done|by apply reach_call|by eapply reach_step]. Qed.

Lemma run_later sched s0 s : later s0 s -> later s0 (run sched s).
Proof.
  revert s. induction sched as [|[t ch] sched IH]; intros s Hr; simpl; [done|]. apply IH.
  destruct (step t ch s) eqn:E; simpl; [by eapply later_step|done].
Qed.

Definition entering (p : pc) : bool := match p with ReqAdd => true | _ => false end.
(** No request is admitted any more. *)
Definition drainOk (s : pool) : Prop := draining s = true /\ forall t p, threads s !! t = Some p -> entering p = false.
Definition idleOk (s : pool) : Prop := drainOk s /\ forall t p, threads s !! t = Some p -> isLive p = false.
Record shutOk (s : pool) : Prop := {
  shut_drain : forall t p, threads s !! t = Some p -> shutting p = true -> drainOk s;
  shut_idle : forall t p, threads s !! t = Some p -> drained p = true -> idleOk s
}.

Lemma drain_step t ch s s' : step t ch s = Some s' -> drainOk s -> drainOk s'.
Proof.
  intros H [Hd HE]. explode H; (split; [try done|intros t' q Hq; thread Hq; try done; by apply (HE _ _ Hq)]).
Qed.
Lemma idle_step t ch s s' : step t ch s = Some s' -> idleOk s -> idleOk s'.
Proof.
  intros H [HD HI]. split; [by eapply drain_step|]. destruct HD as [Hd HE].
  explode H; intros t' q Hq; thread Hq; try done; try (by apply (HI _ _ Hq)); by specialize (HE _ _ Hp).
Qed.
Lemma drain_spawn s p n : starts n p = true -> drainOk s -> drainOk (spawn p s).
Proof. intros Hs [Hd HE]. split; [done|]. intros t q [Hq| ->]%threads_spawn; [by apply (HE _ _ Hq)|by destruct p]. Qed.
Lemma idle_spawn s p n : starts n p = true -> idleOk s -> idleOk (spawn p s).
Proof. intros Hs [HD HI]. split; [by eapply drain_spawn|]. intros t q [Hq| ->]%threads_spawn; [by apply (HI _ _ Hq)|by destruct p]. Qed.

Lemma shut_drain_step t ch s s' : step t ch s = Some s' -> locksOk s -> shutOk s ->
  forall t' p, threads s' !! t' = Some p -> shutting p = true -> drainOk s'.
Proof.
  intros H HL HS t' q Hq Hs. pose proof (drain_step _ _ _ _ H) as HD.
  explode H; thread Hq; try done; try (by apply HD, (shut_drain _ HS _ _ Hq Hs)); try (by apply HD, (shut_drain _ HS _ _ Hp)).
  all: split; [done|]; intros t'' r Hr; thread Hr; try done; destruct r; try done;
    pose proof (lock_admission _ HL _ _ Hr eq_refl); pose proof (lock_admission _ HL _ _ Hp eq_refl); congruence.
Qed.

Lemma shut_idle_step t ch s s' : step t ch s = Some s' -> logicalOk s -> shutOk s ->
  forall t' p, threads s' !! t' = Some p -> drained p = true -> idleOk s'.
Proof.
  intros H HW HS t' q Hq Hs. pose proof (idle_step _ _ _ _ H) as HI.
  explode H; thread Hq; try done; try (by apply HI, (shut_idle _ HS _ _ Hq Hs)); try (by apply HI, (shut_idle _ HS _ _ Hp)).
  apply HI. split; [by apply (shut_drain _ HS _ _ Hp)|]. intros t'' r Hr. eapply count_none; [|done].
  unfold logicalOk in HW. apply Z.eqb_eq in Heqb. lia.
Qed.

Lemma shut_reachable n s : reachable n s -> shutOk s.
Proof.
  induction 1 as [|s p Hr IH Hs|s t ch s' Hr IH Hs]; [done| |].
  - pose proof (starts_idle _ _ Hs) as (_&_&_&_&_&_&_&_&_&_&_&S&D&_).
    split; simpl; intros t q [Hq| ->]%threads_spawn Hc; try congruence;
      [by eapply drain_spawn, (shut_drain _ IH _ _ Hq)|by eapply idle_spawn, (shut_idle _ IH _ _ Hq)].
  - split; [eapply shut_drain_step; [done|by eapply locks_reachable|done]
           |eapply shut_idle_step; [done|by eapply counts_reachable|done]].
Qed.

Lemma idle_later s s' : later s s' -> idleOk s -> idleOk s'.
Proof. induction 1 as [|s' p _ IH Hs|s' t ch s'' _ IH Hs]; intros HI; [done|by eapply idle_spawn, IH|by eapply idle_step, IH]. Qed.

(** C8. [Shutdown] is graceful: when it goes on to [Close] because it saw no request
    left, no admitted request is live, and none is admitted later, whatever calls
    and restarts run meanwhile. *)
Theorem graceful_shutdown n s t p s' : reachable n s -> threads s !! t = Some p -> drained p = true -> later s s' ->
  logicalInFlight s' = 0%Z /\ forall t' q, threads s' !! t' = Some q -> isLive q = false /\ entering q = false.
Proof.
  intros Hr Hp Hd Hl. pose proof (idle_later _ _ Hl (shut_idle _ (shut_reachable _ _ Hr) _ _ Hp Hd)) as [[_ HE] HI].
  split; [|eauto]. pose proof (counts_logical _ (counts_reachable _ _ (later_reachable _ _ _ Hr Hl))) as HW.
  unfold logicalOk in HW. rewrite HW, (count_zero isLive); [done|eauto].
Qed.

(** A request is admitted and ends, [Shutdown] drains, and a later request is turned
    away. *)
Definition drainedPool : pool :=
  run ([(0, CNone); (0, CNone); (0, CNone); (0, CNone); (1, CNone); (1, CNone); (1, CNone); (0, CNone); (1, CNone)])%nat
    (foldl (fun s p => spawn p s) (newPool 1 []) [ReqBegin; ShutLock]).
Lemma graceful_shutdown_witness :
  threads drainedPool !! 1%nat = Some (CloseSwap true)
  /\ (let s' := run [(2, CNone); (2, CNone); (2, CNone)]%nat (spawn ReqBegin drainedPool) in
      (logicalInFlight s' = 0%Z /\ forall t' q, threads s' !! t' = Some q -> isLive q = false /\ entering q = false)
      /\ threads s' !! 2%nat = Some Finished).
Proof.
  split; [reflexivity|]. split; [|reflexivity]. apply (graceful_shutdown 1 drainedPool 1 (CloseSwap true)); [|reflexivity|reflexivity|].
  - apply run_reachable, calls_reachable; [constructor|reflexivity].
  - apply run_later, later_call; [constructor|reflexivity].
Defined.
