(* ===== verification/PoolLive.v ===== *)
(** * PoolLive: no wait of the pool is in vain ([pool/pool.go])

    The mutexes, the channels of restarts and the wait group are always released: from
    every state of the pool, the goroutines can all run to their end without any
    context being cancelled. *)

From S2P Require Import Prelude PoolLifecycle PoolInvariant PoolClose.
Open Scope stdpp_scope.

(** ** Mutexes have holders *)

Record holdersOk (s : pool) : Prop := {
  holder_restart : forall t, restartMu s = Some t -> exists p, threads s !! t = Some p /\ holdsRestart p = true;
  holder_pool : forall t, poolMu s = Some t -> exists p, threads s !! t = Some p /\ holdsPool p = true;
  holder_admission : forall t, admissionMu s = Some t -> exists p, threads s !! t = Some p /\ holdsAdmission p = true
}.

(** A goroutine that keeps what it holds, or is not the one that moves. *)
Lemma holder_goto (P : pc -> bool) (ts : list pc) t p p' t' : ts !! t = Some p -> (t' = t -> P p = true -> P p' = true) ->
  (exists q, ts !! t' = Some q /\ P q = true) -> exists q, <[t := p']> ts !! t' = Some q /\ P q = true.
Proof.
  intros Hp HP (q&Hq&Hh). destruct (decide (t' = t)) as [->|Hne].
  - exists p'. rewrite list_lookup_insert_eq by by eapply lookup_lt_Some. simplify_eq. auto.
  - exists q. by rewrite list_lookup_insert_ne.
Qed.
Lemma holder_spawn (P : pc -> bool) (ts : list pc) p t' : (exists q, ts !! t' = Some q /\ P q = true) -> exists q, (ts ++ [p]) !! t' = Some q /\ P q = true.
Proof. intros (q&Hq&Hh). exists q. split; [by apply lookup_app_l_Some|done]. Qed.
Lemma holder_here (P : pc -> bool) (ts : list pc) t p p' : ts !! t = Some p -> P p' = true -> exists q, <[t := p']> ts !! t = Some q /\ P q = true.
Proof. intros Hp HP. exists p'. by rewrite list_lookup_insert_eq by by eapply lookup_lt_Some. Qed.

Lemma holders_step t ch s s' : step t ch s = Some s' -> holdersOk s -> holdersOk s'.
Proof.
  intros H HO. split; intros t' Ht; explode H; simpl in *; simplify_eq; try apply holder_spawn;
    try (by eapply holder_here); try (eapply holder_goto; [eassumption| |by apply HO]; intros -> ?; try done).
  all: try (by apply HO).
Qed.

Lemma holders_reachable n s : reachable n s -> holdersOk s.
Proof.
  induction 1 as [|s p Hr IH Hs|s t ch s' Hr IH Hs]; [done| |].
  - split; simpl; intros t Ht; apply holder_spawn; by apply IH.
  - by eapply holders_step.
Qed.

(** ** Channels are closed *)

Definition awaitsOn (p : pc) (c : nat) : bool := match restartOf p with Some (_, awaited c') => (c' =? c)%nat | _ => false end.
Definition published (s : pool) (h c : nat) : Prop := exists hd, handles s !! h = Some hd /\ restartDone hd = Some c.
Record chansOk (s : pool) : Prop := {
  chan_select : forall t h c, threads s !! t = Some (AwSelect h c) ->
    c ∈ closedChans s \/ published s h c;
  chan_done : forall t c, threads s !! t = Some (AwDone c) ->
    c ∈ closedChans s \/ exists t' p, threads s !! t' = Some p /\ awaitsOn p c = true
}.

(** Where [restartWorker] publishes a channel there is none yet. *)
Lemma publish_fresh s t h o hd : handlesOk s -> threads s !! t = Some (RwPublish h o) -> handles s !! h = Some hd -> restartDone hd = None.
Proof.
  intros HO Hp Hh. destruct (HO _ _ Hh) as (G&U&_).
  pose proof (count_lt (publishes h) (guards h) _ _ _ (published_guarded h) Hp eq_refl (guards_at (RwPublish h o) h eq_refl)).
  destruct (restartDone hd); [|done]. simpl in U. destruct (restarting hd); simpl in G; lia.
Qed.

Lemma published_step t ch s s' h c : step t ch s = Some s' -> handlesOk s ->
  c ∈ closedChans s \/ published s h c -> c ∈ closedChans s' \/ published s' h c.
Proof.
  intros H HO [Hc|(hd&Hh&Hr)]; [left; explode H; simpl; set_solver|]. unfold published.
  explode H; simpl; try (right; by eauto); try (right; rewrite list_lookup_alter; case_decide; subst; rewrite ?Hh; simpl; by eauto).
  - right. rewrite list_lookup_alter. case_decide; subst; [|by eauto]. by rewrite (publish_fresh _ _ _ _ _ HO Hp Hh) in Hr.
  - right. exists hd. split; [by apply lookup_app_l_Some|done].
  - destruct (decide (h = h0)) as [->|Hne]; [left; simplify_eq; set_solver|].
    right. rewrite list_lookup_alter_ne by done. eauto.
  - right. rewrite list_lookup_alter. case_decide; subst; [congruence|eauto].
Qed.

Lemma awaits_step t ch s s' c : step t ch s = Some s' ->
  c ∈ closedChans s \/ (exists t' p, threads s !! t' = Some p /\ awaitsOn p c = true) ->
  c ∈ closedChans s' \/ exists t' p, threads s' !! t' = Some p /\ awaitsOn p c = true.
Proof.
  intros H [Hc|(t'&q&Hq&Hw)]; [left; explode H; simpl; set_solver|].
  explode H; simpl; try (by eauto); destruct (decide (t' = t)) as [->|Hne]; simplify_eq/=.
  all: try (right; exists t'; eexists; split; [rewrite ?lookup_app_l by (rewrite length_insert; by eapply lookup_lt_Some);
    by rewrite list_lookup_insert_ne|done]).
  all: try (right; exists t; eexists; split; [apply list_lookup_insert_eq; by eapply lookup_lt_Some|done]).
  left. apply Nat.eqb_eq in Hw as ->. set_solver.
Qed.

Lemma chans_step t ch s s' : step t ch s = Some s' -> handlesOk s -> chansOk s -> chansOk s'.
Proof.
  intros H HO HC. split.
  - intros t' h c Hq. pose proof (published_step _ _ _ _ h c H HO) as HP.
    remember (AwSelect h c) as q eqn:Eq. revert q Eq Hq. explode H; intros q Eq Hq; thread Hq; simplify_eq; try (by apply HP, (chan_select _ HC _ _ _ Hq)). apply HP. right. exists w. done.
  - intros t' c Hq. pose proof (awaits_step _ _ _ _ c H) as HP.
    remember (AwDone c) as q eqn:Eq. revert q Eq Hq. explode H; intros q Eq Hq; thread Hq; simplify_eq; try (by apply HP, (chan_done _ HC _ _ Hq)).
    right. exists (length (threads s)), (RwEarly h (awaited (nextChan s))). simpl.
    rewrite lookup_app_r by by rewrite length_insert. rewrite length_insert, Nat.sub_diag. split; [done|]. apply Nat.eqb_refl.
Qed.

Lemma chans_reachable n s : reachable n s -> chansOk s.
Proof.
  induction 1 as [|s p Hr IH Hs|s t ch s' Hr IH Hs]; [done| |].
  - split.
    + intros t h c [Hq|Hq]%threads_spawn; [by apply (chan_select _ IH _ _ _ Hq)|by subst].
    + intros t c [Hq|Hq]%threads_spawn; [|by subst]. destruct (chan_done _ IH _ _ Hq) as [?|(t'&q&Hq'&Hw)]; [by left|right].
      exists t', q. split; [by apply lookup_app_l_Some|done].
  - eapply chans_step; [done|by eapply counts_reachable|done].
Qed.

(** ** Steps left *)

(** The steps a goroutine has before it at most, those of the goroutines it starts
    included and the turns of its polling apart; [m] workers. *)
Definition weight (m : nat) (p : pc) : nat :=
  match p with
  | Finished | CloseFinished _ => 0
  | ReqLive => 1 | ReqAdd => 2 | ReqDraining => 3 | ReqClosed => 4 | ReqBegin => 5
  | RwDone _ _ => 6 | RwEnd _ _ => 7 | RwFinish _ _ => 8 | RwWait _ _ => 8 | RwKillNew _ _ _ => 9 | RwKillOld _ _ => 9
  | RwSwapSet _ _ _ => 10 | RwSwapCheck _ _ _ => 11 | RwSwapLock _ _ _ => 12 | RwFailKill _ _ => 9 | RwFailMark _ _ => 10
  | RwBoot _ _ => 13 | RwStart _ _ => 14 | RwDouble _ _ => 15 | RwPublish _ _ => 16 | RwCas _ _ => 17 | RwEarly _ _ => 18
  | KillCancel _ => 1 | DispPend _ _ => 20 | DispCount _ _ => 21 | DispCheck _ _ => 22 | DispLock _ _ => 23
  | KillProc _ => 24 | KillMark _ => 25
  | HealthSet _ => 1 | HealthOk _ => 2 | HealthSnap _ => 24 | HealthBad _ => 25 | HealthProbe _ => 26 | HealthStart _ => 27
  | AwSelect _ _ => 1 | AwDone _ => 1 | AwLoop _ true => 2 | AwPoll _ => 3 | AwSpawn _ => 20 | AwLoop _ false => 21
  | CloseWait _ => 1 | CloseKill _ rest => 2 + length rest | CloseSnap _ => 3 + m | CloseBarrier _ => 4 + m
  | CloseStop _ => 5 + m | CloseCancel _ => 6 + m | CloseDrainCh _ => 7 + m | CloseDrain _ => 8 + m | CloseSwap _ => 9 + m
  | ShutLoop => 10 + m | ShutStore => 11 + m | ShutLock => 12 + m
  end.
Definition total (m : nat) (ts : list pc) : nat := list_sum (weight m <$> ts).
Definition left_ (s : pool) : nat := total (length (workers s)) (threads s).

Lemma total_insert m ts t p p' : ts !! t = Some p -> (total m (<[t := p']> ts) + weight m p = total m ts + weight m p')%nat.
Proof.
  unfold total. revert t. induction ts as [|q ts IH]; intros [|t] H; csimpl in *; [done|done| |].
  - injection H as ->. lia.
  - specialize (IH t H). lia.
Qed.
Lemma total_spawn m ts p : total m (ts ++ [p]) = (total m ts + weight m p)%nat.
Proof. unfold total. rewrite fmap_app, list_sum_app. csimpl. lia. Qed.

(** A turn of a polling loop: the restart of the handle is pending but has no channel
    yet, or [Shutdown] waits for requests. *)
Definition polls (s : pool) (p : pc) : bool :=
  match p with
  | AwLoop h true =>
      match handles s !! h with Some hd => restartVisible hd && negb (bool_decide (is_Some (restartDone hd))) | None => false end
  | ShutLoop => negb (logicalInFlight s =? 0)%Z
  | _ => false
  end.

Lemma step_left t ch s s' q : step t ch s = Some s' -> threads s !! t = Some q -> polls s q = false -> (left_ s' < left_ s)%nat.
Proof.
  intros H Ht Hn. unfold left_. explode H; simpl; rewrite ?length_insert, ?total_spawn;
    try match goal with |- context [total ?m (<[?t := ?p']> ?ts)] => pose proof (total_insert m ts t _ p' Hp) end; simpl in *; try lia.
  all: destruct sawPending; try lia. rewrite Heqo, Heqo0, Heqb in Hn. done.
Qed.

(** ** Someone can move *)

Lemma count_pick P ts : (0 < count P ts)%nat -> exists t p, ts !! t = Some p /\ P p = true.
Proof.
  unfold count. intros H. destruct (List.filter P ts) as [|p l] eqn:E; [simpl in H; lia|].
  assert (Hi : In p (List.filter P ts)) by (rewrite E; by left). apply filter_In in Hi as [Hi HP].
  apply list_elem_of_In, list_elem_of_lookup_1 in Hi as [t Ht]. eauto.
Qed.
Lemma isAt_some o a : isAt o a = true -> o = Some a.
Proof. destruct o; simpl; [|done]. by intros ->%Nat.eqb_eq. Qed.

(** A step that needs no cancellation and is not a turn of a polling loop. *)
Definition progress (s : pool) : Prop := exists t ch s', step t ch s = Some s' /\ ch <> CCancel /\ (left_ s' < left_ s)%nat.

Lemma moves s t p ch : threads s !! t = Some p -> polls s p = false -> ch <> CCancel -> is_Some (step t ch s) -> progress s.
Proof. intros Hp Hn Hc [s' Hs]. exists t, ch, s'. split_and!; [done|done|by eapply step_left]. Qed.

Section someone_moves.
Context (s : pool) (Hlk : holdersOk s) (Hsh : shapeOk s) (Hct : countsOk s) (Hch : chansOk s).

(** The goroutine's own step. *)
Ltac own Hp := eapply (moves s _ _ CNone Hp); [done|done|]; unfold step; rewrite Hp; simpl.

Lemma handle_known t p h : threads s !! t = Some p -> h ∈ knows p -> exists hd, handles s !! h = Some hd.
Proof. intros Hp Hk. apply lookup_lt_is_Some, (shape_knows _ Hsh _ _ _ Hp Hk). Qed.

Lemma restart_lock_moves t : restartMu s = Some t -> progress s.
Proof. intros Hm. destruct (holder_restart _ Hlk _ Hm) as (p&Hp&Hh). destruct p; try done; own Hp; repeat case_match; eauto. Qed.
Lemma admission_lock_moves t : admissionMu s = Some t -> progress s.
Proof. intros Hm. destruct (holder_admission _ Hlk _ Hm) as (p&Hp&Hh). destruct p; try done; own Hp; repeat case_match; eauto. Qed.
Lemma pool_lock_moves t : poolMu s = Some t -> progress s.
Proof.
  intros Hm. destruct (holder_pool _ Hlk _ Hm) as (p&Hp&Hh).
  destruct p; try done; (destruct (handle_known _ _ h Hp) as [hd Hd]; [simpl; set_solver|]); own Hp; rewrite Hd; simpl; repeat case_match; eauto.
Qed.

Lemma guard_moves t p h : threads s !! t = Some p -> guardOf p = Some h -> progress s.
Proof.
  intros Hp Hg. destruct (poolMu s) eqn:Hm; [by eapply pool_lock_moves|].
  destruct (handle_known t p h Hp) as [hd Hd]; [destruct p; simplify_eq/=; set_solver|].
  destruct p; simplify_eq/=.
  all: try (own Hp; rewrite ?Hd; simpl; unfold acquire; rewrite ?Hm; repeat case_match; by eauto).
  eapply (moves s _ _ CStarted Hp); [done|done|]. unfold step. rewrite Hp. simpl. rewrite Hd. simpl. eauto.
Qed.

Lemma guarded_moves h hd : handles s !! h = Some hd -> restarting hd = true -> progress s.
Proof.
  intros Hh Hr. destruct (counts_handles _ Hct _ _ Hh) as (G&_). rewrite Hr in G. simpl in G.
  destruct (count_pick (guards h) (threads s)) as (t&p&Hp&Hg); [lia|]. by eapply guard_moves, isAt_some.
Qed.

Lemma restart_moves t p h o : threads s !! t = Some p -> restartOf p = Some (h, o) -> progress s.
Proof.
  intros Hp Hr. destruct (guardOf p) eqn:Hg; [by eapply guard_moves|]. destruct (poolMu s) eqn:Hm; [by eapply pool_lock_moves|].
  destruct (handle_known t p h Hp) as [hd Hd]; [destruct p; simplify_eq/=; set_solver|].
  destruct (restarting hd) eqn:Hs; [by eapply guarded_moves|].
  destruct p; simplify_eq/=; own Hp; rewrite ?Hd; simpl; rewrite ?Hm, ?Hs; repeat case_match; eauto.
Qed.

Lemma published_moves h c : published s h c -> progress s.
Proof.
  intros (hd&Hh&Hd). destruct (counts_handles _ Hct _ _ Hh) as (_&U&_). rewrite Hd in U. simpl in U.
  destruct (count_pick (publishes h) (threads s)) as (t&p&Hp&Hg); [lia|].
  eapply guard_moves; [done|]. by apply isAt_some, published_guarded.
Qed.

Lemma pending_moves h hd : handles s !! h = Some hd -> (0 < restartPending hd)%Z -> progress s.
Proof.
  intros Hh Hr. destruct (counts_handles _ Hct _ _ Hh) as (_&_&W).
  destruct (count_pick (pends h) (threads s)) as (t&p&Hp&Hg); [lia|]. apply isAt_some in Hg.
  destruct (restartOf p) as [[h' o]|] eqn:E; [by eapply restart_moves|]. by destruct p; simplify_eq/=.
Qed.

Lemma registered_moves : (restartWG s <> 0)%Z -> progress s.
Proof.
  intros Hw. pose proof (counts_wg _ Hct) as W. unfold wgOk in W.
  destruct (count_pick registered (threads s)) as (t&p&Hp&Hg); [lia|].
  destruct (restartOf p) as [[h' o]|] eqn:E; [by eapply restart_moves|].
  destruct p; simplify_eq/=; own Hp; eauto.
Qed.

Lemma live_moves : (logicalInFlight s <> 0)%Z -> progress s.
Proof.
  intros Hw. pose proof (counts_logical _ Hct) as W. unfold logicalOk in W.
  destruct (count_pick isLive (threads s)) as (t&p&Hp&Hg); [lia|]. destruct p; simplify_eq/=. own Hp. eauto.
Qed.

Lemma visible_moves h hd : handles s !! h = Some hd -> restartVisible hd = true -> progress s.
Proof.
  intros Hh Hv. unfold restartVisible in Hv. destruct (restarting hd) eqn:Hr; [by eapply guarded_moves|].
  destruct (restartDone hd) as [c|] eqn:Hd; [apply (published_moves h c); by exists hd|]. simpl in Hv. rewrite !orb_false_r in Hv.
  apply (pending_moves h hd Hh). lia.
Qed.

Definition ended (p : pc) : bool := match p with Finished | CloseFinished _ => true | _ => false end.

Lemma await_moves t p : threads s !! t = Some p -> match p with AwLoop _ _ | AwSelect _ _ | AwPoll _ | AwSpawn _ | AwDone _ => True | _ => False end ->
  progress s.
Proof.
  intros Hp Ha. destruct p; try done.
  - destruct (handle_known _ _ h Hp) as [hd Hd]; [simpl; set_solver|]. destruct (restartVisible hd) eqn:Hv; [by eapply visible_moves|].
    eapply (moves s _ _ CNone Hp); [simpl; rewrite Hd, Hv; by destruct sawPending|done|]. unfold step. rewrite Hp. simpl. rewrite Hd. simpl. eauto.
  - destruct (chan_select _ Hch _ _ _ Hp) as [Hc|Hc]; [|by eapply published_moves]. own Hp. rewrite bool_decide_true by done. simpl. eauto.
  - own Hp. eauto.
  - own Hp. case_match; eauto.
  - destruct (chan_done _ Hch _ _ Hp) as [Hc|(t'&q&Hq&Hw)]; [own Hp; rewrite bool_decide_true by done; simpl; eauto|].
    unfold awaitsOn in Hw. destruct (restartOf q) as [[h o]|] eqn:E; [|done]. by eapply restart_moves.
Qed.

Lemma unfinished_moves t p : threads s !! t = Some p -> ended p = false -> progress s.
Proof.
  intros Hp He. destruct (restartOf p) as [[h o]|] eqn:Hr; [by eapply restart_moves|].
  destruct (admissionMu s) eqn:Ha; [by eapply admission_lock_moves|]. destruct (restartMu s) eqn:Hl; [by eapply restart_lock_moves|].
  destruct (poolMu s) eqn:Hm; [by eapply pool_lock_moves|]. destruct (decide (restartWG s = 0)%Z) as [Hw|]; [|by apply registered_moves].
  destruct (decide (logicalInFlight s = 0)%Z) as [Hi|]; [|by apply live_moves].
  destruct p; simplify_eq/=; try (by eapply await_moves).
  all: try (destruct (handle_known _ _ h Hp) as [hd Hd]; [simpl; set_solver|]).
  all: try (own Hp; rewrite ?Hd; unfold acquire; simpl; rewrite ?Ha, ?Hl, ?Hm, ?Hw; repeat case_match; by eauto).
  - eapply (moves s _ _ (CProbe true) Hp); [done|done|]. unfold step. rewrite Hp. simpl. eauto.
  - eapply (moves s _ _ CNone Hp); [simpl; by rewrite Hi|done|]. unfold step. rewrite Hp. simpl. rewrite Hi. simpl. eauto.
Qed.
End someone_moves.

Lemma reachable_moves n s t p : reachable n s -> threads s !! t = Some p -> ended p = false -> progress s.
Proof.
  intros Hr. apply unfinished_moves; [by eapply holders_reachable|by eapply shape_reachable|by eapply counts_reachable|by eapply chans_reachable].
Qed.

(** ** Everything ends *)

(** A closed pool has a goroutine in [Close]. *)
Definition closedBy (s : pool) : Prop := closed s = true -> exists t p, threads s !! t = Some p /\ closing p = true.
Lemma closedBy_step t ch s s' : step t ch s = Some s' -> closedBy s -> closedBy s'.
Proof.
  intros H HC Hc. destruct (closed s) eqn:Ecl.
  - destruct (HC Ecl) as [t' Hi]. clear HC. exists t'. explode H; simpl in *; try congruence; try done; try apply holder_spawn;
      (eapply holder_goto; [eassumption| |done]); intros -> ?; done.
  - clear HC. explode H; simpl in *; try congruence. exists t. by eapply holder_here.
Qed.
Lemma closedBy_reachable n s : reachable n s -> closedBy s.
Proof.
  induction 1 as [|s p Hr IH Hs|s t ch s' Hr IH Hs]; [done| |by eapply closedBy_step].
  intros Hc. destruct (IH Hc) as (t&q&Hq&Hcl). exists t, q. split; [by apply lookup_app_l_Some|done].
Qed.

Lemma closed_run sched s : closed s = true -> closed (run sched s) = true.
Proof.
  revert s. induction sched as [|[t ch] sched IH]; intros s Hc; simpl; [done|]. apply IH.
  destruct (step t ch s) eqn:E; simpl; [by eapply closed_step|done].
Qed.

Lemma settled_dead n s : reachable n s -> closed s = true -> (forall t p, threads s !! t = Some p -> ended p = true) ->
  forall a hd, handles s !! a = Some hd -> killed hd = true.
Proof.
  intros Hr Hc He a hd Ha. destruct (killed hd) eqn:Hk; [done|]. destruct (closedBy_reachable _ _ Hr Hc) as (t&p&Hp&Hcl).
  assert (toKill p = Some []) by (specialize (He _ _ Hp); by destruct p).
  destruct (live_reachable _ _ Hr) as [_ HL]. destruct (HL _ _ Ha Hk) as [[i Hi]|(t'&q&Hq&Hh)].
  - destruct (close_kills _ (close_reachable _ _ Hr) _ _ _ _ _ Hp H Hi) as [Hn|(x&Hx&Hxk)]; [by apply not_elem_of_nil in Hn|congruence].
  - specialize (He _ _ Hq). by destruct q.
Qed.

Lemma ended_or_progress n s : reachable n s -> (forall t p, threads s !! t = Some p -> ended p = true) \/ progress s.
Proof.
  intros Hr. destruct (decide (Exists (fun p => ended p = false) (threads s))) as [Hx|Hx].
  - right. apply Exists_exists in Hx as (p&Hp&He). apply list_elem_of_lookup_1 in Hp as [t Ht]. by eapply reachable_moves.
  - left. intros t p Hp. apply not_false_is_true. intros He. apply Hx, Exists_exists. exists p. split; [by eapply list_elem_of_lookup_2|done].
Qed.

Lemma can_settle n k s : reachable n s -> left_ s = k ->
  exists sched, Forall (fun x : nat * choice => x.2 <> CCancel) sched /\ (length sched <= k)%nat
    /\ (forall t p, threads (run sched s) !! t = Some p -> ended p = true).
Proof.
  revert s. induction k as [k IH] using lt_wf_ind. intros s Hr <-.
  destruct (ended_or_progress _ _ Hr) as [He|(t&ch&s'&Hst&Hc&Hlt)].
  - exists []. split_and!; [constructor|simpl; lia|done].
  - destruct (IH (left_ s') Hlt s') as (sched&HF&Hlen&Hend); [by eapply reach_step|done|].
    exists ((t, ch) :: sched). simpl. rewrite Hst. simpl. split_and!; [by constructor|lia|done].
Qed.

(** C6. No wait of the pool is in vain: from every state, and without any context
    being cancelled, the goroutines there are can all run to their end, within a number
    of steps fixed by where they stand; and if the pool is closed every worker that
    was ever started is then dead. *)
Theorem pool_settles n s : reachable n s ->
  exists sched, Forall (fun x : nat * choice => x.2 <> CCancel) sched /\ (length sched <= left_ s)%nat
    /\ (forall t p, threads (run sched s) !! t = Some p -> ended p = true)
    /\ (closed s = true -> forall a hd, handles (run sched s) !! a = Some hd -> killed hd = true).
Proof.
  intros Hr. destruct (can_settle _ _ _ Hr eq_refl) as (sched&HF&Hl&He). exists sched. split_and!; [done|done|done|].
  intros Hc. eapply settled_dead; [by apply run_reachable|by apply closed_run|done].
Qed.
Lemma pool_settles_witness :
  reachable 1 outliving /\ left_ outliving = 13%nat
  /\ exists sched, Forall (fun x : nat * choice => x.2 <> CCancel) sched /\ (length sched <= left_ outliving)%nat
    /\ (forall t p, threads (run sched outliving) !! t = Some p -> ended p = true)
    /\ (closed outliving = true -> forall a hd, handles (run sched outliving) !! a = Some hd -> killed hd = true).
Proof.
  assert (Hr : reachable 1 outliving) by (apply run_reachable, calls_reachable; [constructor|reflexivity]).
  split; [exact Hr|]. split; [vm_compute; reflexivity|]. apply (pool_settles 1 outliving Hr).
Defined.
