(* ===== verification/PoolSelect.v ===== *)
(** * PoolSelect: requests on workers ([pool/pool.go])

    Selection of a worker for a request, tracking of the requests in flight on a
    worker, hung-request detection, one round of the wait for any restart, and the
    status reports. *)

From S2P Require Import Prelude PoolLifecycle.
Open Scope stdpp_scope.

(** ** Selection *)

Inductive poolError := PoolClosed | PoolDraining | NoHealthyWorkers.

Definition handleAt (s : pool) (i : nat) : option workerHandle := workers s !! i ≫= fun a => handles s !! a.

(** The loop of [getWorkerAccepted], from its [i]-th turn; uint64 arithmetic. *)
Fixpoint selectLoop (s : pool) (start : Z) (i turns : nat) : option nat :=
  match turns with
  | O => None
  | S turns =>
      let n := Z.of_nat (length (workers s)) in
      let idx := Z.to_nat (((start + Z.of_nat i) mod 2 ^ 64) mod n) in
      match handleAt s idx with
      | Some hd => if healthy hd then workers s !! idx else selectLoop s start (S i) turns
      | None => selectLoop s start (S i) turns
      end
  end.

(** [getWorkerAccepted]; pools have at least one slot. *)
Definition getWorkerAccepted (s : pool) : pool * (nat + poolError) :=
  if closed s then (s, inr PoolClosed)
  else
    let next' := ((next s + 1) mod 2 ^ 64)%Z in
    let s' := set_next next' s in
    match selectLoop s' (next' mod Z.of_nat (length (workers s))) 0 (length (workers s)) with
    | Some h => (s', inl h)
    | None => (s', inr NoHealthyWorkers)
    end.

Definition getWorker (s : pool) : pool * (nat + poolError) :=
  if draining s then (s, inr PoolDraining) else getWorkerAccepted s.

(** [hasUnhealthyWorkers]. *)
Definition hasUnhealthyWorkers (s : pool) : bool :=
  existsb (fun a => match handles s !! a with Some hd => negb (healthy hd) | None => false end) (workers s).

Definition healthySlot (s : pool) (i : nat) : bool := match handleAt s i with Some hd => healthy hd | None => false end.

(** The slot of the [k]-th turn. *)
Definition turnSlot (n : nat) (start : Z) (k : nat) : nat := Z.to_nat ((start + Z.of_nat k) mod Z.of_nat n).

Lemma selectLoop_exact s start i turns : (0 < Z.of_nat (length (workers s)) < 2 ^ 62)%Z -> (0 <= start < Z.of_nat (length (workers s)))%Z -> (i + turns <= length (workers s))%nat ->
  match selectLoop s start i turns with
  | Some a => exists k, (i <= k < i + turns)%nat /\ workers s !! turnSlot (length (workers s)) start k = Some a
      /\ healthySlot s (turnSlot (length (workers s)) start k) = true
      /\ forall j, (i <= j < k)%nat -> healthySlot s (turnSlot (length (workers s)) start j) = false
  | None => forall j, (i <= j < i + turns)%nat -> healthySlot s (turnSlot (length (workers s)) start j) = false
  end.
Proof.
  intros Hn Hs. revert i. induction turns as [|turns IH]; intros i Hi; simpl; [lia|].
  assert (Hm : ((start + Z.of_nat i) mod 2 ^ 64 = start + Z.of_nat i)%Z) by (apply Z.mod_small; lia). rewrite Hm.
  change (Z.to_nat ((start + Z.of_nat i) mod Z.of_nat (length (workers s)))) with (turnSlot (length (workers s)) start i).
  destruct (healthySlot s (turnSlot (length (workers s)) start i)) eqn:Hh; unfold healthySlot in Hh.
  - destruct (handleAt s _) as [hd|] eqn:Ha; [|done]. rewrite Hh. unfold handleAt in Ha.
    destruct (workers s !! turnSlot _ start i) as [a|] eqn:Hw; [|done]. exists i. unfold healthySlot, handleAt. rewrite Hw. simpl in *.
    rewrite Ha. split_and!; [lia|lia|done|done|lia].
  - assert (E : match handleAt s (turnSlot (length (workers s)) start i) with
                | Some hd => if healthy hd then workers s !! turnSlot (length (workers s)) start i else selectLoop s start (S i) turns
                | None => selectLoop s start (S i) turns end = selectLoop s start (S i) turns).
    { destruct (handleAt s _); [by rewrite Hh|done]. }
    rewrite E. specialize (IH (S i) ltac:(lia)).
    assert (H0 : forall j, (i <= j < S i)%nat -> healthySlot s (turnSlot (length (workers s)) start j) = false).
    { intros j Hj. replace j with i by lia. unfold healthySlot. destruct (handleAt s _); done. }
    destruct (selectLoop s start (S i) turns) as [a|].
    + destruct IH as (k&Hk&Hw&Hg&Hb). exists k. split_and!; [lia|lia|done|done|]. intros j Hj.
      destruct (decide (j = i)) as [->|]; [apply H0; lia|apply Hb; lia].
    + intros j Hj. destruct (decide (j = i)) as [->|]; [apply H0; lia|apply IH; lia].
Qed.

(** Every slot has its turn. *)
Lemma turnSlot_covers n start i : (0 <= start < Z.of_nat n)%Z -> (i < n)%nat -> exists k, (k < n)%nat /\ turnSlot n start k = i.
Proof.
  intros Hs Hi. unfold turnSlot. destruct (Z.le_gt_cases start (Z.of_nat i)) as [Hle|Hgt].
  - exists (Z.to_nat (Z.of_nat i - start)). split; [lia|]. rewrite Z2Nat.id by lia. rewrite Z.mod_small; lia.
  - exists (Z.to_nat (Z.of_nat i - start + Z.of_nat n)). split; [lia|]. rewrite Z2Nat.id by lia.
    replace (start + _)%Z with (Z.of_nat i + 1 * Z.of_nat n)%Z by lia. rewrite Z_mod_plus_full, Z.mod_small; lia.
Qed.

(** What an admitted request gets of an open pool: the first healthy worker in cyclic
    order after the counter, or an error exactly when no slot is healthy. *)
Lemma select_exact s : (0 < Z.of_nat (length (workers s)) < 2 ^ 62)%Z -> closed s = false ->
  let n := length (workers s) in
  let start := (((next s + 1) mod 2 ^ 64) mod Z.of_nat n)%Z in
  match (getWorkerAccepted s).2 with
  | inl a => exists k, (k < n)%nat /\ workers s !! turnSlot n start k = Some a /\ healthySlot s (turnSlot n start k) = true
      /\ forall j, (j < k)%nat -> healthySlot s (turnSlot n start j) = false
  | inr e => e = NoHealthyWorkers /\ forall i, (i < n)%nat -> healthySlot s i = false
  end.
Proof.
  intros Hn Hc n start. unfold getWorkerAccepted. rewrite Hc. set (s' := set_next _ s).
  assert (Hs : (0 <= start < Z.of_nat n)%Z) by (apply Z.mod_pos_bound; unfold n; lia).
  pose proof (selectLoop_exact s' start 0 n Hn Hs (Nat.le_refl _)) as H. fold n. change (length (workers s')) with n in H.
  change (healthySlot s') with (healthySlot s) in H. change (workers s') with (workers s) in H.
  change (((next s + 1) mod 2 ^ 64) mod Z.of_nat n)%Z with start. destruct (selectLoop s' start 0 n) as [a|]; simpl.
  - destruct H as (k&Hk&Hw&Hh&Hb). exists k. split_and!; [lia|done|done|]. intros j Hj. apply Hb. lia.
  - split; [done|]. intros i Hi. destruct (turnSlot_covers n start i Hs Hi) as (k&Hk&<-). apply H. lia.
Qed.

(** Repeated selection. *)
Fixpoint selections (m : nat) (s : pool) : list (nat + poolError) :=
  match m with O => [] | S m => let '(s', r) := getWorkerAccepted s in r :: selections m s' end.

(** Rotation: while every slot is healthy and the counter does not wrap, selections go
    through the slots in order. *)
Theorem selection_rotates m s : (0 < Z.of_nat (length (workers s)) < 2 ^ 62)%Z -> closed s = false ->
  (0 <= next s)%Z -> (next s + Z.of_nat m < 2 ^ 64)%Z -> (forall i, (i < length (workers s))%nat -> healthySlot s i = true) ->
  forall j, (j < m)%nat -> exists a, selections m s !! j = Some (inl a)
    /\ workers s !! Z.to_nat ((next s + 1 + Z.of_nat j) mod Z.of_nat (length (workers s))) = Some a.
Proof.
  revert s. induction m as [|m IH]; intros s Hn Hc H0 Hm Hh j Hj; [lia|]. simpl.
  pose proof (select_exact s Hn Hc) as Hs. destruct (getWorkerAccepted s) as [s' r] eqn:E. simpl in *.
  assert (Hw : ((next s + 1) mod 2 ^ 64 = next s + 1)%Z) by (apply Z.mod_small; lia).
  destruct j as [|j]; simpl.
  - assert (Hsl : (turnSlot (length (workers s)) (((next s + 1) mod 2 ^ 64) mod Z.of_nat (length (workers s))) 0 < length (workers s))%nat).
    { unfold turnSlot. pose proof (Z.mod_pos_bound (((next s + 1) mod 2 ^ 64) mod Z.of_nat (length (workers s)) + Z.of_nat 0) (Z.of_nat (length (workers s)))). lia. }
    destruct r as [a|e].
    + destruct Hs as (k&Hk&Ha&_&Hb). exists a. split; [done|]. destruct k as [|k].
      * rewrite <- Ha. f_equal. unfold turnSlot. rewrite Hw. f_equal. simpl. rewrite !Z.add_0_r, Z.mod_mod by lia. done.
      * specialize (Hb 0%nat ltac:(lia)). rewrite Hh in Hb by done. done.
    + destruct Hs as [_ Hs]. specialize (Hs _ Hsl). rewrite Hh in Hs by done. done.
  - assert (Hs' : s' = set_next (next s + 1) s).
    { unfold getWorkerAccepted in E. rewrite Hc, Hw in E. destruct (selectLoop _ _ _ _); by injection E as <- _. }
    subst s'. destruct (IH (set_next (next s + 1) s) Hn Hc ltac:(simpl; lia) ltac:(simpl; lia) Hh j ltac:(lia)) as (a&Ha&Hb).
    exists a. split; [done|]. rewrite <- Hb. simpl. do 3 f_equal. lia.
Qed.

(** ** Requests in flight on a worker *)

Definition setInFlight (m : gmap Z inFlightRequest) (h : workerHandle) : workerHandle :=
  mkHandle (h_id h) (healthy h) (restartPending h) (restarting h) (restartDone h) (killed h) m.

(** [trackRequest]: the new value of [requestID], which names the request, and the
    handle; [cleanup] removes the entry. *)
Definition trackRequest (requestID now : Z) (h : workerHandle) : Z * workerHandle :=
  let reqID := ((requestID + 1) mod 2 ^ 64)%Z in (reqID, setInFlight (<[reqID := mkRequest now false false]> (inFlightReq h)) h).
Definition cleanup (reqID : Z) (h : workerHandle) : workerHandle := setInFlight (delete reqID (inFlightReq h)) h.

(** [totalInFlight], over the workers of the slots. *)
Definition totalInFlight (s : pool) : nat :=
  list_sum ((fun a => match handles s !! a with Some hd => size (inFlightReq hd) | None => 0%nat end) <$> workers s).

Lemma track_cleanup requestID now h : inFlightReq h !! ((requestID + 1) mod 2 ^ 64)%Z = None ->
  let '(id, h') := trackRequest requestID now h in
  size (inFlightReq h') = S (size (inFlightReq h)) /\ cleanup id h' = h.
Proof.
  intros Hn. unfold trackRequest, cleanup. simpl. split; [by apply map_size_insert_None|].
  rewrite delete_insert_id by done. by destruct h.
Qed.

(** ** Hung requests *)

(** Times and durations in nanoseconds, within the range of a Duration. *)
Definition waitsTooLong (now timeout : Z) (r : inFlightRequest) : bool := negb (gotFirstByte r) && (timeout <? now - startedAt r)%Z.

(** [firstHungRequestSnapshot]; [order] is the order in which Go goes through the map. *)
Fixpoint firstHungRequestSnapshot (order : list Z) (now timeout : Z) (h : workerHandle) : option (Z * Z) :=
  match order with
  | [] => None
  | id :: order =>
      match inFlightReq h !! id with
      | Some r => if waitsTooLong now timeout r then Some (id, startedAt r) else firstHungRequestSnapshot order now timeout h
      | None => firstHungRequestSnapshot order now timeout h
      end
  end.

(** [isHungRequestStillHung]. *)
Definition isHungRequestStillHung (snapshot : Z * Z) (now timeout : Z) (h : workerHandle) : bool :=
  match inFlightReq h !! snapshot.1 with
  | Some r => (startedAt r =? snapshot.2)%Z && waitsTooLong now timeout r
  | None => false
  end.

(** [checkHungRequests] on one worker: [h] when the snapshot is taken at [now], [h']
    when it is confirmed at [confirmNow]; the answer is whether the worker is killed. *)
Definition checkHungRequest (order : list Z) (now confirmNow timeout : Z) (h h' : workerHandle) : bool :=
  match firstHungRequestSnapshot order now timeout h with
  | Some snapshot => isHungRequestStillHung snapshot confirmNow timeout h'
  | None => false
  end.

Lemma firstHung_some order now timeout h id t0 : firstHungRequestSnapshot order now timeout h = Some (id, t0) ->
  exists r, inFlightReq h !! id = Some r /\ startedAt r = t0 /\ waitsTooLong now timeout r = true.
Proof.
  induction order as [|i order IH]; simpl; [done|]. destruct (inFlightReq h !! i) as [r|] eqn:E; [|done].
  destruct (waitsTooLong now timeout r) eqn:W; [|done]. intros [= <- <-]. eauto.
Qed.
Lemma firstHung_none order now timeout h id r : firstHungRequestSnapshot order now timeout h = None -> id ∈ order ->
  inFlightReq h !! id = Some r -> waitsTooLong now timeout r = false.
Proof.
  induction order as [|i order IH]; simpl; [by intros _ []%not_elem_of_nil|]. intros H [->|Hi]%elem_of_cons Hr.
  - rewrite Hr in H. by destruct (waitsTooLong now timeout r).
  - apply IH; [|done|done]. destruct (inFlightReq h !! i) as [r'|]; [|done]. by destruct (waitsTooLong now timeout r').
Qed.

(** A worker is killed only for a request that has waited longer than the timeout for
    its first byte, at the snapshot and still at the confirmation. *)
Theorem hung_kill_sound order now confirmNow timeout h h' : checkHungRequest order now confirmNow timeout h h' = true ->
  exists id r r', inFlightReq h !! id = Some r /\ inFlightReq h' !! id = Some r' /\ startedAt r' = startedAt r
    /\ waitsTooLong now timeout r = true /\ waitsTooLong confirmNow timeout r' = true.
Proof.
  unfold checkHungRequest. destruct (firstHungRequestSnapshot order now timeout h) as [[id t0]|] eqn:E; [|done].
  destruct (firstHung_some _ _ _ _ _ _ E) as (r&Hr&<-&Hw). unfold isHungRequestStillHung. simpl.
  destruct (inFlightReq h' !! id) as [r'|] eqn:Hr'; [|done]. intros [Hs Hw']%andb_true_iff. apply Z.eqb_eq in Hs. eauto 10.
Qed.

(** Whatever the order of the map, a worker with a hung request is killed if it does
    not move in between. *)
Theorem hung_kill_complete order now confirmNow timeout h id r : (now <= confirmNow)%Z -> id ∈ order -> inFlightReq h !! id = Some r ->
  waitsTooLong now timeout r = true -> checkHungRequest order now confirmNow timeout h h = true.
Proof.
  intros Hle Hi Hr Hw. unfold checkHungRequest. destruct (firstHungRequestSnapshot order now timeout h) as [[id' t0]|] eqn:E.
  - destruct (firstHung_some _ _ _ _ _ _ E) as (r'&Hr'&<-&Hw'). unfold isHungRequestStillHung. simpl. rewrite Hr', Z.eqb_refl. simpl.
    unfold waitsTooLong in *. apply andb_true_iff in Hw' as [-> Hw']. simpl. apply Z.ltb_lt. apply Z.ltb_lt in Hw'. lia.
  - by rewrite (firstHung_none _ _ _ _ _ _ E Hi Hr) in Hw.
Qed.
