(* ===== verification/ConstraintNumeric.v ===== *)
(** * ConstraintNumeric: the closed numeric sublanguage of constraint expressions
    ([internal/debaml/constraint_profile.go])

    A constraint with arithmetic is evaluated natively only when the whole of it
    parses in this sublanguage and no integer in it can reach 2^53, where the native
    engine's binary64 arithmetic stops being exact.  The parser bounds magnitudes while
    it parses; here it is written over its actions, so that the expression it reads can
    be named: the code's actions are [numericActions], those of the reference build the
    expression. *)

From Stdlib Require Import Ascii String.
From S2P Require Import Prelude GoStrings GoValue GoFloat Jsonish NumberText.
Open Scope stdpp_scope.

(** ** Bytes and tokens *)

Definition isSpaceByte (b : ascii) : bool :=
  (b =c " ") || (b =c "009") || (b =c "010") || (b =c "013") || (b =c "012") || (b =c "011").
Definition isLetterByte (b : ascii) : bool :=
  ((97 <=? code b)%Z && (code b <=? 122)%Z) || ((65 <=? code b)%Z && (code b <=? 90)%Z).
Definition isIdentByte (b : ascii) : bool := (b =c "_") || isDigit b || isLetterByte b.
Definition isNumericTokenByte (b : ascii) : bool := (b =c "_") || (b =c ".") || isDigit b || isLetterByte b.

Fixpoint skipSpace (s : string) : string :=
  match s with String c r => if isSpaceByte c then skipSpace r else s | EmptyString => s end.

Definition maxSmallDigits : nat := 15.

(** The loop of [isProvablySmallNumber]: digits before and after the dot so far. *)
Fixpoint smallNumber (run : string) (dot : bool) (digits fracDigits : nat) : bool :=
  match run with
  | EmptyString => (0 <? digits)%nat && (negb dot || (0 <? fracDigits)%nat)
  | String c r =>
      if isDigit c then
        if dot then (if (maxSmallDigits <? S fracDigits)%nat then false else smallNumber r dot digits (S fracDigits))
        else (if (maxSmallDigits <? S digits)%nat then false else smallNumber r dot (S digits) fracDigits)
      else if c =c "." then
        if dot || (digits =? 0)%nat || (r =s "") then false else smallNumber r true digits fracDigits
      else false
  end.
Definition isProvablySmallNumber (run : string) : bool := smallNumber run false 0 0.

(** ** Saturating magnitudes *)

Local Open Scope Z_scope.

Definition maxExactInt : Z := 2 ^ 53.
Definition MaxUint64 : Z := 2 ^ 64 - 1.
Definition powExponentLimit : Z := 2 ^ 32.

Definition satAdd (a b : Z) : Z := if u64 (maxExactInt - b) <? a then maxExactInt else u64 (a + b).
Definition satMul (a b : Z) : Z :=
  if (a =? 0) || (b =? 0) then 0 else if maxExactInt / b <? a then maxExactInt else u64 (a * b).

(** The loop of [satPow], over the bits of the exponent. *)
Fixpoint satPowLoop (exp : positive) (base result : Z) : Z :=
  let odd := match exp with xO _ => false | _ => true end in
  let result := if odd then satMul result base else result in
  if odd && (maxExactInt <=? result) then maxExactInt
  else
    match exp with
    | xH => result
    | xO p | xI p => let base := satMul base base in if maxExactInt <=? base then maxExactInt else satPowLoop p base result
    end.
Definition satPow (base exp : Z) : Z :=
  if base =? 0 then (if exp =? 0 then 1 else 0)
  else if base =? 1 then 1
  else if 64 <=? exp then maxExactInt
  else match exp with Zpos p => satPowLoop p base 1 | _ => 1 end.

(** ** The abstract value of a node *)

Record numeric := mkNumeric {
  engineInt : bool; isBool : bool; neg : bool; mag : Z;
  nonNegLiteral : bool; nonNegFloatLiteral : bool; integralFloatLiteral : bool; saturated : bool
}.

Definition floatNumeric (sat : bool) : numeric := mkNumeric false false false 0 false false false sat.
Definition intNumeric (m : Z) (sat : bool) : numeric := mkNumeric true false false m false false false sat.
Definition boolNumeric (sat : bool) : numeric := mkNumeric false true false 0 false false false sat.

Definition combineNumeric (a b : numeric) (m : Z -> Z -> Z) : numeric :=
  if isBool a || isBool b then floatNumeric true
  else if negb (engineInt a) || negb (engineInt b) then floatNumeric (saturated a || saturated b)
  else let m := m (mag a) (mag b) in intNumeric m (saturated a || saturated b || (maxExactInt <=? m)).

(** ** Actions *)

(** What the parser does at each production; [None] refuses.  The flag of [floorOp] is
    set for the remainder. *)
Record actions (T : Type) := mkActions {
  literal : string -> option T;
  negate : T -> T;
  addOp : bool -> T -> T -> T;
  mulOp : T -> T -> T;
  floorOp : bool -> T -> T -> option T;
  divOp : T -> T -> option T;
  powOp : T -> T -> option T;
  cmpOp : string -> T -> T -> T
}.
Arguments literal {T}. Arguments negate {T}. Arguments addOp {T}. Arguments mulOp {T}. Arguments floorOp {T}.
Arguments divOp {T}. Arguments powOp {T}. Arguments cmpOp {T}.

Definition hasDot (run : string) : bool := ContainsByte "." run.

(** A float literal: the payload is what [ParseFloat] gives. *)
Definition floatLiteral (run : string) : option numeric :=
  match parseF64Rust run with
  | Some f =>
      if float_notfinite f then None
      else
        let m := match float_integer f with
                 | Some z => if maxExactInt <=? Z.abs z then MaxUint64 else Z.abs z
                 | None => let c := Z.abs (ftrunc f) + 1 in if maxExactInt <? c then MaxUint64 else c
                 end in
        Some (mkNumeric false false false m false true (bool_decide (is_Some (float_integer f))) false)
  | None => None
  end.

Fixpoint literalMag (run : string) (m : Z) : Z :=
  match run with EmptyString => m | String c r => literalMag r (satAdd (satMul m 10) (code c - 48)) end.

Definition parseLiteral (run : string) : option numeric :=
  if negb (isProvablySmallNumber run) then None
  else if hasDot run then floatLiteral run
  else let m := literalMag run 0 in Some (mkNumeric true false false m true false false (maxExactInt <=? m)).

Definition negateNumeric (n : numeric) : numeric :=
  mkNumeric (engineInt n) (isBool n) (negb (neg n)) (mag n) false false (integralFloatLiteral n) (saturated n).

Definition floorNumeric (a b : numeric) : option numeric :=
  if negb (nonNegLiteral a) || negb (nonNegLiteral b) then None else Some (combineNumeric a b (fun x _ => x)).

Definition divNumeric (a b : numeric) : option numeric :=
  if isBool a || isBool b then None else Some (floatNumeric (saturated a || saturated b)).

Definition powNumeric (base exp : numeric) : option numeric :=
  if isBool base || isBool exp then None
  else if negb (nonNegLiteral exp) || (powExponentLimit <=? mag exp) then None
  else
    let m := satPow (mag base) (mag exp) in
    let promoted := intNumeric m (saturated base || saturated exp || (maxExactInt <=? m)) in
    if negb (engineInt base) then
      if negb (nonNegFloatLiteral base) then None
      else if negb (integralFloatLiteral base) then Some (floatNumeric (saturated base || saturated exp))
      else Some promoted
    else Some promoted.

Definition numericActions : actions numeric := {|
  literal := parseLiteral;
  negate := negateNumeric;
  addOp _ a b := combineNumeric a b satAdd;
  mulOp a b := combineNumeric a b satMul;
  floorOp _ := floorNumeric;
  divOp := divNumeric;
  powOp := powNumeric;
  cmpOp _ a b := boolNumeric (saturated a || saturated b)
|}.

(** ** The parser *)

(** Out of fuel, refused, or parsed with the text that is left. *)
Inductive res (T : Type) := Fuel | Refuse | Done (x : T) (rest : string).
Arguments Fuel {T}. Arguments Refuse {T}. Arguments Done {T}.

Definition accept (tok s : string) : option string := CutPrefix tok (skipSpace s).
Definition acceptMul (s : string) : option string :=
  if HasPrefix (skipSpace s) "**" then None else CutPrefix "*" (skipSpace s).

Fixpoint acceptAny (toks : list string) (s : string) : option (string * string) :=
  match toks with
  | [] => None
  | tok :: toks => match accept tok s with Some r => Some (tok, r) | None => acceptAny toks s end
  end.
Arguments acceptAny : simpl never.
Arguments accept : simpl never.
Definition comparisons : list string := ["=="; "!="; "<="; ">="; "<"; ">"].

Definition runOf (s : string) : string * string := span isNumericTokenByte s.

Section parser.
Context {T : Type} (A : actions T).

Fixpoint parseCmp (fuel : nat) (s : string) {struct fuel} : res T :=
  match fuel with
  | O => Fuel
  | S fuel => match parseAdd fuel s with Done l r => cmpLoop fuel l r | x => x end
  end
with cmpLoop (fuel : nat) (l : T) (s : string) {struct fuel} : res T :=
  match fuel with
  | O => Fuel
  | S fuel =>
      match acceptAny comparisons s with
      | Some (op, r) => match parseAdd fuel r with Done x r => cmpLoop fuel (cmpOp A op l x) r | y => y end
      | None => Done l (skipSpace s)
      end
  end
with parseAdd (fuel : nat) (s : string) {struct fuel} : res T :=
  match fuel with
  | O => Fuel
  | S fuel => match parseMul fuel s with Done l r => addLoop fuel l r | x => x end
  end
with addLoop (fuel : nat) (l : T) (s : string) {struct fuel} : res T :=
  match fuel with
  | O => Fuel
  | S fuel =>
      match accept "+" s with
      | Some r => match parseMul fuel r with Done x r => addLoop fuel (addOp A false l x) r | y => y end
      | None =>
          match accept "-" s with
          | Some r => match parseMul fuel r with Done x r => addLoop fuel (addOp A true l x) r | y => y end
          | None => Done l (skipSpace s)
          end
      end
  end
with parseMul (fuel : nat) (s : string) {struct fuel} : res T :=
  match fuel with
  | O => Fuel
  | S fuel => match parsePow fuel s with Done l r => mulLoop fuel l r | x => x end
  end
with mulLoop (fuel : nat) (l : T) (s : string) {struct fuel} : res T :=
  match fuel with
  | O => Fuel
  | S fuel =>
      match acceptMul s with
      | Some r => match parsePow fuel r with Done x r => mulLoop fuel (mulOp A l x) r | y => y end
      | None =>
          match acceptAny ["//"; "%"] s with
          | Some (op, r) =>
              match parsePow fuel r with
              | Done x r => match floorOp A (op =s "%") l x with Some l => mulLoop fuel l r | None => Refuse end
              | y => y
              end
          | None =>
              match accept "/" s with
              | Some r =>
                  match parsePow fuel r with
                  | Done x r => match divOp A l x with Some l => mulLoop fuel l r | None => Refuse end
                  | y => y
                  end
              | None => Done l (skipSpace s)
              end
          end
      end
  end
with parsePow (fuel : nat) (s : string) {struct fuel} : res T :=
  match fuel with
  | O => Fuel
  | S fuel =>
      match parseUnary fuel s with
      | Done base r =>
          match accept "**" r with
          | Some r =>
              match parsePow fuel r with
              | Done exp r => match powOp A base exp with Some x => Done x r | None => Refuse end
              | y => y
              end
          | None => Done base (skipSpace r)
          end
      | y => y
      end
  end
with parseUnary (fuel : nat) (s : string) {struct fuel} : res T :=
  match fuel with
  | O => Fuel
  | S fuel =>
      match accept "-" s with
      | Some r => match parseUnary fuel r with Done x r => Done (negate A x) r | y => y end
      | None =>
          match accept "+" s with
          | Some r => parseUnary fuel r
          | None => parsePrimary fuel s
          end
      end
  end
with parsePrimary (fuel : nat) (s : string) {struct fuel} : res T :=
  match fuel with
  | O => Fuel
  | S fuel =>
      match accept "(" s with
      | Some r =>
          match parseCmp fuel r with
          | Done x r => match accept ")" r with Some r => Done x r | None => Refuse end
          | y => y
          end
      | None =>
          let '(run, r) := runOf (skipSpace s) in
          if run =s "" then Refuse
          else match literal A run with Some x => Done x r | None => Refuse end
      end
  end.

(** The whole text, with enough fuel. *)
Definition parseWhole (s : string) : option T :=
  match parseCmp (7 * String.length s + 7) s with
  | Done x r => if skipSpace r =s "" then Some x else None
  | _ => None
  end.
End parser.

Definition parseNumeric (expr : string) : option numeric := parseWhole numericActions expr.

Example numeric_ok : saturated <$> parseNumeric "2 ** (10) == 1024" = Some false.
Proof. vm_compute. reflexivity. Qed.
Example numeric_promoted : saturated <$> parseNumeric "(562949953421312.000000000000001 ** 1) * 16384 > 0.0" = Some true.
Proof. vm_compute. reflexivity. Qed.
Example numeric_refuses : parseNumeric "2 ** (0 - 1)" = None /\ parseNumeric "1_000" = None /\ parseNumeric "-1 % 2" = None.
Proof. vm_compute. auto. Qed.

(** ** Fuel *)

Lemma skipSpace_length s : (String.length (skipSpace s) <= String.length s)%nat.
Proof. induction s as [|c s IH]; simpl; [lia|]. destruct (isSpaceByte c); simpl; lia. Qed.
Lemma accept_length tok s r : accept tok s = Some r -> (String.length tok + String.length r <= String.length s)%nat.
Proof. intros H%CutPrefix_length. pose proof (skipSpace_length s). lia. Qed.
Lemma acceptAny_length toks s op r : Forall (fun t => t <> ""%string) toks -> acceptAny toks s = Some (op, r) -> (String.length r < String.length s)%nat.
Proof.
  induction 1 as [|tok toks Ht _ IH]; [done|]. unfold acceptAny; fold acceptAny.
  destruct (accept tok s) as [r'|] eqn:E; [|done]. intros [= <- <-]. apply accept_length in E. destruct tok; [done|]. simpl in E. lia.
Qed.
Lemma runOf_length p s : String.length s = (String.length (span p s).1 + String.length (span p s).2)%nat.
Proof.
  induction s as [|c s IH]; simpl; [done|]. destruct (p c); [|done]. destruct (span p s) as [a b]; simpl in *. lia.
Qed.

Section fuel.
Context {T : Type} (A : actions T).

Definition shrinks (x : res T) (s : string) (strict : bool) : Prop :=
  match x with Fuel => False | Refuse => True | Done _ r => (String.length r + Nat.b2n strict <= String.length s)%nat end.

(** Solve the next call with its hypothesis, on a shorter text. *)
Local Ltac call IH f := match goal with
  | |- context [f ?fuel ?r] => let H := fresh in assert (H := IH r ltac:(lia)); destruct (f fuel r); simpl in H; [done|done|]
  end.

Lemma parse_fuel fuel :
  (forall s, (7 * String.length s + 7 <= fuel)%nat -> shrinks (parseCmp A fuel s) s true)
  /\ (forall l s, (7 * String.length s + 1 <= fuel)%nat -> shrinks (cmpLoop A fuel l s) s false)
  /\ (forall s, (7 * String.length s + 6 <= fuel)%nat -> shrinks (parseAdd A fuel s) s true)
  /\ (forall l s, (7 * String.length s + 1 <= fuel)%nat -> shrinks (addLoop A fuel l s) s false)
  /\ (forall s, (7 * String.length s + 5 <= fuel)%nat -> shrinks (parseMul A fuel s) s true)
  /\ (forall l s, (7 * String.length s + 1 <= fuel)%nat -> shrinks (mulLoop A fuel l s) s false)
  /\ (forall s, (7 * String.length s + 4 <= fuel)%nat -> shrinks (parsePow A fuel s) s true)
  /\ (forall s, (7 * String.length s + 3 <= fuel)%nat -> shrinks (parseUnary A fuel s) s true)
  /\ (forall s, (7 * String.length s + 2 <= fuel)%nat -> shrinks (parsePrimary A fuel s) s true).
Proof.
  induction fuel as [|fuel (IC&ICL&IA&IAL&IM&IML&IP&IU&IR)]; [split_and!; intros; lia|].
  assert (Hcmp : Forall (fun t => t <> ""%string) comparisons) by (repeat constructor; done).
  assert (Hfl : Forall (fun t => t <> ""%string) ["//"; "%"]%string) by (repeat constructor; done).
  assert (Hend : forall (l : T) s, shrinks (Done l (skipSpace s)) s false) by (intros l s; simpl; pose proof (skipSpace_length s); lia).
  assert (Hle : forall x s s', shrinks x s false -> (String.length s < String.length s')%nat -> forall b, shrinks x s' b).
  { intros [| |v r] s s' H Hl b; simpl in *; [done|done|]. destruct b; simpl; lia. }
  split_and!.
  - intros s Hf. simpl. call IA (parseAdd A). eapply Hle; [apply ICL|]; lia.
  - intros l s Hf. simpl. destruct (acceptAny comparisons s) as [[op r]|] eqn:E; [|done]. apply acceptAny_length in E; [|done].
    call IA (parseAdd A). eapply Hle; [apply ICL|]; lia.
  - intros s Hf. simpl. call IM (parseMul A). eapply Hle; [apply IAL|]; lia.
  - intros l s Hf. simpl. destruct (accept "+" s) as [r|] eqn:E; [|destruct (accept "-" s) as [r|] eqn:E'; [|done]].
    + apply accept_length in E. simpl in E. call IM (parseMul A). eapply Hle; [apply IAL|]; lia.
    + apply accept_length in E'. simpl in E'. call IM (parseMul A). eapply Hle; [apply IAL|]; lia.
  - intros s Hf. simpl. call IP (parsePow A). eapply Hle; [apply IML|]; lia.
  - intros l s Hf. simpl. destruct (acceptMul s) as [r|] eqn:E.
    { unfold acceptMul in E. destruct (HasPrefix _ _); [done|]. apply CutPrefix_length in E. pose proof (skipSpace_length s). simpl in E.
      call IP (parsePow A). eapply Hle; [apply IML|]; lia. }
    destruct (acceptAny ["//"; "%"] s) as [[op r]|] eqn:E'.
    { apply acceptAny_length in E'; [|done]. call IP (parsePow A). destruct (floorOp A _ l x); [|done]. eapply Hle; [apply IML|]; lia. }
    destruct (accept "/" s) as [r|] eqn:E''; [|done]. apply accept_length in E''. simpl in E''. call IP (parsePow A).
    destruct (divOp A l x); [|done]. eapply Hle; [apply IML|]; lia.
  - intros s Hf. simpl. call IU (parseUnary A). destruct (accept "**" rest) as [r|] eqn:E; [|simpl; pose proof (skipSpace_length rest); lia].
    apply accept_length in E. simpl in E. call IP (parsePow A). destruct (powOp A x x0); simpl; [lia|done].
  - intros s Hf. simpl. destruct (accept "-" s) as [r|] eqn:E; [|destruct (accept "+" s) as [r|] eqn:E'].
    + apply accept_length in E. simpl in E. call IU (parseUnary A). simpl. lia.
    + apply accept_length in E'. simpl in E'. assert (H := IU r ltac:(lia)). destruct (parseUnary A fuel r); simpl in *; [done|done|lia].
    + apply IR. lia.
  - intros s Hf. simpl. destruct (accept "(" s) as [r|] eqn:E.
    + apply accept_length in E. simpl in E. call IC (parseCmp A). destruct (accept ")" rest) as [r'|] eqn:E'; [|done].
      apply accept_length in E'. simpl in *. lia.
    + pose proof (runOf_length isNumericTokenByte (skipSpace s)) as Hs. unfold runOf. destruct (span isNumericTokenByte (skipSpace s)) as [run r]. simpl in Hs.
      destruct (run =s "") eqn:Er; [done|]. destruct (literal A run); [|done]. simpl. pose proof (skipSpace_length s).
      destruct run; [done|]. simpl in Hs. lia.
Qed.

(** The parser answers: the fuel is linear in the text. *)
Lemma parseWhole_answers s : parseCmp A (7 * String.length s + 7) s <> Fuel.
Proof. intros E. pose proof (proj1 (parse_fuel (7 * String.length s + 7)) s ltac:(lia)) as H. by rewrite E in H. Qed.
End fuel.

(** ** The expression a text denotes *)

Inductive nexpr :=
  | NLit (run : string)
  | NNeg (e : nexpr)
  | NAdd (sub : bool) (a b : nexpr)
  | NMul (a b : nexpr)
  | NFloor (rem : bool) (a b : nexpr)
  | NDiv (a b : nexpr)
  | NPow (a b : nexpr)
  | NCmp (op : string) (a b : nexpr).

(** The reference actions refuse only what is not a plain number. *)
Definition exprActions : actions nexpr := {|
  literal run := if isProvablySmallNumber run then Some (NLit run) else None;
  negate := NNeg; addOp := NAdd; mulOp := NMul;
  floorOp r a b := Some (NFloor r a b); divOp a b := Some (NDiv a b); powOp a b := Some (NPow a b); cmpOp := NCmp
|}.
Definition parseExpr (s : string) : option nexpr := parseWhole exprActions s.

Fixpoint abs (e : nexpr) : option numeric :=
  match e with
  | NLit run => parseLiteral run
  | NNeg a => negateNumeric <$> abs a
  | NAdd _ a b => x ← abs a; y ← abs b; Some (combineNumeric x y satAdd)
  | NMul a b => x ← abs a; y ← abs b; Some (combineNumeric x y satMul)
  | NFloor _ a b => x ← abs a; y ← abs b; floorNumeric x y
  | NDiv a b => x ← abs a; y ← abs b; divNumeric x y
  | NPow a b => x ← abs a; y ← abs b; powNumeric x y
  | NCmp _ a b => x ← abs a; y ← abs b; Some (boolNumeric (saturated x || saturated y))
  end.

Fixpoint subs (e : nexpr) : list nexpr :=
  e :: match e with
       | NLit _ => []
       | NNeg a => subs a
       | NAdd _ a b | NMul a b | NFloor _ a b | NDiv a b | NPow a b | NCmp _ a b => subs a ++ subs b
       end.

(** The integer an expression denotes, computed exactly, when the engine holds its
    value as an integer: integer literals, and what addition, subtraction,
    multiplication, floor division, remainder and powers make of integers.  A power
    promotes a float literal whose payload is integral. *)
Definition floatPayload (run : string) : option Z := parseF64Rust run ≫= float_integer.
Fixpoint exactInt (e : nexpr) : option Z :=
  match e with
  | NLit run => if hasDot run then None else Some (digitsValue 0 run)
  | NNeg a => Z.opp <$> exactInt a
  | NAdd sub a b => x ← exactInt a; y ← exactInt b; Some (if sub then x - y else x + y)
  | NMul a b => x ← exactInt a; y ← exactInt b; Some (x * y)
  | NFloor rem a b => x ← exactInt a; y ← exactInt b; if y =? 0 then None else Some (if rem then x mod y else x / y)
  | NDiv _ _ | NCmp _ _ _ => None
  | NPow a b =>
      x ← match a with NLit run => if hasDot run then floatPayload run else Some (digitsValue 0 run) | _ => exactInt a end;
      y ← exactInt b; if y <? 0 then None else Some (x ^ y)
  end.

(** Parsing and bounding agree with reading the expression and bounding it after. *)
Definition agree (x : res numeric) (y : res nexpr) : Prop :=
  match x with Done n r => exists e, y = Done e r /\ abs e = Some n | _ => True end.

Lemma parse_agree fuel :
  (forall s, agree (parseCmp numericActions fuel s) (parseCmp exprActions fuel s))
  /\ (forall n e s, abs e = Some n -> agree (cmpLoop numericActions fuel n s) (cmpLoop exprActions fuel e s))
  /\ (forall s, agree (parseAdd numericActions fuel s) (parseAdd exprActions fuel s))
  /\ (forall n e s, abs e = Some n -> agree (addLoop numericActions fuel n s) (addLoop exprActions fuel e s))
  /\ (forall s, agree (parseMul numericActions fuel s) (parseMul exprActions fuel s))
  /\ (forall n e s, abs e = Some n -> agree (mulLoop numericActions fuel n s) (mulLoop exprActions fuel e s))
  /\ (forall s, agree (parsePow numericActions fuel s) (parsePow exprActions fuel s))
  /\ (forall s, agree (parseUnary numericActions fuel s) (parseUnary exprActions fuel s))
  /\ (forall s, agree (parsePrimary numericActions fuel s) (parsePrimary exprActions fuel s)).
Proof.
  induction fuel as [|fuel (IC&ICL&IA&IAL&IM&IML&IP&IU&IR)]; [done|]. split_and!.
  - intros s. simpl. specialize (IA s). destruct (parseAdd numericActions fuel s) as [| |l r]; [done|done|].
    destruct IA as (e&->&He). by apply ICL.
  - intros n e s He. simpl. destruct (acceptAny comparisons s) as [[op r]|]; [|by exists e].
    specialize (IA r). destruct (parseAdd numericActions fuel r) as [| |x r']; [done|done|]. destruct IA as (e'&->&He').
    apply ICL. simpl. by rewrite He, He'.
  - intros s. simpl. specialize (IM s). destruct (parseMul numericActions fuel s) as [| |l r]; [done|done|].
    destruct IM as (e&->&He). by apply IAL.
  - intros n e s He. simpl. destruct (accept "+" s) as [r|]; [|destruct (accept "-" s) as [r|]; [|by exists e]].
    all: specialize (IM r); destruct (parseMul numericActions fuel r) as [| |x r']; [done|done|]; destruct IM as (e'&->&He');
      apply IAL; simpl; by rewrite He, He'.
  - intros s. simpl. specialize (IP s). destruct (parsePow numericActions fuel s) as [| |l r]; [done|done|].
    destruct IP as (e&->&He). by apply IML.
  - intros n e s He. simpl.
    destruct (acceptMul s) as [r|]; [|destruct (acceptAny ["//"; "%"] s) as [[op r]|]; [|destruct (accept "/" s) as [r|]; [|by exists e]]].
    all: specialize (IP r); destruct (parsePow numericActions fuel r) as [| |x r']; [done|done|]; destruct IP as (e'&->&He').
    + apply IML. simpl. by rewrite He, He'.
    + destruct (floorNumeric n x) as [l|] eqn:E; [|done]. apply IML. simpl. by rewrite He, He'.
    + destruct (divNumeric n x) as [l|] eqn:E; [|done]. apply IML. simpl. by rewrite He, He'.
  - intros s. simpl. specialize (IU s). destruct (parseUnary numericActions fuel s) as [| |b r]; [done|done|].
    destruct IU as (e&->&He). destruct (accept "**" r) as [r1|]; [|by exists e].
    specialize (IP r1). destruct (parsePow numericActions fuel r1) as [| |x r']; [done|done|]. destruct IP as (e'&->&He').
    destruct (powNumeric b x) as [l|] eqn:E; [|done]. exists (NPow e e'). split; [done|]. simpl. by rewrite He, He'.
  - intros s. simpl. destruct (accept "-" s) as [r|]; [|destruct (accept "+" s) as [r|]; [apply IU|apply IR]].
    specialize (IU r). destruct (parseUnary numericActions fuel r) as [| |x r']; [done|done|]. destruct IU as (e&->&He).
    exists (NNeg e). split; [done|]. simpl. by rewrite He.
  - intros s. simpl. destruct (accept "(" s) as [r|].
    + specialize (IC r). destruct (parseCmp numericActions fuel r) as [| |x r']; [done|done|]. destruct IC as (e&->&He).
      destruct (accept ")" r') as [r''|]; [by exists e|done].
    + destruct (runOf (skipSpace s)) as [run r]. destruct (run =s ""); [done|].
      destruct (parseLiteral run) as [x|] eqn:E; [|done]. exists (NLit run). split; [|done].
      unfold parseLiteral in E. by destruct (isProvablySmallNumber run).
Qed.

Lemma parseNumeric_expr s n : parseNumeric s = Some n -> exists e, parseExpr s = Some e /\ abs e = Some n.
Proof.
  unfold parseNumeric, parseExpr, parseWhole. pose proof (proj1 (parse_agree (7 * String.length s + 7)) s) as H.
  destruct (parseCmp numericActions _ s) as [| |x r]; [done|done|]. destruct H as (e&->&He).
  destruct (skipSpace r =s ""); [|done]. intros [= ->]. eauto.
Qed.

(** ** Bounds are bounds *)

Lemma satAdd_exact a b : 0 <= a -> 0 <= b < maxExactInt -> satAdd a b < maxExactInt -> satAdd a b = a + b.
Proof.
  unfold satAdd, maxExactInt. intros Ha Hb. rewrite (u64_id (2 ^ 53 - b)) by lia. destruct (Z.ltb_spec (2 ^ 53 - b) a); [lia|].
  intros _. apply u64_id. lia.
Qed.
Lemma satMul_exact a b : 0 <= a -> 0 <= b -> satMul a b < maxExactInt -> satMul a b = a * b.
Proof.
  unfold satMul, maxExactInt. intros Ha Hb. destruct (Z.eqb_spec a 0) as [->|]; [done|]. destruct (Z.eqb_spec b 0) as [->|]; simpl; [lia|].
  destruct (Z.ltb_spec (2 ^ 53 / b) a) as [|Hle]; [lia|]. intros _. apply u64_id.
  assert (a * b <= 2 ^ 53) by (pose proof (Z.mul_div_le (2 ^ 53) b); nia). nia.
Qed.
Lemma satMul_nonneg a b : 0 <= satMul a b.
Proof. unfold satMul, maxExactInt. case_goal; [lia|]. case_goal; [lia|]. apply u64_range. Qed.
Lemma satAdd_nonneg a b : 0 <= satAdd a b.
Proof. unfold satAdd, maxExactInt. case_goal; [lia|]. apply u64_range. Qed.

Lemma satPowLoop_exact p base result : 0 <= base -> 0 <= result -> satPowLoop p base result < maxExactInt ->
  satPowLoop p base result = result * base ^ Zpos p.
Proof.
  revert base result. induction p as [p IH|p IH|]; intros base result Hb Hr; cbn -[maxExactInt Z.pow].
  - destruct (Z.leb_spec maxExactInt (satMul result base)); [lia|]. destruct (Z.leb_spec maxExactInt (satMul base base)); [lia|].
    intros H1. rewrite IH by (done || apply satMul_nonneg). rewrite !satMul_exact by done.
    replace (Z.pos p~1) with (1 + 2 * Z.pos p) by lia. rewrite Z.pow_add_r, Z.pow_mul_r by lia. rewrite Z.pow_1_r, Z.pow_2_r. ring.
  - destruct (Z.leb_spec maxExactInt (satMul base base)); [lia|]. intros H1. rewrite IH by (done || apply satMul_nonneg).
    rewrite !satMul_exact by done. replace (Z.pos p~0) with (2 * Z.pos p) by lia. rewrite Z.pow_mul_r by lia. rewrite Z.pow_2_r. ring.
  - destruct (Z.leb_spec maxExactInt (satMul result base)); [lia|]. intros _. rewrite satMul_exact by done. by rewrite Z.pow_1_r.
Qed.
Lemma satPow_exact base exp : 0 <= base -> 0 <= exp -> satPow base exp < maxExactInt -> satPow base exp = base ^ exp.
Proof.
  unfold satPow. intros Hb He. destruct (Z.eqb_spec base 0) as [->|].
  - intros _. destruct (Z.eqb_spec exp 0) as [->|]; [done|]. by rewrite Z.pow_0_l by lia.
  - destruct (Z.eqb_spec base 1) as [->|]; [intros _; by rewrite Z.pow_1_l|]. destruct (Z.leb_spec 64 exp); [lia|].
    destruct exp as [|p|]; [done| |lia]. intros Hl. rewrite satPowLoop_exact by lia. lia.
Qed.
Lemma satPow_nonneg base exp : 0 <= base -> 0 <= exp -> 0 <= satPow base exp.
Proof.
  intros Hb He. destruct (Z.lt_ge_cases (satPow base exp) maxExactInt) as [Hl|Hl]; [|unfold maxExactInt in Hl; lia].
  rewrite satPow_exact by done. by apply Z.pow_nonneg.
Qed.

Lemma digit_range c : isDigit c = true -> 0 <= code c - 48 <= 9.
Proof. unfold isDigit. lia. Qed.

Lemma literalMag_exact run m : sall isDigit run = true -> 0 <= m -> (String.length run <= 15)%nat -> m < 10 ^ (15 - Z.of_nat (String.length run)) ->
  literalMag run m = digitsValue m run /\ 0 <= digitsValue m run < 10 ^ 15.
Proof.
  revert m. induction run as [|c run IH]; intros m Hd Hm Hl Hb; simpl in *; [by replace (15 - 0) with 15 in Hb by lia|].
  apply andb_true_iff in Hd as [Hc Hd]. apply digit_range in Hc.
  assert (H10 : 10 * m + (code c - 48) < 10 ^ (15 - Z.of_nat (String.length run))).
  { replace (15 - Z.of_nat (String.length run)) with (Z.succ (15 - Z.of_nat (S (String.length run)))) by lia.
    rewrite Z.pow_succ_r by lia. lia. }
  assert (Hbig : 10 ^ (15 - Z.of_nat (String.length run)) <= 10 ^ 15) by (apply Z.pow_le_mono_r; lia).
  assert (E1 : satMul m 10 = m * 10).
  { apply satMul_exact; [lia|lia|]. unfold satMul, maxExactInt. case_goal; [lia|]. destruct (Z.ltb_spec (2 ^ 53 / 10) m); [|rewrite u64_id; lia].
    exfalso. assert (2 ^ 53 / 10 = 900719925474099) as E by reflexivity. lia. }
  assert (E2 : satAdd (satMul m 10) (code c - 48) = 10 * m + (code c - 48)).
  { rewrite E1. unfold satAdd, maxExactInt. rewrite (u64_id (2 ^ 53 - _)) by lia. destruct (Z.ltb_spec (2 ^ 53 - (code c - 48)) (m * 10)); [lia|].
    rewrite u64_id; lia. }
  rewrite E2. apply IH; [done|lia|lia|lia].
Qed.

Lemma smallNumber_digits run d : (d <= 15)%nat -> smallNumber run false d 0 = true -> hasDot run = false ->
  sall isDigit run = true /\ (d + String.length run <= 15)%nat.
Proof.
  unfold hasDot. revert d. induction run as [|c run IH]; intros d Hd15 H Hd; cbn -[maxSmallDigits] in *; [split; [done|lia]|].
  apply orb_false_iff in Hd as [Hc Hd]. destruct (isDigit c); simpl.
  - destruct (Nat.leb_spec maxSmallDigits d) as [|Hle]; [done|]. unfold maxSmallDigits in Hle.
    destruct (IH (S d) ltac:(lia) H Hd). split; [done|lia].
  - by rewrite Hc in H.
Qed.

Lemma literal_value run n : parseLiteral run = Some n -> hasDot run = false ->
  n = mkNumeric true false false (digitsValue 0 run) true false false false /\ 0 <= digitsValue 0 run < maxExactInt.
Proof.
  unfold parseLiteral, isProvablySmallNumber. intros H Hd. destruct (smallNumber run false 0 0) eqn:Hs; [|done]. simpl in H. rewrite Hd in H.
  destruct (smallNumber_digits run 0 ltac:(lia) Hs Hd) as [Ha Hl].
  destruct (literalMag_exact run 0 Ha ltac:(lia) Hl) as [E Hb]; [apply Z.pow_pos_nonneg; lia|]. rewrite E in H.
  unfold maxExactInt in *. destruct (Z.leb_spec (2 ^ 53) (digitsValue 0 run)); [lia|]. split; [congruence|lia].
Qed.

Lemma float_value run n : parseLiteral run = Some n -> hasDot run = true ->
  engineInt n = false /\ isBool n = false /\ nonNegLiteral n = false /\ saturated n = false /\ 0 <= mag n
  /\ (integralFloatLiteral n = true -> exists z, floatPayload run = Some z /\ (Z.abs z < maxExactInt -> mag n = Z.abs z)
        /\ (maxExactInt <= Z.abs z -> maxExactInt <= mag n)).
Proof.
  unfold parseLiteral, floatLiteral, floatPayload. intros H Hd. destruct (isProvablySmallNumber run); [|done]. simpl in H. rewrite Hd in H.
  destruct (parseF64Rust run) as [f|]; [|done]. destruct (float_notfinite f); [done|]. simplify_eq. simpl. unfold maxExactInt, MaxUint64.
  split_and!; try done.
  - destruct (float_integer f); [destruct (Z.leb_spec (2 ^ 53) (Z.abs z)); lia|]. case_goal; lia.
  - intros [z Hz]%bool_decide_eq_true. exists z. rewrite Hz. split_and!; [done| |]; destruct (Z.leb_spec (2 ^ 53) (Z.abs z)); lia.
Qed.

(** What the bound of a node says of the expression. *)
Record boundOk (e : nexpr) (n : numeric) : Prop := {
  bound_subs : saturated n = false -> forall e' v, e' ∈ subs e -> exactInt e' = Some v -> Z.abs v < maxExactInt;
  bound_here : forall v, exactInt e = Some v -> saturated n = false -> engineInt n = true /\ Z.abs v <= mag n;
  bound_mag : engineInt n = true -> 0 <= mag n /\ (saturated n = false -> mag n < maxExactInt);
  bound_literal : nonNegLiteral n = true -> engineInt n = true /\ exactInt e = Some (mag n);
  bound_float : nonNegFloatLiteral n = true -> exists run, e = NLit run /\ hasDot run = true
}.

Lemma combine_bound e a b x y m : boundOk a x -> boundOk b y ->
  (forall v, exactInt e = Some v -> exists u w, exactInt a = Some u /\ exactInt b = Some w
     /\ (forall p q, Z.abs u <= p < maxExactInt -> Z.abs w <= q < maxExactInt -> m p q < maxExactInt -> Z.abs v <= m p q)) ->
  (forall p q, 0 <= p -> 0 <= q -> 0 <= m p q) -> subs e = e :: subs a ++ subs b ->
  boundOk e (combineNumeric x y m).
Proof.
  intros Ha Hb Hv Hm Hs. unfold combineNumeric. destruct (isBool x || isBool y) eqn:Eb; [by split|].
  destruct (engineInt x) eqn:Ex; simpl; [destruct (engineInt y) eqn:Ey; simpl|].
  all: assert (HH : forall v, exactInt e = Some v -> saturated x = false -> saturated y = false ->
         engineInt x = true /\ engineInt y = true /\ (m (mag x) (mag y) < maxExactInt -> Z.abs v <= m (mag x) (mag y))).
  1,3,5: intros v Hev Sx Sy; destruct (Hv v Hev) as (u&w&Hu&Hw&Hle);
    destruct (bound_here _ _ Ha _ Hu Sx) as [Ix Mx]; destruct (bound_here _ _ Hb _ Hw Sy) as [Iy My];
    split_and!; [done|done|]; apply Hle; split; try done; [by apply (bound_mag _ _ Ha)|by apply (bound_mag _ _ Hb)].
  - split; simpl; try done.
    + intros [[Sx Sy]%orb_false_iff Sm]%orb_false_iff. intros e' v. rewrite Hs. intros [->|[Hi|Hi]%elem_of_app]%elem_of_cons Hev.
      * destruct (HH v Hev Sx Sy) as (_&_&Hle). lia.
      * by apply (bound_subs _ _ Ha Sx e').
      * by apply (bound_subs _ _ Hb Sy e').
    + intros v Hev [[Sx Sy]%orb_false_iff Sm]%orb_false_iff. destruct (HH v Hev Sx Sy) as (_&_&Hle). split; [done|]. apply Hle. lia.
    + intros _. split; [apply Hm; [by apply (bound_mag _ _ Ha)|by apply (bound_mag _ _ Hb)]|].
      intros [[Sx Sy]%orb_false_iff Sm]%orb_false_iff. lia.
  - split; simpl; try done.
    + intros [Sx Sy]%orb_false_iff e' v. rewrite Hs. intros [->|[Hi|Hi]%elem_of_app]%elem_of_cons Hev.
      * destruct (HH v Hev Sx Sy) as (?&?&_). congruence.
      * by apply (bound_subs _ _ Ha Sx e').
      * by apply (bound_subs _ _ Hb Sy e').
    + intros v Hev [Sx Sy]%orb_false_iff. destruct (HH v Hev Sx Sy) as (?&?&_). congruence.
  - split; simpl; try done.
    + intros [Sx Sy]%orb_false_iff e' v. rewrite Hs. intros [->|[Hi|Hi]%elem_of_app]%elem_of_cons Hev.
      * destruct (HH v Hev Sx Sy) as (?&?&_). congruence.
      * by apply (bound_subs _ _ Ha Sx e').
      * by apply (bound_subs _ _ Hb Sy e').
    + intros v Hev [Sx Sy]%orb_false_iff. destruct (HH v Hev Sx Sy) as (?&?&_). congruence.
Qed.

(** A node that is not an integer carries the saturation of its operands. *)
Lemma opaque_bound e a b x y n : boundOk a x -> boundOk b y -> (saturated n = false -> exactInt e = None) -> engineInt n = false ->
  nonNegLiteral n = false -> nonNegFloatLiteral n = false -> saturated n = saturated x || saturated y -> subs e = e :: subs a ++ subs b ->
  boundOk e n.
Proof.
  intros Ha Hb He Hi Hl Hf Hs Hsub. split; try congruence.
  - intros Hn e' v. specialize (He Hn). rewrite Hs in Hn. apply orb_false_iff in Hn as [Sx Sy]. rewrite Hsub.
    intros [->|[Hin|Hin]%elem_of_app]%elem_of_cons Hev; [congruence|by apply (bound_subs _ _ Ha Sx e')|by apply (bound_subs _ _ Hb Sy e')].
  - intros v Hv Hn. rewrite (He Hn) in Hv. done.
Qed.

(** A power with an integer result. *)
Lemma pow_bound a b x y : boundOk a x -> boundOk b y -> nonNegLiteral y = true -> 0 <= mag x ->
  (saturated x = false -> saturated y = false -> forall v, exactInt (NPow a b) = Some v -> satPow (mag x) (mag y) < maxExactInt ->
     Z.abs v <= satPow (mag x) (mag y)) ->
  boundOk (NPow a b) (intNumeric (satPow (mag x) (mag y)) (saturated x || saturated y || (maxExactInt <=? satPow (mag x) (mag y)))).
Proof.
  intros Ha Hb Hy Hx Hle. destruct (bound_literal _ _ Hb Hy) as [Iy _]. destruct (bound_mag _ _ Hb Iy) as [Py _].
  split; cbn [intNumeric saturated engineInt mag nonNegLiteral nonNegFloatLiteral]; try done.
  - intros [[Sx Sy]%orb_false_iff Sm]%orb_false_iff e' v [->|[Hin|Hin]%elem_of_app]%elem_of_cons Hev.
    + specialize (Hle Sx Sy v Hev). lia.
    + by apply (bound_subs _ _ Ha Sx e').
    + by apply (bound_subs _ _ Hb Sy e').
  - intros v Hev [[Sx Sy]%orb_false_iff Sm]%orb_false_iff. split; [done|]. apply (Hle Sx Sy v Hev). lia.
  - intros _. split; [by apply satPow_nonneg|]. intros [_ Sm]%orb_false_iff. lia.
Qed.

Lemma pow_abs_le u k p : 0 <= k -> Z.abs u <= p -> Z.abs (u ^ k) <= p ^ k.
Proof. intros Hk Hu. rewrite Z.abs_pow. apply Z.pow_le_mono_l. lia. Qed.

Lemma abs_pow_bound a b x y n : boundOk a x -> boundOk b y -> abs a = Some x -> powNumeric x y = Some n -> boundOk (NPow a b) n.
Proof.
  intros Ha Hb Hax. unfold powNumeric. destruct (isBool x || isBool y); [done|]. destruct (nonNegLiteral y) eqn:Ly; [|done]. simpl.
  destruct (powExponentLimit <=? mag y); [done|]. destruct (bound_literal _ _ Hb Ly) as [Iy Ey]. destruct (bound_mag _ _ Hb Iy) as [Py _].
  destruct (engineInt x) eqn:Ix; simpl.
  - intros [= <-]. destruct (bound_mag _ _ Ha Ix) as [Px _]. apply pow_bound; try done. intros Sx Sy v Hv Hl.
    assert (Hbase : exists u, Z.abs u <= mag x /\ v = u ^ mag y).
    { simpl in Hv. rewrite Ey in Hv. simpl in Hv. destruct (Z.ltb_spec (mag y) 0); [lia|].
      destruct (match a with NLit run => if hasDot run then floatPayload run else Some (digitsValue 0 run) | _ => exactInt a end) as [u|] eqn:E; [|done].
      simpl in Hv. simplify_eq. exists u. split; [|done]. destruct a; try (by apply (bound_here _ _ Ha _ E Sx)). simpl in Hax.
      destruct (hasDot run) eqn:Hd; [by apply (float_value run x Hax) in Hd as (?&_); congruence|].
      apply (bound_here _ _ Ha u); [|done]. simpl. by rewrite Hd. }
    destruct Hbase as (u&Hu&->). rewrite satPow_exact by done. by apply pow_abs_le.
  - destruct (nonNegFloatLiteral x) eqn:Fx; [|done]. simpl. destruct (bound_float _ _ Ha Fx) as (run&->&Hd). simpl in Hax.
    destruct (float_value run x Hax Hd) as (_&_&_&Sx&Px&Hint). destruct (integralFloatLiteral x) eqn:Ifx; simpl.
    + intros [= <-]. destruct (Hint eq_refl) as (z&Hz&Hsmall&Hbig). apply pow_bound; try done. intros _ Sy v Hv Hl.
      simpl in Hv. rewrite Hd, Hz, Ey in Hv. simpl in Hv. destruct (Z.ltb_spec (mag y) 0); [lia|]. simplify_eq.
      rewrite satPow_exact in Hl |- * by done. destruct (Z.lt_ge_cases (Z.abs z) maxExactInt) as [Hlt|Hge]; [apply pow_abs_le; [done|]; lia|].
      specialize (Hbig Hge). destruct (Z.eq_dec (mag y) 0) as [->|]; [done|]. exfalso.
      assert (mag x ^ 1 <= mag x ^ mag y) by (apply Z.pow_le_mono_r; unfold maxExactInt in *; lia). rewrite Z.pow_1_r in *. lia.
    + intros [= <-]. apply (opaque_bound _ _ _ _ _ _ Ha Hb); try done. intros _. simpl. rewrite Hd. unfold floatPayload.
      unfold parseLiteral, floatLiteral in Hax. rewrite Hd in Hax. destruct (isProvablySmallNumber run); [|done]. simpl in Hax.
      destruct (parseF64Rust run) as [f|]; [|done]. destruct (float_notfinite f); [done|]. simplify_eq. simpl in *.
      destruct (float_integer f); [done|]. done.
Qed.

Lemma abs_bound e n : abs e = Some n -> boundOk e n.
Proof.
  revert n. induction e as [run|a IHa|sub a IHa b IHb|a IHa b IHb|rem a IHa b IHb|a IHa b IHb|a IHa b IHb|op a IHa b IHb]; intros n H; simpl in H.
  all: try (destruct (abs a) as [x|] eqn:Ea; [|done]; simpl in H; specialize (IHa x eq_refl)).
  all: try (destruct (abs b) as [y|] eqn:Eb; [|done]; simpl in H; specialize (IHb y eq_refl)).
  - destruct (hasDot run) eqn:Hd.
    + destruct (float_value run n H Hd) as (Hi&_&Hl&Hs&_). split; simpl; rewrite ?Hd; try congruence.
      * intros _ e' v ->%list_elem_of_singleton. simpl. by rewrite Hd.
      * eauto.
    + destruct (literal_value run n H Hd) as [-> Hb]. split; simpl; rewrite ?Hd; try done.
      * intros _ e' v ->%list_elem_of_singleton. simpl. rewrite Hd. intros [= <-]. lia.
      * intros v [= <-] _. split; [done|lia].
      * lia.
  - simplify_eq. split; simpl; try done.
    + intros Hs e' v [->|Hin]%elem_of_cons Hev; [|by apply (bound_subs _ _ IHa Hs e')]. simpl in Hev.
      destruct (exactInt a) as [u|] eqn:Eu; [|done]. simplify_eq/=.
      destruct (bound_here _ _ IHa u Eu Hs) as [Hi Hle]. pose proof (bound_mag _ _ IHa Hi) as [_ Hm]. specialize (Hm Hs). lia.
    + intros v Hv Hs. destruct (exactInt a) as [u|] eqn:Eu; [|done]. simplify_eq/=. destruct (bound_here _ _ IHa u Eu Hs). split; [done|lia].
    + apply (bound_mag _ _ IHa).
  - simplify_eq. apply (combine_bound _ _ _ _ _ _ IHa IHb); try done; [|intros; apply satAdd_nonneg].
    intros v Hv. simpl in Hv. destruct (exactInt a) as [u|]; [|done]. destruct (exactInt b) as [w|]; [|done]. exists u, w. split_and!; [done|done|].
    intros p q Hp Hq Hl. rewrite satAdd_exact by lia. simplify_eq/=. destruct sub; lia.
  - simplify_eq. apply (combine_bound _ _ _ _ _ _ IHa IHb); try done; [|intros; apply satMul_nonneg].
    intros v Hv. simpl in Hv. destruct (exactInt a) as [u|]; [|done]. destruct (exactInt b) as [w|]; [|done]. exists u, w. split_and!; [done|done|].
    intros p q Hp Hq Hl. rewrite satMul_exact by lia. simplify_eq/=. rewrite Z.abs_mul. nia.
  - unfold floorNumeric in H. destruct (nonNegLiteral x) eqn:Lx; [|done]. destruct (nonNegLiteral y) eqn:Ly; [|done]. simplify_eq/=.
    destruct (bound_literal _ _ IHa Lx) as [Ix Ex]. destruct (bound_literal _ _ IHb Ly) as [Iy Ey].
    destruct (bound_mag _ _ IHa Ix) as [Px _]. destruct (bound_mag _ _ IHb Iy) as [Py _].
    apply (combine_bound _ _ _ _ _ _ IHa IHb); try done. intros v Hv. simpl in Hv. rewrite Ex, Ey in Hv. simpl in Hv. exists (mag x), (mag y). split_and!; [done|done|].
    destruct (Z.eqb_spec (mag y) 0); [done|]. intros p q Hp Hq _. simplify_eq.
    assert (0 <= mag x / mag y <= mag x) by (split; [apply Z.div_pos; lia|apply Z.div_le_upper_bound; nia]).
    assert (0 <= mag x mod mag y <= mag x) by (split; [apply Z.mod_pos_bound; lia|apply Z.mod_le; lia]).
    destruct rem; lia.
  - unfold divNumeric in H. destruct (isBool x || isBool y); [done|]. simplify_eq. by apply (opaque_bound _ _ _ _ _ _ IHa IHb).
  - by eapply abs_pow_bound.
  - simplify_eq. by apply (opaque_bound _ _ _ _ _ _ IHa IHb).
Qed.

(** ** The range of an admitted expression *)

(** C26. If the numeric sublanguage accepts a text without saturation, the text denotes
    an expression in which every part that the engine computes as an integer, promoted
    powers of float literals included, has an exact value below 2^53 in magnitude. *)
Theorem numeric_exact_range s n : parseNumeric s = Some n -> saturated n = false ->
  exists e, parseExpr s = Some e /\ abs e = Some n /\ forall e' v, e' ∈ subs e -> exactInt e' = Some v -> Z.abs v < maxExactInt.
Proof.
  intros H Hs. destruct (parseNumeric_expr s n H) as (e&He&Ha). exists e. split_and!; [done|done|]. by apply (bound_subs _ _ (abs_bound e n Ha)).
Qed.
Lemma numeric_exact_range_witness :
  let s := "(2.0 ** 52) - 450359962737049 == 7 // 2 * 3 - 8 % 5" in
  exactInt <$> parseExpr "(2.0 ** 52) - 450359962737049" = Some (Some 4053239664633447)
  /\ exists e, parseExpr s = Some e /\ abs e = Some (boolNumeric false)
     /\ forall e' v, e' ∈ subs e -> exactInt e' = Some v -> Z.abs v < maxExactInt.
Proof.
  split; [vm_compute; reflexivity|].
  apply (numeric_exact_range "(2.0 ** 52) - 450359962737049 == 7 // 2 * 3 - 8 % 5" (boolNumeric false)); vm_compute; reflexivity.
Defined.
