(* ===== verification/ConstraintGate.v ===== *)
(** * ConstraintGate: the operator gate of constraint expressions
    ([internal/debaml/constraint_operator.go], [constraint_value.go])

    A constraint expression is rendered natively only if the whole of it parses in a
    closed predicate grammar and a comparison in it has two operands of one comparable
    kind.  Kinds are inferred while parsing, paths into the value by following them.
    As in [ConstraintNumeric] the parser is written over its actions. *)

From Stdlib Require Import Ascii String.
From S2P Require Import Prelude GoStrings GoValue GoFloat Jsonish Unicode NumberText ConstraintNumeric.
Open Scope stdpp_scope.

(** ** Values *)

Inductive ConstraintValue :=
  | NullValue
  | BoolValue (b : bool)
  | IntValue (i : Z)
  | FloatValue (f : float64)
  | StringValue (s : string)
  | ListValue (items : list ConstraintValue)
  | MapValue (entries : list (string * ConstraintValue))
  | ClassValue (name : string) (fields : list (string * ConstraintValue))
  | EnumValue (enumName variant : string)
  | MediaValue.

(** The payload fields: empty unless the kind has them. *)
Definition valueList (v : ConstraintValue) : list ConstraintValue := match v with ListValue l => l | _ => [] end.
Definition valueEntries (v : ConstraintValue) : list (string * ConstraintValue) :=
  match v with MapValue es | ClassValue _ es => es | _ => [] end.
Definition valueText (v : ConstraintValue) : string := match v with StringValue s | EnumValue _ s => s | _ => ""%string end.

Inductive inferredKind := kindUnknown | kindNumberK | kindStringK | kindBoolK | kindNoneK | kindSeqK | kindMapK | kindUndefK.
#[export] Instance inferredKind_eq : EqDecision inferredKind.
Proof. solve_decision. Defined.

Definition comparableKind (k : inferredKind) : bool :=
  match k with kindNumberK | kindStringK | kindBoolK => true | _ => false end.

Definition constraintValueKind (v : ConstraintValue) : inferredKind :=
  match v with
  | IntValue _ | FloatValue _ => kindNumberK
  | StringValue _ | EnumValue _ _ => kindStringK
  | BoolValue _ => kindBoolK
  | NullValue => kindNoneK
  | ListValue _ => kindSeqK
  | MapValue _ | ClassValue _ _ => kindMapK
  | MediaValue => kindUnknown
  end.

Definition filterResultKind (name : string) : inferredKind :=
  if (name =s "length") || (name =s "count") || (name =s "sum") || (name =s "abs") then kindNumberK
  else if (name =s "list") || (name =s "reverse") then kindSeqK
  else kindUnknown.

Definition valueListElementKind (v : ConstraintValue) : inferredKind :=
  match valueList v with
  | [] => kindUnknown
  | x :: l => if forallb (fun y => bool_decide (constraintValueKind y = constraintValueKind x)) l then constraintValueKind x else kindUnknown
  end.

(** ** String literals, brackets and commas ([constraint_profile.go]) *)

Definition isQuote (c : ascii) : bool := (c =c "034") || (c =c "039").
Definition backslash : ascii := "092".

Fixpoint closeQuote (quote : ascii) (s : string) : option (string * string) :=
  match s with
  | EmptyString => None
  | String c r =>
      if c =c backslash then None
      else if c =c quote then Some (EmptyString, r)
      else match closeQuote quote r with Some (inner, after) => Some (String c inner, after) | None => None end
  end.
(** [skipStringLiteral] at a quote: the inner text and what follows the closing quote. *)
Definition skipStringLiteral (s : string) : option (string * string) :=
  match s with String q r => closeQuote q r | EmptyString => None end.

(** [matchingBracket] after the opening bracket, inside the literal [q]: the region and
    what follows the closing bracket. *)
Fixpoint bracketRegion (s : string) (q : option ascii) : option (string * string) :=
  match s with
  | EmptyString => None
  | String c r =>
      let keep q := match bracketRegion r q with Some (region, after) => Some (String c region, after) | None => None end in
      match q with
      | Some quote => if c =c backslash then None else if c =c quote then keep None else keep q
      | None => if isQuote c then keep (Some c) else if c =c "[" then None else if c =c "]" then Some (EmptyString, r) else keep None
      end
  end.
Definition matchingBracket (s : string) : option (string * string) :=
  match s with String _ r => bracketRegion r None | EmptyString => None end.

(** The loop of [splitTopLevelCommas]; [None] when a literal cannot be read. *)
Fixpoint splitCommas (s : string) (q : option ascii) : option (string * list string) :=
  match s with
  | EmptyString => match q with None => Some (EmptyString, []) | Some _ => None end
  | String c r =>
      let keep q := match splitCommas r q with Some (x, l) => Some (String c x, l) | None => None end in
      match q with
      | Some quote => if c =c backslash then None else if c =c quote then keep None else keep q
      | None =>
          if isQuote c then keep (Some c)
          else if c =c "," then match splitCommas r None with Some (x, l) => Some (EmptyString, x :: l) | None => None end
          else keep None
      end
  end.
Definition splitTopLevelCommas (region : string) : list string :=
  match splitCommas region None with Some (x, l) => x :: l | None => [region] end.

(** Digits with at most one dot. *)
Fixpoint numericRun (t : string) (dot : bool) : bool :=
  match t with
  | EmptyString => true
  | String c r => if isDigit c then numericRun r dot else if (c =c ".") && negb dot then numericRun r true else false
  end.

Definition isLiteralElement (element : string) : bool :=
  let t := TrimSpace element in
  match t with
  | EmptyString => false
  | String c r =>
      if isQuote c then match skipStringLiteral t with Some (_, after) => after =s "" | None => false end
      else
        let t := if (c =c "-") || (c =c "+") then TrimSpace r else t in
        if t =s "" then false else numericRun t false
  end.
Definition listLiteralRegionIsSafe (region : string) : bool :=
  if TrimSpace region =s "" then true else forallb isLiteralElement (splitTopLevelCommas region).

Definition elementTextKind (t : string) : inferredKind :=
  match t with EmptyString => kindUnknown | String c _ => if isQuote c then kindStringK else kindNumberK end.
(** The loop of [listLiteralElementKind]. *)
Fixpoint commonKind (elements : list string) (common : inferredKind) : inferredKind :=
  match elements with
  | [] => common
  | e :: rest =>
      let k := elementTextKind (TrimSpace e) in
      if bool_decide (k = kindUnknown) then kindUnknown
      else if bool_decide (common = kindUnknown) then commonKind rest k
      else if bool_decide (common = k) then commonKind rest common else kindUnknown
  end.
Definition listLiteralElementKind (region : string) : inferredKind :=
  if TrimSpace region =s "" then kindUnknown else commonKind (splitTopLevelCommas region) kindUnknown.

(** ** Terms *)

(** [term]: [reached] is set exactly on a path, [size] when it is known. *)
Record term := mkTerm { kind : inferredKind; reached : option ConstraintValue; listElem : inferredKind; size : option nat }.
Definition plainTerm (k : inferredKind) : term := mkTerm k None kindUnknown None.
Definition valueTerm (v : ConstraintValue) : term := mkTerm (constraintValueKind v) (Some v) kindUnknown None.

Definition elementKind (t : term) : inferredKind :=
  match reached t with Some v => valueListElementKind v | None => listElem t end.

Definition indexBound (t : term) : option nat :=
  match reached t with
  | Some v =>
      match kind t with
      | kindSeqK => Some (length (valueList v))
      | kindStringK => Some (length (runes (valueText v)))
      | _ => None
      end
  | None => size t
  end.

(** The first entry with the key. *)
Fixpoint findEntry (key : string) (es : list (string * ConstraintValue)) : option ConstraintValue :=
  match es with [] => None | (k, v) :: es => if k =s key then Some v else findEntry key es end.

Definition fieldTerm (t : term) (name : string) : option term :=
  match kind t, reached t with
  | kindMapK, Some v => Some (match findEntry name (valueEntries v) with Some w => valueTerm w | None => plainTerm kindUndefK end)
  | _, _ => None
  end.

Definition edgeElementTerm (t : term) : option term :=
  match kind t with
  | kindSeqK => if bool_decide (elementKind t = kindUnknown) then None else Some (plainTerm (elementKind t))
  | _ => None
  end.

Definition filterTerm (t : term) (name : string) : option term :=
  if (name =s "first") || (name =s "last") then edgeElementTerm t
  else
    match filterResultKind name with
    | kindUnknown => None
    | kindSeqK => Some (mkTerm kindSeqK None (elementKind t) (indexBound t))
    | k => Some (plainTerm k)
    end.

Definition sliceTerm (t : term) : option term :=
  match kind t with kindStringK => Some (plainTerm kindStringK) | kindSeqK => Some (plainTerm kindSeqK) | _ => None end.

(** [parseSubscriptIndex], in uint64. *)
Fixpoint indexFrom (digits : string) (n : Z) : Z :=
  match digits with EmptyString => n | String c r => indexFrom r (u64 (u64 (n * 10) + (code c - 48))) end.
Definition parseSubscriptIndex (digits : string) : Z := indexFrom digits 0.

(** The position an index names among [n], if there is one. *)
Definition position (n : nat) (neg : bool) (written : Z) : option nat :=
  let bound := Z.of_nat n in
  if neg then (if (bound <? written)%Z then None else if (bound <=? bound - written)%Z then None else Some (Z.to_nat (bound - written)))
  else if (bound <=? written)%Z then None else Some (Z.to_nat written).
Arguments position : simpl never.

Definition indexTerm (t : term) (neg : bool) (digits : string) : option term :=
  let written := parseSubscriptIndex digits in
  match kind t with
  | kindSeqK | kindStringK =>
      if neg && (written =? 0)%Z then None
      else if neg && bool_decide (kind t = kindStringK) then None
      else
        match indexBound t with
        | None => None
        | Some n =>
            match position n neg written with
            | None => Some (plainTerm kindUndefK)
            | Some idx =>
                match kind t with
                | kindStringK => Some (plainTerm kindStringK)
                | _ =>
                    match reached t with
                    | Some v => valueTerm <$> valueList v !! idx
                    | None => if bool_decide (listElem t = kindUnknown) then None else Some (plainTerm (listElem t))
                    end
                end
            end
        end
  | _ => None
  end.

(** ** The parser *)

(** The byte before the position and the text after it. *)
Record cursor := mkPos { prev : option ascii; rest : string }.

Fixpoint advance (n : nat) (p : cursor) : cursor :=
  match n, rest p with S n, String c r => advance n (mkPos (Some c) r) | _, _ => p end.
(** Past the longest prefix of bytes that satisfy [f], which it returns. *)
Fixpoint takeWhile (f : ascii -> bool) (before : option ascii) (s : string) : string * cursor :=
  match s with
  | String c r => if f c then let '(t, p) := takeWhile f (Some c) r in (String c t, p) else (EmptyString, mkPos before s)
  | EmptyString => (EmptyString, mkPos before s)
  end.
Definition skipBlanks (p : cursor) : cursor := (takeWhile isSpaceByte (prev p) (rest p)).2.

Definition acceptTok (tok : string) (p : cursor) : option cursor :=
  if HasPrefix (rest (skipBlanks p)) tok then Some (advance (String.length tok) (skipBlanks p)) else None.

Definition identAt (s : string) : bool := match s with String c _ => isIdentByte c | EmptyString => false end.
Definition acceptWord (word : string) (p : cursor) : option cursor :=
  match CutPrefix word (rest (skipBlanks p)) with
  | Some after =>
      if identAt after then None
      else if match prev (skipBlanks p) with Some c => isIdentByte c | None => false end then None
      else Some (advance (String.length word) (skipBlanks p))
  | None => None
  end.

Definition parseIdent (p : cursor) : option (string * cursor) :=
  let '(name, p') := takeWhile isIdentByte (prev (skipBlanks p)) (rest (skipBlanks p)) in if name =s "" then None else Some (name, p').

(** [skipTestArgument]: past the closing parenthesis. *)
Fixpoint testArgument (s : string) (q : option ascii) : option string :=
  match s with
  | EmptyString => None
  | String c r =>
      match q with
      | Some quote => if c =c backslash then None else if c =c quote then testArgument r None else testArgument r q
      | None => if isQuote c then testArgument r (Some c) else if c =c "(" then None else if c =c ")" then Some r else testArgument r None
      end
  end.

(** To the text [after], a suffix of the rest. *)
Definition moveTo (after : string) (p : cursor) : cursor := advance (String.length (rest p) - String.length after) p.

(** What the parser does at each production; [None] refuses. *)
Record gactions (T P : Type) := mkGActions {
  g_string : string -> T; g_number : string -> T; g_list : string -> T; g_paren : P -> T;
  g_bool : bool -> T; g_none : T; g_this : T;
  g_neg : T -> option T; g_field : T -> string -> option T; g_slice : T -> string -> option T; g_key : T -> string -> option T;
  g_index : T -> bool -> string -> option T; g_filter : T -> string -> option T; g_test : T -> bool -> string -> T;
  g_cmp : string -> T -> T -> option P; g_bare : T -> option P
}.
Arguments g_string {T P}. Arguments g_number {T P}. Arguments g_list {T P}. Arguments g_paren {T P}. Arguments g_bool {T P}.
Arguments g_none {T P}. Arguments g_this {T P}. Arguments g_neg {T P}. Arguments g_field {T P}. Arguments g_slice {T P}.
Arguments g_key {T P}. Arguments g_index {T P}. Arguments g_filter {T P}. Arguments g_test {T P}. Arguments g_cmp {T P}. Arguments g_bare {T P}.

Inductive gres (X : Type) := GFuel | GRefuse | GDone (x : X) (p : cursor).
Arguments GFuel {X}. Arguments GRefuse {X}. Arguments GDone {X}.
Definition answer {X} (x : option X) (p : cursor) : gres X := match x with Some x => GDone x p | None => GRefuse end.

Fixpoint acceptOne (toks : list string) (p : cursor) : option (string * cursor) :=
  match toks with [] => None | tok :: toks => match acceptTok tok p with Some q => Some (tok, q) | None => acceptOne toks p end end.
Arguments acceptOne : simpl never.
Arguments acceptTok : simpl never.
Arguments acceptWord : simpl never.

Section gate_parser.
Context {T P : Type} (A : gactions T P).

(** [subscriptTerm], after the bracket. *)
Definition subscript (t : T) (p : cursor) : gres T :=
  let p := skipBlanks p in
  match match CutByte "]" (rest p) with Some (region, after) => if Contains region ":" then Some (region, after) else None | None => None end with
  | Some (region, after) => answer (g_slice A t region) (moveTo (String "]" after) p)
  | None =>
      if match rest p with String c _ => isQuote c | EmptyString => false end then
        match skipStringLiteral (rest p) with
        | Some (key, after) => answer (g_key A t key) (moveTo after p)
        | None => GRefuse
        end
      else
        let '(neg, p) := match rest p with String c _ => if c =c "-" then (true, advance 1 p) else (false, p) | EmptyString => (false, p) end in
        let '(digits, p) := takeWhile isDigit (prev p) (rest p) in
        if digits =s "" then GRefuse else answer (g_index A t neg digits) p
  end.

Definition literalPrimary (p : cursor) : gres T :=
  match parseIdent p with
  | None => GRefuse
  | Some (word, q) =>
      if word =s "true" then GDone (g_bool A true) q
      else if word =s "false" then GDone (g_bool A false) q
      else if (word =s "none") || (word =s "null") then GDone (g_none A) q
      else if word =s "this" then GDone (g_this A) q
      else GRefuse
  end.

(** The postfix loop of [parseTerm]. *)
Fixpoint postfixes (fuel : nat) (t : T) (p : cursor) {struct fuel} : gres T :=
  match fuel with
  | O => GFuel
  | S fuel =>
      match acceptTok "." p with
      | Some q =>
          match parseIdent q with
          | Some (name, q) => match g_field A t name with Some t => postfixes fuel t q | None => GRefuse end
          | None => GRefuse
          end
      | None =>
          match acceptTok "[" p with
          | Some q =>
              match subscript t q with
              | GDone t q => match acceptTok "]" q with Some q => postfixes fuel t q | None => GRefuse end
              | y => y
              end
          | None =>
              match acceptTok "|" p with
              | Some q =>
                  match parseIdent q with
                  | Some (name, q) =>
                      if bool_decide (is_Some (acceptTok "(" q)) then GRefuse
                      else match g_filter A t name with Some t => postfixes fuel t q | None => GRefuse end
                  | None => GRefuse
                  end
              | None =>
                  match acceptWord "is" p with
                  | Some q =>
                      let '(negated, q) := match acceptWord "not" q with Some q' => (true, q') | None => (false, q) end in
                      match parseIdent q with
                      | Some (name, q) =>
                          match acceptTok "(" q with
                          | Some q =>
                              match testArgument (rest q) None with
                              | Some after => postfixes fuel (g_test A t negated name) (moveTo after q)
                              | None => GRefuse
                              end
                          | None => postfixes fuel (g_test A t negated name) q
                          end
                      | None => GRefuse
                      end
                  | None => GDone t p
                  end
              end
          end
      end
  end.

Fixpoint parsePredicate (fuel : nat) (p : cursor) {struct fuel} : gres P :=
  match fuel with
  | O => GFuel
  | S fuel =>
      match parseTerm fuel p with
      | GDone l q =>
          match acceptOne comparisons q with
          | Some (op, q) => match parseTerm fuel q with GDone r q => answer (g_cmp A op l r) q | GRefuse => GRefuse | GFuel => GFuel end
          | None => answer (g_bare A l) q
          end
      | GRefuse => GRefuse
      | GFuel => GFuel
      end
  end
with parseTerm (fuel : nat) (p : cursor) {struct fuel} : gres T :=
  match fuel with
  | O => GFuel
  | S fuel =>
      match acceptTok "-" p with
      | Some q => match parseTerm fuel q with GDone t q => answer (g_neg A t) q | y => y end
      | None => match parsePrimary fuel p with GDone t q => postfixes fuel t q | y => y end
      end
  end
with parsePrimary (fuel : nat) (p : cursor) {struct fuel} : gres T :=
  match fuel with
  | O => GFuel
  | S fuel =>
      let p := skipBlanks p in
      match rest p with
      | EmptyString => GRefuse
      | String c _ =>
          if isQuote c then
            match skipStringLiteral (rest p) with Some (inner, after) => GDone (g_string A inner) (moveTo after p) | None => GRefuse end
          else if isDigit c then
            let '(run, q) := takeWhile isNumericTokenByte (prev p) (rest p) in
            if isProvablySmallNumber run then GDone (g_number A run) q else GRefuse
          else if c =c "[" then
            match matchingBracket (rest p) with
            | Some (region, after) => if listLiteralRegionIsSafe region then GDone (g_list A region) (moveTo after p) else GRefuse
            | None => GRefuse
            end
          else if c =c "(" then
            match parsePredicate fuel (advance 1 p) with
            | GDone x q => match acceptTok ")" q with Some q => GDone (g_paren A x) q | None => GRefuse end
            | GRefuse => GRefuse
            | GFuel => GFuel
            end
          else literalPrimary p
      end
  end.

(** The whole text, with enough fuel. *)
Definition parseGate (expr : string) : option P :=
  match parsePredicate (4 * String.length expr + 4) (mkPos None expr) with
  | GDone x q => if rest (skipBlanks q) =s "" then Some x else None
  | _ => None
  end.
End gate_parser.

(** The code's actions. *)
Definition stringTerm (inner : string) : term :=
  mkTerm kindStringK None kindUnknown (if ContainsByte backslash inner then None else Some (length (runes inner))).
Definition listTerm (region : string) : term :=
  let elem := listLiteralElementKind region in
  mkTerm kindSeqK None elem (if bool_decide (elem = kindUnknown) then None else Some (length (splitTopLevelCommas region))).
Definition keyTerm (t : term) (key : string) : option term := fieldTerm t key.
Definition negTerm (t : term) : option term := if bool_decide (kind t = kindNumberK) then Some (plainTerm kindNumberK) else None.
Definition comparePred (l r : term) : option unit :=
  if bool_decide (kind l = kind r) && comparableKind (kind l) then Some tt else None.
Definition barePred (l : term) : option unit := if bool_decide (kind l = kindUnknown) then None else Some tt.

Definition gateActions (this : ConstraintValue) : gactions term unit := {|
  g_string := stringTerm; g_number _ := plainTerm kindNumberK; g_list := listTerm; g_paren _ := plainTerm kindBoolK;
  g_bool _ := plainTerm kindBoolK; g_none := plainTerm kindNoneK; g_this := valueTerm this;
  g_neg := negTerm; g_field := fieldTerm; g_slice t _ := sliceTerm t; g_key := keyTerm;
  g_index := indexTerm; g_filter := filterTerm; g_test _ _ _ := plainTerm kindBoolK;
  g_cmp _ := comparePred; g_bare := barePred
|}.

Definition operatorShapeIsProven (this : ConstraintValue) (expr : string) : bool :=
  bool_decide (is_Some (parseNumeric expr)) || bool_decide (is_Some (parseGate (gateActions this) expr)).

Example gate_nested :
  let this := MapValue [("a", MapValue [("name", IntValue 5)]); ("name", StringValue "x"); ("s", StringValue "hey")]%string in
  operatorShapeIsProven this "this.a.name == 7" = true /\ operatorShapeIsProven this "this.a.name == 'x'" = false
  /\ operatorShapeIsProven this "this.s[2] == 'x'" = true /\ operatorShapeIsProven this "this.s[3] == 'x'" = false
  /\ operatorShapeIsProven this "this.q is not defined" = true /\ operatorShapeIsProven this "[1, 2]|reverse|first <= 2" = true.
Proof. vm_compute. auto 10. Qed.

(** ** The expression a text denotes *)

Inductive gexpr :=
  | EString (inner : string) | ENumber (run : string) | EList (region : string) | EParen (p : gpred)
  | EBool (b : bool) | ENone | EThis
  | ENeg (e : gexpr) | EField (e : gexpr) (name : string) | ESlice (e : gexpr) (region : string) | EKey (e : gexpr) (key : string)
  | EIndex (e : gexpr) (neg : bool) (digits : string) | EFilter (e : gexpr) (name : string) | ETest (e : gexpr) (negated : bool) (name : string)
with gpred :=
  | PCompare (op : string) (l r : gexpr)
  | PBare (e : gexpr).
Scheme gexpr_mut := Induction for gexpr Sort Prop
  with gpred_mut := Induction for gpred Sort Prop.

Definition exprGActions : gactions gexpr gpred := {|
  g_string := EString; g_number := ENumber; g_list := EList; g_paren := EParen; g_bool := EBool; g_none := ENone; g_this := EThis;
  g_neg e := Some (ENeg e); g_field e n := Some (EField e n); g_slice e r := Some (ESlice e r); g_key e k := Some (EKey e k);
  g_index e b d := Some (EIndex e b d); g_filter e n := Some (EFilter e n); g_test := ETest;
  g_cmp op l r := Some (PCompare op l r); g_bare e := Some (PBare e)
|}.
Definition parsePred (expr : string) : option gpred := parseGate exprGActions expr.

Section agreement.
Context (this : ConstraintValue).

Fixpoint infer (e : gexpr) : option term :=
  match e with
  | EString inner => Some (stringTerm inner)
  | ENumber _ => Some (plainTerm kindNumberK)
  | EList region => Some (listTerm region)
  | EParen p => match inferPred p with Some _ => Some (plainTerm kindBoolK) | None => None end
  | EBool _ => Some (plainTerm kindBoolK)
  | ENone => Some (plainTerm kindNoneK)
  | EThis => Some (valueTerm this)
  | ENeg e => infer e ≫= negTerm
  | EField e name => t ← infer e; fieldTerm t name
  | ESlice e _ => infer e ≫= sliceTerm
  | EKey e key => t ← infer e; keyTerm t key
  | EIndex e neg digits => t ← infer e; indexTerm t neg digits
  | EFilter e name => t ← infer e; filterTerm t name
  | ETest e _ _ => match infer e with Some _ => Some (plainTerm kindBoolK) | None => None end
  end
with inferPred (p : gpred) : option unit :=
  match p with
  | PCompare _ l r => x ← infer l; y ← infer r; comparePred x y
  | PBare e => infer e ≫= barePred
  end.

Definition agreeT (x : gres term) (y : gres gexpr) : Prop :=
  match x with GDone t p => exists e, y = GDone e p /\ infer e = Some t | _ => True end.
Definition agreeP (x : gres unit) (y : gres gpred) : Prop :=
  match x with GDone _ p => exists e, y = GDone e p /\ inferPred e = Some tt | _ => True end.

Lemma answer_agree (x : option term) e p : (forall t, x = Some t -> infer e = Some t) -> agreeT (answer x p) (GDone e p).
Proof. destruct x as [t|]; simpl; [|done]. intros H. exists e. split; [done|by apply H]. Qed.

Lemma subscript_agree t e p : infer e = Some t -> agreeT (subscript (gateActions this) t p) (subscript exprGActions e p).
Proof.
  intros He. unfold subscript.
  destruct (match CutByte "]" (rest (skipBlanks p)) with Some (region, after) => if Contains region ":" then Some (region, after) else None | None => None end) as [[region after]|].
  { apply answer_agree. intros t' Ht. simpl. by rewrite He. }
  destruct (match rest (skipBlanks p) with String c _ => isQuote c | EmptyString => false end).
  { destruct (skipStringLiteral (rest (skipBlanks p))) as [[key after]|]; [|done]. apply answer_agree. intros t' Ht. simpl. by rewrite He. }
  destruct (match rest (skipBlanks p) with String c _ => if c =c "-" then (true, advance 1 (skipBlanks p)) else (false, skipBlanks p) | EmptyString => (false, skipBlanks p) end) as [neg q].
  destruct (takeWhile isDigit (prev q) (rest q)) as [digits q']. destruct (digits =s ""); [done|].
  apply answer_agree. intros t' Ht. simpl. by rewrite He.
Qed.

Lemma postfixes_agree fuel t e p : infer e = Some t -> agreeT (postfixes (gateActions this) fuel t p) (postfixes exprGActions fuel e p).
Proof.
  revert t e p. induction fuel as [|fuel IH]; intros t e p He; [done|]. simpl.
  destruct (acceptTok "." p) as [q|].
  { destruct (parseIdent q) as [[name q']|]; [|done]. destruct (fieldTerm t name) as [t'|] eqn:E; [|done]. apply IH. simpl. by rewrite He. }
  destruct (acceptTok "[" p) as [q|].
  { pose proof (subscript_agree t e q He) as Hs. destruct (subscript (gateActions this) t q) as [| |t' q']; [done|done|].
    destruct Hs as (e'&->&He'). destruct (acceptTok "]" q'); [|done]. by apply IH. }
  destruct (acceptTok "|" p) as [q|].
  { destruct (parseIdent q) as [[name q']|]; [|done]. destruct (bool_decide _); [done|].
    destruct (filterTerm t name) as [t'|] eqn:E; [|done]. apply IH. simpl. by rewrite He. }
  destruct (acceptWord "is" p) as [q|]; [|by exists e].
  destruct (match acceptWord "not" q with Some q' => (true, q') | None => (false, q) end) as [negated q'].
  destruct (parseIdent q') as [[name q'']|]; [|done].
  destruct (acceptTok "(" q'') as [q3|]; [destruct (testArgument (rest q3) None); [|done]|]; apply IH; simpl; by rewrite He.
Qed.

Lemma literal_agree p : agreeT (literalPrimary (gateActions this) p) (literalPrimary exprGActions p).
Proof.
  unfold literalPrimary. destruct (parseIdent p) as [[word q]|]; [|done].
  repeat (case_match; [simpl; eexists; split; [reflexivity|done]|]). done.
Qed.

Lemma gate_agree fuel :
  (forall p, agreeP (parsePredicate (gateActions this) fuel p) (parsePredicate exprGActions fuel p))
  /\ (forall p, agreeT (parseTerm (gateActions this) fuel p) (parseTerm exprGActions fuel p))
  /\ (forall p, agreeT (parsePrimary (gateActions this) fuel p) (parsePrimary exprGActions fuel p)).
Proof.
  induction fuel as [|fuel (IP&IT&IR)]; [done|]. split_and!; intros p; simpl.
  - specialize (IT p) as Hl. destruct (parseTerm (gateActions this) fuel p) as [| |l q]; [done|done|]. destruct Hl as (e&->&He).
    destruct (acceptOne comparisons q) as [[op q']|].
    + specialize (IT q') as Hr. destruct (parseTerm (gateActions this) fuel q') as [| |r q'']; [done|done|]. destruct Hr as (e'&->&He').
      destruct (comparePred l r) as [[]|] eqn:E; simpl; [|done]. eexists. split; [done|]. simpl. by rewrite He, He'.
    + destruct (barePred l) as [[]|] eqn:E; simpl; [|done]. eexists. split; [done|]. simpl. by rewrite He.
  - destruct (acceptTok "-" p) as [q|].
    + specialize (IT q) as Hl. destruct (parseTerm (gateActions this) fuel q) as [| |l q']; [done|done|]. destruct Hl as (e&->&He).
      apply answer_agree. intros t Ht. simpl. by rewrite He.
    + specialize (IR p) as Hl. destruct (parsePrimary (gateActions this) fuel p) as [| |l q']; [done|done|]. destruct Hl as (e&->&He).
      by apply postfixes_agree.
  - destruct (rest (skipBlanks p)) as [|c r] eqn:Er; [done|].
    destruct (isQuote c). { destruct (skipStringLiteral (String c r)) as [[inner after]|]; [|done]. by eexists. }
    destruct (isDigit c).
    { destruct (takeWhile isNumericTokenByte (prev (skipBlanks p)) (String c r)) as [run q]. destruct (isProvablySmallNumber run); [|done]. by eexists. }
    destruct (c =c "["). { destruct (matchingBracket (String c r)) as [[region after]|]; [|done]. destruct (listLiteralRegionIsSafe region); [|done]. by eexists. }
    destruct (c =c "("); [|apply literal_agree].
    specialize (IP (mkPos (Some c) r)). destruct (parsePredicate (gateActions this) fuel _) as [| |x q]; [done|done|]. destruct IP as (e&->&He).
    destruct (acceptTok ")" q); [|done]. eexists. split; [done|]. simpl. by rewrite He.
Qed.

Lemma parseGate_pred expr : is_Some (parseGate (gateActions this) expr) -> exists p, parsePred expr = Some p /\ inferPred p = Some tt.
Proof.
  unfold parsePred, parseGate. pose proof (proj1 (gate_agree (4 * String.length expr + 4)) (mkPos None expr)) as H.
  destruct (parsePredicate (gateActions this) _ _) as [| |x q]; [by intros []|by intros []|]. destruct H as (e&->&He).
  destruct (rest (skipBlanks q) =s ""); [|by intros []]. eauto.
Qed.
End agreement.

(** ** What an expression evaluates to *)

(** The expression engine: literals, negation, filters, tests, slices and comparisons;
    the outer option is an evaluation error, the inner one an undefined value. *)
Record exprEngine := mkEngine {
  e_number : string -> ConstraintValue;
  e_negate : ConstraintValue -> option ConstraintValue;
  e_filter : string -> option ConstraintValue -> option (option ConstraintValue);
  e_test : bool -> string -> option ConstraintValue -> option bool;
  e_slice : string -> ConstraintValue -> option ConstraintValue;
  e_compare : string -> option ConstraintValue -> option ConstraintValue -> option bool
}.

(** What the gate relies on: the kinds of the results, and that [list] and [reverse]
    permute a list while [first] and [last] pick one of its elements. *)
Class EngineLaws (E : exprEngine) : Prop := {
  number_kind : forall run, constraintValueKind (e_number E run) = kindNumberK;
  negate_kind : forall v w, e_negate E v = Some w -> constraintValueKind w = kindNumberK;
  filter_number : forall name v r, filterResultKind name = kindNumberK -> e_filter E name v = Some r ->
    exists w, r = Some w /\ constraintValueKind w = kindNumberK;
  filter_permutes : forall name l r, filterResultKind name = kindSeqK -> e_filter E name (Some (ListValue l)) = Some r ->
    exists l', r = Some (ListValue l') /\ l' ≡ₚ l;
  filter_picks : forall name l r, name = "first"%string \/ name = "last"%string -> l <> [] -> e_filter E name (Some (ListValue l)) = Some r ->
    exists w, r = Some w /\ w ∈ l;
  slice_string : forall region v w, constraintValueKind v = kindStringK -> e_slice E region v = Some w -> constraintValueKind w = kindStringK
}.

(** The element at an index, negative ones from the end. *)
Definition at_index {X} (l : list X) (z : Z) : option X :=
  if (0 <=? z)%Z then l !! Z.to_nat z
  else if (0 <=? Z.of_nat (length l) + z)%Z then l !! Z.to_nat (Z.of_nat (length l) + z) else None.
Definition elementValue (E : exprEngine) (element : string) : ConstraintValue :=
  let t := TrimSpace element in
  if match t with String c _ => isQuote c | EmptyString => false end then StringValue (from_option fst ""%string (skipStringLiteral t))
  else e_number E t.
Definition listElements (E : exprEngine) (region : string) : list ConstraintValue :=
  if TrimSpace region =s "" then [] else elementValue E <$> splitTopLevelCommas region.

Section semantics.
Context (E : exprEngine) (this : ConstraintValue).

Fixpoint eval (e : gexpr) : option (option ConstraintValue) :=
  match e with
  | EString inner => Some (Some (StringValue inner))
  | ENumber run => Some (Some (e_number E run))
  | EList region => Some (Some (ListValue (listElements E region)))
  | EParen p => evalPred p
  | EBool b => Some (Some (BoolValue b))
  | ENone => Some (Some NullValue)
  | EThis => Some (Some this)
  | ENeg e => v ← eval e; x ← v; Some <$> e_negate E x
  | EField e name | EKey e name =>
      v ← eval e; match v with Some (MapValue es | ClassValue _ es) => Some (findEntry name es) | _ => None end
  | ESlice e region => v ← eval e; x ← v; Some <$> e_slice E region x
  | EIndex e neg digits =>
      v ← eval e;
      let n := digitsValue 0 digits in
      match v with
      | Some (ListValue l) => Some (at_index l (if neg then - n else n))
      | Some (StringValue s | EnumValue _ s) =>
          if neg then None else Some ((fun r => StringValue (ofRunes [r])) <$> at_index (runes s) n)
      | _ => None
      end
  | EFilter e name => v ← eval e; e_filter E name v
  | ETest e negated name => v ← eval e; b ← e_test E negated name v; Some (Some (BoolValue b))
  end
with evalPred (p : gpred) : option (option ConstraintValue) :=
  match p with
  | PCompare op l r => x ← eval l; y ← eval r; b ← e_compare E op x y; Some (Some (BoolValue b))
  | PBare e => eval e
  end.
End semantics.

(** ** The inferred kinds are those of the values *)

(** Indexes are written in at most 15 digits, and what stands in parentheses is a
    comparison or a test. *)
Definition booleanPred (p : gpred) : bool := match p with PCompare _ _ _ | PBare (ETest _ _ _) => true | _ => false end.
Fixpoint plain (e : gexpr) : bool :=
  match e with
  | EParen p => booleanPred p && plainPred p
  | ENeg e | EField e _ | ESlice e _ | EKey e _ | EFilter e _ | ETest e _ _ => plain e
  | EIndex e _ digits => sall isDigit digits && (String.length digits <=? 15)%nat && plain e
  | _ => true
  end
with plainPred (p : gpred) : bool :=
  match p with PCompare _ l r => plain l && plain r | PBare e => plain e end.

(** What a term says of a value. *)
Record models (t : term) (v : option ConstraintValue) : Prop := {
  model_kind : comparableKind (kind t) = true -> exists x, v = Some x /\ constraintValueKind x = kind t;
  model_path : forall x, reached t = Some x -> v = Some x /\ kind t = constraintValueKind x;
  model_elem : reached t = None -> listElem t <> kindUnknown -> kind t = kindSeqK /\ exists l, v = Some (ListValue l) /\ l <> []
    /\ Forall (fun y => constraintValueKind y = listElem t) l /\ forall n, size t = Some n -> n = length l;
  model_text : reached t = None -> kind t = kindStringK -> forall n, size t = Some n -> exists s, v = Some (StringValue s) /\ n = length (runes s)
}.

Lemma plain_models k v : (comparableKind k = true -> exists x, v = Some x /\ constraintValueKind x = k) -> models (plainTerm k) v.
Proof. intros H. by split. Qed.
Lemma value_models x : models (valueTerm x) (Some x).
Proof. split; simpl; try done; [eauto|]. intros y [= ->]. done. Qed.

Lemma elementKind_list t v : models t v -> elementKind t <> kindUnknown -> exists l, v = Some (ListValue l) /\ l <> []
  /\ Forall (fun y => constraintValueKind y = elementKind t) l.
Proof.
  intros M. unfold elementKind. destruct (reached t) as [x|] eqn:Er.
  - destruct (model_path _ _ M x Er) as [-> _]. unfold valueListElementKind. destruct x; simpl; try done. destruct items as [|y l]; [done|].
    destruct (forallb _ l) eqn:Ef; [|done]. intros _. exists (y :: l). split_and!; [done|done|]. constructor; [done|].
    apply Forall_forall. intros z Hz. rewrite forallb_forall in Ef. apply list_elem_of_In in Hz. by apply Ef, bool_decide_eq_true in Hz.
  - intros Hk. destruct (model_elem _ _ M Er Hk) as (_&l&?&?&?&_). eauto.
Qed.

Lemma filter_models E `{!EngineLaws E} t v name t' r : models t v -> filterTerm t name = Some t' -> e_filter E name v = Some r -> models t' r.
Proof.
  intros M. unfold filterTerm, edgeElementTerm. destruct ((name =s "first") || (name =s "last")) eqn:En.
  - destruct (kind t); try done. case_bool_decide as Hu; [done|]. intros [= <-] Hf.
    destruct (elementKind_list t v M Hu) as (l&->&Hl&HF). apply plain_models. intros _.
    destruct (filter_picks name l r) as (w&->&Hw); [|done|done|]; [apply orb_true_iff in En as [En|En]; reflect_eqb; auto|].
    exists w. split; [done|]. by apply (Forall_forall (fun y => constraintValueKind y = elementKind t) l).
  - destruct (filterResultKind name) eqn:Ek; try done.
    + intros [= <-] Hf. apply plain_models. intros _. by apply (filter_number name v r Ek).
    + unfold filterResultKind in Ek. repeat case_match; done.
    + unfold filterResultKind in Ek. repeat case_match; done.
    + unfold filterResultKind in Ek. repeat case_match; done.
    + intros [= <-] Hf. split; simpl; try done. intros _ Hu. split; [done|]. destruct (elementKind_list t v M Hu) as (l&->&Hl&HF).
      destruct (filter_permutes name l r Ek Hf) as (l'&->&Hp). exists l'. split_and!; [done| |by rewrite Hp|].
      * intros ->. by apply Permutation_nil_l in Hp.
      * intros n Hn. rewrite Hp. unfold indexBound in Hn. destruct (reached t) as [x|] eqn:Er.
        -- destruct (model_path _ _ M x Er) as [[= <-] Hk]. rewrite Hk in Hn. simpl in Hn. congruence.
        -- unfold elementKind in Hu. rewrite Er in Hu. destruct (model_elem _ _ M Er Hu) as (_&l0&[= <-]&_&_&Hs). by apply Hs.
    + unfold filterResultKind in Ek. repeat case_match; done.
    + unfold filterResultKind in Ek. repeat case_match; done.
Qed.

Lemma indexFrom_exact digits n : sall isDigit digits = true -> (0 <= n)%Z -> (String.length digits <= 15)%nat ->
  (n < 10 ^ (15 - Z.of_nat (String.length digits)))%Z -> indexFrom digits n = digitsValue n digits /\ (0 <= digitsValue n digits < 10 ^ 15)%Z.
Proof.
  revert n. induction digits as [|c r IH]; intros n Hd Hn Hl Hb; simpl in *; [by replace (15 - 0)%Z with 15%Z in Hb by lia|].
  apply andb_true_iff in Hd as [Hc Hd]. apply digit_range in Hc.
  assert (H10 : (10 * n + (code c - 48) < 10 ^ (15 - Z.of_nat (String.length r)))%Z).
  { replace (15 - Z.of_nat (String.length r))%Z with (Z.succ (15 - Z.of_nat (S (String.length r)))) by lia. rewrite Z.pow_succ_r by lia. lia. }
  assert (Hbig : (10 ^ (15 - Z.of_nat (String.length r)) <= 10 ^ 15)%Z) by (apply Z.pow_le_mono_r; lia).
  rewrite (u64_id (n * 10)) by lia. rewrite u64_id by lia. replace (n * 10 + (code c - 48))%Z with (10 * n + (code c - 48))%Z by lia.
  apply IH; [done|lia|lia|lia].
Qed.

(** The gate and the engine agree on the position an index names. *)
Lemma position_at {X} (l : list X) neg n : (0 <= n)%Z -> (neg && (n =? 0)%Z) = false ->
  at_index l (if neg then - n else n) = (position (length l) neg n ≫= fun i => l !! i)
  /\ forall i, position (length l) neg n = Some i -> (i < length l)%nat.
Proof.
  intros Hn H0. unfold at_index, position. destruct neg; simpl in H0.
  - destruct (Z.leb_spec 0 (- n)); [lia|]. destruct (Z.ltb_spec (Z.of_nat (length l)) n).
    + split; [|done]. destruct (Z.leb_spec 0 (Z.of_nat (length l) + - n)); [lia|done].
    + destruct (Z.leb_spec (Z.of_nat (length l)) (Z.of_nat (length l) - n)); [lia|].
      destruct (Z.leb_spec 0 (Z.of_nat (length l) + - n)); [|lia]. rewrite Z.add_opp_r. split; [done|]. intros i [= <-]. lia.
  - destruct (Z.leb_spec 0 n); [|lia]. destruct (Z.leb_spec (Z.of_nat (length l)) n).
    + split; [|done]. simpl. apply lookup_ge_None. lia.
    + split; [done|]. intros i [= <-]. lia.
Qed.

(** An index of a list: its element or undefined. *)
Lemma index_list t l neg digits t' : models t (Some (ListValue l)) -> kind t = kindSeqK -> sall isDigit digits = true -> (String.length digits <= 15)%nat ->
  indexTerm t neg digits = Some t' -> models t' (at_index l (if neg then - digitsValue 0 digits else digitsValue 0 digits)).
Proof.
  intros M Hk Hd Hl. unfold indexTerm, parseSubscriptIndex. rewrite Hk.
  destruct (indexFrom_exact digits 0 Hd ltac:(lia) Hl ltac:(apply Z.pow_pos_nonneg; lia)) as [-> Hn].
  destruct (neg && (digitsValue 0 digits =? 0)%Z) eqn:H0; [done|]. rewrite andb_false_r.
  destruct (indexBound t) as [n|] eqn:Hb; [|done].
  destruct (position_at l neg (digitsValue 0 digits) ltac:(lia) H0) as [Hat Hlt]. rewrite Hat.
  unfold indexBound in Hb. destruct (reached t) as [x|] eqn:Er.
  - destruct (model_path _ _ M x Er) as [[= <-] _]. rewrite Hk in Hb. simpl in Hb. injection Hb as <-.
    destruct (position (length l) neg (digitsValue 0 digits)) as [i|] eqn:Hp; simpl.
    + destruct (lookup_lt_is_Some_2 l i (Hlt i eq_refl)) as [w Hw]. rewrite Hw. simpl. intros [= <-]. apply value_models.
    + intros [= <-]. by apply plain_models.
  - destruct (decide (listElem t = kindUnknown)) as [Hu|Hu].
    { destruct (position n neg _); [by rewrite bool_decide_true|]. intros [= <-]. by apply plain_models. }
    destruct (model_elem _ _ M Er Hu) as (_&l0&[= <-]&_&HF&Hs). rewrite (Hs n Hb) in *.
    destruct (position (length l) neg (digitsValue 0 digits)) as [i|] eqn:Hp; simpl; [|intros [= <-]; by apply plain_models].
    rewrite bool_decide_false by done. intros [= <-]. apply plain_models. intros _.
    destruct (lookup_lt_is_Some_2 l i (Hlt i eq_refl)) as [w Hw]. rewrite Hw. exists w. split; [done|]. exact (Forall_lookup_1 _ l i w HF Hw).
Qed.

(** An index of a text: its character or undefined. *)
Lemma index_text t x neg digits t' : models t (Some x) -> kind t = kindStringK -> sall isDigit digits = true -> (String.length digits <= 15)%nat ->
  indexTerm t neg digits = Some t' -> neg = false /\
  models t' ((fun r => StringValue (ofRunes [r])) <$> at_index (runes (valueText x)) (digitsValue 0 digits)).
Proof.
  intros M Hk Hd Hl. unfold indexTerm, parseSubscriptIndex. rewrite Hk.
  destruct (indexFrom_exact digits 0 Hd ltac:(lia) Hl ltac:(apply Z.pow_pos_nonneg; lia)) as [-> Hn].
  destruct neg; simpl; [destruct (digitsValue 0 digits =? 0)%Z; done|]. intros H. split; [done|]. revert H.
  destruct (indexBound t) as [n|] eqn:Hb; [|done].
  assert (En : n = length (runes (valueText x))).
  { unfold indexBound in Hb. destruct (reached t) as [y|] eqn:Er.
    - destruct (model_path _ _ M y Er) as [[= <-] _]. rewrite Hk in Hb. congruence.
    - destruct (model_text _ _ M Er Hk n Hb) as (s&[= ->]&->). done. }
  subst n. destruct (position_at (runes (valueText x)) false (digitsValue 0 digits) ltac:(lia) eq_refl) as [Hat Hlt].
  cbn [negb] in Hat. rewrite Hat. destruct (position (length (runes (valueText x))) false (digitsValue 0 digits)) as [i|] eqn:Hp; simpl; intros [= <-].
  - destruct (lookup_lt_is_Some_2 (runes (valueText x)) i (Hlt i eq_refl)) as [w Hw]. rewrite Hw. apply plain_models. simpl. eauto.
  - by apply plain_models.
Qed.

(** What is claimed of an index of a sequence rests on a list, or claims nothing. *)
Lemma index_seq t v neg digits t' : models t v -> kind t = kindSeqK -> indexTerm t neg digits = Some t' ->
  (exists l, v = Some (ListValue l)) \/ t' = plainTerm kindUndefK.
Proof.
  intros M Hk. unfold indexTerm. rewrite Hk. destruct (neg && _); [done|]. rewrite andb_false_r.
  destruct (reached t) as [y|] eqn:Er.
  - destruct (model_path _ _ M y Er) as [-> Hy]. intros _. left. rewrite Hk in Hy. destruct y; try done. eauto.
  - destruct (decide (listElem t = kindUnknown)) as [Hu|Hu].
    + destruct (indexBound t); [|done]. destruct (position _ _ _); [by rewrite bool_decide_true|]. right. congruence.
    + destruct (model_elem _ _ M Er Hu) as (_&l&->&_). eauto.
Qed.

Lemma index_models E this e neg digits t t' v : models t v -> eval E this e = Some v -> sall isDigit digits = true -> (String.length digits <= 15)%nat ->
  indexTerm t neg digits = Some t' -> forall r, eval E this (EIndex e neg digits) = Some r -> models t' r.
Proof.
  intros M He Hd Hl Ht r. simpl. rewrite He. simpl.
  destruct (kind t) eqn:Hk; try (unfold indexTerm in Ht; rewrite Hk in Ht; done).
  - pose proof (model_kind _ _ M) as Hx. rewrite Hk in Hx. destruct (Hx eq_refl) as (x&->&Hy).
    destruct (index_text t x neg digits t' M Hk Hd Hl Ht) as [-> Hm]. destruct x; try done; intros [= <-]; exact Hm.
  - destruct (index_seq t v neg digits t' M Hk Ht) as [[l ->]| ->]; [|intros _; by apply plain_models].
    intros [= <-]. by apply (index_list t).
Qed.

Lemma field_models t v name t' : models t v -> fieldTerm t name = Some t' ->
  forall r, match v with Some (MapValue es | ClassValue _ es) => Some (findEntry name es) | _ => None end = Some r -> models t' r.
Proof.
  intros M. unfold fieldTerm. destruct (kind t) eqn:Hk; try done. destruct (reached t) as [x|] eqn:Er; [|done].
  destruct (model_path _ _ M x Er) as [-> Hx]. intros [= <-] r. rewrite Hk in Hx. destruct x; try done; simpl; intros [= <-];
    (destruct (findEntry name _); [apply value_models|by apply plain_models]).
Qed.

Lemma slice_models E `{!EngineLaws E} t x region w t' : models t (Some x) -> sliceTerm t = Some t' -> e_slice E region x = Some w -> models t' (Some w).
Proof.
  intros M. unfold sliceTerm. destruct (kind t) eqn:Hk; try done; intros [= <-] Hs; apply plain_models; try done.
  intros _. pose proof (model_kind _ _ M) as Hx. rewrite Hk in Hx. destruct (Hx eq_refl) as (y&[= <-]&Hy). exists w. split; [done|].
  by apply (slice_string region x).
Qed.

Lemma element_kind E `{!EngineLaws E} element : elementTextKind (TrimSpace element) <> kindUnknown ->
  constraintValueKind (elementValue E element) = elementTextKind (TrimSpace element).
Proof.
  unfold elementValue, elementTextKind. destruct (TrimSpace element) as [|c r]; [done|]. intros _. destruct (isQuote c); [done|]. apply number_kind.
Qed.

Lemma commonKind_all E `{!EngineLaws E} elements common k : commonKind elements common = k -> k <> kindUnknown ->
  Forall (fun y => constraintValueKind y = k) (elementValue E <$> elements) /\ (common = kindUnknown \/ common = k).
Proof.
  revert common. induction elements as [|e rest IH]; intros common H Hk; simpl in *; [split; [constructor|by right]|].
  case_bool_decide as Hu; [congruence|]. case_bool_decide as Hc.
  - subst common. destruct (IH _ H Hk) as [HF [Hx|Hx]]; [done|]. split; [|by left]. constructor; [|done]. rewrite <- Hx. by apply element_kind.
  - case_bool_decide as Hs; [|congruence]. destruct (IH _ H Hk) as [HF [Hx|Hx]]; [done|]. split; [|by right]. constructor; [|done].
    rewrite <- Hx, Hs. by apply element_kind.
Qed.

Lemma list_models E `{!EngineLaws E} region : models (listTerm region) (Some (ListValue (listElements E region))).
Proof.
  split; simpl; try done. intros _ Hu. split; [done|]. eexists. split; [done|]. unfold listLiteralElementKind, listElements in *.
  destruct (TrimSpace region =s "") eqn:Et; [done|]. destruct (commonKind_all E _ _ _ eq_refl Hu) as [HF _].
  split_and!; [|done|].
  - unfold splitTopLevelCommas. destruct (splitCommas region None) as [[x l]|]; done.
  - intros n. rewrite bool_decide_false by done. intros [= <-]. by rewrite length_fmap.
Qed.

Section soundness.
Context (E : exprEngine) `{!EngineLaws E} (this : ConstraintValue).

Definition termSound (e : gexpr) : Prop := forall t v, infer this e = Some t -> plain e = true -> eval E this e = Some v -> models t v.
Definition predSound (p : gpred) : Prop := inferPred this p = Some tt -> plainPred p = true -> booleanPred p = true ->
  forall v, evalPred E this p = Some v -> exists b, v = Some (BoolValue b).

Lemma expr_sound e : termSound e.
Proof.
  apply (gexpr_mut termSound predSound); unfold termSound, predSound; clear e; simpl.
  - intros inner t v [= <-] _ [= <-]. split; simpl; try done; [eauto|]. intros _ _ n Hn. exists inner.
    destruct (ContainsByte backslash inner); [done|]. by injection Hn as <-.
  - intros run t v [= <-] _ [= <-]. apply plain_models. intros _. eexists. split; [done|]. apply number_kind.
  - intros region t v [= <-] _ [= <-]. by apply list_models.
  - intros p IH t v. destruct (inferPred this p) as [[]|]; [|done]. intros [= <-] [Hb Hp]%andb_true_iff Hv.
    destruct (IH eq_refl Hp Hb v Hv) as [b ->]. apply plain_models. simpl. eauto.
  - intros b t v [= <-] _ [= <-]. apply plain_models. simpl. eauto.
  - intros t v [= <-] _ [= <-]. by apply plain_models.
  - intros t v [= <-] _ [= <-]. apply value_models.
  - intros e IH t v. destruct (infer this e) as [t0|]; [|done]. destruct (eval E this e) as [[x|]|]; try done. simpl.
    unfold negTerm. case_bool_decide; [|done]. intros [= <-] Hp Hv. destruct (e_negate E x) as [w|] eqn:En; [|done]. simplify_eq/=.
    apply plain_models. intros _. exists w. split; [done|]. by apply (negate_kind x).
  - intros e IH name t v. destruct (infer this e) as [t0|]; [|done]. destruct (eval E this e) as [v0|]; [|done]. simpl. intros Ht Hp Hv.
    by apply (field_models t0 v0 name t (IH t0 v0 eq_refl Hp eq_refl) Ht).
  - intros e IH region t v. destruct (infer this e) as [t0|]; [|done]. destruct (eval E this e) as [[x|]|]; try done. simpl. intros Ht Hp Hv.
    destruct (e_slice E region x) as [w|] eqn:Es; [|done]. simplify_eq/=. by apply (slice_models E t0 x region w t (IH t0 _ eq_refl Hp eq_refl) Ht).
  - intros e IH key t v. destruct (infer this e) as [t0|]; [|done]. destruct (eval E this e) as [v0|]; [|done]. simpl. intros Ht Hp Hv.
    by apply (field_models t0 v0 key t (IH t0 v0 eq_refl Hp eq_refl) Ht).
  - intros e IH neg digits t v. destruct (infer this e) as [t0|]; [|done]. simpl. intros Ht [[Hd Hl]%andb_true_iff Hp]%andb_true_iff Hv.
    destruct (eval E this e) as [v0|] eqn:Ev; [|done]. eapply (index_models E this e neg digits t0 t v0); try done; [by apply IH|by apply Nat.leb_le|].
    simpl. rewrite Ev. exact Hv.
  - intros e IH name t v. destruct (infer this e) as [t0|]; [|done]. destruct (eval E this e) as [v0|]; [|done]. simpl. intros Ht Hp Hv.
    by apply (filter_models E t0 v0 name t v (IH t0 v0 eq_refl Hp eq_refl) Ht).
  - intros e IH negated name t v. destruct (infer this e) as [t0|]; [|done]. intros [= <-] Hp.
    destruct (eval E this e) as [v0|]; [|done]. simpl. destruct (e_test E negated name v0) as [b|]; [|done]. intros [= <-].
    apply plain_models. simpl. eauto.
  - intros op l _ r _ _ _ _ v. destruct (eval E this l) as [x|]; [|done]. destruct (eval E this r) as [y|]; [|done]. simpl.
    destruct (e_compare E op x y) as [b|]; [|done]. intros [= <-]. eauto.
  - intros e _ _ _ Hb v. destruct e; try done. simpl. destruct (eval E this e) as [v0|]; [|done]. simpl.
    destruct (e_test E negated name v0) as [b|]; [|done]. intros [= <-]. eauto.
Qed.

(** An admitted comparison compares two values of one comparable kind. *)
Lemma compare_sound op l r a b : inferPred this (PCompare op l r) = Some tt -> plain l = true -> plain r = true ->
  eval E this l = Some a -> eval E this r = Some b ->
  exists x y, a = Some x /\ b = Some y /\ constraintValueKind x = constraintValueKind y /\ comparableKind (constraintValueKind x) = true.
Proof.
  simpl. destruct (infer this l) as [tl|] eqn:El; [|done]. destruct (infer this r) as [tr|] eqn:Er; [|done]. simpl. unfold comparePred.
  case_bool_decide as Hk; [|done]. destruct (comparableKind (kind tl)) eqn:Hc; [|done]. intros _ Pl Pr Ea Eb.
  destruct (model_kind _ _ (expr_sound l tl a El Pl Ea) Hc) as (x&->&Hx). rewrite Hk in Hc.
  destruct (model_kind _ _ (expr_sound r tr b Er Pr Eb) Hc) as (y&->&Hy). exists x, y. split_and!; [done|done|congruence|]. by rewrite Hx, Hk.
Qed.
End soundness.

(** ** Tokens of an admitted text are small *)

(** [everyNumericTokenIsProvablySmall]: [inRun] when the byte before belongs to the run. *)
Fixpoint everySmall (s : string) (inRun : bool) : bool :=
  match s with
  | EmptyString => true
  | String c r =>
      if isNumericTokenByte c then
        (inRun || negb (isDigit c) || isProvablySmallNumber (span isNumericTokenByte s).1) && everySmall r true
      else everySmall r false
  end.
Definition everyNumericTokenIsProvablySmall (expr : string) : bool := everySmall expr false.

Fixpoint indexesOk (e : gexpr) : bool :=
  match e with
  | EParen p => indexesOkPred p
  | ENeg e | EField e _ | ESlice e _ | EKey e _ | EFilter e _ | ETest e _ _ => indexesOk e
  | EIndex e _ digits => sall isDigit digits && (String.length digits <=? 15)%nat && indexesOk e
  | _ => true
  end
with indexesOkPred (p : gpred) : bool := match p with PCompare _ l r => indexesOk l && indexesOk r | PBare e => indexesOk e end.

(** Parentheses hold comparisons or tests. *)
Fixpoint parensBoolean (e : gexpr) : bool :=
  match e with
  | EParen p => booleanPred p && parensBooleanPred p
  | ENeg e | EField e _ | ESlice e _ | EKey e _ | EFilter e _ | ETest e _ _ | EIndex e _ _ => parensBoolean e
  | _ => true
  end
with parensBooleanPred (p : gpred) : bool := match p with PCompare _ l r => parensBoolean l && parensBoolean r | PBare e => parensBoolean e end.

Lemma plain_split e : indexesOk e = true -> parensBoolean e = true -> plain e = true.
Proof.
  apply (gexpr_mut (fun e => indexesOk e = true -> parensBoolean e = true -> plain e = true)
    (fun p => indexesOkPred p = true -> parensBooleanPred p = true -> plainPred p = true)); clear e; simpl; try done.
  - intros p IH Hi [Hb Hp]%andb_true_iff. rewrite Hb. by apply IH.
  - intros e IH neg digits [Hd Hi]%andb_true_iff Hp. rewrite Hd. by apply IH.
  - intros _ l IHl r IHr [Il Ir]%andb_true_iff [Pl Pr]%andb_true_iff. rewrite IHl, IHr; done.
Qed.

(** The bytes before a cursor do not matter to what the token test says of the rest. *)
Definition tokenBefore (o : option ascii) : bool := match o with Some c => isNumericTokenByte c | None => false end.
Definition smallAt (p : cursor) : Prop := everySmall (rest p) (tokenBefore (prev p)) = true.

Lemma everySmall_next c r f : everySmall (String c r) f = true -> everySmall r (isNumericTokenByte c) = true.
Proof. simpl. destruct (isNumericTokenByte c); [|done]. by intros [_ H]%andb_true_iff. Qed.
Lemma advance_small n p : smallAt p -> smallAt (advance n p).
Proof.
  revert p. induction n as [|n IH]; intros [b s] H; simpl; [done|]. destruct s as [|c r]; [done|]. apply IH. by eapply everySmall_next.
Qed.
Lemma takeWhile_small f before s : smallAt (mkPos before s) -> smallAt (takeWhile f before s).2.
Proof.
  revert before. induction s as [|c r IH]; intros before H; simpl; [done|]. destruct (f c); [|done].
  specialize (IH (Some c)). destruct (takeWhile f (Some c) r) as [t p]. apply IH. by eapply everySmall_next.
Qed.
Lemma skip_small p : smallAt p -> smallAt (skipBlanks p).
Proof. destruct p as [b s]. apply takeWhile_small. Qed.
Lemma moveTo_small after p : smallAt p -> smallAt (moveTo after p).
Proof. apply advance_small. Qed.

Lemma skip_quiet p : tokenBefore (prev p) = false -> tokenBefore (prev (skipBlanks p)) = false.
Proof.
  destruct p as [b s]. unfold skipBlanks. simpl. revert b. induction s as [|c r IH]; intros b H; simpl; [done|].
  destruct (isSpaceByte c) eqn:E; [|done]. specialize (IH (Some c)). destruct (takeWhile isSpaceByte (Some c) r). apply IH. simpl.
  unfold isSpaceByte in E. repeat (apply orb_true_iff in E as [E|E]); apply Ascii.eqb_eq in E as ->; done.
Qed.
Lemma acceptTok_small tok p q : acceptTok tok p = Some q -> smallAt p -> smallAt q.
Proof. unfold acceptTok. destruct (HasPrefix _ _); [|done]. intros [= <-] H. by apply advance_small, skip_small. Qed.
Lemma acceptWord_small word p q : acceptWord word p = Some q -> smallAt p -> smallAt q.
Proof. unfold acceptWord. repeat case_match; try done; intros [= <-] Hs; by apply advance_small, skip_small. Qed.
Lemma parseIdent_small p name q : parseIdent p = Some (name, q) -> smallAt p -> smallAt q.
Proof.
  unfold parseIdent. intros H Hs. apply skip_small in Hs. pose proof (takeWhile_small isIdentByte (prev (skipBlanks p)) (rest (skipBlanks p))) as Ht.
  destruct (takeWhile isIdentByte _ _) as [n q']. destruct (n =s ""); [done|]. injection H as <- <-. apply Ht. by destruct (skipBlanks p).
Qed.
Lemma acceptOne_small toks p op q : acceptOne toks p = Some (op, q) -> smallAt p -> smallAt q.
Proof.
  induction toks as [|tok toks IH]; [done|]. unfold acceptOne; fold acceptOne. destruct (acceptTok tok p) as [q'|] eqn:E; [|done].
  intros [= <- <-]. by eapply acceptTok_small.
Qed.
Lemma acceptOpen_quiet p q : acceptTok "[" p = Some q -> tokenBefore (prev q) = false.
Proof.
  unfold acceptTok. destruct (HasPrefix (rest (skipBlanks p)) "[") eqn:E; [|done]. intros [= <-]. unfold HasPrefix in E.
  apply bool_decide_eq_true in E as [r E]. apply CutPrefix_some in E. destruct (skipBlanks p) as [b s]. simpl in E. subst s. done.
Qed.

(** A run of digits at the start of a small token is short. *)
Lemma smallNumber_prefix s d : smallNumber s false d 0 = true -> (d <= 15)%nat -> (d + String.length (span isDigit s).1 <= 15)%nat.
Proof.
  revert d. induction s as [|c r IH]; intros d H Hd; cbn -[maxSmallDigits] in *; [lia|]. destruct (isDigit c) eqn:E; [|simpl; lia].
  destruct (Nat.leb_spec maxSmallDigits d) as [|Hle]; [done|]. unfold maxSmallDigits in Hle. specialize (IH (S d) H ltac:(lia)).
  destruct (span isDigit r) as [a b]. simpl in *. lia.
Qed.

Lemma takeWhile_span f before s : (takeWhile f before s).1 = (span f s).1.
Proof.
  revert before. induction s as [|c r IH]; intros before; simpl; [done|]. destruct (f c); [|done]. specialize (IH (Some c)).
  destruct (takeWhile f (Some c) r), (span f r). simpl in *. by subst.
Qed.
Lemma span_satisfies f s : sall f (span f s).1 = true.
Proof. induction s as [|c r IH]; simpl; [done|]. destruct (f c) eqn:E; [|done]. destruct (span f r). simpl in *. by rewrite E. Qed.
(** Digits are token bytes. *)
Lemma span_digits_token s : (span isDigit (span isNumericTokenByte s).1).1 = (span isDigit s).1.
Proof.
  induction s as [|c r IH]; simpl; [done|]. destruct (isDigit c) eqn:E.
  - assert (isNumericTokenByte c = true) as -> by (unfold isNumericTokenByte; rewrite E; by rewrite !orb_true_r).
    destruct (span isNumericTokenByte r) as [a b]. simpl in *. rewrite E. destruct (span isDigit a), (span isDigit r). simpl in *. by subst.
  - destruct (isNumericTokenByte c); [|done]. destruct (span isNumericTokenByte r). simpl. by rewrite E.
Qed.

Lemma digits_small p : smallAt p -> tokenBefore (prev p) = false ->
  sall isDigit (takeWhile isDigit (prev p) (rest p)).1 = true /\ (String.length (takeWhile isDigit (prev p) (rest p)).1 <= 15)%nat.
Proof.
  unfold smallAt. intros Hs Hq. rewrite Hq in Hs. rewrite takeWhile_span. split; [apply span_satisfies|].
  destruct (rest p) as [|c r] eqn:Er; [simpl; lia|]. destruct (isDigit c) eqn:Ed; [|cbn; rewrite Ed; simpl; lia].
  assert (Ht : isNumericTokenByte c = true) by (unfold isNumericTokenByte; rewrite Ed; by rewrite !orb_true_r).
  cbn [everySmall] in Hs. rewrite Ht, Ed in Hs. apply andb_true_iff in Hs as [Hs _]. simpl orb in Hs.
  rewrite <- span_digits_token. apply (smallNumber_prefix _ 0); [exact Hs|lia].
Qed.

Definition okT (x : gres gexpr) : Prop := match x with GDone e q => indexesOk e = true /\ smallAt q | _ => True end.
Definition okP (x : gres gpred) : Prop := match x with GDone e q => indexesOkPred e = true /\ smallAt q | _ => True end.

Lemma subscript_small e p : indexesOk e = true -> smallAt p -> tokenBefore (prev p) = false -> okT (subscript exprGActions e p).
Proof.
  intros He Hs Hq. apply skip_small in Hs. apply skip_quiet in Hq. unfold subscript. cbn zeta. set (p' := skipBlanks p) in *. clearbody p'. clear p.
  destruct (match CutByte "]" (rest p') with Some (region, after) => if Contains region ":" then Some (region, after) else None | None => None end) as [[region after]|].
  { simpl. split; [done|]. by apply moveTo_small. }
  destruct (match rest p' with String c _ => isQuote c | EmptyString => false end).
  { destruct (skipStringLiteral (rest p')) as [[key after]|]; [|done]. simpl. split; [done|]. by apply moveTo_small. }
  assert (Hm : let x := match rest p' with String c _ => if c =c "-" then (true, advance 1 p') else (false, p') | EmptyString => (false, p') end in
    smallAt x.2 /\ tokenBefore (prev x.2) = false).
  { destruct p' as [b s]. simpl. destruct s as [|c r]; [done|]. destruct (c =c "-") eqn:Ec; [|done]. simpl.
    split; [by eapply everySmall_next|]. apply Ascii.eqb_eq in Ec as ->. done. }
  destruct (match rest p' with String c _ => if c =c "-" then (true, advance 1 p') else (false, p') | EmptyString => (false, p') end) as [neg q].
  simpl in Hm. destruct Hm as [Hsq Hqq]. pose proof (digits_small q Hsq Hqq) as [Hd Hl].
  pose proof (takeWhile_small isDigit (prev q) (rest q)) as Ht.
  destruct (takeWhile isDigit (prev q) (rest q)) as [digits q']. simpl in *. destruct (digits =s ""); [done|]. simpl.
  rewrite Hd, He. apply Nat.leb_le in Hl. rewrite Hl. split; [done|]. apply Ht. by destruct q.
Qed.

Lemma postfixes_small fuel e p : indexesOk e = true -> smallAt p -> okT (postfixes exprGActions fuel e p).
Proof.
  revert e p. induction fuel as [|fuel IH]; intros e p He Hs; [done|]. simpl.
  destruct (acceptTok "." p) as [q|] eqn:E1.
  { destruct (parseIdent q) as [[name q']|] eqn:Ei; [|done]. apply IH; [done|]. eapply parseIdent_small; [done|]. by eapply acceptTok_small. }
  destruct (acceptTok "[" p) as [q|] eqn:E2.
  { pose proof (subscript_small e q He (acceptTok_small _ _ _ E2 Hs) (acceptOpen_quiet _ _ E2)) as Hsub.
    destruct (subscript exprGActions e q) as [| |e' q']; [done|done|]. destruct Hsub as [He' Hs'].
    destruct (acceptTok "]" q') as [q''|] eqn:E3; [|done]. apply IH; [done|]. by eapply acceptTok_small. }
  destruct (acceptTok "|" p) as [q|] eqn:E3.
  { destruct (parseIdent q) as [[name q']|] eqn:Ei; [|done]. destruct (bool_decide _); [done|]. apply IH; [done|].
    eapply parseIdent_small; [done|]. by eapply acceptTok_small. }
  destruct (acceptWord "is" p) as [q|] eqn:E4; [|done]. pose proof (acceptWord_small _ _ _ E4 Hs) as Hq.
  assert (Hn : smallAt (match acceptWord "not" q with Some q' => (true, q') | None => (false, q) end).2).
  { destruct (acceptWord "not" q) eqn:E5; [by eapply acceptWord_small|done]. }
  destruct (match acceptWord "not" q with Some q' => (true, q') | None => (false, q) end) as [negated q']. simpl in Hn.
  destruct (parseIdent q') as [[name q'']|] eqn:Ei; [|done]. pose proof (parseIdent_small _ _ _ Ei Hn) as Hn'.
  destruct (acceptTok "(" q'') as [q3|] eqn:E6; [|by apply IH]. destruct (testArgument (rest q3) None); [|done].
  apply IH; [done|]. apply moveTo_small. by eapply acceptTok_small.
Qed.

Lemma gate_small fuel :
  (forall p, smallAt p -> okP (parsePredicate exprGActions fuel p)) /\ (forall p, smallAt p -> okT (parseTerm exprGActions fuel p))
  /\ (forall p, smallAt p -> okT (parsePrimary exprGActions fuel p)).
Proof.
  induction fuel as [|fuel (IP&IT&IR)]; [done|]. split_and!; intros p Hs; simpl.
  - pose proof (IT p Hs) as Hl. destruct (parseTerm exprGActions fuel p) as [| |l q]; [done|done|]. destruct Hl as [Hl Hq].
    destruct (acceptOne comparisons q) as [[op q']|] eqn:E; [|by split]. pose proof (IT q' (acceptOne_small _ _ _ _ E Hq)) as Hr.
    destruct (parseTerm exprGActions fuel q') as [| |r q'']; [done|done|]. destruct Hr as [Hr Hq'']. simpl. by rewrite Hl, Hr.
  - destruct (acceptTok "-" p) as [q|] eqn:E.
    + pose proof (IT q (acceptTok_small _ _ _ E Hs)) as Hl. destruct (parseTerm exprGActions fuel q) as [| |l q']; [done|done|]. exact Hl.
    + pose proof (IR p Hs) as Hl. destruct (parsePrimary exprGActions fuel p) as [| |l q']; [done|done|]. destruct Hl. by apply postfixes_small.
  - apply skip_small in Hs. set (p' := skipBlanks p) in *. clearbody p'. clear p. destruct p' as [b s]. simpl. destruct s as [|c r]; [done|].
    destruct (isQuote c). { destruct (skipStringLiteral (String c r)) as [[inner after]|]; [|done]. split; [done|]. by apply moveTo_small. }
    destruct (isDigit c).
    { pose proof (takeWhile_small isNumericTokenByte b (String c r) Hs) as Ht.
      destruct (takeWhile isNumericTokenByte b (String c r)) as [run q]. destruct (isProvablySmallNumber run); [|done]. by split. }
    destruct (c =c "[").
    { destruct (matchingBracket (String c r)) as [[region after]|]; [|done]. destruct (listLiteralRegionIsSafe region); [|done].
      split; [done|]. by apply moveTo_small. }
    destruct (c =c "(").
    { assert (Hs' : smallAt (mkPos (Some c) r)) by by eapply everySmall_next. specialize (IP _ Hs').
      destruct (parsePredicate exprGActions fuel (mkPos (Some c) r)) as [| |x q]; [done|done|]. destruct IP.
      destruct (acceptTok ")" q) as [q'|] eqn:E; [|done]. split; [done|]. by eapply acceptTok_small. }
    unfold literalPrimary. destruct (parseIdent (mkPos b (String c r))) as [[word q]|] eqn:Ei; [|done].
    pose proof (parseIdent_small _ _ _ Ei Hs). repeat (case_match; [by split|]). done.
Qed.

Lemma parsed_indexes expr p : everyNumericTokenIsProvablySmall expr = true -> parsePred expr = Some p -> indexesOkPred p = true.
Proof.
  intros Hs. unfold parsePred, parseGate. pose proof (proj1 (gate_small (4 * String.length expr + 4)) (mkPos None expr) Hs) as H.
  destruct (parsePredicate exprGActions _ _) as [| |x q]; [done|done|]. destruct H as [H _]. destruct (_ =s _); [|done]. by intros [= <-].
Qed.

(** ** Fuel *)

Definition left_at (p : cursor) : nat := String.length (rest p).
Lemma advance_left n p : left_at (advance n p) = (left_at p - n)%nat.
Proof.
  revert p. induction n as [|n IH]; intros [b s]; simpl; [unfold left_at; lia|]. destruct s as [|c r]; [done|].
  rewrite IH. unfold left_at. simpl. lia.
Qed.
Lemma takeWhile_left f before s : (left_at (takeWhile f before s).2 <= String.length s)%nat.
Proof.
  revert before. induction s as [|c r IH]; intros before; simpl; [done|]. destruct (f c); [|done].
  specialize (IH (Some c)). destruct (takeWhile f (Some c) r). simpl in *. lia.
Qed.
Lemma skip_left p : (left_at (skipBlanks p) <= left_at p)%nat.
Proof. destruct p. apply takeWhile_left. Qed.
Lemma moveTo_left after p : (left_at (moveTo after p) <= left_at p)%nat.
Proof. unfold moveTo. rewrite advance_left. lia. Qed.
Lemma acceptTok_left tok p q : acceptTok tok p = Some q -> (left_at q + String.length tok <= left_at p)%nat.
Proof.
  unfold acceptTok, HasPrefix. case_bool_decide as H; [|done]. intros [= <-]. destruct H as [r H]. apply CutPrefix_length in H.
  rewrite advance_left. pose proof (skip_left p). unfold left_at in *. lia.
Qed.
Lemma acceptWord_left word p q : acceptWord word p = Some q -> (left_at q + String.length word <= left_at p)%nat.
Proof.
  unfold acceptWord. destruct (CutPrefix word (rest (skipBlanks p))) eqn:E; [|done]. apply CutPrefix_length in E.
  repeat case_match; try done; intros [= <-]; rewrite advance_left; pose proof (skip_left p); unfold left_at in *; lia.
Qed.
Lemma parseIdent_left p name q : parseIdent p = Some (name, q) -> (left_at q <= left_at p)%nat.
Proof.
  unfold parseIdent. pose proof (takeWhile_left isIdentByte (prev (skipBlanks p)) (rest (skipBlanks p))) as Ht. pose proof (skip_left p).
  destruct (takeWhile isIdentByte _ _) as [n q']. destruct (n =s ""); [done|]. intros [= <- <-]. unfold left_at in *. simpl in *. lia.
Qed.
Lemma acceptOne_left toks p op q : Forall (fun t => t <> ""%string) toks -> acceptOne toks p = Some (op, q) -> (left_at q < left_at p)%nat.
Proof.
  induction 1 as [|tok toks Ht _ IH]; [done|]. unfold acceptOne; fold acceptOne. destruct (acceptTok tok p) as [q'|] eqn:E; [|done].
  intros [= <- <-]. apply acceptTok_left in E. destruct tok; [done|]. simpl in E. lia.
Qed.

Section gate_fuel.
Context {T P : Type} (A : gactions T P).

Definition shorter {X} (x : gres X) (p : cursor) : Prop :=
  match x with GFuel => False | GRefuse => True | GDone _ q => (left_at q <= left_at p)%nat end.
Lemma answer_shorter {X} (x : option X) q p : (left_at q <= left_at p)%nat -> shorter (answer x q) p.
Proof. by destruct x. Qed.
Lemma shorter_trans {X} (x : gres X) p p' : shorter x p -> (left_at p <= left_at p')%nat -> shorter x p'.
Proof. destruct x; simpl; [done|done|lia]. Qed.

Lemma subscript_shorter t p : shorter (subscript A t p) p.
Proof.
  unfold subscript. eapply shorter_trans; [|apply (skip_left p)]. cbn zeta. set (p' := skipBlanks p). clearbody p'. clear p.
  destruct (match CutByte "]" (rest p') with Some (region, after) => if Contains region ":" then Some (region, after) else None | None => None end) as [[region after]|].
  { apply answer_shorter, moveTo_left. }
  destruct (match rest p' with String c _ => isQuote c | EmptyString => false end).
  { destruct (skipStringLiteral (rest p')) as [[key after]|]; [|done]. apply answer_shorter, moveTo_left. }
  assert (Hm : (left_at (match rest p' with String c _ => if c =c "-" then (true, advance 1 p') else (false, p') | EmptyString => (false, p') end).2 <= left_at p')%nat).
  { destruct (rest p'); [done|]. destruct (_ =c _); [|done]. change (left_at (advance 1 p') <= left_at p')%nat. rewrite advance_left. lia. }
  destruct (match rest p' with String c _ => if c =c "-" then (true, advance 1 p') else (false, p') | EmptyString => (false, p') end) as [neg q].
  pose proof (takeWhile_left isDigit (prev q) (rest q)) as Ht. destruct (takeWhile isDigit (prev q) (rest q)) as [digits q'].
  destruct (digits =s ""); [done|]. apply answer_shorter. unfold left_at in *. simpl in *. lia.
Qed.

Lemma postfixes_fuel fuel t p : (4 * left_at p + 1 <= fuel)%nat -> shorter (postfixes A fuel t p) p.
Proof.
  revert t p. induction fuel as [|fuel IH]; intros t p Hf; [lia|].
  assert (Hnext : forall t' q, (left_at q < left_at p)%nat -> shorter (postfixes A fuel t' q) p).
  { intros t' q Hq. eapply shorter_trans; [apply IH; lia|lia]. }
  simpl. destruct (acceptTok "." p) as [q|] eqn:E1.
  { apply acceptTok_left in E1. simpl in E1. destruct (parseIdent q) as [[name q']|] eqn:Ei; [|done]. apply parseIdent_left in Ei.
    destruct (g_field A t name); [|done]. apply Hnext. lia. }
  destruct (acceptTok "[" p) as [q|] eqn:E2.
  { apply acceptTok_left in E2. simpl in E2. pose proof (subscript_shorter t q) as Hs. destruct (subscript A t q) as [| |t' q']; [done|done|]. simpl in Hs.
    destruct (acceptTok "]" q') as [q''|] eqn:E3; [|done]. apply acceptTok_left in E3. simpl in E3. apply Hnext. lia. }
  destruct (acceptTok "|" p) as [q|] eqn:E3.
  { apply acceptTok_left in E3. simpl in E3. destruct (parseIdent q) as [[name q']|] eqn:Ei; [|done]. apply parseIdent_left in Ei.
    destruct (bool_decide _); [done|]. destruct (g_filter A t name); [|done]. apply Hnext. lia. }
  destruct (acceptWord "is" p) as [q|] eqn:E4; [|simpl; lia]. apply acceptWord_left in E4. simpl in E4.
  assert (Hn : (left_at (match acceptWord "not" q with Some q' => (true, q') | None => (false, q) end).2 <= left_at q)%nat).
  { destruct (acceptWord "not" q) eqn:E5; [|done]. apply acceptWord_left in E5. simpl in *. lia. }
  destruct (match acceptWord "not" q with Some q' => (true, q') | None => (false, q) end) as [negated q']. simpl in Hn.
  destruct (parseIdent q') as [[name q'']|] eqn:Ei; [|done]. apply parseIdent_left in Ei.
  destruct (acceptTok "(" q'') as [q3|] eqn:E6; [|apply Hnext; lia]. apply acceptTok_left in E6. destruct (testArgument (rest q3) None) as [after|]; [|done].
  apply Hnext. pose proof (moveTo_left after q3). simpl in *. lia.
Qed.

Lemma literal_shorter p : shorter (literalPrimary A p) p.
Proof. unfold literalPrimary. destruct (parseIdent p) as [[word q]|] eqn:E; [|done]. apply parseIdent_left in E. repeat (case_match; [done|]). done. Qed.

Lemma gate_fuel fuel :
  (forall p, (4 * left_at p + 4 <= fuel)%nat -> shorter (parsePredicate A fuel p) p)
  /\ (forall p, (4 * left_at p + 3 <= fuel)%nat -> shorter (parseTerm A fuel p) p)
  /\ (forall p, (4 * left_at p + 2 <= fuel)%nat -> shorter (parsePrimary A fuel p) p).
Proof.
  assert (Hcmp : Forall (fun t => t <> ""%string) comparisons) by (repeat constructor; done).
  induction fuel as [|fuel (IP&IT&IR)]; [split_and!; intros; lia|]. split_and!; intros p Hf; simpl.
  - pose proof (IT p ltac:(lia)) as Hl. destruct (parseTerm A fuel p) as [| |l q]; [done|done|]. simpl in Hl.
    destruct (acceptOne comparisons q) as [[op q']|] eqn:E; [|by apply answer_shorter]. apply acceptOne_left in E; [|done].
    pose proof (IT q' ltac:(lia)) as Hr. destruct (parseTerm A fuel q') as [| |r q'']; [done|done|]. simpl in Hr. apply answer_shorter. lia.
  - destruct (acceptTok "-" p) as [q|] eqn:E.
    + apply acceptTok_left in E. simpl in E. pose proof (IT q ltac:(lia)) as Hl. destruct (parseTerm A fuel q) as [| |t q']; [done|done|].
      simpl in Hl. apply answer_shorter. lia.
    + pose proof (IR p ltac:(lia)) as Hl. destruct (parsePrimary A fuel p) as [| |t q]; [done|done|]. simpl in Hl.
      eapply shorter_trans; [apply postfixes_fuel; lia|lia].
  - pose proof (skip_left p) as Hs. eapply shorter_trans; [|exact Hs]. set (p' := skipBlanks p) in *. clearbody p'. destruct p' as [b s]. simpl.
    destruct s as [|c r]; [done|].
    destruct (isQuote c). { destruct (skipStringLiteral (String c r)) as [[inner after]|]; [|done]. apply moveTo_left. }
    destruct (isDigit c).
    { pose proof (takeWhile_left isNumericTokenByte b (String c r)) as Ht.
      destruct (takeWhile isNumericTokenByte b (String c r)) as [run q]. destruct (isProvablySmallNumber run); [|done]. exact Ht. }
    destruct (c =c "["). { destruct (matchingBracket (String c r)) as [[region after]|]; [|done]. destruct (listLiteralRegionIsSafe region); [|done]. apply moveTo_left. }
    destruct (c =c "("); [|apply literal_shorter]. unfold left_at in Hs. simpl in Hs.
    pose proof (IP (mkPos (Some c) r) ltac:(unfold left_at in *; simpl in *; lia)) as Hp.
    destruct (parsePredicate A fuel (mkPos (Some c) r)) as [| |x q]; [done|done|]. simpl in Hp.
    destruct (acceptTok ")" q) as [q'|] eqn:E; [|done]. apply acceptTok_left in E. unfold left_at in *. simpl in *. unfold left_at. simpl. lia.
Qed.

(** The gate answers: the fuel is linear in the text. *)
Lemma parseGate_answers expr : parsePredicate A (4 * String.length expr + 4) (mkPos None expr) <> GFuel.
Proof.
  intros H. pose proof (proj1 (gate_fuel (4 * String.length expr + 4)) (mkPos None expr) (Nat.le_refl _)) as Hg. by rewrite H in Hg.
Qed.
End gate_fuel.

(** ** The gate *)


(** An engine of whole numbers. *)
Definition wholeEngine : exprEngine := {|
  e_number run := IntValue (digitsValue 0 run);
  e_negate v := match v with IntValue i => Some (IntValue (- i)) | _ => None end;
  e_filter name v :=
    match v with
    | Some (ListValue l) =>
        match filterResultKind name with
        | kindNumberK => Some (Some (IntValue (Z.of_nat (length l))))
        | kindSeqK => Some (Some (ListValue (if name =s "reverse" then reverse l else l)))
        | _ => Some (if name =s "first" then head l else last l)
        end
    | _ => None
    end;
  e_test negated _ v := Some (xorb negated (bool_decide (is_Some v)));
  e_slice _ v := Some v;
  e_compare _ a b := match a, b with Some (IntValue i), Some (IntValue j) => Some (i =? j)%Z | _, _ => None end
|}.
#[export] Instance wholeEngine_laws : EngineLaws wholeEngine.
Proof.
  split; simpl.
  - done.
  - intros [] w; try done. by intros [= <-].
  - intros name v r Hk. rewrite Hk. repeat case_match; try done. intros [= <-]. eauto.
  - intros name l r Hk. rewrite Hk. intros [= <-]. eexists. split; [done|]. case_match; [apply reverse_Permutation|done].
  - intros name l r Hn Hl H. assert (Hk : filterResultKind name = kindUnknown) by (by destruct Hn as [->| ->]). rewrite Hk in H. simplify_eq.
    case_match; [destruct l; [done|]; eexists; split; [done|left]|]. destruct (last l) as [w|] eqn:E; [|by apply last_None in E].
    exists w. split; [done|]. apply last_Some in E as [l' ->]. set_solver.
  - by intros _ v w Hv [= <-].
Qed.


(** Parentheses escape the gate: a parenthesised term counts as a boolean whatever
    its kind, so a comparison of a number with a boolean, which the gate refuses when it
    is written without parentheses, is admitted with them. *)
Theorem parens_escape_gate :
  operatorShapeIsProven NullValue "1 == true" = false /\ operatorShapeIsProven NullValue "(1) == true" = true
  /\ everyNumericTokenIsProvablySmall "(1) == true" = true
  /\ parsePred "(1) == true" = Some (PCompare "==" (EParen (PBare (ENumber "1"))) (EBool true))
  /\ eval wholeEngine NullValue (EParen (PBare (ENumber "1"))) = Some (Some (IntValue 1))
  /\ constraintValueKind (IntValue 1) <> constraintValueKind (BoolValue true).
Proof. split_and!; vm_compute; done. Qed.
