(* ===== verification/ConstraintEval.v ===== *)
(** * ConstraintEval: evaluation of a constraint
    ([internal/debaml/constraint_eval.go], [constraint_direct_i64.go], [constraint_profile.go])

    A direct comparison of an integer with a literal is decided exactly; every other
    expression is rendered by the expression engine, a parameter here, behind the
    numeric and the operator gate, twice when the value holds a mapping. *)

From Stdlib Require Import Ascii String.
From stdpp Require Import pretty.
From S2P Require Import Prelude GoStrings GoValue GoFloat Jsonish NumberText NumberValid ConstraintNumeric ConstraintGate.
Open Scope stdpp_scope.

(** ** Direct comparisons *)

Record directCompareOp := mkOp { opID : string; opToken : string; opHolds : Z -> Z -> bool }.
Definition directCompareOperators : list directCompareOp := [
  mkOp "gt" ">" (fun this literal => literal <? this)%Z;
  mkOp "ge" ">=" (fun this literal => literal <=? this)%Z;
  mkOp "lt" "<" (fun this literal => this <? literal)%Z;
  mkOp "le" "<=" (fun this literal => this <=? literal)%Z;
  mkOp "eq" "==" (fun this literal => this =? literal)%Z;
  mkOp "ne" "!=" (fun this literal => negb (this =? literal))%Z].

(** [strconv.FormatInt(n, 10)]. *)
Definition FormatInt (n : Z) : string := pretty n.
Definition directI64Literal (s : string) : option Z :=
  match parseI64Rust s with Some n => if FormatInt n =s s then Some n else None | None => None end.

Definition directHead (op : directCompareOp) : string := ("this" +:+ " " +:+ opToken op +:+ " ")%string.
Definition directI64Expression (op : directCompareOp) (literal : Z) : string := (directHead op +:+ FormatInt literal)%string.

Fixpoint parseDirectI64Comparison (expr : string) (manifest : list directCompareOp) : option (directCompareOp * Z) :=
  match manifest with
  | [] => None
  | op :: manifest =>
      match CutPrefix (directHead op) expr with
      | Some (String _ _ as tail) => match directI64Literal tail with Some n => Some (op, n) | None => None end
      | _ => parseDirectI64Comparison expr manifest
      end
  end.

Definition evaluateDirectI64 (this : ConstraintValue) (expression : string) : option bool :=
  match this with
  | IntValue i =>
      match parseDirectI64Comparison expression directCompareOperators with Some (op, n) => Some (opHolds op i n) | None => None end
  | _ => None
  end.

(** ** The numeric gate *)

(** [bracketIsListLiteral]; the text before the bracket, backwards. *)
Definition bracketIsListLiteral (before : string) : bool :=
  match skipSpace before with
  | EmptyString => true
  | String c _ as b =>
      if ContainsByte c "(,[:=<>!~+-*/%|&" then true
      else if isIdentByte c then
        bool_decide (srev (span isIdentByte b).1 ∈ ["in"; "is"; "not"; "and"; "or"; "if"; "else"]%string)
      else false
  end.

Definition isIntegerLiteralTerm (t : string) : bool :=
  let t := TrimPrefix (TrimSpace t) "-" in (t <>s "") && sall isDigit t.
Definition isStringLiteralTerm (t : string) : bool :=
  let t := TrimSpace t in
  match t with
  | String c (String _ _) => isQuote c && match skipStringLiteral t with Some (_, after) => after =s "" | None => false end
  | _ => false
  end.
(** [strings.Split(region, ":")]. *)
Fixpoint splitColons (s : string) : list string :=
  match s with
  | EmptyString => [EmptyString]
  | String c r =>
      if c =c ":" then EmptyString :: splitColons r
      else match splitColons r with x :: l => String c x :: l | [] => [] end
  end.
Definition subscriptRegionIsSafe (region : string) : bool :=
  if negb (Contains region ":") then isIntegerLiteralTerm region || isStringLiteralTerm region
  else
    let terms := splitColons region in
    (length terms <=? 3)%nat && forallb (fun t => (TrimSpace t =s "") || isIntegerLiteralTerm t) terms.

(** The loop of [bracketRegionsBlanked]: look at the next byte, or copy or blank the
    next [n] of them. *)
Inductive blankMode := Look | Copy (n : nat) | Blank (n : nat).
Definition enough (mode : blankMode) : blankMode := match mode with Copy 0 | Blank 0 => Look | _ => mode end.
Fixpoint blankFrom (s before : string) (mode : blankMode) : option string :=
  match s with
  | EmptyString => Some EmptyString
  | String c r =>
      let next out mode := String out <$> blankFrom r (String c before) mode in
      match enough mode with
      | Copy n => next c (Copy (n - 1))
      | Blank n => next " "%char (Blank (n - 1))
      | Look =>
          if isQuote c then
            match skipStringLiteral s with Some (inner, _) => next c (Copy (String.length inner + 1)) | None => None end
          else if c =c "]" then None
          else if c =c "[" then
            match matchingBracket s with
            | Some (region, _) =>
                if (if bracketIsListLiteral before then listLiteralRegionIsSafe region else subscriptRegionIsSafe region)
                then next " "%char (Blank (String.length region + 1)) else None
            | None => None
            end
          else next c Look
      end
  end.
Definition bracketRegionsBlanked (expr : string) : option string := blankFrom expr EmptyString Look.

Definition containsArithmeticByte (expr : string) : bool := negb (sall (fun c => negb (ContainsByte c "+-*/%")) expr).

Definition absInt64 (n : Z) : Z := if (n <? 0)%Z then u64 (u64 (- (n + 1)) + 1) else u64 n.
Definition floatIntConversionMagnitude (f : float64) : Z :=
  match f with
  | S754_nan | S754_infinity _ => maxExactInt
  | _ => if (maxExactInt <=? Z.abs (ftrunc f))%Z then maxExactInt else Z.abs (ftrunc f)
  end.
Fixpoint maxAbsInt (v : ConstraintValue) : Z :=
  match v with
  | IntValue i => absInt64 i
  | FloatValue f => floatIntConversionMagnitude f
  | ListValue items => (fix go l := match l with [] => 0%Z | x :: l => Z.max (maxAbsInt x) (go l) end) items
  | MapValue es | ClassValue _ es => (fix go l := match l with [] => 0%Z | (_, x) :: l => Z.max (maxAbsInt x) (go l) end) es
  | _ => 0%Z
  end.

Definition exceedsExactIntegerRange (this : ConstraintValue) (expr : string) : bool :=
  if (maxExactInt <=? maxAbsInt this)%Z then true
  else if negb (everyNumericTokenIsProvablySmall expr) then true
  else
    match bracketRegionsBlanked expr with
    | None => true
    | Some blanked =>
        if negb (containsArithmeticByte blanked) then false
        else match parseNumeric expr with Some n => saturated n | None => true end
    end.

(** ** Rendering *)

Fixpoint hasMedia (v : ConstraintValue) : bool :=
  match v with
  | MediaValue => true
  | ListValue items => (fix go l := match l with [] => false | x :: l => hasMedia x || go l end) items
  | MapValue es | ClassValue _ es => (fix go l := match l with [] => false | (_, x) :: l => hasMedia x || go l end) es
  | _ => false
  end.
Fixpoint hasMapping (v : ConstraintValue) : bool :=
  match v with
  | MapValue _ | ClassValue _ _ => true
  | ListValue items => (fix go l := match l with [] => false | x :: l => hasMapping x || go l end) items
  | _ => false
  end.

Inductive mappingMode := mappingOrdered | mappingNative.
(** Every error wraps the sentinel that makes the caller decline. *)
Inductive constraintErr := errUnsupported | errConstraintNotBoolean.

Section evaluate.
(** [renderOnce], the expression engine under one projection of mappings; [None] is an
    error of compilation or evaluation. *)
Context (renderOnce : ConstraintValue -> string -> mappingMode -> option string).

Definition renderConstraint (this : ConstraintValue) (expression : string) : string + constraintErr :=
  if hasMedia this then inr errUnsupported
  else if exceedsExactIntegerRange this expression then inr errUnsupported
  else if negb (operatorShapeIsProven this expression) then inr errUnsupported
  else
    let primary := renderOnce this expression mappingOrdered in
    if negb (hasMapping this) then from_option inl (inr errUnsupported) primary
    else
      match primary, renderOnce this expression mappingNative with
      | Some a, Some b => if a =s b then inl a else inr errUnsupported
      | _, _ => inr errUnsupported
      end.

Definition EvaluateConstraint (this : ConstraintValue) (expression : string) : bool + constraintErr :=
  match evaluateDirectI64 this expression with
  | Some held => inl held
  | None =>
      match renderConstraint this expression with
      | inl rendered =>
          if rendered =s "true" then inl true
          else if rendered =s "false" then inl false
          else inr errConstraintNotBoolean
      | inr e => inr e
      end
  end.
End evaluate.

Example blanked_ok : bracketRegionsBlanked "[1,2,3][-1:]|length == 1" = Some "            |length == 1"%string.
Proof. vm_compute. reflexivity. Qed.
Example blanked_refuses : bracketRegionsBlanked "[1 - -2][0] == 3" = None /\ bracketRegionsBlanked "this[1.5:]" = None.
Proof. vm_compute. auto. Qed.

(** ** Direct comparisons are read back exactly *)

Lemma pretty_go_value x s : digitsValue 0 (pretty_N_go x s) = digitsValue (Z.of_N x) s.
Proof.
  revert s. induction (N.lt_wf_0 x) as [x _ IH]. intros s. destruct (decide (0 < x)%N) as [Hx|Hx].
  - rewrite pretty_N_go_step by done. rewrite IH by (apply N.div_lt; lia). cbn [digitsValue]. f_equal.
    assert (Hc : forall y, (y < 10)%N -> (code (pretty_N_char y) - 48 = Z.of_N y)%Z).
    { intros y Hy. assert (E : y = 0%N \/ y = 1%N \/ y = 2%N \/ y = 3%N \/ y = 4%N \/ y = 5%N \/ y = 6%N \/ y = 7%N \/ y = 8%N \/ y = 9%N) by lia.
      destruct_or? E; subst; reflexivity. }
    rewrite Hc by (apply N.mod_lt; lia). pose proof (N.div_mod x 10). lia.
  - assert (x = 0%N) as -> by lia. by rewrite pretty_N_go_0.
Qed.
Lemma pretty_N_value (x : N) : digitsValue 0 (pretty x) = Z.of_N x.
Proof. unfold pretty, pretty_N. case_decide as H; [by subst|]. apply pretty_go_value. Qed.
Lemma pretty_N_digits (x : N) : allDigits (pretty x) = true /\ exists c r, pretty x = String c r /\ isDigit c = true.
Proof.
  destruct (pretty_N_numeral x) as [[->|(c&t&->&Hc&_&Ht)] _]; [by split; [|eauto]|]. unfold allDigits. simpl. rewrite Hc, Ht. eauto.
Qed.

Lemma FormatInt_parse n : (MinInt64 <= n <= MaxInt64)%Z -> parseI64Rust (FormatInt n) = Some n.
Proof.
  intros Hn. unfold parseI64Rust, FormatInt. rewrite pretty_Z_text. destruct (pretty_N_digits (Z.to_N (Z.abs n))) as [Ha (c&r&Er&Hc)].
  pose proof (pretty_N_value (Z.to_N (Z.abs n))) as Hv. rewrite N2Z.id || rewrite Z2N.id in Hv by lia.
  assert (Hin : (MinInt64 <=? n)%Z && (n <=? MaxInt64)%Z = true) by lia.
  destruct (Z.ltb_spec n 0); cbn [append].
  - cbn [signOf]. simpl. rewrite Ha, Hv. replace (- Z.abs n)%Z with n by lia. by rewrite Hin.
  - assert (Es : signOf (pretty (Z.to_N (Z.abs n))) = (false, pretty (Z.to_N (Z.abs n)))).
    { rewrite Er. unfold signOf. destruct (c =c "-") eqn:E1; [by apply Ascii.eqb_eq in E1 as ->|]. destruct (c =c "+") eqn:E2; [by apply Ascii.eqb_eq in E2 as ->|done]. }
    change (""%string +:+ pretty (Z.to_N (Z.abs n)))%string with (pretty (Z.to_N (Z.abs n))). rewrite Es, Ha, Hv.
    replace (Z.abs n) with n by lia. by rewrite Hin.
Qed.

Lemma FormatInt_cons n : exists c r, FormatInt n = String c r.
Proof.
  unfold FormatInt. rewrite pretty_Z_text. destruct (n <? 0)%Z; [simpl; eauto|].
  destruct (pretty_N_digits (Z.to_N (Z.abs n))) as [_ (c&r&->&_)]. simpl. eauto.
Qed.
Lemma directLiteral_exact s n : directI64Literal s = Some n <-> (MinInt64 <= n <= MaxInt64)%Z /\ s = FormatInt n.
Proof.
  unfold directI64Literal. split.
  - destruct (parseI64Rust s) as [m|] eqn:E; [|done]. destruct (FormatInt m =s s) eqn:Ef; [|done]. intros [= ->]. reflect_eqb. split; [|done].
    unfold parseI64Rust in E. destruct (signOf s) as [neg d]. destruct (allDigits d); [|done]. simpl in E.
    case_match; [|done]. simplify_eq. lia.
  - intros [Hn ->]. rewrite FormatInt_parse by done. by rewrite String.eqb_refl.
Qed.

(** No two operators read one text. *)
Lemma direct_unambiguous op n : op ∈ directCompareOperators -> (MinInt64 <= n <= MaxInt64)%Z ->
  parseDirectI64Comparison (directI64Expression op n) directCompareOperators = Some (op, n).
Proof.
  intros Ho Hn. assert (Hl : directI64Literal (FormatInt n) = Some n) by (by apply directLiteral_exact). unfold directI64Expression.
  destruct (FormatInt_cons n) as (c&r&E). rewrite E in *. unfold directCompareOperators in *. repeat rewrite elem_of_cons in Ho. destruct_or! Ho; subst.
  all: try (cbn [parseDirectI64Comparison directHead opToken append CutPrefix]; cbv [Ascii.eqb Bool.eqb]; by rewrite Hl).
  by apply not_elem_of_nil in Ho.
Qed.

Lemma direct_sound expr op n : parseDirectI64Comparison expr directCompareOperators = Some (op, n) ->
  op ∈ directCompareOperators /\ (MinInt64 <= n <= MaxInt64)%Z /\ expr = directI64Expression op n.
Proof.
  assert (Hg : forall manifest, (forall o, o ∈ manifest -> o ∈ directCompareOperators) -> parseDirectI64Comparison expr manifest = Some (op, n) ->
    op ∈ directCompareOperators /\ (MinInt64 <= n <= MaxInt64)%Z /\ expr = directI64Expression op n); [|by apply Hg].
  induction manifest as [|o manifest IH]; intros Hm; [done|]. cbn [parseDirectI64Comparison].
  destruct (CutPrefix (directHead o) expr) as [[|c tail]|] eqn:E; [apply IH; set_solver| |apply IH; set_solver].
  destruct (directI64Literal (String c tail)) as [m|] eqn:El; [|done]. intros [= -> ->]. apply directLiteral_exact in El as [Hn Ht].
  split_and!; [apply Hm; left|lia|lia|]. apply CutPrefix_some in E. unfold directI64Expression. by rewrite <- Ht.
Qed.

(** The direct grammar and its printer are inverse: a text is read as the comparison
    with an operator and a 64-bit literal exactly when it is the text printed for them,
    so that no text is read in two ways and every canonical text is read. *)
Theorem direct_roundtrip expr op n : parseDirectI64Comparison expr directCompareOperators = Some (op, n) <->
  op ∈ directCompareOperators /\ (MinInt64 <= n <= MaxInt64)%Z /\ expr = directI64Expression op n.
Proof. split; [apply direct_sound|]. intros (Ho&Hn&->). by apply direct_unambiguous. Qed.

(** ** What a value holds *)

(** The integers in a value. *)
Fixpoint valueInts (v : ConstraintValue) : list Z :=
  match v with
  | IntValue i => [i]
  | ListValue items => (fix go l := match l with [] => [] | x :: l => valueInts x ++ go l end) items
  | MapValue es | ClassValue _ es => (fix go l := match l with [] => [] | (_, x) :: l => valueInts x ++ go l end) es
  | _ => []
  end.

Lemma absInt64_exact n : (MinInt64 <= n <= MaxInt64)%Z -> absInt64 n = Z.abs n.
Proof.
  unfold absInt64, MinInt64, MaxInt64. intros Hn. destruct (Z.ltb_spec n 0); [|rewrite u64_id; lia].
  rewrite (u64_id (- (n + 1))) by lia. rewrite u64_id; lia.
Qed.

Lemma maxAbsInt_bounds : forall v i, i ∈ valueInts v -> (MinInt64 <= i <= MaxInt64)%Z -> (Z.abs i <= maxAbsInt v)%Z.
Proof.
  fix IH 1. intros v i. destruct v as [| |z| | |items|es|nm es| |]; simpl; try (by intros []%not_elem_of_nil).
  - intros ->%list_elem_of_singleton Hi. rewrite absInt64_exact by done. lia.
  - induction items as [|x l IHl]; simpl; [by intros []%not_elem_of_nil|]. intros [Hx|Hl]%elem_of_app Hi; [pose proof (IH x i Hx Hi); lia|].
    specialize (IHl Hl Hi). lia.
  - induction es as [|[k x] l IHl]; simpl; [by intros []%not_elem_of_nil|]. intros [Hx|Hl]%elem_of_app Hi; [pose proof (IH x i Hx Hi); lia|].
    specialize (IHl Hl Hi). lia.
  - induction es as [|[k x] l IHl]; simpl; [by intros []%not_elem_of_nil|]. intros [Hx|Hl]%elem_of_app Hi; [pose proof (IH x i Hx Hi); lia|].
    specialize (IHl Hl Hi). lia.
Qed.

(** ** Fail-closed evaluation *)

(** The profile in which an expression is rendered. *)
Definition inProfile (this : ConstraintValue) (expr : string) : Prop :=
  hasMedia this = false
  /\ (forall i, i ∈ valueInts this -> (MinInt64 <= i <= MaxInt64)%Z -> (Z.abs i < maxExactInt)%Z)
  /\ everyNumericTokenIsProvablySmall expr = true
  /\ operatorShapeIsProven this expr = true
  /\ exists blanked, bracketRegionsBlanked expr = Some blanked
     /\ (containsArithmeticByte blanked = true -> exists n, parseNumeric expr = Some n /\ saturated n = false).

Lemma range_profile this expr : exceedsExactIntegerRange this expr = false -> hasMedia this = false -> operatorShapeIsProven this expr = true ->
  inProfile this expr.
Proof.
  unfold exceedsExactIntegerRange. destruct (Z.leb_spec maxExactInt (maxAbsInt this)) as [|Hm]; [done|].
  destruct (everyNumericTokenIsProvablySmall expr) eqn:Hs; [|done]. simpl. destruct (bracketRegionsBlanked expr) as [blanked|] eqn:Hb; [|done].
  intros H Hmed Ho. split_and!; try done.
  - intros i Hi Hr. pose proof (maxAbsInt_bounds this i Hi Hr). lia.
  - exists blanked. split; [done|]. intros Ha. rewrite Ha in H. simpl in H. destruct (parseNumeric expr) as [n|]; [|done]. eauto.
Qed.

Section fail_closed.
Context (renderOnce : ConstraintValue -> string -> mappingMode -> option string).

(** C25. Evaluation of a constraint fails closed: a boolean comes either from a direct
    comparison of a 64-bit integer, decided exactly, or from a rendering that is exactly
    that word, the same under both projections when the value holds a mapping, of an
    expression and a value within the profile: no media, no integer at or past 2^53,
    small literals, the operator gate passed, and arithmetic only in the numeric
    sublanguage without saturation. *)
Theorem evaluate_fail_closed this expr b : EvaluateConstraint renderOnce this expr = inl b ->
  (exists i op n, this = IntValue i /\ op ∈ directCompareOperators /\ (MinInt64 <= n <= MaxInt64)%Z
     /\ expr = directI64Expression op n /\ b = opHolds op i n)
  \/ (inProfile this expr
      /\ renderOnce this expr mappingOrdered = Some (if b then "true" else "false")%string
      /\ (hasMapping this = true -> renderOnce this expr mappingNative = Some (if b then "true" else "false")%string)).
Proof.
  unfold EvaluateConstraint. destruct (evaluateDirectI64 this expr) as [held|] eqn:Ed.
  - intros [= <-]. left. unfold evaluateDirectI64 in Ed. destruct this; try done.
    destruct (parseDirectI64Comparison expr directCompareOperators) as [[op n]|] eqn:Ep; [|done]. simplify_eq.
    destruct (direct_sound _ _ _ Ep) as (Ho&Hn&->). exists i, op, n. done.
  - intros H. right. destruct (renderConstraint renderOnce this expr) as [rendered|] eqn:Er; [|done].
    assert (Hr : rendered = (if b then "true" else "false")%string).
    { destruct (rendered =s "true") eqn:E1; [reflect_eqb; by simplify_eq|]. destruct (rendered =s "false") eqn:E2; [reflect_eqb; by simplify_eq|done]. }
    clear H. subst rendered. unfold renderConstraint in Er. destruct (hasMedia this) eqn:Hmed; [done|].
    destruct (exceedsExactIntegerRange this expr) eqn:Hx; [done|]. destruct (operatorShapeIsProven this expr) eqn:Ho; [|done]. simpl in Er.
    split; [by apply range_profile|]. destruct (hasMapping this) eqn:Hmap; simpl in Er.
    + destruct (renderOnce this expr mappingOrdered) as [x|]; [|done]. destruct (renderOnce this expr mappingNative) as [y|]; [|done].
      destruct (x =s y) eqn:Exy; [|done]. reflect_eqb. by simplify_eq.
    + destruct (renderOnce this expr mappingOrdered) as [x|]; simpl in Er; [|done]. by simplify_eq.
Qed.
End fail_closed.

(** An engine that renders every expression as true. *)
Definition sayTrue : ConstraintValue -> string -> mappingMode -> option string := fun _ _ _ => Some "true"%string.
Lemma evaluate_fail_closed_witness :
  let this := MapValue [("n", IntValue 3)]%string in
  EvaluateConstraint sayTrue this "this.n <= 4" = inl true
  /\ EvaluateConstraint sayTrue this "this.n <= 9007199254740993" = inr errUnsupported
  /\ EvaluateConstraint sayTrue (IntValue 9007199254740993) "this > 9007199254740992" = inl true
  /\ ((exists i op n, this = IntValue i /\ op ∈ directCompareOperators /\ (MinInt64 <= n <= MaxInt64)%Z
        /\ "this.n <= 4"%string = directI64Expression op n /\ true = opHolds op i n)
      \/ (inProfile this "this.n <= 4" /\ sayTrue this "this.n <= 4" mappingOrdered = Some "true"%string
          /\ (hasMapping this = true -> sayTrue this "this.n <= 4" mappingNative = Some "true"%string))).
Proof.
  intros this. split; [vm_compute; reflexivity|]. split; [vm_compute; reflexivity|]. split; [vm_compute; reflexivity|].
  apply (evaluate_fail_closed sayTrue this "this.n <= 4" true). vm_compute. reflexivity.
Defined.

(** The direct path is total: it decides every 64-bit integer against every literal,
    beyond 2^53 too, without the engine. *)
Theorem direct_total renderOnce i op n : op ∈ directCompareOperators -> (MinInt64 <= n <= MaxInt64)%Z ->
  EvaluateConstraint renderOnce (IntValue i) (directI64Expression op n) = inl (opHolds op i n).
Proof. intros Ho Hn. unfold EvaluateConstraint, evaluateDirectI64. by rewrite direct_unambiguous. Qed.
