(* ===== verification/Cohort.v ===== *)
(** * Cohort: the default-deny gate of native serving ([nativeserve/admission])

    The strict decoders of the identifiers that may become labels, the inventory of
    configuration records and the policy of enrollments with their constructors, the
    gate that binds them, the inventory a deployment declares in its environment
    ([config_load.go]), and the two admission checks [admitCohort] and
    [admitVerification].  A Go enumeration of type [uint8] is an [N]. *)

From Stdlib Require Import Ascii.
From stdpp Require Import sorting.
From S2P Require Import Prelude GoStrings.
Open Scope stdpp_scope.

(** ** Surfaces *)

Definition Surface := N.
Definition surfaceInvalid : Surface := 0%N.
Definition SurfaceDynamicCall : Surface := 1%N.
Definition SurfaceDynamicStream : Surface := 2%N.
Definition SurfaceStaticCall : Surface := 3%N.
Definition SurfaceStaticStream : Surface := 4%N.
Definition SurfaceDirectParse : Surface := 5%N.

Definition surfaceLabelInvalid : string := "invalid".

(** [Surface.Label]. *)
Definition surfaceLabel (s : Surface) : string :=
  match s with
  | 1 => "dynamic_call"
  | 2 => "dynamic_stream"
  | 3 => "static_call"
  | 4 => "static_stream"
  | 5 => "direct_parse"
  | _ => surfaceLabelInvalid
  end%N.

(** [Surface.Valid]. *)
Definition surfaceValid (s : Surface) : bool := surfaceLabel s <>s surfaceLabelInvalid.

Definition AllSurfaces : list Surface :=
  [SurfaceDynamicCall; SurfaceDynamicStream; SurfaceStaticCall; SurfaceStaticStream; SurfaceDirectParse].

(** ** Strict decoders *)

Inductive idError :=
  | IdEmpty
  | IdTooLong
  | IdByte (offset : nat)
  | IdReserved
  | IdCredential (prefix : string)
  | IdForm
  | IdVocabulary
  | IdApproval
  | IdTagTooLong
  | IdNumberTooLong.

Definition between (a b c : ascii) : bool :=
  (N_of_ascii a <=? N_of_ascii c)%N && (N_of_ascii c <=? N_of_ascii b)%N.
Definition isLower : ascii -> bool := between "a" "z".
Definition isUpper : ascii -> bool := between "A" "Z".
Definition isDigit : ascii -> bool := between "0" "9".

(** The offset of the first byte that [ok], given the offset, does not accept. *)
Fixpoint firstBad (ok : nat -> ascii -> bool) (i : nat) (s : string) : option nat :=
  match s with
  | EmptyString => None
  | String c s' => if ok i c then firstBad ok (S i) s' else Some i
  end.

Definition CohortNone : string := "none".
Definition CohortUnrecognized : string := "unrecognized".
Definition reservedCohortIDs : list string := [CohortNone; CohortUnrecognized].
Definition maxCohortIDLen : nat := 32.

Definition credentialShapedPrefixes : list string :=
  ["sk-"; "sk_"; "pk-"; "pk_"; "rk-"; "ghp_"; "gho_"; "ghs_"; "akia"; "asia";
   "bearer"; "token"; "secret"; "apikey"; "api-key"; "api_key"; "password"; "passwd"].

(** [strings.ToLower] of an ASCII string. *)
Fixpoint lowerASCII (s : string) : string :=
  match s with
  | EmptyString => EmptyString
  | String c s' =>
      String (if isUpper c then ascii_of_N (N_of_ascii c + 32) else c) (lowerASCII s')
  end.

(** [rejectCredentialShaped]; its argument has only ASCII bytes by then. *)
Definition rejectCredentialShaped (s : string) : option idError :=
  IdCredential <$> List.find (fun p => HasPrefix (lowerASCII s) p) credentialShapedPrefixes.

Definition cohortByte (i : nat) (c : ascii) : bool :=
  isLower c || ((0 <? i)%nat && (isDigit c || (c =? "_")%char)).

Definition parseCohortID (s : string) : string + idError :=
  if s =s "" then inr IdEmpty
  else if (maxCohortIDLen <? String.length s)%nat then inr IdTooLong
  else match firstBad cohortByte 0 s with
       | Some i => inr (IdByte i)
       | None =>
           if existsb (fun r => s =s r) reservedCohortIDs then inr IdReserved
           else match rejectCredentialShaped s with
                | Some e => inr e
                | None => inl s
                end
       end.

Definition proofConfigFingerprint : string := "cfg900".
Definition FeV1ConfigFingerprint : string := "cfg100".

Definition declaredConfigFingerprints : list string :=
  ["cfg001"; "cfg002"; "cfg003"; "cfg004"; "cfg005"; "cfg006"; "cfg007"; "cfg008";
   "cfg009"; "cfg010"; "cfg011"; "cfg012"; "cfg013"; "cfg014"; "cfg015"; "cfg016";
   FeV1ConfigFingerprint; proofConfigFingerprint].

(** [configFingerprintForm], the pattern [^cfg[0-9]{3,6}$]. *)
Definition configFingerprintForm (s : string) : bool :=
  match CutPrefix "cfg" s with
  | Some d => sall isDigit d && (3 <=? String.length d)%nat && (String.length d <=? 6)%nat
  | None => false
  end.

Definition parseConfigFingerprint (s : string) : string + idError :=
  if s =s "" then inr IdEmpty
  else if negb (configFingerprintForm s) then inr IdForm
  else if existsb (fun d => s =s d) declaredConfigFingerprints then inl s
  else inr IdVocabulary.

Definition AllConfigProviderClasses : list string :=
  ["openai"; "anthropic"; "bedrock"; "cerebras"; "cohere"].

(** [ConfigProviderClass.Valid]. *)
Definition providerValid (p : string) : bool := existsb (fun c => p =s c) AllConfigProviderClasses.

Definition maxApprovalTagLen : nat := 16.

Definition parseApprovalRef (s : string) : string + idError :=
  match CutByte "-" s with
  | None => inr IdApproval
  | Some (tag, num) =>
      if (tag =s "") || (num =s "") then inr IdApproval
      else if (maxApprovalTagLen <? String.length tag)%nat then inr IdTagTooLong
      else match firstBad (fun _ => isUpper) 0 tag with
           | Some i => inr (IdByte i)
           | None =>
               if (9 <? String.length num)%nat then inr IdNumberTooLong
               else match firstBad (fun _ => isDigit) 0 num with
                    | Some i => inr (IdByte i)
                    | None => inl s
                    end
           end
  end.

(** ** Verification regimes *)

Definition RequiredVerification := N.
Definition VerificationUnconstrained : RequiredVerification := 0%N.
Definition VerificationStrictOpenAI : RequiredVerification := 1%N.
Definition VerificationTrustedProvider : RequiredVerification := 2%N.

Definition VerificationPolicy := N.
Definition PolicyStrictOpenAI : VerificationPolicy := 0%N.
Definition PolicyTrustedProvider : VerificationPolicy := 1%N.

(** [RequiredVerification.Valid]. *)
Definition verificationValid (v : RequiredVerification) : bool :=
  (v =? VerificationUnconstrained)%N || (v =? VerificationStrictOpenAI)%N
  || (v =? VerificationTrustedProvider)%N.

(** [RequiredVerification.Permits]. *)
Definition Permits (v : RequiredVerification) (p : VerificationPolicy) : bool :=
  if (v =? VerificationStrictOpenAI)%N then (p =? PolicyStrictOpenAI)%N
  else if (v =? VerificationTrustedProvider)%N then (p =? PolicyTrustedProvider)%N
  else true.

(** ** The inventory *)

Record ConfigRecord := mkRecord {
  cr_Fingerprint : string;
  cr_Cohort : string;
  cr_Surfaces : list Surface;
  cr_Provider : string;
  cr_Verification : RequiredVerification;
  cr_Approval : string
}.

Definition maxInventoryRecords : nat := 32.

Record ConfigInventory := mkInventory {
  byFingerprint : gmap string ConfigRecord;
  ordered : list string
}.

Inductive inventoryError :=
  | InvTooMany (n : nat)
  | InvId (i : nat) (e : idError)
  | InvProvider (i : nat)
  | InvVerification (i : nat)
  | InvNoSurface (i : nat)
  | InvSurface (i : nat)
  | InvSurfaceTwice (i : nat) (s : Surface)
  | InvClaimedTwice (other fp cohort : string) (s : Surface)
  | InvFingerprintTwice (fp : string)
  | InvSpecFields (i n : nat)
  | InvSpecSurface (i : nat) (p : string).

Abbreviation claims := (gmap (string * Surface) string).

(** The loop over the surfaces of record [i]: [seen] are its surfaces so far. *)
Fixpoint claimSurfaces (i : nat) (r : ConfigRecord) (seen : gset Surface) (claimed : claims)
    (l : list Surface) : claims + inventoryError :=
  match l with
  | [] => inl claimed
  | s :: l' =>
      if negb (surfaceValid s) then inr (InvSurface i)
      else if decide (s ∈ seen) then inr (InvSurfaceTwice i s)
      else match claimed !! (cr_Cohort r, s) with
           | Some other => inr (InvClaimedTwice other (cr_Fingerprint r) (cr_Cohort r) s)
           | None =>
               claimSurfaces i r ({[s]} ∪ seen) (<[(cr_Cohort r, s) := cr_Fingerprint r]> claimed) l'
           end
  end.

(** The fields of record [i], in the order they are checked. *)
Definition checkRecord (i : nat) (r : ConfigRecord) : option inventoryError :=
  match parseConfigFingerprint (cr_Fingerprint r) with
  | inr e => Some (InvId i e)
  | inl _ =>
  match parseCohortID (cr_Cohort r) with
  | inr e => Some (InvId i e)
  | inl _ =>
      if negb (providerValid (cr_Provider r)) then Some (InvProvider i)
      else if negb (verificationValid (cr_Verification r)) then Some (InvVerification i)
      else match parseApprovalRef (cr_Approval r) with
           | inr e => Some (InvId i e)
           | inl _ => if decide (cr_Surfaces r = []) then Some (InvNoSurface i) else None
           end
  end
  end.

(** The loop of [newConfigInventory], from record [i]. *)
Fixpoint inventoryLoop (i : nat) (inv : ConfigInventory) (claimed : claims) (l : list ConfigRecord)
    : ConfigInventory + inventoryError :=
  match l with
  | [] => inl inv
  | r :: l' =>
      match checkRecord i r with
      | Some e => inr e
      | None =>
      match claimSurfaces i r ∅ claimed (cr_Surfaces r) with
      | inr e => inr e
      | inl claimed =>
          match byFingerprint inv !! cr_Fingerprint r with
          | Some _ => inr (InvFingerprintTwice (cr_Fingerprint r))
          | None =>
              inventoryLoop (S i)
                {| byFingerprint := <[cr_Fingerprint r := r]> (byFingerprint inv);
                   ordered := ordered inv ++ [cr_Fingerprint r] |} claimed l'
          end
      end
      end
  end.

Definition newConfigInventory (records : list ConfigRecord) : ConfigInventory + inventoryError :=
  if (maxInventoryRecords <? length records)%nat then inr (InvTooMany (length records))
  else inventoryLoop 0 (mkInventory ∅ []) ∅ records.

(** [ConfigInventory.Lookup] and [Records]; [None] is the nil inventory. *)
Definition Lookup (inv : option ConfigInventory) (fp : string) : option ConfigRecord :=
  inv ≫= fun inv => byFingerprint inv !! fp.
Definition Records (inv : option ConfigInventory) : list ConfigRecord :=
  match inv with
  | None => []
  | Some inv => omap (fun fp => byFingerprint inv !! fp) (ordered inv)
  end.

(** ** The policy *)

Record CohortPolicy := mkPolicy {
  version : string;
  entries : gset (Surface * string)
}.

Inductive policyError :=
  | PolVersionEmpty
  | PolVersionTooLong
  | PolVersionByte (offset : nat)
  | PolSurface (i : nat)
  | PolId (i : nat) (e : idError)
  | PolTwice (i : nat).

Definition maxPolicyVersionLen : nat := 40.

Definition versionByte (c : ascii) : bool :=
  isLower c || isDigit c || (c =? "-")%char || (c =? "_")%char || (c =? ".")%char.

Fixpoint policyLoop (i : nat) (p : CohortPolicy) (l : list (Surface * string))
    : CohortPolicy + policyError :=
  match l with
  | [] => inl p
  | e :: l' =>
      if negb (surfaceValid e.1) then inr (PolSurface i)
      else match parseCohortID e.2 with
           | inr err => inr (PolId i err)
           | inl _ =>
               if decide (e ∈ entries p) then inr (PolTwice i)
               else policyLoop (S i) {| version := version p; entries := {[e]} ∪ entries p |} l'
           end
  end.

Definition newCohortPolicy (v : string) (l : list (Surface * string)) : CohortPolicy + policyError :=
  if v =s "" then inr PolVersionEmpty
  else if (maxPolicyVersionLen <? String.length v)%nat then inr PolVersionTooLong
  else match firstBad (fun _ => versionByte) 0 v with
       | Some i => inr (PolVersionByte i)
       | None => policyLoop 0 (mkPolicy v ∅) l
       end.

(** [CohortPolicy.Enrolled]; [None] is the nil policy. *)
Definition Enrolled (p : option CohortPolicy) (surface : Surface) (cohort : string) : bool :=
  match p with
  | None => false
  | Some p =>
      if bool_decide (entries p = ∅) || negb (surfaceValid surface) then false
      else if existsb (fun r => cohort =s r) reservedCohortIDs then false
      else bool_decide ((surface, cohort) ∈ entries p)
  end.

(** The order of [CohortPolicy.Enrollments]. *)
Definition enrollmentLe (e f : Surface * string) : Prop :=
  if decide (e.1 = f.1) then String.leb e.2 f.2 = true else (e.1 <= f.1)%N.
#[export] Instance enrollmentLe_dec : RelDecision enrollmentLe.
Proof. intros e f. unfold enrollmentLe. case_decide; apply _. Defined.

Definition Enrollments (p : option CohortPolicy) : list (Surface * string) :=
  match p with
  | None => []
  | Some p => merge_sort enrollmentLe (elements (entries p))
  end.

(** ** The gate *)

Record CohortGate := mkGate {
  policy : option CohortPolicy;
  inventory : option ConfigInventory
}.

(** Some record of the cohort declares the surface. *)
Definition substantiated (inv : option ConfigInventory) (e : Surface * string) : bool :=
  existsb (fun r => (cr_Cohort r =s e.2) && existsb (fun s => (s =? e.1)%N) (cr_Surfaces r)) (Records inv).

(** [newCohortGate]; the error is the enrollment without a record. *)
Definition newCohortGate (p : option CohortPolicy) (inv : option ConfigInventory)
    : CohortGate + (Surface * string) :=
  match List.find (fun e => negb (substantiated inv e)) (Enrollments p) with
  | Some e => inr e
  | None => inl (mkGate p inv)
  end.

Record CohortInput := mkInput {
  ci_Fingerprint : string;
  ci_Provider : string
}.

(** [CohortGate.Resolve]. *)
Definition Resolve (g : CohortGate) (surface : Surface) (i : CohortInput) : string :=
  if ci_Fingerprint i =s "" then CohortNone
  else match Lookup (inventory g) (ci_Fingerprint i) with
       | None => CohortUnrecognized
       | Some r =>
           if cr_Provider r <>s ci_Provider i then CohortUnrecognized
           else if existsb (fun s => (s =? surface)%N) (cr_Surfaces r) then cr_Cohort r
           else CohortUnrecognized
       end.

(** ** The production gate *)

Definition FeV1Cohort : string := "fe_v1".
Definition FeV1Approval : string := "DEBAML-683".
Definition ProductionCohortPolicyVersion : string := "s3b-fe-v1-dynamic-call".

Definition productionInventoryRecords : list ConfigRecord :=
  [{| cr_Fingerprint := FeV1ConfigFingerprint; cr_Cohort := FeV1Cohort;
      cr_Surfaces := [SurfaceDynamicCall]; cr_Provider := "openai";
      cr_Verification := VerificationStrictOpenAI; cr_Approval := FeV1Approval |}].

Definition productionEnrollments : list (Surface * string) := [(SurfaceDynamicCall, FeV1Cohort)].

(** [strings.Split] at one byte. *)
Fixpoint splitByte (c : ascii) (s : string) : list string :=
  match s with
  | EmptyString => [EmptyString]
  | String a s' =>
      if Ascii.eqb a c then EmptyString :: splitByte c s'
      else match splitByte c s' with
           | l :: ls => String a l :: ls
           | [] => [String a EmptyString]
           end
  end.

(** [parseSurfaceList]; the error is the part that names no surface. *)
Fixpoint parseSurfaceParts (parts : list string) : list Surface + string :=
  match parts with
  | [] => inl []
  | p :: parts' =>
      let p := TrimSpace p in
      if p =s "" then inr p
      else match List.find (fun s => surfaceLabel s =s p) AllSurfaces with
           | None => inr p
           | Some s =>
               match parseSurfaceParts parts' with
               | inl l => inl (s :: l)
               | inr e => inr e
               end
           end
  end.
Definition parseSurfaceList (field : string) : list Surface + string :=
  match parseSurfaceParts (splitByte "|" field) with
  | inl [] => inr ""
  | r => r
  end.

(** One entry of the spec, trimmed and not empty. *)
Definition parseEntry (i : nat) (entry : string) : ConfigRecord + inventoryError :=
  match TrimSpace <$> splitByte ":" entry with
  | [fp; cohort; surfaces; provider; approval] =>
      match parseSurfaceList surfaces with
      | inr p => inr (InvSpecSurface i p)
      | inl l =>
          inl {| cr_Fingerprint := fp; cr_Cohort := cohort; cr_Surfaces := l; cr_Provider := provider;
                 cr_Verification := VerificationUnconstrained; cr_Approval := approval |}
      end
  | fields => inr (InvSpecFields i (length fields))
  end.

Fixpoint parseEntries (i : nat) (es : list string) : list ConfigRecord + inventoryError :=
  match es with
  | [] => inl []
  | e :: es' =>
      let e := TrimSpace e in
      if e =s "" then parseEntries (S i) es'
      else match parseEntry i e with
           | inr err => inr err
           | inl r =>
               match parseEntries (S i) es' with
               | inl l => inl (r :: l)
               | inr err => inr err
               end
           end
  end.

(** [parseInventorySpec]. *)
Definition parseInventorySpec (spec : string) : list ConfigRecord + inventoryError :=
  parseEntries 0 (FieldsFunc (fun c => (c =? ",")%char || (c =? LF)%char) spec).

(** [loadProductionInventory], with the value of the environment variable. *)
Definition loadProductionInventory (env : string) : ConfigInventory + inventoryError :=
  let spec := TrimSpace env in
  if spec =s "" then newConfigInventory productionInventoryRecords
  else match parseInventorySpec spec with
       | inr e => inr e
       | inl loaded => newConfigInventory (productionInventoryRecords ++ loaded)
       end.

Definition emptyFallbackGate : CohortGate :=
  match newConfigInventory [], newCohortPolicy ProductionCohortPolicyVersion [] with
  | inl inv, inl pol => mkGate (Some pol) (Some inv)
  | _, _ => mkGate None None
  end.

Inductive gateError :=
  | GateInventory (e : inventoryError)
  | GatePolicy (e : policyError)
  | GateUnsubstantiated (e : Surface * string).

(** [loadProductionGate]: the gate of the process and the load error, if any. *)
Definition loadProductionGate (env : string) : CohortGate * option gateError :=
  match loadProductionInventory env with
  | inr e => (emptyFallbackGate, Some (GateInventory e))
  | inl inv =>
      match newCohortPolicy ProductionCohortPolicyVersion productionEnrollments with
      | inr e => (emptyFallbackGate, Some (GatePolicy e))
      | inl pol =>
          match newCohortGate (Some pol) (Some inv) with
          | inr e => (emptyFallbackGate, Some (GateUnsubstantiated e))
          | inl g => (g, None)
          end
      end
  end.

Definition ProductionCohortGate (env : string) : CohortGate := (loadProductionGate env).1.

(** ** Admission *)

Inductive Decline :=
  | NoIdentity
  | IdentityUnrecognized
  | CohortNotEnrolled
  | VerificationNoRecord
  | VerificationUnapproved.

(** [admitCohort]: the resolved cohort, and the reason for a decline. *)
Definition admitCohort (g : CohortGate) (surface : Surface) (i : CohortInput) : string * option Decline :=
  let cohort := Resolve g surface i in
  if Enrolled (policy g) surface cohort then (cohort, None)
  else (cohort, Some (if cohort =s CohortNone then NoIdentity
                      else if cohort =s CohortUnrecognized then IdentityUnrecognized
                      else CohortNotEnrolled)).

(** [admitVerification]. *)
Definition admitVerification (g : CohortGate) (i : CohortInput) (got : VerificationPolicy) : option Decline :=
  match Lookup (inventory g) (ci_Fingerprint i) with
  | None => Some VerificationNoRecord
  | Some r => if Permits (cr_Verification r) got then None else Some VerificationUnapproved
  end.

(** [dynamicSurface]. *)
Definition dynamicSurface (stream : bool) : Surface :=
  if stream then SurfaceDynamicStream else SurfaceDynamicCall.

Example admits_fe_v1 :
  admitCohort (ProductionCohortGate "") SurfaceDynamicCall (mkInput "cfg100" "openai") = ("fe_v1", None).
Proof. vm_compute. reflexivity. Qed.
Example declared_not_enrolled :
  admitCohort (ProductionCohortGate "cfg001:openai_a:dynamic_call|dynamic_stream:openai:DEBAML-1234")
    SurfaceDynamicCall (mkInput "cfg001" "openai") = ("openai_a", Some CohortNotEnrolled).
Proof. vm_compute. reflexivity. Qed.

(** ** What the decoders accept *)

Definition labelBytes (s : string) : Prop :=
  match s with
  | EmptyString => False
  | String c s' => isLower c = true /\ sall (fun d => isLower d || isDigit d || (d =? "_")%char) s' = true
  end.

(** A cohort name: a short lower-case word that is not reserved and does not start
    like a credential. *)
Definition cohortName (s : string) : Prop :=
  labelBytes s /\ (String.length s <= maxCohortIDLen)%nat /\ (s ∉ reservedCohortIDs)
  /\ forall p, p ∈ credentialShapedPrefixes -> HasPrefix s p = false.

(** An approval reference: upper-case letters, a dash, digits. *)
Definition approvalName (s : string) : Prop :=
  exists tag num, s = tag +:+ String "-" num
    /\ tag <> "" /\ num <> "" /\ (String.length tag <= maxApprovalTagLen)%nat /\ (String.length num <= 9)%nat
    /\ sall isUpper tag = true /\ sall isDigit num = true.

Definition recordOk (r : ConfigRecord) : Prop :=
  cr_Fingerprint r ∈ declaredConfigFingerprints /\ cohortName (cr_Cohort r)
  /\ cr_Provider r ∈ AllConfigProviderClasses /\ (cr_Verification r <= 2)%N
  /\ approvalName (cr_Approval r) /\ cr_Surfaces r <> [] /\ Forall (.∈ AllSurfaces) (cr_Surfaces r).

(** The (cohort, surface) pairs a record claims. *)
Definition claimedPairs (r : ConfigRecord) : list (string * Surface) := pair (cr_Cohort r) <$> cr_Surfaces r.

(** A list of records that an inventory may hold. *)
Definition inventoryOk (l : list ConfigRecord) : Prop :=
  (length l <= maxInventoryRecords)%nat /\ Forall recordOk l
  /\ NoDup (cr_Fingerprint <$> l) /\ NoDup (l ≫= claimedPairs).

Lemma existsb_eqs s l : existsb (fun r => s =s r) l = true <-> s ∈ l.
Proof.
  rewrite existsb_exists. split.
  - intros (x&?%list_elem_of_In&->%String.eqb_eq). done.
  - intros ?%list_elem_of_In. exists s. by rewrite String.eqb_refl.
Qed.

Lemma firstBad_none ok i s :
  firstBad ok i s = None <-> forall j c, String.get j s = Some c -> ok (i + j)%nat c = true.
Proof.
  revert i. induction s as [|a s IH]; intros i; simpl; [done|].
  destruct (ok i a) eqn:Ea.
  - rewrite IH. split.
    + intros H [|j] c; [intros [= <-]; by rewrite Nat.add_0_r|]. intros Hc.
      rewrite <- Nat.add_succ_comm. by apply H.
    + intros H j c Hc. rewrite Nat.add_succ_comm. by apply (H (S j)).
  - split; [done|]. intros H. specialize (H 0%nat a eq_refl). rewrite Nat.add_0_r in H. congruence.
Qed.

Lemma sall_get f s : sall f s = true <-> forall j c, String.get j s = Some c -> f c = true.
Proof.
  induction s as [|a s IH]; simpl; [done|]. rewrite andb_true_iff, IH. split.
  - intros [? H] [|j] c; [intros [= <-]; done|apply H].
  - intros H. split; [apply (H 0%nat); done|]. intros j. apply (H (S j)).
Qed.

Lemma firstBad_sall f i s : firstBad (fun _ => f) i s = None <-> sall f s = true.
Proof. rewrite firstBad_none, sall_get. done. Qed.

Lemma firstBad_label s : s <> "" -> (firstBad cohortByte 0 s = None <-> labelBytes s).
Proof.
  intros Hs. destruct s as [|a s]; [done|]. simpl. rewrite sall_get.
  unfold cohortByte at 1. simpl. rewrite orb_false_r.
  destruct (isLower a) eqn:Ea; [|naive_solver].
  rewrite firstBad_none. unfold cohortByte. simpl. setoid_rewrite <- orb_assoc. naive_solver.
Qed.

Lemma lowerASCII_id f s : (forall c, f c = true -> isUpper c = false) -> sall f s = true -> lowerASCII s = s.
Proof.
  intros Hf. induction s as [|a s IH]; simpl; [done|]. intros [Ha Hs]%andb_true_iff.
  rewrite (Hf _ Ha), IH by done. done.
Qed.

Lemma label_lower s : labelBytes s -> lowerASCII s = s.
Proof.
  destruct s as [|a s]; [done|]. intros [Ha Hs].
  assert (Hf : forall c, isLower c || isDigit c || (c =? "_")%char = true -> isUpper c = false).
  { intros c. destruct (isUpper c) eqn:E; [|done]. unfold isLower, isDigit, isUpper, between in *.
    intros [[Hc|Hc]%orb_true_iff|Hc%Ascii.eqb_eq]%orb_true_iff; [| |subst; done];
      apply andb_true_iff in Hc as [??], E as [??]; cbn in *; lia. }
  simpl. rewrite (Hf a) by by rewrite Ha. f_equal. exact (lowerASCII_id _ _ Hf Hs).
Qed.

Lemma find_none_iff {A} (f : A -> bool) l : List.find f l = None <-> forall x, x ∈ l -> f x = false.
Proof.
  induction l as [|a l IH]; simpl; [split; [intros _ x Hx; by inversion Hx|done]|].
  setoid_rewrite elem_of_cons. destruct (f a) eqn:E; [|rewrite IH; naive_solver].
  split; [done|]. intros H. rewrite H in E by auto. done.
Qed.

Lemma parseCohortID_exact s : (exists t, parseCohortID s = inl t) <-> cohortName s.
Proof.
  unfold parseCohortID, cohortName. destruct (String.eqb_spec s "") as [->|Hne].
  { split; [naive_solver|]. by intros [[] _]. }
  pose proof (firstBad_label s Hne) as Hl.
  destruct (Nat.ltb_spec maxCohortIDLen (String.length s)); [split; [naive_solver|]; intros (_&?&_); lia|].
  destruct (firstBad cohortByte 0 s); [naive_solver|].
  destruct Hl as [Hl _]. specialize (Hl eq_refl).
  destruct (existsb _ reservedCohortIDs) eqn:Er.
  { apply existsb_eqs in Er. naive_solver. }
  assert (s ∉ reservedCohortIDs) by (intros ?%existsb_eqs; congruence).
  unfold rejectCredentialShaped. rewrite label_lower by done.
  pose proof (find_none_iff (HasPrefix s) credentialShapedPrefixes) as Hf.
  destruct (List.find _ _); simpl; [|naive_solver]. split; [naive_solver|].
  intros (_&_&_&Hp). by apply Hf in Hp.
Qed.

Lemma parseConfigFingerprint_exact s :
  (exists t, parseConfigFingerprint s = inl t) <-> s ∈ declaredConfigFingerprints.
Proof.
  rewrite <- existsb_eqs. unfold parseConfigFingerprint. split.
  - intros [t H]. repeat (case_hyp H; try done).
  - intros Hb. assert (H := Hb). apply existsb_eqs in H. rewrite Hb.
    assert (Forall (fun s => (s =s "") = false /\ configFingerprintForm s = true) declaredConfigFingerprints) as Hf.
    { repeat constructor. }
    rewrite Forall_forall in Hf. destruct (Hf _ H) as [-> ->]. by eexists.
Qed.

Lemma upper_no_dash tag : sall isUpper tag = true -> ContainsByte "-" tag = false.
Proof.
  induction tag as [|a tag IH]; simpl; [done|]. intros [Ha Ht]%andb_true_iff. rewrite IH by done.
  destruct (Ascii.eqb_spec a "-") as [->|]; [by vm_compute in Ha|done].
Qed.

Lemma parseApprovalRef_exact s : (exists t, parseApprovalRef s = inl t) <-> approvalName s.
Proof.
  unfold parseApprovalRef. split.
  - intros [t H]. destruct (CutByte "-" s) as [[tag num]|] eqn:Ec; [|done].
    apply CutByte_some in Ec as [Ec _]. exists tag, num.
    repeat (case_hyp H; try done). apply orb_false_iff in Heqb as [??]. reflect_eqb.
    apply Nat.ltb_ge in Heqb0, Heqb1. by rewrite firstBad_sall in *.
  - intros (tag&num&->&Ht&Hn&Hlt&Hln&Hst&Hsn). rewrite CutByte_app by by apply upper_no_dash.
    apply String.eqb_neq in Ht, Hn. rewrite Ht, Hn. simpl.
    apply Nat.ltb_ge in Hlt, Hln. apply (firstBad_sall _ 0) in Hst, Hsn.
    rewrite Hlt, Hst, Hln, Hsn. by eexists.
Qed.

Lemma surfaceValid_iff s : surfaceValid s = true <-> s ∈ AllSurfaces.
Proof.
  split.
  - destruct s as [|[[[p|p|]|[p|p|]|]|[[p|p|]|[p|p|]|]|]]; try (vm_compute; done); intros _;
      by apply (bool_decide_unpack _).
  - unfold AllSurfaces. rewrite !elem_of_cons. intros H. destruct_or?; subst; try done. by inversion H.
Qed.

Lemma checkRecord_exact i r :
  checkRecord i r = None /\ Forall (.∈ AllSurfaces) (cr_Surfaces r) <-> recordOk r.
Proof.
  unfold checkRecord, recordOk.
  rewrite <- parseConfigFingerprint_exact, <- parseCohortID_exact, <- parseApprovalRef_exact, <- existsb_eqs.
  fold (providerValid (cr_Provider r)).
  assert (verificationValid (cr_Verification r) = true <-> (cr_Verification r <= 2)%N) as Hv.
  { unfold verificationValid. rewrite !orb_true_iff, !N.eqb_eq. split; [intros [[-> | ->] | ->]; done|].
    unfold VerificationUnconstrained, VerificationStrictOpenAI, VerificationTrustedProvider. lia. }
  destruct (parseConfigFingerprint _), (parseCohortID _), (providerValid _), (verificationValid _),
    (parseApprovalRef _); simpl; try case_decide; naive_solver.
Qed.

Lemma claimSurfaces_exact i r seen claimed l :
  (exists c, claimSurfaces i r seen claimed l = inl c) <->
  Forall (.∈ AllSurfaces) l /\ NoDup l /\ Forall (.∉ seen) l
  /\ Forall (fun s => claimed !! (cr_Cohort r, s) = None) l.
Proof.
  revert seen claimed. induction l as [|s l IH]; intros seen claimed; simpl.
  { split; [|naive_solver]. intros _. split_and!; constructor. }
  rewrite !Forall_cons, NoDup_cons. destruct (surfaceValid s) eqn:Hv; simpl.
  2: { split; [by intros [? [=]]|]. intros ([Hs%surfaceValid_iff _]&_). congruence. }
  apply surfaceValid_iff in Hv. case_decide as Hseen; [naive_solver|].
  destruct (claimed !! (cr_Cohort r, s)) eqn:E; [naive_solver|].
  rewrite IH, !Forall_forall. split.
  - intros (H1&H2&H3&H4). split_and!; try done.
    + intros Hs. apply (H3 s Hs). set_solver.
    + intros t Ht. pose proof (H3 t Ht). set_solver.
    + intros t Ht. specialize (H4 t Ht). by apply lookup_insert_None in H4 as [??].
  - intros ([_ H1]&[H2 H3]&[_ H4]&[_ H5]). split_and!; [done..| |].
    + intros t Ht. pose proof (H4 t Ht). assert (t <> s) by (intros ->; done). set_solver.
    + intros t Ht. apply lookup_insert_None. split; [by apply H5|]. intros [= ->]. done.
Qed.

Lemma claimSurfaces_dom i r seen claimed l c :
  claimSurfaces i r seen claimed l = inl c ->
  dom c = dom claimed ∪ list_to_set (pair (cr_Cohort r) <$> l).
Proof.
  revert seen claimed. induction l as [|s l IH]; intros seen claimed; simpl; intros H; [set_solver|].
  repeat (case_hyp H; try done). apply IH in H. rewrite H, dom_insert_L. set_solver.
Qed.

Lemma inventoryLoop_exact i inv claimed l :
  (exists inv', inventoryLoop i inv claimed l = inl inv') <->
  Forall recordOk l /\ NoDup (cr_Fingerprint <$> l)
  /\ Forall (fun r => byFingerprint inv !! cr_Fingerprint r = None) l
  /\ NoDup (l ≫= claimedPairs) /\ Forall (.∉ dom claimed) (l ≫= claimedPairs).
Proof.
  revert i inv claimed. induction l as [|r l IH]; intros i inv claimed; simpl.
  { split; [intros _; split_and!; constructor|naive_solver]. }
  rewrite NoDup_cons, NoDup_app, !Forall_cons, Forall_app, <- (checkRecord_exact i).
  destruct (checkRecord i r); [naive_solver|].
  pose proof (claimSurfaces_exact i r ∅ claimed (cr_Surfaces r)) as Hc.
  assert (Forall (.∉ dom claimed) (claimedPairs r)
    <-> Forall (fun s => claimed !! (cr_Cohort r, s) = None) (cr_Surfaces r)) as Hd.
  { unfold claimedPairs. rewrite Forall_fmap, !Forall_forall. simpl. setoid_rewrite not_elem_of_dom. done. }
  assert (NoDup (claimedPairs r) <-> NoDup (cr_Surfaces r)) as Hn.
  { unfold claimedPairs. apply NoDup_fmap. by intros ?? [= ->]. }
  destruct (claimSurfaces i r ∅ claimed (cr_Surfaces r)) as [c|e] eqn:E.
  - apply claimSurfaces_dom in E. fold (claimedPairs r) in E.
    destruct Hc as [Hc _]. destruct Hc as (Hs&Hsn&_&Hsc); [by eexists|].
    destruct (byFingerprint inv !! cr_Fingerprint r) eqn:Ef; [naive_solver|].
    apply Hn in Hsn. apply Hd in Hsc. rewrite IH, E. cbn [byFingerprint]. split.
    + intros (H1&H2&H3&H4&H5). rewrite Forall_forall in H3; rewrite Forall_forall in H5.
      split_and!; try done.
      * intros (q&Hq&Hin)%list_elem_of_fmap. apply H3 in Hin. by apply lookup_insert_None in Hin as [_ ?].
      * apply Forall_forall. intros q Hin%H3. by apply lookup_insert_None in Hin as [??].
      * intros p Hp Hp'. apply (H5 p Hp'). apply elem_of_union_r. by apply elem_of_list_to_set.
      * apply Forall_forall. intros p Hp Hp'. apply (H5 p Hp). by apply elem_of_union_l.
    + intros ((_&H1)&(H2&H3)&(_&H4)&(_&H5&H6)&(_&H7)). split_and!; try done.
      * rewrite Forall_forall in H4 |- *. intros q Hq. apply lookup_insert_None. split; [by apply H4|].
        intros Heq. apply H2. apply list_elem_of_fmap. by exists q.
      * rewrite Forall_forall in H7 |- *. intros p Hp [Hq|Hq%elem_of_list_to_set]%elem_of_union;
          [by apply (H7 p)|by apply (H5 p)].
  - split; [by intros [? [=]]|]. intros ([[_ Hs] _]&_&_&(Hp&_)&(Hq&_)).
    destruct Hc as [_ Hc]. destruct Hc as [? [=]]. split_and!; [done|by apply Hn| |by apply Hd].
    apply Forall_true. set_solver.
Qed.

Lemma inventoryLoop_view i inv claimed l inv' :
  inventoryLoop i inv claimed l = inl inv' ->
  ordered inv' = ordered inv ++ (cr_Fingerprint <$> l)
  /\ forall fp r, byFingerprint inv' !! fp = Some r <->
       byFingerprint inv !! fp = Some r \/ (r ∈ l /\ cr_Fingerprint r = fp).
Proof.
  revert i inv claimed. induction l as [|r l IH]; intros i inv claimed; simpl; intros H.
  { simplify_eq. rewrite app_nil_r. split; [done|]. intros. set_solver. }
  repeat (case_hyp H; try done). apply IH in H as [Ho Hl]. simpl in *. rewrite Ho, <- app_assoc.
  split; [done|]. intros fp q. rewrite Hl, lookup_insert_Some, elem_of_cons. split; [naive_solver|].
  intros [Hq|[[->|Hq] <-]]; [|auto..]. destruct (decide (cr_Fingerprint r = fp)) as [<-|]; [congruence|auto].
Qed.

(** The inventory constructor accepts exactly the well-formed manifests, and the
    inventory it builds is the manifest: at most 32 records of declared fingerprints,
    each with a cohort name that is a short lower-case word, neither reserved nor
    shaped like a credential, a declared provider class and regime, an approval
    reference and declared surfaces, no fingerprint twice and no (cohort, surface)
    pair claimed twice; its rows in order are the manifest, and a lookup finds the one
    record of a fingerprint. *)
Theorem newConfigInventory_spec (records : list ConfigRecord) :
  match newConfigInventory records with
  | inl inv =>
      inventoryOk records /\ Records (Some inv) = records
      /\ forall fp r, Lookup (Some inv) fp = Some r <-> r ∈ records /\ cr_Fingerprint r = fp
  | inr _ => ~ inventoryOk records
  end.
Proof.
  unfold newConfigInventory, inventoryOk.
  destruct (Nat.ltb_spec maxInventoryRecords (length records)); [intros [? _]; lia|].
  pose proof (inventoryLoop_exact 0 (mkInventory ∅ []) ∅ records) as He.
  destruct (inventoryLoop _ _ _ _) as [inv|e] eqn:E.
  - destruct He as [He _]. destruct He as (Hr&Hf&_&Hp&_); [by eexists|].
    apply inventoryLoop_view in E as [Ho Hl]. simpl in *.
    assert (forall fp r, byFingerprint inv !! fp = Some r <-> r ∈ records /\ cr_Fingerprint r = fp) as Hl'.
    { intros fp r. rewrite Hl, lookup_empty. naive_solver. }
    split_and!; [done..| |done]. rewrite Ho. clear - Hl'. revert Hl'. generalize (byFingerprint inv) as m.
    intros m Hm. assert (forall l, l ⊆ records -> omap (fun fp => m !! fp) (cr_Fingerprint <$> l) = l) as H.
    { induction l as [|r l IH]; simpl; [done|]. intros Hl.
      assert (m !! cr_Fingerprint r = Some r) as -> by (apply Hm; split; [apply Hl; by left|done]).
      f_equal. apply IH. intros x Hx. apply Hl. by right. }
    by apply H.
  - intros (_&Hr&Hf&Hp). destruct He as [_ He]. destruct He as [? [=]].
    split_and!; [done..| |done|]; apply Forall_true; intros; [apply lookup_empty|set_solver].
Qed.

(** ** The production gate admits one tuple *)

Lemma production_policy :
  newCohortPolicy ProductionCohortPolicyVersion productionEnrollments
  = inl (mkPolicy ProductionCohortPolicyVersion {[ (SurfaceDynamicCall, FeV1Cohort) ]}).
Proof. vm_compute. reflexivity. Qed.

Lemma loadProductionInventory_new env inv :
  loadProductionInventory env = inl inv ->
  exists loaded, newConfigInventory (productionInventoryRecords ++ loaded) = inl inv.
Proof.
  unfold loadProductionInventory. destruct (_ =s _); [exists []; by rewrite app_nil_r|].
  destruct (parseInventorySpec _) as [loaded|]; [|done]. by exists loaded.
Qed.

(** The gate that a load without error installs. *)
Lemma loadProductionGate_ok env g :
  loadProductionGate env = (g, None) ->
  policy g = Some (mkPolicy ProductionCohortPolicyVersion {[ (SurfaceDynamicCall, FeV1Cohort) ]})
  /\ exists loaded inv, newConfigInventory (productionInventoryRecords ++ loaded) = inl inv
       /\ inventory g = Some inv.
Proof.
  unfold loadProductionGate. destruct (loadProductionInventory env) as [inv|] eqn:Ei; [|done].
  rewrite production_policy. unfold newCohortGate. destruct (List.find _ _); [done|].
  intros [= <-]. split; [done|]. apply loadProductionInventory_new in Ei as [loaded ?]. by exists loaded, inv.
Qed.

Lemma loadProductionGate_fails env g e :
  loadProductionGate env = (g, Some e) -> policy g = Some (mkPolicy ProductionCohortPolicyVersion ∅).
Proof.
  assert (policy emptyFallbackGate = Some (mkPolicy ProductionCohortPolicyVersion ∅)) as He by reflexivity.
  unfold loadProductionGate. destruct (loadProductionInventory env); [|by intros [= <- _]].
  rewrite production_policy. destruct (newCohortGate _ _); [done|]. by intros [= <- _].
Qed.

Lemma Enrolled_singleton v surface cohort :
  Enrolled (Some (mkPolicy v {[ (SurfaceDynamicCall, FeV1Cohort) ]})) surface cohort = true
  <-> surface = SurfaceDynamicCall /\ cohort = FeV1Cohort.
Proof.
  unfold Enrolled. cbn [entries]. rewrite bool_decide_eq_false_2 by set_solver. simpl orb. split.
  - destruct (surfaceValid surface); [|done]. destruct (existsb _ _); [done|].
    intros H%bool_decide_eq_true_1%elem_of_singleton. by simplify_eq.
  - intros [-> ->]. vm_compute. reflexivity.
Qed.

Lemma existsb_surface s l : existsb (fun t => (t =? s)%N) l = true <-> s ∈ l.
Proof.
  rewrite existsb_exists. split.
  - intros (x&?%list_elem_of_In&<-%N.eqb_eq). done.
  - intros ?%list_elem_of_In. exists s. by rewrite N.eqb_refl.
Qed.

(** In an inventory two records never claim the same cohort on the same surface. *)
Lemma claimed_once l r q c s :
  NoDup (l ≫= claimedPairs) -> r ∈ l -> q ∈ l ->
  (c, s) ∈ claimedPairs r -> (c, s) ∈ claimedPairs q -> r = q.
Proof.
  induction l as [|a l IH]; simpl; [intros _ Hr; by inversion Hr|].
  intros (Ha&Hd&Hn)%NoDup_app Hr Hq Hcr Hcq.
  assert (forall x, x ∈ l -> (c, s) ∈ claimedPairs x -> (c, s) ∈ l ≫= claimedPairs) as Hin.
  { intros x Hx Hc. apply list_elem_of_bind. by exists x. }
  apply elem_of_cons in Hr as [->|Hr], Hq as [->|Hq]; [done| | |by apply IH].
  - destruct (Hd _ Hcr). by apply (Hin q).
  - destruct (Hd _ Hcq). by apply (Hin r).
Qed.

Definition feV1Record : ConfigRecord :=
  mkRecord FeV1ConfigFingerprint FeV1Cohort [SurfaceDynamicCall] "openai" VerificationStrictOpenAI FeV1Approval.

Lemma feV1_cohortName : cohortName FeV1Cohort.
Proof. apply parseCohortID_exact. by exists FeV1Cohort. Qed.

Lemma Resolve_cohort g inv surface i :
  inventory g = Some inv -> cohortName (Resolve g surface i) ->
  exists r, Lookup (Some inv) (ci_Fingerprint i) = Some r /\ cr_Provider r = ci_Provider i
    /\ surface ∈ cr_Surfaces r /\ cr_Cohort r = Resolve g surface i.
Proof.
  intros Hg (_&_&Hres&_). unfold Resolve in *. rewrite Hg in *.
  destruct (_ =s _); [destruct Hres; by left|].
  destruct (Lookup _ _) as [r|]; [|destruct Hres; by right; left].
  destruct (String.eqb_spec (cr_Provider r) (ci_Provider i)); simpl in *; [|destruct Hres; by right; left].
  destruct (existsb _ _) eqn:E; [|destruct Hres; by right; left]. apply existsb_surface in E. by exists r.
Qed.

(** The cohort stage of the production gate, and what the verification stage finds. *)
Lemma production_enrolled env surface i :
  let g := ProductionCohortGate env in
  (Enrolled (policy g) surface (Resolve g surface i) = true <->
     (loadProductionGate env).2 = None /\ surface = SurfaceDynamicCall
     /\ i = mkInput FeV1ConfigFingerprint "openai")
  /\ (Enrolled (policy g) surface (Resolve g surface i) = true ->
      Resolve g surface i = FeV1Cohort /\ Lookup (inventory g) (ci_Fingerprint i) = Some feV1Record).
Proof.
  intros g. unfold ProductionCohortGate in *.
  destruct (loadProductionGate env) as [g' [e|]] eqn:El; subst g; simpl.
  { rewrite (loadProductionGate_fails _ _ _ El). by split; [split; [done|intros [[=] _]]|]. }
  destruct (loadProductionGate_ok _ _ El) as [Hp (loaded&inv&Hn&Hi)].
  pose proof (newConfigInventory_spec (productionInventoryRecords ++ loaded)) as Hs.
  rewrite Hn in Hs. destruct Hs as ((_&_&_&Hd)&_&Hl).
  pose proof (Enrolled_singleton ProductionCohortPolicyVersion surface (Resolve g' surface i)) as He.
  rewrite Hp, Hi, He.
  assert (Lookup (Some inv) FeV1ConfigFingerprint = Some feV1Record) as Hfe by (apply Hl; split; [by left|done]).
  assert (surface = SurfaceDynamicCall /\ Resolve g' surface i = FeV1Cohort ->
          i = mkInput FeV1ConfigFingerprint "openai") as Hid.
  { intros [-> Hc]. destruct (Resolve_cohort g' inv SurfaceDynamicCall i Hi) as (r&Hr&Hpr&Hsu&Hco).
    { rewrite Hc. exact feV1_cohortName. }
    apply Hl in Hr as [Hr Hfp]. rewrite Hc in Hco.
    assert (r = feV1Record) as ->.
    { apply (claimed_once _ _ _ FeV1Cohort SurfaceDynamicCall Hd Hr); [by left| |by left].
      unfold claimedPairs. rewrite Hco. by apply list_elem_of_fmap_2. }
    destruct i; simpl in *. by subst. }
  split.
  - split; [intros H; by split_and!; [|apply H|apply Hid]|]. intros (_&->&->). split; [done|].
    unfold Resolve. rewrite Hi. simpl ci_Fingerprint. by rewrite Hfe.
  - intros H. rewrite (Hid H). split; [|done]. rewrite <- (Hid H). apply H.
Qed.

(** C11. The production gate admits one tuple and nothing else, whatever a deployment
    declares in its environment: a request passes the cohort stage exactly when the
    configuration load succeeded, the surface is the dynamic unary call, and the
    identity is the one enrolled fingerprint with the provider class of its record.
    An admitted request then passes the verification stage exactly under the strict
    regime, so a native claim always runs both comparisons with BAML. *)
Theorem production_admits (env : string) (surface : Surface) (i : CohortInput) :
  let g := ProductionCohortGate env in
  ((admitCohort g surface i).2 = None <->
     (loadProductionGate env).2 = None /\ surface = SurfaceDynamicCall
     /\ i = mkInput FeV1ConfigFingerprint "openai")
  /\ ((admitCohort g surface i).2 = None ->
      (admitCohort g surface i).1 = FeV1Cohort
      /\ forall got, admitVerification g i got = None <-> got = PolicyStrictOpenAI).
Proof.
  intros g. destruct (production_enrolled env surface i) as [He Hr]. fold g in He, Hr.
  unfold admitCohort, admitVerification. destruct (Enrolled _ _ _); simpl.
  - destruct (Hr eq_refl) as [-> ->]. split; [by rewrite <- He|]. intros _. split; [done|].
    intros got. unfold Permits. simpl. destruct (N.eqb_spec got PolicyStrictOpenAI); naive_solver.
  - split; [|done]. by rewrite <- He.
Qed.
