(* ===== verification/TrustedConfig.v ===== *)
(** * TrustedConfig: the configurations a deployment approves
      ([bamlutils/trustedconfig.go], [trustedclients/trustedclients.go],
      [clientdefaults], [worker/options.go])

    A deployment declares configuration classes; the worker seals a client of a
    request when the request did no more than name such a class.  Here: the seal and
    its digest, the declaration and its validation, the sealing pass, the defaults
    merged into every client, and the preparation of a request's registry that runs
    the three passes.  JSON decoding and SHA-256 are variables of the section, and so
    are the order in which Go ranges over a map and the URL rewrite. *)

From Stdlib Require Import Ascii.
From stdpp Require Import sorting.
From S2P Require Import Prelude GoStrings GoValue Registry Cohort.
Open Scope stdpp_scope.

(** ** Sealed clients *)

Record trustedConfigSeal := mkSeal { seal_fingerprint : string; seal_digest : string }.

(** A [ClientProperty] with its unexported [seal] field. *)
Record SealedClient := mkSealed { sc_client : ClientProperty; sc_seal : option trustedConfigSeal }.

Record SealedRegistry := mkSealedRegistry {
  sr_Primary : option string;
  sr_Clients : list (option SealedClient)
}.

(** A registry as it is decoded from a request: no client carries a seal. *)
Definition decodedRegistry (r : ClientRegistry) : SealedRegistry :=
  mkSealedRegistry (reg_Primary r) (option_map (fun c => mkSealed c None) <$> reg_Clients r).

Definition SealTrustedConfig (fingerprint digest : string) (c : SealedClient) : SealedClient :=
  if (fingerprint =s "") || (digest =s "") then mkSealed (sc_client c) None
  else mkSealed (sc_client c) (Some (mkSeal fingerprint digest)).
Definition ClearTrustedConfigSeal (c : SealedClient) : SealedClient := mkSealed (sc_client c) None.

(** ** The digest *)

Definition trustedConfigDigestDomain : string := "baml-rest/debaml/config-selector/v1".
Definition trustedConfigCredentialSentinel : string := String "000" "credential".
Definition MaxTrustedConfigOptions : nat := 16.
Definition trustedConfigCredentialKeys : gset string := {["api_key"]}.

(** [binary.BigEndian.PutUint64], for [k] bytes. *)
Fixpoint bigEndian (k : nat) (z : Z) : string :=
  match k with
  | O => EmptyString
  | S k => String (ascii_of_N (Z.to_N ((z / 2 ^ (8 * Z.of_nat k)) mod 256))) (bigEndian k z)
  end.

Definition writeTrustedConfigCount (n : nat) : string := bigEndian 8 (u64 (Z.of_nat n)).
Definition writeTrustedConfigField (s : string) : string := writeTrustedConfigCount (String.length s) +:+ s.

Inductive digestError := DigestNoProvider | DigestTooMany (n : nat) | DigestNotLiteral (key : string).

(** The options a possibly nil map holds. *)
Definition optionsOf (c : ClientProperty) : gmap string goval := default ∅ (cp_Options c).

Definition sleb (a b : string) : Prop := String.leb a b = true.
#[export] Instance sleb_dec : RelDecision sleb.
Proof. intros a b. unfold sleb. apply _. Defined.

(** The keys in the order of [sort.Strings]. *)
Definition sortedKeys (m : gmap string goval) : list string := merge_sort sleb (elements (dom m)).

(** The loop over the sorted keys. *)
Fixpoint encodeOptions (m : gmap string goval) (keys : list string) : string + digestError :=
  match keys with
  | [] => inl ""
  | k :: keys' =>
      match m !! k with
      | Some (GString value) =>
          let shown := if decide (k ∈ trustedConfigCredentialKeys) then trustedConfigCredentialSentinel else value in
          match encodeOptions m keys' with
          | inl rest => inl (writeTrustedConfigField k +:+ writeTrustedConfigField shown +:+ rest)
          | inr e => inr e
          end
      | _ => inr (DigestNotLiteral k)
      end
  end.

(** The bytes [TrustedConfigDigest] writes into the hash. *)
Definition encodeConfig (cp : ClientProperty) (resolvedProvider : string) : string + digestError :=
  if resolvedProvider =s "" then inr DigestNoProvider
  else
    let m := optionsOf cp in
    if (MaxTrustedConfigOptions <? size m)%nat then inr (DigestTooMany (size m))
    else match encodeOptions m (sortedKeys m) with
         | inr e => inr e
         | inl opts =>
             inl (writeTrustedConfigField trustedConfigDigestDomain
                  +:+ writeTrustedConfigField resolvedProvider
                  +:+ writeTrustedConfigField (cp_Name cp)
                  +:+ writeTrustedConfigField (cp_Provider cp)
                  +:+ writeTrustedConfigCount (length (sortedKeys m)) +:+ opts)
         end.

Definition hexDigit (n : N) : ascii := ascii_of_N (if (n <? 10)%N then 48 + n else 87 + n).

(** [hex.EncodeToString]. *)
Fixpoint hexEncode (s : string) : string :=
  match s with
  | EmptyString => EmptyString
  | String c s' =>
      String (hexDigit (N_of_ascii c / 16)) (String (hexDigit (N_of_ascii c mod 16)) (hexEncode s'))
  end.

(** ** The declaration *)

Inductive Reason :=
  | ReasonInvalidJSON | ReasonUnknownField | ReasonTrailingContent | ReasonTooManyClients
  | ReasonNameEmpty | ReasonNameNotTrimmed | ReasonNameTooLong | ReasonFingerprintNotOpaque
  | ReasonProviderEmpty | ReasonOptionsEmpty | ReasonTooManyOptions | ReasonOptionKeyEmpty
  | ReasonOptionValueEmpty | ReasonNameDeclaredTwice | ReasonFingerprintDeclaredTwice.

(** [DeclarationError]; [None] is the record index of the envelope. *)
Definition DeclarationError : Type := option nat * Reason.

Definition MaxClients : nat := 16.
Definition maxNameLen : nat := 128.

(** [fingerprintForm], the same pattern as the gate's. *)
Definition fingerprintForm (s : string) : bool := configFingerprintForm s.

Record Client := mkDeclared {
  tc_Name : string;
  tc_Fingerprint : string;
  tc_Provider : string;
  tc_Options : gmap string string
}.

(** What the JSON decoder returns on a text: the error text, or the records of the
    envelope and whether nothing but white space follows. *)
Inductive decodeResult :=
  | DecodeFailed (message : string)
  | DecodeDone (records : list Client) (eof : bool).

Definition classifyDecodeError (message : string) : Reason :=
  if Contains message "unknown field" then ReasonUnknownField else ReasonInvalidJSON.

(** [Set]: the declared clients by name; a nil set is [None]. *)
Abbreviation TrustedSet := (gmap string Client).

(** The loop over the options of a declared client. *)
Fixpoint validateOptions (l : list (string * string)) : option Reason :=
  match l with
  | [] => None
  | (k, v) :: l' =>
      if TrimSpace k =s "" then Some ReasonOptionKeyEmpty
      else if v =s "" then Some ReasonOptionValueEmpty
      else validateOptions l'
  end.

(** ** Deployment-wide defaults *)

(** [Handler]: [Apply] gets the parsed value and the caller's value, if present. *)
Record Handler := mkHandler {
  h_Key : string;
  h_Parse : goval -> option goval;
  h_Apply : goval -> option goval -> option goval
}.

Definition isGString (v : goval) : bool := match v with GString _ => true | _ => false end.

Definition allowedRoleMetadataHandler : Handler :=
  {| h_Key := "allowed_role_metadata";
     h_Parse := fun v =>
       match v with
       | GString s => if (s <>s "all") && (s <>s "none") then None else Some v
       | GList l => if forallb isGString l then Some v else None
       | _ => None
       end;
     h_Apply := fun parsed existing => match existing with Some _ => None | None => Some parsed end |}.

(** The package variable [registry]. *)
Definition handlers : list Handler := [allowedRoleMetadataHandler].

Definition handlerByKey (key : string) : option Handler := List.find (fun h => h_Key h =s key) handlers.

Inductive defaultsError := DefaultsUnknownKeys (keys : list string) | DefaultsValue (key : string).

(** [Config]: one entry per configured handler. *)
Abbreviation defaultsConfig := (list (Handler * goval)).

Fixpoint parseHandlers (options : gmap string goval) (hs : list Handler) : defaultsConfig + defaultsError :=
  match hs with
  | [] => inl []
  | h :: hs' =>
      match options !! h_Key h with
      | None => parseHandlers options hs'
      | Some raw =>
          match h_Parse h raw with
          | None => inr (DefaultsValue (h_Key h))
          | Some v =>
              match parseHandlers options hs' with
              | inl l => inl ((h, v) :: l)
              | inr e => inr e
              end
          end
      end
  end.

(** [parse] after the envelope is decoded; [None] is an absent [client_defaults]. *)
Definition parseDefaults (body : option (gmap string goval)) : defaultsConfig + defaultsError :=
  match body with
  | None => inl []
  | Some options =>
      match List.filter (fun k => bool_decide (handlerByKey k = None)) (sortedKeys options) with
      | [] => parseHandlers options handlers
      | unknown => inr (DefaultsUnknownKeys unknown)
      end
  end.

Definition setOptions (o : option (gmap string goval)) (c : ClientProperty) : ClientProperty :=
  mkClient (cp_Name c) (cp_Provider c) (cp_RetryPolicy c) o (cp_ProviderSet c).

(** One turn of the inner loop of [Config.Apply]. *)
Definition applyEntry (c : ClientProperty) (e : Handler * goval) : ClientProperty :=
  match h_Apply e.1 e.2 (option_key c (h_Key e.1)) with
  | None => c
  | Some v => setOptions (Some (<[h_Key e.1 := v]> (optionsOf c))) c
  end.

Definition mapClients (f : SealedClient -> SealedClient) (r : SealedRegistry) : SealedRegistry :=
  mkSealedRegistry (sr_Primary r) (option_map f <$> sr_Clients r).
Definition onClient (f : ClientProperty -> ClientProperty) (c : SealedClient) : SealedClient :=
  mkSealed (f (sc_client c)) (sc_seal c).

(** [Config.Apply]. *)
Definition applyDefaults (cfg : defaultsConfig) (r : SealedRegistry) : SealedRegistry :=
  mapClients (onClient (fun c => foldl applyEntry c cfg)) r.

(** [rewriteClientBaseURLs], one client, with the rewrite of one URL. *)
Definition rewriteBaseURL (rewrite : string -> string) (c : ClientProperty) : ClientProperty :=
  match cp_Options c with
  | None => c
  | Some m =>
      match m !! "base_url" with
      | Some (GString url) =>
          if url =s "" then c
          else if rewrite url <>s url then setOptions (Some (<["base_url" := GString (rewrite url)]> m)) c
          else c
      | _ => c
      end
  end.

(** ** The sealing pass *)

Section Seal.
Variable sha256 : string -> string.
Variable decode : string -> decodeResult.
Variable rangeOptions : gmap string string -> list (string * string).

Definition TrustedConfigDigest (cp : ClientProperty) (resolvedProvider : string) : string + digestError :=
  match encodeConfig cp resolvedProvider with
  | inl bytes => inl (hexEncode (sha256 bytes))
  | inr e => inr e
  end.

Definition validateClient (c : Client) : option Reason :=
  if TrimSpace (tc_Name c) =s "" then Some ReasonNameEmpty
  else if tc_Name c <>s TrimSpace (tc_Name c) then Some ReasonNameNotTrimmed
  else if (maxNameLen <? String.length (tc_Name c))%nat then Some ReasonNameTooLong
  else if negb (fingerprintForm (tc_Fingerprint c)) then Some ReasonFingerprintNotOpaque
  else if TrimSpace (tc_Provider c) =s "" then Some ReasonProviderEmpty
  else if (size (tc_Options c) =? 0)%nat then Some ReasonOptionsEmpty
  else if (MaxTrustedConfigOptions <? size (tc_Options c))%nat then Some ReasonTooManyOptions
  else validateOptions (rangeOptions (tc_Options c)).

(** The loop of [Parse] over the records. *)
Fixpoint declareLoop (i : nat) (byName : TrustedSet) (seenFingerprint : gset string) (l : list Client)
    : TrustedSet + DeclarationError :=
  match l with
  | [] => inl byName
  | c :: l' =>
      match validateClient c with
      | Some reason => inr (Some i, reason)
      | None =>
          match byName !! tc_Name c with
          | Some _ => inr (Some i, ReasonNameDeclaredTwice)
          | None =>
              if decide (tc_Fingerprint c ∈ seenFingerprint) then inr (Some i, ReasonFingerprintDeclaredTwice)
              else declareLoop (S i) (<[tc_Name c := c]> byName) ({[tc_Fingerprint c]} ∪ seenFingerprint) l'
          end
      end
  end.

(** [Parse]. *)
Definition Parse (raw : string) : TrustedSet + DeclarationError :=
  let raw := TrimSpace raw in
  if raw =s "" then inl ∅
  else match decode raw with
       | DecodeFailed m => inr (None, classifyDecodeError m)
       | DecodeDone records eof =>
           if negb eof then inr (None, ReasonTrailingContent)
           else if (MaxClients <? length records)%nat then inr (None, ReasonTooManyClients)
           else declareLoop 0 ∅ ∅ records
       end.

(** The client with the declared provider and options installed. *)
Definition installDeclared (d : Client) (c : ClientProperty) : ClientProperty :=
  mkClient (cp_Name c) (tc_Provider d) (cp_RetryPolicy c) (Some (GString <$> tc_Options d)) true.

(** One turn of the loop of [Seal]. *)
Definition sealClient (s : TrustedSet) (c : SealedClient) : SealedClient :=
  let c := ClearTrustedConfigSeal c in
  let cp := sc_client c in
  match s !! cp_Name cp with
  | None => c
  | Some d =>
      if IsProviderPresent cp || negb (size (optionsOf cp) =? 0)%nat || bool_decide (is_Some (cp_RetryPolicy cp))
      then c
      else
        let c := mkSealed (installDeclared d cp) None in
        match TrustedConfigDigest (sc_client c) (tc_Provider d) with
        | inr _ => c
        | inl digest => SealTrustedConfig (tc_Fingerprint d) digest c
        end
  end.

(** [Set.Seal]; a nil set has length 0. *)
Definition Seal (s : option TrustedSet) (r : SealedRegistry) : SealedRegistry :=
  match s with
  | None => r
  | Some s => if (size s =? 0)%nat then r else mapClients (sealClient s) r
  end.

(** The registry part of [workerBamlOptions.apply]; [None] stands for no rewrite rules. *)
Definition prepareRegistry (rewrite : option (string -> string)) (defaults : defaultsConfig)
    (trusted : option TrustedSet) (r : SealedRegistry) : SealedRegistry :=
  let r := match rewrite with
           | Some f => mapClients (onClient (rewriteBaseURL f)) r
           | None => r
           end in
  Seal trusted (applyDefaults defaults r).

End Seal.

(** ** The digest determines the configuration *)

(** Every Go string is shorter than 2^63 bytes. *)
Definition sized (s : string) : Prop := (Z.of_nat (String.length s) < 2 ^ 63)%Z.

Lemma byte_inj x y : (0 <= x < 256)%Z -> (0 <= y < 256)%Z ->
  ascii_of_N (Z.to_N x) = ascii_of_N (Z.to_N y) -> x = y.
Proof.
  intros Hx Hy H%(f_equal N_of_ascii). rewrite !N_ascii_embedding in H by lia. lia.
Qed.

Lemma bigEndian_inj k z z' :
  bigEndian k z = bigEndian k z' -> (z mod 2 ^ (8 * Z.of_nat k) = z' mod 2 ^ (8 * Z.of_nat k))%Z.
Proof.
  induction k as [|k IH]; simpl bigEndian; intros H; [by rewrite !Z.mod_1_r|].
  injection H as Hb Ht. apply IH in Ht. apply byte_inj in Hb; [|apply Z.mod_pos_bound; lia..].
  replace (8 * Z.of_nat (S k))%Z with (8 * Z.of_nat k + 8)%Z by lia.
  rewrite Z.pow_add_r by lia. change (2 ^ 8)%Z with 256%Z. rewrite !Z.rem_mul_r by lia. congruence.
Qed.

Lemma bigEndian_length k z : String.length (bigEndian k z) = k.
Proof. induction k as [|k IH]; simpl; congruence. Qed.

Lemma sapp_inj (a b x y : string) :
  String.length a = String.length b -> a +:+ x = b +:+ y -> a = b /\ x = y.
Proof.
  revert b. induction a as [|c a IH]; intros [|d b]; simpl; intros Hl H; try done.
  injection H as -> H. apply IH in H as [-> ->]; [done|lia].
Qed.

Lemma writeCount_inj n m x y :
  (Z.of_nat n < 2 ^ 63)%Z -> (Z.of_nat m < 2 ^ 63)%Z ->
  writeTrustedConfigCount n +:+ x = writeTrustedConfigCount m +:+ y -> n = m /\ x = y.
Proof.
  intros Hn Hm [H ->]%sapp_inj; [|by unfold writeTrustedConfigCount; rewrite !bigEndian_length].
  apply bigEndian_inj in H. unfold u64 in H. change (8 * Z.of_nat 8)%Z with 64%Z in H.
  rewrite !Z.mod_mod in H by lia. rewrite !Z.mod_small in H by lia. split; [lia|done].
Qed.

Lemma writeField_inj s t x y :
  sized s -> sized t ->
  writeTrustedConfigField s +:+ x = writeTrustedConfigField t +:+ y -> s = t /\ x = y.
Proof.
  unfold writeTrustedConfigField. rewrite !sapp_assoc. intros Hs Ht [Hl H]%writeCount_inj; [|done..].
  by apply sapp_inj.
Qed.

#[local] Arguments writeTrustedConfigField : simpl never.
#[local] Arguments writeTrustedConfigCount : simpl never.
#[local] Arguments sized : simpl never.
#[local] Opaque writeTrustedConfigField writeTrustedConfigCount.

(** What an option contributes to the encoding: a credential only its presence. *)
Definition shownOption (k : string) (v : goval) : goval :=
  if decide (k ∈ trustedConfigCredentialKeys) then GString trustedConfigCredentialSentinel else v.
Definition shownOptions (m : gmap string goval) : gmap string goval := map_imap (fun k v => Some (shownOption k v)) m.

Definition sizedOptions (m : gmap string goval) : Prop :=
  map_Forall (fun k v => sized k /\ match v with GString s => sized s | _ => True end) m.
Definition sizedClient (c : ClientProperty) : Prop :=
  sized (cp_Name c) /\ sized (cp_Provider c) /\ sizedOptions (optionsOf c).

Lemma encodeOptions_inj m m' ks ks' e e' :
  sizedOptions m -> sizedOptions m' -> length ks = length ks' ->
  encodeOptions m ks = inl e -> encodeOptions m' ks' = inl e' -> e = e' ->
  ks = ks' /\ forall k, k ∈ ks -> shownOption k <$> m !! k = shownOption k <$> m' !! k.
Proof.
  intros Hm Hm'. revert ks' e e'. induction ks as [|k ks IH]; intros [|k' ks'] e e' Hlen He He' Heq; try done;
    [split; [done|]; intros k Hk; by inversion Hk|].
  simpl in He, He'. injection Hlen as Hlen.
  destruct (m !! k) as [[]|] eqn:Ek, (m' !! k') as [[]|] eqn:Ek'; try done.
  destruct (encodeOptions m ks) as [r|] eqn:Er, (encodeOptions m' ks') as [r'|] eqn:Er'; try done.
  injection He as <-. injection He' as <-.
  assert (sized trustedConfigCredentialSentinel) by (vm_compute; done).
  destruct (Hm _ _ Ek), (Hm' _ _ Ek').
  apply writeField_inj in Heq as [<- Heq]; [|done..].
  apply writeField_inj in Heq as [Hv ->]; [|by case_decide..].
  destruct (IH ks' r' r' Hlen eq_refl Er' eq_refl) as [-> Hks]. split; [done|].
  intros q [->|Hq]%elem_of_cons; [|by apply Hks]. rewrite Ek, Ek'. simpl. unfold shownOption.
  case_decide; congruence.
Qed.

Lemma sortedKeys_elem m k : k ∈ sortedKeys m <-> is_Some (m !! k).
Proof. unfold sortedKeys. rewrite merge_sort_Permutation, elem_of_elements. apply elem_of_dom. Qed.
Lemma sortedKeys_length m : length (sortedKeys m) = size m.
Proof. unfold sortedKeys. rewrite merge_sort_Permutation. by rewrite <- size_dom. Qed.

(** Equal encodings: same provider, name and options up to the values of credentials. *)
Definition sameConfig (c : ClientProperty) (p : string) (c' : ClientProperty) (p' : string) : Prop :=
  p = p' /\ cp_Name c = cp_Name c' /\ cp_Provider c = cp_Provider c'
  /\ dom (optionsOf c) = dom (optionsOf c')
  /\ forall k, k ∉ trustedConfigCredentialKeys -> optionsOf c !! k = optionsOf c' !! k.

Lemma encodeConfig_inl c p e :
  encodeConfig c p = inl e ->
  (size (optionsOf c) <= MaxTrustedConfigOptions)%nat
  /\ exists opts, encodeOptions (optionsOf c) (sortedKeys (optionsOf c)) = inl opts
     /\ e = writeTrustedConfigField trustedConfigDigestDomain +:+ writeTrustedConfigField p
            +:+ writeTrustedConfigField (cp_Name c) +:+ writeTrustedConfigField (cp_Provider c)
            +:+ writeTrustedConfigCount (length (sortedKeys (optionsOf c))) +:+ opts.
Proof.
  unfold encodeConfig. destruct (p =s ""); [done|].
  destruct (Nat.ltb_spec MaxTrustedConfigOptions (size (optionsOf c))); [done|].
  destruct (encodeOptions _ _) as [opts|]; [|done]. intros [= <-]. split; [done|]. by exists opts.
Qed.

Theorem encodeConfig_inj c p c' p' e :
  sizedClient c -> sizedClient c' -> sized p -> sized p' ->
  encodeConfig c p = inl e -> encodeConfig c' p' = inl e -> sameConfig c p c' p'.
Proof.
  intros (Hn&Hp&Ho) (Hn'&Hp'&Ho') Hr Hr' (Hs&o&Hoe&->)%encodeConfig_inl (Hs'&o'&Hoe'&He')%encodeConfig_inl.
  unfold MaxTrustedConfigOptions in *.
  apply writeField_inj in He' as [_ H]; [|vm_compute; done..].
  apply writeField_inj in H as [Hpp H]; [|done..]. apply writeField_inj in H as [Hnn H]; [|done..].
  apply writeField_inj in H as [Hqq H]; [|done..].
  apply writeCount_inj in H as [Hl Heq]; [|rewrite sortedKeys_length; lia..].
  destruct (encodeOptions_inj _ _ _ _ _ _ Ho Ho' Hl Hoe Hoe' Heq) as [Hk Hv].
  assert (dom (optionsOf c') = dom (optionsOf c)) as Hd.
  { apply set_eq. intros k. rewrite !elem_of_dom, <- !sortedKeys_elem. by rewrite Hk. }
  unfold sameConfig. split_and!; [done..|]. intros k Hc.
  destruct (optionsOf c' !! k) as [v|] eqn:Ek.
  - assert (k ∈ sortedKeys (optionsOf c)) as Hin by (rewrite Hk; apply sortedKeys_elem; by eexists).
    apply Hv in Hin. rewrite Ek in Hin. destruct (optionsOf c !! k) as [w|]; [|done].
    simpl in Hin. unfold shownOption in Hin. rewrite !decide_False in Hin by done. congruence.
  - apply not_elem_of_dom in Ek. rewrite Hd in Ek. by apply not_elem_of_dom in Ek.
Qed.

(** ** The declaration *)

Lemma hexDigit_inj n m : (n < 16)%N -> (m < 16)%N -> hexDigit n = hexDigit m -> n = m.
Proof.
  unfold hexDigit. intros Hn Hm H%(f_equal N_of_ascii).
  destruct (N.ltb_spec n 10), (N.ltb_spec m 10); rewrite !N_ascii_embedding in H by lia; lia.
Qed.

Lemma hexEncode_inj s t : hexEncode s = hexEncode t -> s = t.
Proof.
  revert t. induction s as [|a s IH]; intros [|b t]; simpl; intros H; try done.
  injection H as H1 H2 H. apply IH in H as ->. f_equal.
  pose proof (N_ascii_bounded a). pose proof (N_ascii_bounded b).
  assert (N_of_ascii a < 256)%N as Ha by done. assert (N_of_ascii b < 256)%N as Hb by done.
  apply hexDigit_inj in H1; [|apply N.Div0.div_lt_upper_bound; lia..].
  apply hexDigit_inj in H2; [|by apply N.mod_lt..].
  rewrite <- (ascii_N_embedding a), <- (ascii_N_embedding b). f_equal.
  rewrite (N.div_mod (N_of_ascii a) 16), (N.div_mod (N_of_ascii b) 16) by done. by rewrite H1, H2.
Qed.

Lemma declareLoop_sound range i byName seen l s :
  declareLoop range i byName seen l = inl s ->
  forall n d, s !! n = Some d -> byName !! n = Some d \/ (d ∈ l /\ tc_Name d = n /\ validateClient range d = None).
Proof.
  revert i byName seen. induction l as [|c l IH]; intros i byName seen; simpl; intros H n d Hd.
  { injection H as ->. by left. }
  destruct (validateClient range c) eqn:Ev; [done|]. destruct (byName !! tc_Name c); [done|].
  case_decide; [done|]. destruct (IH _ _ _ H n d Hd) as [Hl|(Hin&Hn&Hv)]; [|right; by split; [right|]].
  apply lookup_insert_Some in Hl as [[<- <-]|[_ Hl]]; [|by left]. right. by split; [left|].
Qed.
