(* ===== verification/ConfigIdentity.v ===== *)
(** * ConfigIdentity: from a request to a claim ([nativeserve/admission/identity.go])

    The selection of one client of a registry, the resolver of the configuration
    identity, and the input the serve path hands to the gate of [Cohort].  The
    theorems follow a request through the sealing pass of [TrustedConfig], any later
    pass that makes no seal, the resolver and the gate. *)

From S2P Require Import Prelude GoStrings GoValue Registry Cohort TrustedConfig.
Open Scope stdpp_scope.

Inductive selectError :=
  | NoRegistry | RegistryInvalid | NoClients | PrimaryMissing | AmbiguousSelection.

Definition plainRegistry (r : SealedRegistry) : ClientRegistry :=
  mkRegistry (sr_Primary r) (option_map sc_client <$> sr_Clients r).

(** [selectOneClient]. *)
Definition selectOneClient (reg : option SealedRegistry) : SealedClient + selectError :=
  match reg with
  | None => inr NoRegistry
  | Some r =>
      if bool_decide (is_Some (Validate (Some (plainRegistry r)))) then inr RegistryInvalid
      else
        let clients := omap id (sr_Clients r) in
        match clients with
        | [] => inr NoClients
        | c0 :: rest =>
            match sr_Primary r with
            | Some p =>
                if p <>s "" then
                  match List.find (fun c => cp_Name (sc_client c) =s p) clients with
                  | Some c => inl c
                  | None => inr PrimaryMissing
                  end
                else match rest with [] => inl c0 | _ => inr AmbiguousSelection end
            | None => match rest with [] => inl c0 | _ => inr AmbiguousSelection end
            end
        end
  end.

Definition providerBAMLBedrock : string := "aws-bedrock".
Definition providerNanollmBedrock : string := "bedrock".
Definition normalizeNanollmProvider (p : string) : string :=
  if p =s providerBAMLBedrock then providerNanollmBedrock else p.

Record ConfigSelection := mkSelection {
  sel_Registry : option SealedRegistry;
  sel_ResolvedProvider : string;
  sel_SelectedLeaf : string;
  sel_SingleLeaf : bool;
  sel_HasFallbackChain : bool;
  sel_HasRoundRobin : bool;
  sel_HasRequestRetryOverride : bool;
  sel_HasBAMLPlanOracle : bool
}.

Record ConfigIdentity := mkIdentity { id_Fingerprint : string; id_Provider : string }.

Inductive identityError :=
  | NotSingleLeaf | HasStrategy | HasRetryOverride | NoPlanOracle
  | Selection (e : selectError) | LeafMismatch | HasRetryPolicy | NotSealed
  | ProviderAbsent | ProviderDisagrees | ProviderNotDeclared
  | NotCanonical (e : digestError) | Drifted | BadFingerprint (e : idError).

Section Identity.
Variable sha256 : string -> string.

(** [ConfigSelection.resolve]. *)
Definition resolve (sel : ConfigSelection) : ConfigIdentity + identityError :=
  if negb (sel_SingleLeaf sel) then inr NotSingleLeaf
  else if sel_HasFallbackChain sel || sel_HasRoundRobin sel then inr HasStrategy
  else if sel_HasRequestRetryOverride sel then inr HasRetryOverride
  else if negb (sel_HasBAMLPlanOracle sel) then inr NoPlanOracle
  else match selectOneClient (sel_Registry sel) with
  | inr e => inr (Selection e)
  | inl c =>
      let cp := sc_client c in
      if (sel_SelectedLeaf sel =s "") || (sel_SelectedLeaf sel <>s cp_Name cp) then inr LeafMismatch
      else if bool_decide (is_Some (cp_RetryPolicy cp)) then inr HasRetryPolicy
      else match sc_seal c with
      | None => inr NotSealed
      | Some s =>
          if sel_ResolvedProvider sel =s "" then inr ProviderAbsent
          else
            let canonical := normalizeNanollmProvider (sel_ResolvedProvider sel) in
            if (cp_Provider cp =s "") || (normalizeNanollmProvider (cp_Provider cp) <>s canonical)
            then inr ProviderDisagrees
            else if negb (providerValid canonical) then inr ProviderNotDeclared
            else match TrustedConfigDigest sha256 cp (sel_ResolvedProvider sel) with
            | inr e => inr (NotCanonical e)
            | inl digest =>
                if digest <>s seal_digest s then inr Drifted
                else match parseConfigFingerprint (seal_fingerprint s) with
                     | inr e => inr (BadFingerprint e)
                     | inl fp => inl (mkIdentity fp canonical)
                     end
            end
      end
  end.

(** [ResolveConfigIdentity]. *)
Definition ResolveConfigIdentity (sel : ConfigSelection) : ConfigIdentity :=
  match resolve sel with inl id => id | inr _ => mkIdentity "" "" end.

(** [serveCohortInput] of a production server, whose own [cohort] is zero. *)
Definition serveCohortInput (sel : ConfigSelection) : CohortInput :=
  let id := ResolveConfigIdentity sel in mkInput (id_Fingerprint id) (id_Provider id).

End Identity.

(** ** Provenance *)

(** The request did no more than name the client. *)
Definition onlyNamed (c : ClientProperty) : Prop :=
  cp_Provider c = "" /\ cp_ProviderSet c = false /\ optionsOf c = ∅ /\ cp_RetryPolicy c = None.

(** Two different texts with one hash. *)
Definition collision (sha256 : string -> string) : Prop :=
  exists x y, x <> y /\ sha256 x = sha256 y.

(** A pass keeps or drops seals, whatever else it does to the clients. *)
Definition makesNoSeal (before after : SealedRegistry) : Prop :=
  forall c s, Some c ∈ sr_Clients after -> sc_seal c = Some s ->
    exists c', Some c' ∈ sr_Clients before /\ sc_seal c' = Some s.

Lemma applyEntry_named c e : onlyNamed (applyEntry c e) -> onlyNamed c /\ applyEntry c e = c.
Proof.
  unfold applyEntry. destruct (h_Apply _ _ _); [|done].
  intros (_&_&Ho&_). unfold optionsOf in Ho at 1. simpl in Ho. by apply insert_non_empty in Ho.
Qed.

Lemma applyDefaults_named cfg c :
  onlyNamed (foldl applyEntry c cfg) -> onlyNamed c /\ foldl applyEntry c cfg = c.
Proof.
  revert c. induction cfg as [|e cfg IH]; intros c; simpl; [done|].
  intros [[H He]%applyEntry_named Hf]%IH. by rewrite Hf, He.
Qed.

Lemma rewriteBaseURL_named f c : onlyNamed (rewriteBaseURL f c) -> onlyNamed c /\ rewriteBaseURL f c = c.
Proof.
  unfold rewriteBaseURL. intros H. repeat (case_hyp H; try done).
  destruct H as (_&_&Ho&_). unfold optionsOf in Ho. simpl in Ho. by apply insert_non_empty in Ho.
Qed.

Lemma mapClients_elem f r c :
  Some c ∈ sr_Clients (mapClients f r) <-> exists c', c = f c' /\ Some c' ∈ sr_Clients r.
Proof.
  unfold mapClients. simpl. rewrite list_elem_of_fmap. split.
  - intros ([c'|]&[= ->]&Hin). by exists c'.
  - intros (c'&->&Hin). by exists (Some c').
Qed.

Lemma Seal_elem sha set r c :
  Some c ∈ sr_Clients (Seal sha (Some set) r) ->
  (set = ∅ /\ Some c ∈ sr_Clients r) \/ exists c', c = sealClient sha set c' /\ Some c' ∈ sr_Clients r.
Proof.
  unfold Seal. destruct (Nat.eqb_spec (size set) 0) as [E|E].
  - apply map_size_empty_inv in E. auto.
  - rewrite mapClients_elem. auto.
Qed.

(** A seal is made for a client that was only named, with what is installed. *)
Lemma sealClient_seal sha set c s :
  sc_seal (sealClient sha set c) = Some s ->
  exists d bytes, set !! cp_Name (sc_client c) = Some d /\ onlyNamed (sc_client c)
    /\ sc_client (sealClient sha set c) = installDeclared d (sc_client c)
    /\ encodeConfig (installDeclared d (sc_client c)) (tc_Provider d) = inl bytes
    /\ s = mkSeal (tc_Fingerprint d) (hexEncode (sha bytes)).
Proof.
  unfold sealClient, ClearTrustedConfigSeal. simpl.
  destruct (set !! cp_Name (sc_client c)) as [d|] eqn:Ed; [|done].
  destruct (IsProviderPresent (sc_client c) || negb (size (optionsOf (sc_client c)) =? 0)%nat
            || bool_decide (is_Some (cp_RetryPolicy (sc_client c)))) eqn:Eg; [done|].
  unfold TrustedConfigDigest. destruct (encodeConfig _ _) as [bytes|] eqn:Ee; [|done].
  unfold SealTrustedConfig. simpl. destruct ((tc_Fingerprint d =s "") || _); simpl; [done|].
  intros [= <-]. exists d, bytes. split_and!; try done.
  apply orb_false_iff in Eg as [[Hp Hs]%orb_false_iff Hr]. unfold IsProviderPresent in Hp.
  apply orb_false_iff in Hp as [Hp Hps].
  apply negb_false_iff in Hs. apply Nat.eqb_eq in Hs. apply map_size_empty_inv in Hs. reflect_eqb.
  apply bool_decide_eq_false in Hr. unfold onlyNamed. split_and!; try done.
  by destruct (cp_RetryPolicy (sc_client c)); [destruct Hr; eexists|].
Qed.

(** A client that was not merely named is left alone. *)
Lemma sealClient_other sha set c :
  sc_seal c = None -> ~ onlyNamed (sc_client c) -> sealClient sha set c = c.
Proof.
  destruct c as [cp s]. simpl. intros -> Hn. unfold sealClient, ClearTrustedConfigSeal. simpl.
  destruct (set !! cp_Name cp); [|done]. unfold IsProviderPresent.
  destruct (String.eqb_spec (cp_Provider cp) ""); [|done]. destruct (cp_ProviderSet cp) eqn:Es; [done|].
  destruct (Nat.eqb_spec (size (optionsOf cp)) 0) as [Ho%map_size_empty_inv|]; [|done].
  destruct (cp_RetryPolicy cp) eqn:Er; [done|]. by destruct Hn.
Qed.

Lemma Seal_other sha set r :
  (forall c, Some c ∈ sr_Clients r -> sc_seal c = None /\ ~ onlyNamed (sc_client c)) ->
  Seal sha (Some set) r = r.
Proof.
  unfold Seal, mapClients. destruct (_ =? _)%nat; [done|]. destruct r as [p l]. simpl. intros H. f_equal.
  induction l as [|[c|] l IH]; simpl; [done| |].
  - destruct (H c) as [Hs Hn]; [by left|]. rewrite sealClient_other by done. f_equal. apply IH.
    intros x Hx. apply H. by right.
  - f_equal. apply IH. intros x Hx. apply H. by right.
Qed.

Lemma selectOneClient_in r c : selectOneClient (Some r) = inl c -> Some c ∈ sr_Clients r.
Proof.
  unfold selectOneClient. destruct (bool_decide _); [done|].
  assert (forall c, c ∈ omap id (sr_Clients r) -> Some c ∈ sr_Clients r) as Hin.
  { intros x (y&Hy&Hx)%list_elem_of_omap. by destruct y; simplify_eq/=. }
  destruct (omap id (sr_Clients r)) as [|c0 rest] eqn:E; [done|].
  intros H. apply Hin. destruct (sr_Primary r) as [p|].
  - destruct (p <>s "").
    + destruct (List.find _ _) eqn:Ef; [|done]. injection H as ->. apply List.find_some in Ef as [Ef _].
      by apply list_elem_of_In.
    + destruct rest; [|done]. injection H as ->. by left.
  - destruct rest; [|done]. injection H as ->. by left.
Qed.

(** What a resolved identity rests on. *)
Lemma resolve_facts sha sel r id :
  sel_Registry sel = Some r -> resolve sha sel = inl id ->
  sel_SingleLeaf sel = true /\ sel_HasFallbackChain sel = false /\ sel_HasRoundRobin sel = false
  /\ sel_HasRequestRetryOverride sel = false /\ sel_HasBAMLPlanOracle sel = true
  /\ exists c s bytes, selectOneClient (Some r) = inl c /\ cp_Name (sc_client c) = sel_SelectedLeaf sel
     /\ sc_seal c = Some s /\ id = mkIdentity (seal_fingerprint s) (normalizeNanollmProvider (sel_ResolvedProvider sel))
     /\ encodeConfig (sc_client c) (sel_ResolvedProvider sel) = inl bytes
     /\ hexEncode (sha bytes) = seal_digest s.
Proof.
  intros Hr. unfold resolve. rewrite Hr.
  destruct (sel_SingleLeaf sel); [|done]. cbn [negb].
  destruct (sel_HasFallbackChain sel), (sel_HasRoundRobin sel); try done. cbn [orb].
  destruct (sel_HasRequestRetryOverride sel); [done|].
  destruct (sel_HasBAMLPlanOracle sel); [|done]. cbn [negb].
  destruct (selectOneClient (Some r)) as [c|]; [|done].
  destruct ((sel_SelectedLeaf sel =s "") || (sel_SelectedLeaf sel <>s cp_Name (sc_client c))) eqn:El; [done|].
  destruct (bool_decide _); [done|]. destruct (sc_seal c) as [s|] eqn:Es; [|done].
  destruct (sel_ResolvedProvider sel =s ""); [done|].
  destruct ((cp_Provider (sc_client c) =s "") || (normalizeNanollmProvider (cp_Provider (sc_client c)) <>s
    normalizeNanollmProvider (sel_ResolvedProvider sel))); [done|].
  destruct (providerValid _); cbn [negb]; [|done]. unfold TrustedConfigDigest.
  destruct (encodeConfig _ _) as [bytes|] eqn:Ee; [|done].
  destruct (hexEncode (sha bytes) =s seal_digest s) eqn:Ed; cbn [negb]; [|done].
  destruct (parseConfigFingerprint (seal_fingerprint s)) as [fp|] eqn:Ep; [|done].
  intros [= <-]. reflect_eqb. split_and!; try done. exists c, s, bytes. split_and!; try done.
  f_equal. unfold parseConfigFingerprint in Ep. by repeat (case_hyp Ep; simplify_eq).
Qed.

Definition sizedDeclared (d : Client) : Prop :=
  sized (tc_Name d) /\ sized (tc_Provider d) /\ map_Forall (fun k v => sized k /\ sized v) (tc_Options d).

Lemma installDeclared_sized d c :
  sizedDeclared d -> cp_Name c = tc_Name d -> sizedClient (installDeclared d c).
Proof.
  intros (Hn&Hp&Ho) He. unfold sizedClient, installDeclared, optionsOf. simpl. rewrite He. split_and!; [done..|].
  intros k v Hk. apply lookup_fmap_Some in Hk as (s&<-&Hk). exact (Ho k s Hk).
Qed.

Section Provenance.
Variable sha256 : string -> string.
Variable decode : string -> decodeResult.
Variable rangeOptions : gmap string string -> list (string * string).
Variable rewrite : option (string -> string).

(** A seal of a prepared registry names a declared class and a client of the request
    that was only named. *)
Lemma prepared_seal raw set defaults r c s :
  Parse decode rangeOptions raw = inl set ->
  Some c ∈ sr_Clients (prepareRegistry sha256 rewrite defaults (Some set) (decodedRegistry r)) ->
  sc_seal c = Some s ->
  exists d c0 bytes, set !! tc_Name d = Some d /\ validateClient rangeOptions d = None
    /\ Some c0 ∈ reg_Clients r /\ cp_Name c0 = tc_Name d /\ onlyNamed c0
    /\ encodeConfig (installDeclared d c0) (tc_Provider d) = inl bytes
    /\ s = mkSeal (tc_Fingerprint d) (hexEncode (sha256 bytes))
    /\ foldl applyEntry c0 defaults = c0.
Proof.
  intros Hp Hin Hs. unfold prepareRegistry in Hin.
  set (r1 := match rewrite with Some f => _ | None => _ end) in Hin.
  assert (forall c, Some c ∈ sr_Clients r1 -> exists c0, Some c0 ∈ reg_Clients r /\ sc_seal c = None
    /\ (onlyNamed (sc_client c) -> sc_client c = c0)) as Hr1.
  { intros x Hx. subst r1. destruct rewrite as [f|].
    - apply mapClients_elem in Hx as (y&->&Hy). apply list_elem_of_fmap in Hy as ([c0|]&[= ->]&Hy).
      exists c0. split_and!; [done..|]. simpl. by intros [_ ?]%rewriteBaseURL_named.
    - apply list_elem_of_fmap in Hx as ([c0|]&[= ->]&Hy). by exists c0. }
  apply Seal_elem in Hin as [[_ Hin]|(c1&->&Hin)]; apply mapClients_elem in Hin as (c2&->&(c0&Hc0&Hns&Hc2)%Hr1).
  { simpl in Hs. congruence. }
  apply sealClient_seal in Hs as (d&bytes&Hd&Hnamed&_&He&->). simpl in *.
  destruct (applyDefaults_named _ _ Hnamed) as [Hn2 Hf]. rewrite Hf in *.
  specialize (Hc2 Hn2). rewrite Hc2 in *.
  assert (tc_Name d = cp_Name c0 /\ validateClient rangeOptions d = None) as [Hnm Hv].
  { unfold Parse in Hp. destruct (_ =s _); [by injection Hp as <-|].
    destruct (decode _) as [|l eof]; [done|]. destruct (negb eof); [done|]. destruct (_ <? _)%nat; [done|].
    by destruct (declareLoop_sound _ _ _ _ _ _ Hp _ _ Hd) as [?|(_&?&?)]. }
  exists d, c0, bytes. rewrite Hnm. by split_and!.
Qed.

(** C10. A native claim is for a configuration the deployment owns.  Take any request
    registry, rewrite rules and defaults, the worker's preparation with a parsed
    declaration, any later passes that make no seal, and any environment.  If the
    production gate admits the identity resolved for the request, then the surface is
    the dynamic unary call with a single leaf, no strategy, no retry override and a
    plan oracle; the request only named a client (no provider, option or retry
    policy), that name is declared with the enrolled fingerprint, and the client that
    will be used is the selected leaf with the declared provider, which is openai, and
    the declared options up to the value of the api_key, unless two different texts
    with one hash exist. *)
Theorem native_claim_provenance defaults env raw set r after sel surface :
  Parse decode rangeOptions raw = inl set ->
  makesNoSeal (prepareRegistry sha256 rewrite defaults (Some set) (decodedRegistry r)) after ->
  sel_Registry sel = Some after ->
  map_Forall (fun _ d => sizedDeclared d) set -> sized (sel_ResolvedProvider sel) ->
  Forall (fun c => match c with Some c => sizedClient (sc_client c) | None => True end) (sr_Clients after) ->
  (admitCohort (ProductionCohortGate env) surface (serveCohortInput sha256 sel)).2 = None ->
  surface = SurfaceDynamicCall /\ sel_SingleLeaf sel = true /\ sel_HasFallbackChain sel = false
  /\ sel_HasRoundRobin sel = false /\ sel_HasRequestRetryOverride sel = false
  /\ sel_HasBAMLPlanOracle sel = true
  /\ exists d c0 c,
       set !! tc_Name d = Some d /\ validateClient rangeOptions d = None
       /\ tc_Fingerprint d = FeV1ConfigFingerprint
       /\ Some c0 ∈ reg_Clients r /\ cp_Name c0 = tc_Name d /\ onlyNamed c0
       /\ selectOneClient (Some after) = inl c /\ cp_Name (sc_client c) = sel_SelectedLeaf sel
       /\ (collision sha256
           \/ sameConfig (sc_client c) (sel_ResolvedProvider sel) (installDeclared d c0) (tc_Provider d)
              /\ tc_Provider d = "openai").
Proof.
  intros Hp Hno Hr Hsd Hsp Hsc Hadm.
  destruct (production_enrolled env surface (serveCohortInput sha256 sel)) as [[He _] _].
  unfold admitCohort in Hadm. destruct (Enrolled _ _ _); [|done].
  destruct (He eq_refl) as (_&Hsurf&Hid). unfold serveCohortInput, ResolveConfigIdentity in Hid.
  destruct (resolve sha256 sel) as [id|] eqn:Er; [|done]. injection Hid as Hfp Hpr.
  destruct (resolve_facts _ _ _ _ Hr Er) as (H1&H2&H3&H4&H5&c&s&bytes&Hc&Hl&Hs&->&Henc&Hdig).
  assert (Some c ∈ sr_Clients after) as Hin by by apply selectOneClient_in.
  destruct (Hno _ _ Hin Hs) as (c'&Hin'&Hs').
  destruct (prepared_seal _ _ _ _ _ _ Hp Hin' Hs') as (d&c0&bytes'&Hd&Hv&Hc0&Hn&Honly&Henc'&->&_).
  split_and!; [done..|]. exists d, c0, c. split_and!; try done.
  simpl in *. apply hexEncode_inj in Hdig.
  destruct (decide (bytes = bytes')) as [->|Hne]; [right|by left; exists bytes, bytes'].
  rewrite Forall_forall in Hsc. specialize (Hsc _ Hin). simpl in Hsc.
  assert (sameConfig (sc_client c) (sel_ResolvedProvider sel) (installDeclared d c0) (tc_Provider d)) as Hsame.
  { eapply encodeConfig_inj; try eassumption; [by apply installDeclared_sized; [apply (Hsd _ _ Hd)|]|].
    apply (Hsd _ _ Hd). }
  split; [done|]. destruct Hsame as [<- _]. unfold normalizeNanollmProvider in Hpr. by destruct (_ =s _).
Qed.

(** A client that received the default does not look merely named. *)
Lemma default_not_named c v : ~ onlyNamed (applyEntry c (allowedRoleMetadataHandler, v)).
Proof.
  unfold applyEntry, option_key. simpl. intros (_&_&Ho&_). unfold optionsOf in Ho.
  destruct (cp_Options c) as [m|] eqn:Eo; [destruct (m !! "allowed_role_metadata") eqn:Em|]; simpl in Ho.
  - rewrite Eo in Ho. simpl in Ho. by subst.
  - by apply insert_non_empty in Ho.
  - by apply insert_non_empty in Ho.
Qed.

Lemma rewritten_unsealed r c :
  Some c ∈ sr_Clients (match rewrite with
                       | Some f => mapClients (onClient (rewriteBaseURL f)) (decodedRegistry r)
                       | None => decodedRegistry r
                       end) -> sc_seal c = None.
Proof.
  destruct rewrite as [f|]; [intros (y&->&H)%mapClients_elem; simpl|intros H];
    apply list_elem_of_fmap in H as ([c0|]&[= ->]&_); done.
Qed.

(** C12. A deployment that configures any client default never gives a request an
    identity, whatever it declares: the defaults are merged into every client before
    the sealing pass, so no client that a request merely names still looks merely
    named.  The prepared registry is the one of a deployment that declares nothing (no
    seal, and no declared provider or option installed), and every request resolves to
    the zero identity. *)
Theorem defaults_block_identity options defaults set r sel :
  parseDefaults (Some options) = inl defaults -> defaults <> [] ->
  let prepared := prepareRegistry sha256 rewrite defaults (Some set) (decodedRegistry r) in
  prepared = prepareRegistry sha256 rewrite defaults None (decodedRegistry r)
  /\ (sel_Registry sel = Some prepared -> ResolveConfigIdentity sha256 sel = mkIdentity "" "").
Proof.
  intros Hdf Hne prepared.
  assert (exists v, defaults = [(allowedRoleMetadataHandler, v)]) as [v ->].
  { unfold parseDefaults in Hdf. destruct (List.filter _ _); [|done]. simpl in Hdf.
    destruct (options !! _); [|by simplify_eq]. destruct (match g with GString _ => _ | _ => _ end); [|done].
    simplify_eq. by eexists. }
  assert (forall c, Some c ∈ sr_Clients (prepareRegistry sha256 rewrite [(allowedRoleMetadataHandler, v)] None
    (decodedRegistry r)) -> sc_seal c = None /\ ~ onlyNamed (sc_client c)) as Hns.
  { intros c (c1&->&Hc%rewritten_unsealed)%mapClients_elem. split; [done|]. apply default_not_named. }
  assert (prepared = prepareRegistry sha256 rewrite [(allowedRoleMetadataHandler, v)] None (decodedRegistry r)) as Hp.
  { by apply Seal_other. }
  split; [done|]. rewrite Hp. intros Hr. unfold ResolveConfigIdentity.
  destruct (resolve sha256 sel) as [id|] eqn:Er; [exfalso|done].
  destruct (resolve_facts _ _ _ _ Hr Er) as (_&_&_&_&_&c&s&_&Hc&_&Hs&_).
  apply selectOneClient_in, Hns in Hc as [Hc _]. congruence.
Qed.

End Provenance.

(** ** A concrete request *)

Module Witness.

Definition approved : Client :=
  mkDeclared "Approved" "cfg100" "openai"
    (<["model" := "gpt-4o-mini"]> (<["base_url" := "https://api.example/v1"]> {["api_key" := "key"]})).
Definition declaration : TrustedSet := {["Approved" := approved]}.
Definition request : ClientRegistry :=
  mkRegistry (Some "Approved") [Some (mkClient "Approved" "" None None false)].
Definition decodeFixed (_ : string) : decodeResult := DecodeDone [approved] true.
Definition prepared : SealedRegistry :=
  prepareRegistry (fun x => x) None [] (Some declaration) (decodedRegistry request).
Definition selection (reg : SealedRegistry) : ConfigSelection :=
  mkSelection (Some reg) "openai" "Approved" true false false false true.
(** A deployment that sets the default of [allowed_role_metadata]. *)
Definition defaultOptions : gmap string goval := {["allowed_role_metadata" := GString "all"]}.
Definition defaults : defaultsConfig := [(allowedRoleMetadataHandler, GString "all")].

Lemma approved_sized : sizedDeclared approved.
Proof.
  split; [reflexivity|]. split; [reflexivity|]. unfold approved. cbn [tc_Options].
  apply map_Forall_insert_2; [split; reflexivity|]. apply map_Forall_insert_2; [split; reflexivity|].
  apply map_Forall_singleton. split; reflexivity.
Qed.

Lemma native_claim_provenance_witness :
  (admitCohort (ProductionCohortGate "") SurfaceDynamicCall
     (serveCohortInput (fun x => x) (selection prepared))).2 = None
  /\ exists d c0, declaration !! tc_Name d = Some d /\ tc_Fingerprint d = FeV1ConfigFingerprint
       /\ Some c0 ∈ reg_Clients request /\ cp_Name c0 = tc_Name d /\ onlyNamed c0.
Proof.
  split; [vm_compute; reflexivity|].
  destruct (native_claim_provenance (fun x => x) decodeFixed map_to_list None [] "" "{}" declaration request prepared
    (selection prepared) SurfaceDynamicCall) as (_&_&_&_&_&_&d&c0&c&Hd&_&Hf&Hc&Hn&Ho&_).
  - vm_compute. reflexivity.
  - intros c s Hc Hs. exists c. split; assumption.
  - reflexivity.
  - apply map_Forall_singleton. exact approved_sized.
  - vm_compute. reflexivity.
  - constructor; [|constructor].
    exact (installDeclared_sized approved (mkClient "Approved" "" None None false) approved_sized eq_refl).
  - vm_compute. reflexivity.
  - exists d, c0. split; [exact Hd|]. split; [exact Hf|]. split; [exact Hc|]. split; [exact Hn|exact Ho].
Defined.

Lemma defaults_block_identity_witness :
  parseDefaults (Some defaultOptions) = inl defaults /\ defaults <> []
  /\ ResolveConfigIdentity (fun x => x) (selection prepared) = mkIdentity "cfg100" "openai"
  /\ ResolveConfigIdentity (fun x => x)
       (selection (prepareRegistry (fun x => x) None defaults (Some declaration) (decodedRegistry request)))
     = mkIdentity "" "".
Proof.
  split; [vm_compute; reflexivity|]. split; [discriminate|]. split; [vm_compute; reflexivity|].
  apply (defaults_block_identity (fun x => x) None defaultOptions defaults declaration request);
    [vm_compute; reflexivity|discriminate|reflexivity].
Defined.

End Witness.
