(* ===== verification/CheckedStatic.v ===== *)
(** * CheckedStatic: the one served family with constraints
    ([internal/debaml/checked_static.go], [bamlutils/checked.go])

    A class of a string and a constrained integer.  Here: the fingerprint of the
    family, the mapper that coerces, evaluates the constraint and splices the
    [Checked] carrier into the output, and the rendering of a failed assertion.  The
    [Dynamic] flag of a type node, the expression engine and the encoder of
    [github.com/bytedance/sonic] are variables; [encoding/json]'s token decoder is the
    strict decoder of [Jsonish].  A nil and an empty list are the same list. *)

From Stdlib Require Import Ascii String.
From stdpp Require Import sorting pretty.
From S2P Require Import Prelude GoStrings GoValue Jsonish FixParse Extract GoFloat NumberText NumberValid Unicode MatchString Schema PairGuard Candidate OutputText Gate LeafCoerce TryCast Coerce CoerceTyping CoerceSound AliasCoerce CoerceStream ParseNumbers ParseDynamic ConstraintNumeric ConstraintGate ConstraintEval.
Open Scope stdpp_scope.

(** ** The manifest of operators *)

(** [directCompareManifest]: the operators of the tokens, each token once and known. *)
Definition directCompareManifest (tokens : list string) : option (list directCompareOp) :=
  if bool_decide (NoDup tokens) && forallb (fun t => existsb (fun op => opToken op =s t) directCompareOperators) tokens
  then Some (List.filter (fun op => existsb (fun t => opToken op =s t) tokens) directCompareOperators)
  else None.

Definition staticCheckedManifestTokens : list string := [">"; ">="; "<"; "<="; "=="; "!="].
Definition staticCheckedManifest : list directCompareOp :=
  default [] (directCompareManifest staticCheckedManifestTokens).

(** [directI64LongestExpression]. *)
Definition directI64LongestExpression (manifest : list directCompareOp) : string :=
  let manifest := match manifest with [] => directCompareOperators | _ => manifest end in
  foldl (fun longest e => if (String.length longest <? String.length e)%nat then e else longest) ""
    (manifest ≫= fun op => [directI64Expression op MinInt64; directI64Expression op MaxInt64]).

(** ** The fingerprint *)

Definition staticCheckedAnswerField : string := "answer".
Definition staticCheckedConfidenceField : string := "confidence".
Definition staticCheckedCheckClass : string := "StaticCheckedAnswer".
Definition staticCheckedAssertClass : string := "StaticAssertAnswer".
Definition ConstraintCheck : ConstraintLevel := "check".
Definition ConstraintAssert : ConstraintLevel := "assert".

Definition staticCheckedMaxCauseLen : nat := 100.
Definition staticCheckedCausePrefix : string := "Failed: ".
Definition staticCheckedMaxLabelLen : nat :=
  staticCheckedMaxCauseLen - String.length staticCheckedCausePrefix - 1
  - String.length (directI64LongestExpression staticCheckedManifest).
Definition staticCheckedExprMaxPad : nat := 1.

Definition inRange (a b c : ascii) : bool := (code a <=? code c)%Z && (code c <=? code b)%Z.

(** A byte of a label, and a byte that may start one. *)
Definition labelStart (c : ascii) : bool := inRange "a" "z" c || inRange "A" "Z" c || (c =c "_").
Definition labelByte (c : ascii) : bool := labelStart c || inRange "0" "9" c.

Definition staticCheckedASCIILabel (s : string) : bool :=
  if (s =s "") || (staticCheckedMaxLabelLen <? String.length s)%nat then false
  else match s with EmptyString => false | String c r => labelStart c && sall labelByte r end.

(** The leading spaces of a text and the rest. *)
Fixpoint leadSpaces (s : string) : nat * string :=
  match s with
  | String c r => if c =c " " then let '(n, r) := leadSpaces r in (S n, r) else (0, s)
  | EmptyString => (0, EmptyString)
  end.

Definition staticCheckedStripExprPadding (src : string) : option string :=
  let '(lead, r) := leadSpaces src in
  if r =s "" then None
  else
    let '(trail, q) := leadSpaces (srev r) in
    if (staticCheckedExprMaxPad <? lead)%nat || (staticCheckedExprMaxPad <? trail)%nat then None
    else Some (srev q).

Definition staticCheckedThreshold (expr : string) : option Z :=
  snd <$> parseDirectI64Comparison expr staticCheckedManifest.

Definition staticCheckedCanonicalExpression (src : string) : option string :=
  match staticCheckedStripExprPadding src with
  | None => None
  | Some canonical => match staticCheckedThreshold canonical with Some _ => Some canonical | None => None end
  end.

Record staticCheckedProfile := mkProfile {
  cp_className : string; cp_level : ConstraintLevel; cp_label : string; cp_expression : string
}.

Section Fingerprint.
Variable Dynamic : type -> bool.

(** [staticCheckedPlainField]: the metadata of the field's type, when it is plain. *)
Definition staticCheckedPlainField (f : ClassField) (name : string) (p : PrimitiveKind) : option TypeMeta :=
  match cf_Type f with
  | TypePrimitive m q =>
      if (nm_Name (cf_Name f) =s name) && bool_decide (nm_Alias (cf_Name f) = None)
         && bool_decide (cf_Description f = None) && negb (cf_StreamingNeeded f)
         && negb (Dynamic (cf_Type f))
         && (match p, q with PrimitiveString, PrimitiveString | PrimitiveInt, PrimitiveInt => true | _, _ => false end)
         && StreamIsZero (tm_Stream m)
      then Some m else None
  | _ => None
  end.

(** The level, its class name and its label rule. *)
Definition levelAdmits (c : Constraint) (className : string) : bool :=
  if ct_Level c =s ConstraintCheck
  then (className =s staticCheckedCheckClass) && staticCheckedASCIILabel (default "" (ct_Label c))
  else if ct_Level c =s ConstraintAssert
  then (className =s staticCheckedAssertClass)
       && match ct_Label c with None => true | Some l => staticCheckedASCIILabel l end
  else false.

Definition staticCheckedProfileOf (b : Bundle) : option staticCheckedProfile :=
  match RecursiveClasses b, StructuralRecursiveAliases b, Classes b, Enums b, Target b with
  | [], [], [cls], [], TypeClass m name mode =>
      if negb (Dynamic (Target b)) && (name =s nm_Name (cd_Name cls)) && (mode =s NonStreaming)
         && bool_decide (tm_Constraints m = []) && StreamIsZero (tm_Stream m)
         && (cd_Mode cls =s NonStreaming) && bool_decide (nm_Alias (cd_Name cls) = None)
         && bool_decide (cd_Description cls = None) && bool_decide (cd_Constraints cls = [])
         && StreamIsZero (cd_Stream cls)
      then
        match cd_Fields cls with
        | [answer; confidence] =>
            match staticCheckedPlainField answer staticCheckedAnswerField PrimitiveString,
                  staticCheckedPlainField confidence staticCheckedConfidenceField PrimitiveInt with
            | Some ma, Some mc =>
                match tm_Constraints ma, tm_Constraints mc with
                | [], [c] =>
                    if levelAdmits c name then
                      match staticCheckedCanonicalExpression (ct_Expression c) with
                      | Some e => Some (mkProfile name (ct_Level c) (default "" (ct_Label c)) e)
                      | None => None
                      end
                    else None
                | _, _ => None
                end
            | _, _ => None
            end
        | _ => None
        end
      else None
  | _, _, _, _, _ => None
  end.

Definition staticCheckedAdmittedFamily (b : Bundle) : bool := bool_decide (is_Some (staticCheckedProfileOf b)).

(** The type of the second field of the first class. *)
Definition confidenceType (b : Bundle) : option type :=
  cls ← Classes b !! 0%nat; f ← cd_Fields cls !! 1%nat; Some (cf_Type f).

Definition staticCheckedAdmittedConstraintNode (b : Bundle) (t : type) : bool :=
  if negb (staticCheckedAdmittedFamily b) then false
  else match tm_Constraints (Meta t), tm_Constraints ∘ Meta <$> confidenceType b with
       | [got], Some (want :: _) =>
           (ct_Level got =s ct_Level want) && (ct_Expression got =s ct_Expression want)
           && bool_decide (ct_Label got = ct_Label want)
           && match t with TypePrimitive _ PrimitiveInt => true | _ => false end
           && negb (Dynamic t) && StreamIsZero (tm_Stream (Meta t))
       | _, _ => false
       end.
End Fingerprint.

(** ** The carrier ([bamlutils/checked.go]) *)

Record Check := mkCheck { ck_Name : string; ck_Expression : string; ck_Status : string }.
Definition CheckSucceeded : string := "succeeded".
Definition CheckFailed : string := "failed".

Record Checked (A : Type) := mkChecked {
  cd_Value : A;
  cd_Checks : option (gmap string Check);
  declaredCheckOrder : option (list string)
}.
Arguments mkChecked {A}.
Arguments cd_Value {A}.
Arguments cd_Checks {A}.
Arguments declaredCheckOrder {A}.

Inductive checkedErr :=
  | CheckEmptyLabel (i : nat) | CheckDuplicateLabel (name : string) (i : nat)
  | CheckOrderLength | CheckOrderRepeats (name : string) | CheckOrderUnknown (name : string)
  | CheckNameDisagrees (key name : string).

(** The loop of [NewChecked] from index [i]. *)
Fixpoint newCheckedLoop (i : nat) (checks : gmap string Check) (l : list Check)
    : gmap string Check + checkedErr :=
  match l with
  | [] => inl checks
  | c :: l' =>
      if ck_Name c =s "" then inr (CheckEmptyLabel i)
      else match checks !! ck_Name c with
           | Some _ => inr (CheckDuplicateLabel (ck_Name c) i)
           | None => newCheckedLoop (S i) (<[ck_Name c := c]> checks) l'
           end
  end.
Definition NewChecked {A} (v : A) (l : list Check) : Checked A + checkedErr :=
  match newCheckedLoop 0 ∅ l with
  | inl checks => inl (mkChecked v (Some checks) (Some (ck_Name <$> l)))
  | inr e => inr e
  end.

Definition byLabel (a b : string) : Prop := String.leb a b = true.
#[export] Instance byLabel_dec : RelDecision byLabel.
Proof. intros a b. unfold byLabel. apply _. Defined.

(** The validation loop of [marshalOrder]. *)
Fixpoint checkOrder (checks : gmap string Check) (seen : gset string) (order : list string) : option checkedErr :=
  match order with
  | [] => None
  | name :: order' =>
      if decide (name ∈ seen) then Some (CheckOrderRepeats name)
      else match checks !! name with
           | None => Some (CheckOrderUnknown name)
           | Some c =>
               if ck_Name c <>s name then Some (CheckNameDisagrees name (ck_Name c))
               else checkOrder checks ({[name]} ∪ seen) order'
           end
  end.
Definition marshalOrder {A} (c : Checked A) : list string + checkedErr :=
  let checks := default ∅ (cd_Checks c) in
  let finish order := match checkOrder checks ∅ order with None => inl order | Some e => inr e end in
  match declaredCheckOrder c with
  | None => finish (merge_sort byLabel (elements (dom checks)))
  | Some order => if negb (length order =? base.size checks)%nat then inr CheckOrderLength else finish order
  end.

Definition dqs : string := str1 dq.
(** A key of a Go struct as JSON writes it, with its colon. *)
Definition jsonKey (k : string) : string := dqs +:+ k +:+ dqs +:+ ":".

Section Marshal.
Variable sonicString : string -> string.
Context {A : Type}.
Variable sonicValue : A -> string.

Definition marshalCheck (checks : gmap string Check) (name : string) : string :=
  let c := default (mkCheck "" "" "") (checks !! name) in
  sonicString name +:+ ":{" +:+ jsonKey "name" +:+ sonicString (ck_Name c) +:+ ","
    +:+ jsonKey "expression" +:+ sonicString (ck_Expression c) +:+ ","
    +:+ jsonKey "status" +:+ sonicString (ck_Status c) +:+ "}".

(** [Checked.MarshalJSON]. *)
Definition MarshalJSON (c : Checked A) : string + checkedErr :=
  match marshalOrder c with
  | inr e => inr e
  | inl order =>
      inl ("{" +:+ jsonKey "value" +:+ sonicValue (cd_Value c) +:+ "," +:+ jsonKey "checks"
           +:+ match cd_Checks c with
               | None => "null}"
               | Some checks => "{" +:+ joinComma (marshalCheck checks <$> order) +:+ "}}"
               end)
  end.
End Marshal.

(** ** Members of the canonical output *)

(** The text that a parser consumed of [s] before [rest]. *)
Definition consumed (s rest : string) : string := stake (String.length s - String.length rest) s.

(** The members of an object from a key on, each with the text of its value. *)
Fixpoint splitMembers (fuel : nat) (s : string) : option (list (string * string) * string) :=
  match fuel with
  | O => None
  | S n =>
      match skipWS s with
      | String c r =>
          if c =c dq then
            match unquote 0 r with
            | Ok key r1 =>
                match skipWS r1 with
                | String k r2 =>
                    if k =c ":" then
                      let text := skipWS r2 in
                      match decodeToken numModeLegacy n text with
                      | Ok _ r3 =>
                          match skipWS r3 with
                          | String e r4 =>
                              if e =c "," then
                                match splitMembers n r4 with
                                | Some (ms, rest) => Some ((key, consumed text r3) :: ms, rest)
                                | None => None
                                end
                              else if e =c "}" then Some ([(key, consumed text r3)], r4)
                              else None
                          | EmptyString => None
                          end
                      | _ => None
                      end
                    else None
                | EmptyString => None
                end
            | _ => None
            end
          else None
      | EmptyString => None
      end
  end.

(** [staticCheckedSplit]. *)
Definition staticCheckedSplit (canonical : string) : option (list (string * string)) :=
  match skipWS canonical with
  | String c r =>
      if c =c "{" then
        match (match skipWS r with
               | String d r' => if d =c "}" then Some ([], r')
                                else splitMembers (2 * String.length canonical + 1) (String d r')
               | EmptyString => None
               end) with
        | Some (ms, rest) => if skipWS rest =s "" then Some ms else None
        | None => None
        end
      else None
  | EmptyString => None
  end.

(** [staticCheckedJoin]; the keys go through [json.Marshal]. *)
Definition staticCheckedJoin (ms : list (string * string)) : string :=
  "{" +:+ joinComma ((fun m => quoteJSON true m.1 +:+ String ":" m.2) <$> ms) +:+ "}".

(** [staticCheckedInt]. *)
Definition staticCheckedInt (raw : string) : option Z :=
  match strictDecode numModeLegacy raw with
  | Some (valNumber _ _ tok) => parseI64Rust tok
  | _ => None
  end.

(** ** The assertion error *)

#[warnings="-register-all"]
Inductive parsingError := PErr (reason : string) (causes : list parsingError).

Definition printable (c : ascii) : bool := (32 <=? code c)%Z && (code c <=? 126)%Z.
Definition staticCheckedPlain (s : string) : option string :=
  if sall (fun c => (c =c LF) || printable c) s then Some s else None.

(** [strings.ReplaceAll(s, "\n", "\n  ")]. *)
Fixpoint indent (s : string) : string :=
  match s with
  | EmptyString => EmptyString
  | String c r => if c =c LF then String LF ("  " +:+ indent r) else String c (indent r)
  end.

(** [display] and [debug] of a [staticCheckedParsingError]. *)
Fixpoint display (e : parsingError) : option string :=
  let '(PErr reason causes) := e in
  match staticCheckedPlain reason with
  | None => None
  | Some reason =>
      (fix go (out : string) (cs : list parsingError) : option string :=
         match cs with
         | [] => Some out
         | c :: cs => match display c with
                      | None => None
                      | Some sub => go (out +:+ String LF "  - " +:+ indent sub) cs
                      end
         end) ("<root>: " +:+ reason) causes
  end.

Definition debugByte (c : ascii) : option string :=
  if c =c dq then Some (String bs dqs)
  else if c =c bs then Some (String bs (str1 bs))
  else if c =c LF then Some (String bs "n")
  else if c =c "013" then Some (String bs "r")
  else if c =c "009" then Some (String bs "t")
  else if printable c then Some (str1 c) else None.
Fixpoint debugBytes (s : string) : option string :=
  match s with
  | EmptyString => Some EmptyString
  | String c r =>
      match debugByte c, debugBytes r with
      | Some t, Some u => Some (t +:+ u)
      | _, _ => None
      end
  end.
Definition staticCheckedDebugString (s : string) : option string :=
  match debugBytes s with Some t => Some (dqs +:+ t +:+ dqs) | None => None end.

Fixpoint debug (e : parsingError) : option string :=
  let '(PErr reason causes) := e in
  match staticCheckedDebugString reason with
  | None => None
  | Some reason =>
      match (fix go (cs : list parsingError) : option string :=
               match cs with
               | [] => Some EmptyString
               | c :: cs =>
                   match debug c, go cs with
                   | Some t, Some u => Some (t +:+ (match cs with [] => "" | _ => ", " end) +:+ u)
                   | _, _ => None
                   end
               end) causes with
      | None => None
      | Some cs => Some ("ParsingError { scope: [], reason: " +:+ reason +:+ ", causes: [" +:+ cs +:+ "] }")
      end
  end.

(** [staticCheckedAssertFailure]; [None] is a decline. *)
Definition assertCause (label expression : string) : string :=
  staticCheckedCausePrefix +:+ (if label =s "" then "" else label +:+ " ") +:+ expression.
Definition staticCheckedAssertFailure (field label expression : string) : option string :=
  let cause := assertCause label expression in
  if (staticCheckedMaxCauseLen <? String.length cause)%nat then None
  else
    let inner := PErr "Assertions failed." [PErr cause []] in
    match display inner with
    | None => None
    | Some innerDisplay =>
        let outer := PErr "Failed while parsing required fields: missing=0, unparsed=1"
          [PErr ("Failed to parse field " +:+ field +:+ ": " +:+ innerDisplay) [inner]] in
        match debug outer with
        | None => None
        | Some d => Some ("Failed to coerce value: " +:+ d)
        end
    end.

(** ** The mapper *)

(** A decline or coercion error, or the error text of a failed assertion. *)
Inductive staticErr := StaticErr (e : CoerceErr) | AssertFailure (message : string).

Section Map.
Variable Dynamic : type -> bool.
Variable T : tables.
Variable renderOnce : ConstraintValue -> string -> mappingMode -> option string.
Variables (sonicString : string -> string) (sonicInt : Z -> string).

(** The candidate of a text and its coercion, as both static routes compute them. *)
Definition coerceRaw (fuel : nat) (b : Bundle) (raw : string) : string + CoerceErr :=
  match extractCandidate (bundleNumMode b) (stripJSONComments raw) with
  | None => inr Unsupported
  | Some v =>
      snd (coerce fuel (engineOf T (staticCheckedAdmittedConstraintNode Dynamic) b) b (Target b) v emptyCtx (newFlags false))
  end.

(** The end of [staticCheckedMap], with the constraint evaluated. *)
Definition spliceChecked (prof : staticCheckedProfile) (out : string) (members : list (string * string))
    (confidence : Z) (held : bool) : string + staticErr :=
  if cp_level prof =s ConstraintAssert then
    if held then inl out
    else match staticCheckedAssertFailure staticCheckedConfidenceField (cp_label prof) (cp_expression prof) with
         | None => inr (StaticErr Unsupported)
         | Some message => inr (AssertFailure message)
         end
  else
    let status := if held then CheckSucceeded else CheckFailed in
    match NewChecked confidence [mkCheck (cp_label prof) (cp_expression prof) status] with
    | inr _ => inr (StaticErr Unsupported)
    | inl carrier =>
        match MarshalJSON sonicString sonicInt carrier, members with
        | inl wrapped, [answer; (key, _)] => inl (staticCheckedJoin [answer; (key, wrapped)])
        | _, _ => inr (StaticErr Unsupported)
        end
    end.

(** [staticCheckedMap]. *)
Definition staticCheckedMap (fuel : nat) (b : Bundle) (prof : staticCheckedProfile) (raw : string)
    : string + staticErr :=
  match coerceRaw fuel b raw with
  | inr e => inr (StaticErr e)
  | inl out =>
      match staticCheckedSplit out with
      | Some ([(k1, _); (k2, raw2)] as members) =>
          if (k1 <>s staticCheckedAnswerField) || (k2 <>s staticCheckedConfidenceField)
          then inr (StaticErr Unsupported)
          else if staticCheckedJoin members <>s out then inr (StaticErr Unsupported)
          else match staticCheckedInt raw2 with
               | None => inr (StaticErr Unsupported)
               | Some confidence =>
                   match EvaluateConstraint renderOnce (IntValue confidence) (cp_expression prof) with
                   | inr _ => inr (StaticErr Unsupported)
                   | inl held => spliceChecked prof out members confidence held
                   end
               end
      | _ => inr (StaticErr Unsupported)
      end
  end.

(** [staticCheckedParse], for a route that may or may not claim the family;
    [None] when the bundle is not of the family. *)
Definition staticCheckedParse (fuel : nat) (b : Bundle) (raw : string) (admits : bool) : option (string + staticErr) :=
  match staticCheckedProfileOf Dynamic b with
  | None => None
  | Some prof => Some (if admits then staticCheckedMap fuel b prof raw else inr (StaticErr Unsupported))
  end.
End Map.

(** ** The fingerprint, read *)

Lemma staticCheckedManifest_all : staticCheckedManifest = directCompareOperators.
Proof. reflexivity. Qed.

Lemma staticCheckedMaxLabelLen_63 : staticCheckedMaxLabelLen = 63%nat.
Proof. vm_compute. reflexivity. Qed.

(** What the fingerprint fixes. *)
Record family (b : Bundle) (prof : staticCheckedProfile) : Prop := mkFamily {
  fam_target : exists m, Target b = TypeClass m (cp_className prof) NonStreaming;
  fam_class : exists cls answer confidence ma mc,
    Classes b = [cls] /\ cd_Fields cls = [answer; confidence]
    /\ nm_Name (cf_Name answer) = "answer" /\ cf_Type answer = TypePrimitive ma PrimitiveString
    /\ nm_Name (cf_Name confidence) = "confidence" /\ cf_Type confidence = TypePrimitive mc PrimitiveInt;
  fam_aliases : StructuralRecursiveAliases b = [];
  fam_level : cp_level prof = ConstraintCheck \/ cp_level prof = ConstraintAssert;
  fam_label : staticCheckedASCIILabel (cp_label prof) = true
    \/ (cp_level prof = ConstraintAssert /\ cp_label prof = "");
  fam_expression : exists op n, op ∈ directCompareOperators /\ (MinInt64 <= n <= MaxInt64)%Z
    /\ cp_expression prof = directI64Expression op n
}.

Lemma plainField_facts Dyn f name p m :
  p = PrimitiveString \/ p = PrimitiveInt -> staticCheckedPlainField Dyn f name p = Some m ->
  nm_Name (cf_Name f) = name /\ cf_Type f = TypePrimitive m p.
Proof.
  unfold staticCheckedPlainField. intros Hp. destruct (cf_Type f) as [|m' q| | | | | | | | | |]; try done.
  destruct (nm_Name (cf_Name f) =s name) eqn:En; [|done]. apply String.eqb_eq in En.
  destruct (bool_decide (nm_Alias _ = None)), (bool_decide (cf_Description f = None)), (cf_StreamingNeeded f),
    (Dyn (TypePrimitive m' q)); try done.
  destruct Hp as [-> | ->], q; try done; cbn [andb negb]; destruct (StreamIsZero _); try done; by intros [= <-].
Qed.

Lemma levelAdmits_facts c name : levelAdmits c name = true ->
  (ct_Level c = ConstraintCheck \/ ct_Level c = ConstraintAssert)
  /\ (staticCheckedASCIILabel (default "" (ct_Label c)) = true
      \/ (ct_Level c = ConstraintAssert /\ default "" (ct_Label c) = "")).
Proof.
  unfold levelAdmits. destruct (String.eqb_spec (ct_Level c) ConstraintCheck) as [->|].
  - intros [_ H]%andb_true_iff. auto.
  - destruct (String.eqb_spec (ct_Level c) ConstraintAssert) as [->|]; [|done].
    intros [_ H]%andb_true_iff. destruct (ct_Label c); simpl; auto.
Qed.

Lemma canonicalExpression_facts src e : staticCheckedCanonicalExpression src = Some e ->
  exists op n, op ∈ directCompareOperators /\ (MinInt64 <= n <= MaxInt64)%Z /\ e = directI64Expression op n.
Proof.
  unfold staticCheckedCanonicalExpression, staticCheckedThreshold. rewrite staticCheckedManifest_all.
  destruct (staticCheckedStripExprPadding src) as [x|]; [|done].
  destruct (parseDirectI64Comparison x directCompareOperators) as [[op n]|] eqn:E; [|done].
  intros [= <-]. destruct (direct_sound _ _ _ E) as (?&?&?). by exists op, n.
Qed.

Lemma profileOf_family Dyn b prof : staticCheckedProfileOf Dyn b = Some prof -> family b prof.
Proof.
  unfold staticCheckedProfileOf.
  destruct (RecursiveClasses b); [|done]. destruct (StructuralRecursiveAliases b) eqn:Ea; [|done].
  destruct (Classes b) as [|cls [|]] eqn:Ec; try done. destruct (Enums b); [|done].
  destruct (Target b) as [| | | |m name mode| | | | | | |] eqn:Et; try done.
  match goal with |- (if ?x then _ else _) = _ -> _ => destruct x eqn:Eg; [|done] end.
  repeat (apply andb_true_iff in Eg as [Eg ?]). reflect_eqb. subst.
  destruct (cd_Fields cls) as [|answer [|confidence [|]]] eqn:Ef; try done.
  destruct (staticCheckedPlainField Dyn answer _ _) as [ma|] eqn:Ep; [|done].
  destruct (staticCheckedPlainField Dyn confidence _ _) as [mc|] eqn:Eq; [|done].
  destruct (tm_Constraints ma); [|done]. destruct (tm_Constraints mc) as [|c [|]]; try done.
  destruct (levelAdmits c _) eqn:El; [|done]. destruct (staticCheckedCanonicalExpression _) as [e|] eqn:Ee; [|done].
  intros [= <-]. apply plainField_facts in Ep as [Hn1 Ht1], Eq as [Hn2 Ht2]; [|by auto..].
  apply levelAdmits_facts in El as [Hl Hlab]. apply canonicalExpression_facts in Ee.
  constructor; try done.
  - by exists m.
  - exists cls, answer, confidence, ma, mc. done.
Qed.

(** ** The output of the coercer, taken apart and put together *)

Lemma found_class b prof name mode cls : family b prof -> FindClass b name mode = Some cls -> Classes b = [cls].
Proof.
  intros Hf H. destruct (fam_class _ _ Hf) as (c&?&?&?&?&Hc&_). rewrite Hc. unfold FindClass in H. rewrite Hc in H.
  destruct (classByKey b !! _) as [[|i]|]; simpl in H; [congruence| |done].
  by destruct i.
Qed.

Lemma family_collapsed b prof : family b prof -> collapsedBundle b /\ collapsed (Target b) = true.
Proof.
  intros Hf. split.
  - intros name mode cls f Hc Hin. apply (found_class _ _ _ _ _ Hf) in Hc.
    destruct (fam_class _ _ Hf) as (c&a&k&ma&mc&Hc'&Hfs&_&Ha&_&Hk). rewrite Hc in Hc'. simplify_eq.
    rewrite Hfs in Hin. rewrite !elem_of_cons in Hin. destruct Hin as [->|[->|Hin]]; [by rewrite Ha|by rewrite Hk|by inversion Hin].
  - by destruct (fam_target _ _ Hf) as [m ->].
Qed.

(** The coerced value: the answer and the confidence. *)
Definition answerValue (i : bool) (ia : bool) (s : string) (ik f : bool) (n : Z) : value :=
  valObject i [("answer", valString ia s); ("confidence", valNumber ik f (pretty n))].

Lemma family_value b prof v : family b prof -> hasType b (Target b) v ->
  exists i ia s ik f n, v = answerValue i ia s ik f n /\ (MinInt64 <= n <= MaxInt64)%Z.
Proof.
  intros Hf Hv. destruct (fam_target _ _ Hf) as [m Ht]. rewrite Ht in Hv.
  inversion Hv as [| | | | | | | | |? i ? ? cls kvs Hc Hall| | | | | | | |]; subst.
  apply (found_class _ _ _ _ _ Hf) in Hc.
  destruct (fam_class _ _ Hf) as (c&a&k&ma&mc&Hc'&Hfs&Hna&Hta&Hnk&Htk). rewrite Hc in Hc'. simplify_eq.
  rewrite Hfs in Hall. inversion Hall as [|? [k1 v1] ? l [H1 H2] Hall']; subst. inversion Hall' as [|? [k2 v2] ? l' [H3 H4] Hnil]; subst.
  inversion Hnil; subst. simpl in *. subst. rewrite Hna, Hnk. rewrite Hta in H2. rewrite Htk in H4.
  inversion H2; subst. inversion H4; subst. repeat eexists; lia.
Qed.

Lemma stake_prefix s t : stake (String.length s) (s +:+ t) = s.
Proof. induction s as [|c s IH]; simpl; [by destruct t|by rewrite IH]. Qed.
Lemma consumed_app s rest : consumed (s +:+ rest) rest = s.
Proof.
  unfold consumed. rewrite slength_app. replace (_ + _ - _)%nat with (String.length s) by lia. apply stake_prefix.
Qed.

Lemma compact_skipWS v rest : jsonNumbers v -> skipWS (compact false v +:+ rest) = compact false v +:+ rest.
Proof. intros Hv. destruct (compact_head false v Hv) as (c&t&->&Hc&_). cbn [append]. by apply skipWS_id. Qed.

Lemma splitMembers_one fuel k v rest :
  jsonNumbers v -> (2 * vsize v < fuel)%nat ->
  splitMembers fuel ((quoteJSON false k +:+ String ":" (compact false v)) +:+ String "}" rest)
  = Some ([(toValidUTF8 k, compact false v)], rest).
Proof.
  intros Hv Hf. destruct fuel as [|n]; [lia|]. cbn [splitMembers]. unfold quoteJSON. cbn [append].
  rewrite (skipWS_id dq) by done. change (dq =c dq) with true. cbn iota.
  rewrite !sapp_assoc. cbn [append str1]. rewrite unquote_marshal. rewrite (skipWS_id ":") by done.
  change (":" =c ":") with true. cbn iota. rewrite compact_skipWS by done.
  rewrite (compact_readsBack false v Hv) by (done || lia). rewrite (skipWS_id "}") by done.
  change ("}" =c ",") with false. change ("}" =c "}") with true. cbn iota. by rewrite consumed_app.
Qed.

Lemma splitMembers_more fuel k v tail rest :
  jsonNumbers v -> (2 * vsize v < S fuel)%nat ->
  splitMembers (S fuel) ((quoteJSON false k +:+ String ":" (compact false v)) +:+ String "," (tail +:+ rest))
  = match splitMembers fuel (tail +:+ rest) with
    | Some (ms, r) => Some ((toValidUTF8 k, compact false v) :: ms, r)
    | None => None
    end.
Proof.
  intros Hv Hf. cbn [splitMembers]. unfold quoteJSON. cbn [append].
  rewrite (skipWS_id dq) by done. change (dq =c dq) with true. cbn iota.
  rewrite !sapp_assoc. cbn [append str1]. rewrite unquote_marshal. rewrite (skipWS_id ":") by done.
  change (":" =c ":") with true. cbn iota. rewrite compact_skipWS by done.
  rewrite (compact_readsBack false v Hv) by (done || lia). rewrite (skipWS_id ",") by done.
  change ("," =c ",") with true. cbn iota. by rewrite consumed_app.
Qed.

(** The members of a compact text, each with its own text. *)
Definition memberTexts (fs : list (string * value)) : list (string * string) :=
  (fun f => (toValidUTF8 f.1, compact false f.2)) <$> fs.

Definition memberPiece (f : string * value) : string := quoteJSON false f.1 +:+ String ":" (compact false f.2).

Lemma splitMembers_all fs : fs <> [] -> Forall (fun f => jsonNumbers f.2) fs -> forall fuel rest,
  (2 * list_sum ((fun f => vsize f.2) <$> fs) < fuel)%nat ->
  splitMembers fuel (joinComma (memberPiece <$> fs) +:+ String "}" rest)
  = Some (memberTexts fs, rest).
Proof.
  induction fs as [|[k v] fs IH]; intros Hne Hall fuel rest Hf; [done|]. apply Forall_cons in Hall as [Hv Hall]. simpl in Hv.
  csimpl in Hf. simpl in Hf. destruct fs as [|f fs].
  - apply (splitMembers_one fuel k v rest Hv). simpl in Hf. lia.
  - pose proof (vsize_pos v). destruct fuel as [|fuel]; [lia|].
    rewrite 2!fmap_cons, joinComma_cons, sapp_assoc, <- fmap_cons. cbn [append]. unfold memberPiece at 1. cbn [fst snd].
    specialize (IH ltac:(done) Hall fuel rest). rewrite splitMembers_more by (done || lia).
    rewrite IH; [done|]. simpl in *. lia.
Qed.

Lemma split_compact i fs : fs <> [] -> jsonNumbers (valObject i fs) ->
  staticCheckedSplit (compact false (valObject i fs)) = Some (memberTexts fs).
Proof.
  intros Hne Hj. pose proof (vsize_compact false _ Hj) as Hs. unfold staticCheckedSplit.
  assert (exists t, compact false (valObject i fs) = String "{" (String dq t)) as [t Ht].
  { destruct fs as [|[k v] fs]; [done|]. cbn [compact]. rewrite fmap_cons. cbn [fst snd].
    destruct fs; [cbn [fmap list_fmap joinComma]|rewrite fmap_cons, joinComma_cons]; by eexists. }
  assert (String dq t = joinComma (memberPiece <$> fs) +:+ String "}" "") as Hm.
  { cbn [compact append] in Ht. by injection Ht as <-. }
  rewrite Ht at 1. rewrite (skipWS_id "{") by done. change ("{" =c "{") with true. cbn iota.
  rewrite (skipWS_id dq) by done. change (dq =c "}") with false. cbn iota. rewrite Hm.
  rewrite splitMembers_all; [reflexivity|done|by inversion Hj|]. cbn [vsize] in Hs. lia.
Qed.

(** The text the coercer emits for the family. *)
Definition answerText (s confidence : string) : string :=
  staticCheckedJoin [("answer", quoteJSON false s); ("confidence", confidence)].

Lemma answer_compact i ia s ik f n : compact false (answerValue i ia s ik f n) = answerText s (pretty n).
Proof. reflexivity. Qed.

Lemma answer_split i ia s ik f n : jsonNumbers (answerValue i ia s ik f n) ->
  staticCheckedSplit (answerText s (pretty n)) = Some [("answer", quoteJSON false s); ("confidence", pretty n)].
Proof. intros Hj. rewrite <- (answer_compact i ia s ik f n). by apply split_compact. Qed.

Lemma staticCheckedInt_pretty n : (MinInt64 <= n <= MaxInt64)%Z -> staticCheckedInt (pretty n) = Some n.
Proof.
  intros Hn. unfold staticCheckedInt.
  pose proof (strictDecode_compact false (valNumber false false (pretty n))) as H. cbn [compact readBack] in H.
  rewrite H by (constructor; apply pretty_int_json). by apply FormatInt_parse.
Qed.

(** ** The assertion text *)

Lemma sall_weaken (p q : ascii -> bool) s : (forall c, p c = true -> q c = true) -> sall p s = true -> sall q s = true.
Proof. intros H. induction s as [|c s IH]; simpl; [done|]. intros [Hc Hs]%andb_true_iff. by rewrite (H c Hc), IH. Qed.

(** Printable bytes other than the quote and the backslash. *)
Definition plainByte (c : ascii) : bool := printable c && negb (c =c dq) && negb (c =c bs).

Lemma plainByte_facts c : plainByte c = true ->
  printable c = true /\ (c =c dq) = false /\ (c =c bs) = false /\ (c =c LF) = false
  /\ (c =c "013") = false /\ (c =c "009") = false.
Proof. destruct c as [[] [] [] [] [] [] [] []]; intros H; first [discriminate H|by split_and!]. Qed.

Lemma debugBytes_app s t a b : debugBytes s = Some a -> debugBytes t = Some b -> debugBytes (s +:+ t) = Some (a +:+ b).
Proof.
  revert a. induction s as [|c s IH]; intros a; simpl; [by intros [= <-]|].
  destruct (debugByte c) as [x|]; [|done]. destruct (debugBytes s) as [y|]; [|done]. intros [= <-] Ht.
  rewrite (IH y eq_refl Ht). by rewrite sapp_assoc.
Qed.
Lemma debugBytes_plain s : sall plainByte s = true -> debugBytes s = Some s.
Proof.
  induction s as [|c s IH]; simpl; [done|]. intros [Hc Hs]%andb_true_iff. rewrite (IH Hs).
  destruct (plainByte_facts c Hc) as (H1&H2&H3&H4&H5&H6). unfold debugByte. by rewrite H2, H3, H4, H5, H6, H1.
Qed.
Lemma plain_printed s : sall plainByte s = true -> staticCheckedPlain s = Some s /\ indent s = s.
Proof.
  intros H. unfold staticCheckedPlain. assert (sall (fun c => (c =c LF) || printable c) s = true) as ->.
  { eapply sall_weaken; [|exact H]. intros c (->&_)%plainByte_facts. by rewrite orb_true_r. }
  split; [done|]. induction s as [|c s IH]; simpl in *; [done|]. apply andb_true_iff in H as [Hc Hs].
  destruct (plainByte_facts c Hc) as (_&_&_&->&_). by rewrite IH.
Qed.

(** The text of a failed assertion on the confidence. *)
Definition assertText (cause : string) : string :=
  "Failed to coerce value: ParsingError { scope: [], reason: " +:+ dqs
  +:+ "Failed while parsing required fields: missing=0, unparsed=1" +:+ dqs
  +:+ ", causes: [ParsingError { scope: [], reason: " +:+ dqs
  +:+ "Failed to parse field confidence: <root>: Assertions failed." +:+ String bs "n  - <root>: " +:+ cause +:+ dqs
  +:+ ", causes: [ParsingError { scope: [], reason: " +:+ dqs +:+ "Assertions failed." +:+ dqs
  +:+ ", causes: [ParsingError { scope: [], reason: " +:+ dqs +:+ cause +:+ dqs
  +:+ ", causes: [] }] }] }] }".

Lemma assertFailure_text label expression :
  sall plainByte (assertCause label expression) = true ->
  (String.length (assertCause label expression) <= staticCheckedMaxCauseLen)%nat ->
  staticCheckedAssertFailure staticCheckedConfidenceField label expression = Some (assertText (assertCause label expression)).
Proof.
  intros Hp Hl. unfold staticCheckedAssertFailure. set (cause := assertCause label expression) in *. clearbody cause.
  destruct (Nat.ltb_spec staticCheckedMaxCauseLen (String.length cause)); [lia|].
  destruct (plain_printed _ Hp) as [Hpl Hin].
  assert (plain_root : indent ("<root>: " +:+ cause) = "<root>: " +:+ cause) by (simpl; by rewrite Hin).
  assert (display (PErr "Assertions failed." [PErr cause []])
    = Some ("<root>: Assertions failed." +:+ String LF "  - " +:+ "<root>: " +:+ cause)) as ->.
  { cbn [display]. change (staticCheckedPlain "Assertions failed.") with (Some "Assertions failed."). rewrite Hpl.
    rewrite plain_root. by rewrite sapp_assoc. }
  assert (debugBytes ("Failed to parse field " +:+ staticCheckedConfidenceField +:+ ": " +:+
      ("<root>: Assertions failed." +:+ String LF "  - " +:+ "<root>: " +:+ cause))
    = Some ("Failed to parse field confidence: <root>: Assertions failed." +:+ String bs "n  - <root>: " +:+ cause)) as Hd.
  { change (debugBytes (("Failed to parse field confidence: <root>: Assertions failed." +:+ String LF "  - <root>: ") +:+ cause)
      = Some (("Failed to parse field confidence: <root>: Assertions failed." +:+ String bs "n  - <root>: ") +:+ cause)).
    apply debugBytes_app; [reflexivity|by apply debugBytes_plain]. }
  cbn [debug]. unfold staticCheckedDebugString. rewrite Hd, (debugBytes_plain cause Hp).
  change (debugBytes "Assertions failed.") with (Some "Assertions failed.").
  change (debugBytes "Failed while parsing required fields: missing=0, unparsed=1")
    with (Some "Failed while parsing required fields: missing=0, unparsed=1").
  cbv iota. f_equal. unfold assertText. by rewrite !sapp_assoc.
Qed.

(** ** The cause stays below the truncation bound *)

Lemma label_plain c : labelByte c = true -> plainByte c = true.
Proof. destruct c as [[] [] [] [] [] [] [] []]; intros H; first [discriminate H|reflexivity]. Qed.
Lemma digit_plain_byte c : isDigit c = true -> plainByte c = true.
Proof. destruct c as [[] [] [] [] [] [] [] []]; intros H; first [discriminate H|reflexivity]. Qed.

Lemma label_facts l : staticCheckedASCIILabel l = true -> sall plainByte l = true /\ (String.length l <= 63)%nat /\ l <> "".
Proof.
  unfold staticCheckedASCIILabel. destruct (String.eqb_spec l "") as [->|Hne]; [done|]. simpl orb.
  rewrite staticCheckedMaxLabelLen_63. destruct (Nat.ltb_spec 63 (String.length l)); [done|].
  destruct l as [|c r]; [done|]. intros [Hc Hr]%andb_true_iff. split_and!; [|done|done].
  simpl. rewrite (label_plain c) by (unfold labelByte; by rewrite Hc). simpl.
  eapply sall_weaken; [|exact Hr]. exact label_plain.
Qed.

Lemma pretty_go_length k : forall (x : N) s, (x < 10 ^ N.of_nat k)%N ->
  (String.length (pretty_N_go x s) <= k + String.length s)%nat.
Proof.
  induction k as [|k IH]; intros x s Hx.
  { assert (x = 0%N) as -> by (simpl in Hx; lia). by rewrite pretty_N_go_0. }
  destruct (decide (0 < x)%N) as [Hp|Hp].
  - rewrite pretty_N_go_step by done. etransitivity; [apply IH|simpl; lia].
    apply N.Div0.div_lt_upper_bound. rewrite Nat2N.inj_succ, N.pow_succ_r' in Hx. lia.
  - assert (x = 0%N) as -> by lia. rewrite pretty_N_go_0. lia.
Qed.

Lemma FormatInt_facts n : (MinInt64 <= n <= MaxInt64)%Z ->
  sall plainByte (FormatInt n) = true /\ (String.length (FormatInt n) <= 20)%nat.
Proof.
  intros Hn. unfold FormatInt. rewrite pretty_Z_text.
  assert (sall plainByte (pretty (Z.to_N (Z.abs n))) = true) as Hp.
  { destruct (pretty_N_digits (Z.to_N (Z.abs n))) as [Ha _]. unfold allDigits in Ha. apply andb_true_iff in Ha as [Ha _].
    eapply sall_weaken; [|exact Ha]. exact digit_plain_byte. }
  assert (String.length (pretty (Z.to_N (Z.abs n))) <= 19)%nat as Hl.
  { assert (Z.to_N (Z.abs n) < 10 ^ N.of_nat 19)%N as Hb.
    { assert (10 ^ N.of_nat 19 = 10000000000000000000)%N as -> by (vm_compute; reflexivity).
      unfold MinInt64, MaxInt64 in Hn. lia. }
    unfold pretty, pretty_N. case_decide; [cbn [String.length]; lia|].
    pose proof (pretty_go_length 19 _ "" Hb) as Hg. cbn [String.length] in Hg. lia. }
  destruct (n <? 0)%Z; cbn [append]; [|split; [done|lia]]. split; [|simpl; lia]. simpl. by rewrite Hp.
Qed.

Lemma expression_facts op n : op ∈ directCompareOperators -> (MinInt64 <= n <= MaxInt64)%Z ->
  sall plainByte (directI64Expression op n) = true /\ (String.length (directI64Expression op n) <= 28)%nat.
Proof.
  intros Ho Hn. destruct (FormatInt_facts n Hn) as [Hp Hl]. unfold directI64Expression.
  rewrite sall_app, slength_app, Hp, andb_true_r.
  assert (sall plainByte (directHead op) = true /\ (String.length (directHead op) <= 8)%nat) as [-> ?]; [|split; [done|lia]].
  repeat (apply elem_of_cons in Ho as [->|Ho]; [split; [reflexivity|vm_compute; lia]|]). by inversion Ho.
Qed.

Lemma family_cause b prof : family b prof ->
  sall plainByte (assertCause (cp_label prof) (cp_expression prof)) = true
  /\ (String.length (assertCause (cp_label prof) (cp_expression prof)) <= staticCheckedMaxCauseLen)%nat.
Proof.
  intros Hf. destruct (fam_expression _ _ Hf) as (op&n&Ho&Hn&->). destruct (expression_facts op n Ho Hn) as [Hp Hl].
  set (e := directI64Expression op n) in *. clearbody e. unfold assertCause, staticCheckedMaxCauseLen. rewrite !sall_app, !slength_app, Hp, andb_true_r.
  change (sall plainByte staticCheckedCausePrefix) with true. change (String.length staticCheckedCausePrefix) with 8%nat. cbn [andb].
  destruct (fam_label _ _ Hf) as [Hlab|[_ ->]]; [|split; [done|simpl; lia]].
  destruct (label_facts _ Hlab) as (Hlp&Hll&Hne%String.eqb_neq). rewrite Hne, sall_app, slength_app, Hlp. split; [done|simpl; lia].
Qed.

(** ** The mapper, exactly *)

(** What the code relies on of the encoder of sonic: a printable text without a quote
    or a backslash is written between quotes, an integer in decimal. *)
Class SonicEncodes (sonicString : string -> string) (sonicInt : Z -> string) : Prop := {
  sonic_plain s : sall plainByte s = true -> sonicString s = dqs +:+ s +:+ dqs;
  sonic_int n : sonicInt n = FormatInt n
}.

(** The carrier of one check as JSON. *)
Definition carrierText (n : Z) (label expression status : string) : string :=
  "{" +:+ jsonKey "value" +:+ FormatInt n +:+ "," +:+ jsonKey "checks" +:+ "{"
  +:+ dqs +:+ label +:+ dqs +:+ ":{" +:+ jsonKey "name" +:+ dqs +:+ label +:+ dqs +:+ ","
  +:+ jsonKey "expression" +:+ dqs +:+ expression +:+ dqs +:+ ","
  +:+ jsonKey "status" +:+ dqs +:+ status +:+ dqs +:+ "}" +:+ "}}".

Lemma carrier_marshal sonicString sonicInt `{SonicEncodes sonicString sonicInt} n label expression status :
  sall plainByte label = true -> label <> "" -> sall plainByte expression = true -> sall plainByte status = true ->
  exists c, NewChecked n [mkCheck label expression status] = inl c
    /\ MarshalJSON sonicString sonicInt c = inl (carrierText n label expression status).
Proof.
  intros Hl Hne He Hs. unfold NewChecked, newCheckedLoop. cbn [ck_Name]. apply String.eqb_neq in Hne. rewrite Hne, lookup_empty.
  eexists. split; [reflexivity|]. unfold MarshalJSON, marshalOrder. cbn [cd_Checks declaredCheckOrder from_option id fmap list_fmap length].
  rewrite map_size_insert_None by apply lookup_empty. rewrite map_size_empty. cbn [negb Nat.eqb checkOrder ck_Name].
  rewrite decide_False by set_solver. rewrite lookup_insert_eq. cbn [ck_Name]. rewrite String.eqb_refl. cbn [negb fmap list_fmap joinComma].
  unfold marshalCheck. rewrite lookup_insert_eq. cbn [from_option id ck_Name ck_Expression ck_Status cd_Value].
  assert (forall s, sall plainByte s = true -> sonicString s = dqs +:+ s +:+ dqs) as E by apply sonic_plain.
  rewrite (E _ Hl), (E _ He), (E _ Hs), sonic_int. unfold carrierText. by rewrite !sapp_assoc.
Qed.

Lemma family_numbers b prof : family b prof -> bundleNumMode b = numModeLegacy.
Proof.
  intros Hf. destruct (fam_target _ _ Hf) as [m Ht]. unfold bundleNumMode, admittedJsonValueRecursiveAliasProfile.
  rewrite Ht. by destruct (aliasBundleShapeOK b).
Qed.

Lemma coerceRaw_answer Dyn T fuel b prof raw out :
  family b prof -> coerceRaw Dyn T fuel b raw = inl out ->
  exists s n, (MinInt64 <= n <= MaxInt64)%Z /\ out = answerText s (FormatInt n)
    /\ staticCheckedSplit out = Some [("answer", quoteJSON false s); ("confidence", FormatInt n)].
Proof.
  intros Hf. unfold coerceRaw. rewrite (family_numbers _ _ Hf).
  destruct (extractCandidate _ _) as [v|] eqn:Ex; [|done]. apply extractCandidate_numbers in Ex.
  destruct (coerce _ _ _ _ _ _ _) as [g r] eqn:Ec. cbn [snd]. intros ->.
  destruct (family_collapsed _ _ Hf) as [Hb Ht].
  destruct (coerce_sound _ b Hb fuel (Target b) v emptyCtx Ht Ex _ _ _ Ec) as (w&Hw&Hj&<-).
  destruct (family_value _ _ _ Hf Hw) as (i&ia&s&ik&f&n&->&Hn). exists s, n.
  rewrite answer_compact. split_and!; [lia..|done|]. by apply (answer_split i ia s ik f n).
Qed.

(** C20. The mapper of the checked static family, exactly.  For every bundle with the
    fingerprint, every text and whatever the expression engine does: the expression is
    a direct comparison with a 64-bit literal; when the coercion declines or fails, so
    does the mapper, with the same error; otherwise the coerced output is an answer
    and a 64-bit confidence, and the mapper never declines after that.  A check emits
    the same object with the confidence wrapped in its carrier, whose status says
    whether the comparison holds; an assertion emits the output unchanged when it
    holds, and the rendered error of the failed assertion otherwise. *)
Theorem checked_static_exact Dynamic T renderOnce sonicString sonicInt `{SonicEncodes sonicString sonicInt}
    fuel b prof raw :
  staticCheckedProfileOf Dynamic b = Some prof ->
  exists op literal, op ∈ directCompareOperators /\ (MinInt64 <= literal <= MaxInt64)%Z
    /\ cp_expression prof = directI64Expression op literal
    /\ match coerceRaw Dynamic T fuel b raw with
       | inr e => staticCheckedMap Dynamic T renderOnce sonicString sonicInt fuel b prof raw = inr (StaticErr e)
       | inl out =>
           exists s n, (MinInt64 <= n <= MaxInt64)%Z /\ out = answerText s (FormatInt n)
           /\ staticCheckedMap Dynamic T renderOnce sonicString sonicInt fuel b prof raw =
              (let holds := opHolds op n literal in
               if cp_level prof =s ConstraintAssert then
                 if holds then inl out
                 else inr (AssertFailure (assertText (assertCause (cp_label prof) (cp_expression prof))))
               else inl (answerText s (carrierText n (cp_label prof) (cp_expression prof)
                                         (if holds then CheckSucceeded else CheckFailed))))
       end.
Proof.
  intros Hp%profileOf_family. destruct (fam_expression _ _ Hp) as (op&lit&Ho&Hl&He).
  exists op, lit. split_and!; [done|lia..|done|]. unfold staticCheckedMap.
  destruct (coerceRaw Dynamic T fuel b raw) as [out|e] eqn:Ec; [|done].
  destruct (coerceRaw_answer _ _ _ _ _ _ _ Hp Ec) as (s&n&Hn&->&Hs). exists s, n. split_and!; [lia..|done|].
  rewrite Hs. cbn [negb orb].
  change (("answer" <>s staticCheckedAnswerField) || ("confidence" <>s staticCheckedConfidenceField)) with false. cbn iota.
  change (staticCheckedJoin [("answer", quoteJSON false s); ("confidence", FormatInt n)]) with (answerText s (FormatInt n)).
  rewrite String.eqb_refl. cbn [negb]. unfold FormatInt at 2. rewrite staticCheckedInt_pretty by done.
  rewrite He at 1. rewrite direct_total by done. unfold spliceChecked.
  destruct (family_cause _ _ Hp) as [Hc1 Hc2]. destruct (cp_level prof =s ConstraintAssert) eqn:El.
  - cbv zeta. destruct (opHolds op n lit); [done|]. by rewrite assertFailure_text.
  - destruct (fam_label _ _ Hp) as [Hlab|[Ha _]]; [|by rewrite Ha in El].
    destruct (label_facts _ Hlab) as (Hlp&_&Hne). destruct (expression_facts op lit Ho Hl) as [Hep _]. rewrite <- He in Hep.
    destruct (carrier_marshal sonicString sonicInt n (cp_label prof) (cp_expression prof)
      (if opHolds op n lit then CheckSucceeded else CheckFailed) Hlp Hne Hep) as (c&Hc&Hm); [by destruct (opHolds op n lit)|].
    rewrite Hc, Hm. done.
Qed.

(** ** A concrete answer *)

Module Witness.
(** The marshaller of [encoding/json] without HTML escapes encodes as sonic does. *)
Lemma escape_plain s : sall plainByte s = true -> escapeFrom false 0 s = s.
Proof.
  induction s as [|c s IH]; [done|]. cbn [sall escapeFrom]. intros [Hc Hs]%andb_true_iff.
  assert (escapeStep false c s = (str1 c, 0)) as ->.
  { unfold escapeStep. clear IH Hs. destruct c as [[] [] [] [] [] [] [] []]; first [discriminate Hc|reflexivity]. }
  cbn [append str1]. by rewrite IH.
Qed.
#[export] Instance json_encodes : SonicEncodes (quoteJSON false) FormatInt.
Proof. split; [|done]. intros s Hs. unfold quoteJSON. by rewrite escape_plain. Qed.

Definition checkedBundle (level : ConstraintLevel) (name : string) : Bundle :=
  let c := mkConstraint level " this > 5 " (Some "sure") in
  bundleOf (classOf name) [] [mkClass name
    [mkField "answer" str;
     mkField "confidence" (TypePrimitive (mkMeta [c] (mkStreaming false false false)) PrimitiveInt)]].
Definition checkedProfile (level : ConstraintLevel) (name : string) : staticCheckedProfile := mkProfile name level "sure" "this > 5".
Definition static (level : ConstraintLevel) (name raw : string) : string + staticErr :=
  staticCheckedMap (fun _ => false) asciiTables sayTrue (quoteJSON false) FormatInt 10
    (checkedBundle level name) (checkedProfile level name) raw.

(** The text of an answer, with single quotes for the quotes. *)
Definition ticked (r : string + staticErr) : option string :=
  let tick c := if c =c dq then "'"%char else c in
  match r with
  | inl s | inr (AssertFailure s) => Some (string_of_list_ascii (tick <$> list_ascii_of_string s))
  | _ => None
  end.
Definition answer (n : string) : string :=
  "{" +:+ jsonKey "answer" +:+ dqs +:+ "yes" +:+ dqs +:+ "," +:+ jsonKey "confidence" +:+ n +:+ "}".

(** A check that holds, one that fails, an assertion that holds and one that fails. *)
Example static_answers :
  ticked (static ConstraintCheck staticCheckedCheckClass (answer "7"))
    = Some "{'answer':'yes','confidence':{'value':7,'checks':{'sure':{'name':'sure','expression':'this > 5','status':'succeeded'}}}}"
  /\ ticked (static ConstraintCheck staticCheckedCheckClass (answer "5"))
    = Some "{'answer':'yes','confidence':{'value':5,'checks':{'sure':{'name':'sure','expression':'this > 5','status':'failed'}}}}"
  /\ ticked (static ConstraintAssert staticCheckedAssertClass (answer "7")) = Some "{'answer':'yes','confidence':7}"
  /\ is_Some (ticked (static ConstraintAssert staticCheckedAssertClass (answer "5"))).
Proof. split_and!; [vm_compute; reflexivity..|]. vm_compute. by eexists. Qed.

Lemma checked_static_exact_witness : exists op literal,
  op ∈ directCompareOperators /\ (MinInt64 <= literal <= MaxInt64)%Z /\ "this > 5" = directI64Expression op literal
  /\ match coerceRaw (fun _ => false) asciiTables 10 (checkedBundle ConstraintCheck staticCheckedCheckClass) (answer "7") with
     | inr e => static ConstraintCheck staticCheckedCheckClass (answer "7") = inr (StaticErr e)
     | inl out => exists s n, (MinInt64 <= n <= MaxInt64)%Z /\ out = answerText s (FormatInt n)
         /\ static ConstraintCheck staticCheckedCheckClass (answer "7")
            = inl (answerText s (carrierText n "sure" "this > 5" (if opHolds op n literal then CheckSucceeded else CheckFailed)))
     end.
Proof.
  apply (checked_static_exact (fun _ => false) asciiTables sayTrue (quoteJSON false) FormatInt 10
    (checkedBundle ConstraintCheck staticCheckedCheckClass) (checkedProfile ConstraintCheck staticCheckedCheckClass) (answer "7")).
  vm_compute. reflexivity.
Defined.
End Witness.
