(* ===== verification/AliasStream.v ===== *)
(** * AliasStream: partial documents of the recursive aliases
    ([internal/debaml/stream_alias_coerce.go])

    The streaming twin of the coercion to [JSON] and [JsonValue], and the partial of an
    accumulated text.  [aliasStreamValue] is [aliasValue]: the same kinds, the entries
    of a map in order, and the same public spelling.  The selection of an arm asks the
    final coercion, with fuel above the size of the value; the walk itself is
    structural. *)

From Stdlib Require Import Ascii String.
From stdpp Require Import pretty.
From S2P Require Import Prelude GoStrings GoValue Jsonish FixParse FixStream Extract GoFloat NumberText Unicode MatchString Schema PairGuard Candidate OutputText Gate LeafCoerce TryCast Coerce NumberValid CoerceTyping CoerceFuel AliasCoerce AliasSound AliasTyping.
Open Scope stdpp_scope.

Definition isJsonValue (prof : recAliasProfile) : bool := match family prof with aliasFamilyJsonValue => true | aliasFamilyJSON => false end.
Definition profileNumMode (prof : recAliasProfile) : numMode := if isJsonValue prof then numModeSerde else numModeLegacy.

(** ** Scalars at the root *)

(** [isNumberishToken]. *)
Definition isNumberishToken (tok : string) : bool :=
  match tok with
  | String c r => isDigit c || ((c =c "-") || (c =c "+")) && (match r with String d _ => isDigit d | EmptyString => false end)
  | EmptyString => false
  end.

(** [aliasRootScalar]. *)
Definition aliasRootScalar (tok : string) : aliasValue :=
  if tok =s "true" then akBool true
  else if tok =s "false" then akBool false
  else if tok =s "null" then akArray []
  else
    let other := if isNumberishToken tok then akArray [] else akString tok in
    match parseI64Rust tok with
    | Some n => if (pretty n : string) =s tok then akInt n else other
    | None => other
    end.

(** [parseAliasRootQuotedString] after the opening quote; an end of the text closes it. *)
Fixpoint rootQuoted (s : string) : string :=
  match s with
  | EmptyString => EmptyString
  | String c r =>
      if c =c bs then
        match r with
        | EmptyString => str1 bs
        | String e r' => match fixEscape e with Some x => String x (rootQuoted r') | None => String bs (rootQuoted r) end
        end
      else if c =c dq then EmptyString
      else String c (rootQuoted r)
  end.
Definition parseAliasRootQuotedString (s : string) : option string :=
  if HasPrefix s tripleQuote then None
  else match s with String _ r => Some (rootQuoted r) | EmptyString => Some EmptyString end.

(** ** The walk *)

(** The arms of a scalar; [None] when the value is not shown yet. *)
Definition streamScalarArm (prof : recAliasProfile) (av : aliasValue) (input : value) : option aliasValue :=
  match av, input with
  | akInt _, valNumber _ _ tok =>
      if negb (isJsonValue prof) && negb (sall (fun c => negb (ContainsByte c ".eE")) tok) then None else Some av
  | _, _ => Some av
  end.

(** The hint an element leaves for the next one ([aliasSiblingHint]) is its arm. *)
Definition streamResult : Type := option aliasValue * option nat.

Section Walk.
Variables (T : tables) (b : Bundle) (prof : recAliasProfile).

Section Arms.
Variable rec : value -> coerceCtx -> streamResult + CoerceErr.

(** [streamListArm] and [streamMapArm], over the elements; those that fail or are not
    shown yet are left out. *)
Fixpoint streamItems (ctx : coerceCtx) (last : option nat) (items : list value) : list aliasValue + CoerceErr :=
  match items with
  | [] => inl []
  | item :: items =>
      skip (rec item (enterScopeWithHint ctx last))
        (fun r => match r with
                  | (None, _) => streamItems ctx last items
                  | (Some av, idx) => rest <== streamItems ctx idx items ;; inl (av :: rest)
                  end)
        (streamItems ctx last items)
  end.
Fixpoint streamEntries (ctx : coerceCtx) (fs : list (string * value)) (m : list (string * aliasValue))
    : list (string * aliasValue) + CoerceErr :=
  match fs with
  | [] => inl m
  | f :: fs =>
      skip (rec f.2 (enterScope ctx))
        (fun r => match r.1 with None => streamEntries ctx fs m | Some av => streamEntries ctx fs (put f.1 av m) end)
        (streamEntries ctx fs m)
  end.
End Arms.

(** [coerceStreamAliasValue]. *)
Fixpoint coerceStreamAliasValue (input : value) (ctx : coerceCtx) {struct input} : streamResult + CoerceErr :=
  match aliasCoerceValue T b prof (S (vsize input)) input ctx with
  | inr e => inr e
  | inl (av, _, idx) =>
      match av with
      | akInt _ | akFloat _ | akString _ | akBool _ => inl (streamScalarArm prof av input, idx)
      | akNull => inl (Some akNull, idx)
      | akArray _ =>
          avs <== match input with valArray _ items => streamItems coerceStreamAliasValue ctx None items | _ => inl [] end ;;
          inl (Some (akArray avs), idx)
      | akMap _ =>
          m <== match input with valObject _ fs => streamEntries coerceStreamAliasValue ctx fs [] | _ => inl [] end ;;
          inl (Some (akMap m), idx)
      end
  end.

(** A tree as the text of a partial. *)
Definition emit (av : aliasValue) : option string + CoerceErr :=
  match marshalPublic av with Some out => inl (Some out) | None => inr Hard end.

(** [coerceStreamAliasRoot]; [None] is no partial. *)
Definition coerceStreamAliasRoot (input : value) : option string + CoerceErr :=
  r <== coerceStreamAliasValue input emptyCtx ;;
  match r.1 with
  | None => inl None
  | Some av => if aliasHasNegativeZero av then inr Unsupported else emit av
  end.

Definition setIncomplete (v : value) : value :=
  match v with
  | valNull _ => valNull true | valBool _ x => valBool true x | valNumber _ f tok => valNumber true f tok
  | valString _ s => valString true s | valArray _ xs => valArray true xs | valObject _ fs => valObject true fs
  end.

(** [jsonValueRootScalar]. *)
Definition jsonValueRootScalar (tok : string) : option string + CoerceErr :=
  match strictDecode numModeSerde tok with
  | Some v => coerceStreamAliasRoot v
  | None => match classifyScalarSerde tok with Some v => coerceStreamAliasRoot (setIncomplete v) | None => inr Unsupported end
  end.

(** The end of [ParseAliasStreamPartial], from the first byte that is not blank. *)
Definition scalarPartial (lead : string) : option string + CoerceErr :=
  match lead with
  | String c _ =>
      if c =c dq then match parseAliasRootQuotedString lead with Some s => emit (akString s) | None => inl None end
      else
        let tok := fst (span (fun c => negb (isWS c)) lead) in
        if isJsonValue prof then jsonValueRootScalar tok else emit (aliasRootScalar tok)
  | EmptyString => inl None
  end.

(** The texts that open with a fence: the tag of the fence, or what follows its line. *)
Definition fencePartial (lead : string) : option string + CoerceErr :=
  let rest := snd (span (fun c => c =c bq) lead) in
  match span (fun c => negb (c =c LF)) rest with
  | (_, String _ after) => match skipWS after with EmptyString => emit (akString "") | content => scalarPartial content end
  | (_, EmptyString) => emit (akString rest)
  end.

(** A container is read first; otherwise the text is a scalar. *)
Definition partialOf (stripped : string) : option string + CoerceErr :=
  let lead := skipWS stripped in
  match lead with
  | EmptyString => inl None
  | String c _ =>
      match (if sall (fun c => negb (ContainsByte c "{[")) stripped then None else streamExtractCandidate (profileNumMode prof) stripped) with
      | Some v => coerceStreamAliasRoot v
      | None => if c =c bq then fencePartial lead else scalarPartial lead
      end
  end.
End Walk.

(** [ParseAliasStreamPartial]. *)
Definition ParseAliasStreamPartial (T : tables) (b : Bundle) (raw : string) : option string + CoerceErr :=
  match admittedServedRecursiveAliasProfile b with
  | None => inr Unsupported
  | Some prof => partialOf T b prof (stripJSONComments raw)
  end.

(** ** The walk answers with public trees *)


Section Public.
Variables (T : tables) (b : Bundle) (prof : recAliasProfile) (vs : list type) (m : TypeMeta) (def : RecursiveAliasDef).
Hypothesis found : FindRecursiveAlias b (aliasName prof) = Some def.
Hypothesis target : ra_Target def = TypeUnion m (Some (vs, prof_nullable prof)).
Hypothesis arms : familyArms prof vs.
Hypothesis variants : aliasVariants b prof = inl vs.
Local Abbreviation public := (public b prof).

(** The arm is in the list. *)
Ltac armIn := repeat first [apply list_elem_of_here | apply list_elem_of_further].

Lemma arrays avs : Forall public avs -> public (akArray avs).
Proof.
  intros H. destruct arms; (eapply public_array; [exact found|exact target|exact arms| |reflexivity|exact H]); armIn.
Qed.
Lemma maps es : NoDup es.*1 -> Forall (fun e => public e.2) es -> public (akMap es).
Proof.
  intros Hn H. destruct arms; (eapply public_map; [exact found|exact target|exact arms| |reflexivity|exact Hn|exact H]); armIn.
Qed.
Lemma strings s : public (akString s).
Proof. destruct arms; (eapply public_string; [exact found|exact target| |reflexivity]); armIn. Qed.
Lemma bools x : public (akBool x).
Proof. destruct arms; (eapply public_bool; [exact found|exact target| |reflexivity]); armIn. Qed.
Lemma ints z : inI64 z -> public (akInt z).
Proof. intros Hz. destruct arms; (eapply public_int; [exact found|exact target| |reflexivity|exact Hz]); armIn. Qed.

(** A result is not the end of the fuel, and a shown tree is public. *)
Definition shows (r : streamResult + CoerceErr) : Prop :=
  r <> inr OutOfFuel /\ gives r (fun w => forall av, w.1 = Some av -> public av).

Lemma skip_fuel {A B} (r : A + CoerceErr) (ok : A -> B + CoerceErr) ko :
  r <> inr OutOfFuel -> (forall a, ok a <> inr OutOfFuel) -> ko <> inr OutOfFuel -> skip r ok ko <> inr OutOfFuel.
Proof. intros Hr Hok Hko. destruct r as [a|e]; [apply Hok|]. by destruct e. Qed.

Lemma streamItems_public rec ctx items : (forall v c, v ∈ items -> shows (rec v c)) -> forall last,
  streamItems rec ctx last items <> inr OutOfFuel /\ gives (streamItems rec ctx last items) (Forall public).
Proof.
  induction items as [|v items IH]; intros H last; cbn [streamItems]; [split; [done|by apply gives_ok]|].
  destruct (H v (enterScopeWithHint ctx last)) as [Hf Hg]; [set_solver|].
  assert (forall v c, v ∈ items -> shows (rec v c)) as H' by (intros; apply H; set_solver).
  split.
  - apply skip_fuel; [done| |by apply IH]. intros [[av|] idx]; [|by apply IH].
    destruct (streamItems rec ctx idx items) eqn:E; [done|]. cbn. destruct (IH H' idx) as [Hn _]. rewrite E in Hn. congruence.
  - eapply gives_skip; [exact Hg| |by apply IH]. intros [[av|] idx] Hav; [|by apply IH].
    eapply gives_bind; [by apply IH|]. intros rest Hr. apply gives_ok. constructor; [by apply Hav|done].
Qed.

Lemma streamEntries_public rec ctx fs : (forall f c, f ∈ fs -> shows (rec f.2 c)) -> forall es,
  NoDup es.*1 -> Forall (fun e => public e.2) es ->
  streamEntries rec ctx fs es <> inr OutOfFuel
  /\ gives (streamEntries rec ctx fs es) (fun m => NoDup m.*1 /\ Forall (fun e => public e.2) m).
Proof.
  induction fs as [|f fs IH]; intros H es Hn He; cbn [streamEntries]; [split; [done|by apply gives_ok]|].
  destruct (H f (enterScope ctx)) as [Hf Hg]; [set_solver|].
  assert (forall g c, g ∈ fs -> shows (rec g.2 c)) as H' by (intros; apply H; set_solver).
  assert (forall av, public av -> NoDup (put f.1 av es).*1 /\ Forall (fun e => public e.2) (put f.1 av es)) as Hput.
  { intros av Hav. split; [by apply put_nodup|by apply put_forall]. }
  destruct (rec f.2 (enterScope ctx)) as [[[av|] idx]|e] eqn:E; cbn [skip fst].
  - destruct (Hput av (Hg _ eq_refl av eq_refl)). by apply IH.
  - by apply IH.
  - destruct e; [..|done]; by apply IH.
Qed.

Lemma coerceStream_public v : forall ctx, shows (coerceStreamAliasValue T b prof v ctx).
Proof.
  assert (forall v ctx, match aliasCoerceValue T b prof (S (vsize v)) v ctx with inl (av, _, _) => public av | inr e => e <> OutOfFuel end) as Hav.
  { intros w ctx. destruct (aliasCoerceValue_fuel T b prof (S (vsize w)) (S (vsize w)) w ctx) as [_ Hf]; [apply enough_size; lia..|].
    pose proof (aliasCoerceValue_public T b prof vs m def found target arms variants (S (vsize w)) w ctx) as Hp.
    destruct (aliasCoerceValue _ _ _ _ _ _) as [[[av f] idx]|e]; [exact (Hp _ eq_refl)|congruence]. }
  assert (forall av w (idx : option nat), public av -> shows (inl (streamScalarArm prof av w, idx))) as Hscalar.
  { intros av w idx Hp. split; [done|]. apply gives_ok. cbn. intros av'. unfold streamScalarArm. repeat case_match; intros; simplify_eq; done. }
  induction v as [i|i x|i serde tok|i s|i xs IH|i fs IH] using value_induction; intros ctx; cbn [coerceStreamAliasValue];
    match goal with |- context [aliasCoerceValue _ _ _ _ ?w ctx] => specialize (Hav w ctx) end;
    destruct (aliasCoerceValue _ _ _ _ _ _) as [[[[] ?] idx]|e]; try (by apply Hscalar);
    try (by (split; [congruence|apply gives_err]));
    try (split; [done|apply gives_ok; cbn; intros ? [= <-]; first [done|by apply arrays|by apply maps; [constructor|]]]).
  - destruct (streamItems_public (coerceStreamAliasValue T b prof) ctx xs) with (last := @None nat) as [Hn Hg].
    { intros w cx Hw. rewrite Forall_forall in IH. by apply IH. }
    destruct (streamItems _ _ _ _) as [avs|e]; cbn [thenR]; [|split; [congruence|apply gives_err]].
    split; [done|]. apply gives_ok. cbn. intros av [= <-]. by apply arrays, Hg.
  - destruct (streamEntries_public (coerceStreamAliasValue T b prof) ctx fs) with (es := @nil (string * aliasValue)) as [Hn Hg];
      [|constructor|constructor|].
    { intros w cx Hw. rewrite Forall_forall in IH. by apply IH. }
    destruct (streamEntries _ _ _ _) as [es|e]; cbn [thenR]; [|split; [congruence|apply gives_err]].
    split; [done|]. apply gives_ok. cbn. intros av [= <-]. destruct (Hg _ eq_refl). by apply maps.
Qed.
End Public.

(** ** Partials are values of the alias *)

Section Partial.
Variables (T : tables) (b : Bundle) (prof : recAliasProfile) (vs : list type).
Hypothesis admitted : admittedServedRecursiveAliasProfile b = Some prof.
Hypothesis variants : aliasVariants b prof = inl vs.

(** What an answer is: no partial, the text of a value of the alias, or an error. *)
Definition partial (r : option string + CoerceErr) : Prop :=
  match r with
  | inl (Some out) => exists v, hasType b (Target b) v /\ out = compact true v /\ strictDecode numModeLegacy out = Some (readBack v)
  | inl None => True
  | inr e => e <> OutOfFuel
  end.

Lemma emit_partial av : public b prof av -> partial (emit av).
Proof.
  intros (v&Hv&Ht&Hn). destruct (admitted_arms b prof vs admitted variants) as (_&m&def&_&_&mt&Htarget).
  unfold emit, marshalPublic. rewrite Hv. simpl. exists v. rewrite Htarget. split_and!; [apply Ht|done|by apply strictDecode_compact].
Qed.

Lemma root_partial v : partial (coerceStreamAliasRoot T b prof v).
Proof.
  destruct (admitted_arms b prof vs admitted variants) as (Harms&m&def&Hf&Ht&_).
  destruct (coerceStream_public T b prof vs m def Hf Ht Harms variants v emptyCtx) as [Hn Hg].
  unfold coerceStreamAliasRoot. destruct (coerceStreamAliasValue T b prof v emptyCtx) as [[[av|] idx]|e]; cbn; [|done|congruence].
  destruct (aliasHasNegativeZero av); [done|]. by apply emit_partial, (Hg _ eq_refl).
Qed.

Lemma rootScalar_public tok : public b prof (aliasRootScalar tok).
Proof.
  destruct (admitted_arms b prof vs admitted variants) as (Harms&m&def&Hf&Ht&_).
  assert (public b prof (if isNumberishToken tok then akArray [] else akString tok)) as Ho.
  { destruct (isNumberishToken tok); [by eapply arrays|by eapply strings]. }
  unfold aliasRootScalar. destruct (tok =s "true"), (tok =s "false"), (tok =s "null"); try by eapply bools.
  1: by eapply arrays.
  destruct (parseI64Rust tok) as [n|] eqn:En; [|done]. destruct (_ =s tok); [|done].
  eapply ints; [done..|]. by eapply parseI64Rust_range.
Qed.

Lemma scalar_partial lead : partial (scalarPartial T b prof lead).
Proof.
  destruct (admitted_arms b prof vs admitted variants) as (Harms&m&def&Hf&Ht&_).
  unfold scalarPartial, jsonValueRootScalar. repeat (case_match; try done); try apply root_partial; apply emit_partial; [by eapply strings|apply rootScalar_public].
Qed.

Lemma partialOf_partial stripped : partial (partialOf T b prof stripped).
Proof.
  destruct (admitted_arms b prof vs admitted variants) as (Harms&m&def&Hf&Ht&_).
  assert (forall s, partial (emit (akString s))) as Hs by (intros; apply emit_partial; by eapply strings).
  unfold partialOf, fencePartial. repeat (case_match; try done); first [apply root_partial|apply scalar_partial|apply Hs].
Qed.
End Partial.

(** The alias of an admitted bundle has the arms of its family when it is found. *)
Lemma admitted_variants b prof : admittedServedRecursiveAliasProfile b = Some prof ->
  is_Some (FindRecursiveAlias b (aliasName prof)) -> exists vs, aliasVariants b prof = inl vs.
Proof.
  intros Hp [def Hdef]. unfold aliasVariants. rewrite Hdef. pose proof (admitted_def b prof def Hp Hdef) as Hshape.
  unfold admittedServedRecursiveAliasProfile, admittedRecursiveAliasProfile, admittedJsonValueRecursiveAliasProfile in Hp.
  rewrite Hshape in Hp. cbn in Hp. destruct (ra_Target def) as [| | | | | | | | | |m [[vs n]|]|]; try by rewrite ?andb_false_r in Hp.
  by exists vs.
Qed.

(** Every partial of a recursive alias is a value of the alias: for any text, cut
    anywhere, [ParseAliasStreamPartial] shows nothing, or the compact text of a value
    of the target type which the strict decoder reads back, or fails without running
    out of fuel; whatever the matcher's tables. *)
Theorem alias_partial_typed T b prof raw :
  admittedServedRecursiveAliasProfile b = Some prof -> is_Some (FindRecursiveAlias b (aliasName prof)) ->
  match ParseAliasStreamPartial T b raw with
  | inl (Some out) => exists v, hasType b (Target b) v /\ out = compact true v /\ strictDecode numModeLegacy out = Some (readBack v)
  | inl None => True
  | inr e => e <> OutOfFuel
  end.
Proof.
  intros Hp Hf. destruct (admitted_variants b prof Hp Hf) as [vs Hv]. unfold ParseAliasStreamPartial. rewrite Hp.
  exact (partialOf_partial T b prof vs Hp Hv (stripJSONComments raw)).
Qed.

(** ** Documents are shown as they are *)

Lemma int_token tok z : parseI64Rust tok = Some z -> sall (fun c => negb (ContainsByte c ".eE")) tok = true.
Proof.
  assert (forall d, allDigits d = true -> sall (fun c => negb (ContainsByte c ".eE")) d = true) as Hd.
  { intros d [H _]%andb_true_iff. induction d as [|c d IH]; [done|]. cbn [sall] in *. apply andb_true_iff in H as [Hc Hd].
    rewrite (IH Hd), andb_true_r. destruct c as [[] [] [] [] [] [] [] []]; first [discriminate Hc|reflexivity]. }
  unfold parseI64Rust. destruct (signOf tok) as [neg d] eqn:Es. destruct (allDigits d) eqn:E; [|done]. intros _.
  apply Hd in E. destruct tok as [|c r]; [done|]. unfold signOf in Es. cbn [sall].
  destruct (c =c "-") eqn:E1; [apply Ascii.eqb_eq in E1; simplify_eq; exact E|].
  destruct (c =c "+") eqn:E2; [apply Ascii.eqb_eq in E2; simplify_eq; exact E|]. by simplify_eq.
Qed.

Section Document.
Variables (T : tables) (b : Bundle) (prof : recAliasProfile) (vs : list type).
Hypothesis variants : aliasVariants b prof = inl vs.
Hypothesis arms : familyArms prof vs.

(** The walk shows [av] for [v]. *)
Definition walks (v : value) (av : aliasValue) : Prop :=
  forall ctx, tryCastChain ctx = [] -> exists idx, coerceStreamAliasValue T b prof v ctx = inl (Some av, idx).

Lemma items_walk xs avs ctx : tryCastChain ctx = [] -> Forall2 walks xs avs -> forall last,
  streamItems (coerceStreamAliasValue T b prof) ctx last xs = inl avs.
Proof.
  intros Hc. induction 1 as [|x av xs avs Hx _ IH]; intros last; [done|]. cbn [streamItems].
  destruct (Hx (enterScopeWithHint ctx last) Hc) as [idx ->]. cbn [skip]. by rewrite IH.
Qed.
Lemma entries_walk fs es ctx : tryCastChain ctx = [] -> Forall2 (fun f e => f.1 = e.1 /\ walks f.2 e.2) fs es -> forall m,
  NoDup (m.*1 ++ fs.*1) -> streamEntries (coerceStreamAliasValue T b prof) ctx fs m = inl (m ++ es).
Proof.
  intros Hc. induction 1 as [|[k x] [k' av] fs es [Hk Hx] _ IH]; intros m Hn; [by rewrite app_nil_r|].
  simpl in Hk, Hx. subst k'. cbn [streamEntries fst snd]. destruct (Hx (enterScope ctx) Hc) as [idx ->]. cbn [skip fst].
  rewrite put_new. 2:{ intros Hin. apply NoDup_app in Hn as (_&Hd&_). apply (Hd k Hin). rewrite fmap_cons. set_solver. }
  rewrite IH; [by rewrite <- app_assoc|]. by rewrite fmap_app, <- app_assoc.
Qed.

Lemma document_walks v av : document (family prof) v av -> walks v av.
Proof.
  revert av. induction v as [i|i x|i serde tok|i s|i xs IH|i fs IH] using value_induction; intros av Hd ctx Hc;
    (destruct (document_casts b prof vs _ av variants arms Hd ctx) as (f&idx&Hcast); [by unfold fresh; rewrite Hc|]);
    cbn [coerceStreamAliasValue aliasCoerceValue]; rewrite Hcast; cbn [thenR]; inversion Hd; subst; try by eexists.
  - match goal with H : parseI64Rust _ = Some _ |- _ => apply int_token in H as Ht end.
    cbn [streamScalarArm]. rewrite Ht, andb_false_r. by eexists.
  - rewrite (items_walk _ avs); [by eexists|done|].
    match goal with H : Forall2 (document _) xs avs |- _ => rename H into Hdoc end. clear -IH Hdoc.
    induction Hdoc as [|x av xs avs Hx _ IHxs]; [constructor|]. apply Forall_cons in IH as [Hw IH]. constructor; auto.
  - rewrite (entries_walk _ es); [by eexists|done| |done].
    match goal with H : Forall2 _ fs es |- _ => rename H into Hdoc end. clear -IH Hdoc.
    induction Hdoc as [|x e fs es [Hk Hx] _ IHxs]; [constructor|]. apply Forall_cons in IH as [Hw IH]. constructor; auto.
Qed.
End Document.

(** ** Concrete partials *)

Definition cutText : string := "{" +:+ str1 dq +:+ "a" +:+ str1 dq +:+ ": [1, " +:+ str1 dq +:+ "x".
Definition shownText : string := "{" +:+ str1 dq +:+ "a" +:+ str1 dq +:+ ":[1," +:+ str1 dq +:+ "x" +:+ str1 dq +:+ "]}".

(** A cut text shows what it has; a number with a fraction is not shown inside a
    container and is an empty list at the root; a fence shows its tag. *)
Example partials :
  ParseAliasStreamPartial asciiTables jsonBundle cutText = inl (Some shownText)
  /\ ParseAliasStreamPartial asciiTables jsonBundle "[1, 2.5, 3]" = inl (Some "[1,3]")
  /\ ParseAliasStreamPartial asciiTables jsonBundle "2.5" = inl (Some "[]")
  /\ ParseAliasStreamPartial asciiTables jsonBundle (fence +:+ "jso") = inl (Some (quoteJSON true "jso"))
  /\ ParseAliasStreamPartial asciiTables jsonBundle "  " = inl None.
Proof. split_and!; vm_compute; reflexivity. Qed.

Lemma alias_partial_typed_witness :
  match ParseAliasStreamPartial asciiTables jsonBundle cutText with
  | inl (Some out) => exists v, hasType jsonBundle (Target jsonBundle) v /\ out = compact true v /\ strictDecode numModeLegacy out = Some (readBack v)
  | inl None => True
  | inr e => e <> OutOfFuel
  end.
Proof.
  apply (alias_partial_typed asciiTables jsonBundle jsonProfile cutText); [reflexivity|]. vm_compute. by eexists.
Defined.
