(* ===== verification/StaticRoutes.v ===== *)
(** * StaticRoutes: the native parses of a static output
    ([internal/debaml/parse_static.go], [static_normalizer.go],
    [static_stream_serve.go] and the end of [checked_static.go])

    The direct parse of a static bundle, the parse of the unary call route, which alone
    may claim the checked static family, and the partial and final parses of a static
    stream.  The gate walks and the coercer run on the fuel they are given; the
    normalizer recurses on the text. *)

From Stdlib Require Import Ascii String.
From S2P Require Import Prelude GoStrings GoValue Jsonish FixParse FixStream Extract GoFloat NumberText Unicode MatchString Schema PairGuard Candidate OutputText Gate LeafCoerce TryCast Coerce NumberValid CoerceTyping CoerceSound CoerceFuel AliasCoerce AliasSound AliasTyping AliasStream DynamicSchema CoerceStream ParseNumbers ParseDynamic CompleteFinal StreamServe ConstraintNumeric ConstraintGate ConstraintEval CheckedStatic.
Open Scope stdpp_scope.

(** ** The normalizer of absent optionals *)

(** [isNormJSONNull]. *)
Definition isNormJSONNull (data : string) : bool := TrimSpace data =s "null".

(** [json.Unmarshal] into a map of raw texts, for a text that is not null: the members
    in order, of which a lookup takes the last with its key. *)
Definition unmarshalObject (data : string) : option (list (string * string)) := staticCheckedSplit data.
Fixpoint rawMember (key : string) (obj : list (string * string)) : option string :=
  match obj with
  | [] => None
  | (k, raw) :: obj => match rawMember key obj with Some r => Some r | None => if k =s key then Some raw else None end
  end.

Section Normalize.
Variables (Dynamic : type -> bool) (b : Bundle) (prof : recProfile).

(** The fields of a class in schema order: the member, null for an absent edge, or
    nothing. *)
Section Fields.
Variable rec : string -> type -> option string.
Fixpoint normalizeFields (obj : list (string * string)) (fs : list ClassField) : option (list string) :=
  match fs with
  | [] => Some []
  | f :: fs =>
      let key := RenderedName (cf_Name f) in
      match rawMember key obj with
      | Some raw =>
          match rec raw (cf_Type f), normalizeFields obj fs with
          | Some out, Some ms => Some (memberText key out :: ms)
          | _, _ => None
          end
      | None =>
          match normalizeFields obj fs with
          | Some ms => Some (if isAdmittedRecursiveEdge Dynamic (cf_Type f) prof then memberText key "null" :: ms else ms)
          | None => None
          end
      end
  end.
End Fields.

(** [normalizeRecursiveFinal]; [None] is the end of the fuel. *)
Fixpoint normalizeRecursiveFinal (fuel : nat) (data : string) (t : type) : option string :=
  match fuel with
  | O => None
  | S n =>
      match t with
      | TypeClass _ name mode =>
          if isNormJSONNull data then Some data
          else
            match FindClass b name mode with
            | None => Some data
            | Some cd =>
                if negb (bool_decide ((name, mode) ∈ prof)) then Some data
                else
                  match unmarshalObject data with
                  | None => Some data
                  | Some obj => objectText <$> normalizeFields (normalizeRecursiveFinal n) obj (cd_Fields cd)
                  end
            end
      | TypeUnion _ u =>
          if isNormJSONNull data then Some data
          else if isAdmittedRecursiveEdge Dynamic t prof
          then match u with Some (v :: _, _) => normalizeRecursiveFinal n data v | _ => Some data end
          else Some data
      | _ => Some data
      end
  end.
End Normalize.

(** ** The routes *)

(** The stream profile of an alias bundle: the first family, without annotations. *)
Definition staticStreamAliasProfile (b : Bundle) : option recAliasProfile :=
  match admittedRecursiveAliasProfile b with
  | None => None
  | Some prof => match checkNoStreamAnnotations b with Some _ => None | None => Some prof end
  end.
Definition IsProvenRecursiveAliasStaticStreamFamily (b : Bundle) : bool := bool_decide (is_Some (staticStreamAliasProfile b)).

Section Routes.
Variable Dynamic : type -> bool.
Variable T : tables.
Variable renderOnce : ConstraintValue -> string -> mappingMode -> option string.
Variables (sonicString : string -> string) (sonicInt : Z -> string).
Variables gateFuel fuel : nat.

(** The gate of the final routes, with the constraint node of the family. *)
Definition finalGate (b : Bundle) : option CoerceErr :=
  SupportsNativeFinalBundle Dynamic T (staticCheckedAdmittedConstraintNode Dynamic) gateFuel b.

(** The ordinary static parse: candidate, coercion, normalizer. *)
Definition ordinaryParse (b : Bundle) (raw : string) : string + CoerceErr :=
  match coerceRaw Dynamic T fuel b raw with
  | inr e => inr e
  | inl out =>
      match admittedRecursiveClassProfile Dynamic b with
      | None => inl out
      | Some prof =>
          match normalizeRecursiveFinal Dynamic b prof (2 * String.length out + 2) out (Target b) with
          | Some out => inl out
          | None => inr OutOfFuel
          end
      end
  end.

(** The start of both routes: the bundle is valid and in the final profile. *)
Definition gated (b0 : Bundle) (k : Bundle -> string + staticErr) : string + staticErr :=
  match ValidateOutput b0 with
  | (_, Some _) => inr (StaticErr Unsupported)
  | (b, None) => match finalGate b with Some e => inr (StaticErr e) | None => k b end
  end.

(** [ParseStaticBundle]. *)
Definition ParseStaticBundle (b0 : Bundle) (raw : string) : string + staticErr :=
  gated b0 (fun b =>
    match staticCheckedParse Dynamic T renderOnce sonicString sonicInt fuel b raw false with
    | Some r => r
    | None => match ordinaryParse b raw with inl out => inl out | inr e => inr (StaticErr e) end
    end).

(** [ParseStaticBundleUnaryCall]. *)
Definition ParseStaticBundleUnaryCall (b0 : Bundle) (raw : string) : string + staticErr :=
  gated b0 (fun b =>
    match staticCheckedParse Dynamic T renderOnce sonicString sonicInt fuel b raw true with
    | Some r => r
    | None => ParseStaticBundle b raw
    end).

(** [SupportsNativeStaticStreamBundle]. *)
Definition SupportsNativeStaticStreamBundle (b : Bundle) : option CoerceErr :=
  match finalGate b with
  | Some e => Some e
  | None => match staticStreamAliasProfile b with Some _ => None | None => Some Unsupported end
  end.

(** [ParseStaticStreamPartial]. *)
Definition ParseStaticStreamPartial (b : Bundle) (accumulated : string) : string + CoerceErr :=
  match SupportsNativeStaticStreamBundle b with
  | Some e => inr e
  | None =>
      match ParseAliasStreamPartial T b accumulated with
      | inl (Some out) => inl out
      | inl None => inr Unsupported
      | inr e => inr e
      end
  end.

(** [ParseAliasStreamFinal] and [ParseStaticStreamFinal]. *)
Definition staticUnsupported (e : staticErr) : bool := match e with StaticErr e => isUnsupported e | AssertFailure _ => false end.
Definition ParseAliasStreamFinal (b : Bundle) (accumulated : string) : string + staticErr :=
  match ParseStaticBundle b accumulated with
  | inl out => inl out
  | inr e =>
      if staticUnsupported e then
        match completeUnclosedFinal accumulated with
        | (completed, true) =>
            match ParseStaticBundle b completed with inl out => inl out | inr _ => inr e end
        | (_, false) => inr e
        end
      else inr e
  end.
Definition ParseStaticStreamFinal (b : Bundle) (accumulated : string) : string + staticErr :=
  match SupportsNativeStaticStreamBundle b with
  | Some e => inr (StaticErr e)
  | None => ParseAliasStreamFinal b accumulated
  end.
End Routes.

(** ** The normalizer changes nothing *)

Lemma object_not_null r : isNormJSONNull (String "{" r) = false.
Proof.
  unfold isNormJSONNull, TrimSpace. apply String.eqb_neq. intros H.
  assert (TrimLeftSpace (String "{" r) = String "{" r) as E by (destruct r as [|? [|]]; reflexivity).
  rewrite E in H. unfold TrimRightSpace in H.
  destruct (dropPatterns_suffix isAsciiSpace (fun b a => isSpace2 a b) (fun c b a => isSpace3 a b c) (srev (String "{" r))) as [u Hu].
  apply (f_equal srev) in Hu. rewrite srev_sapp, srev_involutive, H in Hu. by simplify_eq/=.
Qed.

(** A class of the recursive family: a string and an optional class of the family. *)
Definition recClass (Dynamic : type -> bool) (prof : recProfile) (cls : ClassDef) : Prop :=
  exists f0 f1 m0 mu mv n e, cd_Fields cls = [f0; f1]
    /\ cf_Name f0 = mkName "value" None /\ cf_Type f0 = TypePrimitive m0 PrimitiveString
    /\ cf_Name f1 = mkName e None /\ (e = "next" \/ e = "a" \/ e = "b")
    /\ cf_Type f1 = TypeUnion mu (Some ([TypeClass mv n NonStreaming], true))
    /\ (n, NonStreaming) ∈ prof /\ isAdmittedRecursiveEdge Dynamic (cf_Type f1) prof = true.

Section Identity.
Variables (Dynamic : type -> bool) (b : Bundle) (prof : recProfile).
Hypothesis classes : forall name cls, (name, NonStreaming) ∈ prof -> FindClass b name NonStreaming = Some cls -> recClass Dynamic prof cls.

Lemma normalize_class n : forall v m name fuel, (vsize v <= n)%nat -> (name, NonStreaming) ∈ prof ->
  hasType b (TypeClass m name NonStreaming) v -> jsonNumbers v -> (2 * vsize v <= fuel)%nat ->
  normalizeRecursiveFinal Dynamic b prof fuel (compact false v) (TypeClass m name NonStreaming) = Some (compact false v).
Proof.
  induction n as [|n IH]; intros v m name fuel Hn Hin Hv Hj Hf; pose proof (vsize_pos v); [lia|].
  inversion Hv as [| | | | | | | | |? i ? ? cls kvs Hc Hall| | | | | | | |]; subst.
  destruct (classes _ _ Hin Hc) as (f0&f1&m0&mu&mv&nm&e&Hfs&Hn0&Ht0&Hn1&He&Ht1&Hnm&Hedge).
  rewrite Hfs in Hall. inversion Hall as [|? [k0 v0] ? l [Hk0 Hv0] Hall1]; subst. inversion Hall1 as [|? [k1 v1] ? l' [Hk1 Hv1] Hnil]; subst.
  inversion Hnil; subst. clear Hall Hall1 Hnil. simpl in Hk0, Hk1, Hv0, Hv1. rewrite Hn0 in Hk0. rewrite Hn1 in Hk1. simpl in Hk0, Hk1. subst k0 k1.
  rewrite Ht0 in Hv0. rewrite Ht1 in Hv1. inversion Hj as [| | | | |? ? Hnum]; subst.
  apply Forall_cons in Hnum as [_ Hnum]. apply Forall_cons in Hnum as [Hj1 _]. simpl in Hj1.
  destruct fuel as [|[|fuel]]; [simpl in Hf; lia..|]. cbn [vsize fmap list_fmap list_sum foldr snd] in Hn, Hf. pose proof (vsize_pos v0).
  assert (normalizeRecursiveFinal Dynamic b prof (S fuel) (compact false v1) (cf_Type f1) = Some (compact false v1)) as Hnext.
  { rewrite Ht1. cbn [normalizeRecursiveFinal]. rewrite <- Ht1, Hedge. destruct (isNormJSONNull (compact false v1)) eqn:En; [done|].
    inversion Hv1; subst; [|done]. match goal with H : _ ∈ [_] |- _ => apply list_elem_of_singleton in H; subst end.
    by apply IH; [lia|..|lia]. }
  assert (exists r, compact false (valObject i [("value", v0); (e, v1)]) = String "{" r) as [r Hr] by by eexists.
  assert (normalizeRecursiveFinal Dynamic b prof (S fuel) (compact false v0) (cf_Type f0) = Some (compact false v0)) as Htext by by rewrite Ht0.
  revert Hnext Htext. generalize (S fuel) as k. intros k Hnext Htext.
  cbn [normalizeRecursiveFinal]. rewrite Hr at 1. rewrite object_not_null, Hc, bool_decide_true by done. cbn [negb]. clear r Hr.
  unfold unmarshalObject. rewrite split_compact by done. rewrite Hfs. cbn [normalizeFields]. unfold RenderedName.
  rewrite Hn0, Hn1. cbn [nm_Name nm_Alias from_option id].
  assert (rawMember "value" (memberTexts [("value", v0); (e, v1)]) = Some (compact false v0)) as -> by (destruct He as [->|[->| ->]]; reflexivity).
  assert (rawMember e (memberTexts [("value", v0); (e, v1)]) = Some (compact false v1)) as -> by (destruct He as [->|[->| ->]]; reflexivity).
  rewrite Hnext, Htext. reflexivity.
Qed.
End Identity.

(** ** What the fingerprint of the recursive family fixes *)

Lemma found_in b name mode cls : FindClass b name mode = Some cls -> cls ∈ Classes b.
Proof. apply (findKey_in b (name, mode)). Qed.

Lemma plainField_name f name : plainField f name = true -> cf_Name f = mkName name None.
Proof.
  unfold plainField, noAlias. intros [[Hn Ha]%andb_true_iff _]%andb_true_iff. reflect_eqb. apply bool_decide_eq_true in Ha. destruct (cf_Name f) as [x al]. simpl in *. by subst.
Qed.

Lemma exactClass_facts Dynamic prof cd name edge tgt : edge = "next" \/ edge = "a" \/ edge = "b" -> (tgt, NonStreaming) ∈ prof ->
  isExactMutualClass Dynamic cd name edge tgt = true -> recClass Dynamic prof cd /\ nm_Name (cd_Name cd) = name.
Proof.
  intros He Hin. unfold isExactMutualClass, isExactRecursiveClassHeader. intros [Hh Hfs]%andb_true_iff.
  repeat (apply andb_true_iff in Hh as [Hh ?]). reflect_eqb. split; [|done].
  destruct (cd_Fields cd) as [|f0 [|f1 [|]]] eqn:Ef; try done. apply andb_true_iff in Hfs as [Hv Hu].
  unfold isExactValueField in Hv. apply andb_true_iff in Hv as [Hn0%plainField_name Ht0].
  destruct (cf_Type f0) as [|m0 [] | | | | | | | | | |] eqn:Et0; try done.
  unfold isExactNullableClassEdge in Hu. apply andb_true_iff in Hu as [Hn1%plainField_name Ht1].
  destruct (cf_Type f1) as [| | | | | | | | | |mu [[[|[| | | |mv n mode| | | | | | |] [|]] []]|]|] eqn:Et1; try done.
  repeat (apply andb_true_iff in Ht1 as [Ht1 ?]). reflect_eqb. subst.
  exists f0, f1, m0, mu, mv, tgt, edge. rewrite Et1. split_and!; try done.
  cbn [isAdmittedRecursiveEdge]. rewrite bool_decide_true by done. unfold MetaIsZero in *.
  by repeat match goal with H : _ = true |- _ => rewrite H | H : Dynamic _ = false |- _ => rewrite H end.
Qed.

Record recFamily (Dynamic : type -> bool) (b : Bundle) (prof : recProfile) : Prop := {
  rf_target : exists m name, Target b = TypeClass m name NonStreaming /\ (name, NonStreaming) ∈ prof;
  rf_aliases : StructuralRecursiveAliases b = [];
  rf_classes : forall cls, cls ∈ Classes b -> recClass Dynamic prof cls
}.

Lemma two_classes {A} (x y a c : A) : a ∈ [x; y] -> c ∈ [x; y] -> a <> c -> forall z, z ∈ [x; y] -> z = a \/ z = c.
Proof. set_solver. Qed.

Lemma recProfile_family Dynamic b prof : admittedRecursiveClassProfile Dynamic b = Some prof -> recFamily Dynamic b prof.
Proof.
  unfold admittedRecursiveClassProfile. destruct (bool_decide (length (RecursiveClasses b) = 0%nat)); [done|].
  destruct (bool_decide (length (StructuralRecursiveAliases b) = 0%nat)) eqn:Ea; [|done]. simpl.
  apply bool_decide_eq_true, length_zero_iff_nil in Ea. destruct (negb (bool_decide (length (Enums b) = 0%nat))); [done|].
  destruct (Target b) as [| | | |m name mode| | | | | | |] eqn:Et; try done.
  destruct (mode =s NonStreaming) eqn:Em; [|done]. reflect_eqb. subst mode. cbn [negb orb].
  destruct (Dynamic _ || negb (MetaIsZero m)); [done|].
  destruct (Classes b) as [|c1 [|c2 [|]]] eqn:Ec; try done.
  - destruct (_ && _ && _) eqn:E; [|done]. intros [= <-]. apply andb_true_iff in E as [[E En]%andb_true_iff _]. reflect_eqb. subst name.
    unfold isExactSelfRecursiveClass in E. assert ((recNodeClass, NonStreaming) ∈ [(recNodeClass, NonStreaming)]) as Hin by set_solver.
    destruct (exactClass_facts _ _ _ _ _ _ (or_introl eq_refl) Hin E) as [Hc _].
    split; [by exists m, recNodeClass|done|]. intros cls. rewrite Ec. by intros ->%list_elem_of_singleton.
  - destruct (FindClass b recAClass NonStreaming) as [ca|] eqn:Fa; [|done]. destruct (FindClass b recBClass NonStreaming) as [cb|] eqn:Fb; [|done].
    destruct (_ && _ && _ && _) eqn:E; [|done]. intros [= <-].
    apply andb_true_iff in E as [[[En _]%andb_true_iff Ea']%andb_true_iff Eb'].
    set (prof := [(recAClass, NonStreaming); (recBClass, NonStreaming)]).
    assert ((recAClass, NonStreaming) ∈ prof /\ (recBClass, NonStreaming) ∈ prof) as [HA HB] by (unfold prof; set_solver).
    destruct (exactClass_facts _ prof _ _ _ _ (or_intror (or_intror eq_refl)) HB Ea') as [Ha Hna].
    destruct (exactClass_facts _ prof _ _ _ _ (or_intror (or_introl eq_refl)) HA Eb') as [Hb Hnb].
    split; [|done|].
    + exists m, name. split; [done|]. apply orb_true_iff in En as [En|En]; reflect_eqb; by subst name.
    + apply found_in in Fa, Fb. rewrite Ec in Fa, Fb |- *. intros cls Hcls.
      destruct (two_classes _ _ _ _ Fa Fb ltac:(intros ->; by rewrite Hna in Hnb) cls Hcls) as [->| ->]; done.
Qed.

Lemma recFamily_collapsed Dynamic b prof : recFamily Dynamic b prof -> collapsedBundle b /\ collapsed (Target b) = true.
Proof.
  intros [(m&name&->&_) _ Hc]. split; [|done]. intros nm mode cls f Hf%found_in Hin.
  destruct (Hc cls Hf) as (f0&f1&m0&mu&mv&n&e&Hfs&_&Ht0&_&_&Ht1&_). rewrite Hfs, !elem_of_cons in Hin.
  destruct Hin as [->|[->|Hin]]; [by rewrite Ht0|by rewrite Ht1|by inversion Hin].
Qed.

(** ** What the candidate and its coercion give *)

Lemma legacy_numbers b : admittedServedRecursiveAliasProfile b = None -> bundleNumMode b = numModeLegacy.
Proof.
  unfold admittedServedRecursiveAliasProfile, bundleNumMode. by destruct (admittedRecursiveAliasProfile b), (admittedJsonValueRecursiveAliasProfile b).
Qed.

Lemma coerceRaw_text Dynamic T fuel b raw out : admittedServedRecursiveAliasProfile b = None ->
  collapsedBundle b -> collapsed (Target b) = true -> coerceRaw Dynamic T fuel b raw = inl out -> textOf b (Target b) out.
Proof.
  intros Hn Hb Ht. unfold coerceRaw. rewrite (legacy_numbers b Hn). destruct (extractCandidate _ _) as [v|] eqn:Ev; [|done].
  apply extractCandidate_numbers in Ev. destruct (coerce _ _ _ _ _ _ _) as [g r] eqn:Ec. cbn [snd]. intros ->.
  exact (coerce_sound _ b Hb fuel (Target b) v emptyCtx Ht Ev _ _ _ Ec).
Qed.

Lemma coerceRaw_alias Dynamic T fuel b prof raw out : admittedServedRecursiveAliasProfile b = Some prof ->
  coerceRaw Dynamic T fuel b raw = inl out ->
  exists v, hasType b (Target b) v /\ out = compact true v /\ strictDecode numModeLegacy out = Some (readBack v).
Proof.
  intros Hp. unfold coerceRaw. destruct (extractCandidate _ _) as [v|]; [|done].
  assert (exists m n mode, Target b = TypeRecursiveAlias m n mode) as (m&n&mode&Ht).
  { unfold admittedServedRecursiveAliasProfile, admittedRecursiveAliasProfile, admittedJsonValueRecursiveAliasProfile in Hp.
    destruct (aliasBundleShapeOK b); [|done]. cbn in Hp. unfold isBareAliasRef in Hp. destruct (Target b); try done. by do 3 eexists. }
  destruct fuel as [|n']; [done|]. rewrite Ht at 1. cbn [coerce coerceStep engineOf en_alias]. intros H.
  destruct (alias_typed T b prof v emptyCtx (newFlags false) Hp) as [_ Ha]. by rewrite H in Ha.
Qed.

(** No alias and no union: nothing to collapse. *)
Lemma plain_collapsed b t : StructuralRecursiveAliases b = [] -> validateType b t = None -> typeHasUnion t = false -> collapsed t = true.
Proof.
  intros Ha. induction t as [| | | | |m e IH|m k v IHk IHv|m n mode|m ts IH|m a IH|m u IH|] using type_induction; try done; intros Hv Hu.
  - destruct e as [e|]; [|done]. by apply IH, (typeAny_elem _ m).
  - destruct k as [k|], v as [v|]; try done. cbn [validateType] in Hv. destruct (isValidMapKey k); [|done].
    apply thenErr_none in Hv as [_ Hv]. apply IHv; [done|]. unfold typeHasUnion in *. cbn [typeAny] in Hu.
    by apply orb_false_iff in Hu as [_ [_ ?]%orb_false_iff].
  - cbn [validateType] in Hv. apply thenErr_none in Hv as [_ Hv]. unfold FindRecursiveAlias in Hv. rewrite Ha in Hv.
    destruct (aliasByName b !! n); simpl in Hv; by rewrite ?lookup_nil in Hv.
Qed.

Lemma finalGate_collapsed Dynamic T gateFuel b0 b : ValidateOutput b0 = (b, None) -> finalGate Dynamic T gateFuel b = None ->
  admittedServedRecursiveAliasProfile b = None -> collapsedBundle b /\ collapsed (Target b) = true.
Proof.
  intros Hv Hg Hn. unfold finalGate, SupportsNativeFinalBundle, IsProvenServedRecursiveAliasStaticFamily in Hg. rewrite Hn in Hg.
  rewrite bool_decide_false in Hg by (by intros []).
  destruct (admittedRecursiveClassProfile Dynamic b) as [prof|] eqn:Ep; [by eapply recFamily_collapsed, recProfile_family|].
  apply thenErr_none in Hg as [Hs Hr]. unfold checkSupported in Hs.
  destruct (bool_decide (length (StructuralRecursiveAliases b) = 0%nat)) eqn:Ea; [|done].
  apply bool_decide_eq_true, length_zero_iff_nil in Ea.
  unfold checkStreamRootSupported in Hr. destruct (existsb id _) eqn:E; [done|]. cbn [streamTests existsb id] in E.
  rewrite !orb_false_iff in E. destruct E as (_&_&_&_&_&_&Hu&_). destruct (validated_roots _ _ Hv) as [Hty _]. split.
  - intros name mode cls f Hc Hf. apply (plain_collapsed b); [done|by apply (rootTypes_field b _ (name, mode) cls f Hty)|].
    by apply (typeGraphHas_field b _ (name, mode) cls f).
  - apply (plain_collapsed b); [done|by destruct Hty as [? _]|]. unfold typeGraphHas in Hu. by apply orb_false_iff in Hu as [? _].
Qed.

Lemma recFamily_no_alias Dynamic b prof : recFamily Dynamic b prof -> admittedServedRecursiveAliasProfile b = None.
Proof.
  intros [_ Ha _]. unfold admittedServedRecursiveAliasProfile, admittedRecursiveAliasProfile, admittedJsonValueRecursiveAliasProfile, aliasBundleShapeOK.
  by rewrite Ha.
Qed.

Lemma normalize_identity Dynamic T fuel b prof raw out : recFamily Dynamic b prof -> coerceRaw Dynamic T fuel b raw = inl out ->
  normalizeRecursiveFinal Dynamic b prof (2 * String.length out + 2) out (Target b) = Some out.
Proof.
  intros Hf Hc. destruct (recFamily_collapsed _ _ _ Hf) as [Hb Ht].
  destruct (coerceRaw_text _ _ _ _ _ _ (recFamily_no_alias _ _ _ Hf) Hb Ht Hc) as (v&Hv&Hj&<-).
  destruct (rf_target _ _ _ Hf) as (m&name&Hm&Hin). rewrite Hm in *. pose proof (vsize_compact false v Hj).
  apply (normalize_class Dynamic b prof) with (n := vsize v); [|lia|done|done|done|lia].
  intros name' cls _ Hc'. apply (rf_classes _ _ _ Hf). by eapply found_in.
Qed.

Lemma ordinary_coerces Dynamic T fuel b raw : ordinaryParse Dynamic T fuel b raw = coerceRaw Dynamic T fuel b raw.
Proof.
  unfold ordinaryParse. destruct (coerceRaw Dynamic T fuel b raw) as [out|e] eqn:E; [|done].
  destruct (admittedRecursiveClassProfile Dynamic b) as [prof|] eqn:Ep; [|done].
  by rewrite (normalize_identity Dynamic T fuel b prof raw out (recProfile_family _ _ _ Ep) E).
Qed.

(** C23. The normalizer of absent optionals is the identity where it is used: for every
    bundle and every text the ordinary static parse returns what the coercion
    returned, byte for byte, with its error; on the recursive families too, because
    the coercer already emits every field of a class, an absent optional as null. *)
Theorem normalizer_identity Dynamic T fuel b raw : ordinaryParse Dynamic T fuel b raw = coerceRaw Dynamic T fuel b raw.
Proof. apply ordinary_coerces. Qed.

(** ** Answers *)

Section Answers.
Variables (Dynamic : type -> bool) (T : tables) (renderOnce : ConstraintValue -> string -> mappingMode -> option string).
Variables (sonicString : string -> string) (sonicInt : Z -> string) (gateFuel fuel : nat).
Local Abbreviation direct := (ParseStaticBundle Dynamic T renderOnce sonicString sonicInt gateFuel fuel).
Local Abbreviation unary := (ParseStaticBundleUnaryCall Dynamic T renderOnce sonicString sonicInt gateFuel fuel).

Lemma gated_ok b0 k out : gated Dynamic T gateFuel b0 k = inl out ->
  exists b, ValidateOutput b0 = (b, None) /\ finalGate Dynamic T gateFuel b = None /\ k b = inl out.
Proof.
  unfold gated. destruct (ValidateOutput b0) as [b [e|]] eqn:Ev; [done|]. destruct (finalGate Dynamic T gateFuel b) eqn:Eg; [done|].
  intros H. by exists b.
Qed.

(** The direct parse answers with the coercion of a bundle outside the checked family. *)
Lemma direct_ok b0 raw out : direct b0 raw = inl out ->
  exists b, ValidateOutput b0 = (b, None) /\ finalGate Dynamic T gateFuel b = None
    /\ staticCheckedProfileOf Dynamic b = None /\ coerceRaw Dynamic T fuel b raw = inl out.
Proof.
  intros (b&Hv&Hg&Hk)%gated_ok. exists b. split_and!; [done|done|..]; unfold staticCheckedParse in Hk;
    destruct (staticCheckedProfileOf Dynamic b); try done.
  rewrite ordinary_coerces in Hk. destruct (coerceRaw Dynamic T fuel b raw); [by injection Hk as ->|done].
Qed.

(** The compact text of a value of the target of the validated bundle. *)
Definition answers (b0 : Bundle) (out : string) : Prop :=
  exists b v html, ValidateOutput b0 = (b, None) /\ hasType b (Target b) v /\ out = compact html v
    /\ strictDecode numModeLegacy out = Some (readBack v).

Lemma direct_typed b0 raw out : direct b0 raw = inl out -> answers b0 out.
Proof.
  intros (b&Hv&Hg&_&Hc)%direct_ok. destruct (admittedServedRecursiveAliasProfile b) as [prof|] eqn:Ep.
  - destruct (coerceRaw_alias _ _ _ _ _ _ _ Ep Hc) as (v&Ht&Hout&Hd). by exists b, v, true.
  - destruct (finalGate_collapsed _ _ _ _ _ Hv Hg Ep) as [Hb Ht].
    destruct (coerceRaw_text _ _ _ _ _ _ Ep Hb Ht Hc) as (v&Hv'&Hj&<-). exists b, v, false. split_and!; [done|done|done|].
    by apply strictDecode_compact.
Qed.

Lemma aliasFinal_typed b0 raw out :
  ParseAliasStreamFinal Dynamic T renderOnce sonicString sonicInt gateFuel fuel b0 raw = inl out -> answers b0 out.
Proof.
  unfold ParseAliasStreamFinal. destruct (direct b0 raw) as [o|e] eqn:E; [intros [= <-]; by eapply direct_typed|].
  destruct (staticUnsupported e); [|done]. destruct (completeUnclosedFinal raw) as [completed []]; [|done].
  destruct (direct b0 completed) as [o|] eqn:E2; [|done]. intros [= <-]. by eapply direct_typed.
Qed.

(** C21. Every answer of the direct static parse and of the final parse of a static
    stream is the compact text of a value of the target type, for every bundle, with
    no assumption but that the route answered: the gate leaves only schemas on which
    the coercer is sound, and the strict decoder reads the value back. *)
Theorem static_parse_typed b0 raw out :
  direct b0 raw = inl out
  \/ ParseStaticStreamFinal Dynamic T renderOnce sonicString sonicInt gateFuel fuel b0 raw = inl out ->
  exists b v html, ValidateOutput b0 = (b, None) /\ hasType b (Target b) v /\ out = compact html v
    /\ strictDecode numModeLegacy out = Some (readBack v).
Proof.
  intros [H|H]; [by apply (direct_typed b0 raw)|]. unfold ParseStaticStreamFinal in H. destruct (SupportsNativeStaticStreamBundle _ _ _ _); [done|].
  by apply (aliasFinal_typed b0 raw).
Qed.
End Answers.

(** ** Constraints *)

(** No node of the type carries a constraint. *)
Definition free (t : type) : Prop := typeAny constrained t = false.

Record unconstrained (b : Bundle) : Prop := {
  uc_target : free (Target b);
  uc_fields : forall cls f, cls ∈ Classes b -> f ∈ cd_Fields cls -> free (cf_Type f);
  uc_aliases : forall def, def ∈ StructuralRecursiveAliases b -> free (ra_Target def);
  uc_classes : forall cls, cls ∈ Classes b -> cd_Constraints cls = [];
  uc_enums : forall e, e ∈ Enums b -> ed_Constraints e = []
}.

Lemma noConstraints_free admitted t : (forall t, admitted t = false) -> checkTypeNoConstraints admitted t = None -> free t.
Proof.
  intros Had. unfold free. induction t as [| | | | |m e IH|m k v IHk IHv| |m ts IH|m a IH|m u IH|] using type_induction;
    cbn [checkTypeNoConstraints typeAny]; rewrite Had, andb_true_r; destruct (constrained _); try done; cbn [orb].
  - destruct e as [e|]; [exact IH|done].
  - intros [Hk Hv]%thenErr_none. apply orb_false_iff. split; [destruct k; auto|destruct v; auto].
  - intros H%firstErr_none. apply existsb_false_forall. rewrite Forall_forall in *. intros x Hx. by apply IH, H.
  - destruct u as [[vs n]|]; [|done]. intros H%firstErr_none. apply existsb_false_forall. simpl in IH. rewrite Forall_forall in *.
    intros x Hx. by apply IH, H.
Qed.

Lemma fields_unconstrained admitted b n : StructuralRecursiveAliases b = [] -> (forall t, admitted t = false) ->
  checkSupportedFields admitted b n = None -> unconstrained b.
Proof.
  intros Ha Had. unfold checkSupportedFields. rewrite !thenErr_none, !firstErr_none, !Forall_forall. intros (Ht&He&Hc). split.
  - by eapply noConstraints_free.
  - intros cls f Hcls Hf. specialize (Hc cls Hcls). simpl in Hc. destruct (bool_decide _); [|done].
    rewrite firstErr_none, Forall_forall in Hc. specialize (Hc f Hf). simpl in Hc. destruct n as [|n]; [done|].
    cbn [checkSupportedType] in Hc. apply thenErr_none in Hc as [Hc _]. by eapply noConstraints_free.
  - rewrite Ha. by intros def []%not_elem_of_nil.
  - intros cls Hcls. specialize (Hc cls Hcls). simpl in Hc. by destruct (bool_decide (cd_Constraints cls = [])) eqn:E; [apply bool_decide_eq_true in E|].
  - intros e Hen. specialize (He e Hen). simpl in He. by destruct (bool_decide (ed_Constraints e = [])) eqn:E; [apply bool_decide_eq_true in E|].
Qed.

(** Bare types carry no constraint. *)
Lemma zero_free t : MetaIsZero (Meta t) = true -> constrained t = false.
Proof. unfold MetaIsZero, constrained. intros [->%bool_decide_eq_true _]%andb_true_iff. done. Qed.
Lemma bareRef_free t name : isBareAliasRef t name = true -> free t.
Proof.
  destruct t; try done. intros [_ Hm]%andb_true_iff. unfold free. cbn [typeAny]. by rewrite zero_free.
Qed.
Lemma barePrimitive_free t k : isBarePrimitive t k = true -> free t.
Proof. destruct t as [|m p| | | | | | | | | |]; try done. intros H. unfold free. cbn [typeAny]. rewrite zero_free; [done|]. by destruct p, k. Qed.
Lemma bareList_free t name : isBareList t name = true -> free t.
Proof.
  destruct t as [| | | | |m [e|]| | | | | |]; try done. intros [Hm He%bareRef_free]%andb_true_iff. unfold free. cbn [typeAny].
  by rewrite zero_free, He.
Qed.
Lemma bareMap_free t name : isBareMap t name = true -> free t.
Proof.
  destruct t as [| | | | | |m [k|] [v|]| | | | |]; try done.
  intros [[Hm Hk%barePrimitive_free]%andb_true_iff Hv%bareRef_free]%andb_true_iff. unfold free. cbn [typeAny].
  by rewrite zero_free, Hk, Hv.
Qed.

Lemma union_free m vs n : MetaIsZero m = true -> Forall free vs -> free (TypeUnion m (Some (vs, n))).
Proof. intros Hm Hv. unfold free. cbn [typeAny]. rewrite zero_free by done. by apply existsb_false_forall. Qed.

Lemma alias_unconstrained b prof : admittedServedRecursiveAliasProfile b = Some prof -> unconstrained b.
Proof.
  unfold admittedServedRecursiveAliasProfile, admittedRecursiveAliasProfile, admittedJsonValueRecursiveAliasProfile, aliasBundleShapeOK.
  destruct (StructuralRecursiveAliases b) as [|def [|]] eqn:Ea, (Classes b) eqn:Ec, (Enums b) eqn:Ee, (RecursiveClasses b); try done.
  cbn [mbind option_bind]. intros H.
  assert (free (Target b) /\ free (ra_Target def)) as [Ht Hd].
  { destruct (isBareAliasRef (Target b) recAliasJSONName && _ && _) eqn:E1;
      [|destruct (isBareAliasRef (Target b) recAliasJsonValueName && _ && _) eqn:E2; [|done]].
    - apply andb_true_iff in E1 as [[Ht%bareRef_free _]%andb_true_iff Hx]. split; [done|]. unfold isExactJSONAliasTarget in Hx.
      destruct (ra_Target def) as [| | | | | | | | | |m [[[|v0 [|v1 [|v2 [|v3 [|v4 [|]]]]]] []]|]|]; try done.
      rewrite !andb_true_iff in Hx. destruct Hx as [[[[[Hm H0] H1] H2] H3] H4]. apply union_free; [done|].
      repeat (apply Forall_cons; split); eauto using barePrimitive_free, bareList_free, bareMap_free.
    - apply andb_true_iff in E2 as [[Ht%bareRef_free _]%andb_true_iff Hx]. split; [done|]. unfold isExactJsonValueAliasTarget in Hx.
      destruct (ra_Target def) as [| | | | | | | | | |m [[[|v0 [|v1 [|v2 [|v3 [|v4 [|v5 [|]]]]]]] []]|]|]; try done.
      rewrite !andb_true_iff in Hx. destruct Hx as [[[[[[Hm H0] H1] H2] H3] H4] H5]. apply union_free; [done|].
      repeat (apply Forall_cons; split); eauto using barePrimitive_free, bareList_free, bareMap_free. }
  split; [done|..]; rewrite ?Ea, ?Ec, ?Ee; try (by intros ? []%not_elem_of_nil); try (by intros ? ? []%not_elem_of_nil).
  by intros d ->%list_elem_of_singleton.
Qed.

Lemma gate_unconstrained Dynamic T gateFuel b : finalGate Dynamic T gateFuel b = None -> staticCheckedProfileOf Dynamic b = None -> unconstrained b.
Proof.
  intros Hg Hp. assert (forall t, staticCheckedAdmittedConstraintNode Dynamic b t = false) as Had.
  { intros t. unfold staticCheckedAdmittedConstraintNode, staticCheckedAdmittedFamily. by rewrite Hp. }
  unfold finalGate, SupportsNativeFinalBundle, IsProvenServedRecursiveAliasStaticFamily in Hg.
  destruct (admittedServedRecursiveAliasProfile b) as [p|] eqn:Ea; [by eapply alias_unconstrained|].
  rewrite bool_decide_false in Hg by (by intros []).
  destruct (admittedRecursiveClassProfile Dynamic b) as [prof|]; apply thenErr_none in Hg as [Hg _].
  - unfold checkSupportedRecursive in Hg. destruct (bool_decide _) eqn:El; [|done]. apply bool_decide_eq_true, length_zero_iff_nil in El.
    cbn [negb] in Hg. by eapply fields_unconstrained.
  - unfold checkSupported in Hg. destruct (bool_decide (length (StructuralRecursiveAliases b) = _)) eqn:El; [|done].
    apply bool_decide_eq_true, length_zero_iff_nil in El. destruct (bool_decide (length (RecursiveClasses b) = _)); [|done]. cbn [negb] in Hg. by eapply fields_unconstrained.
Qed.

(** A route claimed the text: an answer, or a failed assertion. *)
Definition claimed {A E} (asserts : E -> bool) (r : A + E) : Prop := match r with inl _ => True | inr e => asserts e = true end.
Definition isAssert (e : staticErr) : bool := match e with AssertFailure _ => true | StaticErr _ => false end.

(** C19. Constraints are never ignored.  When a static route claims a text (it answers,
    or reports a failed assertion), the bundle has no constraint on any type, class or
    enum; or the route is the unary call, the bundle has the fingerprint of the checked
    family, and the result is the one of the mapper that evaluates the constraint. *)
Theorem constraints_never_ignored Dynamic T renderOnce sonicString sonicInt gateFuel fuel b0 b raw :
  ValidateOutput b0 = (b, None) ->
  (claimed isAssert (ParseStaticBundle Dynamic T renderOnce sonicString sonicInt gateFuel fuel b0 raw) -> unconstrained b)
  /\ (claimed isAssert (ParseStaticBundleUnaryCall Dynamic T renderOnce sonicString sonicInt gateFuel fuel b0 raw) ->
      unconstrained b
      \/ exists prof, staticCheckedProfileOf Dynamic b = Some prof
         /\ ParseStaticBundleUnaryCall Dynamic T renderOnce sonicString sonicInt gateFuel fuel b0 raw
            = staticCheckedMap Dynamic T renderOnce sonicString sonicInt fuel b prof raw)
  /\ (claimed (fun _ => false) (ParseStaticStreamPartial Dynamic T gateFuel b raw) -> unconstrained b)
  /\ (claimed isAssert (ParseStaticStreamFinal Dynamic T renderOnce sonicString sonicInt gateFuel fuel b raw) -> unconstrained b).
Proof.
  intros Hv. assert (SupportsNativeStaticStreamBundle Dynamic T gateFuel b = None -> unconstrained b) as Hs.
  { unfold SupportsNativeStaticStreamBundle, staticStreamAliasProfile. destruct (finalGate Dynamic T gateFuel b); [done|].
    destruct (admittedRecursiveAliasProfile b) as [prof|] eqn:Ep; [|done]. intros _. apply (alias_unconstrained b prof).
    unfold admittedServedRecursiveAliasProfile. by rewrite Ep. }
  split_and!.
  - unfold ParseStaticBundle, gated, staticCheckedParse. rewrite Hv. destruct (finalGate Dynamic T gateFuel b) eqn:Eg; [done|].
    destruct (staticCheckedProfileOf Dynamic b) eqn:Ep; [done|]. intros _. by eapply gate_unconstrained.
  - unfold ParseStaticBundleUnaryCall, gated, staticCheckedParse. rewrite Hv. destruct (finalGate Dynamic T gateFuel b) eqn:Eg; [done|].
    destruct (staticCheckedProfileOf Dynamic b) as [prof|] eqn:Ep; intros _; [right; by exists prof|left; by eapply gate_unconstrained].
  - unfold ParseStaticStreamPartial. destruct (SupportsNativeStaticStreamBundle Dynamic T gateFuel b) eqn:Es; [done|auto].
  - unfold ParseStaticStreamFinal. destruct (SupportsNativeStaticStreamBundle Dynamic T gateFuel b) eqn:Es; [done|auto].
Qed.

(** ** The last partial and the final of a static stream *)

Lemma document_finite v av : document aliasFamilyJSON v av -> aliasHasNegativeZero av = false.
Proof.
  revert av. induction v as [i|i x|i serde tok|i s|i xs IH|i fs IH] using value_induction; intros av Hd; inversion Hd; subst; try done; cbn [aliasHasNegativeZero];
    apply existsb_false_forall, Forall_forall.
  - intros a Ha. apply list_elem_of_lookup in Ha as [k Hk].
    match goal with H : Forall2 _ xs _ |- _ => destruct (Forall2_lookup_r _ _ _ _ _ H Hk) as (x&Hx&Hxd) end.
    rewrite Forall_forall in IH. by apply (IH x); [eapply list_elem_of_lookup_2|].
  - intros e He. apply list_elem_of_lookup in He as [k Hk].
    match goal with H : Forall2 _ fs _ |- _ => destruct (Forall2_lookup_r _ _ _ _ _ H Hk) as (x&Hx&_&Hxd) end.
    rewrite Forall_forall in IH. by apply (IH x); [eapply list_elem_of_lookup_2|].
Qed.

Lemma bracket_solid s : sall (fun c => negb (ContainsByte c "{[")) s = false -> exists c r, skipWS s = String c r.
Proof.
  induction s as [|c s IH]; [done|]. cbn [sall skipWS]. destruct (isWS c) eqn:E; [|by exists c, s].
  intros H. apply IH. apply andb_false_iff in H as [H|H]; [|done]. destruct c as [[] [] [] [] [] [] [] []]; first [discriminate E|discriminate H].
Qed.

Lemma streamProfile_facts b prof : staticStreamAliasProfile b = Some prof ->
  admittedServedRecursiveAliasProfile b = Some prof /\ AliasCoerce.family prof = aliasFamilyJSON
  /\ bundleNumMode b = numModeLegacy /\ (exists m, Target b = TypeRecursiveAlias m recAliasJSONName NonStreaming)
  /\ forall Dynamic, staticCheckedProfileOf Dynamic b = None.
Proof.
  unfold staticStreamAliasProfile, admittedServedRecursiveAliasProfile, bundleNumMode.
  destruct (admittedRecursiveAliasProfile b) as [p|] eqn:E; [|done]. destruct (checkNoStreamAnnotations b); [done|]. intros [= ->].
  unfold admittedRecursiveAliasProfile in E. destruct (aliasBundleShapeOK b) as [def|] eqn:Es; [|done]. cbn in E.
  destruct (isBareAliasRef (Target b) recAliasJSONName && _ && _) eqn:E1; [|done]. injection E as <-.
  apply andb_true_iff in E1 as [[[m Ht]%bareAlias_inv _]%andb_true_iff _].
  split_and!; [done|done| |by exists m|].
  - unfold admittedJsonValueRecursiveAliasProfile. by rewrite Es, Ht.
  - intros Dynamic. unfold staticCheckedProfileOf. rewrite Ht. unfold aliasBundleShapeOK in Es.
    destruct (StructuralRecursiveAliases b), (Classes b), (Enums b), (RecursiveClasses b); done.
Qed.

(** C22. On a finished plain document the last partial of a static stream is its final
    value.  Take a bundle of the stream family and a text that without its JSON comments
    is plain (ASCII, no backslash, no white space but the four JSON bytes), has an
    opening bracket and no fence left open, and whose candidate is a document of the
    alias (integers, strings, booleans, arrays and objects without repeated keys).  Then
    the partial route, the direct parse and the final route of the stream all answer,
    with the same bytes. *)
Theorem static_stream_agrees Dynamic T renderOnce sonicString sonicInt gateFuel fuel b prof raw v av :
  ValidateOutput b = (b, None) -> staticStreamAliasProfile b = Some prof -> is_Some (FindRecursiveAlias b (aliasName prof)) ->
  sall FixStream.plain (stripJSONComments raw) = true ->
  extractFenceContentStream (stripJSONComments raw) = extractFenceContent (stripJSONComments raw) ->
  sall (fun c => negb (ContainsByte c "{[")) (stripJSONComments raw) = false ->
  extractCandidate numModeLegacy (stripJSONComments raw) = Some v -> document aliasFamilyJSON v av ->
  exists out, marshalPublic av = Some out
    /\ ParseStaticStreamPartial Dynamic T gateFuel b raw = inl out
    /\ ParseStaticBundle Dynamic T renderOnce sonicString sonicInt gateFuel (S fuel) b raw = inl out
    /\ ParseStaticStreamFinal Dynamic T renderOnce sonicString sonicInt gateFuel (S fuel) b raw = inl out.
Proof.
  intros Hval Hp Hfound Hplain Hfence Hbr Hx Hdoc. destruct (streamProfile_facts b prof Hp) as (Ha&Hfam&Hnm&(m&Ht)&Hck).
  destruct (admitted_variants b prof Ha Hfound) as [vs Hvs]. destruct (admitted_arms b prof vs Ha Hvs) as (Harms&m'&def&Hf&Htd&_).
  rewrite <- Hfam in Hdoc. pose proof (document_casts b prof vs v av Hvs Harms Hdoc emptyCtx) as Hcast.
  destruct Hcast as (f&idx&Hcast); [constructor|].
  destruct (document_walks T b prof vs Hvs Harms v av Hdoc emptyCtx eq_refl) as [widx Hwalk].
  rewrite Hfam in Hdoc. pose proof (document_finite v av Hdoc) as Hz.
  destruct (coerceStream_public T b prof vs m' def Hf Htd Harms Hvs v emptyCtx) as [_ Hpub]. rewrite Hwalk in Hpub.
  destruct (Hpub _ eq_refl av eq_refl) as (w&Hw&_). assert (marshalPublic av = Some (compact true w)) as Hm by (unfold marshalPublic; by rewrite Hw).
  assert (finalGate Dynamic T gateFuel b = None) as Hg.
  { unfold finalGate, SupportsNativeFinalBundle, IsProvenServedRecursiveAliasStaticFamily. by rewrite Ha. }
  assert (SupportsNativeStaticStreamBundle Dynamic T gateFuel b = None) as Hs.
  { unfold SupportsNativeStaticStreamBundle. by rewrite Hg, Hp. }
  assert (ParseStaticBundle Dynamic T renderOnce sonicString sonicInt gateFuel (S fuel) b raw = inl (compact true w)) as Hfinal.
  { unfold ParseStaticBundle, gated, staticCheckedParse. rewrite Hval, Hg, Hck, ordinary_coerces. unfold coerceRaw. rewrite Hnm, Hx, Ht.
    cbn [coerce coerceStep engineOf en_alias]. unfold coerceRecursiveAlias. rewrite Ha. cbn [aliasCoerceValue]. rewrite Hcast. cbn [thenR].
    unfold bindM, lift. rewrite Hz, Hm. reflexivity. }
  exists (compact true w). split_and!; [done| |done|].
  - unfold ParseStaticStreamPartial. rewrite Hs. unfold ParseAliasStreamPartial. rewrite Ha. unfold partialOf.
    destruct (bracket_solid _ Hbr) as (c&r&->). rewrite Hbr. unfold profileNumMode, isJsonValue. rewrite Hfam.
    rewrite (candidate_streams _ _ _ Hplain Hfence Hx). unfold coerceStreamAliasRoot. rewrite Hwalk. cbn [thenR fst]. rewrite Hz.
    unfold AliasStream.emit. by rewrite Hm.
  - unfold ParseStaticStreamFinal, ParseAliasStreamFinal. by rewrite Hs, Hfinal.
Qed.

(** ** Concrete routes *)

Module Witness.
Definition chain : Bundle :=
  fst (RebuildIndexes (mkBundle (classOf "Node") []
    [mkClass "Node" [mkField "value" str; mkField "next" (opt (classOf "Node"))]] ["Node"] [] ∅ ∅ ∅)).
Definition direct (b : Bundle) (raw : string) : string + staticErr :=
  ParseStaticBundle (fun _ => false) asciiTables sayTrue (quoteJSON false) FormatInt 20 20 b raw.
Definition unary (b : Bundle) (raw : string) : string + staticErr :=
  ParseStaticBundleUnaryCall (fun _ => false) asciiTables sayTrue (quoteJSON false) FormatInt 20 20 b raw.
Definition pair (k v : string) : string := quoteJSON false k +:+ ":" +:+ v.
Definition chainText : string := "{" +:+ pair "value" (quoteJSON false "a") +:+ "}".
Definition chainFull : string := "{" +:+ pair "value" (quoteJSON false "a") +:+ "," +:+ pair "next" "null" +:+ "}".

(** An omitted optional is null in the answer; the normalizer would insert it. *)
Example omitted_next :
  direct chain chainText = inl chainFull
  /\ normalizeRecursiveFinal (fun _ => false) chain [("Node", NonStreaming)] 40 chainText (classOf "Node") = Some chainFull
  /\ normalizeRecursiveFinal (fun _ => false) chain [("Node", NonStreaming)] 40 chainFull (classOf "Node") = Some chainFull.
Proof. split_and!; vm_compute; reflexivity. Qed.

Lemma static_parse_typed_witness : exists b v html,
  ValidateOutput chain = (b, None) /\ hasType b (Target b) v /\ chainFull = compact html v
  /\ strictDecode numModeLegacy chainFull = Some (readBack v).
Proof.
  apply (static_parse_typed (fun _ => false) asciiTables sayTrue (quoteJSON false) FormatInt 20 20 chain chainText chainFull).
  left. vm_compute. reflexivity.
Defined.

(** The checked family on its two routes. *)
Definition checked : Bundle := CheckedStatic.Witness.checkedBundle ConstraintCheck staticCheckedCheckClass.
Definition checkedText : string := CheckedStatic.Witness.answer "7".
Example checked_routes :
  direct checked checkedText = inr (StaticErr Unsupported)
  /\ match unary checked checkedText with inl _ => True | inr _ => False end.
Proof. split; [vm_compute; reflexivity|]. vm_compute. exact I. Qed.

Lemma constraints_never_ignored_witness :
  let b := fst (ValidateOutput checked) in
  (claimed isAssert (direct checked checkedText) -> unconstrained b)
  /\ (claimed isAssert (unary checked checkedText) ->
      unconstrained b
      \/ exists prof, staticCheckedProfileOf (fun _ => false) b = Some prof
         /\ unary checked checkedText = staticCheckedMap (fun _ => false) asciiTables sayTrue (quoteJSON false) FormatInt 20 b prof checkedText)
  /\ (claimed (fun _ => false) (ParseStaticStreamPartial (fun _ => false) asciiTables 20 b checkedText) -> unconstrained b)
  /\ (claimed isAssert (ParseStaticStreamFinal (fun _ => false) asciiTables sayTrue (quoteJSON false) FormatInt 20 20 b checkedText) -> unconstrained b).
Proof.
  cbv zeta. apply (constraints_never_ignored (fun _ => false) asciiTables sayTrue (quoteJSON false) FormatInt 20 20 checked).
  vm_compute. reflexivity.
Defined.

Definition jsonText : string := "[1, {" +:+ pair "k" (quoteJSON false "x") +:+ "}]".
Lemma static_stream_agrees_witness : exists out,
  marshalPublic (akArray [akInt 1; akMap [("k", akString "x")]]) = Some out
  /\ ParseStaticStreamPartial (fun _ => false) asciiTables 20 jsonBundle jsonText = inl out
  /\ direct jsonBundle jsonText = inl out
  /\ ParseStaticStreamFinal (fun _ => false) asciiTables sayTrue (quoteJSON false) FormatInt 20 20 jsonBundle jsonText = inl out.
Proof.
  apply (static_stream_agrees (fun _ => false) asciiTables sayTrue (quoteJSON false) FormatInt 20 19 jsonBundle jsonProfile jsonText
    (valArray false [valNumber false false "1"; valObject false [("k", valString false "x")]])); try (vm_compute; reflexivity).
  - vm_compute. by eexists.
  - constructor. constructor; [by constructor|]. constructor; [|constructor]. constructor; [apply NoDup_singleton|].
    constructor; [split; [reflexivity|constructor]|constructor].
Defined.
End Witness.
