(* ===== verification/StaticDescriptor.v ===== *)
(** * StaticDescriptor: from the descriptor of a static output to a bundle
    ([internal/schema/static_descriptor.go], [bamlutils/schemadescriptor])

    A descriptor is a graph of Go values: a type holds pointers to its element, key and
    value, to a union or arrow payload, and slices of types; nothing keeps the graph
    from having cycles.  Memory is a heap from addresses to nodes; a slice is the
    address of its first element and a length, its elements at consecutive addresses.
    The guard is the path of the pointers and slices being lowered; the code's four sets
    are one list of tagged keys, and their [defer delete] is the end of a recursive call.
    The dynamic flag of a reference is checked but not kept: [Schema.type] has none.
    The paths in error texts and the method and stream of the envelope, which are not
    lowered, are left out.  Name, constraint and streaming records are
    those of [Schema]: the two packages declare the same ones. *)

From S2P Require Import Prelude Schema.
Open Scope stdpp_scope.

(** ** Descriptors *)

Record DLiteral := mkDLiteral { dl_Kind : string; dl_String : string; dl_Int : Z; dl_Bool : bool }.

(** A slice that is not nil: the address of its head and its length. *)
Definition slice : Type := nat * nat.

Record DType := mkDType {
  d_Kind : string; d_Meta : TypeMeta;
  d_Primitive : string; d_Media : string; d_Name : string; d_Mode : string; d_Dynamic : bool;
  d_Literal : option DLiteral;
  d_Elem : option nat; d_Key : option nat; d_Value : option nat;
  d_Items : option slice; d_Union : option nat; d_Arrow : option nat
}.
(** [UnionType] and [ArrowType]; a nil and an empty slice are read alike. *)
Record DUnion := mkDUnion { u_Variants : slice; u_Nullable : bool }.
Record DArrow := mkDArrow { a_Params : slice; a_Return : DType }.
Record heap := mkHeap { h_type : nat -> DType; h_union : nat -> DUnion; h_arrow : nat -> DArrow }.

Record DEnum := mkDEnum { de_Name : Name; de_Values : list EnumValue; de_Constraints : list Constraint }.
Record DField := mkDField { df_Name : Name; df_Type : DType; df_Description : option string; df_StreamingNeeded : bool }.
Record DClass := mkDClass {
  dc_Name : Name; dc_Description : option string; dc_Mode : string; dc_Fields : list DField;
  dc_Constraints : list Constraint; dc_Stream : StreamingBehavior
}.
Record DAlias := mkDAlias { da_Name : string; da_Target : DType }.
Record DBundle := mkDBundle {
  db_Version : Z; db_Target : DType; db_Enums : list DEnum; db_Classes : list DClass;
  db_RecursiveClasses : list string; db_Aliases : list DAlias
}.
Definition Version : Z := 1.

(** ** Errors *)

(** What the guard remembers. *)
Inductive key := KType (p : nat) | KUnion (u : nat) | KArrow (a : nat) | KSlice (s : slice).
#[export] Instance key_eq_dec : EqDecision key.
Proof. solve_decision. Defined.

Inductive DErr :=
  | DVersion (v : Z) | DKind (k : string) | DStray (field : string) | DLevel (level : string)
  | DPrimitive (p : string) | DMedia (m : string) | DEmptyName | DMode (mode : string)
  | DNoLiteral | DLiteralScalar | DLiteralKind (k : string) | DNoElem | DNoKeyValue
  | DNoUnion | DNullVariant (i : nat) | DNoArrow | DCycle (k : key)
  | DInvalid (e : SchemaErr) | DNoConstructor | DFuel.

Definition bindE {A B} (r : A + DErr) (k : A -> B + DErr) : B + DErr := match r with inl a => k a | inr e => inr e end.
Notation "x <-- r ;; k" := (bindE r (fun x => k)) (at level 100, r at next level, right associativity) : go_scope.

(** The loops over slices: every element, or the first error. *)
Fixpoint traverseE {A B} (f : A -> B + DErr) (l : list A) : list B + DErr :=
  match l with
  | [] => inl []
  | a :: l => b <-- f a ;; bs <-- traverseE f l ;; inl (b :: bs)
  end.

(** ** Names of kinds, modes and levels *)

Inductive DTypeKind := KTop | KPrimitive | KEnum | KLiteral | KClass | KList | KMap | KAlias | KTuple | KArrowKind | KUnionKind.

Definition lowerTypeKind (k : string) : DTypeKind + DErr :=
  if k =s "top" then inl KTop else if k =s "primitive" then inl KPrimitive else if k =s "enum" then inl KEnum
  else if k =s "literal" then inl KLiteral else if k =s "class" then inl KClass else if k =s "list" then inl KList
  else if k =s "map" then inl KMap else if k =s "recursive_alias" then inl KAlias else if k =s "tuple" then inl KTuple
  else if k =s "arrow" then inl KArrowKind else if k =s "union" then inl KUnionKind else inr (DKind k).

Definition lowerMediaKind (m : string) : MediaKind + DErr :=
  if m =s "image" then inl MediaImage else if m =s "audio" then inl MediaAudio
  else if m =s "pdf" then inl MediaPDF else if m =s "video" then inl MediaVideo else inr (DMedia m).

(** [lowerPrimitiveKind], with the media kind that belongs to a media primitive. *)
Definition lowerPrimitiveKind (p media : string) : PrimitiveKind + DErr :=
  if p =s "string" then inl PrimitiveString else if p =s "int" then inl PrimitiveInt
  else if p =s "float" then inl PrimitiveFloat else if p =s "bool" then inl PrimitiveBool
  else if p =s "null" then inl PrimitiveNull
  else if p =s "media" then m <-- lowerMediaKind media ;; inl (PrimitiveMedia m)
  else inr (DPrimitive p).

Definition lowerStreamingMode (mode : string) : StreamingMode + DErr :=
  if mode =s "non_streaming" then inl NonStreaming else if mode =s "streaming" then inl Streaming else inr (DMode mode).

Definition lowerConstraint (c : Constraint) : Constraint + DErr :=
  if (ct_Level c =s "check") || (ct_Level c =s "assert") then inl c else inr (DLevel (ct_Level c)).
Definition lowerConstraints (cs : list Constraint) : list Constraint + DErr := traverseE lowerConstraint cs.
Definition lowerTypeMeta (m : TypeMeta) : TypeMeta + DErr :=
  cs <-- lowerConstraints (tm_Constraints m) ;; inl (mkMeta cs (tm_Stream m)).

Definition lowerLiteral (l : DLiteral) : LiteralValue + DErr :=
  if dl_Kind l =s "string" then
    if negb (dl_Int l =? 0)%Z || dl_Bool l then inr DLiteralScalar else inl (LiteralString (dl_String l))
  else if dl_Kind l =s "int" then
    if (dl_String l <>s "") || dl_Bool l then inr DLiteralScalar else inl (LiteralInt (dl_Int l))
  else if dl_Kind l =s "bool" then
    if (dl_String l <>s "") || negb (dl_Int l =? 0)%Z then inr DLiteralScalar else inl (LiteralBool (dl_Bool l))
  else inr (DLiteralKind (dl_Kind l)).

(** ** Stray payloads *)

Definition isSome {A} (o : option A) : bool := match o with Some _ => true | None => false end.

(** The payload fields in [payloadFieldOrder], each with its presence. *)
Definition payloadFields (t : DType) : list (string * bool) :=
  [("primitive", d_Primitive t <>s ""); ("media", d_Media t <>s ""); ("name", d_Name t <>s ""); ("mode", d_Mode t <>s "");
   ("dynamic", d_Dynamic t); ("literal", isSome (d_Literal t)); ("elem", isSome (d_Elem t)); ("key", isSome (d_Key t));
   ("value", isSome (d_Value t)); ("items", isSome (d_Items t)); ("union", isSome (d_Union t)); ("arrow", isSome (d_Arrow t))].

Definition allowedPayloadFields (kind : DTypeKind) (isMedia : bool) : list string :=
  match kind with
  | KTop => []
  | KPrimitive => if isMedia then ["primitive"; "media"] else ["primitive"]
  | KEnum => ["name"; "dynamic"]
  | KClass => ["name"; "mode"; "dynamic"]
  | KLiteral => ["literal"]
  | KList => ["elem"]
  | KMap => ["key"; "value"]
  | KAlias => ["name"; "mode"]
  | KTuple => ["items"]
  | KArrowKind => ["arrow"]
  | KUnionKind => ["union"]
  end.

Definition rejectStrayPayload (t : DType) (kind : DTypeKind) : option DErr :=
  let allow := allowedPayloadFields kind (d_Primitive t =s "media") in
  match List.find (fun f => f.2 && negb (bool_decide (f.1 ∈ allow))) (payloadFields t) with
  | Some f => Some (DStray f.1)
  | None => None
  end.

(** ** Lowering

    [blocked] is the test of the guard; without it the lowering is the unfolding of the
    graph into a tree, which need not be finite. *)

Section Lower.
Variables (h : heap) (blocked : key -> list key -> bool).

(** [descendType], [descendUnion], [descendArrow] and the guard of [lowerTypeSlice]. *)
Definition descend {A} (k : key) (g : list key) (run : list key -> A + DErr) : A + DErr :=
  if blocked k g then inr (DCycle k) else run (k :: g).

Definition elements (s : slice) : list DType := (fun i => h_type h (s.1 + i)%nat) <$> seq 0 s.2.

Section Parts.
Variable rec : list key -> DType -> type + DErr.

Definition lowerTypeSlice (s : slice) (g : list key) : list type + DErr :=
  if bool_decide (s.2 = 0%nat) then inl [] else descend (KSlice s) g (fun g => traverseE (rec g) (elements s)).

Definition lowerVariant (g : list key) (iv : nat * DType) : type + DErr :=
  if (d_Kind iv.2 =s "primitive") && (d_Primitive iv.2 =s "null") then inr (DNullVariant iv.1) else rec g iv.2.
Definition lowerUnion (u : DUnion) (g : list key) : (list type * bool) + DErr :=
  let vs := elements (u_Variants u) in
  ts <-- traverseE (lowerVariant g) (imap pair vs) ;; inl (ts, u_Nullable u).

Definition lowerArrow (a : DArrow) (g : list key) : (list type * type) + DErr :=
  params <-- lowerTypeSlice (a_Params a) g ;;
  ret <-- rec g (a_Return a) ;;
  inl (params, ret).

Definition descendType (p : nat) (g : list key) : type + DErr := descend (KType p) g (fun g => rec g (h_type h p)).

(** The switch of [lowerDescriptorType]. *)
Definition lowerPayload (g : list key) (d : DType) (kind : DTypeKind) (meta : TypeMeta) : type + DErr :=
  match kind with
  | KTop => inl (TypeTop meta)
  | KPrimitive => p <-- lowerPrimitiveKind (d_Primitive d) (d_Media d) ;; inl (TypePrimitive meta p)
  | KEnum => if d_Name d =s "" then inr DEmptyName else inl (TypeEnum meta (d_Name d))
  | KClass =>
      if d_Name d =s "" then inr DEmptyName
      else mode <-- lowerStreamingMode (d_Mode d) ;; inl (TypeClass meta (d_Name d) mode)
  | KAlias =>
      if d_Name d =s "" then inr DEmptyName
      else mode <-- lowerStreamingMode (d_Mode d) ;; inl (TypeRecursiveAlias meta (d_Name d) mode)
  | KLiteral =>
      match d_Literal d with None => inr DNoLiteral | Some l => lit <-- lowerLiteral l ;; inl (TypeLiteral meta (Some lit)) end
  | KList =>
      match d_Elem d with None => inr DNoElem | Some p => e <-- descendType p g ;; inl (TypeList meta (Some e)) end
  | KMap =>
      match d_Key d, d_Value d with
      | Some k, Some v => kt <-- descendType k g ;; vt <-- descendType v g ;; inl (TypeMap meta (Some kt) (Some vt))
      | _, _ => inr DNoKeyValue
      end
  | KUnionKind =>
      match d_Union d with
      | None => inr DNoUnion
      | Some u => w <-- descend (KUnion u) g (lowerUnion (h_union h u)) ;; inl (TypeUnion meta (Some w))
      end
  | KTuple =>
      items <-- match d_Items d with None => inl [] | Some s => lowerTypeSlice s g end ;;
      inl (TypeTuple meta items)
  | KArrowKind =>
      match d_Arrow d with
      | None => inr DNoArrow
      | Some a => w <-- descend (KArrow a) g (lowerArrow (h_arrow h a)) ;; inl (TypeArrow meta (Some w))
      end
  end.
End Parts.

(** [lowerDescriptorType]. *)
Fixpoint lowerDescriptorType (fuel : nat) (g : list key) (d : DType) : type + DErr :=
  match fuel with
  | O => inr DFuel
  | S n =>
      kind <-- lowerTypeKind (d_Kind d) ;;
      match rejectStrayPayload d kind with
      | Some e => inr e
      | None => meta <-- lowerTypeMeta (d_Meta d) ;; lowerPayload (lowerDescriptorType n) g d kind meta
      end
  end.

(** ** Definitions and the bundle *)

Definition lowerDescriptorEnum (e : DEnum) : EnumDef + DErr :=
  cs <-- lowerConstraints (de_Constraints e) ;; inl (mkEnumDef (de_Name e) (de_Values e) cs ∅ ∅).

Section Bundle.
Variable lower : DType -> type + DErr.

Definition lowerClassField (f : DField) : ClassField + DErr :=
  t <-- lower (df_Type f) ;; inl (mkClassField (df_Name f) t (df_Description f) (df_StreamingNeeded f)).
Definition lowerDescriptorClass (c : DClass) : ClassDef + DErr :=
  mode <-- lowerStreamingMode (dc_Mode c) ;;
  fields <-- traverseE lowerClassField (dc_Fields c) ;;
  cs <-- lowerConstraints (dc_Constraints c) ;;
  inl (mkClassDef (dc_Name c) (dc_Description c) mode fields cs (dc_Stream c) ∅ ∅).
Definition lowerDescriptorAlias (a : DAlias) : RecursiveAliasDef + DErr :=
  t <-- lower (da_Target a) ;; inl (mkAliasDef (da_Name a) t).

(** The bundle before its validation. *)
Definition lowerBundle (d : DBundle) : Bundle + DErr :=
  if negb (db_Version d =? Version)%Z then inr (DVersion (db_Version d))
  else
    target <-- lower (db_Target d) ;;
    enums <-- traverseE lowerDescriptorEnum (db_Enums d) ;;
    classes <-- traverseE lowerDescriptorClass (db_Classes d) ;;
    aliases <-- traverseE lowerDescriptorAlias (db_Aliases d) ;;
    inl (mkBundle target enums classes (db_RecursiveClasses d) aliases ∅ ∅ ∅).
End Bundle.

Definition fromDescriptor (fuel : nat) (d : DBundle) : Bundle + DErr :=
  b <-- lowerBundle (lowerDescriptorType fuel []) d ;;
  match Validate b with (b, None) => inl b | (_, Some e) => inr (DInvalid e) end.
End Lower.

(** The guard of the code, and no guard. *)
Definition guarded (k : key) (g : list key) : bool := bool_decide (k ∈ g).
Definition unguarded (k : key) (g : list key) : bool := false.

(** [FromStaticDescriptor], and the lowering without its guard. *)
Definition FromStaticDescriptor (h : heap) (fuel : nat) (d : DBundle) : Bundle + DErr := fromDescriptor h guarded fuel d.
Definition unfoldDescriptor (h : heap) (fuel : nat) (d : DBundle) : Bundle + DErr := fromDescriptor h unguarded fuel d.

(** [StaticBundlesFromDescriptors]: the bundles and the errors, by key. *)
Definition StaticBundlesFromDescriptors (h : heap) (fuel : nat) (constructors : gmap string (option DBundle))
    : gmap string Bundle * gmap string DErr :=
  let results := (fun c : option DBundle => match c with None => inr DNoConstructor | Some d => FromStaticDescriptor h fuel d end) <$> constructors in
  (omap (fun r : Bundle + DErr => match r with inl b => Some b | inr _ => None end) results,
   omap (fun r : Bundle + DErr => match r with inl _ => None | inr e => Some e end) results).

(** ** Relations between two lowerings

    More fuel, enough fuel, and the presence of the guard are three relations between
    results; each is closed under the sequencing of results, hence under lowering. *)

Record congruent (R : forall A, A + DErr -> A + DErr -> Prop) : Prop := mkCongruent {
  cong_ok : forall A (a : A), R A (inl a) (inl a);
  cong_err : forall A e, e <> DFuel -> R A (inr e) (inr e);
  cong_bind : forall A B (r r' : A + DErr) (k k' : A -> B + DErr),
    R A r r' -> (forall a, R B (k a) (k' a)) -> R B (bindE r k) (bindE r' k')
}.

Definition refinesE A (r r' : A + DErr) : Prop := r = inr DFuel \/ r = r'.
Definition agreeE A (r r' : A + DErr) : Prop := r = r' /\ r <> inr DFuel.
Definition succeeds A (r r' : A + DErr) : Prop := forall a, r = inl a -> r' = inl a.

Lemma refinesE_congruent : congruent refinesE.
Proof. split; [by right|by right|]. intros A B r r' k k' [->| ->] Hk; [by left|]. destruct r'; [apply Hk|by right]. Qed.
Lemma agreeE_congruent : congruent agreeE.
Proof. split; [done|split; congruence|]. intros A B r r' k k' [-> Hr] Hk. destruct r'; [apply Hk|split; [done|]]. intros [= ->]. by apply Hr. Qed.
Lemma succeeds_congruent : congruent succeeds.
Proof. split; [by intros A a b|by intros A e ? b|]. intros A B r r' k k' Hr Hk b. destruct r as [a|]; [|done]. rewrite (Hr a eq_refl). apply Hk. Qed.

Section Congruence.
Variable R : forall A, A + DErr -> A + DErr -> Prop.
Hypothesis cong : congruent R.
Arguments R {A}.

(** A result that does not depend on the lowering and is not the end of the fuel. *)
Definition settled {A} (r : A + DErr) : Prop := r <> inr DFuel.
Lemma cong_settled {A} (r : A + DErr) : settled r -> R r r.
Proof. destruct r; intros H; [apply (cong_ok (@R) cong)|apply (cong_err (@R) cong)]. intros ->. by apply H. Qed.
Lemma cong_settled_bind {A B} (r : A + DErr) (k k' : A -> B + DErr) : settled r -> (forall a, R (k a) (k' a)) -> R (bindE r k) (bindE r k').
Proof. intros Hr Hk. apply (cong_bind (@R) cong); [by apply cong_settled|done]. Qed.

Lemma cong_traverse {A B} (f f' : A -> B + DErr) l : (forall a, a ∈ l -> R (f a) (f' a)) -> R (traverseE f l) (traverseE f' l).
Proof.
  induction l as [|a l IH]; intros H; cbn [traverseE]; [apply (cong_ok (@R) cong)|].
  apply (cong_bind (@R) cong); [apply H; set_solver|]. intros b. apply (cong_bind (@R) cong); [apply IH; set_solver|].
  intros bs. apply (cong_ok (@R) cong).
Qed.

Lemma traverse_settled {A B} (f : A -> B + DErr) l : (forall a, settled (f a)) -> settled (traverseE f l).
Proof.
  intros H. induction l as [|a l IH]; cbn [traverseE]; [done|]. specialize (H a). destruct (f a); [|intros [= ->]; by apply H].
  cbn. destruct (traverseE f l); [done|]. intros [= ->]. by apply IH.
Qed.
Lemma constraints_settled cs : settled (lowerConstraints cs).
Proof. apply traverse_settled. intros c. unfold lowerConstraint. by destruct (_ || _). Qed.
Lemma meta_settled m : settled (lowerTypeMeta m).
Proof. unfold lowerTypeMeta. pose proof (constraints_settled (tm_Constraints m)) as H. destruct (lowerConstraints _); [done|]. intros [= ->]. by apply H. Qed.
Lemma kind_settled k : settled (lowerTypeKind k).
Proof. unfold lowerTypeKind. repeat (case_match; [done|]). done. Qed.
Lemma mode_settled m : settled (lowerStreamingMode m).
Proof. unfold lowerStreamingMode. by repeat case_match. Qed.
Lemma primitive_settled p m : settled (lowerPrimitiveKind p m).
Proof. unfold lowerPrimitiveKind, lowerMediaKind. repeat (case_match; try done). Qed.
Lemma literal_settled l : settled (lowerLiteral l).
Proof. unfold lowerLiteral. by repeat case_match. Qed.
Lemma enum_settled e : settled (lowerDescriptorEnum e).
Proof. unfold lowerDescriptorEnum. pose proof (constraints_settled (de_Constraints e)) as H. destruct (lowerConstraints _); [done|]. intros [= ->]. by apply H. Qed.

(** The pointers and the slice of a node. *)
Definition pointers (d : DType) : list nat := omap id [d_Elem d; d_Key d; d_Value d].

Section Payload.
Variables (h : heap) (blocked blocked' : key -> list key -> bool) (rec rec' : list key -> DType -> type + DErr) (g g' : list key) (d : DType).
Hypothesis at_type : forall p, p ∈ pointers d -> R (descendType h blocked rec p g) (descendType h blocked' rec' p g').
Hypothesis at_union : forall u, d_Union d = Some u ->
  R (descend blocked (KUnion u) g (lowerUnion h rec (h_union h u))) (descend blocked' (KUnion u) g' (lowerUnion h rec' (h_union h u))).
Hypothesis at_arrow : forall a, d_Arrow d = Some a ->
  R (descend blocked (KArrow a) g (lowerArrow h blocked rec (h_arrow h a))) (descend blocked' (KArrow a) g' (lowerArrow h blocked' rec' (h_arrow h a))).
Hypothesis at_items : forall s, d_Items d = Some s -> R (lowerTypeSlice h blocked rec s g) (lowerTypeSlice h blocked' rec' s g').

Lemma cong_payload kind meta : R (lowerPayload h blocked rec g d kind meta) (lowerPayload h blocked' rec' g' d kind meta).
Proof.
  assert (forall p, d_Elem d = Some p \/ d_Key d = Some p \/ d_Value d = Some p -> p ∈ pointers d) as Hp.
  { intros p Hp. unfold pointers. apply list_elem_of_omap. destruct Hp as [Hp|[Hp|Hp]]; rewrite <- Hp; [exists (d_Elem d)|exists (d_Key d)|exists (d_Value d)]; set_solver. }
  assert (forall e, e <> DFuel -> R (A := type) (inr e) (inr e)) as Herr by (intros; by apply (cong_err (@R) cong)).
  assert (forall t : type, R (inl t) (inl t)) as Hok by (intros; apply (cong_ok (@R) cong)).
  destruct kind; cbn [lowerPayload].
  - apply Hok.
  - apply cong_settled_bind; [apply primitive_settled|auto].
  - case_match; [by apply Herr|apply Hok].
  - destruct (d_Literal d); [|by apply Herr]. apply cong_settled_bind; [apply literal_settled|auto].
  - case_match; [by apply Herr|]. apply cong_settled_bind; [apply mode_settled|auto].
  - destruct (d_Elem d) eqn:E; [|by apply Herr]. apply (cong_bind (@R) cong); [apply at_type, Hp; tauto|auto].
  - destruct (d_Key d) as [k|] eqn:Ek; [|by apply Herr]. destruct (d_Value d) as [v|] eqn:Ev; [|by apply Herr].
    apply (cong_bind (@R) cong); [apply at_type, Hp; tauto|]. intros kt. apply (cong_bind (@R) cong); [apply at_type, Hp; tauto|auto].
  - case_match; [by apply Herr|]. apply cong_settled_bind; [apply mode_settled|auto].
  - apply (cong_bind (@R) cong); [|auto]. destruct (d_Items d) eqn:E; [by apply at_items|apply (cong_ok (@R) cong)].
  - destruct (d_Arrow d) eqn:E; [|by apply Herr]. apply (cong_bind (@R) cong); [by apply at_arrow|auto].
  - destruct (d_Union d) eqn:E; [|by apply Herr]. apply (cong_bind (@R) cong); [by apply at_union|auto].
Qed.
End Payload.

Lemma cong_union h rec rec' u g g' : (forall d, d ∈ elements h (u_Variants u) -> R (rec g d) (rec' g' d)) ->
  R (lowerUnion h rec u g) (lowerUnion h rec' u g').
Proof.
  intros H. unfold lowerUnion. apply (cong_bind (@R) cong); [|intros ts; apply (cong_ok (@R) cong)]. apply cong_traverse.
  intros [i d] Hin. unfold lowerVariant. cbn [fst snd]. case_match; [by apply (cong_err (@R) cong)|]. apply H.
  apply elem_of_lookup_imap in Hin as (j&x&[= -> ->]&Hx). by eapply list_elem_of_lookup_2.
Qed.
Lemma cong_arrow h blocked blocked' rec rec' a g g' :
  R (lowerTypeSlice h blocked rec (a_Params a) g) (lowerTypeSlice h blocked' rec' (a_Params a) g') -> R (rec g (a_Return a)) (rec' g' (a_Return a)) ->
  R (lowerArrow h blocked rec a g) (lowerArrow h blocked' rec' a g').
Proof.
  intros Hs Hr. unfold lowerArrow. apply (cong_bind (@R) cong); [done|]. intros ps. apply (cong_bind (@R) cong); [done|]. intros t. apply (cong_ok (@R) cong).
Qed.

(** One step of the lowering. *)
Lemma cong_step h blocked blocked' n n' g g' d :
  (forall kind meta, R (lowerPayload h blocked (lowerDescriptorType h blocked n) g d kind meta)
                       (lowerPayload h blocked' (lowerDescriptorType h blocked' n') g' d kind meta)) ->
  R (lowerDescriptorType h blocked (S n) g d) (lowerDescriptorType h blocked' (S n') g' d).
Proof.
  intros H. cbn [lowerDescriptorType]. apply cong_settled_bind; [apply kind_settled|]. intros kind.
  assert (rejectStrayPayload d kind <> Some DFuel) as Hs by (unfold rejectStrayPayload; by case_match).
  destruct (rejectStrayPayload d kind); [apply (cong_err (@R) cong); intros ->; by apply Hs|]. apply cong_settled_bind; [apply meta_settled|]. auto.
Qed.

(** Types, hence bundles. *)
Definition rootTypes (b : DBundle) : list DType :=
  db_Target b :: (db_Classes b ≫= fun c => df_Type <$> dc_Fields c) ++ (da_Target <$> db_Aliases b).

Lemma cong_bundle lower lower' b : (forall d, d ∈ rootTypes b -> R (lower d) (lower' d)) -> R (lowerBundle lower b) (lowerBundle lower' b).
Proof.
  intros H. unfold lowerBundle. case_match; [by apply (cong_err (@R) cong)|]. apply (cong_bind (@R) cong); [apply H; left|]. intros t.
  apply cong_settled_bind; [apply traverse_settled, enum_settled|]. intros es.
  apply (cong_bind (@R) cong).
  { apply cong_traverse. intros c Hc. unfold lowerDescriptorClass. apply cong_settled_bind; [apply mode_settled|]. intros m.
    apply (cong_bind (@R) cong).
    - apply cong_traverse. intros f Hf. apply (cong_bind (@R) cong); [|intros ft].
      { apply H. right. apply elem_of_app. left. apply list_elem_of_bind. exists c. split; [by apply list_elem_of_fmap_2|done]. }
      apply (cong_ok (@R) cong).
    - intros fs. apply cong_settled_bind; [apply constraints_settled|]. intros cs. apply (cong_ok (@R) cong). }
  intros cs. apply (cong_bind (@R) cong); [|intros; apply (cong_ok (@R) cong)].
  apply cong_traverse. intros a Ha. apply (cong_bind (@R) cong); [|intros; apply (cong_ok (@R) cong)].
  apply H. right. apply elem_of_app. right. by apply list_elem_of_fmap_2.
Qed.
End Congruence.

(** ** Walking the graph

    A set of keys is closed when it holds every pointer and every slice its own nodes
    hold; on such a set one lemma carries a relation from the lowering of the nodes to
    the lowering of a type. *)

Section Walk.
Variable h : heap.

Section Closed.
Variable U : key -> Prop.

Definition closedSlice (s : slice) : Prop := s.2 = 0%nat \/ U (KSlice s).
Definition closedType (d : DType) : Prop :=
  (forall p, p ∈ pointers d -> U (KType p)) /\ (forall u, d_Union d = Some u -> U (KUnion u)) /\
  (forall a, d_Arrow d = Some a -> U (KArrow a)) /\ (forall s, d_Items d = Some s -> closedSlice s).
Definition closedKey (k : key) : Prop :=
  match k with
  | KType p => closedType (h_type h p)
  | KUnion u => forall d, d ∈ elements h (u_Variants (h_union h u)) -> closedType d
  | KArrow a => closedSlice (a_Params (h_arrow h a)) /\ closedType (a_Return (h_arrow h a))
  | KSlice s => forall d, d ∈ elements h s -> closedType d
  end.
Definition closedHeap : Prop := forall k, U k -> closedKey k.
End Closed.

Lemma walk (R : forall A, A + DErr -> A + DErr -> Prop) (cong : congruent R) (U : key -> Prop) blocked blocked'
    (G1 G2 : list key -> list key -> Prop) n n' :
  closedHeap U ->
  (forall g g', G2 g g' -> G1 g g') ->
  (forall A k g g' (run run' : list key -> A + DErr), U k -> G1 g g' ->
     (G2 (k :: g) (k :: g') -> R A (run (k :: g)) (run' (k :: g'))) -> R A (descend blocked k g run) (descend blocked' k g' run')) ->
  (forall g g' d, closedType U d -> G2 g g' -> R _ (lowerDescriptorType h blocked n g d) (lowerDescriptorType h blocked' n' g' d)) ->
  forall g g' d, closedType U d -> G1 g g' -> R _ (lowerDescriptorType h blocked (S n) g d) (lowerDescriptorType h blocked' (S n') g' d).
Proof.
  intros Hc HG Hd Hrec g g' d (Hp&Hu&Ha&Hs) H1.
  assert (forall s g g', closedSlice U s -> G1 g g' ->
    R _ (lowerTypeSlice h blocked (lowerDescriptorType h blocked n) s g) (lowerTypeSlice h blocked' (lowerDescriptorType h blocked' n') s g')) as Hslice.
  { intros s g1 g2 Hcs HG1. unfold lowerTypeSlice. case_bool_decide; [apply (cong_ok _ cong)|]. destruct Hcs as [?|Hcs]; [done|].
    apply Hd; [done|done|]. intros HG2. apply (cong_traverse _ cong). intros x Hx. apply Hrec; [by apply (Hc _ Hcs)|done]. }
  apply (cong_step _ cong). intros kind meta. apply (cong_payload _ cong).
  - intros p Hin. apply Hd; [by apply Hp|done|]. intros HG2. apply Hrec; [apply (Hc _ (Hp p Hin))|done].
  - intros u Eu. apply Hd; [by apply Hu|done|]. intros HG2. apply (cong_union _ cong). intros x Hx. apply Hrec; [by apply (Hc _ (Hu u Eu))|done].
  - intros a Ea. apply Hd; [by apply Ha|done|]. intros HG2. destruct (Hc _ (Ha a Ea)) as [? ?].
    apply (cong_arrow _ cong); [apply Hslice; [done|by apply HG]|by apply Hrec].
  - intros s Es. apply Hslice; [by apply Hs|done].
Qed.

Lemma closed_all : closedHeap (fun _ => True).
Proof. intros [] _; cbn; repeat split; intros; (by right) || (repeat split; intros; by right || done). Qed.
Lemma closed_all_type d : closedType (fun _ => True) d.
Proof. repeat split; intros; by right. Qed.

(** More fuel only turns the end of the fuel into a result. *)
Lemma lower_fuel blocked n n' g d : (n <= n')%nat -> refinesE _ (lowerDescriptorType h blocked n g d) (lowerDescriptorType h blocked n' g d).
Proof.
  revert n' g d. induction n as [|n IH]; intros n' g d Hn; [by left|]. destruct n' as [|n']; [lia|].
  apply (walk refinesE refinesE_congruent (fun _ => True) blocked blocked eq eq n n' closed_all); [done| | |apply closed_all_type|done].
  - intros A k g1 ? run run' _ <- H. unfold descend. destruct (blocked k g1); [by right|by apply H].
  - intros g1 ? d' _ <-. apply IH. lia.
Qed.
Lemma lower_fuel_ok blocked n n' g d t :
  (n <= n')%nat -> lowerDescriptorType h blocked n g d = inl t -> lowerDescriptorType h blocked n' g d = inl t.
Proof. intros Hn H. destruct (lower_fuel blocked n n' g d Hn); congruence. Qed.

(** Without the guard the path is not read; what the guard lets through is the unfolding. *)
Lemma guard_sound n g g' d : succeeds _ (lowerDescriptorType h guarded n g d) (lowerDescriptorType h unguarded n g' d).
Proof.
  revert g g' d. induction n as [|n IH]; intros g g' d; [by intros t|].
  apply (walk succeeds succeeds_congruent (fun _ => True) guarded unguarded (fun _ _ => True) (fun _ _ => True) n n closed_all); [done| | |apply closed_all_type|done].
  - intros A k g1 g2 run run' _ _ H. unfold descend. destruct (guarded k g1); [by intros ?|by apply H].
  - intros g1 g2 d' _ _. apply IH.
Qed.
End Walk.

(** ** Termination

    Every descent puts a key on the path that was not there, so the keys of a finite
    closed set that are not yet on the path bound the depth. *)

Definition remaining (U g : list key) : nat := length (filter (fun k => k ∉ g) U).

Lemma remaining_le U g : (remaining U g <= length U)%nat.
Proof. apply length_filter. Qed.
Lemma remaining_cons U k g : k ∈ U -> k ∉ g -> (remaining U (k :: g) < remaining U g)%nat.
Proof.
  assert (forall V, (remaining V (k :: g) <= remaining V g)%nat) as Hle.
  { intros V. unfold remaining. induction V as [|x V IH]; [done|]. rewrite !filter_cons.
    destruct (decide (x ∉ k :: g)), (decide (x ∉ g)); cbn [length]; try lia. set_solver. }
  intros Hk Hg. induction U as [|x U IH]; [set_solver|]. unfold remaining in *. rewrite !filter_cons. specialize (Hle U).
  destruct (decide (x = k)) as [->|Hx].
  - destruct (decide (k ∉ k :: g)); [set_solver|]. destruct (decide (k ∉ g)); [cbn [length]; lia|done].
  - specialize (IH ltac:(set_solver)). destruct (decide (x ∉ k :: g)), (decide (x ∉ g)); cbn [length]; try lia; set_solver.
Qed.

Section Total.
Variables (h : heap) (U : list key).
Hypothesis closed : closedHeap h (fun k => k ∈ U).

Lemma lower_enough n n' g d :
  closedType (fun k => k ∈ U) d -> (remaining U g < n)%nat -> (n <= n')%nat ->
  agreeE _ (lowerDescriptorType h guarded n g d) (lowerDescriptorType h guarded n' g d).
Proof.
  revert n' g d. induction n as [|n IH]; intros n' g d Hd Hg Hn; [lia|]. destruct n' as [|n']; [lia|].
  apply (walk h agreeE agreeE_congruent (fun k => k ∈ U) guarded guarded
    (fun g g' => g = g' /\ (remaining U g <= n)%nat) (fun g g' => g = g' /\ (remaining U g < n)%nat) n n' closed).
  - intros ? ? [-> ?]. split; [done|lia].
  - intros A k g1 ? run run' Hk [<- H1] H. unfold descend, guarded. case_bool_decide as Hb; [by split|].
    apply H. split; [done|]. pose proof (remaining_cons U k g1 Hk Hb). lia.
  - intros g1 ? d' Hd' [<- H1]. apply IH; [done|done|lia].
  - done.
  - split; [done|lia].
Qed.
End Total.

(** ** The guard refuses exactly what has no unfolding

    If a node has an unfolding, a node on its own path cannot be the node itself: the
    least fuel that unfolds it is larger than that of any node below it. *)

Section Complete.
Variable h : heap.
Abbreviation unfold_ := (lowerDescriptorType h unguarded).
Abbreviation lower_ := (lowerDescriptorType h guarded).

(** The node of a key has an unfolding of this fuel. *)
Definition unfolds (n : nat) (k : key) : Prop :=
  match k with
  | KType p => exists t, unfold_ n [] (h_type h p) = inl t
  | KUnion u => exists w, lowerUnion h (unfold_ n) (h_union h u) [] = inl w
  | KArrow a => exists w, lowerArrow h unguarded (unfold_ n) (h_arrow h a) [] = inl w
  | KSlice s => exists ts, traverseE (unfold_ n []) (elements h s) = inl ts
  end.
#[local] Instance unfolds_dec n k : Decision (unfolds n k).
Proof.
  destruct k; cbn [unfolds]; (match goal with |- Decision (exists _, ?r = _) => destruct r eqn:? end;
    [left; by eexists|right; by intros [? ?]]).
Defined.

Lemma unfold_path n g g' d : unfold_ n g d = unfold_ n g' d.
Proof.
  assert (congruent (fun A => @eq (A + DErr))) as cong by (split; [done|done|]; intros A B ? r k k' -> H; destruct r; [apply H|done]).
  revert g g' d. induction n as [|n IH]; intros g g' d; [done|].
  apply (walk h _ cong (fun _ => True) unguarded unguarded (fun _ _ => True) (fun _ _ => True) n n (closed_all h)); [done| | |apply closed_all_type|done].
  - intros A k g1 g2 run run' _ _ H. by apply H.
  - intros g1 g2 d' _ _. apply IH.
Qed.
Lemma traverse_path {A B} (f f' : A -> B + DErr) l r : (forall a, a ∈ l -> succeeds _ (f a) (f' a)) -> traverseE f l = inl r -> traverseE f' l = inl r.
Proof. intros H. by apply (cong_traverse _ succeeds_congruent). Qed.

(** No key of the path unfolds with less fuel. *)
Definition above (n : nat) (g : list key) : Prop := forall k j, k ∈ g -> (j < n)%nat -> ~ unfolds j k.

(** The least fuel that unfolds a key. *)
Lemma least k n : unfolds n k -> exists m, (m <= n)%nat /\ unfolds m k /\ forall j, (j < m)%nat -> ~ unfolds j k.
Proof.
  induction n as [n IH] using lt_wf_ind. intros Hn.
  destruct (decide (Exists (fun j => unfolds j k) (seq 0 n))) as [He|He].
  - apply Exists_exists in He as (j&Hj&Hu). apply elem_of_seq in Hj. destruct (IH j ltac:(lia) Hu) as (m&?&?&?). exists m. split; [lia|done].
  - exists n. repeat split; [done|done|]. intros j Hj Hu. apply He, Exists_exists. exists j. split; [apply elem_of_seq; lia|done].
Qed.

(** A descent: the key is not on the path, and is put there with its least fuel. *)
Lemma descend_complete {A} k (u : nat -> A + DErr) (run : nat -> list key -> A + DErr) n g a :
  (forall j, unfolds j k <-> exists a, u j = inl a) ->
  (forall i j, (i <= j)%nat -> succeeds _ (u i) (u j)) ->
  (forall i j g, (i <= j)%nat -> succeeds _ (run i g) (run j g)) ->
  (forall m, (m <= n)%nat -> above m (k :: g) -> succeeds _ (u m) (run m (k :: g))) ->
  k ∉ g -> above n g -> u n = inl a -> descend guarded k g (run n) = inl a.
Proof.
  intros Hk Hu Hr Hm Hin Hg Ha. assert (unfolds n k) as Hn by (apply Hk; eauto).
  unfold descend, guarded. rewrite bool_decide_false by done.
  destruct (least k n Hn) as (m&Hle&Hmk&Hmin). apply Hk in Hmk as [b Hb].
  assert (b = a) as -> by (specialize (Hu m n Hle b Hb); congruence).
  apply (Hr m n _ Hle), (Hm m Hle); [|done]. intros k' j [->|Hk']%elem_of_cons Hj; [by apply Hmin|apply Hg; [done|lia]].
Qed.
(** Two lowerings that agree on the nodes agree on the parts of a node. *)
Lemma slice_succeeds blocked i j g s :
  (forall g d, succeeds _ (lowerDescriptorType h blocked i g d) (lowerDescriptorType h blocked j g d)) ->
  succeeds _ (lowerTypeSlice h blocked (lowerDescriptorType h blocked i) s g) (lowerTypeSlice h blocked (lowerDescriptorType h blocked j) s g).
Proof.
  intros H. unfold lowerTypeSlice, descend. case_bool_decide; [by intros ?|]. case_match; [by intros ?|].
  apply (cong_traverse _ succeeds_congruent). intros. apply H.
Qed.
Lemma fuel_succeeds blocked i j g d : (i <= j)%nat -> succeeds _ (lowerDescriptorType h blocked i g d) (lowerDescriptorType h blocked j g d).
Proof. intros Hij t. by apply lower_fuel_ok. Qed.
Lemma slice_path n g g' s : succeeds _ (lowerTypeSlice h unguarded (unfold_ n) s g) (lowerTypeSlice h unguarded (unfold_ n) s g').
Proof.
  unfold lowerTypeSlice, descend. case_bool_decide; [by intros ?|]. apply (cong_traverse _ succeeds_congruent). intros d _ t.
  by rewrite (unfold_path n _ (KSlice s :: g') d).
Qed.

Section Step.
Variable n : nat.
Hypothesis IH : forall m g d, (m <= n)%nat -> above m g -> succeeds _ (unfold_ m [] d) (lower_ m g d).

Lemma slice_complete m g s : (m <= n)%nat -> above m g -> (unfolds m (KSlice s) -> KSlice s ∉ g) ->
  succeeds _ (lowerTypeSlice h unguarded (unfold_ m) s []) (lowerTypeSlice h guarded (lower_ m) s g).
Proof.
  intros Hm Hg Hin ts. unfold lowerTypeSlice. case_bool_decide; [done|]. unfold descend at 1. cbn [unguarded]. intros Hu.
  apply (traverse_path _ (unfold_ m [])) in Hu; [|intros d _ t; by rewrite (unfold_path m _ [] d)].
  apply (descend_complete (KSlice s) (fun j => traverseE (unfold_ j []) (elements h s)) (fun j g => traverseE (lower_ j g) (elements h s)) m g ts); try done.
  - intros i j Hij. apply (cong_traverse _ succeeds_congruent). intros d _. by apply fuel_succeeds.
  - intros i j g' Hij. apply (cong_traverse _ succeeds_congruent). intros d _. by apply fuel_succeeds.
  - intros i Hi Ha. apply (cong_traverse _ succeeds_congruent). intros d _. apply IH; [lia|done].
  - apply Hin. by exists ts.
Qed.

Variable g : list key.
Hypothesis path : above (S n) g.

Lemma path_le m : (m <= n)%nat -> above m g.
Proof. intros Hm k j Hk Hj. apply path; [done|lia]. Qed.
Lemma path_fresh k : unfolds n k -> k ∉ g.
Proof. intros Hk Hin. by apply (path k n Hin ltac:(lia)). Qed.

Lemma type_complete p : succeeds _ (descendType h unguarded (unfold_ n) p []) (descendType h guarded (lower_ n) p g).
Proof.
  intros t H. unfold descendType, descend in H. cbn [unguarded] in H. rewrite (unfold_path n _ []) in H.
  apply (descend_complete (KType p) (fun j => unfold_ j [] (h_type h p)) (fun j g => lower_ j g (h_type h p)) n g t); try done.
  - intros i j. apply fuel_succeeds.
  - intros i j g'. apply fuel_succeeds.
  - intros m Hm Ha. by apply IH.
  - apply path_fresh. by exists t.
  - by apply path_le.
Qed.

Lemma union_complete u :
  succeeds _ (descend unguarded (KUnion u) [] (lowerUnion h (unfold_ n) (h_union h u))) (descend guarded (KUnion u) g (lowerUnion h (lower_ n) (h_union h u))).
Proof.
  intros w H. unfold descend at 1 in H. cbn [unguarded] in H.
  assert (lowerUnion h (unfold_ n) (h_union h u) [] = inl w) as H'.
  { revert H. apply (cong_union _ succeeds_congruent). intros d _ t. by rewrite (unfold_path n _ [] d). }
  apply (descend_complete (KUnion u) (fun j => lowerUnion h (unfold_ j) (h_union h u) []) (fun j => lowerUnion h (lower_ j) (h_union h u)) n g w); try done.
  - intros i j Hij. apply (cong_union _ succeeds_congruent). intros d _. by apply fuel_succeeds.
  - intros i j g' Hij. apply (cong_union _ succeeds_congruent). intros d _. by apply fuel_succeeds.
  - intros m Hm Ha. apply (cong_union _ succeeds_congruent). intros d _. by apply IH.
  - apply path_fresh. by exists w.
  - by apply path_le.
Qed.

Lemma arrow_complete a :
  succeeds _ (descend unguarded (KArrow a) [] (lowerArrow h unguarded (unfold_ n) (h_arrow h a)))
    (descend guarded (KArrow a) g (lowerArrow h guarded (lower_ n) (h_arrow h a))).
Proof.
  intros w H. unfold descend at 1 in H. cbn [unguarded] in H.
  assert (lowerArrow h unguarded (unfold_ n) (h_arrow h a) [] = inl w) as H'.
  { revert H. apply (cong_arrow _ succeeds_congruent); [apply slice_path|]. intros t. by rewrite (unfold_path n _ []). }
  apply (descend_complete (KArrow a) (fun j => lowerArrow h unguarded (unfold_ j) (h_arrow h a) []) (fun j => lowerArrow h guarded (lower_ j) (h_arrow h a)) n g w); try done.
  - intros i j Hij. apply (cong_arrow _ succeeds_congruent); [apply slice_succeeds; intros; by apply fuel_succeeds|by apply fuel_succeeds].
  - intros i j g' Hij. apply (cong_arrow _ succeeds_congruent); [apply slice_succeeds; intros; by apply fuel_succeeds|by apply fuel_succeeds].
  - intros m Hm Ha. apply (cong_arrow _ succeeds_congruent); [|by apply IH]. apply slice_complete; [done|done|].
    intros (ts&Hts) [?|Hin]%elem_of_cons; [done|]. refine (path_fresh (KSlice _) _ Hin). exists ts.
    revert Hts. apply (cong_traverse _ succeeds_congruent). intros d _. by apply fuel_succeeds.
  - apply path_fresh. by exists w.
  - by apply path_le.
Qed.
End Step.

Lemma guard_complete n g d : above n g -> succeeds _ (unfold_ n [] d) (lower_ n g d).
Proof.
  revert g d. induction n as [[|n] IH] using lt_wf_ind; intros g d Hg; [by intros ?|].
  assert (forall m g d, (m <= n)%nat -> above m g -> succeeds _ (unfold_ m [] d) (lower_ m g d)) as IH' by (intros; apply IH; [lia|done]).
  apply (cong_step _ succeeds_congruent). intros kind meta. apply (cong_payload _ succeeds_congruent).
  - intros p _. by apply type_complete.
  - intros u _. by apply union_complete.
  - intros a _. by apply arrow_complete.
  - intros s _. apply (slice_complete n); [done|lia|by apply (path_le n)|by apply (path_fresh n)].
Qed.
End Complete.

(** ** The bundle *)

Definition closedBundle (U : key -> Prop) (d : DBundle) : Prop := forall t, t ∈ rootTypes d -> closedType U t.

Lemma from_descriptor_inl h blocked n d b :
  fromDescriptor h blocked n d = inl b <->
  exists b0, lowerBundle (lowerDescriptorType h blocked n []) d = inl b0 /\ Validate b0 = (b, None).
Proof.
  unfold fromDescriptor. destruct (lowerBundle _ d) as [b0|e]; cbn [bindE]; [|by split; [|intros (?&?&_)]].
  destruct (Validate b0) as [b1 [e|]] eqn:E; split.
  - done.
  - intros (?&[= <-]&?). congruence.
  - intros [= <-]. by exists b0.
  - intros (?&[= <-]&?). congruence.
Qed.

(** C32. The guard is neither too strict nor too lax: on every finite graph of descriptors
    (its pointers and slices a list [U]) [FromStaticDescriptor] returns without
    exhausting a stack deeper than the graph has pointers and slices, and it returns a
    bundle exactly when unfolding the graph into a tree, with no guard at all, ends in
    that bundle.  So every cycle is refused and no sharing is. *)
Theorem static_descriptor_exact h U d fuel :
  closedHeap h (fun k => k ∈ U) -> closedBundle (fun k => k ∈ U) d -> (length U < fuel)%nat ->
  FromStaticDescriptor h fuel d <> inr DFuel /\
  forall b, FromStaticDescriptor h fuel d = inl b <-> exists n, unfoldDescriptor h n d = inl b.
Proof.
  intros Hh Hd Hf.
  assert (forall n, (fuel <= n)%nat -> agreeE _ (lowerBundle (lowerDescriptorType h guarded fuel []) d) (lowerBundle (lowerDescriptorType h guarded n []) d)) as Hagree.
  { intros n Hn. apply (cong_bundle _ agreeE_congruent). intros t Ht. apply (lower_enough h U Hh); [by apply Hd| |done].
    pose proof (remaining_le U []). lia. }
  split.
  - unfold FromStaticDescriptor, fromDescriptor. destruct (Hagree fuel ltac:(lia)) as [_ Hne].
    destruct (lowerBundle _ d) as [b0|e]; cbn [bindE]; [by destruct (Validate b0) as [? [|]]|]. intros [= ->]. by apply Hne.
  - intros b. unfold FromStaticDescriptor, unfoldDescriptor. setoid_rewrite from_descriptor_inl. split.
    + intros (b0&Hb0&?). exists fuel, b0. split; [|done]. revert Hb0. apply (cong_bundle _ succeeds_congruent). intros t _. apply guard_sound.
    + intros (n&b0&Hb0&?). exists b0. split; [|done]. destruct (Hagree (n `max` fuel)%nat ltac:(lia)) as [-> _].
      revert Hb0. apply (cong_bundle _ succeeds_congruent). intros t _ a Ha.
      apply (lower_fuel_ok h guarded n); [lia|]. revert Ha. apply guard_complete. intros k j Hk. set_solver.
Qed.

(** ** Two graphs: a list that is its own element, and a map whose key and value are one node *)

Module Witness.
Definition node (kind : string) (prim : string) (elem key value : option nat) : DType :=
  mkDType kind noMeta prim "" "" "" false None elem key value None None None.
Definition nodes : heap :=
  mkHeap (fun p => match p with O => node "list" "" (Some 0%nat) None None | _ => node "primitive" "string" None None None end)
    (fun _ => mkDUnion (0%nat, 0%nat) false) (fun _ => mkDArrow (0%nat, 0%nat) (node "top" "" None None None)).
Definition output (t : DType) : DBundle := mkDBundle 1 t [] [] [] [].
Definition cyclic : DBundle := output (node "list" "" (Some 0%nat) None None).
Definition shared : DBundle := output (node "map" "" None (Some 1%nat) (Some 1%nat)).
Definition sharedType : type :=
  TypeMap noMeta (Some (TypePrimitive noMeta PrimitiveString)) (Some (TypePrimitive noMeta PrimitiveString)).

Example cyclic_refused : FromStaticDescriptor nodes 5 cyclic = inr (DCycle (KType 0)).
Proof. reflexivity. Qed.

Lemma nodes_closed U : U = [KType 0] \/ U = [KType 1] -> closedHeap nodes (fun k => k ∈ U).
Proof.
  intros [->| ->] k ->%list_elem_of_singleton; cbn; (repeat split; [|done|done|done]); intros p Hp; cbn in Hp; set_solver.
Qed.
Lemma output_closed (U : list key) t : closedType (fun k => k ∈ U) t -> closedBundle (fun k => k ∈ U) (output t).
Proof. by intros H t' ->%list_elem_of_singleton. Qed.
End Witness.

Lemma static_descriptor_exact_witness :
  (forall n b, unfoldDescriptor Witness.nodes n Witness.cyclic <> inl b) /\
  exists n b, unfoldDescriptor Witness.nodes n Witness.shared = inl b /\ Target b = Witness.sharedType.
Proof.
  split.
  - intros n b Hb. destruct (static_descriptor_exact Witness.nodes [KType 0] Witness.cyclic 5) as [_ H].
    + apply Witness.nodes_closed. by left.
    + apply Witness.output_closed. repeat split; [|done|done|done]. intros p Hp. cbn in Hp. set_solver.
    + cbn. lia.
    + assert (FromStaticDescriptor Witness.nodes 5 Witness.cyclic = inl b) as Hc by (apply H; by exists n). by rewrite Witness.cyclic_refused in Hc.
  - destruct (static_descriptor_exact Witness.nodes [KType 1] Witness.shared 5) as [_ H].
    + apply Witness.nodes_closed. by right.
    + apply Witness.output_closed. repeat split; [|done|done|done]. intros p Hp. cbn in Hp. set_solver.
    + cbn. lia.
    + destruct (FromStaticDescriptor Witness.nodes 5 Witness.shared) as [b|e] eqn:E; [|by vm_compute in E].
      destruct (proj1 (H b) eq_refl) as [n Hn]. exists n, b. split; [done|]. vm_compute in E. by injection E as <-.
Defined.
